(* ===== verification/_CoqProject ===== *)
-Q . S2P
Prelude.v
CType.v
Chains.v
CBuffer.v
SqObject.v
SqArray.v
SqArrayLib.v
SqArrayLibSpec.v
SqString.v
SqRefTable.v
SqLexer.v
SqLexerSpec.v
SqLexerRound.v
SqLexerUtf8.v
SqRex.v
SqRexParse.v
SqRexSpec.v
SqStream.v
SqBlob.v
SqStringLib.v
SqStringLibSpec.v
SqEscape.v
SqProto.v
SqProtoSpec.v
SqLoadFile.v
SqLoadFileSpec.v
SqTable.v
SqTableInv.v
SqTableSpec.v
SqClass.v
SqClassSpec.v
MinIni.v
MinIniSpec.v
MinIniPut.v
MinIniRound.v
MinIniFile.v
MinIniNum.v
SqKeywords.v
SqFuncState.v
SqCompiler.v
SqVm.v
SqPeephole.v
SqCompilerEnds.v
SqCompilerTotal.v
SqCompilerWhole.v
SqCompilerRead.v
SqExpression.v
SqCompilerView.v
SqCompilerCode.v
SqCompilerEval.v
SqCompilerExpr.v
SqCompilerOps.v
SqCompilerLevels.v
SqCompilerCalls.v
SqCompilerCorrect.v
SqStatement.v
SqCompilerRun.v
SqCompilerScope.v
SqCompilerSimple.v
SqCompilerBlocks.v
SqCompilerProgram.v
AcornsProcess.v
AcornsProcessInv.v
AcornsProcessSpec.v
AcornsInput.v
AcornsConfig.v
