(* ===== verification/Prelude.v ===== *)
(** * Acorns: a verification library for the Squirrel-on-ESP32 runtime

    Acorns runs Squirrel scripts on ESP32 boards.  Its sources are the Squirrel
    language (src/utility/sq*.cpp and sq*.h: lexer, compiler, virtual machine,
    tables, arrays, strings, and the standard library of regular expressions,
    streams, blobs and string functions), and on top of it a process layer
    (src/acorns.cpp): programs that are loaded, run and closed by name, and a
    pool of threads that works on requests for them.

    ** Conventions

    The platform is that of the boards: 32-bit [int], [long] and pointers,
    little-endian, unsigned plain [char], assertions enabled, no wide
    characters.  Machine integers are [Z] with the wrap-around written out
    ([u32], [s32]).  Code that can fail returns [res]: a value, or the fault
    that stops it, which is a failed assertion, an access outside an object, a
    use of freed memory, a copy between regions that overlap, a message raised for
    the script, or fuel used up.  Code with state is in the state monad [stM].
    [safe m s Q] says that a run of [m] from [s] does not fault other than by a
    message and ends in [Q]; [runs m s Q] that it returns a result in [Q].  An allocation always
    succeeds, unless a text says otherwise.

    Pointers into a node array are indices; pointers to objects of the heap are
    addresses given out by a class [Allocator], of which nothing is assumed but
    that a new address is not in use.

    ** Files

    - Prelude: integers, faults, monads, generic lemmas, tactics.
    - CType: the character classes of the C library.
    - CBuffer: character buffers of C functions and the strings in them.
    - Chains: linked chains hung off an array of buckets, with their shape
      predicate, for SqString and SqRefTable.
    - SqObject: type tags, payloads, hashes (squirrel.h, sqobject.h/.cpp,
      sqstring.h, sqtable.h).
    - SqArray: [sqvector] (squtils.h) and [SQArray] (sqarray.h).
    - SqArrayLib, SqArrayLibSpec: the functions scripts call on arrays
      (sqbaselib.cpp), with the comparison of objects (sqvm.cpp).
    - SqString: [SQStringTable] (sqstate.cpp), the interning of strings.
    - SqRefTable: [RefTable] (sqstate.cpp), the references held by the host.
    - SqLexer, SqLexerSpec, SqLexerRound, SqLexerUtf8: [SQLexer] (sqlexer.cpp)
      and its correctness.
    - SqRex, SqRexParse, SqRexSpec: regular expressions (sqstdrex.cpp), the
      tree a compiled pattern represents, and what it matches.
    - SqStream: the stream interface and the functions of scripts on it
      (sqstdstream.cpp), the class [SQFile] (sqstdio.cpp).
    - SqBlob: blobs (sqstdblobimpl.h, sqstdblob.cpp).
    - SqStringLib, SqStringLibSpec: the string library (sqstdstring.cpp) and the
      scratch pad it writes to (sqstate.cpp).
    - SqEscape: the string library composed with the lexer.
    - SqProto, SqProtoSpec: compiled functions (sqfuncproto.h), how they are
      written and read (sqobject.cpp, sqapi.cpp).
    - SqLoadFile, SqLoadFileSpec: script and closure files (sqstdio.cpp).
    - SqTable, SqTableInv, SqTableSpec: [SQTable] (sqtable.h/.cpp), its
      representation invariant and its refinement of finite maps.
    - SqClass, SqClassSpec: classes and instances (sqclass.h/.cpp), over SqTable,
      and the metamethods of the shared state (sqstate.cpp).
    - MinIni, MinIniSpec, MinIniPut, MinIniRound, MinIniFile, MinIniNum:
      configuration files (minIni.cpp): the functions, what a text means, the
      copying of a file with a change, what the change does to its meaning, the
      functions on files, and numbers.
    - SqKeywords: the lexer's keyword table, composed of the string table, the
      hash table and the lexer.
    - SqFuncState, SqCompiler: the compiler (sqcompiler.cpp, sqfuncstate.cpp),
      which emits instructions (sqopcodes.h) while it reads tokens.
    - SqVm: the instructions of expressions (sqvm.cpp) and what they do to
      numbers, strings and truth values.
    - SqPeephole: when [AddInstruction] may put one instruction in the place of
      two.
    - SqCompilerEnds, SqCompilerTotal, SqCompilerWhole: the compiler ends, one
      lemma for each function of the grammar, over an invariant of its state.
    - SqCompilerRead, SqExpression, SqCompilerView, SqCompilerCode, SqCompilerEval,
      SqCompilerExpr, SqCompilerOps, SqCompilerLevels, SqCompilerCalls,
      SqCompilerCorrect: expressions, how they are written and what they evaluate
      to, and that the compiler translates them right: a description of its
      state, what the instructions emitted so far do, and a lemma for each level
      of the grammar.
    - SqStatement, SqCompilerRun, SqCompilerScope, SqCompilerSimple,
      SqCompilerBlocks: the same for statements, whose instructions jump forwards and
      backwards.
    - SqCompilerProgram: whole programs, from the text to the run of the function.
    - AcornsProcess, AcornsProcessInv, AcornsProcessSpec: programs, requests and
      pool threads (acorns.cpp), as a transition system.
    - AcornsInput: the input buffers of programs.
    - AcornsConfig: the configuration of the device (acorns.cpp), over MinIni.

    ** What is shown

    Containers.  Tables, arrays, the string table and the host references are
    related to finite maps, lists, sets of strings and counts: every sequence of
    operations runs without a fault and answers as the abstract object does,
    arrays as long as they have 2^28 elements at most: the size of their memory
    in bytes is computed in 32 bits, and [array_size_overruns] shows what comes of
    it beyond.  The functions of scripts on arrays act as functions on lists, and
    [sort] sorts.

    Classes.  Every sequence of operations on classes and instances answers as a
    description in which a class is a finite map from names to members, copied
    from its base when it is created and closed to new fields when it has an
    instance.

    Lexer.  It ends on every input, its assertions hold and its line numbers are
    right; printed tokens are read back; Unicode escapes are the UTF-8 encoding;
    the keyword table it builds is the list of keywords.

    Regular expressions.  Compiling stays inside the pattern and the node array
    and yields a tree; matching and searching end, stay inside the text, and
    report only what is in the language of the tree, which is a relation
    defined without reference to the matcher.

    Streams and blobs.  The functions of scripts are proved against an
    interface; blobs implement it, and so does [SQFile] if the C library's files
    do.  Numbers written are read back.  A blob written to itself, which the
    interface allows, is copied from memory that was freed or onto itself.

    String library.  [format] against a reference without buffers, [strip] and
    [split] against their specifications; what [escape] writes is read back
    by the lexer.

    Compiled functions.  A closure written to a file and loaded from it has the
    function that was written, while its default parameters and its environment
    are not kept; a file that is cut short is refused; a script
    file is decoded by its byte order mark; the line of an instruction and the
    name of a variable are those the compiler recorded.

    Compiler.  It ends on every text, with a bound on the calls that is linear in
    the length of the text; joining two instructions into one does not change
    what they do to the registers still in use.  A program of expressions,
    assignments to local variables, [return], blocks, [if] and [while] is
    compiled to instructions that do what it says: the behaviour of expressions and
    statements is defined by recursion on their syntax, how they are written by rules for
    each level of the grammar, and the run of the virtual machine ends with the result,
    exception and store of that behaviour.  Functions, classes, tables, arrays,
    [for], [switch] and [try] are modelled in the compiler and its end is
    shown for them, but not what their instructions do.

    Configuration.  The text of a file is a list of settings under headings:
    [ini_gets] finds what the list has, and every sequence of changes acts on the
    list as a function, for every text of the file, however long its lines or
    its size; numbers come back as they were written.  Over this, scripts read
    the value that was written last under a name.

    Process layer.  In every interleaving reference counts are exact and
    structures are freed exactly once; the text a host sends in pieces is the
    text that runs.

    Most groups end with lemmas about inputs or executions for which the code
    goes wrong; the theorems above carry the conditions that exclude them.

    ** Bounds and fuel

    Loops and recursions that are not structural carry fuel, and the theorems
    show that the fuel given is never used up: the lexer's loops get two more
    than the characters left; [NewSlot] and [Rehash] of the table call each
    other to a depth of two; the matcher's fuel is computed from the sizes of the
    nodes and of the text, as is the fuel of the pattern compiler; the loop of
    [format] gets one more than the length of the format; reading a function gets
    the depth of its nesting; the loops over the lines of a configuration file get
    one more than its length; the functions of the compiler call each other, and
    their loops go round, 80 times for each character and 16 times more at most, and
    for the programs above 16 times for each token and 4 times more;
    the walks along the bases of a class get the number
    of classes; sifting in [sort] gets two more than the size of
    the array.  Sizes of buffers are
    bounded where the 32-bit arithmetic of the code needs it: less than 2^29
    bytes for streams and blobs, 2^28 elements for arrays.  The nodes of a table
    are taken to fit the memory, whose 2^32 bytes bound their number.

    ** Not modelled

    - The virtual machine (sqvm.cpp) but for the instructions of expressions, the
      API (sqapi.cpp), the rest of the base library (sqbaselib.cpp) and the
      objects only they use (sqclosure, squserdata): they need a model of the
      stack of frames and of all object types.
    - Reference counting of objects and the garbage collector (sqstate.cpp).
    - Wrappers of the C library: sqstdmath.cpp, sqstdsystem.cpp, sqstdaux.cpp,
      posix_compat.cpp, sqmem.cpp; opening files (sqstdio.cpp).
    - The table [config] of scripts with its delegate, and the C++ class of
      minIni.h, which passes its arguments on.
    - The device: pins, network, console and set-up (acorns_arduinobindings.cpp
      and the rest of acorns.cpp), which is input and output through libraries
      outside the sources.

    The interpreter is a parameter of the process layer, [snprintf] one of
    [format], [strtod] one of the lexer, the files of the C library one of
    [SQFile] and of the loading of files, whether a configuration file can be
    opened for writing one of [ini_puts], the functions scripts pass to [sort],
    [map] and the like one of the array functions. *)

From Stdlib Require Import Ascii.
From stdpp Require Import base numbers list list_numbers gmap strings option relations.

(** ** Machine integers

    The targets (ESP32 and ESP8266, both Xtensa) have 32-bit [int], [long] and
    pointers and an unsigned plain [char]; [_SQ64] and [SQUSEDOUBLE] are not
    defined, so [SQInteger] is a signed and [SQUnsignedInteger]/[SQHash] an
    unsigned 32-bit integer.  A machine integer is a [Z]; these functions are
    the conversions to a width, and every operation that can wrap is written
    with them. *)

Declare Scope machine_scope.
Delimit Scope machine_scope with machine.

Definition wrap (w z : Z) : Z := (z mod 2 ^ w)%Z.
Definition u8 : Z → Z := wrap 8.
Definition u16 : Z → Z := wrap 16.
Definition u32 : Z → Z := wrap 32.
Definition u64 : Z → Z := wrap 64.

(** Two's complement reading of the low 32 bits. *)
Definition s32 (z : Z) : Z :=
  (let u := u32 z in if u <? 2 ^ 31 then u else u - 2 ^ 32)%Z.

Notation "x +ᵤ y" := (u32 (x + y)%Z) (at level 50, left associativity) : machine_scope.
Notation "x *ᵤ y" := (u32 (x * y)%Z) (at level 40, left associativity) : machine_scope.
Notation "x <<ᵤ n" := (u32 (Z.shiftl x n)%Z) (at level 39, left associativity) : machine_scope.

(** ** Hint databases *)

Create HintDb machine.
Create HintDb sq.

Lemma wrap_range w z : (0 ≤ w)%Z → (0 ≤ wrap w z < 2 ^ w)%Z.
Proof. intros. apply Z.mod_pos_bound. by apply Z.pow_pos_nonneg. Qed.

Lemma u32_range z : (0 ≤ u32 z < 2 ^ 32)%Z.
Proof. by apply wrap_range. Qed.

Lemma wrap_small w z : (0 ≤ z < 2 ^ w)%Z → wrap w z = z.
Proof. apply Z.mod_small. Qed.

Lemma u8_small z : (0 ≤ z < 256)%Z → u8 z = z.
Proof. exact (wrap_small 8 z). Qed.
Lemma u32_small z : (0 ≤ z < 2 ^ 32)%Z → u32 z = z.
Proof. apply wrap_small. Qed.

Lemma s32_range z : (- 2 ^ 31 ≤ s32 z < 2 ^ 31)%Z.
Proof.
  unfold s32. pose proof (u32_range z). destruct (Z.ltb_spec (u32 z) (2 ^ 31)); lia.
Qed.

Lemma s32_small z : (- 2 ^ 31 ≤ z < 2 ^ 31)%Z → s32 z = z.
Proof.
  intros Hz. unfold s32, u32, wrap.
  destruct (decide (0 ≤ z)%Z).
  - rewrite Z.mod_small by lia. destruct (Z.ltb_spec z (2 ^ 31)); lia.
  - rewrite <- (Z.mod_add z 1) by lia. rewrite Z.mod_small by lia.
    destruct (Z.ltb_spec (z + 1 * 2 ^ 32) (2 ^ 31)); lia.
Qed.

Lemma u32_s32 z : u32 (s32 z) = u32 z.
Proof.
  unfold s32. destruct (Z.ltb_spec (u32 z) (2 ^ 31)).
  - apply u32_small, u32_range.
  - unfold u32, wrap. rewrite <- (Z.mod_add _ 1) by lia.
    replace (z mod 2 ^ 32 - 2 ^ 32 + 1 * 2 ^ 32)%Z with (z mod 2 ^ 32)%Z by lia.
    by rewrite Z.mod_mod.
Qed.

#[export] Hint Resolve u32_range s32_range wrap_range : machine.

(** A power-of-two mask computes a remainder: the idiom [h & (size - 1)]. *)
Lemma land_mask h k : (0 ≤ k)%Z → Z.land h (2 ^ k - 1) = (h mod 2 ^ k)%Z.
Proof.
  intros. replace (2 ^ k - 1)%Z with (Z.ones k) by (rewrite Z.ones_equiv; lia).
  by apply Z.land_ones.
Qed.

(** ** Characters *)

Definition char_code (c : ascii) : Z := Z.of_N (N_of_ascii c).
Definition code_char (z : Z) : ascii := ascii_of_N (Z.to_N (u8 z)).

Lemma char_code_range c : (0 ≤ char_code c < 256)%Z.
Proof.
  unfold char_code. pose proof (N_ascii_bounded c). lia.
Qed.

Lemma code_char_code c : code_char (char_code c) = c.
Proof.
  unfold code_char, u8. rewrite wrap_small by (apply char_code_range).
  unfold char_code. rewrite N2Z.id. apply ascii_N_embedding.
Qed.

Lemma char_code_code z : (0 ≤ z < 256)%Z → char_code (code_char z) = z.
Proof.
  intros Hz. unfold code_char, u8. rewrite (wrap_small 8 z) by done.
  unfold char_code. rewrite N_ascii_embedding by lia. lia.
Qed.

(** A C string as the library functions see it: up to its first NUL. *)
Fixpoint c_str (s : list ascii) : list ascii :=
  match s with
  | [] => []
  | c :: s' => if bool_decide (c = Ascii.zero) then [] else c :: c_str s'
  end.

Lemma c_str_app s t : Ascii.zero ∉ s → c_str (s ++ t) = s ++ c_str t.
Proof.
  induction s as [|c s IH]; [done|]. rewrite not_elem_of_cons. intros [Hc Hs]. simpl.
  rewrite bool_decide_eq_false_2 by congruence. f_equal. by apply IH.
Qed.

Lemma c_str_id s : Ascii.zero ∉ s → c_str s = s.
Proof. intros Hs. rewrite <- (app_nil_r s) at 1. rewrite c_str_app by done. apply app_nil_r. Qed.

Lemma c_str_terminated s : Ascii.zero ∉ s → c_str (s ++ [Ascii.zero]) = s.
Proof. intros Hs. rewrite c_str_app by done. apply app_nil_r. Qed.

(** ** Memory

    [malloc] gives an address that is not in use; a failing allocation is
    outside the model.  Components that keep nodes in a heap of their own are
    stated over every allocator. *)
Class Allocator := {
  malloc : gset Z → Z;
  malloc_fresh X : malloc X ∉ X
}.

#[export] Instance fresh_allocator : Allocator := { malloc := λ X, fresh X; malloc_fresh := is_fresh }.

(** ** Results

    A computation of the model either gives a value or stops.  [OutOfFuel]
    marks a loop whose bound was too small; [AssertFail] a failed [assert] or
    a null dereference; [OutOfBounds] and [UseAfterFree] an access to memory
    the code does not own; [Overlap] a [memcpy] between regions that overlap;
    [Raised] an error the code reports by leaving the
    computation ([longjmp] in the compiler and in the regular expression
    parser).  Theorems show which of them cannot happen. *)
Inductive fault :=
  | OutOfFuel
  | AssertFail
  | OutOfBounds
  | UseAfterFree
  | Overlap
  | Raised (msg : string).

Inductive res (A : Type) := Ok (a : A) | Err (e : fault).
Arguments Ok {A} _.
Arguments Err {A} _.

#[export] Instance res_ret : MRet res := λ A x, Ok x.
#[export] Instance res_bind : MBind res :=
  λ A B f m, match m with Ok a => f a | Err e => Err e end.
#[export] Instance res_fmap : FMap res :=
  λ A B f m, match m with Ok a => Ok (f a) | Err e => Err e end.

(** A value that must be there, or the fault its absence is. *)
Definition expect {A} (e : fault) (o : option A) : res A :=
  match o with Some a => Ok a | None => Err e end.

(** A loop body over the elements of a list, stopping at the first fault. *)
Fixpoint fold_res {A S} (f : S → A → res S) (l : list A) (s : S) : res S :=
  match l with
  | [] => Ok s
  | x :: l' => match f s x with Ok s' => fold_res f l' s' | Err e => Err e end
  end.

Lemma fold_res_app {A S} (f : S → A → res S) l1 l2 s :
  fold_res f (l1 ++ l2) s = (fold_res f l1 s ≫= fold_res f l2).
Proof.
  revert s. induction l1 as [|x l1 IH]; intros s; simpl; [done|].
  destruct (f s x); simpl; [apply IH|done].
Qed.

(** The invariant rule for such loops. *)
Lemma fold_res_inv {A S} (f : S → A → res S) (I : list A → S → Prop) l s :
  I [] s →
  (∀ done x todo s, l = done ++ x :: todo → I done s →
     ∃ s', f s x = Ok s' ∧ I (done ++ [x]) s') →
  ∃ s', fold_res f l s = Ok s' ∧ I l s'.
Proof.
  intros H0 Hstep.
  cut (∀ todo done s, l = done ++ todo → I done s →
         ∃ s', fold_res f todo s = Ok s' ∧ I l s'); [intros Hc; by apply (Hc l [])|].
  induction todo as [|x todo IH]; intros dn s1 Hl HI; simpl.
  - rewrite app_nil_r in Hl. subst dn. eauto.
  - destruct (Hstep dn x todo s1 Hl HI) as (s2 & -> & HI2).
    apply (IH (dn ++ [x])); [by rewrite <- app_assoc|done].
Qed.

(** ** Stateful code

    Code that works on one object through its fields is a function from the
    object to a result and the changed object. *)
Definition stM (S A : Type) : Type := S → res (A * S).

#[export] Instance stM_ret S : MRet (stM S) := λ A x s, Ok (x, s).
#[export] Instance stM_bind S : MBind (stM S) :=
  λ A B f m s, match m s with Ok (a, s') => f a s' | Err e => Err e end.

Definition gets {S A} (f : S → A) : stM S A := λ s, Ok (f s, s).
Definition modify {S} (f : S → S) : stM S () := λ s, Ok ((), f s).
Definition raise {S A} (e : fault) : stM S A := λ _, Err e.
Definition lift {S A} (r : res A) : stM S A :=
  λ s, match r with Ok a => Ok (a, s) | Err e => Err e end.
Definition when {S} (b : bool) (m : stM S ()) : stM S () := if b then m else mret ().

Lemma bind_ok {S A B} (f : A → stM S B) (m : stM S A) s r :
  (m ≫= f) s = Ok r ↔ ∃ a s', m s = Ok (a, s') ∧ f a s' = Ok r.
Proof.
  unfold mbind, stM_bind. destruct (m s) as [[a s']|e]; split; try done.
  - eauto.
  - intros (? & ? & [= -> ->] & ?). done.
  - intros (? & ? & ? & ?). done.
Qed.

(** [safe m s Q]: from [s], [m] ends in a state and with a value that satisfy
    [Q], or reports an error; it does not fault. *)
Definition safe {S A} (m : stM S A) (s : S) (Q : A → S → Prop) : Prop :=
  match m s with
  | Ok (a, s') => Q a s'
  | Err (Raised _) => True
  | Err _ => False
  end.

Section safe.
Context {S A B : Type}.
Implicit Types (m : stM S A) (f : A → stM S B) (s : S).

Lemma safe_mono m s (Q Q' : A → S → Prop) :
  safe m s Q → (∀ a s', Q a s' → Q' a s') → safe m s Q'.
Proof. unfold safe. destruct (m s) as [[]|[]]; auto. Qed.

Lemma safe_bind m f s (Q : B → S → Prop) :
  safe m s (λ a s', safe (f a) s' Q) → safe (m ≫= f) s Q.
Proof. unfold safe, mbind, stM_bind. destruct (m s) as [[]|[]]; auto. Qed.

Lemma safe_unbind m f s (Q : B → S → Prop) :
  safe (m ≫= f) s Q → safe m s (λ a s', safe (f a) s' Q).
Proof. unfold safe, mbind, stM_bind. destruct (m s) as [[]|[]]; auto. Qed.

Lemma safe_ret (a : A) s (Q : A → S → Prop) : Q a s → safe (mret a) s Q.
Proof. done. Qed.

Lemma safe_gets (g : S → A) s (Q : A → S → Prop) : Q (g s) s → safe (gets g) s Q.
Proof. done. Qed.

Lemma safe_modify (g : S → S) s (Q : () → S → Prop) : Q () (g s) → safe (modify g) s Q.
Proof. done. Qed.

Lemma safe_raised msg s (Q : A → S → Prop) : safe (raise (Raised msg)) s Q.
Proof. done. Qed.

Lemma safe_when b (m : stM S ()) s (Q : () → S → Prop) :
  (b = true → safe m s Q) → (b = false → Q () s) → safe (when b m) s Q.
Proof. destruct b; [auto|]. intros _ HQ. by apply HQ. Qed.

Lemma safe_lift (r : res A) s (Q : A → S → Prop) a :
  r = Ok a → Q a s → safe (lift r) s Q.
Proof. intros ->. done. Qed.
End safe.

(** [runs m s Q]: from [s], [m] ends with a value and a state that satisfy
    [Q]. *)
Definition runs {S A} (m : stM S A) (s : S) (Q : A → S → Prop) : Prop :=
  match m s with Ok (a, s') => Q a s' | Err _ => False end.

Section runs.
Context {S A B : Type}.
Implicit Types (m : stM S A) (f : A → stM S B) (s : S).

Lemma runs_mono m s (Q Q' : A → S → Prop) :
  runs m s Q → (∀ a s', Q a s' → Q' a s') → runs m s Q'.
Proof. unfold runs. destruct (m s) as [[]|]; auto. Qed.

Lemma runs_bind m f s (Q : B → S → Prop) :
  runs m s (λ a s', runs (f a) s' Q) → runs (m ≫= f) s Q.
Proof. unfold runs, mbind, stM_bind. destruct (m s) as [[]|]; auto. Qed.

Lemma runs_ret (a : A) s (Q : A → S → Prop) : Q a s → runs (mret a) s Q.
Proof. done. Qed.

Lemma runs_gets (g : S → A) s (Q : A → S → Prop) : Q (g s) s → runs (gets g) s Q.
Proof. done. Qed.

Lemma runs_modify (g : S → S) s (Q : () → S → Prop) : Q () (g s) → runs (modify g) s Q.
Proof. done. Qed.

Lemma runs_when b (m : stM S ()) s (Q : () → S → Prop) :
  (b = true → runs m s Q) → (b = false → Q () s) → runs (when b m) s Q.
Proof. destruct b; [auto|]. intros _ HQ. by apply HQ. Qed.

Lemma runs_lift (r : res A) s (Q : A → S → Prop) a :
  r = Ok a → Q a s → runs (lift r) s Q.
Proof. intros ->. done. Qed.

Lemma runs_ok m s (Q : A → S → Prop) : runs m s Q ↔ ∃ a s', m s = Ok (a, s') ∧ Q a s'.
Proof.
  unfold runs. destruct (m s) as [[a s']|]; split; [eauto| |done|by intros (? & ? & ? & ?)].
  intros (? & ? & [= -> ->] & ?). done.
Qed.
End runs.

(** ** Lists *)

Section list_lemmas.
Context {A : Type}.
Implicit Types (l : list A) (i j : nat) (x y : A).

Lemma lookup_alter_cases (f : A → A) l i j y :
  alter f i l !! j = Some y →
  (i = j ∧ ∃ x, l !! j = Some x ∧ y = f x) ∨ (i ≠ j ∧ l !! j = Some y).
Proof.
  destruct (decide (i = j)) as [->|Hne].
  - rewrite list_lookup_alter_eq. intros (x & Hx & ->)%fmap_Some. left; eauto.
  - rewrite list_lookup_alter_ne by done. eauto.
Qed.

Lemma alter_as_insert (f : A → A) l i x :
  l !! i = Some x → alter f i l = <[i := f x]> l.
Proof.
  revert i. induction l as [|y l IH]; intros [|i] Hi; simplify_eq/=; [done|].
  f_equal. by apply IH.
Qed.

(** A duplicate-free list of indices below [n] has at most [n] members. *)
Lemma NoDup_bounded_length (l : list nat) n :
  NoDup l → (∀ i, i ∈ l → i < n) → length l ≤ n.
Proof.
  intros Hnd Hb. rewrite <- (length_seq n 0).
  apply submseteq_length, NoDup_submseteq; [done|].
  intros i Hi. apply elem_of_seq. split; [lia|]. simpl. by apply Hb.
Qed.
End list_lemmas.

(** Case analysis on every [match] and [if] of the goal or the hypotheses. *)
Ltac case_all :=
  repeat (case_match || case_decide || case_bool_decide); simplify_eq/=; try done.

(** A decidable proposition without variables, by evaluation. *)
Ltac by_evaluation := apply (bool_decide_unpack _); vm_compute; exact I.

(** Turn the boolean integer comparisons of the code into propositions. *)
Ltac bool_to_prop :=
  repeat match goal with
  | H : (_ && _) = true |- _ => apply andb_true_iff in H as [? ?]
  | H : (_ || _) = false |- _ => apply orb_false_iff in H as [? ?]
  | H : (_ =? _)%Z = true |- _ => apply Z.eqb_eq in H
  | H : (_ =? _)%Z = false |- _ => apply Z.eqb_neq in H
  | H : (_ <? _)%Z = true |- _ => apply Z.ltb_lt in H
  | H : (_ <? _)%Z = false |- _ => apply Z.ltb_ge in H
  | H : (_ <=? _)%Z = true |- _ => apply Z.leb_le in H
  | H : (_ <=? _)%Z = false |- _ => apply Z.leb_gt in H
  | H : (_ =? _)%nat = true |- _ => apply Nat.eqb_eq in H
  | H : (_ =? _)%nat = false |- _ => apply Nat.eqb_neq in H
  | H : (_ <? _)%nat = true |- _ => apply Nat.ltb_lt in H
  | H : (_ <? _)%nat = false |- _ => apply Nat.ltb_ge in H
  | H : (_ <=? _)%nat = true |- _ => apply Nat.leb_le in H
  | H : (_ <=? _)%nat = false |- _ => apply Nat.leb_gt in H
  end.
