(* ===== verification/CType.v ===== *)
(** * Character classes of the C library

    The functions of <ctype.h> in the C locale, on character codes, as the
    lexer, the regular expressions and the library functions use them. *)

From Stdlib Require Import Ascii.
From stdpp Require Import base numbers strings.
From S2P Require Import Prelude.

Definition isc (c : Z) (a : ascii) : bool := (c =? char_code a)%Z.
Definition in_range (c : Z) (a b : ascii) : bool := (char_code a <=? c)%Z && (c <=? char_code b)%Z.

Definition isdigit (c : Z) : bool := in_range c "0" "9".
Definition isalpha (c : Z) : bool := in_range c "A" "Z" || in_range c "a" "z".
Definition isalnum (c : Z) : bool := isalpha c || isdigit c.
Definition isxdigit (c : Z) : bool := isdigit c || in_range c "a" "f" || in_range c "A" "F".
Definition iscntrl (c : Z) : bool := ((0 <=? c) && (c <? 32) || (c =? 127))%Z.
Definition toupper (c : Z) : Z := (if in_range c "a" "z" then c - 32 else c)%Z.
Definition isspace (c : Z) : bool := ((9 <=? c) && (c <=? 13) || (c =? 32))%Z.
Definition isprint (c : Z) : bool := ((32 <=? c) && (c <=? 126))%Z.
Definition ispunct (c : Z) : bool := isprint c && negb (isalnum c) && negb (c =? 32)%Z.
Definition islower (c : Z) : bool := in_range c "a" "z".
Definition isupper (c : Z) : bool := in_range c "A" "Z".
Definition tolower (c : Z) : Z := (if in_range c "A" "Z" then c + 32 else c)%Z.

(** The codes of a text. *)
Definition codes (s : string) : list Z := char_code <$> String.list_ascii_of_string s.

Lemma in_range_true c a b : in_range c a b = true ↔ (char_code a ≤ c ≤ char_code b)%Z.
Proof. unfold in_range. rewrite andb_true_iff, !Z.leb_le. done. Qed.

Lemma isdigit_range c : isdigit c = true → (48 ≤ c ≤ 57)%Z.
Proof. apply in_range_true. Qed.
