(* ===== verification/Chains.v ===== *)
(** * Chained buckets

    The string table and the reference table (sqstate.cpp) keep their nodes on
    singly linked chains hung off an array of buckets.  This file has the chain
    walk both of them use and the shape predicate of such a structure, with the
    two pointer updates that change it: linking a node in front of a bucket and
    unlinking one.  [nx] reads the [next] field of a node; it is [None] on an
    address that holds no node. *)

From stdpp Require Import base numbers list option sets.
From S2P Require Import Prelude.

(** The bucket of a hash: [hash & (_numofslots - 1)]. *)
Definition bucket_of (numofslots hash : Z) : nat := Z.to_nat (Z.land hash (numofslots - 1)).

Section chains.
Context {K : Type} `{EqDecision K}.

Implicit Types (nx : K → option (option K)) (p q : option K) (a b : K) (l : list K).

(** The walk [for (s = p; s; prev = s, s = s->next) if (P(s)) break;]: the node
    found with the one before it. *)
Fixpoint walk (nx : K → option (option K)) (P : K → bool) (fuel : nat)
    (prev p : option K) : res (option (K * option K)) :=
  match p with
  | None => Ok None
  | Some a =>
      match fuel with
      | O => Err OutOfFuel
      | S f =>
          q ← expect UseAfterFree (nx a);
          if P a then Ok (Some (a, prev)) else walk nx P f (Some a) q
      end
  end.

(** [p] heads a chain through exactly the nodes of [l], in order. *)
Fixpoint is_chain (nx : K → option (option K)) (p : option K) (l : list K) : Prop :=
  match l with
  | [] => p = None
  | a :: l' => p = Some a ∧ ∃ q, nx a = Some q ∧ is_chain nx q l'
  end.

Lemma is_chain_ext nx nx' p l :
  (∀ a, a ∈ l → nx' a = nx a) → is_chain nx p l → is_chain nx' p l.
Proof.
  revert p. induction l as [|a l IH]; intros p Hext; simpl; [done|].
  intros (-> & q & Hq & Hl). split; [done|]. exists q. split.
  - rewrite Hext; [done|left].
  - apply IH; [|done]. intros b Hb. apply Hext. by right.
Qed.

Lemma is_chain_push nx p a l : nx a = Some p → is_chain nx p l → is_chain nx (Some a) (a :: l).
Proof. simpl. eauto. Qed.

Lemma is_chain_app nx p l1 a l2 :
  is_chain nx p (l1 ++ a :: l2) → ∃ q, nx a = Some q ∧ is_chain nx q l2.
Proof.
  revert p. induction l1 as [|b l1 IH]; intros p; simpl.
  - intros (_ & q & ? & ?). eauto.
  - intros (_ & q & _ & Hl). eauto.
Qed.

(** Unlinking [a]: the node before it (the last of [l1]) now points past it. *)
Lemma is_chain_unlink nx nx' p l1 b a l2 :
  NoDup (l1 ++ b :: a :: l2) →
  is_chain nx p (l1 ++ b :: a :: l2) →
  nx' b = nx a → (∀ c, c ≠ b → c ≠ a → nx' c = nx c) →
  is_chain nx' p (l1 ++ b :: l2).
Proof.
  intros Hnd Hc Hb Hext. revert p Hnd Hc. induction l1 as [|c l1 IH]; intros p Hnd Hc.
  - simpl in *. destruct Hc as (-> & ? & _ & -> & q & Hq & Hl). split; [done|].
    exists q. split; [congruence|].
    apply NoDup_cons in Hnd as [Hb2 Hnd]. apply NoDup_cons in Hnd as [Ha2 _].
    eapply is_chain_ext; [|done]. intros c Hin.
    apply Hext; [|congruence]. intros ->. apply Hb2. by right.
  - rewrite <- app_comm_cons in Hnd, Hc |- *. simpl in Hc |- *.
    destruct Hc as (-> & q & Hq & Hl).
    apply NoDup_cons in Hnd as [Hcn Hnd]. split; [done|]. exists q. split; [|auto].
    rewrite Hext; [done| |]; intros ->; apply Hcn; set_solver.
Qed.

(** The walk finds the first node that satisfies [P], and its predecessor. *)
Lemma walk_ok nx P fuel prev p l :
  is_chain nx p l → length l ≤ fuel →
  walk nx P fuel prev p = Ok None ∧ (∀ a, a ∈ l → P a = false) ∨
  ∃ l1 a l2, l = l1 ++ a :: l2 ∧ P a = true ∧ (∀ b, b ∈ l1 → P b = false) ∧
    walk nx P fuel prev p =
      Ok (Some (a, match last l1 with Some b => Some b | None => prev end)).
Proof.
  revert fuel prev p. induction l as [|a l IH]; intros fuel prev p Hc Hf; simpl in Hc.
  - subst p. left. destruct fuel; (split; [done|]); intros a Ha; by apply elem_of_nil in Ha.
  - destruct Hc as (-> & q & Hq & Hl). destruct fuel as [|f]; simpl in Hf; [lia|].
    simpl. rewrite Hq. simpl. destruct (P a) eqn:HP.
    + right. exists [], a, l. split_and!; done || (intros ? Hin; by apply elem_of_nil in Hin).
    + destruct (IH f (Some a) q Hl) as [[-> Hno]|(l1 & b & l2 & -> & Hb & Hno & ->)]; [lia|left|right].
      * split; [done|]. intros b [->|Hb]%elem_of_cons; auto.
      * exists (a :: l1), b, l2. split_and!; [done|done| |].
        -- intros c [->|Hc]%elem_of_cons; auto.
        -- rewrite last_cons. by destruct (last l1).
Qed.

(** ** Buckets *)

Implicit Types (live : K → Prop) (home : K → nat) (bk : list (option K)).

Definition bucket_ok nx live home (i : nat) p : Prop :=
  ∃ l, is_chain nx p l ∧ NoDup l ∧ ∀ a, a ∈ l ↔ live a ∧ home a = i.

Definition chained nx live home bk : Prop :=
  ∀ i p, bk !! i = Some p → bucket_ok nx live home i p.

Lemma chained_empty nx live home n :
  (∀ a, ¬ live a) → chained nx live home (replicate n None).
Proof.
  intros Hno i p [-> _]%lookup_replicate. exists []. split_and!; [done|constructor|].
  intros a. rewrite elem_of_nil. naive_solver.
Qed.

Lemma chained_iff nx nx' live live' home home' bk :
  (∀ a, live' a ↔ live a) → (∀ a, live a → home' a = home a ∧ nx' a = nx a) →
  chained nx live home bk → chained nx' live' home' bk.
Proof.
  intros Hl Hh Hc i p Hp. destruct (Hc i p Hp) as (l & Hch & Hnd & Hin).
  exists l. split_and!; [|done|].
  - eapply is_chain_ext; [|done]. intros a Ha. by apply Hh, Hin.
  - intros a. rewrite Hin, Hl. split; intros [? <-]; split; auto; [by apply Hh|symmetry; by apply Hh].
Qed.

(** Linking a new node [a] in front of its bucket. *)
Lemma chained_push nx nx' live live' home home' bk a p :
  chained nx live home bk → ¬ live a → bk !! home' a = Some p → nx' a = Some p →
  (∀ b, live b → nx' b = nx b ∧ home' b = home b) → (∀ b, live' b ↔ b = a ∨ live b) →
  chained nx' live' home' (<[home' a := Some a]> bk).
Proof.
  intros Hc Ha Hp Hnx Hext Hl i r Hr.
  destruct (decide (i = home' a)) as [->|Hne].
  - rewrite list_lookup_insert_eq in Hr by (by eapply lookup_lt_Some). injection Hr as <-.
    destruct (Hc _ _ Hp) as (l & Hch & Hnd & Hin). exists (a :: l). split_and!.
    + apply is_chain_push with p; [done|]. eapply is_chain_ext; [|done].
      intros b Hb. apply Hext. by apply Hin.
    + constructor; [|done]. rewrite Hin. tauto.
    + intros b. rewrite elem_of_cons, Hin, Hl. split; [|intros [[->|Hb] Hh]; [by left|right]].
      * intros [->|[Hb Hh]]; [auto|]. split; [auto|]. rewrite <- Hh. by apply Hext.
      * split; [done|]. rewrite <- Hh. symmetry. by apply Hext.
  - rewrite list_lookup_insert_ne in Hr by done.
    destruct (Hc _ _ Hr) as (l & Hch & Hnd & Hin). exists l. split_and!; [|done|].
    + eapply is_chain_ext; [|done]. intros b Hb. apply Hext. by apply Hin.
    + intros b. rewrite Hin, Hl. split; intros [Hb Hh].
      * split; [auto|]. rewrite <- Hh. by apply Hext.
      * destruct Hb as [->|Hb]; [done|]. split; [done|]. rewrite <- Hh. symmetry. by apply Hext.
Qed.

(** What the unlinking code writes: past [a] from the node before it, or from
    the bucket when [a] is the first. *)
Definition unlinked nx nx' bk bk' (i : nat) a (prev : option K) : Prop :=
  match prev with
  | Some b => bk' = bk ∧ nx' b = nx a ∧ ∀ c, c ≠ b → c ≠ a → nx' c = nx c
  | None => ∃ q, nx a = Some q ∧ bk' = <[i := q]> bk ∧ ∀ c, c ≠ a → nx' c = nx c
  end.

Lemma NoDup_without l1 a l2 :
  NoDup (l1 ++ a :: l2) → NoDup (l1 ++ l2) ∧ ∀ b, b ∈ l1 ++ l2 ↔ b ≠ a ∧ b ∈ l1 ++ a :: l2.
Proof.
  intros Hnd. rewrite <- Permutation_middle in Hnd. apply NoDup_cons in Hnd as [Ha Hnd].
  split; [done|]. intros b. rewrite !elem_of_app, elem_of_cons in *. naive_solver.
Qed.

(** A bucket the unlinking does not touch. *)
Lemma bucket_other nx nx' live live' home i p a :
  bucket_ok nx live home i p → i ≠ home a → (∀ b, live' b ↔ b ≠ a ∧ live b) →
  (∀ c, live c → home c = i → nx' c = nx c) → bucket_ok nx' live' home i p.
Proof.
  intros (l & Hch & Hnd & Hin) Hne Hl Hext. exists l. split_and!; [|done|].
  - eapply is_chain_ext; [|done]. intros c Hc. apply Hin in Hc as [? ?]. auto.
  - intros c. rewrite Hin, Hl. naive_solver.
Qed.

(** Unlinking [a], which the walk of its bucket has found. *)
Lemma chained_unlink nx nx' live live' home bk bk' p P fuel a prev :
  chained nx live home bk → live a → bk !! home a = Some p →
  (∀ l, is_chain nx p l → NoDup l → (∀ b, b ∈ l → live b) → length l ≤ fuel) →
  walk nx P fuel None p = Ok (Some (a, prev)) →
  unlinked nx nx' bk bk' (home a) a prev → (∀ b, live' b ↔ b ≠ a ∧ live b) →
  chained nx' live' home bk'.
Proof.
  intros Hc Ha Hp Hfuel Hw Hun Hl.
  destruct (Hc _ _ Hp) as (l & Hch & Hnd & Hin).
  assert (Hlen : length l ≤ fuel) by (apply Hfuel; naive_solver).
  destruct (walk_ok nx P fuel None p l Hch Hlen)
    as [[Hw' _]|(l1 & a' & l2 & -> & Ha' & _ & Hw')]; rewrite Hw in Hw'; [done|].
  injection Hw' as <- ->.
  destruct (NoDup_without _ _ _ Hnd) as [Hnd' Hmem].
  assert (Hmem' : ∀ b, b ∈ l1 ++ l2 ↔ live' b ∧ home b = home a).
  { intros b. rewrite Hmem, Hl, Hin. tauto. }
  destruct (last l1) as [b|] eqn:Hlast.
  - apply last_Some in Hlast as [l1' ->]. destruct Hun as (-> & Hb & Hext). intros i q Hq.
    rewrite <- !app_assoc in *. simpl in *.
    assert (Hbh : home b = home a) by (apply Hin; set_solver).
    destruct (decide (i = home a)) as [->|Hne].
    + assert (q = p) as -> by congruence. exists (l1' ++ b :: l2).
      split_and!; [by eapply is_chain_unlink|done|done].
    + apply (bucket_other nx _ live _ _ _ _ a); [auto..|].
      intros c _ Hci. apply Hext; congruence.
  - apply last_None in Hlast as ->. destruct Hun as (q & Hq & -> & Hext). intros i r Hr.
    simpl in *. destruct Hch as (-> & q' & Hq' & Hch). rewrite Hq in Hq'. injection Hq' as <-.
    destruct (decide (i = home a)) as [->|Hne].
    + rewrite list_lookup_insert_eq in Hr by (by eapply lookup_lt_Some). injection Hr as <-.
      exists l2. split_and!; [|done|done]. eapply is_chain_ext; [|done].
      intros c Hcl. apply Hext. by apply Hmem in Hcl as [? _].
    + rewrite list_lookup_insert_ne in Hr by done.
      apply (bucket_other nx _ live _ _ _ _ a); [auto..|]. intros c _ Hci. apply Hext. congruence.
Qed.

End chains.

(** ** Bucket indices *)

Lemma bucket_of_lt e hash : (0 ≤ e)%Z → (Z.of_nat (bucket_of (2 ^ e) hash) < 2 ^ e)%Z.
Proof.
  intros He. unfold bucket_of. rewrite land_mask by done.
  pose proof (Z.mod_pos_bound hash (2 ^ e) ltac:(lia)). lia.
Qed.

Lemma bucket_lookup {A} (bk : list A) n e hash :
  (0 ≤ e)%Z → n = (2 ^ e)%Z → Z.of_nat (length bk) = n → is_Some (bk !! bucket_of n hash).
Proof.
  intros He -> Hl. apply lookup_lt_is_Some. pose proof (bucket_of_lt e hash He). lia.
Qed.
