(* ===== verification/CBuffer.v ===== *)
(** * Character buffers

    The arrays of characters of C functions: a buffer is the list of its bytes,
    [None] where nothing was stored yet, and a pointer into it is an index.
    Reading outside a buffer or a byte that was not stored is a fault.  A string
    is what lies between a pointer and the next zero. *)

From Stdlib Require Import Ascii.
From stdpp Require Import base numbers list option.
From S2P Require Import Prelude CType.

Open Scope Z_scope.

Abbreviation cbuf := (list (option Z)).

(** [char b[n]] *)
Definition new_buffer (n : nat) : cbuf := replicate n None.

Definition load (b : cbuf) (p : nat) : res Z :=
  match b !! p with Some (Some c) => Ok c | _ => Err OutOfBounds end.

Definition store (p : nat) (c : Z) (b : cbuf) : res cbuf :=
  if decide (p < length b)%nat then Ok (<[p := Some c]> b) else Err OutOfBounds.

(** Storing the bytes [data] from [p] on. *)
Definition store_all (p : nat) (data : list Z) (b : cbuf) : res cbuf :=
  if decide (p + length data ≤ length b)%nat then Ok (list_inserts p (Some <$> data) b) else Err OutOfBounds.

(** The string at the beginning of some bytes. *)
Fixpoint string_of (l : list (option Z)) : res (list Z) :=
  match l with
  | Some c :: l' => if c =? 0 then Ok [] else cons c <$> string_of l'
  | _ => Err OutOfBounds
  end.
Definition string_at (b : cbuf) (p : nat) : res (list Z) := string_of (drop p b).

(** A string constant in memory. *)
Definition of_string (s : list Z) : cbuf := (Some <$> s) ++ [Some 0].

(** ** The functions of string.h *)

Definition index_of (c : Z) (s : list Z) : option nat := fst <$> list_find (λ d, d = c) s.
Definition last_index_of (c : Z) (s : list Z) : option nat :=
  (λ i, length s - S i)%nat <$> index_of c (reverse s).

Definition strlen (b : cbuf) (p : nat) : res nat := length <$> string_at b p.
Definition strchr (b : cbuf) (p : nat) (c : Z) : res (option nat) := s ← string_at b p; Ok (Nat.add p <$> index_of c s).
Definition strrchr (b : cbuf) (p : nat) (c : Z) : res (option nat) := s ← string_at b p; Ok (Nat.add p <$> last_index_of c s).
Definition strcpy (b : cbuf) (p : nat) (s : list Z) : res cbuf := store_all p (s ++ [0]) b.

(** [strncasecmp] *)
Fixpoint strncasecmp (n : nat) (s t : list Z) : Z :=
  match n with
  | O => 0
  | S n' =>
      let c := default 0 (head s) in
      let d := default 0 (head t) in
      if negb (tolower c =? tolower d) then tolower c - tolower d
      else if c =? 0 then 0 else strncasecmp n' (tail s) (tail t)
  end.

(** ** Strings in buffers *)

Lemma load_ok b p c : b !! p = Some (Some c) → load b p = Ok c.
Proof. unfold load. by intros ->. Qed.

Lemma store_ok p c b : (p < length b)%nat → store p c b = Ok (<[p := Some c]> b).
Proof. intros. unfold store. by rewrite decide_True. Qed.

Lemma store_all_ok p data b : (p + length data ≤ length b)%nat → store_all p data b = Ok (list_inserts p (Some <$> data) b).
Proof. intros. unfold store_all. by rewrite decide_True. Qed.

Lemma not_in_drop {A} (x : A) i l : x ∉ l → x ∉ drop i l.
Proof. intros Hx Hin. apply Hx. rewrite <- (take_drop i l), elem_of_app. by right. Qed.
Lemma not_in_take {A} (x : A) i l : x ∉ l → x ∉ take i l.
Proof. intros Hx Hin. apply Hx. rewrite <- (take_drop i l), elem_of_app. by left. Qed.

(** The bytes of a string are where it is. *)
Lemma string_of_bytes s rest : 0 ∉ s → string_of ((Some <$> s) ++ Some 0 :: rest) = Ok s.
Proof.
  induction s as [|c s IH]; [done|]. rewrite not_elem_of_cons. intros [Hc Hs]. simpl.
  rewrite (proj2 (Z.eqb_neq c 0)) by congruence. specialize (IH Hs). unfold fmap in IH |- *. by rewrite IH.
Qed.

Lemma string_of_inv l s : string_of l = Ok s → (0 ∉ s) ∧ ∃ rest, l = (Some <$> s) ++ Some 0 :: rest.
Proof.
  revert s. induction l as [|[c|] l IH]; intros s; simpl; [done| |done].
  destruct (Z.eqb_spec c 0) as [->|Hc].
  - intros [= <-]. split; [apply not_elem_of_nil|by exists l].
  - destruct (string_of l) as [s'|e]; [|done]. intros [= <-]. destruct (IH s' eq_refl) as (H0 & rest & ->).
    split; [by rewrite not_elem_of_cons|by exists rest].
Qed.

Section string_at.
Context (b : cbuf) (p : nat) (s : list Z) (Hs : string_at b p = Ok s).

Lemma string_no_zero : 0 ∉ s.
Proof using Hs. exact (proj1 (string_of_inv _ _ Hs)). Qed.

Lemma string_lookup i : (i ≤ length s)%nat → b !! (p + i)%nat = Some (Some (default 0 (s !! i))).
Proof using Hs.
  destruct (string_of_inv _ _ Hs) as (_ & rest & E). intros Hi. rewrite <- lookup_drop, E.
  destruct (decide (i < length s)%nat) as [Hlt|Hge].
  - rewrite lookup_app_l by (by rewrite length_fmap). rewrite list_lookup_fmap.
    apply lookup_lt_is_Some in Hlt as [c ->]. done.
  - assert (i = length s) as -> by lia. rewrite lookup_app_r by (by rewrite length_fmap).
    rewrite length_fmap, Nat.sub_diag, (lookup_ge_None_2 s) by done. done.
Qed.

Lemma string_load i : (i ≤ length s)%nat → load b (p + i) = Ok (default 0 (s !! i)).
Proof using Hs. intros Hi. by apply load_ok, string_lookup. Qed.

Lemma string_fits : (p + length s < length b)%nat.
Proof using Hs. apply lookup_lt_is_Some. rewrite string_lookup by done. eauto. Qed.

Lemma string_at_drop i : (i ≤ length s)%nat → string_at b (p + i) = Ok (drop i s).
Proof using Hs.
  destruct (string_of_inv _ _ Hs) as (H0 & rest & E). intros Hi. unfold string_at.
  rewrite <- drop_drop, E, drop_app_le, <- fmap_drop by (by rewrite length_fmap).
  by apply string_of_bytes, not_in_drop.
Qed.
End string_at.

Lemma string_at_intro b p s :
  0 ∉ s → (∀ i, (i ≤ length s)%nat → b !! (p + i)%nat = Some (Some (default 0 (s !! i)))) → string_at b p = Ok s.
Proof.
  intros H0 Hb. unfold string_at. replace (drop p b) with ((Some <$> s) ++ Some 0 :: drop (p + S (length s)) b);
    [by apply string_of_bytes|].
  apply list_eq. intros i. rewrite lookup_drop.
  destruct (decide (i < length s)%nat) as [Hlt|Hge].
  - rewrite lookup_app_l by (by rewrite length_fmap). rewrite list_lookup_fmap, Hb by lia.
    apply lookup_lt_is_Some in Hlt as [c ->]. done.
  - rewrite lookup_app_r by (by rewrite length_fmap; lia). rewrite length_fmap.
    destruct (i - length s)%nat as [|j] eqn:Ej; simpl.
    + assert (i = length s) as -> by lia. rewrite Hb by lia. by rewrite lookup_ge_None_2.
    + rewrite lookup_drop. f_equal. lia.
Qed.

(** Changing other bytes keeps a string. *)
Lemma string_at_same b b' p s :
  string_at b p = Ok s → (∀ i, (p ≤ i ≤ p + length s)%nat → b' !! i = b !! i) → string_at b' p = Ok s.
Proof.
  intros Hs Hb. apply string_at_intro; [by eapply string_no_zero|]. intros i Hi. rewrite Hb by lia. by apply string_lookup.
Qed.

(** A zero stored in a string cuts it. *)
Lemma string_at_cut b p s i :
  string_at b p = Ok s → (i ≤ length s)%nat → string_at (<[(p + i)%nat := Some 0]> b) p = Ok (take i s).
Proof.
  intros Hs Hi. pose proof (string_fits _ _ _ Hs). apply string_at_intro.
  - by eapply not_in_take, string_no_zero.
  - intros j Hj. rewrite length_take, Nat.min_l in Hj by done. destruct (decide (j = i)) as [->|Hne].
    + rewrite list_lookup_insert_eq by lia. by rewrite lookup_take_ge.
    + rewrite list_lookup_insert_ne by lia. rewrite lookup_take_lt by lia. apply string_lookup; [done|lia].
Qed.

(** A string that was stored. *)
Lemma string_at_stored p s b :
  0 ∉ s → (p + length s < length b)%nat → string_at (list_inserts p (Some <$> s ++ [0]) b) p = Ok s.
Proof.
  intros H0 Hb. apply string_at_intro; [done|]. intros i Hi.
  rewrite list_lookup_inserts by (rewrite ?length_fmap, ?length_app; simpl; lia).
  rewrite Nat.add_sub_swap, Nat.sub_diag by lia. simpl. rewrite list_lookup_fmap.
  destruct (decide (i < length s)%nat) as [Hlt|].
  - rewrite lookup_app_l by done. apply lookup_lt_is_Some in Hlt as [c ->]. done.
  - assert (i = length s) as -> by lia. rewrite lookup_app_r, Nat.sub_diag by done. by rewrite (lookup_ge_None_2 s).
Qed.

Lemma string_at_of_string s : 0 ∉ s → string_at (of_string s) 0 = Ok s.
Proof. intros. by apply string_of_bytes. Qed.

Lemma strlen_ok b p s : string_at b p = Ok s → strlen b p = Ok (length s).
Proof. unfold strlen. by intros ->. Qed.

Lemma strchr_ok b p s c : string_at b p = Ok s → strchr b p c = Ok (Nat.add p <$> index_of c s).
Proof. unfold strchr. by intros ->. Qed.

Lemma strrchr_ok b p s c : string_at b p = Ok s → strrchr b p c = Ok (Nat.add p <$> last_index_of c s).
Proof. unfold strrchr. by intros ->. Qed.
