(* ===== verification/SqObject.v ===== *)
(** * Squirrel objects

    [SQObject] (squirrel.h) is a type tag and a 32-bit payload read through a
    union.  This file holds the tags, the payload readings the containers use,
    the string hash [_hashstr] (sqstring.h), the object hash [HashObj]
    (sqtable.h) and [TranslateIndex] (sqobject.cpp).  What a payload points to
    is reached through the class [SQHeap]. *)

From Stdlib Require Import Ascii.
From stdpp Require Import base numbers list gmap strings option.
From S2P Require Import Prelude.

(** ** Type tags (squirrel.h, [tagSQObjectType]) *)

Inductive SQObjectType :=
  | OT_NULL | OT_INTEGER | OT_FLOAT | OT_BOOL | OT_STRING | OT_TABLE | OT_ARRAY
  | OT_USERDATA | OT_CLOSURE | OT_NATIVECLOSURE | OT_GENERATOR | OT_USERPOINTER
  | OT_THREAD | OT_FUNCPROTO | OT_CLASS | OT_INSTANCE | OT_WEAKREF | OT_OUTER.

Definition SQOBJECT_REF_COUNTED : Z := 0x08000000.
Definition SQOBJECT_NUMERIC : Z := 0x04000000.
Definition SQOBJECT_DELEGABLE : Z := 0x02000000.
Definition SQOBJECT_CANBEFALSE : Z := 0x01000000.

(** The numeric value of each tag: one bit of the raw type and its flags. *)
Definition type_code (t : SQObjectType) : Z :=
  match t with
  | OT_NULL => Z.lor 0x1 SQOBJECT_CANBEFALSE
  | OT_INTEGER => Z.lor 0x2 (Z.lor SQOBJECT_NUMERIC SQOBJECT_CANBEFALSE)
  | OT_FLOAT => Z.lor 0x4 (Z.lor SQOBJECT_NUMERIC SQOBJECT_CANBEFALSE)
  | OT_BOOL => Z.lor 0x8 SQOBJECT_CANBEFALSE
  | OT_STRING => Z.lor 0x10 SQOBJECT_REF_COUNTED
  | OT_TABLE => Z.lor 0x20 (Z.lor SQOBJECT_REF_COUNTED SQOBJECT_DELEGABLE)
  | OT_ARRAY => Z.lor 0x40 SQOBJECT_REF_COUNTED
  | OT_USERDATA => Z.lor 0x80 (Z.lor SQOBJECT_REF_COUNTED SQOBJECT_DELEGABLE)
  | OT_CLOSURE => Z.lor 0x100 SQOBJECT_REF_COUNTED
  | OT_NATIVECLOSURE => Z.lor 0x200 SQOBJECT_REF_COUNTED
  | OT_GENERATOR => Z.lor 0x400 SQOBJECT_REF_COUNTED
  | OT_USERPOINTER => 0x800
  | OT_THREAD => Z.lor 0x1000 SQOBJECT_REF_COUNTED
  | OT_FUNCPROTO => Z.lor 0x2000 SQOBJECT_REF_COUNTED
  | OT_CLASS => Z.lor 0x4000 SQOBJECT_REF_COUNTED
  | OT_INSTANCE => Z.lor 0x8000 (Z.lor SQOBJECT_REF_COUNTED SQOBJECT_DELEGABLE)
  | OT_WEAKREF => Z.lor 0x10000 SQOBJECT_REF_COUNTED
  | OT_OUTER => Z.lor 0x20000 SQOBJECT_REF_COUNTED
  end.

Definition ISREFCOUNTED (t : SQObjectType) : bool :=
  negb (Z.land (type_code t) SQOBJECT_REF_COUNTED =? 0)%Z.

#[export] Instance SQObjectType_eq_dec : EqDecision SQObjectType.
Proof. solve_decision. Defined.

Lemma type_code_inj t1 t2 : type_code t1 = type_code t2 → t1 = t2.
Proof. by destruct t1, t2. Qed.

#[export] Instance SQObjectType_countable : Countable SQObjectType.
Proof.
  refine (inj_countable type_code
    (λ z, list_find (λ t, type_code t = z)
            [OT_NULL; OT_INTEGER; OT_FLOAT; OT_BOOL; OT_STRING; OT_TABLE; OT_ARRAY;
             OT_USERDATA; OT_CLOSURE; OT_NATIVECLOSURE; OT_GENERATOR; OT_USERPOINTER;
             OT_THREAD; OT_FUNCPROTO; OT_CLASS; OT_INSTANCE; OT_WEAKREF; OT_OUTER]
          ≫= λ p, Some p.2) _).
  by intros [].
Defined.

(** ** Objects *)

Record SQObject := mkObj { _type : SQObjectType; _unVal : Z }.

#[export] Instance SQObject_eq_dec : EqDecision SQObject.
Proof. solve_decision. Defined.

#[export] Instance SQObject_countable : Countable SQObject.
Proof.
  refine (inj_countable' (λ o, (_type o, _unVal o)) (λ p, mkObj p.1 p.2) _).
  by intros [].
Defined.

(** What [SQObjectPtr::Null] and the default constructor leave behind. *)
Definition sq_null : SQObject := mkObj OT_NULL 0.

Definition sq_int (n : Z) : SQObject := mkObj OT_INTEGER (u32 n).
Definition sq_bool (b : bool) : SQObject := mkObj OT_BOOL (if b then 1 else 0)%Z.

(** [sq_type(o) == OT_NULL], the test for an empty slot. *)
Definition is_null (o : SQObject) : bool := bool_decide (_type o = OT_NULL).

(** [_integer(o)]: the payload as a signed integer. *)
Definition _integer (o : SQObject) : Z := s32 (_unVal o).

(** [_rawval(a) == _rawval(b) && sq_type(a) == sq_type(b)]. *)
Definition same_key (a b : SQObject) : bool :=
  (_unVal a =? _unVal b)%Z && bool_decide (_type a = _type b).

Lemma same_key_true a b : same_key a b = true ↔ a = b.
Proof.
  unfold same_key. rewrite andb_true_iff, Z.eqb_eq, bool_decide_eq_true.
  destruct a, b; simpl. split; [by intros [-> ->]|by inversion 1].
Qed.

(** ** What payloads point to

    The heap as the containers read it: the [_hash] and [_val] fields of an
    interned [SQString], the [_obj] of an [SQWeakRef], and the value the target
    gives to a float-to-integer conversion that C++ leaves undefined. *)
Class SQHeap := {
  string_hash : Z → Z;
  string_val : Z → list ascii;
  weak_obj : Z → SQObject;
  ub_float_cast : Z → Z
}.

(** [_realval(o)]: the object behind a weak reference. *)
Definition _realval `{SQHeap} (o : SQObject) : SQObject :=
  if bool_decide (_type o = OT_WEAKREF) then weak_obj (_unVal o) else o.

(** ** The C conversion [(SQInteger)f] of a binary32 value given by its bits:
    truncation toward zero, undefined when the result does not fit. *)
Definition float_to_int (bits : Z) : option Z :=
  (let e := Z.land (Z.shiftr bits 23) 255 in
   let man := Z.land bits (2 ^ 23 - 1) in
   let m := if e =? 0 then man else man + 2 ^ 23 in
   let sh := (if e =? 0 then 1 else e) - 150 in
   let mag := if 0 <=? sh then m * 2 ^ sh else m / 2 ^ (- sh) in
   let v := if Z.testbit bits 31 then - mag else mag in
   if e =? 255 then None
   else if (- 2 ^ 31 <=? v) && (v <? 2 ^ 31) then Some v else None)%Z.

(** ** Hashing *)

(** [_hashstr] (sqstring.h).  [l] and [step] are [size_t]; the loop reads the
    characters in order while [l], which starts at the length, goes down by
    [step]. *)
Fixpoint hashstr_loop (s : list ascii) (l step h : Z) : Z :=
  (if l <? step then h
   else match s with
        | [] => h
        | c :: s' =>
            hashstr_loop s' (l - step) step
              (Z.lxor h (u32 (u32 (Z.shiftl h 5) + Z.shiftr h 2 + char_code c)))
        end)%Z.

Definition _hashstr (s : list ascii) (l : Z) : Z :=
  hashstr_loop s l (Z.lor (Z.shiftr l 5) 1) (u32 l).

(** [#define hashptr(p)  ((SQHash)(((SQInteger)p) >> 3))] *)
Definition hashptr (p : Z) : Z := u32 (Z.shiftr (s32 p) 3).

(** [HashObj] (sqtable.h). *)
Definition HashObj `{SQHeap} (key : SQObject) : Z :=
  match _type key with
  | OT_STRING => string_hash (_unVal key)
  | OT_FLOAT =>
      u32 (match float_to_int (_unVal key) with
           | Some v => v
           | None => ub_float_cast (_unVal key)
           end)
  | OT_BOOL | OT_INTEGER => u32 (_integer key)
  | _ => hashptr (_unVal key)
  end.

(** [TranslateIndex] (sqobject.cpp): an iteration cursor as an index; a cursor
    of another type stops at [assert(0)]. *)
Definition TranslateIndex (idx : SQObject) : res Z :=
  match _type idx with
  | OT_NULL => Ok 0%Z
  | OT_INTEGER => Ok (u32 (_integer idx))
  | _ => Err AssertFail
  end.

(** ** Facts *)

(** The hash loop never reads past the characters it was given: it makes at
    most [l / step] steps, so with [l] the length the empty case is reached
    only when the loop condition has failed. *)
Lemma hashstr_loop_stops s l step h :
  (1 ≤ step)%Z → (l ≤ Z.of_nat (length s))%Z →
  ∀ t, hashstr_loop (s ++ t) l step h = hashstr_loop s l step h.
Proof.
  intros Hstep. revert l h. induction s as [|c s IH]; intros l h Hl t; simpl in *.
  - destruct t; simpl; destruct (Z.ltb_spec l step); done || lia.
  - destruct (l <? step)%Z; [done|]. apply IH. lia.
Qed.

Lemma lxor_range h x :
  (0 ≤ h < 2 ^ 32)%Z → (0 ≤ x < 2 ^ 32)%Z → (0 ≤ Z.lxor h x < 2 ^ 32)%Z.
Proof.
  intros Hh Hx. split; [apply Z.lxor_nonneg; lia|].
  destruct (Z.eq_dec (Z.lxor h x) 0%Z) as [->|Hne]; [lia|].
  assert (0 < Z.lxor h x)%Z.
  { assert (0 ≤ Z.lxor h x)%Z by (apply Z.lxor_nonneg; lia). lia. }
  apply Z.log2_lt_pow2; [done|].
  pose proof (Z.log2_lxor h x ltac:(lia) ltac:(lia)).
  assert (Hl : ∀ y, (0 ≤ y < 2 ^ 32)%Z → (Z.log2 y < 32)%Z).
  { intros y Hy. destruct (Z.eq_dec y 0%Z) as [->|]; [done|]. apply Z.log2_lt_pow2; lia. }
  pose proof (Hl h Hh). pose proof (Hl x Hx). lia.
Qed.

Lemma hashstr_loop_range s l step h :
  (0 ≤ h < 2 ^ 32)%Z → (0 ≤ hashstr_loop s l step h < 2 ^ 32)%Z.
Proof.
  revert l h. induction s as [|c s IH]; intros l h Hh; simpl; destruct (l <? step)%Z; try done.
  apply IH, lxor_range; auto with machine.
Qed.

Lemma _hashstr_range s l : (0 ≤ _hashstr s l < 2 ^ 32)%Z.
Proof. apply hashstr_loop_range, u32_range. Qed.

Lemma HashObj_range `{SQHeap} key :
  (∀ p, 0 ≤ string_hash p < 2 ^ 32)%Z → (0 ≤ HashObj key < 2 ^ 32)%Z.
Proof.
  intros Hs. unfold HashObj, hashptr.
  destruct (_type key); auto using u32_range.
Qed.

#[export] Hint Resolve _hashstr_range HashObj_range : machine.
