(* ===== verification/SqArray.v ===== *)
(** * Vectors and arrays (squtils.h [sqvector], sqarray.h [SQArray])

    [sqvector] is a growing buffer of which the first [_size] slots hold
    objects.  The buffer is modelled slot by slot: [None] is memory without an
    object in it, so reading a destroyed slot or writing outside the buffer is a
    fault of the model.  Sizes and the number of bytes a block has are unsigned
    integers of 32 bits, so a block for 2^29 objects or more is smaller than its
    size says.  [SQArray] adds the index checks a script sees.  The theorems
    relate both to plain lists, for arrays below that limit, and show what a
    size above it does. *)

From stdpp Require Import base numbers gmap strings option list.
From S2P Require Import Prelude SqObject.

(** ** [sqvector] *)

Section sqvector.
Context {A : Type}.

Record sqvector := mkVec { _vals : list (option A); _size : nat; _allocated : nat }.

(** The result of an unsigned computation. *)
Definition uint (n : nat) : nat := Z.to_nat (u32 (Z.of_nat n)).

(** [sizeof(SQObjectPtr)]: a type and a value. *)
Definition sizeof_T : nat := 8.

(** [sqvector::sqvector] *)
Definition empty_vec : sqvector := mkVec [] 0 0.

(** [realloc] keeps the slots that fit; the rest of the new block is raw. *)
Definition realloc_block (vals : list (option A)) (n : nat) : list (option A) :=
  take n vals ++ replicate (n - length vals) None.

(** [sqvector::_realloc]: the block has the slots its bytes are enough for. *)
Definition _realloc (v : sqvector) (newsize : nat) : sqvector :=
  let newsize := if decide (0 < newsize) then newsize else 4 in
  mkVec (realloc_block (_vals v) (uint (newsize * sizeof_T) / sizeof_T)) (_size v) newsize.

(** Constructing, destroying and reading the object in a slot. *)
Definition construct (vals : list (option A)) (i : nat) (x : A) : res (list (option A)) :=
  match vals !! i with
  | Some _ => Ok (<[i := Some x]> vals)
  | None => Err OutOfBounds
  end.
Definition destroy (vals : list (option A)) (i : nat) : res (list (option A)) :=
  match vals !! i with
  | Some (Some _) => Ok (<[i := None]> vals)
  | Some None => Err UseAfterFree
  | None => Err OutOfBounds
  end.
Definition read (vals : list (option A)) (i : nat) : res A :=
  match vals !! i with
  | Some (Some x) => Ok x
  | Some None => Err UseAfterFree
  | None => Err OutOfBounds
  end.
(** Assigning to the object in a slot. *)
Definition assign (vals : list (option A)) (i : nat) (x : A) : res (list (option A)) :=
  _ ← read vals i; Ok (<[i := Some x]> vals).

(** [sqvector::resize] *)
Definition resize (v : sqvector) (newsize : nat) (fill : A) : res sqvector :=
  let v := if decide (_allocated v < newsize) then _realloc v newsize else v in
  if decide (_size v < newsize) then
    vals ← fold_res (λ vals i, construct vals i fill) (seq (_size v) (newsize - _size v)) (_vals v);
    Ok (mkVec vals newsize (_allocated v))
  else
    vals ← fold_res destroy (seq newsize (_size v - newsize)) (_vals v);
    Ok (mkVec vals newsize (_allocated v)).

(** [sqvector::shrinktofit], [sqvector::reserve] *)
Definition shrinktofit (v : sqvector) : sqvector :=
  if decide (4 < _size v) then _realloc v (_size v) else v.
Definition reserve (v : sqvector) (newsize : nat) : sqvector := _realloc v newsize.

(** [sqvector::push_back] *)
Definition push_back (v : sqvector) (x : A) : res sqvector :=
  let v := if decide (_allocated v ≤ _size v) then _realloc v (uint (_size v * 2)) else v in
  vals ← construct (_vals v) (_size v) x;
  Ok (mkVec vals (uint (S (_size v))) (_allocated v)).

(** [sqvector::pop_back]; on an empty vector the unsigned [_size] wraps and the
    slot is out of bounds. *)
Definition pop_back (v : sqvector) : res sqvector :=
  match _size v with
  | O => Err OutOfBounds
  | S n => vals ← destroy (_vals v) n; Ok (mkVec vals n (_allocated v))
  end.

(** [sqvector::insert]: make room at the end, then shift from the back. *)
Definition insert_shift (vals : list (option A)) (idx size : nat) : res (list (option A)) :=
  fold_res (λ vals i, x ← read vals (i - 1); assign vals i x)
           (rev (seq (S idx) (size - 1 - idx))) vals.

Definition insert (v : sqvector) (idx : nat) (x dflt : A) : res sqvector :=
  v ← resize v (uint (_size v + 1)) dflt;
  vals ← insert_shift (_vals v) idx (_size v);
  vals ← assign vals idx x;
  Ok (mkVec vals (_size v) (_allocated v)).

(** [memmove(&_vals[idx], &_vals[idx+1], n)]: the slots that follow, bit by
    bit; the last one of them stays behind as raw memory. *)
Definition memmove_down (vals : list (option A)) (idx n : nat) : list (option A) :=
  take idx vals ++ take n (drop (S idx) vals) ++ [None] ++ drop (idx + n + 1) vals.

(** [sqvector::remove] *)
Definition remove (v : sqvector) (idx : nat) : res sqvector :=
  vals ← destroy (_vals v) idx;
  let vals := if decide (idx < _size v - 1) then memmove_down vals idx (_size v - idx - 1) else vals in
  Ok (mkVec vals (_size v - 1) (_allocated v)).

(** [sqvector::copy] *)
Definition copy (v src : sqvector) (dflt : A) : res sqvector :=
  v ← (if decide (0 < _size v) then resize v 0 dflt else Ok v);
  let v := if decide (_allocated v < _size src) then _realloc v (_size src) else v in
  vals ← fold_res (λ vals i, x ← read (_vals src) i; construct vals i x) (seq 0 (_size src)) (_vals v);
  Ok (mkVec vals (_size src) (_allocated v)).

(** [sqvector::operator[]], [sqvector::top] *)
Definition at_ (v : sqvector) (pos : nat) : res A := read (_vals v) pos.
Definition top (v : sqvector) : res A :=
  match _size v with O => Err OutOfBounds | S n => read (_vals v) n end.

(** ** Vectors as lists *)

(** A block holds fewer objects than this; half of it is the most an append
    can double. *)
Definition max_objects : Z := 2 ^ 29.
Definition max_length : Z := 2 ^ 28.

(** The slots of [v] are the elements of [l], then raw memory; the number of
    bytes has not wrapped around. *)
Record is_vec (v : sqvector) (l : list A) : Prop := {
  iv_vals : _vals v = (Some <$> l) ++ replicate (_allocated v - length l) None;
  iv_size : _size v = length l;
  iv_room : length l ≤ _allocated v;
  iv_fits : (Z.of_nat (_allocated v) < max_objects)%Z
}.

Lemma empty_is_vec : is_vec empty_vec [].
Proof. done. Qed.

Lemma uint_small n : (Z.of_nat n < 2 ^ 32)%Z → uint n = n.
Proof. intros Hn. unfold uint. rewrite u32_small by lia. apply Nat2Z.id. Qed.

Lemma bytes_of_objects n : uint (n * sizeof_T) / sizeof_T = Z.to_nat (Z.of_nat n mod max_objects).
Proof.
  unfold uint, u32, wrap, sizeof_T, max_objects. apply Nat2Z.inj. rewrite Nat2Z.inj_div.
  pose proof (Z.mod_pos_bound (Z.of_nat (n * 8)) (2 ^ 32) ltac:(lia)). pose proof (Z.mod_pos_bound (Z.of_nat n) (2 ^ 29) ltac:(lia)).
  rewrite !Z2Nat.id by lia. rewrite Nat2Z.inj_mul. change (2 ^ 32)%Z with (2 ^ 29 * 8)%Z. change (Z.of_nat 8) with 8%Z.
  rewrite Zmult_mod_distr_r. by apply Z.div_mul.
Qed.

Lemma bytes_small n : (Z.of_nat n < max_objects)%Z → uint (n * sizeof_T) / sizeof_T = n.
Proof. intros Hn. rewrite bytes_of_objects, Z.mod_small by lia. apply Nat2Z.id. Qed.

Lemma realloc_is_vec v l n :
  is_vec v l → length l ≤ n → (Z.of_nat n < max_objects)%Z → is_vec (_realloc v n) l.
Proof.
  intros [Hv Hs Hr _] Hn Hmax. unfold _realloc. set (n' := if decide (0 < n) then n else 4).
  assert (length l ≤ n' ∧ (Z.of_nat n' < max_objects)%Z) as [Hn' Hm] by (subst n'; unfold max_objects in *; case_decide; lia).
  rewrite bytes_small by done. split; simpl; [|done..]. unfold realloc_block. rewrite Hv.
  rewrite take_app, take_ge by (rewrite length_fmap; lia). rewrite take_replicate, length_fmap.
  rewrite length_app, length_replicate, length_fmap, <- app_assoc, <- replicate_add. f_equal. f_equal. lia.
Qed.

Lemma read_is_vec v l i x : is_vec v l → l !! i = Some x → read (_vals v) i = Ok x.
Proof.
  intros [Hv _ _ _] Hi. unfold read. rewrite Hv, lookup_app_l, list_lookup_fmap, Hi; [done|].
  rewrite length_fmap. by eapply lookup_lt_Some.
Qed.

(** The shape of the buffer: objects, then raw memory. *)
Definition slots (l : list A) (k : nat) : list (option A) := (Some <$> l) ++ replicate k None.

Lemma is_vec_slots v l :
  is_vec v l → ∃ c, v = mkVec (slots l (c - length l)) (length l) c ∧ length l ≤ c ∧ (Z.of_nat c < max_objects)%Z.
Proof.
  intros [Hv Hs Hr Hf]. exists (_allocated v). split; [|done]. destruct v; simpl in *; by subst.
Qed.

Lemma slots_is_vec l n :
  length l ≤ n → (Z.of_nat n < max_objects)%Z → is_vec (mkVec (slots l (n - length l)) (length l) n) l.
Proof. intros Hn. by split. Qed.

Lemma construct_at p y rest x :
  construct (p ++ y :: rest) (length p) x = Ok (p ++ Some x :: rest).
Proof. unfold construct. by rewrite list_lookup_middle, insert_app_r_alt, Nat.sub_diag by lia. Qed.

Lemma destroy_at p x rest :
  destroy (p ++ Some x :: rest) (length p) = Ok (p ++ None :: rest).
Proof. unfold destroy. by rewrite list_lookup_middle, insert_app_r_alt, Nat.sub_diag by lia. Qed.

Lemma read_at p x rest : read (p ++ Some x :: rest) (length p) = Ok x.
Proof. unfold read. by rewrite list_lookup_middle. Qed.

Lemma assign_at p y rest x :
  assign (p ++ Some y :: rest) (length p) x = Ok (p ++ Some x :: rest).
Proof. unfold assign. rewrite read_at. simpl. by rewrite insert_app_r_alt, Nat.sub_diag by lia. Qed.

Lemma construct_end l k x : construct (slots l (S k)) (length l) x = Ok (slots (l ++ [x]) k).
Proof.
  unfold slots. pose proof (construct_at (Some <$> l) None (replicate k None) x) as Hc.
  rewrite length_fmap in Hc. cbn [replicate]. rewrite Hc, fmap_app, <- app_assoc. done.
Qed.

Lemma fill_slots d l k x :
  fold_res (λ vals i, construct vals i x) (seq (length l) d) (slots l (d + k))
  = Ok (slots (l ++ replicate d x) k).
Proof.
  revert l. induction d as [|d IH]; intros l; cbn [seq fold_res Nat.add replicate].
  - by rewrite app_nil_r.
  - rewrite construct_end. replace (S (length l)) with (length (l ++ [x])) by (rewrite length_app; simpl; lia).
    rewrite IH, <- app_assoc. done.
Qed.

Lemma destroy_range p l rest :
  fold_res destroy (seq (length p) (length l)) (p ++ (Some <$> l) ++ rest)
  = Ok (p ++ replicate (length l) None ++ rest).
Proof.
  revert p. induction l as [|x l IH]; intros p; cbn [length seq fold_res replicate fmap list_fmap app]; [done|].
  rewrite destroy_at. specialize (IH (p ++ [None])). rewrite length_app, Nat.add_1_r, <- !app_assoc in IH.
  exact IH.
Qed.

Lemma resize_is_vec v l n x :
  is_vec v l → (Z.of_nat n < max_objects)%Z →
  ∃ v', resize v n x = Ok v' ∧ is_vec v' (take n l ++ replicate (n - length l) x).
Proof.
  intros Hv Hmax. unfold resize.
  assert (∃ v1, (if decide (_allocated v < n) then _realloc v n else v) = v1 ∧ is_vec v1 l ∧ n ≤ _allocated v1)
    as (v1 & -> & Hv1 & Hn).
  { eexists. split; [done|]. case_decide.
    - split; [apply realloc_is_vec; [done|destruct Hv; lia|done]|]. simpl. case_decide; lia.
    - split; [done|lia]. }
  clear v Hv. apply is_vec_slots in Hv1 as (c & -> & Hr & Hf). simpl in *. case_decide.
  - rewrite take_ge by lia. replace (c - length l) with ((n - length l) + (c - n)) by lia.
    rewrite fill_slots. simpl. eexists. split; [done|].
    pose proof (slots_is_vec (l ++ replicate (n - length l) x) c) as Hs.
    rewrite length_app, length_replicate in Hs. replace (length l + (n - length l)) with n in Hs by lia.
    apply Hs; [lia|done].
  - replace (n - length l) with 0 by lia. cbn [replicate]. rewrite app_nil_r.
    assert (Ht : length (take n l) = n) by (rewrite length_take; lia).
    assert (Hd : length (drop n l) = length l - n) by (rewrite length_drop; lia).
    pose proof (destroy_range (Some <$> take n l) (drop n l) (replicate (c - length l) None)) as Hr2.
    rewrite length_fmap, Ht, Hd, app_assoc, <- fmap_app, take_drop in Hr2.
    unfold slots. rewrite Hr2. simpl. eexists. split; [done|].
    pose proof (slots_is_vec (take n l) c ltac:(lia) Hf) as Hs. unfold slots in Hs. rewrite Ht in Hs.
    replace (c - n) with ((length l - n) + (c - length l)) in Hs by lia.
    rewrite replicate_add in Hs. exact Hs.
Qed.

Lemma shrinktofit_is_vec v l : is_vec v l → is_vec (shrinktofit v) l.
Proof.
  intros Hv. unfold shrinktofit. case_decide; [|done]. pose proof Hv as [_ Hs Hr Hf].
  apply realloc_is_vec; [done|by rewrite Hs|lia].
Qed.

Lemma push_back_is_vec v l x :
  is_vec v l → (Z.of_nat (length l) < max_length)%Z → ∃ v', push_back v x = Ok v' ∧ is_vec v' (l ++ [x]).
Proof.
  intros Hv Hp. unfold push_back. pose proof (iv_size _ _ Hv) as Hs0. pose proof (iv_room _ _ Hv).
  unfold max_length in Hp. rewrite (uint_small (_size v * 2)) by lia.
  assert (∃ v1, (if decide (_allocated v ≤ _size v) then _realloc v (_size v * 2) else v) = v1 ∧ is_vec v1 l ∧
                length l < _allocated v1) as (v1 & -> & Hv1 & Hn).
  { eexists. split; [done|]. case_decide.
    - split; [apply realloc_is_vec; [done|lia|unfold max_objects; lia]|]. simpl. case_decide; lia.
    - split; [done|lia]. }
  apply is_vec_slots in Hv1 as (c & -> & Hr & Hf). simpl in *. rewrite uint_small by lia.
  replace (c - length l) with (S (c - S (length l))) by lia. rewrite construct_end. simpl.
  eexists. split; [done|]. pose proof (slots_is_vec (l ++ [x]) c) as Hs.
  rewrite length_app, Nat.add_1_r in Hs. apply Hs; [lia|done].
Qed.

Lemma pop_back_is_vec v l x :
  is_vec v (l ++ [x]) → ∃ v', pop_back v = Ok v' ∧ is_vec v' l.
Proof.
  intros (c & -> & Hr & Hf)%is_vec_slots. rewrite length_app, Nat.add_1_r in *. unfold pop_back. simpl.
  unfold slots at 1. rewrite fmap_app, <- app_assoc. cbn [fmap list_fmap app].
  pose proof (destroy_at (Some <$> l) x (replicate (c - S (length l)) None)) as Hd.
  rewrite length_fmap in Hd. rewrite Hd. simpl. eexists. split; [done|].
  pose proof (slots_is_vec l c ltac:(lia) Hf) as Hs. unfold slots in Hs.
  replace (c - length l) with (S (c - S (length l))) in Hs by lia. exact Hs.
Qed.

Lemma shift_range p l y rest :
  ∃ h, insert_shift (p ++ (Some <$> l) ++ Some y :: rest) (length p) (S (length p + length l))
       = Ok (p ++ Some h :: (Some <$> l) ++ rest).
Proof.
  unfold insert_shift. replace (S (length p + length l) - 1 - length p) with (length l) by lia.
  revert y rest. induction l as [|z l IH] using rev_ind; intros y rest; [by exists y|].
  rewrite length_app, Nat.add_1_r, seq_S, rev_app_distr. cbn [rev app fold_res].
  replace (S (length p) + length l - 1) with (length (p ++ (Some <$> l))) by (rewrite length_app, length_fmap; lia).
  replace (S (length p) + length l) with (length (p ++ (Some <$> l) ++ [Some z]))
    by (rewrite !length_app, length_fmap; simpl; lia).
  rewrite fmap_app, <- app_assoc. cbn [fmap list_fmap app]. rewrite (app_assoc p), read_at. cbn [mbind res_bind].
  replace ((p ++ (Some <$> l)) ++ Some z :: Some y :: rest)
    with ((p ++ (Some <$> l) ++ [Some z]) ++ Some y :: rest) by (by rewrite <- !app_assoc).
  rewrite assign_at. rewrite <- !app_assoc. cbn [app].
  destruct (IH z (Some z :: rest)) as [h Hh]. exists h. exact Hh.
Qed.

Lemma insert_is_vec v l1 l2 x d :
  is_vec v (l1 ++ l2) → (Z.of_nat (S (length (l1 ++ l2))) < max_objects)%Z → ∃ v', insert v (length l1) x d = Ok v' ∧ is_vec v' (l1 ++ x :: l2).
Proof.
  intros Hv Hmax. unfold insert. pose proof (iv_size _ _ Hv) as Hs0. unfold max_objects in Hmax.
  rewrite uint_small by lia.
  destruct (resize_is_vec v (l1 ++ l2) (_size v + 1) d Hv) as (v1 & -> & Hv1); [unfold max_objects; lia|]. simpl.
  rewrite take_ge, Hs0 in Hv1 by lia.
  replace (length (l1 ++ l2) + 1 - length (l1 ++ l2)) with 1 in Hv1 by lia. cbn [replicate] in Hv1.
  apply is_vec_slots in Hv1 as (c & -> & Hr & Hf). simpl in *.
  unfold slots. rewrite !fmap_app, <- !app_assoc. cbn [fmap list_fmap app].
  destruct (shift_range (Some <$> l1) l2 d (replicate (c - length (l1 ++ l2 ++ [d])) None)) as [h Hh].
  rewrite !length_fmap in Hh.
  replace (length (l1 ++ l2 ++ [d])) with (S (length l1 + length l2)) in *
    by (rewrite !length_app; simpl; lia).
  rewrite Hh. simpl. pose proof (assign_at (Some <$> l1) h ((Some <$> l2) ++ replicate (c - S (length l1 + length l2)) None) x) as Ha.
  rewrite length_fmap in Ha. rewrite Ha. simpl. eexists. split; [done|].
  pose proof (slots_is_vec (l1 ++ x :: l2) c) as Hs. unfold slots in Hs.
  rewrite length_app, fmap_app, <- app_assoc in Hs. cbn [length fmap list_fmap app] in Hs.
  replace (length l1 + S (length l2)) with (S (length l1 + length l2)) in Hs by lia.
  apply Hs; [|done]. rewrite <- app_assoc, !length_app in Hr. simpl in Hr. lia.
Qed.

Lemma remove_is_vec v l1 y l2 :
  is_vec v (l1 ++ y :: l2) → ∃ v', remove v (length l1) = Ok v' ∧ is_vec v' (l1 ++ l2).
Proof.
  intros (c & -> & Hr & Hf)%is_vec_slots. rewrite length_app in *. cbn [length] in *. unfold remove. simpl.
  unfold slots at 1. rewrite fmap_app, <- app_assoc.
  cbn [fmap list_fmap app]. set (rest := replicate _ None).
  pose proof (destroy_at (Some <$> l1) y ((Some <$> l2) ++ rest)) as Hd. rewrite length_fmap in Hd.
  rewrite Hd. simpl. eexists. split; [done|].
  assert (Hvals : (if decide (length l1 < length l1 + S (length l2) - 1)
                   then memmove_down ((Some <$> l1) ++ None :: (Some <$> l2) ++ rest) (length l1)
                          (length l1 + S (length l2) - length l1 - 1)
                   else (Some <$> l1) ++ None :: (Some <$> l2) ++ rest)
                  = slots (l1 ++ l2) (S (c - (length l1 + S (length l2))))).
  { unfold slots. rewrite fmap_app, <- app_assoc. cbn [replicate]. fold rest. case_decide.
    - unfold memmove_down. replace (length l1 + S (length l2) - length l1 - 1) with (length l2) by lia.
      rewrite take_app_length' by (by rewrite length_fmap).
      replace (S (length l1)) with (length ((Some <$> l1) ++ [None])) by (rewrite length_app, length_fmap; simpl; lia).
      replace ((Some <$> l1) ++ None :: (Some <$> l2) ++ rest)
        with (((Some <$> l1) ++ [None]) ++ (Some <$> l2) ++ rest) by (by rewrite <- app_assoc).
      rewrite drop_app_length. rewrite take_app_length' by (by rewrite length_fmap).
      rewrite (app_assoc ((Some <$> l1) ++ [None])). rewrite drop_app_length'; [done|].
      rewrite !length_app, !length_fmap. simpl. lia.
    - destruct l2 as [|z l2]; [done|simpl in *; lia]. }
  rewrite Hvals. replace (length l1 + S (length l2) - 1) with (length (l1 ++ l2)) by (rewrite length_app; lia).
  replace (S (c - (length l1 + S (length l2)))) with (c - length (l1 ++ l2)) by (rewrite length_app; lia).
  apply slots_is_vec; [rewrite length_app; lia|done].
Qed.

End sqvector.
Arguments sqvector : clear implicits.

(** ** [SQArray] *)

Definition SQArray : Type := sqvector SQObject.

(** [SQArray::Create], [SQArray::Finalize] *)
Definition Create (nInitialSize : Z) : res SQArray :=
  resize empty_vec (Z.to_nat (u32 nInitialSize)) sq_null.
Definition Finalize (a : SQArray) : res SQArray := resize a 0 sq_null.

(** [SQArray::Size], the unsigned size as a signed one; the index tests compare
    with the same. *)
Definition Size (a : SQArray) : Z := s32 (Z.of_nat (_size a)).

(** The index test of [Get], [Set] and [Remove]. *)
Definition in_array (a : SQArray) (nidx : Z) : bool := (0 <=? nidx)%Z && (nidx <? Size a)%Z.

(** [SQArray::Get]: [None] is the result [false]. *)
Definition Get `{SQHeap} (a : SQArray) (nidx : Z) : res (option SQObject) :=
  if in_array a nidx then o ← at_ a (Z.to_nat nidx); Ok (Some (_realval o)) else Ok None.

(** [SQArray::Set] *)
Definition Set_ (a : SQArray) (nidx : Z) (val : SQObject) : res (SQArray * bool) :=
  if in_array a nidx then
    vals ← assign (_vals a) (Z.to_nat nidx) val;
    Ok (mkVec vals (_size a) (_allocated a), true)
  else Ok (a, false).

(** [SQArray::Next]: the index is unsigned here. *)
Definition Next `{SQHeap} (a : SQArray) (refpos : SQObject) : res (option (Z * SQObject * SQObject)) :=
  idx ← TranslateIndex refpos;
  if (idx <? Z.of_nat (_size a))%Z then
    o ← at_ a (Z.to_nat idx);
    Ok (Some (idx + 1, sq_int idx, _realval o)%Z)
  else Ok None.

(** [SQArray::Clone] *)
Definition Clone (a : SQArray) : res SQArray :=
  anew ← Create 0; copy anew a sq_null.

(** [SQArray::ShrinkIfNeeded] *)
Definition ShrinkIfNeeded (a : SQArray) : SQArray :=
  if decide (_size a ≤ _allocated a / 4) then shrinktofit a else a.

(** [SQArray::Resize] *)
Definition Resize (a : SQArray) (size : Z) (fill : SQObject) : res SQArray :=
  a ← resize a (Z.to_nat (u32 size)) fill; Ok (ShrinkIfNeeded a).

(** [SQArray::Append], [SQArray::Extend], [SQArray::Top], [SQArray::Pop] *)
Definition Append (a : SQArray) (o : SQObject) : res SQArray := push_back a o.

Definition Extend (a b : SQArray) : res SQArray :=
  fold_res (λ a i, o ← at_ b i; Append a o) (seq 0 (_size b)) a.

(** [a.extend(a)]: the length is read first, the elements from the array as it
    grows. *)
Definition Extend_self (a : SQArray) : res SQArray :=
  fold_res (λ a i, o ← at_ a i; Append a o) (seq 0 (_size a)) a.

Definition Top (a : SQArray) : res SQObject := top a.

Definition Pop (a : SQArray) : res SQArray := a ← pop_back a; Ok (ShrinkIfNeeded a).

(** [SQArray::Insert] *)
Definition Insert (a : SQArray) (idx : Z) (val : SQObject) : res (SQArray * bool) :=
  if (idx <? 0)%Z || (Size a <? idx)%Z then Ok (a, false)
  else a ← insert a (Z.to_nat idx) val sq_null; Ok (a, true).

(** [SQArray::Remove] *)
Definition Remove (a : SQArray) (idx : Z) : res (SQArray * bool) :=
  if (idx <? 0)%Z || (Size a <=? idx)%Z then Ok (a, false)
  else a ← remove a (Z.to_nat idx); Ok (ShrinkIfNeeded a, true).

(** ** Arrays as lists *)

Lemma ShrinkIfNeeded_is_vec a l : is_vec a l → is_vec (ShrinkIfNeeded a) l.
Proof. intros Ha. unfold ShrinkIfNeeded. case_decide; [by apply shrinktofit_is_vec|done]. Qed.

Lemma Create_is_vec n :
  (u32 n < max_objects)%Z → ∃ a, Create n = Ok a ∧ is_vec a (replicate (Z.to_nat (u32 n)) sq_null).
Proof.
  intros Hn. pose proof (u32_range n).
  destruct (resize_is_vec empty_vec [] (Z.to_nat (u32 n)) sq_null empty_is_vec) as (a & Ha & Hv); [lia|].
  exists a. split; [done|]. rewrite take_nil, Nat.sub_0_r in Hv. done.
Qed.

Lemma Size_is_vec a l : is_vec a l → Size a = Z.of_nat (length l).
Proof.
  intros [_ Hs Hr Hf]. unfold Size, max_objects in *. rewrite Hs. apply s32_small. lia.
Qed.

(** What a valid index splits the list into. *)
Lemma split_at (l : list SQObject) (i : Z) :
  (0 ≤ i < Z.of_nat (length l))%Z →
  ∃ l1 x l2, l = l1 ++ x :: l2 ∧ length l1 = Z.to_nat i ∧ l !! Z.to_nat i = Some x.
Proof.
  intros Hi. destruct (lookup_lt_is_Some_2 l (Z.to_nat i)) as [x Hx]; [lia|].
  exists (take (Z.to_nat i) l), x, (drop (S (Z.to_nat i)) l).
  rewrite take_drop_middle, length_take_le by (done || lia). done.
Qed.

Lemma Get_is_vec `{SQHeap} a l i :
  is_vec a l → Get a i = Ok (if (0 <=? i)%Z then _realval <$> l !! Z.to_nat i else None).
Proof.
  intros Ha. unfold Get, in_array. rewrite (Size_is_vec a l Ha).
  destruct (Z.leb_spec 0 i); [|done]. destruct (Z.ltb_spec i (Z.of_nat (length l))); simpl.
  - destruct (split_at l i) as (_ & x & _ & _ & _ & Hx); [lia|]. unfold at_.
    rewrite (read_is_vec _ _ _ _ Ha Hx). simpl. by rewrite Hx.
  - by rewrite lookup_ge_None_2 by lia.
Qed.

Lemma Set_is_vec a l i x :
  is_vec a l →
  ∃ a', Set_ a i x = Ok (a', (0 <=? i)%Z && (i <? Z.of_nat (length l))%Z) ∧
        is_vec a' (if (0 <=? i)%Z then <[Z.to_nat i := x]> l else l).
Proof.
  intros Ha. unfold Set_, in_array. rewrite (Size_is_vec a l Ha).
  destruct (Z.leb_spec 0 i); simpl; [|eauto]. destruct (Z.ltb_spec i (Z.of_nat (length l))); simpl.
  - destruct (split_at l i) as (l1 & y & l2 & -> & Hl & _); [lia|]. rewrite <- Hl.
    apply is_vec_slots in Ha as (c & -> & Hr & Hf). simpl. unfold slots at 1. rewrite fmap_app, <- app_assoc.
    cbn [fmap list_fmap app]. pose proof (assign_at (Some <$> l1) y ((Some <$> l2) ++ replicate (c - length (l1 ++ y :: l2)) None) x) as E.
    rewrite length_fmap in E. rewrite E. simpl. eexists. split; [done|].
    rewrite insert_app_r_alt, Nat.sub_diag by lia. cbn [list_insert].
    rewrite length_app in *. pose proof (slots_is_vec (l1 ++ x :: l2) c) as Hs. unfold slots in Hs.
    rewrite length_app, fmap_app, <- app_assoc in Hs. by apply Hs.
  - exists a. split; [done|]. by rewrite list_insert_ge by lia.
Qed.

Lemma Insert_is_vec a l i x :
  is_vec a l → (Z.of_nat (S (length l)) < max_objects)%Z →
  ∃ a', Insert a i x = Ok (a', (0 <=? i)%Z && (i <=? Z.of_nat (length l))%Z) ∧
        is_vec a' (if (0 <=? i)%Z && (i <=? Z.of_nat (length l))%Z
                   then take (Z.to_nat i) l ++ x :: drop (Z.to_nat i) l else l).
Proof.
  intros Ha Hmax. unfold Insert. rewrite (Size_is_vec a l Ha).
  destruct (Z.leb_spec 0 i), (Z.ltb_spec i 0); try lia; simpl; [|eauto].
  destruct (Z.leb_spec i (Z.of_nat (length l))), (Z.ltb_spec (Z.of_nat (length l)) i); try lia; [|eauto].
  destruct (insert_is_vec a (take (Z.to_nat i) l) (drop (Z.to_nat i) l) x sq_null) as (a' & Hrun & Ha').
  { by rewrite take_drop. }
  { by rewrite take_drop. }
  rewrite length_take_le in Hrun by lia. rewrite Hrun. simpl. eauto.
Qed.

Lemma Remove_is_vec a l i :
  is_vec a l →
  ∃ a', Remove a i = Ok (a', (0 <=? i)%Z && (i <? Z.of_nat (length l))%Z) ∧
        is_vec a' (if (0 <=? i)%Z then delete (Z.to_nat i) l else l).
Proof.
  intros Ha. unfold Remove. rewrite (Size_is_vec a l Ha).
  destruct (Z.leb_spec 0 i), (Z.ltb_spec i 0); try lia; simpl; [|eauto].
  destruct (Z.ltb_spec i (Z.of_nat (length l))), (Z.leb_spec (Z.of_nat (length l)) i); try lia.
  - destruct (split_at l i) as (l1 & y & l2 & -> & Hl & _); [lia|]. rewrite <- Hl.
    destruct (remove_is_vec a l1 y l2 Ha) as (a' & -> & Ha'). simpl. eexists. split; [done|].
    rewrite delete_middle. by apply ShrinkIfNeeded_is_vec.
  - exists a. split; [done|]. by rewrite delete_take_drop, take_ge, drop_ge, app_nil_r by lia.
Qed.

Lemma Pop_is_vec a l x : is_vec a (l ++ [x]) → ∃ a', Pop a = Ok a' ∧ is_vec a' l.
Proof.
  intros Ha. unfold Pop. destruct (pop_back_is_vec a l x Ha) as (a' & -> & Ha'). simpl.
  eexists. split; [done|]. by apply ShrinkIfNeeded_is_vec.
Qed.

Lemma Resize_is_vec a l n x :
  is_vec a l → (u32 n < max_objects)%Z →
  ∃ a', Resize a n x = Ok a' ∧
        is_vec a' (take (Z.to_nat (u32 n)) l ++ replicate (Z.to_nat (u32 n) - length l) x).
Proof.
  intros Ha Hn. pose proof (u32_range n). unfold Resize.
  destruct (resize_is_vec a l (Z.to_nat (u32 n)) x Ha) as (a' & -> & Ha'); [lia|]. simpl.
  eexists. split; [done|]. by apply ShrinkIfNeeded_is_vec.
Qed.

(** A loop of appends, reading from anything that holds the right elements. *)
Lemma append_loop_is_vec (rd : SQArray → nat → res SQObject) l2 a l k :
  is_vec a l → (Z.of_nat (length l + length l2) ≤ max_length)%Z →
  (∀ a' l' i x, is_vec a' (l ++ l') → l2 !! i = Some x → rd a' (k + i) = Ok x) →
  ∃ a', fold_res (λ a i, o ← rd a i; Append a o) (seq k (length l2)) a = Ok a' ∧ is_vec a' (l ++ l2).
Proof.
  revert a l k. induction l2 as [|x l2 IH]; intros a l k Ha Hmax Hrd; cbn [length seq fold_res] in *.
  - exists a. by rewrite app_nil_r.
  - assert (Hx : rd a k = Ok x).
    { rewrite <- (Nat.add_0_r k). apply (Hrd a [] 0 x); [by rewrite app_nil_r|done]. }
    rewrite Hx. cbn [mbind res_bind]. unfold Append at 1.
    destruct (push_back_is_vec a l x Ha) as (a1 & -> & Ha1); [lia|].
    destruct (IH a1 (l ++ [x]) (S k) Ha1) as (a2 & Hrun & Ha2).
    { rewrite length_app. simpl. lia. }
    { intros a' l' i y Ha' Hy. rewrite <- app_assoc in Ha'.
      replace (S k + i) with (k + S i) by lia. by apply (Hrd a' ([x] ++ l') (S i) y). }
    exists a2. split; [done|]. by rewrite <- app_assoc in Ha2.
Qed.

Lemma Extend_is_vec a l b l2 :
  is_vec a l → is_vec b l2 → (Z.of_nat (length l + length l2) ≤ max_length)%Z → ∃ a', Extend a b = Ok a' ∧ is_vec a' (l ++ l2).
Proof.
  intros Ha Hb Hmax. unfold Extend. rewrite (iv_size _ _ Hb).
  apply (append_loop_is_vec (λ _, at_ b)); [done..|]. intros a' l' i x _ Hx. by apply (read_is_vec b l2).
Qed.

Lemma Extend_self_is_vec a l :
  is_vec a l → (Z.of_nat (length l + length l) ≤ max_length)%Z → ∃ a', Extend_self a = Ok a' ∧ is_vec a' (l ++ l).
Proof.
  intros Ha Hmax. unfold Extend_self. rewrite (iv_size _ _ Ha).
  apply (append_loop_is_vec at_); [done..|]. intros a' l' i x Ha' Hx.
  apply (read_is_vec a' (l ++ l')); [done|]. by apply lookup_app_l_Some.
Qed.

Lemma Clone_is_vec a l : is_vec a l → ∃ b, Clone a = Ok b ∧ is_vec b l.
Proof.
  intros Ha. unfold Clone. destruct (Create_is_vec 0) as (b0 & -> & Hb0); [done|]. simpl.
  change (Z.to_nat (u32 0)) with 0 in Hb0. cbn [replicate] in Hb0. unfold copy.
  rewrite (iv_size _ _ Hb0). simpl. rewrite (iv_size _ _ Ha).
  assert (∃ b1, (if decide (_allocated b0 < length l) then _realloc b0 (length l) else b0) = b1 ∧
                is_vec b1 [] ∧ length l ≤ _allocated b1) as (b1 & -> & Hb1 & Hr).
  { eexists. split; [done|]. case_decide; [|split; [done|lia]].
    split; [apply realloc_is_vec; [done|simpl; lia|destruct Ha; lia]|]. simpl. case_decide; lia. }
  apply is_vec_slots in Hb1 as (c & -> & _ & Hf). simpl in *. rewrite Nat.sub_0_r.
  assert (Hcopy : ∀ l1 l2, l = l1 ++ l2 →
    fold_res (λ vals i, x ← read (_vals a) i; construct vals i x) (seq (length l1) (length l2))
      (slots l1 (c - length l1)) = Ok (slots l (c - length l))).
  { intros l1 l2. revert l1. induction l2 as [|x l2 IH]; intros l1 Hl; cbn [length seq fold_res].
    - rewrite app_nil_r in Hl. by subst.
    - rewrite (read_is_vec a l _ x Ha) by (rewrite Hl; by apply list_lookup_middle). cbn [mbind res_bind].
      assert (length l = length l1 + S (length l2)) by (rewrite Hl, length_app; done).
      replace (c - length l1) with (S (c - S (length l1))) by lia. rewrite construct_end.
      specialize (IH (l1 ++ [x])). rewrite length_app, Nat.add_1_r, <- app_assoc in IH. by apply IH. }
  specialize (Hcopy [] l eq_refl). simpl in Hcopy. rewrite Nat.sub_0_r in Hcopy.
  unfold slots in Hcopy at 1. simpl in Hcopy. unfold slots at 1. simpl. rewrite Hcopy. simpl.
  eexists. split; [done|]. by apply slots_is_vec.
Qed.

(** ** Properties of arrays *)

(** The calls of the array library. *)
Inductive array_op :=
  | OpAppend (x : SQObject)
  | OpPop
  | OpInsert (i : Z) (x : SQObject)
  | OpRemove (i : Z)
  | OpSet (i : Z) (x : SQObject)
  | OpResize (n : Z) (x : SQObject)
  | OpExtendSelf
  | OpClear.

(** Each with the result it reports. *)
Definition run_op (a : SQArray) (o : array_op) : res (SQArray * bool) :=
  match o with
  | OpAppend x => a ← Append a x; Ok (a, true)
  | OpPop => a ← Pop a; Ok (a, true)
  | OpInsert i x => Insert a i x
  | OpRemove i => Remove a i
  | OpSet i x => Set_ a i x
  | OpResize n x => a ← Resize a n x; Ok (a, true)
  | OpExtendSelf => a ← Extend_self a; Ok (a, true)
  | OpClear => a ← Finalize a; Ok (a, true)
  end.

(** On lists; popping the empty list is left out, the callers test for it. *)
Definition spec_op (l : list SQObject) (o : array_op) : option (list SQObject * bool) :=
  match o with
  | OpAppend x => Some (l ++ [x], true)
  | OpPop => if decide (l = []) then None else Some (removelast l, true)
  | OpInsert i x =>
      Some (if (0 <=? i)%Z && (i <=? Z.of_nat (length l))%Z
            then (take (Z.to_nat i) l ++ x :: drop (Z.to_nat i) l, true) else (l, false))
  | OpRemove i =>
      Some (if (0 <=? i)%Z && (i <? Z.of_nat (length l))%Z
            then (delete (Z.to_nat i) l, true) else (l, false))
  | OpSet i x =>
      Some (if (0 <=? i)%Z && (i <? Z.of_nat (length l))%Z
            then (<[Z.to_nat i := x]> l, true) else (l, false))
  | OpResize n x => Some (take (Z.to_nat (u32 n)) l ++ replicate (Z.to_nat (u32 n) - length l) x, true)
  | OpExtendSelf => Some (l ++ l, true)
  | OpClear => Some ([], true)
  end.

Lemma run_op_is_vec a l o l' b :
  is_vec a l → (Z.of_nat (length l) ≤ max_length)%Z →
  spec_op l o = Some (l', b) → (Z.of_nat (length l') ≤ max_length)%Z → ∃ a', run_op a o = Ok (a', b) ∧ is_vec a' l'.
Proof.
  intros Ha Hl Hs Hl'. destruct o as [x| |i x|i|i x|n x| |]; simpl in *.
  - simplify_eq. rewrite length_app in Hl'. simpl in Hl'. destruct (push_back_is_vec a l x Ha) as (a' & Hrun & ?); [lia|]. unfold Append. rewrite Hrun. simpl. eauto.
  - case_decide as Hne; [done|]. simplify_eq. destruct (exists_last Hne) as (l0 & x & ->).
    destruct (Pop_is_vec a l0 x Ha) as (a' & -> & ?). rewrite removelast_last. simpl. eauto.
  - destruct (Insert_is_vec a l i x Ha) as (a' & -> & Ha'); [unfold max_length, max_objects in *; lia|]. destruct (_ && _); simplify_eq; eauto.
  - destruct (Remove_is_vec a l i Ha) as (a' & -> & Ha'). destruct (0 <=? i)%Z; simpl in *; [|simplify_eq; eauto].
    destruct (Z.ltb_spec i (Z.of_nat (length l))); simplify_eq; [eauto|].
    rewrite delete_take_drop, take_ge, drop_ge, app_nil_r in Ha' by lia. eauto.
  - destruct (Set_is_vec a l i x Ha) as (a' & -> & Ha'). destruct (0 <=? i)%Z; simpl in *; [|simplify_eq; eauto].
    destruct (Z.ltb_spec i (Z.of_nat (length l))); simplify_eq; [eauto|].
    rewrite list_insert_ge in Ha' by lia. eauto.
  - simplify_eq. pose proof (u32_range n). rewrite length_app, length_replicate, length_take in Hl'.
    destruct (Resize_is_vec a l n x Ha) as (a' & -> & ?); [unfold max_length, max_objects in *; lia|]. simpl. eauto.
  - simplify_eq. rewrite length_app in Hl'. destruct (Extend_self_is_vec a l Ha) as (a' & -> & ?); [done|]. simpl. eauto.
  - simplify_eq. destruct (resize_is_vec a l 0 sq_null Ha) as (a' & Hrun & ?); [done|]. unfold Finalize. rewrite Hrun. simpl. eauto.
Qed.

(** A run, with the results in order. *)
Definition run_ops (ops : list array_op) (a : SQArray) : res (SQArray * list bool) :=
  fold_res (λ '(a, bs) o, '(a, b) ← run_op a o; Ok (a, bs ++ [b])) ops (a, []).

(** The same run of the list, as long as it stays within the limit. *)
Definition spec_step (s : option (list SQObject * list bool)) (o : array_op) : option (list SQObject * list bool) :=
  '(l, bs) ← s;
  '(l, b) ← spec_op l o;
  if decide (Z.of_nat (length l) ≤ max_length)%Z then Some (l, bs ++ [b]) else None.
Definition spec_ops (ops : list array_op) (l : list SQObject) : option (list SQObject * list bool) :=
  foldl spec_step (Some (l, [])) ops.

Lemma spec_ops_none ops : foldl spec_step None ops = None.
Proof. by induction ops. Qed.

Lemma run_ops_is_vec ops a l bs l' bs' :
  is_vec a l → (Z.of_nat (length l) ≤ max_length)%Z → foldl spec_step (Some (l, bs)) ops = Some (l', bs') →
  ∃ a', fold_res (λ '(a, bs) o, '(a, b) ← run_op a o; Ok (a, bs ++ [b])) ops (a, bs) = Ok (a', bs') ∧
        is_vec a' l'.
Proof.
  revert a l bs. induction ops as [|o ops IH]; intros a l bs Ha Hl Hs; cbn [foldl fold_res] in *.
  - simplify_eq. eauto.
  - cbn [spec_step mbind option_bind] in Hs. destruct (spec_op l o) as [[l1 b]|] eqn:Ho; [|by rewrite spec_ops_none in Hs].
    cbn [mbind option_bind] in Hs. case_decide as Hl1; [|by rewrite spec_ops_none in Hs].
    destruct (run_op_is_vec a l o l1 b Ha Hl Ho Hl1) as (a1 & -> & Ha1). cbn [mbind res_bind]. by eapply IH.
Qed.

(** C15: an array created with a length of at most 2^28 and then changed by any
    sequence of appends, pops (of a non-empty array), insertions, removals,
    assignments, resizes, self-extensions and clears that never takes it past
    2^28 elements behaves as the list updated by the same sequence: no access
    leaves the buffer or touches a destroyed slot, whatever growing and
    shrinking happens, every call reports what the list operation does, and
    [Get] reads the list, with [false] outside its bounds. *)
Theorem array_trace_refines_list `{SQHeap} n ops l bs :
  (u32 n ≤ max_length)%Z → spec_ops ops (replicate (Z.to_nat (u32 n)) sq_null) = Some (l, bs) →
  ∃ a0 a, Create n = Ok a0 ∧ run_ops ops a0 = Ok (a, bs) ∧ Size a = Z.of_nat (length l) ∧
          ∀ i, Get a i = Ok (if (0 <=? i)%Z then _realval <$> l !! Z.to_nat i else None).
Proof.
  intros Hn Hs. destruct (Create_is_vec n) as (a0 & Hc & Ha0); [unfold max_length, max_objects in *; lia|].
  destruct (run_ops_is_vec ops a0 _ [] l bs Ha0) as (a & Hrun & Ha); [|done|].
  { pose proof (u32_range n). rewrite length_replicate. lia. }
  exists a0, a. split_and!; [done|done|by apply Size_is_vec|]. intros i. by apply Get_is_vec.
Qed.

Definition array_heap : SQHeap := {|
  string_hash := u32; string_val := λ _, []; weak_obj := λ _, sq_null; ub_float_cast := λ _, 0%Z
|}.

Lemma array_trace_refines_list_witness :
  ∃ a0 a, Create 2 = Ok a0 ∧
    run_ops [OpAppend (sq_int 7); OpInsert 1 (sq_int 5); OpRemove 0; OpExtendSelf; OpInsert 9 sq_null; OpPop] a0
      = Ok (a, [true; true; true; true; false; true]) ∧
    @Get array_heap a 3 = Ok (Some (sq_int 5)).
Proof.
  destruct (@array_trace_refines_list array_heap 2
    [OpAppend (sq_int 7); OpInsert 1 (sq_int 5); OpRemove 0; OpExtendSelf; OpInsert 9 sq_null; OpPop]
    _ _ ltac:(by vm_compute) eq_refl) as (a0 & a & H1 & H2 & _ & H4).
  exists a0, a. split; [exact H1|]. split; [exact H2|]. rewrite H4. reflexivity.
Defined.

(** [Clone] gives an array with the same elements, in a buffer of its
    own. *)
Theorem array_clone_equal `{SQHeap} a l :
  is_vec a l → ∃ b, Clone a = Ok b ∧ is_vec b l ∧ ∀ i, Get b i = Get a i.
Proof.
  intros Ha. destruct (Clone_is_vec a l Ha) as (b & Hb & Hv). exists b. split_and!; [done|done|].
  intros i. by rewrite (Get_is_vec b l), (Get_is_vec a l).
Qed.

Lemma array_clone_equal_witness :
  ∃ a b, Create 3 = Ok a ∧ Clone a = Ok b ∧ @Get array_heap b 2 = @Get array_heap a 2.
Proof.
  destruct (Create_is_vec 3 eq_refl) as (a & Hc & Ha).
  destruct (@array_clone_equal array_heap a _ Ha) as (b & Hb & _ & Hg).
  exists a, b. split; [exact Hc|]. split; [exact Hb|]. apply Hg.
Defined.

(** ** Sizes above the limit *)

Lemma fill_overruns (x : SQObject) d : ∀ vals k,
  length vals < k + d → 0 < d → fold_res (λ vals i, construct vals i x) (seq k d) vals = Err OutOfBounds.
Proof.
  induction d as [|d IH]; intros vals k Hk Hd; [lia|]. cbn [seq fold_res]. unfold construct at 1.
  destruct (vals !! k) as [y|] eqn:Hy; [|done]. apply lookup_lt_Some in Hy. apply IH; rewrite ?length_insert; lia.
Qed.

Lemma realloc_slots (v : SQArray) n :
  (max_objects ≤ Z.of_nat n)%Z → Z.of_nat (length (_vals (_realloc v n))) = (Z.of_nat n mod max_objects)%Z.
Proof.
  intros Hn. unfold max_objects in Hn. unfold _realloc. rewrite decide_True by lia. cbn [_vals]. rewrite bytes_of_objects.
  unfold realloc_block. rewrite length_app, length_take, length_replicate.
  pose proof (Z.mod_pos_bound (Z.of_nat n) max_objects ltac:(done)). lia.
Qed.

Lemma resize_overruns (a : SQArray) l n x :
  is_vec a l → (max_objects ≤ Z.of_nat n)%Z → resize a n x = Err OutOfBounds.
Proof.
  intros [_ Hs Hr Hf] Hn. unfold resize. rewrite (decide_True (P := _allocated a < n)) by lia.
  replace (_size (_realloc a n)) with (length l) by done. rewrite decide_True by lia. rewrite fill_overruns; [done| |lia].
  pose proof (realloc_slots a n Hn). pose proof (Z.mod_pos_bound (Z.of_nat n) max_objects ltac:(done)). unfold max_objects in *. lia.
Qed.

(** C35: creating an array of 2^29 elements or more, which every negative length
    is, or resizing one to such a size writes outside the block that was
    allocated for it, whatever the array held; and so does appending to an
    array whose 2^28 slots are all in use: the number of bytes is computed in 32
    bits. *)
Theorem array_size_overruns n :
  (max_objects ≤ u32 n)%Z →
  Create n = Err OutOfBounds ∧
  (∀ a l x, is_vec a l → Resize a n x = Err OutOfBounds) ∧
  (∀ a l x, is_vec a l → _allocated a = length l → Z.of_nat (length l) = max_length → Append a x = Err OutOfBounds).
Proof.
  intros Hn. pose proof (u32_range n). split_and!.
  - apply (resize_overruns _ [] _ _ empty_is_vec). lia.
  - intros a l x Ha. unfold Resize. by rewrite (resize_overruns a l _ x Ha) by lia.
  - intros a l x Ha Hfull Hl. unfold Append, push_back. rewrite (iv_size _ _ Ha), Hfull, decide_True by lia.
    unfold max_length in Hl. rewrite (uint_small (length l * 2)) by lia.
    replace (_size (_realloc a (length l * 2))) with (length l) by (by rewrite <- (iv_size _ _ Ha)).
    pose proof (realloc_slots a (length l * 2)) as Hlen. replace (Z.of_nat (length l * 2)) with max_objects in Hlen by (unfold max_objects; lia).
    specialize (Hlen ltac:(done)). rewrite Z.mod_same in Hlen by done. unfold construct. by rewrite lookup_ge_None_2 by lia.
Qed.

Lemma array_size_overruns_witness :
  (max_objects ≤ u32 (-2147483647))%Z ∧ Create (-2147483647) = Err OutOfBounds ∧
  ∃ a, Create 3 = Ok a ∧ Resize a 0x20000001 sq_null = Err OutOfBounds.
Proof.
  split; [by vm_compute|]. split; [exact (proj1 (array_size_overruns (-2147483647) ltac:(by vm_compute)))|].
  destruct (Create_is_vec 3 eq_refl) as (a & Hc & Ha). exists a. split; [exact Hc|].
  exact (proj1 (proj2 (array_size_overruns 0x20000001 ltac:(by vm_compute))) a _ sq_null Ha).
Defined.
