(* ===== verification/SqArrayLib.v ===== *)
(** * Array functions of the base library (sqbaselib.cpp, sqapi.cpp)

    The functions scripts call on an array, in the state monad over the array
    itself: a function of the script that is called back may change it.  Errors
    are results, since the array outlives them.  Elements are reached through
    [SQArray] where the code does so, and through the bare vector, unchecked,
    in the sort. *)

From Stdlib Require Import Ascii.
From stdpp Require Import base numbers gmap strings option list.
From S2P Require Import Prelude SqObject SqArray.

Open Scope Z_scope.

(** An error for the script, or a result. *)
Inductive threw (A : Type) := Threw (msg : string) | Gave (a : A).
Arguments Threw {A} msg.
Arguments Gave {A} a.

(** Operations of [SQArray] that change the array. *)
Definition change {A} (op : SQArray → res (SQArray * A)) : stM SQArray A := λ a,
  match op a with Ok (a', x) => Ok (x, a') | Err e => Err e end.
Definition change_ (op : SQArray → res SQArray) : stM SQArray () := λ a,
  match op a with Ok a' => Ok ((), a') | Err e => Err e end.
Definition look {A} (op : SQArray → res A) : stM SQArray A := λ a, x ← op a; Ok (x, a).

Section arraylib.
Context `{SQHeap}.

(** [tointeger] of a number *)
Definition tointeger (o : SQObject) : Z :=
  if decide (_type o = OT_FLOAT) then default (ub_float_cast (_unVal o)) (float_to_int (_unVal o)) else _integer o.
(** [sq_isnumeric] *)
Definition sq_isnumeric (o : SQObject) : bool := negb (Z.land (type_code (_type o)) SQOBJECT_NUMERIC =? 0).

(** ** Single operations *)

Definition array_append (val : SQObject) : stM SQArray (threw ()) :=
  change_ (λ a, Append a val);; mret (Gave ()).

(** [array_extend], of another array and of the array itself *)
Definition array_extend (other : option SQArray) : stM SQArray (threw ()) :=
  change_ (λ a, match other with Some b => Extend a b | None => Extend_self a end);; mret (Gave ()).

(** [_values[i]] and an assignment to it, unchecked *)
Definition value_at (i : Z) : stM SQArray SQObject :=
  look (λ a, if i <? 0 then Err OutOfBounds else at_ a (Z.to_nat i)).
Definition value_set (i : Z) (x : SQObject) : stM SQArray () :=
  change_ (λ a, if i <? 0 then Err OutOfBounds
                else vals ← assign (_vals a) (Z.to_nat i) x; Ok (mkVec vals (_size a) (_allocated a))).

(** Two elements exchanged: the loop body of [sq_arrayreverse], and [_Swap]. *)
Definition swap_values (i j : Z) : stM SQArray () :=
  x ← value_at i; y ← value_at j; value_set i y;; value_set j x.

(** [sq_arrayreverse] *)
Fixpoint reverse_loop (i n : nat) (size : Z) : stM SQArray () :=
  match n with O => mret () | S n' => swap_values (Z.of_nat i) (size - Z.of_nat i);; reverse_loop (S i) n' size end.
Definition array_reverse : stM SQArray (threw ()) :=
  size ← gets Size;
  if 0 <? size then reverse_loop 0 (Z.to_nat (Z.shiftr size 1)) (size - 1);; mret (Gave ()) else mret (Gave ()).

(** [array_pop], with [sq_arraypop] *)
Definition array_pop : stM SQArray (threw SQObject) :=
  size ← gets Size;
  if 0 <? size then x ← look Top; change_ Pop;; mret (Gave x) else mret (Threw "empty array").

Definition array_top : stM SQArray (threw SQObject) :=
  size ← gets Size;
  if 0 <? size then x ← look Top; mret (Gave x) else mret (Threw "top() on a empty array").

Definition array_insert (idx val : SQObject) : stM SQArray (threw ()) :=
  ok ← change (λ a, Insert a (tointeger idx) val);
  mret (if (ok : bool) then Gave () else Threw "index out of range").

Definition array_remove (idx : SQObject) : stM SQArray (threw SQObject) :=
  if negb (sq_isnumeric idx) then mret (Threw "wrong type") else
  val ← look (λ a, Get a (tointeger idx));
  match val with
  | Some x => change (λ a, Remove a (tointeger idx));; mret (Gave x)
  | None => mret (Threw "idx out of range")
  end.

Definition array_resize (nsize : SQObject) (fill : option SQObject) : stM SQArray (threw ()) :=
  if sq_isnumeric nsize then
    let sz := tointeger nsize in
    if sz <? 0 then mret (Threw "resizing to negative length")
    else change_ (λ a, Resize a sz (default sq_null fill));; mret (Gave ())
  else mret (Threw "size must be a number").

(** [get_slice_params] and the checks of [array_slice] and [string_slice], on the
    optional arguments and the length *)
Definition slice_bounds (start stop : option SQObject) (len : Z) : threw (Z * Z) :=
  let sidx := match start with Some s => if negb (is_null s) && sq_isnumeric s then tointeger s else 0 | None => 0 end in
  let eidx := match stop with Some e => if sq_isnumeric e then tointeger e else 0 | None => len end in
  let sidx := if sidx <? 0 then len + sidx else sidx in
  let eidx := if eidx <? 0 then len + eidx else eidx in
  if eidx <? sidx then Threw "wrong indexes"
  else if (len <? eidx) || (sidx <? 0) then Threw "slice out of range"
  else Gave (sidx, eidx).

(** [a->Get(i,t)]: a failing one leaves [t] as it is. *)
Definition get_into (i : Z) (t : SQObject) : stM SQArray SQObject :=
  r ← look (λ a, Get a i); mret (default t r).

(** The loop of [array_slice] *)
Fixpoint slice_loop (n : nat) (i count : Z) (t : SQObject) (arr : SQArray) : stM SQArray SQArray :=
  match n with
  | O => mret arr
  | S n' =>
      t ← get_into i t;
      r ← lift (Set_ arr count t);
      slice_loop n' (i + 1) (count + 1) t (fst r)
  end.

Definition array_slice (start stop : option SQObject) : stM SQArray (threw SQArray) :=
  alen ← gets Size;
  match slice_bounds start stop alen with
  | Threw msg => mret (Threw msg)
  | Gave (sidx, eidx) =>
      arr ← lift (Create (eidx - sidx));
      arr ← slice_loop (Z.to_nat (eidx - sidx)) sidx 0 sq_null arr;
      mret (Gave arr)
  end.

(** ** Functions that call back *)

Section callbacks.
(** [sq_call] of the function that was passed, with its arguments: [None] if it
    fails.  It may change the array. *)
Context (call : list SQObject → stM SQArray (option SQObject)).
(** The array as an argument. *)
Context (this : SQObject).

(** [__map_array] with a new array for the results *)
Fixpoint map_loop (k : nat) (n : Z) (temp : SQObject) (dest : SQArray) : stM SQArray (option SQArray) :=
  match k with
  | O => mret (Some dest)
  | S k' =>
      temp ← get_into n temp;
      r ← call [this; temp];
      match r with
      | None => mret None
      | Some x => d ← lift (Set_ dest n x); map_loop k' (n + 1) temp (fst d)
      end
  end.

Definition array_map : stM SQArray (option SQArray) :=
  size ← gets Size;
  dest ← lift (Create size);
  map_loop (Z.to_nat size) 0 sq_null dest.

(** [__map_array] onto the array itself *)
Fixpoint apply_loop (k : nat) (n : Z) (temp : SQObject) : stM SQArray (option ()) :=
  match k with
  | O => mret (Some ())
  | S k' =>
      temp ← get_into n temp;
      r ← call [this; temp];
      match r with
      | None => mret None
      | Some x => change (λ a, Set_ a n x);; apply_loop k' (n + 1) temp
      end
  end.

Definition array_apply : stM SQArray (option ()) := size ← gets Size; apply_loop (Z.to_nat size) 0 sq_null.

Fixpoint reduce_loop (k : nat) (n : Z) (res other : SQObject) : stM SQArray (option SQObject) :=
  match k with
  | O => mret (Some res)
  | S k' =>
      other ← get_into n other;
      r ← call [this; res; other];
      match r with None => mret None | Some x => reduce_loop k' (n + 1) x other end
  end.

(** [array_reduce]: nothing for an empty array. *)
Definition array_reduce : stM SQArray (option (option SQObject)) :=
  size ← gets Size;
  if size =? 0 then mret (Some None) else
  res ← get_into 0 sq_null;
  r ← reduce_loop (Z.to_nat (size - 1)) 1 res sq_null;
  mret (Some <$> r).

(** [SQVM::IsFalse]; 0.0 and -0.0 have no bits but the sign. *)
Definition is_zero (bits : Z) : bool := Z.land bits 0x7FFFFFFF =? 0.
Definition IsFalse (o : SQObject) : bool :=
  (negb (Z.land (type_code (_type o)) SQOBJECT_CANBEFALSE =? 0) && bool_decide (_type o = OT_FLOAT) && is_zero (_unVal o))
  || (_integer o =? 0).

Fixpoint filter_loop (k : nat) (n : Z) (val : SQObject) (ret : SQArray) : stM SQArray (option SQArray) :=
  match k with
  | O => mret (Some ret)
  | S k' =>
      val ← get_into n val;
      r ← call [this; sq_int n; val];
      match r with
      | None => mret None
      | Some x =>
          ret ← (if negb (IsFalse x) then lift (Append ret val) else mret ret);
          filter_loop k' (n + 1) val ret
      end
  end.

Definition array_filter : stM SQArray (option SQArray) :=
  size ← gets Size;
  ret ← lift (Create 0);
  filter_loop (Z.to_nat size) 0 sq_null ret.

(** [SQVM::IsEqual]; [eq_float] compares a number with a number of another type. *)
Context (eq_float : SQObject → SQObject → bool).
Definition IsEqual (o1 o2 : SQObject) : bool :=
  if decide (_type o1 = _type o2) then _unVal o1 =? _unVal o2
  else if sq_isnumeric o1 && sq_isnumeric o2 then eq_float o1 o2 else false.

Fixpoint find_loop (k : nat) (n : Z) (temp val : SQObject) : stM SQArray (option Z) :=
  match k with
  | O => mret None
  | S k' =>
      temp ← get_into n temp;
      if IsEqual temp val then mret (Some n) else find_loop k' (n + 1) temp val
  end.

Definition array_find (val : SQObject) : stM SQArray (option Z) :=
  size ← gets Size; find_loop (Z.to_nat size) 0 sq_null val.
End callbacks.

(** ** Sort *)

Section sort.
(** Comparisons of numbers of which one is a float. *)
Context (float_lt float_eq : SQObject → SQObject → bool).
(** The call of the [_cmp] metamethod of an object, if it has one; [None] is an
    error in it. *)
Context (meta_cmp : SQObject → SQObject → option (stM SQArray (option SQObject))).
(** The call of the function that was passed to [sort], and what [sq_getinteger]
    gives for its result. *)
Context (call : list SQObject → stM SQArray (option SQObject)) (root : SQObject).
Context (getinteger : SQObject → option Z).

(** [strcmp] *)
Fixpoint strcmp (s t : list ascii) : Z :=
  match s, t with
  | [], [] => 0
  | [], _ :: _ => -1
  | _ :: _, [] => 1
  | c :: s', d :: t' => if char_code c <? char_code d then -1 else if char_code d <? char_code c then 1 else strcmp s' t'
  end.

(** [SQVM::ObjCmp] *)
Definition ObjCmp (o1 o2 : SQObject) : stM SQArray (option Z) :=
  let pointers := mret (Some (if _unVal o1 <? _unVal o2 then -1 else 1)) in
  if decide (_type o1 = _type o2) then
    if _unVal o1 =? _unVal o2 then mret (Some 0) else
    match _type o1 with
    | OT_STRING => mret (Some (strcmp (c_str (string_val (_unVal o1))) (c_str (string_val (_unVal o2)))))
    | OT_INTEGER => mret (Some (if _integer o1 <? _integer o2 then -1 else 1))
    | OT_FLOAT => mret (Some (if float_lt o1 o2 then -1 else 1))
    | OT_TABLE | OT_USERDATA | OT_INSTANCE =>
        match meta_cmp o1 o2 with
        | Some m =>
            r ← m;
            match r with
            | Some res => mret (if decide (_type res = OT_INTEGER) then Some (_integer res) else None)
            | None => mret None
            end
        | None => pointers
        end
    | _ => pointers
    end
  else if sq_isnumeric o1 && sq_isnumeric o2 then
    mret (Some (if float_eq o1 o2 then 0 else if float_lt o1 o2 then -1 else 1))
  else if decide (_type o1 = OT_NULL) then mret (Some (-1))
  else if decide (_type o2 = OT_NULL) then mret (Some 1)
  else mret None.

(** [_sort_compare] *)
Definition _sort_compare (func : bool) (a b : SQObject) : stM SQArray (option Z) :=
  if negb func then ObjCmp a b
  else
    r ← call [root; a; b];
    match r with
    | None => mret None
    | Some x => mret (getinteger x)
    end.
End sort.

(** The sort itself, for any way to compare. *)
Section hsort.
Context (compare : SQObject → SQObject → stM SQArray (option Z)).

(** The comparison of two elements. *)
Definition compare_at (i j : Z) : stM SQArray (option Z) := x ← value_at i; y ← value_at j; compare x y.

(** [_hsort_sift_down]; [false] is an error. *)
Fixpoint _hsort_sift_down (fuel : nat) (root bottom : Z) : stM SQArray bool :=
  match fuel with
  | O => raise OutOfFuel
  | S fuel' =>
      let root2 := root * 2 in
      if root2 <=? bottom then
        maxChild ← (if root2 =? bottom then mret (Some root2)
                    else r ← compare_at root2 (root2 + 1);
                         mret ((λ ret, if 0 <? ret then root2 else root2 + 1) <$> r));
        match (maxChild : option Z) with
        | None => mret false
        | Some maxChild =>
            r ← compare_at root maxChild;
            match (r : option Z) with
            | None => mret false
            | Some ret =>
                if ret <? 0 then
                  if root =? maxChild then mret false
                  else swap_values root maxChild;; _hsort_sift_down fuel' maxChild bottom
                else mret true
            end
        end
      else mret true
  end.

(** The two loops of [_hsort]; [fuel] is that of each sift. *)
Fixpoint build_loop (fuel i : nat) (bottom : Z) : stM SQArray bool :=
  ok ← _hsort_sift_down fuel (Z.of_nat i) bottom;
  if (ok : bool) then match i with O => mret true | S i' => build_loop fuel i' bottom end else mret false.
Fixpoint extract_loop (fuel i : nat) : stM SQArray bool :=
  match i with
  | O => mret true
  | S i' =>
      swap_values 0 (Z.of_nat i);;
      ok ← _hsort_sift_down fuel 0 (Z.of_nat i - 1);
      if (ok : bool) then extract_loop fuel i' else mret false
  end.

Definition _hsort : stM SQArray bool :=
  size ← gets Size;
  let fuel := S (S (Z.to_nat size)) in
  ok ← build_loop fuel (Z.to_nat (size / 2)) (size - 1);
  if (ok : bool) then extract_loop fuel (Z.to_nat (size - 1)) else mret false.

(** [array_sort]; [false] is an error. *)
Definition array_sort : stM SQArray bool :=
  size ← gets Size;
  if 1 <? size then _hsort else mret true.
End hsort.
End arraylib.
