(* ===== verification/SqArrayLibSpec.v ===== *)
(** * Correctness of the array functions

    [sort] ends and permutes the array whatever the comparison answers, and
    sorts it if the comparison is an order; [reverse], [slice], [map],
    [filter] and the others against the functions on lists; what happens when
    the comparison changes the array. *)

From Stdlib Require Import Ascii.
From stdpp Require Import base numbers gmap strings option list sorting.
From S2P Require Import Prelude SqObject SqArray SqArrayLib.

Open Scope Z_scope.

(** ** Exchanging elements *)

Section swap.
Context {A : Type}.
Implicit Types l : list A.

Definition sw (i j k : nat) : nat := if decide (k = i) then j else if decide (k = j) then i else k.
Definition swap_list (i j : nat) l : list A :=
  match l !! i, l !! j with Some x, Some y => <[j := x]> (<[i := y]> l) | _, _ => l end.

Lemma swap_length i j l : length (swap_list i j l) = length l.
Proof. unfold swap_list. destruct (l !! i), (l !! j); by rewrite ?length_insert. Qed.

Lemma swap_lookup i j l k : (i < length l)%nat → (j < length l)%nat → swap_list i j l !! k = l !! sw i j k.
Proof.
  intros Hi Hj. unfold swap_list, sw. destruct (lookup_lt_is_Some_2 l i Hi) as [x Hx], (lookup_lt_is_Some_2 l j Hj) as [y Hy].
  rewrite Hx, Hy. destruct (decide (k = j)) as [->|Hkj].
  - rewrite list_lookup_insert_eq by (by rewrite length_insert). destruct (decide (j = i)) as [->|]; [by rewrite Hx in *|done].
  - rewrite list_lookup_insert_ne by done. destruct (decide (k = i)) as [->|Hki]; [by rewrite list_lookup_insert_eq|].
    by rewrite list_lookup_insert_ne.
Qed.

Lemma sw_sw i j k : sw i j (sw i j k) = k.
Proof. unfold sw. repeat destruct (decide _); congruence. Qed.

Lemma swap_perm i j l : (i < length l)%nat → (j < length l)%nat → swap_list i j l ≡ₚ l.
Proof.
  intros Hi Hj. apply Permutation_inj. split; [by rewrite swap_length|]. exists (sw i j). split.
  - intros k1 k2 Hk. by rewrite <- (sw_sw i j k1), Hk, sw_sw.
  - intros k. by rewrite swap_lookup.
Qed.

(** The first [b] elements are rearranged, the others stay. *)
Definition rearranged (b : nat) l l' : Prop := take b l' ≡ₚ take b l ∧ drop b l' = drop b l.

Lemma rearranged_refl b l : rearranged b l l.
Proof. by split. Qed.
Lemma rearranged_trans b l1 l2 l3 : rearranged b l1 l2 → rearranged b l2 l3 → rearranged b l1 l3.
Proof. intros [P1 D1] [P2 D2]. split; [by rewrite P2|by rewrite D2]. Qed.
Lemma rearranged_perm b l l' : rearranged b l l' → l' ≡ₚ l.
Proof. intros [P D]. rewrite <- (take_drop b l), <- (take_drop b l'). by rewrite P, D. Qed.
Lemma rearranged_length b l l' : rearranged b l l' → length l' = length l.
Proof. intros H%rearranged_perm. by apply Permutation_length. Qed.
Lemma rearranged_mono b b' l l' : (b ≤ b')%nat → rearranged b l l' → rearranged b' l l'.
Proof.
  intros Hb [P D]. split.
  - rewrite <- (take_drop b (take b' l)), <- (take_drop b (take b' l')), !take_take, !Nat.min_l by lia.
    rewrite P. by rewrite !skipn_firstn_comm, D.
  - replace b' with (b + (b' - b))%nat by lia. by rewrite <- !drop_drop, D.
Qed.

Lemma swap_rearranged b i j l :
  (i < b)%nat → (j < b)%nat → (b ≤ length l)%nat → rearranged b l (swap_list i j l).
Proof.
  intros Hi Hj Hb. split.
  - assert (Ht : take b (swap_list i j l) = swap_list i j (take b l)).
    { apply list_eq. intros k. rewrite (swap_lookup i j (take b l)) by (rewrite length_take; lia).
      destruct (decide (k < b)%nat) as [Hk|Hk].
      - rewrite !lookup_take_lt, swap_lookup by (unfold sw; repeat destruct (decide _); lia). done.
      - rewrite !lookup_take_ge by (unfold sw; repeat destruct (decide _); lia). done. }
    rewrite Ht. apply swap_perm; rewrite length_take; lia.
  - apply list_eq. intros k. rewrite !lookup_drop, swap_lookup by lia. f_equal. unfold sw. repeat destruct (decide _); lia.
Qed.

(** Elements that stay, and elements of the part that is rearranged. *)
Lemma rearranged_lookup b l l' k : rearranged b l l' → (b ≤ k)%nat → l' !! k = l !! k.
Proof.
  intros [_ D] Hk. replace k with (b + (k - b))%nat by lia. by rewrite <- !lookup_drop, D.
Qed.
Lemma rearranged_elem b l l' k x :
  rearranged b l l' → (k < b)%nat → l' !! k = Some x → ∃ k', (k' < b)%nat ∧ l !! k' = Some x.
Proof.
  intros [P _] Hk Hx. assert (Hin : x ∈ take b l).
  { rewrite <- P. apply list_elem_of_lookup_2 with k. by rewrite lookup_take_lt. }
  apply list_elem_of_lookup_1 in Hin as [k' Hk']. exists k'.
  assert (k' < b)%nat by (apply lookup_lt_Some in Hk'; rewrite length_take in Hk'; lia).
  rewrite lookup_take_lt in Hk' by done. done.
Qed.
End swap.

(** ** Elements of an array *)

Lemma value_at_ok a l i x :
  is_vec a l → 0 ≤ i → l !! Z.to_nat i = Some x → runs (value_at i) a (λ y a', y = x ∧ a' = a).
Proof.
  intros Ha Hi Hx. unfold value_at, look, runs. rewrite (proj2 (Z.ltb_ge i 0)) by lia.
  unfold at_. by rewrite (read_is_vec a l _ x Ha Hx).
Qed.

Lemma value_set_ok a l i x :
  is_vec a l → 0 ≤ i < Z.of_nat (length l) → runs (value_set i x) a (λ _ a', is_vec a' (<[Z.to_nat i := x]> l)).
Proof.
  intros Ha Hi. destruct (Set_is_vec a l i x Ha) as (a' & Hs & Ha').
  unfold Set_, in_array in Hs. rewrite (Size_is_vec a l Ha) in Hs. unfold value_set, change_, runs.
  rewrite (proj2 (Z.leb_le 0 i)) in * by lia. rewrite (proj2 (Z.ltb_lt i _)) in Hs by lia. rewrite (proj2 (Z.ltb_ge i 0)) by lia.
  cbn [andb] in Hs. destruct (assign (_vals a) (Z.to_nat i) x) as [vals|]; [|done]. cbn in *. by simplify_eq.
Qed.

Lemma swap_values_ok a l i j :
  is_vec a l → 0 ≤ i < Z.of_nat (length l) → 0 ≤ j < Z.of_nat (length l) →
  runs (swap_values i j) a (λ _ a', is_vec a' (swap_list (Z.to_nat i) (Z.to_nat j) l)).
Proof.
  intros Ha Hi Hj. destruct (lookup_lt_is_Some_2 l (Z.to_nat i)) as [x Hx]; [lia|].
  destruct (lookup_lt_is_Some_2 l (Z.to_nat j)) as [y Hy]; [lia|]. unfold swap_list. rewrite Hx, Hy.
  apply runs_bind. eapply runs_mono; [by apply (value_at_ok a l i x); [..|lia|]|]. intros ? ? [-> ->].
  apply runs_bind. eapply runs_mono; [by apply (value_at_ok a l j y); [..|lia|]|]. intros ? ? [-> ->].
  apply runs_bind. eapply runs_mono; [by apply (value_set_ok a l i y)|]. intros [] a1 Ha1.
  apply (value_set_ok a1); [done|by rewrite length_insert].
Qed.

(** ** The sort permutes *)

Section sort.
Context (compare : SQObject → SQObject → stM SQArray (option Z)).

(** The comparison of the elements there are does not change the array. *)
Context (P : SQObject → Prop).
Hypothesis compare_keeps : ∀ x y a, P x → P y → ∃ r, compare x y a = Ok (r, a).

Lemma compare_at_keeps a l i j :
  is_vec a l → Forall P l → 0 ≤ i < Z.of_nat (length l) → 0 ≤ j < Z.of_nat (length l) →
  ∃ x y r, l !! Z.to_nat i = Some x ∧ l !! Z.to_nat j = Some y ∧ compare x y a = Ok (r, a) ∧
    compare_at compare i j a = Ok (r, a).
Proof using compare_keeps.
  intros Ha HP Hi Hj. destruct (lookup_lt_is_Some_2 l (Z.to_nat i)) as [x Hx]; [lia|].
  destruct (lookup_lt_is_Some_2 l (Z.to_nat j)) as [y Hy]; [lia|].
  destruct (compare_keeps x y a) as [r Hr]; [by eapply Forall_lookup_1..|].
  exists x, y, r. split_and!; [done..|]. unfold compare_at, mbind, stM_bind.
  pose proof (value_at_ok a l i x Ha ltac:(lia) Hx) as H1. unfold runs in H1. destruct (value_at i a) as [[]|]; [|done].
  destruct H1 as [-> ->]. pose proof (value_at_ok a l j y Ha ltac:(lia) Hy) as H2. unfold runs in H2.
  destruct (value_at j a) as [[]|]; [|done]. destruct H2 as [-> ->]. done.
Qed.

(** The child that is compared with its parent. *)
Definition child_of (r m : Z) : Prop := m = 2 * r ∨ m = 2 * r + 1.

Lemma sift_permutes fuel : ∀ a l root bottom,
  is_vec a l → Forall P l → 0 ≤ root → 0 ≤ bottom + 1 ≤ Z.of_nat (length l) → (Z.to_nat (bottom + 1 - root) < fuel)%nat →
  runs (_hsort_sift_down compare fuel root bottom) a (λ _ a', ∃ l', is_vec a' l' ∧ rearranged (Z.to_nat (bottom + 1)) l l').
Proof using compare_keeps.
  induction fuel as [|fuel IH]; intros a l root bottom Ha HP Hr Hb Hf; [lia|]. cbn [_hsort_sift_down].
  destruct (Z.leb_spec (root * 2) bottom) as [Hle|_]; [|apply runs_ret; eauto using rearranged_refl].
  assert (Hmax : ∃ m, (if root * 2 =? bottom then mret (Some (root * 2))
      else r ← compare_at compare (root * 2) (root * 2 + 1);
           mret ((λ ret, if 0 <? ret then root * 2 else root * 2 + 1) <$> r)) a = Ok (m, a) ∧
      ∀ c, m = Some c → child_of root c ∧ c ≤ bottom).
  { destruct (Z.eqb_spec (root * 2) bottom) as [He|He].
    - exists (Some (root * 2)). split; [done|]. intros c [= <-]. unfold child_of. lia.
    - destruct (compare_at_keeps a l (root * 2) (root * 2 + 1) Ha HP) as (x & y & r & _ & _ & _ & E); [lia..|].
      unfold mbind, stM_bind. rewrite E. eexists. split; [done|]. intros c Hc. unfold child_of.
      destruct r as [r|]; [|done]. cbn in Hc. destruct (0 <? r); simplify_eq; lia. }
  destruct Hmax as (m & Hm & Hchild). apply runs_bind. unfold runs at 1. rewrite Hm.
  destruct m as [m|]; [|apply runs_ret; eauto using rearranged_refl].
  destruct (Hchild m eq_refl) as [Hc Hmb]. clear Hchild Hm. unfold child_of in Hc.
  destruct (compare_at_keeps a l root m Ha HP) as (x & y & r & _ & _ & _ & E); [lia..|].
  apply runs_bind. unfold runs at 1. rewrite E. destruct r as [r|]; [|apply runs_ret; eauto using rearranged_refl].
  destruct (r <? 0); [|apply runs_ret; eauto using rearranged_refl].
  destruct (Z.eqb_spec root m) as [He|He]; [apply runs_ret; eauto using rearranged_refl|].
  apply runs_bind. eapply runs_mono; [apply (swap_values_ok a l root m); [done|lia..]|]. intros [] a1 Ha1.
  assert (Hsw : rearranged (Z.to_nat (bottom + 1)) l (swap_list (Z.to_nat root) (Z.to_nat m) l)) by (apply swap_rearranged; lia).
  eapply runs_mono; [apply (IH a1 _ m bottom Ha1); rewrite ?swap_length; try lia|].
  { by rewrite (rearranged_perm _ _ _ Hsw). } intros ok a2 (l2 & Ha2 & H2).
  exists l2. split; [done|]. by eapply rearranged_trans.
Qed.

Lemma build_permutes fuel bottom : ∀ i a l,
  is_vec a l → Forall P l → bottom + 1 = Z.of_nat (length l) → (length l < fuel)%nat →
  runs (build_loop compare fuel i bottom) a (λ _ a', ∃ l', is_vec a' l' ∧ l' ≡ₚ l).
Proof using compare_keeps.
  induction i as [|i IH]; intros a l Ha HP Hb Hf; cbn [build_loop]; apply runs_bind;
    (eapply runs_mono; [by apply (sift_permutes fuel a l); try lia|]); intros ok a1 (l1 & Ha1 & H1%rearranged_perm);
    (destruct ok; [|apply runs_ret; eauto]); [apply runs_ret; eauto|].
  eapply runs_mono; [apply (IH a1 l1 Ha1)|]; [by rewrite H1|by rewrite H1|by rewrite H1|].
  intros ok a2 (l2 & Ha2 & H2). exists l2. split; [done|]. by rewrite H2.
Qed.

Lemma extract_permutes fuel : ∀ i a l,
  is_vec a l → Forall P l → (i < length l)%nat → (length l < fuel)%nat →
  runs (extract_loop compare fuel i) a (λ _ a', ∃ l', is_vec a' l' ∧ l' ≡ₚ l).
Proof using compare_keeps.
  induction i as [|i IH]; intros a l Ha HP Hi Hf; cbn [extract_loop]; [apply runs_ret; eauto|].
  apply runs_bind. eapply runs_mono; [apply (swap_values_ok a l); [done|lia..]|]. intros [] a1 Ha1.
  pose proof (swap_perm (Z.to_nat 0) (Z.to_nat (Z.of_nat (S i))) l ltac:(lia) ltac:(lia)) as Hsw.
  set (l1 := swap_list _ _ l) in *. assert (Hl1 : length l1 = length l) by (by rewrite Hsw).
  apply runs_bind. eapply runs_mono; [apply (sift_permutes fuel a1 l1); [done|by rewrite Hsw|lia..]|].
  intros ok a2 (l2 & Ha2 & H2%rearranged_perm). destruct ok; [|apply runs_ret; exists l2; split; [done|by rewrite H2]].
  eapply runs_mono; [apply (IH a2 l2 Ha2)|].
  - by rewrite H2, Hsw.
  - rewrite H2, Hl1. lia.
  - by rewrite H2, Hl1.
  - intros ok a3 (l3 & Ha3 & H3). exists l3. split; [done|]. by rewrite H3, H2.
Qed.

Lemma array_sort_permutes a l :
  is_vec a l → Forall P l → runs (array_sort compare) a (λ _ a', ∃ l', is_vec a' l' ∧ l' ≡ₚ l).
Proof using compare_keeps.
  intros Ha HP. apply runs_bind, runs_gets. rewrite (Size_is_vec a l Ha).
  destruct (Z.ltb_spec 1 (Z.of_nat (length l))) as [H1|H1]; [|apply runs_ret; eauto].
  apply runs_bind, runs_gets. rewrite (Size_is_vec a l Ha), Nat2Z.id. apply runs_bind.
  eapply runs_mono; [apply (build_permutes _ _ _ a l Ha HP); lia|]. intros ok a1 (l1 & Ha1 & H1').
  destruct ok; [|apply runs_ret; eauto].
  eapply runs_mono; [apply (extract_permutes _ _ a1 l1 Ha1); rewrite H1'; [done|lia..]|].
  intros ok a2 (l2 & Ha2 & H2). exists l2. split; [done|]. by rewrite H2.
Qed.
End sort.

(** ** The sort sorts *)

Section order.
Context (compare : SQObject → SQObject → stM SQArray (option Z)) (P : SQObject → Prop).
Context (cmp : SQObject → SQObject → Z).
Hypothesis compare_cmp : ∀ x y a, P x → P y → compare x y a = Ok (Some (cmp x y), a).
Hypothesis cmp_refl : ∀ x, P x → cmp x x = 0.
Hypothesis cmp_flip : ∀ x y, P x → P y → cmp x y < 0 ↔ 0 < cmp y x.
Hypothesis cmp_trans : ∀ x y z, P x → P y → P z → cmp x y ≤ 0 → cmp y z ≤ 0 → cmp x z ≤ 0.

(** The element at [i] is not behind the one at [j]. *)
Definition ord (l : list SQObject) (i j : nat) : Prop := ∀ x y, l !! i = Some x → l !! j = Some y → cmp x y ≤ 0.

Definition child (r i : nat) : Prop := (1 ≤ i)%nat ∧ (i = 2 * r ∨ i = 2 * r + 1)%nat.

(** Children below [b] of a position at [r0] or behind it are in order with
    it. *)
Definition heap (r0 b : nat) (l : list SQObject) : Prop :=
  ∀ r i, (r0 ≤ r)%nat → (i < b)%nat → child r i → ord l i r.

(** The same while the element at [r] is on its way down. *)
Definition sinking (r0 r b : nat) (l : list SQObject) : Prop :=
  (∀ q i, (r0 ≤ q)%nat → (i < b)%nat → child q i → q ≠ r → ord l i q) ∧
  (∀ q i, (r0 ≤ q)%nat → (i < b)%nat → child q r → child r i → ord l i q).

Lemma ord_trans l i j k : Forall P l → (j < length l)%nat → ord l i j → ord l j k → ord l i k.
Proof using cmp_trans.
  intros HP Hj Hij Hjk x z Hx Hz. destruct (lookup_lt_is_Some_2 l j Hj) as [y Hy].
  rewrite Forall_lookup in HP. apply (cmp_trans x y z); eauto.
Qed.

Lemma ord_refl l i : Forall P l → ord l i i.
Proof using cmp_refl.
  intros HP x y Hx Hy. simplify_eq. rewrite Forall_lookup in HP. rewrite cmp_refl by eauto. lia.
Qed.

Lemma swap_ord i j l k1 k2 :
  (i < length l)%nat → (j < length l)%nat → ord l (sw i j k1) (sw i j k2) → ord (swap_list i j l) k1 k2.
Proof using Type. intros Hi Hj Ho x y. rewrite !swap_lookup by done. apply Ho. Qed.

(** The greatest child moves up. *)
Lemma sinking_swap r0 r m b l :
  sinking r0 r b l → (b ≤ length l)%nat → (r0 ≤ r)%nat → (m < b)%nat → child r m → r ≠ m →
  (∀ i, (i < b)%nat → child r i → ord l i m) → ord l r m → sinking r0 m b (swap_list r m l).
Proof using Type.
  intros [Hin Hup] Hb Hr Hm Hc Hne Hmax Hrm. split.
  - intros q i Hq Hi Hci Hqm. unfold child in *. apply swap_ord; [lia..|]. unfold sw.
    rewrite (decide_False (P := q = m)) by done. destruct (decide (q = r)) as [->|Hqr].
    + rewrite (decide_False (P := i = r)) by lia. destruct (decide (i = m)); [done|]. by apply Hmax.
    + destruct (decide (i = r)) as [->|Hir]; [by apply (Hup q m)|]. rewrite decide_False by lia. by apply Hin.
  - intros q i Hq Hi Hqm Hmi. unfold child in *. apply swap_ord; [lia..|]. unfold sw.
    rewrite !(decide_False (P := i = _)) by lia. replace q with r by lia. rewrite decide_True by done. apply Hin; lia.
Qed.

Lemma sinking_done r0 r b l : sinking r0 r b l → (∀ i, (i < b)%nat → child r i → ord l i r) → heap r0 b l.
Proof using Type. intros [Hin _] Hd q i Hq Hi Hc. destruct (decide (q = r)) as [->|]; eauto. Qed.

Lemma heap_sinking r b l : heap (S r) b l → sinking r r b l.
Proof using Type.
  intros Hh. split; [intros q i Hq Hi Hc Hne; apply Hh; try done; lia|].
  intros q i Hq Hi Hqr Hri. unfold child in *. lia.
Qed.

Lemma heap_max b l i : Forall P l → heap 0 b l → (i < b)%nat → (b ≤ length l)%nat → ord l i 0.
Proof using cmp_refl cmp_trans.
  intros HP Hh. induction (lt_wf i) as [i _ IH]. intros Hi Hb. destruct (decide (i = 0)%nat) as [->|Hne]; [by apply ord_refl|].
  assert (Hch : child (i / 2) i).
  { pose proof (Nat.div_mod_eq i 2). pose proof (Nat.mod_upper_bound i 2). unfold child. lia. }
  assert (i / 2 < i)%nat by (unfold child in Hch; lia).
  apply (ord_trans l i (i / 2)); [done|lia|apply Hh; [lia..|done]|apply IH; lia].
Qed.

(** Comparing two elements by their positions. *)
Lemma compare_at_cmp a l i j :
  is_vec a l → Forall P l → (i < length l)%nat → (j < length l)%nat →
  ∃ x y, l !! i = Some x ∧ l !! j = Some y ∧ P x ∧ P y ∧
    compare_at compare (Z.of_nat i) (Z.of_nat j) a = Ok (Some (cmp x y), a).
Proof using compare_cmp.
  intros Ha HP Hi Hj.
  destruct (compare_at_keeps compare P (λ x y a Px Py, ex_intro _ _ (compare_cmp x y a Px Py))) with (a := a) (l := l) (i := Z.of_nat i) (j := Z.of_nat j) as (x & y & r & Hx & Hy & Hr & E); [done|done|lia..|].
  rewrite Nat2Z.id in *. assert (P x) by (by eapply Forall_lookup_1). assert (P y) by (by eapply Forall_lookup_1).
  exists x, y. rewrite compare_cmp in Hr by done. simplify_eq. done.
Qed.

(** The child that is not behind the other one. *)
Lemma choose_child a l r b :
  is_vec a l → Forall P l → (2 * r < b)%nat → (b ≤ length l)%nat →
  ∃ m, (if Z.of_nat r * 2 =? Z.of_nat b - 1 then mret (Some (Z.of_nat r * 2))
        else ret ← compare_at compare (Z.of_nat r * 2) (Z.of_nat r * 2 + 1);
             mret ((λ ret, if 0 <? ret then Z.of_nat r * 2 else Z.of_nat r * 2 + 1) <$> ret)) a = Ok (Some (Z.of_nat m), a) ∧
    (m = r ∨ child r m) ∧ (m < b)%nat ∧ (∀ i, (i < b)%nat → child r i → ord l i m).
Proof using cmp_flip cmp_refl compare_cmp.
  intros Ha HP Hr Hb. replace (Z.of_nat r * 2) with (Z.of_nat (2 * r)) by lia.
  replace (Z.of_nat (2 * r) + 1) with (Z.of_nat (2 * r + 1)) by lia. unfold child.
  destruct (Z.eqb_spec (Z.of_nat (2 * r)) (Z.of_nat b - 1)) as [He|He].
  - exists (2 * r)%nat. split; [done|]. split; [lia|]. split; [lia|]. intros i Hi Hc. replace i with (2 * r)%nat by lia. by apply ord_refl.
  - destruct (compare_at_cmp a l (2 * r) (2 * r + 1) Ha HP) as (x & y & Hx & Hy & Px & Py & E); [lia..|].
    unfold mbind, stM_bind. rewrite E. cbn [fmap option_fmap option_map]. destruct (Z.ltb_spec 0 (cmp x y)) as [Hgt|Hle].
    + exists (2 * r)%nat. split; [done|]. split; [lia|]. split; [lia|]. intros i Hi [H1 [->| ->]]; [by apply ord_refl|].
      intros y' x' Hy' Hx'. simplify_eq. apply cmp_flip in Hgt; [lia|done|done].
    + exists (2 * r + 1)%nat. split; [done|]. split; [lia|]. split; [lia|]. intros i Hi [H1 [->| ->]]; [|by apply ord_refl].
      intros x' y' Hx' Hy'. by simplify_eq.
Qed.

Lemma sift_heap fuel : ∀ a l r0 r b,
  is_vec a l → Forall P l → sinking r0 r b l → (r0 ≤ r)%nat → (b ≤ length l)%nat → (b - r < fuel)%nat →
  runs (_hsort_sift_down compare fuel (Z.of_nat r) (Z.of_nat b - 1)) a
    (λ ok a', ok = true ∧ ∃ l', is_vec a' l' ∧ rearranged b l l' ∧ heap r0 b l').
Proof using cmp_flip cmp_refl cmp_trans compare_cmp.
  induction fuel as [|fuel IH]; intros a l r0 r b Ha HP Hs Hr Hb Hf; [lia|]. cbn [_hsort_sift_down].
  destruct (Z.leb_spec (Z.of_nat r * 2) (Z.of_nat b - 1)) as [Hle|Hgt].
  2:{ apply runs_ret. split; [done|]. exists l. split_and!; [done|apply rearranged_refl|].
      apply (sinking_done _ r _ _ Hs). unfold child. lia. }
  destruct (choose_child a l r b Ha HP) as (m & Hm & Hcm & Hmb & Hmax); [lia..|].
  apply runs_bind. unfold runs at 1. rewrite Hm. clear Hm.
  destruct (compare_at_cmp a l r m Ha HP) as (x & y & Hx & Hy & Px & Py & E); [unfold child in *; lia..|].
  apply runs_bind. unfold runs at 1. rewrite E. destruct (Z.ltb_spec (cmp x y) 0) as [Hlt|Hge].
  - assert (Hne : r ≠ m) by (intros ->; simplify_eq; rewrite cmp_refl in Hlt by done; lia).
    rewrite (proj2 (Z.eqb_neq (Z.of_nat r) _)) by lia. destruct Hcm as [->|Hc]; [done|].
    assert (Hrb : (r < b)%nat) by (unfold child in *; lia).
    apply runs_bind. eapply runs_mono; [apply (swap_values_ok a l); [done|lia..]|]. intros [] a1 Ha1. rewrite !Nat2Z.id in Ha1.
    assert (Hsw : rearranged b l (swap_list r m l)) by (apply swap_rearranged; lia).
    eapply runs_mono; [apply (IH a1 _ r0 m b Ha1)|].
    + by rewrite (rearranged_perm _ _ _ Hsw).
    + apply sinking_swap; try done. intros x' y' Hx' Hy'. simplify_eq. lia.
    + unfold child in *; lia.
    + by rewrite swap_length.
    + unfold child in *; lia.
    + intros ok a2 (-> & l2 & Ha2 & H2 & Hh). split; [done|]. exists l2. split_and!; [done| |done]. by eapply rearranged_trans.
  - apply runs_ret. split; [done|]. exists l. split_and!; [done|apply rearranged_refl|]. apply (sinking_done _ r _ _ Hs).
    intros i Hi Hc. apply (ord_trans l i m); [done|lia|by apply Hmax|]. intros y' x' Hy' Hx'. assert (y' = y) as -> by congruence. assert (x' = x) as -> by congruence.
    destruct (decide (0 < cmp y x)) as [Hpos|]; [|lia]. apply cmp_flip in Hpos; [lia|done|done].
Qed.

Lemma build_heap fuel : ∀ i a l n,
  is_vec a l → Forall P l → n = length l → heap (S i) n l → (n < fuel)%nat →
  runs (build_loop compare fuel i (Z.of_nat n - 1)) a
    (λ ok a', ok = true ∧ ∃ l', is_vec a' l' ∧ l' ≡ₚ l ∧ heap 0 n l').
Proof using cmp_flip cmp_refl cmp_trans compare_cmp.
  induction i as [|i IH]; intros a l n Ha HP Hn Hh Hf; cbn [build_loop]; apply runs_bind;
    (eapply runs_mono; [apply (sift_heap fuel a l _ _ n Ha HP (heap_sinking _ _ _ Hh)); lia|]);
    intros ok a1 (-> & l1 & Ha1 & H1%rearranged_perm & Hh1).
  { apply runs_ret. eauto. }
  eapply runs_mono; [apply (IH a1 l1 n Ha1); [by rewrite H1|by rewrite H1|done|done]|].
  intros ok a2 (-> & l2 & Ha2 & H2 & Hh2). split; [done|]. exists l2. split_and!; [done|by rewrite H2|done].
Qed.

(** Every element is in order with those from [t] on. *)
Definition tail_sorted (t : nat) (l : list SQObject) : Prop := ∀ j k, (j < k)%nat → (t ≤ k)%nat → ord l j k.

(** Taking the greatest element out of the heap. *)
Lemma extract_step i l l1 l2 :
  Forall P l → (S i < length l)%nat → heap 0 (S (S i)) l → tail_sorted (S (S i)) l → l1 = swap_list 0 (S i) l →
  rearranged (S i) l1 l2 → tail_sorted (S i) l2.
Proof using cmp_refl cmp_trans.
  intros HP Hi Hh Ht -> Hr j k Hjk Hk x y Hx Hy. rewrite (rearranged_lookup _ _ _ k Hr), swap_lookup in Hy by lia.
  assert (Hj : ∃ j', l !! j' = Some x ∧ (j' < S (S i) ∨ j' < k)%nat ∧ (j' < k ∨ k = S i)%nat).
  { destruct (decide (j < S i)%nat) as [Hlt|Hge].
    - destruct (rearranged_elem _ _ _ j x Hr Hlt Hx) as (j' & Hj' & Hx'). rewrite swap_lookup in Hx' by lia.
      exists (sw 0 (S i) j'). split; [done|]. unfold sw. repeat destruct (decide _); lia.
    - rewrite (rearranged_lookup _ _ _ j Hr), swap_lookup in Hx by lia. exists (sw 0 (S i) j). split; [done|].
      unfold sw. repeat destruct (decide _); lia. }
  destruct Hj as (j' & Hx' & Hlt & Hjk'). destruct (decide (k = S i)) as [->|Hne].
  - unfold sw in Hy. rewrite decide_False, decide_True in Hy by lia.
    apply (heap_max (S (S i)) l j' HP Hh); [lia|lia|done|done].
  - unfold sw in Hy. rewrite !decide_False in Hy by lia. apply (Ht j' k); [lia|lia|done|done].
Qed.

Lemma extract_sorts fuel : ∀ i a l,
  is_vec a l → Forall P l → (i < length l)%nat → (length l < fuel)%nat → heap 0 (S i) l → tail_sorted (S i) l →
  runs (extract_loop compare fuel i) a (λ ok a', ok = true ∧ ∃ l', is_vec a' l' ∧ l' ≡ₚ l ∧ tail_sorted 1 l').
Proof using cmp_flip cmp_refl cmp_trans compare_cmp.
  induction i as [|i IH]; intros a l Ha HP Hi Hf Hh Ht; cbn [extract_loop]; [apply runs_ret; eauto|].
  apply runs_bind. eapply runs_mono; [apply (swap_values_ok a l); [done|lia..]|]. intros [] a1 Ha1.
  change (Z.to_nat 0) with 0%nat in Ha1. rewrite Nat2Z.id in Ha1.
  pose proof (swap_perm 0 (S i) l ltac:(lia) ltac:(lia)) as Hsw.
  remember (swap_list 0 (S i) l) as l1 eqn:El1. assert (Hl1 : length l1 = length l) by (by rewrite Hsw).
  assert (Hh1 : heap 1 (S i) l1).
  { intros r c Hr Hc Hch. unfold child in Hch. rewrite El1. apply swap_ord; [lia..|]. unfold sw. rewrite !decide_False by lia.
    apply Hh; [lia..|done]. }
  apply runs_bind. change 0 with (Z.of_nat 0).
  eapply runs_mono; [apply (sift_heap fuel a1 l1 0 0 (S i) Ha1); [by rewrite Hsw|by apply heap_sinking|lia..]|].
  intros ok a2 (-> & l2 & Ha2 & H2 & Hh2). pose proof (rearranged_perm _ _ _ H2) as Hp2.
  eapply runs_mono; [apply (IH a2 l2 Ha2)|].
  - by rewrite Hp2, Hsw.
  - rewrite Hp2, Hl1. lia.
  - by rewrite Hp2, Hl1.
  - done.
  - by eapply extract_step.
  - intros ok a3 (-> & l3 & Ha3 & Hp3 & Ht3). split; [done|]. exists l3. split_and!; [done|by rewrite Hp3, Hp2|done].
Qed.

Lemma array_sort_sorts a l :
  is_vec a l → Forall P l →
  runs (array_sort compare) a (λ ok a', ok = true ∧ ∃ l', is_vec a' l' ∧ l' ≡ₚ l ∧ tail_sorted 1 l').
Proof using cmp_flip cmp_refl cmp_trans compare_cmp.
  intros Ha HP. apply runs_bind, runs_gets. rewrite (Size_is_vec a l Ha).
  destruct (Z.ltb_spec 1 (Z.of_nat (length l))) as [H1|H1].
  2:{ apply runs_ret. split; [done|]. exists l. split_and!; [done..|]. intros j k Hjk Hk x y Hx Hy%lookup_lt_Some. lia. }
  apply runs_bind, runs_gets. rewrite (Size_is_vec a l Ha), Nat2Z.id. apply runs_bind.
  eapply runs_mono; [apply (build_heap _ _ a l (length l) Ha HP); [done| |lia]|].
  { intros r c Hr Hc Hch. unfold child in Hch.
    replace (Z.to_nat (Z.of_nat (length l) / 2)) with (length l / 2)%nat in Hr by (rewrite Z2Nat.inj_div, Nat2Z.id by lia; done).
    pose proof (Nat.div_mod_eq (length l) 2). pose proof (Nat.mod_upper_bound (length l) 2). lia. }
  intros ok a1 (-> & l1 & Ha1 & Hp1 & Hh1). replace (Z.to_nat (Z.of_nat (length l) - 1)) with (length l - 1)%nat by lia.
  eapply runs_mono; [apply (extract_sorts _ _ a1 l1 Ha1)|].
  - by rewrite Hp1.
  - rewrite Hp1. lia.
  - rewrite Hp1. lia.
  - by replace (S (length l - 1)) with (length l) by lia.
  - intros j k Hjk Hk x y Hx Hy%lookup_lt_Some. rewrite Hp1 in Hy. lia.
  - intros ok a2 (-> & l2 & Ha2 & Hp2 & Ht2). split; [done|]. exists l2. split_and!; [done|by rewrite Hp2|done].
Qed.
End order.

(** ** Reverse *)

(** The first [k] elements of [l] and the last [k] have changed places. *)
Definition mirrored (k : nat) (l l' : list SQObject) : Prop :=
  length l' = length l ∧
  ∀ j, (j < length l)%nat → l' !! j = l !! (if decide (j < k ∨ length l ≤ j + k)%nat then (length l - 1 - j)%nat else j).

Lemma reverse_loop_ok n : ∀ i a l l',
  is_vec a l' → mirrored i l l' → (2 * (i + n) ≤ length l)%nat →
  runs (reverse_loop i n (Z.of_nat (length l) - 1)) a (λ _ a', ∃ l'', is_vec a' l'' ∧ mirrored (i + n) l l'').
Proof.
  induction n as [|n IH]; intros i a l l' Ha Hm Hn; cbn [reverse_loop].
  { apply runs_ret. exists l'. by rewrite Nat.add_0_r. }
  destruct Hm as [Hlen Hm]. apply runs_bind. eapply runs_mono; [apply (swap_values_ok a l'); [done|lia..]|]. intros [] a1 Ha1.
  replace (Z.to_nat (Z.of_nat i)) with i in Ha1 by lia.
  replace (Z.to_nat (Z.of_nat (length l) - 1 - Z.of_nat i)) with (length l - 1 - i)%nat in Ha1 by lia.
  replace (i + S n)%nat with (S i + n)%nat by lia. eapply IH; [exact Ha1| |lia].
  split; [by rewrite swap_length|]. intros j Hj. rewrite swap_lookup by lia.
  rewrite Hm by (unfold sw; repeat destruct (decide _); lia). f_equal. unfold sw. repeat destruct (decide _); lia.
Qed.

Lemma mirrored_reverse k l l' : mirrored k l l' → (length l ≤ 2 * k + 1)%nat → (2 * k ≤ length l)%nat → l' = reverse l.
Proof.
  intros [Hlen Hm] Hk1 Hk2. apply list_eq. intros j. destruct (decide (j < length l)%nat) as [Hj|Hj].
  - rewrite Hm, reverse_lookup by done. f_equal. destruct (decide _); lia.
  - rewrite !lookup_ge_None_2; [done| |]; rewrite ?length_reverse; lia.
Qed.

Lemma array_reverse_ok a l :
  is_vec a l → runs array_reverse a (λ r a', r = Gave () ∧ is_vec a' (reverse l)).
Proof.
  intros Ha. apply runs_bind, runs_gets. rewrite (Size_is_vec a l Ha).
  destruct (Z.ltb_spec 0 (Z.of_nat (length l))) as [Hpos|Hz].
  2:{ apply runs_ret. split; [done|]. by destruct l; [|simpl in Hz; lia]. }
  rewrite Z.shiftr_div_pow2 by lia. change (2 ^ 1) with 2.
  replace (Z.to_nat (Z.of_nat (length l) / 2)) with (length l / 2)%nat by (rewrite Z2Nat.inj_div, Nat2Z.id by lia; done).
  pose proof (Nat.div_mod_eq (length l) 2). pose proof (Nat.mod_upper_bound (length l) 2).
  apply runs_bind. eapply runs_mono; [apply (reverse_loop_ok (length l / 2) 0 a l l Ha); [|lia]|].
  { split; [done|]. intros j Hj. rewrite decide_False by lia. done. }
  intros [] a' (l' & Ha' & Hm). apply runs_ret. split; [done|]. rewrite <- (mirrored_reverse _ l l' Hm); [done|lia..].
Qed.

(** ** Calls of scripts on a list *)

Section calls.
Context `{SQHeap}.

(** The elements of an array. *)
Definition elems (a : SQArray) : list SQObject := omap id (take (_size a) (_vals a)).

Lemma omap_some (l : list SQObject) : omap id (Some <$> l) = l.
Proof. induction l as [|x l IH]; [done|]. cbn. by rewrite IH. Qed.

Lemma elems_is_vec a l : is_vec a l → elems a = l.
Proof.
  intros (c & -> & _)%is_vec_slots. unfold elems, slots. simpl.
  rewrite take_app_length' by (by rewrite length_fmap). apply omap_some.
Qed.

Inductive aval := AUnit | AObject (o : SQObject) | AArray (l : list SQObject).
Inductive aop :=
  | AAppend (x : SQObject) | AExtend (other : option SQArray) | AReverse | APop | ATop
  | AInsert (idx val : SQObject) | ARemove (idx : SQObject) | AResize (nsize : SQObject) (fill : option SQObject)
  | ASlice (start stop : option SQObject).

Definition gave {A B} (f : A → B) (r : threw A) : threw B := match r with Gave x => Gave (f x) | Threw m => Threw m end.

Definition array_op (op : aop) : stM SQArray (threw aval) :=
  match op with
  | AAppend x => r ← array_append x; mret (gave (λ _, AUnit) r)
  | AExtend b => r ← array_extend b; mret (gave (λ _, AUnit) r)
  | AReverse => r ← array_reverse; mret (gave (λ _, AUnit) r)
  | APop => r ← array_pop; mret (gave AObject r)
  | ATop => r ← array_top; mret (gave AObject r)
  | AInsert i x => r ← array_insert i x; mret (gave (λ _, AUnit) r)
  | ARemove i => r ← array_remove i; mret (gave AObject r)
  | AResize n f => r ← array_resize n f; mret (gave (λ _, AUnit) r)
  | ASlice s e => r ← array_slice s e; mret (gave (λ a, AArray (elems a)) r)
  end.

(** What a slice is: the elements at the positions from [i] to [j] - 1, where
    a position that is negative counts from the end; an argument that is not a
    number is 0. *)
Definition position (arg : option SQObject) (missing len : Z) : Z :=
  let z := match arg with Some o => if sq_isnumeric o then tointeger o else 0 | None => missing end in
  if decide (z < 0) then len + z else z.
Definition list_slice (start stop : option SQObject) (l : list SQObject) : threw (list SQObject) :=
  let len := Z.of_nat (length l) in
  let i := position start 0 len in
  let j := position stop len len in
  if decide (0 ≤ i ≤ j ∧ j ≤ len) then Gave (_realval <$> omap (λ k, l !! k) (seq (Z.to_nat i) (Z.to_nat (j - i))))
  else Threw (if decide (j < i) then "wrong indexes" else "slice out of range").

(** The same on lists. *)
Definition list_op (op : aop) (l : list SQObject) : threw aval * list SQObject :=
  let len := Z.of_nat (length l) in
  match op with
  | AAppend x => (Gave AUnit, l ++ [x])
  | AExtend None => (Gave AUnit, l ++ l)
  | AExtend (Some b) => (Gave AUnit, l ++ elems b)
  | AReverse => (Gave AUnit, reverse l)
  | APop => match last l with Some x => (Gave (AObject x), removelast l) | None => (Threw "empty array", l) end
  | ATop => match last l with Some x => (Gave (AObject x), l) | None => (Threw "top() on a empty array", l) end
  | AInsert idx x =>
      let i := tointeger idx in
      if decide (0 ≤ i ≤ len) then (Gave AUnit, take (Z.to_nat i) l ++ x :: drop (Z.to_nat i) l)
      else (Threw "index out of range", l)
  | ARemove idx =>
      let i := tointeger idx in
      if negb (sq_isnumeric idx) then (Threw "wrong type", l)
      else match (if decide (0 ≤ i) then l !! Z.to_nat i else None) with
           | Some x => (Gave (AObject (_realval x)), delete (Z.to_nat i) l)
           | None => (Threw "idx out of range", l)
           end
  | AResize n f =>
      let sz := tointeger n in
      if negb (sq_isnumeric n) then (Threw "size must be a number", l)
      else if decide (sz < 0) then (Threw "resizing to negative length", l)
      else (Gave AUnit, take (Z.to_nat sz) l ++ replicate (Z.to_nat sz - length l) (default sq_null f))
  | ASlice s e => (gave AArray (list_slice s e l), l)
  end.

(** Another array is an array, and the result is within the limit. *)
Definition aop_ok (op : aop) (l : list SQObject) : Prop :=
  Z.of_nat (length (snd (list_op op l))) ≤ max_length ∧
  match op with AExtend (Some b) => ∃ lb, is_vec b lb | _ => True end.

Lemma change_ok {A} (op : SQArray → res (SQArray * A)) a a' x (Q : A → SQArray → Prop) :
  op a = Ok (a', x) → Q x a' → runs (change op) a Q.
Proof. intros E HQ. unfold runs, change. by rewrite E. Qed.
Lemma change__ok (op : SQArray → res SQArray) a a' (Q : () → SQArray → Prop) :
  op a = Ok a' → Q () a' → runs (change_ op) a Q.
Proof. intros E HQ. unfold runs, change_. by rewrite E. Qed.
Lemma look_ok {A} (op : SQArray → res A) a x (Q : A → SQArray → Prop) : op a = Ok x → Q x a → runs (look op) a Q.
Proof. intros E HQ. unfold runs, look. by rewrite E. Qed.

Lemma get_into_ok a l i t x (Q : SQObject → SQArray → Prop) :
  is_vec a l → 0 ≤ i → l !! Z.to_nat i = Some x → Q (_realval x) a → runs (get_into i t) a Q.
Proof.
  intros Ha Hi Hx HQ. apply runs_bind. eapply look_ok; [by apply Get_is_vec|].
  rewrite (proj2 (Z.leb_le 0 i)), Hx by done. by apply runs_ret.
Qed.

(** The loop of [slice] fills the new array from the left. *)
Lemma slice_loop_ok n : ∀ a l i (done_ rest : list SQObject) t arr,
  is_vec a l → is_vec arr (done_ ++ rest) → length rest = n → (i + n ≤ length l)%nat →
  runs (slice_loop n (Z.of_nat i) (Z.of_nat (length done_)) t arr) a
    (λ arr' a', a' = a ∧ is_vec arr' (done_ ++ map _realval (take n (drop i l)))).
Proof.
  induction n as [|n IH]; intros a l i done_ rest t arr Ha Harr Hn Hi; cbn [slice_loop].
  { apply runs_ret. by destruct rest. }
  destruct rest as [|r rest]; [done|]. destruct (lookup_lt_is_Some_2 l i) as [x Hx]; [lia|].
  apply runs_bind. eapply (get_into_ok a l _ _ x); [done|lia|by rewrite Nat2Z.id|]. apply runs_bind.
  destruct (Set_is_vec arr (done_ ++ r :: rest) (Z.of_nat (length done_)) (_realval x) Harr) as (arr1 & Hs & Harr1).
  eapply runs_lift; [exact Hs|]. rewrite (proj2 (Z.leb_le 0 _)) in Harr1 by lia.
  rewrite Nat2Z.id, insert_app_r_alt, Nat.sub_diag in Harr1 by lia. cbn [list_insert] in Harr1.
  replace (Z.of_nat i + 1) with (Z.of_nat (S i)) by lia.
  replace (Z.of_nat (length done_) + 1) with (Z.of_nat (length (done_ ++ [_realval x]))) by (rewrite length_app; simpl; lia).
  eapply runs_mono; [apply (IH a l (S i) (done_ ++ [_realval x]) rest); [done| | |lia]|].
  - by rewrite <- app_assoc.
  - by simpl in Hn; lia.
  - intros arr2 a2 (-> & Harr2). split; [done|]. rewrite (drop_S l x i) by done. cbn [take map]. by rewrite <- app_assoc in Harr2.
Qed.

(** The last element. *)
Lemma top_is_vec a l x : is_vec a (l ++ [x]) → Top a = Ok x.
Proof.
  intros Ha. unfold Top, top. pose proof (iv_size _ _ Ha) as Hs. rewrite length_app, Nat.add_1_r in Hs. rewrite Hs.
  apply (read_is_vec a (l ++ [x]) _ x Ha). by apply list_lookup_middle.
Qed.

Lemma size_positive a l x : is_vec a (l ++ [x]) → (0 <? Size a) = true.
Proof. intros Ha. rewrite (Size_is_vec _ _ Ha), length_app. simpl. apply Z.ltb_lt. lia. Qed.

Lemma omap_seq (l : list SQObject) n : ∀ i, (i + n ≤ length l)%nat → omap (λ k, l !! k) (seq i n) = take n (drop i l).
Proof.
  induction n as [|n IH]; intros i Hi; [done|]. destruct (lookup_lt_is_Some_2 l i) as [x Hx]; [lia|].
  cbn [seq omap list_omap]. rewrite Hx, IH, (drop_S l x i Hx) by lia. done.
Qed.

Lemma ltb_decide {A} (z : Z) (x y : A) : (if z <? 0 then x else y) = if decide (z < 0) then x else y.
Proof. destruct (Z.ltb_spec z 0); [by rewrite decide_True|by rewrite decide_False by lia]. Qed.

(** The bounds the code computes are those of the slice. *)
Lemma slice_bounds_spec s e l :
  match slice_bounds s e (Z.of_nat (length l)) with
  | Gave (i, j) => 0 ≤ i ≤ j ∧ j ≤ Z.of_nat (length l) ∧
      list_slice s e l = Gave (_realval <$> take (Z.to_nat (j - i)) (drop (Z.to_nat i) l))
  | Threw msg => list_slice s e l = Threw msg
  end.
Proof.
  set (len := Z.of_nat (length l)). unfold slice_bounds, list_slice. cbv zeta. fold len.
  match goal with |- context [if ?j <? ?i then Threw "wrong indexes" else _] =>
    replace i with (position s 0 len); [replace j with (position e len len)|] end.
  - set (i := position s 0 len). set (j := position e len len).
    destruct (Z.ltb_spec j i); [rewrite decide_False, decide_True by lia; done|].
    destruct (Z.ltb_spec len j), (Z.ltb_spec i 0); cbn [orb];
      [rewrite decide_False, decide_False by lia; done..|]. rewrite decide_True by lia. split_and!; [lia..|].
    by rewrite omap_seq by (unfold len in *; lia).
  - unfold position. by rewrite ltb_decide.
  - unfold position. destruct s as [s|]; [|done]. assert (Hn : is_null s = true → sq_isnumeric s = false).
    { unfold is_null, sq_isnumeric. destruct (_type s) eqn:E; rewrite ?E; done. }
    destruct (sq_isnumeric s), (is_null s); cbn [negb andb]; try (by specialize (Hn eq_refl)); by rewrite ltb_decide.
Qed.

Lemma array_slice_ok s e a l :
  is_vec a l → runs (array_slice s e) a (λ r a', a' = a ∧ gave (λ a, AArray (elems a)) r = gave AArray (list_slice s e l)).
Proof.
  intros Ha. apply runs_bind, runs_gets. rewrite (Size_is_vec a l Ha). pose proof (slice_bounds_spec s e l) as Hb.
  destruct (slice_bounds s e (Z.of_nat (length l))) as [msg|[i j]]; [rewrite Hb; by apply runs_ret|].
  destruct Hb as (Hi & Hj & ->). pose proof Ha as [_ _ Hr Hf]. unfold max_objects in Hf.
  assert (Hu : u32 (j - i) = j - i) by (apply u32_small; lia).
  destruct (Create_is_vec (j - i)) as (arr & Hc & Harr); [unfold max_objects; lia|].
  rewrite Hu in Harr. apply runs_bind. eapply runs_lift; [exact Hc|]. apply runs_bind.
  pose proof (slice_loop_ok (Z.to_nat (j - i)) a l (Z.to_nat i) [] _ sq_null arr Ha Harr) as Hrun.
  rewrite length_replicate in Hrun. specialize (Hrun eq_refl ltac:(lia)). replace (Z.of_nat (Z.to_nat i)) with i in Hrun by lia.
  eapply runs_mono; [exact Hrun|]. intros arr' a' (-> & Harr'). apply runs_ret. split; [done|]. cbn [gave].
  by rewrite (elems_is_vec _ _ Harr').
Qed.

Lemma array_resize_ok n f a l :
  is_vec a l → aop_ok (AResize n f) l →
  runs (array_op (AResize n f)) a (λ r a', ∃ l', is_vec a' l' ∧ (r, l') = list_op (AResize n f) l).
Proof.
  intros Ha [Hl' _]. apply runs_bind. unfold array_resize. cbn [list_op] in *.
  destruct (sq_isnumeric n); cbn [negb] in *; [|apply runs_ret, runs_ret; eauto].
  destruct (Z.ltb_spec (tointeger n) 0) as [H0|H0]; [rewrite decide_True by done; apply runs_ret, runs_ret; eauto|].
  rewrite decide_False in * by lia. cbn [snd] in Hl'. rewrite length_app, length_replicate, length_take in Hl'. unfold max_length in Hl'.
  assert (Hu : u32 (tointeger n) = tointeger n) by (apply u32_small; lia).
  apply runs_bind. destruct (Resize_is_vec a l (tointeger n) (default sq_null f) Ha) as (a' & E & Ha'); [unfold max_objects; lia|].
  rewrite Hu in Ha'. eapply change__ok; [exact E|]. apply runs_ret, runs_ret. eauto.
Qed.


(** ** Functions that call back *)

Section callbacks.
Context (call : list SQObject → stM SQArray (option SQObject)) (this : SQObject).
(** A callback that answers [f] and leaves the array alone. *)
Context (f : list SQObject → SQObject).
Hypothesis call_f : ∀ args a, call args a = Ok (Some (f args), a).

Lemma runs_call args a (Q : option SQObject → SQArray → Prop) : Q (Some (f args)) a → runs (call args) a Q.
Proof using call_f. intros HQ. unfold runs. by rewrite call_f. Qed.

Lemma map_loop_ok k : ∀ a l i (done_ rest : list SQObject) t dest,
  is_vec a l → is_vec dest (done_ ++ rest) → length done_ = i → length rest = k → (i + k)%nat = length l →
  runs (map_loop call this k (Z.of_nat i) t dest) a
    (λ r a', a' = a ∧ ∃ dest', r = Some dest' ∧ is_vec dest' (done_ ++ map (λ x, f [this; _realval x]) (drop i l))).
Proof using call_f.
  induction k as [|k IH]; intros a l i done_ rest t dest Ha Hd Hi Hk Hl; cbn [map_loop].
  { apply runs_ret. split; [done|]. exists dest. rewrite drop_ge by lia. by destruct rest. }
  destruct rest as [|r rest]; [done|]. destruct (lookup_lt_is_Some_2 l i) as [x Hx]; [lia|].
  apply runs_bind. eapply (get_into_ok a l _ _ x); [done|lia|by rewrite Nat2Z.id|]. apply runs_bind, runs_call, runs_bind.
  set (y := f [this; _realval x]). destruct (Set_is_vec dest (done_ ++ r :: rest) (Z.of_nat i) y Hd) as (d1 & Hs & Hd1).
  eapply runs_lift; [exact Hs|]. rewrite (proj2 (Z.leb_le 0 _)) in Hd1 by lia.
  rewrite Nat2Z.id, insert_app_r_alt, Hi, Nat.sub_diag in Hd1 by lia. cbn [list_insert] in Hd1.
  replace (Z.of_nat i + 1) with (Z.of_nat (S i)) by lia.
  eapply runs_mono; [apply (IH a l (S i) (done_ ++ [y]) rest); [done|by rewrite <- app_assoc|rewrite length_app; simpl; lia| |lia]|].
  { by simpl in Hk; lia. }
  intros r2 a2 (-> & d2 & -> & Hd2). split; [done|]. exists d2. split; [done|]. rewrite (drop_S l x i) by done. cbn [map].
  by rewrite <- app_assoc in Hd2.
Qed.

Lemma apply_loop_ok k : ∀ a (done_ rest : list SQObject) t,
  is_vec a (done_ ++ rest) → length rest = k →
  runs (apply_loop call this k (Z.of_nat (length done_)) t) a
    (λ r a', r = Some () ∧ is_vec a' (done_ ++ map (λ x, f [this; _realval x]) rest)).
Proof using call_f.
  induction k as [|k IH]; intros a done_ rest t Ha Hk; cbn [apply_loop].
  { apply runs_ret. by destruct rest. }
  destruct rest as [|x rest]; [done|]. apply runs_bind.
  eapply (get_into_ok a (done_ ++ x :: rest) _ _ x); [done|lia|rewrite Nat2Z.id; by apply list_lookup_middle|]. apply runs_bind, runs_call, runs_bind.
  set (y := f [this; _realval x]). destruct (Set_is_vec a (done_ ++ x :: rest) (Z.of_nat (length done_)) y Ha) as (a1 & Hs & Ha1).
  eapply change_ok; [exact Hs|]. rewrite (proj2 (Z.leb_le 0 _)) in Ha1 by lia.
  rewrite Nat2Z.id, insert_app_r_alt, Nat.sub_diag in Ha1 by lia. cbn [list_insert] in Ha1.
  replace (Z.of_nat (length done_) + 1) with (Z.of_nat (length (done_ ++ [y]))) by (rewrite length_app; simpl; lia).
  eapply runs_mono; [apply (IH a1 (done_ ++ [y]) rest); [by rewrite <- app_assoc|simpl in Hk; lia]|].
  intros r a2 (-> & Ha2). split; [done|]. cbn [map]. by rewrite <- app_assoc in Ha2.
Qed.

Lemma reduce_loop_ok k : ∀ a l i acc t,
  is_vec a l → (i + k)%nat = length l →
  runs (reduce_loop call this k (Z.of_nat i) acc t) a
    (λ r a', a' = a ∧ r = Some (foldl (λ acc x, f [this; acc; _realval x]) acc (drop i l))).
Proof using call_f.
  induction k as [|k IH]; intros a l i acc t Ha Hl; cbn [reduce_loop].
  { apply runs_ret. by rewrite drop_ge by lia. }
  destruct (lookup_lt_is_Some_2 l i) as [x Hx]; [lia|]. apply runs_bind.
  eapply (get_into_ok a l _ _ x); [done|lia|by rewrite Nat2Z.id|]. apply runs_bind, runs_call.
  rewrite (drop_S l x i) by done. cbn [foldl]. replace (Z.of_nat i + 1) with (Z.of_nat (S i)) by lia. apply IH; [done|lia].
Qed.

(** The elements for which the callback does not answer false, with their
    positions. *)
Fixpoint keep_from (i : nat) (l : list SQObject) : list SQObject :=
  match l with
  | [] => []
  | x :: l' => (if IsFalse (f [this; sq_int (Z.of_nat i); _realval x]) then [] else [_realval x]) ++ keep_from (S i) l'
  end.

Lemma filter_loop_ok k : ∀ a l i ret lr t,
  is_vec a l → is_vec ret lr → (i + k)%nat = length l → Z.of_nat (length (lr ++ keep_from i (drop i l))) ≤ max_length →
  runs (filter_loop call this k (Z.of_nat i) t ret) a
    (λ r a', a' = a ∧ ∃ ret', r = Some ret' ∧ is_vec ret' (lr ++ keep_from i (drop i l))).
Proof using call_f.
  induction k as [|k IH]; intros a l i ret lr t Ha Hr Hl Hm; cbn [filter_loop].
  { apply runs_ret. split; [done|]. exists ret. rewrite drop_ge by lia. cbn. by rewrite app_nil_r. }
  destruct (lookup_lt_is_Some_2 l i) as [x Hx]; [lia|]. apply runs_bind.
  eapply (get_into_ok a l _ _ x); [done|lia|by rewrite Nat2Z.id|]. apply runs_bind, runs_call. apply runs_bind.
  rewrite (drop_S l x i) in * by done. cbn [keep_from] in *. replace (Z.of_nat i + 1) with (Z.of_nat (S i)) by lia.
  destruct (IsFalse _); cbn [negb].
  - apply runs_ret. by apply IH; [..|lia|].
  - rewrite app_assoc in *. rewrite !length_app in Hm. simpl in Hm.
    destruct (push_back_is_vec ret lr (_realval x) Hr) as (ret1 & E & Hr1); [lia|]. eapply runs_lift; [exact E|].
    apply IH; [done|done|lia|]. rewrite !length_app. simpl. lia.
Qed.
End callbacks.

(** C27: With a callback that leaves the array alone, [map], [apply], [reduce]
    and [filter] are the functions on lists: [map] gives a new array and keeps
    the old one, [apply] replaces every element, [reduce] folds from the left,
    [filter] keeps the elements the callback does not reject, if there are at
    most 2^28 of them. *)
Theorem callbacks_match_lists call this (f : list SQObject → SQObject) a l :
  (∀ args a, call args a = Ok (Some (f args), a)) → is_vec a l →
  runs (array_map call this) a (λ r a', a' = a ∧ ∃ d, r = Some d ∧ is_vec d (map (λ x, f [this; _realval x]) l)) ∧
  runs (array_apply call this) a (λ r a', r = Some () ∧ is_vec a' (map (λ x, f [this; _realval x]) l)) ∧
  runs (array_reduce call this) a (λ r a', a' = a ∧
    r = Some (match l with [] => None | x :: l' => Some (foldl (λ acc y, f [this; acc; _realval y]) (_realval x) l') end)) ∧
  (Z.of_nat (length (keep_from this f 0 l)) ≤ max_length →
   runs (array_filter call this) a (λ r a', a' = a ∧ ∃ d, r = Some d ∧ is_vec d (keep_from this f 0 l))).
Proof.
  intros Hf Ha. pose proof Ha as [_ _ Hr Hfit]. unfold max_objects in Hfit.
  split_and!; [..|intros Hk]; apply runs_bind, runs_gets; rewrite (Size_is_vec a l Ha), ?Nat2Z.id.
  - assert (Hu : u32 (Z.of_nat (length l)) = Z.of_nat (length l)) by (apply u32_small; lia).
    destruct (Create_is_vec (Z.of_nat (length l))) as (d & E & Hd); [unfold max_objects; lia|]. rewrite Hu, Nat2Z.id in Hd.
    apply runs_bind. eapply runs_lift; [exact E|].
    apply (map_loop_ok call this f Hf (length l) a l 0 [] (replicate (length l) sq_null)); [done|done|done|apply length_replicate|done].
  - by apply (apply_loop_ok call this f Hf (length l) a [] l).
  - destruct l as [|x l]; [by apply runs_ret|]. rewrite (proj2 (Z.eqb_neq _ 0)) by (simpl; lia).
    apply runs_bind. eapply (get_into_ok a (x :: l) _ _ x); [done|lia|done|]. apply runs_bind.
    replace (Z.to_nat (Z.of_nat (length (x :: l)) - 1)) with (length l) by (simpl; lia).
    eapply runs_mono; [apply (reduce_loop_ok call this f Hf (length l) a (x :: l) 1); [done|simpl; lia]|].
    intros r a' (-> & ->). by apply runs_ret.
  - destruct (Create_is_vec 0 eq_refl) as (d & E & Hd). apply runs_bind. eapply runs_lift; [exact E|].
    by apply (filter_loop_ok call this f Hf (length l) a l 0 d []).
Qed.

Lemma find_loop_ok eq_float val k : ∀ a l i t,
  is_vec a l → (i + k)%nat = length l →
  runs (find_loop eq_float k (Z.of_nat i) t val) a (λ r a', a' = a ∧
    r = (λ p, Z.of_nat (i + p.1)) <$> list_find (λ x, IsEqual eq_float (_realval x) val = true) (drop i l)).
Proof.
  induction k as [|k IH]; intros a l i t Ha Hl; cbn [find_loop]; [apply runs_ret; by rewrite drop_ge by lia|].
  destruct (lookup_lt_is_Some_2 l i) as [x Hx]; [lia|]. apply runs_bind.
  eapply (get_into_ok a l _ _ x); [done|lia|by rewrite Nat2Z.id|]. rewrite (drop_S l x i) by done. cbn [list_find].
  destruct (IsEqual eq_float (_realval x) val) eqn:He.
  - rewrite decide_True by done. apply runs_ret. cbn. by rewrite Nat.add_0_r.
  - rewrite decide_False by done. replace (Z.of_nat i + 1) with (Z.of_nat (S i)) by lia.
    eapply runs_mono; [apply (IH a l (S i)); [done|lia]|]. intros r a' (-> & ->). split; [done|].
    destruct (list_find _ (drop (S i) l)) as [[p y]|]; [|done]. cbn. f_equal. lia.
Qed.

(** [find] gives the first position of an equal element. *)
Lemma array_find_first eq_float val a l :
  is_vec a l → runs (array_find eq_float val) a (λ r a', a' = a ∧
    r = (λ p, Z.of_nat p.1) <$> list_find (λ x, IsEqual eq_float (_realval x) val = true) l).
Proof.
  intros Ha. apply runs_bind, runs_gets. rewrite (Size_is_vec a l Ha), Nat2Z.id.
  by apply (find_loop_ok eq_float val (length l) a l 0).
Qed.
End calls.

(** ** Sorting *)

(** [cmp] orders the elements that satisfy [P]. *)
Definition orders (P : SQObject → Prop) (cmp : SQObject → SQObject → Z) : Prop :=
  (∀ x, P x → cmp x x = 0) ∧ (∀ x y, P x → P y → cmp x y < 0 ↔ 0 < cmp y x) ∧
  (∀ x y z, P x → P y → P z → cmp x y ≤ 0 → cmp y z ≤ 0 → cmp x z ≤ 0).

(** C11: [sort] with a comparison that leaves the array alone always ends within
    the array, and the array is then a permutation of what it was, also when
    the comparison reports an error or contradicts itself; if it orders the
    elements, [sort] succeeds and every element is in order with all behind
    it. *)
Theorem sort_sorts compare (P : SQObject → Prop) a l :
  (∀ x y a, P x → P y → ∃ r, compare x y a = Ok (r, a)) → is_vec a l → Forall P l →
  ∃ ok a' l', array_sort compare a = Ok (ok, a') ∧ is_vec a' l' ∧ l' ≡ₚ l ∧
    (∀ cmp, orders P cmp → (∀ x y a, P x → P y → compare x y a = Ok (Some (cmp x y), a)) →
       ok = true ∧ ∀ i j x y, (i < j)%nat → l' !! i = Some x → l' !! j = Some y → cmp x y ≤ 0).
Proof.
  intros Hkeep Ha HP. pose proof (array_sort_permutes compare P Hkeep a l Ha HP) as Hp. apply runs_ok in Hp as (ok & a' & E & l' & Ha' & Hp).
  exists ok, a', l'. split_and!; [done..|]. intros cmp (H1 & H2 & H3) Hcmp.
  pose proof (array_sort_sorts compare P cmp Hcmp H1 H2 H3 a l Ha HP) as Hs. unfold runs in Hs. rewrite E in Hs.
  destruct Hs as (-> & l2 & Ha2 & _ & Ht). split; [done|]. intros i j x y Hij.
  rewrite <- (elems_is_vec a' l' Ha'), (elems_is_vec a' l2 Ha2). apply Ht; lia.
Qed.

(** Integers. *)
Definition is_int (o : SQObject) : Prop := _type o = OT_INTEGER ∧ 0 ≤ _unVal o < 2 ^ 32.
Definition int_cmp (x y : SQObject) : Z :=
  if _unVal x =? _unVal y then 0 else if _integer x <? _integer y then -1 else 1.

Lemma s32_inj x y : 0 ≤ x < 2 ^ 32 → 0 ≤ y < 2 ^ 32 → s32 x = s32 y → x = y.
Proof. intros Hx Hy E. rewrite <- (u32_small x Hx), <- (u32_small y Hy), <- (u32_s32 x), <- (u32_s32 y). by rewrite E. Qed.

Lemma int_cmp_le x y : is_int x → is_int y → int_cmp x y ≤ 0 ↔ _integer x ≤ _integer y.
Proof.
  intros [_ Hx] [_ Hy]. unfold int_cmp, _integer. destruct (Z.eqb_spec (_unVal x) (_unVal y)) as [->|Hne]; [lia|].
  destruct (Z.ltb_spec (s32 (_unVal x)) (s32 (_unVal y))); [lia|]. split; [lia|]. intros Hle. destruct Hne.
  apply s32_inj; [done..|lia].
Qed.

Lemma int_cmp_orders : orders is_int int_cmp.
Proof.
  split_and!.
  - intros x _. unfold int_cmp. by rewrite Z.eqb_refl.
  - intros x y Hx Hy. pose proof (int_cmp_le x y Hx Hy). pose proof (int_cmp_le y x Hy Hx). unfold int_cmp in *.
    destruct (Z.eqb_spec (_unVal x) (_unVal y)), (Z.eqb_spec (_unVal y) (_unVal x)); try congruence; [lia|].
    destruct (Z.ltb_spec (_integer x) (_integer y)), (Z.ltb_spec (_integer y) (_integer x)); lia.
  - intros x y z Hx Hy Hz. rewrite !int_cmp_le by done. lia.
Qed.

Section without_heap.
(** No strings and no weak references. *)
#[local] Instance no_heap : SQHeap :=
  {| string_hash := λ _, 0; string_val := λ _, []; weak_obj := λ _, sq_null; ub_float_cast := λ _, 0 |}.

(** The comparison of [sort] without a function; floats and metamethods do not
    occur. *)
Definition plain_cmp : SQObject → SQObject → stM SQArray (option Z) := ObjCmp (λ _ _, false) (λ _ _, false) (λ _ _, None).

Lemma plain_cmp_int x y a : is_int x → is_int y → plain_cmp x y a = Ok (Some (int_cmp x y), a).
Proof.
  intros [Tx _] [Ty _]. unfold plain_cmp, ObjCmp, int_cmp. rewrite Tx, Ty. destruct (decide _); [|done].
  by destruct (_unVal x =? _unVal y).
Qed.

Definition three_numbers : SQArray := mkVec (Some <$> [sq_int 7; sq_int (-2); sq_int 5]) 3 3.

Lemma three_numbers_vec : is_vec three_numbers [sq_int 7; sq_int (-2); sq_int 5].
Proof. split; [done|done|simpl; lia|done]. Qed.
End without_heap.

Lemma sort_sorts_witness :
  (elems <$> (snd <$> array_sort plain_cmp three_numbers)) = Ok [sq_int (-2); sq_int 5; sq_int 7] ∧
  ∃ ok a' l', array_sort plain_cmp three_numbers = Ok (ok, a') ∧ is_vec a' l' ∧ l' ≡ₚ [sq_int 7; sq_int (-2); sq_int 5] ∧
    (∀ cmp, orders is_int cmp → (∀ x y a, is_int x → is_int y → plain_cmp x y a = Ok (Some (cmp x y), a)) →
       ok = true ∧ ∀ i j x y, (i < j)%nat → l' !! i = Some x → l' !! j = Some y → cmp x y ≤ 0).
Proof.
  split; [by vm_compute|].
  apply (sort_sorts plain_cmp is_int three_numbers [sq_int 7; sq_int (-2); sq_int 5]).
  - intros x y a Hx Hy. exists (Some (int_cmp x y)). by apply plain_cmp_int.
  - apply three_numbers_vec.
  - by repeat constructor.
Defined.

(** What [sort] does when the comparison changes the array is undefined: it
    holds on to the size the array had, and reaches elements without a check.
    A function that removes the last element when it is called has it read
    an element that was destroyed. A comparison by which every element is
    in front of itself is found out. *)
Lemma sort_shrinking_faults :
  array_sort (λ _ _, change_ Pop;; mret (Some (-1))) three_numbers = Err UseAfterFree ∧
  (fst <$> array_sort (λ _ _, mret (Some (-1))) three_numbers) = Ok false.
Proof. by vm_compute. Qed.


(** A callback that gives its last argument back. *)
Definition echo : list SQObject → SQObject := λ args, default sq_null (last args).

Lemma callbacks_match_lists_witness :
  let call := λ args, mret (Some (echo args)) in
  runs (@array_map no_heap call sq_null) three_numbers (λ r a', a' = three_numbers ∧ ∃ d, r = Some d ∧
    is_vec d (map (λ x, echo [sq_null; @_realval no_heap x]) [sq_int 7; sq_int (-2); sq_int 5])).
Proof.
  intros call.
  destruct (@callbacks_match_lists no_heap call sq_null echo three_numbers _ (λ _ _, eq_refl) three_numbers_vec) as [Hmap _].
  exact Hmap.
Defined.
