(* ===== verification/SqString.v ===== *)
(** * The string table (sqstate.h, sqstate.cpp, [SQStringTable])

    Squirrel interns its strings: [SQStringTable::Add] gives the one [SQString]
    with given characters, so that the rest of the system compares strings by
    address.  The state is the heap of [SQString] nodes and the bucket array;
    chains run through the [_next] fields of the nodes. *)

From Stdlib Require Import Ascii.
From stdpp Require Import base numbers gmap strings option list.
From S2P Require Import Prelude Chains SqObject.

(** ** State *)

Record SQString := mkString {
  str_val : list ascii;
  str_len : Z;
  str_hash : Z;
  str_next : option Z
}.

Definition set_str_next (q : option Z) (s : SQString) : SQString :=
  mkString (str_val s) (str_len s) (str_hash s) q.

Record SQStringTable := mkStringTable {
  str_heap : gmap Z SQString;
  _strings : list (option Z);
  _numofslots : Z;
  _slotused : Z
}.

(** The [_next] field of the node at an address. *)
Definition str_nx (h : gmap Z SQString) (a : Z) : option (option Z) := str_next <$> h !! a.

(** ** Operations *)

(** [SQStringTable::AllocNodes] *)
Definition AllocNodes (t : SQStringTable) (size : Z) : SQStringTable :=
  mkStringTable (str_heap t) (replicate (Z.to_nat size) None) size (_slotused t).

(** [SQStringTable::SQStringTable] *)
Definition empty_table : SQStringTable := AllocNodes (mkStringTable ∅ [] 0 0) 4.

(** The inner loop of [SQStringTable::Resize]: move the nodes of one old chain
    to the new buckets, reading [_next] before it is overwritten. *)
Fixpoint move_chain (fuel : nat) (numofslots : Z) (st : gmap Z SQString * list (option Z))
    (p : option Z) : res (gmap Z SQString * list (option Z)) :=
  match p with
  | None => Ok st
  | Some a =>
      match fuel with
      | O => Err OutOfFuel
      | S f =>
          let '(heap, strings) := st in
          s ← expect UseAfterFree (heap !! a);
          let next := str_next s in
          let h := bucket_of numofslots (str_hash s) in
          q ← expect OutOfBounds (strings !! h);
          move_chain f numofslots (<[a := set_str_next q s]> heap, <[h := Some a]> strings) next
      end
  end.

(** [SQStringTable::Resize] *)
Definition Resize (t : SQStringTable) (newsize : Z) : res SQStringTable :=
  let oldtable := _strings t in
  let t' := AllocNodes t newsize in
  st ← fold_res (move_chain (size (str_heap t)) newsize) oldtable (str_heap t', _strings t');
  Ok (mkStringTable st.1 st.2 newsize (_slotused t')).

(** The test of the chain walk in [SQStringTable::Add]: equal lengths and
    [memcmp] over that many characters. *)
Definition same_chars (h : gmap Z SQString) (news : list ascii) (len : Z) (a : Z) : bool :=
  match h !! a with
  | Some s => (str_len s =? len)%Z
              && bool_decide (take (Z.to_nat len) news = take (Z.to_nat len) (str_val s))
  | None => false
  end.

(** [SQStringTable::Add].  [news] is the buffer the characters are read from,
    [len] how many, or negative for [strlen]; reading past the buffer is
    [OutOfBounds]. *)
Definition Add `{Allocator} (t : SQStringTable) (news : list ascii) (len : Z)
    : res (SQStringTable * Z) :=
  let len := if (len <? 0)%Z then Z.of_nat (length (c_str news)) else len in
  if (Z.of_nat (length news) <? len)%Z then Err OutOfBounds
  else
    let newhash := _hashstr news len in
    let h := bucket_of (_numofslots t) newhash in
    p ← expect OutOfBounds (_strings t !! h);
    r ← walk (str_nx (str_heap t)) (same_chars (str_heap t) news len) (size (str_heap t)) None p;
    match r with
    | Some (s, _) => Ok (t, s)
    | None =>
        let a := malloc (dom (str_heap t)) in
        let s := mkString (take (Z.to_nat len) news) len newhash p in
        let t' := mkStringTable (<[a := s]> (str_heap t)) (<[h := Some a]> (_strings t))
                    (_numofslots t) (_slotused t + 1) in
        if (_numofslots t' <? _slotused t')%Z
        then t'' ← Resize t' (_numofslots t' * 2); Ok (t'', a)
        else Ok (t', a)
    end.

(** [SQStringTable::Remove] *)
Definition Remove (t : SQStringTable) (bs : Z) : res SQStringTable :=
  s ← expect UseAfterFree (str_heap t !! bs);
  let h := bucket_of (_numofslots t) (str_hash s) in
  p ← expect OutOfBounds (_strings t !! h);
  r ← walk (str_nx (str_heap t)) (λ a, bool_decide (a = bs)) (size (str_heap t)) None p;
  match r with
  | Some (s', prev) =>
      let '(heap, strings) :=
        match prev with
        | Some b => (alter (set_str_next (str_next s)) b (str_heap t), _strings t)
        | None => (str_heap t, <[h := str_next s]> (_strings t))
        end in
      Ok (mkStringTable (delete s' heap) strings (_numofslots t) (_slotused t - 1))
  | None => Err AssertFail
  end.

(** [SQString::Next] (sqobject.cpp): iterate over the characters. *)
Definition Next (s : SQString) (refpos : SQObject) : res (option (Z * SQObject * SQObject)) :=
  u ← TranslateIndex refpos;
  let idx := s32 u in
  if (idx <? str_len s)%Z then
    if (idx <? 0)%Z then Err OutOfBounds
    else
      c ← expect OutOfBounds (str_val s !! Z.to_nat idx);
      Ok (Some (idx + 1, sq_int idx, sq_int (char_code c))%Z)
  else Ok None.

(** ** Invariant *)

(** The bucket a node of the heap belongs to. *)
Definition home (n : Z) (h : gmap Z SQString) (a : Z) : nat :=
  match h !! a with Some s => bucket_of n (str_hash s) | None => 0 end.

Definition live (h : gmap Z SQString) (a : Z) : Prop := is_Some (h !! a).

(** A node holds as many characters as it says, and their hash. *)
Definition string_ok (s : SQString) : Prop :=
  str_len s = Z.of_nat (length (str_val s)) ∧ str_hash s = _hashstr (str_val s) (str_len s).

(** The table interns exactly the strings of [m], an address for each. *)
Record interns (t : SQStringTable) (m : gmap Z (list ascii)) : Prop := {
  in_pow : ∃ e, (0 ≤ e)%Z ∧ _numofslots t = (2 ^ e)%Z;
  in_len : Z.of_nat (length (_strings t)) = _numofslots t;
  in_vals : str_val <$> str_heap t = m;
  in_nodes : map_Forall (λ _, string_ok) (str_heap t);
  in_inj : ∀ a b x, m !! a = Some x → m !! b = Some x → a = b;
  in_chained : chained (str_nx (str_heap t)) (live (str_heap t))
                 (home (_numofslots t) (str_heap t)) (_strings t);
  in_used : _slotused t = Z.of_nat (size (str_heap t))
}.

(** ** Lemmas *)

(** A chain of live nodes is no longer than the heap. *)
Lemma chain_fuel (h : gmap Z SQString) (l : list Z) :
  NoDup l → (∀ b, b ∈ l → live h b) → length l ≤ size h.
Proof.
  intros Hnd Hl. rewrite <- (size_dom h), <- (size_list_to_set (C := gset Z) l Hnd).
  apply subseteq_size. intros b Hb. apply elem_of_list_to_set, Hl in Hb.
  by apply elem_of_dom.
Qed.

Lemma _hashstr_take s len :
  (0 ≤ len ≤ Z.of_nat (length s))%Z → _hashstr (take (Z.to_nat len) s) len = _hashstr s len.
Proof.
  intros Hl. unfold _hashstr. rewrite <- (take_drop (Z.to_nat len) s) at 2.
  rewrite hashstr_loop_stops; [done| |rewrite length_take; lia].
  pose proof (Z.shiftr_nonneg len 5) as [_ Hs].
  specialize (Hs ltac:(lia)).
  assert (0 ≤ Z.lor (Z.shiftr len 5) 1)%Z by (apply Z.lor_nonneg; lia).
  assert (Z.lor (Z.shiftr len 5) 1 ≠ 0)%Z by (rewrite Z.lor_eq_0_iff; lia). lia.
Qed.

(** *** Resizing *)

(** Two heaps with the same strings, up to their [_next] fields. *)
Definition same_strings (h h' : gmap Z SQString) : Prop :=
  ∀ a, set_str_next None <$> h' !! a = set_str_next None <$> h !! a.

Lemma same_strings_live h h' a : same_strings h h' → (live h' a ↔ live h a).
Proof.
  intros Hs. specialize (Hs a). unfold live.
  destruct (h' !! a), (h !! a); simplify_eq/=; split; eauto.
Qed.

Lemma same_strings_home n h h' a : same_strings h h' → home n h' a = home n h a.
Proof.
  intros Hs. specialize (Hs a). unfold home.
  destruct (h' !! a) as [[]|], (h !! a) as [[]|]; simplify_eq/=; done.
Qed.

Lemma same_strings_relink h h' a s q :
  same_strings h h' → h' !! a = Some s → same_strings h (<[a := set_str_next q s]> h').
Proof.
  intros Hs Ha b. destruct (decide (a = b)) as [<-|Hne].
  - rewrite lookup_insert_eq, <- Hs, Ha. done.
  - by rewrite lookup_insert_ne by done.
Qed.

Lemma str_nx_insert_ne h a s b : b ≠ a → str_nx (<[a := s]> h) b = str_nx h b.
Proof. intros. unfold str_nx. by rewrite lookup_insert_ne by done. Qed.

Lemma str_nx_insert h a s : str_nx (<[a := s]> h) a = Some (str_next s).
Proof. unfold str_nx. by rewrite lookup_insert_eq. Qed.

Section resize.
Context (h0 : gmap Z SQString) (n e : Z).
Hypothesis (He : (0 ≤ e)%Z) (Hn : n = (2 ^ e)%Z).

(** During the move: the nodes in [D] hang off the new buckets, the others are
    as they were. *)
Record moved (D : Z → Prop) (st : gmap Z SQString * list (option Z)) : Prop := {
  mv_same : same_strings h0 st.1;
  mv_rest : ∀ a, ¬ D a → st.1 !! a = h0 !! a;
  mv_live : ∀ a, D a → live h0 a;
  mv_len : Z.of_nat (length st.2) = n;
  mv_chained : chained (str_nx st.1) D (home n h0) st.2
}.

Lemma moved_iff D D' st : (∀ a, D' a ↔ D a) → moved D st → moved D' st.
Proof.
  intros HD [H1 H2 H3 H4 H5]. split; try done.
  - intros a Ha. apply H2. by rewrite <- HD.
  - intros a Ha. by apply H3, HD.
  - eapply chained_iff; [done| |done]. done.
Qed.

Lemma move_chain_ok fuel l D st p :
  moved D st → is_chain (str_nx h0) p l → NoDup l →
  (∀ a, a ∈ l → live h0 a ∧ ¬ D a) → length l ≤ fuel →
  ∃ st', move_chain fuel n st p = Ok st' ∧ moved (λ a, a ∈ l ∨ D a) st'.
Proof.
  revert fuel D st p. induction l as [|a l IH]; intros fuel D st p Hm Hc Hnd Hl Hf.
  - simpl in Hc. subst p. exists st. split; [by destruct fuel|].
    eapply moved_iff; [|done]. intros a. rewrite elem_of_nil. tauto.
  - destruct Hc as (-> & q & Hq & Hc). destruct fuel as [|f]; simpl in Hf; [lia|].
    destruct st as [h bk]. destruct (Hl a ltac:(left)) as [[s Hs] HDa].
    assert (Hha : h !! a = Some s) by (rewrite <- Hs; by apply (mv_rest _ _ Hm)).
    unfold str_nx in Hq. rewrite Hs in Hq. injection Hq as Hq.
    destruct (bucket_lookup bk n e (str_hash s) He Hn (mv_len _ _ Hm)) as [r Hr].
    simpl. rewrite Hha. simpl. rewrite Hr. simpl. rewrite Hq.
    apply NoDup_cons in Hnd as [Ha Hnd].
    assert (Hhome : home n h0 a = bucket_of n (str_hash s)) by (unfold home; by rewrite Hs).
    destruct (IH f (λ b, b = a ∨ D b) (<[a:=set_str_next r s]> h, <[bucket_of n (str_hash s):=Some a]> bk) q)
      as (st' & Hrun & Hm'); [|done|done| |lia|].
    + split; simpl.
      * apply same_strings_relink; [apply (mv_same _ _ Hm)|done].
      * intros b Hb. rewrite lookup_insert_ne by naive_solver. apply (mv_rest _ _ Hm). naive_solver.
      * intros b [->|Hb]; [by exists s|by apply (mv_live _ _ Hm)].
      * rewrite length_insert. apply (mv_len _ _ Hm).
      * rewrite <- Hhome. eapply chained_push with (p := r);
          [apply (mv_chained _ _ Hm)|done|by rewrite Hhome|by rewrite str_nx_insert| |done].
        intros b Hb. split; [|done]. apply str_nx_insert_ne. naive_solver.
    + intros b Hb. split; [apply Hl; by right|]. intros [->|Hd]; [done|].
      destruct (Hl b ltac:(by right)) as [_ []]. done.
    + exists st'. split; [done|]. eapply moved_iff; [|done].
      intros b. rewrite elem_of_cons. tauto.
Qed.

End resize.

(** Moving every node leaves the table with the same strings. *)
Lemma moved_interns t m n e st :
  interns t m → (0 ≤ e)%Z → n = (2 ^ e)%Z →
  moved (str_heap t) n (live (str_heap t)) st →
  interns (mkStringTable st.1 st.2 n (_slotused t)) m.
Proof.
  intros Hin He Hn [Hs _ _ Hl Hc]. split; simpl; try done; eauto.
  - rewrite <- (in_vals _ _ Hin). apply map_eq. intros a. rewrite !lookup_fmap. specialize (Hs a).
    destruct (st.1 !! a) as [[]|], (str_heap t !! a) as [[]|]; simplify_eq/=; done.
  - intros a s Ha. specialize (Hs a). rewrite Ha in Hs.
    destruct (str_heap t !! a) as [s0|] eqn:Hs0; [|done].
    pose proof (in_nodes _ _ Hin a s0 Hs0) as Hok. unfold string_ok in *.
    destruct s, s0; simplify_eq/=. done.
  - apply (in_inj _ _ Hin).
  - eapply chained_iff; [| |exact Hc].
    + intros a. by apply same_strings_live.
    + intros a _. split; [by apply same_strings_home|done].
  - rewrite (in_used _ _ Hin). f_equal. rewrite <- !(size_dom (D := gset Z)). f_equal. apply set_eq.
    intros a. rewrite !elem_of_dom. symmetry. by apply same_strings_live.
Qed.

Lemma Resize_ok t m e :
  interns t m → (0 ≤ e)%Z → ∃ t', Resize t (2 ^ e) = Ok t' ∧ interns t' m.
Proof.
  intros Hin He. unfold Resize.
  destruct (in_pow _ _ Hin) as (e0 & He0 & Hn0). pose proof (in_len _ _ Hin) as Hlen.
  set (h0 := str_heap t) in *. set (old := home (_numofslots t) h0).
  destruct (fold_res_inv (move_chain (size h0) (2 ^ e))
      (λ done st, moved h0 (2 ^ e) (λ a, live h0 a ∧ old a < length done) st)
      (_strings t) (h0, replicate (Z.to_nat (2 ^ e)) None)) as (st & Hrun & Hm).
  - split; simpl; try done.
    + intros a [? ?]; lia.
    + rewrite length_replicate. lia.
    + apply chained_empty. intros a [? ?]; lia.
  - intros dn p todo st Hl Hm.
    destruct (in_chained _ _ Hin (length dn) p) as (l & Hc & Hnd & Hmem).
    { rewrite Hl. by apply list_lookup_middle. }
    fold h0 in Hc, Hmem.
    destruct (move_chain_ok h0 (2 ^ e) e He eq_refl (size h0) l _ st p Hm Hc Hnd) as (st' & Hr & Hm').
    { intros a Ha. apply Hmem in Ha as [? Ha]. split; [done|]. subst old. intros [_ ?]. lia. }
    { apply chain_fuel; [done|]. intros a Ha. by apply Hmem in Ha as [? _]. }
    exists st'. split; [done|]. eapply moved_iff; [|done].
    intros a. cbv beta. rewrite Hmem, length_app. subst old. simpl. split; intros Ha.
    + destruct Ha as [Ha Hb]. destruct (decide (home (_numofslots t) h0 a < length dn)); [by right|].
      left. split; [done|]. lia.
    + destruct Ha as [[? <-]|[? ?]]; split; done || lia.
  - exists (mkStringTable st.1 st.2 (2 ^ e) (_slotused t)). simpl.
    fold h0. rewrite Hrun. split; [done|]. apply (moved_interns _ _ _ e); [done|done|done|].
    eapply moved_iff; [|exact Hm]. intros a. fold h0. cbv beta. split; [|by intros [? _]].
    intros [s Hs]. split; [by exists s|].
    subst old. unfold home. rewrite Hs, Hn0. pose proof (bucket_of_lt e0 (str_hash s) He0). lia.
Qed.

(** *** Adding and removing *)

Lemma empty_interns : interns empty_table ∅.
Proof.
  split; try done.
  - by exists 2%Z.
  - apply (chained_empty _ _ _ 4). intros a [s Hs]. done.
Qed.

(** The string a call of [Add] asks for. *)
Definition asked (news : list ascii) (len : Z) : list ascii :=
  if (len <? 0)%Z then c_str news else take (Z.to_nat len) news.

Lemma c_str_prefix s : take (length (c_str s)) s = c_str s ∧ length (c_str s) ≤ length s.
Proof.
  induction s as [|c s [IH1 IH2]]; simpl; [done|]. destruct (bool_decide _); simpl.
  - split; [done|lia].
  - split; [by f_equal|lia].
Qed.

Lemma same_chars_true t m news n a :
  interns t m → n ≤ length news →
  same_chars (str_heap t) news (Z.of_nat n) a = true ↔ m !! a = Some (take n news).
Proof.
  intros Hin Hn. unfold same_chars. rewrite <- (in_vals _ _ Hin), lookup_fmap, Nat2Z.id.
  destruct (str_heap t !! a) as [s|] eqn:Hs; simpl; [|done].
  destruct (in_nodes _ _ Hin a s Hs) as [Hl _].
  rewrite andb_true_iff, Z.eqb_eq, bool_decide_eq_true. split.
  - intros [Hln ->]. f_equal. symmetry. apply take_ge. lia.
  - intros [= Hv]. rewrite Hl, Hv, length_take. split; [lia|]. by rewrite take_take, Nat.min_id.
Qed.

(** What the walk of [Add] finds: the string, wherever it is, or nothing. *)
Lemma Add_walk t m news n p :
  interns t m → n ≤ length news →
  _strings t !! bucket_of (_numofslots t) (_hashstr news (Z.of_nat n)) = Some p →
  (∃ a prev, m !! a = Some (take n news) ∧
     walk (str_nx (str_heap t)) (same_chars (str_heap t) news (Z.of_nat n)) (size (str_heap t)) None p
       = Ok (Some (a, prev))) ∨
  (∀ a, m !! a ≠ Some (take n news)) ∧
    walk (str_nx (str_heap t)) (same_chars (str_heap t) news (Z.of_nat n)) (size (str_heap t)) None p
      = Ok None.
Proof.
  intros Hin Hn Hp. destruct (in_chained _ _ Hin _ _ Hp) as (l & Hc & Hnd & Hmem).
  assert (Hf : length l ≤ size (str_heap t)).
  { apply chain_fuel; [done|]. intros a Ha. by apply Hmem in Ha as [? _]. }
  destruct (walk_ok _ (same_chars (str_heap t) news (Z.of_nat n)) _ None p l Hc Hf)
    as [[Hw Hno]|(l1 & a & l2 & _ & Ha & _ & Hw)].
  - right. split; [|done]. intros a Ha.
    assert (Hal : a ∈ l).
    { apply Hmem. pose proof Ha as Ha'.
      rewrite <- (in_vals _ _ Hin), lookup_fmap in Ha'.
      destruct (str_heap t !! a) as [s|] eqn:Hs; simplify_eq/=. split; [by exists s|].
      unfold home. rewrite Hs. destruct (in_nodes _ _ Hin a s Hs) as [Hl Hh].
      rewrite Hh, Hl, Ha', length_take, Nat.min_l by lia.
      f_equal. rewrite <- (_hashstr_take news) by lia. by rewrite Nat2Z.id. }
    apply (same_chars_true t m) in Ha; [|done|done]. rewrite Hno in Ha; done.
  - left. exists a. apply (same_chars_true t m) in Ha; [|done|done]. eauto.
Qed.

(** Linking a node with new characters keeps the invariant. *)
Lemma link_interns t m a x p :
  interns t m → m !! a = None → (∀ b, m !! b ≠ Some x) →
  let hash := _hashstr x (Z.of_nat (length x)) in
  let h := bucket_of (_numofslots t) hash in
  _strings t !! h = Some p →
  interns (mkStringTable (<[a := mkString x (Z.of_nat (length x)) hash p]> (str_heap t))
             (<[h := Some a]> (_strings t)) (_numofslots t) (_slotused t + 1))
          (<[a := x]> m).
Proof.
  intros Hin Ha Hx hash h Hp. pose proof Ha as Ha'.
  rewrite <- (in_vals _ _ Hin), lookup_fmap, fmap_None in Ha'.
  assert (Hne : ∀ b, live (str_heap t) b → b ≠ a).
  { intros b [s Hs] ->. congruence. }
  split; simpl.
  - apply (in_pow _ _ Hin).
  - rewrite length_insert. apply (in_len _ _ Hin).
  - by rewrite fmap_insert, (in_vals _ _ Hin).
  - apply map_Forall_insert_2; [done|apply (in_nodes _ _ Hin)].
  - intros b c y. rewrite !lookup_insert_Some. pose proof (in_inj _ _ Hin b c y). naive_solver.
  - set (h' := <[a := _]> (str_heap t)).
    assert (Hhome : home (_numofslots t) h' a = h).
    { unfold home, h'. by rewrite lookup_insert_eq. }
    rewrite <- Hhome. eapply chained_push with (p := p); [apply (in_chained _ _ Hin)| | | | |].
    + intros Hl. by apply Hne in Hl.
    + by rewrite Hhome.
    + apply str_nx_insert.
    + intros b Hb. split; [apply str_nx_insert_ne; auto|].
      unfold home, h'. rewrite lookup_insert_ne; [done|]. intros <-. by apply Hne in Hb.
    + intros b. unfold live, h'. destruct (decide (b = a)) as [->|Hb].
      * rewrite lookup_insert_eq. split; eauto.
      * rewrite lookup_insert_ne by done. naive_solver.
  - rewrite (in_used _ _ Hin), map_size_insert_None by done. lia.
Qed.

Lemma Add_ok `{Allocator} t m news len :
  interns t m → (len ≤ Z.of_nat (length news))%Z →
  ∃ t' a m', Add t news len = Ok (t', a) ∧ interns t' m' ∧
    (m !! a = Some (asked news len) ∧ t' = t ∧ m' = m ∨
     (∀ b, m !! b ≠ Some (asked news len)) ∧ m !! a = None ∧ m' = <[a := asked news len]> m).
Proof.
  intros Hin Hlen. unfold Add.
  assert (∃ n, (if (len <? 0)%Z then Z.of_nat (length (c_str news)) else len) = Z.of_nat n ∧
               n ≤ length news ∧ asked news len = take n news) as (n & -> & Hn & Hask).
  { unfold asked. pose proof (c_str_prefix news) as [Hc1 Hc2]. destruct (Z.ltb_spec len 0).
    - exists (length (c_str news)). done.
    - exists (Z.to_nat len). split_and!; [lia|lia|done]. }
  destruct (Z.ltb_spec (Z.of_nat (length news)) (Z.of_nat n)) as [|_]; [lia|].
  destruct (in_pow _ _ Hin) as (e & He & Hpow).
  destruct (bucket_lookup (_strings t) _ e (_hashstr news (Z.of_nat n)) He Hpow (in_len _ _ Hin))
    as [p Hp].
  rewrite Hp. simpl.
  destruct (Add_walk t m news n p Hin Hn Hp) as [(a & prev & Ha & ->)|[Hno ->]]; simpl.
  - exists t, a, m. rewrite Hask. split; [done|]. split; [done|]. by left.
  - set (a := malloc (dom (str_heap t))).
    assert (Ha : m !! a = None).
    { rewrite <- (in_vals _ _ Hin), lookup_fmap.
      destruct (str_heap t !! a) eqn:Hs; [|done]. destruct (malloc_fresh (dom (str_heap t))).
      apply elem_of_dom. by eexists. }
    assert (Hx : length (take n news) = n) by (rewrite length_take; lia).
    assert (Hh : _hashstr news (Z.of_nat n) = _hashstr (take n news) (Z.of_nat (length (take n news)))).
    { rewrite Hx, <- (_hashstr_take news) by lia. by rewrite Nat2Z.id. }
    pose proof (link_interns t m a (take n news) p Hin Ha Hno) as Hlink. cbv zeta in Hlink.
    rewrite <- Hh, Hx in Hlink. specialize (Hlink Hp). rewrite Nat2Z.id. rewrite Hask.
    destruct (_numofslots t <? _slotused t + 1)%Z.
    + replace (_numofslots t * 2)%Z with (2 ^ (e + 1))%Z by (rewrite Hpow, Z.pow_add_r by lia; lia).
      destruct (Resize_ok _ _ (e + 1) Hlink) as (t' & -> & Hin'); [lia|]. simpl.
      exists t', a, (<[a := take n news]> m). split; [done|]. split; [done|]. by right.
    + eexists _, a, _. split; [done|]. split; [exact Hlink|]. by right.
Qed.

(** The pointer updates of [Remove] unlink the node. *)
Lemma Remove_unlinked (heap : gmap Z SQString) bk i a s prev :
  heap !! a = Some s → (∀ b, prev = Some b → b ≠ a ∧ live heap b) →
  let '(heap', bk') :=
    match prev with
    | Some b => (alter (set_str_next (str_next s)) b heap, bk)
    | None => (heap, <[i := str_next s]> bk)
    end in
  unlinked (str_nx heap) (str_nx (delete a heap')) bk bk' i a prev ∧
  (str_val <$> delete a heap' = delete a (str_val <$> heap)) ∧
  (∀ b s', delete a heap' !! b = Some s' → ∃ s0, heap !! b = Some s0 ∧
     str_val s' = str_val s0 ∧ str_len s' = str_len s0 ∧ str_hash s' = str_hash s0).
Proof.
  intros Hs Hprev. destruct prev as [b|].
  - destruct (Hprev b eq_refl) as [Hne [sb Hb]]. split; [|split].
    + unfold unlinked, str_nx. split_and!; [done| |].
      * rewrite lookup_delete_ne, lookup_alter_eq, Hs, Hb by done. done.
      * intros c Hcb Hca. by rewrite lookup_delete_ne, lookup_alter_ne by done.
    + rewrite fmap_delete. f_equal. apply map_eq. intros c. rewrite !lookup_fmap.
      destruct (decide (b = c)) as [<-|]; [by rewrite lookup_alter_eq, Hb|].
      by rewrite lookup_alter_ne by done.
    + intros c s' Hc. apply lookup_delete_Some in Hc as [_ Hc].
      destruct (decide (b = c)) as [<-|].
      * rewrite lookup_alter_eq, Hb in Hc. simplify_eq/=. by exists sb.
      * rewrite lookup_alter_ne in Hc by done. by exists s'.
  - split; [|split].
    + unfold unlinked, str_nx. exists (str_next s). rewrite Hs. split_and!; [done|done|].
      intros c Hca. by rewrite lookup_delete_ne by done.
    + by rewrite fmap_delete.
    + intros c s' Hc. apply lookup_delete_Some in Hc as [_ Hc]. by exists s'.
Qed.

Lemma delete_live (heap h' : gmap Z SQString) a :
  str_val <$> delete a h' = delete a (str_val <$> heap) →
  ∀ b, live (delete a h') b ↔ b ≠ a ∧ live heap b.
Proof.
  intros Hvals b. assert (Hv : (str_val <$> delete a h') !! b = (delete a (str_val <$> heap)) !! b)
    by (by rewrite Hvals).
  rewrite lookup_fmap in Hv. unfold live. destruct (decide (b = a)) as [->|Hne].
  - rewrite lookup_delete_eq in Hv. rewrite lookup_delete_eq. split; [by intros []|naive_solver].
  - rewrite (lookup_delete_ne (str_val <$> heap)), lookup_fmap in Hv by done.
    destruct (delete a h' !! b), (heap !! b); simplify_eq/=; naive_solver.
Qed.

Lemma unlink_interns t m a s p fuel prev h' bk' :
  interns t m → str_heap t !! a = Some s → size (str_heap t) ≤ fuel →
  let i := bucket_of (_numofslots t) (str_hash s) in
  _strings t !! i = Some p →
  walk (str_nx (str_heap t)) (λ b, bool_decide (b = a)) fuel None p = Ok (Some (a, prev)) →
  unlinked (str_nx (str_heap t)) (str_nx (delete a h')) (_strings t) bk' i a prev →
  str_val <$> delete a h' = delete a (str_val <$> str_heap t) →
  (∀ b s', delete a h' !! b = Some s' → ∃ s0, str_heap t !! b = Some s0 ∧
     str_val s' = str_val s0 ∧ str_len s' = str_len s0 ∧ str_hash s' = str_hash s0) →
  interns (mkStringTable (delete a h') bk' (_numofslots t) (_slotused t - 1)) (delete a m).
Proof.
  intros Hin Hs Hfuel i Hp Hw Hu Hvals Hbody.
  assert (Hhome : home (_numofslots t) (str_heap t) a = i) by (unfold home; by rewrite Hs).
  pose proof (delete_live _ _ _ Hvals) as Hlive.
  split; simpl.
  - apply (in_pow _ _ Hin).
  - rewrite <- (in_len _ _ Hin). f_equal. destruct prev as [b|].
    + by destruct Hu as [-> _].
    + destruct Hu as (q & _ & -> & _). by rewrite length_insert.
  - by rewrite Hvals, (in_vals _ _ Hin).
  - intros b s' Hb. apply Hbody in Hb as (s0 & Hs0 & Hv & Hl & Hh).
    pose proof (in_nodes _ _ Hin b s0 Hs0) as [? ?]. split; congruence.
  - intros b c y Hb Hc'. apply lookup_delete_Some in Hb as [_ Hb].
    apply lookup_delete_Some in Hc' as [_ Hc']. by apply (in_inj _ _ Hin b c y).
  - eapply (chained_iff _ _ (live (delete a h')) _ (home (_numofslots t) (str_heap t))); [done| |].
    + intros b [s' Hb]. split; [|done]. pose proof Hb as Hb'.
      apply Hbody in Hb as (s0 & Hs0 & _ & _ & Hh). unfold home. by rewrite Hb', Hs0, Hh.
    + eapply chained_unlink; [apply (in_chained _ _ Hin)|by exists s|by rewrite Hhome| |exact Hw
        |by rewrite Hhome|exact Hlive].
      intros l' _ Hnd' Hl'. apply chain_fuel in Hl'; [lia|done].
  - rewrite (in_used _ _ Hin).
    assert (Hsz : size (str_val <$> delete a h') = size (delete a (str_val <$> str_heap t)))
      by (by rewrite Hvals).
    rewrite map_size_fmap, (map_size_delete_Some _ (str_val <$> str_heap t)), map_size_fmap in Hsz
      by (rewrite lookup_fmap, Hs; by eexists).
    rewrite Hsz. assert (size (str_heap t) ≠ 0); [|lia].
    rewrite map_size_non_empty_iff. intros Hemp. by rewrite Hemp, lookup_empty in Hs.
Qed.

Lemma Remove_ok t m a x :
  interns t m → m !! a = Some x → ∃ t', Remove t a = Ok t' ∧ interns t' (delete a m).
Proof.
  intros Hin Ha. rewrite <- (in_vals _ _ Hin), lookup_fmap in Ha.
  destruct (str_heap t !! a) as [s|] eqn:Hs; [|done]. clear Ha.
  destruct (in_pow _ _ Hin) as (e & He & Hpow).
  destruct (bucket_lookup (_strings t) _ e (str_hash s) He Hpow (in_len _ _ Hin)) as [p Hp].
  unfold Remove. rewrite Hs. simpl. rewrite Hp. simpl.
  destruct (in_chained _ _ Hin _ _ Hp) as (l & Hc & Hnd & Hmem).
  assert (Hf : length l ≤ size (str_heap t)).
  { apply chain_fuel; [done|]. intros b Hb. by apply Hmem in Hb as [? _]. }
  destruct (walk_ok _ (λ b, bool_decide (b = a)) _ None p l Hc Hf)
    as [[_ Hno]|(l1 & b & l2 & -> & Hb & _ & Hw)].
  { assert (Hal : a ∈ l).
    { apply Hmem. split; [by exists s|]. unfold home. by rewrite Hs. }
    apply Hno in Hal. by rewrite bool_decide_eq_false in Hal. }
  apply bool_decide_eq_true in Hb as ->. rewrite Hw. cbn [mbind res_bind].
  set (prev := match last l1 with Some b => Some b | None => None end) in *.
  assert (Hprev : ∀ b, prev = Some b → b ≠ a ∧ live (str_heap t) b).
  { intros b Hb. assert (Hbl : b ∈ l1).
    { subst prev. destruct (last l1) as [b'|] eqn:Hl; simplify_eq.
      apply last_Some in Hl as [l' ->]. set_solver. }
    split.
    - intros ->. apply NoDup_app in Hnd as (_ & Hd & _). apply (Hd a Hbl). by left.
    - apply Hmem. set_solver. }
  pose proof (Remove_unlinked (str_heap t) (_strings t) (bucket_of (_numofslots t) (str_hash s)) a s
                prev Hs Hprev) as Hu.
  destruct (match prev with Some _ => _ | None => _ end) as [heap' bk'].
  destruct Hu as (Hu & Hvals & Hbody).
  eexists. split; [done|]. by eapply unlink_interns.
Qed.

(** ** Properties of the string table *)

(** The states the string table can be in: [SQString::Create] and the release
    of a string are its only clients. *)
Inductive reachable `{Allocator} : SQStringTable → Prop :=
  | reach_init : reachable empty_table
  | reach_add t news len t' a : reachable t → Add t news len = Ok (t', a) → reachable t'
  | reach_remove t a t' : reachable t → Remove t a = Ok t' → reachable t'.

Lemma reachable_interns `{Allocator} t : reachable t → ∃ m, interns t m.
Proof.
  induction 1 as [|t news len t' a _ [m Hm] Hadd|t a t' _ [m Hm] Hrem].
  - exists ∅. apply empty_interns.
  - destruct (decide (len ≤ Z.of_nat (length news))%Z) as [Hlen|Hlen].
    + destruct (Add_ok t m news len Hm Hlen) as (t1 & a1 & m1 & Hrun & Hin & _).
      rewrite Hrun in Hadd. simplify_eq. by exists m1.
    + unfold Add in Hadd. destruct (Z.ltb_spec len 0); [lia|].
      destruct (Z.ltb_spec (Z.of_nat (length news)) len); [done|lia].
  - destruct (str_heap t !! a) as [s|] eqn:Hs.
    + destruct (Remove_ok t m a (str_val s) Hm) as (t1 & Hrun & Hin).
      { rewrite <- (in_vals _ _ Hm), lookup_fmap. by rewrite Hs. }
      rewrite Hrun in Hrem. simplify_eq. eauto.
    + unfold Remove in Hrem. by rewrite Hs in Hrem.
Qed.

(** C16: in every reachable state two live strings with the same characters are
    the same object, and [Add] of the characters of a live string gives that
    object and changes nothing: comparing strings by address is right. *)
Theorem strings_interned `{Allocator} t a b sa sb :
  reachable t → str_heap t !! a = Some sa → str_heap t !! b = Some sb →
  (str_val sa = str_val sb ↔ a = b) ∧ Add t (str_val sa) (str_len sa) = Ok (t, a).
Proof.
  intros [m Hm]%reachable_interns Ha Hb.
  assert (Hva : m !! a = Some (str_val sa)) by (rewrite <- (in_vals _ _ Hm), lookup_fmap; by rewrite Ha).
  assert (Hvb : m !! b = Some (str_val sb)) by (rewrite <- (in_vals _ _ Hm), lookup_fmap; by rewrite Hb).
  split.
  - split; [|naive_solver]. intros Heq. rewrite <- Heq in Hvb. by eapply in_inj.
  - destruct (in_nodes _ _ Hm a sa Ha) as [Hlen _].
    destruct (Add_ok t m (str_val sa) (str_len sa) Hm ltac:(lia)) as (t' & c & m' & -> & _ & Hc).
    assert (Hask : asked (str_val sa) (str_len sa) = str_val sa).
    { unfold asked. destruct (Z.ltb_spec (str_len sa) 0); [lia|]. apply take_ge. lia. }
    rewrite Hask in Hc. destruct Hc as [(Hc & -> & _)|[Hno _]]; [|by destruct (Hno a)].
    by rewrite (in_inj _ _ Hm c a _ Hc Hva).
Qed.

Definition str_abc : list ascii := ["a"; "b"; "c"]%char.

Lemma strings_interned_witness :
  ∃ t a s, str_heap t !! a = Some s ∧ str_val s = str_abc ∧
    Add t (str_val s) (str_len s) = Ok (t, a).
Proof.
  destruct (Add empty_table str_abc 3) as [[t a]|] eqn:Hadd; [|vm_compute in Hadd; discriminate Hadd].
  pose proof (reach_add _ _ _ _ _ reach_init Hadd) as Hr.
  destruct (str_heap t !! a) as [s|] eqn:Hs;
    [|vm_compute in Hadd; injection Hadd as <- <-; vm_compute in Hs; discriminate Hs].
  exists t, a, s. split; [exact Hs|]. split.
  - vm_compute in Hadd. injection Hadd as <- <-. vm_compute in Hs. injection Hs as <-. reflexivity.
  - apply (strings_interned t a a s s Hr Hs Hs).
Defined.

(** In every reachable state [Add] of characters inside its buffer succeeds
    and the object it gives holds exactly the characters asked for, their
    number and their hash; every string that was live stays live with its
    characters, also across a resize of the bucket array. *)
Lemma string_add_total `{Allocator} t news len :
  reachable t → (len ≤ Z.of_nat (length news))%Z →
  ∃ t' a s, Add t news len = Ok (t', a) ∧ str_heap t' !! a = Some s ∧
    str_val s = asked news len ∧ string_ok s ∧
    ∀ b sb, str_heap t !! b = Some sb →
            str_val <$> str_heap t' !! b = Some (str_val sb).
Proof.
  intros [m Hm]%reachable_interns Hlen.
  destruct (Add_ok t m news len Hm Hlen) as (t' & a & m' & Hrun & Hm' & Hc).
  assert (Ha : m' !! a = Some (asked news len)).
  { destruct Hc as [(? & _ & ->)|(_ & _ & ->)]; [done|apply lookup_insert_eq]. }
  assert (Hsub : m ⊆ m').
  { destruct Hc as [(_ & _ & ->)|(_ & ? & ->)]; [done|by apply insert_subseteq]. }
  rewrite <- (in_vals _ _ Hm'), lookup_fmap in Ha.
  destruct (str_heap t' !! a) as [s|] eqn:Hs; simplify_eq/=.
  exists t', a, s. split_and!; [done|done|done|by apply (in_nodes _ _ Hm' a)|].
  intros b sb Hb. rewrite <- lookup_fmap, (in_vals _ _ Hm'). eapply lookup_weaken; [|exact Hsub].
  rewrite <- (in_vals _ _ Hm), lookup_fmap. by rewrite Hb.
Qed.

Lemma string_add_total_witness :
  ∃ t' a s, Add empty_table str_abc (-1) = Ok (t', a) ∧ str_heap t' !! a = Some s ∧ str_val s = str_abc.
Proof.
  destruct (string_add_total empty_table str_abc (-1) reach_init) as (t' & a & s & H1 & H2 & H3 & _).
  { vm_compute. discriminate. }
  exists t', a, s. split; [exact H1|]. split; [exact H2|]. exact H3.
Defined.

(** C38: in every reachable state releasing a live string succeeds (the
    [assert(0)] at the end of [Remove] is not reached), frees that string and
    keeps every other one. *)
Theorem string_remove_total `{Allocator} t a :
  reachable t → live (str_heap t) a →
  ∃ t', Remove t a = Ok t' ∧
    ∀ b, str_val <$> str_heap t' !! b = if decide (b = a) then None else str_val <$> str_heap t !! b.
Proof.
  intros [m Hm]%reachable_interns [s Hs].
  destruct (Remove_ok t m a (str_val s) Hm) as (t' & Hrun & Hm').
  { rewrite <- (in_vals _ _ Hm), lookup_fmap. by rewrite Hs. }
  exists t'. split; [done|]. intros b.
  rewrite <- !lookup_fmap, (in_vals _ _ Hm'), (in_vals _ _ Hm).
  destruct (decide (b = a)) as [->|]; [apply lookup_delete_eq|by apply lookup_delete_ne].
Qed.

Lemma string_remove_total_witness :
  ∃ t a t', Add empty_table str_abc 3 = Ok (t, a) ∧ Remove t a = Ok t' ∧ str_heap t' !! a = None.
Proof.
  destruct (Add empty_table str_abc 3) as [[t a]|] eqn:Hadd; [|vm_compute in Hadd; discriminate Hadd].
  destruct (string_remove_total t a (reach_add _ _ _ _ _ reach_init Hadd)) as (t' & Hrun & Hb).
  { vm_compute in Hadd. injection Hadd as <- <-. vm_compute. eexists. reflexivity. }
  exists t, a, t'. split; [reflexivity|]. split; [exact Hrun|].
  specialize (Hb a). destruct (decide (a = a)) as [_|Hn]; [|destruct Hn; reflexivity].
  destruct (str_heap t' !! a); [discriminate Hb|reflexivity].
Defined.
