(* ===== verification/SqRefTable.v ===== *)
(** * The reference table (sqstate.h, sqstate.cpp, [RefTable])

    [sq_addref] and [sq_release] count the references a host program holds to
    Squirrel objects in a hash table of its own: an array of nodes, chained from
    an array of buckets, with the unused nodes on a free list.  Node pointers are
    indices into the node array. *)

From Stdlib Require Import Ascii.
From stdpp Require Import base numbers gmap strings option list.
From S2P Require Import Prelude Chains SqObject.

(** ** State *)

Record RefNode := mkRef { robj : SQObject; refs : Z; rnext : option nat }.

Record RefTable := mkRefTable {
  _numofslots : Z;
  _slotused : Z;
  _nodes : list RefNode;
  _freelist : option nat;
  _buckets : list (option nat)
}.

Definition set_refs (r : Z) (n : RefNode) : RefNode := mkRef (robj n) r (rnext n).
Definition set_rnext (x : option nat) (n : RefNode) : RefNode := mkRef (robj n) (refs n) x.

Definition with_nodes (t : RefTable) (ns : list RefNode) : RefTable :=
  mkRefTable (_numofslots t) (_slotused t) ns (_freelist t) (_buckets t).

Definition ref_nx (ns : list RefNode) (i : nat) : option (option nat) := rnext <$> ns !! i.

(** ** Operations *)

(** [RefTable::AllocNodes]: every node on the free list, in order. *)
Definition AllocNodes (size : Z) : RefTable :=
  let n := Z.to_nat size in
  mkRefTable size 0
    (imap (λ i _, mkRef sq_null 0 (if bool_decide (S i < n) then Some (S i) else None)) (seq 0 n))
    (Some 0) (replicate n None).

(** [RefTable::RefTable] *)
Definition empty_refs : RefTable := AllocNodes 4.

(** [RefTable::Add]: the node with the object, first of its bucket. *)
Definition Add (t : RefTable) (mainpos : nat) (obj : SQObject) : res (RefTable * nat) :=
  b ← expect OutOfBounds (_buckets t !! mainpos);
  newnode ← expect AssertFail (_freelist t);
  nd ← expect OutOfBounds (_nodes t !! newnode);
  if (refs nd =? 0)%Z then
    Ok (mkRefTable (_numofslots t) (_slotused t + 1)
          (<[newnode := mkRef obj (refs nd) b]> (_nodes t)) (rnext nd)
          (<[mainpos := Some newnode]> (_buckets t)), newnode)
  else Err AssertFail.

(** The test of the chain walk in [RefTable::Get]. *)
Definition is_obj (t : RefTable) (obj : SQObject) (i : nat) : bool :=
  match _nodes t !! i with Some nd => same_key (robj nd) obj | None => false end.

Section reftable.
Context `{SQHeap}.

(** [RefTable::Resize]: add every node of the old array to new ones; the
    assertions ask that they were all in use. *)
Definition Resize (t : RefTable) (newsize : Z) : res RefTable :=
  '(t', nfound) ←
    fold_res (λ '(t', nfound) nd,
        if is_null (robj nd) then Ok (t', nfound)
        else if (refs nd =? 0)%Z then Err AssertFail
        else
          '(t', nn) ← Add t' (bucket_of (_numofslots t') (HashObj (robj nd))) (robj nd);
          Ok (with_nodes t' (alter (set_refs (refs nd)) nn (_nodes t')), nfound + 1)%Z)
      (_nodes t) (AllocNodes newsize, 0%Z);
  if (nfound =? _numofslots t)%Z then Ok t' else Err AssertFail.

(** [RefTable::Get]: the table, the node if there is one, its bucket and the
    node before it on the chain. *)
Definition Get (t : RefTable) (obj : SQObject) (add : bool)
    : res (RefTable * option nat * nat * option nat) :=
  let mainpos := bucket_of (_numofslots t) (HashObj obj) in
  p ← expect OutOfBounds (_buckets t !! mainpos);
  r ← walk (ref_nx (_nodes t)) (is_obj t obj) (length (_nodes t)) None p;
  match r with
  | Some (ref, prev) => Ok (t, Some ref, mainpos, prev)
  | None =>
      if add then
        '(t, mainpos) ←
          (if (_numofslots t =? _slotused t)%Z then
             if bool_decide (_freelist t = None) then
               t' ← Resize t (_numofslots t * 2);
               Ok (t', bucket_of (_numofslots t') (HashObj obj))
             else Err AssertFail
           else Ok (t, mainpos));
        '(t, ref) ← Add t mainpos obj;
        Ok (t, Some ref, mainpos, None)
      else Ok (t, None, mainpos, None)
  end.

(** [RefTable::AddRef]; [refs] is unsigned. *)
Definition AddRef (t : RefTable) (obj : SQObject) : res RefTable :=
  '(t, ref, _, _) ← Get t obj true;
  ref ← expect AssertFail ref;
  nd ← expect OutOfBounds (_nodes t !! ref);
  Ok (with_nodes t (<[ref := set_refs (u32 (refs nd + 1)) nd]> (_nodes t))).

(** [RefTable::GetRefCount]; it calls [Get] with [add] set. *)
Definition GetRefCount (t : RefTable) (obj : SQObject) : res (RefTable * Z) :=
  '(t, ref, _, _) ← Get t obj true;
  ref ← expect AssertFail ref;
  nd ← expect OutOfBounds (_nodes t !! ref);
  Ok (t, refs nd).

(** [RefTable::Release]: whether the last reference went. *)
Definition Release (t : RefTable) (obj : SQObject) : res (RefTable * bool) :=
  '(t, ref, mainpos, prev) ← Get t obj false;
  ref ← expect AssertFail ref;
  nd ← expect OutOfBounds (_nodes t !! ref);
  let nd := set_refs (u32 (refs nd - 1)) nd in
  let ns := <[ref := nd]> (_nodes t) in
  if (refs nd =? 0)%Z then
    let '(ns, bk) :=
      match prev with
      | Some b => (alter (set_rnext (rnext nd)) b ns, _buckets t)
      | None => (ns, <[mainpos := rnext nd]> (_buckets t))
      end in
    let ns := <[ref := mkRef sq_null 0 (_freelist t)]> ns in
    Ok (mkRefTable (_numofslots t) (_slotused t - 1) ns (Some ref) bk, true)
  else Ok (with_nodes t ns, false).

(** [RefTable::Finalize] *)
Definition Finalize (t : RefTable) : RefTable :=
  with_nodes t (map (λ nd, mkRef sq_null (refs nd) (rnext nd)) (_nodes t)).

(** ** Invariant *)

Definition live (ns : list RefNode) (i : nat) : Prop :=
  ∃ nd, ns !! i = Some nd ∧ is_null (robj nd) = false.

Definition home (n : Z) (ns : list RefNode) (i : nat) : nat :=
  match ns !! i with Some nd => bucket_of n (HashObj (robj nd)) | None => 0 end.

(** The table counts exactly the references of [m]. *)
Record counts (t : RefTable) (m : gmap SQObject Z) : Prop := {
  ct_pow : ∃ e, (0 ≤ e)%Z ∧ _numofslots t = (2 ^ e)%Z;
  ct_nodes : Z.of_nat (length (_nodes t)) = _numofslots t;
  ct_len : Z.of_nat (length (_buckets t)) = _numofslots t;
  ct_chained : chained (ref_nx (_nodes t)) (live (_nodes t))
                 (home (_numofslots t) (_nodes t)) (_buckets t);
  ct_free : ∃ fl, is_chain (ref_nx (_nodes t)) (_freelist t) fl ∧ NoDup fl ∧
              (Z.of_nat (length fl) = _numofslots t - _slotused t)%Z ∧
              ∀ i, i ∈ fl ↔ i < length (_nodes t) ∧ ¬ live (_nodes t) i;
  ct_zero : ∀ i nd, _nodes t !! i = Some nd → is_null (robj nd) = true →
              robj nd = sq_null ∧ refs nd = 0%Z;
  ct_inj : ∀ i j ni nj, _nodes t !! i = Some ni → _nodes t !! j = Some nj →
             is_null (robj ni) = false → robj ni = robj nj → i = j;
  ct_map : ∀ o r, m !! o = Some r ↔
             ∃ i nd, _nodes t !! i = Some nd ∧ robj nd = o ∧ refs nd = r ∧ is_null o = false;
  ct_refs : ∀ o r, m !! o = Some r → (0 < r < 2 ^ 32)%Z
}.

(** ** Lemmas *)

Lemma live_insert ns i nd j :
  i < length ns →
  live (<[i := nd]> ns) j ↔ (i = j ∧ is_null (robj nd) = false) ∨ (i ≠ j ∧ live ns j).
Proof.
  intros Hi. unfold live. destruct (decide (i = j)) as [<-|Hne].
  - rewrite list_lookup_insert_eq by done. naive_solver.
  - rewrite list_lookup_insert_ne by done. naive_solver.
Qed.

Lemma live_lt ns i : live ns i → i < length ns.
Proof. intros (nd & Hnd & _). by eapply lookup_lt_Some. Qed.

Lemma home_insert n ns i nd j :
  i < length ns →
  home n (<[i := nd]> ns) j = if decide (i = j) then bucket_of n (HashObj (robj nd)) else home n ns j.
Proof.
  intros Hi. unfold home. destruct (decide (i = j)) as [<-|Hne].
  - by rewrite list_lookup_insert_eq by done.
  - by rewrite list_lookup_insert_ne by done.
Qed.

Lemma ref_nx_insert ns i nd j :
  i < length ns →
  ref_nx (<[i := nd]> ns) j = if decide (i = j) then Some (rnext nd) else ref_nx ns j.
Proof.
  intros Hi. unfold ref_nx. destruct (decide (i = j)) as [<-|Hne].
  - by rewrite list_lookup_insert_eq by done.
  - by rewrite list_lookup_insert_ne by done.
Qed.

(** A chain of live nodes is no longer than the array. *)
Lemma ref_chain_fuel ns l : NoDup l → (∀ i, i ∈ l → live ns i) → length l ≤ length ns.
Proof. intros Hnd Hl. apply NoDup_bounded_length; [done|]. intros i Hi. by apply live_lt, Hl. Qed.

(** An object of the map has its node, and a node its object. *)
Lemma counts_node t m i nd :
  counts t m → _nodes t !! i = Some nd → is_null (robj nd) = false →
  m !! robj nd = Some (refs nd).
Proof. intros Hc Hi Hn. apply (ct_map _ _ Hc). eauto 6. Qed.

(** Changing the count of a live node. *)
Lemma set_refs_counts t m i nd r :
  counts t m → _nodes t !! i = Some nd → is_null (robj nd) = false → (0 < r < 2 ^ 32)%Z →
  counts (with_nodes t (<[i := set_refs r nd]> (_nodes t))) (<[robj nd := r]> m).
Proof.
  intros Hc Hi Hn Hr. pose proof (lookup_lt_Some _ _ _ Hi) as Hlt.
  assert (Hlive : ∀ j, live (<[i := set_refs r nd]> (_nodes t)) j ↔ live (_nodes t) j).
  { intros j. rewrite live_insert by done. simpl. split; [|intros Hj].
    - intros [[<- _]|[_ ?]]; [by exists nd|done].
    - destruct (decide (i = j)) as [<-|]; auto. }
  assert (Hnx : ∀ j, ref_nx (<[i := set_refs r nd]> (_nodes t)) j = ref_nx (_nodes t) j).
  { intros j. rewrite ref_nx_insert by done. case_decide; [|done]. subst. unfold ref_nx. by rewrite Hi. }
  assert (Hhome : ∀ j, home (_numofslots t) (<[i := set_refs r nd]> (_nodes t)) j
                       = home (_numofslots t) (_nodes t) j).
  { intros j. rewrite home_insert by done. case_decide; [|done]. subst. unfold home. by rewrite Hi. }
  split; simpl.
  - apply (ct_pow _ _ Hc).
  - rewrite length_insert. apply (ct_nodes _ _ Hc).
  - apply (ct_len _ _ Hc).
  - eapply chained_iff; [exact Hlive| |apply (ct_chained _ _ Hc)]. auto.
  - destruct (ct_free _ _ Hc) as (fl & Hfl & Hnd & Hlen & Hmem). exists fl. split_and!; [|done|done|].
    + eapply is_chain_ext; [|done]. auto.
    + intros j. rewrite length_insert, Hlive. apply Hmem.
  - intros j nj Hj Hnj. apply list_lookup_insert_Some in Hj as [(<- & <- & _)|[_ Hj]].
    + simpl in Hnj. congruence.
    + by apply (ct_zero _ _ Hc j).
  - intros j k nj nk Hj Hk Hnj Heq.
    apply list_lookup_insert_Some in Hj as [(<- & <- & _)|[? Hj]];
    apply list_lookup_insert_Some in Hk as [(<- & <- & _)|[? Hk]]; simpl in *;
      [done|by eapply (ct_inj _ _ Hc)..].
  - intros o r'. rewrite lookup_insert_Some. split.
    + intros [[<- <-]|[Hne Ho]].
      * exists i, (set_refs r nd). rewrite list_lookup_insert_eq by done. done.
      * apply (ct_map _ _ Hc) in Ho as (j & nj & Hj & <- & <- & ?). exists j, nj.
        rewrite list_lookup_insert_ne by congruence. done.
    + intros (j & nj & Hj & <- & <- & ?).
      apply list_lookup_insert_Some in Hj as [(<- & <- & _)|[Hne Hj]]; [by left|right].
      split; [|by eapply (counts_node t)]. intros Heq. apply Hne. by eapply (ct_inj _ _ Hc).
  - intros o r' Ho. apply lookup_insert_Some in Ho as [[<- <-]|[_ Ho]]; [done|].
    by eapply (ct_refs _ _ Hc).
Qed.

(** Taking the first free node for a new object. *)
Lemma link_counts t m n nd obj r b :
  counts t m → m !! obj = None → is_null obj = false → (0 < r < 2 ^ 32)%Z →
  _freelist t = Some n → _nodes t !! n = Some nd →
  let h := bucket_of (_numofslots t) (HashObj obj) in
  _buckets t !! h = Some b →
  counts (mkRefTable (_numofslots t) (_slotused t + 1) (<[n := mkRef obj r b]> (_nodes t)) (rnext nd)
            (<[h := Some n]> (_buckets t))) (<[obj := r]> m).
Proof.
  intros Hc Ho Hn Hr Hf Hnd h Hb. pose proof (lookup_lt_Some _ _ _ Hnd) as Hlt.
  destruct (ct_free _ _ Hc) as (fl & Hfl & Hfnd & Hlen & Hmem). rewrite Hf in Hfl.
  destruct fl as [|n' fl]; [done|]. destruct Hfl as ([= <-] & q & Hq & Hfl).
  assert (q = rnext nd) as -> by (unfold ref_nx in Hq; rewrite Hnd in Hq; by injection Hq).
  apply NoDup_cons in Hfnd as [Hnfl Hfnd].
  assert (Hdead : ¬ live (_nodes t) n) by (apply Hmem; left).
  assert (Hobj : ∀ j nj, _nodes t !! j = Some nj → robj nj ≠ obj).
  { intros j nj Hj <-. by rewrite (counts_node t m j nj Hc Hj Hn) in Ho. }
  assert (Hother : ∀ j, live (_nodes t) j → n ≠ j) by naive_solver.
  split; simpl.
  - apply (ct_pow _ _ Hc).
  - rewrite length_insert. apply (ct_nodes _ _ Hc).
  - rewrite length_insert. apply (ct_len _ _ Hc).
  - set (ns' := <[n := _]> (_nodes t)).
    assert (Hhome : home (_numofslots t) ns' n = h).
    { unfold ns'. rewrite home_insert by done. by rewrite decide_True. }
    rewrite <- Hhome. eapply chained_push with (p := b); [apply (ct_chained _ _ Hc)|done| | | |].
    + by rewrite Hhome.
    + unfold ns'. rewrite ref_nx_insert by done. by rewrite decide_True.
    + intros j Hj. unfold ns'. rewrite ref_nx_insert, home_insert by done.
      apply Hother in Hj. by rewrite !decide_False by done.
    + intros j. unfold ns'. rewrite live_insert by done. simpl. naive_solver.
  - exists fl. split_and!; [|done|simpl in Hlen; lia|].
    + eapply is_chain_ext; [|done]. intros j Hj. rewrite ref_nx_insert by done.
      rewrite decide_False; [done|]. by intros ->.
    + intros j. rewrite length_insert, live_insert by done. simpl.
      specialize (Hmem j). rewrite elem_of_cons in Hmem. naive_solver.
  - intros j nj Hj Hnj. apply list_lookup_insert_Some in Hj as [(<- & <- & _)|[_ Hj]].
    + simpl in Hnj. congruence.
    + by apply (ct_zero _ _ Hc j).
  - intros j k nj nk Hj Hk Hnj Heq.
    apply list_lookup_insert_Some in Hj as [(<- & <- & _)|[? Hj]];
    apply list_lookup_insert_Some in Hk as [(<- & <- & _)|[? Hk]]; simpl in *;
      [done|by apply Hobj in Hk|by apply Hobj in Hj|by eapply (ct_inj _ _ Hc)].
  - intros o r'. rewrite lookup_insert_Some. split.
    + intros [[<- <-]|[Hne Ho']].
      * exists n, (mkRef obj r b). by rewrite list_lookup_insert_eq by done.
      * apply (ct_map _ _ Hc) in Ho' as (j & nj & Hj & <- & <- & ?). exists j, nj.
        rewrite list_lookup_insert_ne; [done|]. apply Hother. by exists nj.
    + intros (j & nj & Hj & <- & <- & ?).
      apply list_lookup_insert_Some in Hj as [(<- & <- & _)|[Hne Hj]]; [by left|right].
      split; [|by eapply (counts_node t)]. intros Heq. by apply (Hobj j nj).
  - intros o r' Ho'. apply lookup_insert_Some in Ho' as [[<- <-]|[_ Ho']]; [done|].
    by eapply (ct_refs _ _ Hc).
Qed.

Lemma AllocNodes_lookup n i :
  i < n →
  _nodes (AllocNodes (Z.of_nat n)) !! i
  = Some (mkRef sq_null 0 (if bool_decide (S i < n) then Some (S i) else None)).
Proof.
  intros Hi. simpl. rewrite Nat2Z.id, list_lookup_imap, lookup_seq_lt by done. done.
Qed.

Lemma AllocNodes_length n : length (_nodes (AllocNodes (Z.of_nat n))) = n.
Proof. simpl. by rewrite Nat2Z.id, length_imap, length_seq. Qed.

Lemma AllocNodes_free n k :
  k < n → is_chain (ref_nx (_nodes (AllocNodes (Z.of_nat n)))) (Some (n - S k)) (seq (n - S k) (S k)).
Proof.
  assert (Hnx : ∀ i, i < n → ref_nx (_nodes (AllocNodes (Z.of_nat n))) i
                     = Some (if bool_decide (S i < n) then Some (S i) else None)).
  { intros i Hi. unfold ref_nx. by rewrite AllocNodes_lookup by done. }
  induction k as [|k IH]; intros Hk; cbn [seq is_chain]; (split; [done|]); eexists;
    (split; [apply Hnx; lia|]).
  - by rewrite bool_decide_eq_false_2 by lia.
  - rewrite bool_decide_eq_true_2 by lia.
    replace (S (n - S (S k))) with (n - S k) by lia. apply IH. lia.
Qed.

Lemma AllocNodes_counts e : (0 ≤ e)%Z → counts (AllocNodes (2 ^ e)) ∅.
Proof.
  intros He. assert (0 < 2 ^ e)%Z by lia.
  destruct (Z_of_nat_complete (2 ^ e)) as [n Hn]; [lia|]. rewrite Hn.
  assert (Hnull : ∀ i nd, _nodes (AllocNodes (Z.of_nat n)) !! i = Some nd →
                          robj nd = sq_null ∧ refs nd = 0%Z).
  { intros i nd Hi. pose proof (lookup_lt_Some _ _ _ Hi) as Hlt.
    rewrite AllocNodes_length in Hlt. rewrite AllocNodes_lookup in Hi by done. by injection Hi as <-. }
  assert (Hdead : ∀ i, ¬ live (_nodes (AllocNodes (Z.of_nat n))) i).
  { intros i (nd & Hi & Hnd). destruct (Hnull i nd Hi) as [Ho _]. by rewrite Ho in Hnd. }
  split.
  - by exists e.
  - by rewrite AllocNodes_length.
  - simpl. rewrite length_replicate. lia.
  - by apply chained_empty.
  - exists (seq 0 n). rewrite AllocNodes_length, length_seq. split_and!.
    + pose proof (AllocNodes_free n (n - 1)) as Hf. replace (S (n - 1)) with n in Hf by lia.
      replace (n - n) with 0 in Hf by lia. apply Hf. lia.
    + apply NoDup_seq.
    + simpl. lia.
    + intros i. rewrite elem_of_seq. specialize (Hdead i). split; intros; split; done || lia.
  - intros i nd Hi _. by apply (Hnull i).
  - intros i j ni nj Hi _ Hni _. destruct (Hnull i ni Hi) as [Ho _]. by rewrite Ho in Hni.
  - intros o r. rewrite lookup_empty. split; [done|].
    intros (i & nd & Hi & <- & _ & Hnd). destruct (Hnull i nd Hi) as [Ho _]. by rewrite Ho in Hnd.
  - done.
Qed.

(** [Add] takes the head of the free list; the caller then sets the count. *)
Lemma Add_counts t m obj r :
  counts t m → m !! obj = None → is_null obj = false → (0 < r < 2 ^ 32)%Z →
  (_slotused t < _numofslots t)%Z →
  ∃ t' n nd, Add t (bucket_of (_numofslots t) (HashObj obj)) obj = Ok (t', n) ∧
    _numofslots t' = _numofslots t ∧ _slotused t' = (_slotused t + 1)%Z ∧
    _nodes t' !! n = Some nd ∧ refs nd = 0%Z ∧
    counts (with_nodes t' (<[n := set_refs r nd]> (_nodes t'))) (<[obj := r]> m).
Proof.
  intros Hc Ho Hn Hr Hsp.
  destruct (ct_pow _ _ Hc) as (e & He & Hpow).
  destruct (bucket_lookup (_buckets t) _ e (HashObj obj) He Hpow (ct_len _ _ Hc)) as [b Hb].
  destruct (ct_free _ _ Hc) as (fl & Hfl & Hfnd & Hlen & Hmem).
  destruct fl as [|n fl]; simpl in Hlen; [lia|]. destruct Hfl as (Hfree & q & Hq & Hfl).
  assert (Hdead : n < length (_nodes t) ∧ ¬ live (_nodes t) n) by (apply Hmem; left).
  destruct Hdead as [Hlt Hdead].
  destruct (lookup_lt_is_Some_2 _ _ Hlt) as [nd Hnd].
  assert (Hz : refs nd = 0%Z).
  { destruct (is_null (robj nd)) eqn:Hnull; [by apply (ct_zero _ _ Hc n)|].
    destruct Hdead. by exists nd. }
  unfold Add. rewrite Hb, Hfree. simpl. rewrite Hnd. simpl. rewrite Hz. simpl.
  eexists _, n, (mkRef obj 0 b). split; [done|]. simpl. split; [done|]. split; [done|].
  rewrite list_lookup_insert_eq by done. split; [done|]. split; [done|].
  unfold with_nodes. simpl. rewrite list_insert_insert_eq. unfold set_refs. simpl.
  by apply link_counts.
Qed.

Lemma full_live t m i nd :
  counts t m → _slotused t = _numofslots t → _nodes t !! i = Some nd → is_null (robj nd) = false.
Proof.
  intros Hc Hfull Hi. destruct (ct_free _ _ Hc) as (fl & _ & _ & Hlen & Hmem).
  destruct fl; simpl in Hlen; [|lia].
  destruct (is_null (robj nd)) eqn:Hn; [|done]. specialize (Hmem i).
  rewrite elem_of_nil in Hmem. destruct Hmem as [_ []]. split; [by eapply lookup_lt_Some|].
  intros (nd' & Hi' & Hn'). congruence.
Qed.

Lemma nodes_NoDup t m :
  counts t m → _slotused t = _numofslots t → NoDup (robj <$> _nodes t).
Proof.
  intros Hc Hfull. apply NoDup_alt. intros i j o Hi Hj.
  apply list_lookup_fmap_Some in Hi as (ni & -> & Hi). apply list_lookup_fmap_Some in Hj as (nj & Hj1 & Hj).
  eapply (ct_inj _ _ Hc); [done|done|by eapply full_live|done].
Qed.

Definition pairs (ns : list RefNode) : list (SQObject * Z) := (λ nd, (robj nd, refs nd)) <$> ns.

Lemma full_map t m :
  counts t m → _slotused t = _numofslots t → list_to_map (pairs (_nodes t)) = m.
Proof.
  intros Hc Hfull. apply map_eq. intros o. apply option_eq. intros r.
  rewrite <- elem_of_list_to_map.
  - rewrite (ct_map _ _ Hc). unfold pairs. rewrite list_elem_of_fmap. split.
    + intros (nd & [= -> ->] & [i Hi]%list_elem_of_lookup). exists i, nd.
      split_and!; [done..|]. by eapply full_live.
    + intros (i & nd & Hi & <- & <- & _). exists nd. split; [done|]. by eapply list_elem_of_lookup_2.
  - unfold pairs. rewrite <- list_fmap_compose. by eapply nodes_NoDup.
Qed.

Lemma Resize_counts t m :
  counts t m → _slotused t = _numofslots t →
  ∃ t', Resize t (_numofslots t * 2) = Ok t' ∧ counts t' m ∧
    (_slotused t' < _numofslots t')%Z.
Proof.
  intros Hc Hfull. unfold Resize. destruct (ct_pow _ _ Hc) as (e & He & Hpow).
  pose proof (ct_nodes _ _ Hc) as Hlen. assert (0 < 2 ^ e)%Z by lia.
  match goal with |- context [fold_res ?f _ _] => destruct (fold_res_inv f
    (λ done '(t', nfound), counts t' (list_to_map (pairs done)) ∧
       _numofslots t' = (_numofslots t * 2)%Z ∧ _slotused t' = Z.of_nat (length done) ∧
       nfound = Z.of_nat (length done))
    (_nodes t) (AllocNodes (_numofslots t * 2), 0%Z)) as ([t' nf] & -> & Hc' & Hn & Hs & Hnf) end.
  - replace (_numofslots t * 2)%Z with (2 ^ (e + 1))%Z by (rewrite Hpow, Z.pow_add_r by lia; lia).
    split_and!; [apply AllocNodes_counts; lia|done..].
  - intros dn nd todo [t' nf] Hl (Hc' & Hn & Hs & ->).
    assert (Hi : _nodes t !! length dn = Some nd) by (rewrite Hl; by apply list_lookup_middle).
    pose proof (full_live t m _ _ Hc Hfull Hi) as Hnull. rewrite Hnull.
    pose proof (ct_refs _ _ Hc _ _ (counts_node t m _ _ Hc Hi Hnull)) as Hr.
    destruct (Z.eqb_spec (refs nd) 0) as [|_]; [lia|].
    pose proof (nodes_NoDup t m Hc Hfull) as Hnd. rewrite Hl, fmap_app in Hnd. simpl in Hnd.
    assert (Hnew : robj nd ∉ (pairs dn).*1).
    { unfold pairs. rewrite <- list_fmap_compose. apply NoDup_app in Hnd as (_ & Hd & _).
      intros Hin. apply (Hd _ Hin). left. }
    destruct (Add_counts t' (list_to_map (pairs dn)) (robj nd) (refs nd) Hc')
      as (t1 & n & nd1 & -> & Hn1 & Hs1 & Hl1 & _ & Hc1); [|done|done| |].
    { by apply not_elem_of_list_to_map_1. }
    { assert (length dn < length (_nodes t)) by (rewrite Hl, length_app; simpl; lia). lia. }
    simpl. eexists. split; [done|]. simpl. rewrite (alter_as_insert _ _ _ _ Hl1). split_and!.
    + unfold pairs. rewrite fmap_app. simpl. rewrite list_to_map_snoc by done. exact Hc1.
    + congruence.
    + rewrite length_app. simpl. lia.
    + rewrite length_app. simpl. lia.
  - simpl. rewrite Hnf, Hlen. rewrite Z.eqb_refl. exists t'. split; [done|].
    rewrite (full_map t m) in Hc' by done. split; [done|]. lia.
Qed.

Lemma Get_walk t m obj p :
  counts t m → is_null obj = false →
  _buckets t !! bucket_of (_numofslots t) (HashObj obj) = Some p →
  (∃ i nd prev, _nodes t !! i = Some nd ∧ robj nd = obj ∧ m !! obj = Some (refs nd) ∧
     walk (ref_nx (_nodes t)) (is_obj t obj) (length (_nodes t)) None p = Ok (Some (i, prev)) ∧
     ∀ b, prev = Some b → b ≠ i ∧ live (_nodes t) b) ∨
  m !! obj = None ∧
    walk (ref_nx (_nodes t)) (is_obj t obj) (length (_nodes t)) None p = Ok None.
Proof.
  intros Hc Hn Hp. destruct (ct_chained _ _ Hc _ _ Hp) as (l & Hch & Hnd & Hmem).
  assert (Hf : length l ≤ length (_nodes t)).
  { apply ref_chain_fuel; [done|]. intros i Hi. by apply Hmem in Hi as [? _]. }
  destruct (walk_ok _ (is_obj t obj) _ None p l Hch Hf)
    as [[Hw Hno]|(l1 & i & l2 & -> & Hi & _ & Hw)].
  - right. split; [|done]. apply eq_None_not_Some. intros [r Hr].
    apply (ct_map _ _ Hc) in Hr as (i & nd & Hi & <- & _ & _).
    assert (Hil : i ∈ l).
    { apply Hmem. split; [by exists nd|]. unfold home. by rewrite Hi. }
    apply Hno in Hil. unfold is_obj in Hil. rewrite Hi in Hil.
    assert (same_key (robj nd) (robj nd) = true) by (by apply same_key_true). congruence.
  - left. unfold is_obj in Hi. destruct (_nodes t !! i) as [nd|] eqn:Hl; [|done].
    apply same_key_true in Hi as <-. eexists i, nd, _.
    split; [done|]. split; [done|]. split; [by eapply counts_node|]. split; [exact Hw|].
    intros b Hb. assert (Hbl : b ∈ l1).
    { destruct (last l1) as [b'|] eqn:Hla; simplify_eq. apply last_Some in Hla as [l' ->]. set_solver. }
    split.
    + intros ->. apply NoDup_app in Hnd as (_ & Hd & _). apply (Hd i Hbl). by left.
    + apply Hmem. set_solver.
Qed.

(** Unlinking a node and putting it on the free list. *)
Section unlink.
Context (t : RefTable) (m : gmap SQObject Z) (i : nat) (nd : RefNode) (p prev : option nat).
Context (ns' : list RefNode) (bk' : list (option nat)).
Hypothesis (Hc : counts t m) (Hi : _nodes t !! i = Some nd) (Hn : is_null (robj nd) = false).
Let h : nat := bucket_of (_numofslots t) (HashObj (robj nd)).
Hypothesis (Hp : _buckets t !! h = Some p).
Hypothesis (Hw : walk (ref_nx (_nodes t)) (is_obj t (robj nd)) (length (_nodes t)) None p
                 = Ok (Some (i, prev))).
Hypothesis (Hprev : ∀ b, prev = Some b → b ≠ i ∧ live (_nodes t) b).
Hypothesis (Hlen' : length ns' = length (_nodes t)).
Hypothesis (Hlook : ∀ j, ns' !! j =
  if decide (j = i) then Some (mkRef sq_null 0 (_freelist t))
  else if decide (prev = Some j) then set_rnext (rnext nd) <$> _nodes t !! j else _nodes t !! j).
Hypothesis (Hbk : bk' = match prev with
                        | Some _ => _buckets t
                        | None => <[h := rnext nd]> (_buckets t)
                        end).

(** Every other node keeps its object and count. *)
Lemma unlink_other j nj :
  j ≠ i → ns' !! j = Some nj →
  ∃ n0, _nodes t !! j = Some n0 ∧ robj nj = robj n0 ∧ refs nj = refs n0.
Proof.
  intros Hj Hnj. rewrite Hlook, decide_False in Hnj by done. case_decide.
  - destruct (_nodes t !! j) as [n0|]; simplify_eq/=. by exists n0.
  - by exists nj.
Qed.

Lemma unlink_kept j n0 :
  j ≠ i → _nodes t !! j = Some n0 →
  ∃ nj, ns' !! j = Some nj ∧ robj nj = robj n0 ∧ refs nj = refs n0.
Proof.
  intros Hj Hn0. rewrite Hlook, decide_False, Hn0 by done. case_decide; simpl; eauto.
Qed.

Lemma unlink_live j : live ns' j ↔ j ≠ i ∧ live (_nodes t) j.
Proof.
  split.
  - intros (nj & Hj & Hnj). assert (Hji : j ≠ i).
    { intros ->. rewrite Hlook, decide_True in Hj by done. by simplify_eq. }
    split; [done|]. destruct (unlink_other j nj Hji Hj) as (n0 & ? & Ho & _). exists n0. split; [done|congruence].
  - intros [Hji (n0 & Hn0 & ?)]. destruct (unlink_kept j n0 Hji Hn0) as (nj & ? & Ho & _).
    exists nj. split; congruence.
Qed.

Lemma unlink_unlinked : unlinked (ref_nx (_nodes t)) (ref_nx ns') (_buckets t) bk' h i prev.
Proof.
  unfold unlinked, ref_nx. destruct prev as [b|].
  - destruct (Hprev b eq_refl) as [Hbi (nb & Hb & _)]. split; [done|]. split.
    + rewrite Hlook, decide_False, decide_True, Hb, Hi by done. done.
    + intros c Hcb Hci. rewrite Hlook, !decide_False by congruence. done.
  - exists (rnext nd). rewrite Hi. split; [done|]. split; [done|].
    intros c Hci. rewrite Hlook, !decide_False by congruence. done.
Qed.

Lemma unlink_chained :
  chained (ref_nx ns') (live ns') (home (_numofslots t) ns') bk'.
Proof.
  assert (Hhome : home (_numofslots t) (_nodes t) i = h) by (unfold home; by rewrite Hi).
  eapply (chained_iff _ _ (live ns') _ (home (_numofslots t) (_nodes t))); [done| |].
  - intros j Hj. split; [|done]. apply unlink_live in Hj as [Hji (n0 & Hn0 & _)].
    destruct (unlink_kept j n0 Hji Hn0) as (nj & Hj & Ho & _). unfold home. by rewrite Hj, Hn0, Ho.
  - eapply chained_unlink; [apply (ct_chained _ _ Hc)|by exists nd|by rewrite Hhome| |exact Hw
      |rewrite Hhome; apply unlink_unlinked|exact unlink_live].
    intros l _ Hnd Hl. by apply ref_chain_fuel.
Qed.

Lemma unlink_free :
  ∃ fl, is_chain (ref_nx ns') (Some i) fl ∧ NoDup fl ∧
    (Z.of_nat (length fl) = _numofslots t - (_slotused t - 1))%Z ∧
    ∀ j, j ∈ fl ↔ j < length ns' ∧ ¬ live ns' j.
Proof.
  destruct (ct_free _ _ Hc) as (fl & Hfl & Hnd & Hlen & Hmem).
  assert (Hlive : live (_nodes t) i) by (by exists nd).
  exists (i :: fl). split_and!.
  - apply is_chain_push with (_freelist t).
    { unfold ref_nx. by rewrite Hlook, decide_True by done. }
    eapply is_chain_ext; [|done]. intros j Hj. apply Hmem in Hj as [_ Hj]. unfold ref_nx.
    rewrite Hlook, !decide_False; [done| |]; [|congruence].
    intros Hpj. by destruct (Hprev j Hpj).
  - constructor; [|done]. rewrite Hmem. tauto.
  - simpl. lia.
  - intros j. rewrite elem_of_cons, Hmem, Hlen', unlink_live.
    pose proof (lookup_lt_Some _ _ _ Hi). destruct (decide (j = i)) as [->|]; tauto.
Qed.

Lemma unlink_counts :
  counts (mkRefTable (_numofslots t) (_slotused t - 1) ns' (Some i) bk') (delete (robj nd) m).
Proof.
  split; simpl.
  - apply (ct_pow _ _ Hc).
  - rewrite Hlen'. apply (ct_nodes _ _ Hc).
  - rewrite <- (ct_len _ _ Hc), Hbk. f_equal. destruct prev; [done|by rewrite length_insert].
  - apply unlink_chained.
  - apply unlink_free.
  - intros j nj Hj Hnj. destruct (decide (j = i)) as [->|Hji].
    + rewrite Hlook, decide_True in Hj by done. by simplify_eq.
    + destruct (unlink_other j nj Hji Hj) as (n0 & Hn0 & Ho & Hr). rewrite Ho, Hr.
      apply (ct_zero _ _ Hc j); [done|]. by rewrite <- Ho.
  - intros j k nj nk Hj Hk Hnj Heq.
    assert (live ns' j ∧ live ns' k) as [[Hji _]%unlink_live [Hki _]%unlink_live].
    { split; [by exists nj|exists nk; by rewrite <- Heq]. }
    destruct (unlink_other j nj Hji Hj) as (n0 & Hn0 & Ho0 & _).
    destruct (unlink_other k nk Hki Hk) as (n1 & Hn1 & Ho1 & _).
    eapply (ct_inj _ _ Hc); [done|done| |]; congruence.
  - intros o r. rewrite lookup_delete_Some. split.
    + intros [Hne Ho]. apply (ct_map _ _ Hc) in Ho as (j & n0 & Hj & <- & <- & Hnull).
      destruct (unlink_kept j n0) as (nj & Hnj & Ho & Hr); [congruence|done|].
      exists j, nj. done.
    + intros (j & nj & Hj & <- & <- & Hnull).
      assert (Hji : j ≠ i) by (apply unlink_live; by exists nj).
      destruct (unlink_other j nj Hji Hj) as (n0 & Hn0 & Ho & Hr). rewrite Ho, Hr in *. split.
      * intros Heq. apply Hji. symmetry. by eapply (ct_inj _ _ Hc).
      * by eapply counts_node.
  - intros o r Ho. apply lookup_delete_Some in Ho as [_ Ho]. by eapply (ct_refs _ _ Hc).
Qed.
End unlink.

Lemma AddRef_counts t m obj :
  counts t m → is_null obj = false → (default 0 (m !! obj) < 2 ^ 32 - 1)%Z →
  ∃ t', AddRef t obj = Ok t' ∧ counts t' (<[obj := (default 0 (m !! obj) + 1)%Z]> m).
Proof.
  intros Hc Hn Hr. unfold AddRef, Get.
  destruct (ct_pow _ _ Hc) as (e & He & Hpow).
  destruct (bucket_lookup (_buckets t) _ e (HashObj obj) He Hpow (ct_len _ _ Hc)) as [p Hp].
  rewrite Hp. simpl.
  destruct (Get_walk t m obj p Hc Hn Hp) as [(i & nd & prev & Hi & <- & Hm & -> & _)|[Hm ->]]; simpl.
  - rewrite Hm in *. simpl in *. rewrite Hi. simpl.
    pose proof (ct_refs _ _ Hc _ _ Hm). rewrite u32_small by lia.
    eexists. split; [done|]. apply set_refs_counts; [done|done|done|lia].
  - rewrite Hm in *. simpl in *.
    assert (∃ t1, (if (_numofslots t =? _slotused t)%Z then
             if bool_decide (_freelist t = None) then
               t' ← Resize t (_numofslots t * 2);
               Ok (t', bucket_of (_numofslots t') (HashObj obj))
             else Err AssertFail
           else Ok (t, bucket_of (_numofslots t) (HashObj obj)))
       = Ok (t1, bucket_of (_numofslots t1) (HashObj obj)) ∧ counts t1 m ∧
       (_slotused t1 < _numofslots t1)%Z) as (t1 & -> & Hc1 & Hsp).
    { destruct (ct_free _ _ Hc) as (fl & Hfl & _ & Hlen & _).
      destruct (Z.eqb_spec (_numofslots t) (_slotused t)) as [Hfull|].
      - destruct fl; simpl in Hlen; [|lia]. simpl in Hfl. rewrite bool_decide_eq_true_2 by done.
        destruct (Resize_counts t m Hc ltac:(done)) as (t1 & -> & ? & ?). simpl. eauto.
      - exists t. split; [done|]. split; [done|]. lia. }
    simpl. destruct (Add_counts t1 m obj 1 Hc1 Hm Hn) as (t2 & n & nd & -> & _ & _ & Hnd & Hz & Hc2);
      [done|done|]. simpl. rewrite Hnd. simpl. rewrite Hz. eexists. split; [done|]. exact Hc2.
Qed.

(** The nodes after [Release] has unlinked node [i], position by position. *)
Lemma Release_lookup ns i nd prev fl :
  ns !! i = Some nd → (∀ b, prev = Some b → b ≠ i ∧ live ns b) →
  let ns1 := <[i := set_refs 0 nd]> ns in
  let ns2 := match prev with Some b => alter (set_rnext (rnext nd)) b ns1 | None => ns1 end in
  let ns3 := <[i := mkRef sq_null 0 fl]> ns2 in
  length ns3 = length ns ∧
  ∀ j, ns3 !! j =
    if decide (j = i) then Some (mkRef sq_null 0 fl)
    else if decide (prev = Some j) then set_rnext (rnext nd) <$> ns !! j else ns !! j.
Proof.
  intros Hi Hprev. pose proof (lookup_lt_Some _ _ _ Hi) as Hlt.
  destruct prev as [b|]; simpl; rewrite ?length_insert, ?length_alter, ?length_insert;
    (split; [done|]); intros j; destruct (decide (j = i)) as [->|Hji].
  - rewrite list_lookup_insert_eq; [done|]. by rewrite length_alter, length_insert.
  - rewrite list_lookup_insert_ne by done. case_decide; simplify_eq.
    + rewrite list_lookup_alter_eq, list_lookup_insert_ne by done. done.
    + rewrite list_lookup_alter_ne, list_lookup_insert_ne by congruence. done.
  - rewrite list_lookup_insert_eq; [done|]. by rewrite length_insert.
  - rewrite !list_lookup_insert_ne by done. done.
Qed.

Lemma Release_counts t m obj r :
  counts t m → m !! obj = Some r →
  ∃ t', Release t obj = Ok (t', (r =? 1)%Z) ∧
    counts t' (if (r =? 1)%Z then delete obj m else <[obj := (r - 1)%Z]> m).
Proof.
  intros Hc Hr. pose proof (ct_refs _ _ Hc _ _ Hr) as Hpos.
  assert (Hn : is_null obj = false) by (by apply (ct_map _ _ Hc) in Hr as (? & ? & ? & ? & ? & ?)).
  unfold Release, Get. destruct (ct_pow _ _ Hc) as (e & He & Hpow).
  destruct (bucket_lookup (_buckets t) _ e (HashObj obj) He Hpow (ct_len _ _ Hc)) as [p Hp].
  rewrite Hp. simpl.
  destruct (Get_walk t m obj p Hc Hn Hp) as [(i & nd & prev & Hi & <- & Hm & Hw & Hprev)|[Hm _]];
    [|congruence].
  rewrite Hw. simpl. rewrite Hi. simpl. rewrite Hr in Hm. injection Hm as ->.
  rewrite u32_small by lia. destruct (Z.eqb_spec (refs nd) 1) as [H1|H1].
  - destruct (Z.eqb_spec (refs nd - 1) 0) as [H0|]; [|lia]. rewrite H0.
    destruct (Release_lookup (_nodes t) i nd prev (_freelist t) Hi Hprev) as [Hlen Hlook].
    destruct prev as [b|]; eexists; (split; [done|]); by eapply unlink_counts.
  - destruct (Z.eqb_spec (refs nd - 1) 0) as [|_]; [lia|]. eexists. split; [done|].
    apply set_refs_counts; [done|done|done|lia].
Qed.

Lemma Release_absent t m obj :
  counts t m → is_null obj = false → m !! obj = None → Release t obj = Err AssertFail.
Proof.
  intros Hc Hn Hm. unfold Release, Get. destruct (ct_pow _ _ Hc) as (e & He & Hpow).
  destruct (bucket_lookup (_buckets t) _ e (HashObj obj) He Hpow (ct_len _ _ Hc)) as [p Hp].
  rewrite Hp. simpl.
  destruct (Get_walk t m obj p Hc Hn Hp) as [(i & nd & prev & Hi & <- & Hm' & _)|[_ ->]]; [|done].
  congruence.
Qed.

End reftable.

(** ** Properties of the reference table *)

(** The calls a host program makes ([sq_addref], [sq_release]). *)
Inductive ref_op := OpAddRef (o : SQObject) | OpRelease (o : SQObject).

Definition run_op `{SQHeap} (t : RefTable) (op : ref_op) : res RefTable :=
  match op with
  | OpAddRef o => AddRef t o
  | OpRelease o => fst <$> Release t o
  end.

(** The counts the calls should leave; [None] for a release without a
    reference, a null object or a count that leaves 32 bits. *)
Definition spec_op (m : gmap SQObject Z) (op : ref_op) : option (gmap SQObject Z) :=
  match op with
  | OpAddRef o =>
      let r := default 0%Z (m !! o) in
      if is_null o || (2 ^ 32 - 1 <=? r)%Z then None else Some (<[o := (r + 1)%Z]> m)
  | OpRelease o =>
      match m !! o with
      | Some r => Some (if (r =? 1)%Z then delete o m else <[o := (r - 1)%Z]> m)
      | None => None
      end
  end.

Fixpoint spec_ops (m : gmap SQObject Z) (ops : list ref_op) : option (gmap SQObject Z) :=
  match ops with
  | [] => Some m
  | op :: ops' => m' ← spec_op m op; spec_ops m' ops'
  end.

Lemma run_ops_counts `{SQHeap} ops t m m' :
  counts t m → spec_ops m ops = Some m' →
  ∃ t', fold_res run_op ops t = Ok t' ∧ counts t' m'.
Proof.
  revert t m. induction ops as [|op ops IH]; intros t m Hc Hs; simpl in *; [simplify_eq; eauto|].
  destruct (spec_op m op) as [m1|] eqn:Hop; [|done]. simpl in Hs.
  assert (∃ t1, run_op t op = Ok t1 ∧ counts t1 m1) as (t1 & -> & Hc1); [|by eapply IH].
  destruct op as [o|o]; simpl in *.
  - destruct (is_null o) eqn:Hn; [done|]. simpl in Hop.
    destruct (Z.leb_spec (2 ^ 32 - 1) (default 0%Z (m !! o))); [done|]. injection Hop as <-.
    by apply AddRef_counts.
  - destruct (m !! o) as [r|] eqn:Hr; [|done]. injection Hop as <-.
    destruct (Release_counts t m o r Hc Hr) as (t1 & -> & ?). simpl. eauto.
Qed.

Lemma GetRefCount_counts `{SQHeap} t m obj r :
  counts t m → m !! obj = Some r → GetRefCount t obj = Ok (t, r).
Proof.
  intros Hc Hr. assert (Hn : is_null obj = false) by (by apply (ct_map _ _ Hc) in Hr as (? & ? & ? & ? & ? & ?)).
  unfold GetRefCount, Get. destruct (ct_pow _ _ Hc) as (e & He & Hpow).
  destruct (bucket_lookup (_buckets t) _ e (HashObj obj) He Hpow (ct_len _ _ Hc)) as [p Hp].
  rewrite Hp. simpl.
  destruct (Get_walk t m obj p Hc Hn Hp) as [(i & nd & prev & Hi & <- & Hm & -> & _)|[Hm _]];
    [|congruence].
  simpl. rewrite Hi. simpl. congruence.
Qed.

(** C17: after any sequence of [AddRef] and [Release] calls in which every
    release has a matching reference, no assertion of the table has failed (not
    those of [Resize] either), the count of every referenced object is the
    number of its additions minus its releases, [Release] answers [true]
    exactly when it drops the last reference, and a release without a reference
    is caught. *)
Theorem reftable_counts_references `{SQHeap} ops m :
  spec_ops ∅ ops = Some m →
  ∃ t, fold_res run_op ops empty_refs = Ok t ∧
    (∀ o r, m !! o = Some r →
       GetRefCount t o = Ok (t, r) ∧ ∃ t', Release t o = Ok (t', (r =? 1)%Z)) ∧
    (∀ o, is_null o = false → m !! o = None → Release t o = Err AssertFail).
Proof.
  intros Hs. destruct (run_ops_counts ops empty_refs ∅ m (AllocNodes_counts 2 ltac:(lia)) Hs)
    as (t & Hrun & Hc).
  exists t. split; [done|]. split.
  - intros o r Hr. split; [by eapply GetRefCount_counts|].
    destruct (Release_counts t m o r Hc Hr) as (t' & Hrel & _). eauto.
  - intros o Hn Ho. by eapply Release_absent.
Qed.

(** A heap for the witnesses. *)
Definition no_heap : SQHeap := {|
  string_hash := u32; string_val := λ _, []; weak_obj := λ _, sq_null; ub_float_cast := λ _, 0%Z
|}.

Definition obj_at (a : Z) : SQObject := mkObj OT_TABLE a.

Definition sample_ops : list ref_op :=
  [OpAddRef (obj_at 8); OpAddRef (obj_at 16); OpAddRef (obj_at 24); OpAddRef (obj_at 32);
   OpAddRef (obj_at 40); OpAddRef (obj_at 8); OpRelease (obj_at 16)].

Lemma reftable_counts_references_witness :
  ∃ t, fold_res (@run_op no_heap) sample_ops empty_refs = Ok t ∧
       @GetRefCount no_heap t (obj_at 8) = Ok (t, 2%Z).
Proof.
  assert (Hv : (spec_ops ∅ sample_ops ≫= lookup (obj_at 8)) = Some 2%Z) by (vm_compute; reflexivity).
  destruct (spec_ops ∅ sample_ops) as [m|] eqn:Hm; [|discriminate Hv].
  destruct (@reftable_counts_references no_heap sample_ops m Hm) as (t & Hrun & Hr & _).
  exists t. split; [exact Hrun|]. apply (Hr (obj_at 8) 2%Z). exact Hv.
Defined.

(** Asking for the count of an object without references inserts a node
    whose count is zero ([GetRefCount] passes [add = true] to [Get]); when the
    table later grows, the assertion [t->refs != 0] of [Resize] fails on it,
    although every [AddRef] was legal. *)
Lemma refcount_query_breaks_resize :
  let legal := [OpAddRef (obj_at 16); OpAddRef (obj_at 24); OpAddRef (obj_at 32); OpAddRef (obj_at 40)] in
  is_Some (spec_ops ∅ legal) ∧
  ('(t, n) ← @GetRefCount no_heap empty_refs (obj_at 8); Ok n) = Ok 0%Z ∧
  ('(t, n) ← @GetRefCount no_heap empty_refs (obj_at 8); fold_res (@run_op no_heap) legal t)
    = Err AssertFail.
Proof.
  intros legal. split; [|split; vm_compute; reflexivity].
  destruct (spec_ops ∅ legal) eqn:Hs; [by eexists|].
  assert (Hb : bool_decide (is_Some (spec_ops ∅ legal)) = true) by (vm_compute; reflexivity).
  by rewrite Hs in Hb.
Qed.
