(* ===== verification/SqLexer.v ===== *)
(** * The lexer (sqlexer.h, sqlexer.cpp)

    [SQLexer] reads characters one at a time from a read function and cuts them
    into tokens.  Its methods are functions on the record of its fields in the
    state monad of the prelude; [Error] leaves the computation with [Raised],
    as the compiler's [longjmp] does.  The keyword table is reached through the
    class [KeywordTable]. *)

From Stdlib Require Import Ascii.
From stdpp Require Import base numbers gmap strings option list.
From S2P Require Import Prelude CType SqObject.

(** ** Tokens (sqcompiler.h) *)

Definition TK_IDENTIFIER : Z := 258.
Definition TK_STRING_LITERAL : Z := 259.
Definition TK_INTEGER : Z := 260.
Definition TK_FLOAT : Z := 261.
Definition TK_EQ : Z := 264.
Definition TK_NE : Z := 265.
Definition TK_LE : Z := 266.
Definition TK_GE : Z := 267.
Definition TK_AND : Z := 270.
Definition TK_OR : Z := 271.
Definition TK_NEWSLOT : Z := 281.
Definition TK_PLUSEQ : Z := 289.
Definition TK_MINUSEQ : Z := 290.
Definition TK_SHIFTL : Z := 296.
Definition TK_SHIFTR : Z := 297.
Definition TK_DOUBLE_COLON : Z := 299.
Definition TK_PLUSPLUS : Z := 303.
Definition TK_MINUSMINUS : Z := 304.
Definition TK_3WAYSCMP : Z := 305.
Definition TK_USHIFTR : Z := 306.
Definition TK_CONSTRUCTOR : Z := 310.
Definition TK_VARPARAMS : Z := 312.
Definition TK_MULEQ : Z := 317.
Definition TK_DIVEQ : Z := 318.
Definition TK_MODEQ : Z := 319.
Definition TK_ATTR_OPEN : Z := 320.
Definition TK_ATTR_CLOSE : Z := 321.

(** The keywords [SQLexer::Init] adds, with their tokens. *)
Definition keywords : list (string * Z) :=
  [("while", 274); ("do", 277); ("if", 272); ("else", 273); ("break", 275); ("continue", 291);
   ("return", 286); ("null", 278); ("function", 285); ("local", 283); ("for", 276);
   ("foreach", 279); ("in", 280); ("typeof", 287); ("base", 262); ("delete", 263); ("try", 293);
   ("catch", 294); ("throw", 295); ("clone", 284); ("yield", 292); ("resume", 298);
   ("switch", 268); ("case", 300); ("default", 301); ("this", 302); ("class", 307);
   ("extends", 308); ("constructor", 310); ("instanceof", 311); ("true", 315); ("false", 316);
   ("static", 322); ("enum", 323); ("const", 324); ("__LINE__", 313); ("__FILE__", 314);
   ("rawcall", 325)]%Z.

(** The token of a keyword. *)
Definition keyword_code (s : list ascii) : option Z :=
  (λ p, p.2.2) <$> list_find (λ kw, String.list_ascii_of_string kw.1 = s) keywords.

(** What the lexer relies on of its keyword table: a lookup by NUL-terminated
    characters and their number that knows exactly the keywords.  [_keywords->GetStr] of the real table is shown
    to do this in SqKeywords.v. *)
Class KeywordTable := {
  kw_GetStr : list ascii → Z → res (option SQObject);
  kw_GetStr_spec s :
    Ascii.zero ∉ s →
    kw_GetStr (s ++ [Ascii.zero]) (Z.of_nat (length s)) = Ok (sq_int <$> keyword_code s)
}.

(** The conversion of a numeral to a [float]: [(SQFloat)strtod(s, 0)], as the
    bits of the result. *)
Class FloatReader := { strtod : list ascii → Z }.

(** ** State *)

(** [input] is what [_readf] still has to give; it gives 0 when there is no
    more.  [_svalue] points at [_longstr] once it has been set. *)
Record SQLexer := mkLexer {
  input : list Z;
  _currdata : Z;
  _curtoken : Z;
  _prevtoken : Z;
  _currentline : Z;
  _lasttokenline : Z;
  _currentcolumn : Z;
  _reached_eof : bool;
  _longstr : list ascii;
  _svalue : bool;
  _nvalue : Z;
  _fvalue : Z
}.

Definition lexM : Type → Type := stM SQLexer.

Definition set_char (i : list Z) (c : Z) (eof : bool) (l : SQLexer) : SQLexer :=
  mkLexer i c (_curtoken l) (_prevtoken l) (_currentline l) (_lasttokenline l) (_currentcolumn l)
          eof (_longstr l) (_svalue l) (_nvalue l) (_fvalue l).
Definition set_tokens (cur prev : Z) (l : SQLexer) : SQLexer :=
  mkLexer (input l) (_currdata l) cur prev (_currentline l) (_lasttokenline l) (_currentcolumn l)
          (_reached_eof l) (_longstr l) (_svalue l) (_nvalue l) (_fvalue l).
Definition set_pos (line lastline col : Z) (l : SQLexer) : SQLexer :=
  mkLexer (input l) (_currdata l) (_curtoken l) (_prevtoken l) line lastline col
          (_reached_eof l) (_longstr l) (_svalue l) (_nvalue l) (_fvalue l).
Definition set_longstr (s : list ascii) (l : SQLexer) : SQLexer :=
  mkLexer (input l) (_currdata l) (_curtoken l) (_prevtoken l) (_currentline l) (_lasttokenline l)
          (_currentcolumn l) (_reached_eof l) s (_svalue l) (_nvalue l) (_fvalue l).
Definition set_values (sv : bool) (nv fv : Z) (l : SQLexer) : SQLexer :=
  mkLexer (input l) (_currdata l) (_curtoken l) (_prevtoken l) (_currentline l) (_lasttokenline l)
          (_currentcolumn l) (_reached_eof l) (_longstr l) sv nv fv.

Definition scisodigit (c : Z) : bool := in_range c "0" "7".
Definition isexponent (c : Z) : bool := isc c "e" || isc c "E".

(** ** Reading characters *)

Definition SQUIRREL_EOB : Z := 0.
Definition MAX_CHAR : Z := 255.

Definition dquote : string := String.String "034" String.EmptyString.

(** [SQLexer::Error] *)
Definition Error {A} (err : string) : lexM A := raise (Raised err).

(** [SQLexer::Next] *)
Definition Next : lexM () := λ l,
  match input l with
  | [] => Ok ((), set_char [] SQUIRREL_EOB true l)
  | t :: i =>
      if (MAX_CHAR <? t)%Z then Error "Invalid character" l
      else if negb (t =? 0)%Z then Ok ((), set_char i (u8 t) (_reached_eof l) l)
      else Ok ((), set_char i SQUIRREL_EOB true l)
  end.

(** The macros [CUR_CHAR], [NEXT], [IS_EOB], [INIT_TEMP_STRING], [APPEND_CHAR],
    [TERMINATE_BUFFER]. *)
Definition CUR_CHAR : lexM Z := gets _currdata.
Definition NEXT : lexM () :=
  Next;; modify (λ l, set_pos (_currentline l) (_lasttokenline l) (_currentcolumn l + 1) l).
Definition IS_EOB : lexM bool := c ← CUR_CHAR; mret (c <=? SQUIRREL_EOB)%Z.
Definition INIT_TEMP_STRING : lexM () := modify (set_longstr []).
Definition APPEND_CHAR (c : Z) : lexM () := modify (λ l, set_longstr (_longstr l ++ [code_char c]) l).
Definition TERMINATE_BUFFER : lexM () := APPEND_CHAR 0.
Definition incr_line : lexM () :=
  modify (λ l, set_pos (_currentline l + 1) (_lasttokenline l) (_currentcolumn l) l).

(** The bound for loops that consume a character at each turn. *)
Definition chars_left : lexM nat := gets (λ l : SQLexer, S (S (length (input l)))).

(** [SQLexer::LexLineComment] *)
Fixpoint line_comment_loop (fuel : nat) : lexM () :=
  match fuel with
  | O => raise OutOfFuel
  | S f =>
      NEXT;;
      c ← CUR_CHAR;
      eob ← IS_EOB;
      if negb (isc c "010") && negb eob then line_comment_loop f else mret ()
  end.

Definition LexLineComment : lexM () := f ← chars_left; line_comment_loop f.

(** [SQLexer::LexBlockComment] *)
Fixpoint block_comment_loop (fuel : nat) : lexM () :=
  match fuel with
  | O => raise OutOfFuel
  | S f =>
      c ← CUR_CHAR;
      if isc c "*" then
        NEXT;;
        c ← CUR_CHAR;
        if isc c "/" then NEXT else block_comment_loop f
      else if isc c "010" then incr_line;; NEXT;; block_comment_loop f
      else if (c =? SQUIRREL_EOB)%Z then Error ("missing " +:+ dquote +:+ "*/" +:+ dquote +:+ " in comment")
      else NEXT;; block_comment_loop f
  end.

Definition LexBlockComment : lexM () := f ← chars_left; block_comment_loop f.

(** ** Strings *)

(** [SQLexer::AddUTF8]: how many bytes were appended. *)
Definition AddUTF8 (ch : Z) : lexM Z :=
  if (ch <? 0x80)%Z then
    APPEND_CHAR ch;; mret 1%Z
  else if (ch <? 0x800)%Z then
    APPEND_CHAR (Z.lor (Z.shiftr ch 6) 0xC0);;
    APPEND_CHAR (Z.lor (Z.land ch 0x3F) 0x80);; mret 2%Z
  else if (ch <? 0x10000)%Z then
    APPEND_CHAR (Z.lor (Z.shiftr ch 12) 0xE0);;
    APPEND_CHAR (Z.lor (Z.land (Z.shiftr ch 6) 0x3F) 0x80);;
    APPEND_CHAR (Z.lor (Z.land ch 0x3F) 0x80);; mret 3%Z
  else if (ch <? 0x110000)%Z then
    APPEND_CHAR (Z.lor (Z.shiftr ch 18) 0xF0);;
    APPEND_CHAR (Z.lor (Z.land (Z.shiftr ch 12) 0x3F) 0x80);;
    APPEND_CHAR (Z.lor (Z.land (Z.shiftr ch 6) 0x3F) 0x80);;
    APPEND_CHAR (Z.lor (Z.land ch 0x3F) 0x80);; mret 4%Z
  else mret 0%Z.

(** The loop of [SQLexer::ProcessStringHexEscape]: the digits it stores. *)
Fixpoint hex_escape_loop (maxdigits : nat) (dest : list Z) : lexM (list Z) :=
  match maxdigits with
  | O => mret dest
  | S n =>
      c ← CUR_CHAR;
      if isxdigit c then NEXT;; hex_escape_loop n (dest ++ [c]) else mret dest
  end.

Definition ProcessStringHexEscape (maxdigits : nat) : lexM (list Z) :=
  NEXT;;
  c ← CUR_CHAR;
  when (negb (isxdigit c)) (Error "hexadecimal number expected");;
  hex_escape_loop maxdigits [].

(** [strtoul(temp, &stemp, 16)] on at most eight digits. *)
Definition hex_digit (c : Z) : Z := (if isdigit c then c - 48 else toupper c - 65 + 10)%Z.
Definition strtoul16 (temp : list Z) : Z := foldl (λ r c, r * 16 + hex_digit c)%Z 0%Z temp.

(** The escapes that stand for one character. *)
Definition simple_escape (c : Z) : option Z :=
  if isc c "t" then Some 9%Z else if isc c "a" then Some 7%Z
  else if isc c "b" then Some 8%Z else if isc c "n" then Some 10%Z
  else if isc c "r" then Some 13%Z else if isc c "v" then Some 11%Z
  else if isc c "f" then Some 12%Z else if isc c "0" then Some 0%Z
  else if isc c "\" then Some (char_code "\") else if isc c "034" then Some (char_code "034")
  else if isc c "'" then Some (char_code "'") else None.

(** The inner [switch], after the backslash. *)
Definition read_escape : lexM () :=
  c ← CUR_CHAR;
  if isc c "x" then
    temp ← ProcessStringHexEscape 2;
    APPEND_CHAR (strtoul16 temp)
  else if isc c "U" || isc c "u" then
    temp ← ProcessStringHexEscape (if isc c "u" then 4 else 8);
    AddUTF8 (strtoul16 temp);;
    mret ()
  else
    match simple_escape c with
    | Some e => APPEND_CHAR e;; NEXT
    | None => Error "unrecognised escaper char"
    end.

(** One character of the string: the outer [switch]. *)
Definition read_string_char (verbatim : bool) : lexM () :=
  x ← CUR_CHAR;
  if (x =? SQUIRREL_EOB)%Z then Error "unfinished string"
  else if isc x "010" then
    when (negb verbatim) (Error "newline in a constant");;
    APPEND_CHAR x;; NEXT;; incr_line
  else if isc x "\" then
    if verbatim then APPEND_CHAR (char_code "\");; NEXT
    else NEXT;; read_escape
  else APPEND_CHAR x;; NEXT.

(** The loops of [SQLexer::ReadString], up to the closing delimiter. *)
Fixpoint read_string_loop (fuel : nat) (ndelim : Z) (verbatim : bool) : lexM () :=
  match fuel with
  | O => raise OutOfFuel
  | S f =>
      c ← CUR_CHAR;
      if negb (c =? ndelim)%Z then
        read_string_char verbatim;; read_string_loop f ndelim verbatim
      else
        NEXT;;
        c ← CUR_CHAR;
        if verbatim && isc c "034" then
          APPEND_CHAR c;; NEXT;; read_string_loop f ndelim verbatim
        else mret ()
  end.

(** [SQLexer::ReadString] *)
Definition ReadString (ndelim : Z) (verbatim : bool) : lexM Z :=
  INIT_TEMP_STRING;;
  NEXT;;
  eob ← IS_EOB;
  if (eob : bool) then mret (-1)%Z
  else
    f ← chars_left;
    read_string_loop f ndelim verbatim;;
    TERMINATE_BUFFER;;
    len ← gets (λ l : SQLexer, Z.of_nat (length (_longstr l)) - 1)%Z;
    if (ndelim =? char_code "'")%Z then
      when (len =? 0)%Z (Error "empty constant");;
      when (1 <? len)%Z (Error "constant too long");;
      c ← gets (λ l : SQLexer, match _longstr l with c :: _ => char_code c | [] => 0%Z end);
      modify (λ l, set_values (_svalue l) c (_fvalue l) l);;
      mret TK_INTEGER
    else
      modify (λ l, set_values true (_nvalue l) (_fvalue l) l);;
      mret TK_STRING_LITERAL.

(** ** Numbers *)

(** [LexHexadecimal], [LexInteger], [LexOctal]: unsigned 32-bit arithmetic. *)
Definition LexHexadecimal (s : list ascii) : res Z :=
  fold_res (λ r c, let z := char_code c in
      if isdigit z then Ok (u32 (r * 16 + (z - 48)))%Z
      else if isxdigit z then Ok (u32 (r * 16 + (toupper z - 65 + 10)))%Z
      else Err AssertFail) (c_str s) 0%Z.

Definition LexInteger (s : list ascii) : Z :=
  foldl (λ r c, u32 (r * 10 + (char_code c - 48)))%Z 0%Z (c_str s).

Definition LexOctal (s : list ascii) : res Z :=
  fold_res (λ r c, if scisodigit (char_code c) then Ok (u32 (r * 8 + (char_code c - 48)))%Z
                   else Err AssertFail) (c_str s) 0%Z.

Inductive numtype := TINT | TFLOAT | THEX | TSCIENTIFIC | TOCTAL.

#[export] Instance numtype_eq_dec : EqDecision numtype.
Proof. solve_decision. Defined.

Definition MAX_HEX_DIGITS : nat := 8.

(** A loop [while(P(CUR_CHAR)) { APPEND_CHAR(CUR_CHAR); NEXT(); }]. *)
Fixpoint append_while (P : Z → bool) (fuel : nat) : lexM () :=
  match fuel with
  | O => raise OutOfFuel
  | S f =>
      c ← CUR_CHAR;
      if P c then APPEND_CHAR c;; NEXT;; append_while P f else mret ()
  end.

(** The loop of [SQLexer::ReadNumber] on decimal numbers. *)
Fixpoint number_loop (fuel : nat) (type : numtype) : lexM numtype :=
  match fuel with
  | O => raise OutOfFuel
  | S f =>
      c ← CUR_CHAR;
      if isc c "." || isdigit c || isexponent c then
        let type := if isc c "." || isexponent c then TFLOAT else type in
        type ← (if isexponent c then
                  when (bool_decide (type ≠ TFLOAT)) (Error "invalid numeric format");;
                  APPEND_CHAR c;; NEXT;;
                  c ← CUR_CHAR;
                  when (isc c "+" || isc c "-") (APPEND_CHAR c;; NEXT);;
                  c ← CUR_CHAR;
                  when (negb (isdigit c)) (Error "exponent expected");;
                  mret TSCIENTIFIC
                else mret type);
        c ← CUR_CHAR;
        APPEND_CHAR c;; NEXT;;
        number_loop f type
      else mret type
  end.

Section lexer.
Context {KT : KeywordTable} {FR : FloatReader}.

Definition set_nvalue (n : Z) : lexM () := modify (λ l, set_values (_svalue l) (s32 n) (_fvalue l) l).

(** [SQLexer::ReadNumber] *)
Definition ReadNumber : lexM Z :=
  firstchar ← CUR_CHAR;
  INIT_TEMP_STRING;;
  NEXT;;
  c ← CUR_CHAR;
  f ← chars_left;
  type ← (if isc firstchar "0" && (isc (toupper c) "X" || scisodigit c) then
            if scisodigit c then
              append_while scisodigit f;;
              c ← CUR_CHAR;
              when (isdigit c) (Error "invalid octal number");;
              mret TOCTAL
            else
              NEXT;;
              append_while isxdigit f;;
              n ← gets (λ l : SQLexer, length (_longstr l));
              when (bool_decide (MAX_HEX_DIGITS < n)) (Error "too many digits for an Hex number");;
              mret THEX
          else
            APPEND_CHAR firstchar;;
            number_loop f TINT);
  TERMINATE_BUFFER;;
  s ← gets _longstr;
  match (type : numtype) with
  | TSCIENTIFIC | TFLOAT => modify (λ l, set_values (_svalue l) (_nvalue l) (strtod s) l);; mret TK_FLOAT
  | TINT => set_nvalue (LexInteger s);; mret TK_INTEGER
  | THEX => n ← lift (LexHexadecimal s); set_nvalue n;; mret TK_INTEGER
  | TOCTAL => n ← lift (LexOctal s); set_nvalue n;; mret TK_INTEGER
  end.

(** ** Identifiers *)

(** [SQLexer::GetIDType] *)
Definition GetIDType (s : list ascii) (len : Z) : res Z :=
  t ← kw_GetStr s len;
  Ok (match (t : option SQObject) with Some o => _integer o | None => TK_IDENTIFIER end).

(** [SQLexer::ReadID] *)
Definition ReadID : lexM Z :=
  INIT_TEMP_STRING;;
  c ← CUR_CHAR;
  APPEND_CHAR c;;
  NEXT;;
  f ← chars_left;
  append_while (λ c, isalnum c || isc c "_") f;;
  TERMINATE_BUFFER;;
  s ← gets _longstr;
  res ← lift (GetIDType s (Z.of_nat (length s) - 1));
  when ((res =? TK_IDENTIFIER) || (res =? TK_CONSTRUCTOR))%Z
    (modify (λ l, set_values true (_nvalue l) (_fvalue l) l));;
  mret res.

(** ** [SQLexer::Lex] *)

Definition RETURN_TOKEN (t : Z) : lexM (option Z) :=
  modify (λ l, set_tokens t (_curtoken l) l);; mret (Some t).
Definition continue : lexM (option Z) := mret None.

(** The tail [if (CUR_CHAR == a) { NEXT(); RETURN_TOKEN(t); } else ...]. *)
Definition if_next (a : ascii) (t : Z) (otherwise : lexM (option Z)) : lexM (option Z) :=
  c ← CUR_CHAR;
  if isc c a then NEXT;; RETURN_TOKEN t else otherwise.

Definition tok (a : ascii) : lexM (option Z) := RETURN_TOKEN (char_code a).

(** The characters that are tokens by themselves. *)
Definition single_chars : list ascii :=
  ["{"; "}"; "("; ")"; "["; "]"; ";"; ","; "?"; "^"; "~"]%char.

(** One turn of the loop: [None] to go on, or the token. *)
Definition lex_turn : lexM (option Z) :=
  c ← CUR_CHAR;
  if isc c "009" || isc c "013" || isc c " " then NEXT;; continue
  else if isc c "010" then
    incr_line;;
    modify (λ l, set_tokens (char_code "010") (_curtoken l) l);;
    NEXT;;
    modify (λ l, set_pos (_currentline l) (_lasttokenline l) 1 l);;
    continue
  else if isc c "#" then LexLineComment;; continue
  else if isc c "/" then
    NEXT;;
    c ← CUR_CHAR;
    if isc c "*" then NEXT;; LexBlockComment;; continue
    else if isc c "/" then LexLineComment;; continue
    else if_next "=" TK_DIVEQ (if_next ">" TK_ATTR_CLOSE (tok "/"))
  else if isc c "=" then NEXT;; if_next "=" TK_EQ (tok "=")
  else if isc c "<" then
    NEXT;;
    c ← CUR_CHAR;
    if isc c "=" then NEXT;; if_next ">" TK_3WAYSCMP (RETURN_TOKEN TK_LE)
    else if_next "-" TK_NEWSLOT (if_next "<" TK_SHIFTL (if_next "/" TK_ATTR_OPEN (tok "<")))
  else if isc c ">" then
    NEXT;;
    c ← CUR_CHAR;
    if isc c "=" then NEXT;; RETURN_TOKEN TK_GE
    else if isc c ">" then NEXT;; if_next ">" TK_USHIFTR (RETURN_TOKEN TK_SHIFTR)
    else tok ">"
  else if isc c "!" then NEXT;; if_next "=" TK_NE (tok "!")
  else if isc c "@" then
    NEXT;;
    c ← CUR_CHAR;
    if negb (isc c "034") then tok "@"
    else
      stype ← ReadString (char_code "034") true;
      if negb (stype =? -1)%Z then RETURN_TOKEN stype else Error "error parsing the string"
  else if isc c "034" || isc c "'" then
    stype ← ReadString c false;
    if negb (stype =? -1)%Z then RETURN_TOKEN stype else Error "error parsing the string"
  else if existsb (isc c) single_chars then NEXT;; RETURN_TOKEN c
  else if isc c "." then
    NEXT;;
    c ← CUR_CHAR;
    if negb (isc c ".") then tok "."
    else
      NEXT;;
      c ← CUR_CHAR;
      when (negb (isc c ".")) (Error "invalid token '..'");;
      NEXT;; RETURN_TOKEN TK_VARPARAMS
  else if isc c "&" then NEXT;; if_next "&" TK_AND (tok "&")
  else if isc c "|" then NEXT;; if_next "|" TK_OR (tok "|")
  else if isc c ":" then NEXT;; if_next ":" TK_DOUBLE_COLON (tok ":")
  else if isc c "*" then NEXT;; if_next "=" TK_MULEQ (tok "*")
  else if isc c "%" then NEXT;; if_next "=" TK_MODEQ (tok "%")
  else if isc c "-" then NEXT;; if_next "=" TK_MINUSEQ (if_next "-" TK_MINUSMINUS (tok "-"))
  else if isc c "+" then NEXT;; if_next "=" TK_PLUSEQ (if_next "+" TK_PLUSPLUS (tok "+"))
  else if isdigit c then ret ← ReadNumber; RETURN_TOKEN ret
  else if isalpha c || isc c "_" then t ← ReadID; RETURN_TOKEN t
  else
    when (iscntrl c) (Error "unexpected character(control)");;
    NEXT;; RETURN_TOKEN c.

Fixpoint lex_loop (fuel : nat) : lexM Z :=
  match fuel with
  | O => raise OutOfFuel
  | S f =>
      c ← CUR_CHAR;
      if (c =? SQUIRREL_EOB)%Z then mret 0%Z
      else
        r ← lex_turn;
        match (r : option Z) with
        | Some t => mret t
        | None => lex_loop f
        end
  end.

Definition Lex : lexM Z :=
  modify (λ l, set_pos (_currentline l) (_currentline l) (_currentcolumn l) l);;
  f ← chars_left;
  lex_loop f.

(** [SQLexer::Init]; the constructor leaves [_curtoken] and the value fields
    uninitialised, [junk] is what they hold. *)
Definition Init (rg : list Z) (junk : Z) : res SQLexer :=
  snd <$> Next (mkLexer rg 0 junk (-1) 1 1 0 false [] false junk junk).

(** A client of the lexer: the tokens up to the end, with the value the compiler
    reads for them (it copies [_svalue] before the next token) and the line. *)
Inductive tvalue := VNone | VString (s : list ascii) | VInt (n : Z) | VFloat (f : Z).

Record token := mkToken { tk : Z; tk_value : tvalue; tk_line : Z }.

Definition token_of (t : Z) (l : SQLexer) : token :=
  mkToken t
    (if (t =? TK_IDENTIFIER) || (t =? TK_STRING_LITERAL) || (t =? TK_CONSTRUCTOR)
     then VString (removelast (_longstr l))
     else if t =? TK_INTEGER then VInt (_nvalue l)
     else if t =? TK_FLOAT then VFloat (_fvalue l)
     else VNone)%Z
    (_currentline l).

Fixpoint lex_all (fuel : nat) : lexM (list token) :=
  match fuel with
  | O => raise OutOfFuel
  | S f =>
      t ← Lex;
      if (t =? 0)%Z then mret []
      else x ← gets (token_of t); rest ← lex_all f; mret (x :: rest)
  end.

End lexer.
