(* ===== verification/SqLexerSpec.v ===== *)
(** * Correctness of the lexer

    First part: on every input the lexer comes to an end, its assertions hold
    and its line counter counts the newlines.  The proofs follow the code with
    one hypothesis [adv k l0 l]: since state [l0] the lexer has consumed at least
    [k] characters and accounted for every newline among them. *)

From Stdlib Require Import Ascii.
From stdpp Require Import base numbers gmap strings option list.
From S2P Require Import Prelude CType SqObject SqLexer.

Local Open Scope Z_scope.

(** ** Progress *)

(** Newlines among values still to be read. *)
Definition nl (l : list Z) : Z := Z.of_nat (length (filter (λ t, u8 t = 10) l)).

Lemma nl_cons t l : nl (t :: l) = (if decide (u8 t = 10) then 1 else 0) + nl l.
Proof. unfold nl. rewrite filter_cons. case_decide; simpl length; lia. Qed.

Lemma nl_app l1 l2 : nl (l1 ++ l2) = nl l1 + nl l2.
Proof. unfold nl. rewrite filter_app, length_app. lia. Qed.

(** The line number plus the newlines still ahead. *)
Definition lines (l : SQLexer) : Z := _currentline l + nl (_currdata l :: input l).

Definition ahead (l : SQLexer) : nat :=
  (length (input l) + if (_currdata l =? 0)%Z then 0 else 1)%nat.

(** The characters that no token has taken yet, the current one first. *)
Definition untaken (l : SQLexer) : list Z :=
  (if _currdata l =? 0 then [] else [_currdata l]) ++ (u8 <$> input l).

Lemma untaken_length l : length (untaken l) = ahead l.
Proof. unfold untaken, ahead. rewrite length_app, length_fmap. destruct (_currdata l =? 0); simpl; lia. Qed.

(** [l] is at the place of [l0] or behind it. *)
Definition behind (l l0 : SQLexer) : Prop := input l `suffix_of` input l0 ∧ untaken l `suffix_of` untaken l0.
#[export] Instance behind_preorder : PreOrder behind.
Proof. split; [by intros l; split|]. intros l1 l2 l3 [H1 H2] [H3 H4]. by split; etrans. Qed.

(** [d] is the debt: newlines counted but not passed yet, or the reverse. *)
Record adv (d : Z) (k : nat) (l0 l : SQLexer) : Prop := {
  adv_left : (ahead l + k ≤ ahead l0)%nat;
  adv_lines : lines l = lines l0 + d;
  adv_behind : behind l l0;
  adv_byte : 0 ≤ _currdata l < 256
}.

Lemma adv_refl l : 0 ≤ _currdata l < 256 → adv 0 0 l l.
Proof. intros. split; [lia|lia|done|done]. Qed.

Lemma adv_weaken d k k' l0 l : adv d k l0 l → (k' ≤ k)%nat → adv d k' l0 l.
Proof. intros [H1 H2 H3 H4] Hk. split; [lia|done|done|done]. Qed.

Lemma adv_trans d k k' l0 l1 l2 : adv d k l0 l1 → adv 0 k' l1 l2 → adv d (k + k') l0 l2.
Proof. intros [H1 H2 H3 H4] [K1 K2 K3 K4]. split; [lia|lia|by etrans|done]. Qed.

(** A change of the lexer that reads nothing. *)
Definition same_place (l l' : SQLexer) : Prop :=
  input l' = input l ∧ _currdata l' = _currdata l ∧ _currentline l' = _currentline l.

Lemma adv_same d k l0 l l' : adv d k l0 l → same_place l l' → adv d k l0 l'.
Proof.
  intros [H1 H2 H3 H4] (Hi & Hc & Hl). split.
  - unfold ahead in *. by rewrite Hi, Hc.
  - unfold lines in *. by rewrite Hi, Hc, Hl.
  - unfold behind, untaken in *. by rewrite Hi, Hc.
  - by rewrite Hc.
Qed.

Lemma isc_true c a : isc c a = true ↔ c = char_code a.
Proof. unfold isc. apply Z.eqb_eq. Qed.

Lemma u8_byte c : 0 ≤ c < 256 → u8 c = c.
Proof. intros. by apply (wrap_small 8). Qed.

(** [NEXT] consumes a character; a newline it leaves behind is not counted. *)
Lemma NEXT_consumes l :
  0 ≤ _currdata l < 256 → _currdata l ≠ 0 →
  safe NEXT l (λ _ l', (S (ahead l') ≤ ahead l)%nat ∧
    lines l' = lines l - (if decide (_currdata l = 10) then 1 else 0) ∧
    behind l' l ∧ 0 ≤ _currdata l' < 256 ∧
    _longstr l' = _longstr l ∧ _currentline l' = _currentline l).
Proof.
  intros Hb H0. unfold safe, NEXT, mbind, stM_bind, Next, modify, lines, ahead, behind, untaken.
  rewrite nl_cons, u8_byte by done. destruct (Z.eqb_spec (_currdata l) 0) as [|_]; [done|].
  destruct (input l) as [|t i]; simpl.
  - split_and!; [lia|rewrite nl_cons; simpl; lia|done|by apply suffix_cons_r|done..].
  - destruct (Z.ltb_spec MAX_CHAR t); [done|]. destruct (Z.eqb_spec t 0) as [->|Ht]; simpl.
    + split_and!; [lia|rewrite !nl_cons; simpl; lia|by apply suffix_cons_r|by do 2 apply suffix_cons_r|done..].
    + pose proof (wrap_range 8 t ltac:(done)) as Ht8. fold (u8 t) in Ht8. change (2 ^ 8) with 256 in Ht8.
      split_and!; [destruct (u8 t =? 0); lia| |by apply suffix_cons_r| |lia|lia|done|done];
        [|destruct (u8 t =? 0); [by do 2 apply suffix_cons_r|by apply suffix_cons_r]].
      rewrite !nl_cons, (u8_byte (u8 t)) by done. lia.
Qed.

(** One character, which is not a newline. *)
Lemma NEXT_ok d k l0 l :
  adv d k l0 l → _currdata l ≠ 10 → _currdata l ≠ 0 →
  safe NEXT l (λ _ l', adv d (S k) l0 l' ∧ _longstr l' = _longstr l).
Proof.
  intros [H1 H2 H3 H4] H10 H0. eapply safe_mono; [by apply NEXT_consumes|cbv beta].
  intros _ l' (Hl & Hn & Hs & Hb & Hg & _). rewrite decide_False in Hn by done. split; [|done].
  split; [lia|lia|by etrans|done].
Qed.

(** The same, with what is left for a loop whose bound was taken before. *)
Lemma NEXT_ahead d k l0 l :
  adv d k l0 l → _currdata l ≠ 10 → _currdata l ≠ 0 →
  safe NEXT l (λ _ l', adv d (S k) l0 l' ∧ _longstr l' = _longstr l ∧ (ahead l' < ahead l)%nat).
Proof.
  intros [H1 H2 H3 H4] H10 H0. eapply safe_mono; [by apply NEXT_consumes|cbv beta].
  intros _ l' (Hl & Hn & Hs & Hb & Hg & _). rewrite decide_False in Hn by done.
  split; [|split; [done|lia]]. split; [lia|lia|by etrans|done].
Qed.

(** A newline: its line has been counted, or is counted next. *)
Lemma NEXT_newline d k l0 l :
  adv d k l0 l → _currdata l = 10 →
  safe NEXT l (λ _ l', adv (d - 1) (S k) l0 l' ∧ _longstr l' = _longstr l).
Proof.
  intros [H1 H2 H3 H4] H10. eapply safe_mono; [apply NEXT_consumes; [done|lia]|cbv beta].
  intros _ l' (Hl & Hn & Hs & Hb & Hg & _). rewrite decide_True in Hn by done. split; [|done].
  split; [lia|lia|by etrans|done].
Qed.

Lemma incr_line_ok d k l0 l :
  adv d k l0 l →
  safe incr_line l (λ _ l', adv (d + 1) k l0 l' ∧ _currdata l' = _currdata l ∧ _longstr l' = _longstr l).
Proof.
  intros [H1 H2 H3 H4]. apply safe_modify. split; [|done]. split; [done| |done|done].
  unfold lines in *. simpl. lia.
Qed.

(** The number of characters ahead bounds the loops. *)
Lemma chars_left_ok l (Q : nat → SQLexer → Prop) :
  Q (S (S (length (input l)))) l → safe chars_left l Q.
Proof. done. Qed.

Lemma ahead_bound l : (ahead l ≤ S (length (input l)))%nat.
Proof. unfold ahead. destruct (_currdata l =? 0); lia. Qed.

(** Following the code: split binds, evaluate reads, take both branches of a
    test, leave the rest to the lemma of the callee. *)
Ltac lex_step :=
  lazymatch goal with
  | |- safe (_ ≫= _) _ _ => apply safe_bind
  | |- safe CUR_CHAR _ _ => apply safe_gets
  | |- safe (gets _) _ _ => apply safe_gets
  | |- safe (Error _) _ _ => apply safe_raised
  | |- safe (when _ _) _ _ => apply safe_when; intros ?
  | |- safe (mret _) _ _ => apply safe_ret
  | |- safe continue _ _ => apply safe_ret
  | |- safe IS_EOB _ _ => unfold IS_EOB
  | |- safe chars_left _ _ => apply chars_left_ok
  | |- safe (if ?b then _ else _) _ _ => destruct b eqn:?
  end.
Ltac lex_steps := repeat lex_step.

(** What a test says of the current character. *)
Ltac char_facts :=
  repeat match goal with
  | H : (_ && _) = true |- _ => apply andb_true_iff in H as [? ?]
  | H : (_ || _) = false |- _ => apply orb_false_iff in H as [? ?]
  | H : negb _ = true |- _ => apply negb_true_iff in H
  | H : negb _ = false |- _ => apply negb_false_iff in H
  | H : isc _ _ = true |- _ => apply Z.eqb_eq in H
  | H : isc _ _ = false |- _ => apply Z.eqb_neq in H
  | H : (_ =? _) = true |- _ => apply Z.eqb_eq in H
  | H : (_ =? _) = false |- _ => apply Z.eqb_neq in H
  | H : (_ <=? _) = true |- _ => apply Z.leb_le in H
  | H : (_ <=? _) = false |- _ => apply Z.leb_gt in H
  | H : context [char_code (Ascii ?a ?b ?c ?d ?e ?f ?g ?h)] |- _ =>
      let x := constr:(char_code (Ascii a b c d e f g h)) in
      let v := eval vm_compute in x in change x with v in H
  end; unfold SQUIRREL_EOB in *.

(** Conditions of [NEXT_ok] from the facts at hand. *)
Ltac char_ne := char_facts; simpl in *; (lia || congruence || done).

(** Bounds of the character classes. *)
Lemma scisodigit_range c : scisodigit c = true → 48 ≤ c ≤ 55.
Proof. apply in_range_true. Qed.

Lemma isalpha_range c : isalpha c = true → 65 ≤ c ≤ 122.
Proof.
  unfold isalpha. rewrite orb_true_iff, !in_range_true. cbv [char_code N_of_ascii N_of_digits]. simpl. lia.
Qed.

Lemma isxdigit_range c : isxdigit c = true → 48 ≤ c ≤ 102.
Proof.
  unfold isxdigit. rewrite !orb_true_iff, !in_range_true. intros [[H%isdigit_range|H]|H]; revert H;
    cbv [char_code N_of_ascii N_of_digits]; simpl; lia.
Qed.

Lemma isexponent_range c : isexponent c = true → 69 ≤ c ≤ 101.
Proof.
  unfold isexponent. rewrite orb_true_iff, !isc_true. cbv [char_code N_of_ascii N_of_digits]. simpl. lia.
Qed.

(** A loop with enough fuel from its own start, as a step of a longer run. *)
Lemma run_from_here {A} (m : lexM A) d k j l0 l :
  adv d k l0 l → safe m l (λ _ l', adv 0 j l l') → safe m l (λ _ l', adv d (k + j) l0 l').
Proof. intros Ha Hm. eapply safe_mono; [done|cbv beta]. intros a l' H. by eapply adv_trans. Qed.

(** *** Comments *)

Lemma line_comment_ok fuel k l0 l :
  adv 0 k l0 l → _currdata l ≠ 10 → _currdata l ≠ 0 → (ahead l0 < fuel + k)%nat →
  safe (line_comment_loop fuel) l (λ _ l', adv 0 (S k) l0 l').
Proof.
  revert k l. induction fuel as [|f IH]; intros k l Ha H10 H0 Hf.
  - destruct Ha as [A1 _ _ _]. lia.
  - cbn [line_comment_loop]. lex_step. eapply safe_mono; [by apply (NEXT_ok _ _ _ _ Ha)|cbv beta].
    intros _ l' [Ha' _]. lex_steps; [|done].
    char_facts. eapply safe_mono; [apply (IH (S k) l' Ha'); [done|lia|lia]|cbv beta].
    intros ? l2 H2. eapply adv_weaken; [exact H2|lia].
Qed.

Lemma LexLineComment_ok d k l0 l :
  adv d k l0 l → _currdata l ≠ 10 → _currdata l ≠ 0 →
  safe LexLineComment l (λ _ l', adv d (k + 1) l0 l').
Proof.
  intros Ha H10 H0. apply run_from_here; [done|]. unfold LexLineComment. lex_steps.
  apply line_comment_ok; [apply adv_refl, (adv_byte _ _ _ _ Ha)|done..|].
  pose proof (ahead_bound l). lia.
Qed.

Lemma block_comment_ok fuel k l0 l :
  adv 0 k l0 l → (ahead l0 < fuel + k)%nat →
  safe (block_comment_loop fuel) l (λ _ l', adv 0 k l0 l').
Proof.
  revert k l. induction fuel as [|f IH]; intros k l Ha Hf.
  { destruct Ha as [A1 _ _ _]. lia. }
  assert (Hrec : ∀ l', adv 0 (S k) l0 l' → safe (block_comment_loop f) l' (λ _ l2, adv 0 k l0 l2)).
  { intros l' Ha'. eapply safe_mono; [apply (IH (S k) l' Ha'); lia|cbv beta].
    intros ? l2 H2. eapply adv_weaken; [exact H2|lia]. }
  cbn [block_comment_loop]. lex_steps; char_facts.
  - eapply safe_mono; [apply (NEXT_ok _ _ _ _ Ha); lia|cbv beta].
    intros _ l' [Ha' _]. lex_steps; [|auto].
    char_facts. eapply safe_mono; [apply (NEXT_ok _ _ _ _ Ha'); lia|cbv beta].
    intros _ l2 [H2 _]. eapply adv_weaken; [exact H2|lia].
  - eapply safe_mono; [by apply incr_line_ok|cbv beta]. intros _ l1 (Ha1 & Hc1 & _).
    lex_step. eapply safe_mono; [apply (NEXT_newline _ _ _ _ Ha1); lia|cbv beta].
    intros _ l2 [Ha2 _]. auto.
  - eapply safe_mono; [by apply (NEXT_ok _ _ _ _ Ha)|cbv beta]. intros _ l1 [Ha1 _]. auto.
Qed.

Lemma LexBlockComment_ok d k l0 l :
  adv d k l0 l → safe LexBlockComment l (λ _ l', adv d k l0 l').
Proof.
  intros Ha. eapply safe_mono; [apply (run_from_here _ d k 0); [done|]|cbv beta].
  - unfold LexBlockComment. lex_steps.
    apply block_comment_ok; [apply adv_refl, (adv_byte _ _ _ _ Ha)|].
    pose proof (ahead_bound l). lia.
  - intros ? l2 H2. eapply adv_weaken; [exact H2|lia].
Qed.

(** *** Strings *)

Lemma APPEND_CHAR_ok d k l0 l c :
  adv d k l0 l →
  safe (APPEND_CHAR c) l (λ _ l', adv d k l0 l' ∧ _currdata l' = _currdata l ∧
                                  _longstr l' = _longstr l ++ [code_char c]).
Proof. intros Ha. apply safe_modify. split; [|done]. by eapply adv_same. Qed.

(** [APPEND_CHAR; NEXT] on a character that is not a newline, then [m]. *)
Lemma append_next {A} (m : () → lexM A) d k l0 l c Q :
  adv d k l0 l → _currdata l ≠ 10 → _currdata l ≠ 0 →
  (∀ l', adv d (S k) l0 l' → _longstr l' = _longstr l ++ [code_char c] → safe (m ()) l' Q) →
  safe (APPEND_CHAR c) l (λ _ l1, safe (NEXT ≫= m) l1 Q).
Proof.
  intros Ha H10 H0 HQ. eapply safe_mono; [by apply APPEND_CHAR_ok|cbv beta].
  intros _ l1 (Ha1 & Hc1 & Hs1). apply safe_bind.
  eapply safe_mono; [apply (NEXT_ok _ _ _ _ Ha1); congruence|cbv beta].
  intros [] l2 [Ha2 Hs2]. apply HQ; congruence.
Qed.

Lemma append_next_end d k l0 l c Q :
  adv d k l0 l → _currdata l ≠ 10 → _currdata l ≠ 0 →
  (∀ l', adv d (S k) l0 l' → _longstr l' = _longstr l ++ [code_char c] → Q () l') →
  safe (APPEND_CHAR c) l (λ _ l1, safe NEXT l1 Q).
Proof.
  intros Ha H10 H0 HQ. eapply safe_mono; [by apply APPEND_CHAR_ok|cbv beta].
  intros _ l1 (Ha1 & Hc1 & Hs1).
  eapply safe_mono; [apply (NEXT_ok _ _ _ _ Ha1); congruence|cbv beta].
  intros [] l2 [Ha2 Hs2]. apply HQ; congruence.
Qed.

Lemma AddUTF8_ok d k l0 l ch : adv d k l0 l → safe (AddUTF8 ch) l (λ _ l', adv d k l0 l').
Proof.
  intros Ha. unfold AddUTF8. lex_steps;
    repeat (eapply safe_mono; [by apply APPEND_CHAR_ok|cbv beta]; clear Ha; intros _ ? (Ha & _ & _); lex_steps);
    done.
Qed.

Lemma hex_escape_ok n dest d k l0 l :
  adv d k l0 l → safe (hex_escape_loop n dest) l (λ _ l', adv d k l0 l').
Proof.
  revert dest k l. induction n as [|n IH]; intros dest k l Ha; cbn [hex_escape_loop]; lex_steps; try done.
  match goal with H : isxdigit _ = true |- _ => apply isxdigit_range in H end.
  eapply safe_mono; [apply (NEXT_ok _ _ _ _ Ha); lia|cbv beta]. intros _ l1 [Ha1 _].
  eapply safe_mono; [by apply (IH _ (S k))|cbv beta]. intros ? l2 H2. eapply adv_weaken; [exact H2|lia].
Qed.

Lemma ProcessStringHexEscape_ok n d k l0 l :
  adv d k l0 l → _currdata l ≠ 10 → _currdata l ≠ 0 →
  safe (ProcessStringHexEscape n) l (λ _ l', adv d (S k) l0 l').
Proof.
  intros Ha H10 H0. unfold ProcessStringHexEscape. lex_step.
  eapply safe_mono; [by apply (NEXT_ok _ _ _ _ Ha)|cbv beta]. intros _ l1 [Ha1 _]. lex_steps.
  by apply hex_escape_ok.
Qed.

Lemma read_escape_ok d k l0 l :
  adv d k l0 l → safe read_escape l (λ _ l', adv d k l0 l').
Proof.
  intros Ha. unfold read_escape. lex_step. lex_step. lex_steps.
  - char_facts. eapply safe_mono; [apply (ProcessStringHexEscape_ok _ _ _ _ _ Ha); lia|cbv beta].
    intros temp l1 Ha1. eapply safe_mono; [by apply APPEND_CHAR_ok|cbv beta].
    intros _ l2 (H2 & _). eapply adv_weaken; [exact H2|lia].
  - assert (_currdata l ≠ 10 ∧ _currdata l ≠ 0) as [? ?].
    { match goal with H : (_ || _) = true |- _ => apply orb_true_iff in H as [H|H] end; char_facts; lia. }
    eapply safe_mono; [by apply (ProcessStringHexEscape_ok _ _ _ _ _ Ha)|cbv beta].
    intros temp l1 Ha1. lex_steps. eapply safe_mono; [by apply AddUTF8_ok|cbv beta]. intros ? l2 H2.
    lex_steps. eapply adv_weaken; [exact H2|lia].
  - destruct (simple_escape (_currdata l)) as [e|] eqn:He; [|apply safe_raised].
    assert (_currdata l ≠ 10 ∧ _currdata l ≠ 0) as [? ?].
    { split; intros Hc; rewrite Hc in He; by vm_compute in He. }
    lex_step. apply (append_next_end _ _ _ _ _ _ Ha); [done|done|]. intros l2 H2 _.
    eapply adv_weaken; [exact H2|lia].
Qed.

Lemma read_string_char_ok v k l0 l :
  adv 0 k l0 l → safe (read_string_char v) l (λ _ l', adv 0 (S k) l0 l').
Proof.
  intros Ha. unfold read_string_char. lex_steps; char_facts.
  - eapply safe_mono; [by apply APPEND_CHAR_ok|cbv beta]. intros _ l1 (Ha1 & Hc1 & _). lex_steps.
    eapply safe_mono; [apply (NEXT_newline _ _ _ _ Ha1); lia|cbv beta]. intros _ l2 [Ha2 _].
    eapply safe_mono; [by apply incr_line_ok|cbv beta]. intros _ l3 (Ha3 & _). done.
  - by apply (append_next_end _ _ _ _ _ _ Ha); [lia|lia|].
  - eapply safe_mono; [apply (NEXT_ok _ _ _ _ Ha); lia|cbv beta]. intros _ l1 [Ha1 _]. by apply read_escape_ok.
  - by apply (append_next_end _ _ _ _ _ _ Ha).
Qed.

Lemma read_string_loop_ok fuel nd v k l0 l :
  adv 0 k l0 l → (ahead l0 < fuel + k)%nat → nd ≠ 10 → nd ≠ 0 →
  safe (read_string_loop fuel nd v) l (λ _ l', adv 0 (S k) l0 l').
Proof.
  intros Ha Hf Hnd10 Hnd0. revert k l Ha Hf. induction fuel as [|f IH]; intros k l Ha Hf.
  { destruct Ha as [A1 _ _ _]. lia. }
  assert (Hrec : ∀ k' l', adv 0 k' l0 l' → (S k ≤ k')%nat →
            safe (read_string_loop f nd v) l' (λ _ l2, adv 0 (S k) l0 l2)).
  { intros k' l' Ha' Hk. eapply safe_mono; [apply (IH k' l' Ha'); lia|cbv beta].
    intros ? l2 H2. eapply adv_weaken; [exact H2|lia]. }
  cbn [read_string_loop]. lex_steps.
  - eapply safe_mono; [by apply read_string_char_ok|cbv beta]. intros ? l1 Ha1. by eapply Hrec.
  - char_facts. eapply safe_mono; [apply (NEXT_ok _ _ _ _ Ha); congruence|cbv beta].
    intros _ l1 [Ha1 _]. lex_step. lex_step. lex_step.
    + char_facts. lex_step. apply (append_next _ _ _ _ _ _ _ Ha1); [lia|lia|]. intros l2 Ha2 _.
      eapply Hrec; [done|lia].
    + lex_step. done.
Qed.

Lemma ReadString_ok nd v d k l0 l :
  adv d k l0 l → _currdata l ≠ 10 → _currdata l ≠ 0 → nd ≠ 10 → nd ≠ 0 →
  safe (ReadString nd v) l (λ t l', adv d (S k) l0 l' ∧ t ≠ 0).
Proof.
  intros Ha H10 H0 Hn10 Hn0. unfold ReadString, INIT_TEMP_STRING. lex_step.
  apply safe_modify. lex_step.
  assert (Ha' : adv d k l0 (set_longstr [] l)) by (by eapply adv_same).
  eapply safe_mono; [by apply (NEXT_ok _ _ _ _ Ha')|cbv beta]. intros _ l1 [Ha1 _].
  lex_step. unfold IS_EOB. lex_step. lex_step. lex_step. lex_step; [by lex_step|].
  lex_step. lex_step. lex_step. eapply safe_mono.
  { apply (run_from_here _ d (S k) 1); [exact Ha1|].
    apply read_string_loop_ok; [apply adv_refl, (adv_byte _ _ _ _ Ha1)| |done|done].
    pose proof (ahead_bound l1). lia. }
  intros ? l2 Ha2. cbv beta in Ha2. unfold TERMINATE_BUFFER. lex_step. eapply safe_mono; [by apply APPEND_CHAR_ok|cbv beta].
  intros _ l3 (Ha3 & _). assert (Hdone : adv d (S k) l0 l3) by (eapply adv_weaken; [done|lia]).
  lex_steps; apply safe_modify; lex_steps; (split; [by eapply adv_same|done]).
Qed.

(** *** Numbers and identifiers *)

Lemma append_while_ok (P : Z → bool) fuel k l0 l :
  (∀ c, P c = true → c ≠ 10 ∧ c ≠ 0) →
  adv 0 k l0 l → (ahead l0 < fuel + k)%nat →
  safe (append_while P fuel) l (λ _ l', adv 0 k l0 l' ∧
    ∃ cs, _longstr l' = _longstr l ++ cs ∧ Forall (λ c, P (char_code c) = true) cs).
Proof.
  intros HP. revert k l. induction fuel as [|f IH]; intros k l Ha Hf.
  { destruct Ha as [A1 _ _ _]. lia. }
  cbn [append_while]. lex_steps.
  - match goal with H : P _ = true |- _ => rename H into Hc; destruct (HP _ Hc) end.
    apply (append_next _ _ _ _ _ _ _ Ha); [done|done|]. intros l1 Ha1 Hs1.
    eapply safe_mono; [apply (IH (S k) l1 Ha1); lia|cbv beta]. intros _ l2 (Ha2 & cs & Hs2 & Hcs).
    split; [eapply adv_weaken; [exact Ha2|lia]|].
    exists (code_char (_currdata l) :: cs). split; [by rewrite Hs2, Hs1, <- app_assoc|].
    constructor; [|done]. by rewrite char_code_code by apply (adv_byte _ _ _ _ Ha).
  - split; [done|]. exists []. by rewrite app_nil_r.
Qed.

(** From the start of the loop, inside a longer run. *)
Lemma append_while_here (P : Z → bool) d k l0 l f :
  (∀ c, P c = true → c ≠ 10 ∧ c ≠ 0) → adv d k l0 l → (ahead l < f)%nat →
  safe (append_while P f) l (λ _ l', adv d k l0 l' ∧
    ∃ cs, _longstr l' = _longstr l ++ cs ∧ Forall (λ c, P (char_code c) = true) cs).
Proof.
  intros HP Ha Hf. eapply safe_mono;
    [apply (append_while_ok P _ 0 l l HP); [apply adv_refl, (adv_byte _ _ _ _ Ha)|lia]|cbv beta].
  intros _ l' [Ha' Hcs]. split; [|done]. rewrite <- (Nat.add_0_r k). by eapply adv_trans.
Qed.

Lemma no_zero (P : Z → bool) cs :
  (∀ c, P c = true → c ≠ 0) → Forall (λ c, P (char_code c) = true) cs → Ascii.zero ∉ cs.
Proof. intros HP Hcs Hin. rewrite Forall_forall in Hcs. by apply (HP _ (Hcs _ Hin)). Qed.

Lemma LexHexadecimal_ok s :
  Forall (λ c, isxdigit (char_code c) = true) s → ∃ n, LexHexadecimal (s ++ [Ascii.zero]) = Ok n.
Proof.
  intros Hs. unfold LexHexadecimal.
  rewrite c_str_terminated by (eapply no_zero; [|done]; intros c Hc%isxdigit_range; lia).
  generalize 0. induction Hs as [|c s Hc Hs IH]; intros r; cbn [fold_res]; [eauto|].
  rewrite Hc. destruct (isdigit (char_code c)); apply IH.
Qed.

Lemma LexOctal_ok s :
  Forall (λ c, scisodigit (char_code c) = true) s → ∃ n, LexOctal (s ++ [Ascii.zero]) = Ok n.
Proof.
  intros Hs. unfold LexOctal.
  rewrite c_str_terminated by (eapply no_zero; [|done]; intros c Hc%scisodigit_range; lia).
  generalize 0. induction Hs as [|c s Hc Hs IH]; intros r; cbn [fold_res]; [eauto|].
  rewrite Hc. apply IH.
Qed.

(** The loop on decimal numbers gives an integer or a float. *)
Definition decimal (t : numtype) : Prop := t = TINT ∨ t = TFLOAT ∨ t = TSCIENTIFIC.

Lemma number_loop_ok fuel t k l0 l :
  adv 0 k l0 l → (ahead l0 < fuel + k)%nat → decimal t →
  safe (number_loop fuel t) l (λ t' l', adv 0 k l0 l' ∧ decimal t').
Proof.
  revert t k l. induction fuel as [|f IH]; intros t k l Ha Hf Ht.
  { destruct Ha as [A1 _ _ _]. lia. }
  assert (Hrec : ∀ t' k' l', adv 0 k' l0 l' → (S k ≤ k')%nat → decimal t' →
            safe (number_loop f t') l' (λ t2 l2, adv 0 k l0 l2 ∧ decimal t2)).
  { intros t' k' l' Ha' Hk Ht'. eapply safe_mono; [apply (IH t' k' l' Ha'); [lia|done]|cbv beta].
    intros ? l2 [H2 ?]. split; [|done]. eapply adv_weaken; [exact H2|lia]. }
  cbn [number_loop]. do 3 lex_step; [|by lex_steps].
  set (t1 := if isc _ _ || _ then TFLOAT else t).
  assert (Ht1 : decimal t1) by (unfold decimal in *; subst t1; case_match; naive_solver).
  clearbody t1. lex_step. lex_step.
  - match goal with H : isexponent _ = true |- _ => apply isexponent_range in H end.
    lex_step. lex_step; [apply safe_raised|]. lex_step.
    apply (append_next _ _ _ _ _ _ _ Ha); [lia|lia|]. intros l1 Ha1 _.
    lex_step. lex_step. lex_step. apply safe_when; intros Hsign.
    + lex_step. assert (_currdata l1 ≠ 10 ∧ _currdata l1 ≠ 0) as [? ?].
      { apply orb_true_iff in Hsign as [Hsign|Hsign]; char_facts; lia. }
      apply (append_next_end _ _ _ _ _ _ Ha1); [done|done|]. intros l2 Ha2 _. lex_steps.
      match goal with H : negb (isdigit _) = false |- _ => apply negb_false_iff, isdigit_range in H end.
      apply (append_next _ _ _ _ _ _ _ Ha2); [lia|lia|]. intros l3 Ha3 _.
      eapply Hrec; [done|lia|unfold decimal; auto].
    + lex_steps.
      match goal with H : negb (isdigit _) = false |- _ => apply negb_false_iff, isdigit_range in H end.
      apply (append_next _ _ _ _ _ _ _ Ha1); [lia|lia|]. intros l3 Ha3 _.
      eapply Hrec; [done|lia|unfold decimal; auto].
  - lex_steps. assert (_currdata l ≠ 10 ∧ _currdata l ≠ 0) as [? ?].
    { match goal with H : (_ || _) = true |- _ => apply orb_true_iff in H as [H|H]; [|congruence];
        apply orb_true_iff in H as [H|H%isdigit_range] end; char_facts; lia. }
    apply (append_next _ _ _ _ _ _ _ Ha); [done|done|]. intros l3 Ha3 _. eapply Hrec; done || lia.
Qed.

Section total.
Context {KT : KeywordTable} {FR : FloatReader}.

Lemma set_nvalue_ok d k l0 l n (Q : () → SQLexer → Prop) :
  adv d k l0 l → (∀ l', adv d k l0 l' → Q () l') → safe (set_nvalue n) l Q.
Proof. intros Ha HQ. apply safe_modify, HQ. by eapply adv_same. Qed.

(** The octal and hexadecimal branches end in a digit string. *)
Lemma read_digits_ok (P : Z → bool) d k l0 l f :
  (∀ c, P c = true → c ≠ 10 ∧ c ≠ 0) → adv d k l0 l → (ahead l < f)%nat → _longstr l = [] →
  safe (append_while P f) l (λ _ l', adv d k l0 l' ∧ Forall (λ c, P (char_code c) = true) (_longstr l')).
Proof.
  intros HP Ha Hf Hl. eapply safe_mono; [by apply append_while_here|cbv beta].
  intros _ l' (Ha' & cs & Hs & Hcs). split; [done|]. by rewrite Hs, Hl.
Qed.

Definition number_ok (t : numtype) (s : list ascii) : Prop :=
  match t with
  | THEX => Forall (λ c, isxdigit (char_code c) = true) s
  | TOCTAL => Forall (λ c, scisodigit (char_code c) = true) s
  | _ => True
  end.

Lemma number_value_ok d k l0 l t :
  adv d k l0 l → number_ok t (_longstr l) →
  safe (TERMINATE_BUFFER;;
        s ← gets _longstr;
        match (t : numtype) with
        | TSCIENTIFIC | TFLOAT => modify (λ l, set_values (_svalue l) (_nvalue l) (strtod s) l);; mret TK_FLOAT
        | TINT => set_nvalue (LexInteger s);; mret TK_INTEGER
        | THEX => n ← lift (LexHexadecimal s); set_nvalue n;; mret TK_INTEGER
        | TOCTAL => n ← lift (LexOctal s); set_nvalue n;; mret TK_INTEGER
        end) l (λ r l', adv d k l0 l' ∧ r ≠ 0).
Proof.
  intros Ha Ht. unfold TERMINATE_BUFFER. lex_step.
  eapply safe_mono; [by apply APPEND_CHAR_ok|cbv beta]. intros _ l1 (Ha1 & _ & Hs1).
  change (code_char 0) with Ascii.zero in Hs1. lex_step. lex_step. destruct t; simpl in Ht.
  - lex_step. eapply set_nvalue_ok; [done|]. intros. by lex_steps.
  - lex_step. apply safe_modify. lex_steps. split; [by eapply adv_same|done].
  - destruct (LexHexadecimal_ok _ Ht) as [n Hn]. rewrite <- Hs1 in Hn. lex_step.
    eapply safe_lift; [done|]. lex_step. eapply set_nvalue_ok; [done|]. intros. by lex_steps.
  - lex_step. apply safe_modify. lex_steps. split; [by eapply adv_same|done].
  - destruct (LexOctal_ok _ Ht) as [n Hn]. rewrite <- Hs1 in Hn. lex_step.
    eapply safe_lift; [done|]. lex_step. eapply set_nvalue_ok; [done|]. intros. by lex_steps.
Qed.

Lemma ReadNumber_ok d k l0 l :
  adv d k l0 l → isdigit (_currdata l) = true →
  safe ReadNumber l (λ t l', adv d (S k) l0 l' ∧ t ≠ 0).
Proof.
  intros Ha Hd%isdigit_range. unfold ReadNumber, INIT_TEMP_STRING. lex_step. lex_step. lex_step.
  apply safe_modify. lex_step.
  assert (Ha' : adv d k l0 (set_longstr [] l)) by (by eapply adv_same).
  eapply safe_mono; [apply (NEXT_ok _ _ _ _ Ha'); simpl; lia|cbv beta]. intros _ l1 [Ha1 Hs1].
  simpl in Hs1. do 5 lex_step.
  pose proof (ahead_bound l1) as Hb1. set (c := _currdata l1) in *.
  eapply (safe_mono _ _ (λ t l', adv d (S k) l0 l' ∧ number_ok t (_longstr l')));
    [|intros t l' [Ht Hl']; by apply number_value_ok].
  lex_step.
  - lex_step.
    + lex_step. eapply safe_mono; [apply (read_digits_ok scisodigit); [|done|lia|done]|cbv beta].
      { intros z Hz%scisodigit_range. lia. }
      intros _ l2 [Ha2 Hs2]. by lex_steps.
    + char_facts. assert (c ≠ 10 ∧ c ≠ 0) as [? ?].
      { match goal with H : (_ || _) = true |- _ => apply orb_true_iff in H as [H|H]; [|congruence] end.
        split; intros Hc; rewrite Hc in *; done. }
      lex_step. eapply safe_mono; [by apply (NEXT_ahead _ _ _ _ Ha1)|cbv beta].
      intros _ l2 (Ha2 & Hs2 & Hl2).
      lex_step. eapply safe_mono; [apply (read_digits_ok isxdigit); [|done|lia|congruence]|cbv beta].
      { intros z Hz%isxdigit_range. lia. }
      intros _ l3 [Ha3 Hs3]. lex_steps. split; [eapply adv_weaken; [exact Ha3|lia]|done].
  - lex_step. apply safe_modify. set (l2 := set_longstr _ l1).
    assert (Ha2 : adv d (S k) l0 l2) by (by eapply adv_same).
    eapply safe_mono; [apply (number_loop_ok _ TINT 0 l2 l2)|cbv beta].
    + apply adv_refl, (adv_byte _ _ _ _ Ha2).
    + change (ahead l2) with (ahead l1). lia.
    + by left.
    + intros t l3 [Ha3 Ht]. split; [|destruct Ht as [-> | [-> | ->]]; done].
      rewrite <- (Nat.add_0_r (S k)). by eapply adv_trans.
Qed.

Lemma keyword_code_range s z : keyword_code s = Some z → 262 ≤ z ≤ 325.
Proof.
  unfold keyword_code. intros ([i [w x]] & Hf & ->)%fmap_Some. simpl.
  apply list_find_Some in Hf as (Hi & _ & _). apply list_elem_of_lookup_2 in Hi.
  assert (Hall : Forall (λ kw, 262 ≤ kw.2 ≤ 325) keywords) by (repeat constructor; simpl; lia).
  rewrite Forall_forall in Hall. apply (Hall _ Hi).
Qed.

Lemma GetIDType_name s :
  Ascii.zero ∉ s →
  GetIDType (s ++ [Ascii.zero]) (Z.of_nat (length (s ++ [Ascii.zero])) - 1)
  = Ok (default TK_IDENTIFIER (keyword_code s)).
Proof.
  intros Hs. unfold GetIDType. rewrite length_app.
  replace (Z.of_nat (length s + length [Ascii.zero]) - 1) with (Z.of_nat (length s)) by (simpl; lia).
  rewrite kw_GetStr_spec by done. destruct (keyword_code s) as [z|] eqn:Hk; simpl; [|done].
  apply keyword_code_range in Hk. unfold sq_int, _integer. simpl.
  by rewrite u32_small, s32_small by lia.
Qed.

Lemma ReadID_ok d k l0 l :
  adv d k l0 l → isalpha (_currdata l) || isc (_currdata l) "_" = true →
  safe ReadID l (λ t l', adv d (S k) l0 l' ∧ t ≠ 0).
Proof.
  intros Ha Hc. assert (Hr : 65 ≤ _currdata l ≤ 122).
  { apply orb_true_iff in Hc as [Hc%isalpha_range|Hc]; char_facts; lia. }
  unfold ReadID, INIT_TEMP_STRING. lex_step. apply safe_modify.
  assert (Ha' : adv d k l0 (set_longstr [] l)) by (by eapply adv_same).
  lex_step. lex_step. lex_step. apply (append_next _ _ _ _ _ _ _ Ha'); [simpl; lia|simpl; lia|].
  intros l1 Ha1 Hs1. simpl in Hs1. lex_step. lex_step. lex_step.
  assert (Hcls : ∀ c, isalnum c || isc c "_" = true → c ≠ 10 ∧ c ≠ 0).
  { intros c. unfold isalnum. rewrite !orb_true_iff.
    intros [[Hz%isalpha_range|Hz%isdigit_range]|Hz]; char_facts; lia. }
  eapply safe_mono; [apply append_while_here; [exact Hcls|done|]|cbv beta].
  { pose proof (ahead_bound l1). lia. }
  intros _ l2 (Ha2 & cs & Hs2 & Hcs). unfold TERMINATE_BUFFER. lex_step.
  eapply safe_mono; [by apply APPEND_CHAR_ok|cbv beta]. intros _ l3 (Ha3 & _ & Hs3).
  lex_step. lex_step. lex_step.
  set (name := code_char (_currdata l) :: cs).
  assert (Hname : _longstr l3 = name ++ [Ascii.zero]) by (by rewrite Hs3, Hs2, Hs1).
  assert (Hz : Ascii.zero ∉ name).
  { apply not_elem_of_cons. split.
    - intros Hz. assert (char_code (code_char (_currdata l)) = 0) by (by rewrite <- Hz).
      rewrite char_code_code in * by lia. lia.
    - apply (no_zero (λ c, isalnum c || isc c "_")); [|done]. intros c Hcc. by apply Hcls. }
  eapply safe_lift; [rewrite Hname; by apply GetIDType_name|].
  assert (Ht : default TK_IDENTIFIER (keyword_code name) ≠ 0).
  { destruct (keyword_code name) as [z|] eqn:Hk; simpl; [|done]. apply keyword_code_range in Hk. lia. }
  lex_steps; [apply safe_modify; lex_steps; split; [by eapply adv_same|done]|done].
Qed.

(** *** Tokens *)

(** The result of a turn: progress, and a token other than 0 if any. *)
Definition turn_post (d : Z) (k : nat) (l0 : SQLexer) (r : option Z) (l' : SQLexer) : Prop :=
  adv d k l0 l' ∧ r ≠ Some 0.

Lemma turn_none d k l0 l : adv d k l0 l → turn_post d k l0 None l.
Proof. by split. Qed.

Lemma RETURN_TOKEN_ok d k l0 l t :
  adv d k l0 l → t ≠ 0 → safe (RETURN_TOKEN t) l (turn_post d k l0).
Proof.
  intros Ha Ht. unfold RETURN_TOKEN. lex_step. apply safe_modify. lex_step.
  split; [by eapply adv_same|congruence].
Qed.

Lemma if_next_ok a t m d k l0 l :
  adv d k l0 l → char_code a ≠ 10 → char_code a ≠ 0 → t ≠ 0 →
  (adv d k l0 l → safe m l (turn_post d k l0)) →
  safe (if_next a t m) l (turn_post d k l0).
Proof.
  intros Ha H10 H0 Ht Hm. unfold if_next. lex_steps; [|auto].
  char_facts. eapply safe_mono; [apply (NEXT_ok _ _ _ _ Ha); congruence|cbv beta].
  intros _ l1 [Ha1 _]. eapply safe_mono; [by apply RETURN_TOKEN_ok|cbv beta].
  intros ? l2 [H2 ?]. split; [eapply adv_weaken; [exact H2|lia]|done].
Qed.

Lemma string_token_ok d k l0 l nd v :
  adv d k l0 l → _currdata l ≠ 10 → _currdata l ≠ 0 → nd ≠ 10 → nd ≠ 0 →
  safe (stype ← ReadString nd v;
        if negb (stype =? -1) then RETURN_TOKEN stype else Error "error parsing the string")
    l (turn_post d (S k) l0).
Proof.
  intros. lex_step. eapply safe_mono; [by apply ReadString_ok|cbv beta]. intros t l1 [Ha1 ?].
  lex_step; [|apply safe_raised]. by apply RETURN_TOKEN_ok.
Qed.
Lemma safe_weaken (m : lexM (option Z)) d k k' l0 l :
  safe m l (turn_post d k' l0) → (k ≤ k')%nat → safe m l (turn_post d k l0).
Proof.
  intros Hm Hk. eapply safe_mono; [exact Hm|]. intros a l' [H ?]. split; [by eapply adv_weaken|done].
Qed.

(** [NEXT] on a character the tests have fixed. *)
Ltac next Ha :=
  try lex_step; eapply safe_mono; [apply (NEXT_ok _ _ _ _ Ha); char_facts; lia|cbv beta];
  clear Ha; intros _ ? [Ha _].

(** The end of a case: possible second characters, then the token. *)
Ltac token_end Ha :=
  repeat (apply if_next_ok; [exact Ha|done|done|done|intros _]); by apply RETURN_TOKEN_ok.

Lemma lex_turn_ok k l0 l :
  adv 0 k l0 l → _currdata l ≠ 0 → safe lex_turn l (turn_post 0 (S k) l0).
Proof.
  intros Ha H0. pose proof (adv_byte _ _ _ _ Ha) as Hb. unfold lex_turn. lex_step. lex_step.
  lex_step.
  { (* blanks *)
    lex_step. eapply safe_mono; [apply (NEXT_ok _ _ _ _ Ha); [|done]|cbv beta].
    - rewrite !orb_true_iff in *. intros Hc. rewrite Hc in *. intuition discriminate.
    - intros _ l1 [Ha1 _]. by lex_step. }
  lex_step.
  { (* newline *)
    char_facts. lex_step. eapply safe_mono; [by apply incr_line_ok|cbv beta].
    intros _ l1 (Ha1 & Hc1 & _). lex_step. apply safe_modify.
    match goal with |- safe _ ?x _ => assert (Ha2 : adv (0 + 1) k l0 x) by (by eapply adv_same) end.
    lex_step. eapply safe_mono; [apply (NEXT_newline _ _ _ _ Ha2); simpl; congruence|cbv beta].
    intros _ l3 [Ha3 _]. lex_step. apply safe_modify. lex_step. apply turn_none. by eapply adv_same. }
  lex_step.
  { (* line comment *)
    lex_step. eapply safe_mono; [apply (LexLineComment_ok _ _ _ _ Ha); char_facts; lia|cbv beta].
    intros ? l1 Ha1. lex_step. apply turn_none. eapply adv_weaken; [exact Ha1|lia]. }
  lex_step.
  { (* slash *)
    next Ha. lex_step. lex_step. lex_step; [|lex_step].
    - next Ha. lex_step. eapply safe_mono; [by apply LexBlockComment_ok|cbv beta].
      intros ? l2 Ha2. lex_step. apply turn_none. eapply adv_weaken; [exact Ha2|lia].
    - lex_step. eapply safe_mono; [apply (LexLineComment_ok _ _ _ _ Ha); char_facts; lia|cbv beta].
      intros ? l2 Ha2. lex_step. apply turn_none. eapply adv_weaken; [exact Ha2|lia].
    - token_end Ha. }
  lex_step; [next Ha; token_end Ha|].
  lex_step.
  { (* less *)
    next Ha. lex_step. lex_step. lex_step; [|token_end Ha].
    next Ha. eapply safe_weaken; [token_end Ha|lia]. }
  lex_step.
  { (* greater *)
    next Ha. lex_step. lex_step. lex_step; [|lex_step]; [next Ha..|token_end Ha];
      eapply safe_weaken; [token_end Ha|lia|token_end Ha|lia]. }
  lex_step; [next Ha; token_end Ha|].
  lex_step.
  { (* at *)
    next Ha. lex_step. lex_step. lex_step; [token_end Ha|].
    eapply safe_weaken; [apply (string_token_ok _ _ _ _ _ _ Ha); char_facts; done || lia|lia]. }
  lex_step.
  { (* quotes *)
    assert (Hq : _currdata l ≠ 10) by (intros Hc; rewrite Hc in *; done).
    by apply string_token_ok. }
  lex_step.
  { (* single characters *)
    assert (Hq : _currdata l ≠ 10) by (intros Hc; rewrite Hc in *; done).
    next Ha. token_end Ha. }
  lex_step.
  { (* dots *)
    next Ha. lex_step. lex_step. lex_step; [token_end Ha|].
    next Ha. lex_steps. next Ha. eapply safe_weaken; [token_end Ha|lia]. }
  do 7 (lex_step; [next Ha; token_end Ha|]).
  lex_step.
  { lex_step. eapply safe_mono; [by apply ReadNumber_ok|cbv beta]. intros t l1 [Ha1 ?]. token_end Ha1. }
  lex_step.
  { lex_step. eapply safe_mono; [by apply ReadID_ok|cbv beta]. intros t l1 [Ha1 ?]. token_end Ha1. }
  lex_step. lex_step; [apply safe_raised|]. next Ha. token_end Ha.
Qed.

Lemma lex_loop_ok fuel k l0 l :
  adv 0 k l0 l → (ahead l0 < fuel + k)%nat →
  safe (lex_loop fuel) l (λ t l', if t =? 0 then adv 0 k l0 l' ∧ _currdata l' = 0
                                  else adv 0 (S k) l0 l').
Proof.
  revert k l. induction fuel as [|f IH]; intros k l Ha Hf.
  { destruct Ha as [A1 _ _ _]. lia. }
  cbn [lex_loop]. lex_steps; char_facts; [done|].
  eapply safe_mono; [by apply lex_turn_ok|cbv beta]. intros [t|] l1 [Ha1 Ht].
  - lex_step. destruct (Z.eqb_spec t 0); [congruence|done].
  - eapply safe_mono; [apply (IH (S k) l1 Ha1); lia|cbv beta]. intros t l2 H2.
    destruct (t =? 0).
    + destruct H2 as [H2 ?]. split; [eapply adv_weaken; [exact H2|lia]|done].
    + eapply adv_weaken; [exact H2|lia].
Qed.

Lemma Lex_ok k l0 l :
  adv 0 k l0 l →
  safe Lex l (λ t l', if t =? 0 then adv 0 k l0 l' ∧ _currdata l' = 0 else adv 0 (S k) l0 l').
Proof.
  intros Ha. unfold Lex. lex_step. apply safe_modify. set (l1 := set_pos _ _ _ l).
  assert (Ha1 : adv 0 k l0 l1) by (by eapply adv_same).
  lex_step. lex_step. eapply safe_mono; [apply (lex_loop_ok _ 0 l1 l1)|cbv beta].
  - apply adv_refl, (adv_byte _ _ _ _ Ha1).
  - pose proof (ahead_bound l1). lia.
  - intros t l2 H2. destruct (t =? 0).
    + destruct H2 as [H2 ?]. split; [|done]. rewrite <- (Nat.add_0_r k). by eapply adv_trans.
    + replace (S k) with (k + 1)%nat by lia. by eapply adv_trans.
Qed.

(** ** Lines *)

Lemma nl_u8 l : nl (u8 <$> l) = nl l.
Proof.
  induction l as [|t l IH]; [done|]. cbn [fmap list_fmap]. rewrite !nl_cons, IH. f_equal.
  by rewrite (u8_byte (u8 t)) by (apply (wrap_range 8); done).
Qed.

(** A lexer somewhere in the text [rg]. *)
Record reading (rg : list Z) (l : SQLexer) : Prop := {
  rd_lines : lines l = 1 + nl rg;
  rd_input : input l `suffix_of` rg;
  rd_untaken : untaken l `suffix_of` (u8 <$> rg);
  rd_byte : 0 ≤ _currdata l < 256
}.

Lemma reading_adv rg k l l' : reading rg l → adv 0 k l l' → reading rg l'.
Proof. intros [H1 H2 H3 H4] [_ A2 [A3 A4] A5]. split; [lia|by etrans|by etrans|done]. Qed.

(** How much of the text tokens have taken, and the line that is. *)
Definition taken (rg : list Z) (l : SQLexer) : nat := length rg - ahead l.

Lemma reading_ahead rg l : reading rg l → (ahead l ≤ length rg)%nat.
Proof. intros H. rewrite <- untaken_length, <- (length_fmap u8 rg). apply suffix_length, H. Qed.

Lemma reading_line rg l : reading rg l → _currentline l = 1 + nl (take (taken rg l) rg).
Proof.
  intros [Hl _ [pre Hpre] Hb]. assert (Hn : length pre = taken rg l).
  { unfold taken. rewrite <- untaken_length, <- (length_fmap u8 rg), Hpre, length_app. lia. }
  rewrite <- Hn, <- (nl_u8 (take _ rg)), fmap_take, Hpre, take_app_length.
  unfold lines in Hl. rewrite <- (nl_u8 rg), Hpre, nl_app in Hl. unfold untaken in Hl.
  assert (Hcur : nl (if _currdata l =? 0 then [] else [_currdata l]) = if decide (u8 (_currdata l) = 10) then 1 else 0).
  { destruct (Z.eqb_spec (_currdata l) 0) as [->|_]; [done|]. by rewrite nl_cons, Z.add_0_r. }
  rewrite nl_app, nl_u8, nl_cons, Hcur in Hl. lia.
Qed.

(** Every token ends behind the one in front of it, and its line is one more
    than the newlines up to its end. *)
Fixpoint lines_recorded (rg : list Z) (from : nat) (toks : list token) : Prop :=
  match toks with
  | [] => True
  | t :: toks' => ∃ e, (from < e ≤ length rg)%nat ∧ tk_line t = 1 + nl (take e rg) ∧ lines_recorded rg e toks'
  end.

Lemma lines_recorded_weaken rg n n' toks : lines_recorded rg n toks → (n' ≤ n)%nat → lines_recorded rg n' toks.
Proof. destruct toks as [|t toks]; [done|]. intros (e & ? & ?) Hn. exists e. split; [lia|done]. Qed.

Lemma lex_all_ok rg fuel : ∀ l,
  reading rg l → (ahead l < fuel)%nat →
  safe (lex_all fuel) l (λ toks l', reading rg l' ∧ _currdata l' = 0 ∧ lines_recorded rg (taken rg l) toks).
Proof.
  induction fuel as [|f IH]; intros l Hr Hf; [lia|].
  cbn [lex_all]. lex_step. eapply safe_mono; [apply (Lex_ok 0 l l), adv_refl, (rd_byte _ _ Hr)|cbv beta]. intros t l1 H1.
  pose proof (reading_ahead rg l Hr). lex_step; lex_steps.
  - destruct H1 as [H1 Hc]. split_and!; [by eapply reading_adv|done|done].
  - pose proof (reading_adv rg _ l l1 Hr H1) as Hr1. pose proof (adv_left _ _ _ _ H1).
    eapply safe_mono; [apply (IH l1 Hr1); lia|cbv beta]. intros ts l2 (H2 & H3 & H4). lex_steps.
    split_and!; [done|done|]. exists (taken rg l1). unfold taken in *. split_and!; [lia|lia| |done]. by apply reading_line.
Qed.

End total.
