(* ===== verification/SqLexerRound.v ===== *)
(** * Lexing what was printed

    Second part of the lexer's correctness: a sequence of names, numbers, string
    and character constants and operators, printed with blanks or newlines in
    between, is read back token by token, with the right values and the right
    line numbers. *)

From Stdlib Require Import Ascii.
From stdpp Require Import base numbers gmap strings option list.
From S2P Require Import Prelude CType SqObject SqLexer SqLexerSpec.

Local Open Scope Z_scope.

(** ** Printing *)

Inductive source_token :=
  | SName (s : list ascii)
  | SInteger (n : nat)
  | SString (s : list ascii)
  | SChar (c : ascii)
  | SOperator (s : list ascii).

(** The operators and their tokens. *)
Definition operators : list (list ascii * Z) :=
  [(["{"], char_code "{"); (["}"], char_code "}"); (["("], char_code "("); ([")"], char_code ")");
   (["["], char_code "["); (["]"], char_code "]"); ([";"], char_code ";"); ([","], char_code ",");
   (["?"], char_code "?"); (["^"], char_code "^"); (["~"], char_code "~"); (["/"], char_code "/");
   (["="], char_code "="); (["<"], char_code "<"); ([">"], char_code ">"); (["!"], char_code "!");
   (["@"], char_code "@"); (["."], char_code "."); (["&"], char_code "&"); (["|"], char_code "|");
   ([":"], char_code ":"); (["*"], char_code "*"); (["%"], char_code "%"); (["-"], char_code "-");
   (["+"], char_code "+"); (["/"; "="], TK_DIVEQ); (["/"; ">"], TK_ATTR_CLOSE); (["="; "="], TK_EQ);
   (["<"; "="; ">"], TK_3WAYSCMP); (["<"; "="], TK_LE); (["<"; "-"], TK_NEWSLOT);
   (["<"; "<"], TK_SHIFTL); (["<"; "/"], TK_ATTR_OPEN); ([">"; "="], TK_GE);
   ([">"; ">"; ">"], TK_USHIFTR); ([">"; ">"], TK_SHIFTR); (["!"; "="], TK_NE);
   (["."; "."; "."], TK_VARPARAMS); (["&"; "&"], TK_AND); (["|"; "|"], TK_OR);
   ([":"; ":"], TK_DOUBLE_COLON); (["*"; "="], TK_MULEQ); (["%"; "="], TK_MODEQ);
   (["-"; "="], TK_MINUSEQ); (["-"; "-"], TK_MINUSMINUS); (["+"; "="], TK_PLUSEQ);
   (["+"; "+"], TK_PLUSPLUS)]%char.

Definition operator_code (s : list ascii) : option Z :=
  (λ p, p.2.2) <$> list_find (λ op, op.1 = s) operators.

(** Decimal digits of a number. *)
Fixpoint digits (fuel n : nat) : list ascii :=
  let d := code_char (48 + Z.of_nat (n mod 10)) in
  match fuel with
  | O => [d]
  | S f => if decide (n < 10)%nat then [d] else digits f (n / 10) ++ [d]
  end.

Definition hex_char (n : Z) : ascii := code_char (if n <? 10 then 48 + n else 87 + n).

(** A character inside quotes: as it is, or as a hexadecimal escape. *)
Definition needs_escape (c : ascii) : bool :=
  (char_code c <? 32) || isc (char_code c) "034" || isc (char_code c) "'" || isc (char_code c) "\".

Definition quote_char (c : ascii) : list ascii :=
  if needs_escape c
  then ["\"%char; "x"%char; hex_char (char_code c / 16); hex_char (char_code c mod 16)]
  else [c].

Definition print (t : source_token) : list ascii :=
  match t with
  | SName s => s
  | SInteger n => digits n n
  | SString s => "034"%char :: (s ≫= quote_char) ++ ["034"%char]
  | SChar c => "'"%char :: quote_char c ++ ["'"%char]
  | SOperator s => s
  end.

Definition name_start (c : ascii) : bool := isalpha (char_code c) || isc (char_code c) "_".
Definition name_char (c : ascii) : bool := isalnum (char_code c) || isc (char_code c) "_".

(** Tokens that can be printed. *)
Definition printable (t : source_token) : bool :=
  match t with
  | SName (c :: s) => name_start c && forallb name_char s
  | SName [] => false
  | SInteger _ | SString _ | SChar _ => true
  | SOperator s => match operator_code s with Some _ => true | None => false end
  end.

(** What the lexer should report. *)
Definition expected (t : source_token) (line : Z) : token :=
  match t with
  | SName s =>
      let code := default TK_IDENTIFIER (keyword_code s) in
      mkToken code (if (code =? TK_IDENTIFIER) || (code =? TK_CONSTRUCTOR) then VString s else VNone) line
  | SInteger n => mkToken TK_INTEGER (VInt (s32 (Z.of_nat n))) line
  | SString s => mkToken TK_STRING_LITERAL (VString s) line
  | SChar c => mkToken TK_INTEGER (VInt (char_code c)) line
  | SOperator s => mkToken (default 0 (operator_code s)) VNone line
  end.

Definition blank (c : ascii) : bool := existsb (isc (char_code c)) [" "; "009"; "010"; "013"]%char.

(** Tokens, each followed by a non-empty run of blanks. *)
Definition print_all (ts : list (source_token * list ascii)) : list ascii :=
  ts ≫= (λ '(t, ws), print t ++ ws).

Definition spaced (t : source_token * list ascii) : bool :=
  printable t.1 && forallb blank t.2 && negb (bool_decide (t.2 = [])).

Definition newlines (s : list ascii) : Z := nl (map char_code s).

Fixpoint expected_all (line : Z) (ts : list (source_token * list ascii)) : list token :=
  match ts with
  | [] => []
  | (t, ws) :: ts' => expected t line :: expected_all (line + newlines ws) ts'
  end.

(** ** Reading along a string *)

Lemma bind_run {S A B} (f : A → stM S B) (m : stM S A) s a s' :
  m s = Ok (a, s') → (m ≫= f) s = f a s'.
Proof. intros Hm. unfold mbind, stM_bind. by rewrite Hm. Qed.

(** The lexer stands at the front of [s], which is all that is left. *)
Definition look (l : SQLexer) (s : list ascii) : Prop :=
  (Ascii.zero ∉ s) ∧
  match s with
  | [] => _currdata l = 0 ∧ input l = []
  | c :: s' => _currdata l = char_code c ∧ input l = map char_code s'
  end.

(** Nothing but the column has changed, and [_longstr] is [s]. *)
Definition keeps (s : list ascii) (l l' : SQLexer) : Prop :=
  _longstr l' = s ∧ _nvalue l' = _nvalue l ∧ _currentline l' = _currentline l.

Lemma keeps_trans s1 s2 l1 l2 l3 : keeps s1 l1 l2 → keeps s2 l2 l3 → keeps s2 l1 l3.
Proof. unfold keeps. intros (?&?&?) (?&?&?). split_and!; congruence. Qed.

Lemma char_code_nonzero c : c ≠ Ascii.zero → char_code c ≠ 0.
Proof.
  intros Hc H0. apply Hc. rewrite <- (code_char_code c), H0. done.
Qed.

Lemma NEXT_look l c s :
  look l (c :: s) → ∃ l', NEXT l = Ok ((), l') ∧ look l' s ∧ keeps (_longstr l) l l'.
Proof.
  intros [Hz [Hc Hi]]. apply not_elem_of_cons in Hz as [_ Hz].
  unfold NEXT, mbind, stM_bind, Next, modify. rewrite Hi. destruct s as [|c' s]; simpl.
  - eexists. split; [done|]. split; [split; [done|done]|done].
  - apply not_elem_of_cons in Hz as [Hc' Hz].
    pose proof (char_code_range c') as Hr. pose proof (char_code_nonzero c' ltac:(done)) as H0.
    destruct (Z.ltb_spec MAX_CHAR (char_code c')) as [Hm|_]; [unfold MAX_CHAR in Hm; lia|].
    destruct (Z.eqb_spec (char_code c') 0) as [|_]; [done|]. simpl.
    eexists. split; [done|]. rewrite u8_byte by done. split; [|done].
    split; [by apply not_elem_of_cons|done].
Qed.

Lemma CUR_look l c s : look l (c :: s) → CUR_CHAR l = Ok (char_code c, l).
Proof. intros [_ [Hc _]]. unfold CUR_CHAR, gets. by rewrite Hc. Qed.

Lemma look_length l s : look l s → (length s ≤ S (length (input l)))%nat.
Proof. intros [_ Hs]. destruct s; simpl; [lia|]. destruct Hs as [_ ->]. rewrite length_map. lia. Qed.

Lemma APPEND_look l s c :
  look l s → ∃ l', APPEND_CHAR c l = Ok ((), l') ∧ look l' s ∧ keeps (_longstr l ++ [code_char c]) l l'.
Proof. intros Hl. eexists. split; [done|]. split; [|done]. by destruct s. Qed.

(** [APPEND_CHAR(CUR_CHAR); NEXT()] *)
Lemma append_next_look {A} (m : () → lexM A) l c s :
  look l (c :: s) →
  ∃ l', (APPEND_CHAR (char_code c) ≫= λ _, NEXT ≫= m) l = m () l' ∧ look l' s ∧
        keeps (_longstr l ++ [c]) l l'.
Proof.
  intros Hl. destruct (APPEND_look l _ (char_code c) Hl) as (l1 & H1 & Hl1 & Hk1).
  destruct (NEXT_look l1 c s Hl1) as (l2 & H2 & Hl2 & Hk2).
  exists l2. rewrite (bind_run _ _ _ _ _ H1), (bind_run _ _ _ _ _ H2). split; [done|]. split; [done|].
  rewrite code_char_code in Hk1. eapply keeps_trans; [done|]. destruct Hk1 as [<- _]. done.
Qed.

(** The character a loop test sees at the front of what is left. *)
Definition front (s : list ascii) : Z := match s with [] => 0 | c :: _ => char_code c end.

Lemma CUR_front l s : look l s → CUR_CHAR l = Ok (front s, l).
Proof. intros [_ Hs]. unfold CUR_CHAR, gets. destruct s; by destruct Hs as [-> _]. Qed.

Lemma append_while_look (P : Z → bool) fuel l s rest :
  look l (s ++ rest) → forallb (λ c, P (char_code c)) s = true → P (front rest) = false →
  (length s < fuel)%nat →
  ∃ l', append_while P fuel l = Ok ((), l') ∧ look l' rest ∧ keeps (_longstr l ++ s) l l'.
Proof.
  revert l s. induction fuel as [|f IH]; intros l s Hl Hs Hr Hf; [lia|].
  cbn [append_while]. rewrite (bind_run _ _ _ _ _ (CUR_front _ _ Hl)).
  destruct s as [|c s]; simpl in *.
  - rewrite Hr. exists l. rewrite app_nil_r. done.
  - apply andb_true_iff in Hs as [Hc Hs]. rewrite Hc.
    destruct (append_next_look (λ _, append_while P f) l c (s ++ rest) Hl) as (l1 & -> & Hl1 & Hk1).
    destruct (IH l1 s Hl1 Hs Hr) as (l2 & H2 & Hl2 & Hk2); [lia|].
    exists l2. split; [done|]. split; [done|]. eapply keeps_trans; [done|].
    destruct Hk1 as [Hk1 _]. by rewrite Hk1, <- app_assoc in Hk2.
Qed.

(** ** Names *)

Section round.
Context {KT : KeywordTable} {FR : FloatReader}.

Lemma chars_left_run l : chars_left l = Ok (S (S (length (input l))), l).
Proof. done. Qed.

Lemma INIT_look l s : look l s → ∃ l', INIT_TEMP_STRING l = Ok ((), l') ∧ look l' s ∧ keeps [] l l'.
Proof. intros Hl. eexists. split; [done|]. split; [|done]. by destruct s. Qed.

Lemma look_fuel l s rest : look l (s ++ rest) → (length s < S (S (length (input l))))%nat.
Proof. intros Hl. apply look_length in Hl. rewrite length_app in Hl. lia. Qed.

Lemma look_no_zero l s rest : look l (s ++ rest) → Ascii.zero ∉ s.
Proof. intros [Hz _]. set_solver. Qed.

Lemma ReadID_look l c s rest :
  look l (c :: s ++ rest) → forallb name_char s = true →
  isalnum (front rest) || isc (front rest) "_" = false →
  ∃ l', ReadID l = Ok (default TK_IDENTIFIER (keyword_code (c :: s)), l') ∧ look l' rest ∧
        keeps (c :: s ++ [Ascii.zero]) l l'.
Proof.
  intros Hl Hs Hr. unfold ReadID.
  destruct (INIT_look l _ Hl) as (l1 & H1 & Hl1 & Hk1). rewrite (bind_run _ _ _ _ _ H1).
  rewrite (bind_run _ _ _ _ _ (CUR_look _ _ _ Hl1)).
  edestruct (append_next_look (A := Z)) as (l2 & E2 & Hl2 & Hk2); [exact Hl1|]. rewrite E2. clear E2.
  rewrite (bind_run _ _ _ _ _ (chars_left_run l2)).
  destruct (append_while_look (λ c, isalnum c || isc c "_") (S (S (length (input l2)))) l2 s rest)
    as (l3 & H3 & Hl3 & Hk3); [done|done|done|by eapply look_fuel|].
  rewrite (bind_run _ _ _ _ _ H3).
  destruct (APPEND_look l3 rest 0 Hl3) as (l4 & H4 & Hl4 & Hk4).
  unfold TERMINATE_BUFFER. rewrite (bind_run _ _ _ _ _ H4).
  assert (Hlong : _longstr l4 = (c :: s) ++ [Ascii.zero]).
  { destruct Hk1 as [Hk1 _], Hk2 as [Hk2 _], Hk3 as [Hk3 _], Hk4 as [Hk4 _].
    by rewrite Hk4, Hk3, Hk2, Hk1. }
  assert (Hz : Ascii.zero ∉ c :: s).
  { eapply (look_no_zero l (c :: s) rest). done. }
  unfold gets at 1. rewrite (bind_run _ _ _ (_longstr l4) l4 eq_refl).
  rewrite Hlong. rewrite (bind_run _ _ _ (default TK_IDENTIFIER (keyword_code (c :: s))) l4)
    by (unfold lift; by rewrite GetIDType_name).
  assert (Hk : keeps (c :: s ++ [Ascii.zero]) l l4).
  { split; [done|]. destruct Hk1 as [_ [??]], Hk2 as [_ [??]], Hk3 as [_ [??]], Hk4 as [_ [??]].
    split; congruence. }
  match goal with |- context [when ?b _] => destruct b end.
  - eexists. split; [reflexivity|]. split; [by destruct rest|done].
  - eexists. split; [reflexivity|]. done.
Qed.
(** ** Integers *)

Definition is_digit (c : ascii) : bool := isdigit (char_code c).

Lemma digit_char d : 0 ≤ d < 10 → char_code (code_char (48 + d)) = 48 + d.
Proof. intros. apply char_code_code. lia. Qed.

Lemma digits_digit fuel n : forallb is_digit (digits fuel n) = true.
Proof.
  assert (Hd : ∀ m : nat, is_digit (code_char (48 + Z.of_nat (m mod 10))) = true).
  { intros m. unfold is_digit. pose proof (Nat.mod_upper_bound m 10 ltac:(lia)).
    rewrite digit_char by lia. apply in_range_true. split; [change (char_code "0") with 48|change (char_code "9") with 57]; lia. }
  revert n. induction fuel as [|f IH]; intros n; cbn [digits]; [cbn [forallb]; by rewrite Hd|].
  case_decide; [cbn [forallb]; by rewrite Hd|]. rewrite forallb_app, IH. cbn [forallb]. by rewrite Hd.
Qed.

(** The value of a digit string, most significant digit first. *)
Definition value (ds : list ascii) : Z := foldl (λ r c, r * 10 + (char_code c - 48)) 0 ds.

Lemma digits_value fuel n : (n ≤ fuel)%nat → value (digits fuel n) = Z.of_nat n.
Proof.
  unfold value. revert n. induction fuel as [|f IH]; intros n Hn; cbn [digits].
  - replace n with 0%nat by lia. done.
  - pose proof (Nat.mod_upper_bound n 10 ltac:(lia)).
    pose proof (Nat.div_mod_eq n 10). case_decide.
    + cbn [foldl]. rewrite digit_char by lia. rewrite Nat.mod_small by lia. lia.
    + rewrite foldl_app, IH by lia.
      cbn [foldl]. rewrite digit_char by lia. lia.
Qed.

(** A printed number has no leading zero. *)
Lemma digits_head fuel n :
  (n ≤ fuel)%nat →
  ∃ c ds, digits fuel n = c :: ds ∧ (c ≠ "0"%char ∨ ds = []).
Proof.
  revert n. induction fuel as [|f IH]; intros n Hn; cbn [digits]; [by eexists _, []; auto|].
  case_decide as Hlt; [by eexists _, []; auto|].
  assert (Hdiv : (1 ≤ n / 10 ≤ f)%nat).
  { pose proof (Nat.div_mod_eq n 10). pose proof (Nat.mod_upper_bound n 10). lia. }
  destruct (IH (n / 10)%nat) as (c & ds & Hds & Hc); [lia|]. rewrite Hds.
  eexists c, _. split; [done|]. left. destruct Hc as [Hc| ->]; [done|].
  intros ->. pose proof (digits_value f (n / 10) ltac:(lia)) as Hv. rewrite Hds in Hv.
  unfold value in Hv. cbn [foldl] in Hv. change (char_code "0") with 48 in Hv. lia.
Qed.

Lemma u32_digit r d : u32 (u32 r * 10 + d) = u32 (r * 10 + d).
Proof.
  unfold u32, wrap. rewrite (Z.add_mod (r mod 2 ^ 32 * 10)), (Z.add_mod (r * 10)) by done.
  by rewrite Z.mul_mod_idemp_l.
Qed.

Lemma LexInteger_value ds :
  Ascii.zero ∉ ds → LexInteger (ds ++ [Ascii.zero]) = u32 (value ds).
Proof.
  intros Hz. unfold LexInteger. rewrite c_str_terminated by done. unfold value.
  change 0 with (u32 0) at 1. generalize 0. induction ds as [|c ds IH]; intros r; [done|].
  apply not_elem_of_cons in Hz as [_ Hz]. cbn [foldl]. rewrite u32_digit. by apply IH.
Qed.

Lemma number_loop_look fuel l ds rest :
  look l (ds ++ rest) → forallb is_digit ds = true →
  isc (front rest) "." || isdigit (front rest) || isexponent (front rest) = false →
  (length ds < fuel)%nat →
  ∃ l', number_loop fuel TINT l = Ok (TINT, l') ∧ look l' rest ∧ keeps (_longstr l ++ ds) l l'.
Proof.
  revert l ds. induction fuel as [|f IH]; intros l ds Hl Hd Hr Hf; [lia|].
  cbn [number_loop]. rewrite (bind_run _ _ _ _ _ (CUR_front _ _ Hl)).
  destruct ds as [|c ds]; simpl in *.
  - rewrite Hr. exists l. rewrite app_nil_r. done.
  - apply andb_true_iff in Hd as [Hc Hd]. unfold is_digit in Hc. rewrite Hc, orb_true_r. simpl.
    pose proof (isdigit_range _ Hc) as Hcr.
    assert (isc (char_code c) "." = false ∧ isexponent (char_code c) = false) as [-> ->].
    { split; [apply Z.eqb_neq; change (char_code ".") with 46; lia|].
      destruct (isexponent (char_code c)) eqn:He; [|done]. apply isexponent_range in He. lia. }
    simpl. rewrite (bind_run _ _ _ TINT l eq_refl). rewrite (bind_run _ _ _ _ _ (CUR_look _ _ _ Hl)).
    destruct (append_next_look (λ _, number_loop f TINT) l c (ds ++ rest) Hl) as (l1 & -> & Hl1 & Hk1).
    destruct (IH l1 ds Hl1 Hd Hr) as (l2 & H2 & Hl2 & Hk2); [lia|].
    exists l2. split; [done|]. split; [done|]. eapply keeps_trans; [done|].
    destruct Hk1 as [Hk1 _]. by rewrite Hk1, <- app_assoc in Hk2.
Qed.

Lemma ReadNumber_look l c ds rest :
  look l (c :: ds ++ rest) → forallb is_digit (c :: ds) = true → c ≠ "0"%char ∨ ds = [] →
  isc (front rest) "." || isdigit (front rest) || isexponent (front rest) = false →
  isc (toupper (front rest)) "X" = false →
  ∃ l', ReadNumber l = Ok (TK_INTEGER, l') ∧ look l' rest ∧
        _nvalue l' = s32 (value (c :: ds)) ∧ _currentline l' = _currentline l.
Proof.
  intros Hl Hd Hc Hr Hx. unfold ReadNumber. rewrite (bind_run _ _ _ _ _ (CUR_look _ _ _ Hl)).
  destruct (INIT_look l _ Hl) as (l1 & H1 & Hl1 & Hk1). rewrite (bind_run _ _ _ _ _ H1).
  destruct (NEXT_look l1 _ _ Hl1) as (l2 & H2 & Hl2 & Hk2). rewrite (bind_run _ _ _ _ _ H2).
  rewrite (bind_run _ _ _ _ _ (CUR_front _ _ Hl2)), (bind_run _ _ _ _ _ (chars_left_run l2)).
  assert (isc (char_code c) "0" && (isc (toupper (front (ds ++ rest))) "X" || scisodigit (front (ds ++ rest)))
          = false) as ->.
  { destruct Hc as [Hc| ->].
    - apply andb_false_iff. left. apply Z.eqb_neq. intros Heq. apply Hc.
      by rewrite <- (code_char_code c), Heq.
    - apply andb_false_iff. right. simpl. rewrite Hx. simpl.
      destruct (scisodigit (front rest)) eqn:Ho; [|done]. apply scisodigit_range in Ho.
      apply orb_false_iff in Hr as [Hr _]. apply orb_false_iff in Hr as [_ Hr].
      unfold isdigit, in_range in Hr. change (char_code "0") with 48 in Hr. change (char_code "9") with 57 in Hr.
      apply andb_false_iff in Hr as [Hr|Hr]; bool_to_prop; lia. }
  destruct (APPEND_look l2 _ (char_code c) Hl2) as (l3 & H3 & Hl3 & Hk3).
  cbn [forallb] in Hd. apply andb_true_iff in Hd as [_ Hd].
  destruct (number_loop_look (S (S (length (input l2)))) l3 ds rest) as (l4 & H4 & Hl4 & Hk4);
    [done|done|done|by eapply look_fuel|].
  rewrite (bind_run _ _ _ TINT l4) by (by rewrite (bind_run _ _ _ _ _ H3)).
  destruct (APPEND_look l4 rest 0 Hl4) as (l5 & H5 & Hl5 & Hk5).
  unfold TERMINATE_BUFFER. rewrite (bind_run _ _ _ _ _ H5).
  rewrite (bind_run _ _ _ (_longstr l5) l5 eq_refl).
  eexists. split; [reflexivity|]. split; [by destruct rest|]. cbn [set_values _nvalue _currentline].
  destruct Hk1 as [L1 [_ N1]], Hk2 as [L2 [_ N2]], Hk3 as [L3 [_ N3]], Hk4 as [L4 [_ N4]], Hk5 as [L5 [_ N5]].
  split; [|congruence].
  replace (_longstr l5) with ((c :: ds) ++ [Ascii.zero]) by (by rewrite L5, L4, L3, L2, L1, code_char_code).
  rewrite (LexInteger_value (c :: ds)) by (by eapply (look_no_zero l (c :: ds) rest)).
  unfold s32. by rewrite (u32_small (u32 _)) by apply u32_range.
Qed.
(** ** Strings and characters *)

Lemma hex_char_ok n :
  0 ≤ n < 16 → isxdigit (char_code (hex_char n)) = true ∧ hex_digit (char_code (hex_char n)) = n.
Proof.
  intros Hn.
  assert (Hall : Forall (λ k, isxdigit (char_code (hex_char k)) = true ∧ hex_digit (char_code (hex_char k)) = k)
                   (seqZ 0 16)) by (repeat constructor).
  rewrite Forall_forall in Hall. apply Hall, elem_of_seqZ. lia.
Qed.

(** Two hexadecimal digits are read back. *)
Lemma hex_escape_look l n rest :
  0 ≤ n < 256 → look l ("x"%char :: hex_char (n / 16) :: hex_char (n mod 16) :: rest) →
  ∃ l' temp, ProcessStringHexEscape 2 l = Ok (temp, l') ∧ strtoul16 temp = n ∧ look l' rest ∧
             keeps (_longstr l) l l'.
Proof.
  intros Hn Hl. unfold ProcessStringHexEscape.
  destruct (hex_char_ok (n / 16)) as [X1 V1].
  { split; [apply Z.div_pos; lia|apply Z.div_lt_upper_bound; lia]. }
  destruct (hex_char_ok (n mod 16)) as [X2 V2]; [apply Z.mod_pos_bound; lia|].
  destruct (NEXT_look l _ _ Hl) as (l1 & H1 & Hl1 & Hk1). rewrite (bind_run _ _ _ _ _ H1).
  rewrite (bind_run _ _ _ _ _ (CUR_look _ _ _ Hl1)), X1. cbn [negb when].
  rewrite (bind_run _ _ _ () l1 eq_refl). cbn [hex_escape_loop].
  rewrite (bind_run _ _ _ _ _ (CUR_look _ _ _ Hl1)), X1.
  destruct (NEXT_look l1 _ _ Hl1) as (l2 & H2 & Hl2 & Hk2). rewrite (bind_run _ _ _ _ _ H2).
  rewrite (bind_run _ _ _ _ _ (CUR_look _ _ _ Hl2)), X2.
  destruct (NEXT_look l2 _ _ Hl2) as (l3 & H3 & Hl3 & Hk3). rewrite (bind_run _ _ _ _ _ H3).
  eexists l3, _. split; [reflexivity|]. split.
  - unfold strtoul16. cbn [app foldl]. rewrite V1, V2. pose proof (Z.div_mod n 16 ltac:(done)). lia.
  - split; [done|]. destruct Hk1 as (L1 & ? & ?), Hk2 as (L2 & ? & ?), Hk3 as (L3 & ? & ?).
    split_and!; congruence.
Qed.

(** The characters of a string constant: a hexadecimal escape, an escape with a
    letter, and any other character. *)
Lemma read_hex_char l c rest :
  look l (["\"; "x"; hex_char (char_code c / 16); hex_char (char_code c mod 16)]%char ++ rest) →
  ∃ l', read_string_char false l = Ok ((), l') ∧ look l' rest ∧ keeps (_longstr l ++ [c]) l l'.
Proof.
  unfold read_string_char. pose proof (char_code_range c) as Hr. intros Hl.
  rewrite (bind_run _ _ _ _ _ (CUR_look _ _ _ Hl)). cbn [isc].
  change (char_code "\" =? SQUIRREL_EOB) with false. change (isc (char_code "\") "010") with false.
  change (isc (char_code "\") "\") with true. cbn match.
  destruct (NEXT_look l _ _ Hl) as (l1 & H1 & Hl1 & Hk1). rewrite (bind_run _ _ _ _ _ H1).
  unfold read_escape. rewrite (bind_run _ _ _ _ _ (CUR_look _ _ _ Hl1)).
  change (isc (char_code "x") "x") with true. cbn match.
  destruct (hex_escape_look l1 (char_code c) rest Hr Hl1) as (l2 & temp & H2 & Hv & Hl2 & Hk2).
  rewrite (bind_run _ _ _ _ _ H2), Hv.
  destruct (APPEND_look l2 rest (char_code c) Hl2) as (l3 & H3 & Hl3 & Hk3).
  exists l3. split; [done|]. split; [done|]. rewrite code_char_code in Hk3.
  destruct Hk1 as (L1 & ? & ?), Hk2 as (L2 & ? & ?), Hk3 as (L3 & ? & ?). split_and!; congruence.
Qed.

Lemma read_letter_char l c e rest :
  isc (char_code e) "x" || (isc (char_code e) "U" || isc (char_code e) "u") = false →
  simple_escape (char_code e) = Some (char_code c) →
  look l ("\"%char :: e :: rest) →
  ∃ l', read_string_char false l = Ok ((), l') ∧ look l' rest ∧ keeps (_longstr l ++ [c]) l l'.
Proof.
  unfold read_string_char. intros [Hx Hu]%orb_false_iff Hs Hl.
  rewrite (bind_run _ _ _ _ _ (CUR_look _ _ _ Hl)). cbn [isc].
  change (char_code "\" =? SQUIRREL_EOB) with false. change (isc (char_code "\") "010") with false.
  change (isc (char_code "\") "\") with true. cbn match.
  destruct (NEXT_look l _ _ Hl) as (l1 & H1 & Hl1 & Hk1). rewrite (bind_run _ _ _ _ _ H1).
  unfold read_escape. rewrite (bind_run _ _ _ _ _ (CUR_look _ _ _ Hl1)), Hx, Hu, Hs.
  destruct (APPEND_look l1 _ (char_code c) Hl1) as (l2 & H2 & Hl2 & Hk2). rewrite (bind_run _ _ _ _ _ H2).
  destruct (NEXT_look l2 _ _ Hl2) as (l3 & H3 & Hl3 & Hk3).
  exists l3. split; [done|]. split; [done|]. rewrite code_char_code in Hk2.
  destruct Hk1 as (L1 & ? & ?), Hk2 as (L2 & ? & ?), Hk3 as (L3 & ? & ?). split_and!; congruence.
Qed.

Lemma read_plain_char l c rest :
  32 ≤ char_code c → isc (char_code c) "\" = false → look l (c :: rest) →
  ∃ l', read_string_char false l = Ok ((), l') ∧ look l' rest ∧ keeps (_longstr l ++ [c]) l l'.
Proof.
  unfold read_string_char. intros He H92 Hl. rewrite (bind_run _ _ _ _ _ (CUR_look _ _ _ Hl)).
  destruct (Z.eqb_spec (char_code c) SQUIRREL_EOB) as [|_]; [unfold SQUIRREL_EOB in *; lia|].
  replace (isc (char_code c) "010") with false.
  2:{ symmetry. apply Z.eqb_neq. change (char_code "010") with 10. lia. }
  rewrite H92. destruct (APPEND_look l _ (char_code c) Hl) as (l1 & H1 & Hl1 & Hk1).
  rewrite (bind_run _ _ _ _ _ H1). destruct (NEXT_look l1 _ _ Hl1) as (l2 & H2 & Hl2 & Hk2).
  exists l2. split; [done|]. split; [done|]. rewrite code_char_code in Hk1.
  destruct Hk1 as (L1 & ? & ?), Hk2 as (L2 & ? & ?). split_and!; congruence.
Qed.

Lemma quote_char_look l c rest :
  look l (quote_char c ++ rest) →
  ∃ l', read_string_char false l = Ok ((), l') ∧ look l' rest ∧ keeps (_longstr l ++ [c]) l l'.
Proof.
  unfold quote_char. destruct (needs_escape c) eqn:He; [apply read_hex_char|].
  unfold needs_escape in He. rewrite !orb_false_iff in He. destruct He as [[[He _] _] H92].
  apply Z.ltb_ge in He. by apply read_plain_char.
Qed.

(** No printed character can be taken for the closing quote. *)
Lemma quote_char_front c rest nd :
  nd = char_code "034" ∨ nd = char_code "'" → (front (quote_char c ++ rest) =? nd) = false.
Proof.
  intros Hnd. unfold quote_char. destruct (needs_escape c) eqn:He; simpl.
  - by destruct Hnd as [-> | ->].
  - unfold needs_escape in He. apply orb_false_iff in He as [He _].
    apply orb_false_iff in He as [He H39]. apply orb_false_iff in He as [_ H34].
    by destruct Hnd as [-> | ->].
Qed.

(** A way to write characters inside quotes that is read back. *)
Record encodes (enc : ascii → list ascii) : Prop := {
  enc_read c l rest : look l (enc c ++ rest) →
    ∃ l', read_string_char false l = Ok ((), l') ∧ look l' rest ∧ keeps (_longstr l ++ [c]) l l';
  enc_front c rest nd : nd = char_code "034" ∨ nd = char_code "'" → (front (enc c ++ rest) =? nd) = false;
  enc_nonempty c : enc c ≠ []
}.

Lemma quote_encodes : encodes quote_char.
Proof.
  split; [intros c l rest; apply quote_char_look|intros c rest nd; apply quote_char_front|].
  intros c. unfold quote_char. by destruct (needs_escape c).
Qed.

Section encoded.
Context (enc : ascii → list ascii) (Henc : encodes enc).
Let Hread := enc_read enc Henc.
Let Hfront := enc_front enc Henc.
Let Hne := enc_nonempty enc Henc.

Lemma read_string_loop_look fuel l s q rest :
  look l ((s ≫= enc) ++ q :: rest) → q = "034"%char ∨ q = "'"%char →
  (length s < fuel)%nat →
  ∃ l', read_string_loop fuel (char_code q) false l = Ok ((), l') ∧ look l' rest ∧
        keeps (_longstr l ++ s) l l'.
Proof.
  intros Hl Hq. revert l s Hl. induction fuel as [|f IH]; intros l s Hl Hf; [lia|].
  assert (Hnd : char_code q = char_code "034" ∨ char_code q = char_code "'")
    by (destruct Hq as [-> | ->]; auto).
  cbn [read_string_loop]. destruct s as [|c s].
  - simpl in Hl. rewrite (bind_run _ _ _ _ _ (CUR_look _ _ _ Hl)), Z.eqb_refl. cbn [negb].
    destruct (NEXT_look l _ _ Hl) as (l1 & H1 & Hl1 & Hk1). rewrite (bind_run _ _ _ _ _ H1).
    rewrite (bind_run _ _ _ _ _ (CUR_front _ _ Hl1)). exists l1. rewrite app_nil_r. done.
  - rewrite bind_cons, <- app_assoc in Hl. rewrite (bind_run _ _ _ _ _ (CUR_front _ _ Hl)).
    rewrite (Hfront c) by done. cbn [negb].
    destruct (Hread c l _ Hl) as (l1 & H1 & Hl1 & Hk1). rewrite (bind_run _ _ _ _ _ H1).
    destruct (IH l1 s Hl1) as (l2 & H2 & Hl2 & Hk2); [simpl in Hf; lia|].
    exists l2. split; [done|]. split; [done|]. eapply keeps_trans; [done|].
    destruct Hk1 as [Hk1 _]. by rewrite Hk1, <- app_assoc in Hk2.
Qed.

Lemma bind_enc_length s : (length s ≤ length (s ≫= enc))%nat.
Proof.
  induction s as [|c s IH]; [done|]. rewrite bind_cons, length_app.
  assert (1 ≤ length (enc c))%nat by (pose proof (Hne c); destruct (enc c); [done|simpl; lia]).
  simpl. lia.
Qed.

(** Up to and with the terminating NUL. *)
Lemma string_body_look (m : lexM Z) l s q rest :
  look l (q :: (s ≫= enc) ++ q :: rest) → q = "034"%char ∨ q = "'"%char →
  ∃ l', (INIT_TEMP_STRING;; NEXT;; eob ← IS_EOB;
         if (eob : bool) then mret (-1)
         else f ← chars_left; read_string_loop f (char_code q) false;; TERMINATE_BUFFER;; m) l
        = m l' ∧ look l' rest ∧ keeps (s ++ [Ascii.zero]) l l'.
Proof.
  intros Hl Hq. destruct (INIT_look l _ Hl) as (l1 & H1 & Hl1 & Hk1). rewrite (bind_run _ _ _ _ _ H1).
  destruct (NEXT_look l1 _ _ Hl1) as (l2 & H2 & Hl2 & Hk2). rewrite (bind_run _ _ _ _ _ H2).
  assert (Heob : IS_EOB l2 = Ok (false, l2)).
  { unfold IS_EOB. rewrite (bind_run _ _ _ _ _ (CUR_front _ _ Hl2)).
    assert (0 < front ((s ≫= enc) ++ q :: rest)); [|unfold SQUIRREL_EOB; by rewrite (proj2 (Z.leb_gt _ _))].
    pose proof (proj1 Hl2) as Hz. destruct ((s ≫= enc) ++ q :: rest) as [|c t] eqn:He.
    { by destruct (s ≫= enc). }
    apply not_elem_of_cons in Hz as [Hz _]. simpl. pose proof (char_code_range c).
    pose proof (char_code_nonzero c ltac:(done)). lia. }
  rewrite (bind_run _ _ _ _ _ Heob), (bind_run _ _ _ _ _ (chars_left_run l2)).
  destruct (read_string_loop_look (S (S (length (input l2)))) l2 s q rest Hl2 Hq)
    as (l3 & H3 & Hl3 & Hk3).
  { pose proof (look_fuel _ _ _ Hl2). pose proof (bind_enc_length s). lia. }
  rewrite (bind_run _ _ _ _ _ H3). destruct (APPEND_look l3 rest 0 Hl3) as (l4 & H4 & Hl4 & Hk4).
  unfold TERMINATE_BUFFER. rewrite (bind_run _ _ _ _ _ H4). exists l4. split; [done|]. split; [done|].
  destruct Hk1 as (L1 & ? & ?), Hk2 as (L2 & ? & ?), Hk3 as (L3 & ? & ?), Hk4 as (L4 & ? & ?).
  split_and!; [|congruence|congruence]. by rewrite L4, L3, L2, L1.
Qed.
Lemma ReadString_look l s rest :
  look l ("034"%char :: (s ≫= enc) ++ "034"%char :: rest) →
  ∃ l', ReadString (char_code "034") false l = Ok (TK_STRING_LITERAL, l') ∧ look l' rest ∧
        _longstr l' = s ++ [Ascii.zero] ∧ _currentline l' = _currentline l.
Proof.
  intros Hl. unfold ReadString. edestruct string_body_look as (l1 & E & Hl1 & Hk1); [exact Hl|by left|].
  rewrite E. clear E. destruct Hk1 as (L1 & _ & C1).
  eexists. split; [reflexivity|]. split; [by destruct rest|]. done.
Qed.
End encoded.

Lemma ReadChar_look l c rest :
  look l ("'"%char :: quote_char c ++ "'"%char :: rest) →
  ∃ l', ReadString (char_code "'") false l = Ok (TK_INTEGER, l') ∧ look l' rest ∧
        _nvalue l' = char_code c ∧ _currentline l' = _currentline l.
Proof.
  intros Hl. unfold ReadString.
  edestruct (string_body_look quote_char quote_encodes) as (l1 & E & Hl1 & Hk1); [|by right|].
  { replace (quote_char c) with ([c] ≫= quote_char) in Hl by apply app_nil_r. exact Hl. }
  rewrite E. clear E. destruct Hk1 as (L1 & _ & C1).
  unfold gets at 1. rewrite (bind_run _ _ _ _ _ eq_refl), L1. cbn [length app].
  eexists. split; [reflexivity|]. split; [by destruct rest|]. cbn. by rewrite L1.
Qed.
(** ** Turns of [Lex] *)

Lemma blank_cases w : blank w = true → w = " "%char ∨ w = "009"%char ∨ w = "010"%char ∨ w = "013"%char.
Proof.
  unfold blank, existsb. rewrite !orb_true_iff, !isc_true.
  assert (Hinj : ∀ a, char_code w = char_code a → w = a).
  { intros a Ha. by rewrite <- (code_char_code w), Ha, code_char_code. }
  intros [?|[?|[?|[?|?]]]]; auto. done.
Qed.

Lemma turn_name l c s rest :
  look l (c :: s ++ rest) → name_start c = true →
  lex_turn l = (t ← ReadID; RETURN_TOKEN t) l.
Proof.
  intros Hl Hc. unfold lex_turn. rewrite (bind_run _ _ _ _ _ (CUR_look _ _ _ Hl)).
  clear Hl. destruct c as [[][][][][][][][]]; try discriminate Hc; reflexivity.
Qed.

Lemma turn_digit l c s rest :
  look l (c :: s ++ rest) → is_digit c = true →
  lex_turn l = (t ← ReadNumber; RETURN_TOKEN t) l.
Proof.
  intros Hl Hc. unfold lex_turn. rewrite (bind_run _ _ _ _ _ (CUR_look _ _ _ Hl)).
  clear Hl. destruct c as [[][][][][][][][]]; try discriminate Hc; reflexivity.
Qed.

Lemma turn_quote l q rest :
  look l (q :: rest) → q = "034"%char ∨ q = "'"%char →
  lex_turn l = (stype ← ReadString (char_code q) false;
                if negb (stype =? -1) then RETURN_TOKEN stype else Error "error parsing the string") l.
Proof.
  intros Hl Hq. unfold lex_turn. rewrite (bind_run _ _ _ _ _ (CUR_look _ _ _ Hl)).
  by destruct Hq as [-> | ->].
Qed.

Lemma turn_blank l w rest :
  look l (w :: rest) → blank w = true →
  ∃ l', lex_turn l = Ok (None, l') ∧ look l' rest ∧ _currentline l' = _currentline l + newlines [w].
Proof.
  intros Hl Hw. unfold lex_turn. rewrite (bind_run _ _ _ _ _ (CUR_look _ _ _ Hl)).
  destruct (NEXT_look l _ _ Hl) as (l1 & H1 & Hl1 & (_ & _ & Hk1)).
  destruct (blank_cases w Hw) as [-> |[-> |[-> | ->]]].
  - exists l1. rewrite Hk1. split; [|split; [done|by rewrite Z.add_0_r]].
    transitivity ((NEXT;; continue) l); [done|]. by rewrite (bind_run _ _ _ _ _ H1).
  - exists l1. rewrite Hk1. split; [|split; [done|by rewrite Z.add_0_r]].
    transitivity ((NEXT;; continue) l); [done|]. by rewrite (bind_run _ _ _ _ _ H1).
  - clear l1 H1 Hl1 Hk1. set (l1 := set_tokens (char_code "010") (_curtoken l)
      (set_pos (_currentline l + 1) (_lasttokenline l) (_currentcolumn l) l)).
    assert (Hl1 : look l1 ("010"%char :: rest)) by (by destruct rest).
    destruct (NEXT_look l1 _ _ Hl1) as (l2 & H2 & Hl2 & (_ & _ & Hk2)).
    exists (set_pos (_currentline l2) (_lasttokenline l2) 1 l2). split; [|split; [by destruct rest|]].
    + transitivity ((NEXT;; modify (λ l, set_pos (_currentline l) (_lasttokenline l) 1 l);; continue) l1);
        [done|]. by rewrite (bind_run _ _ _ _ _ H2).
    + cbn [set_pos _currentline]. rewrite Hk2. done.
  - exists l1. rewrite Hk1. split; [|split; [done|by rewrite Z.add_0_r]].
    transitivity ((NEXT;; continue) l); [done|]. by rewrite (bind_run _ _ _ _ _ H1).
Qed.

(** Following [lex_turn] on known characters. *)
Ltac op_step :=
  lazymatch goal with
  | |- context [(if ?b then ?x else ?y) ?l] =>
      let v := eval vm_compute in b in
      lazymatch v with
      | true => change ((if b then x else y) l) with (x l)
      | false => change ((if b then x else y) l) with (y l)
      end
  | Hl : look ?l (?c :: ?s) |- context [(CUR_CHAR ≫= _) ?l] =>
      rewrite (bind_run _ _ _ _ _ (CUR_look _ _ _ Hl))
  | Hl : look ?l (?c :: ?s) |- context [(NEXT ≫= _) ?l] =>
      let l1 := fresh "l" in let Hr := fresh in let Hl1 := fresh "Hl" in let Hk := fresh "Hk" in
      destruct (NEXT_look l c s Hl) as (l1 & Hr & Hl1 & (_ & _ & Hk));
      rewrite (bind_run _ _ _ _ _ Hr); clear Hr Hl
  | |- context [(when ?b ?m ≫= ?f) ?l] =>
      let v := eval vm_compute in b in
      lazymatch v with false => change ((when b m ≫= f) l) with (f () l); cbv beta end
  | |- context [if_next ?a ?t ?m ?l] =>
      change (if_next a t m l) with ((c ← CUR_CHAR; if isc c a then NEXT;; RETURN_TOKEN t else m) l)
  | |- context [tok ?a ?l] => change (tok a l) with (RETURN_TOKEN (char_code a) l)
  end.

Lemma turn_operators :
  Forall (λ op, ∀ l w rest, blank w = true → look l (op.1 ++ w :: rest) →
    ∃ l', lex_turn l = Ok (Some op.2, l') ∧ look l' (w :: rest) ∧ _currentline l' = _currentline l)
    operators.
Proof.
  unfold operators. repeat (apply Forall_cons; split); [..|apply Forall_nil; done];
    intros l w rest Hw Hl; cbn [fst snd app] in *;
    destruct (blank_cases w Hw) as [-> |[-> |[-> | ->]]]; unfold lex_turn; repeat op_step;
    match goal with Hl : look ?l _ |- context [RETURN_TOKEN ?t ?l] =>
      exists (set_tokens t (_curtoken l) l); split; [done|]; split; [done|] end;
    cbn [set_tokens _currentline]; congruence.
Qed.

Lemma turn_operator l s code w rest :
  operator_code s = Some code → look l (s ++ w :: rest) → blank w = true →
  ∃ l', lex_turn l = Ok (Some code, l') ∧ look l' (w :: rest) ∧ _currentline l' = _currentline l.
Proof.
  intros Hop Hl Hw. apply fmap_Some in Hop as ([i [s' z]] & Hf & ->).
  apply list_find_Some in Hf as (Hi & Hs & _). simpl in Hs. subst s'.
  pose proof turn_operators as Hall. rewrite Forall_forall in Hall.
  by apply (Hall (s, z) (list_elem_of_lookup_2 _ _ _ Hi)).
Qed.
(** One printed token. *)
Lemma blank_front w rest :
  blank w = true →
  isalnum (front (w :: rest)) || isc (front (w :: rest)) "_" = false ∧
  isc (front (w :: rest)) "." || isdigit (front (w :: rest)) || isexponent (front (w :: rest)) = false ∧
  isc (toupper (front (w :: rest))) "X" = false.
Proof. intros Hw. by destruct (blank_cases w Hw) as [-> |[-> |[-> | ->]]]. Qed.

Lemma RETURN_look l t s :
  look l s → RETURN_TOKEN t l = Ok (Some t, set_tokens t (_curtoken l) l) ∧
             look (set_tokens t (_curtoken l) l) s.
Proof. intros Hl. split; [done|]. by destruct s. Qed.

(** At [l] the lexer reads token [t] and stops in front of [s]. *)
Definition reads (l : SQLexer) (t : token) (s : list ascii) : Prop :=
  ∃ l', lex_turn l = Ok (Some (tk t), l') ∧ look l' s ∧ token_of (tk t) l' = t ∧
        _currentline l' = _currentline l.

Lemma reads_name l c s w rest :
  name_start c = true → forallb name_char s = true → look l (c :: s ++ w :: rest) → blank w = true →
  reads l (expected (SName (c :: s)) (_currentline l)) (w :: rest).
Proof.
  intros Hc Hs Hl Hw. destruct (blank_front w rest Hw) as (Hf1 & _ & _).
  unfold reads. rewrite (turn_name l c s (w :: rest)) by done.
  destruct (ReadID_look l c s (w :: rest) Hl Hs Hf1) as (l1 & H1 & Hl1 & (L1 & _ & C1)).
  rewrite (bind_run _ _ _ _ _ H1). cbn [expected tk].
  set (code := default TK_IDENTIFIER (keyword_code (c :: s))).
  destruct (RETURN_look l1 code _ Hl1) as [-> Hl2]. eexists. split; [done|]. split; [done|]. split; [|done].
  unfold token_of. cbn [set_tokens _longstr _currentline]. rewrite C1.
  assert (code ≠ TK_STRING_LITERAL ∧ code ≠ TK_INTEGER ∧ code ≠ TK_FLOAT) as (H2 & H3 & H4).
  { unfold code. destruct (keyword_code (c :: s)) as [z|] eqn:Hk; simpl; [|done].
    apply keyword_code_range in Hk. unfold TK_STRING_LITERAL, TK_INTEGER, TK_FLOAT. lia. }
  apply Z.eqb_neq in H2, H3, H4. rewrite H2, H3, H4, orb_false_r. f_equal.
  destruct ((code =? TK_IDENTIFIER) || (code =? TK_CONSTRUCTOR)); [|done]. f_equal. rewrite L1.
  change (c :: s ++ [Ascii.zero]) with ((c :: s) ++ [Ascii.zero]). apply removelast_last.
Qed.

Lemma reads_integer l n w rest :
  look l (digits n n ++ w :: rest) → blank w = true →
  reads l (expected (SInteger n) (_currentline l)) (w :: rest).
Proof.
  intros Hl Hw. destruct (blank_front w rest Hw) as (_ & Hf2 & Hf3).
  destruct (digits_head n n ltac:(lia)) as (c & ds & Hds & Hc). pose proof (digits_digit n n) as Hd.
  pose proof (digits_value n n ltac:(lia)) as Hv. rewrite Hds in Hl, Hd, Hv.
  assert (Hc' : is_digit c = true) by (simpl in Hd; by apply andb_true_iff in Hd as [? _]).
  unfold reads. rewrite (turn_digit l c ds (w :: rest)) by done.
  destruct (ReadNumber_look l c ds (w :: rest) Hl Hd Hc Hf2 Hf3) as (l1 & H1 & Hl1 & N1 & C1).
  rewrite (bind_run _ _ _ _ _ H1). destruct (RETURN_look l1 TK_INTEGER _ Hl1) as [-> Hl2].
  eexists. split; [done|]. split; [done|]. split; [|done].
  unfold token_of. cbn [set_tokens _nvalue _currentline expected tk]. rewrite N1, C1, Hv. done.
Qed.

Lemma reads_string enc l s rest :
  encodes enc →
  look l ("034"%char :: (s ≫= enc) ++ "034"%char :: rest) →
  reads l (expected (SString s) (_currentline l)) rest.
Proof.
  intros Henc Hl. unfold reads. rewrite (turn_quote l _ _ Hl) by auto.
  destruct (ReadString_look enc Henc l s rest Hl) as (l1 & H1 & Hl1 & L1 & C1).
  rewrite (bind_run _ _ _ _ _ H1). destruct (RETURN_look l1 TK_STRING_LITERAL _ Hl1) as [E Hl2].
  eexists. split; [exact E|]. split; [done|]. split; [|done].
  unfold token_of. cbn [set_tokens _longstr _currentline expected tk]. rewrite L1, C1.
  by rewrite removelast_last.
Qed.

Lemma reads_char l c rest :
  look l ("'"%char :: quote_char c ++ "'"%char :: rest) →
  reads l (expected (SChar c) (_currentline l)) rest.
Proof.
  intros Hl. unfold reads. rewrite (turn_quote l _ _ Hl) by auto.
  destruct (ReadChar_look l c rest Hl) as (l1 & H1 & Hl1 & N1 & C1).
  rewrite (bind_run _ _ _ _ _ H1). destruct (RETURN_look l1 TK_INTEGER _ Hl1) as [E Hl2].
  eexists. split; [exact E|]. split; [done|]. split; [|done].
  unfold token_of. cbn [set_tokens _nvalue _currentline expected tk]. rewrite N1, C1. done.
Qed.

(** No operator is reported with a value. *)
Lemma operator_value s code l :
  operator_code s = Some code → token_of code l = mkToken code VNone (_currentline l).
Proof.
  intros Hop. apply fmap_Some in Hop as ([i [s' z]] & Hf & ->).
  apply list_find_Some in Hf as (Hi & _ & _). apply list_elem_of_lookup_2 in Hi. simpl.
  assert (Hall : Forall (λ op, (op.2 <=? 255) || (262 <=? op.2) && negb (op.2 =? TK_CONSTRUCTOR) = true) operators)
    by (repeat constructor).
  rewrite Forall_forall in Hall. specialize (Hall _ Hi). simpl in Hall.
  unfold token_of, TK_IDENTIFIER, TK_STRING_LITERAL, TK_INTEGER, TK_FLOAT, TK_CONSTRUCTOR in *.
  destruct (Z.eqb_spec z 258), (Z.eqb_spec z 259), (Z.eqb_spec z 310), (Z.eqb_spec z 260), (Z.eqb_spec z 261);
    subst; done.
Qed.

Lemma reads_operator l s w rest :
  printable (SOperator s) = true → look l (s ++ w :: rest) → blank w = true →
  reads l (expected (SOperator s) (_currentline l)) (w :: rest).
Proof.
  simpl. destruct (operator_code s) as [code|] eqn:Hop; [|done]. intros _ Hl Hw.
  destruct (turn_operator l s code w rest Hop Hl Hw) as (l1 & H1 & Hl1 & C1).
  exists l1. cbn [expected default tk]. split; [done|]. split; [done|]. split; [|done].
  by rewrite (operator_value s), C1.
Qed.

(** One printed token. *)
Lemma reads_token l t w rest :
  printable t = true → look l (print t ++ w :: rest) → blank w = true →
  reads l (expected t (_currentline l)) (w :: rest).
Proof.
  intros Hp Hl Hw. destruct t as [[|c s]|n|s|c|s]; cbn [print] in Hl.
  - done.
  - simpl in Hp. apply andb_true_iff in Hp as [? ?]. by apply reads_name.
  - by apply reads_integer.
  - rewrite <- app_comm_cons, <- app_assoc in Hl. apply (reads_string quote_char); [apply quote_encodes|done].
  - rewrite <- app_comm_cons, <- app_assoc in Hl. by apply reads_char.
  - by apply reads_operator.
Qed.

(** ** The whole text *)

Lemma tk_nonzero t line : printable t = true → tk (expected t line) ≠ 0.
Proof.
  destruct t as [s|n|s|c|s]; simpl; intros Hp; try done.
  - destruct (keyword_code s) as [z|] eqn:Hk; simpl; [|done]. apply keyword_code_range in Hk. lia.
  - destruct (operator_code s) as [z|] eqn:Hop; [|done]. simpl.
    apply fmap_Some in Hop as ([i [s' z']] & Hf & ->). apply list_find_Some in Hf as (Hi & _ & _).
    apply list_elem_of_lookup_2 in Hi. simpl.
    assert (Hall : Forall (λ op, negb (op.2 =? 0) = true) operators) by (repeat constructor).
    rewrite Forall_forall in Hall. specialize (Hall _ Hi). by apply negb_true_iff, Z.eqb_neq in Hall.
Qed.

Lemma front_nonzero c s : Ascii.zero ∉ c :: s → (front (c :: s) =? SQUIRREL_EOB) = false.
Proof.
  intros [Hz _]%not_elem_of_cons. apply Z.eqb_neq. simpl. by apply char_code_nonzero.
Qed.

Lemma newlines_app s1 s2 : newlines (s1 ++ s2) = newlines s1 + newlines s2.
Proof. unfold newlines. by rewrite map_app, nl_app. Qed.

(** Blanks are skipped and their newlines counted. *)
Lemma lex_loop_blanks fuel l ws s :
  look l (ws ++ s) → forallb blank ws = true → (length ws ≤ fuel)%nat →
  ∃ l', lex_loop fuel l = lex_loop (fuel - length ws) l' ∧ look l' s ∧
        _currentline l' = _currentline l + newlines ws.
Proof.
  revert fuel l. induction ws as [|w ws IH]; intros fuel l Hl Hb Hf.
  - exists l. rewrite Nat.sub_0_r. split; [done|]. split; [done|]. change (newlines []) with 0. lia.
  - simpl in Hb. apply andb_true_iff in Hb as [Hw Hb]. destruct fuel as [|f]; simpl in Hf; [lia|].
    destruct (turn_blank l w (ws ++ s) Hl Hw) as (l1 & H1 & Hl1 & C1).
    destruct (IH f l1 Hl1 Hb) as (l2 & H2 & Hl2 & C2); [lia|].
    exists l2. split; [|split; [done|]].
    + cbn [lex_loop]. rewrite (bind_run _ _ _ _ _ (CUR_look _ _ _ Hl)).
      change (char_code w) with (front (w :: ws ++ s)). rewrite front_nonzero by apply Hl.
      rewrite (bind_run _ _ _ _ _ H1). exact H2.
    + rewrite C2, C1. change (w :: ws) with ([w] ++ ws). rewrite newlines_app. lia.
Qed.

(** [Lex] after blanks [ws]. *)
Lemma Lex_start l s :
  look l s → ∃ l', Lex l = lex_loop (S (S (length (input l')))) l' ∧ look l' s ∧
                   _currentline l' = _currentline l ∧ input l' = input l.
Proof.
  intros Hl. exists (set_pos (_currentline l) (_currentline l) (_currentcolumn l) l).
  split; [done|]. split; [by destruct s|]. done.
Qed.

Lemma Lex_end l ws :
  look l ws → forallb blank ws = true → ∃ l', Lex l = Ok (0, l').
Proof.
  intros Hl Hb. destruct (Lex_start l ws Hl) as (l1 & -> & Hl1 & _ & _).
  rewrite <- (app_nil_r ws) in Hl1. pose proof (look_fuel _ _ _ Hl1) as Hf.
  destruct (lex_loop_blanks (S (S (length (input l1)))) l1 ws [] Hl1 Hb ltac:(lia)) as (l2 & -> & Hl2 & _).
  destruct (S (S (length (input l1))) - length ws)%nat as [|f] eqn:Hd; [lia|]. cbn [lex_loop].
  rewrite (bind_run _ _ _ _ _ (CUR_front _ _ Hl2)). by exists l2.
Qed.

Lemma Lex_token l ws t w rest :
  look l (ws ++ print t ++ w :: rest) → forallb blank ws = true → printable t = true → blank w = true →
  ∃ l', Lex l = Ok (tk (expected t (_currentline l + newlines ws)), l') ∧ look l' (w :: rest) ∧
        token_of (tk (expected t (_currentline l + newlines ws))) l'
          = expected t (_currentline l + newlines ws) ∧
        _currentline l' = _currentline l + newlines ws.
Proof.
  intros Hl Hb Hp Hw. destruct (Lex_start l _ Hl) as (l1 & -> & Hl1 & C1 & _).
  pose proof (look_fuel _ _ _ Hl1) as Hf.
  destruct (lex_loop_blanks (S (S (length (input l1)))) l1 ws _ Hl1 Hb ltac:(lia)) as (l2 & -> & Hl2 & C2).
  destruct (S (S (length (input l1))) - length ws)%nat as [|f] eqn:Hd; [lia|].
  destruct (reads_token l2 t w rest Hp Hl2 Hw) as (l3 & H3 & Hl3 & Ht & C3).
  rewrite C2, C1 in H3, Ht, C3. exists l3. split; [|split; [done|split; [done|done]]].
  cbn [lex_loop]. rewrite (bind_run _ _ _ _ _ (CUR_front _ _ Hl2)).
  assert ((front (print t ++ w :: rest) =? SQUIRREL_EOB) = false) as ->.
  { destruct (print t ++ w :: rest) as [|c s] eqn:He; [by destruct (print t)|].
    apply front_nonzero. apply Hl2. }
  by rewrite (bind_run _ _ _ _ _ H3).
Qed.

Lemma lex_all_look fuel ts l ws :
  look l (ws ++ print_all ts) → forallb blank ws = true → forallb spaced ts = true →
  (length ts < fuel)%nat →
  ∃ l', lex_all fuel l = Ok (expected_all (_currentline l + newlines ws) ts, l').
Proof.
  revert fuel l ws. induction ts as [|[t vs] ts IH]; intros fuel l ws Hl Hb Hs Hf;
    (destruct fuel as [|f]; [lia|]); cbn [lex_all].
  - unfold print_all in Hl. simpl in Hl. rewrite app_nil_r in Hl.
    destruct (Lex_end l ws Hl Hb) as (l1 & H1). exists l1. by rewrite (bind_run _ _ _ _ _ H1).
  - simpl in Hs. apply andb_true_iff in Hs as [Ht Hs]. unfold spaced in Ht. simpl in Ht.
    apply andb_true_iff in Ht as [Ht Hne]. apply andb_true_iff in Ht as [Hp Hvs].
    destruct vs as [|w vs]; [done|]. clear Hne. simpl in Hvs. pose proof Hvs as Hvs'.
    apply andb_true_iff in Hvs as [Hw _].
    unfold print_all in Hl. rewrite bind_cons, <- !app_assoc in Hl. fold (print_all ts) in Hl.
    rewrite <- app_comm_cons in Hl.
    destruct (Lex_token l ws t w (vs ++ print_all ts) Hl Hb Hp Hw) as (l1 & H1 & Hl1 & Htk & C1).
    rewrite (bind_run _ _ _ _ _ H1). rewrite (proj2 (Z.eqb_neq _ _)) by (by apply tk_nonzero).
    rewrite (bind_run _ _ _ _ l1 eq_refl), Htk.
    destruct (IH f l1 (w :: vs) Hl1) as (l2 & H2); [done|done|simpl in Hf; lia|].
    rewrite (bind_run _ _ _ _ _ H2), C1. exists l2. done.
Qed.

(** Printed text has no NUL. *)
Definition visible (c : ascii) : bool := 9 <=? char_code c.

Lemma visible_no_zero s : forallb visible s = true → Ascii.zero ∉ s.
Proof.
  intros Hs Hin. rewrite forallb_forall in Hs. by specialize (Hs _ (proj1 (list_elem_of_In _ _) Hin)).
Qed.

Lemma class_visible (P : ascii → bool) s :
  (∀ c, P c = true → visible c = true) → forallb P s = true → forallb visible s = true.
Proof. rewrite !forallb_forall. auto. Qed.

Lemma hex_char_visible n : 0 ≤ n < 16 → visible (hex_char n) = true.
Proof.
  intros Hn. destruct (hex_char_ok n Hn) as [Hx%isxdigit_range _]. apply Z.leb_le. lia.
Qed.

Lemma quote_char_visible c : forallb visible (quote_char c) = true.
Proof.
  unfold quote_char. pose proof (char_code_range c). destruct (needs_escape c) eqn:He; cbn [forallb].
  - rewrite !hex_char_visible; [done|apply Z.mod_pos_bound; lia|].
    split; [apply Z.div_pos; lia|apply Z.div_lt_upper_bound; lia].
  - unfold needs_escape in He. rewrite !orb_false_iff in He. destruct He as [[[He _] _] _].
    apply Z.ltb_ge in He. rewrite andb_true_r. apply Z.leb_le. lia.
Qed.

Lemma name_start_visible c : name_start c = true → visible c = true.
Proof.
  intros Hc. apply Z.leb_le. apply orb_true_iff in Hc as [Hc%isalpha_range|Hc%isc_true]; [lia|].
  rewrite Hc. done.
Qed.

Lemma name_char_visible c : name_char c = true → visible c = true.
Proof.
  intros Hc. apply Z.leb_le. unfold name_char, isalnum in Hc. rewrite !orb_true_iff in Hc.
  destruct Hc as [[Hc%isalpha_range|Hc%isdigit_range]|Hc%isc_true]; [lia|lia|]. rewrite Hc. done.
Qed.

Lemma print_visible t : printable t = true → forallb visible (print t) = true.
Proof.
  assert (Hq : ∀ s, forallb visible (s ≫= quote_char) = true).
  { induction s as [|c s IH]; [done|]. by rewrite bind_cons, forallb_app, quote_char_visible, IH. }
  destruct t as [[|c s]|n|s|c|s]; cbn [print printable]; intros Hp.
  - done.
  - apply andb_true_iff in Hp as [Hc Hs]. cbn [forallb]. rewrite name_start_visible by done.
    eapply class_visible; [apply name_char_visible|done].
  - eapply class_visible; [|apply digits_digit]. intros c Hc%isdigit_range. apply Z.leb_le. lia.
  - cbn [forallb]. by rewrite forallb_app, Hq.
  - cbn [forallb]. by rewrite forallb_app, quote_char_visible.
  - destruct (operator_code s) as [z|] eqn:Hop; [|done].
    apply fmap_Some in Hop as ([i [s' z']] & Hf & ->). apply list_find_Some in Hf as (Hi & Hs & _).
    simpl in Hs. subst s'. apply list_elem_of_lookup_2 in Hi.
    assert (Hall : Forall (λ op, forallb visible op.1 = true) operators) by (repeat constructor).
    rewrite Forall_forall in Hall. apply (Hall _ Hi).
Qed.

Lemma print_all_visible ts : forallb spaced ts = true → forallb visible (print_all ts) = true.
Proof.
  induction ts as [|[t ws] ts IH]; [done|]. cbn [forallb]. intros [Ht Hts]%andb_true_iff.
  unfold spaced in Ht. simpl in Ht. rewrite !andb_true_iff in Ht. destruct Ht as [[Ht Hw] _].
  unfold print_all. rewrite bind_cons. fold (print_all ts). rewrite !forallb_app, print_visible, IH by done.
  rewrite andb_true_r. simpl. eapply class_visible; [|exact Hw].
  intros c Hc. by destruct (blank_cases c Hc) as [-> |[-> |[-> | ->]]].
Qed.

Lemma Init_look junk s :
  Ascii.zero ∉ s → ∃ l, Init (map char_code s) junk = Ok l ∧ look l s ∧ _currentline l = 1.
Proof.
  intros Hz. unfold Init, Next. cbn [input]. destruct s as [|c s]; simpl.
  - eexists. split; [done|]. split; [split; [done|done]|done].
  - pose proof (char_code_range c) as Hr. pose proof (front_nonzero _ _ Hz) as H0. simpl in H0.
    destruct (Z.ltb_spec MAX_CHAR (char_code c)) as [Hm|_]; [unfold MAX_CHAR in Hm; lia|].
    change SQUIRREL_EOB with 0 in H0. rewrite H0. simpl. eexists. split; [done|].
    rewrite u8_byte by done. split; [split; [done|done]|done].
Qed.

(** A string constant on its own, in any encoding of its characters. *)
Lemma lex_encoded_string enc junk s :
  encodes enc → Ascii.zero ∉ (s ≫= enc) →
  ∃ l l', Init (map char_code ("034"%char :: (s ≫= enc) ++ ["034"%char])) junk = Ok l ∧
          lex_all 2 l = Ok ([mkToken TK_STRING_LITERAL (VString s) 1], l').
Proof.
  intros Henc Hz. set (src := "034"%char :: _).
  assert (Hsrc : Ascii.zero ∉ src).
  { unfold src. rewrite not_elem_of_cons, not_elem_of_app, list_elem_of_singleton. done. }
  destruct (Init_look junk src Hsrc) as (l & Hi & Hl & Hline). exists l.
  destruct (Lex_start l _ Hl) as (l1 & HL & Hl1 & C1 & _).
  destruct (reads_string enc l1 s [] Henc Hl1) as (l2 & H2 & Hl2 & Ht & C2).
  destruct (Lex_end l2 [] Hl2 eq_refl) as (l3 & H3). exists l3. split; [done|].
  assert (HLex : Lex l = Ok (tk (expected (SString s) (_currentline l1)), l2)).
  { rewrite HL. cbn [lex_loop]. rewrite (bind_run _ _ _ _ _ (CUR_front _ _ Hl1)).
    change (front src =? SQUIRREL_EOB) with false. cbv iota. by rewrite (bind_run _ _ _ _ _ H2). }
  cbn [lex_all]. rewrite (bind_run _ _ _ _ _ HLex). change (tk (expected _ _) =? 0) with false. cbv iota.
  rewrite (bind_run _ (gets _) l2 _ l2 eq_refl), Ht. cbn [lex_all].
  rewrite (bind_run _ _ l2 [] l3); [|by rewrite (bind_run _ _ _ _ _ H3)].
  cbn [expected]. rewrite C1, Hline. done.
Qed.

(** C9: printing any sequence of names, keywords, integers, string and
    character constants and operators, each followed by blanks or newlines, and
    lexing the text gives back exactly that sequence: every string with its
    characters (quotes, backslashes, newlines and NULs included), every integer
    modulo 2^32, every token with the line it was on. *)
Theorem lexer_roundtrip junk ts :
  forallb spaced ts = true →
  ∃ l l', Init (map char_code (print_all ts)) junk = Ok l ∧
          lex_all (S (length ts)) l = Ok (expected_all 1 ts, l').
Proof.
  intros Hs. pose proof (visible_no_zero _ (print_all_visible ts Hs)) as Hz.
  destruct (Init_look junk _ Hz) as (l & Hi & Hl & Hline). exists l.
  destruct (lex_all_look (S (length ts)) ts l [] Hl eq_refl Hs ltac:(lia)) as (l' & Hrun).
  exists l'. split; [done|]. rewrite Hrun, Hline. done.
Qed.
End round.

(** A keyword table and a float reader to run the lexer with. *)
Definition plain_keywords : KeywordTable.
Proof.
  refine {| kw_GetStr := λ s _, Ok (sq_int <$> keyword_code (removelast s)) |}.
  intros s _. by rewrite removelast_last.
Defined.

Definition no_floats : FloatReader := {| strtod := λ _, 0 |}.

Definition sample_tokens : list (source_token * list ascii) :=
  [(SName ["l"; "o"; "c"; "a"; "l"], [" "]); (SName ["x"; "1"], [" "]); (SOperator ["<"; "-"], ["010"]);
   (SString ["h"; "034"; "000"], [" "; "010"]); (SInteger 42, [" "]); (SChar "'", ["009"])]%char.

Lemma lexer_roundtrip_witness :
  ∃ l l', Init (map char_code (print_all sample_tokens)) 7 = Ok l ∧
    @lex_all plain_keywords no_floats 7 l =
      Ok ([mkToken 283 VNone 1; mkToken TK_IDENTIFIER (VString ["x"; "1"]%char) 1; mkToken TK_NEWSLOT VNone 1;
           mkToken TK_STRING_LITERAL (VString ["h"; "034"; "000"]%char) 2; mkToken TK_INTEGER (VInt 42) 3;
           mkToken TK_INTEGER (VInt 39) 3], l').
Proof.
  destruct (@lexer_roundtrip plain_keywords no_floats 7 sample_tokens) as (l & l' & Hi & Hl);
    [vm_compute; reflexivity|].
  exists l, l'. split; [exact Hi|]. exact Hl.
Defined.
