(* ===== verification/SqLexerUtf8.v ===== *)
(** * Unicode escapes and numeric formats of the lexer

    The bytes [AddUTF8] appends for a [\u] or [\U] escape are the UTF-8 encoding
    of the code point: a reference decoder reads it back.  The file also records
    what the lexer accepts as a number. *)

From Stdlib Require Import Ascii.
From stdpp Require Import base numbers gmap strings option list.
From S2P Require Import Prelude CType SqObject SqLexer SqLexerSpec SqLexerRound.

Local Open Scope Z_scope.

(** ** A reference decoder (RFC 3629, surrogates allowed) *)

Definition continuation (b : Z) : option Z :=
  if (128 <=? b) && (b <? 192) then Some (b - 128) else None.

Definition at_least (lo v : Z) : option Z := if (lo <=? v) && (v <? 0x110000) then Some v else None.

Definition utf8_decode (bs : list Z) : option Z :=
  match bs with
  | [b0] => if b0 <? 128 then Some b0 else None
  | [b0; b1] =>
      if (192 <=? b0) && (b0 <? 224) then
        c1 ← continuation b1; at_least 0x80 ((b0 - 192) * 64 + c1)
      else None
  | [b0; b1; b2] =>
      if (224 <=? b0) && (b0 <? 240) then
        c1 ← continuation b1; c2 ← continuation b2;
        at_least 0x800 (((b0 - 224) * 64 + c1) * 64 + c2)
      else None
  | [b0; b1; b2; b3] =>
      if (240 <=? b0) && (b0 <? 248) then
        c1 ← continuation b1; c2 ← continuation b2; c3 ← continuation b3;
        at_least 0x10000 ((((b0 - 240) * 64 + c1) * 64 + c2) * 64 + c3)
      else None
  | _ => None
  end.

(** ** The bytes *)

(** Setting the high bits of a small number adds them. *)
Lemma lor_high x m k :
  (forallb (λ y, Z.lor y m =? y + m) (seqZ 0 k) = true) → 0 ≤ x < k → Z.lor x m = x + m.
Proof.
  intros Hall Hx. rewrite forallb_forall in Hall. apply Z.eqb_eq, Hall.
  apply list_elem_of_In, elem_of_seqZ. lia.
Qed.

Lemma low6 ch : Z.land ch 0x3F = ch mod 64.
Proof. apply (land_mask ch 6). done. Qed.

Lemma continuation_byte x : 0 ≤ x < 64 → Z.lor x 0x80 = x + 0x80 ∧ continuation (x + 0x80) = Some x.
Proof.
  intros Hx. split; [by apply (lor_high _ _ 64)|]. unfold continuation.
  rewrite (proj2 (Z.leb_le _ _)), (proj2 (Z.ltb_lt _ _)) by lia. simpl. f_equal. lia.
Qed.

Lemma split64 x : x = x / 64 * 64 + x mod 64 ∧ 0 ≤ x mod 64 < 64.
Proof.
  pose proof (Z.div_mod x 64 ltac:(done)). pose proof (Z.mod_pos_bound x 64 ltac:(done)). lia.
Qed.

Lemma APPEND_run l c : APPEND_CHAR c l = Ok ((), set_longstr (_longstr l ++ [code_char c]) l).
Proof. done. Qed.

Lemma at_least_ok lo v : lo ≤ v < 0x110000 → at_least lo v = Some v.
Proof.
  intros Hv. unfold at_least. by rewrite (proj2 (Z.leb_le _ _)), (proj2 (Z.ltb_lt _ _)) by lia.
Qed.

Lemma in_bounds lo hi b : lo ≤ b < hi → ((lo <=? b) && (b <? hi)) = true.
Proof. intros Hb. by rewrite (proj2 (Z.leb_le _ _)), (proj2 (Z.ltb_lt _ _)) by lia. Qed.

(** The encoding as a list of bytes. *)
Definition utf8_bytes (ch : Z) : list Z :=
  if ch <? 0x80 then [ch]
  else if ch <? 0x800 then [ch / 64 + 0xC0; ch mod 64 + 0x80]
  else if ch <? 0x10000 then [ch / 64 / 64 + 0xE0; (ch / 64) mod 64 + 0x80; ch mod 64 + 0x80]
  else [ch / 64 / 64 / 64 + 0xF0; (ch / 64 / 64) mod 64 + 0x80; (ch / 64) mod 64 + 0x80; ch mod 64 + 0x80].

Lemma shiftr_div ch : Z.shiftr ch 6 = ch / 64 ∧ Z.shiftr ch 12 = ch / 64 / 64 ∧ Z.shiftr ch 18 = ch / 64 / 64 / 64.
Proof.
  rewrite !Z.shiftr_div_pow2 by done. rewrite !Z.div_div by done. done.
Qed.

Lemma AddUTF8_bytes ch l :
  0 ≤ ch < 0x110000 →
  ∃ l', AddUTF8 ch l = Ok (Z.of_nat (length (utf8_bytes ch)), l') ∧
        _longstr l' = _longstr l ++ map code_char (utf8_bytes ch).
Proof.
  intros Hch. unfold AddUTF8, utf8_bytes. rewrite !low6.
  destruct (shiftr_div ch) as (-> & -> & ->).
  destruct (split64 ch) as [E0 M0], (split64 (ch / 64)) as [E1 M1], (split64 (ch / 64 / 64)) as [E2 M2].
  pose proof (Z.div_pos ch 64 ltac:(lia) ltac:(lia)).
  pose proof (Z.div_pos (ch / 64) 64 ltac:(lia) ltac:(lia)).
  pose proof (Z.div_pos (ch / 64 / 64) 64 ltac:(lia) ltac:(lia)).
  destruct (continuation_byte _ M0) as [-> _], (continuation_byte _ M1) as [-> _].
  destruct (continuation_byte _ M2) as [-> _].
  destruct (Z.ltb_spec ch 0x80); [|destruct (Z.ltb_spec ch 0x800); [|destruct (Z.ltb_spec ch 0x10000)]].
  - eexists. split; [done|]. done.
  - rewrite (lor_high (ch / 64) 0xC0 32) by (done || lia). eexists. split; [done|].
    simpl. by rewrite <- app_assoc.
  - rewrite (lor_high (ch / 64 / 64) 0xE0 16) by (done || lia). eexists. split; [done|].
    simpl. by rewrite <- !app_assoc.
  - rewrite (proj2 (Z.ltb_lt _ _)) by lia.
    rewrite (lor_high (ch / 64 / 64 / 64) 0xF0 8) by (done || lia). eexists. split; [done|].
    simpl. by rewrite <- !app_assoc.
Qed.

Lemma utf8_decode_bytes ch : 0 ≤ ch < 0x110000 → utf8_decode (utf8_bytes ch) = Some ch.
Proof.
  intros Hch. unfold utf8_bytes.
  destruct (split64 ch) as [E0 M0], (split64 (ch / 64)) as [E1 M1], (split64 (ch / 64 / 64)) as [E2 M2].
  pose proof (Z.div_pos ch 64 ltac:(lia) ltac:(lia)).
  pose proof (Z.div_pos (ch / 64) 64 ltac:(lia) ltac:(lia)).
  pose proof (Z.div_pos (ch / 64 / 64) 64 ltac:(lia) ltac:(lia)).
  destruct (continuation_byte _ M0) as [_ C0], (continuation_byte _ M1) as [_ C1].
  destruct (continuation_byte _ M2) as [_ C2].
  destruct (Z.ltb_spec ch 0x80) as [Hlt|]; [|destruct (Z.ltb_spec ch 0x800); [|destruct (Z.ltb_spec ch 0x10000)]];
    unfold utf8_decode.
  - by rewrite (proj2 (Z.ltb_lt _ _)) by lia.
  - rewrite in_bounds by lia. rewrite C0. simpl. rewrite at_least_ok by lia. f_equal. lia.
  - rewrite in_bounds by lia. rewrite C0, C1. simpl. rewrite at_least_ok by lia. f_equal. lia.
  - rewrite in_bounds by lia. rewrite C0, C1, C2. simpl. rewrite at_least_ok by lia. f_equal. lia.
Qed.

Lemma utf8_bytes_range ch : 0 ≤ ch < 0x110000 → Forall (λ b, 0 ≤ b < 256) (utf8_bytes ch).
Proof.
  intros Hch. unfold utf8_bytes.
  destruct (split64 ch) as [E0 M0], (split64 (ch / 64)) as [E1 M1], (split64 (ch / 64 / 64)) as [E2 M2].
  pose proof (Z.div_pos ch 64 ltac:(lia) ltac:(lia)).
  pose proof (Z.div_pos (ch / 64) 64 ltac:(lia) ltac:(lia)).
  pose proof (Z.div_pos (ch / 64 / 64) 64 ltac:(lia) ltac:(lia)).
  destruct (Z.ltb_spec ch 0x80); [|destruct (Z.ltb_spec ch 0x800); [|destruct (Z.ltb_spec ch 0x10000)]];
    repeat constructor; lia.
Qed.

(** ** Properties *)

(** C33: for every code point a [\u] or [\U] escape can name, the bytes appended
    to the string, whose number is returned, are decoded by a UTF-8 decoder to
    that code point. *)
Theorem AddUTF8_roundtrip ch l :
  0 ≤ ch < 0x110000 →
  ∃ l' bs, AddUTF8 ch l = Ok (Z.of_nat (length bs), l') ∧ _longstr l' = _longstr l ++ bs ∧
           utf8_decode (map char_code bs) = Some ch.
Proof.
  intros Hch. destruct (AddUTF8_bytes ch l Hch) as (l' & Hrun & Hs).
  exists l', (map code_char (utf8_bytes ch)). rewrite length_map. split_and!; [done|done|].
  rewrite map_map. rewrite (map_ext_in _ id), map_id; [by apply utf8_decode_bytes|].
  intros b Hb. apply char_code_code. pose proof (utf8_bytes_range ch Hch) as Hr.
  rewrite Forall_forall in Hr. by apply Hr, list_elem_of_In.
Qed.

Definition some_lexer : SQLexer := mkLexer [] 0 0 0 1 1 0 false [] false 0 0.

Lemma AddUTF8_roundtrip_witness :
  ∃ l' bs, AddUTF8 0x20AC some_lexer = Ok (Z.of_nat (length bs), l') ∧ _longstr l' = bs ∧
           utf8_decode (map char_code bs) = Some 0x20AC.
Proof. apply (AddUTF8_roundtrip 0x20AC some_lexer). split; [discriminate|reflexivity]. Defined.

(** the check "invalid numeric format" of [ReadNumber] can never fire: the
    line before it sets the type it tests, so a numeral with a second exponent,
    or with several points, is accepted as one floating point token. *)
Theorem number_second_exponent_accepted :
  let run s := match Init (map char_code s) 0 with
               | Ok l => match @lex_all plain_keywords no_floats 3 l with
                         | Ok (ts, _) => map tk ts
                         | Err _ => []
                         end
               | Err _ => []
               end in
  run ["1"; "e"; "5"; "e"; "5"]%char = [TK_FLOAT] ∧ run ["1"; "."; "2"; "."; "3"]%char = [TK_FLOAT].
Proof. split; vm_compute; reflexivity. Qed.
