(* ===== verification/SqRex.v ===== *)
(** * Regular expressions (sqstdrex.cpp)

    A pattern is compiled to an array of nodes linked by indices, [-1] standing
    for no node, and matched by a recursive function on that array.  The
    compiler is a state monad over the [SQRex] structure; [sqstd_rex_error]
    leaves it with [Raised], as the [longjmp] of the code does.  Characters are
    their codes; a pattern and a text are given without their terminating NUL,
    and reading behind it is a fault. *)

From Stdlib Require Import Ascii.
From stdpp Require Import base numbers strings option list.
From S2P Require Import Prelude CType.

Open Scope Z_scope.

(** ** Data *)

Definition MAX_CHAR : Z := 255.
Definition OP_GREEDY : Z := MAX_CHAR + 1.
Definition OP_OR : Z := MAX_CHAR + 2.
Definition OP_EXPR : Z := MAX_CHAR + 3.
Definition OP_NOCAPEXPR : Z := MAX_CHAR + 4.
Definition OP_DOT : Z := MAX_CHAR + 5.
Definition OP_CLASS : Z := MAX_CHAR + 6.
Definition OP_CCLASS : Z := MAX_CHAR + 7.
Definition OP_NCLASS : Z := MAX_CHAR + 8.
Definition OP_RANGE : Z := MAX_CHAR + 9.
Definition OP_EOL : Z := MAX_CHAR + 11.
Definition OP_BOL : Z := MAX_CHAR + 12.
Definition OP_WB : Z := MAX_CHAR + 13.
Definition OP_MB : Z := MAX_CHAR + 14.

Record SQRexNode := mkNode { ntype : Z; nleft : Z; nright : Z; nnext : Z }.

Record SQRexMatch := mkMatch { mbegin : option Z; mlen : Z }.

Record SQRex := mkRex {
  pattern : list Z;
  _p : nat;
  _first : Z;
  _nodes : list SQRexNode;
  _nallocated : Z;
  _nsubexpr : Z;
  _matches : list SQRexMatch;
  _currsubexp : Z
}.

Definition with_p (p : nat) (e : SQRex) : SQRex :=
  mkRex (pattern e) p (_first e) (_nodes e) (_nallocated e) (_nsubexpr e) (_matches e) (_currsubexp e).
Definition with_first (n : Z) (e : SQRex) : SQRex :=
  mkRex (pattern e) (_p e) n (_nodes e) (_nallocated e) (_nsubexpr e) (_matches e) (_currsubexp e).
Definition with_nodes (ns : list SQRexNode) (alloc nsub : Z) (e : SQRex) : SQRex :=
  mkRex (pattern e) (_p e) (_first e) ns alloc nsub (_matches e) (_currsubexp e).
Definition with_matches (ms : list SQRexMatch) (cur : Z) (e : SQRex) : SQRex :=
  mkRex (pattern e) (_p e) (_first e) (_nodes e) (_nallocated e) (_nsubexpr e) ms cur.

Definition rexM : Type → Type := stM SQRex.

(** [*s] and [s[i]] of a C string. *)
Definition char_at (s : list Z) (i : nat) : res Z :=
  match s !! i with
  | Some c => Ok c
  | None => if decide (i = length s) then Ok 0 else Err OutOfBounds
  end.

(** ** The parser *)

Definition sqstd_rex_error {A} (msg : string) : rexM A := raise (Raised msg).

(** [*exp->_p], [exp->_p++], [*exp->_p++] *)
Definition cur : rexM Z := λ e, c ← char_at (pattern e) (_p e); Ok (c, e).
Definition skip : rexM () := modify (λ e, with_p (S (_p e)) e).
Definition advance : rexM Z := c ← cur; _ ← skip; mret c.

(** [sqstd_rex_newnode] *)
Definition sqstd_rex_newnode (type : Z) : rexM Z := λ e,
  let iscap := type =? OP_EXPR in
  let n := mkNode type (-1) (if iscap then _nsubexpr e else -1) (-1) in
  let nsub := if iscap then _nsubexpr e + 1 else _nsubexpr e in
  let nsize := Z.of_nat (length (_nodes e)) in
  let alloc := if _nallocated e <? nsize + 1 then _nallocated e * 2 else _nallocated e in
  if nsize <? alloc then Ok (nsize, with_nodes (_nodes e ++ [n]) alloc nsub e) else Err OutOfBounds.

(** [exp->_nodes[n]] and the assignments to its fields. *)
Definition get_node (n : Z) : rexM SQRexNode := λ e,
  if n <? 0 then Err OutOfBounds else
  match _nodes e !! Z.to_nat n with Some x => Ok (x, e) | None => Err OutOfBounds end.
Definition upd_node (n : Z) (f : SQRexNode → SQRexNode) : rexM () :=
  x ← get_node n;
  modify (λ e, with_nodes (<[Z.to_nat n := f x]> (_nodes e)) (_nallocated e) (_nsubexpr e) e).
Definition set_left (n v : Z) : rexM () := upd_node n (λ x, mkNode (ntype x) v (nright x) (nnext x)).
Definition set_right (n v : Z) : rexM () := upd_node n (λ x, mkNode (ntype x) (nleft x) v (nnext x)).
Definition set_next (n v : Z) : rexM () := upd_node n (λ x, mkNode (ntype x) (nleft x) (nright x) v).

(** [sqstd_rex_expect] *)
Definition sqstd_rex_expect (a : ascii) : rexM () :=
  c ← cur;
  if isc c a then skip else sqstd_rex_error "expected paren".

(** The letters for control characters after a backslash. *)
Definition control_letter (c : Z) : option Z :=
  if isc c "v" then Some 11 else if isc c "n" then Some 10 else if isc c "t" then Some 9
  else if isc c "r" then Some 13 else if isc c "f" then Some 12 else None.

(** [sqstd_rex_escapechar] *)
Definition sqstd_rex_escapechar : rexM Z :=
  c ← cur;
  if isc c "\" then
    _ ← skip;
    c ← cur;
    match control_letter c with
    | Some v => _ ← skip; mret v
    | None => advance
    end
  else if negb (isprint c) then sqstd_rex_error "letter expected"
  else advance.

(** [sqstd_rex_charclass] *)
Definition sqstd_rex_charclass (classid : Z) : rexM Z :=
  n ← sqstd_rex_newnode OP_CCLASS;
  _ ← set_left n classid;
  mret n.

Definition class_letters : list ascii :=
  ["a"; "A"; "w"; "W"; "s"; "S"; "d"; "D"; "x"; "X"; "c"; "C"; "p"; "P"; "l"; "u"]%char.

(** [sqstd_rex_charnode] *)
Definition sqstd_rex_charnode (isclass : bool) : rexM Z :=
  c ← cur;
  if isc c "\" then
    _ ← skip;
    c ← cur;
    match control_letter c with
    | Some v => _ ← skip; sqstd_rex_newnode v
    | None =>
        if existsb (isc c) class_letters then
          t ← advance;
          sqstd_rex_charclass t
        else if isc c "m" then
          _ ← skip; cb ← cur;
          _ ← skip; ce ← cur;
          _ ← skip;
          if (cb =? 0) || (ce =? 0) then sqstd_rex_error "balanced chars expected"
          else if cb =? ce then sqstd_rex_error "open/close char can't be the same"
          else
            node ← sqstd_rex_newnode OP_MB;
            _ ← set_left node cb;
            _ ← set_right node ce;
            mret node
        else if c =? 0 then sqstd_rex_error "letter expected for argument of escape sequence"
        else if (isc c "b" || isc c "B") && negb isclass then
          node ← sqstd_rex_newnode OP_WB;
          _ ← set_left node c;
          _ ← skip;
          mret node
        else
          t ← advance;
          sqstd_rex_newnode t
    end
  else if negb (isprint c) then sqstd_rex_error "letter expected"
  else
    t ← advance;
    sqstd_rex_newnode t.

(** The loop of [sqstd_rex_class]; [_eol] is null while a pattern is compiled,
    so the second half of its condition is always true. *)
Fixpoint class_loop (fuel : nat) (chain first : Z) : rexM (Z * Z) :=
  match fuel with
  | O => raise OutOfFuel
  | S fuel' =>
      c ← cur;
      if isc c "]" then mret (chain, first)
      else if isc c "-" && negb (first =? -1) then
        d ← advance;
        if isc d "]" then sqstd_rex_error "unfinished range" else
        r ← sqstd_rex_newnode OP_RANGE;
        f ← get_node first;
        c ← cur;
        if c <? ntype f then sqstd_rex_error "invalid range"
        else if ntype f =? OP_CCLASS then sqstd_rex_error "cannot use character classes in ranges"
        else
          _ ← set_left r (ntype f);
          t ← sqstd_rex_escapechar;
          _ ← set_right r t;
          _ ← set_next chain r;
          class_loop fuel' r (-1)
      else if negb (first =? -1) then
        _ ← set_next chain first;
        f ← sqstd_rex_charnode true;
        class_loop fuel' first f
      else
        f ← sqstd_rex_charnode true;
        class_loop fuel' chain f
  end.

(** Characters from [_p] to the end of the pattern, and one turn more. *)
Definition chars_left : rexM nat := gets (λ e : SQRex, S (S (length (pattern e) - _p e))%nat).

(** [sqstd_rex_class] *)
Definition sqstd_rex_class : rexM Z :=
  c ← cur;
  ret ← (if isc c "^" then n ← sqstd_rex_newnode OP_NCLASS; _ ← skip; mret n
         else sqstd_rex_newnode OP_CLASS);
  c ← cur;
  if isc c "]" then sqstd_rex_error "empty class" else
  fuel ← chars_left;
  '(chain, first) ← class_loop fuel ret (-1);
  _ ← when (negb (first =? -1)) (set_next chain first);
  n ← get_node ret;
  _ ← set_left ret (nnext n);
  _ ← set_next ret (-1);
  mret ret.

(** [sqstd_rex_parsenumber] *)
Fixpoint number_loop (fuel : nat) (ret positions : Z) : rexM Z :=
  match fuel with
  | O => raise OutOfFuel
  | S fuel' =>
      c ← cur;
      if isdigit c then
        _ ← skip;
        if positions =? 1000000000 then sqstd_rex_error "overflow in numeric constant"
        else number_loop fuel' (ret * 10 + (c - 48)) (positions * 10)
      else mret ret
  end.
Definition sqstd_rex_parsenumber : rexM Z :=
  c ← advance;
  fuel ← chars_left;
  number_loop fuel (c - 48) 10.

(** The repetition after an element, [None] without one: the two switches on
    [*exp->_p] of [sqstd_rex_element]. *)
Definition repetition : rexM (option (Z * Z)) :=
  c ← cur;
  if isc c "*" then _ ← skip; mret (Some (0, 65535))
  else if isc c "+" then _ ← skip; mret (Some (1, 65535))
  else if isc c "?" then _ ← skip; mret (Some (0, 1))
  else if isc c "{" then
    _ ← skip;
    c ← cur;
    if negb (isdigit c) then sqstd_rex_error "number expected" else
    p0 ← sqstd_rex_parsenumber;
    c ← cur;
    if isc c "}" then _ ← skip; mret (Some (u16 p0, u16 p0))
    else if isc c "," then
      _ ← skip;
      c ← cur;
      p1 ← (if isdigit c then sqstd_rex_parsenumber else mret 65535);
      _ ← sqstd_rex_expect "}";
      mret (Some (u16 p0, u16 p1))
    else sqstd_rex_error ", or } expected"
  else mret None.

(** Whether another element follows. *)
Definition element_follows (c : Z) : bool :=
  negb (isc c "|" || isc c ")" || isc c "*" || isc c "+" || (c =? 0)).

(** [sqstd_rex_element] and [sqstd_rex_list] *)
Fixpoint sqstd_rex_element (fuel : nat) : rexM Z :=
  match fuel with
  | O => raise OutOfFuel
  | S fuel' =>
      c ← cur;
      ret ← (if isc c "(" then
               _ ← skip;
               c ← cur;
               expr ← (if isc c "?" then
                         _ ← skip; _ ← sqstd_rex_expect ":"; sqstd_rex_newnode OP_NOCAPEXPR
                       else sqstd_rex_newnode OP_EXPR);
               newn ← sqstd_rex_list fuel';
               _ ← set_left expr newn;
               _ ← sqstd_rex_expect ")";
               mret expr
             else if isc c "[" then
               _ ← skip;
               n ← sqstd_rex_class;
               _ ← sqstd_rex_expect "]";
               mret n
             else if isc c "$" then _ ← skip; sqstd_rex_newnode OP_EOL
             else if isc c "." then _ ← skip; sqstd_rex_newnode OP_DOT
             else sqstd_rex_charnode false);
      rep ← repetition;
      ret ← (match (rep : option (Z * Z)) with
             | Some (p0, p1) =>
                 nnode ← sqstd_rex_newnode OP_GREEDY;
                 _ ← set_left nnode ret;
                 _ ← set_right nnode (s32 (Z.lor (Z.shiftl p0 16) p1));
                 mret nnode
             | None => mret ret
             end);
      c ← cur;
      if element_follows c then
        nnode ← sqstd_rex_element fuel';
        _ ← set_next ret nnode;
        mret ret
      else mret ret
  end
with sqstd_rex_list (fuel : nat) : rexM Z :=
  match fuel with
  | O => raise OutOfFuel
  | S fuel' =>
      c ← cur;
      ret ← (if isc c "^" then _ ← skip; n ← sqstd_rex_newnode OP_BOL; mret n else mret (-1));
      e ← sqstd_rex_element fuel';
      ret ← (if negb (ret =? -1) then _ ← set_next ret e; mret ret else mret e);
      c ← cur;
      if isc c "|" then
        _ ← skip;
        temp ← sqstd_rex_newnode OP_OR;
        _ ← set_left temp ret;
        tright ← sqstd_rex_list fuel';
        _ ← set_right temp tright;
        mret temp
      else mret ret
  end.

Definition parse_fuel (pat : list Z) : nat := (2 * length pat + 4)%nat.

(** [sqstd_rex_compile] *)
Definition sqstd_rex_compile (pat : list Z) : res SQRex :=
  let e := mkRex pat 0 0 [] (Z.of_nat (length pat)) 0 [] 0 in
  '(_, e) ← (first ← sqstd_rex_newnode OP_EXPR;
             _ ← modify (with_first first);
             r ← sqstd_rex_list (parse_fuel pat);
             _ ← set_left first r;
             c ← cur;
             if c =? 0 then mret () else sqstd_rex_error "unexpected character") e;
  Ok (with_matches (replicate (Z.to_nat (_nsubexpr e)) (mkMatch None 0)) 0 e).

(** ** The matcher *)

(** [sqstd_rex_matchcclass] *)
Definition sqstd_rex_matchcclass (cclass c : Z) : bool :=
  if isc cclass "a" then isalpha c
  else if isc cclass "A" then negb (isalpha c)
  else if isc cclass "w" then isalnum c || isc c "_"
  else if isc cclass "W" then negb (isalnum c) && negb (isc c "_")
  else if isc cclass "s" then isspace c
  else if isc cclass "S" then negb (isspace c)
  else if isc cclass "d" then isdigit c
  else if isc cclass "D" then negb (isdigit c)
  else if isc cclass "x" then isxdigit c
  else if isc cclass "X" then negb (isxdigit c)
  else if isc cclass "c" then iscntrl c
  else if isc cclass "C" then negb (iscntrl c)
  else if isc cclass "p" then ispunct c
  else if isc cclass "P" then negb (ispunct c)
  else if isc cclass "l" then islower c
  else if isc cclass "u" then isupper c
  else false.

(** The loop of [sqstd_rex_matchclass]. *)
Fixpoint sqstd_rex_matchclass (fuel : nat) (node c : Z) : rexM bool :=
  match fuel with
  | O => raise OutOfFuel
  | S fuel' =>
      n ← get_node node;
      if (if ntype n =? OP_RANGE then (nleft n <=? c) && (c <=? nright n)
          else if ntype n =? OP_CCLASS then sqstd_rex_matchcclass (nleft n) c
          else c =? ntype n)
      then mret true
      else if nnext n =? -1 then mret false
      else sqstd_rex_matchclass fuel' (nnext n) c
  end.

Section match_.
(** The text, and the part of it that is searched. *)
Context (text : list Z) (bol eol : nat).

Definition at_ (i : nat) : rexM Z := lift (char_at text i).

(** The low and high repetition counts of a greedy node. *)
Definition greedy_p0 (n : SQRexNode) : Z := Z.land (Z.shiftr (nright n) 16) 65535.
Definition greedy_p1 (n : SQRexNode) : Z := Z.land (nright n) 65535.

(** [n] matches satisfy the bounds. *)
Definition enough (p0 p1 n : Z) : bool :=
  (p0 =? p1) && (p0 =? n) || (p0 <=? n) && (p1 =? 65535) || (p0 <=? n) && (n <=? p1).

Section with_matchnode.
Context (matchnode : Z → nat → Z → rexM (option nat)).

(** Whether what follows the repetition matches at [s]. *)
Definition greedy_stops (greedystop next : Z) (s : nat) : rexM bool :=
  if greedystop =? -1 then mret false else
  gs ← get_node greedystop;
  if negb (ntype gs =? OP_GREEDY) || negb (greedy_p0 gs =? 0) then
    gnext ← (if negb (nnext gs =? -1) then mret (nnext gs)
             else if next =? -1 then mret (-1)
             else x ← get_node next; mret (nnext x));
    stop ← matchnode greedystop s gnext;
    mret (match (stop : option nat) with Some _ => true | None => false end)
  else mret false.

(** The loop of [OP_GREEDY]: the number of matches and the end of the last. *)
Fixpoint greedy_loop (fuel : nat) (left greedystop next p0 p1 : Z) (s : nat) (nmaches : Z)
    : rexM (Z * nat) :=
  match fuel with
  | O => raise OutOfFuel
  | S fuel' =>
      if (nmaches =? 65535) || (nmaches <? p1) then
        r ← matchnode left s greedystop;
        match (r : option nat) with
        | None => mret (nmaches, s)
        | Some s' =>
            stops ← greedy_stops greedystop next s';
            if (stops : bool) && enough p0 p1 (nmaches + 1) then mret (nmaches + 1, s')
            else if decide (eol ≤ s')%nat then mret (nmaches + 1, s')
            else greedy_loop fuel' left greedystop next p0 p1 s' (nmaches + 1)
        end
      else mret (nmaches, s)
  end.

(** The loops of [OP_OR]. *)
Fixpoint or_loop (fuel : nat) (temp : Z) (asd : nat) : rexM (option nat) :=
  match fuel with
  | O => raise OutOfFuel
  | S fuel' =>
      r ← matchnode temp asd (-1);
      match (r : option nat) with
      | None => mret None
      | Some asd' =>
          n ← get_node temp;
          if nnext n =? -1 then mret (Some asd') else or_loop fuel' (nnext n) asd'
      end
  end.

(** The loop of [OP_EXPR]. *)
Fixpoint expr_loop (fuel : nat) (n : Z) (s : nat) (next : Z) : rexM (option nat) :=
  match fuel with
  | O => raise OutOfFuel
  | S fuel' =>
      x ← get_node n;
      r ← matchnode n s (if nnext x =? -1 then next else nnext x);
      match (r : option nat) with
      | None => mret None
      | Some s' => if nnext x =? -1 then mret (Some s') else expr_loop fuel' (nnext x) s' next
      end
  end.
End with_matchnode.

(** [exp->_matches[k] = m], [exp->_currsubexp = n] *)
Definition set_match (k : Z) (f : SQRexMatch → SQRexMatch) : rexM () := λ e,
  if k <? 0 then Err OutOfBounds else
  match _matches e !! Z.to_nat k with
  | Some m => Ok ((), with_matches (<[Z.to_nat k := f m]> (_matches e)) (_currsubexp e) e)
  | None => Err OutOfBounds
  end.
Definition set_currsubexp (n : Z) : rexM () := modify (λ e, with_matches (_matches e) n e).

(** The loop of [OP_MB]. *)
Fixpoint balanced_loop (fuel : nat) (cb ce : Z) (s : nat) (cont : Z) : rexM (option nat) :=
  match fuel with
  | O => raise OutOfFuel
  | S fuel' =>
      let s := S s in
      if decide (s < eol)%nat then
        c ← at_ s;
        if c =? ce then if cont =? 1 then mret (Some (S s)) else balanced_loop fuel' cb ce s (cont - 1)
        else balanced_loop fuel' cb ce s (if c =? cb then cont + 1 else cont)
      else mret None
  end.

(** The condition of [OP_WB], evaluated from left to right. *)
Definition word_boundary (s : nat) : rexM bool :=
  c ← at_ s;
  if bool_decide (s = bol) && negb (isspace c) then mret true else
  b ← (if decide (s = eol) then
         match s with O => raise OutOfBounds | S s' => d ← at_ s'; mret (negb (isspace d)) end
       else mret false);
  if (b : bool) then mret true else
  d ← at_ (S s);
  mret (negb (isspace c) && isspace d || isspace c && negb (isspace d)).

Definition step_if (b : bool) (s : nat) : option nat := if b then Some (S s) else None.

(** The most turns [greedy_loop] can take. *)
Definition greedy_fuel : nat := Z.to_nat 65538.

(** [sqstd_rex_matchnode] *)
Fixpoint sqstd_rex_matchnode (fuel : nat) (node : Z) (s : nat) (next : Z) : rexM (option nat) :=
  match fuel with
  | O => raise OutOfFuel
  | S fuel' =>
      let matchnode := sqstd_rex_matchnode fuel' in
      n ← get_node node;
      size ← gets (λ e : SQRex, S (length (_nodes e)));
      let type := ntype n in
      if type =? OP_GREEDY then
        let p0 := greedy_p0 n in
        let p1 := greedy_p1 n in
        let greedystop := if nnext n =? -1 then next else nnext n in
        '(nmaches, good) ← greedy_loop matchnode greedy_fuel (nleft n) greedystop next p0 p1 s 0;
        mret (if enough p0 p1 nmaches then Some good else None)
      else if type =? OP_OR then
        r ← or_loop matchnode size (nleft n) s;
        match (r : option nat) with
        | Some s' => mret (Some s')
        | None => or_loop matchnode size (nright n) s
        end
      else if (type =? OP_EXPR) || (type =? OP_NOCAPEXPR) then
        current ← gets _currsubexp;
        let capture := negb (type =? OP_NOCAPEXPR) && (nright n =? current) in
        _ ← when capture (_ ← set_match current (λ m, mkMatch (Some (Z.of_nat s)) (mlen m)); set_currsubexp (current + 1));
        tempcap ← gets _currsubexp;
        r ← expr_loop matchnode size (nleft n) s next;
        match (r : option nat) with
        | None =>
            _ ← when capture (set_match current (λ _, mkMatch None 0));
            mret None
        | Some s' =>
            _ ← set_currsubexp tempcap;
            _ ← when capture (set_match current (λ m, mkMatch (mbegin m) (Z.of_nat s' - default 0 (mbegin m))));
            mret (Some s')
        end
      else if type =? OP_WB then
        b ← word_boundary s;
        mret (if Bool.eqb b (isc (nleft n) "b") then Some s else None)
      else if type =? OP_BOL then mret (if decide (s = bol) then Some s else None)
      else if type =? OP_EOL then mret (if decide (s = eol) then Some s else None)
      else if type =? OP_DOT then mret (if decide (s = eol) then None else Some (S s))
      else if (type =? OP_NCLASS) || (type =? OP_CLASS) then
        if decide (s = eol) then mret None else
        c ← at_ s;
        b ← sqstd_rex_matchclass size (nleft n) c;
        mret (step_if (Bool.eqb b (type =? OP_CLASS)) s)
      else if type =? OP_CCLASS then
        if decide (s = eol) then mret None else
        c ← at_ s;
        mret (step_if (sqstd_rex_matchcclass (nleft n) c) s)
      else if type =? OP_MB then
        c ← at_ s;
        if c =? nleft n then balanced_loop (S eol) (nleft n) (nright n) s 1 else mret None
      else
        if decide (s = eol) then mret None else
        c ← at_ s;
        mret (step_if (c =? type) s)
  end.
End match_.

(** Deep enough for every call: nodes call only nodes further on. *)
Definition match_fuel (e : SQRex) : nat := S (length (_nodes e)).

(** [sqstd_rex_match] *)
Definition sqstd_rex_match (e : SQRex) (text : list Z) : res (bool * SQRex) :=
  let e := with_matches (_matches e) 0 e in
  '(r, e) ← sqstd_rex_matchnode text 0 (length text) (match_fuel e) 0 0 (-1) e;
  Ok (bool_decide (r = Some (length text)), e).

(** The inner loop of [sqstd_rex_searchrange]; it leaves [node] where it
    stopped. *)
Fixpoint search_chain (text : list Z) (bol eol : nat) (fuel : nat) (node : Z) (s : nat) : rexM (Z * option nat) :=
  match fuel with
  | O => raise OutOfFuel
  | S fuel' =>
      if node =? -1 then mret (node, Some s) else
      _ ← set_currsubexp 0;
      depth ← gets match_fuel;
      r ← sqstd_rex_matchnode text bol eol depth node s (-1);
      match (r : option nat) with
      | None => mret (node, None)
      | Some s' => n ← get_node node; search_chain text bol eol fuel' (nnext n) s'
      end
  end.

(** The outer loop: the start and the end of the match. *)
Fixpoint search_from (text : list Z) (bol eol : nat) (fuel : nat) (node : Z) (start : nat)
    : rexM (option (nat * nat)) :=
  match fuel with
  | O => raise OutOfFuel
  | S fuel' =>
      size ← gets (λ e : SQRex, S (length (_nodes e)));
      '(node, r) ← search_chain text bol eol size node start;
      match (r : option nat) with
      | Some stop => mret (Some (start, stop))
      | None => if decide (S start = eol) then mret None else search_from text bol eol fuel' node (S start)
      end
  end.

(** [sqstd_rex_searchrange], [sqstd_rex_search] *)
Definition sqstd_rex_searchrange (e : SQRex) (text : list Z) (text_begin text_end : nat)
    : res (option (nat * nat) * SQRex) :=
  if decide (text_end ≤ text_begin)%nat then Ok (None, e)
  else search_from text text_begin text_end (text_end - text_begin) (_first e) text_begin e.
Definition sqstd_rex_search (e : SQRex) (text : list Z) : res (option (nat * nat) * SQRex) :=
  sqstd_rex_searchrange e text 0 (length text).

(** [sqstd_rex_getsubexpcount], [sqstd_rex_getsubexp] *)
Definition sqstd_rex_getsubexpcount (e : SQRex) : Z := _nsubexpr e.
Definition sqstd_rex_getsubexp (e : SQRex) (n : Z) : res (option SQRexMatch) :=
  if (n <? 0) || (_nsubexpr e <=? n) then Ok None
  else match _matches e !! Z.to_nat n with Some m => Ok (Some m) | None => Err OutOfBounds end.
