(* ===== verification/SqRexParse.v ===== *)
(** * Patterns as trees

    Compiling a pattern ends, without reading behind the pattern or writing
    outside the node array, in an error message or in an array that represents
    a tree: each construct occupies an interval of the array. *)

From Stdlib Require Import Ascii.
From stdpp Require Import base numbers strings option list.
From S2P Require Import Prelude CType SqRex.

Open Scope Z_scope.

(** ** Trees *)

Inductive citem := CRange (a b : Z) | CClass (k : Z) | COther (ty : Z).

Inductive rtree :=
  | TLeaf (ty l r : Z)
  | TSet (neg : bool) (items : list citem)
  | TGreedy (p0 p1 : Z) (t : rtree)
  | TOr (l r : list rtree)
  | TExpr (cap : option Z) (l : list rtree).

(** Types of nodes without substructure. *)
Definition leaf_type (ty : Z) : Prop :=
  ty ≠ OP_GREEDY ∧ ty ≠ OP_OR ∧ ty ≠ OP_EXPR ∧ ty ≠ OP_NOCAPEXPR ∧ ty ≠ OP_CLASS ∧ ty ≠ OP_NCLASS.

Definition item_of (n : SQRexNode) : citem :=
  if ntype n =? OP_RANGE then CRange (nleft n) (nright n)
  else if ntype n =? OP_CCLASS then CClass (nleft n) else COther (ntype n).

Section rep.
Context (ns : list SQRexNode) (nsub : Z).

(** The class items from node [i] on lie between [i] and [b]. *)
Inductive rep_items (b : nat) : nat → list citem → Prop :=
  | ri_last i n : (i < b)%nat → ns !! i = Some n → nnext n = -1 → rep_items b i [item_of n]
  | ri_cons i j n items : ns !! i = Some n → nnext n = Z.of_nat j → (i < j)%nat →
      rep_items b j items → rep_items b i (item_of n :: items).

(** Node [i] represents [t], which occupies [a..b), and its [next] is [nx];
    chains of nodes represent lists. *)
Inductive rep : nat → nat → nat → Z → rtree → Prop :=
  | rep_leaf a ty l r nx : ns !! a = Some (mkNode ty l r nx) → leaf_type ty → rep a (S a) a nx (TLeaf ty l r)
  | rep_set a b j (neg : bool) r nx items :
      ns !! a = Some (mkNode (if neg then OP_NCLASS else OP_CLASS) (Z.of_nat j) r nx) →
      (a < j)%nat → (a < b)%nat → rep_items b j items → rep a b a nx (TSet neg items)
  | rep_greedy a b j r nx t :
      ns !! b = Some (mkNode OP_GREEDY (Z.of_nat j) r nx) → rep a b j (-1) t →
      rep a (S b) b nx (TGreedy (Z.land (Z.shiftr r 16) 65535) (Z.land r 65535) t)
  | rep_or a m b i j nx tl tr :
      ns !! m = Some (mkNode OP_OR (Z.of_nat i) (Z.of_nat j) nx) →
      rep_chain a m i tl → rep_chain (S m) b j tr → rep a b m nx (TOr tl tr)
  | rep_expr a b j k nx ts :
      ns !! a = Some (mkNode OP_EXPR (Z.of_nat j) k nx) → 0 ≤ k < nsub →
      rep_chain (S a) b j ts → rep a b a nx (TExpr (Some k) ts)
  | rep_nocap a b j k nx ts :
      ns !! a = Some (mkNode OP_NOCAPEXPR (Z.of_nat j) k nx) →
      rep_chain (S a) b j ts → rep a b a nx (TExpr None ts)
with rep_chain : nat → nat → nat → list rtree → Prop :=
  | rc_one a b i t : rep a b i (-1) t → rep_chain a b i [t]
  | rc_cons a m b i j t ts : rep a m i (Z.of_nat j) t → rep_chain m b j ts → rep_chain a b i (t :: ts).
End rep.

Scheme rep_mut := Induction for rep Sort Prop
  with rep_chain_mut := Induction for rep_chain Sort Prop.

Lemma rep_items_lt ns b i items : rep_items ns b i items → (i < b)%nat.
Proof. induction 1; lia. Qed.

(** The items of the nodes from [i] up to, and without, [j]. *)
Inductive path (ns : list SQRexNode) (i : nat) : nat → list citem → Prop :=
  | path_nil : path ns i i []
  | path_snoc j k n its : path ns i j its → ns !! j = Some n → nnext n = Z.of_nat k → (j < k)%nat →
      path ns i k (its ++ [item_of n]).

Lemma path_le ns i j its : path ns i j its → (i ≤ j)%nat.
Proof. induction 1; lia. Qed.

Lemma path_agree ns ns' i j its :
  path ns i j its → (∀ k, (i ≤ k < j)%nat → ns' !! k = ns !! k) → path ns' i j its.
Proof.
  induction 1 as [|j k n its Hp IH Hn Hnx Hlt]; intros Hag; [apply path_nil|].
  pose proof (path_le _ _ _ _ Hp). eapply path_snoc; [apply IH; intros; apply Hag; lia|by rewrite Hag by lia|done|done].
Qed.

Lemma path_items ns b i j its its' :
  path ns i j its → rep_items ns b j its' → rep_items ns b i (its ++ its').
Proof.
  intros Hp. revert its'. induction Hp as [|j k n its Hp IH Hn Hnx Hlt]; intros its' Hr; [done|].
  rewrite <- app_assoc. apply IH. by eapply ri_cons.
Qed.

Lemma path_first ns i k its :
  path ns i k its → (i < k)%nat →
  ∃ n j its', ns !! i = Some n ∧ nnext n = Z.of_nat j ∧ (i < j)%nat ∧ path ns j k its'.
Proof.
  induction 1 as [|j k n its Hp IH Hn Hnx Hlt]; intros Hik; [lia|].
  destruct (decide (i = j)) as [->|Hne].
  - exists n, k, []. split_and!; [done..|apply path_nil].
  - pose proof (path_le _ _ _ _ Hp). destruct IH as (n0 & j0 & its' & ? & ? & ? & ?); [lia|].
    exists n0, j0, (its' ++ [item_of n]). split_and!; [done..|by eapply path_snoc].
Qed.

(** Representation depends on the interval only. *)
Lemma rep_items_agree ns ns' a b i items :
  (∀ k, (a ≤ k < b)%nat → ns' !! k = ns !! k) → (a ≤ i)%nat → rep_items ns b i items → rep_items ns' b i items.
Proof.
  intros Hag Hai Hr. induction Hr as [i n Hib Hi Hnx|i j n items Hi Hnx Hij Hr IH].
  - apply ri_last; [done|rewrite Hag by lia; done|done].
  - pose proof (rep_items_lt _ _ _ _ Hr). eapply ri_cons; [rewrite Hag by lia; done|done|done|]. apply IH. lia.
Qed.

Lemma rep_bounds ns nsub a b i nx t : rep ns nsub a b i nx t → (a ≤ i < b)%nat
with rep_chain_bounds ns nsub a b i ts : rep_chain ns nsub a b i ts → (a ≤ i < b)%nat.
Proof.
  - destruct 1 as [| | ? ? ? ? ? ? ? Hr|? ? ? ? ? ? ? ? ? Hl Hr|? ? ? ? ? ? ? ? Hr|? ? ? ? ? ? ? Hr]; [lia|lia|..].
    + apply rep_bounds in Hr. lia.
    + apply rep_chain_bounds in Hl, Hr. lia.
    + apply rep_chain_bounds in Hr. lia.
    + apply rep_chain_bounds in Hr. lia.
  - destruct 1 as [? ? ? ? Hr|? ? ? ? ? ? ? Hr Hc].
    + by apply rep_bounds in Hr.
    + apply rep_bounds in Hr. apply rep_chain_bounds in Hc. lia.
Qed.

Section agree.
Context (ns ns' : list SQRexNode) (nsub nsub' : Z) (Hsub : nsub ≤ nsub').

Lemma rep_agree a b i nx t :
  rep ns nsub a b i nx t → (∀ k, (a ≤ k < b)%nat → ns' !! k = ns !! k) → rep ns' nsub' a b i nx t
with rep_chain_agree a b i ts :
  rep_chain ns nsub a b i ts → (∀ k, (a ≤ k < b)%nat → ns' !! k = ns !! k) → rep_chain ns' nsub' a b i ts.
Proof.
  - destruct 1 as [? ? ? ? ? Hn|? ? ? ? ? ? ? Hn ? ? Hi|? ? ? ? ? ? Hn Hr|? ? ? ? ? ? ? ? Hn Hl Hr|? ? ? ? ? ? Hn ? Hr|? ? ? ? ? ? Hn Hr];
      intros Hag.
    + apply rep_leaf; [rewrite Hag by lia; done|done].
    + eapply rep_set; [rewrite Hag by lia; done|done|done|]. eapply rep_items_agree; [exact Hag| |done]. lia.
    + pose proof (rep_bounds _ _ _ _ _ _ _ Hr). eapply rep_greedy; [rewrite Hag by lia; done|].
      apply rep_agree; [done|]. intros; apply Hag; lia.
    + pose proof (rep_chain_bounds _ _ _ _ _ _ Hl). pose proof (rep_chain_bounds _ _ _ _ _ _ Hr).
      eapply rep_or; [rewrite Hag by lia; done|apply rep_chain_agree; [done|]..]; intros; apply Hag; lia.
    + pose proof (rep_chain_bounds _ _ _ _ _ _ Hr).
      eapply rep_expr; [rewrite Hag by lia; done|lia|]. apply rep_chain_agree; [done|]. intros; apply Hag; lia.
    + pose proof (rep_chain_bounds _ _ _ _ _ _ Hr).
      eapply rep_nocap; [rewrite Hag by lia; done|]. apply rep_chain_agree; [done|]. intros; apply Hag; lia.
  - destruct 1 as [? ? ? ? Hr|? ? ? ? ? ? ? Hr Hc]; intros Hag.
    + apply rc_one. by apply rep_agree.
    + pose proof (rep_bounds _ _ _ _ _ _ _ Hr). pose proof (rep_chain_bounds _ _ _ _ _ _ Hc).
      eapply rc_cons; [apply rep_agree|apply rep_chain_agree]; try done; intros; apply Hag; lia.
Qed.
End agree.

(** Linking a node to its successor. *)
Lemma rep_link ns nsub a b i nx nx' t n :
  rep ns nsub a b i nx t → ns !! i = Some n →
  rep (<[i := mkNode (ntype n) (nleft n) (nright n) nx']> ns) nsub a b i nx' t.
Proof.
  intros Hr Hi. pose proof (lookup_lt_Some _ _ _ Hi) as Hlt.
  assert (Hne : ∀ k, i ≠ k → <[i := mkNode (ntype n) (nleft n) (nright n) nx']> ns !! k = ns !! k).
  { intros. by apply list_lookup_insert_ne. }
  assert (He : <[i := mkNode (ntype n) (nleft n) (nright n) nx']> ns !! i = Some (mkNode (ntype n) (nleft n) (nright n) nx')).
  { by apply list_lookup_insert_eq. }
  destruct Hr as [? ? ? ? ? Hn|? ? ? ? ? ? ? Hn ? ? Hit|? ? ? ? ? ? Hn Hr|? ? ? ? ? ? ? ? Hn Hl Hr|? ? ? ? ? ? Hn ? Hr|? ? ? ? ? ? Hn Hr];
    rewrite Hn in Hi; injection Hi as <-; simpl in *.
  - by apply rep_leaf.
  - eapply rep_set; [exact He|done|done|]. eapply (rep_items_agree _ _ (S a)); [|lia|done]. intros; apply Hne; lia.
  - pose proof (rep_bounds _ _ _ _ _ _ _ Hr). eapply rep_greedy; [exact He|].
    eapply rep_agree; [reflexivity|done|]. intros; apply Hne; lia.
  - pose proof (rep_chain_bounds _ _ _ _ _ _ Hl). pose proof (rep_chain_bounds _ _ _ _ _ _ Hr).
    eapply rep_or; [exact He|eapply rep_chain_agree; [reflexivity|done|]..]; intros; apply Hne; lia.
  - eapply rep_expr; [exact He|done|]. eapply rep_chain_agree; [reflexivity|done|]. intros; apply Hne; lia.
  - eapply rep_nocap; [exact He|]. eapply rep_chain_agree; [reflexivity|done|]. intros; apply Hne; lia.
Qed.

(** ** The parser *)

Section parse.
(** A pattern without NUL, whose end is not [-\] or [\m]. *)
Context (pat : list Z) (Hpat : Forall (λ c, 0 < c ≤ 255) pat).
Context (Hback : ¬ [45; 92] `suffix_of` pat) (Hm : ¬ [92; 109] `suffix_of` pat).

Record wfp (e : SQRex) : Prop := {
  wf_pat : pattern e = pat;
  wf_p : (_p e ≤ length pat)%nat;
  wf_alloc : Z.of_nat (length (_nodes e)) ≤ _nallocated e;
  wf_room : 1 ≤ _nallocated e;
  wf_sub : 0 ≤ _nsubexpr e;
  wf_first : _first e = 0
}.

Record grows (e e' : SQRex) : Prop := {
  gr_wf : wfp e';
  gr_len : (length (_nodes e) ≤ length (_nodes e'))%nat;
  gr_old k : (k < length (_nodes e))%nat → _nodes e' !! k = _nodes e !! k;
  gr_sub : _nsubexpr e ≤ _nsubexpr e';
  gr_p : (_p e ≤ _p e')%nat
}.

Lemma grows_refl e : wfp e → grows e e.
Proof. by split. Qed.

Lemma grows_trans e1 e2 e3 : grows e1 e2 → grows e2 e3 → grows e1 e3.
Proof.
  intros [? ? Ho1 ? ?] [? ? Ho2 ? ?]. split; [done|lia| |lia|lia]. intros k Hk. rewrite Ho2 by lia. auto.
Qed.

(** The character at [_p]: inside the pattern, or the terminator. *)
Definition cur_is (e : SQRex) (c : Z) : Prop :=
  ((_p e < length pat)%nat ∧ pat !! _p e = Some c ∧ 0 < c ≤ 255) ∨ (_p e = length pat ∧ c = 0).

Lemma safe_cur e (Q : Z → SQRex → Prop) : wfp e → (∀ c, cur_is e c → Q c e) → safe cur e Q.
Proof.
  intros [Hp Hle _ _ _ _] HQ. unfold safe, cur, char_at. rewrite Hp.
  destruct (pat !! _p e) as [c|] eqn:Hc; simpl.
  - apply HQ. left. split_and!; [by eapply lookup_lt_Some|done|..]; by eapply (Forall_lookup_1 _ _ _ _ Hpat).
  - apply lookup_ge_None in Hc. rewrite decide_True by lia. simpl. apply HQ. right. split; [lia|done].
Qed.

Lemma cur_in e c : cur_is e c → c ≠ 0 → (_p e < length pat)%nat ∧ pat !! _p e = Some c.
Proof. intros [(? & ? & ?)|[? ?]] ?; done. Qed.

Definition bumped (e : SQRex) : SQRex := with_p (S (_p e)) e.

Lemma wfp_bumped e : wfp e → (_p e < length pat)%nat → wfp (bumped e).
Proof. intros [] ?. split; simpl; auto. Qed.

Lemma grows_bumped e : wfp e → (_p e < length pat)%nat → grows e (bumped e).
Proof. intros Hw Hp. split; simpl; auto; [by apply wfp_bumped|lia]. Qed.

Lemma safe_skip e (Q : () → SQRex → Prop) : Q () (bumped e) → safe skip e Q.
Proof. done. Qed.

Lemma isc_code c a : isc c a = true → c = char_code a.
Proof. unfold isc. by intros ->%Z.eqb_eq. Qed.

(** A new node at the end of the array. *)
Definition added (e e' : SQRex) (n : SQRexNode) : Prop :=
  wfp e' ∧ _nodes e' = _nodes e ++ [n] ∧ _p e' = _p e ∧
  _nsubexpr e' = (if ntype n =? OP_EXPR then _nsubexpr e + 1 else _nsubexpr e).

Lemma safe_newnode type e (Q : Z → SQRex → Prop) :
  wfp e →
  (∀ e', added e e' (mkNode type (-1) (if type =? OP_EXPR then _nsubexpr e else -1) (-1)) →
         Q (Z.of_nat (length (_nodes e))) e') →
  safe (sqstd_rex_newnode type) e Q.
Proof.
  intros [Hp Hle Ha Hr Hs Hfi] HQ. unfold safe, sqstd_rex_newnode.
  set (alloc := if _nallocated e <? _ then _ else _).
  assert (Halloc : Z.of_nat (length (_nodes e)) < alloc).
  { unfold alloc. destruct (Z.ltb_spec (_nallocated e) (Z.of_nat (length (_nodes e)) + 1)); lia. }
  rewrite (proj2 (Z.ltb_lt _ _) Halloc). apply HQ. split_and!; [|done..]. split; simpl; [done..| |lia| |done].
  - rewrite length_app. simpl. lia.
  - destruct (type =? OP_EXPR); lia.
Qed.

Lemma safe_get_node i n e (Q : SQRexNode → SQRex → Prop) :
  _nodes e !! i = Some n → Q n e → safe (get_node (Z.of_nat i)) e Q.
Proof.
  intros Hi HQ. unfold safe, get_node. rewrite (proj2 (Z.ltb_ge _ _)) by lia. by rewrite Nat2Z.id, Hi.
Qed.

Definition with_node (i : nat) (n : SQRexNode) (e : SQRex) : SQRex :=
  with_nodes (<[i := n]> (_nodes e)) (_nallocated e) (_nsubexpr e) e.

Lemma wfp_with_node i n e : wfp e → wfp (with_node i n e).
Proof. intros []. split; simpl; auto. by rewrite length_insert. Qed.

Lemma safe_upd_node i n f e (Q : () → SQRex → Prop) :
  _nodes e !! i = Some n → Q () (with_node i (f n) e) → safe (upd_node (Z.of_nat i) f) e Q.
Proof.
  intros Hi HQ. unfold upd_node. apply safe_bind. eapply safe_get_node; [done|]. apply safe_modify.
  unfold with_node in HQ. by rewrite Nat2Z.id.
Qed.

(** A leaf was parsed: one node more, at least one character less. *)
Definition leaf_added (e : SQRex) (i : Z) (e' : SQRex) : Prop :=
  ∃ n, wfp e' ∧ i = Z.of_nat (length (_nodes e)) ∧ _nodes e' = _nodes e ++ [n] ∧ nnext n = -1 ∧
       leaf_type (ntype n) ∧ _nsubexpr e' = _nsubexpr e ∧ (_p e < _p e')%nat.

Lemma leaf_char c : 0 < c ≤ 255 → leaf_type c.
Proof. unfold leaf_type, OP_GREEDY, OP_OR, OP_EXPR, OP_NOCAPEXPR, OP_CLASS, OP_NCLASS, MAX_CHAR. lia. Qed.

Lemma safe_leaf type e0 e :
  wfp e → _nodes e = _nodes e0 → _nsubexpr e = _nsubexpr e0 → (_p e0 < _p e)%nat → leaf_type type →
  safe (sqstd_rex_newnode type) e (leaf_added e0).
Proof.
  intros Hw Hn Hs Hp Ht. apply safe_newnode; [done|]. intros e' (Hw' & Hn' & Hp' & Hs').
  assert (Hne : (type =? OP_EXPR) = false) by (apply Z.eqb_neq; apply Ht). simpl in Hs'. rewrite Hne in *.
  exists (mkNode type (-1) (-1) (-1)). rewrite <- Hn, <- Hs. split_and!; try done. lia.
Qed.

(** Setting fields of the node just added. *)
Lemma leaf_added_upd e0 e i n f :
  wfp e → _nodes e = _nodes e0 ++ [n] → i = length (_nodes e0) →
  wfp (with_node i (f n) e) ∧ _nodes (with_node i (f n) e) = _nodes e0 ++ [f n].
Proof.
  intros Hw Hn ->. split; [by apply wfp_with_node|]. simpl. rewrite Hn.
  rewrite insert_app_r_alt, Nat.sub_diag by lia. done.
Qed.

Lemma safe_advance e (Q : Z → SQRex → Prop) :
  wfp e → (∀ c, cur_is e c → Q c (bumped e)) → safe advance e Q.
Proof. intros Hw HQ. unfold advance. apply safe_bind, safe_cur; [done|]. intros c Hc. apply safe_bind, safe_skip, safe_ret. auto. Qed.

Lemma ends_with (l : list Z) i c d :
  l !! i = Some c → l !! S i = Some d → S (S i) = length l → [c; d] `suffix_of` l.
Proof.
  intros Hc Hd Hl. exists (take i l). apply list_eq. intros k.
  destruct (decide (k < i)%nat) as [Hk|Hk].
  - rewrite lookup_app_l by (rewrite length_take; lia). by rewrite lookup_take_lt by lia.
  - rewrite lookup_app_r; rewrite length_take_le; try lia.
    destruct (decide (k = i)) as [->|]; [by rewrite Nat.sub_diag|].
    destruct (decide (k = S i)) as [->|]; [by replace (S i - i)%nat with 1%nat by lia|].
    rewrite (lookup_ge_None_2 l) by lia. symmetry. apply lookup_ge_None_2. simpl. lia.
Qed.

Lemma control_letter_char c v : control_letter c = Some v → 0 < v ≤ 255 ∧ c ≠ 0.
Proof.
  unfold control_letter. repeat (case_match; [intros [= <-]; bool_to_prop; split; [lia|]|]); try done;
    match goal with H : isc c _ = true |- _ => apply isc_code in H; by subst end.
Qed.

Lemma cur_pos e c : cur_is e c → (_p e < length pat)%nat → 0 < c ≤ 255.
Proof. intros [(? & ? & ?)|[? ?]] ?; [done|lia]. Qed.

(** Two more fields of a fresh node. *)
Lemma safe_balanced e0 e cb ce :
  wfp e → _nodes e = _nodes e0 → _nsubexpr e = _nsubexpr e0 → (_p e0 < _p e)%nat →
  safe (node ← sqstd_rex_newnode OP_MB; _ ← set_left node cb; _ ← set_right node ce; mret node) e (leaf_added e0).
Proof.
  intros Hw0 Hn0 Hs0 Hp0. apply safe_bind. eapply safe_mono; [by apply (safe_leaf OP_MB e0)|].
  intros i e' (n & Hw' & -> & Hn & Hnx & Hty & Hs & Hp).
  apply safe_bind. eapply safe_upd_node; [rewrite Hn; by apply list_lookup_middle|].
  destruct (leaf_added_upd e0 e' _ n (λ x, mkNode (ntype x) cb (nright x) (nnext x)) Hw' Hn eq_refl) as [Hw5 Hn5].
  apply safe_bind. eapply safe_upd_node; [rewrite Hn5; by apply list_lookup_middle|]. apply safe_ret.
  destruct (leaf_added_upd e0 _ _ _ (λ x, mkNode (ntype x) (nleft x) ce (nnext x)) Hw5 Hn5 eq_refl).
  eexists. by split_and!.
Qed.

Lemma safe_charclass e0 e t :
  wfp e → _nodes e = _nodes e0 → _nsubexpr e = _nsubexpr e0 → (_p e0 < _p e)%nat →
  safe (sqstd_rex_charclass t) e (leaf_added e0).
Proof.
  intros Hw0 Hn0 Hs0 Hp0. apply safe_bind. eapply safe_mono; [by apply (safe_leaf OP_CCLASS e0)|].
  intros i e' (n & Hw' & -> & Hn & Hnx & Hty & Hs & Hp).
  apply safe_bind. eapply safe_upd_node; [rewrite Hn; by apply list_lookup_middle|]. apply safe_ret.
  destruct (leaf_added_upd e0 e' _ n (λ x, mkNode (ntype x) t (nright x) (nnext x)) Hw' Hn eq_refl).
  eexists. by split_and!.
Qed.

Lemma safe_charnode isclass e : wfp e → safe (sqstd_rex_charnode isclass) e (leaf_added e).
Proof.
  intros Hw. unfold sqstd_rex_charnode. apply safe_bind, safe_cur; [done|]. intros c Hc.
  destruct (isc c "\") eqn:Hb.
  - apply isc_code in Hb. assert (Hc92 : c = 92) by done. destruct (cur_in _ _ Hc) as [Hlt Hci]; [lia|].
    assert (Hw1 : wfp (bumped e)) by (by apply wfp_bumped).
    apply safe_bind, safe_skip, safe_bind, safe_cur; [done|]. intros d Hd.
    destruct (decide (d = 0)) as [->|Hd0]; [apply safe_raised|]. destruct (cur_in _ _ Hd Hd0) as [Hlt1 Hdi].
    assert (Hw2 : wfp (bumped (bumped e))) by (by apply wfp_bumped).
    pose proof (cur_pos _ _ Hd Hlt1) as Hdp.
    destruct (control_letter d) as [v|] eqn:Hv.
    { apply control_letter_char in Hv as [Hv _]. apply safe_bind, safe_skip, safe_leaf; [done..|simpl; lia|by apply leaf_char]. }
    destruct (existsb (isc d) class_letters).
    { apply safe_bind, safe_advance; [done|]. intros t Ht. apply safe_charclass; [done..|simpl; lia]. }
    destruct (isc d "m") eqn:Hdm.
    { assert (Hlt2 : (S (S (_p e)) < length pat)%nat).
      { apply isc_code in Hdm. assert (Hd109 : d = 109) by done. subst c d. simpl in *.
        destruct (decide (S (S (_p e)) = length pat)) as [Heq|]; [|lia].
        by destruct Hm; eapply ends_with. }
      apply safe_bind, safe_skip, safe_bind, safe_cur; [done|]. intros cb Hcb. apply safe_bind, safe_skip.
      assert (Hw3 : wfp (bumped (bumped (bumped e)))) by (apply wfp_bumped; [done|simpl; lia]).
      apply safe_bind, safe_cur; [done|]. intros ce Hce. apply safe_bind, safe_skip.
      destruct ((cb =? 0) || (ce =? 0)) eqn:Hz; [apply safe_raised|]. destruct (cb =? ce); [apply safe_raised|].
      apply orb_false_iff in Hz as [_ Hz%Z.eqb_neq]. destruct (cur_in _ _ Hce Hz) as [Hlt3 _].
      apply safe_balanced; [by apply wfp_bumped|done..|simpl; lia]. }
    rewrite (proj2 (Z.eqb_neq d 0) Hd0). destruct ((isc d "b" || isc d "B") && negb isclass).
    { apply safe_bind. apply safe_newnode; [done|]. intros e' (Hw' & Hn & Hp & Hs). simpl in Hs.
      apply safe_bind. eapply safe_upd_node; [rewrite Hn; by apply list_lookup_middle|].
      destruct (leaf_added_upd (bumped e) e' _ _ (λ x, mkNode (ntype x) d (nright x) (nnext x)) Hw' Hn eq_refl) as [Hw5 Hn5].
      apply safe_bind, safe_skip, safe_ret. eexists. split_and!; [|done|exact Hn5|done|done|done|simpl in *; lia].
      apply wfp_bumped; [done|]. simpl in *. lia. }
    apply safe_bind, safe_advance; [done|]. intros t Ht. apply safe_leaf; [done..|simpl; lia|].
    apply leaf_char. by apply (cur_pos _ _ Ht).
  - destruct (negb (isprint c)) eqn:Hpr; [apply safe_raised|]. apply negb_false_iff in Hpr.
    assert (c ≠ 0) by (intros ->; done). destruct (cur_in _ _ Hc) as [Hlt _]; [done|].
    apply safe_bind, safe_advance; [done|]. intros t Ht. apply safe_leaf; [by apply wfp_bumped|done|done|simpl; lia|].
    apply leaf_char. by apply (cur_pos _ _ Ht).
Qed.

(** After the dash of a range. *)
Lemma safe_escapechar e q (Q : Z → SQRex → Prop) :
  wfp e → _p e = S q → pat !! q = Some 45 →
  (∀ t e', wfp e' → _nodes e' = _nodes e → _nsubexpr e' = _nsubexpr e → (_p e < _p e')%nat → Q t e') →
  safe sqstd_rex_escapechar e Q.
Proof.
  intros Hw Hq Hdash HQ. unfold sqstd_rex_escapechar. apply safe_bind, safe_cur; [done|]. intros c Hc.
  destruct (isc c "\") eqn:Hb.
  - apply isc_code in Hb. assert (Hc92 : c = 92) by done. destruct (cur_in _ _ Hc) as [Hlt Hci]; [lia|].
    assert (Hlt1 : (_p (bumped e) < length pat)%nat).
    { simpl. destruct (decide (S (_p e) = length pat)) as [Heq|]; [|lia]. subst c. rewrite Hq in *.
      by destruct Hback; eapply ends_with. }
    assert (Hw1 : wfp (bumped e)) by (by apply wfp_bumped). assert (Hw2 : wfp (bumped (bumped e))) by (by apply wfp_bumped).
    apply safe_bind, safe_skip, safe_bind, safe_cur; [done|]. intros d Hd. destruct (control_letter d).
    + apply safe_bind, safe_skip, safe_ret, HQ; [done..|simpl; lia].
    + apply safe_advance; [done|]. intros t _. apply HQ; [done..|simpl; lia].
  - destruct (negb (isprint c)) eqn:Hpr; [apply safe_raised|]. apply negb_false_iff in Hpr.
    assert (c ≠ 0) by (intros ->; done). destruct (cur_in _ _ Hc) as [Hlt _]; [done|].
    apply safe_advance; [done|]. intros t _. apply HQ; [by apply wfp_bumped|done..|simpl; lia].
Qed.

(** The state of [class_loop]: the items so far are linked from the class node
    [a] to [ch]; [fi] is a node that is not linked yet. *)
Record class_inv (e0 : SQRex) (T : Z) (a ch : nat) (fi : Z) (e : SQRex) : Prop := {
  ci_grows : grows e0 e;
  ci_a : a = length (_nodes e0);
  ci_sub : _nsubexpr e = _nsubexpr e0;
  ci_path : ∃ its, path (_nodes e) a ch its;
  ci_last : ∃ n, _nodes e !! ch = Some n ∧ nnext n = -1;
  ci_type : ∃ n, _nodes e !! a = Some n ∧ ntype n = T;
  ci_first : fi = -1 ∨ ∃ (f : nat) n, fi = Z.of_nat f ∧ (ch < f)%nat ∧ _nodes e !! f = Some n ∧ nnext n = -1
}.

(** Nodes are added and the position moves. *)
Lemma class_inv_more e0 T a ch fi e e' l :
  class_inv e0 T a ch fi e → wfp e' → _nodes e' = _nodes e ++ l → _nsubexpr e' = _nsubexpr e →
  (_p e ≤ _p e')%nat → class_inv e0 T a ch fi e'.
Proof.
  intros [[Hw Hl Ho Hs Hp] Ha Hsub [its Hpath] (n & Hn & Hnx) (na & Hna & Hty) Hfi] Hw' Hn' Hs' Hp'.
  assert (Hold : ∀ k x, _nodes e !! k = Some x → _nodes e' !! k = Some x).
  { intros k x Hk. rewrite Hn'. by apply lookup_app_l_Some. }
  split; [|done|lia| | | |].
  - split; [done|rewrite Hn', length_app; lia| |lia|lia].
    intros k Hk. rewrite Hn', lookup_app_l by lia. auto.
  - exists its. eapply path_agree; [done|]. intros k Hk. rewrite Hn', lookup_app_l; [done|].
    apply lookup_lt_Some in Hn. lia.
  - eauto.
  - eauto.
  - destruct Hfi as [|(f & nf & ? & ? & ? & ?)]; [by left|right]. exists f, nf. auto.
Qed.

(** Linking a node to the last one. *)
Lemma class_inv_link e0 T a ch fi e n (k : nat) nk :
  class_inv e0 T a ch fi e → _nodes e !! ch = Some n → _nodes e !! k = Some nk → (ch < k)%nat → nnext nk = -1 →
  class_inv e0 T a k (-1) (with_node ch (mkNode (ntype n) (nleft n) (nright n) (Z.of_nat k)) e).
Proof.
  intros [[Hw Hl Ho Hs Hp] Ha Hsub [its Hpath] _ (na & Hna & Hty) Hfi] Hn Hk Hlt Hnx.
  pose proof (path_le _ _ _ _ Hpath) as Hle. pose proof (lookup_lt_Some _ _ _ Hn) as Hch.
  set (n' := mkNode _ _ _ _). set (e' := with_node _ _ _).
  assert (He' : ∀ i, i ≠ ch → _nodes e' !! i = _nodes e !! i).
  { intros i Hi. simpl. by rewrite list_lookup_insert_ne. }
  assert (Hch' : _nodes e' !! ch = Some n') by (by apply list_lookup_insert_eq).
  split; [|done|done| | | |by left].
  - split; [by apply wfp_with_node|simpl; rewrite length_insert; lia| |done|done].
    intros i Hi. rewrite He' by lia. auto.
  - eexists. eapply (path_snoc _ _ ch k n'); [|done..]. eapply path_agree; [done|]. intros; apply He'; lia.
  - exists nk. rewrite He' by lia. done.
  - destruct (decide (a = ch)) as [->|]; [|exists na; by rewrite He'].
    exists n'. split; [done|]. simpl. congruence.
Qed.

(** Filling in a node behind the chain. *)
Lemma class_inv_fill e0 T a ch fi e r nr nr' :
  class_inv e0 T a ch fi e → _nodes e !! r = Some nr → (ch < r)%nat → nnext nr' = -1 →
  class_inv e0 T a ch fi (with_node r nr' e).
Proof.
  intros [[Hw Hl Ho Hs Hp] Ha Hsub [its Hpath] (n & Hn & Hnx) (na & Hna & Hty) Hfi] Hr Hlt Hnx'.
  pose proof (path_le _ _ _ _ Hpath) as Hle. pose proof (lookup_lt_Some _ _ _ Hr) as Hrl.
  assert (He' : ∀ i, i ≠ r → _nodes (with_node r nr' e) !! i = _nodes e !! i).
  { intros i Hi. simpl. by rewrite list_lookup_insert_ne. }
  split; [|done|done| | | |].
  - split; [by apply wfp_with_node|simpl; rewrite length_insert; lia| |done|done].
    intros i Hi. rewrite He' by lia. auto.
  - exists its. eapply path_agree; [done|]. intros; apply He'; lia.
  - exists n. rewrite He' by lia. done.
  - exists na. rewrite He' by lia. done.
  - destruct Hfi as [|(f & nf & -> & Hf & Hnf & Hnxf)]; [by left|right]. exists f.
    destruct (decide (f = r)) as [->|]; [|exists nf; by rewrite He'].
    exists nr'. simpl. rewrite list_lookup_insert_eq by done. done.
Qed.

Lemma class_inv_set_next e0 T a ch fi e (k : nat) nk (Q : () → SQRex → Prop) :
  class_inv e0 T a ch fi e → _nodes e !! k = Some nk → (ch < k)%nat → nnext nk = -1 →
  (∀ e', class_inv e0 T a k (-1) e' → _p e' = _p e → Q () e') → safe (set_next (Z.of_nat ch) (Z.of_nat k)) e Q.
Proof.
  intros HI Hk Hlt Hnx HQ. destruct (ci_last _ _ _ _ _ _ HI) as (n & Hn & _).
  eapply safe_upd_node; [done|]. apply HQ; [|done]. by eapply class_inv_link.
Qed.

(** A range: the node for it takes the place of the single character. *)
Lemma safe_range {A} e0 T a ch (f : nat) e (K : Z → rexM A) (Q : A → SQRex → Prop) :
  class_inv e0 T a ch (Z.of_nat f) e → cur_is e 45 →
  (∀ (r : nat) e', class_inv e0 T a r (-1) e' → (a < r)%nat → (_p e < _p e')%nat → safe (K (Z.of_nat r)) e' Q) →
  safe (d ← advance;
        if isc d "]" then sqstd_rex_error "unfinished range" else
        r ← sqstd_rex_newnode OP_RANGE;
        f ← get_node (Z.of_nat f);
        c ← cur;
        if c <? ntype f then sqstd_rex_error "invalid range"
        else if ntype f =? OP_CCLASS then sqstd_rex_error "cannot use character classes in ranges"
        else
          _ ← set_left r (ntype f);
          t ← sqstd_rex_escapechar;
          _ ← set_right r t;
          _ ← set_next (Z.of_nat ch) r;
          K r) e Q.
Proof.
  intros HI Hc HQ. pose proof (gr_wf _ _ (ci_grows _ _ _ _ _ _ HI)) as Hw.
  destruct (cur_in _ _ Hc) as [Hlt Hdash]; [done|]. assert (Hw1 : wfp (bumped e)) by (by apply wfp_bumped).
  apply safe_bind, safe_advance; [done|]. intros d _. destruct (isc d "]"); [apply safe_raised|].
  apply safe_bind, safe_newnode; [done|]. intros e2 (Hw2 & Hn2 & Hp2 & Hs2). simpl in Hn2, Hp2, Hs2.
  assert (HI2 : class_inv e0 T a ch (Z.of_nat f) e2) by (eapply class_inv_more; [done..|lia]).
  set (r := length (_nodes e)) in *. assert (Hr : _nodes e2 !! r = Some (mkNode OP_RANGE (-1) (-1) (-1))).
  { rewrite Hn2. by apply list_lookup_middle. }
  assert (Hchr : (a ≤ ch < r)%nat).
  { destruct (ci_last _ _ _ _ _ _ HI) as (? & ?%lookup_lt_Some & _). destruct (ci_path _ _ _ _ _ _ HI) as [? ?%path_le].
    unfold r. lia. }
  destruct (ci_first _ _ _ _ _ _ HI2) as [|(f' & nf & Hf & ? & Hnf & ?)]; [lia|]. apply Nat2Z.inj in Hf as <-.
  apply safe_bind. eapply safe_get_node; [done|]. apply safe_bind, safe_cur; [done|]. intros c _.
  destruct (c <? ntype nf); [apply safe_raised|]. destruct (ntype nf =? OP_CCLASS); [apply safe_raised|].
  apply safe_bind. eapply safe_upd_node; [done|]. set (n3 := mkNode _ _ _ _).
  pose proof (class_inv_fill _ _ _ _ _ _ _ _ n3 HI2 Hr (proj2 Hchr) eq_refl) as HI3.
  apply safe_bind. eapply (safe_escapechar _ (_p e)); [apply (ci_grows _ _ _ _ _ _ HI3)|done|done|].
  intros t e4 Hw4 Hn4 Hs4 Hp4. simpl in Hp4.
  assert (HI4 : class_inv e0 T a ch (Z.of_nat f) e4).
  { eapply (class_inv_more _ _ _ _ _ _ _ []); [exact HI3|done|by rewrite app_nil_r|done|]. simpl. lia. }
  assert (Hr4 : _nodes e4 !! r = Some n3) by (rewrite Hn4; apply list_lookup_insert_eq; by eapply lookup_lt_Some).
  apply safe_bind. eapply safe_upd_node; [done|]. set (n5 := mkNode _ _ _ _).
  pose proof (class_inv_fill _ _ _ _ _ _ _ _ n5 HI4 Hr4 (proj2 Hchr) eq_refl) as HI5.
  apply safe_bind. eapply (class_inv_set_next _ _ _ _ _ _ r n5); [exact HI5| |lia|done|].
  { apply list_lookup_insert_eq. by eapply lookup_lt_Some. }
  intros e6 HI6 Hp6. apply (HQ r); [done|lia|]. rewrite Hp6. simpl. lia.
Qed.

(** Taking a character into the class. *)
Lemma safe_class_char e0 T a ch e (Q : Z → SQRex → Prop) :
  class_inv e0 T a ch (-1) e →
  (∀ (f : nat) e', class_inv e0 T a ch (Z.of_nat f) e' → (_p e < _p e')%nat → Q (Z.of_nat f) e') →
  safe (sqstd_rex_charnode true) e Q.
Proof.
  intros HI HQ. eapply safe_mono; [apply safe_charnode, (ci_grows _ _ _ _ _ _ HI)|].
  intros i e' (n & Hw' & -> & Hn & Hnx & _ & Hs & Hp). apply HQ; [|done].
  destruct (class_inv_more e0 T a ch (-1) e e' [n]) as [? ? ? ? (nl & Hl & ?) ? ?]; [done..|lia|]. split; try done; [eauto|].
  right. eexists _, n. split_and!; [done| |rewrite Hn; by apply list_lookup_middle|done].
  destruct (ci_last _ _ _ _ _ _ HI) as (? & ?%lookup_lt_Some & _). done.
Qed.

Definition class_done (e0 : SQRex) (T : Z) (a : nat) (p0 : nat) (cf : Z * Z) (e : SQRex) : Prop :=
  ∃ ch : nat, cf.1 = Z.of_nat ch ∧ class_inv e0 T a ch cf.2 e ∧ ((a < ch)%nat ∨ cf.2 ≠ -1) ∧ (p0 ≤ _p e)%nat.

Lemma safe_class_loop fuel : ∀ e0 T a ch fi e,
  class_inv e0 T a ch fi e → (length pat - _p e < fuel)%nat →
  ((a < ch)%nat ∨ fi ≠ -1 ∨ (∀ c, cur_is e c → isc c "]" = false)) →
  safe (class_loop fuel (Z.of_nat ch) fi) e (class_done e0 T a (_p e)).
Proof.
  induction fuel as [|fuel IH]; intros e0 T a ch fi e HI Hf Hne; [lia|].
  pose proof (gr_wf _ _ (ci_grows _ _ _ _ _ _ HI)) as Hw. pose proof (wf_p _ Hw) as Hple.
  assert (IH' : ∀ ch fi e', class_inv e0 T a ch fi e' → (_p e < _p e')%nat → (a < ch)%nat ∨ fi ≠ -1 →
    safe (class_loop fuel (Z.of_nat ch) fi) e' (class_done e0 T a (_p e))).
  { intros ch' fi' e' HI' Hp' Hne'. pose proof (wf_p _ (gr_wf _ _ (ci_grows _ _ _ _ _ _ HI'))).
    eapply safe_mono; [apply IH; [done|lia|tauto]|].
    intros cf e'' (ch'' & ? & ? & ? & ?). exists ch''. split_and!; try done. lia. }
  cbn [class_loop]. apply safe_bind, safe_cur; [done|]. intros c Hc.
  destruct (isc c "]") eqn:Hbr.
  { apply safe_ret. exists ch. split_and!; [done|done| |done]. destruct Hne as [|[|Hne]]; [auto..|]. by rewrite (Hne c Hc) in Hbr. }
  assert (Hchar : ∀ ch' e', class_inv e0 T a ch' (-1) e' → _p e' = _p e →
    safe (f ← sqstd_rex_charnode true; class_loop fuel (Z.of_nat ch') f) e' (class_done e0 T a (_p e))).
  { intros ch' e' HI' Hp'. apply safe_bind. eapply safe_class_char; [done|]. intros f e'' HI'' Hp''.
    apply IH'; [done|lia|right; lia]. }
  destruct (ci_first _ _ _ _ _ _ HI) as [->|(f & nf & -> & Hchf & Hnf & Hnx)].
  - rewrite andb_false_r. by apply Hchar.
  - assert (Hf1 : (Z.of_nat f =? -1) = false) by (apply Z.eqb_neq; lia). rewrite Hf1. cbn [negb]. rewrite andb_true_r.
    destruct (isc c "-") eqn:Hdash.
    + apply isc_code in Hdash. subst c. apply (safe_range e0 T a ch f); [done|done|]. intros r e' HI' Har Hp'.
      apply IH'; auto.
    + apply safe_bind. eapply class_inv_set_next; [done..|]. intros e' HI' Hp'. by apply Hchar.
Qed.

(** A set was parsed. *)
Definition set_added (e : SQRex) (i : Z) (e' : SQRex) : Prop :=
  grows e e' ∧ i = Z.of_nat (length (_nodes e)) ∧ _nsubexpr e' = _nsubexpr e ∧
  ∃ neg items, rep (_nodes e') (_nsubexpr e') (length (_nodes e)) (length (_nodes e')) (length (_nodes e)) (-1) (TSet neg items).

Lemma class_inv_close e0 (neg : bool) a ch e na :
  class_inv e0 (if neg then OP_NCLASS else OP_CLASS) a ch (-1) e → (a < ch)%nat → _nodes e !! a = Some na →
  let n1 := mkNode (ntype na) (nnext na) (nright na) (nnext na) in
  set_added e0 (Z.of_nat a) (with_node a (mkNode (ntype n1) (nleft n1) (nright n1) (-1)) (with_node a n1 e)).
Proof.
  intros [[Hw Hl Ho Hs Hp] Ha Hsub [its Hpath] (n & Hn & Hnx) (na' & Hna & Hty) _] Hlt Hna'.
  rewrite Hna in Hna'. injection Hna' as ->. simpl.
  set (e2 := with_node a _ (with_node a _ e)). pose proof (lookup_lt_Some _ _ _ Hn) as Hch.
  assert (He2 : ∀ k, k ≠ a → _nodes e2 !! k = _nodes e !! k).
  { intros k Hk. simpl. by rewrite !list_lookup_insert_ne. }
  assert (Hlen : length (_nodes e2) = length (_nodes e)) by (simpl; by rewrite !length_insert).
  split_and!; [|by rewrite Ha|done|].
  - split; [by do 2 apply wfp_with_node|lia| |done|done]. intros k Hk. rewrite He2 by lia. auto.
  - destruct (path_first _ _ _ _ Hpath Hlt) as (n0 & j & its' & Hn0 & Hj & Haj & Hpath').
    rewrite Hna in Hn0. injection Hn0 as <-.
    exists neg, (its' ++ [item_of n]). rewrite <- Ha, Hlen. eapply rep_set; [|done|lia|].
    + rewrite <- Hty, <- Hj. simpl. apply list_lookup_insert_eq. rewrite length_insert. lia.
    + eapply (rep_items_agree (_nodes e) _ (S a)); [intros; apply He2; lia|lia|].
      eapply path_items; [done|]. by apply ri_last.
Qed.

Lemma class_node_added e0 e e' (neg : bool) :
  wfp e0 → added e e' (mkNode (if neg then OP_NCLASS else OP_CLASS) (-1) (-1) (-1)) → _nodes e = _nodes e0 →
  _nsubexpr e = _nsubexpr e0 → (_p e0 ≤ _p e)%nat →
  class_inv e0 (if neg then OP_NCLASS else OP_CLASS) (length (_nodes e0)) (length (_nodes e0)) (-1) e'.
Proof.
  intros Hw (Hw' & Hn & Hp & Hs) Hn0 Hs0 Hp0.
  assert (Hl : _nodes e' !! length (_nodes e0) = Some (mkNode (if neg then OP_NCLASS else OP_CLASS) (-1) (-1) (-1))).
  { rewrite Hn, Hn0. by apply list_lookup_middle. }
  assert (Hs' : _nsubexpr e' = _nsubexpr e0) by (rewrite Hs, Hs0; by destruct neg).
  split; [|done|done|eexists; apply path_nil|eauto|eauto|by left].
  split; [done|rewrite Hn, Hn0, length_app; lia| |lia|lia]. intros k Hk. rewrite Hn, Hn0. by rewrite lookup_app_l.
Qed.

Lemma safe_class_body e0 e (neg : bool) :
  class_inv e0 (if neg then OP_NCLASS else OP_CLASS) (length (_nodes e0)) (length (_nodes e0)) (-1) e →
  let ret := Z.of_nat (length (_nodes e0)) in
  safe (c ← cur;
        if isc c "]" then sqstd_rex_error "empty class" else
        fuel ← chars_left;
        '(chain, first) ← class_loop fuel ret (-1);
        _ ← when (negb (first =? -1)) (set_next chain first);
        n ← get_node ret;
        _ ← set_left ret (nnext n);
        _ ← set_next ret (-1);
        mret ret) e (λ i e', set_added e0 i e' ∧ (_p e ≤ _p e')%nat).
Proof.
  intros HI ret. pose proof (gr_wf _ _ (ci_grows _ _ _ _ _ _ HI)) as Hw.
  apply safe_bind, safe_cur; [done|]. intros c Hc. destruct (isc c "]") eqn:Hbr; [apply safe_raised|].
  apply safe_bind, safe_gets, safe_bind. eapply safe_mono.
  { apply (safe_class_loop _ _ _ _ _ _ _ HI); [rewrite (wf_pat _ Hw); lia|]. right. right.
    intros d Hd. assert (c = d) as <-; [|done].
    destruct Hc as [(? & ? & ?)|[? ->]], Hd as [(? & ? & ?)|[? ->]]; try done; try lia; congruence. }
  intros [chain first] e1 (ch & Hch & HI1 & Hne & Hp1). simpl in Hch, HI1, Hne. subst chain.
  assert (Hend : ∀ ch e2, class_inv e0 (if neg then OP_NCLASS else OP_CLASS) (length (_nodes e0)) ch (-1) e2 →
    (length (_nodes e0) < ch)%nat → (_p e ≤ _p e2)%nat →
    safe (n ← get_node ret; _ ← set_left ret (nnext n); _ ← set_next ret (-1); mret ret) e2
      (λ i e', set_added e0 i e' ∧ (_p e ≤ _p e')%nat)).
  { clear -Hpat Hback Hm. intros ch e2 HI2 Hlt Hp2. destruct (ci_type _ _ _ _ _ _ HI2) as (na & Hna & Hty).
    apply safe_bind. eapply safe_get_node; [done|]. apply safe_bind. eapply safe_upd_node; [done|].
    apply safe_bind. eapply safe_upd_node; [apply list_lookup_insert_eq; by eapply lookup_lt_Some|].
    apply safe_ret. split; [|done]. by apply (class_inv_close e0 neg _ ch). }
  apply safe_bind, safe_when.
  - intros Hfi%negb_true_iff%Z.eqb_neq. destruct (ci_first _ _ _ _ _ _ HI1) as [|(f & nf & -> & ? & ? & ?)]; [done|].
    eapply class_inv_set_next; [done..|]. intros e2 HI2 Hp2. eapply Hend; [done| |lia].
    destruct (ci_path _ _ _ _ _ _ HI1) as [? ?%path_le]. lia.
  - intros ->%negb_false_iff%Z.eqb_eq. eapply Hend; [done| |done]. by destruct Hne.
Qed.

Lemma safe_class e :
  wfp e → safe sqstd_rex_class e (λ i e', set_added e i e' ∧ (_p e ≤ _p e')%nat).
Proof.
  intros Hw. unfold sqstd_rex_class. apply safe_bind, safe_cur; [done|]. intros c Hc.
  destruct (isc c "^") eqn:Hcaret.
  - apply isc_code in Hcaret. destruct (cur_in _ _ Hc) as [Hlt _]; [by subst|].
    apply safe_bind, safe_bind, safe_newnode; [done|]. intros e1 Hadd. apply safe_bind, safe_skip, safe_ret.
    pose proof (class_node_added e e e1 true Hw Hadd eq_refl eq_refl (Nat.le_refl _)) as HI.
    destruct Hadd as (Hw1 & _ & Hp1 & _). eapply safe_mono; [apply (safe_class_body e _ true)|].
    + eapply (class_inv_more _ _ _ _ _ _ _ []); [done|apply wfp_bumped; [done|lia]|by rewrite app_nil_r|done|simpl; lia].
    + simpl. intros i e' [? ?]. split; [done|lia].
  - apply safe_bind, safe_newnode; [done|]. intros e1 Hadd.
    pose proof (class_node_added e e e1 false Hw Hadd eq_refl eq_refl (Nat.le_refl _)) as HI.
    destruct Hadd as (Hw1 & _ & Hp1 & _). eapply safe_mono; [by apply (safe_class_body e _ false)|].
    simpl. intros i e' [? ?]. split; [done|lia].
Qed.

(** The position moves, the nodes stay. *)
Definition moved (e e' : SQRex) : Prop :=
  wfp e' ∧ _nodes e' = _nodes e ∧ _nsubexpr e' = _nsubexpr e ∧ (_p e ≤ _p e')%nat.

Lemma moved_bumped e : wfp e → (_p e < length pat)%nat → moved e (bumped e).
Proof. intros. split_and!; simpl; auto. by apply wfp_bumped. Qed.

Lemma moved_trans e1 e2 e3 : moved e1 e2 → moved e2 e3 → moved e1 e3.
Proof. intros (? & ? & ? & ?) (? & ? & ? & ?). split_and!; [done|congruence|congruence|lia]. Qed.

Lemma moved_grows e e' : wfp e → moved e e' → grows e e'.
Proof. intros ? (? & Hn & ? & ?). split; [done|by rewrite Hn|by intros; rewrite Hn|lia|lia]. Qed.

Lemma safe_number_loop fuel : ∀ ret pos e,
  wfp e → (length pat - _p e < fuel)%nat → safe (number_loop fuel ret pos) e (λ _ e', moved e e').
Proof.
  induction fuel as [|fuel IH]; intros ret pos e Hw Hf; [lia|]. cbn [number_loop].
  apply safe_bind, safe_cur; [done|]. intros c Hc. destruct (isdigit c) eqn:Hd; [|by split_and!].
  destruct (cur_in _ _ Hc) as [Hlt _]; [by intros ->|]. pose proof (moved_bumped _ Hw Hlt) as Hmv.
  apply safe_bind, safe_skip. destruct (pos =? 1000000000); [apply safe_raised|].
  eapply safe_mono; [apply IH; [apply Hmv|simpl; lia]|]. intros ? e' ?. by eapply moved_trans.
Qed.

Lemma safe_parsenumber e :
  wfp e → (_p e < length pat)%nat → safe sqstd_rex_parsenumber e (λ _ e', moved e e').
Proof.
  intros Hw Hlt. pose proof (moved_bumped _ Hw Hlt) as Hmv. apply safe_bind, safe_advance; [done|]. intros c _.
  apply safe_bind, safe_gets. eapply safe_mono; [apply safe_number_loop; [apply Hmv|]|].
  - rewrite (wf_pat _ (proj1 Hmv)). simpl. lia.
  - intros ? e' ?. by eapply moved_trans.
Qed.

Lemma safe_expect a e : wfp e → char_code a ≠ 0 → safe (sqstd_rex_expect a) e (λ _ e', moved e e').
Proof.
  intros Hw Ha. apply safe_bind, safe_cur; [done|]. intros c Hc. destruct (isc c a) eqn:Hca; [|apply safe_raised].
  apply isc_code in Hca. destruct (cur_in _ _ Hc) as [Hlt _]; [congruence|]. apply safe_skip. by apply moved_bumped.
Qed.

(** A character that is not NUL can be skipped. *)
Lemma skip_ok c a e : wfp e → cur_is e c → isc c a = true → char_code a ≠ 0 → moved e (bumped e).
Proof. intros Hw Hc ->%isc_code Ha. destruct (cur_in _ _ Hc Ha). by apply moved_bumped. Qed.

Lemma safe_repetition e : wfp e → safe repetition e (λ _ e', moved e e').
Proof.
  intros Hw. apply safe_bind, safe_cur; [done|]. intros c Hc.
  do 3 (case_match; [apply safe_bind, safe_skip, safe_ret; by eapply skip_ok|]).
  destruct (isc c "{") eqn:Hbr; [|by split_and!].
  assert (Hmv : moved e (bumped e)) by (by eapply skip_ok). apply safe_bind, safe_skip, safe_bind, safe_cur; [apply Hmv|].
  intros d Hd. destruct (isdigit d) eqn:Hdig; [|apply safe_raised]. destruct (cur_in _ _ Hd) as [Hlt _]; [by intros ->|].
  apply safe_bind. eapply safe_mono; [apply safe_parsenumber; [apply Hmv|done]|]. intros p0 e1 Hmv1.
  assert (Hmv' : moved e e1) by (by eapply moved_trans). clear Hmv Hmv1. destruct Hmv' as [Hw1 Hmv'].
  apply safe_bind, safe_cur; [done|]. intros c1 Hc1. destruct (isc c1 "}") eqn:Hcl.
  { apply safe_bind, safe_skip, safe_ret. eapply moved_trans; [by split|]. by eapply skip_ok. }
  destruct (isc c1 ",") eqn:Hcom; [|apply safe_raised].
  assert (Hmv2 : moved e1 (bumped e1)) by (by eapply skip_ok). apply safe_bind, safe_skip, safe_bind, safe_cur; [apply Hmv2|].
  intros c2 Hc2. apply safe_bind. eapply (safe_mono _ _ (λ _ e', moved e1 e')).
  { destruct (isdigit c2) eqn:Hdig2; [|by apply safe_ret]. destruct (cur_in _ _ Hc2) as [Hlt2 _]; [by intros ->|].
    eapply safe_mono; [apply safe_parsenumber; [apply Hmv2|done]|]. intros ? ? ?. by eapply moved_trans. }
  intros p1 e3 Hmv3. apply safe_bind. eapply safe_mono; [apply safe_expect; [apply Hmv3|done]|].
  intros ? e4 Hmv4. apply safe_ret. eapply moved_trans; [by split|]. by eapply moved_trans.
Qed.

(** From [e] to [e'] one construct, or a chain of them, was parsed; its nodes
    are those added. *)
Definition atom_added (e : SQRex) (i : Z) (e' : SQRex) : Prop :=
  grows e e' ∧ (_p e < _p e')%nat ∧ ∃ (j : nat) t, i = Z.of_nat j ∧
    rep (_nodes e') (_nsubexpr e') (length (_nodes e)) (length (_nodes e')) j (-1) t.
Definition chain_added (e : SQRex) (i : Z) (e' : SQRex) : Prop :=
  grows e e' ∧ (_p e < _p e')%nat ∧ ∃ (j : nat) ts, i = Z.of_nat j ∧
    rep_chain (_nodes e') (_nsubexpr e') (length (_nodes e)) (length (_nodes e')) j ts.

Lemma atom_chain e i e' : atom_added e i e' → chain_added e i e'.
Proof. intros (? & ? & j & t & ? & ?). split_and!; [done..|]. exists j, [t]. split; [done|by apply rc_one]. Qed.

Lemma leaf_added_atom e i e' : leaf_added e i e' → atom_added e i e'.
Proof.
  intros ([ty l r nx] & Hw & -> & Hn & Hnx & Hty & Hs & Hp). split_and!; [|done|].
  - split; [done|rewrite Hn, length_app; lia| |lia|lia]. intros k Hk. by rewrite Hn, lookup_app_l.
  - simpl in *. subst nx. exists (length (_nodes e)), (TLeaf ty l r). split; [done|].
    rewrite Hn at 2. rewrite length_app, Nat.add_1_r. apply rep_leaf; [|done]. rewrite Hn. by apply list_lookup_middle.
Qed.

Lemma atom_moved e i e1 e2 : atom_added e i e1 → moved e1 e2 → atom_added e i e2.
Proof.
  intros (Hg & Hp & j & t & -> & Hr) (Hw & Hn & Hs & Hp'). split_and!; [|lia|].
  - eapply grows_trans; [done|]. split; [done|by rewrite Hn|by intros; rewrite Hn|lia|lia].
  - exists j, t. by rewrite Hn, Hs.
Qed.

Lemma chain_moved e i e1 e2 : chain_added e i e1 → moved e1 e2 → chain_added e i e2.
Proof.
  intros (Hg & Hp & j & t & -> & Hr) (Hw & Hn & Hs & Hp'). split_and!; [|lia|].
  - eapply grows_trans; [done|]. split; [done|by rewrite Hn|by intros; rewrite Hn|lia|lia].
  - exists j, t. by rewrite Hn, Hs.
Qed.

Lemma moved_atom e0 e i e' : wfp e0 → moved e0 e → atom_added e i e' → atom_added e0 i e'.
Proof.
  intros Hw Hmv (Hg & Hp & j & t & -> & Hr). split_and!.
  - eapply grows_trans; [by apply moved_grows|done].
  - destruct Hmv as (_ & _ & _ & ?). lia.
  - destruct Hmv as (_ & <- & _ & _). eauto.
Qed.

Lemma grows_with_node e0 e i n : grows e0 e → (length (_nodes e0) ≤ i)%nat → grows e0 (with_node i n e).
Proof.
  intros [? ? Ho ? ?] Hi. split; simpl; [by apply wfp_with_node|by rewrite length_insert| |done|done].
  intros k Hk. rewrite list_lookup_insert_ne by lia. auto.
Qed.

(** What is before a set node is represented as before. *)
Lemma rep_chain_grows e e' a b i ts :
  grows e e' → (b ≤ length (_nodes e))%nat → rep_chain (_nodes e) (_nsubexpr e) a b i ts →
  rep_chain (_nodes e') (_nsubexpr e') a b i ts.
Proof. intros [? ? Ho ? ?] Hb Hr. eapply rep_chain_agree; [done|done|]. intros k Hk. apply Ho. lia. Qed.

Lemma rep_grows e e' a b i nx t :
  grows e e' → (b ≤ length (_nodes e))%nat → rep (_nodes e) (_nsubexpr e) a b i nx t →
  rep (_nodes e') (_nsubexpr e') a b i nx t.
Proof. intros [? ? Ho ? ?] Hb Hr. eapply rep_agree; [done|done|]. intros k Hk. apply Ho. lia. Qed.

Lemma rep_chain_other e i n a b j ts :
  ¬ (a ≤ i < b)%nat → rep_chain (_nodes e) (_nsubexpr e) a b j ts →
  rep_chain (_nodes (with_node i n e)) (_nsubexpr e) a b j ts.
Proof.
  intros Hi Hr. eapply rep_chain_agree; [reflexivity|done|]. intros k Hk. simpl. by rewrite list_lookup_insert_ne by lia.
Qed.

(** Linking a construct to the chain behind it. *)
Lemma safe_link e e1 e2 i k (Q : () → SQRex → Prop) :
  atom_added e i e1 → chain_added e1 k e2 → (∀ e3, chain_added e i e3 → _p e3 = _p e2 → Q () e3) → safe (set_next i k) e2 Q.
Proof.
  intros (Hg1 & Hp1 & j & t & -> & Hr) (Hg2 & Hp2 & j' & ts & -> & Hc) HQ.
  pose proof (rep_bounds _ _ _ _ _ _ _ Hr) as Hj. pose proof (gr_len _ _ Hg2).
  apply (rep_grows e1 e2) in Hr; [|done|done].
  destruct (lookup_lt_is_Some_2 (_nodes e2) j) as [n Hn]; [lia|].
  eapply safe_upd_node; [done|]. apply HQ; [|done]. split_and!.
  - apply grows_with_node; [by eapply grows_trans|lia].
  - simpl. lia.
  - exists j, (t :: ts). split; [done|]. simpl. rewrite length_insert. eapply rc_cons; [by eapply rep_link|].
    apply rep_chain_other; [lia|done].
Qed.

Lemma added_grows e e' n : added e e' n → grows e e'.
Proof.
  intros (Hw & Hn & Hp & Hs). split; [done|rewrite Hn, length_app; lia| |destruct (_ =? _); lia|lia].
  intros k Hk. by rewrite Hn, lookup_app_l.
Qed.

Lemma added_new e e' n : added e e' n → _nodes e' !! length (_nodes e) = Some n ∧ length (_nodes e') = S (length (_nodes e)).
Proof. intros (_ & -> & _). rewrite length_app. split; [by apply list_lookup_middle|simpl; lia]. Qed.

Lemma safe_greedy e e1 i v (Q : Z → SQRex → Prop) :
  atom_added e i e1 → (∀ j e', atom_added e j e' → _p e' = _p e1 → Q j e') →
  safe (nnode ← sqstd_rex_newnode OP_GREEDY; _ ← set_left nnode i; _ ← set_right nnode v; mret nnode) e1 Q.
Proof.
  intros (Hg & Hp & j & t & -> & Hr) HQ. pose proof (rep_bounds _ _ _ _ _ _ _ Hr).
  apply safe_bind, safe_newnode; [apply Hg|]. intros e2 Hadd.
  destruct (added_new _ _ _ Hadd) as [Hnew Hlen]. pose proof (added_grows _ _ _ Hadd) as Hg2.
  apply (rep_grows e1 e2) in Hr; [|done|done]. destruct Hadd as (_ & _ & Hp2 & _).
  apply safe_bind. eapply safe_upd_node; [done|].
  apply safe_bind. eapply safe_upd_node; [apply list_lookup_insert_eq; lia|]. apply safe_ret, HQ; [|done]. split_and!.
  - apply grows_with_node; [apply grows_with_node; [by eapply grows_trans|]|]; lia.
  - simpl. lia.
  - exists (length (_nodes e1)). eexists. split; [done|]. simpl. rewrite !length_insert, Hlen. eapply rep_greedy.
    + apply list_lookup_insert_eq. rewrite length_insert. lia.
    + eapply rep_agree; [reflexivity|exact Hr|]. intros k Hk. rewrite !list_lookup_insert_ne by lia. done.
Qed.

(** A group, once its contents are parsed. *)
Lemma group_closed e e1 e2 (cap : bool) newn e3 n :
  moved e e1 → wfp e → added e1 e2 (mkNode (if cap then OP_EXPR else OP_NOCAPEXPR) (-1) (if cap then _nsubexpr e1 else -1) (-1)) →
  chain_added e2 newn e3 → _nodes e3 !! length (_nodes e1) = Some n →
  atom_added e (Z.of_nat (length (_nodes e1))) (with_node (length (_nodes e1)) (mkNode (ntype n) newn (nright n) (nnext n)) e3).
Proof.
  intros Hmv Hw Hadd (Hg3 & Hp3 & j & ts & -> & Hr) Hn.
  destruct (added_new _ _ _ Hadd) as [Hnew Hlen]. pose proof (added_grows _ _ _ Hadd) as Hg2.
  rewrite (gr_old _ _ Hg3) in Hn by lia. rewrite Hnew in Hn. injection Hn as <-.
  pose proof (moved_grows _ _ Hw Hmv) as Hg1. pose proof (rep_chain_bounds _ _ _ _ _ _ Hr).
  assert (Hl : length (_nodes e1) = length (_nodes e)) by (by destruct Hmv as (_ & -> & _)).
  assert (Hsub : cap = true → 0 ≤ _nsubexpr e1 < _nsubexpr e3).
  { intros ->. destruct Hadd as (_ & _ & _ & Hs). simpl in Hs. pose proof (gr_sub _ _ Hg3).
    pose proof (wf_sub _ (gr_wf _ _ Hg1)). lia. }
  pose proof (gr_p _ _ Hg1). pose proof (gr_p _ _ Hg2).
  split_and!; [apply grows_with_node; [by do 2 (eapply grows_trans; [done|])|lia]|simpl; lia|].
  exists (length (_nodes e1)). rewrite <- Hl. simpl. rewrite length_insert.
  assert (Hin : <[length (_nodes e1) := mkNode (if cap then OP_EXPR else OP_NOCAPEXPR) (Z.of_nat j) (if cap then _nsubexpr e1 else -1) (-1)]>
    (_nodes e3) !! length (_nodes e1) = Some (mkNode (if cap then OP_EXPR else OP_NOCAPEXPR) (Z.of_nat j) (if cap then _nsubexpr e1 else -1) (-1))).
  { apply list_lookup_insert_eq. lia. }
  rewrite Hlen in Hr. destruct cap; eexists; (split; [done|]).
  - eapply rep_expr; [exact Hin|auto|]. apply rep_chain_other; [lia|done].
  - eapply rep_nocap; [exact Hin|]. apply rep_chain_other; [lia|done].
Qed.

(** An alternative, once its right side is parsed. *)
Lemma or_closed e e1 e2 e3 i k :
  chain_added e i e1 → added e1 e2 (mkNode OP_OR (-1) (-1) (-1)) →
  let t := length (_nodes e1) in
  chain_added (with_node t (mkNode OP_OR i (-1) (-1)) e2) k e3 →
  _nodes e3 !! t = Some (mkNode OP_OR i (-1) (-1)) ∧
  chain_added e (Z.of_nat t) (with_node t (mkNode OP_OR i k (-1)) e3).
Proof.
  intros (Hg1 & Hp1 & j & tl & -> & Hl) Hadd t (Hg3 & Hp3 & j' & tr & -> & Hr).
  destruct (added_new _ _ _ Hadd) as [Hnew Hlen]. pose proof (added_grows _ _ _ Hadd) as Hg2.
  pose proof (rep_chain_bounds _ _ _ _ _ _ Hl) as Hbl. pose proof (rep_chain_bounds _ _ _ _ _ _ Hr) as Hbr.
  set (e2' := with_node t (mkNode OP_OR (Z.of_nat j) (-1) (-1)) e2) in *.
  assert (Hlen' : length (_nodes e2') = S t) by (simpl; by rewrite length_insert).
  assert (Hg2' : grows e1 e2') by (by apply grows_with_node).
  rewrite Hlen' in Hr, Hbr. assert (Ht : _nodes e3 !! t = Some (mkNode OP_OR (Z.of_nat j) (-1) (-1))).
  { rewrite (gr_old _ _ Hg3) by lia. apply list_lookup_insert_eq. unfold t. lia. }
  assert (Hg13 : grows e1 e3) by (by eapply grows_trans). pose proof (gr_p _ _ Hg2'). pose proof (gr_p _ _ Hg3).
  split; [done|]. split_and!; [apply grows_with_node; [by eapply grows_trans|unfold t; lia]|simpl in *; lia|].
  exists t, [TOr tl tr]. split; [done|]. simpl. rewrite length_insert. apply rc_one. eapply (rep_or _ _ _ t).
  - apply list_lookup_insert_eq. lia.
  - apply (rep_chain_other e3); [unfold t; lia|]. apply (rep_chain_grows e1); [done|done|done].
  - apply (rep_chain_other e3); [lia|done].
Qed.

Lemma grows_left e e' fuel k :
  grows e e' → (2 * (length pat - _p e) + k ≤ fuel)%nat → (2 * (length pat - _p e') + k ≤ fuel)%nat.
Proof. intros Hg. pose proof (gr_p _ _ Hg). lia. Qed.

Section parser_step.
Context (fuel : nat).
Context (IHe : ∀ e, wfp e → (2 * (length pat - _p e) + 1 ≤ fuel)%nat → safe (sqstd_rex_element fuel) e (chain_added e)).
Context (IHl : ∀ e, wfp e → (2 * (length pat - _p e) + 2 ≤ fuel)%nat → safe (sqstd_rex_list fuel) e (chain_added e)).

Lemma safe_group e e1 (cap : bool) :
  moved e e1 → wfp e → (2 * (length pat - _p e1) + 2 ≤ fuel)%nat →
  safe (expr ← sqstd_rex_newnode (if cap then OP_EXPR else OP_NOCAPEXPR);
        newn ← sqstd_rex_list fuel;
        _ ← set_left expr newn;
        _ ← sqstd_rex_expect ")";
        mret expr) e1 (atom_added e).
Proof using All.
  intros Hmv Hw Hf. apply safe_bind, safe_newnode; [apply Hmv|]. intros e2 Hadd.
  assert (Hadd' : added e1 e2 (mkNode (if cap then OP_EXPR else OP_NOCAPEXPR) (-1) (if cap then _nsubexpr e1 else -1) (-1))).
  { by destruct cap. }
  destruct (added_new _ _ _ Hadd) as [Hnew _]. pose proof (added_grows _ _ _ Hadd) as Hg2.
  apply safe_bind. eapply safe_mono; [apply IHl; [apply Hg2|by eapply grows_left]|]. intros newn e3 Hch.
  apply safe_bind. eapply safe_upd_node.
  { rewrite (gr_old _ _ (proj1 Hch)) by (by eapply lookup_lt_Some). exact Hnew. }
  pose proof (group_closed e e1 e2 cap newn e3 _ Hmv Hw Hadd' Hch
    (eq_trans (gr_old _ _ (proj1 Hch) _ (lookup_lt_Some _ _ _ Hnew)) Hnew)) as Hat.
  apply safe_bind. eapply safe_mono; [apply safe_expect; [apply Hat|done]|]. intros ? e4 Hmv4. apply safe_ret.
  by eapply atom_moved.
Qed.

(** The construct an element begins with. *)
Lemma safe_atom e c :
  wfp e → cur_is e c → (2 * (length pat - _p e) ≤ fuel)%nat →
  safe (if isc c "(" then
          _ ← skip;
          c ← cur;
          expr ← (if isc c "?" then
                    _ ← skip; _ ← sqstd_rex_expect ":"; sqstd_rex_newnode OP_NOCAPEXPR
                  else sqstd_rex_newnode OP_EXPR);
          newn ← sqstd_rex_list fuel;
          _ ← set_left expr newn;
          _ ← sqstd_rex_expect ")";
          mret expr
        else if isc c "[" then
          _ ← skip;
          n ← sqstd_rex_class;
          _ ← sqstd_rex_expect "]";
          mret n
        else if isc c "$" then _ ← skip; sqstd_rex_newnode OP_EOL
        else if isc c "." then _ ← skip; sqstd_rex_newnode OP_DOT
        else sqstd_rex_charnode false) e (atom_added e).
Proof using All.
  intros Hw Hc Hf.
  assert (Hskip : ∀ a, isc c a = true → char_code a ≠ 0 → moved e (bumped e) ∧ (_p e < length pat)%nat).
  { intros a Ha Hz. split; [by eapply skip_ok|]. apply isc_code in Ha. by destruct (cur_in _ _ Hc) as [? _]; [congruence|]. }
  destruct (isc c "(") eqn:Hpar.
  { destruct (Hskip _ Hpar) as [Hmv Hlt]; [done|]. apply safe_bind, safe_skip, safe_bind, safe_cur; [apply Hmv|]. intros d Hd.
    destruct (isc d "?") eqn:Hq.
    - assert (Hmv1 : moved (bumped e) (bumped (bumped e))) by (by eapply skip_ok; [apply Hmv|..]).
      apply safe_bind, safe_bind, safe_skip, safe_bind. eapply safe_mono; [apply safe_expect; [apply Hmv1|done]|].
      intros ? e3 Hmv3. apply safe_unbind. apply (safe_group e e3 false); [by do 2 (eapply moved_trans; [done|])|done|].
      destruct Hmv3 as (_ & _ & _ & Hp3). simpl in Hp3. lia.
    - apply (safe_group e (bumped e) true); [done|done|simpl; lia]. }
  destruct (isc c "[") eqn:Hbr.
  { destruct (Hskip _ Hbr) as [Hmv Hlt]; [done|]. apply safe_bind, safe_skip, safe_bind.
    eapply safe_mono; [apply safe_class, Hmv|]. intros i e2 [(Hg & -> & Hs & neg & items & Hr) Hp].
    apply safe_bind. eapply safe_mono; [apply safe_expect; [apply Hg|done]|]. intros ? e3 Hmv3. apply safe_ret.
    eapply atom_moved; [|exact Hmv3]. split_and!; [|simpl in Hp; lia|by eexists _, _].
    eapply grows_trans; [by apply moved_grows|done]. }
  assert (Hleaf : ∀ a ty, isc c a = true → char_code a ≠ 0 → leaf_type ty →
    safe (_ ← skip; sqstd_rex_newnode ty) e (atom_added e)).
  { intros a ty Ha Hz Hty. destruct (Hskip a Ha Hz) as [(Hw1 & _) Hlt]. apply safe_bind, safe_skip.
    eapply safe_mono; [apply (safe_leaf ty e); [done..|simpl; lia|done]|]. apply leaf_added_atom. }
  destruct (isc c "$") eqn:Hd; [by apply (Hleaf _ OP_EOL Hd)|].
  destruct (isc c ".") eqn:Hdot; [by apply (Hleaf _ OP_DOT Hdot)|].
  eapply safe_mono; [by apply safe_charnode|]. apply leaf_added_atom.
Qed.

Lemma safe_element_step e :
  wfp e → (2 * (length pat - _p e) + 1 ≤ S fuel)%nat → safe (sqstd_rex_element (S fuel)) e (chain_added e).
Proof using All.
  intros Hw Hf. cbn [sqstd_rex_element]. apply safe_bind, safe_cur; [done|]. intros c Hc.
  apply safe_bind. eapply safe_mono; [apply safe_atom; [done|done|lia]|]. intros i e1 Hat.
  apply safe_bind. eapply safe_mono; [apply safe_repetition, Hat|]. intros rp e2 Hmv2.
  assert (Hat2 : atom_added e i e2) by (by eapply atom_moved). clear Hat Hmv2 e1.
  apply safe_bind. eapply (safe_mono _ _ (atom_added e)).
  { destruct rp as [[p0 p1]|]; [|by apply safe_ret]. eapply safe_greedy; [done|]. auto. }
  intros i' e3 Hat3. apply safe_bind, safe_cur; [apply Hat3|]. intros d _.
  destruct (element_follows d); [|by apply safe_ret, atom_chain].
  apply safe_bind. eapply safe_mono; [apply IHe; [apply Hat3|]|].
  { destruct Hat3 as ([Hw3 _ _ _ _] & ? & _). pose proof (wf_p _ Hw3). lia. }
  intros k e4 Hch. apply safe_bind. eapply safe_link; [done..|]. intros e5 Hch5 _. by apply safe_ret.
Qed.

Lemma safe_list_step e :
  wfp e → (2 * (length pat - _p e) + 2 ≤ S fuel)%nat → safe (sqstd_rex_list (S fuel)) e (chain_added e).
Proof using All.
  intros Hw Hf. cbn [sqstd_rex_list]. apply safe_bind, safe_cur; [done|]. intros c Hc.
  apply safe_bind. eapply (safe_mono _ _ (λ i e1, (i = -1 ∧ e1 = e) ∨ (i ≠ -1 ∧ atom_added e i e1))).
  { destruct (isc c "^") eqn:Hcaret; [|apply safe_ret; auto].
    assert (Hmv : moved e (bumped e)) by (by eapply skip_ok). apply safe_bind, safe_skip, safe_bind.
    eapply safe_mono; [apply (safe_leaf OP_BOL e); [apply Hmv|done..|simpl; lia|done]|].
    intros i e1 Hl%leaf_added_atom. apply safe_ret. right. split; [|done].
    destruct Hl as (_ & _ & j & _ & -> & _). lia. }
  intros i e1 He1. apply safe_bind. eapply (safe_mono _ _ (chain_added e1)).
  { destruct He1 as [[-> ->]|[_ Hat]]; apply IHe; [done|lia|apply Hat|]. eapply grows_left; [apply Hat|lia]. }
  intros k e2 Hch. apply safe_bind. eapply (safe_mono _ _ (chain_added e)).
  { destruct He1 as [[-> ->]|[Hi Hat]]; [by apply safe_ret|]. rewrite (proj2 (Z.eqb_neq i (-1)) Hi).
    apply safe_bind. eapply safe_link; [done..|]. intros e3 Hch3 _. by apply safe_ret. }
  clear -IHl Hpat Hback Hm Hf. intros i e3 Hch. apply safe_bind, safe_cur; [apply Hch|]. intros d Hd.
  destruct (isc d "|") eqn:Hbar; [|by apply safe_ret].
  assert (Hmv : moved e3 (bumped e3)) by (by eapply skip_ok; [apply Hch|..]).
  assert (Hch' : chain_added e i (bumped e3)) by (by eapply chain_moved).
  apply safe_bind, safe_skip, safe_bind, safe_newnode; [apply Hmv|]. intros e4 Hadd.
  destruct (added_new _ _ _ Hadd) as [Hnew Hlen]. apply safe_bind. eapply safe_upd_node; [exact Hnew|]. simpl.
  assert (Hg4 : grows (bumped e3) (with_node (length (_nodes e3)) (mkNode OP_OR i (-1) (-1)) e4)).
  { apply grows_with_node; [by eapply added_grows|done]. }
  apply safe_bind. eapply safe_mono; [apply IHl; [apply Hg4|]|].
  { pose proof (gr_p _ _ Hg4). destruct Hch as (Hg & ? & _). pose proof (wf_p _ (gr_wf _ _ Hg)). simpl in *. lia. }
  intros k e5 Hch5. destruct (or_closed _ _ _ _ _ _ Hch' Hadd Hch5) as [Ht Hdone].
  apply safe_bind. eapply safe_upd_node; [exact Ht|]. by apply safe_ret.
Qed.
End parser_step.

Lemma safe_parse fuel :
  (∀ e, wfp e → (2 * (length pat - _p e) + 1 ≤ fuel)%nat → safe (sqstd_rex_element fuel) e (chain_added e)) ∧
  (∀ e, wfp e → (2 * (length pat - _p e) + 2 ≤ fuel)%nat → safe (sqstd_rex_list fuel) e (chain_added e)).
Proof.
  induction fuel as [|fuel [IHe IHl]]; [split; intros; lia|].
  split; intros e; [by apply safe_element_step|by apply safe_list_step].
Qed.
End parse.

(** ** Compiled patterns *)

(** [e] is a pattern compiled to the group of [ts]; there is a place to record
    each of its groups. *)
Definition compiled (e : SQRex) (ts : list rtree) : Prop :=
  rep (_nodes e) (_nsubexpr e) 0 (length (_nodes e)) 0 (-1) (TExpr (Some 0) ts) ∧
  _first e = 0 ∧ Z.of_nat (length (_matches e)) = _nsubexpr e.

Lemma compile_shape pat :
  pat ≠ [] → Forall (λ c, 0 < c ≤ 255) pat → ¬ [45; 92] `suffix_of` pat → ¬ [92; 109] `suffix_of` pat →
  match sqstd_rex_compile pat with
  | Ok e => ∃ ts, compiled e ts
  | Err f => ∃ msg, f = Raised msg
  end.
Proof.
  intros Hne Hpat Hback Hm. unfold sqstd_rex_compile. set (e := mkRex pat _ _ _ _ _ _ _).
  assert (Hw : wfp pat e).
  { split; simpl; [done|lia|lia| |done|done]. destruct pat; [done|simpl; lia]. }
  match goal with |- context [?m e ≫= _] => set (prog := m) end.
  assert (Hsafe : safe prog e (λ _ e', ∃ ts, rep (_nodes e') (_nsubexpr e') 0 (length (_nodes e')) 0 (-1) (TExpr (Some 0) ts) ∧
    _first e' = 0 ∧ 0 ≤ _nsubexpr e')).
  { apply safe_bind. eapply safe_newnode; [done|]. intros e1 Hadd. apply safe_bind, safe_modify.
    destruct (added_new _ _ _ _ Hadd) as [Hnew Hlen]. pose proof (added_grows _ _ _ _ Hadd) as Hg1. simpl in Hnew, Hlen.
    change (Z.of_nat (length (_nodes e))) with 0. assert (He1 : with_first 0 e1 = e1).
    { pose proof (wf_first _ _ (gr_wf _ _ _ Hg1)). destruct e1; simpl in *. unfold with_first; simpl. by subst. }
    rewrite He1. apply safe_bind. eapply safe_mono; [apply (safe_parse pat); [done..|apply Hg1|]|].
    { unfold parse_fuel. lia. }
    intros r e2 (Hg2 & _ & j & ts & -> & Hr). rewrite Hlen in Hr.
    assert (H0 : _nodes e2 !! 0%nat = Some (mkNode OP_EXPR (-1) 0 (-1))) by (rewrite (gr_old _ _ _ Hg2) by lia; done).
    assert (Hlt : (0 < length (_nodes e2))%nat) by (by eapply lookup_lt_Some).
    apply safe_bind. eapply (safe_upd_node 0); [done|].
    assert (Hg3 : grows pat e (with_node 0 (mkNode OP_EXPR (Z.of_nat j) 0 (-1)) e2)).
    { apply grows_with_node; [by eapply grows_trans|done]. }
    apply safe_bind, (safe_cur pat); [done|apply Hg3|]. intros c _. destruct (c =? 0); [|apply safe_raised].
    apply safe_ret. exists ts. split_and!; [|apply (gr_wf _ _ _ Hg3)..]. simpl. rewrite length_insert.
    eapply rep_expr; [by apply list_lookup_insert_eq| |by apply rep_chain_other; [lia|]].
    destruct Hadd as (_ & _ & _ & Hs). pose proof (gr_sub _ _ _ Hg2). simpl in Hs. lia. }
  unfold safe in Hsafe. destruct (prog e) as [[[] e']|[]]; simpl; try done; [|by eexists].
  destruct Hsafe as (ts & Hr & Hfi & Hs). exists ts. split_and!; [done|done|]. simpl. rewrite length_replicate. lia.
Qed.

(** C14: Compiling a pattern that is not empty and does not end in [-\] or [\m]
    ends, without reading behind the pattern's terminator or writing outside
    the node array, in an error message or in an array of nodes that represents
    a tree: node 0 is the capturing group 0 and every link leads to a part of
    the tree of its own. *)
Theorem compile_represents pat :
  pat ≠ [] → Forall (λ c, 0 < c ≤ 255) pat → ¬ [45; 92] `suffix_of` pat → ¬ [92; 109] `suffix_of` pat →
  match sqstd_rex_compile pat with
  | Ok e => ∃ ts, compiled e ts
  | Err f => ∃ msg, f = Raised msg
  end.
Proof. apply compile_shape. Qed.

Definition demo_pattern : list Z := codes "^a(b|[c-e])*\d{2,3}$".

Lemma compile_represents_witness :
  match sqstd_rex_compile demo_pattern with
  | Ok e => length (_nodes e) = 13%nat ∧ ∃ ts, compiled e ts
  | Err f => False
  end.
Proof.
  assert (H := compile_represents demo_pattern). destruct (sqstd_rex_compile demo_pattern) as [e|f] eqn:He; vm_compute in He; [|done].
  injection He as <-. split; [reflexivity|]. apply H.
  - done.
  - by_evaluation.
  - by_evaluation.
  - by_evaluation.
Defined.
