(* ===== verification/SqRexSpec.v ===== *)
(** * What a compiled pattern matches

    The language of a pattern tree is a relation between the ends of a part of
    the text.  Matching a compiled pattern always ends, within the node array
    and the text, and what it reports is in the language; where the pattern has
    neither repetition nor alternative, it reports exactly the language. *)

From Stdlib Require Import Ascii.
From stdpp Require Import base numbers strings option list.
From S2P Require Import Prelude CType SqRex SqRexParse.

Open Scope Z_scope.

(** ** The language of a tree *)

Section language.
(** The text and the part of it that is searched. *)
Context (text : list Z) (bol eol : nat).

(** The character at [i]; NUL behind the text. *)
Definition ch (i : nat) : Z := default 0 (text !! i).

(** What the word boundary test looks at. *)
Definition boundary (s : nat) : bool :=
  bool_decide (s = bol) && negb (isspace (ch s)) ||
  bool_decide (s = eol) && negb (isspace (ch (pred s))) ||
  xorb (isspace (ch s)) (isspace (ch (S s))).

(** How many of the opening characters [l] are open after [n] characters
    behind the one at [s]. *)
Definition weight (l r c : Z) : Z := if c =? r then -1 else if c =? l then 1 else 0.
Fixpoint opens (l r : Z) (s n : nat) : Z :=
  match n with O => 1 | S n' => opens l r s n' + weight l r (ch (S s + n')) end.

(** One character. *)
Definition one_char (P : Z → bool) (s s' : nat) : Prop :=
  (s < eol)%nat ∧ s' = S s ∧ P (ch s) = true.

(** From the opening character at [s] to the one that closes it. *)
Definition balanced (l r : Z) (s s' : nat) : Prop :=
  ch s = l ∧ ∃ n, s' = (S s + n)%nat ∧ (s' ≤ eol)%nat ∧ (∀ k, (k < n)%nat → 0 < opens l r s k) ∧ opens l r s n = 0.

Definition leaf_matches (ty l r : Z) (s s' : nat) : Prop :=
  if ty =? OP_WB then s' = s ∧ boundary s = isc l "b"
  else if ty =? OP_BOL then s' = s ∧ s = bol
  else if ty =? OP_EOL then s' = s ∧ s = eol
  else if ty =? OP_DOT then one_char (λ _, true) s s'
  else if ty =? OP_CCLASS then one_char (sqstd_rex_matchcclass l) s s'
  else if ty =? OP_MB then balanced l r s s'
  else one_char (λ c, c =? ty) s s'.

Definition item_has (c : Z) (i : citem) : bool :=
  match i with
  | CRange a b => (a <=? c) && (c <=? b)
  | CClass k => sqstd_rex_matchcclass k c
  | COther ty => c =? ty
  end.

(** A number of repetitions is in the bounds; 65535 stands for no upper one. *)
Definition in_bounds (p0 p1 : Z) (n : nat) : Prop := p0 ≤ Z.of_nat n ∧ (Z.of_nat n ≤ p1 ∨ p1 = 65535).

Inductive matches : rtree → nat → nat → Prop :=
  | m_leaf ty l r s s' : leaf_matches ty l r s s' → matches (TLeaf ty l r) s s'
  | m_set (neg : bool) items s s' :
      one_char (λ c, Bool.eqb (existsb (item_has c) items) (negb neg)) s s' → matches (TSet neg items) s s'
  | m_greedy p0 p1 t n s s' : in_bounds p0 p1 n → reps t n s s' → matches (TGreedy p0 p1 t) s s'
  | m_left l r s s' : seq l s s' → matches (TOr l r) s s'
  | m_right l r s s' : seq r s s' → matches (TOr l r) s s'
  | m_group cap l s s' : seq l s s' → matches (TExpr cap l) s s'
with seq : list rtree → nat → nat → Prop :=
  | sq_nil s : seq [] s s
  | sq_cons t ts s m s' : matches t s m → seq ts m s' → seq (t :: ts) s s'
with reps : rtree → nat → nat → nat → Prop :=
  | rp_O t s : reps t 0 s s
  | rp_S t n s m s' : reps t n s m → matches t m s' → reps t (S n) s s'.

Lemma enough_bounds p0 p1 n : enough p0 p1 (Z.of_nat n) = true → in_bounds p0 p1 n.
Proof.
  unfold enough, in_bounds. intros [[H|H]%orb_true_iff|H]%orb_true_iff; bool_to_prop; lia.
Qed.

(** Trees without repetition and alternative. *)
Fixpoint simple (t : rtree) : bool :=
  match t with
  | TLeaf _ _ _ | TSet _ _ => true
  | TGreedy _ _ _ | TOr _ _ => false
  | TExpr _ l => forallb simple l
  end.

Lemma one_char_det P s s1 s2 : one_char P s s1 → one_char P s s2 → s1 = s2.
Proof. intros (_ & -> & _) (_ & -> & _). done. Qed.

Lemma balanced_det l r s s1 s2 : balanced l r s s1 → balanced l r s s2 → s1 = s2.
Proof.
  intros (_ & n1 & -> & _ & Hp1 & Hz1) (_ & n2 & -> & _ & Hp2 & Hz2).
  destruct (lt_eq_lt_dec n1 n2) as [[Hlt| ->]|Hlt]; [|done|].
  - specialize (Hp2 n1 Hlt). lia.
  - specialize (Hp1 n2 Hlt). lia.
Qed.

Lemma leaf_matches_det ty l r s s1 s2 : leaf_matches ty l r s s1 → leaf_matches ty l r s s2 → s1 = s2.
Proof.
  unfold leaf_matches. repeat case_match; try (by intros [-> _] [-> _]); eauto using one_char_det, balanced_det.
Qed.

(** A simple tree matches in one way at most. *)
Lemma matches_det t s s1 : simple t = true → matches t s s1 → ∀ s2, matches t s s2 → s1 = s2
with seq_det ts s s1 : forallb simple ts = true → seq ts s s1 → ∀ s2, seq ts s s2 → s1 = s2.
Proof.
  - intros Hs H1. destruct H1; simpl in Hs; try done; intros s2 H2; inversion H2; subst.
    + by eapply leaf_matches_det.
    + by eapply one_char_det.
    + by eapply seq_det.
  - intros Hs H1. destruct H1 as [|t ts s m s1 Hm Hsq]; intros s2 H2; inversion H2 as [|? ? ? m' ? Hm' Hsq']; subst; [done|].
    simpl in Hs. apply andb_true_iff in Hs as [Ht Hts]. assert (m = m') as <- by (by eapply matches_det).
    by eapply seq_det.
Qed.
End language.

#[local] Arguments ch : simpl never.

(** ** How deep the matcher calls itself *)

Fixpoint tsize (t : rtree) : nat :=
  match t with
  | TLeaf _ _ _ | TSet _ _ => 1
  | TGreedy _ _ t => S (tsize t)
  | TOr l r => S (sum_list_with tsize l + sum_list_with tsize r)
  | TExpr _ l => S (sum_list_with tsize l)
  end.
Definition lsize : list rtree → nat := sum_list_with tsize.

Lemma tsize_pos t : (1 ≤ tsize t)%nat.
Proof. destruct t; simpl; lia. Qed.

Lemma length_lsize ts : (length ts ≤ lsize ts)%nat.
Proof. induction ts as [|t ts IH]; simpl; [done|]. pose proof (tsize_pos t). lia. Qed.

Lemma rep_size ns nsub a b i nx t : rep ns nsub a b i nx t → (a + tsize t ≤ b)%nat
with rep_chain_size ns nsub a b i ts : rep_chain ns nsub a b i ts → (a + lsize ts ≤ b)%nat.
Proof.
  - destruct 1 as [| |? ? ? ? ? ? ? Hr|? ? ? ? ? ? ? ? ? Hl Hr|? ? ? ? ? ? ? ? Hr|? ? ? ? ? ? ? Hr]; simpl; [lia|lia|..].
    + apply rep_size in Hr. lia.
    + apply rep_chain_size in Hl, Hr. unfold lsize in *. lia.
    + apply rep_chain_size in Hr. unfold lsize in *. lia.
    + apply rep_chain_size in Hr. unfold lsize in *. lia.
  - destruct 1 as [? ? ? ? Hr|? ? ? ? ? ? ? Hr Hc]; simpl.
    + apply rep_size in Hr. lia.
    + apply rep_size in Hr. apply rep_chain_size in Hc. unfold lsize in *. lia.
Qed.

Lemma rep_items_length ns b i items : rep_items ns b i items → (i + length items ≤ b)%nat.
Proof. induction 1; simpl; lia. Qed.

Lemma land_u16 z : Z.land z 65535 ≤ 65535.
Proof. change 65535 with (2 ^ 16 - 1) at 1. rewrite land_mask by done. pose proof (Z.mod_pos_bound z (2 ^ 16)). lia. Qed.

Section call.
Context (ns : list SQRexNode) (nsub : Z).

(** The nodes from [next] on are [F]. *)
Definition chain_at (next : Z) (F : list rtree) : Prop :=
  (next = -1 ∧ F = []) ∨
  ∃ a b j : nat, next = Z.of_nat j ∧ rep_chain ns nsub a b j F ∧ (b ≤ length ns)%nat.

(** The node [i], for [t], is visited with [next]: at most one of its own
    successor and [next] is something else than the nodes [F] that follow. *)
Record call (i : nat) (nx next : Z) (t : rtree) (F : list rtree) : Prop := {
  ca_rep : ∃ a b, rep ns nsub a b i nx t ∧ (b ≤ length ns)%nat;
  ca_follow : chain_at (if nx =? -1 then next else nx) F;
  ca_next : next = -1 ∨ nx = -1 ∨ next = nx
}.

Lemma rep_node a b i nx t : rep ns nsub a b i nx t → ∃ n, ns !! i = Some n ∧ nnext n = nx.
Proof. destruct 1; eauto. Qed.

(** The first node of a chain. *)
Lemma rep_chain_first a b i ts :
  rep_chain ns nsub a b i ts → (b ≤ length ns)%nat →
  ∃ t ts' nx, ts = t :: ts' ∧ (∃ a b, rep ns nsub a b i nx t ∧ (b ≤ length ns)%nat) ∧ chain_at nx ts'.
Proof.
  destruct 1 as [a b i t Hr|a m b i j t ts Hr Hc]; intros Hb.
  - exists t, [], (-1). split_and!; [done|eauto|by left].
  - pose proof (rep_chain_bounds _ _ _ _ _ _ Hc).
    exists t, ts, (Z.of_nat j). split_and!; [done|exists a, m; split; [done|lia]|right; eauto 10].
Qed.

Lemma chain_at_cases nx F :
  chain_at nx F → (nx = -1 ∧ F = []) ∨
  (nx ≠ -1 ∧ ∃ a b j : nat, nx = Z.of_nat j ∧ rep_chain ns nsub a b j F ∧ (b ≤ length ns)%nat).
Proof. intros [|(a & b & j & -> & ?)]; [by left|right]. split; [lia|eauto 10]. Qed.

(** A chain is shorter than the array. *)
Lemma chain_length a b j F : rep_chain ns nsub a b j F → (b ≤ length ns)%nat → (length F ≤ length ns)%nat.
Proof. intros Hr Hb. pose proof (rep_chain_size _ _ _ _ _ _ Hr). pose proof (length_lsize F). lia. Qed.

(** What [next] leads to is among the nodes that follow. *)
Lemma call_outer i nx next t F : call i nx next t F → ∃ F', chain_at next F' ∧ (lsize F' ≤ lsize F)%nat.
Proof.
  intros [_ Hf Hn]. destruct (Z.eqb_spec nx (-1)) as [->|Hne]; [by exists F|].
  destruct Hn as [->|[?| ->]]; [|done|by exists F]. exists []. split; [by left|simpl; lia].
Qed.
End call.

(** ** The matcher *)

Section matcher.
Context (text : list Z) (bol eol : nat) (ns : list SQRexNode) (nsub : Z).
Context (Hrange : (bol ≤ eol ≤ length text)%nat) (Hne : (bol < eol)%nat ∨ eol = length text).
(** The word boundary test reads behind the terminator where the text ends in
    white space. *)
Context (Hwb : Forall (λ n, ntype n ≠ OP_WB) ns ∨ ∀ c, last text = Some c → isspace c = false).

Definition cap_ok (m : SQRexMatch) : Prop :=
  match mbegin m with
  | None => True
  | Some b => Z.of_nat bol ≤ b ∧ 0 ≤ mlen m ∧ b + mlen m ≤ Z.of_nat eol
  end.

Definition caps_ok (k : Z) (e : SQRex) : Prop :=
  ∀ i m, k ≤ Z.of_nat i → _matches e !! i = Some m → cap_ok m.

Record ready (e : SQRex) : Prop := {
  rd_nodes : _nodes e = ns;
  rd_sub : _nsubexpr e = nsub;
  rd_len : Z.of_nat (length (_matches e)) = nsub;
  rd_cur : 0 ≤ _currsubexp e
}.

(** A call changes only groups that were not open, and leaves them closed. *)
Record after (e e' : SQRex) : Prop := {
  af_nodes : _nodes e' = _nodes e;
  af_sub : _nsubexpr e' = _nsubexpr e;
  af_first : _first e' = _first e;
  af_len : length (_matches e') = length (_matches e);
  af_cur : _currsubexp e ≤ _currsubexp e';
  af_open i : Z.of_nat i < _currsubexp e → _matches e' !! i = _matches e !! i;
  af_caps : caps_ok (_currsubexp e) e → caps_ok (_currsubexp e) e'
}.

#[global] Instance after_preorder : PreOrder after.
Proof.
  clear Hrange Hne Hwb. split; [by split|]. intros e1 e2 e3 [? ? ? ? ? Ho1 Hc1] [? ? ? ? ? Ho2 Hc2]. split; [congruence..|lia| |].
  - intros i Hi. rewrite Ho2 by lia. auto.
  - intros Hc i m Hi Hm. destruct (decide (_currsubexp e2 ≤ Z.of_nat i)) as [Hge|Hlt].
    + eapply Hc2; [|done|done]. intros i' m' Hi' Hm'. apply (Hc1 Hc i' m'); [lia|done].
    + rewrite Ho2 in Hm by lia. by eapply Hc1.
Qed.

Lemma ready_after e e' : ready e → after e e' → ready e'.
Proof. clear Hrange Hne Hwb. intros [] []. split; try congruence; lia. Qed.

Lemma runs_node i n e (Q : SQRexNode → SQRex → Prop) :
  ready e → ns !! i = Some n → Q n e → runs (get_node (Z.of_nat i)) e Q.
Proof.
  clear Hrange Hne Hwb. intros [Hn _ _ _] Hi HQ. unfold runs, get_node. rewrite (proj2 (Z.ltb_ge _ _)) by lia. by rewrite Nat2Z.id, Hn, Hi.
Qed.

Lemma runs_at i e (Q : Z → SQRex → Prop) : (i ≤ length text)%nat → Q (ch text i) e → runs (at_ text i) e Q.
Proof.
  intros Hi HQ. eapply runs_lift; [|exact HQ]. unfold char_at, ch. destruct (text !! i) eqn:Ht; [done|].
  apply lookup_ge_None in Ht. by rewrite decide_True by lia.
Qed.

(** The answer for a tree [t] (or a list of trees) at [s]. *)
Definition answer (simple : bool) (M : nat → nat → Prop) (s : nat) (r : option nat) : Prop :=
  match r with
  | Some s' => (s ≤ s' ≤ eol)%nat ∧ M s s'
  | None => simple = true → ∀ s', ¬ M s s'
  end.
Definition tree_answer (t : rtree) : nat → option nat → Prop := answer (simple t) (matches text bol eol t).
Definition seq_answer (ts : list rtree) : nat → option nat → Prop := answer (forallb simple ts) (seq text bol eol ts).

(** The answer of a construct that takes one character. *)
Lemma answer_char b (M : nat → nat → Prop) P s :
  (s ≤ eol)%nat → (∀ s', M s s' ↔ one_char text eol P s s') →
  (s = eol → answer b M s None) ∧ ((s < eol)%nat → answer b M s (step_if (P (ch text s)) s)).
Proof.
  intros Hs HM. split.
  - intros -> _ s' (Hlt & _)%HM. lia.
  - intros Hlt. unfold step_if. destruct (P (ch text s)) eqn:HP; simpl.
    + split; [lia|]. apply HM. by split_and!.
    + intros _ s' (_ & _ & HP')%HM. congruence.
Qed.

Lemma answer_here b (M : nat → nat → Prop) (C : Prop) `{!Decision C} s :
  (s ≤ eol)%nat → (∀ s', M s s' ↔ s' = s ∧ C) → answer b M s (if decide C then Some s else None).
Proof.
  intros Hs HM. destruct (decide C) as [HC|HC]; simpl; [split; [lia|by apply HM]|].
  intros _ s' [_ ?]%HM. done.
Qed.

Lemma runs_boundary s e (Q : bool → SQRex → Prop) :
  (bol ≤ s ≤ eol)%nat → (∀ c, last text = Some c → isspace c = false) →
  Q (boundary text bol eol s) e → runs (word_boundary text bol eol s) e Q.
Proof.
  intros Hs Hsolid HQ. unfold word_boundary, boundary in *. apply runs_bind, runs_at; [lia|].
  destruct (bool_decide (s = bol) && negb (isspace (ch text s))) eqn:H1; [by apply runs_ret|]. rewrite orb_false_l in HQ.
  destruct (decide (s = length text)) as [Hend|Hin].
  - assert (s = eol) as Heol by lia. rewrite decide_True by done. rewrite (bool_decide_eq_true_2 _ Heol) in HQ.
    assert (Hc0 : ch text s = 0).
    { unfold ch. by rewrite lookup_ge_None_2 by lia. }
    rewrite Hc0 in H1. rewrite andb_true_r in H1. apply bool_decide_eq_false in H1.
    destruct s as [|s]; [lia|]. apply runs_bind, runs_bind, runs_at; [lia|]. apply runs_ret.
    assert (Hns : isspace (ch text s) = false).
    { unfold ch. destruct (text !! s) as [c|] eqn:Hc; [|done]. simpl. apply Hsolid. rewrite last_lookup.
      by rewrite <- Hend. }
    simpl in HQ. rewrite Hns in *. simpl in *. by apply runs_ret.
  - apply runs_bind. destruct (decide (s = eol)) as [Heol|Hneol].
    + rewrite (bool_decide_eq_true_2 _ Heol) in HQ. destruct s as [|s]; [lia|].
      apply runs_bind, runs_at; [lia|]. apply runs_ret. simpl in HQ. destruct (isspace (ch text s)); simpl in *; [|by apply runs_ret].
      apply runs_bind, runs_at; [lia|]. apply runs_ret. by destruct (isspace (ch text (S s))), (isspace (ch text (S (S s)))).
    + rewrite (bool_decide_eq_false_2 _ Hneol) in HQ. apply runs_ret, runs_bind, runs_at; [lia|]. apply runs_ret.
      simpl in HQ. by destruct (isspace (ch text s)), (isspace (ch text (S s))).
Qed.

Lemma runs_balanced_loop fuel l r s k cont e :
  (eol - (s + k) < fuel)%nat → (s + k ≤ eol)%nat → ch text s = l → cont = opens text l r s k →
  (∀ j, (j ≤ k)%nat → 0 < opens text l r s j) →
  runs (balanced_loop text eol fuel l r (s + k) cont) e
    (λ o e', e' = e ∧ answer true (balanced text eol l r) s o).
Proof.
  revert k cont. induction fuel as [|fuel IH]; intros k cont Hf Hk Hl -> Hpos; cbn [balanced_loop].
  { exfalso. lia. }
  destruct (decide (S (s + k) < eol)%nat) as [Hlt|Hge].
  - apply runs_bind, runs_at; [lia|].
    assert (Hnext : opens text l r s (S k) = opens text l r s k + weight l r (ch text (S (s + k)))) by done.
    assert (Hstep : ∀ cont', cont' = opens text l r s (S k) → 0 < cont' →
      runs (balanced_loop text eol fuel l r (S (s + k)) cont') e (λ o e', e' = e ∧ answer true (balanced text eol l r) s o)).
    { intros cont' Hc Hp. rewrite <- Nat.add_succ_r. apply IH; [lia|lia|done|done|]. intros j Hj.
      destruct (decide (j = S k)) as [->|]; [by rewrite <- Hc|apply Hpos; lia]. }
    specialize (Hpos k (Nat.le_refl _)) as Hpk. unfold weight in Hnext. destruct (_ =? r).
    + destruct (Z.eqb_spec (opens text l r s k) 1) as [H1|Hn1]; [|apply Hstep; lia].
      apply runs_ret. split; [done|]. simpl. split; [lia|]. split; [done|]. exists (S k).
      split_and!; [lia|lia| |lia]. intros j Hj. apply Hpos. lia.
    + apply Hstep; destruct (_ =? l); lia.
  - apply runs_ret. split; [done|]. simpl. intros _ s' (_ & n & -> & Hle & _ & Hz).
    assert (Hn : (n ≤ k)%nat) by lia. specialize (Hpos n Hn). lia.
Qed.

Lemma answer_iff b (M M' : nat → nat → Prop) s o : (∀ s', M s s' ↔ M' s s') → answer b M' s o → answer b M s o.
Proof. intros HM. destruct o; simpl; [by rewrite HM|]. intros Ha Hb s'. rewrite HM. auto. Qed.

Lemma answer_weaken b (M : nat → nat → Prop) s o : answer true M s o → answer b M s o.
Proof. destruct o; simpl; auto. Qed.

Lemma matches_leaf ty l r s s' : matches text bol eol (TLeaf ty l r) s s' ↔ leaf_matches text bol eol ty l r s s'.
Proof. split; [by inversion 1|apply m_leaf]. Qed.

(** Nodes without substructure. *)
Lemma runs_leaf fuel i ty l r nx next s e :
  ready e → ns !! i = Some (mkNode ty l r nx) → leaf_type ty → (bol ≤ s ≤ eol)%nat →
  runs (sqstd_rex_matchnode text bol eol (S fuel) (Z.of_nat i) s next) e
    (λ o e', e' = e ∧ tree_answer (TLeaf ty l r) s o).
Proof.
  intros Hrd Hi (Hg%Z.eqb_neq & Ho%Z.eqb_neq & He%Z.eqb_neq & Hnc%Z.eqb_neq & Hcl%Z.eqb_neq & Hncl%Z.eqb_neq) Hs. cbn [sqstd_rex_matchnode].
  apply runs_bind. eapply runs_node; [done..|]. apply runs_bind, runs_gets. cbn [ntype nleft nright nnext].
  rewrite Hg, Ho, He, Hnc, Hcl, Hncl. cbn [orb].
  assert (HM : ∀ o, answer true (leaf_matches text bol eol ty l r) s o → tree_answer (TLeaf ty l r) s o).
  { intros o Ha. eapply answer_iff; [apply matches_leaf|done]. }
  unfold leaf_matches in HM. destruct (ty =? OP_WB) eqn:Hw.
  { destruct Hwb as [Hno|Hsolid]; [apply Z.eqb_eq in Hw; by destruct (Forall_lookup_1 _ _ _ _ Hno Hi)|].
    apply runs_bind, runs_boundary; [done|done|]. apply runs_ret. split; [done|]. apply HM.
    replace (if Bool.eqb _ _ then Some s else None) with
      (if decide (boundary text bol eol s = isc l "b") then Some s else None).
    - by apply answer_here; [lia|].
    - by destruct (boundary text bol eol s), (isc l "b"). }
  destruct (ty =? OP_BOL); [apply runs_ret; split; [done|]; by apply HM, answer_here; [lia|]|].
  destruct (ty =? OP_EOL); [apply runs_ret; split; [done|]; by apply HM, answer_here; [lia|]|].
  destruct (ty =? OP_DOT).
  { apply runs_ret. split; [done|]. apply HM. destruct (answer_char true _ (λ _, true) s (proj2 Hs) (λ _, reflexivity _)) as [H1 H2].
    destruct (decide (s = eol)); [auto|apply H2; lia]. }
  destruct (ty =? OP_CCLASS).
  { destruct (answer_char true _ (sqstd_rex_matchcclass l) s (proj2 Hs) (λ _, reflexivity _)) as [H1 H2].
    destruct (decide (s = eol)); [apply runs_ret; auto|]. apply runs_bind, runs_at; [lia|]. apply runs_ret. split; [done|].
    apply HM, H2. lia. }
  destruct (ty =? OP_MB).
  { apply runs_bind, runs_at; [lia|]. destruct (Z.eqb_spec (ch text s) l) as [Hl|Hl].
    - replace s with (s + 0)%nat at 1 by lia. eapply runs_mono; [apply (runs_balanced_loop _ l r s 0 1); [lia|lia|done..|]|].
      + intros j Hj. by replace j with 0%nat by lia.
      + intros o e' [-> Ha]. split; [done|]. by apply HM.
    - apply runs_ret. split; [done|]. apply HM. intros _ s' [? _]. done. }
  destruct (answer_char true _ (λ c, c =? ty) s (proj2 Hs) (λ _, reflexivity _)) as [H1 H2].
  destruct (decide (s = eol)); [apply runs_ret; auto|]. apply runs_bind, runs_at; [lia|]. apply runs_ret. split; [done|].
  apply HM, H2. lia.
Qed.

(** Class nodes. *)
Lemma runs_matchclass b i items c e : ready e → rep_items ns b i items → ∀ fuel, (length items ≤ fuel)%nat →
  runs (sqstd_rex_matchclass fuel (Z.of_nat i) c) e (λ r e', e' = e ∧ r = existsb (item_has c) items).
Proof.
  intros Hrd Hr. assert (Hhas : ∀ n, (if ntype n =? OP_RANGE then (nleft n <=? c) && (c <=? nright n)
    else if ntype n =? OP_CCLASS then sqstd_rex_matchcclass (nleft n) c else c =? ntype n) = item_has c (item_of n)).
  { intros n. unfold item_of. by repeat case_match. }
  induction Hr as [i n Hib Hn Hnx|i j n items Hn Hnx Hij Hr IH]; intros [|fuel] Hf; simpl in Hf; try lia;
    cbn [sqstd_rex_matchclass]; apply runs_bind; (eapply runs_node; [done..|]); rewrite Hhas; simpl;
    (destruct (item_has c (item_of n)); [by apply runs_ret|]).
  - rewrite Hnx. by apply runs_ret.
  - rewrite Hnx, (proj2 (Z.eqb_neq (Z.of_nat j) (-1))) by lia. apply IH. lia.
Qed.

Lemma matches_set neg items s s' :
  matches text bol eol (TSet neg items) s s' ↔
  one_char text eol (λ c, Bool.eqb (existsb (item_has c) items) (negb neg)) s s'.
Proof. split; [by inversion 1|apply m_set]. Qed.

Lemma runs_set fuel a b i nx neg items next s e :
  ready e → rep ns nsub a b i nx (TSet neg items) → (b ≤ length ns)%nat → (bol ≤ s ≤ eol)%nat →
  runs (sqstd_rex_matchnode text bol eol (S fuel) (Z.of_nat i) s next) e
    (λ o e', e' = e ∧ tree_answer (TSet neg items) s o).
Proof.
  intros Hrd Hr Hb Hs. inversion Hr as [|? ? j ? r ? ? Hi ? ? Hitems Hba Heq| | | |]; subst.
  cbn [sqstd_rex_matchnode]. apply runs_bind. eapply runs_node; [done..|]. apply runs_bind, runs_gets.
  cbn [ntype nleft nright nnext]. pose proof (rep_items_length _ _ _ _ Hitems).
  replace ((if neg then OP_NCLASS else OP_CLASS) =? OP_GREEDY) with false by (by destruct neg).
  replace ((if neg then OP_NCLASS else OP_CLASS) =? OP_OR) with false by (by destruct neg).
  replace ((if neg then OP_NCLASS else OP_CLASS) =? OP_WB) with false by (by destruct neg).
  replace ((if neg then OP_NCLASS else OP_CLASS) =? OP_BOL) with false by (by destruct neg).
  replace ((if neg then OP_NCLASS else OP_CLASS) =? OP_EOL) with false by (by destruct neg).
  replace ((if neg then OP_NCLASS else OP_CLASS) =? OP_DOT) with false by (by destruct neg).
  replace (_ || _) with false by (by destruct neg). replace (_ || _) with true by (by destruct neg).
  destruct (answer_char (simple (TSet neg items)) _ _ s (proj2 Hs) (matches_set neg items s)) as [Hend Hin].
  destruct (decide (s = eol)); [apply runs_ret; split; [done|by apply Hend]|]. apply runs_bind, runs_at; [lia|].
  apply runs_bind. eapply runs_mono; [eapply runs_matchclass; [done..|]|].
  { rewrite (rd_nodes _ Hrd). lia. }
  intros r' e' [-> ->]. apply runs_ret. split; [done|].
  replace ((if neg then OP_NCLASS else OP_CLASS) =? OP_CLASS) with (negb neg) by (by destruct neg). apply Hin. lia.
Qed.

Lemma seq_answer_cons t ts s m r :
  (s ≤ m ≤ eol)%nat → matches text bol eol t s m → seq_answer ts m r → seq_answer (t :: ts) s r.
Proof.
  intros Hm Ht. destruct r as [s'|]; simpl.
  - intros [? ?]. split; [lia|by eapply sq_cons].
  - intros Hno [Hst Hsts]%andb_true_iff s' Hsq. inversion Hsq as [|? ? ? m' ? Hm' Hsq']; subst.
    assert (m = m') as <- by (by eapply matches_det). by eapply Hno.
Qed.

Lemma seq_answer_none t ts s : tree_answer t s None → seq_answer (t :: ts) s None.
Proof.
  simpl. intros Hno [Hst _]%andb_true_iff s' Hsq. inversion Hsq; subst. by eapply Hno.
Qed.

Lemma seq_answer_one t s r : tree_answer t s r → seq_answer [t] s r.
Proof.
  destruct r as [s'|]; [|apply seq_answer_none]. intros [? ?]. eapply seq_answer_cons; [done..|].
  split; [lia|apply sq_nil].
Qed.

(** *** Calls of the function on other nodes *)

Section step.
Context (fuel : nat).
Context (IH : ∀ i nx next t F s e, ready e → call ns nsub i nx next t F → (tsize t + lsize F ≤ fuel)%nat → (bol ≤ s ≤ eol)%nat →
  runs (sqstd_rex_matchnode text bol eol fuel (Z.of_nat i) s next) e (λ o e', after e e' ∧ tree_answer t s o)).
Let matchnode := sqstd_rex_matchnode text bol eol fuel.

(** The sequence of an alternative. *)
Lemma runs_or_loop n : ∀ a b j ts s e,
  ready e → rep_chain ns nsub a b j ts → (b ≤ length ns)%nat → (length ts ≤ n)%nat → (lsize ts ≤ fuel)%nat →
  (bol ≤ s ≤ eol)%nat →
  runs (or_loop matchnode n (Z.of_nat j) s) e (λ o e', after e e' ∧ seq_answer ts s o).
Proof using All.
  induction n as [|n IHn]; intros a b j ts s e Hrd Hc Hb Hlen Hsz Hs;
    destruct (rep_chain_first _ _ _ _ _ _ Hc Hb) as (t & ts' & nx & -> & (a' & b' & Hr & Hb') & Hch); simpl in Hlen; [lia|].
  cbn [or_loop]. simpl in Hsz. apply runs_bind. eapply runs_mono.
  { apply (IH j nx (-1) t ts'); [done| |done|done]. split; [eauto| |by left]. by destruct (Z.eqb_spec nx (-1)) as [->|]. }
  intros o e1 [Haf Ha]. destruct o as [m|]; [|apply runs_ret; split; [done|by apply seq_answer_none]].
  destruct Ha as [Hm Hmt]. destruct (rep_node _ _ _ _ _ _ _ Hr) as (nd & Hnd & Hnx).
  assert (Hrd1 : ready e1) by (by eapply ready_after).
  apply runs_bind. eapply runs_node; [done..|]. rewrite Hnx.
  destruct (chain_at_cases _ _ _ _ Hch) as [[-> ->]|(Hnx1 & a2 & b2 & j2 & -> & Hc2 & Hb2)].
  - apply runs_ret. split; [done|]. by apply seq_answer_one.
  - rewrite (proj2 (Z.eqb_neq _ _) Hnx1). eapply runs_mono; [eapply IHn; [done..|lia| |lia]|].
    + unfold lsize in *. simpl in *. lia.
    + intros o e2 [Haf2 Ha2]. split; [by etrans|by eapply seq_answer_cons].
Qed.

(** The sequence of a group. *)
Lemma runs_expr_loop n : ∀ a b j ts next F s e,
  ready e → rep_chain ns nsub a b j ts → (b ≤ length ns)%nat → chain_at ns nsub next F → (length ts ≤ n)%nat →
  (lsize ts + lsize F ≤ fuel)%nat → (bol ≤ s ≤ eol)%nat →
  runs (expr_loop matchnode n (Z.of_nat j) s next) e (λ o e', after e e' ∧ seq_answer ts s o).
Proof using All.
  induction n as [|n IHn]; intros a b j ts next F s e Hrd Hc Hb HF Hlen Hsz Hs;
    destruct (rep_chain_first _ _ _ _ _ _ Hc Hb) as (t & ts' & nx & -> & (a' & b' & Hr & Hb') & Hch); simpl in Hlen; [lia|].
  cbn [expr_loop]. simpl in Hsz. destruct (rep_node _ _ _ _ _ _ _ Hr) as (nd & Hnd & Hnx).
  apply runs_bind. eapply runs_node; [done..|]. rewrite Hnx. apply runs_bind.
  destruct (chain_at_cases _ _ _ _ Hch) as [[-> ->]|(Hnx1 & a2 & b2 & j2 & -> & Hc2 & Hb2)].
  - eapply runs_mono; [apply (IH j (-1) next t F); [done| |simpl in *; lia|done]|].
    { split; [eauto|done|by right; left]. }
    intros o e1 [Haf Ha]. apply seq_answer_one in Ha. by destruct o; apply runs_ret.
  - rewrite (proj2 (Z.eqb_neq _ _) Hnx1). eapply runs_mono; [apply (IH j (Z.of_nat j2) (Z.of_nat j2) t ts'); [done| |unfold lsize in *; lia|done]|].
    { split; [eauto| |by right; right]. by rewrite (proj2 (Z.eqb_neq _ _) Hnx1). }
    intros o e1 [Haf Ha]. destruct o as [m|]; [|apply runs_ret; split; [done|by apply seq_answer_none]].
    destruct Ha as [Hm Hmt]. assert (Hrd1 : ready e1) by (by eapply ready_after).
    eapply runs_mono; [eapply (IHn a2 b2 j2 ts' next F); [done..|lia| |lia]|].
    + unfold lsize in *. lia.
    + intros o e2 [Haf2 Ha2]. split; [by etrans|by eapply seq_answer_cons].
Qed.

(** Looking ahead at what follows a repetition. *)
Lemma runs_greedy_stops greedystop next F s e :
  ready e → chain_at ns nsub greedystop F → next = -1 ∨ next = greedystop → (lsize F ≤ fuel)%nat → (bol ≤ s ≤ eol)%nat →
  runs (greedy_stops matchnode greedystop next s) e (λ _ e', after e e').
Proof using All.
  intros Hrd HF Hnext Hsz Hs. unfold greedy_stops.
  destruct (chain_at_cases _ _ _ _ HF) as [[-> ->]|(Hg1 & a & b & j & -> & Hc & Hb)]; [by apply runs_ret|].
  rewrite (proj2 (Z.eqb_neq _ _) Hg1).
  destruct (rep_chain_first _ _ _ _ _ _ Hc Hb) as (t & ts' & nx & -> & (a' & b' & Hr & Hb') & Hch).
  destruct (rep_node _ _ _ _ _ _ _ Hr) as (nd & Hnd & Hnx). apply runs_bind. eapply runs_node; [done..|].
  destruct (_ || _); [|by apply runs_ret]. apply runs_bind. rewrite Hnx.
  apply (runs_mono _ _ (λ g e', e' = e ∧ g = nx)).
  - destruct (Z.eqb_spec nx (-1)) as [->|]; [|by apply runs_ret]. cbn [negb].
    destruct Hnext as [->| ->]; [by apply runs_ret|]. rewrite (proj2 (Z.eqb_neq _ _) Hg1).
    apply runs_bind. eapply runs_node; [done..|]. by apply runs_ret.
  - intros g e' [-> ->]. apply runs_bind. eapply runs_mono; [apply (IH j nx nx t ts'); [done| |done|done]|].
    + split; [eauto| |by right; right]. by destruct (Z.eqb_spec nx (-1)) as [->|].
    + intros o e1 [Haf _]. by apply runs_ret.
Qed.

(** The repetition itself. *)
Lemma runs_greedy_loop n : ∀ l t greedystop next F p0 p1 s0 s (k : nat) e,
  ready e → call ns nsub l (-1) greedystop t F → next = -1 ∨ next = greedystop → (tsize t + lsize F ≤ fuel)%nat →
  (bol ≤ s0 ≤ s)%nat → (s ≤ eol)%nat → p1 ≤ 65535 → Z.of_nat k ≤ 65536 → 65537 < Z.of_nat n + Z.of_nat k →
  reps text bol eol t k s0 s →
  runs (greedy_loop eol matchnode n (Z.of_nat l) greedystop next p0 p1 s (Z.of_nat k)) e
    (λ r e', after e e' ∧ (s0 ≤ r.2 ≤ eol)%nat ∧ ∃ k' : nat, r.1 = Z.of_nat k' ∧ reps text bol eol t k' s0 r.2).
Proof using All.
  induction n as [|n IHn]; intros l t greedystop next F p0 p1 s0 s k e Hrd Hcall Hnext Hsz Hs0 Hs Hp1 Hk Hn Hreps; [lia|].
  cbn [greedy_loop].
  assert (Hstop : ∀ e' k' s', after e e' → (s0 ≤ s' ≤ eol)%nat → reps text bol eol t k' s0 s' →
    after e e' ∧ (s0 ≤ (Z.of_nat k', s').2 ≤ eol)%nat ∧ ∃ k'' : nat, (Z.of_nat k', s').1 = Z.of_nat k'' ∧ reps text bol eol t k'' s0 (Z.of_nat k', s').2).
  { intros. split_and!; simpl; [done|lia|lia|eauto]. }
  destruct ((Z.of_nat k =? 65535) || (Z.of_nat k <? p1)) eqn:Hgo; [|apply runs_ret, Hstop; [done|lia|done]].
  assert (Hk' : Z.of_nat k ≤ 65535).
  { apply orb_true_iff in Hgo as [?%Z.eqb_eq|?%Z.ltb_lt]; lia. }
  apply runs_bind. eapply runs_mono; [apply (IH l (-1) greedystop t F); [done..|lia]|].
  intros o e1 [Haf1 Ha]. destruct o as [s'|]; [|apply runs_ret, Hstop; [done|lia|done]]. destruct Ha as [Hs' Hm].
  assert (Hrd1 : ready e1) by (by eapply ready_after).
  assert (Hreps' : reps text bol eol t (S k) s0 s') by (by eapply rp_S).
  apply runs_bind. eapply runs_mono; [apply (runs_greedy_stops greedystop next F); [done|apply Hcall|done|lia|lia]|].
  intros st e2 Haf2. assert (Haf : after e e2) by (by etrans). assert (Hrd2 : ready e2) by (by eapply ready_after).
  replace (Z.of_nat k + 1) with (Z.of_nat (S k)) by lia.
  destruct (st && enough p0 p1 (Z.of_nat (S k))); [apply runs_ret, Hstop; [done|lia|done]|].
  destruct (decide (eol ≤ s')%nat); [apply runs_ret, Hstop; [done|lia|done]|].
  eapply runs_mono; [apply (IHn l t greedystop next F p0 p1 s0 s' (S k)); [done..|lia|lia|lia|lia|lia|done]|].
  intros r e3 (Haf3 & ? & ?). split_and!; [by etrans|lia|lia|done].
Qed.

Lemma runs_set_match (k : nat) m f e (Q : () → SQRex → Prop) :
  _matches e !! k = Some m → Q () (with_matches (<[k := f m]> (_matches e)) (_currsubexp e) e) →
  runs (set_match (Z.of_nat k) f) e Q.
Proof using Type.
  intros Hm HQ. unfold runs, set_match. rewrite (proj2 (Z.ltb_ge _ _)) by (apply Nat2Z.is_nonneg).
  by rewrite Nat2Z.id, Hm.
Qed.

(** Opening the group [k] and closing it with [m]. *)
Lemma after_group e e2 (k : nat) m1 m cur' :
  _currsubexp e = Z.of_nat k →
  after (with_matches (<[k := m1]> (_matches e)) (Z.of_nat k + 1) e) e2 → cap_ok m → Z.of_nat k ≤ cur' →
  after e (with_matches (<[k := m]> (_matches e2)) cur' e2).
Proof using Type.
  intros Hk [Hn Hs Hf Hl Hc Ho Hcaps] Hm Hcur. simpl in *. rewrite length_insert in Hl. split; simpl; try done.
  - by rewrite length_insert.
  - by rewrite Hk.
  - intros i Hi. rewrite Hk in Hi. assert (i ≠ k) by (intros ->; by apply Z.lt_irrefl in Hi).
    rewrite list_lookup_insert_ne, Ho by (done || by apply Z.lt_lt_succ_r). by rewrite list_lookup_insert_ne.
  - intros Hok i m' Hi Hm'. rewrite Hk in Hi. simpl in Hm'. destruct (decide (i = k)) as [->|Hne'].
    + apply list_lookup_insert_Some in Hm' as [(_ & <- & _)|[? _]]; done.
    + rewrite list_lookup_insert_ne in Hm' by done. refine (Hcaps _ i m' _ Hm').
      * intros i' m'' Hi' Hm''. simpl in Hm''. rewrite list_lookup_insert_ne in Hm'' by (intros ->; by apply Z.nle_succ_diag_l in Hi').
        eapply Hok; [|done]. rewrite Hk. etrans; [|done]. apply Z.le_succ_diag_r.
      * apply Z.le_succ_l, Z.le_neq. split; [done|]. intros ?%Nat2Z.inj. done.
Qed.

(** Leaving a group that is not recorded. *)
Lemma after_reset e e2 : after e e2 → after e (with_matches (_matches e2) (_currsubexp e) e2).
Proof using Type. by intros [? ? ? ? ? ? ?]; split. Qed.

Lemma matches_group cap ts s r : seq_answer ts s r → tree_answer (TExpr cap ts) s r.
Proof using Type.
  apply answer_iff. intros s'. split; [by inversion 1|apply m_group].
Qed.

Lemma runs_group_body (ty : Z) j k nx ts next F a b s e (cap : option Z) i :
  ready e → ns !! i = Some (mkNode ty (Z.of_nat j) k nx) → (ty = OP_EXPR ∧ 0 ≤ k < nsub) ∨ ty = OP_NOCAPEXPR →
  rep_chain ns nsub a b j ts → (b ≤ length ns)%nat → chain_at ns nsub next F → (lsize ts + lsize F ≤ fuel)%nat →
  (bol ≤ s ≤ eol)%nat →
  runs (sqstd_rex_matchnode text bol eol (S fuel) (Z.of_nat i) s next) e
    (λ o e', after e e' ∧ tree_answer (TExpr cap ts) s o).
Proof using All.
  intros Hrd Hi Hty Hc Hb HF Hsz Hs. pose proof (chain_length _ _ _ _ _ _ Hc Hb) as Hlen.
  cbn [sqstd_rex_matchnode]. apply runs_bind. eapply runs_node; [done..|]. apply runs_bind, runs_gets.
  cbn [ntype nleft nright nnext]. replace (ty =? OP_GREEDY) with false by (by destruct Hty as [[-> _]| ->]).
  replace (ty =? OP_OR) with false by (by destruct Hty as [[-> _]| ->]).
  replace ((ty =? OP_EXPR) || (ty =? OP_NOCAPEXPR)) with true by (by destruct Hty as [[-> _]| ->]).
  apply runs_bind, runs_gets. rewrite (rd_nodes _ Hrd).
  destruct (negb (ty =? OP_NOCAPEXPR) && (k =? _currsubexp e)) eqn:Hcap; cbn [when].
  - apply andb_true_iff in Hcap as [Hncap Hk%Z.eqb_eq]. destruct Hty as [[-> Hkr]| ->]; [|done].
    destruct (Z_of_nat_complete k) as [kn ->]; [lia|]. rewrite <- Hk.
    destruct (lookup_lt_is_Some_2 (_matches e) kn) as [m0 Hm0]; [pose proof (rd_len _ Hrd); lia|].
    apply runs_bind, runs_bind. eapply runs_set_match; [done|]. apply runs_modify. apply runs_bind, runs_gets.
    set (e1 := with_matches _ _ _). cbn [with_matches _matches _currsubexp] in e1.
    assert (Hrd1 : ready e1) by (destruct Hrd; split; simpl; [done|done|by rewrite length_insert|lia]).
    apply runs_bind. eapply runs_mono; [eapply (runs_expr_loop _ a b j ts next F); [done..|lia|done|done]|].
    intros o e2 [Haf Ha]. assert (Hm2 : _matches e2 !! kn = Some (mkMatch (Some (Z.of_nat s)) (mlen m0))).
    { rewrite (af_open _ _ Haf) by (simpl; lia). simpl. apply list_lookup_insert_eq. by eapply lookup_lt_Some. }
    destruct o as [s'|].
    + apply runs_bind, runs_modify, runs_bind. eapply runs_set_match; [done|]. apply runs_ret. split; [|by apply matches_group].
      apply (after_group e e2 kn (mkMatch (Some (Z.of_nat s)) (mlen m0))); [done|done| |simpl; lia]. destruct Ha as [Hs' _]. split_and!; simpl; lia.
    + apply runs_bind. eapply runs_set_match; [done|]. apply runs_ret. split; [|by apply matches_group].
      apply (after_group e e2 kn (mkMatch (Some (Z.of_nat s)) (mlen m0))); [done|done|done|]. pose proof (af_cur _ _ Haf). simpl in *. lia.
  - apply runs_bind, runs_ret, runs_bind, runs_gets, runs_bind.
    eapply runs_mono; [eapply (runs_expr_loop _ a b j ts next F); [done..|lia|done|done]|].
    intros o e2 [Haf Ha]. destruct o as [s'|].
    + apply runs_bind, runs_modify, runs_bind, runs_ret, runs_ret. split; [by apply after_reset|by apply matches_group].
    + apply runs_bind, runs_ret, runs_ret. split; [done|by apply matches_group].
Qed.

Lemma runs_greedy a b i j r nx t next F s e :
  ready e → ns !! i = Some (mkNode OP_GREEDY (Z.of_nat j) r nx) → rep ns nsub a b j (-1) t → (b ≤ length ns)%nat →
  chain_at ns nsub (if nx =? -1 then next else nx) F → next = -1 ∨ nx = -1 ∨ next = nx → (tsize t + lsize F ≤ fuel)%nat →
  (bol ≤ s ≤ eol)%nat →
  runs (sqstd_rex_matchnode text bol eol (S fuel) (Z.of_nat i) s next) e
    (λ o e', after e e' ∧ tree_answer (TGreedy (Z.land (Z.shiftr r 16) 65535) (Z.land r 65535) t) s o).
Proof using All.
  intros Hrd Hi Hr Hb HF Hnext Hsz Hs. cbn [sqstd_rex_matchnode]. apply runs_bind. eapply runs_node; [done..|].
  apply runs_bind, runs_gets. cbn [ntype nleft nright nnext]. rewrite Z.eqb_refl. cbv zeta.
  unfold greedy_p0, greedy_p1. cbn [nright]. apply runs_bind.
  eapply runs_mono; [apply (runs_greedy_loop greedy_fuel j t _ next F _ _ s s 0)|].
  - done.
  - split; [eauto|done|by right; left].
  - destruct (Z.eqb_spec nx (-1)) as [|Hnx]; [by right|]. by destruct Hnext as [|[|]]; auto.
  - done.
  - lia.
  - lia.
  - apply land_u16.
  - lia.
  - unfold greedy_fuel. lia.
  - apply rp_O.
  - intros [km g] e' (Haf & Hg & k' & Hk & Hreps). simpl in Hk. subst km. apply runs_ret. split; [done|].
    destruct (enough _ _ _) eqn:Hen; [|done]. split; [done|]. eapply m_greedy; [by apply enough_bounds|done].
Qed.

Lemma matches_or l r s o1 :
  seq_answer l s o1 → ∀ s', o1 = Some s' → tree_answer (TOr l r) s (Some s').
Proof using Type. intros Ha s' ->. destruct Ha as [? ?]. split; [done|by apply m_left]. Qed.

Lemma runs_or a m b i j1 j2 nx l r next s e :
  ready e → ns !! i = Some (mkNode OP_OR (Z.of_nat j1) (Z.of_nat j2) nx) →
  rep_chain ns nsub a m j1 l → rep_chain ns nsub (S m) b j2 r → (b ≤ length ns)%nat →
  (lsize l + lsize r ≤ fuel)%nat → (bol ≤ s ≤ eol)%nat →
  runs (sqstd_rex_matchnode text bol eol (S fuel) (Z.of_nat i) s next) e
    (λ o e', after e e' ∧ tree_answer (TOr l r) s o).
Proof using All.
  intros Hrd Hi Hl Hr Hb Hsz Hs. cbn [sqstd_rex_matchnode]. apply runs_bind. eapply runs_node; [done..|].
  apply runs_bind, runs_gets. cbn [ntype nleft nright nnext]. rewrite Z.eqb_refl.
  replace (OP_OR =? OP_GREEDY) with false by done. rewrite (rd_nodes _ Hrd).
  pose proof (rep_chain_bounds _ _ _ _ _ _ Hr) as Hbr. assert (Hbm : (m ≤ length ns)%nat) by lia.
  pose proof (chain_length _ _ _ _ _ _ Hl Hbm). pose proof (chain_length _ _ _ _ _ _ Hr Hb).
  apply runs_bind. eapply runs_mono; [eapply (runs_or_loop _ a m j1 l); [done..|lia|lia|done]|].
  intros o e1 [Haf Ha]. destruct o as [s'|]; [apply runs_ret; split; [done|by eapply matches_or]|].
  assert (Hrd1 : ready e1) by (by eapply ready_after).
  eapply runs_mono; [eapply (runs_or_loop _ (S m) b j2 r); [done..|lia|lia|done]|].
  intros o e2 [Haf2 Ha2]. split; [by etrans|]. destruct o as [s'|]; [|done]. destruct Ha2. split; [done|by apply m_right].
Qed.

Lemma runs_step i nx next t F s e :
  ready e → call ns nsub i nx next t F → (tsize t + lsize F ≤ S fuel)%nat → (bol ≤ s ≤ eol)%nat →
  runs (sqstd_rex_matchnode text bol eol (S fuel) (Z.of_nat i) s next) e (λ o e', after e e' ∧ tree_answer t s o).
Proof using All.
  intros Hrd Hcall Hsz Hs. destruct (call_outer _ _ _ _ _ _ _ Hcall) as (F' & HF' & Hsz').
  destruct Hcall as [(a & b & Hr & Hb) HF Hnext].
  assert (Hsame : ∀ t, runs (sqstd_rex_matchnode text bol eol (S fuel) (Z.of_nat i) s next) e (λ o e', e' = e ∧ tree_answer t s o) →
    runs (sqstd_rex_matchnode text bol eol (S fuel) (Z.of_nat i) s next) e (λ o e', after e e' ∧ tree_answer t s o)).
  { intros t' Hruns. eapply runs_mono; [exact Hruns|]. intros o e' [-> ?]. done. }
  destruct Hr as [a ty l r nx Hn Hty|a b j neg r nx items Hn ? ? Hit|a b j r nx t Hn Hr|a m b i j nx tl tr Hn Hl Hr|
    a b j k nx ts Hn Hk Hr|a b j k nx ts Hn Hr]; simpl in Hsz.
  - apply Hsame. by eapply runs_leaf.
  - apply Hsame. eapply runs_set; [done| |done|done]. by eapply rep_set.
  - eapply runs_greedy; [done..|lia|done|done|lia|done].
  - eapply runs_or; [done..|unfold lsize; lia|done].
  - eapply runs_group_body; [done|done|by left|done..|unfold lsize in *; lia|done].
  - eapply runs_group_body; [done|done|by right|done..|unfold lsize in *; lia|done].
Qed.
End step.

(** Visiting a node always ends, with an answer for its tree. *)
Lemma runs_matchnode fuel : ∀ i nx next t F s e,
  ready e → call ns nsub i nx next t F → (tsize t + lsize F ≤ fuel)%nat → (bol ≤ s ≤ eol)%nat →
  runs (sqstd_rex_matchnode text bol eol fuel (Z.of_nat i) s next) e (λ o e', after e e' ∧ tree_answer t s o).
Proof.
  induction fuel as [|fuel IH]; intros i nx next t F s e Hrd Hcall Hsz Hs; [pose proof (tsize_pos t); lia|].
  by eapply runs_step.
Qed.
End matcher.

(** ** Matching and searching *)

Section use.
Context (text : list Z) (bol eol : nat) (e : SQRex) (ts : list rtree).
Context (Hcomp : compiled e ts).
Context (Hrange : (bol ≤ eol ≤ length text)%nat) (Hne : (bol < eol)%nat ∨ eol = length text).

(** No test of the pattern reads behind the terminator of this text. *)
Definition boundaries_ok : Prop :=
  Forall (λ n, ntype n ≠ OP_WB) (_nodes e) ∨ ∀ c, last text = Some c → isspace c = false.
Context (Hwb : boundaries_ok).

Lemma compiled_after e' : after bol eol e e' → compiled e' ts.
Proof using Hcomp.
  destruct Hcomp as (Hr & Hf & Hl). intros [Hn Hs Hf' Hl' _ _ _]. unfold compiled. rewrite Hn, Hs, Hf', Hl'. done.
Qed.

(** Trying the whole pattern at [s]. *)
Lemma runs_root e1 s depth :
  after bol eol e e1 → 0 ≤ _currsubexp e1 → (bol ≤ s ≤ eol)%nat → (length (_nodes e) ≤ depth)%nat →
  runs (sqstd_rex_matchnode text bol eol depth 0 s (-1)) e1
    (λ o e', after bol eol e1 e' ∧ seq_answer text bol eol ts s o).
Proof using All.
  destruct Hcomp as (Hr & Hf & Hl). intros Haf Hcur Hs Hd. pose proof (rep_size _ _ _ _ _ _ _ Hr) as Hsz.
  eapply runs_mono; [eapply (runs_matchnode text bol eol (_nodes e) (_nsubexpr e) Hrange Hne Hwb depth 0 (-1) (-1) _ [])|].
  - destruct Haf. split; try congruence.
  - split; [eauto|by left|by left].
  - simpl in *. lia.
  - done.
  - intros o e' [Haf' Ha]. split; [done|]. eapply answer_iff; [|exact Ha].
    intros s'. split; [apply m_group|by inversion 1].
Qed.
End use.

Section search.
Context (text : list Z) (bol eol : nat) (e : SQRex) (ts : list rtree).
Context (Hcomp : compiled e ts) (Hrange : (bol < eol ≤ length text)%nat) (Hwb : boundaries_ok text e).

(** While searching: the state, with the group counter reset. *)
Definition searching (e1 : SQRex) : Prop :=
  after bol eol (with_matches (_matches e) 0 e) (with_matches (_matches e1) 0 e1).

Lemma searching_compiled e1 : searching e1 → compiled e1 ts.
Proof using Hcomp. destruct Hcomp as (Hr & Hf & Hl). intros [Hn Hs Hf' Hl' _ _ _]. simpl in *. unfold compiled. by rewrite Hn, Hs, Hf', Hl'. Qed.

Lemma runs_search_chain fuel e1 s :
  searching e1 → (1 < fuel)%nat → (bol ≤ s ≤ eol)%nat →
  runs (search_chain text bol eol fuel 0 s) e1
    (λ r e2, searching e2 ∧ (r.2 = None → r.1 = 0) ∧ seq_answer text bol eol ts s r.2).
Proof using All.
  intros Hsr Hf Hs. destruct fuel as [|[|fuel]]; [lia..|]. cbn [search_chain].
  replace (0 =? -1) with false by done. apply runs_bind, runs_modify, runs_bind, runs_gets.
  pose proof (searching_compiled _ Hsr) as Hc1. set (e1' := with_matches (_matches e1) 0 e1) in *.
  apply runs_bind. eapply runs_mono.
  { eapply (runs_root text bol eol e1' ts Hc1); [lia|left; lia| |done|done|done|unfold match_fuel; lia].
    unfold boundaries_ok. pose proof (af_nodes _ _ _ _ Hsr) as Hn. simpl in Hn. simpl. by rewrite Hn. }
  intros o e2 [Haf Ha]. assert (Hsr2 : searching e2).
  { unfold searching in *. etrans; [exact Hsr|]. by apply (after_reset bol eol e1'). }
  destruct o as [s'|]; [|by apply runs_ret].
  destruct (rep_node _ _ _ _ _ _ _ (proj1 Hc1)) as (n & Hn & Hnx).
  apply runs_bind. apply (runs_node (_nodes e1) (_nsubexpr e1) 0 n); [..|done|].
  { destruct Haf as [? ? ? ? Hcur _ _], Hc1 as (_ & _ & Hl). split; simpl in *; congruence || done. }
  rewrite Hnx. by apply runs_ret.
Qed.

(** What a search reports: the leftmost match, as far as the pattern's
    alternatives and repetitions let it find matches. *)
Definition search_answer (from : nat) (r : option (nat * nat)) : Prop :=
  match r with
  | Some (i, j) => (from ≤ i < eol)%nat ∧ (i ≤ j ≤ eol)%nat ∧ seq text bol eol ts i j ∧
      (forallb simple ts = true → ∀ i' j', (from ≤ i' < i)%nat → ¬ seq text bol eol ts i' j')
  | None => forallb simple ts = true → ∀ i j, (from ≤ i < eol)%nat → ¬ seq text bol eol ts i j
  end.

Lemma search_answer_later s r :
  seq_answer text bol eol ts s None → search_answer (S s) r → search_answer s r.
Proof.
  intros Hno. destruct r as [[i j]|]; simpl.
  - intros (? & ? & ? & Hl). split_and!; [lia|lia|lia|lia|done|]. intros Hsim i' j' Hi'.
    destruct (decide (i' = s)) as [->|]; [by apply Hno|apply Hl; [done|lia]].
  - intros Hl Hsim i j Hi. destruct (decide (i = s)) as [->|]; [by apply Hno|apply Hl; [done|lia]].
Qed.

Lemma runs_search_from fuel : ∀ e1 s,
  searching e1 → (bol ≤ s < eol)%nat → (eol - s ≤ fuel)%nat →
  runs (search_from text bol eol fuel 0 s) e1 (λ r e2, searching e2 ∧ search_answer s r).
Proof using All.
  induction fuel as [|fuel IH]; intros e1 s Hsr Hs Hf; [lia|]. cbn [search_from].
  apply runs_bind, runs_gets. pose proof (searching_compiled _ Hsr) as (Hr & _).
  assert (Hlen : (0 < length (_nodes e1))%nat).
  { destruct (rep_node _ _ _ _ _ _ _ Hr) as (n & Hn & _). by eapply lookup_lt_Some. }
  apply runs_bind. eapply runs_mono; [apply runs_search_chain; [done|lia|lia]|].
  intros [node r] e2 (Hsr2 & Hnode & Ha). simpl in *. destruct r as [stop|].
  - apply runs_ret. split; [done|]. destruct Ha as [? ?]. split_and!; [lia|lia|lia|lia|done|]. intros _ i' j' Hi'. lia.
  - rewrite Hnode by done. destruct (decide (S s = eol)) as [Heq|Hne].
    + apply runs_ret. split; [done|]. intros Hsim i j Hi. assert (i = s) as -> by lia. by apply Ha.
    + eapply runs_mono; [apply IH; [done|lia|lia]|]. intros r e3 [? ?]. split; [done|]. by apply search_answer_later.
Qed.
End search.

(** C4: if the pattern has no word boundary test or the text does not end in
    white space, matching a compiled pattern against a text ends without reading
    outside the text or the node array; the answer is yes only for texts of the
    pattern's language, and exactly for those where the pattern has no
    repetition and no alternative; and if the groups recorded before lie in the
    text, as those of a new expression do, the groups recorded afterwards do. *)
Theorem match_total_sound e ts text :
  compiled e ts → boundaries_ok text e →
  ∃ b e', sqstd_rex_match e text = Ok (b, e') ∧ compiled e' ts ∧
    (b = true → seq text 0 (length text) ts 0 (length text)) ∧
    (forallb simple ts = true → seq text 0 (length text) ts 0 (length text) → b = true) ∧
    (caps_ok 0 (length text) 0 e → caps_ok 0 (length text) 0 e').
Proof.
  intros Hcomp Hwb. unfold sqstd_rex_match. set (e0 := with_matches _ 0 e).
  assert (Hc0 : compiled e0 ts) by done.
  assert (Hruns : runs (sqstd_rex_matchnode text 0 (length text) (match_fuel e0) 0 0 (-1)) e0
    (λ o e', after 0 (length text) e0 e' ∧ seq_answer text 0 (length text) ts 0 o)).
  { eapply (runs_root text 0 (length text) e0); [done|lia|by right|done|done|done|lia|]. unfold match_fuel. lia. }
  apply runs_ok in Hruns as (o & e' & -> & Haf & Ha). simpl. eexists _, e'. split; [done|].
  split; [by eapply compiled_after|]. split_and!.
  - intros ->%bool_decide_eq_true. by destruct Ha.
  - intros Hsim Hseq. apply bool_decide_eq_true. destruct o as [s'|]; [|by destruct (Ha Hsim (length text))].
    f_equal. destruct Ha as [_ Hs']. by eapply seq_det.
  - intros Hcaps. by apply (af_caps _ _ _ _ Haf).
Qed.

(** C20: if the pattern has no word boundary test or the text does not end in
    white space, searching a range of the text for a compiled pattern ends
    without reading outside the text or the node array; what it reports is a
    part of the range that is in the pattern's language, the leftmost one where
    the pattern has no repetition and no alternative, and it reports nothing
    only when such a pattern has no match in the range; groups stay in the range
    if they were. *)
Theorem search_total_sound e ts text bol eol :
  compiled e ts → (bol < eol ≤ length text)%nat → boundaries_ok text e →
  ∃ r e', sqstd_rex_searchrange e text bol eol = Ok (r, e') ∧ compiled e' ts ∧
    search_answer text bol eol ts bol r ∧ (caps_ok bol eol 0 e → caps_ok bol eol 0 e').
Proof.
  intros Hcomp Hrange Hwb. unfold sqstd_rex_searchrange. rewrite decide_False by lia.
  assert (Hsr : searching bol eol e e) by (unfold searching; done).
  pose proof (runs_search_from text bol eol e ts Hcomp Hrange Hwb (eol - bol) e bol Hsr) as Hruns.
  apply runs_ok in Hruns as (r & e' & He & Hsr' & Ha); [|lia|lia]. destruct Hcomp as (Hr & Hf & Hl). rewrite Hf.
  exists r, e'. split_and!; [done|by eapply searching_compiled|done|]. intros Hcaps. by apply (af_caps _ _ _ _ Hsr').
Qed.

(** A pattern without repetition, compiled. *)
Definition word_pattern : list Z := codes "a(b.)[x-z]".

Lemma word_pattern_compiled e : sqstd_rex_compile word_pattern = Ok e → ∃ ts, compiled e ts.
Proof.
  intros He. assert (H := compile_shape word_pattern). rewrite He in H.
  apply H; [done|by_evaluation..].
Qed.

Lemma match_total_sound_witness :
  ∃ e ts b e', sqstd_rex_compile word_pattern = Ok e ∧ compiled e ts ∧ sqstd_rex_match e (codes "abcy") = Ok (b, e') ∧
    b = true ∧ seq (codes "abcy") 0 4 ts 0 4.
Proof.
  destruct (sqstd_rex_compile word_pattern) as [e|f] eqn:He; [|by vm_compute in He].
  destruct (word_pattern_compiled e He) as [ts Hts].
  destruct (match_total_sound e ts (codes "abcy") Hts) as (b & e' & Hm & _ & Hs & _).
  { right. by intros c [= <-]. }
  vm_compute in He. injection He as <-. assert (Hm' := Hm). vm_compute in Hm'. injection Hm' as <- <-.
  eexists _, ts, true, _. split_and!; [done|done|exact Hm|done|by apply Hs].
Defined.

Lemma search_total_sound_witness :
  ∃ e ts e', sqstd_rex_compile word_pattern = Ok e ∧ compiled e ts ∧
    sqstd_rex_searchrange e (codes "aababxyab") 0 9 = Ok (Some (3, 7)%nat, e') ∧ seq (codes "aababxyab") 0 9 ts 3 7.
Proof.
  destruct (sqstd_rex_compile word_pattern) as [e|f] eqn:He; [|by vm_compute in He].
  destruct (word_pattern_compiled e He) as [ts Hts].
  destruct (search_total_sound e ts (codes "aababxyab") 0 9 Hts) as (r & e' & Hm & _ & Hs & _).
  { by vm_compute; split; repeat constructor. }
  { right. by intros c [= <-]. }
  vm_compute in He. injection He as <-. assert (Hm' := Hm). vm_compute in Hm'. injection Hm' as <- <-.
  eexists _, ts, _. split_and!; [done|done|exact Hm|apply Hs].
Defined.

(** ** What the code does at the edges *)

(** Compile a pattern and use it. *)
Definition rex_search (p t : string) : res (option (nat * nat)) :=
  e ← sqstd_rex_compile (codes p); '(r, _) ← sqstd_rex_search e (codes t); Ok r.
Definition rex_match (p t : string) : res bool :=
  e ← sqstd_rex_compile (codes p); '(r, _) ← sqstd_rex_match e (codes t); Ok r.

(** Four inputs make the code access memory that is not its own: the empty
    pattern writes node 0 to an array of size 0; the patterns [[!-\] and [\m]
    are read behind their terminators; matching [a \b] against [a ] reads
    behind the terminator of the text. *)
Lemma rex_overruns :
  sqstd_rex_compile [] = Err OutOfBounds ∧
  sqstd_rex_compile (codes "[!-\") = Err OutOfBounds ∧
  sqstd_rex_compile (codes "\m") = Err OutOfBounds ∧
  rex_match "a \b" "a " = Err OutOfBounds.
Proof. split_and!; by vm_compute. Qed.

(** The word boundary test compares the character at the position with the
    next one, where the boundary at a position is between the previous character
    and that one: [a\bb] is found inside a word, and [a\b] is not found at the
    end of one that two spaces follow. *)
Lemma rex_boundary_misplaced :
  rex_search "a\bb" "ab c" = Ok (Some (0, 2)%nat) ∧ rex_search "a\b" "a  b" = Ok None.
Proof. split; by vm_compute. Qed.

(** A group that a search does not reach keeps what an earlier search
    recorded: after searching [b|(a)] in [xxa] and then in [b], the second
    group still begins at the third character, of a text of one. *)
Theorem rex_stale_group :
  (e ← sqstd_rex_compile (codes "b|(a)");
   '(_, e) ← sqstd_rex_search e (codes "xxa");
   '(r, e) ← sqstd_rex_search e (codes "b");
   m ← sqstd_rex_getsubexp e 1;
   Ok (r, m)) = Ok (Some (0, 1)%nat, Some (mkMatch (Some 2) 1)).
Proof. by vm_compute. Qed.

(** Where the regular expressions fail. The empty pattern writes node 0 to
    an array of size 0, the patterns [[!-\] and [\m] are read behind their
    terminators, and matching [a \b] against [a ] reads behind the terminator of
    the text. The word boundary test looks at the character at the position and
    the next one: [a\bb] is found inside a word, and [a\b] is not found at the
    end of one. A group that a search does not reach keeps the position
    recorded in the text of an earlier search. *)
Lemma rex_faults :
  (sqstd_rex_compile [] = Err OutOfBounds ∧ sqstd_rex_compile (codes "[!-\") = Err OutOfBounds ∧
   sqstd_rex_compile (codes "\m") = Err OutOfBounds ∧ rex_match "a \b" "a " = Err OutOfBounds) ∧
  (rex_search "a\bb" "ab c" = Ok (Some (0, 2)%nat) ∧ rex_search "a\b" "a  b" = Ok None) ∧
  (e ← sqstd_rex_compile (codes "b|(a)");
   '(_, e) ← sqstd_rex_search e (codes "xxa");
   '(r, e) ← sqstd_rex_search e (codes "b");
   m ← sqstd_rex_getsubexp e 1;
   Ok (r, m)) = Ok (Some (0, 1)%nat, Some (mkMatch (Some 2) 1)).
Proof. split_and!; [apply rex_overruns..|apply rex_boundary_misplaced|apply rex_boundary_misplaced|apply rex_stale_group]. Qed.
