(* ===== verification/SqStream.v ===== *)
(** * Streams (sqstdio.h, sqstdstream.cpp, the class SQFile of sqstdio.cpp)

    The virtual functions of [SQStream] are a type class; the functions scripts
    call ([_stream_readn] and so on) are written against it, and so are their
    theorems: a second class says that an implementation behaves like a sequence
    of bytes with a position.  [SQFile] satisfies it when the C library's files
    do; [SQBlob] (SqBlob.v) does. *)

From Stdlib Require Import Ascii.
From stdpp Require Import base numbers strings option list.
From S2P Require Import Prelude CType.

Open Scope Z_scope.

Definition SQ_SEEK_CUR : Z := 0.
Definition SQ_SEEK_END : Z := 1.
Definition SQ_SEEK_SET : Z := 2.

(** ** Numbers in memory

    The targets are little-endian. *)

Fixpoint le_bytes (n : nat) (v : Z) : list Z :=
  match n with O => [] | S n' => v mod 256 :: le_bytes n' (v / 256) end.
Fixpoint le_value (bs : list Z) : Z :=
  match bs with [] => 0 | b :: bs' => b + 256 * le_value bs' end.

Definition is_byte (b : Z) : Prop := 0 ≤ b < 256.

(** Two's complement reading of the low 16 bits. *)
Definition s16 (z : Z) : Z := let u := u16 z in if u <? 2 ^ 15 then u else u - 2 ^ 16.

(** ** The interface *)

(** The buffer [Write] is passed: bytes that the stream does not own, or the
    beginning of the buffer of the blob that is written to. *)
Inductive source := Bytes (data : list Z) | Own (size : Z).
Definition source_size (src : source) : Z := match src with Bytes data => Z.of_nat (length data) | Own size => size end.

(** [Read] gives the bytes it put into the buffer; their number is its result. *)
Class SQStream (T : Type) := {
  Read : Z → stM T (list Z);
  Write : source → stM T Z;
  Flush : stM T Z;
  Tell : stM T Z;
  Len : stM T Z;
  Seek : Z → Z → stM T Z;
  IsValid : T → bool;
  EOS : stM T bool
}.

(** What a function gives to the script: an error, or a value, if any.  A blob
    is given by its contents and a float by its bits. *)
Inductive value := VNull | VInt (i : Z) | VFloat (bits : Z) | VString (s : list Z) | VBlob (bs : list Z).
Inductive outcome := Throw (msg : string) | ThrowNull | Return (v : option value).

(** A numeric argument, an integer or the bits of a float. *)
Inductive number := NInt (i : Z) | NFloat (bits : Z).

Section natives.
Context {T : Type} `{!SQStream T}.
(** The conversions between integers, [float] and [double] of the hardware. *)
Context (f2i i2f f2d d2f : Z → Z).

Definition sq_getinteger (n : number) : Z := match n with NInt i => i | NFloat b => f2i b end.
Definition sq_getfloat (n : number) : Z := match n with NInt i => i2f i | NFloat b => b end.

(** [SETUP_STREAM] *)
Definition setup (body : stM T outcome) : stM T outcome :=
  valid ← gets IsValid;
  if (valid : bool) then body else mret (Throw "the stream is invalid").

(** [_stream_readblob], [_stream_reads]: what they have in common. *)
Definition read_some (size : Z) (result : list Z → value) : stM T outcome :=
  len ← Len;
  data ← Read (if len <? size then len else size);
  if decide (data = []) then mret (Throw "no data left to read") else mret (Return (Some (result data))).
Definition _stream_readblob (size : Z) : stM T outcome := setup (read_some size VBlob).
Definition _stream_reads (size : Z) : stM T outcome := setup (read_some size VString).

(** [SAFE_READN] *)
Definition SAFE_READN (len : Z) (k : Z → value) : stM T outcome :=
  data ← Read len;
  if Z.of_nat (length data) =? len then mret (Return (Some (k (le_value data)))) else mret (Throw "io error").

(** [_stream_readn] *)
Definition _stream_readn (format : Z) : stM T outcome :=
  setup (
    if isc format "l" then SAFE_READN 4 (λ v, VInt (s32 v))
    else if isc format "i" then SAFE_READN 4 (λ v, VInt (s32 v))
    else if isc format "s" then SAFE_READN 2 (λ v, VInt (s16 v))
    else if isc format "w" then SAFE_READN 2 (λ v, VInt v)
    else if isc format "c" then SAFE_READN 1 (λ v, VInt v)
    else if isc format "b" then SAFE_READN 1 (λ v, VInt v)
    else if isc format "f" then SAFE_READN 4 VFloat
    else if isc format "d" then SAFE_READN 8 (λ v, VFloat (d2f v))
    else mret (Throw "invalid format")).

(** [_stream_writeblob], [_stream_writes]: what they have in common. *)
Definition write_data (src : source) : stM T outcome :=
  let size := source_size src in
  n ← Write src;
  if n =? size then mret (Return (Some (VInt size))) else mret (Throw "io error").

(** The argument of [_stream_writeblob]: not a blob, another blob with its
    contents, or the blob that is the stream, whose own buffer is passed on. *)
Inductive blob_arg := NotBlob | OtherBlob (contents : list Z) | ThisBlob.
Definition _stream_writeblob (arg : blob_arg) : stM T outcome :=
  setup (
    match arg with
    | NotBlob => mret (Throw "invalid parameter")
    | OtherBlob contents => write_data (Bytes contents)
    | ThisBlob => size ← Len; write_data (Own size)
    end).
Definition _stream_writes (arg : option (list Z)) : stM T outcome :=
  setup (match arg with None => mret (Throw "invalid parameter") | Some s => write_data (Bytes s) end).

(** The representation of a number in a format, as its bytes. *)
Definition format_bytes (format : Z) (v : number) : option (list Z) :=
  if isc format "l" then Some (le_bytes 4 (sq_getinteger v))
  else if isc format "i" then Some (le_bytes 4 (sq_getinteger v))
  else if isc format "s" then Some (le_bytes 2 (sq_getinteger v))
  else if isc format "w" then Some (le_bytes 2 (sq_getinteger v))
  else if isc format "c" then Some (le_bytes 1 (sq_getinteger v))
  else if isc format "b" then Some (le_bytes 1 (sq_getinteger v))
  else if isc format "f" then Some (le_bytes 4 (sq_getfloat v))
  else if isc format "d" then Some (le_bytes 8 (f2d (sq_getfloat v)))
  else None.

(** [_stream_writen] *)
Definition _stream_writen (v : number) (format : Z) : stM T outcome :=
  setup (
    match format_bytes format v with
    | Some bs => _ ← Write (Bytes bs); mret (Return None)
    | None => mret (Throw "invalid format")
    end).

(** [_stream_seek] *)
Definition _stream_seek (offset : Z) (t : option Z) : stM T outcome :=
  setup (
    let origin :=
      match t with
      | None => Some SQ_SEEK_SET
      | Some t =>
          if isc t "b" then Some SQ_SEEK_SET else if isc t "c" then Some SQ_SEEK_CUR
          else if isc t "e" then Some SQ_SEEK_END else None
      end in
    match origin with
    | None => mret (Throw "invalid origin")
    | Some o => r ← Seek offset o; mret (Return (Some (VInt r)))
    end).

(** [_stream_tell], [_stream_len], [_stream_flush], [_stream_eos] *)
Definition _stream_tell : stM T outcome := setup (n ← Tell; mret (Return (Some (VInt n)))).
Definition _stream_len : stM T outcome := setup (n ← Len; mret (Return (Some (VInt n)))).
Definition _stream_flush : stM T outcome :=
  setup (n ← Flush; mret (Return (Some (if n =? 0 then VInt 1 else VNull)))).
Definition _stream_eos : stM T outcome :=
  setup (b ← EOS; mret (Return (Some (if (b : bool) then VInt 1 else VNull)))).

(** [_stream__cloned] *)
Definition _stream__cloned : stM T outcome := mret (Throw "this object cannot be cloned").
End natives.

(** ** SQFile *)

(** The functions of the C library on an open file of type [H]. *)
Class Stdio (H : Type) := {
  fread : Z → stM H (list Z);
  fwrite : list Z → stM H Z;
  fseek : Z → Z → stM H Z;
  ftell : stM H Z;
  fflush : stM H Z
}.

(** [SEEK_SET], [SEEK_CUR] and [SEEK_END] of the C library. *)
Definition SEEK_SET : Z := 0.
Definition SEEK_CUR : Z := 1.
Definition SEEK_END : Z := 2.

Module SQFile.
Section with_stdio.
Context {H : Type} `{!Stdio H}.

(** [sqstd_fseek] *)
Definition sqstd_fseek (offset origin : Z) : stM H Z :=
  if origin =? SQ_SEEK_CUR then fseek offset SEEK_CUR
  else if origin =? SQ_SEEK_END then fseek offset SEEK_END
  else if origin =? SQ_SEEK_SET then fseek offset SEEK_SET
  else mret (-1).

(** The handle, null after [Close]. *)
Definition t : Type := option H.

(** A call with the handle. *)
Definition with_handle {A} (m : stM H A) : stM t A := λ f,
  match f with
  | Some h => match m h with Ok (a, h') => Ok (a, Some h') | Err e => Err e end
  | None => Err AssertFail
  end.

Definition Read (size : Z) : stM t (list Z) := with_handle (fread size).
(** A file has no buffer that could be passed to it. *)
Definition Write (src : source) : stM t Z :=
  match src with Bytes data => with_handle (fwrite data) | Own _ => raise AssertFail end.
Definition Flush : stM t Z := with_handle fflush.
Definition Tell : stM t Z := with_handle ftell.
Definition Seek (offset origin : Z) : stM t Z := with_handle (sqstd_fseek offset origin).
Definition Len : stM t Z :=
  prevpos ← Tell;
  _ ← Seek 0 SQ_SEEK_END;
  size ← Tell;
  _ ← Seek prevpos SQ_SEEK_SET;
  mret size.
Definition IsValid (f : t) : bool := bool_decide (is_Some f).
Definition EOS : stM t bool := p ← Tell; n ← Len; mret (p =? n).

#[global] Instance file_stream : SQStream t := {
  SqStream.Read := Read; SqStream.Write := Write; SqStream.Flush := Flush; SqStream.Tell := Tell;
  SqStream.Len := Len; SqStream.Seek := Seek; SqStream.IsValid := IsValid; SqStream.EOS := EOS
}.
End with_stdio.
Arguments t H : clear implicits.
End SQFile.

(** ** Bytes with a position *)

Record file := mkFile { fbytes : list Z; fpos : nat }.

Definition f_read (n : Z) (f : file) : list Z := take (Z.to_nat n) (drop (fpos f) (fbytes f)).
Definition f_skip (n : nat) (f : file) : file := mkFile (fbytes f) (fpos f + n).
Definition f_write (data : list Z) (f : file) : file :=
  mkFile (take (fpos f) (fbytes f) ++ data ++ drop (fpos f + length data) (fbytes f)) (fpos f + length data).
(** The position an offset and an origin mean, if it is in the file. *)
Definition f_target (offset origin : Z) (f : file) : option nat :=
  let len := Z.of_nat (length (fbytes f)) in
  let z := if origin =? SQ_SEEK_SET then offset else if origin =? SQ_SEEK_CUR then Z.of_nat (fpos f) + offset
           else len + offset in
  if decide (0 ≤ z ≤ len) then Some (Z.to_nat z) else None.
Definition f_goto (n : nat) (f : file) : file := mkFile (fbytes f) n.

Definition file_ok (f : file) : Prop := (fpos f ≤ length (fbytes f))%nat ∧ Forall is_byte (fbytes f).

(** Files and blobs are shorter than this, which is more than the memory of a
    target. *)
Definition max_len : Z := 2 ^ 29.

Definition offset_ok (z : Z) : Prop := - 2 ^ 31 ≤ z < 2 ^ 31.
Definition origin_ok (o : Z) : Prop := o = SQ_SEEK_SET ∨ o = SQ_SEEK_CUR ∨ o = SQ_SEEK_END.

(** [t] behaves like the file [view t]. *)
Class StreamRefines (T : Type) `{!SQStream T} := {
  view : T → file;
  stream_ok : T → Prop;
  stream_ok_file t : stream_ok t → file_ok (view t) ∧ Z.of_nat (length (fbytes (view t))) ≤ max_len;
  valid_refines t : stream_ok t → IsValid t = true;
  read_refines t n : stream_ok t → 0 ≤ n ≤ max_len →
    runs (Read n) t (λ out t', stream_ok t' ∧ out = f_read n (view t) ∧ view t' = f_skip (length out) (view t));
  write_refines t data : stream_ok t → Forall is_byte data → Z.of_nat (fpos (view t) + length data) ≤ max_len →
    runs (Write (Bytes data)) t (λ n t', stream_ok t' ∧ n = Z.of_nat (length data) ∧ view t' = f_write data (view t));
  seek_refines t offset origin n : stream_ok t → offset_ok offset → origin_ok origin →
    f_target offset origin (view t) = Some n →
    runs (Seek offset origin) t (λ r t', stream_ok t' ∧ r = 0 ∧ view t' = f_goto n (view t));
  tell_refines t : stream_ok t →
    runs Tell t (λ n t', stream_ok t' ∧ n = Z.of_nat (fpos (view t)) ∧ view t' = view t);
  len_refines t : stream_ok t →
    runs Len t (λ n t', stream_ok t' ∧ n = Z.of_nat (length (fbytes (view t))) ∧ view t' = view t);
  eos_refines t : stream_ok t →
    runs EOS t (λ b t', stream_ok t' ∧ b = bool_decide (fpos (view t) = length (fbytes (view t))) ∧ view t' = view t)
}.

(** ** Numbers *)

Lemma le_bytes_length n v : length (le_bytes n v) = n.
Proof. revert v. induction n as [|n IH]; intros v; simpl; [done|]. by rewrite IH. Qed.

Lemma le_bytes_byte n v : Forall is_byte (le_bytes n v).
Proof.
  revert v. induction n as [|n IH]; intros v; simpl; constructor; [|apply IH]. by apply Z.mod_pos_bound.
Qed.

Lemma le_value_bytes n v : le_value (le_bytes n v) = v mod 2 ^ (8 * Z.of_nat n).
Proof.
  revert v. induction n as [|n IH]; intros v; [simpl; by rewrite Z.mod_1_r|].
  cbn [le_bytes le_value]. rewrite IH. replace (8 * Z.of_nat (S n)) with (8 + 8 * Z.of_nat n) by lia.
  rewrite Z.pow_add_r by lia. change (2 ^ 8) with 256.
  rewrite Z.rem_mul_r by lia. lia.
Qed.

Lemma le_value_range bs : Forall is_byte bs → 0 ≤ le_value bs < 2 ^ (8 * Z.of_nat (length bs)).
Proof.
  induction 1 as [|b bs Hb _ IH]; [simpl; lia|]. cbn [le_value length].
  replace (8 * Z.of_nat (S (length bs))) with (8 + 8 * Z.of_nat (length bs)) by lia.
  rewrite Z.pow_add_r by lia. unfold is_byte in Hb. change (2 ^ 8) with 256.
  set (P := 2 ^ (8 * Z.of_nat (length bs))) in *. clearbody P. lia.
Qed.

Lemma le_bytes_value bs : Forall is_byte bs → le_bytes (length bs) (le_value bs) = bs.
Proof.
  induction 1 as [|b bs Hb _ IH]; [done|]. cbn [le_value length le_bytes]. unfold is_byte in Hb.
  f_equal; [Z.to_euclidean_division_equations; lia|].
  replace ((b + 256 * le_value bs) / 256) with (le_value bs) by (Z.to_euclidean_division_equations; lia). done.
Qed.

(** Bytes of a word by masks and shifts. *)

Lemma byte_field n k : 0 ≤ k → Z.land n (Z.shiftl 255 k) = Z.shiftl ((n / 2 ^ k) mod 2 ^ 8) k.
Proof.
  intros Hk. apply Z.bits_inj'. intros i Hi. rewrite Z.land_spec, !Z.shiftl_spec by lia. change 255 with (Z.ones 8).
  destruct (decide (i < k)); [rewrite !(Z.testbit_neg_r _ (i - k)) by lia; apply andb_false_r|].
  rewrite Z.testbit_ones_nonneg by lia. destruct (Z.ltb_spec (i - k) 8) as [Hlt|Hge].
  - rewrite Z.mod_pow2_bits_low by lia. rewrite Z.div_pow2_bits by lia. rewrite andb_true_r. f_equal. lia.
  - rewrite Z.mod_pow2_bits_high by lia. apply andb_false_r.
Qed.

Lemma testbit_small a k i : 0 ≤ a < 2 ^ k → k ≤ i → 0 ≤ k → Z.testbit a i = false.
Proof.
  intros Ha Hi Hk. destruct (decide (a = 0)) as [->|]; [apply Z.bits_0|]. apply Z.bits_above_log2; [lia|].
  eapply Z.lt_le_trans; [|exact Hi]. apply Z.log2_lt_pow2; lia.
Qed.

Lemma lor_shift a b k : 0 ≤ a < 2 ^ k → 0 ≤ k → Z.lor (Z.shiftl b k) a = b * 2 ^ k + a.
Proof.
  intros Ha Hk. rewrite <- Z.shiftl_mul_pow2 by lia. assert (Hd : Z.land (Z.shiftl b k) a = 0).
  { apply Z.bits_inj'. intros i Hi. rewrite Z.land_spec, Z.bits_0.
    destruct (decide (i < k)); [by rewrite Z.shiftl_spec_low by lia|]. rewrite (testbit_small a k); auto using andb_false_r. lia. }
  by rewrite Z.add_nocarry_lxor, Z.lxor_lor.
Qed.

(** ** Files *)

Lemma f_read_length n f : 0 ≤ n → file_ok f → length (f_read n f) = (Z.to_nat n `min` (length (fbytes f) - fpos f))%nat.
Proof. intros Hn [Hp _]. unfold f_read. by rewrite length_take, length_drop. Qed.

(** What was written is read back. *)
Lemma f_write_read data f :
  (fpos f ≤ length (fbytes f))%nat → f_read (Z.of_nat (length data)) (f_goto (fpos f) (f_write data f)) = data.
Proof.
  intros Hp. unfold f_read, f_goto, f_write. simpl. rewrite Nat2Z.id.
  rewrite drop_app_ge by (rewrite length_take_le; lia). rewrite length_take_le by lia. rewrite Nat.sub_diag, drop_0.
  rewrite take_app_le by done. by apply take_ge.
Qed.

Lemma f_write_length data f :
  (fpos f ≤ length (fbytes f))%nat →
  length (fbytes (f_write data f)) = (length (fbytes f) `max` (fpos f + length data))%nat.
Proof. intros Hp. simpl. rewrite !length_app, length_take_le, length_drop by lia. lia. Qed.

(** ** The functions of scripts on a file *)

(** How many bytes a format has, and the value they are. *)
Definition format_value (d2f : Z → Z) (format : Z) : option (Z * (Z → value)) :=
  if isc format "l" then Some (4, λ v, VInt (s32 v))
  else if isc format "i" then Some (4, λ v, VInt (s32 v))
  else if isc format "s" then Some (2, λ v, VInt (s16 v))
  else if isc format "w" then Some (2, λ v, VInt v)
  else if isc format "c" then Some (1, λ v, VInt v)
  else if isc format "b" then Some (1, λ v, VInt v)
  else if isc format "f" then Some (4, VFloat)
  else if isc format "d" then Some (8, λ v, VFloat (d2f v))
  else None.

(** Calls of scripts. *)
Inductive sop :=
  | SReads (size : Z) | SReadblob (size : Z) | SReadn (format : Z)
  | SWrites (data : list Z) | SWriteblob (data : list Z) | SWriten (v : number) (format : Z)
  | SSeek (offset : Z) (origin : option Z) | STell | SLen | SEos.

Section ops.
Context (f2i i2f f2d d2f : Z → Z).

Definition stream_op {T} `{!SQStream T} (op : sop) : stM T outcome :=
  match op with
  | SReads n => _stream_reads n
  | SReadblob n => _stream_readblob n
  | SReadn fmt => _stream_readn d2f fmt
  | SWrites d => _stream_writes (Some d)
  | SWriteblob d => _stream_writeblob (OtherBlob d)
  | SWriten v fmt => _stream_writen f2i i2f f2d v fmt
  | SSeek o t => _stream_seek o t
  | STell => _stream_tell
  | SLen => _stream_len
  | SEos => _stream_eos
  end.

(** The same on bytes with a position. *)
Definition f_read_some (n : Z) (result : list Z → value) (f : file) : outcome * file :=
  let out := f_read (n `min` Z.of_nat (length (fbytes f))) f in
  (if decide (out = []) then Throw "no data left to read" else Return (Some (result out)), f_skip (length out) f).
Definition seek_origin (t : option Z) : option Z :=
  match t with
  | None => Some SQ_SEEK_SET
  | Some t =>
      if isc t "b" then Some SQ_SEEK_SET else if isc t "c" then Some SQ_SEEK_CUR
      else if isc t "e" then Some SQ_SEEK_END else None
  end.
Definition f_op (op : sop) (f : file) : outcome * file :=
  match op with
  | SReads n => f_read_some n VString f
  | SReadblob n => f_read_some n VBlob f
  | SReadn fmt =>
      match format_value d2f fmt with
      | Some (n, k) =>
          let out := f_read n f in
          (if Z.of_nat (length out) =? n then Return (Some (k (le_value out))) else Throw "io error", f_skip (length out) f)
      | None => (Throw "invalid format", f)
      end
  | SWrites d | SWriteblob d => (Return (Some (VInt (Z.of_nat (length d)))), f_write d f)
  | SWriten v fmt =>
      match format_bytes f2i i2f f2d fmt v with
      | Some bs => (Return None, f_write bs f)
      | None => (Throw "invalid format", f)
      end
  | SSeek o t =>
      match seek_origin t with
      | Some org => (Return (Some (VInt 0)), f_goto (default 0%nat (f_target o org f)) f)
      | None => (Throw "invalid origin", f)
      end
  | STell => (Return (Some (VInt (Z.of_nat (fpos f)))), f)
  | SLen => (Return (Some (VInt (Z.of_nat (length (fbytes f))))), f)
  | SEos => (Return (Some (if bool_decide (fpos f = length (fbytes f)) then VInt 1 else VNull)), f)
  end.

(** Sizes are not negative, what is written fits, and positions exist. *)
Definition sop_ok (op : sop) (f : file) : Prop :=
  match op with
  | SReads n | SReadblob n => 0 ≤ n
  | SWrites d | SWriteblob d => Forall is_byte d ∧ Z.of_nat (fpos f + length d) ≤ max_len
  | SWriten _ _ => Z.of_nat (fpos f) + 8 ≤ max_len
  | SSeek o t => offset_ok o ∧ ∀ org, seek_origin t = Some org → is_Some (f_target o org f)
  | SReadn _ | STell | SLen | SEos => True
  end.

Section client.
Context {T : Type} `{!SQStream T, !StreamRefines T}.

Lemma runs_setup (body : stM T outcome) t Q : stream_ok t → runs body t Q → runs (setup body) t Q.
Proof. intros Hok HQ. apply runs_bind, runs_gets. by rewrite valid_refines. Qed.

Lemma runs_read_some n result t :
  stream_ok t → 0 ≤ n →
  runs (read_some n result) t (λ o t', stream_ok t' ∧ (o, view t') = f_read_some n result (view t)).
Proof.
  intros Hok Hn. apply runs_bind. eapply runs_mono; [by apply len_refines|]. intros len t1 (Hok1 & -> & Hv1).
  destruct (stream_ok_file t Hok) as [_ Hmax].
  replace (if _ <? n then _ else n) with (n `min` Z.of_nat (length (fbytes (view t)))) by (case_match; bool_to_prop; lia).
  apply runs_bind. eapply runs_mono; [apply read_refines; [done|unfold max_len in *; lia]|].
  intros out t2 (Hok2 & -> & Hv2). rewrite Hv1 in *. unfold f_read_some.
  destruct (decide _); apply runs_ret; (split; [done|]); by rewrite Hv2.
Qed.

Lemma runs_readn n k t :
  stream_ok t → 0 ≤ n ≤ max_len →
  runs (SAFE_READN n k) t (λ o t', stream_ok t' ∧
    (o, view t') = (if Z.of_nat (length (f_read n (view t))) =? n then Return (Some (k (le_value (f_read n (view t))))) else Throw "io error",
                    f_skip (length (f_read n (view t))) (view t))).
Proof.
  intros Hok Hn. apply runs_bind. eapply runs_mono; [by apply read_refines|]. intros out t1 (Hok1 & -> & Hv1).
  destruct (_ =? _); apply runs_ret; (split; [done|]); by rewrite Hv1.
Qed.

Lemma runs_write_data d t :
  stream_ok t → Forall is_byte d → Z.of_nat (fpos (view t) + length d) ≤ max_len →
  runs (write_data (Bytes d)) t (λ o t', stream_ok t' ∧ (o, view t') = (Return (Some (VInt (Z.of_nat (length d)))), f_write d (view t))).
Proof.
  intros Hok Hd Hfit. apply runs_bind. eapply runs_mono; [by apply write_refines|]. intros n t1 (Hok1 & -> & Hv1).
  cbn [source_size]. rewrite Z.eqb_refl. apply runs_ret. split; [done|]. by rewrite Hv1.
Qed.

Lemma format_bytes_ok fmt v bs :
  format_bytes f2i i2f f2d fmt v = Some bs → Forall is_byte bs ∧ (length bs ≤ 8)%nat.
Proof.
  unfold format_bytes. intros Hbs. repeat case_match; try done; apply (inj Some) in Hbs as <-;
    (split; [apply le_bytes_byte|rewrite le_bytes_length; lia]).
Qed.

(** A call of a script on a stream is the call on its file. *)
Lemma stream_op_refines op t :
  stream_ok t → sop_ok op (view t) →
  runs (stream_op op) t (λ o t', stream_ok t' ∧ (o, view t') = f_op op (view t)).
Proof.
  intros Hok Hop. assert (Hmax := proj2 (stream_ok_file t Hok)).
  destruct op as [n|n|fmt|d|d|v fmt|o org| | |]; simpl in Hop; apply runs_setup; try done.
  - by apply runs_read_some.
  - by apply runs_read_some.
  - simpl. unfold format_value. repeat (case_match; [apply runs_readn; [done|unfold max_len; lia]|]). by apply runs_ret.
  - destruct Hop. by apply runs_write_data.
  - destruct Hop. by apply runs_write_data.
  - simpl. destruct (format_bytes f2i i2f f2d fmt v) as [bs|] eqn:Hbs; [|by apply runs_ret].
    apply format_bytes_ok in Hbs as [Hb Hl]. apply runs_bind. eapply runs_mono; [apply write_refines; [done|done|lia]|].
    intros n t1 (Hok1 & -> & Hv1). apply runs_ret. split; [done|]. by rewrite Hv1.
  - destruct Hop as [Ho Horg]. simpl. fold (seek_origin org). destruct (seek_origin org) as [g|] eqn:Hg; [|by apply runs_ret].
    destruct (Horg g eq_refl) as [n Hn]. rewrite Hn. apply runs_bind. eapply runs_mono.
    + apply seek_refines; [done|done| |done]. unfold seek_origin in Hg. unfold origin_ok. repeat case_match; simplify_eq; auto.
    + intros r t1 (Hok1 & -> & Hv1). apply runs_ret. split; [done|]. by rewrite Hv1.
  - apply runs_bind. eapply runs_mono; [by apply tell_refines|]. intros r t1 (Hok1 & -> & Hv1). apply runs_ret.
    split; [done|]. by rewrite Hv1.
  - apply runs_bind. eapply runs_mono; [by apply len_refines|]. intros r t1 (Hok1 & -> & Hv1). apply runs_ret.
    split; [done|]. by rewrite Hv1.
  - apply runs_bind. eapply runs_mono; [by apply eos_refines|]. intros r t1 (Hok1 & -> & Hv1). apply runs_ret.
    split; [done|]. by rewrite Hv1.
Qed.
End client.
End ops.

(** ** Files of the C library as streams *)

(** An open file that can be read and written behaves like bytes with a
    position, as the C standard says of binary files. *)
Class StdioLaws (H : Type) `{!Stdio H} := {
  hview : H → file;
  handle_ok : H → Prop;
  handle_ok_file h : handle_ok h → file_ok (hview h) ∧ Z.of_nat (length (fbytes (hview h))) ≤ max_len;
  fread_spec h n : handle_ok h → 0 ≤ n ≤ max_len →
    runs (fread n) h (λ out h', handle_ok h' ∧ out = f_read n (hview h) ∧ hview h' = f_skip (length out) (hview h));
  fwrite_spec h data : handle_ok h → Forall is_byte data → Z.of_nat (fpos (hview h) + length data) ≤ max_len →
    runs (fwrite data) h (λ n h', handle_ok h' ∧ n = Z.of_nat (length data) ∧ hview h' = f_write data (hview h));
  fseek_spec h offset origin corigin n : handle_ok h → offset_ok offset →
    (origin, corigin) ∈ [(SQ_SEEK_SET, SEEK_SET); (SQ_SEEK_CUR, SEEK_CUR); (SQ_SEEK_END, SEEK_END)] →
    f_target offset origin (hview h) = Some n →
    runs (fseek offset corigin) h (λ r h', handle_ok h' ∧ r = 0 ∧ hview h' = f_goto n (hview h));
  ftell_spec h : handle_ok h →
    runs ftell h (λ n h', handle_ok h' ∧ n = Z.of_nat (fpos (hview h)) ∧ hview h' = hview h)
}.

Section sqfile.
Context {H : Type} `{!Stdio H, !StdioLaws H}.

Definition fview (f : SQFile.t H) : file := match f with Some h => hview h | None => mkFile [] 0 end.
Definition file_open (f : SQFile.t H) : Prop := ∃ h, f = Some h ∧ handle_ok h.

Lemma runs_handle {A} (m : stM H A) h (Q : A → file → Prop) :
  runs m h (λ a h', handle_ok h' ∧ Q a (hview h')) →
  runs (SQFile.with_handle m) (Some h) (λ a f', file_open f' ∧ Q a (fview f')).
Proof.
  unfold runs, SQFile.with_handle. destruct (m h) as [[a h']|]; [|done]. intros [? ?]. split; [by exists h'|done].
Qed.

Lemma file_tell f : file_open f →
  runs SQFile.Tell f (λ n f', file_open f' ∧ n = Z.of_nat (fpos (fview f)) ∧ fview f' = fview f).
Proof. intros (h & -> & Hok). apply (runs_handle ftell h (λ n v, n = _ ∧ v = _)). by apply ftell_spec. Qed.

Lemma file_seek f offset origin n :
  file_open f → offset_ok offset → origin_ok origin → f_target offset origin (fview f) = Some n →
  runs (SQFile.Seek offset origin) f (λ r f', file_open f' ∧ r = 0 ∧ fview f' = f_goto n (fview f)).
Proof.
  intros (h & -> & Hok) Ho Horg Hn. apply (runs_handle (SQFile.sqstd_fseek offset origin) h (λ r v, r = 0 ∧ v = _)).
  unfold SQFile.sqstd_fseek.
  destruct Horg as [->|[->| ->]]; eapply fseek_spec; try done; repeat constructor.
Qed.

(** [Len] moves to the end and back. *)
Lemma file_len f : file_open f →
  runs SQFile.Len f (λ n f', file_open f' ∧ n = Z.of_nat (length (fbytes (fview f))) ∧ fview f' = fview f).
Proof.
  intros Hf. assert (Hfile : file_ok (fview f) ∧ Z.of_nat (length (fbytes (fview f))) ≤ max_len).
  { destruct Hf as (h & -> & Hok). by apply handle_ok_file. }
  destruct Hfile as [[Hp _] Hmax]. unfold max_len in Hmax.
  apply runs_bind. eapply runs_mono; [by apply file_tell|]. intros n f1 (Hf1 & -> & Hv1).
  apply runs_bind. eapply runs_mono; [eapply (file_seek f1 0 SQ_SEEK_END (length (fbytes (fview f))))|].
  - done.
  - by split.
  - by right; right.
  - rewrite Hv1. unfold f_target. simpl. rewrite Z.add_0_r. rewrite decide_True by lia. by rewrite Nat2Z.id.
  - intros r f2 (Hf2 & _ & Hv2). apply runs_bind. eapply runs_mono; [by apply file_tell|]. intros n f3 (Hf3 & -> & Hv3).
    apply runs_bind. eapply runs_mono; [eapply (file_seek f3 _ SQ_SEEK_SET (fpos (fview f)))|].
    + done.
    + split; lia.
    + by left.
    + rewrite Hv3, Hv2, Hv1. unfold f_target. simpl. rewrite decide_True by lia. by rewrite Nat2Z.id.
    + intros r' f4 (Hf4 & _ & Hv4). apply runs_ret. split_and!; [done|by rewrite Hv2|].
      rewrite Hv4, Hv3, Hv2, Hv1. by destruct (fview f).
Qed.

#[export] Program Instance file_refines : StreamRefines (SQFile.t H) := {
  view := fview; stream_ok := file_open
}.
Next Obligation. intros t (h & -> & Hok). by apply handle_ok_file. Qed.
Next Obligation. intros t (h & -> & Hok). done. Qed.
Next Obligation.
  intros t n (h & -> & Hok) Hn. apply (runs_handle (fread n) h (λ out v, out = _ ∧ v = f_skip (length out) _)).
  by apply fread_spec.
Qed.
Next Obligation.
  intros t d (h & -> & Hok) Hd Hn. apply (runs_handle (fwrite d) h (λ n v, n = _ ∧ v = _)). by apply fwrite_spec.
Qed.
Next Obligation. intros. by apply file_seek. Qed.
Next Obligation. intros. by apply file_tell. Qed.
Next Obligation. intros. by apply file_len. Qed.
Next Obligation.
  intros t Ht. apply runs_bind. eapply runs_mono; [by apply file_tell|]. intros n f1 (Hf1 & -> & Hv1).
  apply runs_bind. eapply runs_mono; [by apply file_len|]. intros n f2 (Hf2 & -> & Hv2). apply runs_ret.
  rewrite Hv2, Hv1. split_and!; [done| |done]. apply eq_bool_prop_intro. rewrite bool_decide_spec. split.
  - intros ?%Is_true_true%Z.eqb_eq. lia.
  - intros ->. by rewrite Z.eqb_refl.
Qed.
End sqfile.
