(* ===== verification/SqBlob.v ===== *)
(** * Blobs (sqstdblobimpl.h, sqstdblob.cpp)

    A blob is a buffer with a size, a capacity and a position.  It implements
    the stream interface of SqStream.v; a trace of calls of a script, those of
    the stream and those of the blob, has the results it has on bytes with a
    position. *)

From Stdlib Require Import Ascii.
From stdpp Require Import base numbers strings option list.
From S2P Require Import Prelude CType SqStream.

Open Scope Z_scope.

Record SQBlob := mkBlob { _size : Z; _allocated : Z; _ptr : Z; _buf : list Z; _owns : bool }.

(** [memcpy] into a buffer. *)
Definition memcpy (off : Z) (data buf : list Z) : res (list Z) :=
  if decide (0 ≤ off ∧ off + Z.of_nat (length data) ≤ Z.of_nat (length buf))
  then Ok (take (Z.to_nat off) buf ++ data ++ drop (Z.to_nat off + length data) buf)
  else Err OutOfBounds.

(** [n] bytes of a buffer, for [memcpy] from it; a negative count is a very
    large one. *)
Definition bytes_at (off n : Z) (buf : list Z) : res (list Z) :=
  if decide (0 ≤ off ∧ 0 ≤ n ∧ off + n ≤ Z.of_nat (length buf))
  then Ok (take (Z.to_nat n) (drop (Z.to_nat off) buf))
  else Err OutOfBounds.

(** [sq_malloc] and [memset] to zero; no target has room for a size that is
    negative as a signed number. *)
Definition zeroed (n : Z) : res (list Z) :=
  if n <? 0 then Err OutOfBounds else Ok (replicate (Z.to_nat n) 0).

Module SQBlob.

(** The constructor *)
Definition new (size : Z) : res SQBlob :=
  buf ← zeroed size;
  Ok (mkBlob size size 0 buf true).

Definition CanAdvance (n : Z) (b : SQBlob) : bool := negb (_size b <? s32 (_ptr b + n)).

Definition Resize (n : Z) : stM SQBlob bool := λ b,
  if negb (_owns b) then Ok (false, b)
  else if n =? _allocated b then Ok (true, b)
  else
    newbuf ← zeroed n;
    data ← bytes_at 0 (if n <? _size b then n else _size b) (_buf b);
    newbuf ← memcpy 0 data newbuf;
    let size := if n <? _size b then n else _size b in
    let ptr := if n <? _ptr b then n else _ptr b in
    Ok (true, mkBlob size n ptr newbuf (_owns b)).

Definition GrowBufOf (n : Z) : stM SQBlob bool := λ b,
  '(ret, b) ← (if _allocated b <? s32 (_size b + n) then
                 if s32 (_size b * 2) <? s32 (_size b + n) then Resize (s32 (_size b + n)) b
                 else Resize (s32 (_size b * 2)) b
               else Ok (true, b));
  Ok (ret, mkBlob (s32 (_size b + n)) (_allocated b) (_ptr b) (_buf b) (_owns b)).

(** What [memcpy] finds in the source: if that is the buffer [b] had, it is freed
    when the blob has another one now, and must not overlap the destination. *)
Definition source_bytes (src : source) (b b' : SQBlob) : res (list Z) :=
  match src with
  | Bytes data => Ok data
  | Own size =>
      if negb (_allocated b' =? _allocated b) then Err UseAfterFree
      else if (0 <? size) && (_ptr b' <? size) then Err Overlap
      else bytes_at 0 size (_buf b')
  end.

Definition Write (src : source) : stM SQBlob Z := λ b0,
  let size := source_size src in
  '(_, b) ← (if CanAdvance size b0 then Ok (true, b0) else GrowBufOf (s32 (_ptr b0 + size - _size b0)) b0);
  data ← source_bytes src b0 b;
  buf ← memcpy (_ptr b) data (_buf b);
  Ok (size, mkBlob (_size b) (_allocated b) (s32 (_ptr b + size)) buf (_owns b)).

Definition Read (size : Z) : stM SQBlob (list Z) := λ b,
  if negb (CanAdvance size b) && (_size b - _ptr b <=? 0) then Ok ([], b)
  else
    let n := if CanAdvance size b then size else _size b - _ptr b in
    data ← bytes_at (_ptr b) n (_buf b);
    Ok (data, mkBlob (_size b) (_allocated b) (_ptr b + n) (_buf b) (_owns b)).

Definition set_ptr (p : Z) (b : SQBlob) : SQBlob := mkBlob (_size b) (_allocated b) p (_buf b) (_owns b).

Definition Seek (offset origin : Z) : stM SQBlob Z := λ b,
  if origin =? SQ_SEEK_SET then
    if (_size b <? offset) || (offset <? 0) then Ok (-1, b) else Ok (0, set_ptr offset b)
  else if origin =? SQ_SEEK_CUR then
    if (_size b <? s32 (_ptr b + offset)) || (s32 (_ptr b + offset) <? 0) then Ok (-1, b)
    else Ok (0, set_ptr (s32 (_ptr b + offset)) b)
  else if origin =? SQ_SEEK_END then
    if (_size b <? s32 (_size b + offset)) || (s32 (_size b + offset) <? 0) then Ok (-1, b)
    else Ok (0, set_ptr (s32 (_size b + offset)) b)
  else Ok (-1, b).

(** The buffer is never null here. *)
Definition IsValid (b : SQBlob) : bool := true.
Definition EOS : stM SQBlob bool := gets (λ b, _ptr b =? _size b).
Definition Flush : stM SQBlob Z := mret 0.
Definition Tell : stM SQBlob Z := gets _ptr.
Definition Len : stM SQBlob Z := gets _size.

#[global] Instance blob_stream : SQStream SQBlob := {
  SqStream.Read := Read; SqStream.Write := Write; SqStream.Flush := Flush; SqStream.Tell := Tell;
  SqStream.Len := Len; SqStream.Seek := Seek; SqStream.IsValid := IsValid; SqStream.EOS := EOS
}.
End SQBlob.

(** ** The functions of scripts *)

Definition __swap_dword (n : Z) : Z :=
  Z.lor (Z.lor (Z.lor (Z.shiftr (Z.land n 0xFF000000) 24) (Z.shiftr (Z.land n 0x00FF0000) 8))
               (Z.shiftl (Z.land n 0x0000FF00) 8)) (Z.shiftl (Z.land n 0x000000FF) 24).
Definition __swap_word (n : Z) : Z :=
  u16 (Z.lor (u16 (Z.land (Z.shiftr n 8) 0x00FF)) (Z.land (Z.shiftl n 8) 0xFF00)).

(** The loops of [_blob_swap4] and [_blob_swap2]: [f] on the first [num] words
    of [w] bytes. *)
Fixpoint map_words (w : nat) (f : Z → Z) (num : nat) (buf : list Z) : list Z :=
  match num with
  | O => buf
  | S num' => le_bytes w (f (le_value (take w buf))) ++ map_words w f num' (drop w buf)
  end.

(** An argument: null, a number, or something else. *)
Inductive arg := ANull | ANumber (n : number) | AOther.

Definition number_value (n : number) : value := match n with NInt i => VInt i | NFloat b => VFloat b end.

Section natives.
Context (f2i : Z → Z).

(** [SETUP_BLOB] *)
Definition setup_blob (body : stM SQBlob outcome) : stM SQBlob outcome :=
  valid ← gets SQBlob.IsValid;
  if (valid : bool) then body else mret (Throw "the blob is invalid").

Definition _blob_resize (size : Z) : stM SQBlob outcome :=
  setup_blob (r ← SQBlob.Resize size; mret (if (r : bool) then Return None else Throw "resize failed")).

Definition swap_words (w : nat) (f : Z → Z) : stM SQBlob outcome :=
  _ ← modify (λ b, mkBlob (_size b) (_allocated b) (_ptr b) (map_words w f (Z.to_nat (_size b / Z.of_nat w)) (_buf b)) (_owns b));
  mret (Return None).
Definition _blob_swap4 : stM SQBlob outcome := setup_blob (swap_words 4 __swap_dword).
Definition _blob_swap2 : stM SQBlob outcome := setup_blob (swap_words 2 __swap_word).

Definition _blob__set (idx : Z) (val : number) : stM SQBlob outcome :=
  setup_blob (λ b,
    if (idx <? 0) || (_size b <=? idx) then Ok (Throw "index out of range", b)
    else
      buf ← memcpy idx [u8 (sq_getinteger f2i val)] (_buf b);
      Ok (Return (Some (number_value val)), mkBlob (_size b) (_allocated b) (_ptr b) buf (_owns b))).

Definition _blob__get (idx : arg) : stM SQBlob outcome :=
  setup_blob (λ b,
    match idx with
    | ANumber n =>
        let idx := sq_getinteger f2i n in
        if (idx <? 0) || (_size b <=? idx) then Ok (Throw "index out of range", b)
        else data ← bytes_at idx 1 (_buf b); Ok (Return (VInt <$> head data), b)
    | _ => Ok (ThrowNull, b)
    end).

Definition _blob__nexti (idx : arg) : stM SQBlob outcome :=
  setup_blob (λ b,
    match idx with
    | ANull => Ok (Return (Some (VInt 0)), b)
    | ANumber n =>
        let idx := s32 (sq_getinteger f2i n + 1) in
        Ok (Return (Some (if idx <? _size b then VInt idx else VNull)), b)
    | AOther => Ok (Throw "internal error (_nexti) wrong argument type", b)
    end).

Definition _blob_constructor (size : option Z) : res (string + SQBlob) :=
  let size := default 0 size in
  if size <? 0 then Ok (inl "cannot create blob with negative size"%string)
  else b ← SQBlob.new size; Ok (inr b).

Definition _blob__cloned (other : SQBlob) : res SQBlob :=
  thisone ← SQBlob.new (_size other);
  data ← bytes_at 0 (_size thisone) (_buf other);
  buf ← memcpy 0 data (_buf thisone);
  Ok (mkBlob (_size thisone) (_allocated thisone) (_ptr thisone) buf (_owns thisone)).

(** Functions of the library that do not take a blob. *)
Definition _g_blob_casti2f (i : Z) : value := VFloat (u32 i).
Definition _g_blob_castf2i (bits : Z) : value := VInt (s32 bits).
Definition _g_blob_swap2 (i : Z) : value :=
  let s := s16 i in VInt (Z.lor (Z.shiftl s 8) (Z.land (Z.shiftr s 8) 0x00FF)).
Definition _g_blob_swap4 (i : Z) : value := VInt (s32 (__swap_dword (u32 i))).
Definition _g_blob_swapfloat (bits : Z) : value := VFloat (__swap_dword (u32 bits)).
End natives.

(** ** The invariant and the contents *)

Record blob_ok (b : SQBlob) : Prop := {
  bo_owns : _owns b = true;
  bo_ptr : 0 ≤ _ptr b ≤ _size b;
  bo_size : _size b ≤ _allocated b;
  bo_max : _size b ≤ max_len;
  bo_buf : Z.of_nat (length (_buf b)) = _allocated b;
  bo_bytes : Forall is_byte (_buf b)
}.

Definition blob_file (b : SQBlob) : file := mkFile (take (Z.to_nat (_size b)) (_buf b)) (Z.to_nat (_ptr b)).

Lemma blob_file_length b : blob_ok b → length (fbytes (blob_file b)) = Z.to_nat (_size b).
Proof. intros []. simpl. rewrite length_take. lia. Qed.

Lemma blob_file_ok b : blob_ok b → file_ok (blob_file b) ∧ Z.of_nat (length (fbytes (blob_file b))) ≤ max_len.
Proof.
  intros Hok. pose proof (blob_file_length b Hok) as Hl. destruct Hok. split; [split|].
  - rewrite Hl. simpl. lia.
  - by apply Forall_take.
  - rewrite Hl. lia.
Qed.

Lemma memcpy_ok off data buf :
  0 ≤ off → off + Z.of_nat (length data) ≤ Z.of_nat (length buf) →
  memcpy off data buf = Ok (take (Z.to_nat off) buf ++ data ++ drop (Z.to_nat off + length data) buf).
Proof. intros. unfold memcpy. by rewrite decide_True. Qed.

Lemma bytes_at_ok off n buf :
  0 ≤ off → 0 ≤ n → off + n ≤ Z.of_nat (length buf) →
  bytes_at off n buf = Ok (take (Z.to_nat n) (drop (Z.to_nat off) buf)).
Proof. intros. unfold bytes_at. by rewrite decide_True. Qed.

Lemma overwrite_length (p : nat) (data buf : list Z) :
  (p + length data ≤ length buf)%nat → length (take p buf ++ data ++ drop (p + length data) buf) = length buf.
Proof. intros. rewrite !length_app, length_take_le, length_drop by lia. lia. Qed.

Lemma overwrite_bytes (p : nat) (data buf : list Z) :
  Forall is_byte buf → Forall is_byte data → Forall is_byte (take p buf ++ data ++ drop (p + length data) buf).
Proof. intros. repeat apply Forall_app_2; auto using Forall_take, Forall_drop. Qed.

(** Overwriting inside the first [s] bytes. *)
Lemma take_overwrite (p s : nat) (data buf : list Z) :
  (p + length data ≤ s ≤ length buf)%nat →
  take s (take p buf ++ data ++ drop (p + length data) buf) =
  take p (take s buf) ++ data ++ drop (p + length data) (take s buf).
Proof.
  intros Hs. rewrite take_app_ge by (rewrite length_take_le; lia). rewrite length_take_le by lia.
  rewrite take_app_ge by lia. rewrite take_take, Nat.min_l by lia. f_equal. f_equal.
  rewrite take_drop_commute. f_equal. f_equal. lia.
Qed.

Lemma bind_ok_res {A B} (a : A) (f : A → res B) : (Ok a ≫= f) = f a.
Proof. done. Qed.

(** Resizing keeps the bytes that fit. *)
Lemma blob_resize n b :
  blob_ok b → 0 ≤ n →
  runs (SQBlob.Resize n) b (λ r b', r = true ∧ blob_ok b' ∧ _allocated b' = n ∧
    _size b' = _size b `min` n ∧ _ptr b' = _ptr b `min` n ∧ fbytes (blob_file b') = take (Z.to_nat n) (fbytes (blob_file b))).
Proof.
  intros [Hown Hptr Hsz Hmax Hbuf Hby] Hn. unfold runs, SQBlob.Resize. rewrite Hown. cbn [negb].
  destruct (Z.eqb_spec n (_allocated b)) as [->|Hne].
  { split_and!; try done; [lia|lia|]. simpl. rewrite take_take. f_equal. lia. }
  unfold zeroed. rewrite (proj2 (Z.ltb_ge n 0)) by lia. rewrite bind_ok_res.
  replace (if n <? _size b then n else _size b) with (_size b `min` n) by (case_match; bool_to_prop; lia).
  replace (if n <? _ptr b then n else _ptr b) with (_ptr b `min` n) by (case_match; bool_to_prop; lia).
  rewrite bytes_at_ok by lia. rewrite bind_ok_res. change (Z.to_nat 0) with 0%nat. rewrite drop_0.
  set (k := Z.to_nat (_size b `min` n)). assert (Hk : length (take k (_buf b)) = k) by (rewrite length_take; lia).
  rewrite memcpy_ok; [|lia|rewrite Hk, length_replicate; lia]. rewrite bind_ok_res. simpl. rewrite Hk.
  split_and!; try done.
  - split; simpl; try done; try lia.
    + rewrite length_app, Hk, length_drop, length_replicate. lia.
    + apply Forall_app_2; [by apply Forall_take|]. apply Forall_drop, Forall_replicate. by split.
  - fold k. rewrite take_app_le by lia. rewrite take_take, take_take. f_equal. lia.
Qed.

(** Growing by [n] bytes. *)
Lemma blob_grow n b :
  blob_ok b → 0 < n → _size b + n ≤ max_len →
  runs (SQBlob.GrowBufOf n) b (λ _ b', blob_ok b' ∧ _size b' = _size b + n ∧ _ptr b' = _ptr b ∧
    take (Z.to_nat (_size b)) (_buf b') = fbytes (blob_file b)).
Proof.
  intros Hok Hn Hfit. pose proof Hok as [Hown Hptr Hsz Hmax Hbuf Hby]. unfold max_len in *.
  unfold runs, SQBlob.GrowBufOf. rewrite !s32_small by lia.
  destruct (Z.ltb_spec (_allocated b) (_size b + n)) as [Hlt|Hge].
  - replace (if _ <? _ then _ else _) with (SQBlob.Resize (_size b + n `max` _size b) b) by (case_match; bool_to_prop; f_equal; lia).
    destruct (proj1 (runs_ok _ _ _) (blob_resize (_size b + n `max` _size b) b Hok ltac:(lia)))
      as (r & b' & -> & _ & Hok' & Hall & Hs & Hp & Hf).
    destruct Hok'. rewrite bind_ok_res. simpl. rewrite Z.min_l in Hs, Hp by lia. rewrite Hs, Hp.
    rewrite s32_small by lia. split_and!; try done.
    + split; simpl; try done; unfold max_len; lia.
    + simpl in Hf. rewrite Hs, take_take in Hf. rewrite Hf. f_equal. lia.
  - rewrite bind_ok_res. simpl. rewrite s32_small by lia. split_and!; try done. split; simpl; try done; unfold max_len; lia.
Qed.

Lemma blob_write b data :
  blob_ok b → Forall is_byte data → Z.of_nat (fpos (blob_file b) + length data) ≤ max_len →
  runs (SQBlob.Write (Bytes data)) b (λ n b', blob_ok b' ∧ n = Z.of_nat (length data) ∧ blob_file b' = f_write data (blob_file b)).
Proof.
  intros Hok Hd Hfit. pose proof Hok as [Hown Hptr Hsz Hmax Hbuf Hby]. simpl in Hfit.
  unfold runs, SQBlob.Write, SQBlob.CanAdvance. cbn [source_size SQBlob.source_bytes]. unfold max_len in Hmax, Hfit. rewrite !s32_small by lia.
  set (k := length data) in *. destruct (Z.ltb_spec (_size b) (_ptr b + Z.of_nat k)) as [Hlt|Hge]; cbn [negb].
  - destruct (proj1 (runs_ok _ _ _) (blob_grow (_ptr b + Z.of_nat k - _size b) b Hok ltac:(lia) ltac:(unfold max_len; lia)))
      as (r & b' & -> & Hok' & Hs & Hp & Hf). rewrite !bind_ok_res. pose proof Hok' as [Hown' Hptr' Hsz' Hmax' Hbuf' Hby'].
    rewrite memcpy_ok by (fold k; lia). rewrite bind_ok_res. fold k. rewrite s32_small by lia.
    split_and!; [|done|].
    + split; simpl; try done; try lia. { rewrite overwrite_length by (fold k; lia). done. } by apply overwrite_bytes.
    + unfold blob_file, f_write. simpl. fold k. f_equal; [|lia].
      rewrite take_overwrite by (fold k; lia). fold k. rewrite Hp. rewrite (drop_ge (take _ (_buf b'))), (drop_ge (take _ (_buf b))) by (rewrite length_take; lia).
      f_equal. simpl in Hf. rewrite <- Hf. rewrite !take_take. f_equal. lia.
  - rewrite !bind_ok_res, memcpy_ok by (fold k; lia). rewrite bind_ok_res. fold k. rewrite s32_small by lia.
    split_and!; [|done|].
    + split; simpl; try done; try lia. { rewrite overwrite_length by (fold k; lia). done. } by apply overwrite_bytes.
    + unfold blob_file, f_write. simpl. fold k. f_equal; [|lia]. rewrite take_overwrite by (fold k; lia). done.
Qed.

Lemma blob_read b n :
  blob_ok b → 0 ≤ n ≤ max_len →
  runs (SQBlob.Read n) b (λ out b', blob_ok b' ∧ out = f_read n (blob_file b) ∧ blob_file b' = f_skip (length out) (blob_file b)).
Proof.
  intros Hok Hn. pose proof Hok as [Hown Hptr Hsz Hmax Hbuf Hby]. unfold max_len in *.
  unfold runs, SQBlob.Read, SQBlob.CanAdvance, f_read. simpl. rewrite s32_small by lia.
  assert (Hrest : drop (Z.to_nat (_ptr b)) (take (Z.to_nat (_size b)) (_buf b)) =
    take (Z.to_nat (_size b - _ptr b)) (drop (Z.to_nat (_ptr b)) (_buf b))).
  { rewrite take_drop_commute. f_equal. f_equal. lia. }
  rewrite Hrest, take_take.
  destruct (negb _ && _) eqn:Hend.
  { apply andb_true_iff in Hend as [_ Hz%Z.leb_le]. replace (Z.to_nat (_size b - _ptr b)) with 0%nat by lia.
    rewrite Nat.min_0_r. split_and!; [done|done|]. unfold f_skip. simpl. by rewrite Nat.add_0_r. }
  set (m := if negb (_size b <? _ptr b + n) then n else _size b - _ptr b).
  assert (Hm : m = n `min` (_size b - _ptr b)) by (unfold m; destruct (Z.ltb_spec (_size b) (_ptr b + n)); simpl; lia).
  rewrite bytes_at_ok by lia. rewrite bind_ok_res. rewrite Hm, Z2Nat.inj_min.
  assert (Hlen : length (take (Z.to_nat n `min` Z.to_nat (_size b - _ptr b)) (drop (Z.to_nat (_ptr b)) (_buf b))) =
    Z.to_nat (n `min` (_size b - _ptr b))) by (rewrite length_take, length_drop; lia).
  split_and!; [|done|].
  - split; simpl; try done; unfold max_len; lia.
  - unfold f_skip, blob_file. simpl. rewrite Hlen. f_equal. lia.
Qed.

Lemma blob_seek b offset origin :
  blob_ok b → offset_ok offset → origin_ok origin →
  runs (SQBlob.Seek offset origin) b (λ r b', blob_ok b' ∧
    match f_target offset origin (blob_file b) with
    | Some n => r = 0 ∧ blob_file b' = f_goto n (blob_file b)
    | None => r = -1 ∧ b' = b
    end).
Proof.
  intros Hok Ho Horg. pose proof (blob_file_length b Hok) as Hlen. pose proof Hok as [Hown Hptr Hsz Hmax Hbuf Hby].
  unfold max_len, offset_ok in *.
  assert (Hset : ∀ z, 0 ≤ z ≤ _size b → blob_ok (SQBlob.set_ptr z b) ∧ blob_file (SQBlob.set_ptr z b) = f_goto (Z.to_nat z) (blob_file b)).
  { intros z Hz. split; [split; simpl; try done; unfold max_len; lia|done]. }
  assert (Hwrap : ∀ z, 0 ≤ z ≤ _size b → (_size b <? s32 (z + offset)) || (s32 (z + offset) <? 0) = false → s32 (z + offset) = z + offset ∧ 0 ≤ z + offset ≤ _size b).
  { intros z Hz [H1%Z.ltb_ge H2%Z.ltb_ge]%orb_false_iff. destruct (decide (z + offset < 2 ^ 31)) as [Hlt|Hge].
    - rewrite s32_small in * by lia. lia.
    - exfalso. unfold s32, u32, wrap in *. rewrite Z.mod_small in * by lia. destruct (Z.ltb_spec (z + offset) (2 ^ 31)); lia. }
  assert (Hwrap' : ∀ z, 0 ≤ z ≤ _size b → (_size b <? s32 (z + offset)) || (s32 (z + offset) <? 0) = true → ¬ (0 ≤ z + offset ≤ _size b)).
  { intros z Hz [H1%Z.ltb_lt|H1%Z.ltb_lt]%orb_true_iff Hin; rewrite s32_small in H1 by lia; lia. }
  unfold runs, SQBlob.Seek, f_target. rewrite Hlen, Z2Nat.id by lia. simpl. rewrite (Z2Nat.id (_ptr b)) by lia.
  destruct Horg as [->|[->| ->]]; simpl.
  - destruct (_ || _) eqn:Hc.
    + rewrite decide_False; [done|]. apply orb_true_iff in Hc as [?%Z.ltb_lt|?%Z.ltb_lt]; lia.
    + apply orb_false_iff in Hc as [?%Z.ltb_ge ?%Z.ltb_ge]. rewrite decide_True by lia. split; [|split]; try done; by apply Hset.
  - destruct (_ || _) eqn:Hc.
    + rewrite decide_False; [done|]. by apply Hwrap'.
    + apply Hwrap in Hc as [-> Hin]; [|done]. rewrite decide_True by done. split; [|split]; try done; by apply Hset.
  - destruct (_ || _) eqn:Hc.
    + rewrite decide_False; [done|]. apply Hwrap'; [lia|done].
    + apply Hwrap in Hc as [-> Hin]; [|lia]. rewrite decide_True by done. split; [|split]; try done; by apply Hset.
Qed.

#[export] Program Instance blob_refines : StreamRefines SQBlob := { view := blob_file; stream_ok := blob_ok }.
Next Obligation. apply blob_file_ok. Qed.
Next Obligation. done. Qed.
Next Obligation. apply blob_read. Qed.
Next Obligation. apply blob_write. Qed.
Next Obligation.
  intros b offset origin n Hok Ho Horg Hn. eapply runs_mono; [by apply blob_seek|]. intros r b' [Hok' H].
  rewrite Hn in H. done.
Qed.
Next Obligation. intros b Hok. split_and!; [done| |done]. simpl. destruct Hok. lia. Qed.
Next Obligation. intros b Hok. split_and!; [done| |done]. rewrite blob_file_length by done. destruct Hok. lia. Qed.
Next Obligation.
  intros b Hok. split_and!; [done| |done]. rewrite blob_file_length by done. simpl. destruct Hok.
  destruct (Z.eqb_spec (_ptr b) (_size b)) as [->|Hne]; symmetry; [by apply bool_decide_eq_true|].
  apply bool_decide_eq_false. lia.
Qed.

(** ** Byte order *)

Lemma swap_dword_value a b c d :
  is_byte a → is_byte b → is_byte c → is_byte d →
  __swap_dword (le_value [a; b; c; d]) = le_value [d; c; b; a].
Proof.
  unfold is_byte. intros Ha Hb Hc Hd. set (n := le_value _).
  assert (Hn : n = a + 256 * (b + 256 * (c + 256 * d))) by (unfold n; simpl; lia). clearbody n.
  unfold __swap_dword.
  change 0xFF000000 with (Z.shiftl 255 24). change 0x00FF0000 with (Z.shiftl 255 16).
  change 0x0000FF00 with (Z.shiftl 255 8). change 0x000000FF with (Z.shiftl 255 0). rewrite !byte_field by lia.
  replace ((n / 2 ^ 24) mod 2 ^ 8) with d by (Z.to_euclidean_division_equations; lia).
  replace ((n / 2 ^ 16) mod 2 ^ 8) with c by (Z.to_euclidean_division_equations; lia).
  replace ((n / 2 ^ 8) mod 2 ^ 8) with b by (Z.to_euclidean_division_equations; lia).
  replace ((n / 2 ^ 0) mod 2 ^ 8) with a by (Z.to_euclidean_division_equations; lia).
  rewrite !Z.shiftl_mul_pow2, !Z.shiftr_div_pow2 by lia.
  replace (d * 2 ^ 24 / 2 ^ 24) with d by (Z.to_euclidean_division_equations; lia).
  replace (c * 2 ^ 16 / 2 ^ 8) with (c * 2 ^ 8) by (Z.to_euclidean_division_equations; lia).
  replace (b * 2 ^ 8 * 2 ^ 8) with (b * 2 ^ 16) by lia. replace (a * 2 ^ 0 * 2 ^ 24) with (a * 2 ^ 24) by lia.
  rewrite (Z.lor_comm d), <- !Z.shiftl_mul_pow2 by lia. rewrite (lor_shift d c 8) by lia.
  rewrite (Z.lor_comm (_ + _)), (lor_shift _ b 16) by lia. rewrite (Z.lor_comm (_ + _)), (lor_shift _ a 24) by lia.
  simpl. lia.
Qed.

Lemma swap_word_value a b : is_byte a → is_byte b → __swap_word (le_value [a; b]) = le_value [b; a].
Proof.
  unfold is_byte. intros Ha Hb. set (n := le_value _).
  assert (Hn : n = a + 256 * b) by (unfold n; simpl; lia). clearbody n.
  unfold __swap_word. change 0xFF00 with (Z.shiftl 255 8). change 0x00FF with (Z.shiftl 255 0). rewrite !byte_field by lia.
  rewrite Z.shiftr_div_pow2, (Z.shiftl_mul_pow2 n) by lia.
  replace ((n / 2 ^ 8 / 2 ^ 0) mod 2 ^ 8) with b by (Z.to_euclidean_division_equations; lia).
  replace ((n * 2 ^ 8 / 2 ^ 8) mod 2 ^ 8) with a by (Z.to_euclidean_division_equations; lia).
  rewrite Z.shiftl_0_r. unfold u16. rewrite (wrap_small 16 b) by lia. rewrite Z.lor_comm, lor_shift by lia.
  rewrite wrap_small by lia. simpl. lia.
Qed.

(** The bytes of every full word of [w] bytes among the first [num] reversed. *)
Fixpoint rev_words (w num : nat) (l : list Z) : list Z :=
  match num with O => l | S num' => reverse (take w l) ++ rev_words w num' (drop w l) end.

Lemma map_words_rev w f num buf :
  (∀ bs, length bs = w → Forall is_byte bs → f (le_value bs) = le_value (reverse bs)) →
  Forall is_byte buf → (num * w ≤ length buf)%nat → map_words w f num buf = rev_words w num buf.
Proof.
  intros Hf. revert buf. induction num as [|num IH]; intros buf Hb Hl; [done|]. cbn [map_words rev_words].
  assert (Hw : length (take w buf) = w) by (rewrite length_take; lia).
  rewrite Hf by (done || by apply Forall_take). rewrite <- Hw at 1. rewrite <- length_reverse.
  rewrite le_bytes_value by (apply Forall_reverse, Forall_take; done).
  f_equal. apply IH; [by apply Forall_drop|]. rewrite length_drop. lia.
Qed.

Lemma rev_words_length w num l : length (rev_words w num l) = length l.
Proof.
  revert l. induction num as [|num IH]; intros l; [done|]. cbn [rev_words]. rewrite length_app, length_reverse, IH.
  rewrite length_take, length_drop. lia.
Qed.

Lemma rev_words_bytes w num l : Forall is_byte l → Forall is_byte (rev_words w num l).
Proof.
  revert l. induction num as [|num IH]; intros l Hl; [done|]. cbn [rev_words].
  apply Forall_app_2; [by apply Forall_reverse, Forall_take|apply IH; by apply Forall_drop].
Qed.

Lemma take_rev_words w num s l : (num * w ≤ s)%nat → (s ≤ length l)%nat → take s (rev_words w num l) = rev_words w num (take s l).
Proof.
  revert s l. induction num as [|num IH]; intros s l Hn Hs; [done|]. cbn [rev_words].
  rewrite take_app_ge by (rewrite length_reverse, length_take; lia). rewrite length_reverse, length_take_le by lia.
  rewrite IH by (rewrite ?length_drop; lia). rewrite take_take, Nat.min_l by lia. f_equal. f_equal.
  rewrite take_drop_commute. f_equal. f_equal. lia.
Qed.

(** Reversing twice. *)
Lemma rev_words_involutive w num l : (num * w ≤ length l)%nat → rev_words w num (rev_words w num l) = l.
Proof.
  revert l. induction num as [|num IH]; intros l Hl; [done|]. cbn [rev_words].
  assert (Hr : length (reverse (take w l)) = w) by (rewrite length_reverse, length_take; lia).
  rewrite take_app_le, drop_app_ge by lia. rewrite Hr, Nat.sub_diag, drop_0, take_ge by lia.
  rewrite reverse_involutive, IH by (rewrite length_drop; lia). apply take_drop.
Qed.

Lemma swap_dword_rev bs : length bs = 4%nat → Forall is_byte bs → __swap_dword (le_value bs) = le_value (reverse bs).
Proof.
  intros Hl Hb. destruct bs as [|a [|b [|c [|d [|]]]]]; try done.
  rewrite !Forall_cons in Hb. destruct Hb as (? & ? & ? & ? & _). by apply swap_dword_value.
Qed.

Lemma swap_word_rev bs : length bs = 2%nat → Forall is_byte bs → __swap_word (le_value bs) = le_value (reverse bs).
Proof.
  intros Hl Hb. destruct bs as [|a [|b [|]]]; try done.
  rewrite !Forall_cons in Hb. destruct Hb as (? & ? & _). by apply swap_word_value.
Qed.

Lemma swap_words_ok (w : nat) f b :
  blob_ok b → (0 < w)%nat → (∀ bs, length bs = w → Forall is_byte bs → f (le_value bs) = le_value (reverse bs)) →
  runs (swap_words w f) b (λ o b', o = Return None ∧ blob_ok b' ∧
    blob_file b' = mkFile (rev_words w (Z.to_nat (_size b) / w) (fbytes (blob_file b))) (fpos (blob_file b))).
Proof.
  intros [Hown Hptr Hsz Hmax Hbuf Hby] Hw Hf. apply runs_bind, runs_modify, runs_ret. split; [done|].
  assert (Hnum : Z.to_nat (_size b / Z.of_nat w) = (Z.to_nat (_size b) / w)%nat).
  { rewrite Z2Nat.inj_div by lia. by rewrite Nat2Z.id. }
  assert (Hle : (Z.to_nat (_size b) / w * w ≤ Z.to_nat (_size b))%nat).
  { rewrite Nat.mul_comm. apply Nat.Div0.mul_div_le. }
  rewrite Hnum. rewrite map_words_rev by (done || lia). split.
  - split; simpl; try done; [by rewrite rev_words_length|by apply rev_words_bytes].
  - unfold blob_file. simpl. f_equal. apply take_rev_words; lia.
Qed.

(** ** Traces of calls *)

Inductive bop :=
  | BStream (op : sop)
  | BSet (idx : Z) (val : number) | BGet (idx : arg) | BNexti (idx : arg)
  | BResize (size : Z) | BSwap4 | BSwap2.

Section trace.
Context (f2i i2f f2d d2f : Z → Z).

Definition blob_op (op : bop) : stM SQBlob outcome :=
  match op with
  | BStream op => stream_op f2i i2f f2d d2f op
  | BSet i v => _blob__set f2i i v
  | BGet i => _blob__get f2i i
  | BNexti i => _blob__nexti f2i i
  | BResize n => _blob_resize n
  | BSwap4 => _blob_swap4
  | BSwap2 => _blob_swap2
  end.

Fixpoint run_ops (ops : list bop) : stM SQBlob (list outcome) :=
  match ops with
  | [] => mret []
  | op :: ops' => o ← blob_op op; os ← run_ops ops'; mret (o :: os)
  end.

(** The same on bytes with a position. *)
Definition in_file (i : Z) (f : file) : bool := (0 <=? i) && (i <? Z.of_nat (length (fbytes f))).

Definition f_blob_op (op : bop) (f : file) : outcome * file :=
  match op with
  | BStream op => f_op f2i i2f f2d d2f op f
  | BSet i v =>
      if in_file i f
      then (Return (Some (number_value v)), mkFile (<[Z.to_nat i := u8 (sq_getinteger f2i v)]> (fbytes f)) (fpos f))
      else (Throw "index out of range", f)
  | BGet (ANumber n) =>
      let i := sq_getinteger f2i n in
      (if in_file i f then Return (VInt <$> fbytes f !! Z.to_nat i) else Throw "index out of range", f)
  | BGet _ => (ThrowNull, f)
  | BNexti ANull => (Return (Some (VInt 0)), f)
  | BNexti (ANumber n) =>
      let i := s32 (sq_getinteger f2i n + 1) in
      (Return (Some (if i <? Z.of_nat (length (fbytes f)) then VInt i else VNull)), f)
  | BNexti AOther => (Throw "internal error (_nexti) wrong argument type", f)
  | BResize n => (Return None, mkFile (take (Z.to_nat n) (fbytes f)) (fpos f `min` Z.to_nat n))
  | BSwap4 => (Return None, mkFile (rev_words 4 (length (fbytes f) / 4) (fbytes f)) (fpos f))
  | BSwap2 => (Return None, mkFile (rev_words 2 (length (fbytes f) / 2) (fbytes f)) (fpos f))
  end.

Definition blob_op_ok (op : bop) (f : file) : Prop :=
  match op with
  | BStream op => sop_ok op f
  | BResize n => 0 ≤ n
  | _ => True
  end.

Fixpoint f_run (ops : list bop) (f : file) : list outcome * file :=
  match ops with
  | [] => ([], f)
  | op :: ops' => let '(o, f1) := f_blob_op op f in let '(os, f2) := f_run ops' f1 in (o :: os, f2)
  end.
Fixpoint ops_ok (ops : list bop) (f : file) : Prop :=
  match ops with
  | [] => True
  | op :: ops' => blob_op_ok op f ∧ ops_ok ops' (f_blob_op op f).2
  end.

Lemma range_checks i b : blob_ok b → (i <? 0) || (_size b <=? i) = negb (in_file i (blob_file b)).
Proof.
  intros Hok. unfold in_file. rewrite blob_file_length by done. destruct Hok. rewrite Z2Nat.id by lia.
  destruct (Z.ltb_spec i 0), (Z.leb_spec (_size b) i), (Z.leb_spec 0 i), (Z.ltb_spec i (_size b)); try done; lia.
Qed.

Lemma in_file_bounds i b : blob_ok b → in_file i (blob_file b) = true → 0 ≤ i < _size b.
Proof.
  intros Hok [?%Z.leb_le Hlt%Z.ltb_lt]%andb_true_iff. rewrite blob_file_length in Hlt by done. destruct Hok. lia.
Qed.

Lemma runs_blob_set i v b :
  blob_ok b → runs (_blob__set f2i i v) b (λ o b', blob_ok b' ∧ (o, blob_file b') = f_blob_op (BSet i v) (blob_file b)).
Proof.
  intros Hok. apply runs_bind, runs_gets. unfold runs. cbn [SQBlob.IsValid f_blob_op]. rewrite range_checks by done.
  destruct (in_file i (blob_file b)) eqn:Hin; simpl; [|done]. apply in_file_bounds in Hin; [|done].
  pose proof Hok as [Hown Hptr Hsz Hmax Hbuf Hby]. rewrite memcpy_ok by (simpl; lia). simpl.
  set (x := u8 _). assert (Hx : is_byte x) by (apply wrap_range; lia).
  assert (Hins : take (Z.to_nat i) (_buf b) ++ x :: drop (Z.to_nat i + 1) (_buf b) = <[Z.to_nat i := x]> (_buf b)).
  { rewrite Nat.add_1_r, insert_take_drop by lia. done. }
  rewrite Hins. split; [split; simpl; try done; [by rewrite length_insert|by apply Forall_insert]|].
  unfold blob_file. simpl. f_equal. f_equal. apply take_insert_lt. lia.
Qed.

Lemma runs_blob_get i b :
  blob_ok b → runs (_blob__get f2i i) b (λ o b', blob_ok b' ∧ (o, blob_file b') = f_blob_op (BGet i) (blob_file b)).
Proof.
  intros Hok. apply runs_bind, runs_gets. unfold runs. cbn [SQBlob.IsValid f_blob_op]. destruct i as [|n|]; try done. cbv zeta.
  rewrite range_checks by done. destruct (in_file _ _) eqn:Hin; simpl; [|done].
  apply in_file_bounds in Hin; [|done]. pose proof Hok as [Hown Hptr Hsz Hmax Hbuf Hby]. rewrite bytes_at_ok by lia.
  simpl. split; [done|]. f_equal. f_equal. rewrite lookup_take_lt by lia. f_equal.
  set (k := Z.to_nat (sq_getinteger f2i n)). pose proof (lookup_drop (_buf b) k 0) as Hl. rewrite Nat.add_0_r in Hl. rewrite <- Hl.
  by destruct (drop k (_buf b)).
Qed.

Lemma blob_op_refines op b :
  blob_ok b → blob_op_ok op (blob_file b) →
  runs (blob_op op) b (λ o b', blob_ok b' ∧ (o, blob_file b') = f_blob_op op (blob_file b)).
Proof.
  intros Hok Hop. destruct op as [op|i v|i|i|n| |]; simpl in Hop; cbn [blob_op].
  - exact (stream_op_refines f2i i2f f2d d2f op b Hok Hop).
  - by apply runs_blob_set.
  - by apply runs_blob_get.
  - apply runs_bind, runs_gets. unfold runs. cbn [SQBlob.IsValid f_blob_op]. destruct i as [|n|]; try done.
    rewrite blob_file_length by done. destruct Hok. by rewrite Z2Nat.id by lia.
  - apply runs_bind, runs_gets, runs_bind. eapply runs_mono; [by apply blob_resize|].
    intros r b' (-> & Hok' & _ & Hs & Hp & Hf). apply runs_ret. split; [done|]. cbn [f_blob_op]. f_equal.
    destruct (blob_file b') as [bs p] eqn:Hb'. simpl in Hf. rewrite Hf. f_equal. apply (f_equal fpos) in Hb'. simpl in *.
    destruct Hok. lia.
  - apply runs_bind, runs_gets. eapply runs_mono; [apply (swap_words_ok 4); [done|lia|apply swap_dword_rev]|].
    intros o b' (-> & Hok' & Hf). split; [done|]. cbn [f_blob_op]. by rewrite Hf, blob_file_length.
  - apply runs_bind, runs_gets. eapply runs_mono; [apply (swap_words_ok 2); [done|lia|apply swap_word_rev]|].
    intros o b' (-> & Hok' & Hf). split; [done|]. cbn [f_blob_op]. by rewrite Hf, blob_file_length.
Qed.

(** C6: Every sequence of calls of a script on a blob, reads and writes of
    numbers, strings and other blobs, positioning, indexing, iteration, resizing
    and changes of byte order, has exactly the results it has on a plain sequence
    of bytes with a position, and never accesses memory outside the buffer,
    provided that the sizes that are passed are not negative, that the blob does
    not grow past 2^29 bytes, that every seek leads into the blob and that the
    blob is not written to itself. *)
Theorem blob_trace_refines_file ops b :
  blob_ok b → ops_ok ops (blob_file b) →
  runs (run_ops ops) b (λ os b', blob_ok b' ∧ (os, blob_file b') = f_run ops (blob_file b)).
Proof.
  revert b. induction ops as [|op ops IH]; intros b Hok Hops; [by apply runs_ret|]. destruct Hops as [Hop Hops].
  apply runs_bind. eapply runs_mono; [by apply blob_op_refines|]. intros o b1 [Hok1 H1]. rewrite <- H1 in Hops.
  apply runs_bind. eapply runs_mono; [by apply IH|]. intros os b2 [Hok2 H2]. apply runs_ret. split; [done|].
  cbn [f_run]. rewrite <- H1, <- H2. done.
Qed.
End trace.

(** ** Round trips *)

(** A number as it comes back from its representation in a format. *)
Definition stored (f2i i2f f2d d2f : Z → Z) (format : Z) (v : number) : option value :=
  if isc format "l" || isc format "i" then Some (VInt (s32 (sq_getinteger f2i v)))
  else if isc format "s" then Some (VInt (s16 (sq_getinteger f2i v)))
  else if isc format "w" then Some (VInt (u16 (sq_getinteger f2i v)))
  else if isc format "c" || isc format "b" then Some (VInt (u8 (sq_getinteger f2i v)))
  else if isc format "f" then Some (VFloat (u32 (sq_getfloat i2f v)))
  else if isc format "d" then Some (VFloat (d2f (u64 (f2d (sq_getfloat i2f v)))))
  else None.

Lemma s32_wrap z : s32 (z mod 2 ^ 32) = s32 z.
Proof. unfold s32, u32, wrap. by rewrite Z.mod_mod. Qed.
Lemma s16_wrap z : s16 (z mod 2 ^ 16) = s16 z.
Proof. unfold s16, u16, wrap. by rewrite Z.mod_mod. Qed.

(** One format: its bytes have the right number and are read as the value. *)
Ltac format_case b :=
  destruct b; cbn [orb];
    [let H := fresh in intros H; apply (inj Some) in H as <-; eexists _, _; split_and!;
       [reflexivity|rewrite le_bytes_length; reflexivity|cbv beta; rewrite le_value_bytes;
        first [exact (f_equal VInt (s32_wrap _))|exact (f_equal VInt (s16_wrap _))|reflexivity]]|].

(** The bytes of a format and the value they are read as. *)
Lemma stored_bytes f2i i2f f2d d2f fmt v val :
  stored f2i i2f f2d d2f fmt v = Some val →
  ∃ bs k, format_bytes f2i i2f f2d fmt v = Some bs ∧
    format_value d2f fmt = Some (Z.of_nat (length bs), k) ∧ k (le_value bs) = val.
Proof.
  unfold stored, format_bytes, format_value.
  format_case (isc fmt "l"). format_case (isc fmt "i"). format_case (isc fmt "s"). format_case (isc fmt "w").
  format_case (isc fmt "c"). format_case (isc fmt "b"). format_case (isc fmt "f"). format_case (isc fmt "d"). done.
Qed.

(** C21: A number written to a stream in any of the eight formats, at any
    position, is read back from there as the number reduced to the width of the
    format, and the stream is left as after the write: for every implementation
    of the stream interface. *)
Theorem number_roundtrip {T} `{!SQStream T, !StreamRefines T} f2i i2f f2d d2f (t : T) v fmt val :
  stream_ok t → Z.of_nat (fpos (view t)) + 8 ≤ max_len → stored f2i i2f f2d d2f fmt v = Some val →
  ∃ bs, format_bytes f2i i2f f2d fmt v = Some bs ∧
    runs (_ ← _stream_writen f2i i2f f2d v fmt;
          _ ← _stream_seek (- Z.of_nat (length bs)) (Some 99);
          _stream_readn d2f fmt) t
      (λ o t', o = Return (Some val) ∧ stream_ok t' ∧ view t' = f_write bs (view t)).
Proof.
  intros Hok Hfit Hst. destruct (stored_bytes _ _ _ _ _ _ _ Hst) as (bs & k & Hbs & Hk & Hval). exists bs. split; [done|].
  destruct (stream_ok_file t Hok) as [[Hpos _] _].
  destruct (format_bytes_ok _ _ _ _ _ _ Hbs) as [Hbytes Hlen].
  apply runs_bind. eapply runs_mono; [apply (stream_op_refines f2i i2f f2d d2f (SWriten v fmt)); [done|done]|].
  intros o1 t1 [Hok1 H1]. cbn [f_op] in H1. rewrite Hbs in H1. injection H1 as -> Hv1.
  assert (Htarget : f_target (- Z.of_nat (length bs)) SQ_SEEK_CUR (view t1) = Some (fpos (view t))).
  { rewrite Hv1. unfold f_target. cbv zeta. rewrite f_write_length by done. simpl. rewrite decide_True by lia. f_equal. lia. }
  apply runs_bind. eapply runs_mono; [apply (stream_op_refines f2i i2f f2d d2f (SSeek (- Z.of_nat (length bs)) (Some 99))); [done|]|].
  { split; [unfold offset_ok; lia|]. intros org [= <-]. by rewrite Htarget. }
  intros o2 t2 [Hok2 H2]. cbn [f_op] in H2. change (seek_origin (Some 99)) with (Some SQ_SEEK_CUR) in H2.
  cbv beta iota in H2. rewrite Htarget in H2. injection H2 as -> Hv2. simpl in Hv2.
  eapply runs_mono; [apply (stream_op_refines f2i i2f f2d d2f (SReadn fmt)); done|].
  intros o3 t3 [Hok3 H3]. cbn [f_op] in H3. rewrite Hk, Hv2, Hv1, f_write_read in H3 by done. cbv zeta in H3.
  rewrite Z.eqb_refl, Hval in H3. injection H3 as -> Hv3. done.
Qed.

(** ** Examples *)

Definition demo_blob : SQBlob := mkBlob 3 4 1 [1; 2; 3; 0] true.

Lemma demo_blob_ok : blob_ok demo_blob.
Proof. split; simpl; [done|lia|lia|unfold max_len; lia|done|]. repeat constructor; unfold is_byte; lia. Qed.

(** Conversions for the examples: integers only. *)
Definition no_conv (z : Z) : Z := z.

Definition demo_ops : list bop :=
  [BStream (SWriten (NInt 258) 115); BStream (SWrites [65; 66; 67]); BSwap2; BStream (SSeek 1 None);
   BStream (SReads 4); BGet (ANumber (NInt 5)); BResize 2; BStream SEos].

Lemma blob_trace_refines_file_witness :
  ops_ok no_conv no_conv no_conv no_conv demo_ops (blob_file demo_blob) ∧
  runs (run_ops no_conv no_conv no_conv no_conv demo_ops) demo_blob (λ os b', blob_ok b' ∧
    (os, blob_file b') =
    ([Return None; Return (Some (VInt 3)); Return None; Return (Some (VInt 0)); Return (Some (VString [1; 65; 1; 67]));
      Return (Some (VInt 66)); Return None; Return (Some (VInt 1))], mkFile [2; 1] 2)).
Proof.
  assert (Hok : ops_ok no_conv no_conv no_conv no_conv demo_ops (blob_file demo_blob)).
  { vm_compute. repeat split; try (repeat constructor; done); try done; try (intros ? [=]; subst; by eexists). }
  split; [done|]. eapply runs_mono; [apply blob_trace_refines_file; [apply demo_blob_ok|done]|].
  intros os b' [? ->]. split; [done|]. by vm_compute.
Defined.

Lemma number_roundtrip_witness :
  ∃ bs, format_bytes no_conv no_conv no_conv 115 (NInt 65534) = Some bs ∧
    runs (_ ← _stream_writen no_conv no_conv no_conv (NInt 65534) 115;
          _ ← _stream_seek (- Z.of_nat (length bs)) (Some 99);
          _stream_readn no_conv 115) demo_blob
      (λ o b', o = Return (Some (VInt (-2))) ∧ blob_ok b' ∧ blob_file b' = mkFile [1; 254; 255] 3).
Proof.
  destruct (number_roundtrip no_conv no_conv no_conv no_conv demo_blob (NInt 65534) 115 (VInt (-2))) as (bs & Hbs & Hr).
  - apply demo_blob_ok.
  - by vm_compute.
  - by vm_compute.
  - exists bs. split; [done|]. eapply runs_mono; [exact Hr|]. intros o b' (-> & Hok & Hv). split_and!; [done|done|].
    simpl in Hv. rewrite Hv. vm_compute in Hbs. injection Hbs as <-. by vm_compute.
Defined.

(** ** What the code does at the edges *)

Lemma read_negative n b : blob_ok b → - 2 ^ 31 ≤ n < 0 → SQBlob.Read n b = Err OutOfBounds.
Proof.
  intros [Hown Hptr Hsz Hmax Hbuf Hby] Hn. unfold SQBlob.Read, SQBlob.CanAdvance. unfold max_len in *.
  rewrite s32_small by lia. rewrite (proj2 (Z.ltb_ge _ _)) by lia. cbn [negb andb].
  unfold bytes_at. by rewrite decide_False by lia.
Qed.

(** A negative size is not rejected: reading a negative number of bytes from
    a blob copies from its buffer with that number as an unsigned one, whatever
    the blob, and resizing a blob to a negative size uses the failed
    allocation. *)
Lemma blob_negative_size_faults n b :
  blob_ok b → - 2 ^ 31 ≤ n < 0 →
  _stream_readblob n b = Err OutOfBounds ∧ _stream_reads n b = Err OutOfBounds ∧ _blob_resize n b = Err OutOfBounds.
Proof.
  intros Hok Hn. pose proof (read_negative n b Hok Hn) as Hr. destruct Hok as [Hown Hptr Hsz Hmax Hbuf Hby].
  assert (Hlt : (_size b <? n) = false) by (apply Z.ltb_ge; lia).
  assert (Hsome : ∀ k, read_some n k b = Err OutOfBounds).
  { intros k. cbv beta iota delta [read_some mbind stM_bind Len Read SQBlob.blob_stream SQBlob.Len gets].
    by rewrite Hlt, Hr. }
  split_and!; [exact (Hsome VBlob)|exact (Hsome VString)|].
  unfold _blob_resize, setup_blob, mbind, stM_bind, gets. cbn [SQBlob.IsValid]. unfold SQBlob.Resize. rewrite Hown.
  rewrite (proj2 (Z.eqb_neq n _)) by lia. unfold zeroed. by rewrite (proj2 (Z.ltb_lt n 0)) by lia.
Qed.

Lemma blob_negative_size_faults_witness :
  _stream_readblob (-1) demo_blob = Err OutOfBounds ∧ _stream_reads (-1) demo_blob = Err OutOfBounds ∧
  _blob_resize (-1) demo_blob = Err OutOfBounds.
Proof. apply blob_negative_size_faults; [apply demo_blob_ok|done]. Defined.

(** The buffer is replaced exactly when it is too small. *)
Lemma grow_keeps_buffer n b :
  blob_ok b → 0 < n → _size b + n ≤ max_len →
  runs (SQBlob.GrowBufOf n) b (λ _ b', _ptr b' = _ptr b ∧ _size b' = _size b + n ∧
    (if _allocated b <? _size b + n then _allocated b' ≠ _allocated b else b' = mkBlob (_size b + n) (_allocated b) (_ptr b) (_buf b) (_owns b))).
Proof.
  intros Hok Hn Hfit. pose proof Hok as [Hown Hptr Hsz Hmax Hbuf Hby]. unfold max_len in *.
  unfold runs, SQBlob.GrowBufOf. rewrite !s32_small by lia.
  destruct (Z.ltb_spec (_allocated b) (_size b + n)) as [Hlt|Hge]; [|rewrite bind_ok_res, s32_small by lia; done].
  replace (if _ <? _ then _ else _) with (SQBlob.Resize (_size b + n `max` _size b) b) by (case_match; bool_to_prop; f_equal; lia).
  destruct (proj1 (runs_ok _ _ _) (blob_resize (_size b + n `max` _size b) b Hok ltac:(lia)))
    as (r & b' & -> & _ & _ & Hall & Hs & Hp & _).
  rewrite bind_ok_res. cbn. rewrite Z.min_l in Hs, Hp by lia. rewrite Hs, Hp, s32_small by lia. split_and!; [done|done|lia].
Qed.

Lemma write_own_ok b :
  blob_ok b → _ptr b + _size b ≤ max_len →
  SQBlob.Write (Own (_size b)) b =
    if _allocated b <? _ptr b + _size b then Err UseAfterFree
    else if (0 <? _size b) && (_ptr b <? _size b) then Err Overlap
    else SQBlob.Write (Bytes (fbytes (blob_file b))) b.
Proof.
  intros Hok Hfit. pose proof (blob_file_length b Hok) as Hlen. pose proof Hok as [Hown Hptr Hsz Hmax Hbuf Hby]. unfold max_len in *.
  unfold SQBlob.Write. cbn [source_size]. rewrite Hlen, Z2Nat.id by lia. unfold SQBlob.CanAdvance. rewrite !s32_small by lia.
  destruct (Z.ltb_spec (_size b) (_ptr b + _size b)) as [Hlt|Hge]; cbn [negb].
  - destruct (proj1 (runs_ok _ _ _) (grow_keeps_buffer (_ptr b + _size b - _size b) b Hok ltac:(lia) ltac:(unfold max_len; lia)))
      as (r & b' & -> & Hp & Hs & Hb'). rewrite bind_ok_res. cbn [SQBlob.source_bytes].
    replace (_size b + (_ptr b + _size b - _size b)) with (_ptr b + _size b) in Hb' by lia.
    destruct (_allocated b <? _ptr b + _size b) eqn:Ha; [by rewrite (proj2 (Z.eqb_neq _ _) Hb')|]. subst b'. cbn [_allocated _ptr _buf].
    rewrite Z.eqb_refl. cbn [negb]. destruct (_ && _); [done|]. rewrite bytes_at_ok by lia. done.
  - rewrite !bind_ok_res. cbn [SQBlob.source_bytes]. rewrite Z.eqb_refl, (proj2 (Z.ltb_ge (_allocated b) _)) by lia. cbn [negb].
    destruct (_ && _); [done|]. rewrite bytes_at_ok by lia. done.
Qed.

(** C36: Writing a blob to itself, [b.writeblob(b)], is defined only if the blob
    is empty, or if its position is at its end and its buffer has room for as
    many bytes again: then the contents are appended.  If the buffer has to
    grow it is freed before it is copied from, and in every other case [memcpy]
    copies between regions that overlap. *)
Theorem blob_written_to_itself b :
  blob_ok b → _ptr b + _size b ≤ max_len →
  (_allocated b < _ptr b + _size b → _stream_writeblob ThisBlob b = Err UseAfterFree) ∧
  (_ptr b + _size b ≤ _allocated b → 0 < _size b → _ptr b < _size b → _stream_writeblob ThisBlob b = Err Overlap) ∧
  (_ptr b + _size b ≤ _allocated b → _size b = 0 ∨ _ptr b = _size b →
   runs (_stream_writeblob ThisBlob) b (λ o b', o = Return (Some (VInt (_size b))) ∧ blob_ok b' ∧
     blob_file b' = f_write (fbytes (blob_file b)) (blob_file b))).
Proof.
  intros Hok Hfit. pose proof (write_own_ok b Hok Hfit) as Hw. pose proof (blob_file_length b Hok) as Hlen.
  pose proof Hok as [Hown Hptr Hsz Hmax Hbuf Hby].
  assert (Hcall : _stream_writeblob ThisBlob b = write_data (Own (_size b)) b) by done. unfold runs. rewrite Hcall.
  unfold write_data, mbind, stM_bind. cbn [Write SQBlob.blob_stream]. rewrite Hw. split_and!.
  - intros H. by rewrite (proj2 (Z.ltb_lt _ _) H).
  - intros H1 H2 H3. by rewrite (proj2 (Z.ltb_ge _ _)), (proj2 (Z.ltb_lt _ _) H2), (proj2 (Z.ltb_lt _ _) H3) by done.
  - intros H1 H2. rewrite (proj2 (Z.ltb_ge _ _)) by done.
    replace ((0 <? _size b) && (_ptr b <? _size b)) with false by (symmetry; apply andb_false_iff; rewrite !Z.ltb_ge; lia).
    assert (Hbytes : Forall is_byte (fbytes (blob_file b))) by (by apply Forall_take).
    assert (Hroom : Z.of_nat (fpos (blob_file b) + length (fbytes (blob_file b))) ≤ max_len) by (rewrite Hlen; simpl; lia).
    destruct (proj1 (runs_ok _ _ _) (blob_write b _ Hok Hbytes Hroom)) as (n & b' & -> & Hok' & -> & Hf).
    cbn [source_size]. rewrite Hlen, Z2Nat.id, Z.eqb_refl by lia. done.
Qed.

Lemma blob_written_to_itself_witness :
  _stream_writeblob ThisBlob (mkBlob 2 2 2 [1; 2] true) = Err UseAfterFree ∧
  _stream_writeblob ThisBlob (mkBlob 2 5 1 [1; 2; 0; 0; 0] true) = Err Overlap ∧
  runs (_stream_writeblob ThisBlob) (mkBlob 2 5 2 [1; 2; 0; 0; 0] true) (λ o b', o = Return (Some (VInt 2)) ∧ blob_ok b' ∧
    blob_file b' = mkFile [1; 2; 1; 2] 4).
Proof.
  assert (Hok : ∀ s a p l, s = 2 → (p = 1 ∨ p = 2) → a = Z.of_nat (length l) → 2 ≤ a → Forall is_byte l → blob_ok (mkBlob s a p l true)).
  { intros s a p l -> Hp -> Ha Hl. split; simpl; [done|lia|lia|unfold max_len; lia|done|done]. }
  assert (Hb : Forall is_byte [1; 2; 0; 0; 0]) by (repeat constructor; unfold is_byte; lia).
  assert (H1 : blob_ok (mkBlob 2 2 2 [1; 2] true)) by (apply Hok; [done|lia|done|lia|exact (Forall_take is_byte 2 _ Hb)]).
  assert (H2 : blob_ok (mkBlob 2 5 1 [1; 2; 0; 0; 0] true)) by (apply Hok; [done|lia|done|lia|done]).
  assert (H3 : blob_ok (mkBlob 2 5 2 [1; 2; 0; 0; 0] true)) by (apply Hok; [done|lia|done|lia|done]).
  split; [exact (proj1 (blob_written_to_itself _ H1 ltac:(by vm_compute)) ltac:(by vm_compute))|].
  split; [exact (proj1 (proj2 (blob_written_to_itself _ H2 ltac:(by vm_compute))) ltac:(by vm_compute) ltac:(by vm_compute) ltac:(by vm_compute))|].
  exact (proj2 (proj2 (blob_written_to_itself _ H3 ltac:(by vm_compute))) ltac:(by vm_compute) ltac:(by right)).
Defined.

(** The library function [swap2] does not swap: the high byte of its
    argument stays above the low one.  Iterating over an empty blob starts at
    index 0, which cannot be read: a loop over it ends in an error. *)
Theorem blob_library_slips :
  _g_blob_swap2 0x1234 = VInt 0x123412 ∧
  match SQBlob.new 0 with
  | Ok b => _blob__nexti no_conv ANull b = Ok (Return (Some (VInt 0)), b) ∧
            _blob__get no_conv (ANumber (NInt 0)) b = Ok (Throw "index out of range", b)
  | Err _ => False
  end.
Proof. by vm_compute. Qed.

(** C40: [swap4] and [swap2] on a blob reverse the bytes of every full word and
    leave the rest, so that doing them twice changes nothing. *)
Theorem blob_swap_reverses b :
  blob_ok b →
  runs _blob_swap4 b (λ _ b', fbytes (blob_file b') = rev_words 4 (Z.to_nat (_size b) / 4) (fbytes (blob_file b))) ∧
  runs _blob_swap2 b (λ _ b', fbytes (blob_file b') = rev_words 2 (Z.to_nat (_size b) / 2) (fbytes (blob_file b))) ∧
  runs (_ ← _blob_swap4; _blob_swap4) b (λ _ b', blob_file b' = blob_file b) ∧
  runs (_ ← _blob_swap2; _blob_swap2) b (λ _ b', blob_file b' = blob_file b).
Proof.
  intros Hok.
  assert (H4 : ∀ b, blob_ok b → runs _blob_swap4 b (λ o b', o = Return None ∧ blob_ok b' ∧
    blob_file b' = mkFile (rev_words 4 (Z.to_nat (_size b) / 4) (fbytes (blob_file b))) (fpos (blob_file b)))).
  { intros b0 Hb0. apply runs_bind, runs_gets. apply (swap_words_ok 4); [done|lia|apply swap_dword_rev]. }
  assert (H2 : ∀ b, blob_ok b → runs _blob_swap2 b (λ o b', o = Return None ∧ blob_ok b' ∧
    blob_file b' = mkFile (rev_words 2 (Z.to_nat (_size b) / 2) (fbytes (blob_file b))) (fpos (blob_file b)))).
  { intros b0 Hb0. apply runs_bind, runs_gets. apply (swap_words_ok 2); [done|lia|apply swap_word_rev]. }
  assert (Htwice : ∀ (w : nat) (m : stM SQBlob outcome), (0 < w)%nat →
    (∀ b, blob_ok b → runs m b (λ o b', o = Return None ∧ blob_ok b' ∧
      blob_file b' = mkFile (rev_words w (Z.to_nat (_size b) / w) (fbytes (blob_file b))) (fpos (blob_file b)))) →
    runs (_ ← m; m) b (λ _ b', blob_file b' = blob_file b)).
  { intros w m Hw Hm. apply runs_bind. eapply runs_mono; [by apply Hm|]. intros o b1 (_ & Hok1 & Hf1).
    eapply runs_mono; [by apply Hm|]. intros o' b2 (_ & Hok2 & Hf2).
    assert (Hsz : Z.to_nat (_size b1) = Z.to_nat (_size b)).
    { rewrite <- !blob_file_length, Hf1 by done. apply rev_words_length. }
    rewrite Hf2, Hsz, Hf1. cbn [fbytes fpos].
    rewrite rev_words_involutive; [by destruct (blob_file b)|]. rewrite blob_file_length by done.
    rewrite Nat.mul_comm. apply Nat.Div0.mul_div_le. }
  split_and!; [eapply runs_mono; [by apply H4|by intros ? ? (_ & _ & ->)]|eapply runs_mono; [by apply H2|by intros ? ? (_ & _ & ->)]| |].
  - by apply (Htwice 4%nat); [lia|].
  - by apply (Htwice 2%nat); [lia|].
Qed.

Lemma blob_swap_reverses_witness :
  runs _blob_swap4 demo_blob (λ _ b', fbytes (blob_file b') = [1; 2; 3]) ∧
  runs _blob_swap2 demo_blob (λ _ b', fbytes (blob_file b') = [2; 1; 3]) ∧
  runs (_ ← _blob_swap4; _blob_swap4) demo_blob (λ _ b', blob_file b' = blob_file demo_blob) ∧
  runs (_ ← _blob_swap2; _blob_swap2) demo_blob (λ _ b', blob_file b' = blob_file demo_blob).
Proof. exact (blob_swap_reverses demo_blob demo_blob_ok). Defined.
