(* ===== verification/SqStringLib.v ===== *)
(** * The string library (sqstdstring.cpp, the scratch pad of sqstate.cpp)

    The functions scripts call, on strings given as the codes of their
    characters, without the terminating NUL.  [format] and [escape] write into
    the scratch pad of the shared state, a block that grows and shrinks on
    request; [format] copies each conversion into an array of fixed size.  A
    write outside these is a fault.  How the C library renders a conversion is a
    parameter. *)

From Stdlib Require Import Ascii.
From stdpp Require Import base numbers strings option list.
From S2P Require Import Prelude CType SqRex.

Open Scope Z_scope.

(** ** The scratch pad *)

(** [SQ_REALLOC]; bytes that were never written are [None]. *)
Definition realloc (p : list (option Z)) (n : nat) : list (option Z) := take n p ++ replicate (n - length p) None.

(** [SQSharedState::GetScratchPad] *)
Definition GetScratchPad (size : Z) (p : list (option Z)) : list (option Z) :=
  if 0 <? size then
    let padsize := Z.of_nat (length p) in
    if padsize <? size then realloc p (Z.to_nat (size + Z.shiftr size 1))
    else if Z.shiftl size 5 <=? padsize then realloc p (Z.to_nat (Z.shiftr padsize 1))
    else p
  else p.

(** Writing bytes at an offset. *)
Definition put (off : nat) (data : list Z) (p : list (option Z)) : res (list (option Z)) :=
  if decide (off + length data ≤ length p)%nat
  then Ok (take off p ++ (Some <$> data) ++ drop (off + length data) p)
  else Err OutOfBounds.

(** The first [n] bytes, all of them written. *)
Definition get (n : nat) (p : list (option Z)) : res (list Z) :=
  match mapM id (take n p) with Some l => if decide (n ≤ length p)%nat then Ok l else Err OutOfBounds | None => Err OutOfBounds end.

(** [scsprintf(dest, limit, ...)] of a text: what does not fit is cut off, a NUL
    is added, and the result is the length of the whole text. *)
Definition scsprintf (off : nat) (limit : Z) (text : list Z) (p : list (option Z)) : res (Z * list (option Z)) :=
  p ← (if limit <=? 0 then Ok p else put off (take (Z.to_nat (limit - 1)) text ++ [0]) p);
  Ok (Z.of_nat (length text), p).

(** ** Format *)

Definition MAX_FORMAT_LEN : nat := 20.
Definition MAX_WFORMAT_LEN : nat := 3.
Definition ADDITIONAL_FORMAT_SPACE : Z := 100.

Definition isfmtchr (c : Z) : bool := isc c "-" || isc c "+" || isc c " " || isc c "#" || isc c "0".

(** The number of characters from [n] on that satisfy [P]: the loops
    [while (P(src[n])) n++]. *)
Fixpoint run_length (P : Z → bool) (s : list Z) : nat :=
  match s with c :: s' => if P c then S (run_length P s') else O | [] => O end.

(** [scstrtol] of digits. *)
Definition digits_value (s : list Z) : Z := foldl (λ v c, v * 10 + (c - 48)) 0 s.

(** [validate_format]: the position of the conversion letter, the width, and
    [fmt], or an error message. *)
Definition validate_format (src : list Z) (n : nat) : res (string + nat * Z * list Z) :=
  let start := n in
  let n := (n + run_length isfmtchr (drop n src))%nat in
  let wc := run_length isdigit (drop n src) in
  if decide (MAX_WFORMAT_LEN ≤ wc)%nat then Ok (inl "width format too long"%string) else
  let width := digits_value (take wc (drop n src)) in
  let n := (n + wc)%nat in
  c ← char_at src n;
  let '(n, wp) := (if isc c "." then (S n, run_length isdigit (drop (S n) src)) else (n, O)) in
  if decide (MAX_WFORMAT_LEN ≤ wp)%nat then Ok (inl "precision format too long"%string) else
  let width := width + digits_value (take wp (drop n src)) in
  let n := (n + wp)%nat in
  if decide (MAX_FORMAT_LEN < n - start)%nat then Ok (inl "format too long"%string) else
  c ← char_at src n;
  (* fmt is '%', the characters up to the letter, the letter and a NUL *)
  if decide ((n - start) + 2 < MAX_FORMAT_LEN)%nat
  then Ok (inr (n, width, char_code "%" :: take (n - start) (drop start src) ++ [c]))
  else Err OutOfBounds.

(** An argument of [format]: what [sq_getstring], [sq_getinteger] and
    [sq_getfloat] give for it. *)
Record farg := mkArg { as_string : option (list Z); as_integer : option Z; as_float : option Z }.

(** What is printed: a string, an integer or the bits of a float. *)
Inductive printed := PString (s : list Z) | PInt (i : Z) | PFloat (bits : Z).

(** The conversion letter [c] with an argument: what is printed and how much
    room is made for it. *)
Definition conversion (c : Z) (w : Z) (a : farg) : string + printed * Z :=
  if isc c "s" then
    match as_string a with
    | Some s => inr (PString s, Z.of_nat (length s) + (w + 1))
    | None => inl "string expected for the specified format"%string
    end
  else if isc c "i" || isc c "d" || isc c "o" || isc c "u" || isc c "x" || isc c "X" || isc c "c" then
    match as_integer a with
    | Some i => inr (PInt i, ADDITIONAL_FORMAT_SPACE + (w + 1))
    | None => inl "integer expected for the specified format"%string
    end
  else if isc c "f" || isc c "g" || isc c "G" || isc c "e" || isc c "E" then
    match as_float a with
    | Some f => inr (PFloat f, ADDITIONAL_FORMAT_SPACE + (w + 1))
    | None => inl "float expected for the specified format"%string
    end
  else inl "invalid format"%string.

Section format.
(** [snprintf] with a conversion and its argument. *)
Context (render : list Z → printed → list Z).

(** The loop of [sqstd_format]: the position in the format, the length of the
    output so far, the arguments left, and the room asked for. *)
Fixpoint format_loop (fuel : nat) (format : list Z) (n i : nat) (args : list farg) (allocated : Z) (p : list (option Z))
    : res (string + nat * list (option Z)) :=
  match fuel with
  | O => Err OutOfFuel
  | S fuel' =>
      if decide (n < length format)%nat then
        c ← char_at format n;
        if negb (isc c "%") then
          if allocated <=? Z.of_nat i then Err AssertFail else
          p ← put i [c] p;
          format_loop fuel' format (S n) (S i) args allocated p
        else
          d ← char_at format (S n);
          if isc d "%" then
            p ← put i [char_code "%"] p;
            format_loop fuel' format (n + 2) (S i) args allocated p
          else
            match args with
            | [] => Ok (inl "not enough parameters for the given format string"%string)
            | a :: args' =>
                v ← validate_format format (S n);
                match v with
                | inl msg => Ok (inl msg)
                | inr (n, w, fmt) =>
                    c ← char_at format n;
                    match conversion c w a with
                    | inl msg => Ok (inl msg)
                    | inr (x, addlen) =>
                        let allocated := allocated + (addlen + 1) in
                        '(len, p) ← scsprintf i allocated (render fmt x) (GetScratchPad allocated p);
                        format_loop fuel' format (S n) (i + Z.to_nat len) args' allocated p
                    end
                end
            end
      else
        p ← put i [0] p;
        Ok (inr (i, p))
  end.

(** [sqstd_format] *)
Definition sqstd_format (format : list Z) (args : list farg) (p : list (option Z))
    : res (string + nat * list (option Z)) :=
  let allocated := Z.of_nat (length format) + 2 in
  format_loop (S (length format)) format 0 0 args allocated (GetScratchPad allocated p).

(** [_string_format] *)
Definition _string_format (format : list Z) (args : list farg) (p : list (option Z)) : res (string + list Z) :=
  r ← sqstd_format format args p;
  match r with
  | inl msg => Ok (inl msg)
  | inr (len, p) => s ← get len p; Ok (inr s)
  end.

(** [_string_printf]: what the print function is called with. *)
Definition _string_printf (format : list Z) (args : list farg) (p : list (option Z)) : res (string + list Z) :=
  r ← sqstd_format format args p;
  match r with
  | inl msg => Ok (inl msg)
  | inr (len, p) => s ← get len p; Ok (inr (take (run_length (λ c, negb (c =? 0)) s) s))
  end.
End format.

(** ** Strip, split, prefixes *)

(** [__strip_l]: where the first character that is not white space is. *)
Definition __strip_l (s : list Z) : nat := run_length (λ c, negb (c =? 0) && isspace c) s.

(** [__strip_r]: behind the last character among the first [n] that is not
    white space. *)
Fixpoint __strip_r (s : list Z) (n : nat) : nat :=
  match n with
  | O => O
  | S n' => match s !! n' with
            | Some c => if isspace c then __strip_r s n' else n
            | None => n
            end
  end.

(** [sq_pushstring(v, s, len)]: a negative length stands for [strlen]. *)
Definition pushstring (s : list Z) (len : Z) : list Z :=
  if len <? 0 then take (run_length (λ c, negb (c =? 0)) s) s else take (Z.to_nat len) s.

Definition _string_strip (s : list Z) : list Z :=
  let start := __strip_l s in
  let stop := __strip_r s (length s) in
  pushstring (drop start s) (Z.of_nat stop - Z.of_nat start).
Definition _string_lstrip (s : list Z) : list Z := pushstring (drop (__strip_l s) s) (-1).
Definition _string_rstrip (s : list Z) : list Z := pushstring s (Z.of_nat (__strip_r s (length s))).

(** The loop of [_string_split]: [piece] is what lies between [start] and
    [end]. *)
Fixpoint split_loop (seps : list Z) (piece rest : list Z) (pieces : list (list Z)) : list (list Z) * list Z :=
  match rest with
  | [] => (pieces, piece)
  | c :: rest' =>
      if c =? 0 then (pieces, piece)
      else if existsb (Z.eqb c) seps then split_loop seps [] rest' (pieces ++ [piece])
      else split_loop seps (piece ++ [c]) rest' pieces
  end.

(** [_string_split] *)
Definition _string_split (s seps : list Z) : string + list (list Z) :=
  if decide (seps = []) then inl "empty separators string"%string
  else
    let '(pieces, piece) := split_loop seps [] s [] in
    inr (if decide (piece = []) then pieces else pieces ++ [piece]).

(** [_string_startswith], [_string_endswith] *)
Definition _string_startswith (s cmp : list Z) : bool :=
  if decide (length cmp ≤ length s)%nat then bool_decide (take (length cmp) s = cmp) else false.
Definition _string_endswith (s cmp : list Z) : bool :=
  if decide (length cmp ≤ length s)%nat then bool_decide (take (length cmp) (drop (length s - length cmp) s) = cmp) else false.

(** ** Escape *)

(** The letters of the [switch]; 7 to 13 are the control characters. *)
Definition escape_letter (c : Z) : option Z :=
  if c =? 7 then Some (char_code "a") else if c =? 8 then Some (char_code "b") else if c =? 9 then Some (char_code "t")
  else if c =? 10 then Some (char_code "n") else if c =? 11 then Some (char_code "v") else if c =? 12 then Some (char_code "f")
  else if c =? 13 then Some (char_code "r")
  else if isc c "\" || isc c "034" || isc c "'" then Some c
  else if c =? 0 then Some (char_code "0")
  else None.

(** [\x%02x] of a character *)
Definition hex_digit_char (n : Z) : Z := if n <? 10 then 48 + n else 87 + n.
Definition hex_escape (c : Z) : list Z := [char_code "\"; char_code "x"; hex_digit_char (c / 16); hex_digit_char (c mod 16)].

(** The loop of [_string_escape] *)
Fixpoint escape_loop (s : list Z) (destcharsize : Z) (dest : nat) (escaped : bool) (p : list (option Z))
    : res (nat * bool * list (option Z)) :=
  match s with
  | [] => Ok (dest, escaped, p)
  | c :: s' =>
      if isprint c || (c =? 0) then
        match escape_letter c with
        | Some e => p ← put dest [char_code "\"; e] p; escape_loop s' destcharsize (dest + 2) true p
        | None => p ← put dest [c] p; escape_loop s' destcharsize (dest + 1) escaped p
        end
      else
        '(len, p) ← scsprintf dest destcharsize (hex_escape c) p;
        escape_loop s' destcharsize (dest + Z.to_nat len) true p
  end.

(** [_string_escape] *)
Definition _string_escape (s : list Z) (p : list (option Z)) : res (list Z) :=
  if decide (s = []) then Ok s else
  let destcharsize := Z.of_nat (length s) * 4 in
  '(dest, escaped, p) ← escape_loop s destcharsize 0 false (GetScratchPad destcharsize p);
  if (escaped : bool) then get dest p else Ok s.

(** ** Regular expression objects *)

(** [str + start] as a C string; [start] is not checked. *)
Definition text_from (s : list Z) (start : Z) : res (list Z) :=
  if decide (0 ≤ start ≤ Z.of_nat (length s))
  then let t := drop (Z.to_nat start) s in Ok (take (run_length (λ c, negb (c =? 0)) t) t)
  else Err OutOfBounds.

Definition _regexp_constructor (pattern : list Z) : res (string + SQRex) :=
  match sqstd_rex_compile (take (run_length (λ c, negb (c =? 0)) pattern) pattern) with
  | Ok e => Ok (inr e)
  | Err (Raised msg) => Ok (inl msg)
  | Err f => Err f
  end.

Definition _regexp_match (s : list Z) : rexM bool := λ e,
  text ← text_from s 0; sqstd_rex_match e text.

(** [_addrexmatch]: the table with [begin] and [end]. *)
Definition _addrexmatch (b e : Z) : Z * Z := (b, e).

Definition _regexp_search (s : list Z) (start : option Z) : rexM (option (Z * Z)) := λ e,
  let start := default 0 start in
  text ← text_from s start;
  '(r, e) ← sqstd_rex_search e text;
  Ok (match r with
      | Some (b, n) => Some (_addrexmatch (start + Z.of_nat b) (start + Z.of_nat n))
      | None => None
      end, e).

(** A group of [_regexp_capture]; an empty one is reported at 0. *)
Definition capture_entry (start : Z) (m : SQRexMatch) : Z * Z :=
  match mbegin m with
  | Some b => if 0 <? mlen m then _addrexmatch (start + b) (start + b + mlen m) else _addrexmatch 0 0
  | None => _addrexmatch 0 0
  end.

(** [_regexp_capture] *)
Definition _regexp_capture (s : list Z) (start : option Z) : rexM (option (list (Z * Z))) := λ e,
  let start := default 0 start in
  text ← text_from s start;
  '(r, e) ← sqstd_rex_search e text;
  match (r : option (nat * nat)) with
  | Some _ =>
      ms ← fold_res (λ acc i, m ← sqstd_rex_getsubexp e (Z.of_nat i);
                              Ok (acc ++ [capture_entry start (default (mkMatch None 0) m)]))
             (seq 0 (Z.to_nat (sqstd_rex_getsubexpcount e))) [];
      Ok (Some ms, e)
  | None => Ok (None, e)
  end.

Definition _regexp_subexpcount (e : SQRex) : Z := sqstd_rex_getsubexpcount e.
