(* ===== verification/SqStringLibSpec.v ===== *)
(** * Correctness of the string library

    [format] writes the text a reference definition gives, within the scratch
    pad and its array for conversions; [strip], [split], [startswith] and
    [endswith] against their specifications; the inputs for which the code leaves
    its buffers. *)

From Stdlib Require Import Ascii.
From stdpp Require Import base numbers strings option list.
From S2P Require Import Prelude CType SqRex SqRexParse SqStringLib.

Open Scope Z_scope.

(** ** The scratch pad *)

Lemma realloc_length p n : length (realloc p n) = n.
Proof. unfold realloc. rewrite length_app, length_take, length_replicate. lia. Qed.

Lemma realloc_take p n i : (i ≤ n)%nat → (i ≤ length p)%nat → take i (realloc p n) = take i p.
Proof.
  intros Hn Hp. unfold realloc. rewrite take_app_le by (rewrite length_take; lia). rewrite take_take. f_equal. lia.
Qed.

Lemma GetScratchPad_room size p : 0 ≤ size → size ≤ Z.of_nat (length (GetScratchPad size p)).
Proof.
  intros Hs. unfold GetScratchPad. destruct (Z.ltb_spec 0 size); [|lia]. cbv zeta.
  rewrite !Z.shiftr_div_pow2, Z.shiftl_mul_pow2 by lia.
  destruct (Z.ltb_spec (Z.of_nat (length p)) size) as [Hlt|Hge]; [|destruct (Z.leb_spec (size * 2 ^ 5) (Z.of_nat (length p)))];
    rewrite ?realloc_length; Z.to_euclidean_division_equations; lia.
Qed.

(** What was written before stays, as long as it fits. *)
Lemma GetScratchPad_take size p i :
  (i ≤ length p)%nat → Z.of_nat i ≤ size → take i (GetScratchPad size p) = take i p.
Proof.
  intros Hi Hs. unfold GetScratchPad. destruct (Z.ltb_spec 0 size); [|done]. cbv zeta.
  rewrite !Z.shiftr_div_pow2, Z.shiftl_mul_pow2 by lia.
  destruct (Z.ltb_spec (Z.of_nat (length p)) size) as [Hlt|Hge]; [|destruct (Z.leb_spec (size * 2 ^ 5) (Z.of_nat (length p)))];
    try done; apply realloc_take; Z.to_euclidean_division_equations; lia.
Qed.

(** The first bytes of the pad are [out]. *)
Definition written (out : list Z) (p : list (option Z)) : Prop := take (length out) p = Some <$> out.

Lemma written_le out p : written out p → (length out ≤ length p)%nat.
Proof. intros H. apply (f_equal length) in H. rewrite length_take, length_fmap in H. lia. Qed.

Lemma put_ok out data p :
  written out p → (length out + length data ≤ length p)%nat →
  ∃ p', put (length out) data p = Ok p' ∧ written (out ++ data) p' ∧ length p' = length p.
Proof.
  intros Hw Hl. unfold put. rewrite decide_True by done. eexists. split; [done|]. split.
  - unfold written in *. rewrite length_app, take_app_ge by (rewrite length_take_le; lia). rewrite length_take_le by lia.
    rewrite take_app_le by (rewrite length_fmap; lia). rewrite fmap_app, Hw. f_equal.
    apply take_ge. rewrite length_fmap. lia.
  - rewrite !length_app, length_take_le, length_fmap, length_drop by lia. lia.
Qed.

Lemma written_prefix out out' p : written (out ++ out') p → written out p.
Proof.
  intros H. pose proof (written_le _ _ H) as Hl. rewrite length_app in Hl. unfold written in *.
  apply (f_equal (take (length out))) in H. rewrite take_take, length_app, fmap_app in H.
  rewrite Nat.min_l in H by lia. rewrite take_app_le in H by (rewrite length_fmap; lia).
  rewrite H. apply take_ge. rewrite length_fmap. lia.
Qed.

Lemma get_ok out p : written out p → get (length out) p = Ok out.
Proof.
  intros Hw. unfold get. rewrite Hw. assert (Hm : ∀ l : list Z, mapM id (Some <$> l) = Some l).
  { intros l. apply mapM_Some. induction l as [|x l IH]; by constructor. }
  rewrite Hm, decide_True by (by apply written_le). done.
Qed.

Lemma scsprintf_ok out limit text p :
  written out p → Z.of_nat (length text) < limit → (length out + length text < length p)%nat →
  ∃ p', scsprintf (length out) limit text p = Ok (Z.of_nat (length text), p') ∧ written (out ++ text) p' ∧ length p' = length p.
Proof.
  intros Hw Hlim Hl. unfold scsprintf. rewrite (proj2 (Z.leb_gt _ _)) by lia. rewrite take_ge by lia.
  destruct (put_ok out (text ++ [0]) p Hw) as (p' & -> & Hw' & Hl'); [rewrite length_app; simpl; lia|].
  exists p'. split; [done|]. split; [|done]. rewrite app_assoc in Hw'. by apply written_prefix in Hw'.
Qed.

(** ** Format *)

Lemma run_length_le P s : (run_length P s ≤ length s)%nat.
Proof. induction s as [|c s IH]; simpl; [lia|]. destruct (P c); lia. Qed.

(** A conversion that is not too long for its array. *)
Definition flags_ok (format : list Z) : Prop := ∀ n, (run_length isfmtchr (drop n format) ≤ 12)%nat.

Lemma digits_value_nonneg s : Forall (λ c, isdigit c = true) s → 0 ≤ digits_value s.
Proof.
  intros H. unfold digits_value. cut (∀ v, 0 ≤ v → 0 ≤ foldl (λ v c, v * 10 + (c - 48)) v s); [intros Hc; by apply Hc|].
  induction H as [|c s Hc _ IH]; intros v Hv; simpl; [done|]. apply IH. apply isdigit_range in Hc. lia.
Qed.

Lemma run_length_Forall P s : Forall (λ c, P c = true) (take (run_length P s) s).
Proof. induction s as [|c s IH]; simpl; [constructor|]. destruct (P c) eqn:Hc; simpl; [by constructor|constructor]. Qed.

Lemma char_at_in s n : (n ≤ length s)%nat → ∃ c, char_at s n = Ok c.
Proof.
  intros Hn. unfold char_at. destruct (s !! n) eqn:Hs; [eauto|]. apply lookup_ge_None in Hs.
  rewrite decide_True by lia. eauto.
Qed.

Lemma validate_format_ok format n :
  flags_ok format → (n ≤ length format)%nat →
  ∃ v, validate_format format n = Ok v ∧
    match v with inl _ => True | inr (m, w, fmt) => (n ≤ m ≤ length format)%nat ∧ 0 ≤ w end.
Proof.
  intros Hfl Hn. unfold validate_format. specialize (Hfl n).
  set (a := run_length isfmtchr (drop n format)) in *. pose proof (run_length_le isfmtchr (drop n format)) as Ha. rewrite length_drop in Ha. fold a in Ha.
  set (n1 := (n + a)%nat). set (wc := run_length isdigit (drop n1 format)).
  pose proof (run_length_le isdigit (drop n1 format)) as Hwc. rewrite length_drop in Hwc. fold wc in Hwc.
  pose proof (digits_value_nonneg _ (run_length_Forall isdigit (drop n1 format))) as Hw1. fold wc in Hw1.
  destruct (decide (MAX_WFORMAT_LEN ≤ wc)%nat) as [|Hwc3]; [by eexists|]. unfold MAX_WFORMAT_LEN in *.
  set (n2 := (n1 + wc)%nat). destruct (char_at_in format n2) as [c Hc]; [lia|]. rewrite Hc. cbn [mbind res_bind].
  assert (Hdot : isc c "." = true → (n2 < length format)%nat).
  { intros Hd. unfold char_at in Hc. destruct (format !! n2) eqn:Hl; [by eapply lookup_lt_Some|].
    rewrite decide_True in Hc by (apply lookup_ge_None in Hl; lia). injection Hc as <-. done. }
  destruct (if isc c "." then (S n2, run_length isdigit (drop (S n2) format)) else (n2, O)) as [n3 wp] eqn:Hcase.
  assert (Hwp : (n2 ≤ n3 ≤ S n2)%nat ∧ (n3 + wp ≤ length format)%nat ∧ 0 ≤ digits_value (take wp (drop n3 format))).
  { destruct (isc c "."); injection Hcase as <- <-.
    - pose proof (run_length_le isdigit (drop (S n2) format)) as Hp. rewrite length_drop in Hp.
      pose proof (digits_value_nonneg _ (run_length_Forall isdigit (drop (S n2) format))). specialize (Hdot eq_refl).
      split_and!; [lia|lia|lia|done].
    - split_and!; [lia|lia|lia|]. done. }
  destruct Hwp as (Hn3 & Hfit & Hw2).
  destruct (decide (3 ≤ wp)%nat); [by eexists|]. unfold MAX_FORMAT_LEN. rewrite decide_False by lia.
  destruct (char_at_in format (n3 + wp)) as [d Hd]; [lia|]. rewrite Hd. cbn [mbind res_bind]. rewrite decide_True by lia.
  eexists. split; [done|]. split; lia.
Qed.

(** The text of a format: its characters, and what the conversions render. *)
Fixpoint format_ref (render : list Z → printed → list Z) (fuel : nat) (format : list Z) (n : nat) (args : list farg)
    : string + list Z :=
  match fuel with
  | O => inl ""%string
  | S fuel' =>
      match format !! n with
      | None => inr []
      | Some c =>
          if negb (isc c "%") then match format_ref render fuel' format (S n) args with inl m => inl m | inr t => inr (c :: t) end
          else if isc (default 0 (format !! S n)) "%" then
            match format_ref render fuel' format (n + 2) args with inl m => inl m | inr t => inr (char_code "%" :: t) end
          else
            match args with
            | [] => inl "not enough parameters for the given format string"%string
            | a :: args' =>
                match validate_format format (S n) with
                | Ok (inr (m, w, fmt)) =>
                    match conversion (default 0 (format !! m)) w a with
                    | inl msg => inl msg
                    | inr (x, _) =>
                        match format_ref render fuel' format (S m) args' with
                        | inl msg => inl msg
                        | inr t => inr (render fmt x ++ t)
                        end
                    end
                | Ok (inl msg) => inl msg
                | Err _ => inl ""%string
                end
            end
      end
  end.

(** What the C library promises: a conversion with its flags, width and
    precision needs no more room than [format] makes for it. *)
Class RenderOk (render : list Z → printed → list Z) : Prop :=
  render_room format n m w fmt c a x addlen :
    validate_format format n = Ok (inr (m, w, fmt)) → char_at format m = Ok c → conversion c w a = inr (x, addlen) →
    Z.of_nat (length (render fmt x)) ≤ addlen.

Lemma char_at_default s n : (n ≤ length s)%nat → char_at s n = Ok (default 0 (s !! n)).
Proof.
  intros Hn. unfold char_at. destruct (s !! n) eqn:Hs; [done|]. apply lookup_ge_None in Hs. by rewrite decide_True by lia.
Qed.

Lemma conversion_nul w a : ∃ msg, conversion 0 w a = inl msg.
Proof. by eexists. Qed.

Section format.
Context (render : list Z → printed → list Z) `{!RenderOk render}.
Context (format : list Z) (Hflags : flags_ok format).

(** The output so far is in the pad, and there is room for the rest of the
    format. *)
Definition format_inv (n : nat) (out : list Z) (allocated : Z) (p : list (option Z)) : Prop :=
  written out p ∧ (n ≤ length format)%nat ∧
  Z.of_nat (length out) + (Z.of_nat (length format) - Z.of_nat n) + 2 ≤ allocated ≤ Z.of_nat (length p).

Definition format_done (out : list Z) (ref : string + list Z) (r : string + nat * list (option Z)) : Prop :=
  match ref with
  | inl msg => r = inl msg
  | inr text => ∃ p', r = inr (length (out ++ text), p') ∧ written (out ++ text) p'
  end.

Lemma format_done_app out t ref r :
  format_done (out ++ t) ref r → format_done out (match ref with inl m => inl m | inr s => inr (t ++ s) end) r.
Proof. destruct ref as [|s]; simpl; [done|]. by rewrite <- !app_assoc. Qed.

(** One more character. *)
Lemma format_inv_char n k out allocated p c :
  format_inv n out allocated p → (n < k ≤ length format)%nat →
  ∃ p', put (length out) [c] p = Ok p' ∧ format_inv k (out ++ [c]) allocated p'.
Proof.
  intros (Hw & Hn & Hroom) Hk. destruct (put_ok out [c] p Hw) as (p' & Hp & Hw' & Hl'); [simpl; lia|].
  exists p'. split; [done|]. split_and!; [done|lia|rewrite length_app; simpl; lia|lia].
Qed.

Lemma format_loop_ok fuel : ∀ n out args allocated p,
  format_inv n out allocated p → (length format - n < fuel)%nat →
  ∃ r, format_loop render fuel format n (length out) args allocated p = Ok r ∧
    format_done out (format_ref render fuel format n args) r.
Proof.
  induction fuel as [|fuel IH]; intros n out args allocated p HI Hf; [lia|]. cbn [format_loop format_ref].
  pose proof HI as (Hw & Hn & Hroom). destruct (format !! n) as [c|] eqn:Hc.
  2: { apply lookup_ge_None in Hc. rewrite decide_False by lia.
    destruct (put_ok out [0] p Hw) as (p' & -> & Hw' & _); [simpl; lia|]. eexists. split; [done|]. simpl.
    rewrite app_nil_r. exists p'. split; [done|]. by apply written_prefix in Hw'. }
  pose proof (lookup_lt_Some _ _ _ Hc) as Hlt. rewrite decide_True by done.
  rewrite (char_at_default format n), Hc by lia. change (default 0 (Some c)) with c. cbn [mbind res_bind].
  assert (Hchar : ∀ c k, (n < k ≤ length format)%nat → ∃ r,
    (p ← put (length out) [c] p; format_loop render fuel format k (S (length out)) args allocated p) = Ok r ∧
    format_done out (match format_ref render fuel format k args with inl m => inl m | inr t => inr (c :: t) end) r).
  { intros c' k Hk. destruct (format_inv_char n k out allocated p c' HI Hk) as (p' & -> & HI').
    destruct (IH k (out ++ [c']) args allocated p' HI' ltac:(lia)) as (r & Hr & Hd). exists r.
    rewrite length_app, Nat.add_1_r in Hr. split; [done|]. by apply (format_done_app out [c']). }
  destruct (negb (isc c "%")).
  { rewrite (proj2 (Z.leb_gt _ _)) by lia. apply Hchar. lia. }
  rewrite (char_at_default format (S n)) by lia. cbn [mbind res_bind].
  destruct (isc (default 0 (format !! S n)) "%") eqn:Hpp.
  { assert (S n < length format)%nat.
    { destruct (format !! S n) eqn:Hs; [by eapply lookup_lt_Some|done]. }
    apply Hchar. lia. }
  destruct args as [|a args]; [by eexists|].
  destruct (validate_format_ok format (S n) Hflags) as (v & Hv & Hspec); [lia|]. rewrite Hv. cbn [mbind res_bind].
  destruct v as [msg|[[m w] fmt]]; [by eexists|]. destruct Hspec as [Hm Hwd].
  rewrite (char_at_default format m) by lia. cbn [mbind res_bind].
  destruct (conversion (default 0 (format !! m)) w a) as [msg|[x addlen]] eqn:Hconv; [by eexists|].
  assert (Hlm : (m < length format)%nat).
  { destruct (format !! m) as [d|] eqn:Hd; [by eapply lookup_lt_Some|]. simpl in Hconv.
    destruct (conversion_nul w a) as [msg Hnul]. by rewrite Hnul in Hconv. }
  pose proof (render_room format (S n) m w fmt _ a x addlen Hv (char_at_default format m ltac:(lia)) Hconv) as Hlen.
  set (allocated' := allocated + (addlen + 1)). pose proof (GetScratchPad_room allocated' p ltac:(unfold allocated'; lia)) as Hpad.
  destruct (scsprintf_ok out allocated' (render fmt x) (GetScratchPad allocated' p)) as (p' & -> & Hw' & Hl').
  { unfold written. rewrite GetScratchPad_take; [done|lia|unfold allocated'; lia]. }
  { unfold allocated'. lia. }
  { unfold allocated' in *. lia. }
  cbn [mbind res_bind]. rewrite Nat2Z.id, <- length_app.
  destruct (IH (S m) (out ++ render fmt x) args allocated' p') as (r & Hr & Hd); [|lia|].
  { split_and!; [done|lia|rewrite length_app; unfold allocated'; lia|lia]. }
  exists r. split; [done|]. by apply (format_done_app out (render fmt x)).
Qed.
End format.

(** C24: [format] never writes outside the scratch pad or its array for
    conversions, its assertion never fails, and its result is exactly the text
    of the reference definition, for every format without runs of more than 12
    flag characters, every argument list and every scratch pad, errors
    included. *)
Theorem format_refines render `{!RenderOk render} format args p :
  flags_ok format →
  _string_format render format args p = Ok (format_ref render (S (length format)) format 0 args).
Proof.
  intros Hfl. unfold _string_format, sqstd_format. set (allocated := Z.of_nat (length format) + 2).
  destruct (format_loop_ok render format Hfl (S (length format)) 0 [] args allocated (GetScratchPad allocated p))
    as (r & Hr & Hd); [|lia|].
  { pose proof (GetScratchPad_room allocated p ltac:(lia)). split_and!; [done|lia|simpl; lia|lia]. }
  change (length []) with 0%nat in Hr. rewrite Hr. cbn [mbind res_bind].
  destruct (format_ref render (S (length format)) format 0 args) as [msg|text]; simpl in Hd; [by subst|].
  destruct Hd as (p' & -> & Hw). by rewrite get_ok.
Qed.

(** A renderer: strings as they are, integers in decimal, floats as a zero. *)
Fixpoint decimal (fuel : nat) (i : Z) : list Z :=
  match fuel with O => [] | S f => (if 9 <? i then decimal f (i / 10) else []) ++ [48 + i mod 10] end.
Definition plain_render (fmt : list Z) (x : printed) : list Z :=
  match x with PString s => s | PInt i => decimal 10 i | PFloat _ => [48] end.

Lemma decimal_length fuel i : (length (decimal fuel i) ≤ fuel)%nat.
Proof.
  revert i. induction fuel as [|f IH]; intros i; simpl; [lia|]. rewrite length_app. simpl. specialize (IH (i / 10)).
  destruct (9 <? i); simpl; lia.
Qed.

Lemma validate_format_width format n m w fmt : validate_format format n = Ok (inr (m, w, fmt)) → 0 ≤ w.
Proof.
  unfold validate_format. set (n1 := (n + _)%nat).
  pose proof (digits_value_nonneg _ (run_length_Forall isdigit (drop n1 format))) as Hw1.
  destruct (decide _); [done|]. destruct (char_at format _) as [c|]; [|done]. cbn [mbind res_bind].
  set (n2 := (n1 + _)%nat).
  assert (Hw2 : ∀ n3 wp, (if isc c "." then (S n2, run_length isdigit (drop (S n2) format)) else (n2, O)) = (n3, wp) →
    0 ≤ digits_value (take wp (drop n3 format))).
  { intros n3 wp H. destruct (isc c "."); injection H as <- <-; [|done]. apply digits_value_nonneg, run_length_Forall. }
  destruct (if isc c "." then _ else _) as [n3 wp]. specialize (Hw2 n3 wp eq_refl).
  destruct (decide _); [done|]. destruct (decide _); [done|]. destruct (char_at format _); [|done]. cbn [mbind res_bind].
  destruct (decide _); [|done]. intros [= _ <- _]. lia.
Qed.

#[export] Instance plain_render_ok : RenderOk plain_render.
Proof.
  intros format n m w fmt c a x addlen Hv _ Hc. apply validate_format_width in Hv. unfold conversion in Hc.
  destruct (isc c "s"); [destruct (as_string a) as [s|]; [|done]; injection Hc as <- <-; simpl; lia|].
  destruct (_ || _); [destruct (as_integer a) as [i|]; [|done]; injection Hc as <- <-|].
  { pose proof (decimal_length 10 i). unfold plain_render, ADDITIONAL_FORMAT_SPACE. lia. }
  destruct (_ || _); [|done]. destruct (as_float a) as [f|]; [|done]. injection Hc as <- <-.
  unfold plain_render, ADDITIONAL_FORMAT_SPACE. simpl. lia.
Qed.

Definition demo_format : list Z := codes "%-5d of %s at 100%%".

Lemma demo_format_flags : flags_ok demo_format.
Proof.
  intros n. destruct (decide (n < length demo_format)%nat) as [Hn|Hn]; [|by rewrite drop_ge by lia; simpl; lia].
  assert (Hall : Forall (λ n, (run_length isfmtchr (drop n demo_format) ≤ 12)%nat) (seq 0 (length demo_format))).
  { by_evaluation. }
  rewrite Forall_forall in Hall. apply Hall, elem_of_seq. lia.
Qed.

Lemma format_refines_witness :
  _string_format plain_render demo_format [mkArg None (Some 42) None; mkArg (Some (codes "x")) None None] [] =
  Ok (inr (codes "42 of x at 100%")).
Proof.
  rewrite (format_refines plain_render demo_format _ [] demo_format_flags). vm_compute. reflexivity.
Defined.

(** ** Strip and split *)

(** [t] is [s] without white space at its ends. *)
Definition stripped (s t : list Z) : Prop :=
  ∃ a b, s = a ++ t ++ b ∧ Forall (λ c, isspace c = true) a ∧ Forall (λ c, isspace c = true) b ∧
    (∀ c, head t = Some c → isspace c = false) ∧ (∀ c, last t = Some c → isspace c = false).

Lemma strip_l_spec s :
  Forall (λ c, isspace c = true) (take (__strip_l s) s) ∧
  (∀ c, head (drop (__strip_l s) s) = Some c → isspace c = false).
Proof.
  unfold __strip_l. induction s as [|c s [IH1 IH2]]; simpl; [by split|].
  destruct (Z.eqb_spec c 0) as [->|H0]; simpl; [split; [constructor|by intros ? [= <-]]|].
  destruct (isspace c) eqn:Hc; simpl; [split; [by constructor|done]|]. split; [constructor|by intros ? [= <-]].
Qed.

Lemma strip_r_spec s n :
  (n ≤ length s)%nat →
  (__strip_r s n ≤ n)%nat ∧ Forall (λ c, isspace c = true) (drop (__strip_r s n) (take n s)) ∧
  (∀ c, last (take (__strip_r s n) s) = Some c → isspace c = false).
Proof.
  induction n as [|n IH]; intros Hn; simpl; [split_and!; [lia|constructor|done]|].
  destruct (lookup_lt_is_Some_2 s n) as [c Hc]; [lia|]. rewrite Hc. destruct (isspace c) eqn:Hsp.
  - destruct IH as (Hle & Hall & Hlast); [lia|]. split_and!; [lia| |done].
    rewrite (take_S_r s n c Hc). rewrite drop_app_le by (rewrite length_take; lia).
    apply Forall_app_2; [done|by constructor].
  - split_and!; [lia|rewrite drop_ge; [constructor|rewrite length_take; lia]|].
    intros d. rewrite (take_S_r s n c Hc), last_snoc. by intros [= <-].
Qed.

Lemma strip_l_all s : Forall (λ c, isspace c = true) s → __strip_l s = length s.
Proof.
  unfold __strip_l. induction 1 as [|c s Hc _ IH]; simpl; [done|]. rewrite Hc, IH.
  destruct (Z.eqb_spec c 0) as [->|]; [done|]. done.
Qed.

(** The middle part of a string ends as the whole does. *)
Lemma last_middle {A} (s : list A) i j : (i < j ≤ length s)%nat → last (take (j - i) (drop i s)) = last (take j s).
Proof.
  intros H. rewrite !last_lookup, !length_take, length_drop. rewrite !lookup_take_lt by lia. rewrite lookup_drop.
  f_equal. lia.
Qed.

Lemma strip_stripped s : stripped s (_string_strip s).
Proof.
  unfold _string_strip, pushstring. destruct (strip_l_spec s) as [Hl1 Hl2].
  destruct (strip_r_spec s (length s) (Nat.le_refl _)) as (Hr0 & Hr1 & Hr2). rewrite firstn_all in Hr1.
  set (i := __strip_l s) in *. set (j := __strip_r s (length s)) in *.
  destruct (Z.ltb_spec (Z.of_nat j - Z.of_nat i) 0) as [Hneg|Hpos].
  - assert (Hi : i = length s).
    { unfold i. apply strip_l_all. destruct j as [|j']; [exact Hr1|]. exfalso.
      destruct (lookup_lt_is_Some_2 s j') as [c Hc]; [lia|].
      specialize (Hr2 c). rewrite (take_S_r s j' c Hc), last_snoc in Hr2. specialize (Hr2 eq_refl).
      rewrite Forall_lookup in Hl1. specialize (Hl1 j' c). rewrite lookup_take_lt in Hl1 by lia.
      specialize (Hl1 Hc). simpl in Hl1. congruence. }
    rewrite Hi, drop_all. exists s, []. rewrite Hi, firstn_all in Hl1.
    split_and!; [by rewrite !app_nil_r|done|constructor|done|done].
  - replace (Z.to_nat (Z.of_nat j - Z.of_nat i)) with (j - i)%nat by lia.
    exists (take i s), (drop j s). split_and!; [|done|done| |].
    + replace (drop j s) with (drop (j - i) (drop i s)) by (rewrite drop_drop; f_equal; lia).
      by rewrite take_drop, take_drop.
    + intros c Hc. apply Hl2. destruct (drop i s) as [|d r]; [by rewrite take_nil in Hc|].
      destruct (j - i)%nat; [done|]. done.
    + destruct (decide (i = j)) as [->|Hne]; [by rewrite Nat.sub_diag|]. rewrite last_middle by lia. done.
Qed.

Lemma rstrip_ends s : ∃ b, s = _string_rstrip s ++ b ∧ Forall (λ c, isspace c = true) b ∧
  (∀ c, last (_string_rstrip s) = Some c → isspace c = false).
Proof.
  unfold _string_rstrip, pushstring. destruct (strip_r_spec s (length s) (Nat.le_refl _)) as (Hr0 & Hr1 & Hr2).
  rewrite firstn_all in Hr1. rewrite (proj2 (Z.ltb_ge _ _)) by lia. rewrite Nat2Z.id. eexists.
  split_and!; [symmetry; apply take_drop|done|done].
Qed.

Lemma run_length_cut s : ∃ b, s = take (run_length (λ c, negb (c =? 0)) s) s ++ b ∧
  (0 ∉ take (run_length (λ c, negb (c =? 0)) s) s) ∧ (b = [] ∨ head b = Some 0).
Proof.
  induction s as [|c s (b & Hb & Hz & Hh)]; simpl; [exists []; split_and!; [done|apply not_elem_of_nil|by left]|].
  destruct (Z.eqb_spec c 0) as [->|Hc]; simpl.
  - exists (0 :: s). split_and!; [done|apply not_elem_of_nil|by right].
  - exists b. split_and!; [by rewrite <- Hb|by apply not_elem_of_cons|done].
Qed.

Lemma lstrip_starts s : ∃ a b, s = a ++ _string_lstrip s ++ b ∧ Forall (λ c, isspace c = true) a ∧
  (0 ∉ _string_lstrip s) ∧ (b = [] ∨ head b = Some 0) ∧ (∀ c, head (_string_lstrip s) = Some c → isspace c = false).
Proof.
  unfold _string_lstrip, pushstring. destruct (strip_l_spec s) as [Hl1 Hl2]. simpl.
  destruct (run_length_cut (drop (__strip_l s) s)) as (b & Hb & Hz & Hh).
  exists (take (__strip_l s) s), b. split_and!; [by rewrite <- Hb, take_drop|done..|].
  intros c Hc. apply Hl2. rewrite Hb. by destruct (take _ (drop _ s)).
Qed.

(** C39: [strip] removes exactly the white space at both ends of a string,
    also when nothing remains; [rstrip] removes it at the end, and [lstrip]
    at the beginning, of the part in front of the first NUL character. *)
Theorem strip_removes_space s :
  stripped s (_string_strip s) ∧
  (∃ b, s = _string_rstrip s ++ b ∧ Forall (λ c, isspace c = true) b ∧
     (∀ c, last (_string_rstrip s) = Some c → isspace c = false)) ∧
  (∃ a b, s = a ++ _string_lstrip s ++ b ∧ Forall (λ c, isspace c = true) a ∧
     (0 ∉ _string_lstrip s) ∧ (b = [] ∨ head b = Some 0) ∧ (∀ c, head (_string_lstrip s) = Some c → isspace c = false)).
Proof. split_and!; [apply strip_stripped|apply rstrip_ends|apply lstrip_starts]. Qed.

(** Pieces with separators between and behind them. *)
Fixpoint weave (ps : list (list Z)) (us : list Z) : list Z :=
  match ps, us with
  | [], _ => []
  | p :: ps, u :: us => p ++ u :: weave ps us
  | p :: ps, [] => p ++ weave ps []
  end.

Definition clean (seps p : list Z) : Prop := ∀ c, c ∈ p → c ∉ seps.

Lemma existsb_sep c seps : existsb (Z.eqb c) seps = true ↔ c ∈ seps.
Proof. rewrite existsb_exists. setoid_rewrite Z.eqb_eq. setoid_rewrite <- list_elem_of_In. naive_solver. Qed.

(** The text in front of the first NUL, which is what a C string is. *)
Fixpoint before_nul (s : list Z) : list Z :=
  match s with [] => [] | c :: s' => if c =? 0 then [] else c :: before_nul s' end.

Lemma split_loop_spec seps rest : ∀ piece pieces,
  clean seps piece →
  ∃ ps us last, split_loop seps piece rest pieces = (pieces ++ ps, last) ∧ length us = length ps ∧
    piece ++ before_nul rest = weave ps us ++ last ∧ Forall (clean seps) ps ∧ clean seps last ∧ Forall (λ u, u ∈ seps) us.
Proof.
  induction rest as [|c rest IH]; intros piece pieces Hcl; simpl.
  { exists [], [], piece. rewrite !app_nil_r. split_and!; try done; constructor. }
  destruct (c =? 0); [exists [], [], piece; rewrite !app_nil_r; split_and!; try done; constructor|].
  destruct (existsb (Z.eqb c) seps) eqn:Hs.
  - apply existsb_sep in Hs. destruct (IH [] (pieces ++ [piece])) as (ps & us & last & -> & Hl & Hw & Hps & Hlast & Hus).
    { intros ? []%elem_of_nil. }
    exists (piece :: ps), (c :: us), last. split_and!; [by rewrite <- app_assoc|simpl; lia| |by constructor|done|by constructor].
    simpl. simpl in Hw. rewrite <- app_assoc. simpl. by rewrite Hw.
  - destruct (IH (piece ++ [c]) pieces) as (ps & us & last & -> & Hl & Hw & Hps & Hlast & Hus).
    { intros d [Hd| ->%list_elem_of_singleton]%elem_of_app; [by apply Hcl|]. intros Hin. apply existsb_sep in Hin. congruence. }
    exists ps, us, last. rewrite <- app_assoc in Hw. by split_and!.
Qed.

(** C31: [split] cuts a string, up to the first NUL in it, at every separator
    character: the pieces hold no separator, and written one after the other
    with the separators that were cut at they are the text in front of the NUL
    again; only an empty piece behind the last separator is left out. *)
Theorem split_rejoins s seps :
  seps ≠ [] →
  ∃ ps us rest, _string_split s seps = inr (if decide (rest = []) then ps else ps ++ [rest]) ∧
    length us = length ps ∧ before_nul s = weave ps us ++ rest ∧
    Forall (clean seps) ps ∧ clean seps rest ∧ Forall (λ u, u ∈ seps) us.
Proof.
  intros Hseps. unfold _string_split. rewrite decide_False by done.
  destruct (split_loop_spec seps s [] []) as (ps & us & rest & -> & H); [intros ? []%elem_of_nil|].
  exists ps, us, rest. by split; [|exact H].
Qed.

(** [",a;b,"] cut at commas and semicolons, with a NUL and more text behind it. *)
Lemma split_rejoins_witness :
  _string_split [44; 97; 59; 98; 44; 0; 99] [44; 59] = inr [[]; [97]; [98]] ∧
  ∃ ps us rest, _string_split [44; 97; 59; 98; 44; 0; 99] [44; 59] = inr (if decide (rest = []) then ps else ps ++ [rest]) ∧
    length us = length ps ∧ [44; 97; 59; 98; 44] = weave ps us ++ rest ∧
    Forall (clean [44; 59]) ps ∧ clean [44; 59] rest ∧ Forall (λ u, u ∈ [44; 59]) us.
Proof. split; [by vm_compute|]. by apply (split_rejoins [44; 97; 59; 98; 44; 0; 99] [44; 59]). Defined.

Lemma startswith_prefix s cmp : _string_startswith s cmp = bool_decide (cmp `prefix_of` s).
Proof.
  unfold _string_startswith. case_decide as Hl; symmetry.
  - apply bool_decide_ext. split; [|intros <-; apply prefix_take]. intros [k ->]. by rewrite take_app_length.
  - apply bool_decide_eq_false. intros Hp%prefix_length. lia.
Qed.

Lemma endswith_suffix s cmp : _string_endswith s cmp = bool_decide (cmp `suffix_of` s).
Proof.
  unfold _string_endswith. case_decide as Hl; symmetry.
  - apply bool_decide_ext. rewrite firstn_all2 by (rewrite length_drop; lia). split.
    + intros [k ->]. rewrite length_app. replace (length k + length cmp - length cmp)%nat with (length k) by lia.
      by rewrite drop_app_length.
    + intros <-. apply suffix_drop.
  - apply bool_decide_eq_false. intros Hp%suffix_length. lia.
Qed.

(** Two accesses outside their buffers. A conversion of [format] of
    eighteen characters or more between [%] and its letter, [-] signs say,
    overruns the local buffer for the conversion, whose check admits twenty.
    [escape] asks for four characters of scratch space for each character and
    has each [\x] sequence followed by a NUL, so a string of four unprintable
    characters writes one byte behind a pad of sixteen; a single one loses
    its last digit. The last part: the letters of the [switch] for the control
    characters are never used, since those characters are not printable. *)
Lemma string_library_overruns :
  (∀ render a args p, sqstd_format render (37 :: repeat 45 18 ++ [100]) (a :: args) p = Err OutOfBounds) ∧
  _string_escape [1; 2; 3; 4] (repeat None 16) = Err OutOfBounds ∧
  _string_escape [1] [] = Ok [92; 120; 48; 0] ∧
  map isprint [7; 8; 9; 10; 11; 12; 13] = repeat false 7.
Proof.
  split_and!; [by intros|by vm_compute..].
Qed.
