(* ===== verification/SqEscape.v ===== *)
(** * Escaping strings, and reading them back (sqstdstring.cpp, sqlexer.cpp)

    The composition of two components: what [escape] writes is a string
    constant of the language, and the lexer reads the original string from it.
    [esc] is the escape of one character, an instance of the encodings
    the lexer's string constants are proved for. *)

From Stdlib Require Import Ascii.
From stdpp Require Import base numbers strings option list.
From S2P Require Import Prelude CType SqLexer SqLexerSpec SqLexerRound SqRex SqStringLib SqStringLibSpec.

Open Scope Z_scope.

(** The escape of one character. *)
Definition esc (c : ascii) : list ascii :=
  if isprint (char_code c) || (char_code c =? 0)
  then match escape_letter (char_code c) with Some e => ["\"%char; code_char e] | None => [c] end
  else ["\"; "x"; hex_char (char_code c / 16); hex_char (char_code c mod 16)]%char.

(** Case distinction over all characters. *)
Lemma all_characters (P : ascii → bool) : forallb P (map (λ n, ascii_of_nat n) (seq 0 256)) = true → ∀ c, P c = true.
Proof.
  rewrite forallb_forall. intros H c. apply H, in_map_iff. exists (nat_of_ascii c).
  split; [apply ascii_nat_embedding|]. apply in_seq. pose proof (nat_ascii_bounded c). lia.
Qed.

(** The letters [escape] puts behind the backslash are those the lexer takes
    for the characters. *)
Lemma escape_letter_read c e :
  isprint (char_code c) || (char_code c =? 0) = true → escape_letter (char_code c) = Some e →
  char_code (code_char e) = e ∧ isc e "x" || (isc e "U" || isc e "u") = false ∧ simple_escape e = Some (char_code c).
Proof.
  intros Hp He.
  pose proof (all_characters (λ c, if isprint (char_code c) || (char_code c =? 0) then
      match escape_letter (char_code c) with
      | Some e => bool_decide (char_code (code_char e) = e ∧ isc e "x" || (isc e "U" || isc e "u") = false ∧
                               simple_escape e = Some (char_code c))
      | None => true
      end else true) eq_refl c) as H.
  cbv beta in H. rewrite Hp, He in H. by apply bool_decide_eq_true in H.
Qed.

Lemma escape_letter_plain c :
  isprint (char_code c) || (char_code c =? 0) = true → escape_letter (char_code c) = None →
  32 ≤ char_code c ∧ isc (char_code c) "\" = false ∧ isc (char_code c) "034" = false ∧ isc (char_code c) "'" = false.
Proof.
  intros Hp He.
  pose proof (all_characters (λ c, if isprint (char_code c) || (char_code c =? 0) then
      match escape_letter (char_code c) with
      | Some e => true
      | None => bool_decide (32 ≤ char_code c ∧ isc (char_code c) "\" = false ∧ isc (char_code c) "034" = false ∧
                             isc (char_code c) "'" = false)
      end else true) eq_refl c) as H.
  cbv beta in H. rewrite Hp, He in H. by apply bool_decide_eq_true in H.
Qed.

Lemma esc_encodes : encodes esc.
Proof.
  split.
  - intros c l rest. unfold esc. destruct (_ || _) eqn:Hp; [|apply read_hex_char].
    destruct (escape_letter (char_code c)) as [e|] eqn:He.
    + destruct (escape_letter_read c e Hp He) as (Hc & Hx & Hs). apply read_letter_char; by rewrite Hc.
    + destruct (escape_letter_plain c Hp He) as (H32 & H92 & _). by apply read_plain_char.
  - intros c rest nd Hnd. unfold esc. destruct (_ || _) eqn:Hp; [|by destruct Hnd as [-> | ->]].
    destruct (escape_letter (char_code c)) as [e|] eqn:He; [by destruct Hnd as [-> | ->]|].
    destruct (escape_letter_plain c Hp He) as (_ & _ & H34 & H39). by destruct Hnd as [-> | ->].
  - intros c. unfold esc. repeat case_match; done.
Qed.

Lemma esc_no_nul c : Ascii.zero ∉ esc c.
Proof.
  pose proof (all_characters (λ c, bool_decide (Ascii.zero ∉ esc c)) eq_refl c) as H.
  by apply bool_decide_eq_true in H.
Qed.

Lemma bind_esc_no_nul s : Ascii.zero ∉ (s ≫= esc).
Proof. intros (c & Hc & _)%list_elem_of_bind. by apply (esc_no_nul c). Qed.

Lemma hex_char_code n : 0 ≤ n < 16 → char_code (hex_char n) = hex_digit_char n.
Proof.
  intros Hn. unfold hex_char, hex_digit_char. apply char_code_code. destruct (n <? 10); lia.
Qed.

Lemma hex_codes c :
  map char_code ["\"; "x"; hex_char (char_code c / 16); hex_char (char_code c mod 16)]%char = hex_escape (char_code c).
Proof.
  pose proof (char_code_range c). unfold hex_escape. cbn [map].
  rewrite !hex_char_code by (Z.to_euclidean_division_equations; lia). done.
Qed.

Lemma esc_length c : (1 ≤ length (esc c) ≤ 4)%nat.
Proof. unfold esc. repeat case_match; simpl; lia. Qed.

(** A turn of the loop appends the escape of a character. *)
Lemma escape_step c s size out escaped p :
  4 < size → written out p → (length out + 4 < length p)%nat →
  ∃ escaped' p', escape_loop (char_code c :: s) size (length out) escaped p =
      escape_loop s size (length (out ++ map char_code (esc c))) escaped' p' ∧
    written (out ++ map char_code (esc c)) p' ∧ length p' = length p ∧
    (escaped' = false → escaped = false ∧ esc c = [c]).
Proof.
  intros Hsize Hw Hl. cbn [escape_loop]. unfold esc. destruct (_ || _) eqn:Hp.
  - destruct (escape_letter (char_code c)) as [e|] eqn:He.
    + destruct (escape_letter_read c e Hp He) as (Hc & _).
      destruct (put_ok out [char_code "\"; e] p Hw) as (p1 & -> & Hw1 & Hl1); [simpl; lia|].
      exists true, p1. cbn [map]. rewrite Hc, length_app. done.
    + destruct (put_ok out [char_code c] p Hw) as (p1 & -> & Hw1 & Hl1); [simpl; lia|].
      exists escaped, p1. cbn [map]. rewrite length_app. done.
  - rewrite hex_codes.
    destruct (scsprintf_ok out size (hex_escape (char_code c)) p Hw) as (p1 & -> & Hw1 & Hl1); [simpl; lia..|].
    exists true, p1. rewrite length_app. done.
Qed.

(** The loop writes the escapes of the characters one after the other, when the
    pad has four bytes for each and one more, and says whether it changed any. *)
Lemma escape_loop_ok s size : ∀ out escaped p,
  4 < size → written out p → (length out + 4 * length s < length p)%nat →
  ∃ escaped' p', escape_loop (map char_code s) size (length out) escaped p =
      Ok (length (out ++ map char_code (s ≫= esc)), escaped', p') ∧
    written (out ++ map char_code (s ≫= esc)) p' ∧ (escaped' = false → escaped = false ∧ s ≫= esc = s).
Proof.
  induction s as [|c s IH]; intros out escaped p Hsize Hw Hl.
  { exists escaped, p. simpl. rewrite app_nil_r. done. }
  simpl in Hl. destruct (escape_step c (map char_code s) size out escaped p Hsize Hw) as (e1 & p1 & Hrun & Hw1 & Hl1 & He1); [lia|].
  destruct (IH (out ++ map char_code (esc c)) e1 p1 Hsize Hw1) as (e2 & p2 & Hrun2 & Hw2 & He2).
  { pose proof (esc_length c). rewrite length_app, length_map. lia. }
  exists e2, p2. rewrite bind_cons, map_app, app_assoc. split; [cbn [map]; by rewrite Hrun|]. split; [done|].
  intros [E1 E2]%He2. apply He1 in E1 as [-> ->]. by rewrite E2.
Qed.

Lemma GetScratchPad_more size p :
  1 < size → Z.of_nat (length p) ≠ size → size < Z.of_nat (length (GetScratchPad size p)).
Proof.
  intros Hs Hne. unfold GetScratchPad. rewrite (proj2 (Z.ltb_lt 0 size)) by lia. cbv zeta.
  rewrite !Z.shiftr_div_pow2, Z.shiftl_mul_pow2 by lia.
  destruct (Z.ltb_spec (Z.of_nat (length p)) size) as [Hlt|Hge]; [|destruct (Z.leb_spec (size * 2 ^ 5) (Z.of_nat (length p)))];
    rewrite ?realloc_length; Z.to_euclidean_division_equations; lia.
Qed.

Lemma escape_ok s p :
  length s ≠ 1%nat → length p ≠ (4 * length s)%nat →
  _string_escape (map char_code s) p = Ok (map char_code (s ≫= esc)).
Proof.
  intros H1 Hp. unfold _string_escape. case_decide as Hnil; [by destruct s|]. rewrite length_map. cbv zeta.
  assert (2 ≤ length s)%nat by (destruct s as [|? []]; simpl in *; [done|done|lia]).
  pose proof (GetScratchPad_more (Z.of_nat (length s) * 4) p) as Hmore.
  destruct (escape_loop_ok s (Z.of_nat (length s) * 4) [] false (GetScratchPad (Z.of_nat (length s) * 4) p))
    as (escaped & p' & Hrun & Hw & He); [lia|done|simpl; lia|].
  simpl in Hrun. rewrite Hrun. cbn. destruct escaped; [by apply (get_ok _ _ Hw)|]. by destruct He as [_ ->].
Qed.

(** C12: A string that has not exactly one character, escaped with [escape]
    while the scratch pad does not happen to be exactly four times as long as
    it, put in quotes and given to the lexer is the string again: one string
    token with the same characters, NUL and characters above 127 included. *)
Theorem escape_lex_roundtrip `{KeywordTable} `{FloatReader} s p junk :
  length s ≠ 1%nat → length p ≠ (4 * length s)%nat →
  ∃ e l l', _string_escape (map char_code s) p = Ok e ∧
    Init (char_code "034" :: e ++ [char_code "034"]) junk = Ok l ∧
    lex_all 2 l = Ok ([mkToken TK_STRING_LITERAL (VString s) 1], l').
Proof.
  intros Hone Hpad. rewrite (escape_ok s p Hone Hpad).
  destruct (lex_encoded_string esc junk s esc_encodes (bind_esc_no_nul s)) as (l & l' & Hi & Hlex).
  exists (map char_code (s ≫= esc)), l, l'. split; [done|]. split; [|done].
  cbn [map] in Hi. by rewrite map_app in Hi.
Qed.

(** A quote, a tab and a NUL. *)
Lemma escape_lex_roundtrip_witness :
  _string_escape [34; 9; 0] [] = Ok [92; 34; 92; 120; 48; 57; 92; 48] ∧
  ∃ e l l', _string_escape (map char_code ["034"; "009"; "000"]%char) [] = Ok e ∧
    Init (char_code "034" :: e ++ [char_code "034"]) 7 = Ok l ∧
    @lex_all plain_keywords no_floats 2 l = Ok ([mkToken TK_STRING_LITERAL (VString ["034"; "009"; "000"]%char) 1], l').
Proof.
  split; [by vm_compute|]. by apply (@escape_lex_roundtrip plain_keywords no_floats ["034"; "009"; "000"]%char [] 7).
Defined.
