(* ===== verification/SqProto.v ===== *)
(** * Function prototypes and their stream format (sqfuncproto.h, sqobject.cpp)

    A compiled function is an [SQFunctionProto]: literals, parameters,
    variables, line information, instructions and nested functions, in one block
    of memory.  This file has the look-up of lines and of local variables, and
    the stream format: [Save] and [Load] of prototypes and closures, on a
    write and a read function of the host as in the code.  Of a closure the
    format has the prototype only. *)

From Stdlib Require Import Ascii.
From stdpp Require Import base numbers strings option list.
From S2P Require Import Prelude CType SqObject SqStream SqStringLib.

Open Scope Z_scope.

(** ** Data *)

(** The objects of a prototype.  Strings are interned, so a string is given by
    its characters; a float by its bits. *)
Inductive object :=
  | ONull | OInteger (i : Z) | OFloat (bits : Z) | OBool (i : Z) | OString (s : list Z)
  | OOther (t : SQObjectType).

Definition object_type (o : object) : SQObjectType :=
  match o with
  | ONull => OT_NULL | OInteger _ => OT_INTEGER | OFloat _ => OT_FLOAT | OBool _ => OT_BOOL
  | OString _ => OT_STRING | OOther t => t
  end.

Record SQOuterVar := mkOuter { ov_type : Z; ov_name : object; ov_src : object }.
Record SQLocalVarInfo := mkLocal { lv_name : object; _start_op : Z; _end_op : Z; _pos : Z }.
Record SQLineInfo := mkLine { _line : Z; _op : Z }.
Record SQInstruction := mkInstr { _arg1 : Z; op : Z; _arg0 : Z; _arg2 : Z; _arg3 : Z }.

(** [SQFunctionProto]; the counts are the lengths of the lists. *)
Inductive SQFunctionProto := mkProto {
  _sourcename : object;
  _name : object;
  _stacksize : Z;
  _bgenerator : bool;
  _varparams : Z;
  _localvarinfos : list SQLocalVarInfo;
  _lineinfos : list SQLineInfo;
  _literals : list object;
  _parameters : list object;
  _functions : list SQFunctionProto;
  _outervalues : list SQOuterVar;
  _defaultparams : list Z;
  _instructions : list SQInstruction
}.

(** [SQClosure]: weak references by the address of their object, the class it
    belongs to by its address; the values of free variables and of default
    parameters. *)
Record closure := mkClosureObj {
  cl_env : option Z;
  cl_root : Z;
  cl_base : option Z;
  cl_function : SQFunctionProto;
  cl_outervalues : list SQObject;
  cl_defaultparams : list SQObject
}.

(** [sizeof(SQClosure)], [sizeof(SQObjectPtr)], [_CALC_CLOSURE_SIZE] *)
Definition CLOSURE_SIZE : Z := 48.
Definition OBJECT_SIZE : Z := 8.
Definition _CALC_CLOSURE_SIZE (func : SQFunctionProto) : Z :=
  s32 (CLOSURE_SIZE + Z.of_nat (length (_outervalues func)) * OBJECT_SIZE + Z.of_nat (length (_defaultparams func)) * OBJECT_SIZE).

(** [SQClosure::Create]: both vectors are constructed, of null, behind the
    object; the block may be too small for them. *)
Definition Closure_Create (func : SQFunctionProto) (root : Z) : res closure :=
  let nouters := length (_outervalues func) in
  let ndefaults := length (_defaultparams func) in
  if CLOSURE_SIZE + Z.of_nat (nouters + ndefaults) * OBJECT_SIZE <=? u32 (_CALC_CLOSURE_SIZE func)
  then Ok (mkClosureObj None root None func (replicate nouters sq_null) (replicate ndefaults sq_null))
  else Err OutOfBounds.

(** ** Lines and local variables *)

(** [_lineinfos[i]] *)
Definition line_at (p : SQFunctionProto) (i : Z) : res SQLineInfo :=
  if i <? 0 then Err OutOfBounds else expect OutOfBounds (_lineinfos p !! Z.to_nat i).

(** The binary search of [GetLine]: the last [mid]. *)
Fixpoint line_search (fuel : nat) (p : SQFunctionProto) (op low high mid : Z) : res Z :=
  match fuel with
  | O => Err OutOfFuel
  | S fuel' =>
      if low <=? high then
        let mid := low + Z.shiftr (high - low) 1 in
        l ← line_at p mid;
        let curop := _op l in
        if op <? curop then line_search fuel' p op low (mid - 1) mid
        else if curop <? op then
          stop ← (if mid <? Z.of_nat (length (_lineinfos p)) - 1
                  then l' ← line_at p (mid + 1); Ok (op <=? _op l') else Ok false);
          if (stop : bool) then Ok mid else line_search fuel' p op (mid + 1) high mid
        else Ok mid
      else Ok mid
  end.

(** [while(mid > 0 && _lineinfos[mid]._op >= op) mid--] *)
Fixpoint line_back (fuel : nat) (p : SQFunctionProto) (op mid : Z) : res Z :=
  match fuel with
  | O => Err OutOfFuel
  | S fuel' =>
      if 0 <? mid then
        l ← line_at p mid;
        if op <=? _op l then line_back fuel' p op (mid - 1) else Ok mid
      else Ok mid
  end.

(** [SQFunctionProto::GetLine], of the instruction at [op] *)
Definition GetLine (p : SQFunctionProto) (op : Z) : res Z :=
  let n := length (_lineinfos p) in
  _ ← line_at p 0;
  mid ← line_search (S n) p op 0 (Z.of_nat n - 1) 0;
  mid ← line_back (S n) p op mid;
  l ← line_at p mid;
  Ok (_line l).

(** The loop of [GetLocal] *)
Fixpoint local_loop (stackbase nseq nop : Z) (vars : list SQLocalVarInfo) : option (Z * object) :=
  match vars with
  | [] => None
  | v :: vars' =>
      if (_start_op v <=? nop) && (nop <=? _end_op v) then
        if nseq =? 0 then Some (stackbase + _pos v, lv_name v) else local_loop stackbase (nseq - 1) nop vars'
      else local_loop stackbase nseq nop vars'
  end.

(** [SQFunctionProto::GetLocal]: the place in the stack of the value that is
    pushed, and the name. *)
Definition GetLocal (p : SQFunctionProto) (stackbase nseq nop : Z) : option (Z * object) :=
  if nseq <=? Z.of_nat (length (_localvarinfos p)) then local_loop stackbase nseq nop (_localvarinfos p) else None.

(** ** The format *)

(** Four characters as a number. *)
Definition tag4 (a b c d : ascii) : Z :=
  Z.lor (Z.lor (Z.lor (Z.shiftl (char_code a) 24) (Z.shiftl (char_code b) 16)) (Z.shiftl (char_code c) 8)) (char_code d).
Definition SQ_CLOSURESTREAM_HEAD : Z := tag4 "S" "Q" "I" "R".
Definition SQ_CLOSURESTREAM_PART : Z := tag4 "P" "A" "R" "T".
Definition SQ_CLOSURESTREAM_TAIL : Z := tag4 "T" "A" "I" "L".
Definition SQ_BYTECODE_STREAM_TAG : Z := 0xFAFA.

(** [IdType2Name], of a type code *)
Definition IdType2Name (code : Z) : option string :=
  let raw := Z.land code 0x00FFFFFF in
  if raw =? 0x1 then Some "null"%string else if raw =? 0x2 then Some "integer"%string
  else if raw =? 0x4 then Some "float"%string else if raw =? 0x8 then Some "bool"%string
  else if raw =? 0x10 then Some "string"%string else if raw =? 0x20 then Some "table"%string
  else if raw =? 0x40 then Some "array"%string else if raw =? 0x400 then Some "generator"%string
  else if (raw =? 0x100) || (raw =? 0x200) then Some "function"%string
  else if (raw =? 0x80) || (raw =? 0x800) then Some "userdata"%string
  else if raw =? 0x1000 then Some "thread"%string else if raw =? 0x2000 then Some "function"%string
  else if raw =? 0x4000 then Some "class"%string else if raw =? 0x8000 then Some "instance"%string
  else if raw =? 0x10000 then Some "weakref"%string else if raw =? 0x20000 then Some "outer"%string
  else None.

(** The message for objects that are not in the format; the C library prints a
    null string as [(null)]. *)
Definition cannot_serialize (code : Z) : fault :=
  Raised ("cannot serialize a " ++ default "(null)" (IdType2Name code))%string.

(** Structures as the compiler lays them out. *)
Definition line_bytes (l : SQLineInfo) : list Z := le_bytes 4 (_line l) ++ le_bytes 4 (_op l).
Definition instruction_bytes (i : SQInstruction) : list Z :=
  le_bytes 4 (_arg1 i) ++ le_bytes 1 (op i) ++ le_bytes 1 (_arg0 i) ++ le_bytes 1 (_arg2 i) ++ le_bytes 1 (_arg3 i).
Definition int_of (bs : list Z) : Z := s32 (le_value bs).
Definition line_of (bs : list Z) : SQLineInfo := mkLine (int_of (take 4 bs)) (int_of (drop 4 bs)).
Definition instruction_of (bs : list Z) : SQInstruction :=
  let byte i := le_value (take 1 (drop i bs)) in
  mkInstr (int_of (take 4 bs)) (byte 4%nat) (byte 5%nat) (byte 6%nat) (byte 7%nat).

(** An array of [n] structures of [size] bytes. *)
Fixpoint structures (n size : nat) (bs : list Z) : list (list Z) :=
  match n with O => [] | S n' => take size bs :: structures n' size (drop size bs) end.

(** ** Saving *)

Section save.
Context {T : Type} (write : list Z → stM T Z).

Definition SafeWrite (data : list Z) : stM T () :=
  n ← write data;
  if n =? Z.of_nat (length data) then mret () else raise (Raised "io error (write function failure)").

Definition WriteTag (tag : Z) : stM T () := SafeWrite (le_bytes 4 tag).

(** [SafeWrite] of a number of 32 bits. *)
Definition write_int (i : Z) : stM T () := SafeWrite (le_bytes 4 i).

Definition WriteObject (o : object) : stM T () :=
  write_int (type_code (object_type o));;
  match o with
  | OString s => write_int (Z.of_nat (length s));; SafeWrite s
  | OBool i | OInteger i => write_int i
  | OFloat b => write_int b
  | ONull => mret ()
  | OOther t => raise (cannot_serialize (type_code t))
  end.

(** The loops over the arrays. *)
Definition each {A} (f : A → stM T ()) : list A → stM T () :=
  fix go l := match l with [] => mret () | x :: l' => f x;; go l' end.

Definition write_outer (o : SQOuterVar) : stM T () :=
  write_int (ov_type o);; WriteObject (ov_src o);; WriteObject (ov_name o).
Definition write_local (l : SQLocalVarInfo) : stM T () :=
  WriteObject (lv_name l);; write_int (_pos l);; write_int (_start_op l);; write_int (_end_op l).

(** [SQFunctionProto::Save] *)
Fixpoint Save (p : SQFunctionProto) : stM T () :=
  WriteTag SQ_CLOSURESTREAM_PART;;
  WriteObject (_sourcename p);;
  WriteObject (_name p);;
  WriteTag SQ_CLOSURESTREAM_PART;;
  write_int (Z.of_nat (length (_literals p)));;
  write_int (Z.of_nat (length (_parameters p)));;
  write_int (Z.of_nat (length (_outervalues p)));;
  write_int (Z.of_nat (length (_localvarinfos p)));;
  write_int (Z.of_nat (length (_lineinfos p)));;
  write_int (Z.of_nat (length (_defaultparams p)));;
  write_int (Z.of_nat (length (_instructions p)));;
  write_int (Z.of_nat (length (_functions p)));;
  WriteTag SQ_CLOSURESTREAM_PART;;
  each WriteObject (_literals p);;
  WriteTag SQ_CLOSURESTREAM_PART;;
  each WriteObject (_parameters p);;
  WriteTag SQ_CLOSURESTREAM_PART;;
  each write_outer (_outervalues p);;
  WriteTag SQ_CLOSURESTREAM_PART;;
  each write_local (_localvarinfos p);;
  WriteTag SQ_CLOSURESTREAM_PART;;
  SafeWrite (_lineinfos p ≫= line_bytes);;
  WriteTag SQ_CLOSURESTREAM_PART;;
  SafeWrite (_defaultparams p ≫= le_bytes 4);;
  WriteTag SQ_CLOSURESTREAM_PART;;
  SafeWrite (_instructions p ≫= instruction_bytes);;
  WriteTag SQ_CLOSURESTREAM_PART;;
  each Save (_functions p);;
  write_int (_stacksize p);;
  SafeWrite (le_bytes 1 (if _bgenerator p then 1 else 0));;
  write_int (_varparams p).

(** [SQClosure::Save]; the sizes are those of [SQChar], [SQInteger] and
    [SQFloat]. *)
Definition Closure_Save (c : closure) : stM T () :=
  WriteTag SQ_CLOSURESTREAM_HEAD;;
  WriteTag 1;; WriteTag 4;; WriteTag 4;;
  Save (cl_function c);;
  WriteTag SQ_CLOSURESTREAM_TAIL.

(** [sq_writeclosure] *)
Definition sq_writeclosure (c : closure) : stM T () :=
  if decide (_outervalues (cl_function c) = []) then
    n ← write (le_bytes 2 SQ_BYTECODE_STREAM_TAG);
    if n =? 2 then Closure_Save c else raise (Raised "io error")
  else raise (Raised "a closure with free variables bound cannot be serialized").
End save.

(** ** Loading *)

(** [sizeof(SQFunctionProto)], the offset of [_instructions] in it, and the
    sizes of the elements of its arrays. *)
Definition PROTO_SIZE : Z := 120.
Definition PROTO_FIELDS : Z := 112.

(** [_FUNC_SIZE], in the unsigned arithmetic of [sizeof] *)
Definition _FUNC_SIZE (ni nl nparams nfuncs nouters nlineinf localinf defparams : Z) : Z :=
  u32 (PROTO_SIZE + (ni - 1) * 8 + nl * 8 + nparams * 8 + nfuncs * 8 + nouters * 20 + nlineinf * 8 + localinf * 20
       + defparams * 4).

(** Where the arrays begin in the block, and the size of the block. *)
Record layout := mkLayout {
  at_literals : Z; at_parameters : Z; at_functions : Z; at_outervalues : Z; at_lineinfos : Z; at_localvarinfos : Z;
  at_defaultparams : Z; total : Z
}.

(** Whether [n] elements of [size] bytes lie in the block. *)
Definition fits (total at_ n size : Z) : bool := (n <=? 0) || (at_ + n * size <=? total).

(** [SQFunctionProto::Create]: the block is allocated, its fields are set, and
    the arrays of objects are constructed in it. *)
Definition Create (ni nl np nf no nli nlv nd : Z) : res layout :=
  let total := _FUNC_SIZE ni nl np nf no nli nlv nd in
  let at_literals := u32 (PROTO_FIELDS + ni * 8) in
  let at_parameters := u32 (at_literals + nl * 8) in
  let at_functions := u32 (at_parameters + np * 8) in
  let at_outervalues := u32 (at_functions + nf * 8) in
  let at_lineinfos := u32 (at_outervalues + no * 20) in
  let at_localvarinfos := u32 (at_lineinfos + nli * 8) in
  let at_defaultparams := u32 (at_localvarinfos + nlv * 20) in
  if (PROTO_FIELDS <=? total) && fits total at_literals nl 8 && fits total at_parameters np 8
     && fits total at_functions nf 8 && fits total at_outervalues no 20 && fits total at_localvarinfos nlv 20
  then Ok (mkLayout at_literals at_parameters at_functions at_outervalues at_lineinfos at_localvarinfos at_defaultparams total)
  else Err OutOfBounds.

(** The characters in front of the first NUL. *)
Fixpoint c_string (p : list (option Z)) : res (list Z) :=
  match p with
  | Some c :: p' => if c =? 0 then Ok [] else s ← c_string p'; Ok (c :: s)
  | _ => Err OutOfBounds
  end.

Section load.
(** The read function gives its result and the bytes it stored. *)
Context {T : Type} (read : Z → stM T (Z * list Z)).

(** The stream, and the scratch pad of the shared state. *)
Definition loader : Type := T * list (option Z).

Definition call_read (size : Z) : stM loader (Z * list Z) := λ '(t, pad),
  match read size t with Ok (r, t') => Ok (r, (t', pad)) | Err e => Err e end.

(** [SafeRead] into a buffer that has [room] bytes. *)
Definition SafeRead (room size : Z) : stM loader (list Z) :=
  if size =? 0 then mret [] else
  '(n, data) ← call_read size;
  if room <? Z.of_nat (length data) then raise OutOfBounds
  else if n =? size then mret data
  else raise (Raised "io error, read function failure, the origin stream could be corrupted/trucated").

Definition read_unsigned : stM loader Z := data ← SafeRead 4 4; mret (le_value data).
Definition read_int : stM loader Z := data ← SafeRead 4 4; mret (int_of data).

Definition CheckTag (tag : Z) : stM loader () :=
  t ← read_unsigned;
  if negb (t =? tag) then raise (Raised "invalid or corrupted closure stream") else mret ().

(** The string of the given length in the scratch pad. *)
Definition read_chars (len : Z) : stM loader (list Z) :=
  modify (λ '(t, pad), (t, GetScratchPad len pad));;
  room ← gets (λ l : loader, Z.of_nat (length l.2));
  data ← SafeRead room len;
  pad ← gets snd;
  pad ← lift (put 0 data pad);
  modify (λ '(t, _), (t, pad));;
  lift (if len <? 0 then c_string pad else get (Z.to_nat len) pad).

Definition ReadObject : stM loader object :=
  t ← read_unsigned;
  if t =? type_code OT_STRING then len ← read_int; s ← read_chars len; mret (OString s)
  else if t =? type_code OT_INTEGER then i ← read_int; mret (OInteger i)
  else if t =? type_code OT_BOOL then i ← read_int; mret (OBool i)
  else if t =? type_code OT_FLOAT then b ← read_unsigned; mret (OFloat b)
  else if t =? type_code OT_NULL then mret ONull
  else raise (cannot_serialize t).

(** The loops over the arrays. *)
Fixpoint times {A} (n : nat) (m : stM loader A) : stM loader (list A) :=
  match n with O => mret [] | S n' => x ← m; l ← times n' m; mret (x :: l) end.

Definition read_outer : stM loader SQOuterVar :=
  type ← read_unsigned; o ← ReadObject; name ← ReadObject; mret (mkOuter type name o).
Definition read_local : stM loader SQLocalVarInfo :=
  name ← ReadObject; pos ← read_unsigned; start_op ← read_unsigned; end_op ← read_unsigned;
  mret (mkLocal name start_op end_op pos).

(** The array of [n] structures of [size] bytes at an offset of the block. *)
Definition read_structures (l : layout) (at_ n size : Z) : stM loader (list (list Z)) :=
  data ← SafeRead (total l - at_) (s32 (size * n));
  mret (structures (length data / Z.to_nat size) (Z.to_nat size) data).

(** [SQFunctionProto::Load] *)
Fixpoint Load (fuel : nat) : stM loader SQFunctionProto :=
  match fuel with
  | O => raise OutOfFuel
  | S fuel' =>
      CheckTag SQ_CLOSURESTREAM_PART;;
      sourcename ← ReadObject;
      name ← ReadObject;
      CheckTag SQ_CLOSURESTREAM_PART;;
      nliterals ← read_int; nparameters ← read_int; noutervalues ← read_int; nlocalvarinfos ← read_int;
      nlineinfos ← read_int; ndefaultparams ← read_int; ninstructions ← read_int; nfunctions ← read_int;
      f ← lift (Create ninstructions nliterals nparameters nfunctions noutervalues nlineinfos nlocalvarinfos ndefaultparams);
      CheckTag SQ_CLOSURESTREAM_PART;;
      literals ← times (Z.to_nat nliterals) ReadObject;
      CheckTag SQ_CLOSURESTREAM_PART;;
      parameters ← times (Z.to_nat nparameters) ReadObject;
      CheckTag SQ_CLOSURESTREAM_PART;;
      outervalues ← times (Z.to_nat noutervalues) read_outer;
      CheckTag SQ_CLOSURESTREAM_PART;;
      localvarinfos ← times (Z.to_nat nlocalvarinfos) read_local;
      CheckTag SQ_CLOSURESTREAM_PART;;
      lineinfos ← read_structures f (at_lineinfos f) nlineinfos 8;
      CheckTag SQ_CLOSURESTREAM_PART;;
      defaultparams ← read_structures f (at_defaultparams f) ndefaultparams 4;
      CheckTag SQ_CLOSURESTREAM_PART;;
      instructions ← read_structures f PROTO_FIELDS ninstructions 8;
      CheckTag SQ_CLOSURESTREAM_PART;;
      functions ← times (Z.to_nat nfunctions) (Load fuel');
      stacksize ← read_int;
      bgenerator ← SafeRead 1 1;
      varparams ← read_int;
      mret (mkProto sourcename name stacksize (negb (le_value bgenerator =? 0)) varparams localvarinfos
              (map line_of lineinfos) literals parameters functions outervalues (map int_of defaultparams)
              (map instruction_of instructions))
  end.

(** [SQClosure::Load]; [root] is the root table of the virtual machine. *)
Definition Closure_Load (root : Z) (fuel : nat) : stM loader closure :=
  CheckTag SQ_CLOSURESTREAM_HEAD;;
  CheckTag 1;; CheckTag 4;; CheckTag 4;;
  func ← Load fuel;
  CheckTag SQ_CLOSURESTREAM_TAIL;;
  lift (Closure_Create func root).

(** [sq_readclosure] *)
Definition sq_readclosure (root : Z) (fuel : nat) : stM loader closure :=
  '(n, data) ← call_read 2;
  if negb (n =? 2) then raise (Raised "io error")
  else if negb (le_value data =? SQ_BYTECODE_STREAM_TAG) then raise (Raised "invalid stream")
  else Closure_Load root fuel.
End load.
