(* ===== verification/SqProtoSpec.v ===== *)
(** * What is saved is loaded

    The stream format as a function from prototypes to bytes: [Save] writes it,
    [Load] reads it back, and a file that ends too early is reported as an
    error.  Then the look-up of lines and of local variables against reference
    definitions, and streams [Load] should not trust. *)

From Stdlib Require Import Ascii.
From stdpp Require Import base numbers strings option list.
From S2P Require Import Prelude CType SqObject SqStream SqStringLib SqStringLibSpec SqProto.

Open Scope Z_scope.

(** ** The format *)

Definition int_ok (i : Z) : Prop := - 2 ^ 31 ≤ i < 2 ^ 31.
Definition word_ok (i : Z) : Prop := 0 ≤ i < 2 ^ 32.

Definition object_ok (o : object) : Prop :=
  match o with
  | ONull => True
  | OInteger i | OBool i => int_ok i
  | OFloat b => word_ok b
  | OString s => Forall is_byte s ∧ Z.of_nat (length s) ≤ max_len
  | OOther _ => False
  end.

Definition enc_object (o : object) : list Z :=
  le_bytes 4 (type_code (object_type o)) ++
  match o with
  | ONull => []
  | OInteger i | OBool i => le_bytes 4 i
  | OFloat b => le_bytes 4 b
  | OString s => le_bytes 4 (Z.of_nat (length s)) ++ s
  | OOther _ => []
  end.

Definition outer_ok (o : SQOuterVar) : Prop := word_ok (ov_type o) ∧ object_ok (ov_name o) ∧ object_ok (ov_src o).
Definition enc_outer (o : SQOuterVar) : list Z :=
  le_bytes 4 (ov_type o) ++ enc_object (ov_src o) ++ enc_object (ov_name o).

Definition local_ok (l : SQLocalVarInfo) : Prop :=
  object_ok (lv_name l) ∧ word_ok (_start_op l) ∧ word_ok (_end_op l) ∧ word_ok (_pos l).
Definition enc_local (l : SQLocalVarInfo) : list Z :=
  enc_object (lv_name l) ++ le_bytes 4 (_pos l) ++ le_bytes 4 (_start_op l) ++ le_bytes 4 (_end_op l).

Definition line_ok (l : SQLineInfo) : Prop := int_ok (_line l) ∧ int_ok (_op l).
Definition instruction_ok (i : SQInstruction) : Prop :=
  int_ok (_arg1 i) ∧ is_byte (op i) ∧ is_byte (_arg0 i) ∧ is_byte (_arg2 i) ∧ is_byte (_arg3 i).

(** The size of the block of a prototype. *)
Definition block_size (p : SQFunctionProto) : Z :=
  PROTO_FIELDS + 8 * Z.of_nat (length (_instructions p) + length (_literals p) + length (_parameters p)
                               + length (_functions p) + length (_lineinfos p))
  + 20 * Z.of_nat (length (_outervalues p) + length (_localvarinfos p)) + 4 * Z.of_nat (length (_defaultparams p)).

(** A prototype whose block fits into the memory of a target. *)
Fixpoint proto_ok (p : SQFunctionProto) : Prop :=
  block_size p ≤ max_len ∧ object_ok (_sourcename p) ∧ object_ok (_name p) ∧ int_ok (_stacksize p) ∧ int_ok (_varparams p) ∧
  Forall local_ok (_localvarinfos p) ∧ Forall line_ok (_lineinfos p) ∧ Forall object_ok (_literals p) ∧
  Forall object_ok (_parameters p) ∧ Forall outer_ok (_outervalues p) ∧ Forall int_ok (_defaultparams p) ∧
  Forall instruction_ok (_instructions p) ∧ foldr (λ f P, proto_ok f ∧ P) True (_functions p).

Definition PART : list Z := le_bytes 4 SQ_CLOSURESTREAM_PART.
Definition count {A} (l : list A) : list Z := le_bytes 4 (Z.of_nat (length l)).

Fixpoint enc_proto (p : SQFunctionProto) : list Z :=
  PART ++ enc_object (_sourcename p) ++ enc_object (_name p) ++
  PART ++ count (_literals p) ++ count (_parameters p) ++ count (_outervalues p) ++ count (_localvarinfos p) ++
  count (_lineinfos p) ++ count (_defaultparams p) ++ count (_instructions p) ++ count (_functions p) ++
  PART ++ (_literals p ≫= enc_object) ++
  PART ++ (_parameters p ≫= enc_object) ++
  PART ++ (_outervalues p ≫= enc_outer) ++
  PART ++ (_localvarinfos p ≫= enc_local) ++
  PART ++ (_lineinfos p ≫= line_bytes) ++
  PART ++ (_defaultparams p ≫= le_bytes 4) ++
  PART ++ (_instructions p ≫= instruction_bytes) ++
  PART ++ foldr (λ f bs, enc_proto f ++ bs) [] (_functions p) ++
  le_bytes 4 (_stacksize p) ++ le_bytes 1 (if _bgenerator p then 1 else 0) ++ le_bytes 4 (_varparams p).

Definition enc_closure (p : SQFunctionProto) : list Z :=
  le_bytes 4 SQ_CLOSURESTREAM_HEAD ++ le_bytes 4 1 ++ le_bytes 4 4 ++ le_bytes 4 4 ++ enc_proto p ++
  le_bytes 4 SQ_CLOSURESTREAM_TAIL.

Definition enc_file (p : SQFunctionProto) : list Z := le_bytes 2 SQ_BYTECODE_STREAM_TAG ++ enc_closure p.

Fixpoint depth (p : SQFunctionProto) : nat := S (foldr (λ f n, depth f `max` n)%nat 0%nat (_functions p)).

(** The fields of a prototype given by its parts. *)
Ltac fields :=
  cbn [_sourcename _name _stacksize _bgenerator _varparams _localvarinfos _lineinfos _literals _parameters _functions
       _outervalues _defaultparams _instructions] in *.

(** ** Induction over nested functions *)

Lemma depth_functions p f : f ∈ _functions p → (depth f < depth p)%nat.
Proof.
  destruct p as [? ? ? ? ? ? ? ? ? fs0 ? ? ?]. simpl. induction 1 as [f fs|f g fs _ IH]; simpl; lia.
Qed.

Lemma proto_rec (P : SQFunctionProto → Prop) :
  (∀ p, (∀ f, f ∈ _functions p → P f) → P p) → ∀ p, P p.
Proof.
  intros Hstep p. remember (depth p) as n eqn:Hn. assert (Hle : (depth p ≤ n)%nat) by lia. clear Hn.
  revert p Hle. induction n as [|n IH]; intros p Hle; apply Hstep; intros f Hf%depth_functions; [lia|].
  apply IH. lia.
Qed.

Lemma proto_ok_functions p f : proto_ok p → f ∈ _functions p → proto_ok f.
Proof.
  destruct p as [? ? ? ? ? ? ? ? ? fs0 ? ? ?]. intros Hp Hf. simpl in Hf. assert (Hall : foldr (λ f P, proto_ok f ∧ P) True fs0) by apply Hp.
  clear Hp. induction Hf as [f fs|f g fs _ IH]; simpl in Hall; [apply Hall|]. apply IH, Hall.
Qed.

(** ** Writing *)

Section writing.
Context {T : Type} (write : list Z → stM T Z) (fview : T → file) (ok : T → Prop).
Hypothesis ok_file : ∀ t, ok t → file_ok (fview t).
Hypothesis write_file : ∀ t data, ok t → Forall is_byte data → Z.of_nat (fpos (fview t) + length data) ≤ max_len →
  runs (write data) t (λ n t', ok t' ∧ n = Z.of_nat (length data) ∧ fview t' = f_write data (fview t)).

(** [m] writes [bs]. *)
Definition writes {A} (m : stM T A) (bs : list Z) : Prop := ∀ t, ok t → Z.of_nat (fpos (fview t) + length bs) ≤ max_len →
  runs m t (λ _ t', ok t' ∧ fview t' = f_write bs (fview t)).

Lemma f_write_app b1 b2 f : (fpos f ≤ length (fbytes f))%nat → f_write b2 (f_write b1 f) = f_write (b1 ++ b2) f.
Proof using Type.
  intros Hp. unfold f_write. simpl. rewrite !length_app. f_equal; [|lia].
  rewrite (app_assoc (take _ _) b1), take_app_ge by (rewrite length_app, length_take_le; lia).
  rewrite length_app, length_take_le by lia. rewrite Nat.sub_diag, take_0, app_nil_r.
  rewrite drop_app_ge by (rewrite length_app, length_take_le; lia). rewrite length_app, length_take_le by lia.
  rewrite drop_drop, <- !app_assoc. do 3 f_equal. f_equal. lia.
Qed.

Lemma f_write_nil f : (fpos f ≤ length (fbytes f))%nat → f_write [] f = f.
Proof using Type. intros Hp. unfold f_write. destruct f as [bs n]. simpl. by rewrite Nat.add_0_r, take_drop. Qed.

Lemma writes_ret {A} (a : A) : writes (mret a) [].
Proof using ok_file. intros t Ht _. apply runs_ret. split; [done|]. rewrite f_write_nil; [done|]. by apply ok_file. Qed.

Lemma writes_bind {A B} (m : stM T A) (k : A → stM T B) b1 b2 :
  writes m b1 → (∀ a, writes (k a) b2) → writes (m ≫= k) (b1 ++ b2).
Proof using ok_file.
  intros Hm Hk t Ht Hfit. rewrite length_app in Hfit. apply runs_bind.
  eapply runs_mono; [apply Hm; [done|lia]|]. intros a t1 (Ht1 & Hv1).
  eapply runs_mono; [apply Hk; [done|rewrite Hv1; simpl; lia]|]. intros b t2 (Ht2 & Hv2). split; [done|].
  rewrite Hv2, Hv1. apply f_write_app. by apply ok_file.
Qed.

Lemma writes_data data : Forall is_byte data → writes (SafeWrite write data) data.
Proof using write_file.
  intros Hd t Ht Hfit. apply runs_bind. eapply runs_mono; [by apply write_file|]. intros n t1 (Ht1 & -> & Hv1).
  rewrite Z.eqb_refl. by apply runs_ret.
Qed.

Lemma writes_int i : writes (write_int write i) (le_bytes 4 i).
Proof using write_file. apply writes_data, le_bytes_byte. Qed.

Lemma writes_object o : object_ok o → writes (WriteObject write o) (enc_object o).
Proof using ok_file write_file.
  intros Ho. apply writes_bind; [apply writes_int|]. intros _.
  destruct o as [|i|b|i|s|t]; try apply writes_int; [apply writes_ret| |done].
  apply writes_bind; [apply writes_int|]. intros _. by apply writes_data, Ho.
Qed.

Lemma writes_each {A} (f : A → stM T ()) enc l :
  (∀ x, x ∈ l → writes (f x) (enc x)) → writes (each f l) (foldr (λ x bs, enc x ++ bs) [] l).
Proof using ok_file.
  induction l as [|x l IH]; intros Hf; [apply writes_ret|]. simpl.
  apply writes_bind; [apply Hf; by left|]. intros _. apply IH. intros y Hy. apply Hf. by right.
Qed.

Lemma foldr_bind {A} (enc : A → list Z) l : foldr (λ x bs, enc x ++ bs) [] l = l ≫= enc.
Proof using Type. induction l as [|x l IH]; [done|]. simpl. by rewrite IH. Qed.

Lemma writes_all {A} (f : A → stM T ()) enc (P : A → Prop) l :
  (∀ x, P x → writes (f x) (enc x)) → Forall P l → writes (each f l) (l ≫= enc).
Proof using ok_file.
  intros Hf Hl. rewrite <- foldr_bind. apply writes_each. intros x Hx. apply Hf. by eapply Forall_forall.
Qed.

Lemma writes_outer o : outer_ok o → writes (write_outer write o) (enc_outer o).
Proof using ok_file write_file.
  intros (_ & Hn & Hs). apply writes_bind; [apply writes_int|]. intros _.
  apply writes_bind; [by apply writes_object|]. intros _. by apply writes_object.
Qed.

Lemma writes_local l : local_ok l → writes (write_local write l) (enc_local l).
Proof using ok_file write_file.
  intros (Hn & _). apply writes_bind; [by apply writes_object|]. intros _.
  apply writes_bind; [apply writes_int|]. intros _. apply writes_bind; [apply writes_int|]. intros _. apply writes_int.
Qed.

Lemma structures_byte {A} (enc : A → list Z) l : (∀ x, Forall is_byte (enc x)) → Forall is_byte (l ≫= enc).
Proof using Type. intros Hx. induction l as [|x l IH]; [constructor|]. simpl. by apply Forall_app_2. Qed.

(** One write of [Save]. *)
Ltac writes_step :=
  apply writes_bind;
    [first [apply writes_int | by apply writes_object | by eapply writes_all; eauto using writes_object, writes_outer, writes_local
           | apply writes_data, structures_byte; intros; by repeat apply Forall_app_2; apply le_bytes_byte
           | apply writes_data, le_bytes_byte]|intros _].

Lemma writes_proto p : proto_ok p → writes (Save write p) (enc_proto p).
Proof using ok_file write_file.
  induction p as [p IH] using proto_rec. intros Hp. pose proof (λ f, proto_ok_functions p f Hp) as Hfs. destruct p as [].
  fields. destruct Hp as (_ & ? & ? & _ & _ & ? & ? & ? & ? & ? & ? & ? & _).
  cbn [Save enc_proto]. fields.
  do 27 writes_step. apply writes_bind; [|intros _; do 2 writes_step; apply writes_int].
  apply writes_each. intros f Hf. apply IH; [done|]. by apply Hfs.
Qed.

Lemma writes_closure c :
  proto_ok (cl_function c) → _outervalues (cl_function c) = [] → writes (sq_writeclosure write c) (enc_file (cl_function c)).
Proof using ok_file write_file.
  intros Hp Ho. unfold sq_writeclosure. rewrite decide_True by done. intros t Ht Hfit.
  unfold enc_file in *. rewrite length_app, le_bytes_length in Hfit. apply runs_bind.
  eapply runs_mono; [apply write_file; [done|apply le_bytes_byte|rewrite le_bytes_length; lia]|].
  intros n t1 (Ht1 & -> & Hv1). rewrite le_bytes_length. cbn match.
  assert (Hc : writes (Closure_Save write c) (enc_closure (cl_function c))).
  { do 4 writes_step. apply writes_bind; [by apply writes_proto|]. intros _. apply writes_int. }
  eapply runs_mono; [apply Hc; [done|]|].
  { rewrite Hv1. unfold f_write. cbn [fpos]. rewrite le_bytes_length. lia. }
  intros a t2 (Ht2 & Hv2). split; [done|]. rewrite Hv2, Hv1. apply f_write_app. by apply ok_file.
Qed.
End writing.

(** ** Reading *)

Section reading.
Context {T : Type} (read : Z → stM T (Z * list Z)) (fview : T → file) (ok : T → Prop).
Hypothesis read_file : ∀ t n, ok t → 0 < n ≤ max_len →
  runs (read n) t (λ r t', ok t' ∧ r.2 = f_read n (fview t) ∧
    r.1 = (if decide (r.2 = []) then -1 else Z.of_nat (length r.2)) ∧ fview t' = f_skip (length r.2) (fview t)).

(** What is left of a stream. *)
Definition left_of (t : T) : list Z := drop (fpos (fview t)) (fbytes (fview t)).

Definition truncated : fault :=
  Raised "io error, read function failure, the origin stream could be corrupted/trucated".

(** [m] reads [v] from [bs], and reports a stream that ends inside [bs]. *)
Definition parses {A} (m : stM (loader (T:=T)) A) (v : A) (bs : list Z) : Prop := ∀ t pad rest,
  ok t →
  (left_of t = bs ++ rest → runs m (t, pad) (λ a l, a = v ∧ ok l.1 ∧ left_of l.1 = rest)) ∧
  (∀ missing, missing ≠ [] → bs = left_of t ++ missing → m (t, pad) = Err truncated).

Lemma parses_ret {A} (v : A) : parses (mret v) v [].
Proof using Type.
  intros t pad rest Ht. split; [intros Hl; by apply runs_ret|]. intros missing Hne Hb.
  by destruct (left_of t), missing.
Qed.

Lemma parses_bind {A B} (m : stM loader A) (k : A → stM loader B) v w b1 b2 :
  parses m v b1 → parses (k v) w b2 → parses (m ≫= k) w (b1 ++ b2).
Proof using Type.
  intros Hm Hk t pad rest Ht. split.
  - intros Hl. rewrite <- app_assoc in Hl. apply runs_bind.
    eapply runs_mono; [by eapply (Hm t pad)|]. intros a [t1 pad1] (-> & Ht1 & Hl1). by apply Hk.
  - intros missing Hne Hb. destruct (decide (length b1 ≤ length (left_of t))%nat) as [Hlen|Hlen].
    + assert (Hpre : left_of t = b1 ++ drop (length b1) (left_of t)).
      { apply (f_equal (take (length b1))) in Hb as Hb1. rewrite take_app_length, take_app_le in Hb1 by done.
        rewrite Hb1 at 1. by rewrite take_drop. }
      destruct (Hm t pad (drop (length b1) (left_of t)) Ht) as [Hrun _]. specialize (Hrun Hpre).
      unfold runs in Hrun. unfold mbind, stM_bind. destruct (m (t, pad)) as [[a [t1 pad1]]|]; [|done].
      destruct Hrun as (-> & Ht1 & Hl1). destruct (Hk t1 pad1 [] Ht1) as [_ Htr]. apply (Htr missing Hne).
      simpl in Hl1. rewrite Hl1. rewrite Hpre, <- app_assoc in Hb. by apply app_inv_head in Hb.
    + destruct (Hm t pad [] Ht) as [_ Htr]. unfold mbind, stM_bind.
      rewrite (Htr (drop (length (left_of t)) b1)); [done| |].
      * intros Hd. apply (f_equal length) in Hd. rewrite length_drop in Hd. simpl in Hd. lia.
      * apply (f_equal (take (length b1))) in Hb. rewrite take_app_length, take_app_ge in Hb by lia.
        rewrite Hb at 1 2. rewrite drop_app_length. done.
Qed.

Lemma parses_map {A B} (m : stM loader A) (f : A → B) v bs : parses m v bs → parses (x ← m; mret (f x)) (f v) bs.
Proof using Type. intros Hm. rewrite <- (app_nil_r bs). eapply parses_bind; [done|apply parses_ret]. Qed.

Lemma parses_lift {A B} (r : res A) (k : A → stM loader B) v w bs :
  r = Ok v → parses (k v) w bs → parses (lift r ≫= k) w bs.
Proof using Type. by intros ->. Qed.

(** Reading bytes; the scratch pad stays. *)
Lemma safe_read_left room data t pad rest :
  ok t → Z.of_nat (length data) ≤ max_len → Z.of_nat (length data) ≤ room → left_of t = data ++ rest →
  runs (SafeRead read room (Z.of_nat (length data))) (t, pad) (λ a l, a = data ∧ ok l.1 ∧ left_of l.1 = rest ∧ l.2 = pad).
Proof using read_file.
  intros Ht Hmax Hroom Hl. unfold SafeRead. destruct (Z.eqb_spec (Z.of_nat (length data)) 0) as [H0|H0].
  { assert (data = []) as -> by (destruct data; [done|simpl in H0; lia]). by apply runs_ret. }
  apply runs_bind. pose proof (read_file t (Z.of_nat (length data)) Ht ltac:(lia)) as Hr.
  unfold runs, call_read in *. destruct (read _ t) as [[[n d] t1]|]; [|done]. destruct Hr as (Ht1 & Hd & Hn & Hv1).
  simpl in Hd, Hn. assert (d = data) as ->.
  { rewrite Hd. unfold f_read. rewrite Nat2Z.id. fold (left_of t). by rewrite Hl, take_app_length. }
  rewrite decide_False in Hn by (intros ->; done). rewrite Hn, Z.eqb_refl.
  rewrite (proj2 (Z.ltb_ge room _)) by done. apply runs_ret. split_and!; [done|done| |done].
  unfold left_of. simpl. rewrite Hv1. unfold f_skip. simpl. rewrite <- drop_drop. fold (left_of t). by rewrite Hl, drop_app_length.
Qed.

Lemma safe_read_truncated room size t pad :
  ok t → (Z.of_nat (length (left_of t)) < size ≤ max_len) → size ≤ room →
  SafeRead read room size (t, pad) = Err truncated.
Proof using read_file.
  intros Ht Hsize Hroom. unfold SafeRead. rewrite (proj2 (Z.eqb_neq size 0)) by lia.
  pose proof (read_file t size Ht ltac:(lia)) as Hr. unfold mbind, stM_bind, call_read. unfold runs in Hr.
  destruct (read size t) as [[[n d] t1]|]; [|done]. destruct Hr as (Ht1 & Hd & Hn & Hv1). simpl in Hd, Hn.
  assert (d = left_of t) as -> by (rewrite Hd; apply take_ge; fold (left_of t); lia).
  rewrite (proj2 (Z.ltb_ge room _)) by lia. rewrite (proj2 (Z.eqb_neq n size)); [done|].
  rewrite Hn. destruct (decide _); lia.
Qed.

Lemma parses_data room data :
  Z.of_nat (length data) ≤ max_len → Z.of_nat (length data) ≤ room →
  parses (SafeRead read room (Z.of_nat (length data))) data data.
Proof using read_file.
  intros Hmax Hroom t pad rest Ht. split.
  - intros Hl. eapply runs_mono; [by apply (safe_read_left room data t pad rest)|]. naive_solver.
  - intros missing Hne Hb. apply safe_read_truncated; [done| |done].
    apply (f_equal length) in Hb. rewrite length_app in Hb. destruct missing; [done|]. simpl in Hb. lia.
Qed.

Lemma parses_word n v : 0 < Z.of_nat n ≤ 4 → parses (SafeRead read (Z.of_nat n) (Z.of_nat n)) (le_bytes n v) (le_bytes n v).
Proof using read_file.
  intros Hn. pose proof (parses_data (Z.of_nat n) (le_bytes n v)) as H. rewrite le_bytes_length in H.
  apply H; unfold max_len; lia.
Qed.

Lemma parses_unsigned i : word_ok i → parses (read_unsigned read) i (le_bytes 4 i).
Proof using read_file.
  intros Hi. replace i with (le_value (le_bytes 4 i)) at 1; [apply parses_map, (parses_word 4); lia|].
  rewrite le_value_bytes. by apply Z.mod_small.
Qed.

Lemma int_of_bytes i : int_ok i → int_of (le_bytes 4 i) = i.
Proof using Type.
  intros Hi. unfold int_of. rewrite le_value_bytes. change (i mod 2 ^ (8 * Z.of_nat 4)) with (u32 i).
  unfold s32. rewrite (u32_small (u32 i)) by apply u32_range. by apply s32_small.
Qed.

Lemma parses_int i : int_ok i → parses (read_int read) i (le_bytes 4 i).
Proof using read_file.
  intros Hi. rewrite <- (int_of_bytes i Hi) at 1. apply (parses_map _ int_of), (parses_word 4). lia.
Qed.

Lemma parses_tag tag : word_ok tag → parses (CheckTag read tag) () (le_bytes 4 tag).
Proof using read_file.
  intros Ht. rewrite <- (app_nil_r (le_bytes 4 tag)). eapply parses_bind; [by apply parses_unsigned|].
  rewrite Z.eqb_refl. apply parses_ret.
Qed.

Lemma parses_count {A} (l : list A) : Z.of_nat (length l) ≤ max_len → parses (read_int read) (Z.of_nat (length l)) (count l).
Proof using read_file. intros Hl. apply parses_int. unfold int_ok, max_len in *. lia. Qed.

(** A string goes through the scratch pad. *)
Lemma parses_chars s : Z.of_nat (length s) ≤ max_len → parses (read_chars read (Z.of_nat (length s))) s s.
Proof using read_file.
  intros Hs t pad rest Ht. set (pad1 := GetScratchPad (Z.of_nat (length s)) pad).
  pose proof (GetScratchPad_room (Z.of_nat (length s)) pad ltac:(lia)) as Hroom. fold pad1 in Hroom. split.
  - intros Hl. apply runs_bind, runs_modify, runs_bind, runs_gets, runs_bind. fold pad1. simpl.
    eapply runs_mono; [by apply (safe_read_left _ s t pad1 rest)|]. intros a [t2 pad2] (-> & Ht2 & Hl2 & Hpad). simpl in Hpad.
    subst pad2. apply runs_bind, runs_gets. simpl. destruct (put_ok [] s pad1) as (pad3 & Hput & Hw & _); [done|simpl; lia|].
    simpl in Hput. apply runs_bind. rewrite Hput. apply runs_ret. apply runs_bind, runs_modify.
    rewrite (proj2 (Z.ltb_ge _ 0)) by lia. rewrite Nat2Z.id, (get_ok s pad3) by done. by apply runs_ret.
  - intros missing Hne Hb. unfold read_chars.
    change (Err truncated) with (@Err (list Z * @loader T) truncated).
    unfold modify, gets, mbind, stM_bind. fold pad1. simpl.
    rewrite (safe_read_truncated _ _ t pad1 Ht); [done| |done].
    apply (f_equal length) in Hb. rewrite length_app in Hb. destruct missing; [done|]. simpl in Hb. lia.
Qed.

Lemma type_word t : word_ok (type_code t).
Proof using Type. by destruct t. Qed.

Lemma parses_object o : object_ok o → parses (ReadObject read) o (enc_object o).
Proof using read_file.
  intros Ho. eapply parses_bind; [apply parses_unsigned, type_word|].
  destruct o as [|i|b|i|s|t]; cbn [object_type].
  - apply parses_ret.
  - by apply (parses_map _ OInteger), parses_int.
  - by apply (parses_map _ OFloat), parses_unsigned.
  - by apply (parses_map _ OBool), parses_int.
  - destruct Ho as [_ Ho]. eapply parses_bind; [by apply (parses_count s)|].
    by apply (parses_map _ OString), parses_chars.
  - done.
Qed.

Lemma parses_outer o : outer_ok o → parses (read_outer read) o (enc_outer o).
Proof using read_file.
  intros (Ht & Hn & Hs). destruct o as [ty name src]. eapply parses_bind; [by apply parses_unsigned|].
  eapply parses_bind; [by apply parses_object|]. by apply (parses_map _ (λ n, mkOuter ty n src)), parses_object.
Qed.

Lemma parses_local l : local_ok l → parses (read_local read) l (enc_local l).
Proof using read_file.
  intros (Hn & Hs & He & Hp). destruct l as [name s e p]. eapply parses_bind; [by apply parses_object|].
  eapply parses_bind; [by apply parses_unsigned|]. eapply parses_bind; [by apply parses_unsigned|].
  by apply (parses_map _ (λ e, mkLocal name s e p)), parses_unsigned.
Qed.

Lemma parses_times {A} (m : stM loader A) enc l :
  (∀ x, x ∈ l → parses m x (enc x)) → parses (times (length l) m) l (foldr (λ x bs, enc x ++ bs) [] l).
Proof using Type.
  induction l as [|x l IH]; intros Hm; [apply parses_ret|]. simpl.
  eapply parses_bind; [apply Hm; by left|]. apply (parses_map _ (cons x)), IH. intros y Hy. apply Hm. by right.
Qed.

Lemma parses_all {A} (m : stM loader A) enc (P : A → Prop) l :
  (∀ x, P x → parses m x (enc x)) → Forall P l → parses (times (Z.to_nat (Z.of_nat (length l))) m) l (l ≫= enc).
Proof using Type.
  intros Hm Hl. rewrite Nat2Z.id, <- foldr_bind. apply parses_times. intros x Hx. apply Hm. by eapply Forall_forall.
Qed.

Lemma structures_map {A} (enc : A → list Z) size l rest :
  (∀ x, length (enc x) = size) → structures (length l) size ((l ≫= enc) ++ rest) = map enc l.
Proof using Type.
  intros Hs. induction l as [|x l IH]; [done|]. cbn [length structures map]. rewrite bind_cons, <- app_assoc.
  by rewrite take_app_length', drop_app_length', IH by (by rewrite Hs).
Qed.

Lemma bind_length {A} (enc : A → list Z) size l : (∀ x, length (enc x) = size) → length (l ≫= enc) = (length l * size)%nat.
Proof using Type. intros Hs. induction l as [|x l IH]; [done|]. rewrite bind_cons, length_app, Hs, IH. simpl. lia. Qed.

Lemma parses_structures {A} (enc : A → list Z) f at_ size l :
  (∀ x, length (enc x) = size) → (0 < size)%nat → Z.of_nat size * Z.of_nat (length l) ≤ max_len →
  Z.of_nat size * Z.of_nat (length l) ≤ total f - at_ →
  parses (read_structures read f at_ (Z.of_nat (length l)) (Z.of_nat size)) (map enc l) (l ≫= enc).
Proof using read_file.
  intros Hs Hpos Hmax Hroom. pose proof (bind_length enc size l Hs) as Hlen. unfold read_structures.
  rewrite s32_small by (unfold max_len in *; lia).
  replace (Z.of_nat size * Z.of_nat (length l)) with (Z.of_nat (length (l ≫= enc))) in * by lia.
  replace (map enc l) with (structures (length (l ≫= enc) / Z.to_nat (Z.of_nat size)) (Z.to_nat (Z.of_nat size)) (l ≫= enc)).
  - by apply (parses_map _ (λ d, structures (length d / _) _ d)), parses_data.
  - rewrite Nat2Z.id, Hlen, Nat.div_mul by lia. rewrite <- (app_nil_r (l ≫= enc)). by apply structures_map.
Qed.

(** The arrays lie one behind the other in the block. *)
Lemma create_layout p :
  block_size p ≤ max_len →
  ∃ f, Create (Z.of_nat (length (_instructions p))) (Z.of_nat (length (_literals p))) (Z.of_nat (length (_parameters p)))
         (Z.of_nat (length (_functions p))) (Z.of_nat (length (_outervalues p))) (Z.of_nat (length (_lineinfos p)))
         (Z.of_nat (length (_localvarinfos p))) (Z.of_nat (length (_defaultparams p))) = Ok f ∧
    8 * Z.of_nat (length (_lineinfos p)) ≤ total f - at_lineinfos f ∧
    4 * Z.of_nat (length (_defaultparams p)) ≤ total f - at_defaultparams f ∧
    8 * Z.of_nat (length (_instructions p)) ≤ total f - PROTO_FIELDS.
Proof using Type.
  unfold block_size, max_len, Create, _FUNC_SIZE, fits, PROTO_SIZE, PROTO_FIELDS. intros Hb.
  repeat match goal with |- context [u32 ?x] =>
    lazymatch x with context [u32 _] => fail | _ => rewrite (u32_small x) by lia end end.
  match goal with |- context [if ?b then _ else _] =>
    assert (b = true) as -> by (rewrite !andb_true_iff, !orb_true_iff, !Z.leb_le; lia) end.
  eexists. split; [reflexivity|]. simpl. lia.
Qed.

Lemma line_bytes_length l : length (line_bytes l) = 8%nat.
Proof using Type. done. Qed.
Lemma instruction_bytes_length i : length (instruction_bytes i) = 8%nat.
Proof using Type. done. Qed.

Lemma map_id_on {A B} (f : A → B) (g : B → A) (P : A → Prop) l :
  (∀ x, P x → g (f x) = x) → Forall P l → map g (map f l) = l.
Proof using Type. intros H. induction 1 as [|x l Hx _ IH]; [done|]. simpl. by rewrite H, IH. Qed.

Lemma line_of_bytes l : line_ok l → line_of (line_bytes l) = l.
Proof using Type.
  intros [Hl Ho]. destruct l as [a b]. unfold line_of, line_bytes. cbn [_line _op] in *.
  rewrite take_app_length', drop_app_length' by (by rewrite le_bytes_length). by rewrite !int_of_bytes.
Qed.

Lemma byte_value b : is_byte b → le_value (le_bytes 1 b) = b.
Proof using Type. intros Hb. rewrite le_value_bytes. by apply Z.mod_small. Qed.

Lemma instruction_of_bytes i : instruction_ok i → instruction_of (instruction_bytes i) = i.
Proof using Type.
  intros (H1 & H2 & H3 & H4 & H5). destruct i as [a b c d e]. cbn in H1, H2, H3, H4, H5. unfold instruction_of.
  change (instruction_bytes _) with (le_bytes 4 a ++ le_bytes 1 b ++ le_bytes 1 c ++ le_bytes 1 d ++ le_bytes 1 e).
  rewrite take_app_length' by (by rewrite le_bytes_length). rewrite int_of_bytes by done.
  f_equal; match goal with |- le_value ?x = ?y => change x with (le_bytes 1 y) end; by apply byte_value.
Qed.

(** One read of [Load]. *)
Ltac parses_step :=
  eapply parses_bind;
    [first [apply parses_tag; done | by apply parses_object | apply parses_count; unfold max_len; lia
           | eapply parses_all; [by eauto using parses_object, parses_outer, parses_local|eassumption]]|].

Lemma parses_proto p : ∀ fuel, (depth p ≤ fuel)%nat → proto_ok p → parses (Load read fuel) p (enc_proto p).
Proof using read_file.
  induction p as [p IH] using proto_rec. intros fuel Hfuel Hp. pose proof (λ f, proto_ok_functions p f Hp) as Hfs.
  pose proof (depth_functions p) as Hdepth.
  destruct fuel as [|fuel]; [destruct p; simpl in Hfuel; lia|]. destruct p as [src name stack gen var locs lines lits params funs outs defs instrs].
  destruct Hp as (Hb & ? & ? & ? & ? & ? & Hlines & ? & ? & ? & Hdefs & Hinstrs & _).
  destruct (create_layout _ Hb) as (f & Hf & Hroom1 & Hroom2 & Hroom3).
  unfold block_size, max_len, PROTO_FIELDS in Hb. cbn [Load enc_proto]. fields.
  do 12 parses_step. eapply parses_lift; [exact Hf|]. do 9 parses_step.
  eapply parses_bind; [apply (parses_structures line_bytes f _ 8); [done|lia|unfold max_len; lia|lia]|]. parses_step.
  eapply parses_bind; [apply (parses_structures (le_bytes 4) f _ 4); [done|lia|unfold max_len; lia|lia]|]. parses_step.
  eapply parses_bind; [apply (parses_structures instruction_bytes f _ 8); [done|lia|unfold max_len; lia|lia]|]. parses_step.
  eapply parses_bind.
  { rewrite Nat2Z.id. apply parses_times. intros g Hg. apply IH; [done| |by apply Hfs]. specialize (Hdepth g Hg). lia. }
  eapply parses_bind; [by apply parses_int|]. eapply parses_bind; [apply (parses_word 1); lia|].
  rewrite byte_value by (by destruct gen).
  rewrite (map_id_on line_bytes line_of line_ok) by (try done; apply line_of_bytes).
  rewrite (map_id_on (le_bytes 4) int_of int_ok) by (try done; apply int_of_bytes).
  rewrite (map_id_on instruction_bytes instruction_of instruction_ok) by (try done; apply instruction_of_bytes).
  replace (negb (_ =? 0)) with gen by (by destruct gen).
  apply (parses_map _ (λ v, mkProto src name stack gen v locs lines lits params funs outs defs instrs)). by apply parses_int.
Qed.

(** The closure that is loaded: nothing but its prototype is from the stream. *)
Definition loaded_closure (root : Z) (p : SQFunctionProto) : closure :=
  mkClosureObj None root None p (replicate (length (_outervalues p)) sq_null) (replicate (length (_defaultparams p)) sq_null).

Lemma Closure_Create_ok root p : proto_ok p → Closure_Create p root = Ok (loaded_closure root p).
Proof using Type.
  intros Hp. assert (Hb : block_size p ≤ max_len) by (destruct p; by apply Hp).
  unfold Closure_Create, _CALC_CLOSURE_SIZE, CLOSURE_SIZE, OBJECT_SIZE. unfold block_size, max_len, PROTO_FIELDS in Hb.
  rewrite s32_small, u32_small by lia. by rewrite (proj2 (Z.leb_le _ _)) by lia.
Qed.

Lemma parses_closure root p fuel :
  (depth p ≤ fuel)%nat → proto_ok p → parses (Closure_Load read root fuel) (loaded_closure root p) (enc_closure p).
Proof using read_file.
  intros Hf Hp. do 4 parses_step. eapply parses_bind; [by apply parses_proto|].
  rewrite <- (app_nil_r (le_bytes 4 SQ_CLOSURESTREAM_TAIL)). parses_step. rewrite Closure_Create_ok by done. apply parses_ret.
Qed.
End reading.

Section closures.
Context {T : Type} (read : Z → stM T (Z * list Z)) (fview : T → file) (ok : T → Prop).
Hypothesis read_file : ∀ t n, ok t → 0 < n ≤ max_len →
  runs (read n) t (λ r t', ok t' ∧ r.2 = f_read n (fview t) ∧
    r.1 = (if decide (r.2 = []) then -1 else Z.of_nat (length r.2)) ∧ fview t' = f_skip (length r.2) (fview t)).

(** The first two bytes. *)
Lemma read_stream_tag t pad :
  ok t →
  runs (call_read read 2) (t, pad) (λ r l, ok l.1 ∧ r.2 = take 2 (left_of fview t) ∧
    (r.1 = 2 ↔ (2 ≤ length (left_of fview t))%nat) ∧ left_of fview l.1 = drop 2 (left_of fview t)).
Proof using read_file.
  intros Ht. pose proof (read_file t 2 Ht ltac:(unfold max_len; lia)) as Hr. unfold runs, call_read in *.
  destruct (read 2 t) as [[[n d] t1]|]; [|done]. destruct Hr as (Ht1 & Hd & Hn & Hv). cbn in Hd, Hn.
  unfold f_read in Hd. change (Z.to_nat 2) with 2%nat in Hd. fold (left_of fview t) in Hd. cbn [fst snd]. split_and!; [done|done| |].
  - subst d n. destruct (decide _) as [E|E], (left_of fview t) as [|a [|b l]]; simpl in *; try done; lia.
  - unfold left_of in *. rewrite Hv. unfold f_skip. simpl. rewrite <- drop_drop. rewrite Hd.
    destruct (drop (fpos (fview t)) (fbytes (fview t))) as [|a [|b l]]; done.
Qed.

Lemma readclosure_reads root p fuel t pad rest :
  (depth p ≤ fuel)%nat → proto_ok p → ok t → left_of fview t = enc_file p ++ rest →
  runs (sq_readclosure read root fuel) (t, pad) (λ c l, c = loaded_closure root p ∧ ok l.1 ∧ left_of fview l.1 = rest).
Proof using read_file.
  intros Hf Hp Ht Hl. apply runs_bind. eapply runs_mono; [by apply read_stream_tag|].
  intros [n d] [t1 pad1] (Ht1 & Hd & Hn & Hl1). cbn in Hd, Hn, Hl1. rewrite Hl in *.
  assert (n = 2) as -> by (apply Hn; unfold enc_file; rewrite !length_app, le_bytes_length; lia).
  rewrite Hd. cbn match. change (take 2 (enc_file p ++ rest)) with (le_bytes 2 SQ_BYTECODE_STREAM_TAG).
  rewrite le_value_bytes. cbn match.
  by apply (parses_closure read fview ok read_file root p fuel Hf Hp t1 pad1 rest Ht1).
Qed.

(** A stream that ends inside a closure. *)
Lemma readclosure_truncated root p fuel t pad missing :
  (depth p ≤ fuel)%nat → proto_ok p → ok t → missing ≠ [] → enc_file p = left_of fview t ++ missing →
  ∃ msg, sq_readclosure read root fuel (t, pad) = Err (Raised msg).
Proof using read_file.
  intros Hf Hp Ht Hne Hl. pose proof (read_stream_tag t pad Ht) as Hr. unfold runs in Hr.
  unfold sq_readclosure. destruct (call_read read 2 (t, pad)) as [[[n d] [t1 pad1]]|] eqn:Hcall; [|done].
  unfold mbind at 1, stM_bind at 1. rewrite Hcall. destruct Hr as (Ht1 & Hd & Hn & Hl1). cbn in Ht1, Hd, Hn, Hl1.
  destruct (Z.eqb_spec n 2) as [->|Hn2]; [|by eexists]. cbn [negb].
  assert (Hlen : (2 ≤ length (left_of fview t))%nat) by (by apply Hn).
  assert (Htag : take 2 (left_of fview t) = le_bytes 2 SQ_BYTECODE_STREAM_TAG).
  { apply (f_equal (take 2)) in Hl. rewrite take_app_le in Hl by done. by rewrite <- Hl. }
  rewrite Hd, Htag, le_value_bytes. cbn match. exists "io error, read function failure, the origin stream could be corrupted/trucated"%string.
  apply (parses_closure read fview ok read_file root p fuel Hf Hp t1 pad1 [] Ht1) with missing; [done|].
  rewrite Hl1. apply (f_equal (drop 2)) in Hl. rewrite drop_app_le in Hl by done. done.
Qed.
End closures.

(** ** Lines *)

Definition lines_sorted (ls : list SQLineInfo) : Prop :=
  ∀ i j a b, (i ≤ j)%nat → ls !! i = Some a → ls !! j = Some b → _op a ≤ _op b.

Section lines.
Context (p : SQFunctionProto) (at_op : Z) (Hsorted : lines_sorted (_lineinfos p)).
Let n := Z.of_nat (length (_lineinfos p)).

(** Every entry from [i] on is at [at_op] or behind it. *)
Definition behind (i : Z) : Prop := ∀ j l, i ≤ Z.of_nat j → _lineinfos p !! j = Some l → at_op ≤ _op l.

Lemma line_at_in i : 0 ≤ i < n → ∃ l, line_at p i = Ok l ∧ _lineinfos p !! Z.to_nat i = Some l.
Proof using Type.
  intros Hi. unfold line_at. rewrite (proj2 (Z.ltb_ge i 0)) by lia.
  destruct (lookup_lt_is_Some_2 (_lineinfos p) (Z.to_nat i)) as [l Hl]; [lia|]. rewrite Hl. by exists l.
Qed.

Lemma sorted_behind i l : _lineinfos p !! Z.to_nat i = Some l → 0 ≤ i → at_op ≤ _op l → behind i.
Proof using Hsorted.
  intros Hl Hi Hop j l' Hj Hl'. pose proof (Hsorted (Z.to_nat i) j l l' ltac:(lia) Hl Hl'). lia.
Qed.

Lemma line_search_ok fuel : ∀ low high mid,
  0 ≤ low → high < n → 0 ≤ mid < n → (Z.to_nat (high - low + 1) < fuel)%nat → low ≤ high + 1 →
  behind (high + 1) → low ≤ high ∨ mid = low - 1 ∨ mid = high + 1 →
  ∃ r, line_search fuel p at_op low high mid = Ok r ∧ 0 ≤ r < n ∧ behind (r + 1).
Proof using Hsorted.
  induction fuel as [|fuel IH]; intros low high mid Hlow Hhigh Hmid Hfuel Hlh Hb Hm; [lia|]. cbn [line_search].
  destruct (Z.leb_spec low high) as [Hle|Hgt].
  2:{ exists mid. split; [done|]. split; [done|]. intros j l Hj. apply Hb. lia. }
  rewrite Z.shiftr_div_pow2 by lia. change (2 ^ 1) with 2. set (m := low + (high - low) / 2).
  assert (Hmr : low ≤ m ≤ high) by (unfold m; Z.to_euclidean_division_equations; lia).
  destruct (line_at_in m) as (l & Hat & Hl); [lia|]. rewrite Hat. cbn [mbind res_bind].
  destruct (Z.ltb_spec at_op (_op l)) as [Hlt|Hge].
  { apply IH; try lia. replace (m - 1 + 1) with m by lia. apply (sorted_behind m l Hl); lia. }
  destruct (Z.ltb_spec (_op l) at_op) as [Hlt|Heq].
  2:{ exists m. split; [done|]. split; [lia|]. intros j l' Hj Hl'. apply (sorted_behind m l Hl) with j; [lia|lia|lia|done]. }
  fold n. destruct (Z.ltb_spec m (n - 1)) as [Hin|Hout].
  - destruct (line_at_in (m + 1)) as (l' & Hat' & Hl'); [lia|]. rewrite Hat'. cbn [mbind res_bind].
    destruct (Z.leb_spec at_op (_op l')) as [Hstop|Hgo]; [|apply IH; try done; lia].
    exists m. split; [done|]. split; [lia|]. apply (sorted_behind (m + 1) l' Hl'); lia.
  - cbn [mbind res_bind]. apply IH; try done; lia.
Qed.

Lemma line_back_ok fuel : ∀ mid,
  0 ≤ mid < n → (Z.to_nat mid < fuel)%nat → behind (mid + 1) →
  ∃ r l, line_back fuel p at_op mid = Ok r ∧ 0 ≤ r < n ∧ _lineinfos p !! Z.to_nat r = Some l ∧
    (r = 0 ∨ _op l < at_op) ∧ behind (r + 1).
Proof using Hsorted.
  induction fuel as [|fuel IH]; intros mid Hmid Hfuel Hb; [lia|]. cbn [line_back].
  destruct (line_at_in mid) as (l & Hat & Hl); [lia|].
  destruct (Z.ltb_spec 0 mid) as [Hpos|Hzero].
  - rewrite Hat. cbn [mbind res_bind]. destruct (Z.leb_spec at_op (_op l)) as [Hle|Hlt].
    + apply IH; [lia|lia|]. replace (mid - 1 + 1) with mid by lia. by apply (sorted_behind mid l Hl); [lia|].
    + exists mid, l. split_and!; [done|lia|lia|done|by right|done].
  - exists mid, l. split_and!; [done|lia|lia|done|left; lia|done].
Qed.
End lines.

(** C30: For sorted line information [GetLine] is the line of the last entry in
    front of the instruction, or of the first entry if there is none: the binary
    search with its early exit and the walk back agree with a linear search. *)
Theorem get_line_last p at_op :
  lines_sorted (_lineinfos p) → _lineinfos p ≠ [] →
  ∃ i l, GetLine p at_op = Ok (_line l) ∧ _lineinfos p !! i = Some l ∧ (i = 0%nat ∨ _op l < at_op) ∧
    (∀ j l', (i < j)%nat → _lineinfos p !! j = Some l' → at_op ≤ _op l').
Proof.
  intros Hs Hne. assert (0 < Z.of_nat (length (_lineinfos p))) by (destruct (_lineinfos p); [done|simpl; lia]).
  unfold GetLine. destruct (line_at_in p 0) as (l0 & -> & _); [lia|]. cbn [mbind res_bind].
  destruct (line_search_ok p at_op Hs (S (length (_lineinfos p))) 0 (Z.of_nat (length (_lineinfos p)) - 1) 0)
    as (m & -> & Hm & Hb); [lia..| |lia|].
  { intros j l Hj Hl. apply lookup_lt_Some in Hl. lia. }
  cbn [mbind res_bind]. destruct (line_back_ok p at_op Hs (S (length (_lineinfos p))) m Hm) as (r & l & -> & Hr & Hl & Hfront & Hbr);
    [lia|done|].
  cbn [mbind res_bind]. destruct (line_at_in p r Hr) as (l' & -> & Hl'). simplify_eq. exists (Z.to_nat r), l.
  split_and!; [done|done|destruct Hfront; [left; lia|by right]|]. intros j l1 Hj. apply Hbr. lia.
Qed.

(** Line information with two entries for one instruction. *)
Definition demo_lines : SQFunctionProto :=
  mkProto ONull ONull 0 false 0 [] [mkLine 3 0; mkLine 5 2; mkLine 6 2; mkLine 9 7] [] [] [] [] [] [].

Lemma get_line_last_witness :
  map (GetLine demo_lines) [0; 2; 3; 8] = [Ok 3; Ok 3; Ok 6; Ok 9] ∧
  ∃ i l, GetLine demo_lines 3 = Ok (_line l) ∧ _lineinfos demo_lines !! i = Some l ∧ (i = 0%nat ∨ _op l < 3) ∧
    (∀ j l', (i < j)%nat → _lineinfos demo_lines !! j = Some l' → 3 ≤ _op l').
Proof.
  split; [by vm_compute|]. apply (get_line_last demo_lines 3); [|done].
  intros i j a b Hij Ha Hb. destruct i as [|[|[|[|]]]], j as [|[|[|[|]]]]; simpl in *; simplify_eq; simpl; lia.
Defined.

(** [GetLocal] gives the variable with the given number among those that are
    alive at the instruction. *)
Lemma local_loop_nth stackbase nop vars : ∀ k,
  local_loop stackbase (Z.of_nat k) nop vars =
  (λ v, (stackbase + _pos v, lv_name v)) <$> filter (λ v, _start_op v ≤ nop ≤ _end_op v) vars !! k.
Proof.
  induction vars as [|v vars IH]; intros k; [by destruct k|]. cbn [local_loop]. rewrite filter_cons.
  destruct (decide _) as [Hin|Hout].
  - rewrite !(proj2 (Z.leb_le _ _)) by lia. cbn [andb]. destruct k as [|k]; [done|].
    rewrite (proj2 (Z.eqb_neq _ 0)) by lia. replace (Z.of_nat (S k) - 1) with (Z.of_nat k) by lia. by rewrite IH.
  - rewrite <- IH. destruct (Z.leb_spec (_start_op v) nop), (Z.leb_spec nop (_end_op v)); cbn [andb]; try done. lia.
Qed.

Lemma get_local_nth p stackbase k nop :
  GetLocal p stackbase (Z.of_nat k) nop =
  (λ v, (stackbase + _pos v, lv_name v)) <$> filter (λ v, _start_op v ≤ nop ≤ _end_op v) (_localvarinfos p) !! k.
Proof.
  unfold GetLocal. destruct (Z.leb_spec (Z.of_nat k) (Z.of_nat (length (_localvarinfos p)))) as [Hle|Hgt]; [apply local_loop_nth|].
  rewrite (proj2 (lookup_ge_None _ k)); [done|].
  pose proof (length_filter (λ v, _start_op v ≤ nop ≤ _end_op v) (_localvarinfos p)). lia.
Qed.
