(* ===== verification/SqLoadFile.v ===== *)
(** * Loading scripts and closures from files (sqstdio.cpp)

    [sqstd_loadfile] looks at the first bytes of a file: it loads a closure, or
    gives the compiler a function that feeds it the characters of the text, in
    one of several encodings, through a buffer.  The C library's files are those
    of SqStream; the compiler is a parameter. *)

From Stdlib Require Import Ascii.
From stdpp Require Import base numbers strings option list.
From S2P Require Import Prelude CType SqStream SqStringLib SqProto SqProtoSpec.

Open Scope Z_scope.

Definition IO_BUFFER_SIZE : nat := 2048.

Section loadfile.
Context {H : Type} `{!Stdio H}.

(** [IOBuffer]; bytes that were never stored are [None]. *)
Record IOBuffer := mkBuffer { buffer : list (option Z); size : Z; ptr : Z; bfile : H }.

Definition fresh_buffer (h : H) : IOBuffer := mkBuffer (replicate IO_BUFFER_SIZE None) 0 0 h.

(** [buffer[i]] *)
Definition byte_at (b : IOBuffer) (i : Z) : res Z :=
  if i <? 0 then Err OutOfBounds else expect OutOfBounds (mjoin (buffer b !! Z.to_nat i)).

(** [sqstd_fread] into the buffer. *)
Definition refill : stM IOBuffer () := λ b,
  match fread (Z.of_nat IO_BUFFER_SIZE) (bfile b) with
  | Ok (data, h) =>
      if decide (length data ≤ IO_BUFFER_SIZE)%nat
      then Ok ((), mkBuffer ((Some <$> data) ++ drop (length data) (buffer b)) (Z.of_nat (length data)) (ptr b) h)
      else Err OutOfBounds
  | Err e => Err e
  end.

Definition set_ptr (i : Z) : stM IOBuffer () := modify (λ b, mkBuffer (buffer b) (size b) i (bfile b)).

Definition _read_byte : stM IOBuffer Z :=
  b ← gets id;
  if ptr b <? size b then
    ret ← lift (byte_at b (ptr b));
    set_ptr (ptr b + 1);;
    mret ret
  else
    refill;;
    b ← gets id;
    if 0 <? size b then ret ← lift (byte_at b 0); set_ptr 1;; mret ret
    else mret 0.

(** [*((const wchar_t* )&buffer[i])], two bytes *)
Definition wide_at (b : IOBuffer) (i : Z) : res Z := lo ← byte_at b i; hi ← byte_at b (i + 1); Ok (lo + 256 * hi).

Definition _read_two_bytes : stM IOBuffer Z :=
  b ← gets id;
  if ptr b <? size b then
    if size b <? 2 then mret 0 else
    ret ← lift (wide_at b (ptr b));
    set_ptr (ptr b + 2);;
    mret ret
  else
    refill;;
    b ← gets id;
    if 0 <? size b then
      if size b <? 2 then mret 0 else
      ret ← lift (wide_at b 0); set_ptr 2;; mret ret
    else mret 0.

Definition _io_file_lexfeed_PLAIN : stM IOBuffer Z := _read_byte.
Definition _io_file_lexfeed_UCS2_LE : stM IOBuffer Z :=
  ret ← _read_two_bytes; if 0 <? ret then mret ret else mret 0.
Definition _io_file_lexfeed_UCS2_BE : stM IOBuffer Z :=
  c ← _read_two_bytes;
  if 0 <? c then mret (Z.lor (Z.land (Z.shiftr c 8) 0x00FF) (Z.land (Z.shiftl c 8) 0xFF00)) else mret 0.

(** [file_read], [file_write] *)
Definition file_read (n : Z) : stM H (Z * list Z) :=
  data ← fread n;
  let ret := Z.of_nat (length data) in
  if negb (ret =? 0) then mret (ret, data) else mret (-1, data).
Definition file_write (data : list Z) : stM H Z := fwrite data.

(** [sq_compile], of the function that feeds the lexer. *)
Context {C : Type} (sq_compile : stM IOBuffer Z → IOBuffer → res C).

(** What is pushed: a closure that was loaded, or one that was compiled. *)
Inductive loaded := LClosure (c : closure) | LCompiled (c : C).

(** The encoding of a script, by its first two bytes. *)
Definition choose_feed (us : Z) : stM H (stM IOBuffer Z) :=
  if us =? 0xFFFE then mret _io_file_lexfeed_UCS2_BE
  else if us =? 0xFEFF then mret _io_file_lexfeed_UCS2_LE
  else if us =? 0xBBEF then
    uc ← fread 1;
    if decide (uc = []) then raise (Raised "io error")
    else if negb (le_value uc =? 0xBF) then raise (Raised "Unrecognized encoding")
    else mret _io_file_lexfeed_PLAIN
  else _ ← SQFile.sqstd_fseek 0 SQ_SEEK_SET; mret _io_file_lexfeed_PLAIN.

(** [sqstd_loadfile], with the result of [sqstd_fopen], the root table and the
    scratch pad of the shared state; [fuel] bounds the nesting of functions in a
    closure. *)
Definition sqstd_loadfile (root : Z) (fuel : nat) (file : option H) (pad : list (option Z)) : res loaded :=
  match file with
  | None => Err (Raised "cannot open the file")
  | Some h =>
      '(d, h) ← fread 2 h;
      let us := if negb (Z.of_nat (length d) =? 2) then 0 else le_value d in
      if us =? SQ_BYTECODE_STREAM_TAG then
        '(_, h) ← SQFile.sqstd_fseek 0 SQ_SEEK_SET h;
        '(c, _) ← sq_readclosure file_read root fuel (h, pad);
        Ok (LClosure c)
      else
        '(func, h) ← choose_feed us h;
        c ← sq_compile func (fresh_buffer h);
        Ok (LCompiled c)
  end.

(** [sqstd_writeclosuretofile], with the result of [sqstd_fopen] *)
Definition sqstd_writeclosuretofile (file : option H) (c : closure) : res (option H) :=
  match file with
  | None => Err (Raised "cannot open the file")
  | Some h => '(_, h) ← sq_writeclosure file_write c h; Ok (Some h)
  end.
End loadfile.
Arguments IOBuffer H : clear implicits.
