(* ===== verification/SqLoadFileSpec.v ===== *)
(** * Files that are loaded

    A closure written to a file is loaded from it; a file that was cut off is
    reported.  A script reaches the compiler character by character, whatever
    the size of the buffer in between. *)

From Stdlib Require Import Ascii.
From stdpp Require Import base numbers strings option list.
From S2P Require Import Prelude CType SqObject SqStream SqStringLib SqProto SqProtoSpec SqLoadFile.

Open Scope Z_scope.

Section with_files.
Context {H : Type} `{!Stdio H, !StdioLaws H}.

(** ** The buffer *)

(** The bytes that are still to come. *)
Definition buffered (b : IOBuffer H) (text : list Z) : Prop :=
  ∃ d, size b = Z.of_nat (length d) ∧ 0 ≤ ptr b ∧ length (buffer b) = IO_BUFFER_SIZE ∧
    take (length d) (buffer b) = Some <$> d ∧ handle_ok (bfile b) ∧
    text = drop (Z.to_nat (ptr b)) d ++ left_of hview (bfile b).

Lemma byte_at_taken (b : IOBuffer H) d i x :
  take (length d) (buffer b) = Some <$> d → d !! Z.to_nat i = Some x → 0 ≤ i → byte_at b i = Ok x.
Proof using Type.
  intros Ht Hx Hi. unfold byte_at. rewrite (proj2 (Z.ltb_ge i 0)) by lia.
  apply lookup_lt_Some in Hx as Hlt. rewrite <- (lookup_take_lt (buffer b) (length d)) by done.
  by rewrite Ht, list_lookup_fmap, Hx.
Qed.

Lemma read_handle h n :
  handle_ok h → 0 ≤ n ≤ max_len →
  runs (fread n) h (λ out h', handle_ok h' ∧ out = take (Z.to_nat n) (left_of hview h) ∧
    left_of hview h' = drop (Z.to_nat n) (left_of hview h)).
Proof using Type.
  intros Hh Hn. eapply runs_mono; [by apply fread_spec|]. intros out h' (Hh' & -> & Hv). split_and!; [done|done|].
  unfold left_of. rewrite Hv. unfold f_skip, f_read. simpl. rewrite <- drop_drop, length_take, length_drop.
  destruct (decide (Z.to_nat n ≤ length (fbytes (hview h)) - fpos (hview h))%nat) as [Hle|Hgt].
  - by rewrite Nat.min_l.
  - rewrite Nat.min_r by lia. rewrite !drop_ge; [done|..]; rewrite length_drop; lia.
Qed.

(** Filling the buffer from a file; nothing is lost when it was used up. *)
Lemma buffer_refilled b text :
  buffered b text → size b ≤ ptr b →
  runs refill b (λ _ b', ∃ d, d = take IO_BUFFER_SIZE text ∧ size b' = Z.of_nat (length d) ∧ ptr b' = ptr b ∧
    length (buffer b') = IO_BUFFER_SIZE ∧ take (length d) (buffer b') = Some <$> d ∧ handle_ok (bfile b') ∧
    left_of hview (bfile b') = drop IO_BUFFER_SIZE text).
Proof using Type.
  intros (d & Hs & Hp & Hl & Ht & Hh & ->) Hused. rewrite (drop_ge d) by lia. simpl.
  pose proof (read_handle (bfile b) (Z.of_nat IO_BUFFER_SIZE) Hh ltac:(done)) as Hr.
  unfold runs, refill in *. destruct (fread _ (bfile b)) as [[out h']|]; [|done]. destruct Hr as (Hh' & Ho & Hl').
  rewrite Nat2Z.id in *.
  assert (Hlen : (length out ≤ IO_BUFFER_SIZE)%nat) by (rewrite Ho, length_take; lia).
  rewrite decide_True by done. exists out. cbn. split_and!; try done.
  - rewrite length_app, length_fmap, length_drop. lia.
  - rewrite take_app_length'; [done|]. by rewrite length_fmap.
Qed.

Lemma buffered_ptr (b : IOBuffer H) d i :
  size b = Z.of_nat (length d) → length (buffer b) = IO_BUFFER_SIZE → take (length d) (buffer b) = Some <$> d →
  handle_ok (bfile b) → 0 ≤ i →
  buffered (mkBuffer (buffer b) (size b) i (bfile b)) (drop (Z.to_nat i) d ++ left_of hview (bfile b)).
Proof using Type. intros. by exists d. Qed.

Lemma drop_take_drop k n (text : list Z) : (k ≤ n)%nat → drop k (take n text) ++ drop n text = drop k text.
Proof using Type.
  intros Hk. rewrite <- (take_drop n text) at 3. destruct (decide (k ≤ length (take n text))%nat) as [Hle|Hgt].
  - by rewrite drop_app_le.
  - rewrite length_take in Hgt. rewrite (drop_ge text n), !drop_ge; [done|..]; rewrite ?length_app, ?length_take; simpl; lia.
Qed.

Lemma read_byte_ok b text :
  buffered b text → runs _read_byte b (λ c b', c = default 0 (head text) ∧ buffered b' (tail text)).
Proof using Type.
  intros Hb. pose proof Hb as (d & Hs & Hp & Hl & Ht & Hh & Htext). apply runs_bind, runs_gets. cbn [id].
  destruct (Z.ltb_spec (ptr b) (size b)) as [Hin|Hout].
  - destruct (lookup_lt_is_Some_2 d (Z.to_nat (ptr b))) as [x Hx]; [lia|].
    apply runs_bind. eapply runs_lift; [by eapply byte_at_taken|]. apply runs_bind, runs_modify, runs_ret.
    rewrite Htext, (drop_S d x) by done. split; [done|]. cbn [tail app].
    replace (S (Z.to_nat (ptr b))) with (Z.to_nat (ptr b + 1)) by lia. apply buffered_ptr; try done. lia.
  - apply runs_bind. eapply runs_mono; [by apply buffer_refilled|]. intros _ b' (d' & Hd & Hs' & Hp' & Hl' & Ht' & Hh' & Hleft).
    apply runs_bind, runs_gets. cbn [id]. destruct (Z.ltb_spec 0 (size b')) as [Hpos|Hzero].
    + destruct text as [|x text]; [by subst d'; simpl in *; lia|]. 
      apply runs_bind. eapply runs_lift; [eapply (byte_at_taken _ d' 0 x); [done|by subst d'|done]|].
      apply runs_bind, runs_modify, runs_ret. split; [done|]. cbn [tail].
      replace text with (drop (Z.to_nat 1) d' ++ left_of hview (bfile b')); [by apply buffered_ptr|].
      rewrite Hleft, Hd. apply (drop_take_drop 1 IO_BUFFER_SIZE (x :: text)). unfold IO_BUFFER_SIZE. lia.
    + destruct text as [|x text]; [|by subst d'; simpl in *; lia]. apply runs_ret. split; [done|].
      exists d'. subst d'. simpl in *. rewrite Hleft. rewrite Hp'. split_and!; try done. by rewrite drop_nil.
Qed.

(** Characters of two bytes. *)
Definition wide_buffered (b : IOBuffer H) (text : list Z) : Prop :=
  buffered b text ∧ Z.even (size b) = true ∧ Z.even (ptr b) = true ∧ Nat.even (length text) = true.

Definition unit_of (text : list Z) : Z := match text with lo :: hi :: _ => lo + 256 * hi | _ => 0 end.

Lemma wide_at_taken (b : IOBuffer H) d i text :
  take (length d) (buffer b) = Some <$> d → 0 ≤ i → (Z.to_nat i + 1 < length d)%nat →
  wide_at b i = Ok (unit_of (drop (Z.to_nat i) d ++ text)).
Proof using Type.
  intros Ht Hi Hlen. destruct (lookup_lt_is_Some_2 d (Z.to_nat i)) as [x Hx]; [lia|].
  destruct (lookup_lt_is_Some_2 d (Z.to_nat (i + 1))) as [y Hy]; [lia|].
  unfold wide_at. rewrite (byte_at_taken b d i x), (byte_at_taken b d (i + 1) y) by (done || lia).
  rewrite (drop_S d x) by done. replace (S (Z.to_nat i)) with (Z.to_nat (i + 1)) by lia. by rewrite (drop_S d y).
Qed.

Lemma read_two_ok b text :
  wide_buffered b text → runs _read_two_bytes b (λ c b', c = unit_of text ∧ wide_buffered b' (drop 2 text)).
Proof using Type.
  intros (Hb & Hes & Hep & Het). pose proof Hb as (d & Hs & Hp & Hl & Ht & Hh & Htext). apply runs_bind, runs_gets. cbn [id].
  assert (Hev : Nat.even (length (drop 2 text)) = true) by (destruct text as [|x [|y text]]; done).
  destruct (Z.ltb_spec (ptr b) (size b)) as [Hin|Hout].
  - assert (ptr b + 1 < size b) by (rewrite Z.even_spec in Hes, Hep; destruct Hes, Hep; lia).
    rewrite (proj2 (Z.ltb_ge _ 2)) by lia.
    apply runs_bind. eapply runs_lift; [eapply (wide_at_taken _ d (ptr b)); [done|done|lia]|].
    apply runs_bind, runs_modify, runs_ret. split; [by rewrite Htext|].
    split_and!; [|done|by cbn; rewrite Z.even_add, Hep|done].
    rewrite Htext, drop_app_le by (rewrite length_drop; lia). rewrite drop_drop.
    replace (Z.to_nat (ptr b) + 2)%nat with (Z.to_nat (ptr b + 2)) by lia. apply buffered_ptr; try done. lia.
  - apply runs_bind. eapply runs_mono; [by apply buffer_refilled|]. intros _ b' (d' & Hd & Hs' & Hp' & Hl' & Ht' & Hh' & Hleft).
    assert (Hed : Z.even (size b') = true).
    { rewrite Hs', Hd, length_take. destruct (decide (IO_BUFFER_SIZE ≤ length text)%nat) as [Hle|Hgt].
      - by rewrite Nat.min_l.
      - rewrite Nat.min_r by lia. apply Nat.even_spec in Het as [k ->]. rewrite Nat2Z.inj_mul. apply Z.even_mul. }
    apply runs_bind, runs_gets. cbn [id]. destruct (Z.ltb_spec 0 (size b')) as [Hpos|Hzero].
    + rewrite (proj2 (Z.ltb_ge _ 2)) by (rewrite Z.even_spec in Hed; destruct Hed; lia).
      assert (2 ≤ length d')%nat by (rewrite Z.even_spec in Hed; destruct Hed; lia).
      apply runs_bind. eapply runs_lift; [eapply (wide_at_taken _ d' 0); [done|done|simpl; lia]|].
      apply runs_bind, runs_modify, runs_ret. rewrite drop_0, Hd at 1.
      split; [by rewrite take_drop|]. split_and!; [|done|done|done].
      replace (drop 2 text) with (drop (Z.to_nat 2) d' ++ left_of hview (bfile b')); [by apply buffered_ptr|].
      rewrite Hleft, Hd. apply drop_take_drop. unfold IO_BUFFER_SIZE. lia.
    + assert (text = []) as -> by (destruct text; [done|by subst d'; simpl in *; lia]).
      apply runs_ret. split; [done|]. split; [|by rewrite Hp'].
      exists d'. subst d'. simpl in *. rewrite Hleft. rewrite Hp'. split_and!; try done. by rewrite drop_nil.
Qed.

(** ** Feeding the lexer *)

(** The results of calling the function [n] times. *)
Fixpoint feed_n (n : nat) (feed : stM (IOBuffer H) Z) : stM (IOBuffer H) (list Z) :=
  match n with O => mret [] | S n' => c ← feed; cs ← feed_n n' feed; mret (c :: cs) end.

(** The characters, and then NUL for ever. *)
Definition feeds (feed : stM (IOBuffer H) Z) (b : IOBuffer H) (chars : list Z) : Prop :=
  ∀ n, runs (feed_n n feed) b (λ cs _, cs = resize n 0 chars).

Lemma feeds_step feed (I : IOBuffer H → list Z → Prop) (chars : list Z → list Z) (next : list Z → list Z) b text :
  (∀ b text, I b text → runs feed b (λ c b', c = default 0 (head (chars text)) ∧ I b' (next text) ∧
     chars (next text) = tail (chars text))) →
  I b text → feeds feed b (chars text).
Proof using Type.
  intros Hstep HI n. revert b text HI. induction n as [|n IH]; intros b text HI; [by apply runs_ret; destruct (chars text)|].
  cbn [feed_n]. apply runs_bind. eapply runs_mono; [by apply Hstep|]. intros c b1 (-> & HI1 & Hch).
  apply runs_bind. eapply runs_mono; [by apply IH|]. intros cs b2 ->. apply runs_ret. rewrite Hch.
  destruct (chars text) as [|x l]; simpl; by rewrite ?resize_nil.
Qed.

Lemma plain_feeds b text : buffered b text → feeds _io_file_lexfeed_PLAIN b text.
Proof using Type.
  apply (feeds_step _ buffered id tail). intros b' t Hb. eapply runs_mono; [by apply read_byte_ok|]. naive_solver.
Qed.

Fixpoint units (text : list Z) : list Z :=
  match text with lo :: hi :: text' => (lo + 256 * hi) :: units text' | _ => [] end.
Fixpoint units_be (text : list Z) : list Z :=
  match text with hi :: lo :: text' => (lo + 256 * hi) :: units_be text' | _ => [] end.

Lemma ucs2_le_feeds b text :
  wide_buffered b text → Forall is_byte text → feeds _io_file_lexfeed_UCS2_LE b (units text).
Proof using Type.
  intros Hb Hby. apply (feeds_step _ (λ b t, wide_buffered b t ∧ Forall is_byte t) units (drop 2)); [|done].
  clear. intros b t [Hb Hby]. apply runs_bind. eapply runs_mono; [by apply read_two_ok|]. intros c b' (-> & Hb').
  assert (Hc : unit_of t = default 0 (head (units t))) by (by destruct t as [|x [|y t]]).
  assert (Hd : units (drop 2 t) = tail (units t)) by (by destruct t as [|x [|y t]]).
  assert (Forall is_byte (drop 2 t)) by (by apply Forall_drop).
  assert (0 ≤ unit_of t).
  { destruct t as [|x [|y t]]; simpl; try done. rewrite !Forall_cons in Hby. destruct Hby as (Hx & Hy & _). unfold is_byte in *. lia. }
  destruct (Z.ltb_spec 0 (unit_of t)); apply runs_ret; split_and!; try done; lia.
Qed.

Lemma swap_unit lo hi :
  is_byte lo → is_byte hi →
  Z.lor (Z.land (Z.shiftr (lo + 256 * hi) 8) 0x00FF) (Z.land (Z.shiftl (lo + 256 * hi) 8) 0xFF00) = hi + 256 * lo.
Proof using Type.
  unfold is_byte. intros Hlo Hhi. set (n := lo + 256 * hi). assert (Hn : n = lo + 256 * hi) by done. clearbody n.
  change 0xFF00 with (Z.shiftl 255 8). change 0x00FF with (Z.shiftl 255 0). rewrite !byte_field by lia.
  rewrite Z.shiftr_div_pow2, (Z.shiftl_mul_pow2 n) by lia.
  replace ((n / 2 ^ 8 / 2 ^ 0) mod 2 ^ 8) with hi by (Z.to_euclidean_division_equations; lia).
  replace ((n * 2 ^ 8 / 2 ^ 8) mod 2 ^ 8) with lo by (Z.to_euclidean_division_equations; lia).
  rewrite Z.shiftl_0_r, Z.lor_comm, lor_shift by lia. lia.
Qed.

Lemma ucs2_be_feeds b text :
  wide_buffered b text → Forall is_byte text → feeds _io_file_lexfeed_UCS2_BE b (units_be text).
Proof using Type.
  intros Hb Hby. apply (feeds_step _ (λ b t, wide_buffered b t ∧ Forall is_byte t) units_be (drop 2)); [|done].
  clear. intros b t [Hb Hby]. apply runs_bind. eapply runs_mono; [by apply read_two_ok|]. intros c b' (-> & Hb').
  assert (Hd : units_be (drop 2 t) = tail (units_be t)) by (by destruct t as [|x [|y t]]).
  assert (Hb2 : Forall is_byte (drop 2 t)) by (by apply Forall_drop).
  destruct t as [|x [|y t]]; try (by apply runs_ret). cbn [unit_of units_be head default] in *.
  rewrite !Forall_cons in Hby. destruct Hby as (Hx & Hy & _).
  destruct (Z.ltb_spec 0 (x + 256 * y)); apply runs_ret; (split; [|done]); [by rewrite swap_unit|unfold is_byte in *; cbn; lia].
Qed.

(** ** Scripts *)

(** The characters of a script file: with the byte order mark of an encoding,
    or plain bytes.  [0xFAFA] begins a closure. *)
Inductive script : list Z → list Z → Prop :=
  | script_le text : Nat.even (length text) = true → script (0xFF :: 0xFE :: text) (units text)
  | script_be text : Nat.even (length text) = true → script (0xFE :: 0xFF :: text) (units_be text)
  | script_utf8 text : script (0xEF :: 0xBB :: 0xBF :: text) text
  | script_plain text :
      take 2 text ∉ [[0xFF; 0xFE]; [0xFE; 0xFF]; [0xEF; 0xBB]; [0xFA; 0xFA]] → script text text.

Lemma fresh_buffered h : handle_ok h → buffered (fresh_buffer h) (left_of hview h).
Proof using Type. intros Hh. exists []. by split_and!. Qed.

Lemma fresh_wide h : handle_ok h → Nat.even (length (left_of hview h)) = true → wide_buffered (fresh_buffer h) (left_of hview h).
Proof using Type. intros Hh He. split_and!; try done. by apply fresh_buffered. Qed.

Lemma rewind_handle h :
  handle_ok h → runs (SQFile.sqstd_fseek 0 SQ_SEEK_SET) h (λ _ h', handle_ok h' ∧ hview h' = mkFile (fbytes (hview h)) 0).
Proof using Type.
  intros Hh. unfold SQFile.sqstd_fseek. cbn match.
  eapply runs_mono; [apply (fseek_spec h 0 SQ_SEEK_SET SEEK_SET 0); try done; [by left|]|naive_solver].
  unfold f_target. cbn. by rewrite decide_True by lia.
Qed.

Lemma left_start h bytes : hview h = mkFile bytes 0 → left_of hview h = bytes.
Proof using Type. unfold left_of. by intros ->. Qed.

Lemma left_bytes h : handle_ok h → Forall is_byte (left_of hview h).
Proof using Type. intros Hh. destruct (handle_ok_file h Hh) as [[_ Hb] _]. by apply Forall_drop. Qed.

(** Which function feeds the lexer, and from where. *)
Lemma choose_feed_ok h bytes chars :
  script bytes chars → handle_ok h → fbytes (hview h) = bytes → left_of hview h = drop 2 bytes → Forall is_byte bytes →
  runs (choose_feed (if negb (Z.of_nat (length (take 2 bytes)) =? 2) then 0 else le_value (take 2 bytes))) h
    (λ feed h', feeds feed (fresh_buffer h') chars).
Proof using Type.
  intros Hs Hh Hbytes Hl Hby. destruct Hs as [text He|text He|text|text Hn]; cbn [firstn length skipn] in *.
  - apply runs_ret. rewrite drop_0 in Hl. rewrite <- Hl in He. pose proof (ucs2_le_feeds _ _ (fresh_wide h Hh He) (left_bytes h Hh)). by rewrite <- Hl.
  - apply runs_ret. rewrite drop_0 in Hl. rewrite <- Hl in He. pose proof (ucs2_be_feeds _ _ (fresh_wide h Hh He) (left_bytes h Hh)). by rewrite <- Hl.
  - change (choose_feed _) with
      (uc ← fread 1;
       if decide (uc = []) then raise (Raised "io error")
       else if negb (le_value uc =? 0xBF) then raise (Raised "Unrecognized encoding")
       else mret _io_file_lexfeed_PLAIN).
    apply runs_bind. eapply runs_mono; [apply (read_handle h 1); [done|by unfold max_len]|]. intros uc h' (Hh' & -> & Hl').
    rewrite Hl in *. apply runs_ret. apply plain_feeds. change text with (drop (Z.to_nat 1) (191 :: text)). rewrite <- Hl'.
    by apply fresh_buffered.
  - set (us := if negb _ then 0 else _).
    assert (Hus : us ≠ 0xFFFE ∧ us ≠ 0xFEFF ∧ us ≠ 0xBBEF).
    { unfold us. destruct text as [|x [|y text]]; [by split_and!..|]. change (take 2 (x :: y :: text)) with [x; y] in *.
      change (negb _) with false. cbn [le_value]. rewrite !Forall_cons in Hby. destruct Hby as (Hx & Hy & _). unfold is_byte in *.
      rewrite !not_elem_of_cons in Hn. destruct Hn as (H1 & H2 & H3 & _).
      split_and!; intros E; [apply H2|apply H1|apply H3]; repeat f_equal; lia. }
    destruct Hus as (H1 & H2 & H3). unfold choose_feed. rewrite !(proj2 (Z.eqb_neq us _)) by done.
    apply runs_bind. eapply runs_mono; [by apply rewind_handle|]. intros _ h' (Hh' & Hv). apply runs_ret. apply plain_feeds.
    rewrite Hbytes in Hv. rewrite <- (left_start h' text Hv). by apply fresh_buffered.
Qed.
End with_files.

Section loading.
Context {H : Type} `{!Stdio H, !StdioLaws H} {C : Type} (comp : stM (IOBuffer H) Z → IOBuffer H → res C).

Lemma file_read_law h n :
  handle_ok h → 0 < n ≤ max_len →
  runs (file_read n) h (λ r h', handle_ok h' ∧ r.2 = f_read n (hview h) ∧
    r.1 = (if decide (r.2 = []) then -1 else Z.of_nat (length r.2)) ∧ hview h' = f_skip (length r.2) (hview h)).
Proof using Type.
  intros Hh Hn. apply runs_bind. eapply runs_mono; [apply fread_spec; [done|lia]|]. intros d h' (Hh' & Hd & Hv).
  cbv zeta. destruct (Z.eqb_spec (Z.of_nat (length d)) 0) as [E|E]; cbn [negb]; apply runs_ret; cbn [fst snd]; split_and!; try done.
  - rewrite decide_True; [done|]. destruct d; [done|simpl in E; lia].
  - rewrite decide_False; [done|]. by intros ->.
Qed.

(** Loading a file that begins with the tag of a closure. *)
Lemma loadfile_closure root fuel h pad text :
  handle_ok h → hview h = mkFile (0xFA :: 0xFA :: text) 0 →
  ∃ h', handle_ok h' ∧ hview h' = hview h ∧
    sqstd_loadfile comp root fuel (Some h) pad = ('(c, _) ← sq_readclosure file_read root fuel (h', pad); Ok (LClosure c)).
Proof using All.
  intros Hh Hv. pose proof (fread_spec h 2 Hh ltac:(done)) as Hr. unfold runs in Hr. cbn [sqstd_loadfile].
  destruct (fread 2 h) as [[d h1]|]; [|done]. destruct Hr as (Hh1 & -> & Hv1). rewrite Hv in *.
  pose proof (rewind_handle h1 Hh1) as Hr. unfold runs in Hr. cbn [mbind res_bind].
  change (f_read 2 _) with [0xFA; 0xFA]. cbn match.
  destruct (SQFile.sqstd_fseek 0 SQ_SEEK_SET h1) as [[n h2]|] eqn:Hseek; [|done]. destruct Hr as (Hh2 & Hv2).
  exists h2. split; [done|]. split; [by rewrite Hv2, Hv1|]. done.
Qed.
End loading.

(** C10: A closure without free variables that is written to an empty file with
    [sqstd_writeclosuretofile] is loaded from the file by [sqstd_loadfile] with
    the prototype it had: every literal, name, line, instruction and nested
    function.  The rest of the closure is not in the file: the loaded one has
    no environment and no class, the root table of the virtual machine, and
    null for the value of each of its default parameters. *)
Theorem closure_file_roundtrip `{!Stdio H, !StdioLaws H} {C} (comp : stM (IOBuffer H) Z → IOBuffer H → res C) c root fuel h pad :
  let p := cl_function c in
  proto_ok p → _outervalues p = [] → (depth p ≤ fuel)%nat → Z.of_nat (length (enc_file p)) ≤ max_len →
  handle_ok h → hview h = mkFile [] 0 →
  ∃ h', sqstd_writeclosuretofile (Some h) c = Ok (Some h') ∧ handle_ok h' ∧
    ∀ h2, handle_ok h2 → hview h2 = mkFile (fbytes (hview h')) 0 →
      sqstd_loadfile comp root fuel (Some h2) pad =
        Ok (LClosure (mkClosureObj None root None p [] (replicate (length (_defaultparams p)) sq_null))).
Proof.
  intros p Hp Ho Hf Hmax Hh Hv.
  assert (Hw : runs (sq_writeclosure file_write c) h (λ _ h', handle_ok h' ∧ hview h' = f_write (enc_file p) (hview h))).
  { apply (writes_closure file_write hview handle_ok); [by intros; apply handle_ok_file|by apply fwrite_spec|done|done|done|].
    rewrite Hv. cbn [fpos]. fold p. lia. }
  cbn [sqstd_writeclosuretofile]. unfold runs in Hw.
  destruct (sq_writeclosure file_write c h) as [[u h']|]; [|done]. destruct Hw as (Hh' & Hv').
  exists h'. split; [done|]. split; [done|]. intros h2 Hh2 Hv2. rewrite Hv', Hv in Hv2.
  assert (Hw : fbytes (f_write (enc_file p) (mkFile [] 0)) = enc_file p).
  { unfold f_write. cbn [fbytes fpos]. by rewrite drop_nil, app_nil_r. }
  rewrite Hw in Hv2.
  destruct (loadfile_closure comp root fuel h2 pad (enc_closure p) Hh2 Hv2) as (h3 & Hh3 & Hv3 & ->).
  pose proof (readclosure_reads file_read hview handle_ok file_read_law root p fuel h3 pad [] Hf Hp Hh3) as Hr.
  rewrite app_nil_r in Hr. unfold runs in Hr. rewrite Hv2 in Hv3. specialize (Hr (left_start h3 _ Hv3)).
  destruct (sq_readclosure file_read root fuel (h3, pad)) as [[q l]|]; [|done]. destruct Hr as (-> & _).
  unfold loaded_closure. by rewrite Ho.
Qed.

(** C29: A closure file that was cut off anywhere behind its first two bytes is
    reported as an error; [sqstd_loadfile] gives no closure, and does not
    touch memory outside its buffers. *)
Theorem closure_file_truncated `{!Stdio H, !StdioLaws H} {C} (comp : stM (IOBuffer H) Z → IOBuffer H → res C) p root fuel h pad k :
  proto_ok p → (depth p ≤ fuel)%nat → (2 ≤ k < length (enc_file p))%nat →
  handle_ok h → hview h = mkFile (take k (enc_file p)) 0 →
  ∃ msg, sqstd_loadfile comp root fuel (Some h) pad = Err (Raised msg).
Proof.
  intros Hp Hf Hk Hh Hv. assert (Hpre : take k (enc_file p) = 0xFA :: 0xFA :: take (k - 2) (enc_closure p)).
  { destruct k as [|[|k]]; [lia|lia|]. cbn [Nat.sub]. by rewrite Nat.sub_0_r. }
  rewrite Hpre in Hv. destruct (loadfile_closure comp root fuel h pad _ Hh Hv) as (h' & Hh' & Hv' & ->).
  rewrite Hv, <- Hpre in Hv'. pose proof (left_start h' _ Hv') as Hl.
  destruct (readclosure_truncated file_read hview handle_ok file_read_law root p fuel h' pad (drop k (enc_file p)) Hf Hp Hh') as [msg ->].
  - intros Hd. apply (f_equal length) in Hd. rewrite length_drop in Hd. cbn [length] in Hd. lia.
  - by rewrite Hl, take_drop.
  - by exists msg.
Qed.

(** C28: A script file reaches the compiler character by character: the function
    [sqstd_loadfile] passes to it yields the characters of the text, in whichever
    of the four encodings, without its byte order mark and for any length
    relative to the buffer of 2048 bytes, and then NUL for ever. *)
Theorem script_file_fed `{!Stdio H, !StdioLaws H} {C} (comp : stM (IOBuffer H) Z → IOBuffer H → res C) root fuel h pad bytes chars :
  script bytes chars → handle_ok h → hview h = mkFile bytes 0 →
  ∃ feed b, sqstd_loadfile comp root fuel (Some h) pad = (c ← comp feed b; Ok (LCompiled c)) ∧ feeds feed b chars.
Proof.
  intros Hs Hh Hv. destruct (handle_ok_file h Hh) as [[_ Hby] _]. rewrite Hv in Hby. simpl in Hby.
  pose proof (read_handle h 2 Hh ltac:(done)) as Hr. rewrite (left_start h bytes Hv) in Hr.
  pose proof (fread_spec h 2 Hh ltac:(done)) as Hr2. unfold runs in Hr, Hr2. cbn [sqstd_loadfile].
  destruct (fread 2 h) as [[d h1]|]; [|done]. destruct Hr as (Hh1 & -> & Hl1), Hr2 as (_ & _ & Hv1). cbn [mbind res_bind].
  change (Z.to_nat 2) with 2%nat in *. set (us := if negb _ then 0 else _).
  assert (Htag : us ≠ SQ_BYTECODE_STREAM_TAG).
  { unfold us. destruct Hs as [text He|text He|text|text Hn]; try done. destruct text as [|x [|y text]]; [done..|].
    change (take 2 (x :: y :: text)) with [x; y] in *. change (negb _) with false. cbn [le_value].
    rewrite !Forall_cons in Hby. destruct Hby as (Hx & Hy & _). unfold is_byte in *. intros E. unfold SQ_BYTECODE_STREAM_TAG in E.
    apply Hn. do 3 right. apply list_elem_of_singleton. repeat f_equal; lia. }
  rewrite (proj2 (Z.eqb_neq us _)) by done.
  pose proof (choose_feed_ok h1 bytes chars Hs Hh1) as Hr. rewrite Hv1, Hv in Hr. specialize (Hr eq_refl Hl1 Hby). unfold runs in Hr.
  fold us in Hr. destruct (choose_feed us h1) as [[feed h2]|]; [|done]. exists feed, (fresh_buffer h2). done.
Qed.

(** ** A file in memory *)

(** Files of the C library with their documented behaviour; a negative size is a
    large one for [fread]. *)
#[export] Instance plain_stdio : Stdio file := {
  fread n f := let d := if n <? 0 then drop (fpos f) (fbytes f) else f_read n f in Ok (d, f_skip (length d) f);
  fwrite d f := Ok (Z.of_nat (length d), f_write d f);
  fseek offset origin f :=
    let o := if origin =? SEEK_SET then SQ_SEEK_SET else if origin =? SEEK_CUR then SQ_SEEK_CUR else SQ_SEEK_END in
    match f_target offset o f with Some n => Ok (0, f_goto n f) | None => Ok (-1, f) end;
  ftell f := Ok (Z.of_nat (fpos f), f);
  fflush f := Ok (0, f)
}.

#[export] Program Instance plain_laws : StdioLaws file := {
  hview := id; handle_ok f := file_ok f ∧ Z.of_nat (length (fbytes f)) ≤ max_len
}.
Next Obligation. done. Qed.
Next Obligation.
  intros f n [[Hp Hb] Hl] Hn. unfold runs. cbn [fread plain_stdio]. rewrite (proj2 (Z.ltb_ge n 0)) by lia.
  split; [|done]. split; [|done]. split; [|done]. unfold f_skip. simpl. unfold f_read.
  rewrite length_take, length_drop. lia.
Qed.
Next Obligation.
  intros f d [[Hp Hb] Hl] Hd Hfit. split; [|done]. pose proof (f_write_length d f Hp) as Hlen.
  simpl in Hfit. split; [split; [rewrite Hlen; simpl; lia|]|rewrite Hlen; lia].
  unfold f_write. simpl. by repeat apply Forall_app_2; [apply Forall_take| |apply Forall_drop].
Qed.
Next Obligation.
  intros f offset origin corigin n [[Hp Hb] Hl] Ho Horg Hn. unfold runs. cbn [fseek plain_stdio].
  assert ((if corigin =? SEEK_SET then SQ_SEEK_SET else if corigin =? SEEK_CUR then SQ_SEEK_CUR else SQ_SEEK_END) = origin) as ->.
  { rewrite !elem_of_cons in Horg. by destruct Horg as [E|[E|[E|[]%elem_of_nil]]]; apply (inj2 pair) in E as [-> ->]. }
  unfold id in Hn. rewrite Hn. split; [|done]. split; [|done]. split; [|done]. simpl.
  unfold f_target in Hn. destruct (decide _) as [Hr|]; [|done]. simplify_eq. lia.
Qed.
Next Obligation. done. Qed.

(** A function with a literal of each type, a variable, and a nested function. *)
Definition demo_inner : SQFunctionProto :=
  mkProto (OString [97]) (OString [102]) 3 true 0 [] [] [] [OString [116]] [] [mkOuter 1 (OString [120]) (OInteger 2)] [] [mkInstr (-1) 23 0 255 7].
Definition demo_proto : SQFunctionProto :=
  mkProto (OString [97]) ONull 5 false 1 [mkLocal (OString [120]) 0 9 1] [mkLine 1 0; mkLine 4 3]
    [OString [104; 105]; OInteger (-5); OFloat 1065353216; OBool 1; ONull] [OString [116]] [demo_inner] [] [2] [mkInstr 1 2 3 4 5].

Definition no_compiler : stM (IOBuffer file) Z → IOBuffer file → res () := λ _ _, Err (Raised "no compiler").

Lemma demo_proto_ok : proto_ok demo_proto.
Proof.
  unfold demo_proto, demo_inner. cbn. unfold block_size, PROTO_FIELDS, max_len, local_ok, outer_ok, line_ok, instruction_ok.
  cbn. unfold int_ok, word_ok, is_byte. split_and!; repeat constructor; cbn; unfold max_len; lia.
Qed.

(** The function as a closure, with the value of its default parameter. *)
Definition demo_closure : closure := mkClosureObj (Some 300) 400 None demo_proto [] [sq_int 7].

Lemma closure_file_roundtrip_witness :
  ∃ h', sqstd_writeclosuretofile (Some (mkFile [] 0)) demo_closure = Ok (Some h') ∧ handle_ok h' ∧
    ∀ h2, handle_ok h2 → hview h2 = mkFile (fbytes (hview h')) 0 →
      sqstd_loadfile no_compiler 500 2 (Some h2) [] = Ok (LClosure (mkClosureObj None 500 None demo_proto [] [sq_null])).
Proof.
  apply (closure_file_roundtrip no_compiler demo_closure 500 2 (mkFile [] 0) []); [apply demo_proto_ok|done| |by vm_compute| |done].
  - cbn. lia.
  - by split_and!.
Defined.

Lemma closure_file_truncated_witness :
  (39 < length (enc_file demo_proto))%nat ∧
  ∃ msg, sqstd_loadfile no_compiler 500 2 (Some (mkFile (take 39 (enc_file demo_proto)) 0)) [] = Err (Raised msg).
Proof.
  assert (Hl : (39 < length (enc_file demo_proto))%nat) by (apply Nat.ltb_lt; by vm_compute). split; [done|].
  apply (closure_file_truncated no_compiler demo_proto 500 2 _ [] 39); [apply demo_proto_ok|cbn; lia|lia| |done].
  split; [split; [cbn; lia|]|by vm_compute]. apply (bool_decide_unpack (Forall (λ b, 0 ≤ b < 256) _)). by vm_compute.
Defined.

(** ["AB"] in UTF-16, big-endian. *)
Lemma script_file_fed_witness :
  ∃ feed b, sqstd_loadfile no_compiler 500 0 (Some (mkFile [0xFE; 0xFF; 0; 65; 0; 66] 0)) [] = (c ← no_compiler feed b; Ok (LCompiled c)) ∧
    feeds feed b [65; 66].
Proof.
  apply (script_file_fed no_compiler 500 0 (mkFile [0xFE; 0xFF; 0; 65; 0; 66] 0) [] [0xFE; 0xFF; 0; 65; 0; 66]); [|split|done].
  - by apply (script_be [0; 65; 0; 66]).
  - split; [cbn; lia|]. repeat constructor; cbn; lia.
  - by vm_compute.
Defined.

(** ** Files that should not be trusted *)

(** The beginning of a closure, up to the names of its function, and the counts
    of its arrays in the order of the stream. *)
Definition closure_head : list Z :=
  le_bytes 2 SQ_BYTECODE_STREAM_TAG ++ le_bytes 4 SQ_CLOSURESTREAM_HEAD ++ le_bytes 4 1 ++ le_bytes 4 4 ++ le_bytes 4 4 ++ PART.
Definition counts (nl np no nlv nli nd ni nf : Z) : list Z := [nl; np; no; nlv; nli; nd; ni; nf] ≫= le_bytes 4.

(** A compiler that asks for [n] characters. *)
Definition reading_compiler (n : nat) : stM (IOBuffer file) Z → IOBuffer file → res (list Z) :=
  λ feed b, '(cs, _) ← feed_n n feed b; Ok cs.

(** What [sqstd_loadfile] takes from a file without checking it. A count of
    -1000 literals places the parameters in front of the block that is
    allocated for the function, and [Create] constructs them there. A string
    length of -1 has [fread] store the rest of the file into the scratch pad.
    The last character of a UTF-16 text with an odd number of bytes is taken
    from a byte that was not read. *)
Lemma loadfile_overruns :
  sqstd_loadfile no_compiler 500 1 (Some (mkFile (closure_head ++ enc_object ONull ++ enc_object ONull ++ PART ++
    counts (-1000) 1 0 0 1000 0 0 0) 0)) [] = Err OutOfBounds ∧
  sqstd_loadfile no_compiler 500 1 (Some (mkFile (closure_head ++ le_bytes 4 (type_code OT_STRING) ++ le_bytes 4 (-1) ++
    repeat 65 100) 0)) (repeat None 64) = Err OutOfBounds ∧
  sqstd_loadfile (reading_compiler 2) 500 0 (Some (mkFile [0xFF; 0xFE; 65; 0; 66] 0)) [] = Err OutOfBounds ∧
  sqstd_loadfile (reading_compiler 2) 500 0 (Some (mkFile [0xFF; 0xFE; 65; 0; 66; 0] 0)) [] = Ok (LCompiled [65; 66]).
Proof. by vm_compute. Qed.
