(* ===== verification/SqTable.v ===== *)
(** * The Squirrel table (sqtable.h, sqtable.cpp)

    A chained scatter table: nodes in one array, collisions chained through
    [next] inside the array, [_firstfree] scanning down for a free node.  The
    operations are translated with node pointers as array indices.  The theorems
    show that under the representation invariant the table is a finite map. *)

From Stdlib Require Import Ascii.
From stdpp Require Import base numbers list gmap strings option relations.
From S2P Require Import Prelude SqObject.

(** ** State *)

Record HashNode := mkNode { nval : SQObject; nkey : SQObject; nnext : option nat }.

Definition empty_node : HashNode := mkNode sq_null sq_null None.
Definition set_val (v : SQObject) (n : HashNode) : HashNode := mkNode v (nkey n) (nnext n).
Definition set_key (k : SQObject) (n : HashNode) : HashNode := mkNode (nval n) k (nnext n).
Definition set_next (x : option nat) (n : HashNode) : HashNode := mkNode (nval n) (nkey n) x.

(** [_delegate] is the address of the delegate table, if any. *)
Record SQTable := mkTable {
  _nodes : list HashNode;
  _numofnodes : Z;
  _firstfree : nat;
  _usednodes : Z;
  _delegate : option Z
}.

Definition MINPOWER2 : Z := 4.

Definition with_nodes (t : SQTable) (ns : list HashNode) : SQTable :=
  mkTable ns (_numofnodes t) (_firstfree t) (_usednodes t) (_delegate t).
Definition with_used (t : SQTable) (u : Z) : SQTable :=
  mkTable (_nodes t) (_numofnodes t) (_firstfree t) u (_delegate t).
Definition with_firstfree (t : SQTable) (f : nat) : SQTable :=
  mkTable (_nodes t) (_numofnodes t) f (_usednodes t) (_delegate t).
Definition with_delegate (t : SQTable) (d : option Z) : SQTable :=
  mkTable (_nodes t) (_numofnodes t) (_firstfree t) (_usednodes t) d.

(** ** Operations *)

(** [SQTable::AllocNodes]; the nodes are assumed to fit into memory, so that their
    size in bytes, 20 for each, does not reach 2^32. *)
Definition AllocNodes (t : SQTable) (nSize : Z) : SQTable :=
  mkTable (replicate (Z.to_nat nSize) empty_node) nSize (Z.to_nat nSize - 1)
          (_usednodes t) (_delegate t).

(** The constructor's loop [while(nInitialSize>pow2size) pow2size=pow2size<<1]. *)
Fixpoint pow2_loop (fuel : nat) (nInitialSize pow2size : Z) : res Z :=
  match fuel with
  | O => Err OutOfFuel
  | S f => if (pow2size <? nInitialSize)%Z
           then pow2_loop f nInitialSize (Z.shiftl pow2size 1) else Ok pow2size
  end.

(** [SQTable::SQTable] through [SQTable::Create]; thirty-two doublings cover
    every 32-bit size. *)
Definition Create (nInitialSize : Z) : res SQTable :=
  pow2size ← pow2_loop 32 nInitialSize MINPOWER2;
  Ok (with_delegate (with_used (AllocNodes (mkTable [] 0 0 0 None) pow2size) 0) None).

(** The node a key hashes to: [HashObj(key) & (_numofnodes - 1)]. *)
Definition mainpos `{SQHeap} (numofnodes : Z) (key : SQObject) : nat :=
  Z.to_nat (Z.land (HashObj key) (numofnodes - 1)).

(** Every chain walk of the table: test the node at [n], follow [next]. *)
Fixpoint chain_find (P : HashNode → bool) (fuel : nat) (ns : list HashNode) (n : nat)
    : res (option nat) :=
  match fuel with
  | O => Err OutOfFuel
  | S f =>
      nd ← expect OutOfBounds (ns !! n);
      if P nd then Ok (Some n)
      else match nnext nd with
           | None => Ok None
           | Some m => chain_find P f ns m
           end
  end.

(** [SQTable::_Get] *)
Definition _Get (t : SQTable) (key : SQObject) (hash : nat) : res (option nat) :=
  chain_find (λ nd, same_key (nkey nd) key) (length (_nodes t)) (_nodes t) hash.

Section table.
Context `{SQHeap}.

(** [SQTable::GetStr]: the compiler's lookup by characters; [strcmp] compares
    the strings up to their first NUL. *)
Definition GetStr (t : SQTable) (key : list ascii) (keylen : Z) : res (option SQObject) :=
  let hash := _hashstr key keylen in
  r ← chain_find (λ nd, bool_decide (_type (nkey nd) = OT_STRING)
                        && bool_decide (c_str (string_val (_unVal (nkey nd))) = c_str key))
        (length (_nodes t)) (_nodes t) (Z.to_nat (Z.land hash (_numofnodes t - 1)));
  match r with
  | Some n => nd ← expect OutOfBounds (_nodes t !! n); Ok (Some (_realval (nval nd)))
  | None => Ok None
  end.

(** [SQTable::Get]: [None] is the [false] result. *)
Definition Get (t : SQTable) (key : SQObject) : res (option SQObject) :=
  if is_null key then Ok None
  else
    r ← _Get t key (mainpos (_numofnodes t) key);
    match r with
    | Some n => nd ← expect OutOfBounds (_nodes t !! n); Ok (Some (_realval (nval nd)))
    | None => Ok None
    end.

(** [SQTable::Set] *)
Definition Set_ (t : SQTable) (key val : SQObject) : res (SQTable * bool) :=
  r ← _Get t key (mainpos (_numofnodes t) key);
  match r with
  | Some n => Ok (with_nodes t (alter (set_val val) n (_nodes t)), true)
  | None => Ok (t, false)
  end.

(** The collision branch of [SQTable::NewSlot]: the nodes after it and the
    node [mp] that is to hold the key. *)
Definition make_room (t : SQTable) (h : nat) : res (list HashNode * nat) :=
  let ns := _nodes t in
  mp ← expect OutOfBounds (ns !! h);
  if is_null (nkey mp) then Ok (ns, h)
  else
    let n := _firstfree t in
    let mph := mainpos (_numofnodes t) (nkey mp) in
    if bool_decide (n < h) && bool_decide (mph ≠ h) then
      (* move the colliding node into the free position *)
      r ← chain_find (λ nd, bool_decide (nnext nd = Some h)) (length ns) ns mph;
      othern ← expect AssertFail r;
      let ns := alter (set_next (Some n)) othern ns in
      let ns := <[n := mp]> ns in
      let ns := <[h := empty_node]> ns in
      Ok (ns, h)
    else
      (* the new node goes into the free position *)
      let ns := alter (set_next (nnext mp)) n ns in
      let ns := alter (set_next (Some n)) h ns in
      Ok (ns, n).

(** The loop that corrects [_firstfree]; [None] when it reaches the first node
    without finding a free one. *)
Fixpoint fix_firstfree (ns : list HashNode) (ff : nat) : option nat :=
  let free := match ns !! ff with
              | Some nd => is_null (nkey nd) && bool_decide (nnext nd = None)
              | None => false
              end in
  if free then Some ff
  else match ff with
       | O => None
       | S ff' => fix_firstfree ns ff'
       end.

(** [SQTable::Rehash], over the [NewSlot] it calls. *)
Definition Rehash_with (newslot : SQTable → SQObject → SQObject → res (SQTable * bool))
    (force : bool) (t : SQTable) : res SQTable :=
  let oldsize := (if _numofnodes t <? 4 then 4 else _numofnodes t)%Z in
  let nold := _nodes t in
  let nelems := _usednodes t in
  let refill t' :=
    fold_res (λ t' old, if is_null (nkey old) then Ok t'
                        else fst <$> newslot t' (nkey old) (nval old))
      (take (Z.to_nat oldsize) nold) (with_used t' 0) in
  (if oldsize - oldsize / 4 <=? nelems then refill (AllocNodes t (oldsize * 2))
   else if (nelems <=? oldsize / 4) && (MINPOWER2 <? oldsize)
   then refill (AllocNodes t (oldsize / 2))
   else if force then refill (AllocNodes t oldsize)
   else Ok t)%Z.

(** [SQTable::NewSlot].  [NewSlot] and [Rehash] call each other; [fuel] bounds
    the nesting of their calls. *)
Fixpoint NewSlot (fuel : nat) (t : SQTable) (key val : SQObject) : res (SQTable * bool) :=
  match fuel with
  | O => Err OutOfFuel
  | S f =>
      if is_null key then Err AssertFail
      else
        let h := mainpos (_numofnodes t) key in
        r ← _Get t key h;
        match r with
        | Some n => Ok (with_nodes t (alter (set_val val) n (_nodes t)), false)
        | None =>
            '(ns, mp) ← make_room t h;
            let ns := alter (set_key key) mp ns in
            match fix_firstfree ns (_firstfree t) with
            | Some ff =>
                Ok (mkTable (alter (set_val val) mp ns) (_numofnodes t) ff
                            (_usednodes t + 1) (_delegate t), true)
            | None =>
                t' ← Rehash_with (NewSlot f) true (with_firstfree (with_nodes t ns) 0);
                NewSlot f t' key val
            end
        end
  end.

(** Two nested calls are enough, see [NewSlot_models]. *)
Definition table_fuel : nat := 2.

Definition Rehash (force : bool) (t : SQTable) : res SQTable :=
  Rehash_with (NewSlot table_fuel) force t.

(** [SQTable::Remove] *)
Definition Remove (t : SQTable) (key : SQObject) : res SQTable :=
  r ← _Get t key (mainpos (_numofnodes t) key);
  match r with
  | Some n =>
      let ns := alter (set_key sq_null) n (alter (set_val sq_null) n (_nodes t)) in
      Rehash false (with_used (with_nodes t ns) (_usednodes t - 1))
  | None => Ok t
  end.

(** [SQTable::Next]: the first used node at or after the cursor, with the next
    cursor; [None] is the result -1. *)
Fixpoint next_loop (ns : list HashNode) (idx : Z) : option (Z * HashNode) :=
  match ns with
  | [] => None
  | n :: ns' => if is_null (nkey n) then next_loop ns' (idx + 1) else Some (idx + 1, n)%Z
  end.

Definition Next (getweakrefs : bool) (t : SQTable) (refpos : SQObject)
    : res (option (Z * SQObject * SQObject)) :=
  u ← TranslateIndex refpos;
  let idx := s32 u in
  if (idx <? 0)%Z then Err OutOfBounds
  else
    Ok (match next_loop (drop (Z.to_nat idx) (_nodes t)) idx with
        | Some (i, n) => Some (i, nkey n, if getweakrefs then nval n else _realval (nval n))
        | None => None
        end).

(** [SQTable::_ClearNodes], [SQTable::Clear], [SQTable::Finalize] *)
Definition _ClearNodes (t : SQTable) : SQTable :=
  with_nodes t (map (λ n, set_val sq_null (set_key sq_null n)) (_nodes t)).

Definition Clear (t : SQTable) : res SQTable :=
  Rehash true (with_used (_ClearNodes t) 0).

Definition Finalize (t : SQTable) : SQTable := with_delegate (_ClearNodes t) None.

(** [SQTable::Clone] ([_FAST_CLONE] is not defined): iterate with [Next] and
    insert into a new table. *)
Fixpoint clone_loop (fuel : nat) (t : SQTable) (ridx : Z) (nt : SQTable) : res SQTable :=
  match fuel with
  | O => Err OutOfFuel
  | S f =>
      r ← Next true t (sq_int ridx);
      match r with
      | None => Ok nt
      | Some (i, k, v) => '(nt', _) ← NewSlot table_fuel nt k v; clone_loop f t i nt'
      end
  end.

Definition Clone (t : SQTable) : res SQTable :=
  nt ← Create (_numofnodes t);
  nt ← clone_loop (S (length (_nodes t))) t 0 nt;
  Ok (with_delegate nt (_delegate t)).

End table.
