(* ===== verification/SqTableInv.v ===== *)
(** * The representation invariant of the Squirrel table

    What the node array of [SQTable] satisfies between operations, the three
    ways [NewSlot] places a key and the proof that each keeps the invariant. *)

From Stdlib Require Import Ascii.
From stdpp Require Import base numbers list gmap strings option relations.
From S2P Require Import Prelude SqObject SqTable.

Section table.
Context `{SQHeap}.

(** ** The representation invariant *)

(** [step ns i j]: node [i] chains to node [j].  [key_at ns i k]: node [i]
    holds the key [k]. *)
Definition step (ns : list HashNode) (i j : nat) : Prop :=
  ∃ nd, ns !! i = Some nd ∧ nnext nd = Some j.
Definition key_at (ns : list HashNode) (i : nat) (k : SQObject) : Prop :=
  ∃ nd, ns !! i = Some nd ∧ nkey nd = k ∧ is_null k = false.

(** Chains stay inside the array, never share a tail and never loop ([rank]
    falls along them); a key is stored once and lies on the chain of its main
    position; a key away from its main position lies at or above [lo] and its
    node is no other key's main position; chain links point at or above [lo].
    Between operations [lo] is the node after [_firstfree]. *)
Record node_inv (main : SQObject → nat) (ns : list HashNode) (lo : nat) : Prop := {
  ni_main : ∀ k, main k < length ns;
  ni_bound : ∀ i j, step ns i j → j < length ns;
  ni_rank : ∃ rank : nat → nat, ∀ i j, step ns i j → rank j < rank i;
  ni_inj : ∀ i i' j, step ns i j → step ns i' j → i = i';
  ni_uniq : ∀ i j k, key_at ns i k → key_at ns j k → i = j;
  ni_reach : ∀ i k, key_at ns i k → rtc (step ns) (main k) i;
  ni_foreign : ∀ i k, key_at ns i k → main k ≠ i →
                 lo ≤ i ∧ ∀ j k', key_at ns j k' → main k' ≠ i;
  ni_target : ∀ i j, step ns i j → lo ≤ j
}.

Definition free_at (ns : list HashNode) (i : nat) : Prop :=
  ∃ nd, ns !! i = Some nd ∧ is_null (nkey nd) = true ∧ nnext nd = None.

(** [holds ns m]: the used nodes are exactly the entries of [m]. *)
Definition holds (ns : list HashNode) (m : gmap SQObject SQObject) : Prop :=
  ∀ k v, m !! k = Some v ↔
         ∃ i nd, ns !! i = Some nd ∧ nkey nd = k ∧ nval nd = v ∧ is_null k = false.

(** The refinement relation: table [t] implements the finite map [m]. *)
Record models (t : SQTable) (m : gmap SQObject SQObject) : Prop := {
  mo_len : Z.of_nat (length (_nodes t)) = _numofnodes t;
  mo_pow2 : ∃ e, (2 ≤ e)%Z ∧ _numofnodes t = (2 ^ e)%Z;
  mo_inv : node_inv (mainpos (_numofnodes t)) (_nodes t) (S (_firstfree t));
  mo_free : free_at (_nodes t) (_firstfree t);
  mo_holds : holds (_nodes t) m;
  mo_used : _usednodes t = Z.of_nat (size m)
}.

(** *** Chain walks *)

Lemma is_null_true k : is_null k = true ↔ _type k = OT_NULL.
Proof. unfold is_null. apply bool_decide_eq_true. Qed.

Lemma chain_find_ok (P : HashNode → bool) ns i (rank : nat → nat) :
  (∀ i j, step ns i j → j < length ns) →
  (∀ i j, step ns i j → rank j < rank i) →
  i < length ns →
  ∃ r, chain_find P (length ns) ns i = Ok r ∧
       match r with
       | Some j => rtc (step ns) i j ∧ ∃ nd, ns !! j = Some nd ∧ P nd = true
       | None => ∀ j nd, rtc (step ns) i j → ns !! j = Some nd → P nd = false
       end.
Proof.
  intros Hb Hr.
  cut (∀ fuel vis i, NoDup vis → (∀ x, x ∈ vis → x < length ns ∧ rank i < rank x) →
    length ns ≤ length vis + fuel → i < length ns →
    ∃ r, chain_find P fuel ns i = Ok r ∧
       match r with
       | Some j => rtc (step ns) i j ∧ ∃ nd, ns !! j = Some nd ∧ P nd = true
       | None => ∀ j nd, rtc (step ns) i j → ns !! j = Some nd → P nd = false
       end).
  { intros Hc Hi. apply (Hc _ [] i); [constructor|set_solver|simpl; lia|done]. }
  clear i. induction fuel as [|f IH]; intros vis i Hnd Hvis Hlen Hi.
  - exfalso. assert (Hn : NoDup (i :: vis)).
    { constructor; [|done]. intros Hin. destruct (Hvis i Hin). lia. }
    apply (NoDup_bounded_length _ (length ns)) in Hn; [simpl in *; lia|].
    intros x [->|Hx]%elem_of_cons; [done|by apply Hvis].
  - simpl. destruct (lookup_lt_is_Some_2 ns i Hi) as [nd Hnd']. rewrite Hnd'. simpl.
    destruct (P nd) eqn:HP.
    { exists (Some i). split; [done|]. split; [done|eauto]. }
    destruct (nnext nd) as [j|] eqn:Hnx.
    + assert (Hs : step ns i j) by (by exists nd).
      destruct (IH (i :: vis) j) as (r & Hrun & Hpost).
      * constructor; [|done]. intros Hin. destruct (Hvis i Hin). lia.
      * intros x [->|Hx]%elem_of_cons; [split; [done|by apply Hr]|].
        destruct (Hvis x Hx). specialize (Hr _ _ Hs). split; [done|lia].
      * simpl. lia.
      * by apply (Hb i).
      * exists r. split; [done|]. destruct r as [j'|].
        -- destruct Hpost as [Hreach ?]. split; [by eapply rtc_l|done].
        -- intros j' nd' Hreach Hj'. inversion Hreach as [|? y ? Hy Hrest]; simplify_eq.
           { congruence. }
           destruct Hy as (nd2 & ? & ?). assert (y = j) by congruence. subst y. eauto.
    + exists None. split; [done|]. intros j' nd' Hreach Hj'.
      inversion Hreach as [|? y ? Hy Hrest]; simplify_eq; [congruence|].
      destruct Hy as (nd2 & ? & ?). congruence.
Qed.

(** [ent ns i k v]: node [i] is used and holds the pair. *)
Definition ent (ns : list HashNode) (i : nat) (k v : SQObject) : Prop :=
  ∃ nd, ns !! i = Some nd ∧ nkey nd = k ∧ nval nd = v ∧ is_null k = false.

Lemma key_at_ent ns i k : key_at ns i k ↔ ∃ v, ent ns i k v.
Proof. unfold key_at, ent. naive_solver. Qed.

Lemma ent_key_at ns i k v : ent ns i k v → key_at ns i k.
Proof. rewrite key_at_ent. eauto. Qed.

Lemma key_at_fun ns i k1 k2 : key_at ns i k1 → key_at ns i k2 → k1 = k2.
Proof. intros (nd1 & ? & ? & _) (nd2 & ? & ? & _). congruence. Qed.

Lemma step_fun ns i j1 j2 : step ns i j1 → step ns i j2 → j1 = j2.
Proof. intros (nd1 & ? & ?) (nd2 & ? & ?). congruence. Qed.

Lemma holds_insert ns ns' m k v :
  (∀ k' v', (∃ i, ent ns' i k' v') ↔
            (k' = k ∧ v' = v) ∨ (k' ≠ k ∧ ∃ i, ent ns i k' v')) →
  holds ns m → holds ns' (<[k := v]> m).
Proof.
  intros He Hh k' v'.
  transitivity (∃ i, ent ns' i k' v'); [|reflexivity].
  rewrite He, lookup_insert_Some.
  assert (m !! k' = Some v' ↔ ∃ i, ent ns i k' v') as Hm by apply Hh.
  rewrite Hm. naive_solver.
Qed.

(** Nothing is stored in, chained from or hashed to a free node. *)
Section free.
Context (ns : list HashNode) (n : nat) (Hfree : free_at ns n).

Lemma free_no_step j : ¬ step ns n j.
Proof. destruct Hfree as (nd & ? & _ & ?). intros (nd' & ? & ?). congruence. Qed.

Lemma free_no_key k' : ¬ key_at ns n k'.
Proof. destruct Hfree as (nd & ? & ? & _). intros (nd' & ? & ? & ?). congruence. Qed.

Lemma free_ne_used i k' : key_at ns i k' → n ≠ i.
Proof. intros Hi Heq. apply (free_no_key k'). by rewrite Heq. Qed.

Lemma free_lt : n < length ns.
Proof. destruct Hfree as (nd & ? & _). by eapply lookup_lt_Some. Qed.

Lemma free_no_pred main i : node_inv main ns (S n) → ¬ step ns i n.
Proof. intros Hinv Hs. apply (ni_target _ _ _ Hinv) in Hs. lia. Qed.

Lemma free_not_main main j k' :
  node_inv main ns (S n) → key_at ns j k' → main k' ≠ n.
Proof.
  intros Hinv Hj Hm. pose proof (ni_reach _ _ _ Hinv _ _ Hj) as Hr. rewrite Hm in Hr.
  apply rtc_inv in Hr as [<-|(y & Hs & _)]; [by eapply free_no_key|by eapply free_no_step].
Qed.
End free.

(** No removed node is left: chain nodes and every node above [ff] are used.
    Tables that are being rebuilt satisfy it. *)
Definition dense (ns : list HashNode) (ff : nat) : Prop :=
  (∀ i j, step ns i j → ∃ k, key_at ns i k) ∧
  (∀ i, ff < i → i < length ns → ∃ k, key_at ns i k).

(** The entries after adding [k] with value [x]. *)
Definition adds (ns ns' : list HashNode) (k x : SQObject) : Prop :=
  ∀ k' v', (∃ i, ent ns' i k' v') ↔ (k' = k ∧ v' = x) ∨ (k' ≠ k ∧ ∃ i, ent ns i k' v').

Section insertion.
Context (main : SQObject → nat) (ns : list HashNode) (n : nat) (k : SQObject).
Context (Hinv : node_inv main ns (S n)) (Hfree : free_at ns n).
Context (Hk : is_null k = false) (Hnew : ∀ i, ¬ key_at ns i k).

Section at_main.
(** Case 1 of [NewSlot]: the main position is empty. *)
Context (mp : HashNode) (x : SQObject) (ns' : list HashNode).
Context (Hmp : ns !! main k = Some mp) (Hnull : is_null (nkey mp) = true).
Context (Hlen : length ns' = length ns).
Context (Hh' : ns' !! main k = Some (mkNode x k (nnext mp))).
Context (Ho' : ∀ i, i ≠ main k → ns' !! i = ns !! i).

Lemma at_main_no_key k' : ¬ key_at ns (main k) k'.
Proof. intros (nd & ? & ? & ?). congruence. Qed.

Lemma at_main_step i j : step ns' i j ↔ step ns i j.
Proof.
  unfold step. destruct (decide (i = main k)) as [->|]; [rewrite Hh', Hmp; naive_solver|].
  by rewrite Ho'.
Qed.

Lemma at_main_ent i k' v' : ent ns' i k' v' ↔
  (i = main k ∧ k' = k ∧ v' = x) ∨ (i ≠ main k ∧ ent ns i k' v').
Proof.
  unfold ent. destruct (decide (i = main k)) as [->|]; [rewrite Hh'; naive_solver|].
  rewrite Ho' by done. naive_solver.
Qed.

Lemma at_main_key i k' : key_at ns' i k' ↔
  (i = main k ∧ k' = k) ∨ (i ≠ main k ∧ key_at ns i k').
Proof. rewrite !key_at_ent. setoid_rewrite at_main_ent. naive_solver. Qed.

Lemma at_main_keep i k' : key_at ns i k' → key_at ns' i k'.
Proof.
  intros Hik. apply at_main_key. right. split; [|done]. intros ->. by eapply at_main_no_key.
Qed.

Lemma at_main_inv : node_inv main ns' (S n).
Proof.
  destruct Hinv as [Hm Hb [rank Hr] Hi Hu Hre Hf Ht]. constructor.
  - intros. rewrite Hlen. apply Hm.
  - intros i j. rewrite at_main_step, Hlen. apply Hb.
  - exists rank. intros i j. rewrite at_main_step. apply Hr.
  - intros i i' j. rewrite !at_main_step. apply Hi.
  - intros i j k'. rewrite !at_main_key. naive_solver.
  - intros i k'. rewrite at_main_key. intros [[-> ->]|[_ ?]]; [done|].
    eapply rtc_subrel; [|by apply Hre]. intros ?? Hs. by apply at_main_step.
  - intros i k'. rewrite at_main_key. intros [[-> ->]|[Hne Hik]] Hfor; [done|].
    destruct (Hf i k' Hik Hfor) as [? Hno]. split; [done|].
    intros j k''. rewrite at_main_key. intros [[-> ->]|[_ ?]]; [done|eauto].
  - intros i j. rewrite at_main_step. apply Ht.
Qed.

Lemma at_main_adds : adds ns ns' k x.
Proof.
  intros k' v'. setoid_rewrite at_main_ent. split.
  - intros (i & [?|[? He]]); [naive_solver|right].
    split; [|eauto]. intros ->. by eapply Hnew, ent_key_at.
  - intros [[-> ->]|[? [i He]]]; [eauto|]. exists i. right. split; [|done].
    intros ->. by eapply at_main_no_key, ent_key_at.
Qed.

Lemma at_main_dense : dense ns n → dense ns' n.
Proof.
  intros [D1 D2]. split.
  - intros i j. rewrite at_main_step. intros Hs. destruct (D1 i j Hs) as [k' ?].
    eauto using at_main_keep.
  - intros i ??. rewrite Hlen in *. destruct (D2 i) as [k' ?]; eauto using at_main_keep.
Qed.

Lemma at_main_all : node_inv main ns' (S n) ∧ adds ns ns' k x ∧ (dense ns n → dense ns' n).
Proof. auto using at_main_inv, at_main_adds, at_main_dense. Qed.
End at_main.

Section at_free.
(** Case 2: the node at the main position stays; the new key goes into the
    free node [n], chained right after the main position. *)
Context (mp : HashNode) (x : SQObject) (ns' : list HashNode).
Context (Hmp : ns !! main k = Some mp) (Hused : key_at ns (main k) (nkey mp)).
Context (Hnat : main (nkey mp) = main k).
Context (Hlen : length ns' = length ns).
Context (Hn' : ns' !! n = Some (mkNode x k (nnext mp))).
Context (Hh' : ns' !! main k = Some (set_next (Some n) mp)).
Context (Ho' : ∀ i, i ≠ n → i ≠ main k → ns' !! i = ns !! i).

Lemma at_free_ne : n ≠ main k.
Proof. intros Heq. apply (free_no_key ns n Hfree (nkey mp)). by rewrite Heq. Qed.

Lemma at_free_step i j : step ns' i j ↔
  (i = main k ∧ j = n) ∨ (i = n ∧ step ns (main k) j) ∨
  (i ≠ main k ∧ i ≠ n ∧ step ns i j).
Proof.
  pose proof at_free_ne. unfold step.
  destruct (decide (i = n)) as [Hi|]; [rewrite Hi, Hn', Hmp; naive_solver|].
  destruct (decide (i = main k)) as [Hi|]; [rewrite Hi, Hh'; naive_solver|].
  rewrite Ho' by done. naive_solver.
Qed.

Lemma at_free_ent i k' v' : ent ns' i k' v' ↔
  (i = n ∧ k' = k ∧ v' = x) ∨ (i ≠ n ∧ ent ns i k' v').
Proof.
  pose proof at_free_ne. unfold ent.
  destruct (decide (i = n)) as [Hi|]; [rewrite Hi, Hn'; naive_solver|].
  destruct (decide (i = main k)) as [Hi|]; [rewrite Hi, Hh', Hmp; naive_solver|].
  rewrite Ho' by done. naive_solver.
Qed.

Lemma at_free_key i k' : key_at ns' i k' ↔ (i = n ∧ k' = k) ∨ (i ≠ n ∧ key_at ns i k').
Proof. rewrite !key_at_ent. setoid_rewrite at_free_ent. naive_solver. Qed.

Lemma at_free_rtc a b : rtc (step ns) a b → rtc (step ns') a b.
Proof.
  intros Hab. induction Hab as [|a c b Hs _ IH]; [done|].
  destruct (decide (a = main k)) as [Ha|].
  - rewrite Ha in *. apply rtc_l with n; [apply at_free_step; auto|].
    apply rtc_l with c; [apply at_free_step; auto|done].
  - apply rtc_l with c; [|done]. apply at_free_step. do 2 right.
    split_and!; [done|intros Ha; rewrite Ha in Hs; by apply (free_no_step ns n Hfree c)|done].
Qed.

Lemma at_free_rank (rank : nat → nat) :
  (∀ i j, step ns i j → rank j < rank i) →
  ∀ i j, step ns' i j →
    (if decide (j = n) then 2 * rank (main k) + 1 else 2 * rank j + 2) <
    (if decide (i = n) then 2 * rank (main k) + 1 else 2 * rank i + 2).
Proof.
  intros Hr i j. rewrite at_free_step. pose proof at_free_ne.
  assert (Hjn : ∀ i, step ns i j → j ≠ n).
  { intros i' Hs Hj. rewrite Hj in Hs. by apply (free_no_pred ns n main i'). }
  intros [[-> ->]|[[-> Hs]|(Hih & Hin & Hs)]].
  - rewrite decide_True, decide_False by done. lia.
  - rewrite (decide_True _ _ (eq_refl n)), decide_False by eauto.
    specialize (Hr _ _ Hs). lia.
  - rewrite !decide_False by eauto. specialize (Hr _ _ Hs). lia.
Qed.

Lemma at_free_inj i i' j : step ns' i j → step ns' i' j → i = i'.
Proof.
  assert (Hjn : ∀ i, ¬ step ns i n) by (intros; by eapply free_no_pred).
  assert (Hin : ∀ i, step ns i j → step ns (main k) j → i = main k)
    by (intros; by apply (ni_inj _ _ _ Hinv _ _ j)).
  rewrite !at_free_step.
  intros [[-> ->]|[[-> ?]|(? & ? & ?)]] [[-> Hj]|[[-> ?]|(? & ? & ?)]];
    try done; try (exfalso; rewrite ?Hj in *; by eapply Hjn); try (exfalso; eauto; fail).
  by apply (ni_inj _ _ _ Hinv _ _ j).
Qed.

Lemma at_free_foreign i k' : key_at ns' i k' → main k' ≠ i →
  n ≤ i ∧ ∀ j k'', key_at ns' j k'' → main k'' ≠ i.
Proof.
  pose proof at_free_ne as Hne.
  rewrite at_free_key. intros [[Hin Hk']|[Hin Hik]] Hfor.
  - split; [lia|]. intros j k''. rewrite at_free_key, Hin.
    intros [[_ Hk'']|[_ ?]]; [by rewrite Hk''|by eapply free_not_main].
  - destruct (ni_foreign _ _ _ Hinv i k' Hik Hfor) as [? Hno]. split; [lia|].
    intros j k''. rewrite at_free_key. intros [[_ Hk'']|[_ ?]]; [|eauto].
    rewrite Hk''. intros Hhi. apply (Hno (main k) (nkey mp)); [done|]. by rewrite Hnat.
Qed.

Lemma insert_at_free : node_inv main ns' n ∧ key_at ns' n k.
Proof.
  split; [|apply at_free_key; auto]. constructor.
  - intros. rewrite Hlen. apply (ni_main _ _ _ Hinv).
  - intros i j. rewrite at_free_step, Hlen.
    intros [[_ Hj]|[[_ ?]|(_ & _ & ?)]]; [rewrite Hj; by apply free_lt|by eapply (ni_bound _ _ _ Hinv)..].
  - destruct (ni_rank _ _ _ Hinv) as [rank Hr]. eexists. by apply at_free_rank.
  - apply at_free_inj.
  - intros i j k'. rewrite !at_free_key.
    intros [[-> ->]|[? Q1]] [[-> ?]|[? Q2]]; [done|by apply Hnew in Q2|subst k'; by apply Hnew in Q1|].
    by apply (ni_uniq _ _ _ Hinv _ _ k').
  - intros i k'. rewrite at_free_key.
    intros [[-> ->]|[_ ?]]; [|by apply at_free_rtc, (ni_reach _ _ _ Hinv)].
    apply rtc_once, at_free_step. auto.
  - apply at_free_foreign.
  - intros i j. rewrite at_free_step.
    intros [[_ Hj]|[[_ Hs]|(_ & _ & Hs)]]; [lia|apply (ni_target _ _ _ Hinv) in Hs; lia..].
Qed.

Lemma at_free_adds : adds ns ns' k x.
Proof.
  intros k' v'. setoid_rewrite at_free_ent. split.
  - intros (i & [?|[? He]]); [naive_solver|right].
    split; [|eauto]. intros ->. by eapply Hnew, ent_key_at.
  - intros [[-> ->]|[? [i He]]]; [eauto|]. exists i. right. split; [|done].
    intros ->. by eapply free_no_key, ent_key_at.
Qed.

Lemma at_free_dense : dense ns n → dense ns' n.
Proof.
  assert (Hkeep : ∀ i k', key_at ns i k' → key_at ns' i k').
  { intros i k' Hik. apply at_free_key. right. split; [|done].
    intros ->. by eapply free_no_key. }
  assert (Hnk : key_at ns' n k) by (apply at_free_key; auto).
  intros [D1 D2]. split.
  - intros i j. rewrite at_free_step. intros [[-> _]|[[-> _]|(_ & _ & Hs)]]; [eauto|eauto|].
    destruct (D1 i j Hs) as [k' ?]. eauto.
  - intros i ??. rewrite Hlen in *. destruct (D2 i) as [k' ?]; eauto.
Qed.

Lemma at_free_all : node_inv main ns' n ∧ key_at ns' n k ∧ adds ns ns' k x ∧
  (dense ns n → dense ns' n).
Proof. destruct insert_at_free. auto using at_free_adds, at_free_dense. Qed.
End at_free.

Section moving.
(** Case 3: the node at the main position belongs to another chain; it moves to
    the free node [n], its predecessor [o] is redirected, and the new key takes
    the main position. *)
Context (mp no : HashNode) (o : nat).
Context (Hmp : ns !! main k = Some mp) (Hused : key_at ns (main k) (nkey mp)).
Context (Hfor : main (nkey mp) ≠ main k).
Context (Ho : ns !! o = Some no) (Hox : nnext no = Some (main k)).

Lemma moving_pred : step ns o (main k).
Proof. by exists no. Qed.

Lemma moving_ne : n ≠ main k ∧ o ≠ n ∧ o ≠ main k.
Proof.
  split_and!.
  - intros Heq. apply (free_no_key ns n Hfree (nkey mp)). by rewrite Heq.
  - intros Heq. apply (free_no_step ns n Hfree (main k)). rewrite <- Heq. apply moving_pred.
  - intros Heq. destruct (ni_rank _ _ _ Hinv) as [rank Hr].
    pose proof (Hr _ _ moving_pred) as Hlt. rewrite Heq in Hlt. lia.
Qed.

Context (x : SQObject) (ns' : list HashNode).
Context (Hlen : length ns' = length ns).
Context (Hn' : ns' !! n = Some mp).
Context (Hh' : ns' !! main k = Some (mkNode x k None)).
Context (Ho' : ns' !! o = Some (set_next (Some n) no)).
Context (Hr' : ∀ i, i ≠ n → i ≠ main k → i ≠ o → ns' !! i = ns !! i).

Lemma moving_step i j : step ns' i j ↔
  (i = o ∧ j = n) ∨ (i = n ∧ step ns (main k) j) ∨
  (i ≠ main k ∧ i ≠ n ∧ i ≠ o ∧ step ns i j).
Proof.
  destruct moving_ne as (? & ? & ?). unfold step.
  destruct (decide (i = n)) as [Hi|]; [rewrite Hi, Hn', Hmp; naive_solver|].
  destruct (decide (i = main k)) as [Hi|]; [rewrite Hi, Hh'; naive_solver|].
  destruct (decide (i = o)) as [Hi|]; [rewrite Hi, Ho'; naive_solver|].
  rewrite Hr' by done. naive_solver.
Qed.

Lemma moving_ent i k' v' : ent ns' i k' v' ↔
  (i = main k ∧ k' = k ∧ v' = x) ∨ (i = n ∧ ent ns (main k) k' v') ∨
  (i ≠ main k ∧ i ≠ n ∧ ent ns i k' v').
Proof.
  destruct moving_ne as (? & ? & ?). unfold ent.
  destruct (decide (i = n)) as [Hi|]; [rewrite Hi, Hn', Hmp; naive_solver|].
  destruct (decide (i = main k)) as [Hi|]; [rewrite Hi, Hh'; naive_solver|].
  destruct (decide (i = o)) as [Hi|]; [rewrite Hi, Ho', Ho; naive_solver|].
  rewrite Hr' by done. naive_solver.
Qed.

Lemma moving_key i k' : key_at ns' i k' ↔
  (i = main k ∧ k' = k) ∨ (i = n ∧ k' = nkey mp) ∨
  (i ≠ main k ∧ i ≠ n ∧ key_at ns i k').
Proof.
  rewrite !key_at_ent. setoid_rewrite moving_ent. split.
  - intros (v & [?|[[? He]|?]]); [naive_solver| |naive_solver].
    right; left. split; [done|]. apply ent_key_at in He. by eapply key_at_fun.
  - pose proof Hused as Hu. rewrite key_at_ent in Hu. naive_solver.
Qed.

Lemma moving_adds : adds ns ns' k x.
Proof.
  intros k' v'. setoid_rewrite moving_ent. split.
  - intros (i & [?|[[_ He]|(_ & _ & He)]]); [naive_solver|right..];
      (split; [intros ->; eapply Hnew; by eapply ent_key_at|eauto]).
  - intros [[-> ->]|[_ [i He]]]; [exists (main k); naive_solver|].
    destruct (decide (i = main k)) as [Hih|]; [exists n; rewrite Hih in He; naive_solver|].
    exists i. do 2 right. split_and!; [done| |done].
    intros Hin. rewrite Hin in He. eapply (free_no_key ns n Hfree). by eapply ent_key_at.
Qed.

Lemma moving_rtc a b : rtc (step ns) a b → a ≠ main k →
  rtc (step ns') a (if decide (b = main k) then n else b).
Proof.
  intros Hab Ha. destruct moving_ne as (? & ? & ?).
  revert b Hab. apply rtc_ind_r; [by rewrite decide_False|]. intros b c Hab Hbc IH.
  destruct (decide (c = main k)) as [Hc|Hc].
  - rewrite Hc in Hbc.
    assert (b = o) as Hbo by (apply (ni_inj _ _ _ Hinv b o (main k)); [done|apply moving_pred]).
    rewrite Hbo, decide_False in IH by done.
    eapply rtc_r; [exact IH|]. apply moving_step. auto.
  - eapply rtc_r; [exact IH|]. apply moving_step.
    destruct (decide (b = main k)) as [Hbh|Hbh]; [rewrite Hbh in Hbc; auto|].
    do 2 right. split_and!; [done| | |done].
    + intros Hbn. rewrite Hbn in Hbc. by apply (free_no_step ns n Hfree c).
    + intros Hbo. rewrite Hbo in Hbc. apply Hc.
      apply (step_fun ns o); [done|apply moving_pred].
Qed.

Lemma moving_rank (rank : nat → nat) :
  (∀ i j, step ns i j → rank j < rank i) →
  ∀ i j, step ns' i j →
    (if decide (j = n) then rank (main k) else rank j) <
    (if decide (i = n) then rank (main k) else rank i).
Proof.
  intros Hr i j. rewrite moving_step. destruct moving_ne as (? & ? & ?).
  assert (Hjn : ∀ i, step ns i j → j ≠ n).
  { intros i' Hs Hj. rewrite Hj in Hs. by apply (free_no_pred ns n main i'). }
  intros [[-> ->]|[[-> Hs]|(Hih & Hin & Hio & Hs)]].
  - rewrite decide_True, decide_False by done. apply Hr, moving_pred.
  - rewrite (decide_True _ _ (eq_refl n)), decide_False by eauto. by apply Hr.
  - rewrite !decide_False by eauto. by apply Hr.
Qed.

Lemma moving_inj i i' j : step ns' i j → step ns' i' j → i = i'.
Proof.
  assert (Hjn : ∀ i, ¬ step ns i n) by (intros; by eapply free_no_pred).
  assert (Hin : ∀ i, step ns i j → step ns (main k) j → i = main k)
    by (intros; by apply (ni_inj _ _ _ Hinv _ _ j)).
  rewrite !moving_step.
  intros [[-> ->]|[[-> ?]|(? & ? & ? & ?)]] [[-> Hj]|[[-> ?]|(? & ? & ? & ?)]];
    try done; try (exfalso; rewrite ?Hj in *; by eapply Hjn); try (exfalso; eauto; fail).
  by apply (ni_inj _ _ _ Hinv _ _ j).
Qed.

Lemma moving_uniq i j k' : key_at ns' i k' → key_at ns' j k' → i = j.
Proof.
  assert (Hu : ∀ i, key_at ns i (nkey mp) → i = main k)
    by (intros i' Hi'; by apply (ni_uniq _ _ _ Hinv _ _ (nkey mp))).
  assert (Hkm : k ≠ nkey mp) by (intros Heq; apply (Hnew (main k)); by rewrite Heq at 2).
  rewrite !moving_key.
  intros [[-> ->]|[[-> ->]|(? & ? & Q1)]] [[-> Q2]|[[-> Q2]|(? & ? & Q2)]];
    try done; try (by apply Hnew in Q2); try (subst k'; by apply Hnew in Q1);
    try (subst k'; by apply Hu in Q1); try (by apply Hu in Q2).
  by apply (ni_uniq _ _ _ Hinv _ _ k').
Qed.

Lemma moving_foreign i k' : key_at ns' i k' → main k' ≠ i →
  n ≤ i ∧ ∀ j k'', key_at ns' j k'' → main k'' ≠ i.
Proof.
  destruct moving_ne as (Hnh & _ & _).
  destruct (ni_foreign _ _ _ Hinv _ _ Hused Hfor) as [Hlo Hnoh].
  assert (Hnomain : ∀ i, i ≠ main k → (∀ j k', key_at ns j k' → main k' ≠ i) →
            ∀ j k', key_at ns' j k' → main k' ≠ i).
  { intros i' Hih Hold j k''. rewrite moving_key.
    intros [[_ Hk']|[[_ Hk']|(_ & _ & ?)]]; rewrite ?Hk'; eauto. }
  rewrite moving_key. intros [[Hih Hk']|[[Hin Hk']|(Hih & Hin & Hik)]] Hfo.
  - rewrite Hih, Hk' in Hfo. done.
  - split; [lia|]. apply Hnomain; [by rewrite Hin|]. rewrite Hin. intros ??. by apply free_not_main.
  - destruct (ni_foreign _ _ _ Hinv i k' Hik Hfo) as [? Hno]. split; [lia|]. by apply Hnomain.
Qed.

Lemma insert_moving : node_inv main ns' n ∧ key_at ns' n (nkey mp).
Proof.
  destruct (ni_foreign _ _ _ Hinv _ _ Hused Hfor) as [_ Hnoh].
  split; [|apply moving_key; auto]. constructor.
  - intros. rewrite Hlen. apply (ni_main _ _ _ Hinv).
  - intros i j. rewrite moving_step, Hlen.
    intros [[_ Hj]|[[_ ?]|(_ & _ & _ & ?)]]; [rewrite Hj; by apply free_lt|by eapply (ni_bound _ _ _ Hinv)..].
  - destruct (ni_rank _ _ _ Hinv) as [rank Hr]. eexists. by apply moving_rank.
  - apply moving_inj.
  - apply moving_uniq.
  - intros i k'. rewrite moving_key. intros [[-> ->]|[[-> ->]|(Hih & Hin & Hik)]]; [done|..].
    + pose proof (moving_rtc _ _ (ni_reach _ _ _ Hinv _ _ Hused) Hfor) as Hx.
      by rewrite decide_True in Hx.
    + pose proof (moving_rtc _ _ (ni_reach _ _ _ Hinv _ _ Hik) (Hnoh _ _ Hik)) as Hx.
      by rewrite decide_False in Hx.
  - apply moving_foreign.
  - intros i j. rewrite moving_step.
    intros [[_ Hj]|[[_ Hs]|(_ & _ & _ & Hs)]]; [lia|apply (ni_target _ _ _ Hinv) in Hs; lia..].
Qed.

Lemma moving_dense : dense ns n → dense ns' n.
Proof.
  assert (Hkeep : ∀ i k', key_at ns i k' → ∃ k'', key_at ns' i k'').
  { intros i k' Hik. destruct (decide (i = main k)) as [->|]; [exists k; apply moving_key; auto|].
    exists k'. apply moving_key. do 2 right.
    split_and!; [done|intros ->; by eapply free_no_key|done]. }
  assert (Hnk : key_at ns' n (nkey mp)) by (apply moving_key; auto).
  intros [D1 D2]. split.
  - intros i j. rewrite moving_step. intros [[-> _]|[[-> _]|(_ & _ & _ & Hs)]]; [|eauto|].
    + destruct (D1 o (main k)) as [k' ?]; [by exists no|eauto].
    + destruct (D1 i j Hs) as [k' ?]. eauto.
  - intros i ??. rewrite Hlen in *. destruct (D2 i) as [k' ?]; eauto.
Qed.

Lemma moving_all : node_inv main ns' n ∧ key_at ns' n (nkey mp) ∧ adds ns ns' k x ∧
  (dense ns n → dense ns' n).
Proof. destruct insert_moving. auto using moving_adds, moving_dense. Qed.
End moving.
End insertion.


End table.
