(* ===== verification/SqTableSpec.v ===== *)
(** * The Squirrel table is a finite map

    Every operation of [SQTable] against the refinement relation [models]:
    lookups agree with the map, insertions, updates and removals act on it as
    on a map, and growing, shrinking and iterating never lose an entry. *)

From Stdlib Require Import Ascii.
From stdpp Require Import base numbers list gmap strings option relations.
From S2P Require Import Prelude SqObject SqTable SqTableInv.

Section table.
Context `{SQHeap}.

(** ** Lookup in the node array *)

Lemma chain_find_key main ns lo k :
  node_inv main ns lo → is_null k = false →
  ∃ r, chain_find (λ nd, same_key (nkey nd) k) (length ns) ns (main k) = Ok r ∧
       match r with
       | Some j => ∃ nd, ns !! j = Some nd ∧ nkey nd = k
       | None => ∀ j, ¬ key_at ns j k
       end.
Proof.
  intros Hinv Hk. destruct (ni_rank _ _ _ Hinv) as [rank Hr].
  destruct (chain_find_ok (λ nd, same_key (nkey nd) k) ns (main k) rank
              (ni_bound _ _ _ Hinv) Hr (ni_main _ _ _ Hinv k)) as (r & Hrun & Hpost).
  exists r. split; [done|]. destruct r as [j|].
  - destruct Hpost as (_ & nd & ? & Hs%same_key_true). eauto.
  - intros j Hj. pose proof (ni_reach _ _ _ Hinv _ _ Hj) as Hreach.
    destruct Hj as (nd & Hnd & Hkey & _).
    specialize (Hpost j nd Hreach Hnd). rewrite Hkey in Hpost.
    by rewrite (proj2 (same_key_true k k) eq_refl) in Hpost.
Qed.

Lemma node_inv_weaken main ns lo lo' :
  node_inv main ns lo → lo' ≤ lo → node_inv main ns lo'.
Proof.
  intros [Hm Hb Hr Hi Hu Hre Hf Ht] Hle. constructor; try done.
  - intros i k Hik Hne. destruct (Hf i k Hik Hne). split; [lia|done].
  - intros i j Hs. apply Ht in Hs. lia.
Qed.

(** ** Placing a key *)

(** What [make_room] prepares: storing [k] with any value [x] in the node it
    returns keeps the invariant and adds exactly that entry. *)
Definition room_for (main : SQObject → nat) (ns : list HashNode) (ff : nat) (k : SQObject)
    (ns1 : list HashNode) (mp : nat) (nd : HashNode) : Prop :=
  ns1 !! mp = Some nd ∧ length ns1 = length ns ∧
  ∀ x, let ns' := <[mp := mkNode x k (nnext nd)]> ns1 in
    (node_inv main ns' (S ff) ∨ (node_inv main ns' ff ∧ ∃ k', key_at ns' ff k')) ∧
    adds ns ns' k x ∧ (dense ns ff → dense ns' ff).

Section room.
Context (main : SQObject → nat) (ns : list HashNode) (ff : nat) (k : SQObject).
Context (Hinv : node_inv main ns (S ff)) (Hfree : free_at ns ff).
Context (Hk : is_null k = false) (Hnew : ∀ i, ¬ key_at ns i k).

Lemma room_at_main mp :
  ns !! main k = Some mp → is_null (nkey mp) = true →
  room_for main ns ff k ns (main k) mp.
Proof.
  intros Hmp Hnull. pose proof (ni_main _ _ _ Hinv k).
  split_and!; [done|done|]. intros x ns'.
  assert (Hlen : length ns' = length ns) by apply length_insert.
  assert (Hh' : ns' !! main k = Some (mkNode x k (nnext mp))) by (by apply list_lookup_insert_eq).
  assert (Ho' : ∀ i, i ≠ main k → ns' !! i = ns !! i).
  { intros i ?. by apply list_lookup_insert_ne. }
  destruct (at_main_all main ns ff k Hinv Hk Hnew mp x ns') as (? & ? & ?); auto.
Qed.

Lemma room_at_free mp nn :
  ns !! main k = Some mp → is_null (nkey mp) = false → main (nkey mp) = main k →
  ns !! ff = Some nn →
  room_for main ns ff k
    (<[main k := set_next (Some ff) mp]> (<[ff := set_next (nnext mp) nn]> ns))
    ff (set_next (nnext mp) nn).
Proof.
  intros Hmp Hnull Hnat Hnn.
  assert (Hused : key_at ns (main k) (nkey mp)) by (by exists mp).
  pose proof (free_ne_used ns ff Hfree _ _ Hused) as Hne.
  pose proof (free_lt ns ff Hfree) as Hlt. pose proof (ni_main _ _ _ Hinv k) as Hlk.
  split_and!; [|by rewrite !length_insert|].
  { rewrite list_lookup_insert_ne by done. by apply list_lookup_insert_eq. }
  intros x ns'. simpl in ns'.
  assert (Hlen : length ns' = length ns) by (unfold ns'; by rewrite !length_insert).
  assert (Hn' : ns' !! ff = Some (mkNode x k (nnext mp))).
  { apply list_lookup_insert_eq. by rewrite !length_insert. }
  assert (Hh' : ns' !! main k = Some (set_next (Some ff) mp)).
  { unfold ns'. rewrite list_lookup_insert_ne by done.
    apply list_lookup_insert_eq. by rewrite length_insert. }
  assert (Ho' : ∀ i, i ≠ ff → i ≠ main k → ns' !! i = ns !! i).
  { intros i ??. unfold ns'. by rewrite !list_lookup_insert_ne. }
  destruct (at_free_all main ns ff k Hinv Hfree Hk Hnew mp x ns') as (? & ? & ? & ?); auto.
  split_and!; eauto.
Qed.

Lemma room_moving mp o no :
  ns !! main k = Some mp → is_null (nkey mp) = false → main (nkey mp) ≠ main k →
  ns !! o = Some no → nnext no = Some (main k) →
  room_for main ns ff k
    (<[main k := empty_node]> (<[ff := mp]> (<[o := set_next (Some ff) no]> ns)))
    (main k) empty_node.
Proof.
  intros Hmp Hnull Hfor Ho Hox.
  assert (Hused : key_at ns (main k) (nkey mp)) by (by exists mp).
  assert (Hne3 : ff ≠ main k ∧ o ≠ ff ∧ o ≠ main k) by (by eapply (moving_ne main ns ff k)).
  destruct Hne3 as (Hne & Hon & Hom).
  pose proof (free_lt ns ff Hfree) as Hlt. pose proof (ni_main _ _ _ Hinv k) as Hlk.
  split_and!; [|by rewrite !length_insert|].
  { apply list_lookup_insert_eq. by rewrite !length_insert. }
  intros x ns'. simpl in ns'.
  assert (Hlen : length ns' = length ns) by (unfold ns'; by rewrite !length_insert).
  assert (Hh' : ns' !! main k = Some (mkNode x k None)).
  { apply list_lookup_insert_eq. by rewrite !length_insert. }
  assert (Hn' : ns' !! ff = Some mp).
  { unfold ns'. rewrite !(list_lookup_insert_ne _ (main k)) by done.
    apply list_lookup_insert_eq. by rewrite length_insert. }
  assert (Ho' : ns' !! o = Some (set_next (Some ff) no)).
  { unfold ns'. rewrite !(list_lookup_insert_ne _ (main k)) by done.
    rewrite list_lookup_insert_ne by done. apply list_lookup_insert_eq. by eapply lookup_lt_Some. }
  assert (Hr' : ∀ i, i ≠ ff → i ≠ main k → i ≠ o → ns' !! i = ns !! i).
  { intros i ???. unfold ns'. by rewrite !list_lookup_insert_ne. }
  destruct (moving_all main ns ff k Hinv Hfree Hk Hnew mp no o Hmp Hused Hfor Ho Hox x ns')
    as (? & ? & ? & ?); auto.
  split_and!; eauto.
Qed.
End room.

(** [make_room] succeeds and prepares room for the key. *)
Lemma make_room_ok t k :
  node_inv (mainpos (_numofnodes t)) (_nodes t) (S (_firstfree t)) →
  free_at (_nodes t) (_firstfree t) →
  is_null k = false → (∀ i, ¬ key_at (_nodes t) i k) →
  ∃ ns1 mp nd, make_room t (mainpos (_numofnodes t) k) = Ok (ns1, mp) ∧
    room_for (mainpos (_numofnodes t)) (_nodes t) (_firstfree t) k ns1 mp nd.
Proof.
  set (main := mainpos (_numofnodes t)). set (ns := _nodes t). set (ff := _firstfree t).
  intros Hinv Hfree Hk Hnew. unfold make_room. fold ns ff.
  destruct (lookup_lt_is_Some_2 ns (main k) (ni_main _ _ _ Hinv k)) as [mp Hmp].
  rewrite Hmp. simpl. fold main.
  destruct (is_null (nkey mp)) eqn:Hnull; [by eauto 6 using room_at_main|].
  assert (Hused : key_at ns (main k) (nkey mp)) by (by exists mp).
  pose proof (free_ne_used ns ff Hfree _ _ Hused) as Hne.
  destruct (bool_decide (ff < main k) && bool_decide (main (nkey mp) ≠ main k)) eqn:Hb.
  - apply andb_true_iff in Hb as [_ Hfor%bool_decide_eq_true].
    destruct (ni_rank _ _ _ Hinv) as [rank Hr].
    destruct (chain_find_ok (λ nd, bool_decide (nnext nd = Some (main k))) ns (main (nkey mp)) rank
                (ni_bound _ _ _ Hinv) Hr (ni_main _ _ _ Hinv _)) as (r & Hrun & Hpost).
    rewrite Hrun. simpl. destruct r as [o|]; simpl.
    + destruct Hpost as (_ & no & Ho & Hox%bool_decide_eq_true).
      rewrite (alter_as_insert _ _ _ _ Ho).
      do 3 eexists. split; [done|]. by eapply room_moving.
    + exfalso. pose proof (ni_reach _ _ _ Hinv _ _ Hused) as Hreach.
      apply rtc_inv_r in Hreach as [Heq|(o & Hro & (no & Ho & Hox))]; [done|].
      specialize (Hpost o no Hro Ho). rewrite Hox in Hpost.
      by rewrite bool_decide_eq_true_2 in Hpost.
  - assert (Hnat : main (nkey mp) = main k).
    { destruct (decide (main (nkey mp) = main k)) as [|Hfor]; [done|exfalso].
      destruct (ni_foreign _ _ _ Hinv _ _ Hused Hfor) as [Hlo _].
      rewrite !bool_decide_eq_true_2 in Hb by (done || lia). done. }
    destruct (lookup_lt_is_Some_2 ns ff (free_lt ns ff Hfree)) as [nn Hnn].
    rewrite (alter_as_insert _ _ _ _ Hnn).
    assert (Hmp' : <[ff := set_next (nnext mp) nn]> ns !! main k = Some mp)
      by (by rewrite list_lookup_insert_ne).
    rewrite (alter_as_insert _ _ _ _ Hmp').
    do 3 eexists. split; [done|]. by apply room_at_free.
Qed.

(** ** The scan for a free node *)

Definition node_free (ns : list HashNode) (i : nat) : bool :=
  match ns !! i with
  | Some nd => is_null (nkey nd) && bool_decide (nnext nd = None)
  | None => false
  end.

Lemma node_free_at ns i : node_free ns i = true ↔ free_at ns i.
Proof.
  unfold node_free, free_at. destruct (ns !! i) as [nd|]; [|naive_solver].
  rewrite andb_true_iff, bool_decide_eq_true. naive_solver.
Qed.

Lemma fix_firstfree_ok ns ff :
  match fix_firstfree ns ff with
  | Some ff' => ff' ≤ ff ∧ free_at ns ff' ∧ ∀ i, ff' < i → i ≤ ff → ¬ free_at ns i
  | None => ∀ i, i ≤ ff → ¬ free_at ns i
  end.
Proof.
  induction ff as [|ff IH]; simpl; fold (node_free ns 0); try fold (node_free ns (S ff)).
  - destruct (node_free ns 0) eqn:Hf.
    + apply node_free_at in Hf. split_and!; [lia|done|intros; lia].
    + intros i Hi. assert (i = 0) as -> by lia. rewrite <- node_free_at. by rewrite Hf.
  - destruct (node_free ns (S ff)) eqn:Hf.
    + apply node_free_at in Hf. split_and!; [lia|done|intros; lia].
    + assert (Hno : ¬ free_at ns (S ff)) by (rewrite <- node_free_at; by rewrite Hf).
      destruct (fix_firstfree ns ff) as [ff'|].
      * destruct IH as (? & ? & Hrest). split_and!; [lia|done|].
        intros i ??. destruct (decide (i = S ff)) as [->|]; [done|]. apply Hrest; lia.
      * intros i ?. destruct (decide (i = S ff)) as [->|]; [done|]. apply IH; lia.
Qed.

(** ** Changes that leave the chains alone *)

(** The invariant survives losing keys: what [Remove] and [Set] do to nodes. *)
Lemma node_inv_sub main ns ns' lo :
  node_inv main ns lo → length ns' = length ns →
  (∀ i j, step ns' i j ↔ step ns i j) → (∀ i k, key_at ns' i k → key_at ns i k) →
  node_inv main ns' lo.
Proof.
  intros [Hm Hb [rank Hr] Hi Hu Hre Hf Ht] Hl Hs Hk. constructor.
  - intros. rewrite Hl. apply Hm.
  - intros i j. rewrite Hs, Hl. apply Hb.
  - exists rank. intros i j. rewrite Hs. apply Hr.
  - intros i i' j. rewrite !Hs. apply Hi.
  - intros i j k ??. by apply (Hu i j k); apply Hk.
  - intros i k ?. eapply rtc_subrel; [|by apply Hre, Hk]. intros ??. apply Hs.
  - intros i k Hik Hne. destruct (Hf i k (Hk _ _ Hik) Hne) as [? Hno]. eauto.
  - intros i j. rewrite Hs. apply Ht.
Qed.

Section update.
Context (main : SQObject → nat) (ns : list HashNode) (lo i : nat) (nd : HashNode).
Context (Hinv : node_inv main ns lo) (Hnd : ns !! i = Some nd).

(** Overwriting node [i] without touching its link. *)
Lemma update_step k v j1 j2 :
  step (<[i := mkNode v k (nnext nd)]> ns) j1 j2 ↔ step ns j1 j2.
Proof.
  unfold step. destruct (decide (i = j1)) as [<-|Hne].
  - rewrite list_lookup_insert_eq by (by eapply lookup_lt_Some). naive_solver.
  - by rewrite list_lookup_insert_ne.
Qed.

Lemma update_ent k v j k' v' :
  ent (<[i := mkNode v k (nnext nd)]> ns) j k' v' ↔
  (j = i ∧ k' = k ∧ v' = v ∧ is_null k = false) ∨ (j ≠ i ∧ ent ns j k' v').
Proof.
  unfold ent. destruct (decide (i = j)) as [<-|Hne].
  - rewrite list_lookup_insert_eq by (by eapply lookup_lt_Some). naive_solver.
  - rewrite list_lookup_insert_ne by done. naive_solver.
Qed.

(** A new value for the key already in node [i]. *)
Lemma set_val_inv v : node_inv main (alter (set_val v) i ns) lo.
Proof.
  rewrite (alter_as_insert _ _ _ _ Hnd). eapply node_inv_sub; [done|apply length_insert|..].
  - intros. apply update_step.
  - intros j k. rewrite key_at_ent. intros [v' He]. apply update_ent in He.
    destruct He as [(-> & -> & _ & ?)|[_ ?]]; [by exists nd|by eapply ent_key_at].
Qed.

Lemma set_val_adds v : is_null (nkey nd) = false →
  adds ns (alter (set_val v) i ns) (nkey nd) v.
Proof.
  intros Hnn k' v'. rewrite (alter_as_insert _ _ _ _ Hnd).
  assert (Hat : key_at ns i (nkey nd)) by (by exists nd).
  setoid_rewrite update_ent. split.
  - intros (j & [(_ & -> & -> & _)|[Hj He]]); [by left|right]. split; [|eauto].
    intros ->. apply Hj. apply (ni_uniq _ _ _ Hinv _ _ (nkey nd)); [by eapply ent_key_at|done].
  - intros [[-> ->]|[Hne [j He]]]; [exists i; auto|]. exists j. right. split; [|done].
    intros ->. apply Hne. eapply key_at_fun; [by eapply ent_key_at|done].
Qed.

Lemma set_val_free v j : free_at ns j → free_at (alter (set_val v) i ns) j.
Proof.
  intros (nd' & Hj & Hk & Hn). destruct (decide (i = j)) as [<-|].
  - exists (set_val v nd'). by rewrite list_lookup_alter_eq, Hj.
  - exists nd'. by rewrite list_lookup_alter_ne.
Qed.

Lemma set_val_key v j k :
  key_at (alter (set_val v) i ns) j k ↔ key_at ns j k.
Proof.
  unfold key_at. destruct (decide (i = j)) as [<-|].
  - rewrite list_lookup_alter_eq, Hnd. simpl. naive_solver.
  - by rewrite list_lookup_alter_ne.
Qed.

Lemma set_val_dense v ff : dense ns ff → dense (alter (set_val v) i ns) ff.
Proof.
  intros [D1 D2]. split.
  - intros j1 j2 Hs. rewrite (alter_as_insert _ _ _ _ Hnd) in Hs. apply update_step in Hs.
    destruct (D1 _ _ Hs) as [k ?]. exists k. by apply set_val_key.
  - intros j ??. rewrite length_alter in *. destruct (D2 j) as [k ?]; [done..|].
    exists k. by apply set_val_key.
Qed.
End update.

(** When every node is used the map has at least as many entries as there are
    nodes. *)
Lemma all_used_size ns m :
  (∀ i j k, key_at ns i k → key_at ns j k → i = j) → holds ns m →
  (∀ i, i < length ns → ∃ k, key_at ns i k) → length ns ≤ size m.
Proof.
  intros Hu Hh Hall.
  assert (Hnd : NoDup (nkey <$> ns)).
  { apply NoDup_alt. intros i j k. rewrite !list_lookup_fmap.
    intros (ni & Hi & ->)%fmap_Some (nj & Hj & Heq)%fmap_Some.
    destruct (Hall i) as [k1 (n1 & Hn1 & Hk1 & Hnn)]; [by eapply lookup_lt_Some|].
    simplify_eq. apply (Hu i j (nkey ni)); [by exists ni|by exists nj]. }
  rewrite <- (length_fmap nkey ns), <- (size_list_to_set (C := gset SQObject)) by done.
  rewrite <- (size_dom m). apply subseteq_size. intros k.
  rewrite elem_of_list_to_set, list_elem_of_fmap. intros (nd & -> & [i Hi]%list_elem_of_lookup).
  apply elem_of_dom. exists (nval nd). apply Hh. exists i, nd. split_and!; [done..|].
  destruct (Hall i) as [k (nd' & ? & ? & ?)]; [by eapply lookup_lt_Some|]. by simplify_eq.
Qed.

(** ** [NewSlot] and [Rehash] *)

Lemma holds_None ns m k : holds ns m → m !! k = None → ∀ i, ¬ key_at ns i k.
Proof.
  intros Hh Hn i Hk. apply key_at_ent in Hk as (v & nd & He).
  assert (m !! k = Some v) by (apply Hh; eauto). congruence.
Qed.

Lemma holds_Some ns m i nd :
  holds ns m → ns !! i = Some nd → is_null (nkey nd) = false → m !! nkey nd = Some (nval nd).
Proof. intros Hh Hi Hn. apply Hh. eauto 6. Qed.

Lemma _Get_ok t m k :
  models t m → is_null k = false →
  match m !! k with
  | Some v => ∃ j nd, _Get t k (mainpos (_numofnodes t) k) = Ok (Some j) ∧
                      _nodes t !! j = Some nd ∧ nkey nd = k ∧ nval nd = v
  | None => _Get t k (mainpos (_numofnodes t) k) = Ok None
  end.
Proof.
  intros Hm Hk.
  destruct (chain_find_key _ _ _ k (mo_inv _ _ Hm) Hk) as (r & Hrun & Hpost).
  unfold _Get. rewrite Hrun. destruct r as [j|].
  - destruct Hpost as (nd & Hj & <-).
    rewrite (holds_Some _ _ _ _ (mo_holds _ _ Hm) Hj Hk). eauto 6.
  - destruct (m !! k) as [v|] eqn:Hmk; [|done]. exfalso.
    apply (mo_holds _ _ Hm) in Hmk as (i & nd & ? & ? & ? & ?).
    apply (Hpost i). by exists nd.
Qed.

Definition same_frame (t t' : SQTable) : Prop :=
  _numofnodes t' = _numofnodes t ∧ _delegate t' = _delegate t.

(** Overwriting the value of a present key. *)
Lemma store_models t m j nd v :
  models t m → _nodes t !! j = Some nd → is_null (nkey nd) = false →
  let t' := with_nodes t (alter (set_val v) j (_nodes t)) in
  models t' (<[nkey nd := v]> m) ∧
  (dense (_nodes t) (_firstfree t) → dense (_nodes t') (_firstfree t')) ∧ same_frame t t'.
Proof.
  intros [Hl Hp Hi Hf Hh Hu] Hj Hn t'. split_and!; [constructor; simpl|..]; try done.
  - by rewrite length_alter.
  - by eapply set_val_inv.
  - by apply set_val_free.
  - eapply holds_insert; [|done]. by eapply set_val_adds.
  - rewrite Hu, map_size_insert_Some; [done|]. eexists. by eapply holds_Some.
  - simpl. by eapply set_val_dense.
Qed.

(** [NewSlot] on a present key: overwrite and report [false]. *)
Lemma NewSlot_present f t m k v :
  models t m → is_null k = false → is_Some (m !! k) →
  ∃ t', NewSlot (S f) t k v = Ok (t', false) ∧ models t' (<[k := v]> m) ∧
        (dense (_nodes t) (_firstfree t) → dense (_nodes t') (_firstfree t')) ∧ same_frame t t'.
Proof.
  intros Hm Hk [v0 Hv0]. pose proof (_Get_ok t m k Hm Hk) as Hget. rewrite Hv0 in Hget.
  destruct Hget as (j & nd & Hrun & Hj & <- & <-).
  simpl. rewrite Hk, Hrun. simpl. eexists. split; [done|]. by apply store_models.
Qed.

(** The table [Rehash] is called on: possibly one more key than counted. *)
Record loaded (t : SQTable) (m : gmap SQObject SQObject) : Prop := {
  ld_len : Z.of_nat (length (_nodes t)) = _numofnodes t;
  ld_pow2 : ∃ e, (2 ≤ e)%Z ∧ _numofnodes t = (2 ^ e)%Z;
  ld_uniq : ∀ i j k, key_at (_nodes t) i k → key_at (_nodes t) j k → i = j;
  ld_holds : holds (_nodes t) m;
  ld_used : (Z.of_nat (size m) - 1 ≤ _usednodes t ≤ Z.of_nat (size m))%Z
}.

(** In a dense array a node that is not free is used. *)
Lemma not_free_used ns i :
  (∀ i j, step ns i j → ∃ k, key_at ns i k) → i < length ns → ¬ free_at ns i →
  ∃ k, key_at ns i k.
Proof.
  intros D1 Hi Hnf. destruct (lookup_lt_is_Some_2 ns i Hi) as [ni Hni].
  destruct (is_null (nkey ni)) eqn:Hnull; [|by exists (nkey ni), ni].
  destruct (nnext ni) as [j|] eqn:Hnx; [|exfalso; apply Hnf; by exists ni].
  apply (D1 i j). by exists ni.
Qed.

(** Storing [k] in the room made for it, when a free node remains. *)
Lemma place_models t m k v ns1 mp nd ff' :
  models t m → is_null k = false → m !! k = None →
  room_for (mainpos (_numofnodes t)) (_nodes t) (_firstfree t) k ns1 mp nd →
  let ns' := <[mp := mkNode v k (nnext nd)]> ns1 in
  ff' ≤ _firstfree t → free_at ns' ff' →
  (∀ i, ff' < i → i ≤ _firstfree t → ¬ free_at ns' i) →
  let t' := mkTable ns' (_numofnodes t) ff' (_usednodes t + 1) (_delegate t) in
  models t' (<[k := v]> m) ∧
  (dense (_nodes t) (_firstfree t) → dense ns' ff').
Proof.
  intros [Hl Hp Hi Hf Hh Hu] Hk Hmk (Hmp & Hlen & Hroom) ns' Hle Hfree Hbetween t'.
  destruct (Hroom v) as (Hinv & Hadds & Hdense). fold ns' in Hinv, Hadds, Hdense.
  assert (Hl' : length ns' = length (_nodes t)) by (unfold ns'; by rewrite length_insert).
  split; [constructor; simpl; try done|].
  - by rewrite Hl'.
  - destruct Hinv as [Hinv|[Hinv [k' Hff]]].
    + eapply node_inv_weaken; [done|lia].
    + pose proof (free_ne_used ns' ff' Hfree _ _ Hff). eapply node_inv_weaken; [done|lia].
  - by eapply holds_insert.
  - rewrite Hu, map_size_insert_None by done. lia.
  - intros D. destruct (Hdense D) as [D1 D2]. split; [done|].
    intros i Hlo Hhi. destruct (decide (_firstfree t < i)) as [|Hge]; [by apply D2|].
    apply not_free_used; [done|done|]. apply Hbetween; lia.
Qed.

(** [NewSlot] on a new key: either there is room, or the table with the key
    placed is rehashed and searched again. *)
Lemma NewSlot_absent f t m k v :
  models t m → is_null k = false → m !! k = None →
  (∃ t', NewSlot (S f) t k v = Ok (t', true) ∧ models t' (<[k := v]> m) ∧
         (dense (_nodes t) (_firstfree t) → dense (_nodes t') (_firstfree t')) ∧ same_frame t t') ∨
  (∃ t1 x, loaded t1 (<[k := x]> m) ∧ same_frame t t1 ∧
     (dense (_nodes t) (_firstfree t) → (_numofnodes t ≤ Z.of_nat (size m) + 1)%Z) ∧
     NewSlot (S f) t k v = (t' ← Rehash_with (NewSlot f) true t1; NewSlot f t' k v)).
Proof.
  intros Hm Hk Hmk. pose proof (_Get_ok t m k Hm Hk) as Hget. rewrite Hmk in Hget.
  pose proof (holds_None _ _ _ (mo_holds _ _ Hm) Hmk) as Hnew.
  destruct (make_room_ok t k (mo_inv _ _ Hm) (mo_free _ _ Hm) Hk Hnew)
    as (ns1 & mp & nd & Hmr & Hroom).
  destruct Hroom as (Hmp & Hlen & Hr).
  set (ns2 := alter (set_key k) mp ns1).
  assert (Hns2 : ns2 = <[mp := mkNode (nval nd) k (nnext nd)]> ns1)
    by (unfold ns2; by rewrite (alter_as_insert _ _ _ _ Hmp)).
  assert (Hns3 : alter (set_val v) mp ns2 = <[mp := mkNode v k (nnext nd)]> ns1).
  { rewrite Hns2. erewrite alter_as_insert by (apply list_lookup_insert_eq; by eapply lookup_lt_Some).
    by rewrite list_insert_insert_eq. }
  assert (Hrun : NewSlot (S f) t k v =
    match fix_firstfree ns2 (_firstfree t) with
    | Some ff => Ok (mkTable (alter (set_val v) mp ns2) (_numofnodes t) ff
                       (_usednodes t + 1) (_delegate t), true)
    | None => t' ← Rehash_with (NewSlot f) true (with_firstfree (with_nodes t ns2) 0);
              NewSlot f t' k v
    end).
  { simpl. rewrite Hk, Hget. simpl. rewrite Hmr. done. }
  pose proof (fix_firstfree_ok ns2 (_firstfree t)) as Hfix.
  destruct (fix_firstfree ns2 (_firstfree t)) as [ff'|]; rewrite Hrun.
  - left. destruct Hfix as (Hle & Hfree & Hbet). eexists. split; [done|]. rewrite Hns3.
    assert (Hsame : ∀ i, free_at (<[mp := mkNode v k (nnext nd)]> ns1) i ↔ free_at ns2 i).
    { intros i. rewrite Hns2. unfold free_at. destruct (decide (mp = i)) as [<-|].
      - rewrite !list_lookup_insert_eq by (by eapply lookup_lt_Some). naive_solver.
      - by rewrite !list_lookup_insert_ne. }
    destruct (place_models t m k v ns1 mp nd ff' Hm Hk Hmk) as [Hmod Hd];
      [done|done|by apply Hsame|intros i ??; rewrite Hsame; by apply Hbet|done].
  - right. exists (with_firstfree (with_nodes t ns2) 0), (nval nd).
    destruct (Hr (nval nd)) as (Hinv & Hadds & Hdense). rewrite <- Hns2 in Hinv, Hadds, Hdense.
    assert (Hh : holds ns2 (<[k := nval nd]> m)) by (eapply holds_insert; [done|apply Hm]).
    assert (Hl2 : length ns2 = length (_nodes t)) by (unfold ns2; by rewrite length_alter).
    assert (Hu : ∀ i j k', key_at ns2 i k' → key_at ns2 j k' → i = j)
      by (destruct Hinv as [Hinv|[Hinv _]]; apply Hinv).
    split_and!; try done.
    + destruct Hm as [Hl Hp _ _ _ Hus]. constructor; simpl; try done; [by rewrite Hl2|].
      rewrite map_size_insert_None by done. lia.
    + intros D. destruct (Hdense D) as [D1 D2].
      assert (length ns2 ≤ size (<[k := nval nd]> m)) as Hsz.
      { apply (all_used_size ns2); [done|done|]. intros i Hi.
        destruct (decide (_firstfree t < i)) as [|Hge]; [by apply D2|].
        apply not_free_used; [done|done|]. apply Hfix; lia. }
      rewrite map_size_insert_None in Hsz by done. rewrite <- (mo_len _ _ Hm). lia.
Qed.

Lemma holds_size ns m : holds ns m → size m ≤ length ns.
Proof.
  intros Hh. rewrite <- size_dom. unfold size, set_size. simpl.
  rewrite <- (length_fmap nkey ns). apply submseteq_length, NoDup_submseteq.
  { apply NoDup_elements. }
  intros k. rewrite elem_of_elements, elem_of_dom. intros [v Hv].
  apply Hh in Hv as (i & nd & Hi & <- & _). apply list_elem_of_fmap.
  exists nd. split; [done|]. apply list_elem_of_lookup. eauto.
Qed.

Lemma mainpos_lt n k e : (0 ≤ e)%Z → n = (2 ^ e)%Z → mainpos n k < Z.to_nat n.
Proof.
  intros He ->. unfold mainpos. rewrite land_mask by done.
  assert (0 < 2 ^ e)%Z as Hp by (by apply Z.pow_pos_nonneg).
  destruct (Z.mod_pos_bound (HashObj k) (2 ^ e) Hp) as [Hb1 Hb2].
  apply Z2Nat.inj_lt; [done|by apply Z.lt_le_incl|done].
Qed.

(** A freshly allocated node array is the empty map, and dense. *)
Lemma fresh_models t n e :
  (2 ≤ e)%Z → n = (2 ^ e)%Z →
  let t' := with_used (AllocNodes t n) 0 in
  models t' ∅ ∧ dense (_nodes t') (_firstfree t') ∧
  _numofnodes t' = n ∧ _delegate t' = _delegate t.
Proof.
  intros He Hn t'.
  assert (Hpos : (4 ≤ n)%Z).
  { rewrite Hn. change 4%Z with (2 ^ 2)%Z. by apply Z.pow_le_mono_r. }
  assert (Hns : ∀ i nd, _nodes t' !! i = Some nd → nd = empty_node).
  { intros i nd Hi. by apply lookup_replicate in Hi as [? _]. }
  assert (Hstep : ∀ i j, ¬ step (_nodes t') i j).
  { intros i j (nd & Hi & Hx). by rewrite (Hns _ _ Hi) in Hx. }
  assert (Hkey : ∀ i k, ¬ key_at (_nodes t') i k).
  { intros i k (nd & Hi & Hx & Hk). rewrite (Hns _ _ Hi) in Hx. simpl in Hx. by subst k. }
  assert (Hlen : length (_nodes t') = Z.to_nat n) by apply length_replicate.
  split_and!; try done; [constructor|split].
  - rewrite Hlen. simpl. lia.
  - eauto.
  - constructor; try (intros; exfalso; by eapply Hstep);
      try (intros; exfalso; by eapply Hkey).
    + intros k. rewrite Hlen. by apply (mainpos_lt n k e); [lia|].
    + exists (λ _, 0). intros i j Hs. by apply Hstep in Hs.
  - exists empty_node. split; [|done]. apply lookup_replicate_2. simpl. lia.
  - intros k v. rewrite lookup_empty. split; [done|]. intros (i & nd & Hi & Hx & _ & Hk).
    exfalso. apply (Hkey i k). by exists nd.
  - by rewrite map_size_empty.
  - intros i j Hs. by apply Hstep in Hs.
  - intros i Hi1 Hi2. rewrite Hlen in Hi2. simpl in Hi1. lia.
Qed.

(** Inserting into a dense table with spare nodes needs no rehash. *)
Lemma NewSlot_dense f t m k v :
  models t m → dense (_nodes t) (_firstfree t) → is_null k = false → m !! k = None →
  (Z.of_nat (size m) + 1 < _numofnodes t)%Z →
  ∃ t', NewSlot (S f) t k v = Ok (t', true) ∧ models t' (<[k := v]> m) ∧
        dense (_nodes t') (_firstfree t') ∧ same_frame t t'.
Proof.
  intros Hm Hd Hk Hmk Hsz.
  destruct (NewSlot_absent f t m k v Hm Hk Hmk) as [(t' & ? & ? & ? & ?)|(t1 & x & _ & _ & Hfull & _)].
  - exists t'. auto.
  - specialize (Hfull Hd). lia.
Qed.

(** The refill loop of [Rehash]: re-inserting every used node into a fresh
    array rebuilds the same map. *)
Section refill.
Context (ns : list HashNode) (m : gmap SQObject SQObject) (n : Z) (del : option Z) (f : nat).
Context (Hu : ∀ i j k, key_at ns i k → key_at ns j k → i = j) (Hh : holds ns m).
Context (Hsz : (Z.of_nat (size m) < n)%Z).

Definition refill_body (t' : SQTable) (old : HashNode) : res SQTable :=
  if is_null (nkey old) then Ok t' else fst <$> NewSlot (S f) t' (nkey old) (nval old).

(** After the nodes [dn] the new table holds exactly their entries. *)
Definition refilled (dn : list HashNode) (t' : SQTable) : Prop :=
  ∃ md, models t' md ∧ dense (_nodes t') (_firstfree t') ∧
        _numofnodes t' = n ∧ _delegate t' = del ∧ holds dn md.

Lemma holds_snoc_null dn x md :
  is_null (nkey x) = true → holds dn md → holds (dn ++ [x]) md.
Proof.
  intros Hnull Hdone k v. rewrite (Hdone k v). split.
  - intros (i & nd & Hi & He). exists i, nd. split; [by apply lookup_app_l_Some|done].
  - intros (i & nd & Hi & Hk & He). apply lookup_snoc_Some in Hi as [[_ Hi]|[_ <-]]; [eauto|].
    exfalso. destruct He as [_ He]. congruence.
Qed.

Lemma holds_snoc dn x md :
  is_null (nkey x) = false → md !! nkey x = None → holds dn md →
  holds (dn ++ [x]) (<[nkey x := nval x]> md).
Proof.
  intros Hnull Hfresh Hdone. apply (holds_insert dn); [|done]. intros k v. split.
  - intros (i & nd & Hi & Hk & Hv & Hnn).
    apply lookup_snoc_Some in Hi as [[_ Hi]|[_ <-]]; [right|by left].
    split; [intros ->|exists i, nd; auto].
    assert (md !! nkey x = Some v) by (apply Hdone; exists i, nd; auto). congruence.
  - intros [[-> ->]|[_ (i & nd & Hi & He)]].
    + exists (length dn), x. split_and!; try done. by apply list_lookup_middle.
    + exists i, nd. split; [by apply lookup_app_l_Some|done].
Qed.

Lemma prefix_fresh dn x todo md :
  ns = dn ++ x :: todo → holds dn md → is_null (nkey x) = false →
  md !! nkey x = None ∧ size md + 1 ≤ size m.
Proof.
  intros Hns Hdone Hnull.
  assert (Hx : ns !! length dn = Some x) by (rewrite Hns; by apply list_lookup_middle).
  assert (Hpre : ∀ i nd, dn !! i = Some nd → ns !! i = Some nd).
  { intros i nd Hi. rewrite Hns. by apply lookup_app_l_Some. }
  assert (Hfresh : md !! nkey x = None).
  { destruct (md !! nkey x) as [v|] eqn:Hv; [|done]. exfalso.
    apply Hdone in Hv as (i & nd & Hi & Hk & _ & Hnn).
    assert (i = length dn) as ->.
    { apply (Hu i (length dn) (nkey x)); [exists nd|exists x]; auto. }
    apply lookup_lt_Some in Hi. lia. }
  assert (Hsub : <[nkey x := nval x]> md ⊆ m).
  { apply map_subseteq_spec. intros k v. rewrite lookup_insert_Some.
    intros [[<- <-]|[_ Hv]]; [by eapply holds_Some|].
    apply Hdone in Hv as (i & nd & Hi & He). apply Hh. exists i, nd. auto. }
  apply map_subseteq_size in Hsub. rewrite map_size_insert_None in Hsub by done.
  split; [done|lia].
Qed.

Lemma refill_step dn x todo t1 :
  ns = dn ++ x :: todo → refilled dn t1 →
  ∃ t2, refill_body t1 x = Ok t2 ∧ refilled (dn ++ [x]) t2.
Proof.
  intros Hns (md & Hmod & Hd & Hnum & Hdel & Hdone). unfold refill_body.
  destruct (is_null (nkey x)) eqn:Hnull.
  { exists t1. split; [done|]. exists md. split_and!; try done. by apply holds_snoc_null. }
  destruct (prefix_fresh dn x todo md Hns Hdone Hnull) as [Hfresh Hle].
  destruct (NewSlot_dense f t1 md (nkey x) (nval x))
    as (t2 & Hrun & Hmod2 & Hd2 & Hf1 & Hf2); [done..|lia|].
  exists t2. rewrite Hrun. split; [done|]. exists (<[nkey x := nval x]> md).
  split_and!; [done|done|congruence|congruence|by apply holds_snoc].
Qed.

Lemma refill_ok t0 :
  models t0 ∅ → dense (_nodes t0) (_firstfree t0) → _numofnodes t0 = n → _delegate t0 = del →
  ∃ t', fold_res refill_body ns t0 = Ok t' ∧ models t' m ∧ _delegate t' = del ∧ _numofnodes t' = n.
Proof.
  intros Hm0 Hd0 Hn Hdel0.
  destruct (fold_res_inv refill_body refilled ns t0)
    as (t' & Hrun & md & Hmod & _ & Hnum & Hdel & Hdone).
  - exists ∅. split_and!; try done. intros k v. rewrite lookup_empty.
    split; [done|]. intros (i & nd & Hi & _). by rewrite lookup_nil in Hi.
  - intros. by eapply refill_step.
  - exists t'. split_and!; [done| |done|done].
    assert (md = m) as <-; [|done]. apply map_eq. intros k. apply option_eq. intros v.
    by rewrite (Hdone k v), (Hh k v).
Qed.
End refill.

(** [Rehash] on a loaded table gives a table for the same map; without [force]
    it may leave the table as it is. *)
Lemma Rehash_ok f force t m :
  loaded t m →
  (∃ t', Rehash_with (NewSlot (S f)) force t = Ok t' ∧ models t' m ∧ _delegate t' = _delegate t ∧
         (_numofnodes t' ≤ Z.max (_numofnodes t) (3 * _usednodes t))%Z) ∨
  (force = false ∧ Rehash_with (NewSlot (S f)) force t = Ok t).
Proof.
  intros [Hl (e & He & Hn) Hu Hh Hused].
  assert (Hpos : (4 ≤ _numofnodes t)%Z).
  { rewrite Hn. change 4%Z with (2 ^ 2)%Z. by apply Z.pow_le_mono_r. }
  pose proof (holds_size _ _ Hh) as Hsz.
  assert (Hrefill : ∀ n e', (2 ≤ e')%Z → n = (2 ^ e')%Z → (Z.of_nat (size m) < n)%Z →
    (n ≤ Z.max (_numofnodes t) (3 * _usednodes t))%Z → ∃ t', fold_res (refill_body f) (take (Z.to_nat (_numofnodes t)) (_nodes t))
            (with_used (AllocNodes t n) 0) = Ok t' ∧ models t' m ∧ _delegate t' = _delegate t ∧
            (_numofnodes t' ≤ Z.max (_numofnodes t) (3 * _usednodes t))%Z).
  { intros n e' He' Hn' Hlt Hmax. rewrite take_ge by lia.
    destruct (fresh_models t n e' He' Hn') as (Hm0 & Hd0 & Hnum & Hdel).
    destruct (refill_ok _ m n (_delegate t) f Hu Hh Hlt (with_used (AllocNodes t n) 0)) as (t' & ? & ? & ? & ?); [done..|].
    exists t'. split_and!; [done..|lia]. }
  unfold Rehash_with. fold (refill_body f).
  destruct (Z.ltb_spec (_numofnodes t) 4) as [|_]; [lia|].
  destruct (Z.leb_spec (_numofnodes t - _numofnodes t / 4) (_usednodes t)) as [|Hlo].
  { left. pose proof (Z.mul_div_le (_numofnodes t) 4 ltac:(lia)). apply (Hrefill _ (e + 1)%Z); [lia| |lia|lia]. rewrite Hn, Z.pow_add_r by lia. done. }
  destruct (Z.leb_spec (_usednodes t) (_numofnodes t / 4)) as [Hq|Hq];
    [destruct (Z.ltb_spec MINPOWER2 (_numofnodes t)) as [Hmin|Hmin]|]; simpl.
  - left. assert (He3 : (3 ≤ e)%Z).
    { destruct (decide (e = 2)%Z) as [->|]; [|lia]. rewrite Hn in Hmin. done. }
    assert (Hn8 : _numofnodes t = (8 * 2 ^ (e - 3))%Z).
    { rewrite Hn. change 8%Z with (2 ^ 3)%Z. rewrite <- Z.pow_add_r by lia. f_equal. lia. }
    assert (0 < 2 ^ (e - 3))%Z by (apply Z.pow_pos_nonneg; lia).
    apply (Hrefill _ (e - 1)%Z); [lia| | |].
    + rewrite Hn8. replace (e - 1)%Z with (2 + (e - 3))%Z by lia.
      rewrite Z.pow_add_r by lia. change (2 ^ 2)%Z with 4%Z.
      replace (8 * 2 ^ (e - 3))%Z with (4 * 2 ^ (e - 3) * 2)%Z by lia. by apply Z.div_mul.
    + assert (_numofnodes t / 4 = 2 * 2 ^ (e - 3))%Z as Hd4.
      { rewrite Hn8. replace (8 * 2 ^ (e - 3))%Z with (2 * 2 ^ (e - 3) * 4)%Z by lia. by apply Z.div_mul. }
      assert (_numofnodes t / 2 = 4 * 2 ^ (e - 3))%Z as ->.
      { rewrite Hn8. replace (8 * 2 ^ (e - 3))%Z with (4 * 2 ^ (e - 3) * 2)%Z by lia. by apply Z.div_mul. }
      lia.
    + assert (_numofnodes t / 2 ≤ _numofnodes t)%Z by (apply Z.div_le_upper_bound; lia). lia.
  - destruct force; [left|by right]. apply (Hrefill _ e); [done|done| |lia].
    assert (1 ≤ _numofnodes t / 4)%Z by (apply Z.div_le_lower_bound; lia). lia.
  - destruct force; [left|by right]. apply (Hrefill _ e); [done|done| |lia].
    assert (1 ≤ _numofnodes t / 4)%Z by (apply Z.div_le_lower_bound; lia). lia.
Qed.

(** [NewSlot] with its full fuel. *)
Lemma NewSlot_models f t m k v :
  models t m → is_null k = false →
  ∃ t' b, NewSlot (S (S f)) t k v = Ok (t', b) ∧ models t' (<[k := v]> m) ∧
          _delegate t' = _delegate t ∧ (is_Some (m !! k) → b = false) ∧
          (_numofnodes t' ≤ Z.max (_numofnodes t) (3 * Z.of_nat (size (<[k := v]> m))))%Z.
Proof.
  intros Hm Hk. destruct (m !! k) as [v0|] eqn:Hmk.
  { destruct (NewSlot_present (S f) t m k v Hm Hk) as (t' & ? & ? & _ & Hnum & ?); [eauto|].
    exists t', false. split_and!; [done..|lia]. }
  destruct (NewSlot_absent (S f) t m k v Hm Hk Hmk)
    as [(t' & ? & ? & _ & Hnum & ?)|(t1 & x & Hld & [Hnum1 Hdel] & _ & Hrun)].
  { exists t', true. split_and!; done || lia || by intros [? ?]. }
  destruct (Rehash_ok f true t1 _ Hld) as [(t2 & Hre & Hm2 & Hdel2 & Hnum2)|[? _]]; [|done].
  destruct (NewSlot_present f t2 (<[k := x]> m) k v Hm2 Hk) as (t3 & Hrun3 & Hm3 & _ & Hnum3 & Hdel3).
  { rewrite lookup_insert_eq. eauto. }
  exists t3, false. rewrite Hrun, Hre. simpl in *. rewrite Hrun3.
  rewrite insert_insert_eq in Hm3. split_and!; try (done || congruence).
  pose proof (ld_used _ _ Hld) as Hu. rewrite map_size_insert_None in Hu |- * by done. lia.
Qed.

Lemma models_no_null t m k : models t m → is_null k = true → m !! k = None.
Proof.
  intros Hm Hk. destruct (m !! k) as [v|] eqn:Hv; [|done].
  apply (mo_holds _ _ Hm) in Hv as (i & nd & _ & _ & _ & ?). congruence.
Qed.

Lemma Get_models t m k : models t m → Get t k = Ok (_realval <$> m !! k).
Proof.
  intros Hm. unfold Get. destruct (is_null k) eqn:Hk.
  { by rewrite (models_no_null t m k Hm Hk). }
  pose proof (_Get_ok t m k Hm Hk) as Hget. destruct (m !! k) as [v|].
  - destruct Hget as (j & nd & -> & Hj & _ & <-). simpl. by rewrite Hj.
  - by rewrite Hget.
Qed.

Lemma Set_models t m k v :
  models t m → is_null k = false →
  match m !! k with
  | Some _ => ∃ t', Set_ t k v = Ok (t', true) ∧ models t' (<[k := v]> m) ∧ same_frame t t'
  | None => Set_ t k v = Ok (t, false)
  end.
Proof.
  intros Hm Hk. unfold Set_. pose proof (_Get_ok t m k Hm Hk) as Hget.
  destruct (m !! k) as [v0|]; [|by rewrite Hget].
  destruct Hget as (j & nd & -> & Hj & <- & _). simpl. eexists. split; [done|].
  destruct (store_models t m j nd v Hm Hj Hk) as (? & _ & ?). done.
Qed.

(** Blanking node [j], as [Remove] does before [Rehash(false)]. *)
Lemma blank_models t m j nd :
  models t m → _nodes t !! j = Some nd → is_null (nkey nd) = false →
  models (with_used (with_nodes t (alter (set_key sq_null) j (alter (set_val sq_null) j (_nodes t))))
            (_usednodes t - 1))
         (delete (nkey nd) m).
Proof.
  intros [Hl Hp Hi Hf Hh Hu] Hj Hn.
  assert (Heq : alter (set_key sq_null) j (alter (set_val sq_null) j (_nodes t)) =
                <[j := mkNode sq_null sq_null (nnext nd)]> (_nodes t)).
  { rewrite (alter_as_insert _ _ _ _ Hj). erewrite alter_as_insert
      by (apply list_lookup_insert_eq; by eapply lookup_lt_Some).
    by rewrite list_insert_insert_eq. }
  rewrite Heq. set (ns' := <[j := _]> _).
  assert (Hat : key_at (_nodes t) j (nkey nd)) by (by exists nd).
  assert (Hent : ∀ i k v, ent ns' i k v ↔ i ≠ j ∧ ent (_nodes t) i k v).
  { intros i k v. unfold ns'. rewrite (update_ent _ _ _ Hj). naive_solver. }
  constructor; simpl; try done.
  - unfold ns'. by rewrite length_insert.
  - eapply node_inv_sub; [done|apply length_insert|intros; by apply update_step|].
    intros i k. rewrite !key_at_ent. setoid_rewrite Hent. naive_solver.
  - pose proof (free_ne_used _ _ Hf _ _ Hat). destruct Hf as (nf & Hnf & ?).
    exists nf. split; [|done]. unfold ns'. by rewrite list_lookup_insert_ne.
  - intros k v. rewrite lookup_delete_Some.
    transitivity (∃ i, ent ns' i k v); [|reflexivity]. setoid_rewrite Hent.
    assert (m !! k = Some v ↔ ∃ i, ent (_nodes t) i k v) as -> by apply Hh. split.
    + intros [Hne [i He]]. exists i. split; [|done]. intros ->. apply Hne.
      eapply key_at_fun; [done|by eapply ent_key_at].
    + intros (i & Hij & He). split; [|eauto]. intros <-. apply Hij.
      apply (ni_uniq _ _ _ Hi _ _ (nkey nd)); [by eapply ent_key_at|done].
  - pose proof (holds_Some _ _ _ _ Hh Hj Hn) as Hin.
    rewrite Hu, map_size_delete_Some by eauto.
    assert (size m ≠ 0) as Hsz by (rewrite map_size_non_empty_iff; by intros ->).
    lia.
Qed.

Lemma models_loaded t m : models t m → loaded t m.
Proof. intros [Hl Hp Hi Hf Hh Hu]. constructor; try done; [apply Hi|lia]. Qed.

Lemma Remove_models t m k :
  models t m → is_null k = false →
  ∃ t', Remove t k = Ok t' ∧ models t' (delete k m) ∧ _delegate t' = _delegate t.
Proof.
  intros Hm Hk. unfold Remove. pose proof (_Get_ok t m k Hm Hk) as Hget.
  destruct (m !! k) as [v|] eqn:Hmk.
  - destruct Hget as (j & nd & -> & Hj & <- & _). simpl. unfold Rehash, table_fuel.
    pose proof (blank_models t m j nd Hm Hj Hk) as Hb.
    destruct (Rehash_ok 1 false _ _ (models_loaded _ _ Hb)) as [(t' & -> & ? & ? & _)|[_ ->]]; eauto.
  - rewrite Hget. simpl. exists t. rewrite delete_id by done. done.
Qed.

(** ** Iteration *)

(** The pairs in the used nodes, in array order. *)
Definition entries (ns : list HashNode) : list (SQObject * SQObject) :=
  omap (λ nd, if is_null (nkey nd) then None else Some (nkey nd, nval nd)) ns.

Lemma elem_of_entries ns k v : (k, v) ∈ entries ns ↔ ∃ i, ent ns i k v.
Proof.
  unfold entries, ent. rewrite list_elem_of_omap. split.
  - intros (nd & [i Hi]%list_elem_of_lookup & He). exists i, nd.
    destruct (is_null (nkey nd)) eqn:?; naive_solver.
  - intros (i & nd & Hi & <- & <- & Hn). exists nd. rewrite Hn.
    split; [|done]. apply list_elem_of_lookup. eauto.
Qed.

Lemma entries_NoDup ns :
  (∀ i j k, key_at ns i k → key_at ns j k → i = j) → NoDup (entries ns).*1.
Proof.
  induction ns as [|nd ns IH] using rev_ind; intros Hu; [constructor|].
  unfold entries. rewrite omap_app, fmap_app. simpl.
  assert (Hu' : ∀ i j k, key_at ns i k → key_at ns j k → i = j).
  { intros i j k (ni & ? & ?) (nj & ? & ?). apply (Hu i j k);
      [exists ni|exists nj]; (split; [by apply lookup_app_l_Some|done]). }
  destruct (is_null (nkey nd)) eqn:Hn; simpl; [rewrite app_nil_r; by apply IH|].
  apply NoDup_app. split_and!; [by apply IH| |by apply NoDup_singleton].
  intros k0 Hk0 Hk0n%list_elem_of_singleton.
  apply list_elem_of_fmap in Hk0 as ([k v] & Hkv0 & Hkv). simpl in *. subst k0.
  apply elem_of_entries in Hkv as (i & ni & Hi & Hk & _ & Hnn).
  assert (i = length ns) as ->; [|apply lookup_lt_Some in Hi; lia].
  apply (Hu i (length ns) k); [exists ni|exists nd].
  - split; [by apply lookup_app_l_Some|done].
  - split; [by apply list_lookup_middle|done].
Qed.

Lemma entries_models t m : models t m → entries (_nodes t) ≡ₚ map_to_list m.
Proof.
  intros Hm. pose proof (entries_NoDup _ (ni_uniq _ _ _ (mo_inv _ _ Hm))) as Hnd.
  apply NoDup_Permutation; [by eapply NoDup_fmap_1|apply NoDup_map_to_list|].
  intros [k v]. rewrite elem_of_entries, elem_of_map_to_list. symmetry. apply Hm.
Qed.

Lemma entries_drop ns i nd :
  ns !! i = Some nd →
  entries (drop i ns) =
  (if is_null (nkey nd) then [] else [(nkey nd, nval nd)]) ++ entries (drop (S i) ns).
Proof.
  intros Hi. rewrite (drop_S _ nd) by done. unfold entries. simpl.
  by destruct (is_null (nkey nd)).
Qed.

(** [next_loop] finds the first used node at or after the cursor. *)
Lemma next_loop_entries ns i :
  match next_loop (drop i ns) (Z.of_nat i) with
  | None => entries (drop i ns) = []
  | Some (c, nd) => ∃ j, c = Z.of_nat (S j) ∧ i ≤ j ∧ j < length ns ∧
                         entries (drop i ns) = (nkey nd, nval nd) :: entries (drop (S j) ns)
  end.
Proof.
  remember (length ns - i) as d eqn:Hd. revert i Hd. induction d as [|d IH]; intros i Hd.
  { by rewrite drop_ge by lia. }
  destruct (lookup_lt_is_Some_2 ns i) as [nd Hi]; [lia|].
  rewrite (entries_drop _ _ _ Hi), (drop_S _ nd) by done. simpl.
  destruct (is_null (nkey nd)); [|exists i; split_and!; try done; lia].
  specialize (IH (S i) ltac:(lia)). rewrite Nat2Z.inj_succ, <- Z.add_1_r in IH.
  destruct (next_loop (drop (S i) ns) (Z.of_nat i + 1)) as [[c n]|]; [|done].
  destruct IH as (j & ? & ? & ? & ?). exists j. split_and!; try done. lia.
Qed.

Lemma TranslateIndex_int i :
  (0 ≤ i < 2 ^ 31)%Z → TranslateIndex (sq_int i) = Ok i.
Proof.
  intros Hi. unfold TranslateIndex, sq_int, _integer. simpl.
  rewrite (u32_small i) by lia. rewrite u32_s32, (u32_small i) by lia. done.
Qed.

Lemma Next_int b t i :
  (Z.of_nat i < 2 ^ 31)%Z →
  Next b t (sq_int (Z.of_nat i)) =
    Ok (match next_loop (drop i (_nodes t)) (Z.of_nat i) with
        | Some (j, n) => Some (j, nkey n, if b then nval n else _realval (nval n))
        | None => None
        end).
Proof.
  intros Hi. unfold Next. rewrite TranslateIndex_int by lia. cbn [mbind res_bind].
  rewrite s32_small by lia. destruct (Z.ltb_spec (Z.of_nat i) 0) as [|_]; [lia|].
  by rewrite Nat2Z.id.
Qed.

(** A [foreach] over the table: follow the cursor until [Next] says -1. *)
Fixpoint iterate (getweakrefs : bool) (fuel : nat) (t : SQTable) (ridx : Z) : res (list (SQObject * SQObject)) :=
  match fuel with
  | O => Err OutOfFuel
  | S f =>
      r ← Next getweakrefs t (sq_int ridx);
      match r with
      | None => Ok []
      | Some (i, k, v) => rest ← iterate getweakrefs f t i; Ok ((k, v) :: rest)
      end
  end.

(** An entry as it is given out: the object a weak reference stands for, unless
    weak references are asked for. *)
Definition given (getweakrefs : bool) (kv : SQObject * SQObject) : SQObject * SQObject :=
  (kv.1, if getweakrefs then kv.2 else _realval kv.2).

Lemma iterate_entries getweakrefs fuel t i :
  (Z.of_nat (length (_nodes t)) < 2 ^ 31)%Z → i ≤ length (_nodes t) →
  length (_nodes t) < fuel + i →
  iterate getweakrefs fuel t (Z.of_nat i) = Ok (given getweakrefs <$> entries (drop i (_nodes t))).
Proof.
  intros Hlen. revert i. induction fuel as [|f IH]; intros i Hi Hf; [lia|].
  simpl. rewrite Next_int by lia.
  pose proof (next_loop_entries (_nodes t) i) as Hn.
  destruct (next_loop (drop i (_nodes t)) (Z.of_nat i)) as [[c nd]|]; simpl; [|by rewrite Hn].
  destruct Hn as (j & -> & ? & ? & ->). rewrite IH by lia. done.
Qed.

(** ** Copying and clearing *)

Lemma foldl_size (l : list (SQObject * SQObject)) (m : gmap SQObject SQObject) :
  size m ≤ size (foldl (λ m kv, <[kv.1 := kv.2]> m) m l).
Proof.
  revert m. induction l as [|kv l IH]; intros m; simpl; [done|]. rewrite <- IH. destruct (m !! kv.1) as [v|] eqn:E.
  - rewrite map_size_insert_Some; [done|by eexists].
  - rewrite map_size_insert_None by done. lia.
Qed.

Lemma clone_loop_ok fuel t i nt md :
  (Z.of_nat (length (_nodes t)) < 2 ^ 31)%Z → i ≤ length (_nodes t) →
  length (_nodes t) < fuel + i → models nt md →
  ∃ nt', clone_loop fuel t (Z.of_nat i) nt = Ok nt' ∧
    let m := foldl (λ m kv, <[kv.1 := kv.2]> m) md (entries (drop i (_nodes t))) in
    models nt' m ∧ (_numofnodes nt' ≤ Z.max (_numofnodes nt) (3 * Z.of_nat (size m)))%Z.
Proof.
  intros Hlen. revert i nt md. induction fuel as [|f IH]; intros i nt md Hi Hf Hm; [lia|].
  cbn [clone_loop]. rewrite Next_int by lia.
  pose proof (next_loop_entries (_nodes t) i) as Hn.
  destruct (next_loop (drop i (_nodes t)) (Z.of_nat i)) as [[c nd]|] eqn:Hnl; cbn [mbind res_bind].
  - destruct Hn as (j & -> & ? & Hj & Hent).
    assert (Hk : is_null (nkey nd) = false).
    { assert (He : (nkey nd, nval nd) ∈ entries (drop i (_nodes t))) by (rewrite Hent; left).
      apply elem_of_entries in He as (? & ? & _ & _ & _ & ?). done. }
    destruct (NewSlot_models 0 nt md (nkey nd) (nval nd) Hm Hk) as (nt1 & b & Hrun & Hm1 & _ & _ & Hnum).
    unfold table_fuel. rewrite Hrun, Hent. cbn [mbind res_bind foldl].
    destruct (IH (S j) nt1 (<[nkey nd := nval nd]> md)) as (nt2 & Hrun2 & Hm2 & Hnum2); [lia|lia|done|]. exists nt2. split; [done|]. split; [done|].
    pose proof (foldl_size (entries (drop (S j) (_nodes t))) (<[nkey nd := nval nd]> md)). simpl in *. lia.
  - rewrite Hn. exists nt. simpl. split_and!; [done..|lia].
Qed.

Lemma foldl_entries t m :
  models t m → foldl (λ m kv, <[kv.1 := kv.2]> m) ∅ (entries (_nodes t)) = m.
Proof.
  intros Hm. pose proof (entries_NoDup _ (ni_uniq _ _ _ (mo_inv _ _ Hm))) as Hnd.
  assert (Hfold : ∀ (l : list (SQObject * SQObject)) (m0 : gmap SQObject SQObject),
    NoDup l.*1 → (∀ k, k ∈ l.*1 → m0 !! k = None) →
    foldl (λ m kv, <[kv.1 := kv.2]> m) m0 l = list_to_map l ∪ m0).
  { induction l as [|[k v] l IH]; intros m0 Hl Hfr; simpl.
    - by rewrite (left_id_L ∅ (∪)).
    - apply NoDup_cons in Hl as [Hk Hl]. rewrite IH; [|done|].
      + rewrite <- insert_union_l, insert_union_r by (by apply not_elem_of_list_to_map_1). done.
      + intros k' Hk'. rewrite lookup_insert_ne by (intros ->; done).
        apply Hfr. by right. }
  rewrite Hfold by (done || intros; apply lookup_empty).
  rewrite (right_id_L ∅ (∪)), <- (list_to_map_to_list m).
  apply list_to_map_proper; [done|]. by apply entries_models.
Qed.

Lemma pow2_loop_ok fuel n p e :
  (2 ≤ e)%Z → p = (2 ^ e)%Z → (n ≤ p * 2 ^ Z.of_nat fuel)%Z →
  ∃ e', (2 ≤ e')%Z ∧ pow2_loop (S fuel) n p = Ok (2 ^ e')%Z ∧ (n ≤ 2 ^ e')%Z ∧ (2 ^ e' = p ∨ 2 ^ e' < 2 * n)%Z.
Proof.
  revert p e. induction fuel as [|f IH]; intros p e He -> Hn; cbn [pow2_loop].
  - destruct (Z.ltb_spec (2 ^ e) n) as [Hlt|]; [change (2 ^ Z.of_nat 0)%Z with 1%Z in Hn; lia|exists e; auto].
  - destruct (Z.ltb_spec (2 ^ e) n) as [Hlt|]; [|exists e; auto].
    destruct (IH (Z.shiftl (2 ^ e) 1) (e + 1)%Z) as (e' & ? & ? & ? & Hmin); [lia| | |exists e'; split_and!; [done..|right];
      destruct Hmin as [->|]; [rewrite Z.shiftl_mul_pow2 by lia; lia|done]].
    + rewrite Z.shiftl_mul_pow2, Z.pow_add_r by lia. done.
    + rewrite Z.shiftl_mul_pow2 by lia.
      rewrite Nat2Z.inj_succ, Z.pow_succ_r in Hn by lia. lia.
Qed.

Lemma Create_models n :
  (n < 2 ^ 32)%Z →
  ∃ t, Create n = Ok t ∧ models t ∅ ∧ (n ≤ _numofnodes t)%Z ∧ _delegate t = None ∧ (_numofnodes t < Z.max 5 (2 * n))%Z.
Proof.
  intros Hn. unfold Create.
  destruct (pow2_loop_ok 31 n MINPOWER2 2) as (e & He & Hrun & Hle & Hmin);
    [done|done|change (MINPOWER2 * 2 ^ Z.of_nat 31)%Z with (2 ^ 33)%Z; lia|].
  rewrite Hrun.
  cbn [mbind res_bind]. eexists. split; [done|].
  destruct (fresh_models (mkTable [] 0 0 0 None) (2 ^ e) e He eq_refl) as (Hm & _ & Hnum & _).
  split_and!; [|done|done|unfold MINPOWER2 in Hmin; simpl in *; lia]. destruct Hm. by constructor.
Qed.

Lemma with_delegate_models t m d : models t m → models (with_delegate t d) m.
Proof. intros []. by constructor. Qed.

Lemma Clone_models t m :
  models t m → (_numofnodes t < 2 ^ 31)%Z →
  ∃ nt, Clone t = Ok nt ∧ models nt m ∧ _delegate nt = _delegate t ∧
        (_numofnodes nt ≤ Z.max (_numofnodes t) (3 * Z.of_nat (size m)))%Z.
Proof.
  intros Hm Hlen. unfold Clone.
  destruct (Create_models (_numofnodes t)) as (nt0 & -> & Hm0 & Hge & _ & Hlt); [lia|].
  pose proof (mo_len _ _ Hm) as Hl.
  destruct (clone_loop_ok (S (length (_nodes t))) t 0 nt0 ∅) as (nt1 & Hrun & Hm1 & Hnum); [lia..|done|].
  cbn [mbind res_bind]. change (Z.of_nat 0) with 0%Z in Hrun. rewrite Hrun.
  rewrite drop_0, (foldl_entries t m Hm) in Hm1, Hnum.
  eexists. split; [done|]. split; [by apply with_delegate_models|]. split; [done|]. simpl.
  enough (_numofnodes nt0 = _numofnodes t) by lia.
  destruct (mo_pow2 _ _ Hm) as (e & He & En), (mo_pow2 _ _ Hm0) as (e0 & He0 & En0).
  assert (4 ≤ 2 ^ e)%Z by (change 4%Z with (2 ^ 2)%Z; by apply Z.pow_le_mono_r).
  rewrite En, En0 in *. f_equal. assert (e ≤ e0)%Z by (apply (Z.pow_le_mono_r_iff 2); lia).
  assert (e0 < e + 1)%Z by (apply (Z.pow_lt_mono_r_iff 2); [lia|lia|rewrite Z.pow_add_r by lia; lia]). lia.
Qed.

Lemma Clear_models t m :
  models t m → ∃ t', Clear t = Ok t' ∧ models t' ∅ ∧ _delegate t' = _delegate t.
Proof.
  intros Hm. unfold Clear, Rehash, table_fuel.
  assert (Hno : ∀ i k, ¬ key_at (_nodes (_ClearNodes t)) i k).
  { intros i k (nd & Hi & <- & Hk). simpl in Hi. apply list_lookup_fmap_Some in Hi as (n0 & -> & _). done. }
  destruct (Rehash_ok 1 true (with_used (_ClearNodes t) 0) ∅) as [(t' & ? & ? & ? & _)|[? _]]; [|eauto|done].
  constructor; simpl.
  - rewrite length_map. apply Hm.
  - apply Hm.
  - intros i j k Hk. exfalso. by eapply Hno.
  - intros k v. rewrite lookup_empty. split; [done|].
    intros (i & nd & Hi & Hk & _ & Hn). exfalso. apply (Hno i k). by exists nd.
  - rewrite map_size_empty. lia.
Qed.

End table.

(** ** Properties of the table *)

(** A client's view: a sequence of updates on a table and on a map. *)
Inductive table_op :=
  | OpNewSlot (k v : SQObject)
  | OpSet (k v : SQObject)
  | OpRemove (k : SQObject)
  | OpClear.

Definition op_key_ok (o : table_op) : bool :=
  match o with
  | OpNewSlot k _ | OpSet k _ | OpRemove k => negb (is_null k)
  | OpClear => true
  end.

Definition run_op `{SQHeap} (t : SQTable) (o : table_op) : res SQTable :=
  match o with
  | OpNewSlot k v => fst <$> NewSlot table_fuel t k v
  | OpSet k v => fst <$> Set_ t k v
  | OpRemove k => Remove t k
  | OpClear => Clear t
  end.

Definition spec_op (m : gmap SQObject SQObject) (o : table_op) : gmap SQObject SQObject :=
  match o with
  | OpNewSlot k v => <[k := v]> m
  | OpSet k v => match m !! k with Some _ => <[k := v]> m | None => m end
  | OpRemove k => delete k m
  | OpClear => ∅
  end.

Lemma run_op_models `{SQHeap} t m o :
  models t m → op_key_ok o = true → ∃ t', run_op t o = Ok t' ∧ models t' (spec_op m o).
Proof.
  intros Hm Hk. destruct o as [k v|k v|k|]; simpl in Hk; rewrite ?negb_true_iff in Hk.
  - destruct (NewSlot_models 0 t m k v Hm Hk) as (t' & b & Hrun & ? & _).
    exists t'. unfold run_op, table_fuel. by rewrite Hrun.
  - pose proof (Set_models t m k v Hm Hk) as Hs. unfold run_op, spec_op.
    destruct (m !! k); [destruct Hs as (t' & -> & ? & _)|rewrite Hs]; eauto.
  - destruct (Remove_models t m k Hm Hk) as (t' & ? & ? & _). eauto.
  - destruct (Clear_models t m Hm) as (t' & ? & ? & _). eauto.
Qed.

Lemma run_ops_models `{SQHeap} ops t m :
  models t m → forallb op_key_ok ops = true →
  ∃ t', fold_res run_op ops t = Ok t' ∧ models t' (foldl spec_op m ops).
Proof.
  revert t m. induction ops as [|o ops IH]; intros t m Hm Hok; simpl in *; [eauto|].
  apply andb_true_iff in Hok as [Ho Hok].
  destruct (run_op_models t m o Hm Ho) as (t1 & -> & Hm1). by apply IH.
Qed.

(** A heap for the witnesses: strings hash to their address, nothing is behind
    a weak reference. *)
Definition plain_heap : SQHeap := {|
  string_hash := u32;
  string_val := λ _, [];
  weak_obj := λ _, sq_null;
  ub_float_cast := λ _, 0%Z
|}.

(** C1: a table created with any initial size up to 2^30 and then changed by any sequence
    of [NewSlot], [Set], [Remove] and [Clear] calls on non-null keys never
    fails an assertion, leaves its node array or runs out of its recursion
    bound, and [Get] afterwards answers every key exactly as the finite map
    updated by the same sequence. *)
Theorem table_trace_refines_map `{SQHeap} (n : Z) (ops : list table_op) :
  (n ≤ 2 ^ 30)%Z → forallb op_key_ok ops = true →
  ∃ t0 t, Create n = Ok t0 ∧ fold_res run_op ops t0 = Ok t ∧
          ∀ k, Get t k = Ok (_realval <$> foldl spec_op ∅ ops !! k).
Proof.
  intros Hn Hok. destruct (Create_models n ltac:(lia)) as (t0 & Hc & Hm0 & _).
  destruct (run_ops_models ops t0 ∅ Hm0 Hok) as (t & Hrun & Hm).
  exists t0, t. split_and!; [done|done|]. intros k. by apply Get_models.
Qed.

Lemma table_trace_refines_map_witness :
  ∃ t0 t, @Create 0 = Ok t0 ∧
    fold_res (@run_op plain_heap)
      [OpNewSlot (sq_int 1) (sq_int 10); OpNewSlot (sq_int 5) (sq_int 50);
       OpRemove (sq_int 1); OpNewSlot (sq_int 9) (sq_int 90); OpSet (sq_int 5) sq_null] t0 = Ok t ∧
    @Get plain_heap t (sq_int 9) = Ok (Some (sq_int 90)).
Proof.
  destruct (@table_trace_refines_map plain_heap 0
    [OpNewSlot (sq_int 1) (sq_int 10); OpNewSlot (sq_int 5) (sq_int 50);
     OpRemove (sq_int 1); OpNewSlot (sq_int 9) (sq_int 90); OpSet (sq_int 5) sq_null])
    as (t0 & t & H1 & H2 & H3); [lia|reflexivity|].
  exists t0, t. split; [exact H1|]. split; [exact H2|]. rewrite H3. reflexivity.
Defined.

(** C32: iterating with [Next] from cursor 0 until it answers -1 visits every
    entry of the table exactly once, whether weak references are asked for or
    the objects they stand for. *)
Theorem table_iteration_complete `{SQHeap} getweakrefs t m :
  models t m → (_numofnodes t < 2 ^ 31)%Z →
  ∃ l, iterate getweakrefs (S (length (_nodes t))) t 0 = Ok l ∧ l ≡ₚ given getweakrefs <$> map_to_list m.
Proof.
  intros Hm Hn. pose proof (mo_len _ _ Hm) as Hl.
  exists (given getweakrefs <$> entries (_nodes t)). split; [|apply fmap_Permutation; by apply entries_models].
  apply (iterate_entries _ _ t 0); lia.
Qed.

(** Three entries that were four, one of them a weak reference to nothing. *)
Definition iterated_ops : list table_op :=
  [OpNewSlot (sq_int 1) (sq_int 10); OpNewSlot (sq_int 5) (sq_int 50); OpNewSlot (sq_int 9) (mkObj OT_WEAKREF 64);
   OpRemove (sq_int 1); OpNewSlot (sq_int 2) (sq_int 20)].

Lemma table_iteration_complete_witness :
  ∃ t0 t l, Create 2 = Ok t0 ∧ fold_res (@run_op plain_heap) iterated_ops t0 = Ok t ∧
    @iterate plain_heap false (S (length (_nodes t))) t 0 = Ok l ∧
    l ≡ₚ [(sq_int 5, sq_int 50); (sq_int 9, sq_null); (sq_int 2, sq_int 20)].
Proof.
  destruct (@Create_models plain_heap 2) as (t0 & Hc & Hm0 & _); [reflexivity|].
  destruct (@run_ops_models plain_heap iterated_ops t0 ∅ Hm0 eq_refl) as (t & Hrun & Hm).
  destruct (@table_iteration_complete plain_heap false t _ Hm) as (l & Hl & Hp).
  { vm_compute in Hc. injection Hc as <-. vm_compute in Hrun. injection Hrun as <-. reflexivity. }
  exists t0, t, l. split; [exact Hc|]. split; [exact Hrun|]. split; [exact Hl|]. rewrite Hp.
  apply (bool_decide_unpack (_ ≡ₚ _)). by vm_compute.
Defined.

(** The comment on [NewSlot] in sqtable.h promises [true] for a new slot,
    but when the insertion makes the table grow the answer is [false]: the
    second insertion of the retry finds the key already placed. *)
Lemma table_newslot_growth_reports_false :
  ∃ t t' m k v, @models plain_heap t m ∧ m !! k = None ∧
    @NewSlot plain_heap table_fuel t k v = Ok (t', false) ∧
    @Get plain_heap t' k = Ok (Some v).
Proof.
  destruct (@Create_models plain_heap 4) as (t0 & Hc & Hm0 & _); [reflexivity|].
  destruct (@run_ops_models plain_heap
    [OpNewSlot (sq_int 0) (sq_int 1); OpNewSlot (sq_int 1) (sq_int 1); OpNewSlot (sq_int 2) (sq_int 1)]
    t0 ∅ Hm0 eq_refl) as (t & Hrun & Hm).
  vm_compute in Hc. injection Hc as <-. vm_compute in Hrun. injection Hrun as <-.
  eexists _, _, _, (sq_int 3), (sq_int 9). split; [exact Hm|].
  split; [reflexivity|]. split; [vm_compute; reflexivity|]. reflexivity.
Qed.

(** [SQTable::Set] does not guard against the null key: on a table with an
    empty first node it answers [true], so [t[null] = v] raises no error,
    although the table stores nothing for it. *)
Lemma table_set_null_accepted :
  ∃ t t' v, Create 0 = Ok t ∧ @Set_ plain_heap t sq_null v = Ok (t', true) ∧
    @Get plain_heap t' sq_null = Ok None ∧ entries (_nodes t') = [].
Proof.
  eexists _, _, (sq_int 1). split; [vm_compute; reflexivity|].
  split; [vm_compute; reflexivity|]. split; reflexivity.
Qed.

(** Two answers of the table that are wrong. [NewSlot] is documented to
    answer [true] for a new slot, and answers [false] if the insertion makes the
    table grow. [Set] answers [true] for the null key on a table whose first
    node is empty, although nothing is stored. *)
Lemma table_answers_wrong :
  (∃ t t' m k v, @models plain_heap t m ∧ m !! k = None ∧
     @NewSlot plain_heap table_fuel t k v = Ok (t', false) ∧ @Get plain_heap t' k = Ok (Some v)) ∧
  (∃ t t' v, Create 0 = Ok t ∧ @Set_ plain_heap t sq_null v = Ok (t', true) ∧
     @Get plain_heap t' sq_null = Ok None ∧ entries (_nodes t') = []).
Proof. split; [apply table_newslot_growth_reports_false|apply table_set_null_accepted]. Qed.
