(* ===== verification/SqClass.v ===== *)
(** * Classes and instances

    [SQClass] and [SQInstance] (sqclass.h, sqclass.cpp).  A class maps names to
    members with a table ([SqTable]): the value of a name is an integer, a flag
    for fields or methods and an index into the vector of the default values of
    the fields, or into that of the methods.  An instance has a vector of values
    of its own for the fields, and everything else through its class.  A class
    copies these things from its base when it is created, and it is locked, with
    its bases, when its first instance is.

    Classes, instances and closures are objects of a heap.  Reference counts, the
    chain of the garbage collector, type tags, release hooks, and the memory
    block of an instance with its user data are not modelled; vectors are
    lists (see [SqArray] for theirs). *)

From Stdlib Require Import Ascii.
From stdpp Require Import base numbers gmap option list.
From S2P Require Import Prelude SqObject SqTable.

Open Scope Z_scope.

(** ** Indices of members *)

Definition MEMBER_TYPE_METHOD : Z := 0x01000000.
Definition MEMBER_TYPE_FIELD : Z := 0x02000000.

Definition _ismethod (o : SQObject) : bool := negb (Z.land (_integer o) MEMBER_TYPE_METHOD =? 0).
Definition _isfield (o : SQObject) : bool := negb (Z.land (_integer o) MEMBER_TYPE_FIELD =? 0).
Definition _make_method_idx (i : nat) : SQObject := sq_int (Z.lor MEMBER_TYPE_METHOD (Z.of_nat i)).
Definition _make_field_idx (i : nat) : SQObject := sq_int (Z.lor MEMBER_TYPE_FIELD (Z.of_nat i)).
Definition _member_idx (o : SQObject) : nat := Z.to_nat (Z.land (_integer o) 0x00FFFFFF).

(** ** Objects *)

Record SQClassMember := mkMember { val : SQObject; attrs : SQObject }.
Definition set_val (v : SQObject) (m : SQClassMember) : SQClassMember := mkMember v (attrs m).
Definition set_attrs (a : SQObject) (m : SQClassMember) : SQClassMember := mkMember (val m) a.

(** The metamethods of [enum SQMetaMethod]. *)
Definition MT_LAST : nat := 18.

Record SQClass := mkClass {
  _members : SQTable;
  _base : option Z;
  _defaultvalues : list SQClassMember;
  _methods : list SQClassMember;
  _metamethods : list SQObject;
  _attributes : SQObject;
  _locked : bool;
  _constructoridx : Z;
  _udsize : Z
}.
Definition with_members t c := mkClass t (_base c) (_defaultvalues c) (_methods c) (_metamethods c) (_attributes c) (_locked c) (_constructoridx c) (_udsize c).
Definition with_defaultvalues l c := mkClass (_members c) (_base c) l (_methods c) (_metamethods c) (_attributes c) (_locked c) (_constructoridx c) (_udsize c).
Definition with_methods l c := mkClass (_members c) (_base c) (_defaultvalues c) l (_metamethods c) (_attributes c) (_locked c) (_constructoridx c) (_udsize c).
Definition with_metamethods l c := mkClass (_members c) (_base c) (_defaultvalues c) (_methods c) l (_attributes c) (_locked c) (_constructoridx c) (_udsize c).
Definition with_attributes a c := mkClass (_members c) (_base c) (_defaultvalues c) (_methods c) (_metamethods c) a (_locked c) (_constructoridx c) (_udsize c).
Definition with_locked b c := mkClass (_members c) (_base c) (_defaultvalues c) (_methods c) (_metamethods c) (_attributes c) b (_constructoridx c) (_udsize c).
Definition with_constructoridx i c := mkClass (_members c) (_base c) (_defaultvalues c) (_methods c) (_metamethods c) (_attributes c) (_locked c) i (_udsize c).

(** [_values] has one element for each default value of the class. *)
Record SQInstance := mkInstance { _class : Z; _values : list SQObject }.

(** What [SQClosure::Clone] copies, and the class the closure belongs to. *)
Record SQClosure := mkClosure {
  _function : Z;
  _env : option Z;
  _root : option Z;
  _outervalues : list SQObject;
  _defaultparams : list SQObject;
  _closure_base : option Z
}.

Record class_heap := mkHeap {
  classes : gmap Z SQClass;
  instances : gmap Z SQInstance;
  closures : gmap Z SQClosure
}.
Definition set_class (a : Z) (c : SQClass) (h : class_heap) : class_heap := mkHeap (<[a := c]> (classes h)) (instances h) (closures h).
Definition set_instance (a : Z) (i : SQInstance) (h : class_heap) : class_heap := mkHeap (classes h) (<[a := i]> (instances h)) (closures h).
Definition set_closure (a : Z) (f : SQClosure) (h : class_heap) : class_heap := mkHeap (classes h) (instances h) (<[a := f]> (closures h)).
Definition addresses (h : class_heap) : gset Z := dom (classes h) ∪ dom (instances h) ∪ dom (closures h).

(** ** The shared state *)

(** The table of the names of metamethods, and the string that names
    constructors; [IsEqual] is equality on strings, which are interned. *)
Record class_names := mkNames { _metamethodsmap : SQTable; constructor_name : SQObject }.

Section classes.
Context `{SQHeap} `{Allocator} (ss : class_names).

Definition new_address : stM class_heap Z := X ← gets addresses; mret (malloc X).
Definition the_class (a : Z) : stM class_heap SQClass := m ← gets classes; lift (expect UseAfterFree (m !! a)).
Definition the_instance (a : Z) : stM class_heap SQInstance := m ← gets instances; lift (expect UseAfterFree (m !! a)).
Definition the_closure (a : Z) : stM class_heap SQClosure := m ← gets closures; lift (expect UseAfterFree (m !! a)).

(** An element of a vector; [operator[]] does not check the index. *)
Definition at_ {A} (l : list A) (i : nat) : res A := expect OutOfBounds (l !! i).
Definition put_at {A} (l : list A) (i : nat) (f : A → A) : res (list A) := x ← at_ l i; Ok (<[i := f x]> l).

(** [SQSharedState::GetMetaMethodIdxByName] *)
Definition GetMetaMethodIdxByName (name : SQObject) : res Z :=
  if bool_decide (_type name = OT_STRING) then
    r ← Get (_metamethodsmap ss) name;
    Ok (match r with Some ret => _integer ret | None => -1 end)
  else Ok (-1).

(** [SQClosure::Clone] *)
Definition clone_closure (a : Z) : stM class_heap Z :=
  f ← the_closure a;
  r ← new_address;
  modify (set_closure r (mkClosure (_function f) (_env f) (_root f) (_outervalues f) (_defaultparams f) None));;
  mret r.

(** [_closure(theval)->_base = _base] *)
Definition set_closure_base (a b : Z) : stM class_heap () :=
  f ← the_closure a;
  modify (set_closure a (mkClosure (_function f) (_env f) (_root f) (_outervalues f) (_defaultparams f) (Some b))).
End classes.

(** ** Classes *)

Module SQClass.
Section class.
Context `{SQHeap} `{Allocator} (ss : class_names).

(** [SQClass::Create] *)
Definition Create (base : option Z) : stM class_heap Z :=
  a ← new_address;
  c ← match base with
      | None => t ← lift (SqTable.Create 0); mret (mkClass t None [] [] (replicate MT_LAST sq_null) sq_null false (-1) 0)
      | Some b =>
          cb ← the_class b;
          t ← lift (SqTable.Clone (_members cb));
          mret (mkClass t (Some b) (_defaultvalues cb) (_methods cb) (_metamethods cb) sq_null false (_constructoridx cb) (_udsize cb))
      end;
  modify (set_class a c);;
  mret a.

Definition is_function (v : SQObject) : bool := bool_decide (_type v = OT_CLOSURE) || bool_decide (_type v = OT_NATIVECLOSURE).

(** The function a class stores is a copy that knows the base class. *)
Definition bind_base (c : SQClass) (v : SQObject) : stM class_heap SQObject :=
  match _base c with
  | Some b =>
      if bool_decide (_type v = OT_CLOSURE) then
        r ← clone_closure (_unVal v);
        set_closure_base r b;;
        mret (mkObj OT_CLOSURE r)
      else mret v
  | None => mret v
  end.

(** The part of [NewSlot] for functions and static values. *)
Definition NewStatic (a : Z) (c : SQClass) (temp : option SQObject) (key v : SQObject) : stM class_heap () :=
  mmidx ← (if is_function v then lift (GetMetaMethodIdxByName ss key) else mret (-1));
  if negb (mmidx =? -1) then
    mms ← lift (put_at (_metamethods c) (Z.to_nat mmidx) (λ _, v));
    modify (set_class a (with_metamethods mms c))
  else
    theval ← bind_base c v;
    match temp with
    | None =>
        let isconstructor := bool_decide (constructor_name ss = key) in
        let c := if isconstructor then with_constructoridx (Z.of_nat (length (_methods c))) c else c in
        r ← lift (SqTable.NewSlot table_fuel (_members c) key (_make_method_idx (length (_methods c))));
        modify (set_class a (with_methods (_methods c ++ [mkMember theval sq_null]) (with_members r.1 c)))
    | Some temp =>
        ms ← lift (put_at (_methods c) (_member_idx temp) (set_val theval));
        modify (set_class a (with_methods ms c))
    end.

(** The part for other values: a new field. *)
Definition NewField (a : Z) (c : SQClass) (key v : SQObject) : stM class_heap () :=
  r ← lift (SqTable.NewSlot table_fuel (_members c) key (_make_field_idx (length (_defaultvalues c))));
  modify (set_class a (with_defaultvalues (_defaultvalues c ++ [mkMember v sq_null]) (with_members r.1 c))).

Definition NewSlot (a : Z) (key v : SQObject) (bstatic : bool) : stM class_heap bool :=
  c ← the_class a;
  let belongs_to_static_table := is_function v || bstatic in
  if _locked c && negb belongs_to_static_table then mret false
  else
    temp ← lift (SqTable.Get (_members c) key);
    match temp with
    | Some i =>
        if _isfield i then
          ds ← lift (put_at (_defaultvalues c) (_member_idx i) (set_val v));
          modify (set_class a (with_defaultvalues ds c))
        else if belongs_to_static_table then NewStatic a c temp key v else NewField a c key v
    | None => if belongs_to_static_table then NewStatic a c temp key v else NewField a c key v
    end;;
    mret true.

(** The member a name stands for. *)
Definition member (c : SQClass) (i : SQObject) : res SQClassMember :=
  if _isfield i then at_ (_defaultvalues c) (_member_idx i) else at_ (_methods c) (_member_idx i).

Definition Get (a : Z) (key : SQObject) : stM class_heap (option SQObject) :=
  c ← the_class a;
  r ← lift (SqTable.Get (_members c) key);
  match r with
  | Some i =>
      m ← lift (member c i);
      mret (Some (if _isfield i then _realval (val m) else val m))
  | None => mret None
  end.

Definition GetConstructor (a : Z) : stM class_heap (option SQObject) :=
  c ← the_class a;
  if _constructoridx c =? -1 then mret None
  else m ← lift (at_ (_methods c) (Z.to_nat (_constructoridx c))); mret (Some (val m)).

Definition SetAttributes (a : Z) (key v : SQObject) : stM class_heap bool :=
  c ← the_class a;
  idx ← lift (SqTable.Get (_members c) key);
  match idx with
  | Some i =>
      (if _isfield i then ds ← lift (put_at (_defaultvalues c) (_member_idx i) (set_attrs v)); modify (set_class a (with_defaultvalues ds c))
       else ms ← lift (put_at (_methods c) (_member_idx i) (set_attrs v)); modify (set_class a (with_methods ms c)));;
      mret true
  | None => mret false
  end.

Definition GetAttributes (a : Z) (key : SQObject) : stM class_heap (option SQObject) :=
  c ← the_class a;
  idx ← lift (SqTable.Get (_members c) key);
  match idx with
  | Some i => m ← lift (member c i); mret (Some (attrs m))
  | None => mret None
  end.

(** [Lock], along the chain of bases *)
Fixpoint lock_loop (fuel : nat) (a : Z) : stM class_heap () :=
  match fuel with
  | O => raise OutOfFuel
  | S fuel' =>
      c ← the_class a;
      modify (set_class a (with_locked true c));;
      match _base c with Some b => lock_loop fuel' b | None => mret () end
  end.
Definition Lock (a : Z) : stM class_heap () := n ← gets (λ h, size (classes h)); lock_loop n a.

Definition Next (a : Z) (refpos : SQObject) : stM class_heap (option (Z * SQObject * SQObject)) :=
  c ← the_class a;
  r ← lift (SqTable.Next false (_members c) refpos);
  match r with
  | Some (idx, outkey, oval) =>
      if _ismethod oval then
        m ← lift (at_ (_methods c) (_member_idx oval)); mret (Some (idx, outkey, val m))
      else
        m ← lift (at_ (_defaultvalues c) (_member_idx oval)); mret (Some (idx, outkey, _realval (val m)))
  | None => mret None
  end.

(** [SQClass::Finalize]; the table and the base are released. *)
Definition Finalize (a : Z) : stM class_heap () :=
  c ← the_class a;
  modify (set_class a (with_attributes sq_null (with_metamethods (replicate MT_LAST sq_null)
    (with_methods [] (with_defaultvalues ((λ _, mkMember sq_null sq_null) <$> _defaultvalues c) c))))).
End class.
End SQClass.

(** ** Instances *)

Module SQInstance.
Section instance.
Context `{SQHeap} `{Allocator}.

(** [SQInstance::Create] *)
Definition Create (theclass : Z) : stM class_heap Z :=
  a ← new_address;
  c ← the_class theclass;
  modify (set_instance a (mkInstance theclass (val <$> _defaultvalues c)));;
  mret a.

(** [SQInstance::Clone] *)
Definition Clone (i : Z) : stM class_heap Z :=
  a ← new_address;
  inst ← the_instance i;
  c ← the_class (_class inst);
  vs ← lift (if decide (length (_defaultvalues c) ≤ length (_values inst))%nat
             then Ok (take (length (_defaultvalues c)) (_values inst)) else Err OutOfBounds);
  modify (set_instance a (mkInstance (_class inst) vs));;
  mret a.

Definition Get (i : Z) (key : SQObject) : stM class_heap (option SQObject) :=
  inst ← the_instance i;
  c ← the_class (_class inst);
  r ← lift (SqTable.Get (_members c) key);
  match r with
  | Some x =>
      if _isfield x then o ← lift (at_ (_values inst) (_member_idx x)); mret (Some (_realval o))
      else m ← lift (at_ (_methods c) (_member_idx x)); mret (Some (val m))
  | None => mret None
  end.

Definition Set_ (i : Z) (key v : SQObject) : stM class_heap bool :=
  inst ← the_instance i;
  c ← the_class (_class inst);
  r ← lift (SqTable.Get (_members c) key);
  match r with
  | Some x =>
      if _isfield x then
        vs ← lift (put_at (_values inst) (_member_idx x) (λ _, v));
        modify (set_instance i (mkInstance (_class inst) vs));;
        mret true
      else mret false
  | None => mret false
  end.

Definition GetMetaMethod (i : Z) (mm : nat) : stM class_heap (option SQObject) :=
  inst ← the_instance i;
  c ← the_class (_class inst);
  o ← lift (at_ (_metamethods c) mm);
  mret (if is_null o then None else Some o).

Fixpoint instance_of_loop (fuel : nat) (parent : option Z) (trg : Z) : stM class_heap bool :=
  match parent with
  | None => mret false
  | Some p =>
      match fuel with
      | O => raise OutOfFuel
      | S fuel' =>
          if bool_decide (p = trg) then mret true
          else c ← the_class p; instance_of_loop fuel' (_base c) trg
      end
  end.
Definition InstanceOf (i trg : Z) : stM class_heap bool :=
  inst ← the_instance i;
  n ← gets (λ h, size (classes h));
  instance_of_loop n (Some (_class inst)) trg.

(** [SQInstance::Finalize]: as many values are cleared as the class has. *)
Definition Finalize (i : Z) : stM class_heap () :=
  inst ← the_instance i;
  c ← the_class (_class inst);
  vs ← lift (if decide (length (_defaultvalues c) ≤ length (_values inst))%nat
             then Ok (replicate (length (_defaultvalues c)) sq_null ++ drop (length (_defaultvalues c)) (_values inst)) else Err OutOfBounds);
  modify (set_instance i (mkInstance (_class inst) vs)).
End instance.
End SQInstance.

(** [SQClass::CreateInstance] *)
Definition CreateInstance `{SQHeap} `{Allocator} (a : Z) : stM class_heap Z :=
  c ← the_class a;
  when (negb (_locked c)) (SQClass.Lock a);;
  SQInstance.Create a.

(** The shared state when it is set up: the names of the metamethods. *)
Definition newmetamethod `{SQHeap} (t : SQTable * Z) (name : SQObject) : res (SQTable * Z) :=
  '(t', _) ← SqTable.NewSlot table_fuel t.1 name (sq_int t.2);
  Ok (t', t.2 + 1).
Definition metamethods_init `{SQHeap} (names : list SQObject) : res SQTable :=
  t ← SqTable.Create (Z.of_nat MT_LAST - 1);
  '(t, _) ← fold_res newmetamethod names (t, 0);
  Ok t.
