(* ===== verification/SqClassSpec.v ===== *)
(** * What classes and instances promise

    A class is a map from names to fields, with their default values, and
    methods; an instance is a class and a map from the names of its fields to
    values.  Every sequence of operations on classes and instances runs without
    a fault and answers as these maps do. *)

From Stdlib Require Import Ascii.
From stdpp Require Import base numbers gmap option list.
From S2P Require Import Prelude SqObject SqTable SqTableInv SqTableSpec SqClass.

Open Scope Z_scope.

(** ** Maps *)

Inductive amember := AField (v attrs : SQObject) | AMethod (v attrs : SQObject).
Definition a_val (m : amember) : SQObject := match m with AField v _ | AMethod v _ => v end.
Definition a_attrs (m : amember) : SQObject := match m with AField _ a | AMethod _ a => a end.
Definition a_field (m : amember) : option SQObject := match m with AField v _ => Some v | AMethod _ _ => None end.
Definition a_set_val (v : SQObject) (m : amember) : amember := match m with AField _ a => AField v a | AMethod _ a => AMethod v a end.
Definition a_set_attrs (a : SQObject) (m : amember) : amember := match m with AField v _ => AField v a | AMethod v _ => AMethod v a end.

(** [a_line] is the class itself and its bases, [a_ctor] its constructor. *)
Record aclass := mkA {
  a_line : list Z;
  a_members : gmap SQObject amember;
  a_metas : list SQObject;
  a_ctor : option SQObject;
  a_locked : bool
}.
Record ainstance := mkAI { a_class : Z; a_values : gmap SQObject SQObject }.
Record aheap := mkAH { a_classes : gmap Z aclass; a_instances : gmap Z ainstance; a_closures : gmap Z SQClosure }.

Definition a_set_class a c h := mkAH (<[a := c]> (a_classes h)) (a_instances h) (a_closures h).
Definition a_set_instance i x h := mkAH (a_classes h) (<[i := x]> (a_instances h)) (a_closures h).
Definition a_set_closure f x h := mkAH (a_classes h) (a_instances h) (<[f := x]> (a_closures h)).
Definition a_addresses (h : aheap) : gset Z := dom (a_classes h) ∪ dom (a_instances h) ∪ dom (a_closures h).
Definition a_lock (c : aclass) : aclass := mkA (a_line c) (a_members c) (a_metas c) (a_ctor c) true.
Definition a_lock_line (line : list Z) (m : gmap Z aclass) : gmap Z aclass := foldl (λ m b, alter a_lock b m) m line.
Definition a_base (c : aclass) : option Z := head (tail (a_line c)).

(** The operations scripts have on classes and instances. *)
Inductive class_op :=
  | ONewClass (base : option Z)
  | ONewSlot (a : Z) (key v : SQObject) (bstatic : bool)
  | OClassGet (a : Z) (key : SQObject)
  | OConstructor (a : Z)
  | OSetAttributes (a : Z) (key v : SQObject)
  | OGetAttributes (a : Z) (key : SQObject)
  | ONewInstance (a : Z)
  | OClone (i : Z)
  | OGet (i : Z) (key : SQObject)
  | OSet (i : Z) (key v : SQObject)
  | OMetaMethod (i : Z) (mm : nat)
  | OInstanceOf (i trg : Z).

Inductive class_answer := GaveAddress (a : Z) | GaveBool (b : bool) | GaveValue (v : option SQObject).

Section spec.
Context `{SQHeap} `{Allocator} (meta : SQObject → option nat) (constructor : SQObject).

Definition a_new_class (base : option Z) (h : aheap) : Z * aheap :=
  let a := malloc (a_addresses h) in
  let c := match base ≫= λ b, a_classes h !! b with
           | Some cb => mkA (a :: a_line cb) (a_members cb) (a_metas cb) (a_ctor cb) false
           | None => mkA [a] ∅ (replicate MT_LAST sq_null) None false
           end in
  (a, a_set_class a c h).

(** The closure a class gets is a copy that knows the base. *)
Definition a_bind_base (c : aclass) (v : SQObject) (h : aheap) : SQObject * aheap :=
  match a_base c, a_closures h !! _unVal v with
  | Some b, Some f =>
      if bool_decide (_type v = OT_CLOSURE) then
        let r := malloc (a_addresses h) in
        (mkObj OT_CLOSURE r, a_set_closure r (mkClosure (_function f) (_env f) (_root f) (_outervalues f) (_defaultparams f) (Some b)) h)
      else (v, h)
  | _, _ => (v, h)
  end.

Definition a_new_method (a : Z) (c : aclass) (key v : SQObject) (h : aheap) : aheap :=
  let '(v, h) := a_bind_base c v h in
  let m := match a_members c !! key with Some m => a_set_val v m | None => AMethod v sq_null end in
  a_set_class a (mkA (a_line c) (<[key := m]> (a_members c)) (a_metas c) (if bool_decide (constructor = key) then Some v else a_ctor c) (a_locked c)) h.

Definition a_new_slot (a : Z) (key v : SQObject) (bstatic : bool) (h : aheap) : bool * aheap :=
  match a_classes h !! a with
  | None => (false, h)
  | Some c =>
      let static := SQClass.is_function v || bstatic in
      if a_locked c && negb static then (false, h)
      else
        let set_member m := a_set_class a (mkA (a_line c) (<[key := m]> (a_members c)) (a_metas c) (a_ctor c) (a_locked c)) h in
        (true,
         match a_members c !! key with
         | Some (AField _ at_) => set_member (AField v at_)
         | _ =>
             if static then
               match (if SQClass.is_function v then meta key else None) with
               | Some mm => a_set_class a (mkA (a_line c) (a_members c) (<[mm := v]> (a_metas c)) (a_ctor c) (a_locked c)) h
               | None => a_new_method a c key v h
               end
             else set_member (AField v sq_null)
         end)
  end.

Definition a_new_instance (a : Z) (h : aheap) : Z * aheap :=
  let line := default [] (a_line <$> a_classes h !! a) in
  let locked := default true (a_locked <$> a_classes h !! a) in
  let i := malloc (a_addresses h) in
  let h := if locked then h else mkAH (a_lock_line line (a_classes h)) (a_instances h) (a_closures h) in
  let fields := default ∅ (omap a_field ∘ a_members <$> a_classes h !! a) in
  (i, a_set_instance i (mkAI a fields) h).

Definition a_get (i : Z) (key : SQObject) (h : aheap) : option SQObject :=
  x ← a_instances h !! i;
  c ← a_classes h !! a_class x;
  match a_members c !! key with
  | Some (AField _ _) => _realval <$> a_values x !! key
  | Some (AMethod v _) => Some v
  | None => None
  end.

Definition a_set (i : Z) (key v : SQObject) (h : aheap) : bool * aheap :=
  match a_instances h !! i with
  | Some x =>
      if decide (is_Some (a_values x !! key)) then (true, a_set_instance i (mkAI (a_class x) (<[key := v]> (a_values x))) h)
      else (false, h)
  | None => (false, h)
  end.

Definition a_class_get (a : Z) (key : SQObject) (h : aheap) : option SQObject :=
  c ← a_classes h !! a;
  m ← a_members c !! key;
  Some (match m with AField v _ => _realval v | AMethod v _ => v end).

Definition a_set_attributes (a : Z) (key v : SQObject) (h : aheap) : bool * aheap :=
  match a_classes h !! a with
  | Some c =>
      match a_members c !! key with
      | Some m => (true, a_set_class a (mkA (a_line c) (<[key := a_set_attrs v m]> (a_members c)) (a_metas c) (a_ctor c) (a_locked c)) h)
      | None => (false, h)
      end
  | None => (false, h)
  end.

Definition class_spec (op : class_op) (h : aheap) : class_answer * aheap :=
  match op with
  | ONewClass base => let '(a, h) := a_new_class base h in (GaveAddress a, h)
  | ONewSlot a key v bstatic => let '(b, h) := a_new_slot a key v bstatic h in (GaveBool b, h)
  | OClassGet a key => (GaveValue (a_class_get a key h), h)
  | OConstructor a => (GaveValue (a_classes h !! a ≫= a_ctor), h)
  | OSetAttributes a key v => let '(b, h) := a_set_attributes a key v h in (GaveBool b, h)
  | OGetAttributes a key => (GaveValue (c ← a_classes h !! a; a_attrs <$> a_members c !! key), h)
  | ONewInstance a => let '(i, h) := a_new_instance a h in (GaveAddress i, h)
  | OClone i =>
      let r := malloc (a_addresses h) in
      (GaveAddress r, match a_instances h !! i with Some x => a_set_instance r x h | None => h end)
  | OGet i key => (GaveValue (a_get i key h), h)
  | OSet i key v => let '(b, h) := a_set i key v h in (GaveBool b, h)
  | OMetaMethod i mm =>
      (GaveValue (x ← a_instances h !! i; c ← a_classes h !! a_class x; o ← a_metas c !! mm; if is_null o then None else Some o), h)
  | OInstanceOf i trg => (GaveBool (bool_decide (trg ∈ default [] (x ← a_instances h !! i; a_line <$> a_classes h !! a_class x))), h)
  end.

(** The objects an operation needs are there, and names are not null. *)
Definition class_op_ok (op : class_op) (h : aheap) : bool :=
  match op with
  | ONewClass None => true
  | ONewClass (Some a) | OConstructor a | ONewInstance a => bool_decide (is_Some (a_classes h !! a))
  | ONewSlot a key v _ =>
      bool_decide (is_Some (a_classes h !! a)) && negb (is_null key) &&
      (negb (bool_decide (_type v = OT_CLOSURE)) || bool_decide (is_Some (a_closures h !! _unVal v)))
  | OClassGet a _ | OGetAttributes a _ | OSetAttributes a _ _ => bool_decide (is_Some (a_classes h !! a))
  | OClone i | OGet i _ | OSet i _ _ | OInstanceOf i _ => bool_decide (is_Some (a_instances h !! i))
  | OMetaMethod i mm => bool_decide (is_Some (a_instances h !! i)) && bool_decide (mm < MT_LAST)%nat
  end.
End spec.

(** ** The operations of the code *)

Definition class_run `{SQHeap} `{Allocator} (ss : class_names) (op : class_op) : stM class_heap class_answer :=
  match op with
  | ONewClass base => a ← SQClass.Create base; mret (GaveAddress a)
  | ONewSlot a key v bstatic => b ← SQClass.NewSlot ss a key v bstatic; mret (GaveBool b)
  | OClassGet a key => v ← SQClass.Get a key; mret (GaveValue v)
  | OConstructor a => v ← SQClass.GetConstructor a; mret (GaveValue v)
  | OSetAttributes a key v => b ← SQClass.SetAttributes a key v; mret (GaveBool b)
  | OGetAttributes a key => v ← SQClass.GetAttributes a key; mret (GaveValue v)
  | ONewInstance a => i ← CreateInstance a; mret (GaveAddress i)
  | OClone i => r ← SQInstance.Clone i; mret (GaveAddress r)
  | OGet i key => v ← SQInstance.Get i key; mret (GaveValue v)
  | OSet i key v => b ← SQInstance.Set_ i key v; mret (GaveBool b)
  | OMetaMethod i mm => v ← SQInstance.GetMetaMethod i mm; mret (GaveValue v)
  | OInstanceOf i trg => b ← SQInstance.InstanceOf i trg; mret (GaveBool b)
  end.

(** ** Indices *)

Lemma small_land i m : (Z.of_nat i < 2 ^ 24)%Z → Z.land (Z.of_nat i) m = Z.land (Z.of_nat i) (Z.land (Z.ones 24) m).
Proof. intros Hi. rewrite Z.land_assoc, Z.land_ones, Z.mod_small by lia. done. Qed.

Lemma index_range f i : (f = MEMBER_TYPE_FIELD ∨ f = MEMBER_TYPE_METHOD) → (Z.of_nat i < 2 ^ 24)%Z → (0 ≤ Z.lor f (Z.of_nat i) < 2 ^ 31)%Z.
Proof.
  intros Hf Hi. split; [apply Z.lor_nonneg; destruct Hf as [-> | ->]; split; done || lia|].
  assert (0 < Z.lor f (Z.of_nat i))%Z as Hpos.
  { assert (0 ≤ Z.lor f (Z.of_nat i))%Z by (apply Z.lor_nonneg; destruct Hf as [-> | ->]; split; done || lia).
    destruct (Z.eq_dec (Z.lor f (Z.of_nat i)) 0) as [E|]; [|lia]. apply Z.lor_eq_0_iff in E as [-> _]. by destruct Hf. }
  apply Z.log2_lt_pow2; [done|]. rewrite Z.log2_lor by (destruct Hf as [-> | ->]; done || lia).
  assert (Z.log2 (Z.of_nat i) < 24)%Z by (destruct (decide (Z.of_nat i = 0)%Z) as [->|]; [done|]; apply Z.log2_lt_pow2; lia).
  destruct Hf as [-> | ->]; [change (Z.log2 MEMBER_TYPE_FIELD) with 25|change (Z.log2 MEMBER_TYPE_METHOD) with 24]; lia.
Qed.

Lemma integer_index f i : (f = MEMBER_TYPE_FIELD ∨ f = MEMBER_TYPE_METHOD) → (Z.of_nat i < 2 ^ 24)%Z →
  _integer (sq_int (Z.lor f (Z.of_nat i))) = Z.lor f (Z.of_nat i).
Proof.
  intros Hf Hi. pose proof (index_range f i Hf Hi). unfold _integer, sq_int. simpl. rewrite u32_small by lia. apply s32_small. lia.
Qed.

Section index.
Context (i : nat) (Hi : (Z.of_nat i < 2 ^ 24)%Z).

Lemma isfield_field : _isfield (_make_field_idx i) = true.
Proof using Hi.
  unfold _isfield, _make_field_idx. rewrite integer_index by auto. rewrite Z.land_lor_distr_l, (small_land i) by done. by rewrite Z.land_0_r.
Qed.
Lemma isfield_method : _isfield (_make_method_idx i) = false.
Proof using Hi.
  unfold _isfield, _make_method_idx. rewrite integer_index by auto. rewrite Z.land_lor_distr_l, (small_land i) by done. by rewrite Z.land_0_r.
Qed.
Lemma member_idx_field : _member_idx (_make_field_idx i) = i.
Proof using Hi.
  unfold _member_idx, _make_field_idx. rewrite integer_index by auto. rewrite Z.land_lor_distr_l.
  change 0x00FFFFFF with (Z.ones 24). rewrite (Z.land_ones (Z.of_nat i)), Z.mod_small by lia. change (Z.land MEMBER_TYPE_FIELD (Z.ones 24)) with 0.
  rewrite Z.lor_0_l. lia.
Qed.
Lemma member_idx_method : _member_idx (_make_method_idx i) = i.
Proof using Hi.
  unfold _member_idx, _make_method_idx. rewrite integer_index by auto. rewrite Z.land_lor_distr_l.
  change 0x00FFFFFF with (Z.ones 24). rewrite (Z.land_ones (Z.of_nat i)), Z.mod_small by lia. change (Z.land MEMBER_TYPE_METHOD (Z.ones 24)) with 0.
  rewrite Z.lor_0_l. lia.
Qed.
End index.

Lemma field_not_method i j : (Z.of_nat i < 2 ^ 24)%Z → (Z.of_nat j < 2 ^ 24)%Z → _make_field_idx i ≠ _make_method_idx j.
Proof. intros Hi Hj E. pose proof (isfield_field i Hi) as H1. rewrite E, isfield_method in H1 by done. done. Qed.

(** ** The relation *)

Definition member_rel (c : SQClass) (o : option SQObject) (am : option amember) : Prop :=
  match o with
  | None => am = None
  | Some x =>
      ∃ i m, (x = _make_field_idx i ∧ _defaultvalues c !! i = Some m ∧ am = Some (AField (val m) (attrs m))) ∨
             (x = _make_method_idx i ∧ _methods c !! i = Some m ∧ am = Some (AMethod (val m) (attrs m)))
  end.

(** The constructor is the method of that name; a field of that name hides it
    without replacing it. *)
Definition ctor_rel (ctor : SQObject) (c : SQClass) (ac : aclass) (mm : gmap SQObject SQObject) : Prop :=
  (_constructoridx c = -1 ∧ a_ctor ac = None ∧ ∀ i, (Z.of_nat i < 2 ^ 24)%Z → mm !! ctor ≠ Some (_make_method_idx i)) ∨
  (∃ i m, _constructoridx c = Z.of_nat i ∧ _methods c !! i = Some m ∧ a_ctor ac = Some (val m) ∧
     (mm !! ctor = Some (_make_method_idx i) ∨ ∃ j, (Z.of_nat j < 2 ^ 24)%Z ∧ mm !! ctor = Some (_make_field_idx j)) ∧
     ∀ k, mm !! k = Some (_make_method_idx i) → k = ctor).

Section rel.
Context `{SQHeap} (ctor : SQObject).

Record class_rel (n : nat) (c : SQClass) (ac : aclass) (mm : gmap SQObject SQObject) : Prop := {
  cr_models : models (_members c) mm;
  cr_small : (_numofnodes (_members c) ≤ Z.max 4 (3 * Z.of_nat (size mm)))%Z;
  cr_size : (size mm ≤ n)%nat;
  cr_defaults : (length (_defaultvalues c) ≤ n)%nat;
  cr_methods : (length (_methods c) ≤ n)%nat;
  cr_base : _base c = a_base ac;
  cr_metas : _metamethods c = a_metas ac;
  cr_metas_len : length (a_metas ac) = MT_LAST;
  cr_locked : _locked c = a_locked ac;
  cr_members : ∀ k, member_rel c (mm !! k) (a_members ac !! k);
  cr_inj : ∀ k k' x, mm !! k = Some x → mm !! k' = Some x → k = k';
  cr_ctor : ctor_rel ctor c ac mm
}.

Definition field_of (mm : gmap SQObject SQObject) (vs : list SQObject) (k : SQObject) : option SQObject :=
  x ← mm !! k; if _isfield x then vs !! _member_idx x else None.

Record heap_rel (n : nat) (h : class_heap) (A : aheap) (M : Z → gmap SQObject SQObject) : Prop := {
  hr_closures : closures h = a_closures A;
  hr_dom : dom (classes h) = dom (a_classes A);
  hr_class a c ac : classes h !! a = Some c → a_classes A !! a = Some ac → class_rel n c ac (M a);
  hr_line a ac : a_classes A !! a = Some ac → NoDup (a_line ac) ∧
    match a_base ac with
    | None => a_line ac = [a]
    | Some b => ∃ bc, a_classes A !! b = Some bc ∧ a_line ac = a :: a_line bc
    end;
  hr_idom : dom (instances h) = dom (a_instances A);
  hr_instance i x y : instances h !! i = Some x → a_instances A !! i = Some y →
    a_class y = _class x ∧ ∃ c, classes h !! _class x = Some c ∧ _locked c = true ∧ length (_values x) = length (_defaultvalues c) ∧
      ∀ k, a_values y !! k = field_of (M (_class x)) (_values x) k
}.
End rel.

(** ** Looking things up *)

Lemma make_idx_int f i : (f = _make_field_idx i ∨ f = _make_method_idx i) → _type f = OT_INTEGER.
Proof. by intros [-> | ->]. Qed.

Section lookups.
Context `{SQHeap} `{Allocator} (ctor : SQObject) (n : nat).
Context (h : class_heap) (A : aheap) (M : Z → gmap SQObject SQObject) (Hrel : heap_rel ctor n h A M).

Lemma rel_class a ac : a_classes A !! a = Some ac → ∃ c, classes h !! a = Some c ∧ class_rel ctor n c ac (M a).
Proof using Hrel.
  intros Ha. assert (a ∈ dom (classes h)) as Hd by (rewrite (hr_dom _ _ _ _ _ Hrel); apply elem_of_dom; eauto).
  apply elem_of_dom in Hd as [c Hc]. exists c. split; [done|]. by eapply hr_class.
Qed.

Lemma rel_no_class a : a_classes A !! a = None → classes h !! a = None.
Proof using Hrel. intros Ha. apply not_elem_of_dom. rewrite (hr_dom _ _ _ _ _ Hrel). by apply not_elem_of_dom. Qed.

(** An instance, with its class. *)
Lemma rel_instance i y : a_instances A !! i = Some y → ∃ x c ac, instances h !! i = Some x ∧ a_class y = _class x ∧
  classes h !! _class x = Some c ∧ a_classes A !! _class x = Some ac ∧ class_rel ctor n c ac (M (_class x)) ∧ _locked c = true ∧
  length (_values x) = length (_defaultvalues c) ∧ ∀ k, a_values y !! k = field_of (M (_class x)) (_values x) k.
Proof using Hrel.
  intros Hi. assert (i ∈ dom (instances h)) as Hd by (rewrite (hr_idom _ _ _ _ _ Hrel); apply elem_of_dom; eauto).
  apply elem_of_dom in Hd as [x Hx]. destruct (hr_instance _ _ _ _ _ Hrel i x y Hx Hi) as (Ec & c & Hc & Hl & Hlen & Hv).
  assert (_class x ∈ dom (a_classes A)) as Hda by (rewrite <- (hr_dom _ _ _ _ _ Hrel); apply elem_of_dom; eauto).
  apply elem_of_dom in Hda as [ac Hac]. exists x, c, ac. split_and!; try done. by eapply hr_class.
Qed.

Lemma rel_addresses : addresses h = a_addresses A.
Proof using Hrel. unfold addresses, a_addresses. by rewrite (hr_dom _ _ _ _ _ Hrel), (hr_idom _ _ _ _ _ Hrel), (hr_closures _ _ _ _ _ Hrel). Qed.

Lemma new_address_fresh : let a := malloc (addresses h) in
  classes h !! a = None ∧ a_classes A !! a = None ∧ instances h !! a = None ∧ a_instances A !! a = None.
Proof using Hrel.
  intros a. pose proof (malloc_fresh (addresses h)) as Hf. fold a in Hf. unfold addresses in Hf.
  split_and!; apply not_elem_of_dom; rewrite <- ?(hr_dom _ _ _ _ _ Hrel), <- ?(hr_idom _ _ _ _ _ Hrel); set_solver.
Qed.
End lookups.

Section class_lookups.
Context `{SQHeap} (ctor : SQObject) (n : nat) (Hn : (Z.of_nat n < 2 ^ 24)%Z).
Context (c : SQClass) (ac : aclass) (mm : gmap SQObject SQObject) (Hc : class_rel ctor n c ac mm).

Lemma table_get k : SqTable.Get (_members c) k = Ok (mm !! k).
Proof using Hc.
  rewrite (Get_models _ mm) by apply Hc. pose proof (cr_members _ _ _ _ _ Hc k) as Hk. destruct (mm !! k) as [x|]; [|done].
  destruct Hk as (i & m & Hx). simpl. unfold _realval. rewrite bool_decide_eq_false_2; [done|].
  rewrite (make_idx_int x i); [done|]. destruct Hx as [(-> & _)|(-> & _)]; auto.
Qed.

Lemma field_bound i m : _defaultvalues c !! i = Some m → (Z.of_nat i < 2 ^ 24)%Z.
Proof using Hc Hn. intros Hi%lookup_lt_Some. pose proof (cr_defaults _ _ _ _ _ Hc). lia. Qed.
Lemma method_bound i m : _methods c !! i = Some m → (Z.of_nat i < 2 ^ 24)%Z.
Proof using Hc Hn. intros Hi%lookup_lt_Some. pose proof (cr_methods _ _ _ _ _ Hc). lia. Qed.

(** What a name stands for. *)
Lemma get_member k :
  match mm !! k with
  | None => a_members ac !! k = None
  | Some x =>
      if _isfield x then ∃ m, _defaultvalues c !! _member_idx x = Some m ∧ x = _make_field_idx (_member_idx x) ∧ a_members ac !! k = Some (AField (val m) (attrs m))
      else ∃ m, _methods c !! _member_idx x = Some m ∧ x = _make_method_idx (_member_idx x) ∧ a_members ac !! k = Some (AMethod (val m) (attrs m))
  end.
Proof using Hc Hn.
  pose proof (cr_members _ _ _ _ _ Hc k) as Hk. destruct (mm !! k) as [x|]; [|done]. destruct Hk as (i & m & [(-> & Hi & Ea)|(-> & Hi & Ea)]).
  - rewrite isfield_field, member_idx_field by by eapply field_bound. eauto.
  - rewrite isfield_method, member_idx_method by by eapply method_bound. eauto.
Qed.

Lemma class_member k x : mm !! k = Some x → ∃ m, SQClass.member c x = Ok m ∧ a_members ac !! k = Some (if _isfield x then AField (val m) (attrs m) else AMethod (val m) (attrs m)).
Proof using Hc Hn.
  intros Hx. pose proof (get_member k) as Hk. rewrite Hx in Hk. unfold SQClass.member, at_.
  destruct (_isfield x); destruct Hk as (m & -> & _ & ->); eauto.
Qed.
End class_lookups.

Section runs_lookups.
Lemma runs_the_class h a c (Q : SQClass → class_heap → Prop) : classes h !! a = Some c → Q c h → runs (the_class a) h Q.
Proof using Type. intros Hc HQ. unfold the_class. apply runs_bind, runs_gets. eapply runs_lift; [by rewrite Hc|]. done. Qed.
Lemma runs_the_instance h i x (Q : SQInstance → class_heap → Prop) : instances h !! i = Some x → Q x h → runs (the_instance i) h Q.
Proof using Type. intros Hx HQ. unfold the_instance. apply runs_bind, runs_gets. eapply runs_lift; [by rewrite Hx|]. done. Qed.
Lemma runs_the_closure h f x (Q : SQClosure → class_heap → Prop) : closures h !! f = Some x → Q x h → runs (the_closure f) h Q.
Proof using Type. intros Hx HQ. unfold the_closure. apply runs_bind, runs_gets. eapply runs_lift; [by rewrite Hx|]. done. Qed.
End runs_lookups.

(** ** Questions *)

Section questions.
Context `{SQHeap} `{Allocator} (ctor : SQObject) (n : nat) (Hn : (Z.of_nat n < 2 ^ 24)%Z).
Context (h : class_heap) (A : aheap) (M : Z → gmap SQObject SQObject) (Hrel : heap_rel ctor n h A M).

Lemma class_get_ok a key : is_Some (a_classes A !! a) → runs (SQClass.Get a key) h (λ v h', h' = h ∧ v = a_class_get a key A).
Proof using Hrel Hn.
  intros [ac Ha]. destruct (rel_class _ _ _ _ _ Hrel a ac Ha) as (c & Hc & Hcr). unfold a_class_get. rewrite Ha. simpl.
  apply runs_bind. eapply runs_the_class; [done|]. apply runs_bind. eapply runs_lift; [by apply (table_get _ _ _ _ _ Hcr)|].
  destruct (M a !! key) as [x|] eqn:Hx.
  - destruct (class_member _ _ Hn _ _ _ Hcr key x Hx) as (m & Em & ->). apply runs_bind. eapply runs_lift; [done|].
    apply runs_ret. split; [done|]. simpl. by destruct (_isfield x).
  - pose proof (get_member _ _ Hn _ _ _ Hcr key) as Hk. rewrite Hx in Hk. rewrite Hk. by apply runs_ret.
Qed.

Lemma constructor_ok a : is_Some (a_classes A !! a) → runs (SQClass.GetConstructor a) h (λ v h', h' = h ∧ v = a_classes A !! a ≫= a_ctor).
Proof using Hrel.
  intros [ac Ha]. destruct (rel_class _ _ _ _ _ Hrel a ac Ha) as (c & Hc & Hcr). rewrite Ha. simpl.
  apply runs_bind. eapply runs_the_class; [done|]. destruct (cr_ctor _ _ _ _ _ Hcr) as [(-> & -> & _)|(i & m & -> & Hm & -> & _)]; [by apply runs_ret|].
  rewrite (proj2 (Z.eqb_neq _ _)) by lia. apply runs_bind. eapply runs_lift; [unfold at_; by rewrite Nat2Z.id, Hm|]. by apply runs_ret.
Qed.

Lemma get_attributes_ok a key : is_Some (a_classes A !! a) →
  runs (SQClass.GetAttributes a key) h (λ v h', h' = h ∧ v = (c ← a_classes A !! a; a_attrs <$> a_members c !! key)).
Proof using Hrel Hn.
  intros [ac Ha]. destruct (rel_class _ _ _ _ _ Hrel a ac Ha) as (c & Hc & Hcr). rewrite Ha. simpl.
  apply runs_bind. eapply runs_the_class; [done|]. apply runs_bind. eapply runs_lift; [by apply (table_get _ _ _ _ _ Hcr)|].
  destruct (M a !! key) as [x|] eqn:Hx.
  - destruct (class_member _ _ Hn _ _ _ Hcr key x Hx) as (m & Em & ->). apply runs_bind. eapply runs_lift; [done|].
    apply runs_ret. split; [done|]. simpl. by destruct (_isfield x).
  - pose proof (get_member _ _ Hn _ _ _ Hcr key) as Hk. rewrite Hx in Hk. rewrite Hk. by apply runs_ret.
Qed.

Lemma instance_get_ok i key : is_Some (a_instances A !! i) → runs (SQInstance.Get i key) h (λ v h', h' = h ∧ v = a_get i key A).
Proof using Hrel Hn.
  intros [y Hy]. destruct (rel_instance _ _ _ _ _ Hrel i y Hy) as (x & c & ac & Hx & Ec & Hc & Ha & Hcr & Hl & Hlen & Hv).
  unfold a_get. rewrite Hy. simpl. rewrite Ec, Ha. simpl.
  apply runs_bind. eapply runs_the_instance; [done|]. apply runs_bind. eapply runs_the_class; [done|].
  apply runs_bind. eapply runs_lift; [by apply (table_get _ _ _ _ _ Hcr)|]. rewrite Hv. unfold field_of.
  pose proof (get_member _ _ Hn _ _ _ Hcr key) as Hk. destruct (M (_class x) !! key) as [o|]; [|rewrite Hk; by apply runs_ret]. simpl.
  destruct (_isfield o); destruct Hk as (m & Hm & _ & ->).
  - destruct (lookup_lt_is_Some_2 (_values x) (_member_idx o)) as [v Ev]; [rewrite Hlen; by eapply lookup_lt_Some|].
    apply runs_bind. eapply runs_lift; [unfold at_; by rewrite Ev|]. rewrite Ev. by apply runs_ret.
  - apply runs_bind. eapply runs_lift; [unfold at_; by rewrite Hm|]. by apply runs_ret.
Qed.

Lemma metamethod_ok i mm : is_Some (a_instances A !! i) → (mm < MT_LAST)%nat → runs (SQInstance.GetMetaMethod i mm) h (λ v h', h' = h ∧
  v = (x ← a_instances A !! i; c ← a_classes A !! a_class x; o ← a_metas c !! mm; if is_null o then None else Some o)).
Proof using Hrel.
  intros [y Hy] Hmm. destruct (rel_instance _ _ _ _ _ Hrel i y Hy) as (x & c & ac & Hx & Ec & Hc & Ha & Hcr & _).
  rewrite Hy. simpl. rewrite Ec, Ha. simpl. apply runs_bind. eapply runs_the_instance; [done|]. apply runs_bind. eapply runs_the_class; [done|].
  destruct (lookup_lt_is_Some_2 (a_metas ac) mm) as [o Ho]; [by rewrite (cr_metas_len _ _ _ _ _ Hcr)|].
  apply runs_bind. eapply runs_lift; [unfold at_; by rewrite (cr_metas _ _ _ _ _ Hcr), Ho|]. apply runs_ret. by rewrite Ho.
Qed.

(** A line of classes has at most as many as there are. *)
Lemma line_in_dom a ac : a_classes A !! a = Some ac → ∀ b, b ∈ a_line ac → is_Some (a_classes A !! b).
Proof using Hrel.
  remember (length (a_line ac)) as k eqn:Ek. revert a ac Ek. induction k as [k IH] using lt_wf_ind. intros a ac -> Ha b Hb.
  destruct (hr_line _ _ _ _ _ Hrel a ac Ha) as [_ Hl]. destruct (a_base ac) as [b'|].
  - destruct Hl as (bc & Hbc & El). rewrite El in Hb, IH. apply elem_of_cons in Hb as [->|Hb]; [eauto|]. eapply (IH (length (a_line bc))); [simpl; lia|done..].
  - rewrite Hl, list_elem_of_singleton in Hb. subst. eauto.
Qed.

Lemma line_length a ac : a_classes A !! a = Some ac → (length (a_line ac) ≤ size (classes h))%nat.
Proof using Hrel.
  intros Ha. rewrite <- size_dom, (hr_dom _ _ _ _ _ Hrel). unfold size, set_size. simpl. apply submseteq_length, NoDup_submseteq.
  - apply (hr_line _ _ _ _ _ Hrel a ac Ha).
  - intros b Hb. apply elem_of_elements, elem_of_dom. by eapply line_in_dom.
Qed.

Lemma instance_of_loop_ok fuel a ac trg : a_classes A !! a = Some ac → (length (a_line ac) ≤ fuel)%nat →
  runs (SQInstance.instance_of_loop fuel (Some a) trg) h (λ b h', h' = h ∧ b = bool_decide (trg ∈ a_line ac)).
Proof using Hrel.
  revert a ac. induction fuel as [|fuel IH]; intros a ac Ha Hlen; destruct (hr_line _ _ _ _ _ Hrel a ac Ha) as [_ Hl].
  { destruct (a_base ac); [destruct Hl as (bc & _ & El); rewrite El in Hlen|rewrite Hl in Hlen]; simpl in Hlen; lia. }
  destruct (rel_class _ _ _ _ _ Hrel a ac Ha) as (c & Hc & Hcr). cbn [SQInstance.instance_of_loop]. case_bool_decide as Eq.
  { subst a. apply runs_ret. split; [done|]. symmetry. apply bool_decide_eq_true. destruct (a_base ac); [destruct Hl as (bc & _ & ->)|rewrite Hl]; by left. }
  apply runs_bind. eapply runs_the_class; [done|]. rewrite (cr_base _ _ _ _ _ Hcr). destruct (a_base ac) as [b|].
  - destruct Hl as (bc & Hbc & El). eapply runs_mono; [apply (IH b bc Hbc); rewrite El in Hlen; simpl in Hlen; lia|].
    intros r h' (-> & ->). split; [done|]. rewrite El. apply bool_decide_ext. rewrite elem_of_cons. naive_solver.
  - rewrite Hl. destruct fuel; apply runs_ret; (split; [done|]); symmetry; apply bool_decide_eq_false; rewrite list_elem_of_singleton; naive_solver.
Qed.

Lemma instance_of_ok i trg : is_Some (a_instances A !! i) →
  runs (SQInstance.InstanceOf i trg) h (λ b h', h' = h ∧ b = bool_decide (trg ∈ default [] (x ← a_instances A !! i; a_line <$> a_classes A !! a_class x))).
Proof using Hrel.
  intros [y Hy]. destruct (rel_instance _ _ _ _ _ Hrel i y Hy) as (x & c & ac & Hx & Ec & Hc & Ha & Hcr & _).
  rewrite Hy. simpl. rewrite Ec, Ha. simpl. apply runs_bind. eapply runs_the_instance; [done|]. apply runs_bind, runs_gets.
  apply instance_of_loop_ok; [done|by eapply line_length].
Qed.
End questions.

(** ** Changes of a class *)

Lemma size_grows (mm : gmap SQObject SQObject) (key x : SQObject) : (size mm ≤ size (<[key := x]> mm) ≤ S (size mm))%nat.
Proof. destruct (mm !! key) eqn:E; [rewrite map_size_insert_Some by eauto|rewrite map_size_insert_None by done]; lia. Qed.

Section changes.
Context `{SQHeap} (ctor : SQObject) (n : nat) (Hn : (Z.of_nat (S n) < 2 ^ 24)%Z).
Context (c : SQClass) (ac : aclass) (mm : gmap SQObject SQObject) (Hc : class_rel ctor n c ac mm).

Lemma lookup_field_bound k i : mm !! k = Some (_make_field_idx i) → (Z.of_nat i < 2 ^ 24)%Z → (i < length (_defaultvalues c))%nat.
Proof using Hc Hn.
  intros Hk Hi. pose proof (get_member ctor n ltac:(lia) _ _ _ Hc k) as Hm. rewrite Hk, isfield_field, member_idx_field in Hm by done.
  destruct Hm as (m & Hm & _). by eapply lookup_lt_Some.
Qed.
Lemma lookup_method_bound k i : mm !! k = Some (_make_method_idx i) → (Z.of_nat i < 2 ^ 24)%Z → (i < length (_methods c))%nat.
Proof using Hc Hn.
  intros Hk Hi. pose proof (get_member ctor n ltac:(lia) _ _ _ Hc k) as Hm. rewrite Hk, isfield_method, member_idx_method in Hm by done.
  destruct Hm as (m & Hm & _). by eapply lookup_lt_Some.
Qed.

Lemma insert_inj (key x : SQObject) : (∀ k, mm !! k = Some x → False) →
  ∀ k k' y, <[key := x]> mm !! k = Some y → <[key := x]> mm !! k' = Some y → k = k'.
Proof using Hc.
  intros Hx k k' y. rewrite !lookup_insert_Some. intros [(<- & <-)|(Hk & H1)] [(<- & E)|(Hk' & H2)]; try done; subst.
  - by apply Hx in H2.
  - by apply Hx in H1.
  - by eapply (cr_inj _ _ _ _ _ Hc).
Qed.

(** A new entry of the table, with a larger bound. *)
Lemma members_grow key x : is_null key = false → ∃ t b, SqTable.NewSlot table_fuel (_members c) key x = Ok (t, b) ∧ models t (<[key := x]> mm) ∧
  (_numofnodes t ≤ Z.max 4 (3 * Z.of_nat (size (<[key := x]> mm))))%Z ∧ (size (<[key := x]> mm) ≤ S n)%nat.
Proof using Hc Hn.
  intros Hk. destruct (NewSlot_models 0 (_members c) mm key x (cr_models _ _ _ _ _ Hc) Hk) as (t & b & E & Hm & _ & _ & Hnum).
  exists t, b. split; [done|]. split; [done|]. pose proof (cr_small _ _ _ _ _ Hc). pose proof (cr_size _ _ _ _ _ Hc). pose proof (size_grows mm key x).
  split; lia.
Qed.

Lemma new_field_rel key v t :
  is_null key = false → (∀ x, mm !! key = Some x → _isfield x = false) →
  let x := _make_field_idx (length (_defaultvalues c)) in
  models t (<[key := x]> mm) → (_numofnodes t ≤ Z.max 4 (3 * Z.of_nat (size (<[key := x]> mm))))%Z → (size (<[key := x]> mm) ≤ S n)%nat →
  class_rel ctor (S n) (with_defaultvalues (_defaultvalues c ++ [mkMember v sq_null]) (with_members t c))
    (mkA (a_line ac) (<[key := AField v sq_null]> (a_members ac)) (a_metas ac) (a_ctor ac) (a_locked ac)) (<[key := x]> mm).
Proof using Hc Hn.
  intros Hk Hno x Hm Hsmall Hsize. pose proof (cr_defaults _ _ _ _ _ Hc) as Hd. pose proof (cr_methods _ _ _ _ _ Hc) as Hms.
  assert (Z.of_nat (length (_defaultvalues c)) < 2 ^ 24)%Z as Hx by lia.
  destruct Hc as [_ _ _ _ _ Hb Hmt Hml Hl Hmem _ Hct]. constructor; simpl; try done.
  - rewrite length_app. simpl. lia.
  - lia.
  - intros k. destruct (decide (k = key)) as [->|Hne].
    + rewrite !lookup_insert_eq. exists (length (_defaultvalues c)), (mkMember v sq_null). left. split_and!; [done| |done]. simpl. by apply list_lookup_middle.
    + rewrite !lookup_insert_ne by done. specialize (Hmem k). destruct (mm !! k) as [y|]; [|done]. destruct Hmem as (i & m & [(? & ? & ?)|Hy]); exists i, m; [left|by right].
      split_and!; [done| |done]. simpl. by apply lookup_app_l_Some.
  - apply insert_inj. intros k Hk'. apply lookup_field_bound in Hk'; [lia|done].
  - destruct Hct as [(E1 & E2 & Hct)|(i & m & E1 & E2 & E3 & Hct & Hu)]; [left|right; exists i, m].
    + split_and!; [done|done|]. intros i Hi. rewrite lookup_insert_Some. intros [(_ & E)|(_ & E)]; [by apply field_not_method in E|by apply (Hct i)].
    + assert (Z.of_nat i < 2 ^ 24)%Z as Hi by (apply lookup_lt_Some in E2; lia). split_and!; [done..| |].
      * destruct (decide (ctor = key)) as [->|Hne]; [right; exists (length (_defaultvalues c)); split; [done|]; by rewrite lookup_insert_eq|by rewrite !lookup_insert_ne].
      * intros k. rewrite lookup_insert_Some. intros [(_ & E)|(_ & E)]; [by apply field_not_method in E|by apply Hu].
Qed.

(** The bound may always be larger. *)
Lemma class_rel_mono : class_rel ctor (S n) c ac mm.
Proof using Hc Hn. destruct Hc. constructor; try done; lia. Qed.

Lemma new_method_rel key v t :
  is_null key = false → mm !! key = None →
  let x := _make_method_idx (length (_methods c)) in
  models t (<[key := x]> mm) → (_numofnodes t ≤ Z.max 4 (3 * Z.of_nat (size (<[key := x]> mm))))%Z → (size (<[key := x]> mm) ≤ S n)%nat →
  let c' := if bool_decide (ctor = key) then with_constructoridx (Z.of_nat (length (_methods c))) c else c in
  class_rel ctor (S n) (with_methods (_methods c ++ [mkMember v sq_null]) (with_members t c'))
    (mkA (a_line ac) (<[key := AMethod v sq_null]> (a_members ac)) (a_metas ac) (if bool_decide (ctor = key) then Some v else a_ctor ac) (a_locked ac)) (<[key := x]> mm).
Proof using Hc Hn.
  intros Hk Hno x Hm Hsmall Hsize c'. pose proof (cr_defaults _ _ _ _ _ Hc) as Hd. pose proof (cr_methods _ _ _ _ _ Hc) as Hms.
  assert (Z.of_nat (length (_methods c)) < 2 ^ 24)%Z as Hx by lia.
  assert (_base c' = _base c ∧ _defaultvalues c' = _defaultvalues c ∧ _metamethods c' = _metamethods c ∧ _locked c' = _locked c) as (Eb & Ed & Em & El)
    by (unfold c'; by destruct (bool_decide _)).
  destruct Hc as [_ _ _ _ _ Hb Hmt Hml Hl Hmem _ Hct]. constructor; simpl; rewrite ?Eb, ?Ed, ?Em, ?El; try done.
  - lia.
  - rewrite length_app. simpl. lia.
  - intros k. destruct (decide (k = key)) as [->|Hne].
    + rewrite !lookup_insert_eq. exists (length (_methods c)), (mkMember v sq_null). right. split_and!; [done| |done]. simpl. by apply list_lookup_middle.
    + rewrite !lookup_insert_ne by done. specialize (Hmem k). destruct (mm !! k) as [y|]; [|done]. destruct Hmem as (i & m & [Hy|(? & ? & ?)]); exists i, m; [left|right].
      * simpl. by rewrite Ed.
      * split_and!; [done| |done]. simpl. by apply lookup_app_l_Some.
  - apply insert_inj. intros k Hk'. apply lookup_method_bound in Hk'; [lia|done].
  - unfold c'. case_bool_decide as Ek.
    + right. exists (length (_methods c)), (mkMember v sq_null). subst key. split_and!; [done|by apply list_lookup_middle|done|left; by rewrite lookup_insert_eq|].
      intros k. rewrite lookup_insert_Some. intros [(<- & _)|(_ & E)]; [done|]. apply lookup_method_bound in E; [lia|done].
    + destruct Hct as [(E1 & E2 & Hct)|(i & m & E1 & E2 & E3 & Hct & Hu)]; [left|right; exists i, m]; rewrite lookup_insert_ne by done.
      * by split_and!.
      * split_and!; [done|by apply lookup_app_l_Some|done|done|]. intros k. rewrite lookup_insert_Some.
        assert (Z.of_nat i < 2 ^ 24)%Z as Hi by (apply lookup_lt_Some in E2; lia).
        intros [(_ & E)|(_ & E)]; [|by apply Hu]. apply (f_equal _member_idx) in E. unfold x in E. rewrite !member_idx_method in E by done. subst i.
        apply lookup_lt_Some in E2. lia.
Qed.

(** Changing a field, or a method, in its place. *)
Lemma change_field_rel key i m (f : SQClassMember → SQClassMember) :
  mm !! key = Some (_make_field_idx i) → _defaultvalues c !! i = Some m →
  class_rel ctor n (with_defaultvalues (<[i := f m]> (_defaultvalues c)) c)
    (mkA (a_line ac) (<[key := AField (val (f m)) (attrs (f m))]> (a_members ac)) (a_metas ac) (a_ctor ac) (a_locked ac)) mm.
Proof using Hc Hn.
  intros Hk Hi. assert (Z.of_nat i < 2 ^ 24)%Z as Hib by (pose proof (cr_defaults _ _ _ _ _ Hc); apply lookup_lt_Some in Hi; lia).
  pose proof (field_bound ctor n ltac:(lia) _ _ _ Hc) as Hfb.
  destruct Hc as [H1 H2 H3 H4 H5 Hb Hmt Hml Hl Hmem Hinj Hct]. constructor; simpl; try done; [by rewrite length_insert|].
  intros k. destruct (decide (k = key)) as [->|Hne].
  - rewrite lookup_insert_eq, Hk. exists i, (f m). left. split_and!; [done| |done]. simpl. apply list_lookup_insert_eq. by eapply lookup_lt_Some.
  - rewrite lookup_insert_ne by done. specialize (Hmem k). destruct (mm !! k) as [y|] eqn:Ey; [|done].
    destruct Hmem as (j & m' & [(-> & Hj & Ea)|Hy]); exists j, m'; [left|by right]. split_and!; [done| |done]. simpl.
    rewrite list_lookup_insert_ne; [done|]. intros ->. apply Hne. by eapply Hinj.
Qed.

Lemma change_method_rel key i m (f : SQClassMember → SQClassMember) :
  mm !! key = Some (_make_method_idx i) → _methods c !! i = Some m →
  class_rel ctor n (with_methods (<[i := f m]> (_methods c)) c)
    (mkA (a_line ac) (<[key := AMethod (val (f m)) (attrs (f m))]> (a_members ac)) (a_metas ac)
         (if bool_decide (ctor = key) then Some (val (f m)) else a_ctor ac) (a_locked ac)) mm.
Proof using Hc Hn.
  intros Hk Hi. assert (Z.of_nat i < 2 ^ 24)%Z as Hib by (pose proof (cr_methods _ _ _ _ _ Hc); apply lookup_lt_Some in Hi; lia).
  pose proof (method_bound ctor n ltac:(lia) _ _ _ Hc) as Hmb.
  destruct Hc as [H1 H2 H3 H4 H5 Hb Hmt Hml Hl Hmem Hinj Hct]. constructor; simpl; try done; [by rewrite length_insert| |].
  - intros k. destruct (decide (k = key)) as [->|Hne].
    + rewrite lookup_insert_eq, Hk. exists i, (f m). right. split_and!; [done| |done]. simpl. apply list_lookup_insert_eq. by eapply lookup_lt_Some.
    + rewrite lookup_insert_ne by done. specialize (Hmem k). destruct (mm !! k) as [y|] eqn:Ey; [|done].
      destruct Hmem as (j & m' & [Hy|(-> & Hj & Ea)]); exists j, m'; [by left|right]. split_and!; [done| |done]. simpl.
      rewrite list_lookup_insert_ne; [done|]. intros ->. apply Hne. by eapply Hinj.
  - destruct Hct as [(E1 & E2 & Hct)|(j & m' & E1 & E2 & E3 & Hct & Hu)].
    + left. rewrite bool_decide_eq_false_2; [by split_and!|]. intros ->. by apply (Hct i).
    + right. destruct (decide (j = i)) as [->|Hne].
      * exists i, (f m). pose proof (Hu key Hk) as ->. rewrite bool_decide_eq_true_2 by done. simpl.
        split_and!; [done| |done|done|done]. apply list_lookup_insert_eq. by eapply lookup_lt_Some.
      * exists j, m'. rewrite bool_decide_eq_false_2.
        -- simpl. split_and!; [done| |done|done|done]. by rewrite list_lookup_insert_ne.
        -- intros <-. assert (Z.of_nat j < 2 ^ 24)%Z as Hjb by by eapply Hmb. destruct Hct as [Hct|(j' & Hj' & Hct)]; rewrite Hct in Hk; apply (inj Some) in Hk as E.
           ++ apply (f_equal _member_idx) in E. by rewrite !member_idx_method in E.
           ++ by apply field_not_method in E.
Qed.
End changes.

(** ** Changes of the heap *)

Section heap_changes.
Context `{SQHeap} `{Allocator} (ctor : SQObject).

Lemma class_rel_le n n' c ac mm : (n ≤ n')%nat → class_rel ctor n c ac mm → class_rel ctor n' c ac mm.
Proof using Type. intros Hle []. constructor; try done; lia. Qed.

Lemma heap_rel_le n n' h A M : (n ≤ n')%nat → heap_rel ctor n h A M → heap_rel ctor n' h A M.
Proof using Type. intros Hle []. constructor; try done. intros a c ac Hc Ha. eapply class_rel_le; eauto. Qed.

Lemma set_class_rel n n' h A M a c ac c' ac' mm' :
  heap_rel ctor n h A M → (n ≤ n')%nat → classes h !! a = Some c → a_classes A !! a = Some ac →
  class_rel ctor n' c' ac' mm' → a_line ac' = a_line ac →
  (_locked c = true → _locked c' = true ∧ length (_defaultvalues c') = length (_defaultvalues c) ∧ ∀ vs k, field_of mm' vs k = field_of (M a) vs k) →
  heap_rel ctor n' (set_class a c' h) (a_set_class a ac' A) (λ b, if decide (b = a) then mm' else M b).
Proof using Type.
  intros Hrel Hle Hc Ha Hcr El Hlock. destruct Hrel as [Hcl Hd Hcs Hln Hid His]. constructor; simpl; try done.
  - rewrite !dom_insert_L. by rewrite Hd.
  - intros b cb acb. rewrite !lookup_insert_Some. intros [(<- & <-)|(Hb & H1)] [(Eb & <-)|(Hb' & H2)]; [by rewrite decide_True|done|done|].
    rewrite decide_False by done. eapply class_rel_le; eauto.
  - intros b acb Hb. assert (∃ acb', a_classes A !! b = Some acb' ∧ a_line acb = a_line acb') as (acb' & Hb' & Elb).
    { apply lookup_insert_Some in Hb as [(<- & <-)|(_ & Hb)]; eauto. }
    destruct (Hln b acb' Hb') as [Hnd Hbase]. unfold a_base in *. rewrite Elb. split; [done|]. destruct (head (tail (a_line acb'))) as [b0|]; [|done].
    destruct Hbase as (bc & Hbc & E). destruct (decide (b0 = a)) as [->|Hne].
    + rewrite lookup_insert_eq. exists ac'. split; [done|]. simplify_eq. congruence.
    + rewrite lookup_insert_ne by done. eauto.
  - intros i x y Hx Hy. destruct (His i x y Hx Hy) as (Ec & cx & Hcx & Hlx & Hlen & Hv). split; [done|].
    destruct (decide (_class x = a)) as [E|Hne].
    + rewrite E in *. simplify_eq. destruct (Hlock Hlx) as (? & ? & Hf). exists c'. rewrite lookup_insert_eq. split_and!; [done|done|congruence|].
      intros k. by rewrite Hv, Hf.
    + exists cx. by rewrite lookup_insert_ne.
Qed.

Lemma set_closure_rel n h A M r f : heap_rel ctor n h A M → heap_rel ctor n (set_closure r f h) (a_set_closure r f A) M.
Proof using Type. intros [Hcl Hd Hcs Hln Hid His]. constructor; simpl; try done. by rewrite Hcl. Qed.

(** A change of an instance. *)
Lemma set_instance_rel n h A M i x y c :
  heap_rel ctor n h A M → a_class y = _class x → classes h !! _class x = Some c → _locked c = true → length (_values x) = length (_defaultvalues c) →
  (∀ k, a_values y !! k = field_of (M (_class x)) (_values x) k) →
  heap_rel ctor n (set_instance i x h) (a_set_instance i y A) M.
Proof using Type.
  intros [Hcl Hd Hcs Hln Hid His] Ec Hc Hl Hlen Hv. constructor; simpl; try done.
  - rewrite !dom_insert_L. by rewrite Hid.
  - intros j x' y'. rewrite !lookup_insert_Some. intros [(<- & <-)|(Hj & H1)] [(Ej & <-)|(Hj' & H2)]; [|done|done|by apply (His j)]. eauto 10.
Qed.

Lemma add_class_rel n h A M a c ac mm :
  heap_rel ctor n h A M → classes h !! a = None → a_classes A !! a = None → class_rel ctor n c ac mm → NoDup (a_line ac) →
  match a_base ac with None => a_line ac = [a] | Some b => ∃ bc, a_classes A !! b = Some bc ∧ a_line ac = a :: a_line bc end →
  heap_rel ctor n (set_class a c h) (a_set_class a ac A) (λ b, if decide (b = a) then mm else M b).
Proof using Type.
  intros [Hcl Hd Hcs Hln Hid His] Hc Ha Hcr Hnd Hbase. constructor; simpl; try done.
  - rewrite !dom_insert_L. by rewrite Hd.
  - intros b cb acb. rewrite !lookup_insert_Some. intros [(<- & <-)|(Hb & H1)] [(Eb & <-)|(Hb' & H2)]; [by rewrite decide_True|done|done|].
    rewrite decide_False by done. eauto.
  - intros b acb Hb. assert (∀ b0 bc, a_classes A !! b0 = Some bc → <[a := ac]> (a_classes A) !! b0 = Some bc) as Hkeep.
    { intros b0 bc H1. rewrite lookup_insert_ne; [done|]. intros <-. by rewrite Ha in H1. }
    apply lookup_insert_Some in Hb as [(<- & <-)|(_ & Hb)].
    + split; [done|]. destruct (a_base ac); [|done]. destruct Hbase as (bc & ? & ?). eauto.
    + destruct (Hln b acb Hb) as [? Hb']. split; [done|]. destruct (a_base acb); [|done]. destruct Hb' as (bc & ? & ?). eauto.
  - intros i x y Hx Hy. destruct (His i x y Hx Hy) as (Ec & cx & Hcx & Hlx & Hlen & Hv). split; [done|]. exists cx.
    assert (_class x ≠ a) by (intros E; rewrite E, Hc in Hcx; done). rewrite lookup_insert_ne by done. by rewrite decide_False.
Qed.
End heap_changes.

(** ** The operations that change something *)

Section operations.
Context `{SQHeap} `{Allocator} (ss : class_names) (meta : SQObject → option nat) (n : nat) (Hn : (Z.of_nat (S n) < 2 ^ 24)%Z).
Context (Hmeta : ∀ k, GetMetaMethodIdxByName ss k = Ok (from_option Z.of_nat (-1) (meta k))) (Hlast : ∀ k i, meta k = Some i → (i < MT_LAST)%nat).
Abbreviation ctor := (constructor_name ss).
Context (h : class_heap) (A : aheap) (M : Z → gmap SQObject SQObject) (Hrel : heap_rel ctor n h A M).

(** The heaps stay related, with one more member at most. *)
Definition related (h' : class_heap) (A' : aheap) : Prop := ∃ M', heap_rel ctor (S n) h' A' M'.

Lemma related_same : related h A.
Proof using Hrel. exists M. eapply heap_rel_le; [apply Nat.le_succ_diag_r|done]. Qed.

Lemma new_class_ok base : match base with Some b => is_Some (a_classes A !! b) | None => True end →
  runs (SQClass.Create base) h (λ a h', a = (a_new_class base A).1 ∧ related h' (a_new_class base A).2).
Proof using Hrel Hn.
  intros Hb. destruct (new_address_fresh _ _ _ _ _ Hrel) as (Hf1 & Hf2 & _). unfold a_new_class, SQClass.Create, new_address.
  rewrite <- (rel_addresses _ _ _ _ _ Hrel). set (a := malloc (addresses h)) in *. apply runs_bind, runs_bind, runs_gets, runs_ret. fold a. apply runs_bind.
  enough (runs (match base with
    | None => t ← lift (SqTable.Create 0); mret (mkClass t None [] [] (replicate MT_LAST sq_null) sq_null false (-1) 0)
    | Some b => cb ← the_class b; t ← lift (SqTable.Clone (_members cb));
        mret (mkClass t (Some b) (_defaultvalues cb) (_methods cb) (_metamethods cb) sq_null false (_constructoridx cb) (_udsize cb))
    end) h (λ c h', h' = h ∧ related (set_class a c h) (a_new_class base A).2)) as Hr.
  { eapply runs_mono; [exact Hr|]. intros c h' (-> & HR). apply runs_bind, runs_modify, runs_ret. split; [done|].
    unfold a_new_class in HR. by rewrite <- (rel_addresses _ _ _ _ _ Hrel) in HR. }
  unfold a_new_class. rewrite <- (rel_addresses _ _ _ _ _ Hrel). fold a. destruct base as [b|]; simpl.
  - destruct Hb as [bc Hbc]. rewrite Hbc. destruct (rel_class _ _ _ _ _ Hrel b bc Hbc) as (cb & Hcb & Hcr). destruct (hr_line _ _ _ _ _ Hrel b bc Hbc) as [Hnd Hl].
    assert (head (a_line bc) = Some b) as Hh by (destruct (a_base bc); [destruct Hl as (? & _ & ->)|rewrite Hl]; done).
    apply runs_bind. eapply runs_the_class; [done|]. pose proof (cr_small _ _ _ _ _ Hcr) as Hsm. pose proof (cr_size _ _ _ _ _ Hcr) as Hsz.
    destruct (Clone_models (_members cb) (M b)) as (t & Et & Hm & _ & Hnum); [apply Hcr|lia|].
    apply runs_bind. eapply runs_lift; [exact Et|]. apply runs_ret. split; [done|]. eexists. apply add_class_rel; [eapply heap_rel_le; [|done]; lia|done|done| | |].
    + instantiate (1 := M b). destruct Hcr as [? ? ? ? ? Hb Hmt Hml Hl' Hmem Hinj Hct]. constructor; simpl; done || lia.
    + simpl. apply NoDup_cons. split; [|done]. intros Hin. destruct (line_in_dom _ _ _ _ _ Hrel b bc Hbc a Hin) as [? Hin']. by rewrite Hf2 in Hin'.
    + unfold a_base. simpl. rewrite Hh. eauto.
  - destruct (Create_models 0) as (t & Et & Hm & _ & _ & Hnum); [done|]. apply runs_bind. eapply runs_lift; [exact Et|]. apply runs_ret. split; [done|].
    eexists. apply add_class_rel; [eapply heap_rel_le; [|done]; lia|done|done| |apply NoDup_singleton|done].
    instantiate (1 := ∅). constructor; simpl; try done; try lia; [by rewrite map_size_empty; lia|]. left. split_and!; [done|done|]. intros i _. by rewrite lookup_empty.
Qed.

Lemma put_at_ok {B} (l : list B) i x (f : B → B) : l !! i = Some x → put_at l i f = Ok (<[i := f x]> l).
Proof using Type. intros Hx. unfold put_at, at_. by rewrite Hx. Qed.

(** A change of a class that leaves its instances alone. *)
Lemma change_related h1 A1 a c ac c' ac' mm' :
  heap_rel ctor n h1 A1 M → classes h1 !! a = Some c → a_classes A1 !! a = Some ac →
  class_rel ctor (S n) c' ac' mm' → a_line ac' = a_line ac → _locked c' = _locked c →
  (_locked c = true → length (_defaultvalues c') = length (_defaultvalues c) ∧ ∀ vs k, field_of mm' vs k = field_of (M a) vs k) →
  related (set_class a c' h1) (a_set_class a ac' A1).
Proof using Type.
  intros H1 Hc Ha Hcr El Elk Hlock. eexists. eapply set_class_rel; [exact H1|apply Nat.le_succ_diag_r|done..|]. intros Hl. destruct (Hlock Hl). split_and!; congruence || done.
Qed.

Lemma set_attributes_ok a key v : is_Some (a_classes A !! a) →
  runs (SQClass.SetAttributes a key v) h (λ b h', b = (a_set_attributes a key v A).1 ∧ related h' (a_set_attributes a key v A).2).
Proof using Hrel Hn.
  intros [ac Ha]. destruct (rel_class _ _ _ _ _ Hrel a ac Ha) as (c & Hc & Hcr). unfold a_set_attributes. rewrite Ha.
  apply runs_bind. eapply runs_the_class; [done|]. apply runs_bind. eapply runs_lift; [by apply (table_get _ _ _ _ _ Hcr)|].
  pose proof (get_member ctor n ltac:(lia) _ _ _ Hcr key) as Hk. destruct (M a !! key) as [x|] eqn:Hx.
  - apply runs_bind. destruct (_isfield x); destruct Hk as (m & Hm & Ex & ->); rewrite Ex in Hx; apply runs_bind; (eapply runs_lift; [by apply put_at_ok|]);
      apply runs_modify, runs_ret; (split; [done|]).
    + eapply change_related; [done..| |done|done|intros _; simpl; by rewrite length_insert].
      eapply class_rel_le; [apply Nat.le_succ_diag_r|]. apply (change_field_rel ctor n Hn c ac _ Hcr key _ m (set_attrs v) Hx Hm).
    + eapply change_related; [done..| |done|done|done].
      eapply class_rel_le; [apply Nat.le_succ_diag_r|]. pose proof (change_method_rel ctor n Hn c ac _ Hcr key _ m (set_attrs v) Hx Hm) as Hch.
      simpl in *. destruct (bool_decide_reflect (ctor = key)) as [E|]; [|done].
      assert (a_ctor ac = Some (val m)) as Ect; [|by rewrite Ect].
      pose proof (method_bound ctor n ltac:(lia) _ _ _ Hcr _ _ Hm) as Hb. rewrite <- E in Hx.
      destruct (cr_ctor _ _ _ _ _ Hcr) as [(_ & _ & Hno)|(j & m' & _ & Hj & -> & [Hct|(j' & Hj' & Hct)] & _)]; [by apply Hno in Hx| |].
      * pose proof (method_bound ctor n ltac:(lia) _ _ _ Hcr _ _ Hj) as Hjb. rewrite Hct in Hx. apply (inj Some) in Hx. apply (f_equal _member_idx) in Hx.
        rewrite !member_idx_method in Hx by done. congruence.
      * rewrite Hct in Hx. apply (inj Some) in Hx. by apply field_not_method in Hx.
  - rewrite Hk. apply runs_ret. split; [done|apply related_same].
Qed.

Lemma new_field_ok a c ac key v :
  classes h !! a = Some c → a_classes A !! a = Some ac → is_null key = false → _locked c = false → (∀ x, M a !! key = Some x → _isfield x = false) →
  runs (SQClass.NewField a c key v) h (λ _ h', related h'
    (a_set_class a (mkA (a_line ac) (<[key := AField v sq_null]> (a_members ac)) (a_metas ac) (a_ctor ac) (a_locked ac)) A)).
Proof using Hrel Hn.
  intros Hc Ha Hk Hl Hx. pose proof (hr_class _ _ _ _ _ Hrel a c ac Hc Ha) as Hcr.
  destruct (members_grow ctor n Hn c ac _ Hcr key (_make_field_idx (length (_defaultvalues c))) Hk) as (t & b & E & Hm & Hs1 & Hs2).
  apply runs_bind. eapply runs_lift; [exact E|]. apply runs_modify. eapply change_related; [done..| |done|done|by rewrite Hl].
  by apply (new_field_rel ctor n Hn c ac _ Hcr).
Qed.

(** The closure of a method. *)
Lemma bind_base_ok a c ac v :
  classes h !! a = Some c → a_classes A !! a = Some ac → (_type v = OT_CLOSURE → is_Some (a_closures A !! _unVal v)) →
  runs (SQClass.bind_base c v) h (λ w h', w = (a_bind_base ac v A).1 ∧ heap_rel ctor n h' (a_bind_base ac v A).2 M ∧
    classes h' = classes h ∧ a_classes (a_bind_base ac v A).2 = a_classes A).
Proof using Hrel.
  intros Hc Ha Hv. pose proof (hr_class _ _ _ _ _ Hrel a c ac Hc Ha) as Hcr. unfold SQClass.bind_base, a_bind_base. rewrite (cr_base _ _ _ _ _ Hcr).
  destruct (a_base ac) as [b|]; [|by apply runs_ret]. case_bool_decide as Et; [|by destruct (a_closures A !! _); apply runs_ret].
  destruct (Hv Et) as [f Hf]. rewrite Hf. unfold clone_closure, new_address. rewrite <- (rel_addresses _ _ _ _ _ Hrel). set (r := malloc (addresses h)).
  apply runs_bind, runs_bind. eapply runs_the_closure; [by rewrite (hr_closures _ _ _ _ _ Hrel)|].
  apply runs_bind, runs_bind, runs_gets, runs_ret. fold r. apply runs_bind, runs_modify, runs_ret. apply runs_bind. unfold set_closure_base.
  apply runs_bind. eapply runs_the_closure; [apply lookup_insert_eq|]. apply runs_modify, runs_ret. split; [done|]. split; [|done].
  pose proof (set_closure_rel ctor n h A M r (mkClosure (_function f) (_env f) (_root f) (_outervalues f) (_defaultparams f) (Some b)) Hrel) as HR.
  unfold set_closure in *. simpl in *. by rewrite insert_insert_eq.
Qed.

Lemma field_of_insert_method mm key i vs k : (Z.of_nat i < 2 ^ 24)%Z → mm !! key = None → field_of (<[key := _make_method_idx i]> mm) vs k = field_of mm vs k.
Proof using Type.
  intros Hi Hk. unfold field_of. destruct (decide (k = key)) as [->|]; [|by rewrite lookup_insert_ne]. rewrite lookup_insert_eq, Hk. simpl. by rewrite isfield_method.
Qed.

Lemma new_method_ok a c ac key v (temp : option SQObject) :
  classes h !! a = Some c → a_classes A !! a = Some ac → is_null key = false → (_type v = OT_CLOSURE → is_Some (a_closures A !! _unVal v)) →
  M a !! key = temp → match temp with Some x => _isfield x = false | None => True end →
  runs (theval ← SQClass.bind_base c v;
        match temp with
        | None =>
            let c := if bool_decide (ctor = key) then with_constructoridx (Z.of_nat (length (_methods c))) c else c in
            r ← lift (SqTable.NewSlot table_fuel (_members c) key (_make_method_idx (length (_methods c))));
            modify (set_class a (with_methods (_methods c ++ [mkMember theval sq_null]) (with_members r.1 c)))
        | Some temp =>
            ms ← lift (put_at (_methods c) (_member_idx temp) (set_val theval));
            modify (set_class a (with_methods ms c))
        end) h (λ _ h', related h' (a_new_method ctor a ac key v A)).
Proof using Hrel Hn.
  intros Hc Ha Hk Hv Ht Hf. pose proof (hr_class _ _ _ _ _ Hrel a c ac Hc Ha) as Hcr. unfold a_new_method. apply runs_bind.
  eapply runs_mono; [by apply (bind_base_ok a c ac v)|]. intros w h1 (Ew & HR & Eh & EA). destruct (a_bind_base ac v A) as [w' A1]. simpl in *. subst w'.
  rewrite <- Eh in Hc. rewrite <- EA in Ha. pose proof (get_member ctor n ltac:(lia) _ _ _ Hcr key) as Hg. rewrite Ht in Hg. destruct temp as [x|].
  - rewrite Hf in Hg. destruct Hg as (m & Hm & Ex & ->). rewrite Ex in Ht. apply runs_bind. eapply runs_lift; [by apply put_at_ok|]. apply runs_modify.
    eapply change_related; [done..| |done|done|done]. eapply class_rel_le; [apply Nat.le_succ_diag_r|].
    apply (change_method_rel ctor n Hn c ac _ Hcr key _ m (set_val w) Ht Hm).
  - rewrite Hg. destruct (members_grow ctor n Hn c ac _ Hcr key (_make_method_idx (length (_methods c))) Hk) as (t & b & E & Hm & Hs1 & Hs2).
    set (c' := if bool_decide _ then _ else c).
    assert (_members c' = _members c ∧ _methods c' = _methods c ∧ _locked c' = _locked c ∧ _defaultvalues c' = _defaultvalues c) as (E1 & E2 & E3 & E4)
      by (unfold c'; by destruct (bool_decide _)).
    rewrite E1, E2. apply runs_bind. eapply runs_lift; [exact E|]. apply runs_modify.
    eapply change_related; [done..| |done|done|]; [by apply (new_method_rel ctor n Hn c ac _ Hcr)|]. intros _. simpl. rewrite E4. split; [done|].
    intros vs k. apply field_of_insert_method; [|done]. pose proof (cr_methods _ _ _ _ _ Hcr). lia.
Qed.

Lemma new_static_ok a c ac key v temp :
  classes h !! a = Some c → a_classes A !! a = Some ac → is_null key = false → (_type v = OT_CLOSURE → is_Some (a_closures A !! _unVal v)) →
  M a !! key = temp → match temp with Some x => _isfield x = false | None => True end →
  runs (SQClass.NewStatic ss a c temp key v) h (λ _ h', related h'
    match (if SQClass.is_function v then meta key else None) with
    | Some mm => a_set_class a (mkA (a_line ac) (a_members ac) (<[mm := v]> (a_metas ac)) (a_ctor ac) (a_locked ac)) A
    | None => a_new_method ctor a ac key v A
    end).
Proof using Hrel Hn Hmeta Hlast.
  intros Hc Ha Hk Hv Ht Hf. pose proof (hr_class _ _ _ _ _ Hrel a c ac Hc Ha) as Hcr. unfold SQClass.NewStatic.
  apply runs_bind. apply (runs_mono _ _ (λ r h', h' = h ∧ r = from_option Z.of_nat (-1) (if SQClass.is_function v then meta key else None))).
  { destruct (SQClass.is_function v); [|by apply runs_ret]. eapply runs_lift; [apply Hmeta|]. done. }
  intros r h' (-> & ->). destruct (if SQClass.is_function v then meta key else None) as [mm|] eqn:Em; simpl; [|by apply new_method_ok].
  assert (mm < MT_LAST)%nat as Hmm by (destruct (SQClass.is_function v); [by eapply Hlast|done]). rewrite (proj2 (Z.eqb_neq _ _)) by lia. simpl. rewrite Nat2Z.id.
  destruct (lookup_lt_is_Some_2 (_metamethods c) mm) as [o Ho]; [by rewrite (cr_metas _ _ _ _ _ Hcr), (cr_metas_len _ _ _ _ _ Hcr)|].
  apply runs_bind. eapply runs_lift; [by apply put_at_ok|]. apply runs_modify. eapply change_related; [done..| |done|done|done].
  eapply class_rel_le; [apply Nat.le_succ_diag_r|]. destruct Hcr as [? ? ? ? ? Hb Hmt Hml Hl' Hmem Hinj Hct]. constructor; simpl; try done; [congruence|by rewrite length_insert].
Qed.

Lemma new_slot_ok a key v bstatic :
  is_Some (a_classes A !! a) → is_null key = false → (_type v = OT_CLOSURE → is_Some (a_closures A !! _unVal v)) →
  runs (SQClass.NewSlot ss a key v bstatic) h (λ b h', b = (a_new_slot meta ctor a key v bstatic A).1 ∧ related h' (a_new_slot meta ctor a key v bstatic A).2).
Proof using Hrel Hn Hmeta Hlast.
  intros [ac Ha] Hk Hv. destruct (rel_class _ _ _ _ _ Hrel a ac Ha) as (c & Hc & Hcr). unfold a_new_slot. rewrite Ha.
  apply runs_bind. eapply runs_the_class; [done|]. rewrite (cr_locked _ _ _ _ _ Hcr). set (static := SQClass.is_function v || bstatic).
  cbv zeta. fold static. destruct (a_locked ac && negb static) eqn:El; [apply runs_ret; split; [done|apply related_same]|].
  apply runs_bind. eapply runs_lift; [by apply (table_get _ _ _ _ _ Hcr)|]. apply runs_bind. pose proof (get_member ctor n ltac:(lia) _ _ _ Hcr key) as Hg.
  assert (static = false → _locked c = false) as Hl by (rewrite (cr_locked _ _ _ _ _ Hcr); intros ->; by rewrite andb_true_r in El).
  destruct (M a !! key) as [x|] eqn:Hx; [destruct (_isfield x) eqn:Hf|].
  - destruct Hg as (m & Hm & Ex & ->). rewrite Ex in Hx. apply runs_bind. eapply runs_lift; [by apply put_at_ok|]. apply runs_modify, runs_ret. split; [done|].
    eapply change_related; [done..| |done|done|intros _; simpl; by rewrite length_insert].
    eapply class_rel_le; [apply Nat.le_succ_diag_r|]. apply (change_field_rel ctor n Hn c ac _ Hcr key _ m (set_val v) Hx Hm).
  - destruct Hg as (m & _ & _ & ->). destruct static.
    + eapply runs_mono; [by apply (new_static_ok a c ac key v (Some x))|]. intros [] h' HR. by apply runs_ret.
    + eapply runs_mono; [apply (new_field_ok a c ac key v Hc Ha Hk (Hl eq_refl)); rewrite Hx; by intros ? [= <-]|]. intros [] h' HR. by apply runs_ret.
  - rewrite Hg. destruct static.
    + eapply runs_mono; [by apply (new_static_ok a c ac key v None)|]. intros [] h' HR. by apply runs_ret.
    + eapply runs_mono; [apply (new_field_ok a c ac key v Hc Ha Hk (Hl eq_refl)); by rewrite Hx|]. intros [] h' HR. by apply runs_ret.
Qed.

(** *** Instances *)

Lemma instance_set_ok i key v : is_Some (a_instances A !! i) →
  runs (SQInstance.Set_ i key v) h (λ b h', b = (a_set i key v A).1 ∧ related h' (a_set i key v A).2).
Proof using Hrel Hn.
  intros [y Hy]. destruct (rel_instance _ _ _ _ _ Hrel i y Hy) as (x & c & ac & Hx & Ec & Hc & Ha & Hcr & Hl & Hlen & Hv).
  unfold a_set. rewrite Hy. apply runs_bind. eapply runs_the_instance; [done|]. apply runs_bind. eapply runs_the_class; [done|].
  apply runs_bind. eapply runs_lift; [by apply (table_get _ _ _ _ _ Hcr)|]. pose proof (Hv key) as Hvk. unfold field_of in Hvk.
  pose proof (get_member ctor n ltac:(lia) _ _ _ Hcr key) as Hk. destruct (M (_class x) !! key) as [o|] eqn:Ho; simpl in Hvk;
    [|rewrite decide_False by (rewrite Hvk; by intros []); apply runs_ret; split; [done|apply related_same]].
  destruct (_isfield o) eqn:Hf; [|rewrite decide_False by (rewrite Hvk; by intros []); apply runs_ret; split; [done|apply related_same]].
  destruct Hk as (m & Hm & Eo & _). destruct (lookup_lt_is_Some_2 (_values x) (_member_idx o)) as [v0 Ev]; [rewrite Hlen; by eapply lookup_lt_Some|].
  rewrite decide_True by (rewrite Hvk, Ev; eauto). apply runs_bind. eapply runs_lift; [by apply put_at_ok|]. apply runs_bind, runs_modify, runs_ret. split; [done|].
  exists M. eapply heap_rel_le; [apply Nat.le_succ_diag_r|]. eapply set_instance_rel; [done|done|exact Hc|done|simpl; by rewrite length_insert|].
  intros k. simpl. unfold field_of. destruct (decide (k = key)) as [->|Hne].
  - rewrite lookup_insert_eq, Ho. simpl. rewrite Hf. symmetry. apply list_lookup_insert_eq. by eapply lookup_lt_Some.
  - rewrite lookup_insert_ne, Hv by done. unfold field_of. pose proof (get_member ctor n ltac:(lia) _ _ _ Hcr k) as Hk.
    destruct (M (_class x) !! k) as [o'|] eqn:Ho'; [|done]. simpl. destruct (_isfield o'); [|done]. destruct Hk as (_ & _ & Eo' & _).
    rewrite list_lookup_insert_ne; [done|]. intros E. apply Hne. eapply (cr_inj _ _ _ _ _ Hcr); [exact Ho'|]. rewrite Ho. f_equal. congruence.
Qed.

Lemma instance_clone_ok i : is_Some (a_instances A !! i) →
  runs (SQInstance.Clone i) h (λ r h', r = malloc (a_addresses A) ∧
    related h' (match a_instances A !! i with Some x => a_set_instance (malloc (a_addresses A)) x A | None => A end)).
Proof using Hrel.
  intros [y Hy]. destruct (rel_instance _ _ _ _ _ Hrel i y Hy) as (x & c & ac & Hx & Ec & Hc & Ha & Hcr & Hl & Hlen & Hv).
  rewrite Hy, <- (rel_addresses _ _ _ _ _ Hrel). apply runs_bind. unfold new_address. apply runs_bind, runs_gets, runs_ret.
  apply runs_bind. eapply runs_the_instance; [done|]. apply runs_bind. eapply runs_the_class; [done|]. apply runs_bind.
  eapply runs_lift; [by rewrite decide_True by by rewrite Hlen|]. apply runs_bind, runs_modify, runs_ret. split; [done|].
  exists M. eapply heap_rel_le; [apply Nat.le_succ_diag_r|]. rewrite <- Hlen, firstn_all.
  eapply set_instance_rel; [done|done|exact Hc|done|done|done].
Qed.

Lemma lookup_lock_line line m b : a_lock_line line m !! b = (if decide (b ∈ line) then a_lock else id) <$> m !! b.
Proof using Type.
  unfold a_lock_line. revert m. induction line as [|x line IH]; intros m; simpl; [by rewrite option_fmap_id|].
  rewrite IH. destruct (decide (b = x)) as [->|Hne].
  - rewrite lookup_alter_eq. rewrite (decide_True (P := x ∈ x :: line)) by left. destruct (m !! x); [|by destruct (decide _)]. by destruct (decide _).
  - rewrite lookup_alter_ne by done. destruct (decide (b ∈ line)).
    + by rewrite decide_True by by right.
    + rewrite decide_False; [done|]. by rewrite not_elem_of_cons.
Qed.
End operations.

Lemma alter_insert_map (m : gmap Z aclass) a c (f : aclass → aclass) : m !! a = Some c → alter f a m = <[a := f c]> m.
Proof.
  intros Hc. apply map_eq. intros b. destruct (decide (b = a)) as [->|Hne]; [by rewrite lookup_alter_eq, lookup_insert_eq, Hc|by rewrite lookup_alter_ne, lookup_insert_ne].
Qed.

Lemma lock_loop_ok `{SQHeap} `{Allocator} ctor n fuel a : ∀ h A M ac,
  heap_rel ctor n h A M → a_classes A !! a = Some ac → (length (a_line ac) ≤ fuel)%nat →
  runs (SQClass.lock_loop fuel a) h (λ _ h', addresses h' = addresses h ∧
    ∃ M', heap_rel ctor n h' (mkAH (a_lock_line (a_line ac) (a_classes A)) (a_instances A) (a_closures A)) M').
Proof.
  revert a. induction fuel as [|fuel IH]; intros a h A M ac Hrel Ha Hlen; destruct (hr_line _ _ _ _ _ Hrel a ac Ha) as [Hnd Hl].
  { destruct (a_base ac); [destruct Hl as (bc & _ & El); rewrite El in Hlen|rewrite Hl in Hlen]; simpl in Hlen; lia. }
  destruct (rel_class _ _ _ _ _ Hrel a ac Ha) as (c & Hc & Hcr). cbn [SQClass.lock_loop]. apply runs_bind. eapply runs_the_class; [done|]. apply runs_bind, runs_modify.
  assert (heap_rel ctor n (set_class a (with_locked true c) h) (a_set_class a (a_lock ac) A) (λ b, if decide (b = a) then M a else M b)) as Hrel1.
  { eapply set_class_rel; [done|done|done|done| |done|done]. destruct Hcr as [? ? ? ? ? Hb Hmt Hml Hl' Hmem Hinj Hct]. by constructor. }
  assert (addresses (set_class a (with_locked true c) h) = addresses h) as Ead.
  { unfold addresses. simpl. rewrite dom_insert_lookup_L by eauto. done. }
  rewrite (cr_base _ _ _ _ _ Hcr). destruct (a_base ac) as [b|].
  - destruct Hl as (bc & Hbc & El). rewrite El in Hnd. apply NoDup_cons in Hnd as [Hnot _].
    destruct (hr_line _ _ _ _ _ Hrel b bc Hbc) as [_ Hlb].
    assert (b ≠ a) as Hne by (intros ->; destruct (a_base bc); [destruct Hlb as (? & _ & Elb)|rename Hlb into Elb]; rewrite Elb in Hnot; by destruct Hnot; left).
    eapply runs_mono; [eapply (IH b); [exact Hrel1|simpl; by rewrite lookup_insert_ne|rewrite El in Hlen; simpl in Hlen; lia]|].
    intros [] h' (Ea' & M' & HR). split; [congruence|]. exists M'. rewrite El. unfold a_lock_line. simpl. by rewrite (alter_insert_map _ _ _ _ Ha).
  - rewrite Hl. apply runs_ret. split; [done|]. eexists. unfold a_lock_line. simpl. rewrite (alter_insert_map _ _ _ _ Ha). exact Hrel1.
Qed.

Section creation.
Context `{SQHeap} `{Allocator} (ss : class_names) (n : nat) (Hn : (Z.of_nat (S n) < 2 ^ 24)%Z).
Abbreviation ctor := (constructor_name ss).

Lemma fields_of_members c ac mm k : class_rel ctor n c ac mm → omap a_field (a_members ac) !! k = field_of mm (val <$> _defaultvalues c) k.
Proof using Hn.
  intros Hcr. rewrite lookup_omap. unfold field_of. pose proof (get_member ctor n ltac:(lia) _ _ _ Hcr k) as Hk. destruct (mm !! k) as [x|]; [|by rewrite Hk].
  simpl. destruct (_isfield x); destruct Hk as (m & Hm & _ & ->); [|done]. by rewrite list_lookup_fmap, Hm.
Qed.

(** An instance of a class that is locked. *)
Lemma instance_create_ok h A M a ac : heap_rel ctor n h A M → a_classes A !! a = Some ac → a_locked ac = true →
  runs (SQInstance.Create a) h (λ i h', i = malloc (addresses h) ∧
    related ss n h' (a_set_instance (malloc (addresses h)) (mkAI a (omap a_field (a_members ac))) A)).
Proof using Hn.
  intros Hrel Ha Hl. destruct (rel_class _ _ _ _ _ Hrel a ac Ha) as (c & Hc & Hcr). unfold SQInstance.Create, new_address.
  apply runs_bind, runs_bind, runs_gets, runs_ret. apply runs_bind. eapply runs_the_class; [done|]. apply runs_bind, runs_modify, runs_ret. split; [done|].
  exists M. eapply heap_rel_le; [apply Nat.le_succ_diag_r|]. eapply set_instance_rel; [done|done|exact Hc| |simpl; by rewrite length_fmap|].
  - by rewrite (cr_locked _ _ _ _ _ Hcr).
  - intros k. simpl. by apply fields_of_members.
Qed.

Lemma new_instance_ok h A M a : heap_rel ctor n h A M → is_Some (a_classes A !! a) →
  runs (CreateInstance a) h (λ i h', i = (a_new_instance a A).1 ∧ related ss n h' (a_new_instance a A).2).
Proof using Hn.
  intros Hrel [ac Ha]. destruct (rel_class _ _ _ _ _ Hrel a ac Ha) as (c & Hc & Hcr). unfold a_new_instance. rewrite Ha, <- (rel_addresses _ _ _ _ _ Hrel). simpl.
  unfold CreateInstance. apply runs_bind. eapply runs_the_class; [done|]. rewrite (cr_locked _ _ _ _ _ Hcr). apply runs_bind. destruct (a_locked ac) eqn:El; simpl.
  - apply runs_ret. rewrite Ha. simpl. by apply (instance_create_ok h A M).
  - unfold SQClass.Lock. apply runs_bind, runs_gets. eapply runs_mono; [eapply lock_loop_ok; [done|done|by eapply line_length]|].
    intros [] h' (Ead & M' & HR). assert (a_lock_line (a_line ac) (a_classes A) !! a = Some (a_lock ac)) as Hla.
    { rewrite lookup_lock_line, Ha, decide_True; [done|]. destruct (hr_line _ _ _ _ _ Hrel a ac Ha) as [_ Hl]. destruct (a_base ac); [destruct Hl as (? & _ & ->)|rewrite Hl]; left. }
    rewrite Hla. simpl. rewrite <- Ead. eapply (instance_create_ok h' _ M' a (a_lock ac)); [exact HR|done|done].
Qed.
End creation.

(** ** Sequences of operations *)

(** The number of a metamethod is its place in the list of names. *)
Definition meta_of (names : list SQObject) (k : SQObject) : option nat := fst <$> list_find (λ x, x = k) names.

Lemma meta_of_snoc names x k : x ∉ names → meta_of (names ++ [x]) k = if decide (k = x) then Some (length names) else meta_of names k.
Proof.
  intros Hx. unfold meta_of. destruct (decide (k = x)) as [->|Hne].
  - rewrite list_find_app_r by (apply list_find_None, Forall_forall; by intros y Hy ->). simpl. rewrite decide_True by done. done.
  - destruct (list_find (λ y, y = k) names) as [[i y]|] eqn:E; [by rewrite (list_find_app_l _ _ _ _ _ E)|].
    rewrite list_find_app_r by done. simpl. by rewrite decide_False by congruence.
Qed.

Section init.
Context `{SQHeap}.

Lemma newmetamethods_ok todo : ∀ dn t m,
  models t m → NoDup (dn ++ todo) → Forall (λ o, is_null o = false) todo → (∀ k, m !! k = sq_int ∘ Z.of_nat <$> meta_of dn k) →
  ∃ t' m', fold_res newmetamethod todo (t, Z.of_nat (length dn)) = Ok (t', Z.of_nat (length (dn ++ todo))) ∧ models t' m' ∧
    ∀ k, m' !! k = sq_int ∘ Z.of_nat <$> meta_of (dn ++ todo) k.
Proof using Type.
  induction todo as [|x todo IH]; intros dn t m Hm Hnd Hnull Hk.
  { rewrite app_nil_r. exists t, m. done. }
  apply Forall_cons in Hnull as [Hx Hnull]. destruct (NewSlot_models 0 t m x (sq_int (Z.of_nat (length dn))) Hm Hx) as (t1 & b & E & Hm1 & _).
  assert (x ∉ dn) as Hfresh by (apply NoDup_app in Hnd as (_ & Hd & _); intros Hin; by apply (Hd x Hin); left).
  replace (dn ++ x :: todo) with ((dn ++ [x]) ++ todo) in * by by rewrite <- app_assoc.
  simpl. unfold newmetamethod at 1. unfold table_fuel. cbn [fst snd]. rewrite E. cbn [mbind res_bind].
  replace (Z.of_nat (length dn) + 1) with (Z.of_nat (length (dn ++ [x]))) by (rewrite length_app; simpl; lia).
  apply (IH _ t1 _ Hm1 Hnd Hnull). intros k. rewrite meta_of_snoc by done. destruct (decide (k = x)) as [->|]; [by rewrite lookup_insert_eq|].
  by rewrite lookup_insert_ne, Hk.
Qed.

Lemma metamethods_init_ok names constructor :
  NoDup names → (length names = MT_LAST)%nat → Forall (λ o, _type o = OT_STRING) names →
  ∃ t, metamethods_init names = Ok t ∧
    (∀ k, GetMetaMethodIdxByName (mkNames t constructor) k = Ok (from_option Z.of_nat (-1) (meta_of names k))) ∧
    ∀ k i, meta_of names k = Some i → (i < MT_LAST)%nat.
Proof using Type.
  intros Hnd Hlen Hstr. assert (∀ k i, meta_of names k = Some i → (i < MT_LAST)%nat ∧ _type k = OT_STRING) as Hin.
  { unfold meta_of. intros k i Hi. destruct (list_find _ names) as [[j y]|] eqn:E; [|done]. simplify_eq/=. apply list_find_Some in E as (E & -> & _).
    split; [rewrite <- Hlen; by eapply lookup_lt_Some|]. by apply (Forall_lookup_1 _ _ _ _ Hstr E). }
  unfold metamethods_init. destruct (Create_models (Z.of_nat MT_LAST - 1)) as (t0 & -> & Hm0 & _); [done|]. cbn [mbind res_bind].
  destruct (newmetamethods_ok names [] t0 ∅ Hm0 Hnd) as (t & m & E & Hm & Hk); [|done|].
  { eapply Forall_impl; [exact Hstr|]. intros o Ho. unfold is_null. rewrite bool_decide_eq_false. congruence. }
  change (Z.of_nat (length [])) with 0%Z in E. rewrite E. cbn [mbind res_bind]. exists t. split; [done|]. split; [|intros k i Hi; by apply (Hin k i)]. intros k. unfold GetMetaMethodIdxByName. simpl.
  rewrite (Get_models _ m), Hk by done. simpl. destruct (meta_of names k) as [i|] eqn:Ei; simpl; [|by case_bool_decide].
  destruct (Hin k i Ei) as [Hi Ht]. rewrite bool_decide_eq_true_2 by done. f_equal. unfold _realval. simpl.
  unfold _integer. simpl. unfold MT_LAST in Hi. rewrite u32_small by lia. apply s32_small. lia.
Qed.
End init.

Section traces.
Context `{SQHeap} `{Allocator}.

Fixpoint class_runs (ss : class_names) (ops : list class_op) : stM class_heap (list class_answer) :=
  match ops with
  | [] => mret []
  | op :: ops' => r ← class_run ss op; rs ← class_runs ss ops'; mret (r :: rs)
  end.

Fixpoint class_specs (meta : SQObject → option nat) (constructor : SQObject) (ops : list class_op) (A : aheap) : list class_answer :=
  match ops with
  | [] => []
  | op :: ops' => let '(r, A) := class_spec meta constructor op A in r :: class_specs meta constructor ops' A
  end.

Fixpoint class_ops_ok (meta : SQObject → option nat) (constructor : SQObject) (ops : list class_op) (A : aheap) : bool :=
  match ops with
  | [] => true
  | op :: ops' => class_op_ok op A && class_ops_ok meta constructor ops' (class_spec meta constructor op A).2
  end.

Context (ss : class_names) (meta : SQObject → option nat).
Context (Hmeta : ∀ k, GetMetaMethodIdxByName ss k = Ok (from_option Z.of_nat (-1) (meta k))) (Hlast : ∀ k i, meta k = Some i → (i < MT_LAST)%nat).
Abbreviation ctor := (constructor_name ss).

Lemma class_run_ok n h A M op : (Z.of_nat (S n) < 2 ^ 24)%Z → heap_rel ctor n h A M → class_op_ok op A = true →
  runs (class_run ss op) h (λ r h', r = (class_spec meta ctor op A).1 ∧ related ss n h' (class_spec meta ctor op A).2).
Proof using Hmeta Hlast.
  intros Hn Hrel Hop. assert (Z.of_nat n < 2 ^ 24)%Z as Hn' by lia.
  assert (∀ {B} (m : stM class_heap B) (w : B → class_answer) (P : B → class_heap → Prop) (Q : class_answer → class_heap → Prop),
    runs m h P → (∀ b h', P b h' → Q (w b) h') → runs (b ← m; mret (w b)) h Q) as Hret.
  { intros B m w P Q Hm HPQ. apply runs_bind. eapply runs_mono; [exact Hm|]. intros b h' Hb. apply runs_ret. by apply HPQ. }
  destruct op as [base|a key v bs|a key|a|a key v|a key|a|i|i key|i key v|i mm|i trg]; simpl in Hop;
    rewrite ?andb_true_iff, ?orb_true_iff, ?negb_true_iff, ?bool_decide_eq_true, ?bool_decide_eq_false in Hop; unfold class_run, class_spec.
  - eapply Hret; [apply (new_class_ok ss n Hn h A M Hrel base); destruct base; [by apply bool_decide_eq_true in Hop|done]|].
    intros a h' (-> & HR). by destruct (a_new_class base A).
  - destruct Hop as [[Ha Hk] Hv]. eapply Hret; [apply (new_slot_ok ss meta n Hn Hmeta Hlast h A M Hrel a key v bs Ha Hk); naive_solver|].
    intros b h' (-> & HR). by destruct (a_new_slot meta ctor a key v bs A).
  - eapply Hret; [by apply (class_get_ok ctor n Hn' h A M Hrel)|]. intros r h' (-> & ->). split; [done|]. by eapply related_same.
  - eapply Hret; [by apply (constructor_ok ctor n h A M Hrel)|]. intros r h' (-> & ->). split; [done|]. by eapply related_same.
  - eapply Hret; [by apply (set_attributes_ok ss n Hn h A M Hrel)|]. intros b h' (-> & HR). by destruct (a_set_attributes a key v A).
  - eapply Hret; [by apply (get_attributes_ok ctor n Hn' h A M Hrel)|]. intros r h' (-> & ->). split; [done|]. by eapply related_same.
  - eapply Hret; [by apply (new_instance_ok ss n Hn h A M)|]. intros i h' (-> & HR). by destruct (a_new_instance a A).
  - eapply Hret; [by apply (instance_clone_ok ss n h A M Hrel)|]. by intros r h' (-> & HR).
  - eapply Hret; [by apply (instance_get_ok ctor n Hn' h A M Hrel)|]. intros r h' (-> & ->). split; [done|]. by eapply related_same.
  - eapply Hret; [by apply (instance_set_ok ss n Hn h A M Hrel)|]. intros b h' (-> & HR). by destruct (a_set i key v A).
  - destruct Hop. eapply Hret; [by apply (metamethod_ok ctor n h A M Hrel)|]. intros r h' (-> & ->). split; [done|]. by eapply related_same.
  - eapply Hret; [by apply (instance_of_ok ctor n h A M Hrel)|]. intros r h' (-> & ->). split; [done|]. by eapply related_same.
Qed.

Lemma class_runs_ok ops : ∀ n h A M, (Z.of_nat (n + length ops) < 2 ^ 24)%Z → heap_rel ctor n h A M → class_ops_ok meta ctor ops A = true →
  runs (class_runs ss ops) h (λ rs _, rs = class_specs meta ctor ops A).
Proof using Hmeta Hlast.
  induction ops as [|op ops IH]; intros n h A M Hn Hrel Hok; simpl in *; [by apply runs_ret|]. apply andb_true_iff in Hok as [Hop Hok].
  apply runs_bind. eapply runs_mono; [apply (class_run_ok n h A M op); [lia|done|done]|]. intros r h' (-> & M' & HR). apply runs_bind.
  destruct (class_spec meta ctor op A) as [r A']. simpl in *. eapply runs_mono; [by apply (IH (S n) h' A' M'); [lia|..]|]. intros rs h'' ->. by apply runs_ret.
Qed.
End traces.

Lemma empty_heap_rel `{SQHeap} `{Allocator} ctor fs : heap_rel ctor 0 (mkHeap ∅ ∅ fs) (mkAH ∅ ∅ fs) (λ _, ∅).
Proof. by split. Qed.

(** C8: Classes and instances behave as classes are described to.  With the
    table of metamethods [SQSharedState::Init] fills, every sequence of fewer
    than 2^24 operations (creating and deriving classes, adding fields, static
    members, methods, constructors and metamethods, setting and reading
    attributes, creating and cloning instances, reading and writing their
    fields, asking for metamethods and for [instanceof]) that names existing
    objects runs without an assertion failing or an index out of range, and
    answers every operation as the description does, in which a class is a
    finite map from names to members and an instance a finite map from fields
    to values. *)
Theorem classes_refine `{SQHeap} `{Allocator} names constructor fs ops :
  NoDup names → length names = MT_LAST → Forall (λ o, _type o = OT_STRING) names →
  (Z.of_nat (length ops) < 2 ^ 24)%Z → class_ops_ok (meta_of names) constructor ops (mkAH ∅ ∅ fs) = true →
  ∃ t h', metamethods_init names = Ok t ∧
    class_runs (mkNames t constructor) ops (mkHeap ∅ ∅ fs) = Ok (class_specs (meta_of names) constructor ops (mkAH ∅ ∅ fs), h').
Proof.
  intros Hnd Hlen Hstr Hops Hok. destruct (metamethods_init_ok names constructor Hnd Hlen Hstr) as (t & Et & Hmeta & Hlast).
  pose proof (class_runs_ok (mkNames t constructor) (meta_of names) Hmeta Hlast ops 0 _ _ _ Hops (empty_heap_rel constructor fs) Hok) as Hr.
  apply runs_ok in Hr as (rs & h' & E & ->). by exists t, h'.
Qed.

(** Closure 100 is a constructor; class 102 derives from class 101. *)
Definition demo_str (i : Z) : SQObject := mkObj OT_STRING i.
Definition demo_metas : list SQObject := demo_str <$> seqZ 1000 18.
Definition demo_fn : SQObject := mkObj OT_CLOSURE 100.
Definition demo_fns : gmap Z SQClosure := {[100 := mkClosure 7 None None [] [] None]}.
Definition demo_class_ops : list class_op :=
  [ONewClass None; ONewSlot 101 (demo_str 1) (sq_int 5) false; ONewSlot 101 (demo_str 9) demo_fn false;
   ONewSlot 101 (demo_str 1003) demo_fn false; ONewClass (Some 101%Z); ONewSlot 102 (demo_str 2) (sq_int 6) false;
   ONewInstance 102; OSet 103 (demo_str 1) (sq_int 8); OSet 103 (demo_str 9) (sq_int 8); OClone 103;
   OGet 104 (demo_str 1); OClassGet 102 (demo_str 1); ONewSlot 101 (demo_str 3) (sq_int 1) false;
   OConstructor 102; OMetaMethod 104 3; OMetaMethod 104 4; OInstanceOf 104 101; OInstanceOf 104 103].
Definition demo_answers : list class_answer :=
  [GaveAddress 101; GaveBool true; GaveBool true; GaveBool true; GaveAddress 102; GaveBool true;
   GaveAddress 103; GaveBool true; GaveBool false; GaveAddress 104;
   GaveValue (Some (sq_int 8)); GaveValue (Some (sq_int 5)); GaveBool false;
   GaveValue (Some demo_fn); GaveValue (Some demo_fn); GaveValue None; GaveBool true; GaveBool false].

Lemma classes_refine_witness :
  ∃ t h, @metamethods_init plain_heap demo_metas = Ok t ∧
    @class_runs plain_heap fresh_allocator (mkNames t (demo_str 9)) demo_class_ops (mkHeap ∅ ∅ demo_fns) = Ok (demo_answers, h).
Proof.
  destruct (@classes_refine plain_heap fresh_allocator demo_metas (demo_str 9) demo_fns demo_class_ops) as (t & h & Et & Er).
  { by_evaluation. }
  { reflexivity. }
  { by_evaluation. }
  { reflexivity. }
  { vm_compute. reflexivity. }
  exists t, h. split; [exact Et|]. rewrite Er. clear. vm_compute. reflexivity.
Defined.
