(* ===== verification/MinIni.v ===== *)
(** * Configuration files

    minIni.cpp: settings in a text file, as lines [key=value] under headings
    [[section]].  The functions read the file line by line into a buffer of
    [INI_BUFFERSIZE] bytes and work on the strings in it; a buffer is a list of
    bytes and a pointer an index ([CBuffer]).  A change that does not fit into the
    old line copies the file to a temporary one and renames it. *)

From Stdlib Require Import Ascii.
From stdpp Require Import base numbers gmap option list.
From S2P Require Import Prelude CType CBuffer.

Open Scope Z_scope.

Definition INI_BUFFERSIZE : nat := 512.

(** [INI_LINETERM] on the boards. *)
Definition INI_LINETERM : list Z := [13; 10].

Inductive quote_option := QUOTE_NONE | QUOTE_ENQUOTE | QUOTE_DEQUOTE.
#[export] Instance quote_option_eq_dec : EqDecision quote_option.
Proof. solve_decision. Defined.

(** A space, a line end or a control character. *)
Definition blank (c : Z) : bool := (0 <? c) && (c <=? 32).

Definition dquote : Z := 34.
Definition backslash : Z := 92.

(** [assert] *)
Definition assert_that (P : bool) : res () := if P then Ok () else Err AssertFail.

(** ** Strings in a buffer *)

Fixpoint skipleading_loop (fuel : nat) (b : cbuf) (str : nat) : res nat :=
  match fuel with
  | O => Err OutOfFuel
  | S fuel' => c ← load b str; if blank c then skipleading_loop fuel' b (S str) else Ok str
  end.
Definition skipleading (b : cbuf) (str : nat) : res nat := skipleading_loop (S (length b)) b str.

(** [n] is the distance of [str] from [base]. *)
Fixpoint skiptrailing_loop (n : nat) (b : cbuf) (base : nat) : res nat :=
  match n with
  | O => Ok base
  | S n' => c ← load b (base + n'); if blank c then skiptrailing_loop n' b base else Ok (base + n)%nat
  end.
Definition skiptrailing (b : cbuf) (str base : nat) : res nat := skiptrailing_loop (str - base) b base.

Definition striptrailing (b : cbuf) (str : nat) : res cbuf :=
  n ← strlen b str; ptr ← skiptrailing b (str + n) str; store ptr 0 b.

(** Where [ini_strncpy] copies from: the buffer it copies to, or another one. *)
Inductive csource := Here (p : nat) | There (b : cbuf) (p : nat).

Definition fetch (src : csource) (b : cbuf) (i : nat) : res Z :=
  match src with Here p => load b (p + i) | There b' p => load b' (p + i) end.

(** The assertion on the places of [dest] and [source]. *)
Definition apart (b : cbuf) (dest : nat) (src : csource) (option : quote_option) : res bool :=
  match src with
  | Here p =>
      n ← strlen b p;
      Ok (bool_decide (dest < p)%nat || bool_decide (dest = p ∧ option ≠ QUOTE_ENQUOTE) || bool_decide (p + n < dest)%nat)
  | There _ _ => Ok true
  end.

(** [case QUOTE_NONE], with [k] characters of room *)
Fixpoint copy_loop (k : nat) (dest : nat) (src : csource) (d : nat) (b : cbuf) : res (nat * cbuf) :=
  match k with
  | O => Ok (d, b)
  | S k' =>
      c ← fetch src b d;
      if c =? 0 then Ok (d, b) else b ← store (dest + d) c b; copy_loop k' dest src (S d) b
  end.

(** [case QUOTE_ENQUOTE] *)
Fixpoint enquote_loop (fuel maxlen dest : nat) (src : csource) (s d : nat) (b : cbuf) : res (nat * cbuf) :=
  match fuel with
  | O => Err OutOfFuel
  | S fuel' =>
      c ← fetch src b s;
      if (c =? 0) || bool_decide (maxlen - 2 ≤ d)%nat then Ok (d, b)
      else if c =? dquote then
        if bool_decide (maxlen - 3 ≤ d)%nat then Ok (d, b)
        else b ← store (dest + d) backslash b; b ← store (dest + S d) c b; enquote_loop fuel' maxlen dest src (S s) (S (S d)) b
      else b ← store (dest + d) c b; enquote_loop fuel' maxlen dest src (S s) (S d) b
  end.

(** [case QUOTE_DEQUOTE], with [k] characters of room *)
Fixpoint dequote_loop (k : nat) (dest : nat) (src : csource) (s d : nat) (b : cbuf) : res (nat * cbuf) :=
  match k with
  | O => Ok (d, b)
  | S k' =>
      c ← fetch src b s;
      if c =? 0 then Ok (d, b)
      else
        s ← (if (c =? dquote) || (c =? backslash) then n ← fetch src b (S s); Ok (if n =? dquote then S s else s) else Ok s);
        c ← fetch src b s;
        b ← store (dest + d) c b;
        dequote_loop k' dest src (S s) (S d) b
  end.

(** [maxlen] is a [size_t]. *)
Definition ini_strncpy (b : cbuf) (dest : nat) (src : csource) (maxlen : Z) (option : quote_option) : res cbuf :=
  let maxlen := u32 maxlen in
  assert_that (0 <? maxlen);;
  ok ← apart b dest src option;
  assert_that ok;;
  let option := if bool_decide (option = QUOTE_ENQUOTE) && (maxlen <? 3) then QUOTE_NONE else option in
  let maxlen := Z.to_nat maxlen in
  match option with
  | QUOTE_NONE =>
      '(d, b) ← copy_loop (maxlen - 1) dest src 0 b;
      assert_that (bool_decide (d < maxlen)%nat);;
      store (dest + d) 0 b
  | QUOTE_ENQUOTE =>
      b ← store dest dquote b;
      '(d, b) ← enquote_loop maxlen maxlen dest src 0 1 b;
      b ← store (dest + d) dquote b;
      store (dest + S d) 0 b
  | QUOTE_DEQUOTE =>
      '(d, b) ← dequote_loop (maxlen - 1) dest src 0 0 b;
      store (dest + d) 0 b
  end.

(** The end of a value in front of a comment. *)
Fixpoint comment_loop (fuel : nat) (b : cbuf) (ep : nat) (isstring : bool) : res nat :=
  match fuel with
  | O => Err OutOfFuel
  | S fuel' =>
      c ← load b ep;
      if (c =? 0) || ((isc c ";" || isc c "#") && negb isstring) then Ok ep
      else if c =? dquote then
        n ← load b (S ep);
        if n =? dquote then comment_loop fuel' b (S (S ep)) isstring else comment_loop fuel' b (S ep) (negb isstring)
      else if c =? backslash then
        n ← load b (S ep);
        if n =? dquote then comment_loop fuel' b (S (S ep)) isstring else comment_loop fuel' b (S ep) isstring
      else comment_loop fuel' b (S ep) isstring
  end.

Definition cleanstring (b : cbuf) (string : nat) : res (nat * quote_option * cbuf) :=
  ep ← comment_loop (S (length b)) b string false;
  b ← store ep 0 b;
  b ← striptrailing b string;
  c ← load b string;
  if c =? dquote then
    n ← strlen b string;
    let ep := (string + n)%nat in
    l ← load b (ep - 1);
    if l =? dquote then b ← store (ep - 1) 0 b; Ok (S string, QUOTE_DEQUOTE, b) else Ok (string, QUOTE_NONE, b)
  else Ok (string, QUOTE_NONE, b).

(** ** Reading *)

(** The next line of a text, or its first [n] characters. *)
Fixpoint next_line (n : nat) (text : list Z) : list Z :=
  match n, text with
  | S n', c :: text' => if c =? 10 then [c] else c :: next_line n' text'
  | _, _ => []
  end.

(** [ini_read], which is [fgets], from the place [pos] of a file; the result says
    whether there was something to read. *)
Definition ini_read (text : list Z) (pos : nat) (b : cbuf) (off size : nat) : res (bool * nat * cbuf) :=
  let line := next_line (size - 1) (drop pos text) in
  match line with
  | [] => Ok (false, pos, b)
  | _ => b ← store_all off (line ++ [0]) b; Ok (true, (pos + length line)%nat, b)
  end.

(** [(int)(end - start) == len && _tcsnicmp(start, name, len) == 0] *)
Definition same_name (b : cbuf) (start stop : nat) (name : list Z) : res bool :=
  if bool_decide (Z.of_nat stop - Z.of_nat start = Z.of_nat (length name)) then
    s ← string_at b start; Ok (strncasecmp (length name) s name =? 0)
  else Ok false.

(** The loop over the lines up to a section heading. *)
Fixpoint section_loop (fuel : nat) (text : list Z) (Section : option (list Z)) (idxSection : Z) (pos : nat) (b : cbuf) (idx : Z) :
    res (option (Z * nat * cbuf * nat * nat)) :=
  match fuel with
  | O => Err OutOfFuel
  | S fuel' =>
      '(more, pos, b) ← ini_read text pos b 0 INI_BUFFERSIZE;
      if negb more then Ok None
      else
        sp ← skipleading b 0;
        ep ← strrchr b sp (char_code "]");
        c ← load b sp;
        match ep with
        | Some ep =>
            if negb (isc c "[") then section_loop fuel' text Section idxSection pos b idx
            else
              same ← match Section with Some name => same_name b (S sp) ep name | None => Ok false end;
              if same : bool then Ok (Some (idx, pos, b, sp, ep))
              else if idx + 1 =? idxSection then Ok (Some (idx + 1, pos, b, sp, ep))
              else section_loop fuel' text Section idxSection pos b (idx + 1)
        | None => section_loop fuel' text Section idxSection pos b idx
        end
  end.

(** The equal sign of a line, or else its colon. *)
Definition separator (b : cbuf) (sp : nat) : res (option nat) :=
  ep ← strchr b sp (char_code "=");
  match ep with Some _ => Ok ep | None => strchr b sp (char_code ":") end.

(** The loop over the lines of a section up to a key; the first number of the
    result is where its line begins. *)
Fixpoint key_loop (fuel : nat) (text : list Z) (Key : option (list Z)) (idxKey : Z) (pos : nat) (b : cbuf) (idx : Z) :
    res (option (nat * Z * nat * cbuf * nat * nat)) :=
  match fuel with
  | O => Err OutOfFuel
  | S fuel' =>
      let mark := pos in
      '(more, pos, b) ← ini_read text pos b 0 INI_BUFFERSIZE;
      if negb more then Ok None
      else
        sp ← skipleading b 0;
        c ← load b sp;
        if isc c "[" then Ok None
        else
          ep ← separator b sp;
          match ep with
          | Some ep =>
              if isc c ";" || isc c "#" then key_loop fuel' text Key idxKey pos b idx
              else
                same ← match Key with
                       | Some name =>
                           if bool_decide (name = []) then Ok false
                           else last ← skiptrailing b ep sp; same_name b sp last name
                       | None => Ok false
                       end;
                if same : bool then Ok (Some (mark, idx, pos, b, sp, ep))
                else if idx + 1 =? idxKey then Ok (Some (mark, idx + 1, pos, b, sp, ep))
                else key_loop fuel' text Key idxKey pos b (idx + 1)
          | None => key_loop fuel' text Key idxKey pos b idx
          end
  end.

(** The second half of [getkeystring], from the section on. *)
Definition getkey_entry (text : list Z) (Key : option (list Z)) (idxKey : Z) (Buffer : cbuf) (BufferSize : Z) (pos : nat) (LocalBuffer : cbuf) :
    res (option (cbuf * nat * nat)) :=
  assert_that (bool_decide (is_Some Key) || (0 <=? idxKey));;
  r ← key_loop (S (length text)) text Key idxKey pos LocalBuffer (-1);
  match r with
  | None => Ok None
  | Some (mark, idx, pos, b, sp, ep) =>
      if 0 <=? idxKey then
        if idx =? idxKey then
          b ← store ep 0 b;
          b ← striptrailing b sp;
          Buffer ← ini_strncpy Buffer 0 (There b sp) BufferSize QUOTE_NONE;
          Ok (Some (Buffer, mark, pos))
        else Ok None
      else
        sp ← skipleading b (S ep);
        '(sp, quotes, b) ← cleanstring b sp;
        Buffer ← ini_strncpy Buffer 0 (There b sp) BufferSize quotes;
        Ok (Some (Buffer, mark, pos))
  end.

(** [getkeystring]: the changed [Buffer], the beginning of the line and the place
    behind it; [None] is the result 0. *)
Definition getkeystring (text : list Z) (pos : nat) (Section Key : option (list Z)) (idxSection idxKey : Z)
    (Buffer : cbuf) (BufferSize : Z) : res (option (cbuf * nat * nat)) :=
  let LocalBuffer := new_buffer INI_BUFFERSIZE in
  let len := default 0%nat (length <$> Section) in
  if bool_decide (0 < len)%nat || (0 <=? idxSection) then
    assert_that ((0 <=? idxSection) || bool_decide (is_Some Section));;
    r ← section_loop (S (length text)) text Section idxSection pos LocalBuffer (-1);
    match r with
    | None => Ok None
    | Some (idx, pos, b, sp, ep) =>
        if 0 <=? idxSection then
          if idx =? idxSection then
            b ← store ep 0 b;
            Buffer ← ini_strncpy Buffer 0 (There b (S sp)) BufferSize QUOTE_NONE;
            Ok (Some (Buffer, pos, pos))
          else Ok None
        else getkey_entry text Key idxKey Buffer BufferSize pos b
    end
  else getkey_entry text Key idxKey Buffer BufferSize pos LocalBuffer.

(** The files of the device, by name. *)
Abbreviation filesystem := (gmap (list Z) (list Z)).

(** [strtol] *)
Fixpoint skip_spaces (s : list Z) : list Z :=
  match s with c :: s' => if isspace c then skip_spaces s' else s | [] => [] end.
Definition digit_value (c : Z) : Z :=
  if isdigit c then c - 48 else if in_range c "a" "z" then c - 87 else if in_range c "A" "Z" then c - 55 else 36.
Fixpoint digits (base : Z) (s : list Z) (acc : Z) : Z :=
  match s with c :: s' => if digit_value c <? base then digits base s' (acc * base + digit_value c) else acc | [] => acc end.
Definition skip_prefix (base : Z) (s : list Z) : list Z :=
  match s with
  | c :: x :: d :: s' => if (base =? 16) && isc c "0" && isc (toupper x) "X" && (digit_value d <? 16) then d :: s' else s
  | _ => s
  end.
Definition clamp (v : Z) : Z := Z.max (- 2 ^ 31) (Z.min v (2 ^ 31 - 1)).
Definition strtol (s : list Z) (base : Z) : Z :=
  let s := skip_spaces s in
  let '(negative, s) := match s with c :: s' => if isc c "-" then (true, s') else if isc c "+" then (false, s') else (false, s) | [] => (false, s) end in
  let v := digits base (skip_prefix base s) 0 in
  clamp (if negative then - v else v).

Section gets.
(** [strtod], rounded to a [float]. *)
Context (ini_atof : list Z → Z).
Context (fs : filesystem).

(** What the functions that fill a buffer have in common: open the file, read,
    and put [DefValue] into the buffer if nothing was found. *)
Definition read_setting (found : list Z → res (option (cbuf * nat * nat))) (DefValue : list Z) (Buffer : cbuf) (BufferSize : Z)
    (Filename : list Z) : res (Z * cbuf) :=
  r ← match fs !! Filename with Some text => found text | None => Ok None end;
  Buffer ← match r with
           | Some (Buffer, _, _) => Ok Buffer
           | None => ini_strncpy Buffer 0 (There (of_string DefValue) 0) BufferSize QUOTE_NONE
           end;
  n ← strlen Buffer 0;
  Ok (Z.of_nat n, Buffer).

Definition ini_gets (Section Key DefValue : option (list Z)) (Buffer : cbuf) (BufferSize : Z) (Filename : list Z) : res (Z * cbuf) :=
  if (BufferSize <=? 0) || bool_decide (Key = None) then Ok (0, Buffer)
  else read_setting (λ text, getkeystring text 0 Section Key (-1) (-1) Buffer BufferSize) (default [] DefValue) Buffer BufferSize Filename.

Definition ini_getl (Section Key : option (list Z)) (DefValue : Z) (Filename : list Z) : res Z :=
  '(len, LocalBuffer) ← ini_gets Section Key (Some []) (new_buffer 64) 64 Filename;
  if len =? 0 then Ok DefValue
  else
    x ← (if 2 <=? len then load LocalBuffer 1 else Ok 0);
    s ← string_at LocalBuffer 0;
    Ok (strtol s (if (2 <=? len) && isc (toupper x) "X" then 16 else 10)).

Definition ini_getf (Section Key : option (list Z)) (DefValue : Z) (Filename : list Z) : res Z :=
  '(len, LocalBuffer) ← ini_gets Section Key (Some []) (new_buffer 64) 64 Filename;
  if len =? 0 then Ok DefValue else s ← string_at LocalBuffer 0; Ok (ini_atof s).

Definition ini_getbool (Section Key : option (list Z)) (DefValue : Z) (Filename : list Z) : res Z :=
  '(_, LocalBuffer) ← ini_gets Section Key (Some []) [Some 0; Some 0] 2 Filename;
  c ← load LocalBuffer 0;
  let c := toupper c in
  Ok (if isc c "Y" || isc c "1" || isc c "T" then 1
      else if isc c "N" || isc c "0" || isc c "F" then 0 else DefValue).

(** [ini_getsection] and [ini_getkey] empty the buffer themselves if there is
    nothing. *)
Definition read_name (found : list Z → res (option (cbuf * nat * nat))) (Buffer : cbuf) (Filename : list Z) : res (Z * cbuf) :=
  r ← match fs !! Filename with Some text => found text | None => Ok None end;
  Buffer ← match r with Some (Buffer, _, _) => Ok Buffer | None => store 0 0 Buffer end;
  n ← strlen Buffer 0;
  Ok (Z.of_nat n, Buffer).

Definition ini_getsection (idx : Z) (Buffer : cbuf) (BufferSize : Z) (Filename : list Z) : res (Z * cbuf) :=
  if (BufferSize <=? 0) || (idx <? 0) then Ok (0, Buffer)
  else read_name (λ text, getkeystring text 0 None None idx (-1) Buffer BufferSize) Buffer Filename.

Definition ini_getkey (Section : option (list Z)) (idx : Z) (Buffer : cbuf) (BufferSize : Z) (Filename : list Z) : res (Z * cbuf) :=
  if (BufferSize <=? 0) || (idx <? 0) then Ok (0, Buffer)
  else read_name (λ text, getkeystring text 0 Section None (-1) idx Buffer BufferSize) Buffer Filename.
End gets.

(** [ini_browse], with a callback that has a state of its own. *)
Section browse.
Context {U : Type} (Callback : list Z → list Z → list Z → stM U bool).

Fixpoint browse_loop (fuel : nat) (text : list Z) (pos : nat) (lenSec : nat) (b : cbuf) : stM U () :=
  match fuel with
  | O => raise OutOfFuel
  | S fuel' =>
      r ← lift (ini_read text pos b lenSec (INI_BUFFERSIZE - lenSec));
      let '(more, pos, b) := r : bool * nat * cbuf in
      if negb more then mret ()
      else
        sp ← lift (skipleading b lenSec);
        c ← lift (load b sp);
        if (c =? 0) || isc c ";" || isc c "#" then browse_loop fuel' text pos lenSec b
        else
          ep ← lift (strrchr b sp (char_code "]"));
          match (if isc c "[" then ep else None) with
          | Some ep =>
              b ← lift (store ep 0 b);
              b ← lift (ini_strncpy b 0 (Here (S sp)) (Z.of_nat INI_BUFFERSIZE) QUOTE_NONE);
              n ← lift (strlen b 0);
              browse_loop fuel' text pos (S n) b
          | None =>
              ep ← lift (separator b sp);
              match ep with
              | None => browse_loop fuel' text pos lenSec b
              | Some ep =>
                  b ← lift (store ep 0 b);
                  b ← lift (striptrailing b sp);
                  b ← lift (ini_strncpy b lenSec (Here sp) (Z.of_nat INI_BUFFERSIZE - Z.of_nat lenSec) QUOTE_NONE);
                  n ← lift (strlen b lenSec);
                  let lenKey := S n in
                  sp ← lift (skipleading b (S ep));
                  r ← lift (cleanstring b sp);
                  let '(sp, quotes, b) := r : nat * quote_option * cbuf in
                  b ← lift (ini_strncpy b (lenSec + lenKey) (Here sp) (Z.of_nat INI_BUFFERSIZE - Z.of_nat lenSec - Z.of_nat lenKey) quotes);
                  section ← lift (string_at b 0);
                  key ← lift (string_at b lenSec);
                  value ← lift (string_at b (lenSec + lenKey));
                  go_on ← Callback section key value;
                  if go_on : bool then browse_loop fuel' text pos lenSec b else mret ()
              end
          end
  end.

Definition ini_browse (fs : filesystem) (Filename : list Z) : stM U Z :=
  match fs !! Filename with
  | None => mret 0
  | Some text =>
      b ← lift (store 0 0 (new_buffer INI_BUFFERSIZE));
      n ← lift (strlen b 0);
      browse_loop (S (length text)) text 0 (S n) b;;
      mret 1
  end.
End browse.

(** ** Writing *)

Definition ini_tempname (dest : cbuf) (source : list Z) (maxlength : Z) : res cbuf :=
  b ← ini_strncpy dest 0 (There (of_string source) 0) maxlength QUOTE_NONE;
  p ← strlen b 0;
  if bool_decide (p = 0)%nat then Err OutOfBounds else store (p - 1) (char_code "~") b.

(** The character a value is enquoted for, if it has one. *)
Fixpoint needs_quotes (Value : list Z) : option Z :=
  match Value with
  | c :: Value' => if (c =? dquote) || isc c ";" || isc c "#" then Some c else needs_quotes Value'
  | [] => None
  end.
Definition check_enquote (Value : list Z) : quote_option :=
  if bool_decide (is_Some (needs_quotes Value)) || bool_decide (last Value = Some 32) then QUOTE_ENQUOTE else QUOTE_NONE.

(** What [writesection] and [writekey] leave in the buffer for the file. *)
Definition section_line (LocalBuffer : cbuf) (Section : list Z) : res cbuf :=
  b ← store 0 (char_code "[") LocalBuffer;
  b ← ini_strncpy b 1 (There (of_string Section) 0) (Z.of_nat INI_BUFFERSIZE - 4) QUOTE_NONE;
  p ← strlen b 0;
  b ← store p (char_code "]") b;
  strcpy b (S p) INI_LINETERM.

Definition key_line (LocalBuffer : cbuf) (Key Value : list Z) : res cbuf :=
  let option := check_enquote Value in
  b ← ini_strncpy LocalBuffer 0 (There (of_string Key) 0) (Z.of_nat INI_BUFFERSIZE - 3) QUOTE_NONE;
  p ← strlen b 0;
  b ← store p (char_code "=") b;
  b ← ini_strncpy b (S p) (There (of_string Value) 0) (Z.of_nat INI_BUFFERSIZE - Z.of_nat (S p) - 2) option;
  p ← strlen b 0;
  strcpy b p INI_LINETERM.

(** The variables of [ini_puts] and the files. *)
Record puts_state := mkPuts {
  files : filesystem;
  LocalBuffer : cbuf;
  rpos : nat;            (** the position of [rfp] *)
  wname : list Z;        (** the file of [wfp], and its position *)
  wpos : nat;
  mark : nat;
  cachelen : Z
}.
Definition set_files f s := mkPuts f (LocalBuffer s) (rpos s) (wname s) (wpos s) (mark s) (cachelen s).
Definition set_local b s := mkPuts (files s) b (rpos s) (wname s) (wpos s) (mark s) (cachelen s).
Definition set_rpos p s := mkPuts (files s) (LocalBuffer s) p (wname s) (wpos s) (mark s) (cachelen s).
Definition set_wfp n p s := mkPuts (files s) (LocalBuffer s) (rpos s) n p (mark s) (cachelen s).
Definition set_mark p s := mkPuts (files s) (LocalBuffer s) (rpos s) (wname s) (wpos s) p (cachelen s).
Definition set_cachelen n s := mkPuts (files s) (LocalBuffer s) (rpos s) (wname s) (wpos s) (mark s) n.

(** Bytes written over a text at a position. *)
Definition overwrite (pos : nat) (data text : list Z) : list Z := take pos text ++ data ++ drop (pos + length data) text.

(** [strcmp(s, t) == 0] *)
Definition same_text (s t : list Z) : bool := bool_decide (s = t).

Section puts.
(** Whether [fopen] for writing succeeds. *)
Context (fopen_ok : list Z → bool).
Context (Filename : list Z).

Definition local {A} (f : cbuf → res A) : stM puts_state A := b ← gets LocalBuffer; lift (f b).
Definition change_local (f : cbuf → res cbuf) : stM puts_state () := b ← local f; modify (set_local b).

(** [ini_read(LocalBuffer + off, size, &rfp)] *)
Definition read (off size : nat) : stM puts_state bool :=
  fs ← gets files;
  text ← lift (expect UseAfterFree (fs !! Filename));
  pos ← gets rpos;
  r ← local (λ b, ini_read text pos b off size);
  let '(more, pos, b) := r : bool * nat * cbuf in
  modify (set_rpos pos);; modify (set_local b);; mret more.

(** [ini_write(s, &wfp)] *)
Definition write (s : list Z) : stM puts_state () :=
  fs ← gets files;
  name ← gets wname;
  pos ← gets wpos;
  text ← lift (expect UseAfterFree (fs !! name));
  modify (set_files (<[name := overwrite pos s text]> fs));;
  modify (set_wfp name (pos + length s)).

Definition write_local : stM puts_state () := s ← local (λ b, string_at b 0); write s.

(** [ini_openwrite]: the file is empty then. *)
Definition ini_openwrite (name : list Z) : stM puts_state bool :=
  if fopen_ok name then fs ← gets files; modify (set_files (<[name := []]> fs));; modify (set_wfp name 0);; mret true
  else mret false.

Definition ini_tell : stM puts_state () := p ← gets rpos; modify (set_mark p).

Definition writesection (Section : option (list Z)) : stM puts_state () :=
  match Section with
  | Some (c :: s) => change_local (λ b, section_line b (c :: s));; write_local
  | _ => mret ()
  end.

Definition writekey (Key Value : list Z) : stM puts_state () :=
  change_local (λ b, key_line b Key Value);; write_local.

Definition cache_accum : stM puts_state bool :=
  len ← local (λ b, strlen b 0);
  size ← gets cachelen;
  if Z.of_nat INI_BUFFERSIZE <=? size + Z.of_nat len then mret false
  else modify (set_cachelen (size + Z.of_nat len));; mret true.

(** [while (pos < *size && buffer[pos] != '\0') pos++], with [k] characters to go *)
Fixpoint flush_scan (k : nat) (b : cbuf) (pos : nat) : res nat :=
  match k with
  | O => Ok pos
  | S k' => c ← load b pos; if c =? 0 then Ok pos else flush_scan k' b (S pos)
  end.

Fixpoint flush_loop (fuel : nat) (size : nat) (pos : nat) : stM puts_state nat :=
  match fuel with
  | O => raise OutOfFuel
  | S fuel' =>
      if bool_decide (pos < size)%nat then
        _ ← read pos (INI_BUFFERSIZE - pos);
        pos ← local (λ b, flush_scan (size - pos) b pos);
        flush_loop fuel' size pos
      else mret pos
  end.

(** The end of [cache_flush]: whether the buffer ended with a line end. *)
Definition flush_end (pos : nat) : stM puts_state bool :=
  ini_tell;;
  modify (set_cachelen 0);;
  if bool_decide (length INI_LINETERM < pos)%nat then
    s ← local (λ b, string_at b (pos - length INI_LINETERM)); mret (same_text s INI_LINETERM)
  else mret false.

Definition cache_flush : stM puts_state bool :=
  m ← gets mark;
  modify (set_rpos m);;
  change_local (store 0 0);;
  size ← gets cachelen;
  lift (assert_that (size <=? Z.of_nat INI_BUFFERSIZE));;
  pos ← flush_loop (S (Z.to_nat size)) (Z.to_nat size) 0;
  c ← local (λ b, load b 0);
  pos ← (if c =? 0 then mret pos
         else
           lift (assert_that (bool_decide (0 < pos ≤ INI_BUFFERSIZE)%nat));;
           let pos := if bool_decide (pos = INI_BUFFERSIZE) then (pos - 1)%nat else pos in
           change_local (store pos 0);; write_local;; mret pos);
  flush_end pos.

(** [remove] and [rename] *)
Definition ini_remove (name : list Z) (fs : filesystem) : filesystem := delete name fs.
Definition ini_rename (source dest : list Z) (fs : filesystem) : filesystem :=
  match fs !! source with Some text => <[dest := text]> (delete source fs) | None => fs end.

Definition close_rename : stM puts_state Z :=
  fs ← gets files;
  modify (set_files (ini_remove Filename fs));;
  change_local (λ b, ini_tempname b Filename (Z.of_nat INI_BUFFERSIZE));;
  temp ← local (λ b, string_at b 0);
  fs ← gets files;
  modify (set_files (ini_rename temp Filename fs));;
  mret 1.

(** A line that was read goes to the cache, which is written first if it is full. *)
Definition cache_line : stM puts_state () :=
  ok ← cache_accum;
  if ok : bool then mret () else _ ← cache_flush; _ ← read 0 INI_BUFFERSIZE; _ ← cache_accum; mret ().

(** At the end of the file: what [body] writes goes behind the last line, which
    gets a line end if it has none. *)
Definition append (body : stM puts_state ()) (Key Value : option (list Z)) : stM puts_state Z :=
  flag ← cache_flush;
  (match Key, Value with
   | Some _, Some _ => when (negb flag) (write INI_LINETERM);; body
   | _, _ => mret ()
   end);;
  close_rename.

Definition write_setting (Key Value : option (list Z)) : stM puts_state () :=
  match Key, Value with Some k, Some v => writekey k v | _, _ => mret () end.

(** The loop that copies the lines up to the section; a result is returned if
    there is no such section. *)
Fixpoint puts_section_loop (fuel : nat) (Section : list Z) (Key Value : option (list Z)) : stM puts_state (option Z) :=
  match fuel with
  | O => raise OutOfFuel
  | S fuel' =>
      more ← read 0 INI_BUFFERSIZE;
      if negb more then
        r ← append (writesection (Some Section);; write_setting Key Value) Key Value; mret (Some r)
      else
        sp ← local (λ b, skipleading b 0);
        ep ← local (λ b, strrchr b sp (char_code "]"));
        c ← local (λ b, load b sp);
        found ← match ep with
                | Some ep => if isc c "[" then local (λ b, same_name b (S sp) ep Section) else mret false
                | None => mret false
                end;
        when (negb found || bool_decide (is_Some Key)) cache_line;;
        if found : bool then mret None else puts_section_loop fuel' Section Key Value
  end.

(** The loop that copies the lines of the section up to the key; it ends with a
    result at the end of the file, and else says whether it came to the next
    section. *)
Fixpoint puts_key_loop (fuel : nat) (Key Value : option (list Z)) : stM puts_state (Z + bool) :=
  match fuel with
  | O => raise OutOfFuel
  | S fuel' =>
      more ← read 0 INI_BUFFERSIZE;
      if negb more then r ← append (write_setting Key Value) Key Value; mret (inl r)
      else
        sp ← local (λ b, skipleading b 0);
        ep ← local (λ b, separator b sp);
        found ← match ep, Key with
                | Some ep, Some (k :: name) =>
                    last ← local (λ b, skiptrailing b ep sp); local (λ b, same_name b sp last (k :: name))
                | _, _ => mret false
                end;
        c ← local (λ b, load b sp);
        if (found : bool) || isc c "[" then mret (inr (isc c "["))
        else
          (if bool_decide (Key = None) then ini_tell else cache_line);;
          puts_key_loop fuel' Key Value
  end.

(** The loop that copies the rest of the file. *)
Fixpoint puts_rest_loop (fuel : nat) : stM puts_state () :=
  match fuel with
  | O => raise OutOfFuel
  | S fuel' =>
      more ← read 0 INI_BUFFERSIZE;
      if more : bool then cache_line;; puts_rest_loop fuel' else mret ()
  end.

(** The setting is there already, or its new line is as long as the old one. *)
Definition puts_in_place (text : list Z) (Section : option (list Z)) (Key Value : list Z) : stM puts_state (option Z) :=
  ini_tell;;
  r ← local (λ b, getkeystring text 0 Section (Some Key) (-1) (-1) b (Z.of_nat INI_BUFFERSIZE));
  result ← match r with
           | None => mret None
           | Some (b, head, tail) =>
               modify (set_local b);;
               s ← local (λ b, string_at b 0);
               if same_text s Value then mret (Some 1)
               else
                 change_local (λ b, key_line b Key Value);;
                 n ← local (λ b, strlen b 0);
                 if bool_decide (n = tail - head)%nat then
                   if fopen_ok Filename then modify (set_wfp Filename head);; write_local;; mret (Some 1) else mret (Some 0)
                 else mret None
           end;
  p ← gets mark;
  modify (set_rpos p);;
  mret result.

(** The file is copied to a temporary one, with the change. *)
Definition puts_copy (fuel : nat) (Section Key Value : option (list Z)) : stM puts_state Z :=
  change_local (λ b, ini_tempname b Filename (Z.of_nat INI_BUFFERSIZE));;
  temp ← local (λ b, string_at b 0);
  opened ← ini_openwrite temp;
  if negb opened then mret 0
  else
    ini_tell;;
    modify (set_cachelen 0);;
    r ← match Section with
        | Some (c :: name) => puts_section_loop fuel (c :: name) Key Value
        | _ => mret None
        end;
    match r : option Z with
    | Some r => mret r
    | None =>
        _ ← cache_flush;
        when (bool_decide (Key = None)) (_ ← read 0 INI_BUFFERSIZE; ini_tell);;
        r ← puts_key_loop fuel Key Value;
        match r : Z + bool with
        | inl r => mret r
        | inr flag =>
            _ ← cache_flush;
            write_setting Key Value;;
            _ ← read 0 INI_BUFFERSIZE;
            (if flag then _ ← cache_accum; mret () else ini_tell);;
            puts_rest_loop fuel;;
            _ ← cache_flush;
            close_rename
        end
    end.

Definition puts_body (Section Key Value : option (list Z)) : stM puts_state Z :=
  fs ← gets files;
  match fs !! Filename with
  | None =>
      match Key, Value with
      | Some k, Some v =>
          opened ← ini_openwrite Filename;
          if opened : bool then writesection Section;; writekey k v;; mret 1 else mret 0
      | _, _ => mret 1
      end
  | Some text =>
      done ← match Key, Value with
             | Some k, Some v => puts_in_place text Section k v
             | _, _ => mret None
             end;
      match done : option Z with
      | Some r => mret r
      | None => puts_copy (S (length text)) Section Key Value
      end
  end.

Definition ini_puts (Section Key Value : option (list Z)) (fs : filesystem) : res (Z * filesystem) :=
  '(r, s) ← puts_body Section Key Value (mkPuts fs (new_buffer INI_BUFFERSIZE) 0 [] 0 0 0);
  Ok (r, files s).
End puts.

(** Numbers. *)
Fixpoint long2str_loop (fuel : nat) (value : Z) (i : nat) (str : cbuf) : res (nat * cbuf) :=
  match fuel with
  | O => Err OutOfFuel
  | S fuel' =>
      let n := Z.rem value 10 in
      str ← store i (Z.abs n + 48) str;
      let value := Z.quot value 10 in
      if value =? 0 then Ok (S i, str) else long2str_loop fuel' value (S i) str
  end.

Fixpoint strreverse_loop (k : nat) (i j : nat) (str : cbuf) : res cbuf :=
  match k with
  | O => Ok str
  | S k' =>
      if bool_decide (i < j)%nat then
        t ← load str i;
        c ← load str j;
        str ← store i c str;
        str ← store j t str;
        strreverse_loop k' (S i) (j - 1) str
      else Ok str
  end.
Definition strreverse (str : cbuf) : res cbuf := n ← strlen str 0; strreverse_loop n 0 (n - 1) str.

(** A [long] has at most ten digits. *)
Definition long2str (value : Z) (str : cbuf) : res cbuf :=
  '(i, str) ← long2str_loop 11 value 0 str;
  '(i, str) ← (if value <? 0 then str ← store i (char_code "-") str; Ok (S i, str) else Ok (i, str));
  str ← store i 0 str;
  strreverse str.

Section numbers.
(** [sprintf] with the format [%f]. *)
Context (ini_ftoa : Z → list Z).
Context (fopen_ok : list Z → bool).

Definition ini_putl (Section Key : option (list Z)) (Value : Z) (Filename : list Z) (fs : filesystem) : res (Z * filesystem) :=
  b ← long2str Value (new_buffer 32);
  s ← string_at b 0;
  ini_puts fopen_ok Filename Section Key (Some s) fs.

Definition ini_putf (Section Key : option (list Z)) (Value : Z) (Filename : list Z) (fs : filesystem) : res (Z * filesystem) :=
  b ← strcpy (new_buffer 64) 0 (ini_ftoa Value);
  s ← string_at b 0;
  ini_puts fopen_ok Filename Section Key (Some s) fs.
End numbers.
