(* ===== verification/MinIniSpec.v ===== *)
(** * Configuration files as lists of settings

    A reference for [MinIni] on lists: a file is a list of lines, a line is a
    heading, a setting or neither, and a setting is looked up in the lines behind
    its heading.  Every helper of minIni.cpp that works on a buffer is related
    to a function on strings, and [ini_gets] to the lookup. *)

From Stdlib Require Import Ascii.
From stdpp Require Import base numbers gmap option list.
From S2P Require Import Prelude CType CBuffer MinIni.

Open Scope Z_scope.

(** ** The reference *)

Fixpoint lstrip (s : list Z) : list Z :=
  match s with c :: s' => if blank c then lstrip s' else s | [] => [] end.

Fixpoint rstrip (s : list Z) : list Z :=
  match s with
  | [] => []
  | c :: s' => match rstrip s' with [] => if blank c then [] else [c] | r => c :: r end
  end.

(** Names are compared without case. *)
Definition fold_case (s : list Z) : list Z := map tolower s.

(** A value without the comment behind it. *)
Fixpoint uncomment (s : list Z) (isstring : bool) : list Z :=
  match s with
  | [] => []
  | c :: s' =>
      if (isc c ";" || isc c "#") && negb isstring then []
      else if c =? dquote then
        match s' with
        | n :: s'' => if n =? dquote then c :: n :: uncomment s'' isstring else c :: uncomment s' (negb isstring)
        | [] => [c]
        end
      else if c =? backslash then
        match s' with
        | n :: s'' => if n =? dquote then c :: n :: uncomment s'' isstring else c :: uncomment s' isstring
        | [] => [c]
        end
      else c :: uncomment s' isstring
  end.

Fixpoint dequote (s : list Z) : list Z :=
  match s with
  | [] => []
  | c :: s' =>
      if (c =? dquote) || (c =? backslash) then
        match s' with
        | n :: s'' => if n =? dquote then n :: dequote s'' else c :: dequote s'
        | [] => [c]
        end
      else c :: dequote s'
  end.

(** A value without its quotes. *)
Definition unquoted (w : list Z) : list Z :=
  if bool_decide (head w = Some dquote) && bool_decide (last w = Some dquote)
  then dequote (take (length w - 2) (tail w)) else w.

(** The value behind a separator. *)
Definition value_of (s : list Z) : list Z := unquoted (rstrip (uncomment (lstrip s) false)).

Definition separator_index (t : list Z) : option nat :=
  match index_of (char_code "=") t with Some i => Some i | None => index_of (char_code ":") t end.

Inductive line :=
  | LHeading (name : list Z)
  | LOpen                       (** a heading that is not closed *)
  | LEntry (key value : list Z)
  | LOther.
#[export] Instance line_eq_dec : EqDecision line.
Proof. solve_decision. Defined.

Definition parse_line (s : list Z) : line :=
  let t := lstrip s in
  match t with
  | [] => LOther
  | c :: t' =>
      if isc c "[" then
        match last_index_of (char_code "]") t with
        | Some i => LHeading (fold_case (take (i - 1) t'))
        | None => LOpen
        end
      else if isc c ";" || isc c "#" then LOther
      else match separator_index t with
           | Some i => LEntry (fold_case (rstrip (take i t))) (value_of (drop (S i) t))
           | None => LOther
           end
  end.

(** The pieces of a text that [fgets] gives for a buffer of [INI_BUFFERSIZE]
    bytes: its lines, if they are not too long. *)
Fixpoint pieces_of (fuel : nat) (text : list Z) : list (list Z) :=
  match fuel with
  | O => []
  | S fuel' =>
      match next_line (INI_BUFFERSIZE - 1) text with
      | [] => []
      | l => l :: pieces_of fuel' (drop (length l) text)
      end
  end.
Definition pieces (text : list Z) : list (list Z) := pieces_of (length text) text.

(** The part of a piece in front of a zero. *)
Fixpoint before_zero (s : list Z) : list Z :=
  match s with c :: s' => if c =? 0 then [] else c :: before_zero s' | [] => [] end.

Definition parse (piece : list Z) : line := parse_line (before_zero piece).

Definition settings (text : list Z) : list line := filter (λ l, l ≠ LOther) (map parse (pieces text)).

(** The lines behind the first heading with a name. *)
Fixpoint in_section (name : list Z) (ls : list line) : option (list line) :=
  match ls with
  | [] => None
  | LHeading n :: ls' => if decide (n = name) then Some ls' else in_section name ls'
  | _ :: ls' => in_section name ls'
  end.

(** The first setting with a name in front of the next heading. *)
Fixpoint in_keys (key : list Z) (ls : list line) : option (list Z) :=
  match ls with
  | LEntry k v :: ls' => if decide (k = key) then Some v else in_keys key ls'
  | LOther :: ls' => in_keys key ls'
  | _ => None
  end.

Definition section_lines (Section : list Z) (ls : list line) : option (list line) :=
  if decide (Section = []) then Some ls else in_section (fold_case Section) ls.

Definition lookup_setting (Section Key : list Z) (ls : list line) : option (list Z) :=
  section_lines Section ls ≫= in_keys (fold_case Key).

(** ** Strings *)

Lemma lstrip_drop s : ∃ i, (i ≤ length s)%nat ∧ lstrip s = drop i s ∧ Forall (λ c, blank c = true) (take i s) ∧
  (∀ c, s !! i = Some c → blank c = false).
Proof.
  induction s as [|c s (i & Hi & E & Hb & Hc)]; [by exists 0%nat|]. simpl. destruct (blank c) eqn:Ec.
  - exists (S i). split_and!; [simpl; lia|done|by constructor|done].
  - exists 0%nat. split_and!; [lia|done|constructor|]. by intros ? [= ->].
Qed.

Lemma rstrip_snoc s c : rstrip (s ++ [c]) = if blank c then rstrip s else s ++ [c].
Proof.
  induction s as [|d s IH]; simpl; [done|]. rewrite IH. destruct (blank c); [done|]. by destruct (s ++ [c]) eqn:E; [destruct s|].
Qed.

Lemma rstrip_take s : ∃ i, (i ≤ length s)%nat ∧ rstrip s = take i s.
Proof.
  induction s as [|c s IH] using rev_ind; [by exists 0%nat|]. rewrite rstrip_snoc. destruct (blank c).
  - destruct IH as (i & Hi & ->). exists i. rewrite length_app. split; [simpl; lia|]. by rewrite take_app_le.
  - exists (length (s ++ [c])). by rewrite firstn_all.
Qed.

Lemma length_rstrip s : (length (rstrip s) ≤ length s)%nat.
Proof. destruct (rstrip_take s) as (i & Hi & ->). rewrite length_take. lia. Qed.

Lemma take_length_rstrip s : take (length (rstrip s)) s = rstrip s.
Proof. destruct (rstrip_take s) as (i & Hi & E). by rewrite E, length_take, Nat.min_l. Qed.

Lemma index_of_lt c s i : index_of c s = Some i → (i < length s)%nat ∧ s !! i = Some c.
Proof.
  unfold index_of. rewrite fmap_Some. intros ([j x] & E & ->). apply list_find_Some in E as (E & -> & _).
  split; [by eapply lookup_lt_Some|done].
Qed.

Lemma last_index_of_lt c s i : last_index_of c s = Some i → (i < length s)%nat ∧ s !! i = Some c.
Proof.
  unfold last_index_of. rewrite fmap_Some. intros (j & E & ->). apply index_of_lt in E as (Hj & E).
  rewrite length_reverse in Hj. split; [lia|]. by rewrite <- reverse_lookup.
Qed.

(** ** The helpers on a string in a buffer *)

Lemma skipleading_ok b p s :
  string_at b p = Ok s →
  ∃ i, (i ≤ length s)%nat ∧ lstrip s = drop i s ∧ skipleading b p = Ok (p + i)%nat ∧ string_at b (p + i) = Ok (lstrip s).
Proof.
  intros Hs. destruct (lstrip_drop s) as (i & Hi & E & Hb & Hc). exists i. rewrite E.
  split_and!; [done|done| |by apply string_at_drop]. unfold skipleading. pose proof (string_fits _ _ _ Hs) as Hfit.
  cut (∀ k j, (j + k = i)%nat → ∀ fuel, (k < fuel)%nat → skipleading_loop fuel b (p + j) = Ok (p + i)%nat).
  { intros Hl. rewrite <- (Nat.add_0_r p) at 1. apply (Hl i); lia. }
  induction k as [|k IH]; intros j Hj [|fuel] Hf; try lia; simpl; rewrite (string_load _ _ _ Hs) by lia; simpl.
  - replace j with i by lia. destruct (s !! i) as [c|] eqn:Ei; simpl; [by rewrite Hc|done].
  - assert (blank (default 0 (s !! j)) = true) as ->.
    { destruct (lookup_lt_is_Some_2 s j) as [c Ej]; [lia|]. rewrite Ej.
      apply (Forall_lookup_1 _ _ j c Hb). rewrite lookup_take_lt; [done|lia]. }
    rewrite <- Nat.add_succ_r. apply IH; lia.
Qed.

Lemma skiptrailing_ok b p s n :
  string_at b p = Ok s → (n ≤ length s)%nat → skiptrailing b (p + n) p = Ok (p + length (rstrip (take n s)))%nat.
Proof.
  intros Hs Hn. unfold skiptrailing. replace (p + n - p)%nat with n by lia. revert Hn.
  induction n as [|n IH]; intros Hn; cbn [skiptrailing_loop]; [simpl; f_equal; lia|]. rewrite (string_load _ _ _ Hs) by lia.
  destruct (lookup_lt_is_Some_2 s n) as [c Ec]; [lia|]. rewrite Ec. cbn [from_option id mbind res_bind].
  rewrite (take_S_r s n c) by done. rewrite rstrip_snoc. destruct (blank c); [apply IH; lia|].
  rewrite length_app, length_take, Nat.min_l by lia. simpl. f_equal. lia.
Qed.

(** Bytes behind a string. *)
Definition same_from (q : nat) (b b' : cbuf) : Prop := length b' = length b ∧ ∀ i, (q ≤ i)%nat → b' !! i = b !! i.
Definition same_below (q : nat) (b b' : cbuf) : Prop := length b' = length b ∧ ∀ i, (i < q)%nat → b' !! i = b !! i.

Lemma striptrailing_ok b p s :
  string_at b p = Ok s → ∃ b', striptrailing b p = Ok b' ∧ string_at b' p = Ok (rstrip s) ∧
    length b' = length b ∧ (∀ i, (i < p ∨ p + length s < i)%nat → b' !! i = b !! i).
Proof.
  intros Hs. unfold striptrailing. rewrite (strlen_ok _ _ _ Hs). simpl.
  rewrite (skiptrailing_ok _ _ s) by done. simpl. rewrite firstn_all.
  pose proof (string_fits _ _ _ Hs). pose proof (length_rstrip s). rewrite store_ok by lia. eexists. split_and!; [done| | |].
  - rewrite <- (take_length_rstrip s) at 2. by apply string_at_cut.
  - apply length_insert.
  - intros i Hi. rewrite list_lookup_insert_ne; [done|lia].
Qed.

(** [same_name] compares without case. *)
Lemma tolower_zero c : tolower c = 0 → c = 0.
Proof.
  unfold tolower, in_range. destruct (_ && _) eqn:E; [|done]. apply andb_true_iff in E as [E _]. apply Z.leb_le in E.
  change (char_code "A") with 65 in E. lia.
Qed.

Lemma strncasecmp_ok t s :
  0 ∉ t → (length t ≤ length s)%nat → strncasecmp (length t) s t = 0 ↔ fold_case (take (length t) s) = fold_case t.
Proof.
  revert s. induction t as [|d t IH]; intros [|c s] H0 Hl; simpl in *; try done; [lia|].
  rewrite not_elem_of_cons in H0. destruct H0 as [Hd H0]. destruct (Z.eqb_spec (tolower c) (tolower d)) as [E|E]; simpl.
  - rewrite E. destruct (Z.eqb_spec c 0) as [->|Hc]; [exfalso; apply Hd; symmetry; apply tolower_zero; by rewrite <- E|].
    rewrite IH by (done || lia). unfold fold_case. split; [by intros ->|by intros [= ->]].
  - split; [lia|]. by intros [= ? _].
Qed.

Lemma same_name_ok b p s stop name :
  string_at b p = Ok s → (p ≤ stop ≤ p + length s)%nat → 0 ∉ name →
  same_name b p stop name = Ok (bool_decide (fold_case (take (stop - p) s) = fold_case name)).
Proof.
  intros Hs Hp H0. unfold same_name. rewrite Hs. simpl.
  destruct (decide (stop - p = length name)%nat) as [E|E].
  - rewrite bool_decide_eq_true_2 by lia. f_equal. rewrite E. destruct (Z.eqb_spec (strncasecmp (length name) s name) 0) as [H|H].
    + rewrite bool_decide_eq_true_2; [done|]. apply strncasecmp_ok; [done|lia|done].
    + rewrite bool_decide_eq_false_2; [done|]. intros F. apply H. apply strncasecmp_ok; [done|lia|done].
  - rewrite !bool_decide_eq_false_2; [done| |lia]. intros F. apply (f_equal length) in F. unfold fold_case in F.
    rewrite !length_map, length_take in F. lia.
Qed.

Lemma separator_ok b p s : string_at b p = Ok s → separator b p = Ok (Nat.add p <$> separator_index s).
Proof.
  intros Hs. unfold separator, separator_index. rewrite (strchr_ok _ _ _ (char_code "=") Hs). simpl.
  destruct (index_of (char_code "=") s); [done|]. by apply strchr_ok.
Qed.

Lemma separator_index_lt s i : separator_index s = Some i → (i < length s)%nat.
Proof. unfold separator_index. destruct (index_of _ s) as [j|] eqn:E; [intros [= <-]|intros E']; by eapply index_of_lt. Qed.

(** ** Copying *)

(** What fits into [n] characters of an enquoted string. *)
Fixpoint enquote (n : nat) (s : list Z) {struct s} : list Z :=
  match s, n with
  | [], _ | _, O => []
  | c :: s', S n' =>
      if c =? dquote then match n' with O => [] | S n'' => backslash :: c :: enquote n'' s' end
      else c :: enquote n' s'
  end.

Definition copied (option : quote_option) (maxlen : nat) (s : list Z) : list Z :=
  match option with
  | QUOTE_NONE => take (maxlen - 1) s
  | QUOTE_ENQUOTE => if decide (maxlen < 3)%nat then take (maxlen - 1) s else dquote :: enquote (maxlen - 3) s ++ [dquote]
  | QUOTE_DEQUOTE => take (maxlen - 1) (dequote s)
  end.

Lemma drop_cons {A} i (l : list A) x k : drop i l = x :: k → l !! i = Some x ∧ drop (S i) l = k.
Proof.
  intros E. split; [by rewrite <- (Nat.add_0_r i), <- lookup_drop, E|].
  by rewrite <- Nat.add_1_r, <- drop_drop, E.
Qed.

Lemma inserts_snoc {A} p (o : list A) x b : list_inserts p (o ++ [x]) b = <[(p + length o)%nat := x]> (list_inserts p o b).
Proof. rewrite list_inserts_app_l. simpl. by rewrite (Nat.add_comm p). Qed.

(** Storing one more character behind those that were stored. *)
Lemma store_snoc p (o : list Z) c b :
  (p + length o < length b)%nat →
  store (p + length o) c (list_inserts p (Some <$> o) b) = Ok (list_inserts p (Some <$> (o ++ [c])) b).
Proof.
  intros. rewrite store_ok by (by rewrite length_inserts). f_equal. rewrite fmap_app. simpl.
  by rewrite inserts_snoc, length_fmap.
Qed.

Section copy.
Context (b : cbuf) (dest : nat) (src : csource) (s : list Z).

Definition source_ok : Prop :=
  match src with Here p => string_at b p = Ok s ∧ (dest ≤ p)%nat | There b' p => string_at b' p = Ok s end.

Context (Hsrc : source_ok).

Lemma fetch_ok o i :
  (length o ≤ i ≤ length s)%nat → fetch src (list_inserts dest (Some <$> o) b) i = Ok (default 0 (s !! i)).
Proof using Hsrc.
  unfold source_ok in Hsrc. intros Hi. destruct src as [p|b' p]; simpl; [|apply string_load; [done|lia]].
  destruct Hsrc as [Hs Hp]. apply load_ok. rewrite list_lookup_inserts_ge by (rewrite length_fmap; lia).
  apply string_lookup; [done|lia].
Qed.

Lemma source_no_zero : 0 ∉ s.
Proof using Hsrc. unfold source_ok in Hsrc. destruct src; [destruct Hsrc as [H _]|pose proof Hsrc as H]; by eapply string_no_zero. Qed.

Lemma source_char i c : s !! i = Some c → (c =? 0) = false.
Proof using Hsrc. intros Hi. apply Z.eqb_neq. intros ->. apply source_no_zero. by eapply list_elem_of_lookup_2. Qed.

Lemma copy_loop_ok k : ∀ i,
  (i ≤ length s)%nat → (dest + length (take (i + k) s) ≤ length b)%nat →
  copy_loop k dest src i (list_inserts dest (Some <$> take i s) b) =
    Ok (length (take (i + k) s), list_inserts dest (Some <$> take (i + k) s) b).
Proof using Hsrc.
  induction k as [|k IH]; intros i Hi Hfit; cbn [copy_loop].
  - rewrite Nat.add_0_r, length_take, Nat.min_l by done. done.
  - rewrite fetch_ok by (rewrite length_take; lia). simpl. destruct (s !! i) as [c|] eqn:Ei; simpl.
    + rewrite (source_char i) by done. pose proof (lookup_lt_Some _ _ _ Ei).
      assert (length (take i s) = i) as El by (rewrite length_take; lia).
      rewrite <- El at 1. rewrite length_take in Hfit. rewrite store_snoc by lia. simpl.
      rewrite <- (take_S_r s i c) by done. replace (i + S k)%nat with (S i + k)%nat by lia. apply IH; [lia|].
      rewrite length_take. lia.
    + apply lookup_ge_None in Ei. rewrite !take_ge by lia. do 2 f_equal. lia.
Qed.

(** The body of the loop, with the character at [j] as the next one. *)
Lemma dequote_step k j o x (rest : list Z) :
  (length o ≤ j)%nat → s !! j = Some x → (dest + length o < length b)%nat →
  dequote_loop k dest src (S j) (length (o ++ [x])) (list_inserts dest (Some <$> (o ++ [x])) b) =
    Ok (length ((o ++ [x]) ++ rest), list_inserts dest (Some <$> ((o ++ [x]) ++ rest)) b) →
  (c ← fetch src (list_inserts dest (Some <$> o) b) j; b' ← store (dest + length o) c (list_inserts dest (Some <$> o) b);
   dequote_loop k dest src (S j) (S (length o)) b') =
    Ok (length (o ++ x :: rest), list_inserts dest (Some <$> (o ++ x :: rest)) b).
Proof using Hsrc.
  intros Hj Ej Hroom E. pose proof (lookup_lt_Some _ _ _ Ej). rewrite fetch_ok by lia. rewrite Ej. simpl.
  rewrite store_snoc by lia. simpl. replace (S (length o)) with (length (o ++ [x])) by (rewrite length_app; simpl; lia).
  rewrite E. by rewrite <- app_assoc.
Qed.

Lemma dequote_loop_ok k : ∀ i o,
  (length o ≤ i ≤ length s)%nat → (dest + length o + length (take k (dequote (drop i s))) ≤ length b)%nat →
  dequote_loop k dest src i (length o) (list_inserts dest (Some <$> o) b) =
    Ok (length (o ++ take k (dequote (drop i s))), list_inserts dest (Some <$> (o ++ take k (dequote (drop i s)))) b).
Proof using Hsrc.
  induction k as [|k IH]; intros i o Hi Hfit; cbn [dequote_loop]; [by rewrite take_0, app_nil_r|].
  rewrite (fetch_ok o i) by lia. destruct (drop i s) as [|c t] eqn:Ed.
  { apply (f_equal length) in Ed. rewrite length_drop in Ed. simpl in Ed. rewrite lookup_ge_None_2 by lia. simpl. by rewrite app_nil_r. }
  apply drop_cons in Ed as [Ei Ed]. pose proof (lookup_lt_Some _ _ _ Ei). rewrite Ei. cbn [from_option id mbind res_bind].
  rewrite (source_char i) by done. cbn [dequote] in Hfit |- *.
  assert (∀ j x u, (i ≤ j)%nat → s !! j = Some x → drop (S j) s = u →
    (dest + length o + length (take (S k) (x :: dequote u)) ≤ length b)%nat →
    (x ← fetch src (list_inserts dest (Some <$> o) b) j; b' ← store (dest + length o) x (list_inserts dest (Some <$> o) b);
     dequote_loop k dest src (S j) (S (length o)) b') =
    Ok (length (o ++ take (S k) (x :: dequote u)), list_inserts dest (Some <$> (o ++ take (S k) (x :: dequote u))) b)) as Hstep.
  { intros j x u Hj Ej <- Hroom. pose proof (lookup_lt_Some _ _ _ Ej). cbn [take length] in *.
    apply dequote_step; [lia|done|lia|]. apply IH; rewrite length_app; simpl; lia. }
  destruct ((c =? dquote) || (c =? backslash)); [|by apply (Hstep i c)]. destruct t as [|n t].
  - rewrite (fetch_ok o (S i)), (lookup_ge_None_2 s (S i)) by (apply (f_equal length) in Ed; rewrite length_drop in Ed; simpl in Ed; lia).
    by apply (Hstep i c []).
  - apply drop_cons in Ed as [En Ed']. pose proof (lookup_lt_Some _ _ _ En). rewrite (fetch_ok o (S i)), En by lia.
    cbn [from_option id mbind res_bind]. destruct (n =? dquote); [apply (Hstep (S i) n); [lia|done..]|].
    apply (Hstep i c (n :: t)); try done. by rewrite <- Ed', <- drop_S.
Qed.
End copy.

Lemma length_enquote n s : (length (enquote n s) ≤ n)%nat.
Proof.
  revert n. cut (∀ m n, (n < m)%nat → ∀ s, length (enquote n s) ≤ n)%nat; [intros H n; by apply (H (S n)); lia|].
  clear s. induction m as [|m IH]; intros n Hn [|c s]; try lia; destruct n as [|n]; simpl; try lia.
  destruct (c =? dquote); [destruct n as [|n]|]; simpl; [lia| |]; apply le_n_S; [apply le_n_S|]; apply IH; lia.
Qed.

(** The next state of the loop that enquotes. *)
Lemma enquote_loop_ok b dest b' p s maxlen :
  string_at b' p = Ok s → (3 ≤ maxlen)%nat → (dest + (maxlen - 2) ≤ length b)%nat → ∀ fuel i o,
  (i ≤ length s)%nat → (length o ≤ maxlen - 2)%nat → (length s - i < fuel ∨ maxlen - 2 - length o < fuel)%nat →
  enquote_loop fuel maxlen dest (There b' p) i (length o) (list_inserts dest (Some <$> o) b) =
    let out := o ++ enquote (maxlen - 2 - length o) (drop i s) in Ok (length out, list_inserts dest (Some <$> out) b).
Proof.
  intros Hs Hmax Hfit. induction fuel as [|fuel IH]; intros i o Hi Ho Hfuel; [lia|]. cbn [enquote_loop fetch].
  rewrite (string_load _ _ _ Hs) by done. cbn [mbind res_bind]. destruct (drop i s) as [|c t] eqn:Ed.
  { apply (f_equal length) in Ed. rewrite length_drop in Ed. simpl in Ed. rewrite lookup_ge_None_2 by lia. simpl. by rewrite app_nil_r. }
  apply drop_cons in Ed as [Ei Ed]. pose proof (lookup_lt_Some _ _ _ Ei). rewrite Ei. cbn [from_option id].
  rewrite (source_char b dest (There b' p) s Hs i c Ei). cbn [orb enquote].
  destruct (maxlen - 2 - length o)%nat as [|n] eqn:En; [by rewrite bool_decide_eq_true_2, app_nil_r by lia|].
  rewrite bool_decide_eq_false_2 by lia. destruct (c =? dquote).
  - destruct n as [|n]; [by rewrite bool_decide_eq_true_2, app_nil_r by lia|]. rewrite bool_decide_eq_false_2 by lia.
    rewrite store_snoc by lia. cbn [mbind res_bind].
    replace (S (length o)) with (length (o ++ [backslash])) by (rewrite length_app; simpl; lia).
    rewrite store_snoc by (rewrite length_app; simpl; lia). cbn [mbind res_bind]. rewrite <- (app_assoc o). cbn [app].
    replace (S (length (o ++ [backslash]))) with (length (o ++ [backslash; c])) by (rewrite !length_app; simpl; lia).
    rewrite IH by (rewrite ?length_app; simpl; lia). rewrite Ed, <- app_assoc, length_app. simpl.
    by replace (maxlen - 2 - (length o + 2))%nat with n by lia.
  - rewrite store_snoc by lia. cbn [mbind res_bind]. replace (S (length o)) with (length (o ++ [c])) by (rewrite length_app; simpl; lia).
    rewrite IH by (rewrite ?length_app; simpl; lia). rewrite Ed, <- app_assoc, length_app. simpl.
    by replace (maxlen - 2 - (length o + 1))%nat with n by lia.
Qed.

(** [ini_strncpy] stores what it copies behind [dest]; within one buffer it may
    copy to the left. *)
Lemma ini_strncpy_ok b dest src s maxlen option :
  source_ok b dest src s → (option = QUOTE_ENQUOTE → ∃ b' p, src = There b' p) →
  0 < maxlen < 2 ^ 32 → (dest + Z.to_nat maxlen ≤ length b)%nat →
  ini_strncpy b dest src maxlen option = Ok (list_inserts dest (Some <$> (copied option (Z.to_nat maxlen) s ++ [0])) b).
Proof.
  intros Hs Hq Hmax Hfit. unfold ini_strncpy. rewrite u32_small by lia. rewrite (proj2 (Z.ltb_lt 0 maxlen)) by lia.
  assert (apart b dest src option = Ok true) as ->.
  { destruct src as [p|b' p]; [|done]. destruct Hs as [Hs Hp]. unfold apart. rewrite (strlen_ok _ _ _ Hs). simpl. f_equal.
    apply orb_true_iff. left. apply orb_true_iff. destruct (decide (dest = p)) as [->|Hne].
    - right. apply bool_decide_eq_true_2. split; [done|]. intros ->. by destruct (Hq eq_refl) as (? & ? & ?).
    - left. apply bool_decide_eq_true_2. lia. }
  cbn [assert_that mbind res_bind]. set (n := Z.to_nat maxlen) in *.
  assert (Hcopy : copy_loop (n - 1) dest src 0 b = Ok (length (take (n - 1) s), list_inserts dest (Some <$> take (n - 1) s) b)).
  { apply (copy_loop_ok b dest src s Hs (n - 1) 0); [lia|]. pose proof (length_take s (n - 1)). simpl. lia. }
  pose proof (length_take s (n - 1)) as Hlen. destruct option; cbn [copied].
  - rewrite bool_decide_eq_false_2 by done. cbn [andb]. rewrite Hcopy. cbn [mbind res_bind]. rewrite bool_decide_eq_true_2 by lia. apply store_snoc. lia.
  - destruct (Hq eq_refl) as (b' & p & ->). rewrite bool_decide_eq_true_2 by done. cbn [andb]. destruct (Z.ltb_spec maxlen 3).
    + rewrite decide_True by lia. rewrite Hcopy. cbn [mbind res_bind]. rewrite bool_decide_eq_true_2 by lia. apply store_snoc. lia.
    + rewrite decide_False by lia. rewrite store_ok by lia. cbn [mbind res_bind].
      change (<[dest:=Some dquote]> b) with (list_inserts dest (Some <$> [dquote]) b).
      rewrite (enquote_loop_ok b dest b' p s n Hs) with (i := 0%nat) (o := [dquote]) by (simpl; lia).
      cbn [mbind res_bind]. pose proof (length_enquote (n - 3) s). replace (n - 2 - length [dquote])%nat with (n - 3)%nat by (simpl; lia).
      rewrite drop_0. set (o := [dquote] ++ enquote (n - 3) s). assert (length o = S (length (enquote (n - 3) s))) by done.
      rewrite store_snoc by lia. cbn [mbind res_bind]. replace (S (length o)) with (length (o ++ [dquote])) by (rewrite length_app; simpl; lia).
      rewrite store_snoc by (rewrite length_app; simpl; lia). unfold o. simpl. by rewrite <- !app_assoc.
  - rewrite bool_decide_eq_false_2 by done. pose proof (length_take (dequote s) (n - 1)).
    pose proof (dequote_loop_ok b dest src s Hs (n - 1) 0 []) as E. rewrite drop_0 in E. cbn [app length fmap list_fmap map list_inserts] in E.
    cbn [andb]. rewrite E by lia. apply store_snoc. lia.
Qed.

(** ** Values *)

Lemma uncomment_prefix s q : uncomment s q = take (length (uncomment s q)) s.
Proof.
  remember (length s) as n eqn:Hn. revert s q Hn. induction n as [n IH] using lt_wf_ind. intros [|c s] q ->; [done|].
  cbn [uncomment]. assert (∀ t r, (length t < length (c :: s))%nat → uncomment t r = take (length (uncomment t r)) t) as IH'
    by (intros t r Ht; by apply (IH (length t))).
  destruct (_ && _); [done|]. cbn [length] in IH'.
  destruct (c =? dquote); [|destruct (c =? backslash)]; try (destruct s as [|d s]; [done|]; destruct (d =? dquote));
    cbn [length take] in *; rewrite <- IH' by (simpl; lia); done.
Qed.

Lemma comment_loop_ok b p s : string_at b p = Ok s → ∀ fuel i q,
  (i ≤ length s)%nat → (length s - i < fuel)%nat →
  comment_loop fuel b (p + i) q = Ok (p + i + length (uncomment (drop i s) q))%nat.
Proof.
  intros Hs. induction fuel as [|fuel IH]; intros i q Hi Hf; [lia|]. cbn [comment_loop].
  rewrite (string_load _ _ _ Hs) by done. destruct (drop i s) as [|c t] eqn:Ed.
  { apply (f_equal length) in Ed. rewrite length_drop in Ed. simpl in Ed. rewrite lookup_ge_None_2 by lia. simpl. f_equal. lia. }
  apply drop_cons in Ed as [Ei Ed]. pose proof (lookup_lt_Some _ _ _ Ei). rewrite Ei. cbn [from_option id mbind res_bind uncomment].
  rewrite (source_char b p (There b p) s Hs i c Ei). cbn [orb]. destruct (_ && _); [simpl; f_equal; lia|].
  assert (∀ q, comment_loop fuel b (S (p + i)) q = Ok (p + i + length (c :: uncomment t q))%nat) as Hnext.
  { intros q'. rewrite <- Nat.add_succ_r, IH, Ed by lia. simpl. f_equal. lia. }
  destruct (c =? dquote) eqn:Eq; [|destruct (c =? backslash) eqn:Eb; [|by apply Hnext]];
    (rewrite <- Nat.add_succ_r, (string_load _ _ _ Hs) by lia; destruct t as [|d t];
     [rewrite (lookup_ge_None_2 s (S i)) by (apply (f_equal length) in Ed; rewrite length_drop in Ed; simpl in Ed; lia);
      cbn [from_option id mbind res_bind]; rewrite Nat.add_succ_r; by rewrite Hnext|]);
    pose proof Ed as Ed'; apply drop_cons in Ed' as [En Ed'];
    pose proof (lookup_lt_Some _ _ _ En); rewrite En; cbn [from_option id mbind res_bind];
    (destruct (d =? dquote); [|rewrite Nat.add_succ_r; by apply Hnext]);
    (rewrite <- Nat.add_succ_r, IH, Ed' by lia; simpl; f_equal; lia).
Qed.

Lemma cleanstring_ok b p s :
  string_at b p = Ok s → ∃ p' q b' u, cleanstring b p = Ok (p', q, b') ∧ (p ≤ p')%nat ∧ q ≠ QUOTE_ENQUOTE ∧ string_at b' p' = Ok u ∧
    (∀ n, copied q n u = take (n - 1) (unquoted (rstrip (uncomment s false)))) ∧
    length b' = length b ∧ (∀ i, (i < p)%nat → b' !! i = b !! i).
Proof.
  intros Hs. unfold cleanstring. pose proof (string_fits _ _ _ Hs) as Hfit. pose proof (uncomment_prefix s false) as Hu.
  set (u := uncomment s false) in *. assert (length u ≤ length s)%nat as Hlen by (rewrite Hu, length_take; lia).
  pose proof (comment_loop_ok b p s Hs (S (length b)) 0 false) as Ec. rewrite Nat.add_0_r in Ec. rewrite Ec by lia.
  cbn [mbind res_bind]. rewrite drop_0. fold u. rewrite store_ok by lia. cbn [mbind res_bind].
  pose proof (string_at_cut b p s (length u) Hs Hlen) as Hcut. rewrite <- Hu in Hcut.
  destruct (striptrailing_ok _ _ _ Hcut) as (b1 & -> & Hw & Hl1 & Hb1). cbn [mbind res_bind]. set (w := rstrip u) in *.
  rewrite length_insert in Hl1. pose proof (string_fits _ _ _ Hw) as Hfit1.
  assert (∀ i, (i < p)%nat → b1 !! i = b !! i) as Hlow. { intros i Hi. rewrite Hb1 by lia. apply list_lookup_insert_ne. lia. }
  pose proof (string_load _ _ _ Hw 0) as E0. rewrite Nat.add_0_r in E0. rewrite E0 by lia. cbn [mbind res_bind]. unfold unquoted.
  assert ((default 0 (w !! 0%nat) =? dquote) = bool_decide (head w = Some dquote)) as ->.
  { destruct w as [|c w']; [done|]. simpl. destruct (Z.eqb_spec c dquote); [by rewrite bool_decide_eq_true_2 by congruence|].
    by rewrite bool_decide_eq_false_2 by congruence. }
  case_bool_decide as Hh; cbn [andb]; [|by eauto 12].
  rewrite (strlen_ok _ _ _ Hw). cbn [mbind res_bind]. destruct w as [|c w'] eqn:Ew; [done|]. injection Hh as ->.
  set (w0 := dquote :: w') in *. assert (length w0 = S (length w')) as Hlw by done.
  replace (p + length w0 - 1)%nat with (p + (length w0 - 1))%nat by lia. rewrite (string_load _ _ _ Hw) by lia. cbn [mbind res_bind].
  rewrite last_lookup. replace (Init.Nat.pred (length w0)) with (length w0 - 1)%nat by lia.
  destruct (lookup_lt_is_Some_2 w0 (length w0 - 1)) as [c Hc]; [lia|]. rewrite Hc. cbn [from_option id].
  destruct (Z.eqb_spec c dquote) as [->|Hne]; [rewrite bool_decide_eq_true_2 by done|rewrite bool_decide_eq_false_2 by congruence; by eauto 12].
  rewrite store_ok by lia. exists (S p), QUOTE_DEQUOTE, (<[(p + (length w0 - 1))%nat := Some 0]> b1), (take (length w0 - 2) w').
  rewrite length_insert. split_and!; [done|lia|done| |done|done|intros i Hi; rewrite list_lookup_insert_ne by lia; by apply Hlow].
  pose proof (string_at_drop _ _ _ Hw 1) as Htail. rewrite Nat.add_1_r in Htail. specialize (Htail ltac:(lia)). change (drop 1 w0) with w' in Htail.
  replace (length w0 - 2)%nat with (length w' - 1)%nat by lia. destruct w' as [|d w'].
  - eapply string_at_same; [exact Htail|]. intros i Hi. apply list_lookup_insert_ne. simpl. lia.
  - replace (p + (length w0 - 1))%nat with (S p + (length (d :: w') - 1))%nat by (simpl in *; lia). apply string_at_cut; [done|lia].
Qed.

(** ** Lines *)

Lemma next_line_prefix n t : next_line n t = take (length (next_line n t)) t.
Proof. revert t. induction n as [|n IH]; intros [|c t]; simpl; try done. destruct (c =? 10); simpl; [by rewrite take_0|by rewrite <- IH]. Qed.

Lemma length_next_line n t : (length (next_line n t) ≤ n)%nat.
Proof. revert t. induction n as [|n IH]; intros [|c t]; simpl; try lia. destruct (c =? 10); simpl; [lia|]. specialize (IH t). lia. Qed.

Lemma next_line_nil n t : next_line (S n) t = [] ↔ t = [].
Proof. destruct t as [|c t]; simpl; [done|]. by destruct (c =? 10). Qed.

(** A line that fits is the same with less room. *)
Lemma next_line_shorter m n t : (length (next_line n t) ≤ m ≤ n)%nat → next_line m t = next_line n t.
Proof.
  revert m t. induction n as [|n IH]; intros [|m] [|c t] Hm; simpl in *; try done; try lia.
  - destruct (c =? 10); simpl in Hm; lia.
  - destruct (c =? 10); simpl in *; [done|]. f_equal. apply IH. lia.
Qed.

Lemma pieces_of_fuel fuel t : (length t ≤ fuel)%nat → pieces_of fuel t = pieces t.
Proof.
  unfold pieces. cut (∀ n f g t, (length t ≤ n)%nat → (length t ≤ f)%nat → (length t ≤ g)%nat → pieces_of f t = pieces_of g t); [eauto|].
  clear. induction n as [|n IH]; intros f g t Hn Hf Hg.
  - destruct t; [|simpl in Hn; lia]. by destruct f, g.
  - destruct f, g; cbn [pieces_of]; try (destruct t; simpl in *; [done|lia]).
    destruct (next_line _ t) as [|c l] eqn:El; [done|]. f_equal.
    apply IH; rewrite length_drop; simpl; lia.
Qed.

Lemma pieces_nil : pieces [] = [].
Proof. done. Qed.

(** The first piece of a text, and the others. *)
Lemma pieces_step t :
  t ≠ [] → ∃ l, next_line (INI_BUFFERSIZE - 1) t = l ∧ l ≠ [] ∧ t = l ++ drop (length l) t ∧ pieces t = l :: pieces (drop (length l) t).
Proof.
  intros Ht. eexists. split; [done|]. destruct (next_line (INI_BUFFERSIZE - 1) t) as [|c l] eqn:El.
  { exfalso. apply Ht. by apply (next_line_nil 510). }
  split_and!; [done| |].
  - rewrite <- El. rewrite next_line_prefix at 1. by rewrite take_drop.
  - unfold pieces at 1. destruct t as [|d t]; [done|]. cbn [length pieces_of]. rewrite El. f_equal. apply pieces_of_fuel.
    rewrite length_drop. simpl. lia.
Qed.

Lemma concat_pieces t : concat (pieces t) = t.
Proof.
  remember (length t) as n eqn:Hn. revert t Hn. induction n as [n IH] using lt_wf_ind. intros t ->.
  destruct (decide (t = [])) as [->|Ht]; [done|]. destruct (pieces_step t Ht) as (l & _ & Hl & Et & ->). simpl.
  rewrite (IH (length (drop (length l) t))); [done| |done]. rewrite length_drop. destruct l; [done|]. destruct t; [done|]. simpl. lia.
Qed.

Lemma string_of_before_zero l rest : string_of ((Some <$> l) ++ Some 0 :: rest) = Ok (before_zero l).
Proof. induction l as [|c l IH]; [done|]. simpl. destruct (c =? 0); [done|]. unfold fmap in IH |- *. by rewrite IH. Qed.

Lemma before_zero_id l : 0 ∉ l → before_zero l = l.
Proof.
  induction l as [|c l IH]; [done|]. rewrite not_elem_of_cons. intros [Hc Hl]. simpl.
  rewrite (proj2 (Z.eqb_neq c 0)) by congruence. by rewrite IH.
Qed.

(** Bytes stored at the beginning of a buffer. *)
Lemma inserts_0 (data : list Z) (b : cbuf) :
  (length data ≤ length b)%nat → list_inserts 0 (Some <$> data) b = (Some <$> data) ++ drop (length data) b.
Proof.
  revert b. induction data as [|c data IH]; intros [|d b] Hl; simpl in *; try done; [lia|].
  rewrite list_inserts_cons. simpl. f_equal. apply IH. lia.
Qed.

(** Reading a line to the beginning of the buffer. *)
Lemma ini_read_ok text pos b :
  length b = INI_BUFFERSIZE →
  (drop pos text = [] ∧ ini_read text pos b 0 INI_BUFFERSIZE = Ok (false, pos, b)) ∨
  (∃ l, drop pos text ≠ [] ∧ next_line (INI_BUFFERSIZE - 1) (drop pos text) = l ∧ l ≠ [] ∧
     pieces (drop pos text) = l :: pieces (drop (pos + length l) text) ∧
     ini_read text pos b 0 INI_BUFFERSIZE = Ok (true, (pos + length l)%nat, list_inserts 0 (Some <$> (l ++ [0])) b) ∧
     length (list_inserts 0 (Some <$> (l ++ [0])) b) = INI_BUFFERSIZE ∧
     string_at (list_inserts 0 (Some <$> (l ++ [0])) b) 0 = Ok (before_zero l)).
Proof.
  intros Hb. unfold ini_read. destruct (decide (drop pos text = [])) as [E|Ht]; [left; by rewrite E|right].
  destruct (pieces_step _ Ht) as (l & El & Hl & _ & Ep). exists l.
  pose proof (length_next_line (INI_BUFFERSIZE - 1) (drop pos text)) as Hlen. rewrite El in Hlen. unfold INI_BUFFERSIZE in *.
  rewrite El. split_and!; [done|done|done|by rewrite Ep, drop_drop| | |].
  - destruct l as [|c l]; [done|]. rewrite store_all_ok by (rewrite length_app; simpl in *; lia). done.
  - by rewrite length_inserts.
  - unfold string_at. rewrite drop_0, inserts_0 by (rewrite length_app; simpl in *; lia).
    rewrite fmap_app, <- app_assoc. apply string_of_before_zero.
Qed.

(** ** The tests on a line *)

Lemma line_start b p s :
  string_at b p = Ok s → ∃ sp, (p ≤ sp)%nat ∧ skipleading b p = Ok sp ∧ string_at b sp = Ok (lstrip s) ∧ load b sp = Ok (default 0 (head (lstrip s))).
Proof.
  intros Hs. destruct (skipleading_ok b p s Hs) as (i & Hi & _ & E & Ht). exists (p + i)%nat. split_and!; [lia|done|done|].
  pose proof (string_load _ _ _ Ht 0) as E0. rewrite Nat.add_0_r in E0. rewrite E0 by lia. by destruct (lstrip s).
Qed.

Lemma isc_char c a : isc c a = true → c = char_code a.
Proof. apply Z.eqb_eq. Qed.

Lemma heading_cases b sp s :
  string_at b sp = Ok (lstrip s) → ∃ ep, strrchr b sp (char_code "]") = Ok ep ∧
    let c := default 0 (head (lstrip s)) in
    ((∃ i name, ep = Some (sp + i)%nat ∧ isc c "[" = true ∧ (0 < i < length (lstrip s))%nat ∧
        name = take (i - 1) (tail (lstrip s)) ∧ parse_line s = LHeading (fold_case name) ∧
        ∀ other, 0 ∉ other → same_name b (S sp) (sp + i) other = Ok (bool_decide (fold_case name = fold_case other))) ∨
     ((ep = None ∨ isc c "[" = false) ∧ ∀ name, parse_line s ≠ LHeading name)).
Proof.
  intros Ht. eexists. split; [by apply strrchr_ok|]. unfold parse_line. destruct (lstrip s) as [|c t]; [by right; auto|].
  cbn [head from_option id tail]. destruct (isc c "[") eqn:Ec.
  - destruct (last_index_of _ (c :: t)) as [i|] eqn:Ei; [left|by right; auto].
    apply last_index_of_lt in Ei as [Hi Hc]. apply isc_char in Ec as ->. destruct i as [|i]; [done|].
    exists (S i), (take (S i - 1) t). split_and!; [done|done|lia|done|done|done|]. intros other H0.
    pose proof (string_at_drop _ _ _ Ht 1) as Htail. rewrite Nat.add_1_r in Htail. simpl in Hi.
    rewrite (same_name_ok _ _ t) by (done || lia || (apply Htail; simpl; lia)).
    by replace (sp + S i - S sp)%nat with (S i - 1)%nat by lia.
  - right. split; [by right|]. intros name. by destruct (_ || _), (separator_index (c :: t)).
Qed.

Lemma key_cases b sp s :
  string_at b sp = Ok (lstrip s) → ∃ ep, separator b sp = Ok ep ∧
    let c := default 0 (head (lstrip s)) in
    ((isc c "[" = true ∧ (parse_line s = LOpen ∨ ∃ name, parse_line s = LHeading name)) ∨
     (isc c "[" = false ∧ (ep = None ∨ isc c ";" || isc c "#" = true) ∧ parse_line s = LOther) ∨
     (isc c "[" = false ∧ isc c ";" || isc c "#" = false ∧ ∃ i, ep = Some (sp + i)%nat ∧ separator_index (lstrip s) = Some i ∧
        parse_line s = LEntry (fold_case (rstrip (take i (lstrip s)))) (value_of (drop (S i) (lstrip s))))).
Proof.
  intros Ht. eexists. split; [by apply separator_ok|]. unfold parse_line. destruct (lstrip s) as [|c t]; [by right; left; auto|].
  cbn [head from_option id tail]. destruct (isc c "[") eqn:Ec.
  - left. split; [done|]. destruct (last_index_of _ _); eauto.
  - right. destruct (isc c ";" || isc c "#") eqn:Ek; [left; by auto|]. destruct (separator_index (c :: t)) as [i|]; [right; split_and!; [done|done|by exists i]|left; split_and!; [done|by left|done]].
Qed.

(** The name in front of the separator. *)
Lemma key_name_ok b sp t i name :
  string_at b sp = Ok t → (i ≤ length t)%nat → 0 ∉ name →
  (last ← skiptrailing b (sp + i) sp; same_name b sp last name) = Ok (bool_decide (fold_case (rstrip (take i t)) = fold_case name)).
Proof.
  intros Ht Hi H0. rewrite (skiptrailing_ok b sp t i Ht Hi). cbn [mbind res_bind].
  pose proof (length_rstrip (take i t)) as Hr. rewrite length_take in Hr. rewrite (same_name_ok b sp t) by (done || lia).
  replace (sp + length (rstrip (take i t)) - sp)%nat with (length (rstrip (take i t))) by lia.
  assert (take (length (rstrip (take i t))) t = rstrip (take i t)) as ->; [|done].
  rewrite <- (take_length_rstrip (take i t)) at 2. by rewrite take_take, Nat.min_l by lia.
Qed.

(** ** Searching *)

(** [x] is the first element of [l] with [P]. *)
Definition first_such {A} (P : A → Prop) (l before : list A) (x : A) (after : list A) : Prop :=
  l = before ++ x :: after ∧ Forall (λ y, ¬ P y) before ∧ P x.

Lemma first_such_here {A} (P : A → Prop) x l : P x → first_such P (x :: l) [] x l.
Proof. intros Hx. by split_and!. Qed.

Lemma first_such_later {A} (P : A → Prop) y l before x after :
  ¬ P y → first_such P l before x after → first_such P (y :: l) (y :: before) x after.
Proof. intros Hy (-> & Hb & Hx). split_and!; [done|by constructor|done]. Qed.

(** The lines of a file from a position, and what is behind a part of them. *)
Lemma pieces_behind t before x after :
  pieces t = before ++ x :: after → after = pieces (drop (length (concat before) + length x) t).
Proof.
  revert t. induction before as [|y before IH]; intros t E.
  - destruct (decide (t = [])) as [->|Ht]; [done|]. destruct (pieces_step t Ht) as (l & _ & _ & _ & E'). simpl in *. congruence.
  - destruct (decide (t = [])) as [->|Ht]; [done|]. destruct (pieces_step t Ht) as (l & _ & _ & _ & E').
    rewrite E' in E. injection E as -> E. apply IH in E as ->. rewrite drop_drop. simpl. rewrite length_app. by rewrite Nat.add_assoc.
Qed.

Lemma shorter_behind (text : list Z) pos (l : list Z) fuel :
  drop pos text ≠ [] → l ≠ [] → (length (drop pos text) < S fuel)%nat → (length (drop (pos + length l) text) < fuel)%nat.
Proof.
  intros Ht Hl Hf. rewrite length_drop in *. destruct l; [done|]. destruct (decide (pos < length text)%nat); [simpl; lia|].
  by rewrite drop_ge in Ht by lia.
Qed.

(** Looking for a heading: the result of the search from [pos]. *)
Definition section_found (text name : list Z) (pos : nat) (r : res (option (Z * nat * cbuf * nat * nat))) : Prop :=
  let P p := parse p = LHeading (fold_case name) in
  (r = Ok None ∧ Forall (λ p, ¬ P p) (pieces (drop pos text))) ∨
  (∃ idx b sp ep before h after,
     r = Ok (Some (idx, (pos + (length (concat before) + length h))%nat, b, sp, ep)) ∧
     length b = INI_BUFFERSIZE ∧ first_such P (pieces (drop pos text)) before h after).

Lemma section_found_later text name pos l r :
  pieces (drop pos text) = l :: pieces (drop (pos + length l) text) → parse l ≠ LHeading (fold_case name) →
  section_found text name (pos + length l) r → section_found text name pos r.
Proof.
  unfold section_found. intros -> HP [(-> & Hall)|(idx & b & sp & ep & before & h & after & -> & Hb & Hfirst)].
  - left. split; [done|]. by constructor.
  - right. exists idx, b, sp, ep, (l :: before), h, after. split_and!; [|done|by apply first_such_later].
    simpl. by rewrite length_app, <- !Nat.add_assoc.
Qed.

Lemma section_loop_ok text name : 0 ∉ name → ∀ fuel pos b idx,
  length b = INI_BUFFERSIZE → -1 ≤ idx → (length (drop pos text) < fuel)%nat →
  section_found text name pos (section_loop fuel text (Some name) (-1) pos b idx).
Proof.
  intros H0. induction fuel as [|fuel IH]; intros pos b idx Hb Hidx Hf; [lia|]. cbn [section_loop].
  destruct (ini_read_ok text pos b Hb) as [(Et & ->)|(l & Ht & El & Hl & Ep & -> & Hb' & Hs)]; cbn [mbind res_bind negb].
  { left. rewrite Et. by split. }
  destruct (line_start _ _ _ Hs) as (sp & _ & -> & Hsp & Ec). cbn [mbind res_bind].
  destruct (heading_cases _ _ _ Hsp) as (ep & -> & Hcases). cbn [mbind res_bind]. rewrite Ec. cbn [mbind res_bind].
  set (b1 := list_inserts 0 _ b) in *.
  assert (∀ idx', -1 ≤ idx' → parse l ≠ LHeading (fold_case name) →
    section_found text name pos (section_loop fuel text (Some name) (-1) (pos + length l) b1 idx')) as Hnext.
  { intros. eapply section_found_later; [done..|]. apply IH; [done..|]. by apply shorter_behind. }
  destruct Hcases as [(i & n & -> & Hc & Hi & _ & Eline & Hsame)|(Hno & Hline)].
  - rewrite Hc. cbn [negb]. rewrite Hsame by done. cbn [mbind res_bind]. case_bool_decide as Hn.
    + right. exists idx, b1, sp, (sp + i)%nat, [], l, (pieces (drop (pos + length l) text)).
      split_and!; [done|done|]. rewrite Ep. apply first_such_here. unfold parse. by rewrite Eline, Hn.
    + rewrite (proj2 (Z.eqb_neq (idx + 1) (-1))) by lia. apply Hnext; [lia|]. unfold parse. rewrite Eline. congruence.
  - destruct ep as [ep|]; [|by apply Hnext, Hline]. destruct Hno as [?|Hno]; [done|rewrite Hno]. by apply Hnext, Hline.
Qed.

(** A line at which the search for a key ends. *)
Definition stops (key : list Z) (l : line) : Prop :=
  match l with LHeading _ | LOpen => True | LEntry k _ => k = key | LOther => False end.
#[export] Instance stops_dec key l : Decision (stops key l).
Proof. destruct l; simpl; apply _. Defined.

(** Looking for a key: the result of the search from [pos]. *)
Definition key_found (text name : list Z) (pos : nat) (r : res (option (nat * Z * nat * cbuf * nat * nat))) : Prop :=
  let P p := stops (fold_case name) (parse p) in
  (r = Ok None ∧
     (Forall (λ p, ¬ P p) (pieces (drop pos text)) ∨
      ∃ before h after, first_such P (pieces (drop pos text)) before h after ∧ ∀ k v, parse h ≠ LEntry k v)) ∨
  (∃ idx b sp i before l after,
     r = Ok (Some ((pos + length (concat before))%nat, idx, (pos + (length (concat before) + length l))%nat, b, sp, (sp + i)%nat)) ∧
     length b = INI_BUFFERSIZE ∧ first_such P (pieces (drop pos text)) before l after ∧
     string_at b sp = Ok (lstrip (before_zero l)) ∧ separator_index (lstrip (before_zero l)) = Some i ∧
     parse l = LEntry (fold_case name) (value_of (drop (S i) (lstrip (before_zero l))))).

Lemma key_found_later text name pos l r :
  pieces (drop pos text) = l :: pieces (drop (pos + length l) text) → ¬ stops (fold_case name) (parse l) →
  key_found text name (pos + length l) r → key_found text name pos r.
Proof.
  unfold key_found. intros -> HP [(-> & Hall)|(idx & b & sp & i & before & h & after & -> & Hb & Hfirst & Hrest)].
  - left. split; [done|]. destruct Hall as [Hall|(before & h & after & Hfirst & Hh)]; [left; by constructor|right].
    exists (l :: before), h, after. by split; [apply first_such_later|].
  - right. exists idx, b, sp, i, (l :: before), h, after. split_and!; [|done|by apply first_such_later|apply Hrest..].
    simpl. by rewrite length_app, <- !Nat.add_assoc.
Qed.

Lemma key_loop_ok text name : 0 ∉ name → name ≠ [] → ∀ fuel pos b idx,
  length b = INI_BUFFERSIZE → -1 ≤ idx → (length (drop pos text) < fuel)%nat →
  key_found text name pos (key_loop fuel text (Some name) (-1) pos b idx).
Proof.
  intros H0 Hname. induction fuel as [|fuel IH]; intros pos b idx Hb Hidx Hf; [lia|]. cbn [key_loop].
  destruct (ini_read_ok text pos b Hb) as [(Et & ->)|(l & Ht & El & Hl & Ep & -> & Hb' & Hs)]; cbn [mbind res_bind negb].
  { left. rewrite Et. by split; [|left]. }
  destruct (line_start _ _ _ Hs) as (sp & _ & -> & Hsp & Ec). cbn [mbind res_bind]. rewrite Ec. cbn [mbind res_bind].
  destruct (key_cases _ _ _ Hsp) as (ep & -> & Hcases). cbn [mbind res_bind]. set (b1 := list_inserts 0 _ b) in *.
  assert (∀ idx', -1 ≤ idx' → ¬ stops (fold_case name) (parse l) →
    key_found text name pos (key_loop fuel text (Some name) (-1) (pos + length l) b1 idx')) as Hnext.
  { intros. eapply key_found_later; [done..|]. apply IH; [done..|]. by apply shorter_behind. }
  destruct Hcases as [(Hc & Hline)|[(Hc & Hno & Hline)|(Hc & Hk & i & -> & Hi & Hline)]]; rewrite Hc.
  - left. split; [done|]. right. exists [], l, (pieces (drop (pos + length l) text)). rewrite Ep.
    split; [apply first_such_here|]; unfold parse; destruct Hline as [->|[n ->]]; done.
  - assert (¬ stops (fold_case name) (parse l)) as HP by (unfold parse; rewrite Hline; by intros []).
    destruct ep as [ep|]; [|by apply Hnext]. destruct Hno as [?|Hno]; [done|rewrite Hno]. by apply Hnext.
  - rewrite Hk, (bool_decide_eq_false_2 (name = [])) by done.
    rewrite (key_name_ok _ _ (lstrip (before_zero l))) by (done || (apply separator_index_lt in Hi; lia)). cbn [mbind res_bind].
    case_bool_decide as Hn.
    + right. exists idx, b1, sp, i, [], l, (pieces (drop (pos + length l) text)). rewrite Ep. split_and!; try done.
      * by rewrite Nat.add_0_r.
      * apply first_such_here. unfold parse. by rewrite Hline.
      * unfold parse. by rewrite Hline, Hn.
    + rewrite (proj2 (Z.eqb_neq (idx + 1) (-1))) by lia. apply Hnext; [lia|]. unfold parse. by rewrite Hline.
Qed.

(** ** [getkeystring] *)

Lemma in_section_first name ps before h after :
  first_such (λ p, parse p = LHeading name) ps before h after → in_section name (map parse ps) = Some (map parse after).
Proof.
  intros (-> & Hb & Hh). induction Hb as [|y before Hy _ IH]; simpl; [by rewrite Hh, decide_True|].
  destruct (parse y) eqn:Ey; try done. rewrite decide_False by congruence. done.
Qed.

Lemma in_section_none name ps : Forall (λ p, parse p ≠ LHeading name) ps → in_section name (map parse ps) = None.
Proof. induction 1 as [|y ps Hy _ IH]; simpl; [done|]. destruct (parse y); try done. by rewrite decide_False by congruence. Qed.

Lemma in_keys_first key ps before l after :
  first_such (λ p, stops key (parse p)) ps before l after →
  in_keys key (map parse ps) = match parse l with LEntry _ v => Some v | _ => None end.
Proof.
  intros (-> & Hb & Hl). induction Hb as [|y before Hy _ IH]; simpl.
  - destruct (parse l); try done. simpl in Hl. by rewrite decide_True.
  - destruct (parse y) eqn:Ey; simpl in Hy; try tauto. by rewrite decide_False.
Qed.

Lemma in_keys_none key ps : Forall (λ p, ¬ stops key (parse p)) ps → in_keys key (map parse ps) = None.
Proof. induction 1 as [|y ps Hy _ IH]; simpl; [done|]. destruct (parse y); simpl in Hy; try tauto. by rewrite decide_False. Qed.

(** Lines that say nothing are not looked at. *)
Lemma in_section_filter name ls :
  in_section name (filter (λ l, l ≠ LOther) ls) = filter (λ l, l ≠ LOther) <$> in_section name ls.
Proof.
  induction ls as [|l ls IH]; [done|].
  destruct l; [rewrite filter_cons_True by done..|by rewrite filter_cons_False by tauto]; simpl; [by destruct (decide _)|done..].
Qed.

Lemma in_keys_filter key ls : in_keys key (filter (λ l, l ≠ LOther) ls) = in_keys key ls.
Proof.
  induction ls as [|l ls IH]; [done|].
  destruct l; [rewrite filter_cons_True by done..|by rewrite filter_cons_False by tauto]; simpl; [done..|by destruct (decide _)].
Qed.

Lemma lookup_setting_filter Section Key ls :
  lookup_setting Section Key (filter (λ l, l ≠ LOther) ls) = lookup_setting Section Key ls.
Proof.
  unfold lookup_setting, section_lines. destruct (decide _); simpl; [apply in_keys_filter|]. rewrite in_section_filter.
  destruct (in_section _ ls); simpl; [apply in_keys_filter|done].
Qed.

(** The lines up to the heading of a section, and those behind it. *)
Definition section_area (Section : list Z) (ps top rest : list (list Z)) : Prop :=
  (Section = [] ∧ top = [] ∧ rest = ps) ∨
  (Section ≠ [] ∧ ∃ before h, first_such (λ p, parse p = LHeading (fold_case Section)) ps before h rest ∧ top = before ++ [h]).

Lemma section_area_app Section ps top rest : section_area Section ps top rest → ps = top ++ rest.
Proof. intros [(_ & -> & ->)|(_ & before & h & (-> & _) & ->)]; [done|]. by rewrite <- app_assoc. Qed.

Lemma section_area_lookup Section Key ps top rest :
  section_area Section ps top rest → lookup_setting Section Key (map parse ps) = in_keys (fold_case Key) (map parse rest).
Proof.
  unfold lookup_setting, section_lines. intros [(-> & _ & ->)|(Hne & before & h & Hf & _)]; [done|].
  rewrite decide_False by done. by rewrite (in_section_first _ _ _ _ _ Hf).
Qed.

(** The line of a setting in a file. *)
Definition setting_line (Section Key : list Z) (ps top mid : list (list Z)) (l : list Z) (after : list (list Z)) (v : list Z) : Prop :=
  ∃ rest, section_area Section ps top rest ∧ first_such (λ p, stops (fold_case Key) (parse p)) rest mid l after ∧
          parse l = LEntry (fold_case Key) v.

Lemma setting_line_lookup Section Key ps top mid l after v :
  setting_line Section Key ps top mid l after v → lookup_setting Section Key (map parse ps) = Some v.
Proof.
  intros (rest & Ha & Hf & Hl). rewrite (section_area_lookup _ _ _ _ _ Ha), (in_keys_first _ _ _ _ _ Hf). by rewrite Hl.
Qed.

Section getkeystring.
Context (text Key : list Z) (Buffer : cbuf) (n : Z).
Context (HKey : 0 ∉ Key) (HKey' : Key ≠ []) (Hn : 0 < n < 2 ^ 31) (HBuffer : (Z.to_nat n ≤ length Buffer)%nat).

(** The value of a line goes to the buffer. *)
Lemma getkey_entry_ok pos b :
  length b = INI_BUFFERSIZE →
  (getkey_entry text (Some Key) (-1) Buffer n pos b = Ok None ∧ in_keys (fold_case Key) (map parse (pieces (drop pos text))) = None) ∨
  (∃ mid l after v,
     first_such (λ p, stops (fold_case Key) (parse p)) (pieces (drop pos text)) mid l after ∧ parse l = LEntry (fold_case Key) v ∧
     getkey_entry text (Some Key) (-1) Buffer n pos b =
       Ok (Some (list_inserts 0 (Some <$> (take (Z.to_nat n - 1) v ++ [0])) Buffer,
                 (pos + length (concat mid))%nat, (pos + (length (concat mid) + length l))%nat))).
Proof using HKey HKey' Hn HBuffer.
  intros Hb. unfold getkey_entry. cbn [assert_that bool_decide is_Some orb mbind res_bind].
  rewrite bool_decide_eq_true_2 by eauto. cbn [assert_that orb mbind res_bind].
  destruct (key_loop_ok text Key HKey HKey' (S (length text)) pos b (-1)) as [(-> & Hno)|(idx & b1 & sp & i & mid & l & after & -> & Hb1 & Hfirst & Hsp & Hi & Hl)];
    [done|lia|rewrite length_drop; lia| |]; cbn [mbind res_bind].
  - left. split; [done|]. destruct Hno as [Hno|(before & h & after & Hfirst & Hh)]; [by apply in_keys_none|].
    rewrite (in_keys_first _ _ _ _ _ Hfirst). destruct (parse h) as [| |k v|]; try done. by destruct (Hh k v).
  - right. change (0 <=? -1) with false. cbn iota. apply separator_index_lt in Hi.
    pose proof (string_at_drop _ _ _ Hsp (S i) Hi) as Hrest. rewrite Nat.add_succ_r in Hrest.
    destruct (line_start _ _ _ Hrest) as (sp1 & _ & -> & Hsp1 & _). cbn [mbind res_bind].
    destruct (cleanstring_ok _ _ _ Hsp1) as (sp2 & q & b2 & u & -> & _ & Hq & Hu & Hcopied & _). cbn [mbind res_bind].
    rewrite (ini_strncpy_ok Buffer 0 (There b2 sp2) u) by (done || lia). rewrite Hcopied. cbn [mbind res_bind].
    by exists mid, l, after, (value_of (drop (S i) (lstrip (before_zero l)))).
Qed.

Lemma getkeystring_ok Section :
  0 ∉ default [] Section →
  (getkeystring text 0 Section (Some Key) (-1) (-1) Buffer n = Ok None ∧
     lookup_setting (default [] Section) Key (map parse (pieces text)) = None) ∨
  (∃ top mid l after v,
     setting_line (default [] Section) Key (pieces text) top mid l after v ∧
     getkeystring text 0 Section (Some Key) (-1) (-1) Buffer n =
       Ok (Some (list_inserts 0 (Some <$> (take (Z.to_nat n - 1) v ++ [0])) Buffer,
                 length (concat (top ++ mid)), (length (concat (top ++ mid)) + length l)%nat))).
Proof using HKey HKey' Hn HBuffer.
  intros HSec. unfold getkeystring. assert (length (new_buffer INI_BUFFERSIZE) = INI_BUFFERSIZE) as Hnew by apply length_replicate.
  destruct (decide (default [] Section = [])) as [Es|Hs].
  - assert (default 0%nat (length <$> Section) = 0%nat) as -> by (destruct Section; simpl in *; by subst). simpl.
    destruct (getkey_entry_ok 0 _ Hnew) as [(-> & Hno)|(mid & l & after & v & Hfirst & Hl & ->)]; rewrite drop_0 in *.
    + left. split; [done|]. rewrite (section_area_lookup _ _ _ [] (pieces text)); [done|]. by left.
    + right. exists [], mid, l, after, v. split; [|done]. exists (pieces text). split_and!; [by left|done|done].
  - destruct Section as [sec|]; [|done]. cbn [from_option id fmap option_fmap option_map] in Hs, HSec |- *. rewrite bool_decide_eq_true_2 by (destruct sec; [done|simpl; lia]).
    change (0 <=? -1) with false. cbn [orb]. rewrite bool_decide_eq_true_2 by eauto. cbn [assert_that mbind res_bind].
    destruct (section_loop_ok text sec HSec (S (length text)) 0 (new_buffer INI_BUFFERSIZE) (-1) Hnew)
      as [(-> & Hno)|(idx & b & sp & ep & before & h & rest & -> & Hb & Hfirst)]; [lia|rewrite drop_0; lia| |]; rewrite drop_0 in *; cbn [mbind res_bind].
    + left. split; [done|]. unfold lookup_setting, section_lines. rewrite decide_False by done. by rewrite in_section_none.
    + set (pos := (0 + (length (concat before) + length h))%nat).
      assert (section_area sec (pieces text) (before ++ [h]) rest) as Harea by (right; split; [done|]; by exists before, h).
      assert (rest = pieces (drop pos text)) as -> by (destruct Hfirst as (Ep & _); by apply pieces_behind in Ep).
      assert (length (concat (before ++ [h])) = pos) as Hpos by (rewrite concat_app, length_app; simpl; by rewrite app_nil_r).
      destruct (getkey_entry_ok pos b Hb) as [(-> & Hno)|(mid & l & after & v & Hmid & Hl & ->)].
      * left. split; [done|]. by rewrite (section_area_lookup _ _ _ _ _ Harea).
      * right. exists (before ++ [h]), mid, l, after, v. split; [by eexists|].
        rewrite (concat_app (before ++ [h])), length_app, Hpos. by rewrite <- Nat.add_assoc.
Qed.
End getkeystring.

(** ** [ini_gets] *)

Lemma take_subset {A} i (s : list A) : take i s ⊆ s.
Proof. rewrite <- (take_drop i s) at 2. apply list_subseteq_app_l. done. Qed.
Lemma drop_subset {A} i (s : list A) : drop i s ⊆ s.
Proof. rewrite <- (take_drop i s) at 2. apply list_subseteq_app_r. done. Qed.

Lemma dequote_subset s : dequote s ⊆ s.
Proof.
  remember (length s) as n eqn:Hn. revert s Hn. induction n as [n IH] using lt_wf_ind. intros [|c s] ->; [done|]. cbn [dequote].
  assert (∀ t, (length t < length (c :: s))%nat → dequote t ⊆ t) as IH' by (intros t Ht; by apply (IH (length t))). simpl in IH'.
  assert (c :: dequote s ⊆ c :: s) as Hc by (apply list_subseteq_skip, IH'; lia). destruct (_ || _); [|done].
  destruct s as [|d s]; [done|]. destruct (d =? dquote); [|done].
  apply list_subseteq_cons, list_subseteq_skip, IH'. simpl. lia.
Qed.

Lemma value_of_subset s : value_of s ⊆ s.
Proof.
  unfold value_of, unquoted. destruct (lstrip_drop s) as (i & _ & -> & _). set (t := drop i s).
  assert (rstrip (uncomment t false) ⊆ s) as Hw.
  { destruct (rstrip_take (uncomment t false)) as (j & _ & ->). rewrite uncomment_prefix.
    etrans; [apply take_subset|]. etrans; [apply take_subset|]. apply drop_subset. }
  destruct (_ && _); [|done]. etrans; [apply dequote_subset|]. etrans; [apply take_subset|].
  etrans; [|exact Hw]. by destruct (rstrip _); [|apply list_subseteq_cons].
Qed.

Lemma before_zero_no_zero s : 0 ∉ before_zero s.
Proof.
  induction s as [|c s IH]; simpl; [apply not_elem_of_nil|]. destruct (Z.eqb_spec c 0); [apply not_elem_of_nil|].
  rewrite not_elem_of_cons. by split.
Qed.

Lemma parse_value_no_zero p k v : parse p = LEntry k v → 0 ∉ v.
Proof.
  unfold parse, parse_line. destruct (lstrip_drop (before_zero p)) as (i & _ & E & _).
  destruct (lstrip (before_zero p)) as [|c t] eqn:Et; [done|]. destruct (isc c "["); [by destruct (last_index_of _ _)|].
  destruct (_ || _); [done|]. destruct (separator_index (c :: t)) as [j|]; [|done]. intros [= _ <-] Hin.
  apply value_of_subset in Hin. apply (drop_subset (S j) (c :: t)) in Hin. rewrite E in Hin. apply drop_subset in Hin.
  by apply before_zero_no_zero in Hin.
Qed.

Lemma read_setting_ok fs found def (Buffer : cbuf) (n : Z) f (v : list Z) :
  0 ∉ def → 0 < n < 2 ^ 31 → (Z.to_nat n ≤ length Buffer)%nat → 0 ∉ v →
  (∀ text, fs !! f = Some text →
     (found text = Ok None ∧ v = take (Z.to_nat n - 1) def) ∨
     (∃ h t, found text = Ok (Some (list_inserts 0 (Some <$> (v ++ [0])) Buffer, h, t)) ∧ (length v < Z.to_nat n)%nat)) →
  (fs !! f = None → v = take (Z.to_nat n - 1) def) →
  read_setting fs found def Buffer n f = Ok (Z.of_nat (length v), list_inserts 0 (Some <$> (v ++ [0])) Buffer) ∧
  string_at (list_inserts 0 (Some <$> (v ++ [0])) Buffer) 0 = Ok v.
Proof.
  intros Hdef Hn HB Hv Hfound Hnone.
  assert (Hcase : (match fs !! f with Some text => found text | None => Ok None end = Ok None ∧ v = take (Z.to_nat n - 1) def) ∨
    (∃ h t, match fs !! f with Some text => found text | None => Ok None end = Ok (Some (list_inserts 0 (Some <$> (v ++ [0])) Buffer, h, t)) ∧
            (length v < Z.to_nat n)%nat)) by (destruct (fs !! f); [by apply Hfound|left; by auto]).
  assert (length v < Z.to_nat n)%nat as Hlen by (destruct Hcase as [(_ & ->)|(_ & _ & _ & ?)]; [rewrite length_take; lia|done]).
  assert (string_at (list_inserts 0 (Some <$> (v ++ [0])) Buffer) 0 = Ok v) as Hstr by (apply string_at_stored; [done|simpl; lia]).
  split; [|done]. unfold read_setting. destruct Hcase as [(-> & E)|(h & t & -> & _)]; cbn [mbind res_bind].
  - rewrite (ini_strncpy_ok Buffer 0 _ def) by (done || lia || by apply string_at_of_string). cbn [copied mbind res_bind].
    by rewrite <- E, (strlen_ok _ _ _ Hstr).
  - by rewrite (strlen_ok _ _ _ Hstr).
Qed.

(** What a file says about a setting, and what [ini_gets] stores for it. *)
Definition setting_of (fs : filesystem) (Filename Section Key : list Z) : option (list Z) :=
  lookup_setting Section Key (settings (default [] (fs !! Filename))).
Definition stored (v : list Z) (Buffer : cbuf) : cbuf := list_inserts 0 (Some <$> (v ++ [0])) Buffer.

Lemma setting_of_bind fs Filename Section Key :
  setting_of fs Filename Section Key = (fs !! Filename ≫= λ text, lookup_setting Section Key (settings text)).
Proof. unfold setting_of. destruct (fs !! Filename); [done|]. unfold lookup_setting, section_lines. by destruct (decide _). Qed.

Lemma ini_gets_ok fs Section Key DefValue (Buffer : cbuf) (BufferSize : Z) Filename :
  0 ∉ default [] Section → 0 ∉ Key → Key ≠ [] → 0 ∉ default [] DefValue →
  0 < BufferSize < 2 ^ 31 → (Z.to_nat BufferSize ≤ length Buffer)%nat →
  let v := take (Z.to_nat BufferSize - 1) (default (default [] DefValue) (setting_of fs Filename (default [] Section) Key)) in
  ini_gets fs Section (Some Key) DefValue Buffer BufferSize Filename = Ok (Z.of_nat (length v), stored v Buffer) ∧ string_at (stored v Buffer) 0 = Ok v.
Proof.
  intros HSec HKey HKey' Hdef Hn HB v. subst v. rewrite setting_of_bind. set (v := take _ _). unfold ini_gets. rewrite (proj2 (Z.leb_gt _ _)) by lia.
  rewrite bool_decide_eq_false_2 by done. cbn [orb].
  assert ((0 ∉ v) ∧ ∀ text, fs !! Filename = Some text →
    (getkeystring text 0 Section (Some Key) (-1) (-1) Buffer BufferSize = Ok None ∧ v = take (Z.to_nat BufferSize - 1) (default [] DefValue)) ∨
    (∃ h t, getkeystring text 0 Section (Some Key) (-1) (-1) Buffer BufferSize = Ok (Some (list_inserts 0 (Some <$> (v ++ [0])) Buffer, h, t)) ∧
       (length v < Z.to_nat BufferSize)%nat)) as [Hv Hfound].
  { subst v. destruct (fs !! Filename) as [text|]; simpl; [|split; [by apply not_in_take|done]]. unfold settings. rewrite lookup_setting_filter.
    destruct (getkeystring_ok text Key Buffer BufferSize HKey HKey' Hn HB Section HSec) as [(E & Hno)|(top & mid & l & after & v & Hl & E)].
    - rewrite Hno. split; [by apply not_in_take|]. intros ? [= <-]. by left.
    - rewrite (setting_line_lookup _ _ _ _ _ _ _ _ Hl). destruct Hl as (rest & _ & _ & Hl). simpl. split; [by eapply not_in_take, parse_value_no_zero|].
      intros ? [= <-]. right. do 2 eexists. split; [exact E|]. rewrite length_take. lia. }
  apply read_setting_ok; [done..|]. intros E. subst v. by rewrite E.
Qed.
