(* ===== verification/MinIniPut.v ===== *)
(** * Changing configuration files

    [ini_puts] copies a file through a cache of one buffer to a temporary file and
    renames it, or overwrites a line in place.  The copy is related to the list
    of the lines of the file, and the new file to the settings of the old one. *)

From Stdlib Require Import Ascii.
From stdpp Require Import base numbers gmap option list.
From S2P Require Import Prelude CType CBuffer MinIni MinIniSpec.

Open Scope Z_scope.

(** ** Lines *)

(** A piece that is not continued by what follows. *)
Definition closed (l : list Z) : Prop := l ≠ [] ∧ ∀ t, next_line (INI_BUFFERSIZE - 1) (l ++ t) = l.

Lemma next_line_continued n l r t : next_line n (l ++ r) = l → r ≠ [] → next_line n (l ++ t) = l.
Proof.
  revert l. induction n as [|n IH]; intros l E Hr; [by destruct l|]. destruct l as [|c l]; simpl in *.
  - destruct r as [|d r]; [done|]. simpl in E. by destruct (d =? 10).
  - destruct (c =? 10); [done|]. f_equal. injection E as E. by apply IH.
Qed.

Lemma pieces_app l t : closed l → pieces (l ++ t) = l :: pieces t.
Proof.
  intros [Hl Hc]. destruct (pieces_step (l ++ t)) as (l' & E & _ & _ & ->); [by destruct l|].
  rewrite Hc in E. subst l'. by rewrite drop_app_length.
Qed.

Lemma pieces_concat_app ps t : Forall closed ps → pieces (concat ps ++ t) = ps ++ pieces t.
Proof. induction 1 as [|p ps Hp _ IH]; [done|]. simpl. rewrite <- app_assoc, pieces_app by done. by rewrite IH. Qed.

(** All pieces of a text but the last are closed. *)
Lemma pieces_closed t before x after : pieces t = before ++ x :: after → Forall closed before.
Proof.
  revert t. induction before as [|y before IH]; intros t E; [done|].
  destruct (decide (t = [])) as [->|Ht]; [done|]. destruct (pieces_step t Ht) as (l & El & Hl & Et & E').
  rewrite E' in E. injection E as -> E. constructor; [|by eapply IH]. split; [done|]. intros r.
  apply (next_line_continued _ _ (drop (length y) t)); [by rewrite <- Et|]. intros Hd. rewrite Hd in E. by destruct before.
Qed.

Lemma pieces_nonempty t : Forall (λ p, p ≠ []) (pieces t).
Proof.
  remember (length t) as n eqn:Hn. revert t Hn. induction n as [n IH] using lt_wf_ind. intros t ->.
  destruct (decide (t = [])) as [->|Ht]; [done|]. destruct (pieces_step t Ht) as (l & _ & Hl & _ & ->). constructor; [done|].
  apply (IH (length (drop (length l) t))); [|done]. rewrite length_drop. destruct l; [done|]. destruct t; [done|]. simpl. lia.
Qed.

Lemma pieces_suffix t ps qs : pieces t = ps ++ qs → pieces (drop (length (concat ps)) t) = qs.
Proof.
  revert t. induction ps as [|p ps IH]; intros t E; [done|].
  destruct (decide (t = [])) as [->|Ht]; [done|]. destruct (pieces_step t Ht) as (l & _ & _ & _ & E').
  rewrite E' in E. injection E as -> E. simpl. rewrite length_app, <- drop_drop. by apply IH.
Qed.

(** A line with its end is closed if it is not too long. *)
Lemma line_closed l : 10 ∉ l → (length l ≤ INI_BUFFERSIZE - 2)%nat → closed (l ++ [10]).
Proof.
  intros Hl Hlen. split; [by destruct l|]. intros t. rewrite <- app_assoc. cbn [app].
  assert (length l < INI_BUFFERSIZE - 1)%nat as Hlen' by (unfold INI_BUFFERSIZE in *; lia). clear Hlen. revert Hlen'.
  generalize (INI_BUFFERSIZE - 1)%nat as n. induction l as [|c l IH]; intros [|n] Hn; simpl in *; try lia; [done|].
  rewrite not_elem_of_cons in Hl. rewrite (proj2 (Z.eqb_neq c 10)) by (intros ->; tauto). f_equal. apply IH; [tauto|lia].
Qed.

(** ** Steps *)

Lemma runs_local {A} (f : cbuf → res A) s (Q : A → puts_state → Prop) a :
  f (LocalBuffer s) = Ok a → Q a s → runs (local f) s Q.
Proof. intros E HQ. apply runs_bind, runs_gets. by eapply runs_lift. Qed.

Lemma runs_change f s (Q : () → puts_state → Prop) b :
  f (LocalBuffer s) = Ok b → Q () (set_local b s) → runs (change_local f) s Q.
Proof. intros E HQ. apply runs_bind. eapply runs_local; [done|]. by apply runs_modify. Qed.

Lemma runs_read Filename text off size s (Q : bool → puts_state → Prop) more pos b :
  files s !! Filename = Some text → ini_read text (rpos s) (LocalBuffer s) off size = Ok (more, pos, b) →
  Q more (set_local b (set_rpos pos s)) → runs (read Filename off size) s Q.
Proof.
  intros Hf E HQ. apply runs_bind, runs_gets, runs_bind. rewrite Hf. eapply runs_lift; [done|]. apply runs_bind, runs_gets, runs_bind.
  eapply runs_local; [done|]. apply runs_bind, runs_modify, runs_bind, runs_modify. by apply runs_ret.
Qed.

(** Reading a line that fits behind what is in the buffer. *)
Lemma ini_read_within text pos (b : cbuf) off p rest :
  pieces (drop pos text) = p :: rest → length b = INI_BUFFERSIZE → (off + length p < INI_BUFFERSIZE)%nat →
  ini_read text pos b off (INI_BUFFERSIZE - off) = Ok (true, (pos + length p)%nat, list_inserts off (Some <$> (p ++ [0])) b).
Proof.
  intros Ep Hb Hfit. destruct (decide (drop pos text = [])) as [Ed|Ht]; [by rewrite Ed in Ep|].
  destruct (pieces_step _ Ht) as (l & El & Hl & _ & E). rewrite Ep in E. injection E as <- _. unfold ini_read.
  rewrite (next_line_shorter (INI_BUFFERSIZE - off - 1) (INI_BUFFERSIZE - 1)) by (rewrite El; lia). rewrite El.
  destruct p as [|c p]; [done|]. rewrite store_all_ok by (rewrite length_app; simpl in *; lia). done.
Qed.

Lemma string_at_append (b : cbuf) s t :
  string_at b 0 = Ok s → 0 ∉ t → (length s + length t < length b)%nat →
  string_at (list_inserts (length s) (Some <$> (t ++ [0])) b) 0 = Ok (s ++ t).
Proof.
  intros Hs Ht Hfit. apply string_at_intro.
  - rewrite elem_of_app. pose proof (string_no_zero _ _ _ Hs). tauto.
  - intros i Hi. rewrite length_app in Hi. simpl. destruct (decide (i < length s)%nat) as [Hlt|Hge].
    + rewrite list_lookup_inserts_lt by done. rewrite lookup_app_l by done. apply (string_lookup _ _ _ Hs). lia.
    + pose proof (string_lookup _ _ _ (string_at_stored (length s) t b Ht Hfit) (i - length s)) as E.
      replace (length s + (i - length s))%nat with i in E by lia. rewrite E by lia. by rewrite lookup_app_r by lia.
Qed.

(** ** The copy *)

Section copy.
Context (Filename temp text : list Z) (fs : filesystem).
Context (Htext : 0 ∉ text) (Hfile : fs !! Filename = Some text) (Htemp : temp ≠ Filename).

(** [W] is written, [cs] is in the cache, and [todo] is what is left from the end
    of the cache on. *)
Record copying (W : list Z) (cs todo : list (list Z)) (s : puts_state) : Prop := {
  copy_files : files s = <[temp := W]> fs;
  copy_wname : wname s = temp;
  copy_wpos : wpos s = length W;
  copy_local : length (LocalBuffer s) = INI_BUFFERSIZE;
  copy_pieces : pieces (drop (mark s) text) = cs ++ todo;
  copy_cachelen : cachelen s = Z.of_nat (length (concat cs));
  copy_small : (length (concat cs) < INI_BUFFERSIZE)%nat
}.

Lemma copy_text W cs todo s : copying W cs todo s → files s !! Filename = Some text.
Proof using Hfile Htemp. intros H. rewrite (copy_files _ _ _ _ H). by rewrite lookup_insert_ne. Qed.

Lemma copy_no_zero W cs todo s : copying W cs todo s → Forall (λ p, (0 ∉ p) ∧ p ≠ []) (cs ++ todo).
Proof using Htext.
  intros H. rewrite <- (copy_pieces _ _ _ _ H). apply Forall_and. split; [|apply pieces_nonempty].
  apply Forall_forall. intros p Hp H0. apply (not_in_drop 0 (mark s) text Htext).
  rewrite <- (concat_pieces (drop (mark s) text)). apply list_elem_of_In, in_concat. exists p. by rewrite <- !list_elem_of_In.
Qed.

(** The place of [todo] in the file. *)
Definition at_todo (cs : list (list Z)) (s : puts_state) : Prop := rpos s = (mark s + length (concat cs))%nat.

Lemma todo_pieces W cs todo s : copying W cs todo s → pieces (drop (mark s + length (concat cs)) text) = todo.
Proof using Type.
  intros H. rewrite <- drop_drop. apply pieces_suffix. by apply (copy_pieces W).
Qed.

(** Reading a line. *)
Lemma read_ok W cs p todo s :
  copying W cs (p :: todo) s → at_todo cs s →
  runs (read Filename 0 INI_BUFFERSIZE) s (λ more s', more = true ∧ copying W cs (p :: todo) s' ∧ mark s' = mark s ∧
    rpos s' = (mark s + length (concat cs) + length p)%nat ∧ string_at (LocalBuffer s') 0 = Ok p).
Proof using Hfile Htemp Htext.
  intros Hc Hat. pose proof (todo_pieces _ _ _ _ Hc) as Ep. unfold at_todo in Hat. rewrite <- Hat in *.
  destruct (ini_read_ok text (rpos s) (LocalBuffer s) (copy_local _ _ _ _ Hc)) as [(Et & _)|(l & _ & _ & _ & Ep' & Er & Hb & Hs)].
  { by rewrite Et in Ep. }
  rewrite Ep in Ep'. injection Ep' as <- _. eapply runs_read; [by eapply copy_text|exact Er|].
  destruct Hc. split_and!; [done|by constructor|done|done|]. simpl. rewrite Hs. f_equal. apply before_zero_id.
  assert (Forall (λ p, (0 ∉ p) ∧ p ≠ []) (cs ++ p :: todo)) as Hz by (eapply (copy_no_zero W cs (p :: todo) s); by constructor).
  rewrite Forall_app, Forall_cons in Hz. tauto.
Qed.

Lemma read_end_stays W cs s :
  copying W cs [] s → at_todo cs s →
  runs (read Filename 0 INI_BUFFERSIZE) s (λ more s', more = false ∧ copying W cs [] s' ∧ mark s' = mark s ∧ rpos s' = rpos s).
Proof using Hfile Htemp.
  intros Hc Hat. pose proof (todo_pieces _ _ _ _ Hc) as Ep. unfold at_todo in Hat. rewrite <- Hat in *.
  destruct (ini_read_ok text (rpos s) (LocalBuffer s) (copy_local _ _ _ _ Hc)) as [(_ & Er)|(l & _ & _ & _ & Ep' & _)]; [|congruence].
  eapply runs_read; [by eapply copy_text|exact Er|]. split_and!; [done| |done|done]. destruct Hc. by constructor.
Qed.

Lemma read_end W cs s :
  copying W cs [] s → at_todo cs s → runs (read Filename 0 INI_BUFFERSIZE) s (λ more s', more = false ∧ copying W cs [] s').
Proof using Hfile Htemp. intros Hc Hat. eapply runs_mono; [by eapply read_end_stays|]. by intros more s' (-> & Hc' & _). Qed.

(** The cache is read again into the buffer. *)
Lemma flush_scan_ok b pos (p : list Z) k :
  string_at b pos = Ok p → (length p ≤ k)%nat → flush_scan k b pos = Ok (pos + length p)%nat.
Proof using Type.
  revert pos p. induction k as [|k IH]; intros pos p Hs Hk; cbn [flush_scan]; [destruct p; [|simpl in Hk; lia]; simpl; f_equal; lia|].
  pose proof (string_load _ _ _ Hs 0) as E. rewrite Nat.add_0_r in E. rewrite E by lia. cbn [mbind res_bind].
  destruct p as [|c p]; [simpl; f_equal; lia|]. cbn [lookup list_lookup from_option id].
  pose proof (string_no_zero _ _ _ Hs) as H0. rewrite not_elem_of_cons in H0. rewrite (proj2 (Z.eqb_neq c 0)) by (intros ->; tauto).
  pose proof (string_at_drop _ _ _ Hs 1) as Hd. rewrite Nat.add_1_r in Hd. rewrite (IH (S pos) p); [simpl; f_equal; lia| |simpl in Hk; lia].
  apply Hd. simpl. lia.
Qed.

Lemma flush_loop_ok W todo rest : ∀ dn s fuel,
  copying W (dn ++ rest) todo s → at_todo dn s → string_at (LocalBuffer s) 0 = Ok (concat dn) → (length rest < fuel)%nat →
  runs (flush_loop Filename fuel (length (concat (dn ++ rest))) (length (concat dn))) s (λ pos s',
    pos = length (concat (dn ++ rest)) ∧ copying W (dn ++ rest) todo s' ∧ mark s' = mark s ∧ at_todo (dn ++ rest) s' ∧
    string_at (LocalBuffer s') 0 = Ok (concat (dn ++ rest))).
Proof using Hfile Htemp Htext.
  induction rest as [|p rest IH]; intros dn s [|fuel] Hc Hat Hs Hf; try (simpl in Hf; lia); cbn [flush_loop].
  { rewrite app_nil_r in *. rewrite bool_decide_eq_false_2 by lia. by apply runs_ret. }
  assert (Forall (λ p, (0 ∉ p) ∧ p ≠ []) ((dn ++ p :: rest) ++ todo)) as Hz by by eapply copy_no_zero.
  rewrite !Forall_app, Forall_cons in Hz. destruct Hz as [(Hzd & [Hp0 Hp] & Hzr) _].
  pose proof (copy_small _ _ _ _ Hc) as Hsmall. assert (length (concat (dn ++ p :: rest)) = length (concat dn) + length p + length (concat rest))%nat as Hlen
    by (rewrite concat_app, length_app; simpl; rewrite length_app; lia). rewrite Hlen in Hsmall.
  assert (0 < length p)%nat by (destruct p; [done|simpl; lia]). rewrite bool_decide_eq_true_2 by lia. apply runs_bind.
  set (b' := list_inserts (length (concat dn)) (Some <$> (p ++ [0])) (LocalBuffer s)).
  pose proof (copy_local _ _ _ _ Hc) as Hb.
  assert (ini_read text (rpos s) (LocalBuffer s) (length (concat dn)) (INI_BUFFERSIZE - length (concat dn)) =
    Ok (true, (rpos s + length p)%nat, b')) as Er.
  { apply (ini_read_within text (rpos s) (LocalBuffer s) _ p (rest ++ todo)); [|done|lia].
    unfold at_todo in Hat. rewrite Hat, <- drop_drop. apply pieces_suffix. rewrite (copy_pieces _ _ _ _ Hc). by rewrite <- app_assoc. }
  eapply runs_read; [by eapply copy_text|exact Er|]. apply runs_bind. eapply runs_local.
  { simpl. apply (flush_scan_ok b' _ p); [apply string_at_stored; [done|lia]|lia]. }
  replace (length (concat dn) + length p)%nat with (length (concat (dn ++ [p]))) by (rewrite concat_app, length_app; simpl; by rewrite app_nil_r).
  replace (dn ++ p :: rest) with ((dn ++ [p]) ++ rest) in * by (by rewrite <- app_assoc).
  apply (IH (dn ++ [p]) (set_local b' (set_rpos (rpos s + length p)%nat s))); [| | |simpl in Hf; lia].
  - destruct Hc. constructor; simpl; try done. unfold b'. by rewrite length_inserts.
  - unfold at_todo in *. simpl. rewrite Hat, concat_app, length_app. simpl. rewrite app_nil_r. lia.
  - simpl. rewrite concat_app. simpl. rewrite app_nil_r. apply string_at_append; [done|done|lia].
Qed.

Lemma write_ok W cs todo s data :
  copying W cs todo s → runs (write data) s (λ _ s', copying (W ++ data) cs todo s' ∧ mark s' = mark s ∧ rpos s' = rpos s ∧ LocalBuffer s' = LocalBuffer s).
Proof using Type.
  intros Hc. destruct Hc as [Hf Hn Hp Hl Hpc Hcl Hsm]. apply runs_bind, runs_gets, runs_bind, runs_gets, runs_bind, runs_gets, runs_bind.
  rewrite Hf, Hn, Hp. eapply runs_lift; [by rewrite lookup_insert_eq|]. apply runs_bind, runs_modify, runs_modify.
  split_and!; [|done|done|done]. constructor; simpl; try done.
  - rewrite insert_insert_eq. f_equal. unfold overwrite. by rewrite firstn_all, drop_ge, app_nil_r by lia.
  - by rewrite length_app.
Qed.

Lemma write_local_ok W cs todo s data :
  copying W cs todo s → string_at (LocalBuffer s) 0 = Ok data →
  runs write_local s (λ _ s', copying (W ++ data) cs todo s' ∧ mark s' = mark s ∧ rpos s' = rpos s ∧ LocalBuffer s' = LocalBuffer s).
Proof using Type. intros Hc Hs. apply runs_bind. eapply runs_local; [done|]. by apply write_ok. Qed.

(** A change of the buffer. *)
Lemma copying_local W cs todo s b : copying W cs todo s → length b = INI_BUFFERSIZE → copying W cs todo (set_local b s).
Proof using Type. intros [] Hb. by constructor. Qed.
Lemma copying_rpos W cs todo s p : copying W cs todo s → copying W cs todo (set_rpos p s).
Proof using Type. intros []. by constructor. Qed.

(** Whether a text ends with a line end. *)
Definition ends_line (t : list Z) : Prop := ∃ u, t = u ++ INI_LINETERM.

(** The state behind the cache. *)
Lemma flush_end_ok W cs todo s :
  copying (W ++ concat cs) cs todo s → at_todo cs s → string_at (LocalBuffer s) 0 = Ok (concat cs) →
  runs (flush_end (length (concat cs))) s
    (λ flag s', copying (W ++ concat cs) [] todo s' ∧ at_todo [] s' ∧ (flag = true → ends_line (concat cs))).
Proof using Type.
  intros Hc Hat Hs. unfold at_todo in Hat. apply runs_bind, runs_bind, runs_gets, runs_modify, runs_bind, runs_modify.
  assert (copying (W ++ concat cs) [] todo (set_cachelen 0 (set_mark (rpos s) s))) as Hc'.
  { pose proof (todo_pieces _ _ _ _ Hc) as Ep. destruct Hc. constructor; simpl; try done; [by rewrite Hat|unfold INI_BUFFERSIZE; lia]. }
  assert (at_todo [] (set_cachelen 0 (set_mark (rpos s) s))) as Hat' by (unfold at_todo; simpl; lia).
  case_bool_decide as Hlong; [|by apply runs_ret]. apply runs_bind. eapply runs_local.
  - apply (string_at_drop _ _ _ Hs (length (concat cs) - length INI_LINETERM)%nat). lia.
  - apply runs_ret. split_and!; [done|done|]. unfold same_text, ends_line. rewrite bool_decide_eq_true. intros <-.
    eexists. by rewrite take_drop.
Qed.

(** Writing the cache. *)
Lemma cache_flush_ok W cs todo s :
  copying W cs todo s →
  runs (cache_flush Filename) s (λ flag s', copying (W ++ concat cs) [] todo s' ∧ at_todo [] s' ∧ (flag = true → ends_line (concat cs))).
Proof using Hfile Htemp Htext.
  intros Hc. pose proof (copy_local _ _ _ _ Hc) as Hb. apply runs_bind, runs_gets, runs_bind, runs_modify, runs_bind.
  eapply runs_change; [apply store_ok; simpl; rewrite Hb; unfold INI_BUFFERSIZE; lia|]. apply runs_bind, runs_gets.
  cbn [cachelen set_local set_rpos]. pose proof (copy_small _ _ _ _ Hc) as Hsmall. rewrite (copy_cachelen _ _ _ _ Hc). apply runs_bind.
  eapply runs_lift; [by rewrite (proj2 (Z.leb_le _ _)) by lia|]. rewrite Nat2Z.id. apply runs_bind.
  set (s1 := set_local _ _). assert (copying W cs todo s1) as Hc1 by (apply copying_local; [by apply copying_rpos|simpl; by rewrite length_insert]).
  assert (string_at (LocalBuffer s1) 0 = Ok []) as Hs1. { simpl. unfold string_at. by destruct (LocalBuffer s). }
  assert (length cs < S (length (concat cs)))%nat as Hfuel.
  { pose proof (copy_no_zero _ _ _ _ Hc) as Hz. rewrite Forall_app in Hz. destruct Hz as [Hz _]. clear -Hz.
    induction Hz as [|p cs [_ Hp] _ IH]; simpl in *; [lia|]. rewrite length_app. destruct p; [done|]. simpl. lia. }
  eapply runs_mono; [apply (flush_loop_ok W todo cs [] s1 (S (length (concat cs))) Hc1); [unfold at_todo; simpl; lia|done|done]|].
  cbn [app]. intros pos s2 (-> & Hc2 & Em & Hat & Hs2). apply runs_bind.
  pose proof (string_load _ _ _ Hs2 0) as E0. eapply runs_local; [apply E0; lia|].
  destruct (Z.eqb_spec (default 0 (concat cs !! 0%nat)) 0) as [Ez|Hne].
  - assert (concat cs = []) as Ecs. { destruct (concat cs) as [|c t] eqn:E; [done|]. pose proof (string_no_zero _ _ _ Hs2) as Hz.
      rewrite not_elem_of_cons in Hz. simpl in Ez. destruct Hz as [Hz _]. by rewrite Ez in Hz. }
    apply runs_bind, runs_ret. apply flush_end_ok; [by rewrite Ecs, app_nil_r|done|done].
  - apply runs_bind, runs_bind. assert (0 < length (concat cs))%nat by (destruct (concat cs); [done|simpl; lia]).
    eapply runs_lift; [by rewrite bool_decide_eq_true_2 by lia|]. rewrite (bool_decide_eq_false_2 (_ = INI_BUFFERSIZE)) by lia.
    apply runs_bind. pose proof (copy_local _ _ _ _ Hc2) as Hb2. eapply runs_change; [apply store_ok; lia|].
    assert (string_at (<[length (concat cs):=Some 0]> (LocalBuffer s2)) 0 = Ok (concat cs)) as Hs3.
    { pose proof (string_at_cut _ _ _ (length (concat cs)) Hs2 ltac:(lia)) as E. by rewrite firstn_all in E. }
    apply runs_bind. eapply runs_mono; [apply (write_local_ok W cs todo _ (concat cs)); [by apply copying_local; [|rewrite length_insert]|done]|].
    intros [] s4 (Hc4 & Em4 & Er4 & El4). apply runs_ret. apply flush_end_ok; [done| |by rewrite El4].
    unfold at_todo in *. by rewrite Em4, Er4.
Qed.

(** [Out] is written or in the cache, and [todo] is next. *)
Definition streaming (Out : list Z) (todo : list (list Z)) (s : puts_state) : Prop :=
  ∃ W cs, copying W cs todo s ∧ at_todo cs s ∧ Out = W ++ concat cs.

Lemma piece_small W cs p todo s : copying W cs (p :: todo) s → (length p < INI_BUFFERSIZE)%nat.
Proof using Type.
  intros Hc. apply todo_pieces in Hc. destruct (decide (drop (mark s + length (concat cs)) text = [])) as [E|Ht]; [by rewrite E in Hc|].
  destruct (pieces_step _ Ht) as (l & El & _ & _ & E). rewrite Hc in E. injection E as -> _.
  pose proof (length_next_line (INI_BUFFERSIZE - 1) (drop (mark s + length (concat cs)) text)) as Hl. rewrite El in Hl.
  unfold INI_BUFFERSIZE in *. lia.
Qed.

(** A line that was read. *)
Definition just_read (cs : list (list Z)) (p : list Z) (s : puts_state) : Prop :=
  rpos s = (mark s + length (concat cs) + length p)%nat ∧ string_at (LocalBuffer s) 0 = Ok p.

Lemma cache_accum_ok W cs p todo s :
  copying W cs (p :: todo) s → just_read cs p s →
  runs cache_accum s (λ ok s',
    if decide (length (concat cs) + length p < INI_BUFFERSIZE)%nat then ok = true ∧ copying W (cs ++ [p]) todo s' ∧ at_todo (cs ++ [p]) s'
    else ok = false ∧ s' = s).
Proof using Type.
  intros Hc [Hr Hs]. apply runs_bind. eapply runs_local; [by apply strlen_ok|]. apply runs_bind, runs_gets.
  rewrite (copy_cachelen _ _ _ _ Hc). assert (length (concat (cs ++ [p])) = length (concat cs) + length p)%nat as Hlen
    by (rewrite concat_app, length_app; simpl; by rewrite app_nil_r). destruct (decide _) as [Hlt|Hge].
  - rewrite (proj2 (Z.leb_gt _ _)) by lia. apply runs_bind, runs_modify, runs_ret. split_and!; [done| |].
    + destruct Hc. constructor; simpl; try done; [by rewrite <- app_assoc|rewrite Hlen; lia|rewrite Hlen; lia].
    + unfold at_todo. simpl. lia.
  - rewrite (proj2 (Z.leb_le _ _)) by lia. by apply runs_ret.
Qed.

Lemma cache_line_ok W cs p todo s :
  copying W cs (p :: todo) s → just_read cs p s → runs (cache_line Filename) s (λ _ s', streaming (W ++ concat cs ++ p) todo s').
Proof using Hfile Htemp Htext.
  intros Hc Hr. apply runs_bind. eapply runs_mono; [by eapply cache_accum_ok|]. intros ok s1. destruct (decide _) as [Hlt|Hge].
  - intros (-> & Hc1 & Hat1). apply runs_ret. exists W, (cs ++ [p]). split_and!; [done|done|].
    rewrite concat_app. simpl. by rewrite app_nil_r.
  - intros (-> & ->). apply runs_bind. eapply runs_mono; [by apply cache_flush_ok|]. intros flag s2 (Hc2 & Hat2 & _).
    apply runs_bind. eapply runs_mono; [by apply (read_ok _ _ _ _ _ Hc2)|]. intros more s3 (_ & Hc3 & Em3 & Er3 & Hs3).
    apply runs_bind. eapply runs_mono; [apply (cache_accum_ok _ _ _ _ _ Hc3); split; [by rewrite Em3|done]|].
    intros ok s4. simpl. rewrite decide_True by by eapply piece_small. intros (_ & Hc4 & Hat4). apply runs_ret.
    exists (W ++ concat cs), [p]. split_and!; [done|done|]. simpl. by rewrite app_nil_r, app_assoc.
Qed.

(** The next line of a file that is copied, which may go to the cache. *)
Lemma next_line_read Out p todo s :
  streaming Out (p :: todo) s →
  runs (read Filename 0 INI_BUFFERSIZE) s (λ more s', more = true ∧ string_at (LocalBuffer s') 0 = Ok p ∧
    ∃ W cs, copying W cs (p :: todo) s' ∧ just_read cs p s' ∧ Out = W ++ concat cs).
Proof using Hfile Htemp Htext.
  intros (W & cs & Hc & Hat & ->). eapply runs_mono; [by eapply read_ok|]. intros more s' (-> & Hc' & Em & Er & Hs).
  split_and!; [done|done|]. exists W, cs. split_and!; [done| |done]. split; [by rewrite Em|done].
Qed.

Lemma last_line_read Out s :
  streaming Out [] s → runs (read Filename 0 INI_BUFFERSIZE) s (λ more s', more = false ∧ ∃ W cs, copying W cs [] s' ∧ Out = W ++ concat cs).
Proof using Hfile Htemp.
  intros (W & cs & Hc & Hat & ->). eapply runs_mono; [by eapply read_end|]. intros more s' (-> & Hc'). eauto.
Qed.

Lemma flush_streaming Out W cs todo s :
  copying W cs todo s → Out = W ++ concat cs →
  runs (cache_flush Filename) s (λ flag s', copying Out [] todo s' ∧ at_todo [] s' ∧ (flag = true → ends_line Out)).
Proof using Hfile Htemp Htext.
  intros Hc ->. eapply runs_mono; [by apply cache_flush_ok|]. intros flag s' (Hc' & Hat & Hf). split_and!; [done|done|].
  intros Hflag. destruct (Hf Hflag) as [u ->]. exists (W ++ u). by rewrite app_assoc.
Qed.
End copy.

(** ** The lines that are written *)

Definition written_section (Section : list Z) : list Z := [char_code "["] ++ take (INI_BUFFERSIZE - 5) Section ++ [char_code "]"] ++ INI_LINETERM.

Definition written_key (Key Value : list Z) : list Z :=
  let k := take (INI_BUFFERSIZE - 4) Key in
  k ++ [char_code "="] ++ copied (check_enquote Value) (INI_BUFFERSIZE - 3 - length k) Value ++ INI_LINETERM.

Lemma length_copied q n s : (0 < n)%nat → (length (copied q n s) ≤ n - 1)%nat.
Proof.
  intros Hn. destruct q; simpl; [rewrite length_take; lia| |rewrite length_take; lia].
  destruct (decide _); [rewrite length_take; lia|]. simpl. rewrite length_app. simpl. pose proof (length_enquote (n - 3) s). lia.
Qed.

Lemma enquote_no_zero n s : 0 ∉ s → 0 ∉ enquote n s.
Proof.
  revert n. induction s as [|c s IH]; intros n H0; [by destruct n|]. rewrite not_elem_of_cons in H0. destruct H0 as [Hc H0].
  destruct n as [|n]; simpl; [apply not_elem_of_nil|]. destruct (c =? dquote); [destruct n as [|n]; [apply not_elem_of_nil|]|];
    rewrite ?not_elem_of_cons; split_and!; auto; done.
Qed.

Lemma copied_no_zero q n s : 0 ∉ s → 0 ∉ copied q n s.
Proof.
  intros H0. destruct q; simpl; [by apply not_in_take| |apply not_in_take; intros Hin; by apply dequote_subset in Hin].
  destruct (decide _); [by apply not_in_take|]. rewrite not_elem_of_cons, elem_of_app, list_elem_of_singleton.
  pose proof (enquote_no_zero (n - 3) s H0). split; [done|]. by intros [|].
Qed.

Lemma lineterm_no_zero : 0 ∉ INI_LINETERM.
Proof. unfold INI_LINETERM. rewrite !not_elem_of_cons. split_and!; [done..|apply not_elem_of_nil]. Qed.

(** A character and a string behind a string. *)
Lemma string_at_extend (b : cbuf) s c t :
  string_at b 0 = Ok s → 0 ∉ c :: t → (S (length s) + length t < length b)%nat →
  string_at (list_inserts (S (length s)) (Some <$> (t ++ [0])) (<[length s := Some c]> b)) 0 = Ok (s ++ c :: t).
Proof.
  intros Hs H0 Hfit. rewrite <- list_insert_inserts_lt by lia.
  change (<[length s:=Some c]> (list_inserts (S (length s)) (Some <$> t ++ [0]) b)) with (list_inserts (length s) (Some <$> (c :: t) ++ [0]) b).
  apply string_at_append; [done|done|simpl; lia].
Qed.

Lemma copy_string (b : cbuf) dest s maxlen q :
  0 ∉ s → 0 < maxlen < 2 ^ 32 → (dest + Z.to_nat maxlen ≤ length b)%nat →
  ini_strncpy b dest (There (of_string s) 0) maxlen q = Ok (list_inserts dest (Some <$> (copied q (Z.to_nat maxlen) s ++ [0])) b).
Proof. intros H0 Hmax Hfit. apply ini_strncpy_ok; [by apply string_at_of_string|eauto|done|done]. Qed.

Lemma key_line_ok (b : cbuf) Key Value :
  length b = INI_BUFFERSIZE → 0 ∉ Key → 0 ∉ Value →
  ∃ b', key_line b Key Value = Ok b' ∧ length b' = INI_BUFFERSIZE ∧ string_at b' 0 = Ok (written_key Key Value).
Proof.
  intros Hb HK HV. unfold key_line, written_key. set (k := take (INI_BUFFERSIZE - 4) Key).
  assert (length k ≤ INI_BUFFERSIZE - 4)%nat as Hk by (unfold k; rewrite length_take; lia). unfold INI_BUFFERSIZE in *.
  rewrite copy_string by (done || (rewrite ?Hb; lia)). cbn [copied mbind res_bind]. change (Z.to_nat (Z.of_nat 512 - 3) - 1)%nat with (512 - 4)%nat. fold k.
  set (b1 := list_inserts 0 _ b). assert (length b1 = 512%nat) as Hb1 by (unfold b1; by rewrite length_inserts).
  assert (string_at b1 0 = Ok k) as Hs1 by (apply string_at_stored; [by apply not_in_take|lia]).
  rewrite (strlen_ok _ _ _ Hs1). cbn [mbind res_bind]. rewrite store_ok by lia. cbn [mbind res_bind].
  rewrite copy_string by (done || (rewrite ?length_insert, ?Hb1; lia)). cbn [mbind res_bind].
  replace (Z.to_nat (Z.of_nat 512 - Z.of_nat (S (length k)) - 2)) with (512 - 3 - length k)%nat by lia.
  set (v := copied (check_enquote Value) _ Value). pose proof (length_copied (check_enquote Value) (512 - 3 - length k) Value ltac:(lia)) as Hv. fold v in Hv.
  set (b2 := list_inserts (S (length k)) _ _). assert (length b2 = 512%nat) as Hb2 by (unfold b2; by rewrite length_inserts, length_insert).
  assert (string_at b2 0 = Ok (k ++ char_code "=" :: v)) as Hs2.
  { apply string_at_extend; [done| |lia]. rewrite not_elem_of_cons. split; [done|by apply copied_no_zero]. }
  rewrite (strlen_ok _ _ _ Hs2). cbn [mbind res_bind]. unfold strcpy. rewrite length_app. cbn [length]. 
  rewrite store_all_ok by (simpl; lia). eexists. split_and!; [done|by rewrite length_inserts|].
  replace (length k + S (length v))%nat with (length (k ++ char_code "=" :: v)) by (by rewrite length_app).
  rewrite (string_at_append _ _ _ Hs2); [by rewrite <- app_assoc|apply lineterm_no_zero|rewrite length_app; simpl; lia].
Qed.

Lemma section_line_ok (b : cbuf) Section :
  length b = INI_BUFFERSIZE → 0 ∉ Section →
  ∃ b', section_line b Section = Ok b' ∧ length b' = INI_BUFFERSIZE ∧ string_at b' 0 = Ok (written_section Section).
Proof.
  intros Hb HS. unfold section_line, written_section. set (k := take (INI_BUFFERSIZE - 5) Section).
  assert (length k ≤ INI_BUFFERSIZE - 5)%nat as Hk by (unfold k; rewrite length_take; lia). unfold INI_BUFFERSIZE in *.
  rewrite store_ok by lia. cbn [mbind res_bind]. rewrite copy_string by (done || (rewrite ?length_insert, ?Hb; lia)).
  cbn [copied mbind res_bind]. change (Z.to_nat (Z.of_nat 512 - 4) - 1)%nat with (512 - 5)%nat. fold k.
  set (b1 := list_inserts 1 _ _). assert (length b1 = 512%nat) as Hb1 by (unfold b1; by rewrite length_inserts, length_insert).
  assert (string_at b1 0 = Ok (char_code "[" :: k)) as Hs1.
  { unfold b1. rewrite <- list_insert_inserts_lt by lia.
    change (<[0%nat:=Some (char_code "[")]> (list_inserts 1 (Some <$> k ++ [0]) b)) with (list_inserts 0 (Some <$> (char_code "[" :: k) ++ [0]) b).
    apply string_at_stored; [|simpl; lia]. rewrite not_elem_of_cons. split; [done|by apply not_in_take]. }
  rewrite (strlen_ok _ _ _ Hs1). cbn [mbind res_bind length]. rewrite store_ok by lia. cbn [mbind res_bind].
  unfold strcpy. rewrite store_all_ok by (rewrite length_insert; simpl; lia). eexists. split_and!; [done|by rewrite length_inserts, length_insert|].
  apply (string_at_extend b1 (char_code "[" :: k)); [done| |simpl; lia].
  rewrite not_elem_of_cons. split; [done|apply lineterm_no_zero].
Qed.

(** Writing a line to the new file. *)
Lemma writekey_ok temp text fs W cs todo s k v :
  copying temp text fs W cs todo s → 0 ∉ k → 0 ∉ v →
  runs (writekey k v) s (λ _ s', copying temp text fs (W ++ written_key k v) cs todo s' ∧ mark s' = mark s ∧ rpos s' = rpos s).
Proof.
  intros Hc Hk Hv. destruct (key_line_ok (LocalBuffer s) k v (copy_local _ _ _ _ _ _ _ Hc) Hk Hv) as (b & E & Hb & Hs).
  apply runs_bind. eapply runs_change; [exact E|]. eapply runs_mono; [apply write_local_ok; [by apply copying_local|exact Hs]|].
  intros [] s' (Hc' & Em & Er & _). by split_and!.
Qed.

Lemma writesection_ok temp text fs W cs todo s name :
  copying temp text fs W cs todo s → 0 ∉ name → name ≠ [] →
  runs (writesection (Some name)) s (λ _ s', copying temp text fs (W ++ written_section name) cs todo s').
Proof.
  intros Hc Hn Hne. destruct (section_line_ok (LocalBuffer s) name (copy_local _ _ _ _ _ _ _ Hc) Hn) as (b & E & Hb & Hs).
  destruct name as [|c name]; [done|]. apply runs_bind. eapply runs_change; [exact E|].
  eapply runs_mono; [apply write_local_ok; [by apply copying_local|exact Hs]|]. by intros [] s' (Hc' & _).
Qed.

(** ** Moving the file *)

Definition temp_name (Filename : list Z) : list Z := take (length Filename - 1) Filename ++ [char_code "~"].

Lemma ini_tempname_ok (b : cbuf) Filename :
  length b = INI_BUFFERSIZE → 0 ∉ Filename → (0 < length Filename < INI_BUFFERSIZE)%nat →
  ∃ b', ini_tempname b Filename (Z.of_nat INI_BUFFERSIZE) = Ok b' ∧ length b' = INI_BUFFERSIZE ∧ string_at b' 0 = Ok (temp_name Filename).
Proof.
  intros Hb H0 Hlen. unfold ini_tempname, INI_BUFFERSIZE in *. rewrite copy_string by (done || (rewrite ?Hb; lia)).
  cbn [copied mbind res_bind]. rewrite take_ge by lia. set (b1 := list_inserts 0 _ b).
  assert (length b1 = 512%nat) as Hb1 by (unfold b1; by rewrite length_inserts).
  assert (string_at b1 0 = Ok Filename) as Hs1 by (apply string_at_stored; [done|simpl; lia]).
  rewrite (strlen_ok _ _ _ Hs1). cbn [mbind res_bind]. rewrite bool_decide_eq_false_2 by lia. rewrite store_ok by lia.
  eexists. split_and!; [done|by rewrite length_insert|]. unfold temp_name. apply string_at_intro.
  - rewrite elem_of_app, list_elem_of_singleton. intros [Hin|Hin]; [|done]. by apply (not_in_take 0 (length Filename - 1) Filename).
  - intros i Hi. rewrite length_app, length_take in Hi. simpl in Hi |- *. destruct (decide (i = length Filename - 1)%nat) as [->|Hne].
    + rewrite list_lookup_insert_eq by lia. rewrite lookup_app_r by (rewrite length_take; lia).
      by rewrite length_take, Nat.min_l, Nat.sub_diag by lia.
    + rewrite list_lookup_insert_ne by lia. pose proof (string_lookup _ _ _ Hs1 i ltac:(lia)) as E. simpl in E. rewrite E. do 2 f_equal.
      destruct (decide (i < length Filename - 1)%nat); [rewrite lookup_app_l by (rewrite length_take; lia); by rewrite lookup_take_lt|].
      rewrite !lookup_ge_None_2; [done|rewrite length_app, length_take; simpl; lia|lia].
Qed.

(** A line that begins with a bracket. *)
Definition is_heading (l : line) : bool := match l with LHeading _ | LOpen => true | _ => false end.

(** A line at which the search ends: for a key, or without one for the section. *)
Definition ends_at (key : option (list Z)) (l : line) : Prop :=
  match key with Some name => stops (fold_case name) l | None => is_heading l = true end.
#[export] Instance ends_at_dec key l : Decision (ends_at key l).
Proof. destruct key; simpl; apply _. Defined.

(** What a key may begin with. *)
Definition plain_start (key : list Z) : Prop :=
  match key with [] => False | c :: _ => isc c ";" || isc c "#" = false end.

Global Instance plain_start_dec key : Decision (plain_start key).
Proof. destruct key; apply _. Defined.

Lemma comment_no_key t i key :
  isc (default 0 (head t)) ";" || isc (default 0 (head t)) "#" = true → plain_start key → fold_case (rstrip (take i t)) ≠ fold_case key.
Proof.
  intros Hc Hk E. destruct key as [|k key]; [done|]. destruct (rstrip_take (take i t)) as (j & _ & Er). rewrite Er, take_take in E.
  destruct t as [|c t]; [by destruct (j `min` i)%nat|]. destruct (j `min` i)%nat; [done|]. simpl in *. injection E as E _.
  assert (tolower c = c) as Ec by (apply orb_true_iff in Hc as [H|H]; apply isc_char in H as ->; done).
  assert (c = k) as <-; [|congruence]. rewrite Ec in E. apply orb_true_iff in Hc. unfold tolower, in_range in E.
  destruct (_ && _) eqn:Er'; [|done]. apply andb_true_iff in Er' as [H1 H2]. apply Z.leb_le in H1, H2.
  change (char_code "A") with 65 in H1. destruct Hc as [H|H]; apply isc_char in H; subst c; [change (char_code ";") with 59 in E|change (char_code "#") with 35 in E]; lia.
Qed.

Section puts.
Context (Filename text : list Z) (fs : filesystem).
Context (Htext : 0 ∉ text) (Hfile : fs !! Filename = Some text).
Context (Hname : 0 ∉ Filename) (Hlen : (0 < length Filename < INI_BUFFERSIZE)%nat) (Htemp : temp_name Filename ≠ Filename).

Abbreviation copying := (copying (temp_name Filename) text fs).
Abbreviation streaming := (streaming (temp_name Filename) text fs).

(** The file has been replaced. *)
Definition replaced (Out : list Z) (s : puts_state) : Prop := files s = <[Filename := Out]> (delete (temp_name Filename) fs).

Lemma close_rename_ok W todo s :
  copying W [] todo s → runs (close_rename Filename) s (λ r s', r = 1 ∧ replaced W s').
Proof using Hname Hlen Htemp.
  intros Hc. destruct (ini_tempname_ok (LocalBuffer s) Filename (copy_local _ _ _ _ _ _ _ Hc) Hname Hlen) as (b & Eb & Hb & Hs).
  apply runs_bind, runs_gets, runs_bind, runs_modify, runs_bind. eapply runs_change; [exact Eb|]. apply runs_bind.
  eapply runs_local; [exact Hs|]. apply runs_bind, runs_gets, runs_bind, runs_modify, runs_ret. split; [done|].
  unfold replaced, ini_rename, ini_remove. simpl. rewrite (copy_files _ _ _ _ _ _ _ Hc).
  rewrite lookup_delete_ne, lookup_insert_eq by done. apply map_eq. intros i.
  destruct (decide (i = Filename)) as [->|Hi]; [by rewrite !lookup_insert_eq|]. rewrite !(lookup_insert_ne _ Filename) by done.
  destruct (decide (i = temp_name Filename)) as [->|Hi']; [by rewrite !lookup_delete_eq|].
  rewrite !lookup_delete_ne by done. by rewrite lookup_insert_ne.
Qed.

(** A line behind the end of a text: the text may get a line end first. *)
Definition appended (Out added Out' : list Z) : Prop := (ends_line Out ∧ Out' = Out ++ added) ∨ Out' = Out ++ INI_LINETERM ++ added.

Lemma append_ok W cs s body added k v :
  copying W cs [] s → (∀ W' s', copying W' [] [] s' → runs body s' (λ _ s'', copying (W' ++ added) [] [] s'')) →
  runs (append Filename body (Some k) (Some v)) s (λ r s', r = 1 ∧ ∃ Out, replaced Out s' ∧ appended (W ++ concat cs) added Out).
Proof using Htext Hfile Hname Hlen Htemp.
  intros Hc Hbody. apply runs_bind. eapply runs_mono; [by eapply (flush_streaming _ _ _ _ Htext Hfile Htemp _ _ _ _ _ Hc)|]. intros flag s1 (Hc1 & _ & Hflag).
  assert (∀ W' s', copying W' [] [] s' → appended (W ++ concat cs) added (W' ++ added) →
    runs body s' (λ _ s'', runs (close_rename Filename) s'' (λ r s3, r = 1 ∧ ∃ Out, replaced Out s3 ∧ appended (W ++ concat cs) added Out))) as Hend.
  { intros W' s' Hc' Happ. eapply runs_mono; [by apply Hbody|]. intros [] s'' Hc''.
    eapply runs_mono; [by eapply close_rename_ok|]. intros r s3 (-> & Hr). eauto. }
  apply runs_bind, runs_bind. destruct flag; cbn [negb when].
  - apply runs_ret. apply (Hend _ _ Hc1). left. split; [by apply Hflag|done].
  - eapply runs_mono; [by apply (write_ok _ _ _ _ _ _ _ INI_LINETERM Hc1)|]. intros [] s2 (Hc2 & _). apply (Hend _ _ Hc2).
    right. by rewrite <- app_assoc.
Qed.

Lemma append_nothing_ok W cs s body Key Value :
  copying W cs [] s → (Key = None ∨ Value = None) →
  runs (append Filename body Key Value) s (λ r s', r = 1 ∧ replaced (W ++ concat cs) s').
Proof using Htext Hfile Hname Hlen Htemp.
  intros Hc Hkv. apply runs_bind. eapply runs_mono; [by eapply (flush_streaming _ _ _ _ Htext Hfile Htemp _ _ _ _ _ Hc)|].
  intros flag s1 (Hc1 & _ & _). assert (∀ m : stM puts_state (), match Key, Value with Some _, Some _ => m | _, _ => mret () end = mret ()) as ->
    by (destruct Key, Value; by destruct Hkv). apply runs_bind, runs_ret. by eapply close_rename_ok.
Qed.

(** ** The loops *)

(** The tests on the line that was read. *)
Lemma heading_test_ok W cs p todo s name :
  copying W cs (p :: todo) s → string_at (LocalBuffer s) 0 = Ok p → 0 ∉ name → ∀ (k : bool → stM puts_state (option Z)) Q,
  runs (k (bool_decide (parse p = LHeading (fold_case name)))) s Q →
  runs (sp ← local (λ b, skipleading b 0); ep ← local (λ b, strrchr b sp (char_code "]")); c ← local (λ b, load b sp);
        found ← match ep with Some ep => if isc c "[" then local (λ b, same_name b (S sp) ep name) else mret false | None => mret false end;
        k found) s Q.
Proof using Type.
  intros Hc Hs Hn k Q Hk. assert (parse p = parse_line p) as Ep by (unfold parse; rewrite before_zero_id; [done|by eapply string_no_zero]).
  rewrite Ep in Hk. destruct (line_start _ _ _ Hs) as (sp & _ & E1 & Hsp & E2). apply runs_bind. eapply runs_local; [exact E1|].
  destruct (heading_cases _ _ _ Hsp) as (ep & E3 & Hcases). apply runs_bind. eapply runs_local; [exact E3|]. apply runs_bind.
  eapply runs_local; [exact E2|]. apply runs_bind. destruct Hcases as [(i & n & -> & Hb & _ & _ & Eline & Hsame)|(Hno & Hline)].
  - rewrite Hb. eapply runs_local; [by apply Hsame|]. rewrite Eline in Hk.
    replace (bool_decide (fold_case n = fold_case name)) with (bool_decide (LHeading (fold_case n) = LHeading (fold_case name))); [done|].
    apply bool_decide_ext. split; [by intros [= ->]|by intros ->].
  - rewrite bool_decide_eq_false_2 in Hk by apply Hline. destruct ep as [ep|]; [|by apply runs_ret].
    destruct Hno as [?|Hno]; [done|rewrite Hno]. by apply runs_ret.
Qed.

(** The file with a setting behind its end, if there is one to write. *)
Definition at_end (Key Value : option (list Z)) (Out added Out' : list Z) : Prop :=
  match Key, Value with Some k, Some v => appended Out (added ++ written_key k v) Out' | _, _ => Out' = Out end.

Context (Key Value : option (list Z)) (HKey : 0 ∉ default [] Key) (HValue : 0 ∉ default [] Value).

Lemma append_setting_ok W cs s Section added :
  copying W cs [] s → 0 ∉ Section →
  (Section = [] ∧ added = [] ∨ Section ≠ [] ∧ added = written_section Section) →
  runs (append Filename ((if decide (Section = []) then mret () else writesection (Some Section));; write_setting Key Value) Key Value) s
    (λ r s', r = 1 ∧ ∃ Out, replaced Out s' ∧ at_end Key Value (W ++ concat cs) added Out).
Proof using Htext Hfile Hname Hlen Htemp HKey HValue.
  intros Hc HS Hadded. unfold at_end. destruct Key as [k|], Value as [v|]; simpl in *;
    try (eapply runs_mono; [by apply (append_nothing_ok _ _ _ _ _ _ Hc); auto|]; intros r s' (-> & Hr); by eauto).
  apply (append_ok _ _ _ _ _ _ _ Hc). intros W' s' Hc'. apply runs_bind.
  destruct Hadded as [(-> & ->)|(Hne & ->)]; [rewrite decide_True by done; apply runs_ret|rewrite decide_False by done].
  - eapply runs_mono; [by eapply (writekey_ok _ _ _ _ _ _ _ k v Hc')|]. by intros [] s'' (Hc'' & _).
  - eapply runs_mono; [by eapply (writesection_ok _ _ _ _ _ _ _ _ Hc')|]. intros [] s2 Hc2.
    eapply runs_mono; [by eapply (writekey_ok _ _ _ _ _ _ _ k v Hc2)|]. intros [] s'' (Hc'' & _). by rewrite app_assoc.
Qed.

(** The copy up to the heading of a section. *)
Lemma puts_section_loop_ok name : 0 ∉ name → name ≠ [] → ∀ todo Out s fuel,
  streaming Out todo s → (length todo < fuel)%nat →
  runs (puts_section_loop Filename fuel name Key Value) s (λ r s',
    let P p := parse p = LHeading (fold_case name) in
    (r = Some 1 ∧ Forall (λ p, ¬ P p) todo ∧
       ∃ Out', replaced Out' s' ∧ at_end Key Value (Out ++ concat todo) (written_section name) Out') ∨
    (r = None ∧ ∃ before h after, first_such P todo before h after ∧
       match Key with
       | Some _ => streaming (Out ++ concat before ++ h) after s'
       | None => ∃ W cs, copying W cs (h :: after) s' ∧ Out ++ concat before = W ++ concat cs
       end)).
Proof using Htext Hfile Hname Hlen Htemp HKey HValue.
  intros Hn Hne. induction todo as [|p todo IH]; intros Out s [|fuel] Hst Hf; try (simpl in Hf; lia); cbn [puts_section_loop]; apply runs_bind.
  { eapply runs_mono; [by eapply (last_line_read _ _ _ _ Hfile Htemp _ _ Hst)|]. intros more s1 (-> & W & cs & Hc & ->). cbn [negb].
    apply runs_bind. pose proof (append_setting_ok W cs s1 name (written_section name) Hc Hn (or_intror (conj Hne eq_refl))) as Happ.
    rewrite decide_False in Happ by done. eapply runs_mono; [exact Happ|]. intros r s2 (-> & Out' & Hr & Hend). apply runs_ret. left.
    split_and!; [done|done|]. exists Out'. simpl. by rewrite app_nil_r. }
  eapply runs_mono; [by eapply (next_line_read _ _ _ _ Htext Hfile Htemp _ _ _ _ Hst)|]. intros more s1 (-> & Hs & W & cs & Hc & Hr & ->). cbn [negb].
  apply (heading_test_ok W cs p todo s1 name Hc Hs Hn). case_bool_decide as HP; cbn [negb orb].
  - apply runs_bind, runs_when.
    + intros HK. apply bool_decide_eq_true in HK as [k Ek]. eapply runs_mono; [by eapply (cache_line_ok _ _ _ _ Htext Hfile Htemp _ _ _ _ _ Hc)|].
      intros [] s2 Hst2. apply runs_ret. right. split; [done|]. exists [], p, todo. split; [by apply first_such_here|].
      rewrite Ek. simpl. by rewrite <- app_assoc.
    + intros HK. apply bool_decide_eq_false in HK. apply runs_ret. right. split; [done|]. exists [], p, todo. split; [by apply first_such_here|].
      destruct Key; [by destruct HK; eauto|]. exists W, cs. split; [done|]. simpl. by rewrite app_nil_r.
  - apply runs_bind. cbn [when]. eapply runs_mono; [by eapply (cache_line_ok _ _ _ _ Htext Hfile Htemp _ _ _ _ _ Hc)|]. intros [] s2 Hst2.
    eapply runs_mono; [apply (IH _ _ _ Hst2); simpl in Hf; lia|].
    intros r s3 [(-> & Hno & Out' & Hr' & Hend)|(-> & before & h & after & Hfirst & Hrest)].
    + left. split_and!; [done|by constructor|]. exists Out'. split; [done|]. simpl. by rewrite <- !app_assoc in *.
    + right. split; [done|]. exists (p :: before), h, after. split; [by apply first_such_later|]. simpl. by rewrite <- !app_assoc in *.
Qed.

Lemma key_test_ok W cs p todo s (key : option (list Z)) :
  copying W cs (p :: todo) s → string_at (LocalBuffer s) 0 = Ok p → 
  match key with Some name => (0 ∉ name) ∧ plain_start name | None => True end → ∀ (k : bool → Z → stM puts_state (Z + bool)) Q,
  (∀ found c, isc c "[" = is_heading (parse p) →
     found || isc c "[" = bool_decide (ends_at key (parse p)) →
     runs (k found c) s Q) →
  runs (sp ← local (λ b, skipleading b 0); ep ← local (λ b, separator b sp);
        found ← match ep, key with
                | Some ep, Some (k :: name) => last ← local (λ b, skiptrailing b ep sp); local (λ b, same_name b sp last (k :: name))
                | _, _ => mret false
                end;
        c ← local (λ b, load b sp); k found c) s Q.
Proof using Hlen.
  intros Hc Hs Hkey k Q Hk. assert (parse p = parse_line p) as Ep by (unfold parse; rewrite before_zero_id; [done|by eapply string_no_zero]).
  rewrite Ep in Hk. destruct (line_start _ _ _ Hs) as (sp & _ & E1 & Hsp & E2). apply runs_bind. eapply runs_local; [exact E1|].
  destruct (key_cases _ _ _ Hsp) as (ep & E3 & Hcases). apply runs_bind. eapply runs_local; [exact E3|]. apply runs_bind.
  rewrite (separator_ok _ _ _ Hsp) in E3. injection E3 as E3.
  assert (∀ found, found || isc (default 0 (head (lstrip p))) "[" =
      bool_decide (ends_at key (parse_line p)) →
    runs (c ← local (λ b, load b sp); k found c) s Q) as Hlast.
  { intros found Hf. apply runs_bind. eapply runs_local; [exact E2|]. apply Hk; [|done].
    by destruct Hcases as [(-> & [->|[n ->]])|[(-> & _ & ->)|(-> & _ & i & _ & _ & ->)]]. }
  destruct key as [[|a name]|]; [by destruct Hkey|destruct Hkey as [Hk0 Hk1]|].
  - destruct ep as [ep|]; [|apply runs_ret, Hlast; by destruct Hcases as [(-> & [->|[n ->]])|[(-> & _ & ->)|(-> & _ & i & ? & _)]]].
    destruct (separator_index (lstrip p)) as [i|] eqn:Ei; [|done]. injection E3 as <-. pose proof (separator_index_lt _ _ Ei) as Hi.
    apply runs_bind. eapply runs_local; [by eapply (skiptrailing_ok _ _ _ i Hsp); lia|].
    pose proof (key_name_ok (LocalBuffer s) sp (lstrip p) i (a :: name) Hsp ltac:(lia) Hk0) as En.
    rewrite (skiptrailing_ok _ _ _ i Hsp) in En by lia. cbn [mbind res_bind] in En. eapply runs_local; [exact En|]. apply Hlast.
    destruct Hcases as [(-> & [->|[n ->]])|[(-> & [?|Hc2] & ->)|(-> & _ & i' & [= Ei2] & Ei' & ->)]]; cbn [ends_at stops];
      [by rewrite orb_true_r..|done| |].
    + rewrite bool_decide_eq_false_2; [done|]. by apply comment_no_key.
    + assert (i' = i) as -> by lia. by rewrite orb_false_r.
  - destruct ep as [?ep|]; apply runs_ret, Hlast; by destruct Hcases as [(-> & [->|[n ->]])|[(-> & _ & ->)|(-> & _ & i & _ & _ & ->)]].
Qed.

(** In the section: its lines are copied, or skipped if it is erased. *)
Definition in_area (Out : list Z) (todo : list (list Z)) (s : puts_state) : Prop :=
  ∃ W cs, copying W cs todo s ∧ at_todo cs s ∧ Out = W ++ concat cs ∧ (Key = None → cs = []).
Definition kept (ps : list (list Z)) : list Z := match Key with Some _ => concat ps | None => [] end.

Lemma pass_line_ok W cs p todo s :
  copying W cs (p :: todo) s → just_read cs p s → (Key = None → cs = []) →
  runs (if bool_decide (Key = None) then ini_tell else cache_line Filename) s (λ _ s', in_area (W ++ concat cs ++ kept [p]) todo s').
Proof using Htext Hfile Hlen Htemp HKey.
  intros Hc Hr Hcs. unfold kept. case_bool_decide as HK.
  - rewrite (Hcs HK) in *. destruct Hr as [Hr _]. simpl in Hr. apply runs_bind, runs_gets, runs_modify. exists W, []. rewrite HK. simpl.
    split_and!; [|unfold at_todo; simpl; lia|done|done]. pose proof (copy_pieces _ _ _ _ _ _ _ Hc) as Ep. simpl in Ep.
    destruct Hc. constructor; simpl; try done. rewrite Hr, Nat.add_0_r, <- drop_drop.
    pose proof (pieces_suffix _ [p] todo Ep) as E. simpl in E. by rewrite app_nil_r in E.
  - eapply runs_mono; [by eapply (cache_line_ok _ _ _ _ Htext Hfile Htemp _ _ _ _ _ Hc)|]. intros [] s' (W' & cs' & Hc' & Hat & E).
    exists W', cs'. destruct Key; [|done]. simpl. rewrite app_nil_r. by split_and!.
Qed.

Lemma puts_key_loop_ok : match Key with Some name => plain_start name | None => True end → ∀ todo Out s fuel,
  in_area Out todo s → (length todo < fuel)%nat →
  runs (puts_key_loop Filename fuel Key Value) s (λ r s',
    let P p := ends_at Key (parse p) in
    (r = inl 1 ∧ Forall (λ p, ¬ P p) todo ∧ ∃ Out', replaced Out' s' ∧ at_end Key Value (Out ++ kept todo) [] Out') ∨
    (∃ mid l after, first_such P todo mid l after ∧ r = inr (is_heading (parse l)) ∧
       ∃ W cs, copying W cs (l :: after) s' ∧ Out ++ kept mid = W ++ concat cs)).
Proof using Htext Hfile Hname Hlen Htemp HKey HValue.
  intros Hplain. assert (∀ p ps, kept (p :: ps) = kept [p] ++ kept ps) as Hkept.
  { intros p ps. unfold kept. destruct Key; [|done]. simpl. by rewrite app_nil_r. }
  assert (∀ W : list Z, W ++ kept [] = W) as Hnil by (intros W; unfold kept; destruct Key; apply app_nil_r).
  induction todo as [|p todo IH]; intros Out s [|fuel] (W & cs & Hc & Hat & -> & Hcs) Hf; try (simpl in Hf; lia); cbn [puts_key_loop]; apply runs_bind.
  { eapply runs_mono; [by eapply (read_end _ _ _ _ Hfile Htemp _ _ _ Hc)|]. intros more s1 (-> & Hc1). cbn [negb]. apply runs_bind.
    pose proof (append_setting_ok W cs s1 [] [] Hc1 (not_elem_of_nil _) (or_introl (conj eq_refl eq_refl))) as Happ.
    rewrite decide_True in Happ by done. eapply runs_mono; [exact Happ|]. intros r s2 (-> & Out' & Hr & Hend). apply runs_ret. left.
    split_and!; [done|done|]. exists Out'. by rewrite Hnil. }
  eapply runs_mono; [by eapply (read_ok _ _ _ _ Htext Hfile Htemp _ _ _ _ _ Hc)|]. intros more s1 (-> & Hc1 & Em & Er & Hs). cbn [negb].
  apply (key_test_ok W cs p todo s1 Key Hc1 Hs); [by destruct Key|]. intros found c Hh Hf'. rewrite Hf', Hh. case_bool_decide as HP.
  - apply runs_ret. right. exists [], p, todo. split_and!; [by apply first_such_here|done|]. exists W, cs. split; [done|apply Hnil].
  - apply runs_bind. eapply runs_mono; [apply (pass_line_ok _ _ _ _ _ Hc1); [split; [by rewrite Em|done]|done]|]. intros [] s2 Hin.
    eapply runs_mono; [apply (IH _ _ _ Hin); simpl in Hf; lia|].
    intros r s3 [(-> & Hno & Out' & Hr' & Hend)|(mid & l & after & Hfirst & -> & W' & cs' & Hc' & E)].
    + left. split_and!; [done|by constructor|]. exists Out'. split; [done|]. rewrite (Hkept p todo). by rewrite <- !app_assoc in *.
    + right. exists (p :: mid), l, after. split_and!; [by apply first_such_later|done|]. exists W', cs'. split; [done|].
      rewrite (Hkept p mid). by rewrite <- !app_assoc in *.
Qed.

Lemma puts_rest_loop_ok todo : ∀ Out s fuel, streaming Out todo s → (length todo < fuel)%nat →
  runs (puts_rest_loop Filename fuel) s (λ _ s', ∃ W cs, copying W cs [] s' ∧ Out ++ concat todo = W ++ concat cs).
Proof using Htext Hfile Hlen Htemp.
  induction todo as [|p todo IH]; intros Out s [|fuel] Hst Hf; try (simpl in Hf; lia); cbn [puts_rest_loop]; apply runs_bind.
  { eapply runs_mono; [by eapply (last_line_read _ _ _ _ Hfile Htemp _ _ Hst)|]. intros more s1 (-> & W & cs & Hc & ->).
    apply runs_ret. exists W, cs. simpl. by rewrite app_nil_r. }
  eapply runs_mono; [by eapply (next_line_read _ _ _ _ Htext Hfile Htemp _ _ _ _ Hst)|]. intros more s1 (-> & Hs & W & cs & Hc & Hr & ->).
  apply runs_bind. eapply runs_mono; [by eapply (cache_line_ok _ _ _ _ Htext Hfile Htemp _ _ _ _ _ Hc)|]. intros [] s2 Hst2.
  eapply runs_mono; [apply (IH _ _ _ Hst2); simpl in Hf; lia|]. intros [] s3 (W' & cs' & Hc' & E). exists W', cs'. split; [done|].
  simpl. by rewrite <- !app_assoc in *.
Qed.

(** ** The new file *)

(** The line of the setting, if there is one to write. *)
Definition setting : list Z := match Key, Value with Some k, Some v => written_key k v | _, _ => [] end.

Lemma write_setting_ok W todo s :
  copying W [] todo s → at_todo [] s →
  runs (write_setting Key Value) s (λ _ s', copying (W ++ setting) [] todo s' ∧ at_todo [] s').
Proof using HKey HValue.
  intros Hc Hat. unfold write_setting, setting. destruct Key as [k|]; [destruct Value as [v|]|]; try (apply runs_ret; by rewrite app_nil_r).
  eapply runs_mono; [by eapply (writekey_ok _ _ _ _ _ _ _ k v Hc)|]. intros [] s' (Hc' & Em & Er). split; [done|].
  unfold at_todo in *. by rewrite Em, Er.
Qed.

(** From the line on at which the search ended. *)
Lemma puts_tail_ok Out l after s W cs fuel :
  copying W cs (l :: after) s → Out = W ++ concat cs → (length after < fuel)%nat → ∀ flag : bool,
  runs (_ ← cache_flush Filename; write_setting Key Value;; _ ← read Filename 0 INI_BUFFERSIZE;
        (if flag then _ ← cache_accum; mret () else ini_tell);; puts_rest_loop Filename fuel;; _ ← cache_flush Filename; close_rename Filename) s
    (λ r s', r = 1 ∧ replaced (Out ++ setting ++ (if flag then l else []) ++ concat after) s').
Proof using Htext Hfile Hname Hlen Htemp HKey HValue.
  intros Hc -> Hf flag. apply runs_bind. eapply runs_mono; [by eapply (flush_streaming _ _ _ _ Htext Hfile Htemp _ _ _ _ _ Hc)|].
  intros _ s1 (Hc1 & Hat1 & _). apply runs_bind. eapply runs_mono; [by eapply write_setting_ok|]. intros [] s2 (Hc2 & Hat2). apply runs_bind.
  eapply runs_mono; [by eapply (read_ok _ _ _ _ Htext Hfile Htemp _ _ _ _ _ Hc2)|]. intros more s3 (-> & Hc3 & Em & Er & Hs). apply runs_bind.
  set (Out := W ++ concat cs) in *.
  apply (runs_mono _ _ (λ _ s', streaming (Out ++ setting ++ (if flag then l else [])) after s')).
  - destruct flag.
    + apply runs_bind. eapply runs_mono; [apply (cache_accum_ok _ _ _ _ _ _ _ _ Hc3); split; [by rewrite Em|done]|].
      intros ok s4. simpl. rewrite decide_True by by eapply piece_small. intros (_ & Hc4 & Hat4). apply runs_ret.
      exists (Out ++ setting), [l]. split_and!; [done|done|]. simpl. by rewrite app_nil_r, app_assoc.
    + apply runs_bind, runs_gets, runs_modify. exists (Out ++ setting), []. simpl in Er. pose proof (copy_pieces _ _ _ _ _ _ _ Hc3) as Ep.
      split_and!; [|unfold at_todo; simpl; lia|simpl; by rewrite !app_nil_r]. destruct Hc3. constructor; simpl; try done.
      rewrite Er, Nat.add_0_r, <- Em, <- drop_drop. pose proof (pieces_suffix _ [l] after Ep) as E. simpl in E. by rewrite app_nil_r in E.
  - intros [] s4 Hst. apply runs_bind. eapply runs_mono; [by apply (puts_rest_loop_ok _ _ _ _ Hst)|]. intros [] s5 (W5 & cs5 & Hc5 & E5). apply runs_bind.
    eapply runs_mono; [by eapply (flush_streaming _ _ _ _ Htext Hfile Htemp _ _ _ _ _ Hc5)|]. intros _ s6 (Hc6 & _).
    eapply runs_mono; [by eapply close_rename_ok|]. intros r s7 (-> & Hr). split; [done|]. rewrite <- ?E5 in Hr. by rewrite <- !app_assoc in *.
Qed.

(** The file that replaces one with the lines [ps]. *)
Definition area_changed (top rest : list (list Z)) (Out : list Z) : Prop :=
  (Forall (λ p, ¬ ends_at Key (parse p)) rest ∧ at_end Key Value (concat top ++ kept rest) [] Out) ∨
  (∃ mid l after, first_such (λ p, ends_at Key (parse p)) rest mid l after ∧
     Out = concat top ++ kept mid ++ setting ++ (if is_heading (parse l) then l else []) ++ concat after).

Lemma puts_area_ok top rest s fuel :
  match Key with Some name => plain_start name | None => True end →
  in_area (concat top) rest s → (length rest < fuel)%nat →
  runs (r ← puts_key_loop Filename fuel Key Value;
        match r : Z + bool with
        | inl r => mret r
        | inr flag => _ ← cache_flush Filename; write_setting Key Value;; _ ← read Filename 0 INI_BUFFERSIZE;
            (if flag then _ ← cache_accum; mret () else ini_tell);; puts_rest_loop Filename fuel;; _ ← cache_flush Filename; close_rename Filename
        end) s (λ r s', r = 1 ∧ ∃ Out, replaced Out s' ∧ area_changed top rest Out).
Proof using Htext Hfile Hname Hlen Htemp HKey HValue.
  intros Hplain Hin Hf. apply runs_bind. eapply runs_mono; [by apply (puts_key_loop_ok Hplain _ _ _ _ Hin)|].
  intros r s1 [(-> & Hno & Out & Hr & Hend)|(mid & l & after & Hfirst & -> & W & cs & Hc & E)].
  - apply runs_ret. split; [done|]. exists Out. split; [done|]. by left.
  - assert (length after < fuel)%nat by (destruct Hfirst as (-> & _); rewrite length_app in Hf; simpl in Hf; lia).
    eapply runs_mono; [by eapply (puts_tail_ok _ _ _ _ _ _ _ Hc E)|]. intros r s2 (-> & Hr). split; [done|].
    eexists. split; [exact Hr|]. right. exists mid, l, after. split; [done|]. by rewrite <- !app_assoc.
Qed.

Definition changed (Section : list Z) (ps : list (list Z)) (Out : list Z) : Prop :=
  (Section ≠ [] ∧ Forall (λ p, parse p ≠ LHeading (fold_case Section)) ps ∧ at_end Key Value (concat ps) (written_section Section) Out) ∨
  (∃ top rest, section_area Section ps top rest ∧
     match Key with
     | Some _ => area_changed top rest Out
     | None => if decide (Section = []) then area_changed [] (tail rest) Out else ∃ before h, top = before ++ [h] ∧ area_changed before rest Out
     end).

Lemma length_pieces (t : list Z) : (length (pieces t) ≤ length t)%nat.
Proof using Type.
  clear. rewrite <- (concat_pieces t) at 2. pose proof (pieces_nonempty t) as Hne. induction Hne as [|p ps Hp _ IH]; simpl; [lia|].
  rewrite length_app. destruct p; [done|]. simpl. lia.
Qed.

(** Skipping the heading of a section that is erased, or the first line. *)
Lemma skip_line_ok Out todo s :
  Key = None → copying Out [] todo s → at_todo [] s →
  runs (_ ← read Filename 0 INI_BUFFERSIZE; ini_tell) s (λ _ s', in_area Out (tail todo) s').
Proof using Htext Hfile Hlen Htemp.
  intros HK Hc Hat. apply runs_bind. destruct todo as [|p todo].
  - eapply runs_mono; [by eapply (read_end_stays _ _ _ _ Hfile Htemp _ _ _ Hc)|]. intros more s1 (_ & Hc1 & Em & Er).
    apply runs_bind, runs_gets, runs_modify. exists Out, []. unfold at_todo in *. simpl in *.
    split_and!; [|simpl; lia|by rewrite app_nil_r|done]. pose proof (copy_pieces _ _ _ _ _ _ _ Hc1) as Ep.
    destruct Hc1. constructor; simpl; try done. rewrite Er, Hat, Nat.add_0_r, <- Em. done.
  - eapply runs_mono; [by eapply (read_ok _ _ _ _ Htext Hfile Htemp _ _ _ _ _ Hc)|]. intros more s1 (-> & Hc1 & Em & Er & Hs).
    apply runs_bind, runs_gets, runs_modify. exists Out, []. simpl in Er |- *. pose proof (copy_pieces _ _ _ _ _ _ _ Hc1) as Ep.
    split_and!; [|unfold at_todo; simpl; lia|by rewrite app_nil_r|done]. destruct Hc1. constructor; simpl; try done.
    rewrite Er, Nat.add_0_r, <- Em, <- drop_drop. pose proof (pieces_suffix _ [p] todo Ep) as E. simpl in E. by rewrite app_nil_r in E.
Qed.

(** The state in which the copy begins. *)
Lemma copy_start fopen_ok s :
  files s = fs → rpos s = 0%nat → length (LocalBuffer s) = INI_BUFFERSIZE → fopen_ok (temp_name Filename) = true →
  ∀ (k : bool → stM puts_state Z) Q,
  (∀ s', streaming [] (pieces text) s' → copying [] [] (pieces text) s' → runs (k true) s' Q) →
  runs (change_local (λ b, ini_tempname b Filename (Z.of_nat INI_BUFFERSIZE));; temp ← local (λ b, string_at b 0);
        opened ← ini_openwrite fopen_ok temp; if negb opened then mret 0 else ini_tell;; modify (set_cachelen 0);; k true) s Q.
Proof using Hname Hlen.
  intros Hfs Hr Hb Hopen k Q Hk. destruct (ini_tempname_ok (LocalBuffer s) Filename Hb Hname Hlen) as (b & Eb & Hb' & Hs).
  apply runs_bind. eapply runs_change; [exact Eb|]. apply runs_bind. eapply runs_local; [exact Hs|]. apply runs_bind. unfold ini_openwrite.
  rewrite Hopen. apply runs_bind, runs_gets, runs_bind, runs_modify, runs_bind, runs_modify, runs_ret. cbn [negb].
  apply runs_bind, runs_bind, runs_gets, runs_modify, runs_bind, runs_modify.
  set (s' := set_cachelen _ _). assert (copying [] [] (pieces text) s') as Hc.
  { constructor; simpl; try done; [by rewrite Hfs|by rewrite Hr, drop_0|unfold INI_BUFFERSIZE; lia]. }
  apply Hk; [|done]. exists [], []. split_and!; [done| |done]. unfold at_todo. simpl. lia.
Qed.

(** From the heading of the section on. *)
Lemma puts_from_area_ok top todo s fuel W cs :
  match Key with Some name => plain_start name | None => True end →
  copying W cs todo s → concat top = W ++ concat cs → (length todo < fuel)%nat →
  runs (_ ← cache_flush Filename;
        when (bool_decide (Key = None)) (_ ← read Filename 0 INI_BUFFERSIZE; ini_tell);;
        r ← puts_key_loop Filename fuel Key Value;
        match r : Z + bool with
        | inl r => mret r
        | inr flag => _ ← cache_flush Filename; write_setting Key Value;; _ ← read Filename 0 INI_BUFFERSIZE;
            (if flag then _ ← cache_accum; mret () else ini_tell);; puts_rest_loop Filename fuel;; _ ← cache_flush Filename; close_rename Filename
        end) s (λ r s', r = 1 ∧ ∃ Out, replaced Out s' ∧ area_changed top (match Key with Some _ => todo | None => tail todo end) Out).
Proof using Htext Hfile Hname Hlen Htemp HKey HValue.
  intros Hplain Hc E Hf. apply runs_bind. eapply runs_mono; [by eapply (flush_streaming _ _ _ _ Htext Hfile Htemp _ _ _ _ _ Hc)|].
  intros _ s1 (Hc1 & Hat1 & _). apply runs_bind. rewrite <- ?E in Hc1. apply runs_when; intros HK.
  - apply bool_decide_eq_true in HK. eapply runs_mono; [by apply (skip_line_ok _ _ _ HK Hc1 Hat1)|]. intros [] s2 Hin.
    eapply runs_mono; [apply (puts_area_ok _ _ _ _ Hplain Hin); destruct todo; simpl in *; lia|]. by rewrite HK.
  - apply bool_decide_eq_false in HK. assert (∃ key, Key = Some key) as [key EK] by (destruct Key; [by eauto|done]).
    assert (in_area (concat top) todo s1) as Hin by (exists (concat top), []; rewrite app_nil_r; by split_and!).
    eapply runs_mono; [by apply (puts_area_ok _ _ _ _ Hplain Hin)|]. by rewrite EK.
Qed.

Lemma puts_copy_ok fopen_ok Section s :
  match Key with Some name => plain_start name | None => True end → 0 ∉ default [] Section →
  files s = fs → rpos s = 0%nat → length (LocalBuffer s) = INI_BUFFERSIZE → fopen_ok (temp_name Filename) = true →
  runs (puts_copy fopen_ok Filename (S (length text)) Section Key Value) s (λ r s',
    r = 1 ∧ ∃ Out, replaced Out s' ∧ changed (default [] Section) (pieces text) Out).
Proof using Htext Hfile Hname Hlen Htemp HKey HValue.
  intros Hplain HS Hfs Hr Hb Hopen. pose proof (length_pieces text) as Hlp.
  apply (copy_start fopen_ok s Hfs Hr Hb Hopen (λ _, _)). clear s Hfs Hr Hb. intros s Hst Hc. apply runs_bind.
  destruct (decide (default [] Section = [])) as [Es|Hs].
  - assert (match Section with Some (c :: name) => puts_section_loop Filename (S (length text)) (c :: name) Key Value | _ => mret None end
      = mret None) as -> by (destruct Section as [[|]|]; done). apply runs_ret.
    eapply runs_mono; [by apply (puts_from_area_ok [] (pieces text) s (S (length text)) [] [] Hplain Hc); [|lia]|].
    intros r s1 (-> & Out & Hr & Ha). split; [done|]. exists Out. split; [done|]. right. exists [], (pieces text). split; [by left|].
    rewrite Es, decide_True by done. clear -Ha. by destruct Key.
  - destruct Section as [[|c name]|]; [done| |done]. cbn [default from_option id] in *. set (sec := c :: name) in *.
    eapply runs_mono; [apply (puts_section_loop_ok sec HS Hs _ _ _ (S (length text)) Hst); lia|].
    intros r s1 [(-> & Hno & Out & Hr & Hend)|(-> & before & h & after & Hfirst & Hrest)].
    + apply runs_ret. split; [done|]. exists Out. split; [done|]. left. by split_and!.
    + assert (section_area sec (pieces text) (before ++ [h]) after) as Harea by (right; split; [done|]; by exists before, h).
      assert (length (h :: after) < S (length text))%nat as Hf by (destruct Hfirst as (E & _); rewrite E, length_app in Hlp; simpl in *; lia).
      assert ((∃ key, Key = Some key) ∨ Key = None) as [[key EK]|EK] by (destruct Key; eauto); rewrite EK in Hrest.
      * destruct Hrest as (W & cs & Hc1 & _ & E). eapply runs_mono; [apply (puts_from_area_ok (before ++ [h]) after s1 (S (length text)) W cs Hplain Hc1)|].
        -- by rewrite concat_app, <- E; simpl; rewrite app_nil_r.
        -- simpl in Hf. lia.
        -- intros r s2 (-> & Out & Hr & Ha). split; [done|]. exists Out. split; [done|]. right. exists (before ++ [h]), after. rewrite EK in Ha |- *. done.
      * destruct Hrest as (W & cs & Hc1 & E). eapply runs_mono; [by apply (puts_from_area_ok before (h :: after) s1 (S (length text)) W cs Hplain Hc1)|].
        intros r s2 (-> & Out & Hr & Ha). split; [done|]. exists Out. split; [done|]. right. exists (before ++ [h]), after.
        split; [done|]. rewrite EK in Ha |- *. rewrite decide_False by done. by exists before, h.
Qed.
End puts.
