(* ===== verification/MinIniRound.v ===== *)
(** * What [ini_puts] does to the settings

    The file that [ini_puts] leaves is related to the settings of the file it
    found: the setting is changed, added or erased, and every other one is kept.
    With [MinIniSpec] this gives what [ini_gets] finds afterwards. *)

From Stdlib Require Import Ascii.
From stdpp Require Import base numbers gmap option list.
From S2P Require Import Prelude CType CBuffer MinIni MinIniSpec MinIniPut.

Open Scope Z_scope.

(** ** Changing a list of lines *)

Fixpoint put_key (key v : list Z) (ls : list line) : list line :=
  match ls with
  | [] => [LEntry key v]
  | LEntry k w :: ls' => if decide (k = key) then LEntry key v :: ls' else LEntry k w :: put_key key v ls'
  | LOther :: ls' => LOther :: put_key key v ls'
  | l :: ls' => LEntry key v :: l :: ls'
  end.

Fixpoint put_section (name key v : list Z) (ls : list line) : list line :=
  match ls with
  | [] => [LHeading name; LEntry key v]
  | l :: ls' => if decide (l = LHeading name) then l :: put_key key v ls' else l :: put_section name key v ls'
  end.

Definition put_setting (Section Key Value : list Z) (ls : list line) : list line :=
  if decide (Section = []) then put_key (fold_case Key) Value ls
  else put_section (fold_case Section) (fold_case Key) Value ls.

Fixpoint erase_key (key : list Z) (ls : list line) : list line :=
  match ls with
  | LEntry k w :: ls' => if decide (k = key) then ls' else LEntry k w :: erase_key key ls'
  | LOther :: ls' => LOther :: erase_key key ls'
  | _ => ls
  end.

Fixpoint within_section (name : list Z) (f : list line → list line) (ls : list line) : list line :=
  match ls with
  | [] => []
  | l :: ls' => if decide (l = LHeading name) then l :: f ls' else l :: within_section name f ls'
  end.

(** The lines from the next heading on, and the lines without a section. *)
Fixpoint from_heading (ls : list line) : list line :=
  match ls with
  | [] => []
  | LHeading _ :: _ | LOpen :: _ => ls
  | _ :: ls' => from_heading ls'
  end.
Fixpoint erase_section (name : list Z) (ls : list line) : list line :=
  match ls with
  | [] => []
  | l :: ls' => if decide (l = LHeading name) then from_heading ls' else l :: erase_section name ls'
  end.

Definition erase_setting (Section Key : list Z) (ls : list line) : list line :=
  if decide (Section = []) then erase_key (fold_case Key) ls
  else within_section (fold_case Section) (erase_key (fold_case Key)) ls.

(** A setting that was put is found, and the others are as they were. *)
Lemma in_keys_put key v k ls : in_keys k (put_key key v ls) = if decide (k = key) then Some v else in_keys k ls.
Proof.
  induction ls as [|l ls IH]; simpl; [by destruct (decide (key = k)), (decide (k = key)); congruence|].
  destruct l as [n| |k' w|]; simpl; try (by destruct (decide (key = k)), (decide (k = key)); congruence).
  - destruct (decide (k' = key)) as [->|Hne]; simpl.
    + by destruct (decide (key = k)), (decide (k = key)); congruence.
    + rewrite IH. destruct (decide (k' = k)), (decide (k = key)); congruence.
Qed.

Lemma in_section_put_key name key v ls : in_section name (put_key key v ls) = in_section name ls.
Proof. induction ls as [|[] ls IH]; simpl; [done..| |done]. by destruct (decide _); simpl. Qed.

Lemma in_keys_put_section name key v k ls : in_keys k (put_section name key v ls) = in_keys k ls.
Proof.
  induction ls as [|l ls IH]; [done|]. simpl. destruct (decide (l = LHeading name)) as [->|_]; [done|].
  destruct l; simpl; [done|done|by rewrite IH|done].
Qed.

Lemma lookup_put_section name key v n k ls :
  (in_section n (put_section name key v ls) ≫= in_keys k) = if decide (n = name ∧ k = key) then Some v else in_section n ls ≫= in_keys k.
Proof.
  induction ls as [|l ls IH].
  { simpl. destruct (decide (name = n)) as [->|Hn]; simpl; [|by rewrite decide_False by (intros [? _]; congruence)].
    destruct (decide (key = k)) as [->|Hk]; [by rewrite decide_True|by rewrite decide_False by (intros [_ ?]; congruence)]. }
  cbn [put_section]. destruct (decide (l = LHeading name)) as [->|Hl]; simpl.
  - destruct (decide (name = n)) as [->|Hn]; simpl.
    + rewrite in_keys_put. destruct (decide (k = key)) as [->|Hk]; [by rewrite decide_True|by rewrite decide_False by tauto].
    + rewrite in_section_put_key. by rewrite decide_False by (intros [? _]; congruence).
  - destruct l as [m| | |]; simpl; [|exact IH..]. destruct (decide (m = n)) as [->|Hm]; [|exact IH]. simpl.
    rewrite in_keys_put_section. rewrite decide_False; [done|]. intros [-> _]. done.
Qed.

Lemma lookup_put Section Key Value sec key ls :
  lookup_setting sec key (put_setting Section Key Value ls) =
    if decide (fold_case sec = fold_case Section ∧ fold_case key = fold_case Key) then Some Value else lookup_setting sec key ls.
Proof.
  assert (∀ s, fold_case s = [] ↔ s = []) as Hnil by (intros []; by split).
  unfold put_setting, lookup_setting, section_lines. destruct (decide (Section = [])) as [->|HS], (decide (sec = [])) as [->|Hs]; simpl.
  - rewrite in_keys_put. destruct (decide (fold_case key = _)) as [->|Hk]; [by rewrite decide_True|by rewrite decide_False by tauto].
  - rewrite in_section_put_key. rewrite decide_False; [done|]. intros [E _]. by apply Hs, Hnil.
  - rewrite in_keys_put_section. rewrite decide_False; [done|]. intros [E _]. by apply HS, Hnil.
  - apply lookup_put_section.
Qed.

(** ** The lines of the new file *)

(** Blanks behind a line do not matter. *)
Lemma lstrip_snoc s c : blank c = true → lstrip (s ++ [c]) = match lstrip s with [] => [] | t => t ++ [c] end.
Proof. intros Hc. induction s as [|d s IH]; simpl; [by rewrite Hc|]. by destruct (blank d). Qed.

Lemma blank_plain c : blank c = true → 1 ≤ c ≤ 32.
Proof. unfold blank. rewrite andb_true_iff, Z.ltb_lt, Z.leb_le. lia. Qed.

Lemma rstrip_cons_ext c s t : rstrip s = rstrip t → rstrip (c :: s) = rstrip (c :: t).
Proof. simpl. by intros ->. Qed.

Lemma uncomment_snoc s q c : blank c = true → rstrip (uncomment (s ++ [c]) q) = rstrip (uncomment s q).
Proof.
  intros Hc. pose proof (blank_plain c Hc) as Hrange. assert (∀ q, rstrip (uncomment [c] q) = []) as Hone.
  { intros r. cbn [uncomment]. unfold isc, dquote, backslash. change (char_code ";") with 59. change (char_code "#") with 35.
    rewrite !(proj2 (Z.eqb_neq _ _)) by lia. simpl. by rewrite Hc. }
  remember (length s) as n eqn:Hn. revert s q Hn. induction n as [n IH] using lt_wf_ind. intros [|d s] q ->; [apply Hone|].
  assert (∀ t r, (length t < length (d :: s))%nat → rstrip (uncomment (t ++ [c]) r) = rstrip (uncomment t r)) as IH'
    by (intros t r Ht; by apply (IH (length t))). cbn [length] in IH'.
  cbn [uncomment app]. destruct (_ && _); [done|].
  destruct (d =? dquote); [|destruct (d =? backslash); [|by apply rstrip_cons_ext, IH'; lia]];
    (destruct s as [|e s]; cbn [app]; [unfold dquote in *; rewrite (proj2 (Z.eqb_neq c 34)) by lia; by apply rstrip_cons_ext; rewrite Hone|];
     destruct (e =? dquote); [do 2 apply rstrip_cons_ext; apply IH'; simpl; lia|apply rstrip_cons_ext, (IH' (e :: s)); simpl; lia]).
Qed.

Lemma value_of_snoc s c : blank c = true → value_of (s ++ [c]) = value_of s.
Proof.
  intros Hc. unfold value_of. rewrite lstrip_snoc by done. destruct (lstrip s) as [|d t] eqn:E; [done|].
  by rewrite uncomment_snoc.
Qed.

Lemma index_of_cons c d t : index_of c (d :: t) = if decide (d = c) then Some 0%nat else S <$> index_of c t.
Proof. unfold index_of. simpl. destruct (decide (d = c)); [done|]. by destruct (list_find _ t) as [[]|]. Qed.

Lemma index_of_snoc c t d : d ≠ c → index_of c (t ++ [d]) = index_of c t.
Proof.
  intros Hd. induction t as [|e t IH]; simpl; rewrite !index_of_cons; [by rewrite decide_False|]. by rewrite IH.
Qed.

Lemma last_index_of_snoc c t d : d ≠ c → last_index_of c (t ++ [d]) = last_index_of c t.
Proof.
  intros Hd. unfold last_index_of. rewrite reverse_snoc, index_of_cons, decide_False by done. rewrite length_app. simpl.
  destruct (index_of c (reverse t)); simpl; [|done]. f_equal. lia.
Qed.

Lemma parse_line_snoc s c : blank c = true → parse_line (s ++ [c]) = parse_line s.
Proof.
  intros Hc. pose proof (blank_plain c Hc) as Hr. unfold parse_line. rewrite lstrip_snoc by done. destruct (lstrip s) as [|d t] eqn:E; [done|].
  cbn [app]. change (d :: t ++ [c]) with ((d :: t) ++ [c]). rewrite last_index_of_snoc by (change (char_code "]") with 93; lia).
  assert (separator_index ((d :: t) ++ [c]) = separator_index (d :: t)) as ->.
  { unfold separator_index. rewrite !index_of_snoc; [done|change (char_code ":") with 58|change (char_code "=") with 61]; lia. }
  destruct (isc d "[").
  - destruct (last_index_of _ (d :: t)) as [i|] eqn:Ei; [|done]. apply last_index_of_lt in Ei as [Hi _]. simpl in Hi.
    by rewrite take_app_le by lia.
  - destruct (_ || _); [done|]. destruct (separator_index (d :: t)) as [i|] eqn:Ei; [|done]. apply separator_index_lt in Ei.
    rewrite take_app_le by lia. rewrite drop_app_le by lia. by rewrite value_of_snoc.
Qed.

Lemma no_zero_snoc (p : list Z) c : 0 ∉ p → c ≠ 0 → 0 ∉ p ++ [c].
Proof. rewrite elem_of_app, list_elem_of_singleton. intros Hp Hc [|]; by subst. Qed.

Lemma parse_lineterm p : 0 ∉ p → parse (p ++ [13]) = parse p ∧ parse (p ++ [13; 10]) = parse p.
Proof.
  intros Hp. assert (0 ∉ p ++ [13]) as H1 by by apply no_zero_snoc. assert (0 ∉ (p ++ [13]) ++ [10]) as H2 by by apply no_zero_snoc.
  unfold parse. change [13; 10] with ([13] ++ [10]). rewrite app_assoc, !before_zero_id by done. by rewrite !parse_line_snoc.
Qed.

(** A piece that is not closed is the last, has no line end and room. *)
Lemma piece_open t l : next_line (INI_BUFFERSIZE - 1) t = l → drop (length l) t = [] → t = l.
Proof. intros E Hd. rewrite <- (take_drop (length l) t), Hd, app_nil_r. rewrite <- E at 1. symmetry. rewrite <- E. apply next_line_prefix. Qed.

Lemma next_line_within n l : next_line n l = l → (10 ∉ removelast l) ∧ (length l ≤ n)%nat.
Proof.
  revert l. induction n as [|n IH]; intros [|c l] E; simpl in *; try done; [split; [apply not_elem_of_nil|lia]..|].
  destruct (Z.eqb_spec c 10) as [->|Hc]; injection E as E.
  - subst l. split; [apply not_elem_of_nil|simpl; lia].
  - destruct (IH l E) as [H1 H2]. split; [|lia]. destruct l as [|d l]; [apply not_elem_of_nil|]. rewrite not_elem_of_cons. split; [congruence|done].
Qed.

Lemma next_line_full l t : 10 ∉ l → next_line (length l) (l ++ t) = l.
Proof.
  induction l as [|c l IH]; [done|]. rewrite not_elem_of_cons. intros [Hc Hl]. simpl. rewrite (proj2 (Z.eqb_neq c 10)) by congruence. by rewrite IH.
Qed.

(** A last piece is closed, or has no line end and room for one character. *)
Lemma last_piece l :
  next_line (INI_BUFFERSIZE - 1) l = l → l ≠ [] → closed l ∨ ((10 ∉ l) ∧ (length l < INI_BUFFERSIZE - 1)%nat).
Proof.
  intros E Hl. destruct (next_line_within _ _ E) as [Hr Hlen]. destruct l as [|c l _] using rev_ind; [done|].
  rewrite removelast_last in Hr. rewrite length_app in Hlen. simpl in Hlen. destruct (decide (c = 10)) as [->|Hc].
  - left. apply line_closed; [done|unfold INI_BUFFERSIZE in *; lia].
  - assert (10 ∉ l ++ [c]) as H10 by (rewrite elem_of_app, list_elem_of_singleton; intros [|]; congruence).
    destruct (decide (length (l ++ [c]) = INI_BUFFERSIZE - 1)%nat) as [Heq|Hne]; [left|right; split; [done|rewrite length_app in *; simpl in *; lia]].
    split; [done|]. intros t. rewrite <- Heq. by apply next_line_full.
Qed.

Lemma pieces_last t ps l : pieces t = ps ++ [l] → Forall closed ps ∧ next_line (INI_BUFFERSIZE - 1) l = l ∧ l ≠ [].
Proof.
  intros E. split; [by eapply pieces_closed|]. apply pieces_suffix in E. set (u := drop _ t) in E.
  assert (u = l) as -> by (rewrite <- (concat_pieces u), E; simpl; apply app_nil_r).
  destruct (decide (l = [])) as [->|Hl]; [done|]. split; [|done]. destruct (pieces_step l Hl) as (l' & El & _ & _ & E'). rewrite E in E'. congruence.
Qed.

(** The settings of a list of pieces. *)
Definition settings_of (ps : list (list Z)) : list line := filter (λ l, l ≠ LOther) (map parse ps).

Lemma settings_of_app ps qs : settings_of (ps ++ qs) = settings_of ps ++ settings_of qs.
Proof. unfold settings_of. by rewrite map_app, filter_app. Qed.

Lemma settings_of_other p : parse p = LOther → settings_of [p] = [].
Proof. intros E. unfold settings_of. simpl. rewrite E. by rewrite filter_cons_False by tauto. Qed.

(** Texts all of whose pieces are closed, with their settings. *)
Definition closed_text (text : list Z) (ls : list line) : Prop := ∃ ps, concat ps = text ∧ Forall closed ps ∧ settings_of ps = ls.

Lemma closed_text_app text ls added : closed_text text ls → settings (text ++ added) = ls ++ settings added.
Proof.
  intros (ps & <- & Hcl & <-). unfold settings. rewrite pieces_concat_app by done. apply settings_of_app.
Qed.

Lemma terminated_closed text : 0 ∉ text → closed_text (text ++ INI_LINETERM) (settings text).
Proof.
  intros H0. assert (closed [13; 10]) as Hcrlf by (apply (line_closed [13]); [by rewrite list_elem_of_singleton|unfold INI_BUFFERSIZE; simpl; lia]).
  assert (closed [10]) as Hlf by (apply (line_closed []); [apply not_elem_of_nil|unfold INI_BUFFERSIZE; simpl; lia]).
  unfold settings. fold (settings_of (pieces text)). pose proof (concat_pieces text) as Etext.
  destruct (pieces text) as [|l ps _] eqn:E using rev_ind; [simpl in Etext; subst text; exists [[13; 10]]; split_and!; [done|by constructor|done]|].
  destruct (pieces_last _ _ _ E) as (Hcl & El & Hl). rewrite concat_app in Etext. simpl in Etext. rewrite app_nil_r in Etext.
  assert (0 ∉ l) as Hl0 by (intros Hin; apply H0; rewrite <- Etext, elem_of_app; by right).
  destruct (parse_lineterm l Hl0) as [Hp1 Hp2]. rewrite <- Etext, <- app_assoc.
  destruct (last_piece l El Hl) as [Hc|[H10 Hlen]]; [|destruct (decide (length l = INI_BUFFERSIZE - 2)%nat) as [Heq|Hne]].
  - exists (ps ++ [l; [13; 10]]). rewrite concat_app, Forall_app. split_and!; [simpl; by rewrite ?app_nil_r|done|constructor; [done|by constructor]|].
    rewrite (settings_of_app ps [l]). change [l; [13; 10]] with ([l] ++ [[13; 10]]). rewrite app_assoc, !settings_of_app. by rewrite !app_nil_r.
  - exists (ps ++ [l ++ [13]; [10]]). rewrite concat_app, Forall_app. split_and!; [simpl; by rewrite <- ?app_assoc|done| |].
    + constructor; [|by constructor]. split; [by destruct l|]. intros t. assert (length (l ++ [13]) = (INI_BUFFERSIZE - 1)%nat) as <-
        by (rewrite length_app, Heq; done). apply next_line_full. rewrite elem_of_app, list_elem_of_singleton. by intros [|].
    + rewrite (settings_of_app ps [l]). change [l ++ [13]; [10]] with ([l ++ [13]] ++ [[10]]). rewrite app_assoc, !settings_of_app.
      rewrite (settings_of_other [10]), app_nil_r by done. unfold settings_of. simpl. by rewrite Hp1.
  - exists (ps ++ [l ++ [13; 10]]). rewrite concat_app, Forall_app. split_and!; [simpl; by rewrite ?app_nil_r|done| |].
    + constructor; [|done]. change [13; 10] with ([13] ++ [10]). rewrite app_assoc. apply line_closed.
      * rewrite elem_of_app, list_elem_of_singleton. by intros [|].
      * rewrite length_app. unfold INI_BUFFERSIZE in *. simpl. lia.
    + rewrite !settings_of_app. unfold settings_of. simpl. by rewrite Hp2.
Qed.

Lemma ends_line_closed text : ends_line text → closed_text text (settings text).
Proof.
  intros [u Eu]. exists (pieces text). split_and!; [apply concat_pieces| |done]. pose proof (concat_pieces text) as Etext.
  destruct (pieces text) as [|l ps _] eqn:E using rev_ind; [done|]. destruct (pieces_last _ _ _ E) as (Hcl & El & Hl).
  apply Forall_app. split; [done|]. constructor; [|done]. destruct (last_piece l El Hl) as [Hc|[H10 _]]; [done|]. exfalso. apply H10.
  rewrite concat_app in Etext. simpl in Etext. rewrite app_nil_r, Eu in Etext.
  assert (last (concat ps ++ l) = last (u ++ INI_LINETERM)) as Elast by by rewrite Etext.
  rewrite !last_app in Elast. simpl in Elast. destruct (last l) as [c|] eqn:Ec; [|by apply last_None in Ec].
  injection Elast as ->. by apply last_Some_elem_of in Ec.
Qed.

Lemma settings_appended text added Out : 0 ∉ text → appended text added Out → settings Out = settings text ++ settings added.
Proof.
  intros H0 [(He & ->)| ->]; [by apply closed_text_app, ends_line_closed|]. rewrite app_assoc. by apply closed_text_app, terminated_closed.
Qed.

(** ** Lines that are written and read *)

(** A value with its quotes escaped, and as it is written. *)
Fixpoint escaped (v : list Z) : list Z :=
  match v with
  | [] => []
  | c :: v' => if c =? dquote then backslash :: c :: escaped v' else c :: escaped v'
  end.
Definition encoded (v : list Z) : list Z :=
  if decide (check_enquote v = QUOTE_ENQUOTE) then dquote :: escaped v ++ [dquote] else v.

(** Neither a comment nor a heading begins with it. *)
Definition entry_start (k : list Z) : Prop := match k with [] => False | c :: _ => isc c ";" || isc c "#" || isc c "[" = false end.
Global Instance entry_start_dec k : Decision (entry_start k).
Proof. destruct k; apply _. Defined.

(** Names and values that can be written. *)
Record key_ok (k : list Z) : Prop := {
  key_no_zero : 0 ∉ k;
  key_no_newline : 10 ∉ k;
  key_no_equals : char_code "=" ∉ k;
  key_start : entry_start k;
  key_lstrip : lstrip k = k;
  key_rstrip : rstrip k = k
}.
Record value_ok (v : list Z) : Prop := {
  value_no_zero : 0 ∉ v;
  value_no_newline : 10 ∉ v;
  value_kept : check_enquote v = QUOTE_ENQUOTE ∨ lstrip v = v ∧ rstrip v = v
}.
Record section_ok (s : list Z) : Prop := {
  section_no_zero : 0 ∉ s;
  section_no_newline : 10 ∉ s;
  section_length : (length s ≤ INI_BUFFERSIZE - 5)%nat
}.
Definition line_fits (k v : list Z) : Prop := (length k + length (encoded v) ≤ INI_BUFFERSIZE - 4)%nat.

Global Instance key_ok_dec k : Decision (key_ok k).
Proof.
  refine (match decide ((0 ∉ k) ∧ (10 ∉ k) ∧ (char_code "=" ∉ k) ∧
    entry_start k ∧ lstrip k = k ∧ rstrip k = k) with left H => left _ | right H => right _ end);
    [abstract (destruct_and!; by constructor)|abstract (intros []; tauto)].
Defined.
Global Instance value_ok_dec v : Decision (value_ok v).
Proof.
  refine (match decide ((0 ∉ v) ∧ (10 ∉ v) ∧ (check_enquote v = QUOTE_ENQUOTE ∨ lstrip v = v ∧ rstrip v = v)) with left H => left _ | right H => right _ end);
    [abstract (destruct_and!; by constructor)|abstract (intros []; tauto)].
Defined.
Global Instance section_ok_dec s : Decision (section_ok s).
Proof.
  refine (match decide ((0 ∉ s) ∧ (10 ∉ s) ∧ (length s ≤ INI_BUFFERSIZE - 5)%nat) with left H => left _ | right H => right _ end); [abstract (destruct_and!; by constructor)|abstract (intros []; tauto)].
Defined.
Global Instance line_fits_dec k v : Decision (line_fits k v).
Proof. unfold line_fits. apply _. Defined.

Lemma enquote_fits n v : (length (escaped v) ≤ n)%nat → enquote n v = escaped v.
Proof.
  revert n. induction v as [|c v IH]; intros n Hn; [by destruct n|]. simpl in *. destruct (c =? dquote); simpl in Hn.
  - destruct n as [|[|n]]; [lia..|]. by rewrite IH by lia.
  - destruct n as [|n]; [lia|]. by rewrite IH by lia.
Qed.

Lemma check_enquote_cases v : check_enquote v = QUOTE_ENQUOTE ∨ check_enquote v = QUOTE_NONE.
Proof. unfold check_enquote. destruct (_ || _); auto. Qed.

Lemma written_key_full k v : line_fits k v → written_key k v = k ++ char_code "=" :: encoded v ++ INI_LINETERM.
Proof.
  unfold line_fits, written_key, encoded. intros Hfit. rewrite (take_ge k) by lia. do 2 f_equal. unfold INI_BUFFERSIZE in *.
  destruct (check_enquote_cases v) as [E|E]; rewrite E in *.
  - rewrite decide_True in * by done. simpl in Hfit. rewrite length_app in Hfit. simpl in Hfit. unfold copied. rewrite decide_False by lia.
    by rewrite enquote_fits by lia.
  - rewrite decide_False in * by done. unfold copied. by rewrite take_ge by lia.
Qed.

Lemma not_in_escaped x v : x ≠ backslash → x ∉ v → x ∉ escaped v.
Proof.
  intros Hx. induction v as [|c v IH]; [done|]. rewrite not_elem_of_cons. intros [Hc Hv]. simpl.
  destruct (c =? dquote); rewrite ?not_elem_of_cons; split_and!; auto.
Qed.

Lemma not_in_encoded x v : x ≠ dquote → x ≠ backslash → x ∉ v → x ∉ encoded v.
Proof.
  intros Hx1 Hx2 Hv. unfold encoded. destruct (decide _); [|done]. rewrite not_elem_of_cons, elem_of_app, list_elem_of_singleton.
  split; [done|]. intros [Hin|]; [|done]. by apply not_in_escaped in Hin.
Qed.

Lemma written_key_closed k v : key_ok k → value_ok v → line_fits k v → closed (written_key k v).
Proof.
  intros Hk Hv Hfit. rewrite written_key_full by done.
  replace (k ++ char_code "=" :: encoded v ++ INI_LINETERM) with ((k ++ char_code "=" :: encoded v ++ [13]) ++ [10])
    by (rewrite <- !app_assoc; simpl; by rewrite <- app_assoc).
  apply line_closed.
  - pose proof (key_no_newline _ Hk). pose proof (not_in_encoded 10 v ltac:(done) ltac:(done) (value_no_newline _ Hv)).
    rewrite !elem_of_app, elem_of_cons, elem_of_app, list_elem_of_singleton. intros [|[|[|]]]; done.
  - unfold line_fits, INI_BUFFERSIZE in *. rewrite !length_app. simpl. rewrite length_app. simpl. lia.
Qed.

Lemma written_section_closed s : section_ok s → closed (written_section s).
Proof.
  intros [H0 H10 Hlen]. unfold written_section. rewrite take_ge by done.
  change (char_code "[") with 91. replace ([91] ++ s ++ [char_code "]"] ++ INI_LINETERM) with (([91] ++ s ++ [char_code "]"; 13]) ++ [10])
    by (rewrite <- !app_assoc; done).
  apply line_closed.
  - rewrite !elem_of_app, list_elem_of_singleton, elem_of_cons, list_elem_of_singleton. by intros [|[|[|]]].
  - unfold INI_BUFFERSIZE in *. rewrite !length_app. simpl. lia.
Qed.

Lemma escaped_head v : head (escaped v ++ [dquote]) ≠ Some dquote ∨ v = [].
Proof. destruct v as [|c v]; [by right|left]. simpl. destruct (Z.eqb_spec c dquote); simpl; [done|congruence]. Qed.

(** Between its quotes nothing of an escaped value is a comment or the end. *)
Lemma uncomment_escaped v : uncomment (escaped v ++ [dquote]) true = escaped v ++ [dquote].
Proof.
  remember (length v) as n eqn:Hn. revert v Hn. induction n as [n IH] using lt_wf_ind. intros [|c v] ->; [done|].
  assert (uncomment (escaped v ++ [dquote]) true = escaped v ++ [dquote]) as IHv by (by eapply IH; [|done]; simpl; lia).
  cbn [escaped]. destruct (Z.eqb_spec c dquote) as [->|Hc].
  - cbn [app uncomment]. simpl. by rewrite IHv.
  - cbn [app uncomment]. rewrite andb_false_r. rewrite (proj2 (Z.eqb_neq c dquote) Hc). destruct (Z.eqb_spec c backslash) as [->|Hb]; [|by rewrite IHv].
    destruct (escaped v ++ [dquote]) as [|d t] eqn:E; [by destruct (escaped v)|]. destruct (Z.eqb_spec d dquote) as [->|Hd]; [|by rewrite IHv].
    destruct (escaped_head v) as [Hh| ->]; [by rewrite E in Hh|]. simpl in E. by injection E as <-.
Qed.

Lemma dequote_escaped v : dequote (escaped v) = v.
Proof.
  induction v as [|c v IH]; [done|]. cbn [escaped]. destruct (Z.eqb_spec c dquote) as [->|Hc]; [simpl; by rewrite IH|].
  cbn [dequote]. rewrite (proj2 (Z.eqb_neq c dquote) Hc). simpl. destruct (c =? backslash); [|by rewrite IH].
  destruct (escaped v) as [|d t] eqn:E; [by rewrite <- IH|]. destruct (Z.eqb_spec d dquote) as [->|Hd]; [|by rewrite IH].
  destruct (escaped_head v) as [Hh| ->]; [by rewrite E in Hh|done].
Qed.

Lemma uncomment_plain v q : needs_quotes v = None → uncomment v q = v.
Proof.
  revert q. induction v as [|c v IH]; intros q Hv; [done|]. cbn [needs_quotes uncomment] in *.
  destruct (c =? dquote) eqn:Ed; [done|]. destruct (isc c ";"); [done|]. destruct (isc c "#"); [done|]. cbn [orb andb] in *.
  destruct (c =? backslash); [|by rewrite IH]. destruct v as [|d v]; [done|]. destruct (d =? dquote) eqn:Ed'; [|by rewrite IH].
  cbn [needs_quotes] in Hv. by rewrite Ed' in Hv.
Qed.

Lemma needs_quotes_head v : needs_quotes v = None → head v ≠ Some dquote.
Proof. destruct v as [|c v]; [done|]. simpl. destruct (Z.eqb_spec c dquote); simpl; [done|congruence]. Qed.

Lemma value_of_encoded v : value_ok v → value_of (encoded v) = v.
Proof.
  intros [H0 H10 Hkept]. unfold encoded, value_of. destruct (decide _) as [E|E].
  - cbn [lstrip]. change (blank dquote) with false. cbn iota.
    assert (uncomment (dquote :: escaped v ++ [dquote]) false = dquote :: escaped v ++ [dquote]) as ->.
    { cbn [uncomment]. change ((isc dquote ";" || isc dquote "#") && negb false) with false. cbn iota. rewrite Z.eqb_refl.
      destruct (escaped v ++ [dquote]) as [|d t] eqn:Et; [done|]. destruct (Z.eqb_spec d dquote) as [->|Hd].
      - destruct (escaped_head v) as [Hh| ->]; [by rewrite Et in Hh|done].
      - cbn [negb]. rewrite <- Et, uncomment_escaped. done. }
    rewrite app_comm_cons, rstrip_snoc. change (blank dquote) with false. cbn iota. unfold unquoted.
    rewrite last_snoc. rewrite !bool_decide_eq_true_2 by done. cbn [andb tail app].
    replace (length (dquote :: escaped v ++ [dquote]) - 2)%nat with (length (escaped v)) by (simpl; rewrite length_app; simpl; lia).
    rewrite take_app_length. apply dequote_escaped.
  - destruct Hkept as [?|[Hl Hr]]; [done|]. assert (needs_quotes v = None) as Hn.
    { unfold check_enquote in E. destruct (needs_quotes v); [|done]. rewrite bool_decide_eq_true_2 in E by eauto. done. }
    rewrite Hl, uncomment_plain, Hr by done. unfold unquoted. by rewrite bool_decide_eq_false_2 by by apply needs_quotes_head.
Qed.

Lemma index_of_app c k t : c ∉ k → index_of c (k ++ c :: t) = Some (length k).
Proof.
  induction k as [|d k IH]; intros Hc; simpl; rewrite index_of_cons; [by rewrite decide_True|]. rewrite not_elem_of_cons in Hc.
  rewrite decide_False by (intros ->; tauto). by rewrite IH by tauto.
Qed.

Lemma lstrip_app k t : lstrip k = k → k ≠ [] → lstrip (k ++ t) = k ++ t.
Proof.
  destruct k as [|c k]; [done|]. simpl. destruct (blank c); [|done]. intros E _. exfalso.
  destruct (lstrip_drop k) as (i & _ & Ei & _). rewrite Ei in E. apply (f_equal length) in E. rewrite length_drop in E. simpl in E. lia.
Qed.

Lemma parse_written_key k v : key_ok k → value_ok v → line_fits k v → parse (written_key k v) = LEntry (fold_case k) v.
Proof.
  intros Hk Hv Hfit. unfold parse. rewrite written_key_full by done. set (t := char_code "=" :: encoded v ++ INI_LINETERM).
  assert (0 ∉ k ++ t) as H0.
  { pose proof (key_no_zero _ Hk). pose proof (value_no_zero _ Hv) as Hv0.
    pose proof (not_in_encoded 0 v ltac:(done) ltac:(done) Hv0). pose proof lineterm_no_zero.
    unfold t. rewrite elem_of_app, elem_of_cons, elem_of_app. by intros [|[|[|]]]. }
  rewrite before_zero_id by done. unfold parse_line. assert (k ≠ []) as Hne by (intros ->; by destruct (key_start _ Hk)).
  rewrite lstrip_app by (done || by apply key_lstrip). pose proof (key_start _ Hk) as Hs. destruct k as [|c k']; [done|].
  apply orb_false_iff in Hs as [Hs1 Hs2]. cbn [app]. rewrite Hs2, Hs1. change (c :: k' ++ t) with ((c :: k') ++ t).
  unfold separator_index. unfold t. rewrite index_of_app by by apply key_no_equals. rewrite take_app_length.
  rewrite (key_rstrip _ Hk). f_equal.
  rewrite drop_app_ge by lia. replace (S (length (c :: k')) - length (c :: k'))%nat with 1%nat by lia. cbn [drop].
  replace (encoded v ++ INI_LINETERM) with ((encoded v ++ [13]) ++ [10]) by by rewrite <- app_assoc.
  rewrite drop_0, !value_of_snoc by done. by apply value_of_encoded.
Qed.

Lemma last_index_of_app c s : last_index_of c (s ++ [c]) = Some (length s).
Proof.
  unfold last_index_of. rewrite reverse_snoc, index_of_cons, decide_True by done. simpl. f_equal. rewrite length_app. simpl. lia.
Qed.

Lemma parse_written_section s : section_ok s → parse (written_section s) = LHeading (fold_case s).
Proof.
  intros [H0 H10 Hlen]. unfold parse, written_section. rewrite take_ge by done. set (t := [char_code "["] ++ s ++ [char_code "]"]).
  replace ([char_code "["] ++ s ++ [char_code "]"] ++ INI_LINETERM) with ((t ++ [13]) ++ [10]) by (unfold t; by rewrite <- !app_assoc).
  assert (0 ∉ t) as Ht by (unfold t; rewrite !elem_of_app, !list_elem_of_singleton; by intros [|[|]]).
  rewrite before_zero_id by (apply no_zero_snoc; [by apply no_zero_snoc|done]). rewrite !parse_line_snoc by done. unfold parse_line, t.
  cbn [app lstrip]. change (blank (char_code "[")) with false. cbn iota. change (isc (char_code "[") "[") with true. cbn iota.
  rewrite app_comm_cons, last_index_of_app. cbn [length]. replace (S (length s) - 1)%nat with (length s) by lia. by rewrite take_app_length.
Qed.

(** ** The new settings *)

Lemma settings_pieces t : settings t = settings_of (pieces t).
Proof. done. Qed.

Lemma settings_of_cons p ps : settings_of (p :: ps) = settings_of [p] ++ settings_of ps.
Proof. apply (settings_of_app [p] ps). Qed.

Lemma settings_of_line p : settings_of [p] = match parse p with LOther => [] | l => [l] end.
Proof. unfold settings_of. simpl. destruct (parse p); [rewrite filter_cons_True by done; done..|]. by rewrite filter_cons_False by tauto. Qed.

(** Lines without the heading, or without an end of the search. *)
Lemma put_section_behind name key v before ls :
  Forall (λ p, parse p ≠ LHeading name) before →
  put_section name key v (settings_of before ++ ls) = settings_of before ++ put_section name key v ls.
Proof.
  induction 1 as [|p before Hp _ IH]; [done|]. rewrite settings_of_cons, settings_of_line. destruct (parse p); simpl; try by rewrite IH.
  rewrite decide_False by congruence. by rewrite IH.
Qed.

Lemma put_key_behind key v mid ls :
  Forall (λ p, ¬ stops key (parse p)) mid → put_key key v (settings_of mid ++ ls) = settings_of mid ++ put_key key v ls.
Proof.
  induction 1 as [|p mid Hp _ IH]; [done|]. rewrite settings_of_cons, settings_of_line. destruct (parse p); simpl in *; try tauto.
  rewrite decide_False by done. by rewrite IH.
Qed.

(** Changing the lines of a section. *)
Definition change_area (Section : list Z) (f : list line → list line) (ls : list line) : list line :=
  if decide (Section = []) then f ls else within_section (fold_case Section) f ls.

Lemma within_section_behind name f before ls :
  Forall (λ p, parse p ≠ LHeading name) before →
  within_section name f (settings_of before ++ ls) = settings_of before ++ within_section name f ls.
Proof.
  induction 1 as [|p before Hp _ IH]; [done|]. rewrite settings_of_cons, settings_of_line. destruct (parse p); simpl; try by rewrite IH.
  rewrite decide_False by congruence. by rewrite IH.
Qed.

Lemma change_area_ok Section f ps top rest :
  section_area Section ps top rest → change_area Section f (settings_of ps) = settings_of top ++ f (settings_of rest).
Proof.
  unfold change_area. intros [(-> & -> & ->)|(Hne & before & h & (-> & Hb & Hh) & ->)]; [done|]. rewrite decide_False by done.
  rewrite !settings_of_app, <- app_assoc, within_section_behind by done. f_equal. rewrite settings_of_cons, settings_of_line, Hh.
  simpl. by rewrite decide_True.
Qed.

Lemma put_area_ok Section Key Value ps top rest :
  section_area Section ps top rest →
  put_setting Section Key Value (settings_of ps) = settings_of top ++ put_key (fold_case Key) Value (settings_of rest).
Proof.
  unfold put_setting. intros [(-> & -> & ->)|(Hne & before & h & (-> & Hb & Hh) & ->)]; [done|]. rewrite decide_False by done.
  rewrite !settings_of_app, <- app_assoc, put_section_behind by done. f_equal. rewrite settings_of_cons, settings_of_line, Hh.
  simpl. by rewrite decide_True.
Qed.

(** A file in which lines were put between closed lines and the rest. *)
Lemma settings_between text ps1 ps2 new :
  pieces text = ps1 ++ ps2 → ps2 ≠ [] → Forall closed new → ∀ ps3 ps4, ps2 = ps3 ++ ps4 →
  settings (concat ps1 ++ concat new ++ concat ps4) = settings_of ps1 ++ settings_of new ++ settings_of ps4.
Proof.
  intros E Hne Hnew ps3 ps4 ->. assert (Forall closed ps1) as Hcl by (destruct (ps3 ++ ps4); [done|]; by eapply pieces_closed).
  rewrite settings_pieces, pieces_concat_app, pieces_concat_app by done. rewrite !settings_of_app. do 3 f_equal.
  rewrite app_assoc in E. apply pieces_suffix in E. rewrite <- E at 1. rewrite concat_pieces. done.
Qed.

Lemma erase_key_behind key mid ls :
  Forall (λ p, ¬ stops key (parse p)) mid → erase_key key (settings_of mid ++ ls) = settings_of mid ++ erase_key key ls.
Proof.
  induction 1 as [|p mid Hp _ IH]; [done|]. rewrite settings_of_cons, settings_of_line. destruct (parse p); simpl in *; try tauto.
  rewrite decide_False by done. by rewrite IH.
Qed.

Lemma erase_section_behind name before ls :
  Forall (λ p, parse p ≠ LHeading name) before →
  erase_section name (settings_of before ++ ls) = settings_of before ++ erase_section name ls.
Proof.
  induction 1 as [|p before Hp _ IH]; [done|]. rewrite settings_of_cons, settings_of_line. destruct (parse p); simpl; try by rewrite IH.
  rewrite decide_False by congruence. by rewrite IH.
Qed.

Lemma from_heading_behind mid ls :
  Forall (λ p, ¬ ends_at None (parse p)) mid → from_heading (settings_of mid ++ ls) = from_heading ls.
Proof. induction 1 as [|p mid Hp _ IH]; [done|]. rewrite settings_of_cons, settings_of_line. by destruct (parse p). Qed.

Lemma pieces_settings ps : Forall closed ps → settings (concat ps ++ []) = settings_of ps.
Proof. intros Hcl. rewrite settings_pieces, pieces_concat_app by done. by rewrite app_nil_r. Qed.

Section changed.
Context (text Section Key : list Z) (Out : list Z).
Context (Htext : 0 ∉ text) (HSection : section_ok Section) (HKey : key_ok Key).

Lemma area_lines top mid l after :
  section_area Section (pieces text) top (mid ++ l :: after) → pieces text = (top ++ mid) ++ l :: after.
Proof using Type. intros Ha. rewrite (section_area_app _ _ _ _ Ha). by rewrite app_assoc. Qed.

(** The setting is put where it belongs. *)
Lemma settings_put Value :
  value_ok Value → line_fits Key Value → changed (Some Key) (Some Value) Section (pieces text) Out →
  settings Out = put_setting Section Key Value (settings text).
Proof using Htext HSection HKey.
  intros Hv Hfit. pose proof (parse_written_key Key Value HKey Hv Hfit) as Ek. pose proof (written_key_closed Key Value HKey Hv Hfit) as Hk.
  assert (settings (written_key Key Value) = [LEntry (fold_case Key) Value]) as Esk.
  { rewrite settings_pieces, <- (app_nil_r (written_key _ _)), pieces_app by done. by rewrite settings_of_line, Ek. }
  intros [(Hne & Hno & Happ)|(top & rest & Ha & [(Hno & Happ)|(mid & l & after & Hfirst & E)])].
  - rewrite concat_pieces in Happ. rewrite (settings_appended _ _ _ Htext Happ). unfold put_setting. rewrite decide_False by done.
    rewrite !settings_pieces. rewrite <- (app_nil_r (settings_of (pieces text))) at 2. rewrite put_section_behind by done. cbn [put_section]. f_equal.
    rewrite pieces_app by by apply written_section_closed. rewrite <- (app_nil_r (written_key _ _)), pieces_app by done.
    by rewrite settings_of_cons, !settings_of_line, parse_written_section, Ek.
  - unfold kept, at_end in Happ. pose proof (section_area_app _ _ _ _ Ha) as Eps.
    assert (concat top ++ concat rest = text) as Et by (by rewrite <- concat_app, <- Eps, concat_pieces). rewrite Et in Happ.
    rewrite (settings_appended _ _ _ Htext Happ). rewrite !(settings_pieces text). rewrite (put_area_ok _ _ _ _ _ _ Ha).
    rewrite Eps at 1. rewrite settings_of_app, <- app_assoc. f_equal.
    rewrite <- (app_nil_r (settings_of rest)) at 2. rewrite put_key_behind by done. f_equal. exact Esk.
  - unfold kept, setting in E. destruct Hfirst as (-> & Hmid & Hl). pose proof (area_lines _ _ _ _ Ha) as Eps.
    rewrite (settings_pieces text), (put_area_ok _ _ _ _ _ _ Ha). rewrite settings_of_app, put_key_behind by done.
    assert (settings Out = settings_of (top ++ mid) ++ settings_of [written_key Key Value] ++
      settings_of ((if is_heading (parse l) then [l] else []) ++ after)) as ->.
    { rewrite <- (settings_between text (top ++ mid) (l :: after) [written_key Key Value] Eps ltac:(done) ltac:(by constructor)
        (if is_heading (parse l) then [] else [l])) by (by destruct (is_heading _)).
      rewrite E, !concat_app. simpl. f_equal. rewrite <- !app_assoc. do 3 f_equal. destruct (is_heading _); simpl; by rewrite ?app_nil_r. }
    rewrite !settings_of_app, <- app_assoc. do 2 f_equal. rewrite (settings_of_line (written_key _ _)), Ek, (settings_of_cons l).
    rewrite (settings_of_line l). destruct (parse l) eqn:El; simpl in Hl |- *; [| |by rewrite decide_True|done];
      by rewrite settings_of_line, El.
Qed.

(** The setting is erased. *)
Lemma settings_erased :
  changed (Some Key) None Section (pieces text) Out → settings Out = erase_setting Section Key (settings text).
Proof using Type.
  change (erase_setting Section Key (settings text)) with (change_area Section (erase_key (fold_case Key)) (settings text)).
  rewrite (settings_pieces text). intros [(Hne & Hno & Happ)|(top & rest & Ha & Hc)].
  { simpl in Happ. rewrite Happ, concat_pieces. unfold change_area. rewrite decide_False by done.
    rewrite <- (app_nil_r (settings_of (pieces text))). rewrite within_section_behind by done. by rewrite app_nil_r. }
  rewrite (change_area_ok _ _ _ _ _ Ha). destruct Hc as [(Hno & Happ)|(mid & l & after & (-> & Hmid & Hl) & E)].
  - simpl in Happ. rewrite Happ, <- concat_app, <- (section_area_app _ _ _ _ Ha), concat_pieces, settings_pieces.
    rewrite (section_area_app _ _ _ _ Ha) at 1. rewrite settings_of_app. f_equal.
    rewrite <- (app_nil_r (settings_of rest)) at 2. rewrite erase_key_behind by done. by rewrite app_nil_r.
  - pose proof (area_lines _ _ _ _ Ha) as Eps. rewrite settings_of_app, erase_key_behind by done.
    pose proof (settings_between text (top ++ mid) (l :: after) [] Eps ltac:(done) ltac:(done) (if is_heading (parse l) then [] else [l])
      ((if is_heading (parse l) then [l] else []) ++ after) ltac:(by destruct (is_heading _))) as Es.
    assert (settings Out = settings_of (top ++ mid) ++ settings_of ((if is_heading (parse l) then [l] else []) ++ after)) as ->.
    { change (settings_of []) with (@nil line) in Es. cbn [app] in Es. rewrite <- Es. rewrite E, !concat_app. simpl. f_equal. rewrite <- !app_assoc. do 2 f_equal. destruct (is_heading _); simpl; by rewrite ?app_nil_r. }
    rewrite !settings_of_app, <- app_assoc. do 2 f_equal. rewrite (settings_of_cons l), (settings_of_line l).
    destruct (parse l) eqn:El; simpl in Hl |- *; [| |by rewrite decide_True|done]; by rewrite settings_of_line, El.
Qed.

(** The section is erased, with its heading. *)
Lemma settings_section_erased Value :
  Section ≠ [] → changed None Value Section (pieces text) Out → settings Out = erase_section (fold_case Section) (settings text).
Proof using Type.
  intros Hne. rewrite (settings_pieces text). intros [(_ & Hno & Happ)|(top & rest & Ha & Hc)].
  { simpl in Happ. rewrite Happ, concat_pieces. rewrite <- (app_nil_r (settings_of (pieces text))), erase_section_behind by done. by rewrite app_nil_r. }
  destruct Ha as [(? & _)|(_ & before & h & (Eps & Hb & Hh) & ->)]; [done|]. rewrite decide_False in Hc by done.
  destruct Hc as (before' & h' & Etop & Hc). apply app_inj_tail in Etop as [<- <-].
  rewrite Eps, settings_of_app, erase_section_behind by done. rewrite settings_of_cons, settings_of_line, Hh. simpl. rewrite decide_True by done.
  assert (Forall closed before) as Hcl by by eapply pieces_closed.
  destruct Hc as [(Hno & Happ)|(mid & l & after & (-> & Hmid & Hl) & E)].
  - simpl in Happ. rewrite Happ, pieces_settings by done. rewrite <- (app_nil_r (settings_of rest)), from_heading_behind by done. simpl. by rewrite app_nil_r.
  - simpl in Hl. rewrite Hl in E. simpl in E. rewrite settings_of_app, from_heading_behind by done.
    pose proof (settings_between text before (h :: mid ++ l :: after) [] Eps ltac:(done) ltac:(done) (h :: mid) (l :: after) ltac:(done)) as Es.
    simpl in Es. rewrite E, Es. f_equal. rewrite settings_of_cons, settings_of_line. by destruct (parse l).
Qed.
End changed.
