(* ===== verification/MinIniFile.v ===== *)
(** * Reading and changing configuration files

    The theorems about [ini_puts] and its companions on the files of the device:
    what they do to the settings, what [ini_gets] finds afterwards, numbers, and
    the files for which they go wrong. *)

From Stdlib Require Import Ascii.
From stdpp Require Import base numbers gmap strings option list.
From S2P Require Import Prelude CType CBuffer MinIni MinIniSpec MinIniPut MinIniRound.

Open Scope Z_scope.

(** ** In place *)

Lemma length_dequote s : (length (dequote s) ≤ length s)%nat.
Proof.
  remember (length s) as n eqn:Hn. revert s Hn. induction n as [n IH] using lt_wf_ind. intros [|c s] ->; [done|]. cbn [dequote length].
  assert (∀ t, (length t < length (c :: s))%nat → (length (dequote t) ≤ length t)%nat) as IH' by (intros t Ht; by apply (IH (length t))).
  cbn [length] in IH'. pose proof (IH' s ltac:(lia)). destruct (_ || _); [|simpl; lia].
  destruct s as [|d s]; [done|]. destruct (d =? dquote); [|simpl in *; lia]. specialize (IH' s ltac:(simpl; lia)). simpl. lia.
Qed.

Lemma length_value_of s : (length (value_of s) ≤ length s)%nat.
Proof.
  unfold value_of, unquoted. destruct (lstrip_drop s) as (i & _ & -> & _). set (w := rstrip _).
  assert (length w ≤ length s)%nat as Hw.
  { unfold w. pose proof (length_rstrip (uncomment (drop i s) false)). rewrite uncomment_prefix, length_take in H.
    rewrite length_drop in H. rewrite uncomment_prefix. lia. }
  destruct (_ && _); [|done]. pose proof (length_dequote (take (length w - 2) (tail w))) as Hd. rewrite length_take in Hd. lia.
Qed.

Lemma length_before_zero s : (length (before_zero s) ≤ length s)%nat.
Proof. induction s as [|c s IH]; simpl; [done|]. destruct (c =? 0); simpl; lia. Qed.

Lemma length_parse_value p k v : parse p = LEntry k v → (length v ≤ length p)%nat.
Proof.
  unfold parse, parse_line. pose proof (length_before_zero p). destruct (lstrip_drop (before_zero p)) as (i & _ & E & _).
  destruct (lstrip (before_zero p)) as [|c t] eqn:Et; [done|]. destruct (isc c "["); [by destruct (last_index_of _ _)|].
  destruct (_ || _); [done|]. destruct (separator_index (c :: t)) as [j|]; [|done]. intros [= _ <-].
  pose proof (length_value_of (drop (S j) (c :: t))) as Hv. rewrite length_drop in Hv.
  assert (length (c :: t) ≤ length p)%nat by (rewrite E, length_drop; lia). change (drop j t) with (drop (S j) (c :: t)). lia.
Qed.

Lemma length_piece t p : p ∈ pieces t → (length p < INI_BUFFERSIZE)%nat.
Proof.
  remember (length t) as n eqn:Hn. revert t Hn. induction n as [n IH] using lt_wf_ind. intros t ->.
  destruct (decide (t = [])) as [->|Ht]; [by rewrite elem_of_nil|]. destruct (pieces_step t Ht) as (l & El & Hl & _ & ->).
  rewrite elem_of_cons. intros [->|Hp].
  - pose proof (length_next_line (INI_BUFFERSIZE - 1) t) as Hlen. rewrite El in Hlen. unfold INI_BUFFERSIZE in *. lia.
  - apply (IH (length (drop (length l) t))) in Hp; [done| |done]. rewrite length_drop. destruct l; [done|]. destruct t; [done|]. simpl. lia.
Qed.

Lemma setting_line_app Section Key ps top mid l after v :
  setting_line Section Key ps top mid l after v → ps = (top ++ mid) ++ l :: after.
Proof. intros (rest & Ha & (-> & _) & _). rewrite (section_area_app _ _ _ _ Ha). by rewrite app_assoc. Qed.

Lemma overwrite_line (a l w b : list Z) : length w = length l → overwrite (length a) w (a ++ l ++ b) = a ++ w ++ b.
Proof.
  intros Hw. unfold overwrite. rewrite take_app_length. do 2 f_equal. rewrite Hw, <- drop_drop, drop_app_length. apply drop_app_length.
Qed.

Section in_place.
Context (fopen_ok : list Z → bool) (Filename text : list Z) (fs : filesystem).
Context (Hfile : fs !! Filename = Some text) (Hopen : fopen_ok Filename = true).

Lemma puts_in_place_ok Section Key Value s :
  0 ∉ default [] Section → 0 ∉ Key → Key ≠ [] → 0 ∉ Value →
  files s = fs → rpos s = 0%nat → length (LocalBuffer s) = INI_BUFFERSIZE →
  runs (puts_in_place fopen_ok Filename text Section Key Value) s (λ r s',
    (r = None ∧ files s' = fs ∧ rpos s' = 0%nat ∧ length (LocalBuffer s') = INI_BUFFERSIZE) ∨
    (r = Some 1 ∧ ∃ top mid l after v, setting_line (default [] Section) Key (pieces text) top mid l after v ∧
       ((v = Value ∧ files s' = fs) ∨ files s' = <[Filename := concat (top ++ mid) ++ written_key Key Value ++ concat after]> fs))).
Proof using Hfile Hopen.
  intros HS HK HK' HV Hfs Hr Hb. apply runs_bind, runs_bind, runs_gets, runs_modify. rewrite Hr. apply runs_bind.
  assert (∀ b, length b = INI_BUFFERSIZE → runs (p ← gets mark; modify (set_rpos p);; mret None) (set_local b (set_mark 0 s))
    (λ (r : option Z) s', r = None ∧ files s' = fs ∧ rpos s' = 0%nat ∧ length (LocalBuffer s') = INI_BUFFERSIZE)) as Hno.
  { intros b Hb'. apply runs_bind, runs_gets, runs_bind, runs_modify, runs_ret. by split_and!. }
  destruct (getkeystring_ok text Key (LocalBuffer s) (Z.of_nat INI_BUFFERSIZE) HK HK' ltac:(done) ltac:(by rewrite Hb) Section HS)
    as [(E & _)|(top & mid & l & after & v & Hl & E)].
  - eapply runs_local; [exact E|]. apply runs_bind, runs_ret. eapply runs_mono; [by apply (Hno (LocalBuffer s))|]. by left.
  - eapply runs_local; [exact E|]. set (b1 := list_inserts 0 _ (LocalBuffer s)). assert (length b1 = INI_BUFFERSIZE) as Hb1 by (unfold b1; by rewrite length_inserts).
    assert (take (Z.to_nat (Z.of_nat INI_BUFFERSIZE) - 1) v = v) as Ev.
    { apply take_ge. pose proof (setting_line_app _ _ _ _ _ _ _ _ Hl) as Eps. destruct Hl as (rest & _ & _ & Hl). apply length_parse_value in Hl.
      assert (l ∈ pieces text) as Hin by (rewrite Eps, elem_of_app, elem_of_cons; auto). apply length_piece in Hin. unfold INI_BUFFERSIZE in *. lia. }
    assert (string_at b1 0 = Ok v) as Hs1.
    { unfold b1. rewrite Ev. apply string_at_stored; [destruct Hl as (? & _ & _ & Hl); by eapply parse_value_no_zero|]. rewrite Hb, <- Ev, length_take.
      unfold INI_BUFFERSIZE. lia. }
    apply runs_bind, runs_bind, runs_modify, runs_bind. eapply runs_local; [exact Hs1|]. unfold same_text. case_bool_decide as Hsame.
    { apply runs_ret, runs_bind, runs_gets, runs_bind, runs_modify, runs_ret. right. split; [done|]. exists top, mid, l, after, v. split; [done|]. by left. }
    destruct (key_line_ok b1 Key Value Hb1 HK HV) as (b2 & E2 & Hb2 & Hs2). apply runs_bind. eapply runs_change; [exact E2|]. apply runs_bind.
    eapply runs_local; [by apply strlen_ok|]. replace (length (concat (top ++ mid)) + length l - length (concat (top ++ mid)))%nat with (length l) by lia.
    case_bool_decide as Hlen; [|apply runs_ret; eapply runs_mono; [by apply Hno|by left]].
    rewrite Hopen. apply runs_bind, runs_modify, runs_bind, runs_bind. eapply runs_local; [exact Hs2|].
    apply runs_bind, runs_gets, runs_bind, runs_gets, runs_bind, runs_gets, runs_bind. simpl. rewrite Hfs. eapply runs_lift; [by rewrite Hfile|].
    apply runs_bind, runs_modify, runs_modify, runs_ret, runs_bind, runs_gets, runs_bind, runs_modify, runs_ret. right. split; [done|].
    exists top, mid, l, after, v. split; [done|]. right. simpl. f_equal.
    rewrite <- (concat_pieces text), (setting_line_app _ _ _ _ _ _ _ _ Hl), (concat_app _ (l :: after)). simpl. by apply overwrite_line.
Qed.
End in_place.

(** ** The files afterwards *)

(** A file that can be changed: its temporary name is another one, and both can
    be opened. *)
Record file_ok (fopen_ok : list Z → bool) (Filename : list Z) : Prop := {
  name_no_zero : 0 ∉ Filename;
  name_length : (0 < length Filename < INI_BUFFERSIZE)%nat;
  name_temp : temp_name Filename ≠ Filename;
  name_opens : fopen_ok Filename = true;
  temp_opens : fopen_ok (temp_name Filename) = true
}.

(** Only the file, and the temporary one, are not as they were. *)
Definition others_kept (Filename : list Z) (fs fs' : filesystem) : Prop :=
  ∀ f, f ≠ Filename → f ≠ temp_name Filename → fs' !! f = fs !! f.

Lemma written_no_zero Key Value : 0 ∉ Key → 0 ∉ Value → 0 ∉ written_key Key Value.
Proof.
  intros HK HV. unfold written_key. rewrite !elem_of_app, list_elem_of_singleton. pose proof lineterm_no_zero.
  intros [Hin|[|[Hin|]]]; [by apply not_in_take in Hin|done|by apply copied_no_zero in Hin|done].
Qed.

Lemma written_section_no_zero Section : 0 ∉ Section → 0 ∉ written_section Section.
Proof.
  intros HS. unfold written_section. rewrite !elem_of_app, !list_elem_of_singleton. pose proof lineterm_no_zero.
  intros [|[Hin|[|]]]; [done|by apply not_in_take in Hin|done|done].
Qed.

Lemma appended_no_zero text added Out : 0 ∉ text → 0 ∉ added → appended text added Out → 0 ∉ Out.
Proof.
  intros Ht Ha [(_ & ->)| ->]; rewrite !elem_of_app; pose proof lineterm_no_zero; [by intros [|]|by intros [|[|]]].
Qed.

Lemma concat_no_zero text ps1 ps2 : 0 ∉ text → pieces text = ps1 ++ ps2 → (0 ∉ concat ps1) ∧ (0 ∉ concat ps2).
Proof. intros H0 E. rewrite <- (concat_pieces text), E, concat_app, elem_of_app in H0. tauto. Qed.

Lemma changed_no_zero text Section Key Value Out :
  0 ∉ text → 0 ∉ Section → 0 ∉ Key → 0 ∉ default [] Value → changed (Some Key) Value Section (pieces text) Out → 0 ∉ Out.
Proof.
  intros Ht HS HK HV. assert (0 ∉ setting (Some Key) Value) as Hset.
  { unfold setting. destruct Value as [v|]; [by apply written_no_zero|apply not_elem_of_nil]. }
  assert (∀ added O, 0 ∉ added → at_end (Some Key) Value text added O → 0 ∉ O) as Hend.
  { intros added O Ha. unfold at_end, setting in *. destruct Value as [v|]; [|by intros ->]. apply appended_no_zero; [done|].
    rewrite elem_of_app. by intros [|]. }
  intros [(_ & _ & Happ)|(top & rest & Ha & [(_ & Happ)|(mid & l & after & (-> & _ & _) & ->)])].
  - rewrite concat_pieces in Happ. eapply Hend; [|exact Happ]. by apply written_section_no_zero.
  - unfold kept in Happ. rewrite <- concat_app, <- (section_area_app _ _ _ _ Ha), concat_pieces in Happ. eapply Hend; [|exact Happ]. apply not_elem_of_nil.
  - pose proof (section_area_app _ _ _ _ Ha) as Eps. destruct (concat_no_zero _ _ _ Ht Eps) as [H1 H2]. rewrite concat_app in H2.
    simpl in H2. rewrite !elem_of_app in H2. unfold kept. rewrite !elem_of_app. intros [|[|[|[Hin|]]]]; try tauto.
    destruct (is_heading _); [tauto|]. by apply elem_of_nil in Hin.
Qed.

Section puts_theorems.
Context (fopen_ok : list Z → bool) (Filename : list Z) (fs : filesystem).
Context (Hname : file_ok fopen_ok Filename) (Htext : ∀ text, fs !! Filename = Some text → 0 ∉ text).

Lemma replaced_kept text s : replaced Filename fs text s → files s !! Filename = Some text ∧ others_kept Filename fs (files s).
Proof using Type.
  unfold replaced. intros ->. split; [apply lookup_insert_eq|]. intros f H1 H2. by rewrite lookup_insert_ne, lookup_delete_ne.
Qed.

(** A file that is there. *)
Lemma ini_puts_existing text Section Key Value :
  fs !! Filename = Some text → section_ok (default [] Section) → key_ok Key → value_ok Value → line_fits Key Value →
  ∃ fs' text', ini_puts fopen_ok Filename Section (Some Key) (Some Value) fs = Ok (1, fs') ∧
    fs' !! Filename = Some text' ∧ (0 ∉ text') ∧ others_kept Filename fs fs' ∧
    settings text' = put_setting (default [] Section) Key Value (settings text).
Proof using Hname Htext.
  intros Hfile HS HK HV Hfit. pose proof (Htext _ Hfile) as H0. set (s0 := mkPuts fs (new_buffer INI_BUFFERSIZE) 0 [] 0 0 0).
  assert (Key ≠ []) as Hne by (intros ->; by destruct (key_start _ HK)).
  assert (plain_start Key) as Hplain by (pose proof (key_start _ HK) as H; destruct Key; [done|]; by apply orb_false_iff in H as [H _]).
  cut (runs (puts_body fopen_ok Filename Section (Some Key) (Some Value)) s0 (λ r s', r = 1 ∧ ∃ text', files s' !! Filename = Some text' ∧ (0 ∉ text') ∧
    others_kept Filename fs (files s') ∧ settings text' = put_setting (default [] Section) Key Value (settings text))).
  { intros Hr. apply runs_ok in Hr as (r & s' & E & -> & text' & H). exists (files s'), text'. split; [|done]. unfold ini_puts. fold s0. by rewrite E. }
  assert (∀ Out, changed (Some Key) (Some Value) (default [] Section) (pieces text) Out →
    (0 ∉ Out) ∧ settings Out = put_setting (default [] Section) Key Value (settings text)) as Hchanged.
  { intros Out Hc. split; [|by apply settings_put]. apply (changed_no_zero text (default [] Section) Key (Some Value)); [done|by apply section_no_zero|by apply key_no_zero|by apply value_no_zero|done]. }
  apply runs_bind, runs_gets. simpl. rewrite Hfile. apply runs_bind. eapply runs_mono; [eapply (puts_in_place_ok _ _ _ _ Hfile (name_opens _ _ Hname));
    [by apply section_no_zero|by apply key_no_zero|done|by apply value_no_zero|done|done|apply length_replicate]|].
  intros r s1 [(-> & Hfs1 & Hr1 & Hb1)|(-> & top & mid & l & after & v & Hl & Hfs1)].
  - eapply runs_mono; [eapply (puts_copy_ok Filename text fs H0 Hfile (name_no_zero _ _ Hname) (name_length _ _ Hname) (name_temp _ _ Hname) (Some Key) (Some Value));
      [by apply key_no_zero|by apply value_no_zero|done|by apply section_no_zero|done|done|done|by apply (temp_opens _ _ Hname)]|].
    intros r s2 (-> & Out & Hrep & Hc). split; [done|]. destruct (replaced_kept _ _ Hrep) as [H1 H2]. exists Out. destruct (Hchanged _ Hc). by split_and!.
  - apply runs_ret. split; [done|]. destruct Hfs1 as [(-> & ->)| ->].
    + exists text. split_and!; [done|done|by intros f|]. rewrite settings_pieces. destruct Hl as (rest & Ha & (-> & Hmid & Hstop) & Hl).
      rewrite (put_area_ok _ _ _ _ _ _ Ha), settings_of_app, put_key_behind by done. rewrite (section_area_app _ _ _ _ Ha) at 1.
      rewrite !settings_of_app. do 2 f_equal. rewrite settings_of_cons, settings_of_line, Hl. simpl. by rewrite decide_True.
    + assert (changed (Some Key) (Some Value) (default [] Section) (pieces text) (concat (top ++ mid) ++ written_key Key Value ++ concat after)) as Hc.
      { right. destruct Hl as (rest & Ha & Hfirst & Hl). exists top, rest. split; [done|]. right. exists mid, l, after. split; [done|].
        rewrite Hl, concat_app, <- app_assoc. done. }
      destruct (Hchanged _ Hc). eexists. split_and!; [apply lookup_insert_eq|done|intros f Hf _; by rewrite lookup_insert_ne|done].
Qed.

(** A file that is made. *)
Lemma ini_puts_missing Section Key Value :
  fs !! Filename = None → section_ok (default [] Section) → key_ok Key → value_ok Value → line_fits Key Value →
  ∃ fs' text', ini_puts fopen_ok Filename Section (Some Key) (Some Value) fs = Ok (1, fs') ∧
    fs' !! Filename = Some text' ∧ (0 ∉ text') ∧ others_kept Filename fs fs' ∧
    settings text' = put_setting (default [] Section) Key Value (settings []).
Proof using Hname.
  intros Hfile HS HK HV Hfit. set (s0 := mkPuts fs (new_buffer INI_BUFFERSIZE) 0 [] 0 0 0).
  set (sec := default [] Section) in *. set (heading := if decide (sec = []) then [] else written_section sec).
  pose proof (key_no_zero _ HK) as HK0. pose proof (value_no_zero _ HV) as HV0. pose proof (section_no_zero _ HS) as HS0.
  cut (runs (puts_body fopen_ok Filename Section (Some Key) (Some Value)) s0
    (λ r s', r = 1 ∧ files s' = <[Filename := heading ++ written_key Key Value]> fs)).
  { intros Hr. apply runs_ok in Hr as (r & s' & E & -> & Ef). exists (files s'), (heading ++ written_key Key Value). unfold ini_puts. fold s0. rewrite E.
    split_and!; [done|rewrite Ef; apply lookup_insert_eq| |intros f Hf _; rewrite Ef; by rewrite lookup_insert_ne|].
    - rewrite elem_of_app. intros [Hin|Hin]; [|by apply written_no_zero in Hin]. unfold heading in Hin.
      destruct (decide _); [by apply elem_of_nil in Hin|by apply written_section_no_zero in Hin].
    - assert (settings (written_key Key Value) = [LEntry (fold_case Key) Value]) as Ek.
      { rewrite settings_pieces, <- (app_nil_r (written_key _ _)), pieces_app by by apply written_key_closed.
        by rewrite settings_of_line, parse_written_key. }
      unfold heading, put_setting. destruct (decide (sec = [])); [done|].
      rewrite settings_pieces, pieces_app, settings_of_cons, settings_of_line, parse_written_section by (done || by apply written_section_closed).
      by rewrite <- settings_pieces, Ek. }
  apply runs_bind, runs_gets. simpl. rewrite Hfile. apply runs_bind. unfold ini_openwrite. rewrite (name_opens _ _ Hname).
  apply runs_bind, runs_gets, runs_bind, runs_modify, runs_bind, runs_modify, runs_ret. apply runs_bind. simpl.
  set (s1 := set_wfp _ _ _). assert (copying Filename [] fs [] [] [] s1) as Hc1 by (constructor; simpl; try done; unfold INI_BUFFERSIZE; lia).
  apply (runs_mono _ _ (λ _ s', copying Filename [] fs heading [] [] s')).
  - unfold heading, sec in *. destruct Section as [[|c name]|]; simpl in *; try (by apply runs_ret).
    eapply runs_mono; [by apply (writesection_ok _ _ _ _ _ _ _ (c :: name) Hc1)|]. by intros [] s2 Hc2.
  - intros [] s2 Hc2. apply runs_bind. eapply runs_mono; [by apply (writekey_ok _ _ _ _ _ _ _ Key Value Hc2)|].
    intros [] s3 (Hc3 & _). apply runs_ret. split; [done|]. apply (copy_files _ _ _ _ _ _ _ Hc3).
Qed.

Lemma file_there : (∃ text, fs !! Filename = Some text) ∨ fs !! Filename = None.
Proof using Type. clear Htext. destruct (fs !! Filename); eauto. Qed.

Lemma ini_puts_ok Section Key Value :
  section_ok (default [] Section) → key_ok Key → value_ok Value → line_fits Key Value →
  ∃ fs' text', ini_puts fopen_ok Filename Section (Some Key) (Some Value) fs = Ok (1, fs') ∧
    fs' !! Filename = Some text' ∧ (0 ∉ text') ∧ others_kept Filename fs fs' ∧
    settings text' = put_setting (default [] Section) Key Value (settings (default [] (fs !! Filename))).
Proof using Hname Htext.
  intros HS HK HV Hfit. destruct file_there as [[text Hfile]|Hfile]; rewrite Hfile; [by apply ini_puts_existing|by apply ini_puts_missing].
Qed.

(** Erasing goes through the temporary file; without a file there is nothing to
    erase. *)
Lemma ini_erase_ok Section Key (new : list line → list line) :
  section_ok (default [] Section) → match Key with Some k => (0 ∉ k) ∧ plain_start k | None => True end →
  (∀ text Out, 0 ∉ text → changed Key None (default [] Section) (pieces text) Out → (0 ∉ Out) ∧ settings Out = new (settings text)) →
  new [] = [] →
  ∃ fs', ini_puts fopen_ok Filename Section Key None fs = Ok (1, fs') ∧ (∀ text, fs' !! Filename = Some text → 0 ∉ text) ∧
    others_kept Filename fs fs' ∧ settings (default [] (fs' !! Filename)) = new (settings (default [] (fs !! Filename))).
Proof using Hname Htext.
  intros HS HK Hnew Hnil. set (s0 := mkPuts fs (new_buffer INI_BUFFERSIZE) 0 [] 0 0 0).
  cut (runs (puts_body fopen_ok Filename Section Key None) s0 (λ r s', r = 1 ∧ (∀ text, files s' !! Filename = Some text → 0 ∉ text) ∧
    others_kept Filename fs (files s') ∧ settings (default [] (files s' !! Filename)) = new (settings (default [] (fs !! Filename))))).
  { intros Hr. apply runs_ok in Hr as (r & s' & E & -> & H). exists (files s'). split; [|done]. unfold ini_puts. fold s0. by rewrite E. }
  apply runs_bind, runs_gets. simpl. destruct file_there as [[text Hfile]|Hfile]; rewrite Hfile.
  - apply runs_bind. destruct Key as [k|]; apply runs_ret;
      (eapply runs_mono; [eapply (puts_copy_ok Filename text fs (Htext _ Hfile) Hfile (name_no_zero _ _ Hname) (name_length _ _ Hname) (name_temp _ _ Hname) _ None);
        [simpl; tauto || apply not_elem_of_nil|apply not_elem_of_nil|simpl; tauto|by apply section_no_zero|done|done|apply length_replicate|by apply (temp_opens _ _ Hname)]|];
       intros r s2 (-> & Out & Hrep & Hc); split; [done|]; destruct (replaced_kept _ _ Hrep) as [H1 H2]; rewrite H1;
       destruct (Hnew _ _ (Htext _ Hfile) Hc); split_and!; [by intros ? [= <-]|done|done]).
  - assert (runs (mret 1) s0 (λ (r : Z) s', r = 1 ∧ (∀ text, files s' !! Filename = Some text → 0 ∉ text) ∧
      others_kept Filename fs (files s') ∧ settings (default [] (files s' !! Filename)) = new (settings (default [] None)))) as Hr.
    { apply runs_ret. simpl. rewrite Hfile. split_and!; [done|done|by intros f|by symmetry]. }
    by destruct Key.
Qed.
End puts_theorems.


(** ** Sequences of changes *)

Lemma changed_section_no_zero text Section Out :
  0 ∉ text → Section ≠ [] → changed None None Section (pieces text) Out → 0 ∉ Out.
Proof.
  intros H0 Hne [(_ & _ & Happ)|(top & rest & Ha & Hc)]; [simpl in Happ; by rewrite Happ, concat_pieces|].
  rewrite decide_False in Hc by done. destruct Hc as (before & h & -> & Hc). pose proof (section_area_app _ _ _ _ Ha) as Eps.
  destruct (concat_no_zero _ _ _ H0 Eps) as [H1 H2]. rewrite concat_app, elem_of_app in H1. destruct Hc as [(_ & Happ)|(mid & l & after & (-> & _) & ->)].
  - simpl in Happ. subst Out. rewrite app_nil_r. tauto.
  - rewrite concat_app in H2. simpl in H2. rewrite !elem_of_app in *. simpl. rewrite !elem_of_nil. destruct (is_heading _); [|rewrite elem_of_nil]; tauto.
Qed.

Inductive iop :=
  | IPut (Section : option (list Z)) (Key Value : list Z)
  | IErase (Section : option (list Z)) (Key : list Z)
  | IEraseSection (Section : list Z).

Definition iop_run (fopen_ok : list Z → bool) (Filename : list Z) (op : iop) (fs : filesystem) : res (Z * filesystem) :=
  match op with
  | IPut s k v => ini_puts fopen_ok Filename s (Some k) (Some v) fs
  | IErase s k => ini_puts fopen_ok Filename s (Some k) None fs
  | IEraseSection s => ini_puts fopen_ok Filename (Some s) None None fs
  end.

Definition iop_lines (ls : list line) (op : iop) : list line :=
  match op with
  | IPut s k v => put_setting (default [] s) k v ls
  | IErase s k => erase_setting (default [] s) k ls
  | IEraseSection s => erase_section (fold_case s) ls
  end.

Definition iop_ok (op : iop) : Prop :=
  match op with
  | IPut s k v => section_ok (default [] s) ∧ key_ok k ∧ value_ok v ∧ line_fits k v
  | IErase s k => section_ok (default [] s) ∧ (0 ∉ k) ∧ plain_start k
  | IEraseSection s => section_ok s ∧ s ≠ []
  end.

Global Instance iop_ok_dec op : Decision (iop_ok op).
Proof. destruct op; apply _. Defined.

Lemma iop_run_ok fopen_ok Filename fs op :
  file_ok fopen_ok Filename → (∀ text, fs !! Filename = Some text → 0 ∉ text) → iop_ok op →
  ∃ fs', iop_run fopen_ok Filename op fs = Ok (1, fs') ∧ (∀ text, fs' !! Filename = Some text → 0 ∉ text) ∧ others_kept Filename fs fs' ∧
    settings (default [] (fs' !! Filename)) = iop_lines (settings (default [] (fs !! Filename))) op.
Proof.
  intros Hname Htext. destruct op as [s k v|s k|s]; simpl.
  - intros (HS & HK & HV & Hfit). destruct (ini_puts_ok fopen_ok Filename fs Hname Htext s k v HS HK HV Hfit) as (fs' & text' & E & Et & H0 & Hk & Es).
    exists fs'. rewrite Et. split_and!; [done|by intros ? [= <-]|done|done].
  - intros (HS & HK & Hp). apply (ini_erase_ok fopen_ok Filename fs Hname Htext s (Some k)); [done|done| |].
    + intros text Out H0 Hc. split; [|by apply settings_erased]. apply (changed_no_zero text (default [] s) k None); [done|by apply section_no_zero|done|apply not_elem_of_nil|done].
    + unfold erase_setting. by destruct (decide _).
  - intros (HS & Hne). apply (ini_erase_ok fopen_ok Filename fs Hname Htext (Some s) None); [done|done| |done].
    intros text Out H0 Hc. split; [by apply (changed_section_no_zero text s)|by eapply settings_section_erased].
Qed.

(** The results of a sequence of calls, and the files after it. *)
Fixpoint iop_runs (fopen_ok : list Z → bool) (Filename : list Z) (ops : list iop) (fs : filesystem) : res (list Z * filesystem) :=
  match ops with
  | [] => Ok ([], fs)
  | op :: ops' =>
      '(r, fs) ← iop_run fopen_ok Filename op fs;
      '(rs, fs) ← iop_runs fopen_ok Filename ops' fs;
      Ok (r :: rs, fs)
  end.

(** C7: A configuration file is a list of settings under headings. Every
    sequence of calls that put a setting, erase one or erase a section succeeds,
    and acts on this list as the corresponding functions on lists, whatever text
    without NUL the file had before; what [ini_gets] finds afterwards is the
    value the list has, cut to the buffer. Other files than this one and the
    temporary one do not change. The names and values put have no NUL and no
    newline, a key no equals sign, no white space at its ends and no comment
    sign or bracket in front, a value no white space at its ends unless it is
    one that is written in quotes, headings and lines fit the buffer of the
    library, and both files can be opened. *)
Theorem ini_trace_refines fopen_ok Filename fs ops :
  file_ok fopen_ok Filename → 0 ∉ default [] (fs !! Filename) → Forall iop_ok ops →
  ∃ fs', iop_runs fopen_ok Filename ops fs = Ok (replicate (length ops) 1, fs') ∧ others_kept Filename fs fs' ∧
    let ls := foldl iop_lines (settings (default [] (fs !! Filename))) ops in
    settings (default [] (fs' !! Filename)) = ls ∧
    ∀ Section Key DefValue (Buffer : cbuf) (BufferSize : Z),
      0 ∉ default [] Section → 0 ∉ Key → Key ≠ [] → 0 ∉ default [] DefValue → 0 < BufferSize < 2 ^ 31 → (Z.to_nat BufferSize ≤ length Buffer)%nat →
      let v := take (Z.to_nat BufferSize - 1) (default (default [] DefValue) (lookup_setting (default [] Section) Key ls)) in
      ini_gets fs' Section (Some Key) DefValue Buffer BufferSize Filename = Ok (Z.of_nat (length v), stored v Buffer) ∧ string_at (stored v Buffer) 0 = Ok v.
Proof.
  intros Hname H0 Hops. cut (∃ fs', iop_runs fopen_ok Filename ops fs = Ok (replicate (length ops) 1, fs') ∧ others_kept Filename fs fs' ∧
    settings (default [] (fs' !! Filename)) = foldl iop_lines (settings (default [] (fs !! Filename))) ops).
  { intros (fs' & E & Hk & Es). exists fs'. do 3 (split; [done|]). intros Section Key DefValue Buffer n ? ? ? ? ? ?. rewrite <- Es.
    by apply (ini_gets_ok fs' Section Key DefValue Buffer n Filename). }
  assert (∀ text, fs !! Filename = Some text → 0 ∉ text) as Htext by (intros text E; by rewrite E in H0). clear H0. revert fs Htext.
  induction Hops as [|op ops Hop _ IH]; intros fs Htext; simpl; [by exists fs|].
  destruct (iop_run_ok fopen_ok Filename fs op Hname Htext Hop) as (fs1 & -> & Ht1 & Hk1 & Es1). cbn [mbind res_bind].
  destruct (IH fs1 Ht1) as (fs2 & -> & Hk2 & Es2). exists fs2. rewrite <- Es1. split_and!; [done| |done].
  intros f Hf Hf'. by rewrite Hk2, Hk1.
Qed.

(** ** Examples *)

Definition demo_name : list Z := codes "/c.ini".
Definition demo_files (text : list Z) : filesystem := {[ demo_name := text ]}.
Definition demo_text : list Z :=
  codes "top = 1" ++ [10] ++ codes "; remark" ++ [10] ++ codes "[wifi]" ++ [10] ++ codes "ssid=home" ++ [10] ++ codes "[old]" ++ [10] ++ codes "x:1".
Definition files_after (r : res (Z * filesystem)) : filesystem := match r with Ok (_, fs) => fs | Err _ => ∅ end.
Definition everything_opens (name : list Z) : bool := true.

Lemma demo_file_ok : file_ok everything_opens demo_name.
Proof. constructor; by_evaluation. Qed.

Definition demo_ops : list iop :=
  [IPut (Some (codes "WIFI")) (codes "psk") (codes "a;b "); IPut None (codes "top") (codes "12");
   IErase (Some (codes "wifi")) (codes "ssid"); IEraseSection (codes "old"); IPut (Some (codes "time")) (codes "zone") (codes "PST")].

Lemma demo_ops_ok : Forall iop_ok demo_ops.
Proof. by_evaluation. Qed.

Lemma ini_trace_refines_witness : ∃ fs',
  iop_runs everything_opens demo_name demo_ops (demo_files demo_text) = Ok ([1; 1; 1; 1; 1], fs') ∧
  settings (default [] (fs' !! demo_name)) =
    [LEntry (codes "top") (codes "12"); LHeading (codes "wifi"); LEntry (codes "psk") (codes "a;b ");
     LHeading (codes "time"); LEntry (codes "zone") (codes "PST")].
Proof.
  destruct (ini_trace_refines everything_opens demo_name (demo_files demo_text) demo_ops demo_file_ok) as (fs' & E & _ & Es & _);
    [by_evaluation|apply demo_ops_ok|].
  exists fs'. split; [exact E|]. rewrite Es. vm_compute. reflexivity.
Defined.

(** ** What goes wrong *)

(** Erasing the settings outside of sections erases the whole first section
    when the file begins with its heading; a value with blanks in front is
    written without quotes and comes back without the blanks; and a line break
    in a value begins a line of its own, which is read as another setting. *)
Lemma ini_puts_goes_wrong :
  (∃ fs, ini_puts everything_opens demo_name (Some []) None None (demo_files (codes "[wifi]" ++ INI_LINETERM ++ codes "ssid=home")) = Ok (1, fs) ∧
    fs !! demo_name = Some []) ∧
  (∃ fs, ini_puts everything_opens demo_name (Some (codes "wifi")) (Some (codes "psk")) (Some (codes "  secret")) ∅ = Ok (1, fs) ∧
    ini_gets fs (Some (codes "wifi")) (Some (codes "psk")) None (new_buffer 16) 16 demo_name = Ok (6, stored (codes "secret") (new_buffer 16))) ∧
  (∃ fs, ini_puts everything_opens demo_name (Some (codes "wifi")) (Some (codes "ssid")) (Some (codes "home" ++ 10 :: codes "psk=none")) ∅ = Ok (1, fs) ∧
    ini_gets fs (Some (codes "wifi")) (Some (codes "psk")) None (new_buffer 16) 16 demo_name = Ok (4, stored (codes "none") (new_buffer 16))).
Proof.
  split_and!; match goal with |- ∃ fs, ?r = Ok (1, fs) ∧ _ => exists (files_after r) end; (split; vm_compute; reflexivity).
Qed.
