(* ===== verification/MinIniNum.v ===== *)
(** * Numbers in configuration files

    The decimal text [ini_putl] writes is what [ini_getl] reads back, for every
    [long]. *)

From Stdlib Require Import Ascii.
From stdpp Require Import base numbers gmap strings option list.
From S2P Require Import Prelude CType CBuffer MinIni MinIniSpec MinIniPut MinIniRound MinIniFile.

Open Scope Z_scope.

(** ** Writing *)

(** The digits of a number, the last one first. *)
Fixpoint digits_up (fuel : nat) (a : Z) : list Z :=
  match fuel with
  | O => []
  | S fuel' => (a `mod` 10 + 48) :: if a / 10 =? 0 then [] else digits_up fuel' (a / 10)
  end.

(** The text of a number. *)
Definition decimal_text (value : Z) : list Z :=
  (if value <? 0 then [char_code "-"] else []) ++ reverse (digits_up 11 (Z.abs value)).

Definition digit (c : Z) : Prop := 48 ≤ c < 58.

Lemma digits_up_digit fuel a : Forall digit (digits_up fuel a).
Proof.
  revert a. induction fuel as [|fuel IH]; intros a; simpl; constructor.
  - unfold digit. pose proof (Z.mod_pos_bound a 10 ltac:(lia)). lia.
  - destruct (_ =? 0); [constructor|apply IH].
Qed.

Lemma length_digits_up fuel a : (length (digits_up fuel a) ≤ fuel)%nat.
Proof. revert a. induction fuel as [|fuel IH]; intros a; simpl; [done|]. destruct (_ =? 0); simpl; [lia|]. specialize (IH (a / 10)). lia. Qed.

Lemma list_inserts_snoc {A} i (xs : list A) x b :
  (i + length xs < length b)%nat → <[(i + length xs)%nat := x]> (list_inserts i xs b) = list_inserts i (xs ++ [x]) b.
Proof.
  intros Hb. apply list_eq. intros j. destruct (decide (j = i + length xs)%nat) as [->|Hj].
  - rewrite list_lookup_insert_eq by (by rewrite length_inserts). rewrite list_lookup_inserts by (rewrite ?length_app; simpl; lia).
    replace (i + length xs - i)%nat with (length xs) by lia. by rewrite lookup_app_r, Nat.sub_diag.
  - rewrite list_lookup_insert_ne by done. destruct (decide (i ≤ j < i + length xs)%nat) as [Hin|Hout].
    + rewrite !list_lookup_inserts by (rewrite ?length_app; simpl; lia). by rewrite lookup_app_l by lia.
    + destruct (decide (j < i)%nat); [by rewrite !list_lookup_inserts_lt by done|]. by rewrite !list_lookup_inserts_ge by (rewrite ?length_app; simpl; lia).
Qed.

Lemma inserts_char (d : list Z) c (str : cbuf) :
  (length d < length str)%nat → <[length d := Some c]> (list_inserts 0 (Some <$> d) str) = list_inserts 0 (Some <$> (d ++ [c])) str.
Proof. intros Hd. rewrite fmap_app. pose proof (list_inserts_snoc 0 (Some <$> d) (Some c) str) as Hs. rewrite length_fmap in Hs. by apply Hs. Qed.

Lemma long2str_loop_ok fuel value done_ str :
  Z.abs value < 10 ^ Z.of_nat fuel → (0 < fuel)%nat → (length done_ + length (digits_up fuel (Z.abs value)) ≤ length str)%nat →
  long2str_loop fuel value (length done_) (list_inserts 0 (Some <$> done_) str) =
    Ok (length (done_ ++ digits_up fuel (Z.abs value)), list_inserts 0 (Some <$> done_ ++ digits_up fuel (Z.abs value)) str).
Proof.
  revert value done_. induction fuel as [|fuel IH]; intros value d Hv Hf Hb; [lia|]. cbn [long2str_loop digits_up]. cbn [digits_up length] in Hb.
  assert (Z.abs (Z.rem value 10) = Z.abs value `mod` 10) as Er by (rewrite <- Z.rem_abs by done; apply Z.rem_mod_nonneg; lia).
  assert (Z.abs (Z.quot value 10) = Z.abs value / 10) as Eq by (rewrite <- Z.quot_abs by done; apply Z.quot_div_nonneg; lia).
  rewrite Er. set (c := Z.abs value `mod` 10 + 48) in *. rewrite store_ok by (rewrite length_inserts; lia). cbn [mbind res_bind].
  rewrite inserts_char by lia.
  replace (Z.quot value 10 =? 0) with (Z.abs value / 10 =? 0) by (rewrite <- Eq; destruct (Z.eqb_spec (Z.quot value 10) 0); [by apply Z.eqb_eq; lia|apply Z.eqb_neq; lia]).
  destruct (Z.eqb_spec (Z.abs value / 10) 0) as [E0|E0].
  - do 3 f_equal. rewrite length_app. simpl. lia.
  - rewrite Nat2Z.inj_succ, Z.pow_succ_r in Hv by lia.
    assert (Z.abs value / 10 < 10 ^ Z.of_nat fuel) by (apply Z.div_lt_upper_bound; lia).
    replace (S (length d)) with (length (d ++ [c])) by (rewrite length_app; simpl; lia). rewrite IH, Eq; [by rewrite <- !app_assoc|lia| |].
    + destruct fuel; [simpl in *; pose proof (Z.div_pos (Z.abs value) 10); lia|lia].
    + rewrite Eq, length_app. cbn [length]. lia.
Qed.

Lemma strreverse_loop_ok k p (m : list Z) q :
  (length m ≤ k)%nat →
  strreverse_loop k (length p) (length p + length m - 1) (p ++ (Some <$> m) ++ q) = Ok (p ++ (Some <$> reverse m) ++ q).
Proof.
  revert p m q. induction k as [k IH] using lt_wf_ind. intros p m q Hk. destruct k as [|k]; [by destruct m; [|simpl in Hk; lia]|].
  cbn [strreverse_loop]. destruct m as [|x m]; [simpl; by rewrite bool_decide_eq_false_2 by lia|].
  destruct m as [|y m _] using rev_ind; [simpl; by rewrite bool_decide_eq_false_2 by lia|].
  rewrite bool_decide_eq_true_2 by (simpl; rewrite length_app; simpl; lia).
  assert (length p + length (x :: m ++ [y]) - 1 = length p + S (length m))%nat as -> by (simpl; rewrite length_app; simpl; lia).
  assert (p ++ (Some <$> x :: m ++ [y]) ++ q = (p ++ [Some x]) ++ (Some <$> m) ++ (Some y :: q)) as ->.
  { rewrite fmap_cons, fmap_app. simpl. by rewrite <- !app_assoc. }
  rewrite (load_ok _ (length p) x) by (by rewrite <- app_assoc, lookup_app_r, Nat.sub_diag). cbn [mbind res_bind].
  assert (length p + S (length m) = length (p ++ [Some x]) + length (Some <$> m))%nat as -> by (rewrite length_app, length_fmap; simpl; lia).
  rewrite (load_ok _ _ y) by (rewrite !lookup_app_r by lia; by replace (_ - _ - _)%nat with 0%nat by lia). cbn [mbind res_bind].
  rewrite store_ok by (rewrite !length_app; simpl; lia). cbn [mbind res_bind]. rewrite <- (app_assoc p), insert_app_r_alt, Nat.sub_diag by done. simpl.
  rewrite store_ok by (rewrite !length_app; simpl; rewrite length_app; simpl; lia). cbn [mbind res_bind].
  change (Some y :: (Some <$> m) ++ Some y :: q) with ([Some y] ++ (Some <$> m) ++ Some y :: q). rewrite !(app_assoc p).
  rewrite insert_app_r_alt by (rewrite !length_app; simpl; lia). rewrite insert_app_r_alt by (rewrite !length_app; simpl; lia).
  replace (_ - _ - _)%nat with 0%nat by (rewrite !length_app; simpl; lia). simpl.
  specialize (IH k ltac:(lia) (p ++ [Some y]) m (Some x :: q)). rewrite !length_app, length_fmap in *. simpl in *. rewrite length_app in Hk. simpl in Hk.
  replace (S (length p)) with (length p + 1)%nat by lia.
  rewrite IH by lia. rewrite reverse_cons, reverse_snoc. simpl. rewrite fmap_app. simpl. rewrite <- !app_assoc. simpl. by rewrite <- ?app_assoc.
Qed.

Lemma decimal_text_chars value : Forall (λ c, digit c ∨ c = char_code "-") (decimal_text value).
Proof.
  unfold decimal_text. apply Forall_app. split; [destruct (_ <? _); repeat constructor; by right|].
  apply Forall_reverse. eapply Forall_impl; [apply digits_up_digit|]. by left.
Qed.

Lemma length_decimal_text value : (length (decimal_text value) ≤ 12)%nat.
Proof. unfold decimal_text. rewrite length_app, length_reverse. pose proof (length_digits_up 11 (Z.abs value)). destruct (_ <? _); simpl length at 1; lia. Qed.

Lemma not_in_decimal x value : ¬ digit x → x ≠ char_code "-" → x ∉ decimal_text value.
Proof. intros H1 H2 Hin. pose proof (proj1 (Forall_forall _ _) (decimal_text_chars value) x Hin) as [|]; contradiction. Qed.

Lemma decimal_no_zero value : 0 ∉ decimal_text value.
Proof. apply not_in_decimal; [unfold digit; lia|done]. Qed.

Lemma strreverse_ok b s :
  string_at b 0 = Ok s → ∃ b', strreverse b = Ok b' ∧ string_at b' 0 = Ok (reverse s).
Proof.
  intros Hs. destruct (string_of_inv _ _ Hs) as (H0 & rest & E). rewrite drop_0 in E. subst b.
  exists ((Some <$> reverse s) ++ Some 0 :: rest). unfold strreverse. rewrite (strlen_ok _ _ _ Hs). cbn [mbind res_bind].
  split; [apply (strreverse_loop_ok (length s) [] s (Some 0 :: rest)); done|]. apply string_of_bytes. by rewrite elem_of_reverse.
Qed.

Lemma long2str_ok value str :
  - 2 ^ 31 ≤ value < 2 ^ 31 → (13 ≤ length str)%nat →
  ∃ b, long2str value str = Ok b ∧ string_at b 0 = Ok (decimal_text value).
Proof.
  intros Hv Hlen. set (ds := digits_up 11 (Z.abs value)). pose proof (length_digits_up 11 (Z.abs value)) as Hds. fold ds in Hds.
  unfold long2str. pose proof (long2str_loop_ok 11 value [] str) as El. cbn [length fmap list_fmap list_inserts app] in El. rewrite El by (fold ds; lia). clear El.
  fold ds. cbn [mbind res_bind]. set (text := ds ++ if value <? 0 then [char_code "-"] else []).
  assert (length text ≤ 12)%nat as Ht by (unfold text; rewrite length_app; destruct (value <? 0); cbn [length]; lia).
  assert ((if value <? 0 then str0 ← store (length ds) (char_code "-") (list_inserts 0 (Some <$> ds) str); Ok (S (length ds), str0)
    else Ok (length ds, list_inserts 0 (Some <$> ds) str)) = Ok (length text, list_inserts 0 (Some <$> text) str)) as ->.
  { unfold text. destruct (value <? 0); [|by rewrite app_nil_r]. rewrite store_ok by (rewrite length_inserts; lia). cbn [mbind res_bind].
    rewrite inserts_char by lia. do 2 f_equal. rewrite length_app. cbn [length]. lia. }
  cbn [mbind res_bind]. rewrite store_ok by (rewrite length_inserts; lia). cbn [mbind res_bind].
  assert (0 ∉ text) as H0.
  { pose proof (decimal_no_zero value) as H0. unfold decimal_text in H0. fold ds in H0. unfold text. rewrite !elem_of_app, elem_of_reverse in *. destruct (_ <? _); tauto. }
  rewrite inserts_char by lia.
  destruct (strreverse_ok _ _ (string_at_stored 0 text str H0 ltac:(lia))) as (b & -> & Hb). exists b. split; [done|]. rewrite Hb. f_equal.
  unfold text, decimal_text. fold ds. rewrite reverse_app. by destruct (_ <? _).
Qed.

(** ** Reading *)

Lemma digits_snoc s c acc :
  Forall digit s → digit c → digits 10 (s ++ [c]) acc = digits 10 s acc * 10 + (c - 48).
Proof.
  assert (∀ d, digit d → digit_value d = d - 48 ∧ (digit_value d <? 10) = true) as Hd.
  { intros d Hd. unfold digit_value, isdigit. assert (in_range d "0" "9" = true) as -> by (apply in_range_true; unfold digit in Hd; cbv [char_code N_of_ascii N_of_digits]; simpl; lia).
    split; [done|]. apply Z.ltb_lt. unfold digit in Hd. lia. }
  intros Hs Hc. revert acc. induction Hs as [|x s Hx _ IH]; intros acc; simpl.
  - destruct (Hd c Hc) as [-> ->]. done.
  - destruct (Hd x Hx) as [-> ->]. apply IH.
Qed.

Lemma digits_reverse fuel a : 0 ≤ a < 10 ^ Z.of_nat fuel → (0 < fuel)%nat → digits 10 (reverse (digits_up fuel a)) 0 = a.
Proof.
  revert a. induction fuel as [|fuel IH]; intros a Ha Hf; [lia|]. cbn [digits_up]. rewrite reverse_cons. set (rest := if _ =? 0 then [] else _).
  pose proof (Z.div_mod a 10 ltac:(lia)). pose proof (Z.mod_pos_bound a 10 ltac:(lia)). pose proof (Z.div_pos a 10 ltac:(lia) ltac:(lia)).
  rewrite digits_snoc; [| |unfold digit; lia].
  - enough (digits 10 (reverse rest) 0 = a / 10) by lia. unfold rest. destruct (Z.eqb_spec (a / 10) 0) as [->|Hne]; [done|].
    rewrite Nat2Z.inj_succ, Z.pow_succ_r in Ha by lia. assert (a / 10 < 10 ^ Z.of_nat fuel) by (apply Z.div_lt_upper_bound; lia).
    apply IH; [lia|]. destruct fuel; [simpl in *; lia|lia].
  - apply Forall_reverse. unfold rest. destruct (_ =? 0); [constructor|apply digits_up_digit].
Qed.

Lemma digits_up_nonempty a : reverse (digits_up 11 a) ≠ [].
Proof. cbn [digits_up]. rewrite reverse_cons. by destruct (reverse _). Qed.

Lemma digit_class c : digit c → isspace c = false ∧ isc c "-" = false ∧ isc c "+" = false ∧ isc (toupper c) "X" = false ∧
  (c =? dquote) || isc c ";" || isc c "#" = false.
Proof.
  intros Hc. assert (c = 48 ∨ c = 49 ∨ c = 50 ∨ c = 51 ∨ c = 52 ∨ c = 53 ∨ c = 54 ∨ c = 55 ∨ c = 56 ∨ c = 57) as Hcs by (unfold digit in Hc; lia).
  destruct_or! Hcs; subst c; done.
Qed.

Lemma skip_prefix_decimal s : skip_prefix 10 s = s.
Proof. by destruct s as [|? [|? [|? ?]]]. Qed.

Lemma strtol_decimal value : - 2 ^ 31 ≤ value < 2 ^ 31 → strtol (decimal_text value) 10 = value.
Proof.
  intros Hv. unfold strtol. set (rest := reverse (digits_up 11 (Z.abs value))).
  assert (digits 10 rest 0 = Z.abs value) as Hd by (apply digits_reverse; change (10 ^ Z.of_nat 11) with 100000000000; lia).
  assert (∃ c s, rest = c :: s ∧ digit c) as (c & s & Er & Hc).
  { pose proof (digits_up_nonempty (Z.abs value)) as Hne. fold rest in Hne. destruct rest as [|c s] eqn:Er; [done|]. exists c, s. split; [done|].
    assert (Forall digit rest) as Hf by apply Forall_reverse, digits_up_digit. rewrite Er in Hf. by inversion Hf. }
  destruct (digit_class c Hc) as (H1 & H2 & H3 & _). assert (∀ v, - 2 ^ 31 ≤ v < 2 ^ 31 → clamp v = v) as Hclamp by (intros; unfold clamp; lia).
  unfold decimal_text. fold rest. destruct (Z.ltb_spec value 0).
  - change (skip_spaces ([char_code "-"] ++ rest)) with ([char_code "-"] ++ rest). cbn [app]. change (isc (char_code "-") "-") with true. cbv iota. rewrite skip_prefix_decimal. rewrite Hd. rewrite Hclamp; lia.
  - cbn [app]. rewrite Er. cbn [skip_spaces]. rewrite H1, H2, H3. rewrite <- Er. rewrite skip_prefix_decimal. rewrite Hd, Hclamp; lia.
Qed.

(** ** Through a file *)

Lemma not_blank_strip s : Forall (λ c, blank c = false) s → lstrip s = s ∧ rstrip s = s.
Proof.
  intros Hs. split; [destruct Hs as [|c s Hc _]; [done|]; simpl; by rewrite Hc|].
  destruct s as [|c s _] using rev_ind; [done|]. apply Forall_app in Hs as [_ Hc]. inversion Hc as [|? ? Hb]. by rewrite rstrip_snoc, Hb.
Qed.

Lemma decimal_value_ok value : value_ok (decimal_text value).
Proof.
  constructor; [apply decimal_no_zero|apply not_in_decimal; [unfold digit; lia|done]|]. right. apply not_blank_strip.
  eapply Forall_impl; [apply decimal_text_chars|]. intros c [Hc|Hc]; [|by rewrite Hc]. unfold blank, digit in *. apply andb_false_iff. right. apply Z.leb_gt. lia.
Qed.

Lemma decimal_plain value : encoded (decimal_text value) = decimal_text value.
Proof.
  unfold encoded, check_enquote. assert (needs_quotes (decimal_text value) = None) as ->.
  { pose proof (decimal_text_chars value) as Hs. induction Hs as [|c s Hc _ IH]; [done|]. simpl. rewrite IH.
    destruct Hc as [Hc| ->]; [|done]. by destruct (digit_class c Hc) as (_ & _ & _ & _ & ->). }
  rewrite bool_decide_eq_false_2 by by intros []. rewrite bool_decide_eq_false_2; [done|]. intros Hl.
  apply last_Some_elem_of in Hl. apply not_in_decimal in Hl; [done|unfold digit; lia|done].
Qed.

(** C23: [ini_getl] reads back every [long] that [ini_putl] wrote, the least one
    included, whatever default it is given. *)
Theorem ini_putl_getl fopen_ok Filename fs Section Key Value sec key DefValue :
  file_ok fopen_ok Filename → 0 ∉ default [] (fs !! Filename) →
  section_ok (default [] Section) → key_ok Key → (length Key ≤ INI_BUFFERSIZE - 16)%nat → - 2 ^ 31 ≤ Value < 2 ^ 31 →
  0 ∉ default [] sec → 0 ∉ key → fold_case (default [] sec) = fold_case (default [] Section) → fold_case key = fold_case Key →
  ∃ fs', ini_putl fopen_ok Section (Some Key) Value Filename fs = Ok (1, fs') ∧
    ini_getl fs' sec (Some key) DefValue Filename = Ok Value.
Proof.
  intros Hname H0 HS HK Hlen Hv Hsec Hkey Esec Ekey. unfold ini_putl. destruct (long2str_ok Value (new_buffer 32)) as (b & -> & Hb); [done|simpl; lia|].
  cbn [mbind res_bind]. rewrite Hb. cbn [mbind res_bind]. set (text := decimal_text Value) in *. pose proof (length_decimal_text Value) as Hl. fold text in Hl.
  assert (key ≠ []) as Hne by (intros ->; destruct Key; [by destruct (key_start _ HK)|done]).
  assert (∀ t, fs !! Filename = Some t → 0 ∉ t) as Htext by (intros t E; by rewrite E in H0).
  destruct (ini_puts_ok fopen_ok Filename fs Hname Htext Section Key text HS HK (decimal_value_ok Value)) as (fs' & text' & E & Et & _ & _ & Es).
  { unfold line_fits. unfold text. rewrite decimal_plain. fold text. unfold INI_BUFFERSIZE in *. lia. }
  exists fs'. split; [done|]. unfold ini_getl.
  destruct (ini_gets_ok fs' sec key (Some []) (new_buffer 64) 64 Filename) as [-> S1]; [done..|apply not_elem_of_nil|done|simpl; lia|].
  revert S1. unfold setting_of. rewrite Et. cbn [default from_option id]. rewrite Es, lookup_put, decide_True by done. cbn [default from_option id].
  rewrite take_ge by (fold text; lia). intros S1. cbn [mbind res_bind].
  assert (length text ≠ 0%nat) as Hpos by (unfold text, decimal_text; rewrite length_app; pose proof (digits_up_nonempty (Z.abs Value)); destruct (reverse _); [done|simpl; lia]).
  rewrite (proj2 (Z.eqb_neq _ _)) by lia. rewrite S1.
  enough (∃ x, (if 2 <=? Z.of_nat (length text) then load (stored text (new_buffer 64)) 1 else Ok 0) = Ok x ∧ (2 <=? Z.of_nat (length text)) && isc (toupper x) "X" = false)
    as (x & -> & Ex) by (cbn [mbind res_bind]; rewrite Ex; f_equal; by apply strtol_decimal).
  destruct (Z.leb_spec 2 (Z.of_nat (length text))); [|by exists 0]. pose proof (string_load _ 0 _ S1 1 ltac:(lia)) as El. simpl plus in El. rewrite El. eexists. split; [done|]. simpl.
  destruct (text !! 1%nat) as [x|] eqn:Ex; [|done]. apply (Forall_lookup_1 _ _ _ _ (decimal_text_chars Value)) in Ex as [Hx| ->]; [|done].
  by apply digit_class.
Qed.

Lemma ini_putl_getl_witness :
  ∃ fs', ini_putl (λ _, true) (Some (codes "time")) (Some (codes "syncinterval")) (- 2 ^ 31) (codes "/c.ini") {[ codes "/c.ini" := codes "[wifi]" ]} = Ok (1, fs') ∧
    ini_getl fs' (Some (codes "TIME")) (Some (codes "SyncInterval")) 0 (codes "/c.ini") = Ok (- 2 ^ 31).
Proof.
  apply ini_putl_getl; [constructor| |constructor|constructor| | | | | |]; try by_evaluation; try done.
Defined.
