(* ===== verification/SqKeywords.v ===== *)
(** * The lexer's keyword table

    [SQLexer::Init] interns each keyword in the string table and stores its
    token in an [SQTable]; [GetIDType] looks identifiers up in it by their
    characters with [SQTable::GetStr].  This file composes the string table, the
    hash table and the lexer: it runs [Init]'s insertions on any reachable
    string table and shows that the resulting lookup is the one the lexer's
    theorems are stated over. *)

From Stdlib Require Import Ascii.
From stdpp Require Import base numbers gmap strings option list.
From S2P Require Import Prelude CType Chains SqObject SqString SqTable SqTableInv SqTableSpec SqLexer SqLexerSpec.

(** The heap the table sees: the strings of a string table. *)
Definition heap_of (st : SQStringTable) : SQHeap := {|
  string_hash := λ a, default 0%Z (str_hash <$> str_heap st !! a);
  string_val := λ a, default [] (str_val <$> str_heap st !! a);
  weak_obj := λ _, sq_null;
  ub_float_cast := λ _, 0%Z
|}.

Definition string_key (a : Z) : SQObject := mkObj OT_STRING a.

(** [ADD_KEYWORD(key,id)]: [SQString::Create] with the length left to [strlen],
    then [NewSlot]. *)
Definition ADD_KEYWORD `{Allocator} (s : SQStringTable * SQTable) (kw : string * Z)
    : res (SQStringTable * SQTable) :=
  '(st, a) ← SqString.Add s.1 (String.list_ascii_of_string kw.1) (-1);
  '(t, _) ← @NewSlot (heap_of st) table_fuel s.2 (string_key a) (sq_int kw.2);
  Ok (st, t).

(** The part of [SQLexer::Init] that builds the table. *)
Definition init_keywords `{Allocator} (st : SQStringTable) : res (SQStringTable * SQTable) :=
  t ← SqTable.Create 37;
  fold_res ADD_KEYWORD keywords (st, t).

(** ** The table under another heap *)

(** Only the hashes of the keys in the table matter. *)
Lemma models_heap (H1 H2 : SQHeap) t m :
  (∀ k v, m !! k = Some v → @HashObj H1 k = @HashObj H2 k) → @models H1 t m → @models H2 t m.
Proof.
  intros Hh [Ml Mp Mi Mf Mh Mu]. split; try done. destruct Mp as (e & He & Hn).
  assert (Hmain : ∀ i k, key_at (_nodes t) i k →
            @mainpos H2 (_numofnodes t) k = @mainpos H1 (_numofnodes t) k).
  { intros i k (nd & Hi & <- & Hnull). unfold mainpos.
    rewrite (Hh (nkey nd) (nval nd)); [done|]. apply Mh. eauto 6. }
  destruct Mi as [N1 N2 N3 N4 N5 N6 N7 N8]. split; try done.
  - intros k. pose proof (@mainpos_lt H2 (_numofnodes t) k e ltac:(lia) Hn). lia.
  - intros i k Hk. rewrite (Hmain i k Hk). auto.
  - intros i k Hk. rewrite (Hmain i k Hk). intros Hne. destruct (N7 i k Hk Hne) as [Hlo Hno].
    split; [done|]. intros j k' Hk'. rewrite (Hmain j k' Hk'). eauto.
Qed.

(** ** Lookup by characters *)

Section getstr.
Context `{SQHeap}.

(** A table whose keys are interned strings without NULs. *)
Record string_keyed (m : gmap SQObject SQObject) : Prop := {
  sk_type : ∀ k v, m !! k = Some v → _type k = OT_STRING;
  sk_zero : ∀ k v, m !! k = Some v → Ascii.zero ∉ string_val (_unVal k);
  sk_hash : ∀ k v, m !! k = Some v →
              string_hash (_unVal k) = _hashstr (string_val (_unVal k)) (Z.of_nat (length (string_val (_unVal k))));
  sk_inj : ∀ k1 k2 v1 v2, m !! k1 = Some v1 → m !! k2 = Some v2 →
             string_val (_unVal k1) = string_val (_unVal k2) → k1 = k2
}.

Definition str_test (s : list ascii) (nd : HashNode) : bool :=
  bool_decide (_type (nkey nd) = OT_STRING)
  && bool_decide (c_str (string_val (_unVal (nkey nd))) = c_str (s ++ [Ascii.zero])).

(** The test of [GetStr] holds at the node of the string and nowhere else. *)
Lemma str_test_true t m s i nd :
  models t m → string_keyed m → Ascii.zero ∉ s → _nodes t !! i = Some nd →
  str_test s nd = true ↔
  m !! nkey nd = Some (nval nd) ∧ string_val (_unVal (nkey nd)) = s.
Proof.
  intros Hm Hk Hs Hi. unfold str_test.
  rewrite andb_true_iff, !bool_decide_eq_true, c_str_terminated by done. split.
  - intros [Ht Hc]. assert (Hin : m !! nkey nd = Some (nval nd)).
    { apply (mo_holds _ _ Hm). exists i, nd. split_and!; [done..|]. unfold is_null. by rewrite Ht. }
    split; [done|]. rewrite <- Hc. symmetry. apply c_str_id. by eapply sk_zero.
  - intros [Hin <-]. split; [by eapply sk_type|]. by apply c_str_id.
Qed.

Lemma GetStr_walk t m s :
  models t m → string_keyed m → Ascii.zero ∉ s →
  (∃ k v i nd, m !! k = Some v ∧ string_val (_unVal k) = s ∧ _nodes t !! i = Some nd ∧ nval nd = v ∧
     GetStr t (s ++ [Ascii.zero]) (Z.of_nat (length s)) = Ok (Some (_realval v))) ∨
  (∀ k v, m !! k = Some v → string_val (_unVal k) ≠ s) ∧
    GetStr t (s ++ [Ascii.zero]) (Z.of_nat (length s)) = Ok None.
Proof.
  intros Hm Hk Hs. unfold GetStr. fold (str_test s).
  pose proof (mo_inv _ _ Hm) as Hi. destruct (ni_rank _ _ _ Hi) as [rank Hrank].
  destruct (mo_pow2 _ _ Hm) as (e & He & Hn). pose proof (mo_len _ _ Hm) as Hlen.
  set (h := Z.to_nat (Z.land (_hashstr (s ++ [Ascii.zero]) (Z.of_nat (length s))) (_numofnodes t - 1))).
  assert (Hhash : _hashstr (s ++ [Ascii.zero]) (Z.of_nat (length s)) = _hashstr s (Z.of_nat (length s))).
  { rewrite <- (_hashstr_take (s ++ [Ascii.zero])) by (rewrite length_app; lia).
    by rewrite Nat2Z.id, take_app_length. }
  assert (Hh : h < length (_nodes t)).
  { pose proof (bucket_of_lt e (_hashstr (s ++ [Ascii.zero]) (Z.of_nat (length s))) ltac:(lia)) as Hb.
    rewrite <- Hn in Hb. unfold bucket_of in Hb. subst h. lia. }
  destruct (chain_find_ok (str_test s) (_nodes t) h rank (ni_bound _ _ _ Hi) Hrank Hh) as (r & -> & Hr).
  cbn [mbind res_bind]. destruct r as [j|].
  - left. destruct Hr as [_ (nd & Hj & Ht)]. apply (str_test_true t m s j nd Hm Hk Hs Hj) in Ht as [Hin Hv].
    rewrite Hj. exists (nkey nd), (nval nd), j, nd. done.
  - right. split; [|done]. intros k v Hkv Heq.
    assert (Hkv' := Hkv). apply (mo_holds _ _ Hm) in Hkv' as (j & nd & Hj & Hnk & Hnv & Hnull).
    assert (Hreach : rtc (step (_nodes t)) h j).
    { assert (Hma : mainpos (_numofnodes t) k = h).
      { unfold mainpos, HashObj. rewrite (sk_type _ Hk k v Hkv), (sk_hash _ Hk k v Hkv), Heq.
        subst h. by rewrite Hhash. }
      rewrite <- Hma. apply (ni_reach _ _ _ Hi). by exists nd. }
    specialize (Hr j nd Hreach Hj).
    assert (str_test s nd = true); [|congruence].
    apply (str_test_true t m s j nd Hm Hk Hs Hj). subst k v. done.
Qed.
End getstr.

(** ** Building the table *)

Definition chars (w : string) : list ascii := String.list_ascii_of_string w.

(** The table holds the tokens of [kws] under the addresses of their strings. *)
Definition holds_keywords (kws : list (string * Z)) (sm : gmap Z (list ascii))
    (m : gmap SQObject SQObject) : Prop :=
  ∀ k v, m !! k = Some v ↔
         ∃ a w z, k = string_key a ∧ v = sq_int z ∧ sm !! a = Some (chars w) ∧ (w, z) ∈ kws.

Definition built (kws : list (string * Z)) (s : SQStringTable * SQTable) : Prop :=
  ∃ sm m, interns s.1 sm ∧ @models (heap_of s.1) s.2 m ∧ holds_keywords kws sm m ∧
          ∀ w z, (w, z) ∈ kws → ∃ a, sm !! a = Some (chars w).

Lemma heap_of_live st sm a w :
  interns st sm → sm !! a = Some w →
  @string_val (heap_of st) a = w ∧ @string_hash (heap_of st) a = _hashstr w (Z.of_nat (length w)).
Proof.
  intros Hin Ha. rewrite <- (in_vals _ _ Hin), lookup_fmap in Ha. simpl.
  destruct (str_heap st !! a) as [s|] eqn:Hs; simplify_eq/=.
  destruct (in_nodes _ _ Hin a s Hs) as [Hl Hh]. by rewrite Hh, Hl.
Qed.

(** The keywords are distinct and have no NULs. *)
Lemma keywords_distinct : NoDup ((λ kw : string * Z, chars kw.1) <$> keywords).
Proof. by_evaluation. Qed.

Lemma keywords_no_zero w z : (w, z) ∈ keywords → Ascii.zero ∉ chars w.
Proof.
  assert (Hall : Forall (λ kw : string * Z, bool_decide (Ascii.zero ∉ chars kw.1) = true) keywords)
    by (repeat constructor).
  rewrite Forall_forall in Hall. intros Hin. specialize (Hall _ Hin). by apply bool_decide_eq_true in Hall.
Qed.

Lemma keyword_code_spec s z : keyword_code s = Some z ↔ ∃ w, (w, z) ∈ keywords ∧ chars w = s.
Proof.
  unfold keyword_code. rewrite fmap_Some. split.
  - intros ([i [w x]] & Hf & ->). apply list_find_Some in Hf as (Hi & Hw & _). simpl in *.
    exists w. split; [by eapply list_elem_of_lookup_2|done].
  - intros (w & [i Hi]%list_elem_of_lookup & Hw). exists (i, (w, z)). split; [|done].
    apply list_find_Some. split_and!; [done|done|]. intros j [w' z'] Hj Hlt Heq. simpl in Heq.
    pose proof keywords_distinct as Hnd. rewrite NoDup_alt in Hnd.
    assert (j = i); [|lia]. apply (Hnd j i (chars w)); rewrite list_lookup_fmap.
    + rewrite Hj. simpl. f_equal. etrans; [exact Heq|done].
    + by rewrite Hi.
Qed.

(** One insertion. *)
Lemma ADD_KEYWORD_ok `{Allocator} kws s w z :
  built kws s → (∀ w' z', (w', z') ∈ kws → chars w' ≠ chars w) → Ascii.zero ∉ chars w →
  ∃ s', ADD_KEYWORD s (w, z) = Ok s' ∧ built (kws ++ [(w, z)]) s'.
Proof.
  intros (sm & m & Hin & Hm & Hk & Hall) Hnew Hz. unfold ADD_KEYWORD. cbn [fst snd].
  destruct (Add_ok s.1 sm (chars w) (-1) Hin ltac:(lia)) as (st' & a & sm' & Hrun & Hin' & Hc).
  assert (Hask : asked (chars w) (-1) = chars w) by (unfold asked; simpl; by apply c_str_id).
  rewrite Hask in Hc.
  assert (Ha : sm' !! a = Some (chars w)).
  { destruct Hc as [(? & _ & ->)|(_ & _ & ->)]; [done|apply lookup_insert_eq]. }
  assert (Hsub : sm ⊆ sm').
  { destruct Hc as [(_ & _ & ->)|(_ & ? & ->)]; [done|by apply insert_subseteq]. }
  fold (chars w). rewrite Hrun. cbn [mbind res_bind].
  assert (Hm' : @models (heap_of st') s.2 m).
  { apply (models_heap (heap_of s.1)); [|done]. intros k v Hkv.
    apply Hk in Hkv as (b & w' & z' & -> & _ & Hb & _). unfold HashObj. cbn [_type string_key _unVal].
    destruct (heap_of_live s.1 sm b _ Hin Hb) as [_ ->].
    destruct (heap_of_live st' sm' b (chars w') Hin') as [_ ->]; [by eapply lookup_weaken|done]. }
  destruct (@NewSlot_models (heap_of st') 0 s.2 m (string_key a) (sq_int z) Hm' eq_refl)
    as (t' & b & Hns & Hm2 & _).
  unfold table_fuel. rewrite Hns. cbn [mbind res_bind]. eexists. split; [done|].
  exists sm', (<[string_key a := sq_int z]> m). split; [done|]. split; [done|].
  split; [|intros w' z' [Hold|[= -> ->]%list_elem_of_singleton]%elem_of_app; [|by exists a]].
  2:{ destruct (Hall w' z' Hold) as [b' Hb']. exists b'. by eapply lookup_weaken. }
  intros k v. rewrite lookup_insert_Some. split.
  - intros [[<- <-]|[Hne Hkv]].
    + exists a, w, z. split_and!; [done..|]. apply elem_of_app. right. by apply list_elem_of_singleton.
    + apply Hk in Hkv as (b' & w' & z' & -> & -> & Hb & Hin2). exists b', w', z'.
      split_and!; [done|done|by eapply lookup_weaken|]. apply elem_of_app. by left.
  - intros (b' & w' & z' & -> & -> & Hb & [Hold|Hlast%list_elem_of_singleton]%elem_of_app).
    + right. split.
      * intros [= ->]. rewrite Ha in Hb. injection Hb as Hb. by destruct (Hnew w' z' Hold).
      * apply Hk. exists b', w', z'. split_and!; [done|done| |done].
        destruct Hc as [(_ & _ & ->)|(_ & _ & ->)]; [done|].
        apply lookup_insert_Some in Hb as [[<- Hb]|[_ Hb]]; [|done].
        by destruct (Hnew w' z' Hold).
    + left. injection Hlast as -> ->. split; [|done].
      f_equal. symmetry. by eapply (in_inj _ _ Hin').
Qed.

Lemma init_keywords_ok `{Allocator} st :
  SqString.reachable st → ∃ s, init_keywords st = Ok s ∧ built keywords s.
Proof.
  intros [sm Hin]%reachable_interns. unfold init_keywords.
  destruct (@Create_models (heap_of st) 37) as (t & -> & Hm & _); [done|]. cbn [mbind res_bind].
  apply (fold_res_inv ADD_KEYWORD built keywords (st, t)).
  - exists sm, ∅. split_and!; [done|done| |intros w z Hn; by apply elem_of_nil in Hn].
    intros k v. rewrite lookup_empty. split; [done|].
    intros (a & w & z & _ & _ & _ & Hn). by apply elem_of_nil in Hn.
  - intros dn [w z] todo s Hl Hb.
    assert (Hin2 : (w, z) ∈ keywords) by (rewrite Hl; set_solver).
    apply ADD_KEYWORD_ok; [done| |by eapply keywords_no_zero].
    intros w' z' Hw' Heq. pose proof keywords_distinct as Hnd. rewrite Hl, fmap_app in Hnd.
    apply NoDup_app in Hnd as (_ & Hd & _). apply (Hd (chars w)); [|by left].
    rewrite <- Heq. apply list_elem_of_fmap. by exists (w', z').
Qed.

Lemma built_string_keyed (s : SQStringTable * SQTable) sm m :
  interns s.1 sm → holds_keywords keywords sm m → @string_keyed (heap_of s.1) m.
Proof.
  intros Hin Hk. split.
  - intros k v (a & w & z & -> & _)%Hk. done.
  - intros k v (a & w & z & -> & _ & Ha & Hw)%Hk. cbn [string_key _unVal].
    destruct (heap_of_live _ _ _ _ Hin Ha) as [-> _]. by eapply keywords_no_zero.
  - intros k v (a & w & z & -> & _ & Ha & Hw)%Hk. cbn [string_key _unVal].
    by destruct (heap_of_live _ _ _ _ Hin Ha) as [-> ->].
  - intros k1 k2 v1 v2 (a1 & w1 & z1 & -> & _ & Ha1 & _)%Hk (a2 & w2 & z2 & -> & _ & Ha2 & _)%Hk.
    cbn [string_key _unVal]. destruct (heap_of_live _ _ _ _ Hin Ha1) as [-> _].
    destruct (heap_of_live _ _ _ _ Hin Ha2) as [-> _]. intros Heq. rewrite <- Heq in Ha2.
    f_equal. by eapply (in_inj _ _ Hin).
Qed.

(** C18: on any reachable string table [SQLexer::Init] builds the keyword table
    without a fault, and the lookup [GetStr] by NUL-terminated characters then
    answers the token of each keyword and nothing for any other name: what the
    lexer assumes of its keyword table holds of the real one. *)
Theorem keyword_table_correct `{Allocator} st :
  SqString.reachable st →
  ∃ st' t, init_keywords st = Ok (st', t) ∧
    ∀ s, Ascii.zero ∉ s →
         @GetStr (heap_of st') t (s ++ [Ascii.zero]) (Z.of_nat (length s)) = Ok (sq_int <$> keyword_code s).
Proof.
  intros Hr. destruct (init_keywords_ok st Hr) as ([st' t] & Hrun & sm & m & Hin & Hm & Hk & Hall).
  exists st', t. split; [done|]. intros s Hs. simpl in Hin, Hm.
  pose proof (built_string_keyed (st', t) sm m Hin Hk) as Hsk.
  destruct (@GetStr_walk (heap_of st') t m s Hm Hsk Hs) as [(k & v & i & nd & Hkv & Hv & _ & _ & ->)|[Hno ->]].
  - apply Hk in Hkv as (a & w & z & -> & -> & Ha & Hw). cbn [string_key _unVal] in Hv.
    destruct (heap_of_live _ _ _ _ Hin Ha) as [Hv' _]. rewrite Hv' in Hv.
    rewrite (proj2 (keyword_code_spec s z)); [done|]. by exists w.
  - destruct (keyword_code s) as [z|] eqn:Hkc; [|done].
    apply keyword_code_spec in Hkc as (w & Hw & <-). destruct (Hall w z Hw) as [a Ha].
    destruct (Hno (string_key a) (sq_int z)); [apply Hk; by exists a, w, z|].
    apply (heap_of_live _ _ _ _ Hin Ha).
Qed.

Lemma keyword_table_correct_witness :
  ∃ st' t, init_keywords empty_table = Ok (st', t) ∧
    @GetStr (heap_of st') t (chars "while" ++ [Ascii.zero]) 5 = Ok (Some (sq_int 274)).
Proof.
  destruct (keyword_table_correct empty_table reach_init) as (st' & t & Hrun & Hget).
  exists st', t. split; [exact Hrun|].
  apply (Hget (chars "while")). by_evaluation.
Defined.
