(* ===== verification/SqFuncState.v ===== *)
(** * The state of a function that is being compiled

    [SQFuncState] (sqfuncstate.h, sqfuncstate.cpp) is what the compiler knows of a
    function: the registers in use, which hold named local variables and the
    values of expressions (the targets), the literals, the variables of
    enclosing functions, and the instructions, which [AddInstruction] improves
    as they come.  The instruction set is that of sqopcodes.h.

    The literals are an [SQTable] from objects to numbers; [BuildProto] turns the
    state into the [SQFunctionProto] of [SqProto].  The functions that enclose the
    one that is compiled are a list. *)

From Stdlib Require Import Ascii.
From stdpp Require Import base numbers gmap strings option list.
From S2P Require Import Prelude CType SqObject SqTable SqString SqProto SqKeywords.

Open Scope Z_scope.

(** ** Instructions *)

Definition MAX_FUNC_STACKSIZE : Z := 0xFF.
Definition MAX_LITERALS : Z := 0x7FFFFFFF.
Definition UINT_MINUS_ONE : Z := 0xFFFFFFFF.

Inductive SQOpcode :=
  | _OP_LINE | _OP_LOAD | _OP_LOADINT | _OP_LOADFLOAT | _OP_DLOAD | _OP_TAILCALL
  | _OP_CALL | _OP_PREPCALL | _OP_PREPCALLK | _OP_GETK | _OP_MOVE | _OP_NEWSLOT
  | _OP_DELETE | _OP_SET | _OP_GET | _OP_EQ | _OP_NE | _OP_ADD
  | _OP_SUB | _OP_MUL | _OP_DIV | _OP_MOD | _OP_BITW | _OP_RETURN
  | _OP_LOADNULLS | _OP_LOADROOT | _OP_LOADBOOL | _OP_DMOVE | _OP_JMP | _OP_JCMP
  | _OP_JZ | _OP_SETOUTER | _OP_GETOUTER | _OP_NEWOBJ | _OP_APPENDARRAY | _OP_COMPARITH
  | _OP_INC | _OP_INCL | _OP_PINC | _OP_PINCL | _OP_CMP | _OP_EXISTS
  | _OP_INSTANCEOF | _OP_AND | _OP_OR | _OP_NEG | _OP_NOT | _OP_BWNOT
  | _OP_CLOSURE | _OP_YIELD | _OP_RESUME | _OP_FOREACH | _OP_POSTFOREACH | _OP_CLONE
  | _OP_TYPEOF | _OP_PUSHTRAP | _OP_POPTRAP | _OP_THROW | _OP_NEWSLOTA | _OP_GETBASE
  | _OP_CLOSE.

#[export] Instance SQOpcode_eq_dec : EqDecision SQOpcode.
Proof. solve_decision. Defined.

(** The number of an instruction. *)
Definition opcode (o : SQOpcode) : Z :=
  match o with
  | _OP_LINE => 0x00 | _OP_LOAD => 0x01 | _OP_LOADINT => 0x02 | _OP_LOADFLOAT => 0x03
  | _OP_DLOAD => 0x04 | _OP_TAILCALL => 0x05 | _OP_CALL => 0x06 | _OP_PREPCALL => 0x07
  | _OP_PREPCALLK => 0x08 | _OP_GETK => 0x09 | _OP_MOVE => 0x0a | _OP_NEWSLOT => 0x0b
  | _OP_DELETE => 0x0c | _OP_SET => 0x0d | _OP_GET => 0x0e | _OP_EQ => 0x0f
  | _OP_NE => 0x10 | _OP_ADD => 0x11 | _OP_SUB => 0x12 | _OP_MUL => 0x13
  | _OP_DIV => 0x14 | _OP_MOD => 0x15 | _OP_BITW => 0x16 | _OP_RETURN => 0x17
  | _OP_LOADNULLS => 0x18 | _OP_LOADROOT => 0x19 | _OP_LOADBOOL => 0x1a | _OP_DMOVE => 0x1b
  | _OP_JMP => 0x1c | _OP_JCMP => 0x1d | _OP_JZ => 0x1e | _OP_SETOUTER => 0x1f
  | _OP_GETOUTER => 0x20 | _OP_NEWOBJ => 0x21 | _OP_APPENDARRAY => 0x22 | _OP_COMPARITH => 0x23
  | _OP_INC => 0x24 | _OP_INCL => 0x25 | _OP_PINC => 0x26 | _OP_PINCL => 0x27
  | _OP_CMP => 0x28 | _OP_EXISTS => 0x29 | _OP_INSTANCEOF => 0x2a | _OP_AND => 0x2b
  | _OP_OR => 0x2c | _OP_NEG => 0x2d | _OP_NOT => 0x2e | _OP_BWNOT => 0x2f
  | _OP_CLOSURE => 0x30 | _OP_YIELD => 0x31 | _OP_RESUME => 0x32 | _OP_FOREACH => 0x33
  | _OP_POSTFOREACH => 0x34 | _OP_CLONE => 0x35 | _OP_TYPEOF => 0x36 | _OP_PUSHTRAP => 0x37
  | _OP_POPTRAP => 0x38 | _OP_THROW => 0x39 | _OP_NEWSLOTA => 0x3a | _OP_GETBASE => 0x3b
  | _OP_CLOSE => 0x3c
  end.

Definition AAT_STACK : Z := 0.
Definition AAT_LITERAL : Z := 1.
Definition AAT_INT : Z := 2.
Definition AAT_FLOAT : Z := 3.
Definition AAT_BOOL : Z := 4.

(** An instruction; the constructor cuts its arguments to their widths. *)
Record instruction := mkI { iop : SQOpcode; arg0 : Z; arg1 : Z; arg2 : Z; arg3 : Z }.
Definition instr (op : SQOpcode) (a0 a1 a2 a3 : Z) : instruction := mkI op (u8 a0) (s32 a1) (u8 a2) (u8 a3).
Definition set_op (x : SQOpcode) (i : instruction) : instruction := mkI x (arg0 i) (arg1 i) (arg2 i) (arg3 i).
Definition set_arg0 (x : Z) (i : instruction) : instruction := mkI (iop i) x (arg1 i) (arg2 i) (arg3 i).

(** ** The state *)

(** [SQLocalVarInfo] and [SQOuterVar], with objects of the heap. *)
Record local_info := mkVar { v_name : SQObject; v_start_op : Z; v_end_op : Z; v_pos : Z }.
Inductive SQOuterType := otLOCAL | otOUTER.
Record outer_info := mkFree { o_name : SQObject; o_src : Z; o_type : SQOuterType }.

Record SQFuncState := mkFS {
  _returnexp : Z;
  _vlocals : list local_info;
  _targetstack : list Z;
  _stacksize : Z;
  _varparams : bool;
  _bgenerator : bool;
  _unresolvedbreaks : list Z;
  _unresolvedcontinues : list Z;
  _functions : list SQFunctionProto;
  _parameters : list SQObject;
  _outervalues : list outer_info;
  _instructions : list instruction;
  _localvarinfos : list local_info;
  _literals : SQTable;
  _strings : SQTable;
  _name : SQObject;
  _sourcename : SQObject;
  _nliterals : Z;
  _lineinfos : list SQLineInfo;
  _breaktargets : list Z;
  _continuetargets : list Z;
  _defaultparams : list Z;
  _lastline : Z;
  _traps : Z;
  _outers : Z;
  _optimization : bool
}.

Definition with_returnexp x f := mkFS x (_vlocals f) (_targetstack f) (_stacksize f) (_varparams f) (_bgenerator f)
  (_unresolvedbreaks f) (_unresolvedcontinues f) (_functions f) (_parameters f) (_outervalues f) (_instructions f) (_localvarinfos f) (_literals f) (_strings f)
  (_name f) (_sourcename f) (_nliterals f) (_lineinfos f) (_breaktargets f) (_continuetargets f) (_defaultparams f) (_lastline f) (_traps f) (_outers f) (_optimization f).
Definition with_vlocals x f := mkFS (_returnexp f) x (_targetstack f) (_stacksize f) (_varparams f) (_bgenerator f)
  (_unresolvedbreaks f) (_unresolvedcontinues f) (_functions f) (_parameters f) (_outervalues f) (_instructions f) (_localvarinfos f) (_literals f) (_strings f)
  (_name f) (_sourcename f) (_nliterals f) (_lineinfos f) (_breaktargets f) (_continuetargets f) (_defaultparams f) (_lastline f) (_traps f) (_outers f) (_optimization f).
Definition with_targetstack x f := mkFS (_returnexp f) (_vlocals f) x (_stacksize f) (_varparams f) (_bgenerator f)
  (_unresolvedbreaks f) (_unresolvedcontinues f) (_functions f) (_parameters f) (_outervalues f) (_instructions f) (_localvarinfos f) (_literals f) (_strings f)
  (_name f) (_sourcename f) (_nliterals f) (_lineinfos f) (_breaktargets f) (_continuetargets f) (_defaultparams f) (_lastline f) (_traps f) (_outers f) (_optimization f).
Definition with_stacksize x f := mkFS (_returnexp f) (_vlocals f) (_targetstack f) x (_varparams f) (_bgenerator f)
  (_unresolvedbreaks f) (_unresolvedcontinues f) (_functions f) (_parameters f) (_outervalues f) (_instructions f) (_localvarinfos f) (_literals f) (_strings f)
  (_name f) (_sourcename f) (_nliterals f) (_lineinfos f) (_breaktargets f) (_continuetargets f) (_defaultparams f) (_lastline f) (_traps f) (_outers f) (_optimization f).
Definition with_varparams x f := mkFS (_returnexp f) (_vlocals f) (_targetstack f) (_stacksize f) x (_bgenerator f)
  (_unresolvedbreaks f) (_unresolvedcontinues f) (_functions f) (_parameters f) (_outervalues f) (_instructions f) (_localvarinfos f) (_literals f) (_strings f)
  (_name f) (_sourcename f) (_nliterals f) (_lineinfos f) (_breaktargets f) (_continuetargets f) (_defaultparams f) (_lastline f) (_traps f) (_outers f) (_optimization f).
Definition with_bgenerator x f := mkFS (_returnexp f) (_vlocals f) (_targetstack f) (_stacksize f) (_varparams f) x
  (_unresolvedbreaks f) (_unresolvedcontinues f) (_functions f) (_parameters f) (_outervalues f) (_instructions f) (_localvarinfos f) (_literals f) (_strings f)
  (_name f) (_sourcename f) (_nliterals f) (_lineinfos f) (_breaktargets f) (_continuetargets f) (_defaultparams f) (_lastline f) (_traps f) (_outers f) (_optimization f).
Definition with_unresolvedbreaks x f := mkFS (_returnexp f) (_vlocals f) (_targetstack f) (_stacksize f) (_varparams f) (_bgenerator f)
  x (_unresolvedcontinues f) (_functions f) (_parameters f) (_outervalues f) (_instructions f) (_localvarinfos f) (_literals f) (_strings f)
  (_name f) (_sourcename f) (_nliterals f) (_lineinfos f) (_breaktargets f) (_continuetargets f) (_defaultparams f) (_lastline f) (_traps f) (_outers f) (_optimization f).
Definition with_unresolvedcontinues x f := mkFS (_returnexp f) (_vlocals f) (_targetstack f) (_stacksize f) (_varparams f) (_bgenerator f)
  (_unresolvedbreaks f) x (_functions f) (_parameters f) (_outervalues f) (_instructions f) (_localvarinfos f) (_literals f) (_strings f)
  (_name f) (_sourcename f) (_nliterals f) (_lineinfos f) (_breaktargets f) (_continuetargets f) (_defaultparams f) (_lastline f) (_traps f) (_outers f) (_optimization f).
Definition with_functions x f := mkFS (_returnexp f) (_vlocals f) (_targetstack f) (_stacksize f) (_varparams f) (_bgenerator f)
  (_unresolvedbreaks f) (_unresolvedcontinues f) x (_parameters f) (_outervalues f) (_instructions f) (_localvarinfos f) (_literals f) (_strings f)
  (_name f) (_sourcename f) (_nliterals f) (_lineinfos f) (_breaktargets f) (_continuetargets f) (_defaultparams f) (_lastline f) (_traps f) (_outers f) (_optimization f).
Definition with_parameters x f := mkFS (_returnexp f) (_vlocals f) (_targetstack f) (_stacksize f) (_varparams f) (_bgenerator f)
  (_unresolvedbreaks f) (_unresolvedcontinues f) (_functions f) x (_outervalues f) (_instructions f) (_localvarinfos f) (_literals f) (_strings f)
  (_name f) (_sourcename f) (_nliterals f) (_lineinfos f) (_breaktargets f) (_continuetargets f) (_defaultparams f) (_lastline f) (_traps f) (_outers f) (_optimization f).
Definition with_outervalues x f := mkFS (_returnexp f) (_vlocals f) (_targetstack f) (_stacksize f) (_varparams f) (_bgenerator f)
  (_unresolvedbreaks f) (_unresolvedcontinues f) (_functions f) (_parameters f) x (_instructions f) (_localvarinfos f) (_literals f) (_strings f)
  (_name f) (_sourcename f) (_nliterals f) (_lineinfos f) (_breaktargets f) (_continuetargets f) (_defaultparams f) (_lastline f) (_traps f) (_outers f) (_optimization f).
Definition with_instructions x f := mkFS (_returnexp f) (_vlocals f) (_targetstack f) (_stacksize f) (_varparams f) (_bgenerator f)
  (_unresolvedbreaks f) (_unresolvedcontinues f) (_functions f) (_parameters f) (_outervalues f) x (_localvarinfos f) (_literals f) (_strings f)
  (_name f) (_sourcename f) (_nliterals f) (_lineinfos f) (_breaktargets f) (_continuetargets f) (_defaultparams f) (_lastline f) (_traps f) (_outers f) (_optimization f).
Definition with_localvarinfos x f := mkFS (_returnexp f) (_vlocals f) (_targetstack f) (_stacksize f) (_varparams f) (_bgenerator f)
  (_unresolvedbreaks f) (_unresolvedcontinues f) (_functions f) (_parameters f) (_outervalues f) (_instructions f) x (_literals f) (_strings f)
  (_name f) (_sourcename f) (_nliterals f) (_lineinfos f) (_breaktargets f) (_continuetargets f) (_defaultparams f) (_lastline f) (_traps f) (_outers f) (_optimization f).
Definition with_literals x f := mkFS (_returnexp f) (_vlocals f) (_targetstack f) (_stacksize f) (_varparams f) (_bgenerator f)
  (_unresolvedbreaks f) (_unresolvedcontinues f) (_functions f) (_parameters f) (_outervalues f) (_instructions f) (_localvarinfos f) x (_strings f)
  (_name f) (_sourcename f) (_nliterals f) (_lineinfos f) (_breaktargets f) (_continuetargets f) (_defaultparams f) (_lastline f) (_traps f) (_outers f) (_optimization f).
Definition with_strings x f := mkFS (_returnexp f) (_vlocals f) (_targetstack f) (_stacksize f) (_varparams f) (_bgenerator f)
  (_unresolvedbreaks f) (_unresolvedcontinues f) (_functions f) (_parameters f) (_outervalues f) (_instructions f) (_localvarinfos f) (_literals f) x
  (_name f) (_sourcename f) (_nliterals f) (_lineinfos f) (_breaktargets f) (_continuetargets f) (_defaultparams f) (_lastline f) (_traps f) (_outers f) (_optimization f).
Definition with_name x f := mkFS (_returnexp f) (_vlocals f) (_targetstack f) (_stacksize f) (_varparams f) (_bgenerator f)
  (_unresolvedbreaks f) (_unresolvedcontinues f) (_functions f) (_parameters f) (_outervalues f) (_instructions f) (_localvarinfos f) (_literals f) (_strings f)
  x (_sourcename f) (_nliterals f) (_lineinfos f) (_breaktargets f) (_continuetargets f) (_defaultparams f) (_lastline f) (_traps f) (_outers f) (_optimization f).
Definition with_sourcename x f := mkFS (_returnexp f) (_vlocals f) (_targetstack f) (_stacksize f) (_varparams f) (_bgenerator f)
  (_unresolvedbreaks f) (_unresolvedcontinues f) (_functions f) (_parameters f) (_outervalues f) (_instructions f) (_localvarinfos f) (_literals f) (_strings f)
  (_name f) x (_nliterals f) (_lineinfos f) (_breaktargets f) (_continuetargets f) (_defaultparams f) (_lastline f) (_traps f) (_outers f) (_optimization f).
Definition with_nliterals x f := mkFS (_returnexp f) (_vlocals f) (_targetstack f) (_stacksize f) (_varparams f) (_bgenerator f)
  (_unresolvedbreaks f) (_unresolvedcontinues f) (_functions f) (_parameters f) (_outervalues f) (_instructions f) (_localvarinfos f) (_literals f) (_strings f)
  (_name f) (_sourcename f) x (_lineinfos f) (_breaktargets f) (_continuetargets f) (_defaultparams f) (_lastline f) (_traps f) (_outers f) (_optimization f).
Definition with_lineinfos x f := mkFS (_returnexp f) (_vlocals f) (_targetstack f) (_stacksize f) (_varparams f) (_bgenerator f)
  (_unresolvedbreaks f) (_unresolvedcontinues f) (_functions f) (_parameters f) (_outervalues f) (_instructions f) (_localvarinfos f) (_literals f) (_strings f)
  (_name f) (_sourcename f) (_nliterals f) x (_breaktargets f) (_continuetargets f) (_defaultparams f) (_lastline f) (_traps f) (_outers f) (_optimization f).
Definition with_breaktargets x f := mkFS (_returnexp f) (_vlocals f) (_targetstack f) (_stacksize f) (_varparams f) (_bgenerator f)
  (_unresolvedbreaks f) (_unresolvedcontinues f) (_functions f) (_parameters f) (_outervalues f) (_instructions f) (_localvarinfos f) (_literals f) (_strings f)
  (_name f) (_sourcename f) (_nliterals f) (_lineinfos f) x (_continuetargets f) (_defaultparams f) (_lastline f) (_traps f) (_outers f) (_optimization f).
Definition with_continuetargets x f := mkFS (_returnexp f) (_vlocals f) (_targetstack f) (_stacksize f) (_varparams f) (_bgenerator f)
  (_unresolvedbreaks f) (_unresolvedcontinues f) (_functions f) (_parameters f) (_outervalues f) (_instructions f) (_localvarinfos f) (_literals f) (_strings f)
  (_name f) (_sourcename f) (_nliterals f) (_lineinfos f) (_breaktargets f) x (_defaultparams f) (_lastline f) (_traps f) (_outers f) (_optimization f).
Definition with_defaultparams x f := mkFS (_returnexp f) (_vlocals f) (_targetstack f) (_stacksize f) (_varparams f) (_bgenerator f)
  (_unresolvedbreaks f) (_unresolvedcontinues f) (_functions f) (_parameters f) (_outervalues f) (_instructions f) (_localvarinfos f) (_literals f) (_strings f)
  (_name f) (_sourcename f) (_nliterals f) (_lineinfos f) (_breaktargets f) (_continuetargets f) x (_lastline f) (_traps f) (_outers f) (_optimization f).
Definition with_lastline x f := mkFS (_returnexp f) (_vlocals f) (_targetstack f) (_stacksize f) (_varparams f) (_bgenerator f)
  (_unresolvedbreaks f) (_unresolvedcontinues f) (_functions f) (_parameters f) (_outervalues f) (_instructions f) (_localvarinfos f) (_literals f) (_strings f)
  (_name f) (_sourcename f) (_nliterals f) (_lineinfos f) (_breaktargets f) (_continuetargets f) (_defaultparams f) x (_traps f) (_outers f) (_optimization f).
Definition with_traps x f := mkFS (_returnexp f) (_vlocals f) (_targetstack f) (_stacksize f) (_varparams f) (_bgenerator f)
  (_unresolvedbreaks f) (_unresolvedcontinues f) (_functions f) (_parameters f) (_outervalues f) (_instructions f) (_localvarinfos f) (_literals f) (_strings f)
  (_name f) (_sourcename f) (_nliterals f) (_lineinfos f) (_breaktargets f) (_continuetargets f) (_defaultparams f) (_lastline f) x (_outers f) (_optimization f).
Definition with_outers x f := mkFS (_returnexp f) (_vlocals f) (_targetstack f) (_stacksize f) (_varparams f) (_bgenerator f)
  (_unresolvedbreaks f) (_unresolvedcontinues f) (_functions f) (_parameters f) (_outervalues f) (_instructions f) (_localvarinfos f) (_literals f) (_strings f)
  (_name f) (_sourcename f) (_nliterals f) (_lineinfos f) (_breaktargets f) (_continuetargets f) (_defaultparams f) (_lastline f) (_traps f) x (_optimization f).
Definition with_optimization x f := mkFS (_returnexp f) (_vlocals f) (_targetstack f) (_stacksize f) (_varparams f) (_bgenerator f)
  (_unresolvedbreaks f) (_unresolvedcontinues f) (_functions f) (_parameters f) (_outervalues f) (_instructions f) (_localvarinfos f) (_literals f) (_strings f)
  (_name f) (_sourcename f) (_nliterals f) (_lineinfos f) (_breaktargets f) (_continuetargets f) (_defaultparams f) (_lastline f) (_traps f) (_outers f) x.

Definition new_local : local_info := mkVar sq_null 0 0 0.

(** ** Vectors *)

Section vectors.
Context {A : Type}.

(** [operator[]], [back] and [pop_back], which do not check. *)
Definition at_z (l : list A) (i : Z) : res A := if i <? 0 then Err OutOfBounds else expect OutOfBounds (l !! Z.to_nat i).
Definition put_z (l : list A) (i : Z) (x : A) : res (list A) :=
  if i <? 0 then Err OutOfBounds else if decide (Z.to_nat i < length l)%nat then Ok (<[Z.to_nat i := x]> l) else Err OutOfBounds.
Definition back (l : list A) : res A := expect OutOfBounds (last l).
Definition pop_back (l : list A) : res (list A) := match l with [] => Err OutOfBounds | _ => Ok (removelast l) end.
Definition vsize (l : list A) : Z := Z.of_nat (length l).
End vectors.

(** ** Registers *)

Definition fsM : Type → Type := stM SQFuncState.

(** [Error] calls the compiler's, which does not return. *)
Definition Error {A} (err : string) : fsM A := raise (Raised err).

(** [SQFuncState::SQFuncState] *)
Definition new_funcstate : res SQFuncState :=
  literals ← SqTable.Create 0;
  strings ← SqTable.Create 0;
  Ok (mkFS 0 [] [] 0 false false [] [] [] [] [] [] [] literals strings sq_null sq_null 0 [] [] [] [] 0 0 0 true).

Definition GetCurrentPos : fsM Z := gets (λ f, vsize (_instructions f) - 1).
Definition GetStackSize : fsM Z := gets (λ f, vsize (_vlocals f)).

Definition AllocStackPos : fsM Z :=
  f ← gets id;
  let npos := vsize (_vlocals f) in
  let vlocals := _vlocals f ++ [new_local] in
  modify (with_vlocals vlocals);;
  when (_stacksize f <? vsize vlocals)
    (when (MAX_FUNC_STACKSIZE <? _stacksize f) (Error "internal compiler error: too many locals");;
     modify (with_stacksize (vsize vlocals)));;
  mret npos.

Definition push_target (n : Z) : fsM () := modify (λ f, with_targetstack (_targetstack f ++ [n]) f).

(** [PushTarget(n)], [PushTarget()] *)
Definition PushTarget (n : Z) : fsM Z :=
  if n =? -1 then n ← AllocStackPos; push_target n;; mret n
  else push_target n;; mret n.
Definition NewTarget : fsM Z := PushTarget (-1).

Definition GetUpTarget (n : Z) : fsM Z := f ← gets id; lift (at_z (_targetstack f) (vsize (_targetstack f) - 1 - n)).
Definition TopTarget : fsM Z := f ← gets id; lift (back (_targetstack f)).

Definition PopTarget : fsM Z :=
  f ← gets id;
  npos ← lift (back (_targetstack f));
  if negb ((0 <=? npos) && (npos <? vsize (_vlocals f))) then raise AssertFail else
  t ← lift (at_z (_vlocals f) npos);
  when (is_null (v_name t)) (vlocals ← lift (pop_back (_vlocals f)); modify (with_vlocals vlocals));;
  targets ← lift (pop_back (_targetstack f));
  modify (with_targetstack targets);;
  mret npos.

(** [CountOuters]: how many of the variables from [stacksize] on are used by
    inner functions. *)
Definition is_outer (v : local_info) : bool := v_end_op v =? UINT_MINUS_ONE.
Definition CountOuters (stacksize : Z) : fsM Z :=
  gets (λ f, vsize (filter is_outer (drop (Z.to_nat stacksize) (_vlocals f)))).

(** [SetStackSize]: each variable that goes is recorded with the instructions
    it was there for. *)
Definition drop_local : fsM () :=
  f ← gets id;
  lvi ← lift (back (_vlocals f));
  when (negb (is_null (v_name lvi)))
    (when (is_outer lvi) (modify (with_outers (_outers f - 1)));;
     pos ← GetCurrentPos;
     modify (λ f, with_localvarinfos (_localvarinfos f ++ [mkVar (v_name lvi) (v_start_op lvi) (u32 pos) (v_pos lvi)]) f));;
  vlocals ← lift (pop_back (_vlocals f));
  modify (with_vlocals vlocals).
Fixpoint drop_locals (k : nat) : fsM () := match k with O => mret () | S k' => drop_local;; drop_locals k' end.
Definition SetStackSize (n : Z) : fsM () := size ← GetStackSize; drop_locals (Z.to_nat (size - n)).

Definition is_local (vlocals : list local_info) (stkpos : Z) : bool :=
  match vlocals !! Z.to_nat stkpos with Some v => negb (is_null (v_name v)) | None => false end.
Definition IsLocal (stkpos : Z) : fsM bool := gets (λ f, is_local (_vlocals f) stkpos).

Definition PushLocalVariable (name : SQObject) : fsM Z :=
  f ← gets id;
  let pos := vsize (_vlocals f) in
  op ← GetCurrentPos;
  let vlocals := _vlocals f ++ [mkVar name (op + 1) 0 pos] in
  modify (with_vlocals vlocals);;
  when (_stacksize f <? vsize vlocals) (modify (with_stacksize (vsize vlocals)));;
  mret pos.

(** The innermost variable of the name, the last in the list. *)
Definition is_named (name : SQObject) (v : local_info) : bool :=
  bool_decide (_type (v_name v) = OT_STRING) && (_unVal (v_name v) =? _unVal name).
Fixpoint local_search (name : SQObject) (k : nat) (vlocals : list local_info) : Z :=
  match k with
  | O => -1
  | S k' =>
      match vlocals !! k' with
      | Some lvi => if is_named name lvi then Z.of_nat k' else local_search name k' vlocals
      | None => -1
      end
  end.
Definition GetLocalVariable (name : SQObject) (f : SQFuncState) : Z := local_search name (length (_vlocals f)) (_vlocals f).

Definition MarkLocalAsOuter (pos : Z) : fsM () :=
  f ← gets id;
  lvi ← lift (at_z (_vlocals f) pos);
  vlocals ← lift (put_z (_vlocals f) pos (mkVar (v_name lvi) (v_start_op lvi) UINT_MINUS_ONE (v_pos lvi)));
  modify (with_vlocals vlocals);;
  modify (with_outers (_outers f + 1)).

(** [GetOuterVariable], in a function with the enclosing functions [parents] *)
Definition outer_index (name : SQObject) (f : SQFuncState) : option nat :=
  fst <$> list_find (λ o, _unVal (o_name o) = _unVal name) (_outervalues f).
Definition add_outer (name : SQObject) (src : Z) (t : SQOuterType) (f : SQFuncState) : Z * SQFuncState :=
  (vsize (_outervalues f), with_outervalues (_outervalues f ++ [mkFree name src t]) f).
Fixpoint GetOuterVariable (name : SQObject) (f : SQFuncState) (parents : list SQFuncState)
    : res (Z * SQFuncState * list SQFuncState) :=
  match outer_index name f with
  | Some i => Ok (Z.of_nat i, f, parents)
  | None =>
      match parents with
      | [] => Ok (-1, f, [])
      | p :: ps =>
          let pos := GetLocalVariable name p in
          if pos =? -1 then
            '(pos, p, ps) ← GetOuterVariable name p ps;
            if pos =? -1 then Ok (-1, f, p :: ps)
            else let '(i, f) := add_outer name pos otOUTER f in Ok (i, f, p :: ps)
          else
            '(_, p) ← MarkLocalAsOuter pos p;
            let '(i, f) := add_outer name pos otLOCAL f in Ok (i, f, p :: ps)
      end
  end.

Definition AddParameter (name : SQObject) : fsM () :=
  PushLocalVariable name;; modify (λ f, with_parameters (_parameters f ++ [name]) f).
Definition AddDefaultParam (trg : Z) : fsM () := modify (λ f, with_defaultparams (_defaultparams f ++ [trg]) f).

(** ** Instructions *)

(** [GetInstruction], [SetInstructionParams], [SetInstructionParam] *)
Definition GetInstruction (pos : Z) : fsM instruction := f ← gets id; lift (at_z (_instructions f) pos).
Definition put_instruction (pos : Z) (i : instruction) : fsM () :=
  f ← gets id; l ← lift (put_z (_instructions f) pos i); modify (with_instructions l).
Definition SetInstructionParams (pos a0 a1 a2 a3 : Z) : fsM () :=
  i ← GetInstruction pos; put_instruction pos (instr (iop i) a0 a1 a2 a3).
Definition SetInstructionParam (pos arg val : Z) : fsM () :=
  i ← GetInstruction pos;
  put_instruction pos
    (if arg =? 0 then mkI (iop i) (u8 val) (arg1 i) (arg2 i) (arg3 i)
     else if (arg =? 1) || (arg =? 4) then mkI (iop i) (arg0 i) (s32 val) (arg2 i) (arg3 i)
     else if arg =? 2 then mkI (iop i) (arg0 i) (arg1 i) (u8 val) (arg3 i)
     else if arg =? 3 then mkI (iop i) (arg0 i) (arg1 i) (arg2 i) (u8 val)
     else i).
Fixpoint PopInstructions (size : nat) : fsM () :=
  match size with
  | O => mret ()
  | S size' => f ← gets id; l ← lift (pop_back (_instructions f)); modify (with_instructions l);; PopInstructions size'
  end.
Definition SnoozeOpt : fsM () := modify (with_optimization false).

(** What becomes of the previous instruction [pi] and of the new one [i]: both are kept,
    [i] perhaps with another target; one instruction takes the place of both; the
    same, and the next one is not looked at; a mark of a line replaces the one
    before. *)
Inductive improved :=
  | Keep (pi i : instruction)
  | Fuse (pi : instruction)
  | Redirect (pi : instruction)
  | Relined.

Definition append_type (o : SQOpcode) : option Z :=
  match o with
  | _OP_LOAD => Some AAT_LITERAL
  | _OP_LOADINT => Some AAT_INT
  | _OP_LOADBOOL => Some AAT_BOOL
  | _OP_LOADFLOAT => Some AAT_FLOAT
  | _ => None
  end.

(** Instructions whose target [_OP_MOVE] can replace. *)
Definition has_target (o : SQOpcode) : bool :=
  match o with
  | _OP_GET | _OP_ADD | _OP_SUB | _OP_MUL | _OP_DIV | _OP_MOD | _OP_BITW | _OP_LOADINT | _OP_LOADFLOAT | _OP_LOADBOOL | _OP_LOAD => true
  | _ => false
  end.

(** The cases of [AddInstruction]; [nested] is whether the function has a parent,
    [size] the number of instructions. *)
Definition improve (nested : bool) (f : SQFuncState) (size : Z) (pi i : instruction) : improved :=
  let free r := negb (is_local (_vlocals f) r) in
  match iop i with
  | _OP_JZ =>
      if bool_decide (iop pi = _OP_CMP) && (arg1 pi <? 0xFF) then Fuse (mkI _OP_JCMP (u8 (arg1 pi)) (arg1 i) (arg2 pi) (arg3 pi))
      else Keep pi i
  | _OP_SET | _OP_NEWSLOT => Keep pi (if arg0 i =? arg3 i then set_arg0 0xFF i else i)
  | _OP_SETOUTER => Keep pi (if arg0 i =? arg2 i then set_arg0 0xFF i else i)
  | _OP_RETURN =>
      if nested && negb (arg0 i =? MAX_FUNC_STACKSIZE) && bool_decide (iop pi = _OP_CALL) && (_returnexp f <? size - 1)
      then Keep (set_op _OP_TAILCALL pi) i
      else if bool_decide (iop pi = _OP_CLOSE) then Fuse i else Keep pi i
  | _OP_GET =>
      if bool_decide (iop pi = _OP_LOAD) && (arg0 pi =? arg2 i) && free (arg0 pi) then Fuse (mkI _OP_GETK (arg0 i) (arg1 pi) (u8 (arg1 i)) (arg3 pi))
      else Keep pi i
  | _OP_PREPCALL =>
      if bool_decide (iop pi = _OP_LOAD) && (arg0 pi =? arg1 i) && free (arg0 pi) then Fuse (mkI _OP_PREPCALLK (arg0 i) (arg1 pi) (arg2 i) (arg3 i))
      else Keep pi i
  | _OP_APPENDARRAY =>
      match append_type (iop pi) with
      | Some aat =>
          if (arg0 pi =? arg1 i) && free (arg0 pi) then Fuse (mkI _OP_APPENDARRAY (arg0 i) (arg1 pi) (u8 aat) MAX_FUNC_STACKSIZE)
          else Keep pi i
      | None => Keep pi i
      end
  | _OP_MOVE =>
      if has_target (iop pi) && (arg0 pi =? arg1 i) then Redirect (set_arg0 (arg0 i) pi)
      else if bool_decide (iop pi = _OP_MOVE) then Fuse (mkI _OP_DMOVE (arg0 pi) (arg1 pi) (arg0 i) (u8 (arg1 i)))
      else Keep pi i
  | _OP_LOAD =>
      if bool_decide (iop pi = _OP_LOAD) && (arg1 i <? 256) then Fuse (mkI _OP_DLOAD (arg0 pi) (arg1 pi) (arg0 i) (u8 (arg1 i)))
      else Keep pi i
  | _OP_EQ | _OP_NE =>
      if bool_decide (iop pi = _OP_LOAD) && (arg0 pi =? arg1 i) && free (arg0 pi)
      then Fuse (mkI (iop i) (arg0 i) (arg1 pi) (arg2 i) MAX_FUNC_STACKSIZE)
      else Keep pi i
  | _OP_LOADNULLS =>
      if bool_decide (iop pi = _OP_LOADNULLS) && (arg0 pi + arg1 pi =? arg0 i) then Fuse (mkI _OP_LOADNULLS (arg0 pi) (s32 (arg1 pi + 1)) (arg2 pi) (arg3 pi))
      else Keep pi i
  | _OP_LINE => if bool_decide (iop pi = _OP_LINE) then Relined else Keep pi i
  | _ => Keep pi i
  end.

(** [AddInstruction] *)
Definition add_instruction (nested : bool) (i : instruction) : fsM () :=
  f ← gets id;
  let size := vsize (_instructions f) in
  match last (_instructions f) with
  | Some pi =>
      if _optimization f then
        let l := removelast (_instructions f) in
        match improve nested f size pi i with
        | Keep pi i => modify (λ f, with_optimization true (with_instructions (l ++ [pi; i]) f))
        | Fuse pi => modify (with_instructions (l ++ [pi]))
        | Redirect pi => modify (λ f, with_optimization false (with_instructions (l ++ [pi]) f))
        | Relined =>
            lineinfos ← lift (pop_back (_lineinfos f));
            modify (λ f, with_optimization true (with_instructions (l ++ [i]) (with_lineinfos lineinfos f)))
        end
      else modify (λ f, with_optimization true (with_instructions (_instructions f ++ [i]) f))
  | None => modify (λ f, with_optimization true (with_instructions (_instructions f ++ [i]) f))
  end.
Definition AddInstruction (nested : bool) (op : SQOpcode) (a0 a1 a2 a3 : Z) : fsM () := add_instruction nested (instr op a0 a1 a2 a3).

Definition AddLineInfos (nested : bool) (line : Z) (lineop force : bool) : fsM () :=
  f ← gets id;
  when (negb (_lastline f =? line) || force)
    (pos ← GetCurrentPos;
     when lineop (AddInstruction nested _OP_LINE 0 line 0 0);;
     when (negb (_lastline f =? line)) (modify (λ f, with_lineinfos (_lineinfos f ++ [mkLine line (pos + 1)]) f));;
     modify (with_lastline line)).

(** An instruction that need not store its result. *)
Definition discards (o : SQOpcode) : bool := match o with _OP_SET | _OP_NEWSLOT | _OP_SETOUTER | _OP_CALL => true | _ => false end.
Definition DiscardTarget : fsM () :=
  discardedtarget ← PopTarget;
  f ← gets id;
  match last (_instructions f) with
  | Some pi =>
      when (_optimization f && discards (iop pi) && (arg0 pi =? discardedtarget))
        (modify (with_instructions (removelast (_instructions f) ++ [set_arg0 0xFF pi])))
  | None => mret ()
  end.

(** ** Literals *)

Section literals.
Context `{SQHeap}.

Definition GetConstant (cons : SQObject) : fsM Z :=
  f ← gets id;
  r ← lift (SqTable.Get (_literals f) cons);
  match r with
  | Some val => mret (_integer val)
  | None =>
      let val := sq_int (_nliterals f) in
      '(t, _) ← lift (SqTable.NewSlot table_fuel (_literals f) cons val);
      let n := s32 (_nliterals f + 1) in
      modify (λ f, with_nliterals n (with_literals t f));;
      if MAX_LITERALS <? n then Error "internal compiler error: too many literals" else mret (_integer val)
  end.

(** The loop of [BuildProto] over the table of literals *)
Fixpoint literals_loop (fuel : nat) (t : SQTable) (refidx : SQObject) (literals : list SQObject) : res (list SQObject) :=
  match fuel with
  | O => Err OutOfFuel
  | S fuel' =>
      r ← SqTable.Next false t refidx;
      match r with
      | Some (idx, key, val) => literals ← put_z literals (_integer val) key; literals_loop fuel' t (sq_int idx) literals
      | None => Ok literals
      end
  end.
Definition build_literals (f : SQFuncState) : res (list SQObject) :=
  literals_loop (S (length (_nodes (_literals f)))) (_literals f) sq_null (replicate (Z.to_nat (_nliterals f)) sq_null).

(** The objects of a prototype. *)
Definition object_of (o : SQObject) : object :=
  match _type o with
  | OT_NULL => ONull
  | OT_INTEGER => OInteger (_integer o)
  | OT_FLOAT => OFloat (_unVal o)
  | OT_BOOL => OBool (_integer o)
  | OT_STRING => OString (char_code <$> string_val (_unVal o))
  | t => OOther t
  end.
Definition local_of (v : local_info) : SQLocalVarInfo := mkLocal (object_of (v_name v)) (v_start_op v) (v_end_op v) (v_pos v).
Definition outer_of (o : outer_info) : SQOuterVar :=
  mkOuter (match o_type o with otLOCAL => 0 | otOUTER => 1 end) (object_of (o_name o)) (OInteger (o_src o)).
Definition instruction_in (i : instruction) : SQInstruction := mkInstr (arg1 i) (opcode (iop i)) (arg0 i) (arg2 i) (arg3 i).

(** [BuildProto]; the block of the prototype is laid out by [SqProto.Create]. *)
Definition BuildProto (f : SQFuncState) : res SQFunctionProto :=
  _ ← SqProto.Create (vsize (_instructions f)) (_nliterals f) (vsize (_parameters f)) (vsize (_functions f))
        (vsize (_outervalues f)) (vsize (_lineinfos f)) (vsize (_localvarinfos f)) (vsize (_defaultparams f));
  literals ← build_literals f;
  Ok (mkProto (object_of (_sourcename f)) (object_of (_name f)) (_stacksize f) (_bgenerator f) (if _varparams f then 1 else 0)
        (local_of <$> _localvarinfos f) (_lineinfos f) (object_of <$> literals) (object_of <$> _parameters f) (_functions f)
        (outer_of <$> _outervalues f) (_defaultparams f) (instruction_in <$> _instructions f)).
End literals.

(** [CreateString], with the table of strings of the shared state *)
Definition CreateString `{Allocator} (s : list ascii) (len : Z) (st : SQStringTable) (f : SQFuncState) : res (SQObject * SQStringTable * SQFuncState) :=
  '(st, a) ← SqString.Add st s len;
  let ns := string_key a in
  '(t, _) ← @SqTable.NewSlot (heap_of st) table_fuel (_strings f) ns (sq_int 1);
  Ok (ns, st, with_strings t f).
