(* ===== verification/SqCompiler.v ===== *)
(** * The compiler

    [SQCompiler] (sqcompiler.cpp) reads tokens and emits instructions as it goes;
    there is no syntax tree.  Each function of the class is a definition over the
    state of the compiler: the current token, the lexer, the state of the function
    that is compiled ([SqFuncState]), those of the functions around it, what kind
    of expression was read last, and the scope.

    The functions call each other, and most of them loop.  They are written over
    a parameter [rec] that runs a [nonterminal], a function or one of its loops;
    [parse] closes the recursion, with fuel.  Where C++ leaves the order open in
    which arguments are evaluated, it is the one they are written in. *)

From Stdlib Require Import Ascii.
From stdpp Require Import base numbers gmap strings option list.
From S2P Require Import Prelude CType SqObject SqTable SqString SqProto SqLexer SqKeywords SqFuncState.

Open Scope Z_scope.

(** ** Tokens *)

Definition TK_BASE : Z := 262.
Definition TK_DELETE : Z := 263.
Definition TK_SWITCH : Z := 268.
Definition TK_IF : Z := 272.
Definition TK_ELSE : Z := 273.
Definition TK_WHILE : Z := 274.
Definition TK_BREAK : Z := 275.
Definition TK_FOR : Z := 276.
Definition TK_DO : Z := 277.
Definition TK_NULL : Z := 278.
Definition TK_FOREACH : Z := 279.
Definition TK_IN : Z := 280.
Definition TK_LOCAL : Z := 283.
Definition TK_CLONE : Z := 284.
Definition TK_FUNCTION : Z := 285.
Definition TK_RETURN : Z := 286.
Definition TK_TYPEOF : Z := 287.
Definition TK_CONTINUE : Z := 291.
Definition TK_YIELD : Z := 292.
Definition TK_TRY : Z := 293.
Definition TK_CATCH : Z := 294.
Definition TK_THROW : Z := 295.
Definition TK_RESUME : Z := 298.
Definition TK_CASE : Z := 300.
Definition TK_DEFAULT : Z := 301.
Definition TK_THIS : Z := 302.
Definition TK_CLASS : Z := 307.
Definition TK_EXTENDS : Z := 308.
Definition TK_INSTANCEOF : Z := 311.
Definition TK___LINE__ : Z := 313.
Definition TK___FILE__ : Z := 314.
Definition TK_TRUE : Z := 315.
Definition TK_FALSE : Z := 316.
Definition TK_STATIC : Z := 322.
Definition TK_ENUM : Z := 323.
Definition TK_CONST : Z := 324.
Definition TK_RAWCALL : Z := 325.

Definition ch (c : ascii) : Z := char_code c.

(** A [switch] over tokens *)
Fixpoint switch {A} (t : Z) (cases : list (Z * A)) (d : A) : A :=
  match cases with
  | [] => d
  | (k, a) :: cases' => if t =? k then a else switch t cases' d
  end.

(** ** State *)

(** [EXPR], [OBJECT], [BASE], [LOCAL], [OUTER] *)
Inductive exptype := EXPR | OBJECT | BASE | LOCAL | OUTER.
#[export] Instance exptype_eq_dec : EqDecision exptype.
Proof. solve_decision. Defined.

Record SQExpState := mkExp { etype : exptype; epos : Z; donot_get : bool }.
Record SQScope := mkScope { outers : Z; stacksize : Z }.

(** [_parents] are the functions around the one of [_fs]; [_childstates] those that
    were made and are not yet compiled; [_strtable], [_consts] and [_tables] belong
    to the shared state. *)
Record SQCompiler := mkCompiler {
  _token : Z;
  _lex : SQLexer;
  _fs : SQFuncState;
  _parents : list SQFuncState;
  _childstates : list SQFuncState;
  _es : SQExpState;
  _scope : SQScope;
  _strtable : SQStringTable;
  _consts : SQTable;
  _tables : gmap Z SQTable
}.
Definition with_token t c := mkCompiler t (_lex c) (_fs c) (_parents c) (_childstates c) (_es c) (_scope c) (_strtable c) (_consts c) (_tables c).
Definition with_lex l c := mkCompiler (_token c) l (_fs c) (_parents c) (_childstates c) (_es c) (_scope c) (_strtable c) (_consts c) (_tables c).
Definition with_fs f c := mkCompiler (_token c) (_lex c) f (_parents c) (_childstates c) (_es c) (_scope c) (_strtable c) (_consts c) (_tables c).
Definition with_parents ps c := mkCompiler (_token c) (_lex c) (_fs c) ps (_childstates c) (_es c) (_scope c) (_strtable c) (_consts c) (_tables c).
Definition with_childstates cs c := mkCompiler (_token c) (_lex c) (_fs c) (_parents c) cs (_es c) (_scope c) (_strtable c) (_consts c) (_tables c).
Definition with_es e c := mkCompiler (_token c) (_lex c) (_fs c) (_parents c) (_childstates c) e (_scope c) (_strtable c) (_consts c) (_tables c).
Definition with_scope s c := mkCompiler (_token c) (_lex c) (_fs c) (_parents c) (_childstates c) (_es c) s (_strtable c) (_consts c) (_tables c).
Definition with_strtable s c := mkCompiler (_token c) (_lex c) (_fs c) (_parents c) (_childstates c) (_es c) (_scope c) s (_consts c) (_tables c).
Definition with_consts t c := mkCompiler (_token c) (_lex c) (_fs c) (_parents c) (_childstates c) (_es c) (_scope c) (_strtable c) t (_tables c).
Definition with_tables m c := mkCompiler (_token c) (_lex c) (_fs c) (_parents c) (_childstates c) (_es c) (_scope c) (_strtable c) (_consts c) m.

Definition cM : Type → Type := stM SQCompiler.

(** [Error] leaves [Compile] with the message, cut to the buffer for it. *)
Definition MAX_COMPILER_ERROR_LEN : nat := 256.
Definition Error {A} (s : string) : cM A := raise (Raised (String.substring 0 (MAX_COMPILER_ERROR_LEN - 1) s)).

(** An operation of the function that is compiled, or of the one to be. *)
Definition fs {A} (m : fsM A) : cM A := λ c,
  match m (_fs c) with Ok (a, f) => Ok (a, with_fs f c) | Err e => Err e end.
Definition child {A} (m : fsM A) : cM A := λ c,
  match _childstates c with
  | [] => Err OutOfBounds
  | f :: cs => match m f with Ok (a, f) => Ok (a, with_childstates (f :: cs) c) | Err e => Err e end
  end.
Definition nested : cM bool := gets (λ c, negb (bool_decide (_parents c = []))).
Definition emit (op : SQOpcode) (a0 a1 a2 a3 : Z) : cM () := b ← nested; fs (AddInstruction b op a0 a1 a2 a3).
Definition add_literal (o : SQObject) : cM Z := h ← gets (λ c, heap_of (_strtable c)); fs (@GetConstant h o).

Definition get_etype : cM exptype := gets (λ c, etype (_es c)).
Definition set_etype (t : exptype) : cM () := modify (λ c, with_es (mkExp t (epos (_es c)) (donot_get (_es c))) c).
Definition set_epos (p : Z) : cM () := modify (λ c, with_es (mkExp (etype (_es c)) p (donot_get (_es c))) c).
Definition set_donot_get (b : bool) : cM () := modify (λ c, with_es (mkExp (etype (_es c)) (epos (_es c)) b) c).
Definition token : cM Z := gets _token.

Inductive nonterminal :=
  | NStatement (closeframe : bool) | NStatements
  | NCommaExpr | NCommaRest | NExpression | NLogicalOrExp | NLogicalAndExp | NLogicalAndRest
  | NBitwiseOrExp | NBitwiseOrRest | NBitwiseXorExp | NBitwiseXorRest | NBitwiseAndExp | NBitwiseAndRest
  | NEqExp | NEqRest | NCompExp | NCompRest | NShiftExp | NShiftRest | NPlusExp | NPlusRest | NMultExp | NMultRest
  | NPrefixedExpr | NPrefixedRest | NFactor
  | NArrayRest (apos key : Z) | NCallArgs (rawcall : bool) (nargs : Z)
  | NTableOrClass (separator terminator : Z) | NTableRest (separator terminator tpos nkeys : Z)
  | NLocalDecl | NIfBlock | NCases (expr : Z) (bfirst : bool) (tonextcondjmp skipcondjmp nbreaks : Z)
  | NQualified (id : SQObject) | NEnumRest (id : SQObject) (table nval : Z)
  | NFunctionExp (ftype : Z) (lambda : bool) | NClassExp
  | NCreateFunction (name : SQObject) (lambda : bool) | NParams (lambda : bool) (defparams : Z)
  | NFunctionBody (lambda : bool) (defparams : Z).

Section compiler.
Context {KT : KeywordTable} {FR : FloatReader} `{Allocator}.
Context (_sourcename : SQObject) (_lineinfo : bool).

(** ** Reading tokens *)

Definition Lex : cM () := λ c,
  match SqLexer.Lex (_lex c) with Ok (t, l) => Ok ((), with_token t (with_lex l c)) | Err e => Err e end.

(** [_lex._svalue], and [CreateString] of it or of other characters *)
Definition svalue : cM (list ascii) :=
  l ← gets _lex; if _svalue l then mret (_longstr l) else raise OutOfBounds.
Definition create_string (s : list ascii) (len : Z) : cM SQObject := λ c,
  match CreateString s len (_strtable c) (_fs c) with
  | Ok (o, st, f) => Ok (o, with_fs f (with_strtable st c))
  | Err e => Err e
  end.
Definition shared_string (s : string) : cM SQObject := λ c,
  '(st, a) ← SqString.Add (_strtable c) (String.list_ascii_of_string s ++ [Ascii.zero]) (-1);
  Ok (string_key a, with_strtable st c).
Definition name_string (s : string) : cM SQObject := create_string (String.list_ascii_of_string s ++ [Ascii.zero]) (-1).
Definition identifier_string : cM SQObject := s ← svalue; create_string s (-1).
Definition literal_string : cM SQObject := s ← svalue; l ← gets _lex; create_string s (vsize (_longstr l) - 1).

(** The name of a token in a message; [Tok2Str] is NULL for tokens that are not
    keywords, which the C library prints as [(null)]. *)
Definition Tok2Str (tok : Z) : string :=
  match list_find (λ kw, kw.2 = tok) keywords with Some (_, kw) => kw.1 | None => "(null)" end.
Definition token_name (tok : Z) : string :=
  switch tok [(TK_IDENTIFIER, "IDENTIFIER"); (TK_STRING_LITERAL, "STRING_LITERAL"); (TK_INTEGER, "INTEGER"); (TK_FLOAT, "FLOAT")]%string
    (if 255 <? tok then Tok2Str tok else String.String (code_char tok) String.EmptyString).

Definition Expect (tok : Z) : cM SQObject :=
  t ← token;
  when (negb (t =? tok) && negb ((t =? TK_CONSTRUCTOR) && (tok =? TK_IDENTIFIER)))
    (Error ("expected '" ++ token_name tok ++ "'")%string);;
  ret ← switch tok
    [(TK_IDENTIFIER, identifier_string);
     (TK_STRING_LITERAL, literal_string);
     (TK_INTEGER, gets (λ c, sq_int (_nvalue (_lex c))));
     (TK_FLOAT, gets (λ c, mkObj OT_FLOAT (_fvalue (_lex c))))]
    (mret sq_null);
  Lex;;
  mret ret.
Definition expect_ (tok : Z) : cM () := Expect tok;; mret ().

Definition IsEndOfStatement : cM bool :=
  gets (λ c, (_prevtoken (_lex c) =? ch "010") || (_token c =? SQUIRREL_EOB) || (_token c =? ch "}") || (_token c =? ch ";")).
Definition OptionalSemicolon : cM () :=
  t ← token;
  if t =? ch ";" then Lex
  else e ← IsEndOfStatement; when (negb e) (Error "end of statement expected (; or lf)").
(** [if(_lex._prevtoken != '}' && _lex._prevtoken != ';') OptionalSemicolon()] *)
Definition after_statement : cM () :=
  p ← gets (λ c, _prevtoken (_lex c)); when (negb (p =? ch "}") && negb (p =? ch ";")) OptionalSemicolon.

(** ** Scopes *)

(** [BEGIN_SCOPE], which gives the old scope back; [RESOLVE_OUTERS],
    [END_SCOPE_NO_CLOSE], [END_SCOPE] *)
Definition BEGIN_SCOPE : cM SQScope :=
  old ← gets _scope;
  n ← fs GetStackSize;
  o ← gets (λ c, _outers (_fs c));
  modify (with_scope (mkScope o n));;
  mret old.
Definition RESOLVE_OUTERS : cM () :=
  sc ← gets _scope;
  n ← fs GetStackSize;
  when (negb (n =? stacksize sc)) (k ← fs (CountOuters (stacksize sc)); when (negb (k =? 0)) (emit _OP_CLOSE 0 (stacksize sc) 0 0)).
Definition END_SCOPE_NO_CLOSE (old : SQScope) : cM () :=
  sc ← gets _scope;
  n ← fs GetStackSize;
  when (negb (n =? stacksize sc)) (fs (SetStackSize (stacksize sc)));;
  modify (with_scope old).
Definition END_SCOPE (old : SQScope) : cM () :=
  sc ← gets _scope;
  oldouters ← gets (λ c, _outers (_fs c));
  n ← fs GetStackSize;
  when (negb (n =? stacksize sc))
    (fs (SetStackSize (stacksize sc));;
     o ← gets (λ c, _outers (_fs c));
     when (negb (oldouters =? o)) (emit _OP_CLOSE 0 (stacksize sc) 0 0));;
  modify (with_scope old).

(** [BEGIN_BREAKBLE_BLOCK], which gives the numbers of jumps that wait for their
    targets, and [END_BREAKBLE_BLOCK] *)
Definition push_targets : fsM () :=
  modify (λ f, with_continuetargets (_continuetargets f ++ [0]) (with_breaktargets (_breaktargets f ++ [0]) f)).
Definition pop_targets : fsM () :=
  f ← gets id;
  bs ← lift (pop_back (_breaktargets f));
  cs ← lift (pop_back (_continuetargets f));
  modify (λ f, with_continuetargets cs (with_breaktargets bs f)).
Definition BEGIN_BREAKBLE_BLOCK : cM (Z * Z) :=
  f ← gets _fs; fs push_targets;; mret (vsize (_unresolvedbreaks f), vsize (_unresolvedcontinues f)).

(** [ResolveBreaks], [ResolveContinues] *)
Fixpoint ResolveBreaks (ntoresolve : nat) : fsM () :=
  match ntoresolve with
  | O => mret ()
  | S n =>
      f ← gets id;
      pos ← lift (back (_unresolvedbreaks f));
      l ← lift (pop_back (_unresolvedbreaks f));
      modify (with_unresolvedbreaks l);;
      cur ← GetCurrentPos;
      SetInstructionParams pos 0 (cur - pos) 0 0;;
      ResolveBreaks n
  end.
Fixpoint ResolveContinues (ntoresolve : nat) (targetpos : Z) : fsM () :=
  match ntoresolve with
  | O => mret ()
  | S n =>
      f ← gets id;
      pos ← lift (back (_unresolvedcontinues f));
      l ← lift (pop_back (_unresolvedcontinues f));
      modify (with_unresolvedcontinues l);;
      SetInstructionParams pos 0 (targetpos - pos) 0 0;;
      ResolveContinues n targetpos
  end.
Definition END_BREAKBLE_BLOCK (old : Z * Z) (continue_target : Z) : cM () :=
  f ← gets _fs;
  let nbreaks := vsize (_unresolvedbreaks f) - old.1 in
  let ncontinues := vsize (_unresolvedcontinues f) - old.2 in
  when (0 <? ncontinues) (fs (ResolveContinues (Z.to_nat ncontinues) continue_target));;
  when (0 <? nbreaks) (fs (ResolveBreaks (Z.to_nat nbreaks)));;
  fs pop_targets.

(** ** Emitting *)

(** A loop of [PopTarget] *)
Fixpoint PopTargets (n : nat) : cM () := match n with O => mret () | S n' => fs PopTarget;; PopTargets n' end.

Definition MoveIfCurrentTargetIsLocal : cM () :=
  trg ← fs TopTarget;
  b ← fs (IsLocal trg);
  when b (trg ← fs PopTarget; n ← fs NewTarget; emit _OP_MOVE n trg 0 0).
Definition EmitDerefOp (op : SQOpcode) : cM () :=
  val ← fs PopTarget; key ← fs PopTarget; src ← fs PopTarget;
  n ← fs NewTarget;
  emit op n src key val.
Definition Emit2ArgsOP (op : SQOpcode) (p3 : Z) : cM () :=
  p2 ← fs PopTarget; p1 ← fs PopTarget;
  n ← fs NewTarget;
  emit op n p1 p2 p3.
Definition ChooseArithOpByToken (tok : Z) : cM SQOpcode :=
  switch tok
    [(TK_PLUSEQ, mret _OP_ADD); (ch "+", mret _OP_ADD); (TK_MINUSEQ, mret _OP_SUB); (ch "-", mret _OP_SUB);
     (TK_MULEQ, mret _OP_MUL); (ch "*", mret _OP_MUL); (TK_DIVEQ, mret _OP_DIV); (ch "/", mret _OP_DIV);
     (TK_MODEQ, mret _OP_MOD); (ch "%", mret _OP_MOD)]
    (raise AssertFail).
Definition ChooseCompArithCharByToken (tok : Z) : cM Z :=
  switch tok
    [(TK_MINUSEQ, mret (ch "-")); (TK_PLUSEQ, mret (ch "+")); (TK_MULEQ, mret (ch "*")); (TK_DIVEQ, mret (ch "/")); (TK_MODEQ, mret (ch "%"))]
    (raise AssertFail).
Definition EmitCompoundArith (tok : Z) (t : exptype) (pos : Z) : cM () :=
  match t with
  | LOCAL =>
      p2 ← fs PopTarget; p1 ← fs PopTarget;
      fs (PushTarget p1);;
      op ← ChooseArithOpByToken tok;
      emit op p1 p2 p1 0;;
      fs SnoozeOpt
  | OBJECT | BASE =>
      val ← fs PopTarget; key ← fs PopTarget; src ← fs PopTarget;
      n ← fs NewTarget;
      op ← ChooseCompArithCharByToken tok;
      emit _OP_COMPARITH n (Z.lor (s32 (Z.shiftl src 16)) val) key op
  | OUTER =>
      val ← fs TopTarget;
      tmp ← fs NewTarget;
      emit _OP_GETOUTER tmp pos 0 0;;
      op ← ChooseArithOpByToken tok;
      emit op tmp val tmp 0;;
      fs PopTarget;; fs PopTarget;;
      n ← fs NewTarget;
      emit _OP_SETOUTER n pos tmp 0
  | EXPR => mret ()
  end.
Definition EmitLoadConstInt (value target : Z) : cM () :=
  target ← (if target <? 0 then fs NewTarget else mret target);
  if (value <=? 2 ^ 31 - 1) && (- 2 ^ 31 <? value) then emit _OP_LOADINT target value 0 0
  else k ← add_literal (sq_int value); emit _OP_LOAD target k 0 0.
(** A float is given by its bits; it has as many as an instruction's argument. *)
Definition EmitLoadConstFloat (bits target : Z) : cM () :=
  target ← (if target <? 0 then fs NewTarget else mret target);
  emit _OP_LOADFLOAT target (s32 bits) 0 0.

Definition NeedGet : cM bool :=
  t ← token;
  es ← gets _es;
  e ← IsEndOfStatement;
  let need := negb (donot_get es) || (donot_get es && ((t =? ch ".") || (t =? ch "["))) in
  mret (if bool_decide (t ∈ [ch "="; ch "("; TK_NEWSLOT; TK_MODEQ; TK_MULEQ; TK_DIVEQ; TK_MINUSEQ; TK_PLUSEQ]) then false
        else if ((t =? TK_PLUSPLUS) || (t =? TK_MINUSMINUS)) && negb e then false
        else need).

(** ** Expressions *)

Section recursion.
Context (rec : nonterminal → cM ()).

(** [INVOKE_EXP], and the saving of [_es] around an expression *)
Definition fresh_es (m : cM ()) : cM () :=
  es ← gets _es;
  modify (with_es (mkExp EXPR (-1) false));;
  m;;
  modify (with_es es).

Definition CommaExpr : cM () := rec NExpression;; rec NCommaRest.
Definition comma_rest : cM () :=
  t ← token; when (t =? ch ",") (fs PopTarget;; Lex;; rec NCommaExpr;; rec NCommaRest).

(** The assignments of [Expression] *)
Definition assignment (op : Z) : cM () :=
  ds ← get_etype;
  pos ← gets (λ c, epos (_es c));
  (match ds with
   | EXPR => Error "can't assign expression"
   | BASE => Error "'base' cannot be modified"
   | _ => mret ()
   end);;
  Lex;; rec NExpression;;
  if op =? TK_NEWSLOT then
    match ds with
    | OBJECT | BASE => EmitDerefOp _OP_NEWSLOT
    | _ => Error "can't 'create' a local slot"
    end
  else if op =? ch "=" then
    match ds with
    | LOCAL => src ← fs PopTarget; dst ← fs TopTarget; emit _OP_MOVE dst src 0 0
    | OBJECT | BASE => EmitDerefOp _OP_SET
    | OUTER => src ← fs PopTarget; dst ← fs NewTarget; emit _OP_SETOUTER dst pos src 0
    | EXPR => mret ()
    end
  else EmitCompoundArith op ds pos.

(** [a ? b : c] *)
Definition conditional : cM () :=
  Lex;;
  cond ← fs PopTarget;
  emit _OP_JZ cond 0 0 0;;
  jzpos ← fs GetCurrentPos;
  trg ← fs NewTarget;
  rec NExpression;;
  first_exp ← fs PopTarget;
  when (negb (trg =? first_exp)) (emit _OP_MOVE trg first_exp 0 0);;
  endfirstexp ← fs GetCurrentPos;
  emit _OP_JMP 0 0 0 0;;
  expect_ (ch ":");;
  jmppos ← fs GetCurrentPos;
  rec NExpression;;
  second_exp ← fs PopTarget;
  when (negb (trg =? second_exp)) (emit _OP_MOVE trg second_exp 0 0);;
  cur ← fs GetCurrentPos;
  fs (SetInstructionParam jmppos 1 (cur - jmppos));;
  fs (SetInstructionParam jzpos 1 (endfirstexp - jzpos + 1));;
  fs SnoozeOpt.

Definition Expression : cM () :=
  fresh_es
    (rec NLogicalOrExp;;
     t ← token;
     switch t
       [(ch "=", assignment t); (TK_NEWSLOT, assignment t); (TK_MINUSEQ, assignment t); (TK_PLUSEQ, assignment t);
        (TK_MULEQ, assignment t); (TK_DIVEQ, assignment t); (TK_MODEQ, assignment t); (ch "?", conditional)]
       (mret ())).

Definition BIN_EXP (op : SQOpcode) (f : nonterminal) (op3 : Z) : cM () :=
  Lex;;
  fresh_es (rec f);;
  op1 ← fs PopTarget; op2 ← fs PopTarget;
  n ← fs NewTarget;
  emit op n op1 op2 op3;;
  set_etype EXPR.

(** The operators that decide with their first operand *)
Definition shortcut (op : SQOpcode) (f : nonterminal) : cM () :=
  first_exp ← fs PopTarget;
  trg ← fs NewTarget;
  emit op trg 0 first_exp 0;;
  jpos ← fs GetCurrentPos;
  when (negb (trg =? first_exp)) (emit _OP_MOVE trg first_exp 0 0);;
  Lex;; fresh_es (rec f);;
  fs SnoozeOpt;;
  second_exp ← fs PopTarget;
  when (negb (trg =? second_exp)) (emit _OP_MOVE trg second_exp 0 0);;
  fs SnoozeOpt;;
  cur ← fs GetCurrentPos;
  fs (SetInstructionParam jpos 1 (cur - jpos));;
  set_etype EXPR.
(** The loop of [LogicalOrExp] ends after one round, that of [LogicalAndExp]
    goes on. *)
Definition LogicalOrExp : cM () :=
  rec NLogicalAndExp;; t ← token; when (t =? TK_OR) (shortcut _OP_OR NLogicalOrExp).
Definition LogicalAndExp : cM () := rec NBitwiseOrExp;; rec NLogicalAndRest.
Definition logical_and_rest : cM () :=
  t ← token; when (t =? TK_AND) (shortcut _OP_AND NLogicalAndExp;; rec NLogicalAndRest).

Definition BW_AND : Z := 0.
Definition BW_OR : Z := 2.
Definition BW_XOR : Z := 3.
Definition BW_SHIFTL : Z := 4.
Definition BW_SHIFTR : Z := 5.
Definition BW_USHIFTR : Z := 6.
Definition CMP_G : Z := 0.
Definition CMP_GE : Z := 2.
Definition CMP_L : Z := 3.
Definition CMP_LE : Z := 4.
Definition CMP_3W : Z := 5.

Definition BitwiseOrExp : cM () := rec NBitwiseXorExp;; rec NBitwiseOrRest.
Definition bitwise_or_rest : cM () :=
  t ← token; when (t =? ch "|") (BIN_EXP _OP_BITW NBitwiseXorExp BW_OR;; rec NBitwiseOrRest).
Definition BitwiseXorExp : cM () := rec NBitwiseAndExp;; rec NBitwiseXorRest.
Definition bitwise_xor_rest : cM () :=
  t ← token; when (t =? ch "^") (BIN_EXP _OP_BITW NBitwiseAndExp BW_XOR;; rec NBitwiseXorRest).
Definition BitwiseAndExp : cM () := rec NEqExp;; rec NBitwiseAndRest.
Definition bitwise_and_rest : cM () :=
  t ← token; when (t =? ch "&") (BIN_EXP _OP_BITW NEqExp BW_AND;; rec NBitwiseAndRest).
Definition EqExp : cM () := rec NCompExp;; rec NEqRest.
Definition eq_rest : cM () :=
  t ← token;
  switch t
    [(TK_EQ, BIN_EXP _OP_EQ NCompExp 0;; rec NEqRest);
     (TK_NE, BIN_EXP _OP_NE NCompExp 0;; rec NEqRest);
     (TK_3WAYSCMP, BIN_EXP _OP_CMP NCompExp CMP_3W;; rec NEqRest)]
    (mret ()).
Definition CompExp : cM () := rec NShiftExp;; rec NCompRest.
Definition comp_rest : cM () :=
  t ← token;
  switch t
    [(ch ">", BIN_EXP _OP_CMP NShiftExp CMP_G;; rec NCompRest);
     (ch "<", BIN_EXP _OP_CMP NShiftExp CMP_L;; rec NCompRest);
     (TK_GE, BIN_EXP _OP_CMP NShiftExp CMP_GE;; rec NCompRest);
     (TK_LE, BIN_EXP _OP_CMP NShiftExp CMP_LE;; rec NCompRest);
     (TK_IN, BIN_EXP _OP_EXISTS NShiftExp 0;; rec NCompRest);
     (TK_INSTANCEOF, BIN_EXP _OP_INSTANCEOF NShiftExp 0;; rec NCompRest)]
    (mret ()).
Definition ShiftExp : cM () := rec NPlusExp;; rec NShiftRest.
Definition shift_rest : cM () :=
  t ← token;
  switch t
    [(TK_USHIFTR, BIN_EXP _OP_BITW NPlusExp BW_USHIFTR;; rec NShiftRest);
     (TK_SHIFTL, BIN_EXP _OP_BITW NPlusExp BW_SHIFTL;; rec NShiftRest);
     (TK_SHIFTR, BIN_EXP _OP_BITW NPlusExp BW_SHIFTR;; rec NShiftRest)]
    (mret ()).
Definition PlusExp : cM () := rec NMultExp;; rec NPlusRest.
Definition plus_rest : cM () :=
  t ← token; when ((t =? ch "+") || (t =? ch "-")) (op ← ChooseArithOpByToken t; BIN_EXP op NMultExp 0;; rec NPlusRest).
Definition MultExp : cM () := rec NPrefixedExpr;; rec NMultRest.
Definition mult_rest : cM () :=
  t ← token;
  when ((t =? ch "*") || (t =? ch "/") || (t =? ch "%")) (op ← ChooseArithOpByToken t; BIN_EXP op NPrefixedExpr 0;; rec NMultRest).

(** The member that was named last is read, or left to what follows. *)
Definition deref : cM () :=
  et ← get_etype;
  if bool_decide (et = BASE) then
    Emit2ArgsOP _OP_GET 0;;
    pos ← fs TopTarget;
    set_etype EXPR;; set_epos pos
  else
    b ← NeedGet;
    when b (Emit2ArgsOP _OP_GET 0);;
    set_etype OBJECT.

(** [x++] and [x--] *)
Definition postfix_step (tok : Z) : cM () :=
  e ← IsEndOfStatement;
  if (e : bool) then mret () else
  let diff := if tok =? TK_MINUSMINUS then -1 else 1 in
  Lex;;
  es ← gets _es;
  match etype es with
  | EXPR => Error "can't '++' or '--' an expression"
  | OBJECT | BASE => if donot_get es then Error "can't '++' or '--' an expression" else Emit2ArgsOP _OP_PINC diff
  | LOCAL => src ← fs PopTarget; n ← fs NewTarget; emit _OP_PINCL n src 0 diff
  | OUTER =>
      tmp1 ← fs NewTarget;
      tmp2 ← fs NewTarget;
      emit _OP_GETOUTER tmp2 (epos es) 0 0;;
      emit _OP_PINCL tmp1 tmp2 0 diff;;
      emit _OP_SETOUTER tmp2 (epos es) tmp2 0;;
      fs PopTarget;; mret ()
  end.

(** The function and the [this] of a call *)
Definition call_prologue : cM () :=
  es ← gets _es;
  match etype es with
  | OBJECT =>
      key ← fs PopTarget; table ← fs PopTarget;
      closure ← fs NewTarget; ttarget ← fs NewTarget;
      emit _OP_PREPCALL closure key table ttarget
  | OUTER =>
      n ← fs NewTarget; emit _OP_GETOUTER n (epos es) 0 0;;
      n ← fs NewTarget; emit _OP_MOVE n 0 0 0
  | _ => n ← fs NewTarget; emit _OP_MOVE n 0 0 0
  end.

Definition PrefixedExpr : cM () := rec NFactor;; rec NPrefixedRest.
Definition prefixed_rest : cM () :=
  t ← token;
  switch t
    [(ch ".", Lex;;
              n ← fs NewTarget; id ← Expect TK_IDENTIFIER; k ← add_literal id; emit _OP_LOAD n k 0 0;;
              deref;; rec NPrefixedRest);
     (ch "[", p ← gets (λ c, _prevtoken (_lex c));
              when (p =? ch "010") (Error "cannot brake deref/or comma needed after [exp]=exp slot declaration");;
              Lex;; rec NExpression;; expect_ (ch "]");;
              deref;; rec NPrefixedRest);
     (TK_MINUSMINUS, postfix_step t);
     (TK_PLUSPLUS, postfix_step t);
     (ch "(", call_prologue;; set_etype EXPR;; Lex;; rec (NCallArgs false 1);; rec NPrefixedRest)]
    (mret ()).

Definition UnaryOP (op : SQOpcode) : cM () :=
  rec NPrefixedExpr;; src ← fs PopTarget; n ← fs NewTarget; emit op n src 0 0.

(** A named constant, or a member of an enumeration *)
Definition constant_value (name constant : SQObject) : cM SQObject :=
  if bool_decide (_type constant = OT_TABLE) then
    expect_ (ch ".");;
    constid ← Expect TK_IDENTIFIER;
    c ← gets id;
    t ← lift (expect UseAfterFree (_tables c !! _unVal constant));
    r ← lift (@SqTable.Get (heap_of (_strtable c)) t constid);
    match r with
    | Some constval => mret constval
    | None =>
        let chars o := String.string_of_list_ascii (@string_val (heap_of (_strtable c)) (_unVal o)) in
        Error ("invalid constant [" ++ chars name ++ "." ++ chars constid ++ "]")%string
    end
  else mret constant.
Definition emit_constant (constval : SQObject) (pos : Z) : cM () :=
  match _type constval with
  | OT_INTEGER => EmitLoadConstInt (_integer constval) pos
  | OT_FLOAT => EmitLoadConstFloat (_unVal constval) pos
  | OT_BOOL => emit _OP_LOADBOOL pos (_integer constval) 0 0
  | _ => k ← add_literal constval; emit _OP_LOAD pos k 0 0
  end.

(** [IsConstant], [GetOuterVariable] *)
Definition IsConstant (name : SQObject) : cM (option SQObject) :=
  c ← gets id; lift (@SqTable.Get (heap_of (_strtable c)) (_consts c) name).
Definition outer_variable (name : SQObject) : cM Z := λ c,
  match GetOuterVariable name (_fs c) (_parents c) with
  | Ok (pos, f, ps) => Ok (pos, with_parents ps (with_fs f c))
  | Err e => Err e
  end.

(** A name: a local variable, one of a function around, a constant, or a member
    of [this] *)
Definition variable (id : SQObject) : cM () :=
  pos ← gets (λ c, GetLocalVariable id (_fs c));
  if negb (pos =? -1) then fs (PushTarget pos);; set_etype LOCAL;; set_epos pos else
  pos ← outer_variable id;
  if negb (pos =? -1) then
    b ← NeedGet;
    if (b : bool) then n ← fs NewTarget; set_epos n;; emit _OP_GETOUTER n pos 0 0
    else set_etype OUTER;; set_epos pos
  else
  constant ← IsConstant id;
  match constant with
  | Some constant =>
      constval ← constant_value id constant;
      n ← fs NewTarget;
      set_epos n;;
      emit_constant constval n;;
      set_etype EXPR
  | None =>
      fs (PushTarget 0);;
      n ← fs NewTarget; k ← add_literal id; emit _OP_LOAD n k 0 0;;
      b ← NeedGet;
      when b (Emit2ArgsOP _OP_GET 0);;
      set_etype OBJECT
  end.

Definition NOT_TABLE : Z := 0.
Definition NOT_ARRAY : Z := 1.
Definition NOT_CLASS : Z := 2.

Definition array_rest (apos key : Z) : cM () :=
  t ← token;
  if t =? ch "]" then fs (SetInstructionParam apos 1 key);; Lex else
  rec NExpression;;
  t ← token;
  when (t =? ch ",") Lex;;
  val ← fs PopTarget;
  array ← fs TopTarget;
  emit _OP_APPENDARRAY array val AAT_STACK 0;;
  rec (NArrayRest apos (key + 1)).

Definition DeleteExpr : cM () :=
  Lex;;
  es ← gets _es;
  set_donot_get true;;
  rec NPrefixedExpr;;
  et ← get_etype;
  match et with
  | EXPR => Error "can't delete an expression"
  | OBJECT | BASE => Emit2ArgsOP _OP_DELETE 0
  | _ => Error "cannot delete an (outer) local"
  end;;
  modify (with_es es).

Definition PrefixIncDec (tok : Z) : cM () :=
  let diff := if tok =? TK_MINUSMINUS then -1 else 1 in
  Lex;;
  es ← gets _es;
  set_donot_get true;;
  rec NPrefixedExpr;;
  es' ← gets _es;
  match etype es' with
  | EXPR => Error "can't '++' or '--' an expression"
  | OBJECT | BASE => Emit2ArgsOP _OP_INC diff
  | LOCAL => src ← fs TopTarget; emit _OP_INCL src src 0 diff
  | OUTER =>
      tmp ← fs NewTarget;
      emit _OP_GETOUTER tmp (epos es') 0 0;;
      emit _OP_INCL tmp tmp 0 diff;;
      emit _OP_SETOUTER tmp (epos es') tmp 0
  end;;
  modify (with_es es).

(** Load a literal into a new target and go on to the next token. *)
Definition emit_literal (o : SQObject) : cM () := n ← fs NewTarget; k ← add_literal o; emit _OP_LOAD n k 0 0.

(** The factors after which the expression is of type [EXPR] *)
Definition plain_factor (t : Z) : cM () :=
  switch t
    [(TK_STRING_LITERAL, n ← fs NewTarget; s ← literal_string; k ← add_literal s; emit _OP_LOAD n k 0 0;; Lex);
     (TK_NULL, n ← fs NewTarget; emit _OP_LOADNULLS n 1 0 0;; Lex);
     (TK_INTEGER, v ← gets (λ c, _nvalue (_lex c)); EmitLoadConstInt v (-1);; Lex);
     (TK_FLOAT, v ← gets (λ c, _fvalue (_lex c)); EmitLoadConstFloat v (-1);; Lex);
     (TK_TRUE, n ← fs NewTarget; emit _OP_LOADBOOL n 1 0 0;; Lex);
     (TK_FALSE, n ← fs NewTarget; emit _OP_LOADBOOL n 0 0 0;; Lex);
     (ch "[", n ← fs NewTarget; emit _OP_NEWOBJ n 0 0 NOT_ARRAY;;
              apos ← fs GetCurrentPos; Lex;; rec (NArrayRest apos 0));
     (ch "{", n ← fs NewTarget; emit _OP_NEWOBJ n 0 NOT_TABLE 0;; Lex;; rec (NTableOrClass (ch ",") (ch "}")));
     (TK_FUNCTION, rec (NFunctionExp t false));
     (ch "@", rec (NFunctionExp t true));
     (TK_CLASS, Lex;; rec NClassExp);
     (ch "-", Lex;;
              t ← token;
              switch t
                [(TK_INTEGER, v ← gets (λ c, _nvalue (_lex c)); EmitLoadConstInt (s32 (- v)) (-1);; Lex);
                 (TK_FLOAT, v ← gets (λ c, _fvalue (_lex c)); EmitLoadConstFloat (Z.lxor v (2 ^ 31)) (-1);; Lex)]
                (UnaryOP _OP_NEG));
     (ch "!", Lex;; UnaryOP _OP_NOT);
     (ch "~", Lex;;
              t ← token;
              if t =? TK_INTEGER then v ← gets (λ c, _nvalue (_lex c)); EmitLoadConstInt (Z.lnot v) (-1);; Lex
              else UnaryOP _OP_BWNOT);
     (TK_TYPEOF, Lex;; UnaryOP _OP_TYPEOF);
     (TK_RESUME, Lex;; UnaryOP _OP_RESUME);
     (TK_CLONE, Lex;; UnaryOP _OP_CLONE);
     (TK_RAWCALL, Lex;; expect_ (ch "(");; rec (NCallArgs true 1));
     (TK_MINUSMINUS, PrefixIncDec t);
     (TK_PLUSPLUS, PrefixIncDec t);
     (TK_DELETE, DeleteExpr);
     (ch "(", Lex;; rec NCommaExpr;; expect_ (ch ")"));
     (TK___LINE__, v ← gets (λ c, _currentline (_lex c)); EmitLoadConstInt v (-1);; Lex);
     (TK___FILE__, emit_literal _sourcename;; Lex)]
    (Error "expression expected").

Definition Factor : cM () :=
  t ← token;
  switch t
    [(TK_BASE, Lex;; n ← fs NewTarget; emit _OP_GETBASE n 0 0 0;;
               set_etype BASE;; top ← fs TopTarget; set_epos top);
     (TK_IDENTIFIER, id ← identifier_string; Lex;; variable id);
     (TK_THIS, id ← create_string (String.list_ascii_of_string "this") 4; Lex;; variable id);
     (TK_CONSTRUCTOR, id ← create_string (String.list_ascii_of_string "constructor") 11; Lex;; variable id);
     (TK_DOUBLE_COLON, n ← fs NewTarget; emit _OP_LOADROOT n 0 0 0;;
                       set_etype OBJECT;; modify (with_token (ch "."));; set_epos (-1))]
    (plain_factor t;; set_etype EXPR).

Definition call_args (rawcall : bool) (nargs : Z) : cM () :=
  t ← token;
  if t =? ch ")" then
    Lex;;
    when (rawcall && (nargs <? 3)) (Error "rawcall requires at least 2 parameters (callee and this)");;
    let nargs := if rawcall then nargs - 2 else nargs in
    PopTargets (Z.to_nat (nargs - 1));;
    stackbase ← fs PopTarget;
    closure ← fs PopTarget;
    n ← fs NewTarget;
    emit _OP_CALL n closure stackbase nargs
  else
    rec NExpression;;
    MoveIfCurrentTargetIsLocal;;
    t ← token;
    when (t =? ch ",") (Lex;; t ← token; when (t =? ch ")") (Error "expression expected, found ')'"));;
    rec (NCallArgs rawcall (nargs + 1)).

(** ** Tables, classes and functions *)

(** A closure of the function that was compiled last *)
Definition emit_closure (ftype : Z) : cM () :=
  n ← fs NewTarget; f ← gets _fs; emit _OP_CLOSURE n (vsize (_functions f) - 1) ftype 0.

Definition ParseTableOrClass (separator terminator : Z) : cM () :=
  tpos ← fs GetCurrentPos; rec (NTableRest separator terminator tpos 0).

(** The attributes in front of a member, and whether it is static *)
Definition member_attributes (separator : Z) : cM bool :=
  t ← token;
  if (separator =? ch ";") && (t =? TK_ATTR_OPEN) then
    n ← fs NewTarget; emit _OP_NEWOBJ n 0 NOT_TABLE 0;; Lex;;
    rec (NTableOrClass (ch ",") TK_ATTR_CLOSE);;
    mret true
  else mret false.
Definition member_static (separator : Z) : cM bool :=
  t ← token; if (separator =? ch ";") && (t =? TK_STATIC) then Lex;; mret true else mret false.
(** The key of a member and its value *)
Definition member_function (tk : Z) : cM () :=
  Lex;;
  id ← (if tk =? TK_FUNCTION then Expect TK_IDENTIFIER else name_string "constructor");
  expect_ (ch "(");;
  emit_literal id;;
  rec (NCreateFunction id false);;
  emit_closure 0.
Definition named_member : cM () :=
  n ← fs NewTarget; id ← Expect TK_IDENTIFIER; k ← add_literal id; emit _OP_LOAD n k 0 0;;
  expect_ (ch "=");; rec NExpression.
Definition member_pair (separator : Z) : cM () :=
  t ← token;
  switch t
    [(TK_FUNCTION, member_function t);
     (TK_CONSTRUCTOR, member_function t);
     (ch "[", Lex;; rec NCommaExpr;; expect_ (ch "]");; expect_ (ch "=");; rec NExpression);
     (TK_STRING_LITERAL,
        if separator =? ch "," then
          n ← fs NewTarget; s ← Expect TK_STRING_LITERAL; k ← add_literal s; emit _OP_LOAD n k 0 0;;
          expect_ (ch ":");; rec NExpression
        else named_member)]
    named_member.
Definition table_rest (separator terminator tpos nkeys : Z) : cM () :=
  t ← token;
  if t =? terminator then when (separator =? ch ",") (fs (SetInstructionParam tpos 1 nkeys));; Lex else
  hasattrs ← member_attributes separator;
  isstatic ← member_static separator;
  member_pair separator;;
  t ← token;
  when (t =? separator) Lex;;
  val ← fs PopTarget;
  key ← fs PopTarget;
  attrs ← (if (hasattrs : bool) then fs PopTarget else mret (-1));
  if (hasattrs : bool) && negb (attrs =? key - 1) then raise AssertFail else
  let flags := (if (hasattrs : bool) then 1 else 0) + (if (isstatic : bool) then 2 else 0) in
  table ← fs TopTarget;
  (if separator =? ch "," then emit _OP_NEWSLOT 0xFF table key val else emit _OP_NEWSLOTA flags table key val);;
  rec (NTableRest separator terminator tpos (nkeys + 1)).

Definition ClassExp : cM () :=
  t ← token;
  base ← (if t =? TK_EXTENDS then Lex;; rec NExpression;; fs TopTarget else mret (-1));
  t ← token;
  attrs ← (if t =? TK_ATTR_OPEN then
             Lex;; n ← fs NewTarget; emit _OP_NEWOBJ n 0 NOT_TABLE 0;;
             rec (NTableOrClass (ch ",") TK_ATTR_CLOSE);; fs TopTarget
           else mret (-1));
  expect_ (ch "{");;
  when (negb (attrs =? -1)) (fs PopTarget;; mret ());;
  when (negb (base =? -1)) (fs PopTarget;; mret ());;
  n ← fs NewTarget;
  emit _OP_NEWOBJ n base attrs NOT_CLASS;;
  rec (NTableOrClass (ch ";") (ch "}")).

Definition FunctionExp (ftype : Z) (lambda : bool) : cM () :=
  Lex;; expect_ (ch "(");;
  rec (NCreateFunction sq_null lambda);;
  emit_closure (if ftype =? TK_FUNCTION then 0 else 1).

(** [CreateFunction]: [PushChildState], the parameters, the body *)
Definition PushChildState : cM () :=
  f ← lift new_funcstate; modify (λ c, with_childstates (f :: _childstates c) c).
Definition CreateFunction (name : SQObject) (lambda : bool) : cM () :=
  PushChildState;;
  child (modify (with_name name));;
  this ← name_string "this";
  child (AddParameter this);;
  child (modify (with_sourcename _sourcename));;
  rec (NParams lambda 0).
Definition params (lambda : bool) (defparams : Z) : cM () :=
  t ← token;
  if t =? ch ")" then rec (NFunctionBody lambda defparams)
  else if t =? TK_VARPARAMS then
    when (0 <? defparams) (Error "function with default parameters cannot have variable number of parameters");;
    vargv ← name_string "vargv";
    child (AddParameter vargv);;
    child (modify (with_varparams true));;
    Lex;;
    t ← token;
    when (negb (t =? ch ")")) (Error "expected ')'");;
    rec (NFunctionBody lambda defparams)
  else
    paramname ← Expect TK_IDENTIFIER;
    child (AddParameter paramname);;
    t ← token;
    defparams ← (if t =? ch "=" then
                   Lex;; rec NExpression;; top ← fs TopTarget; child (AddDefaultParam top);; mret (defparams + 1)
                 else when (0 <? defparams) (Error "expected '='");; mret defparams);
    t ← token;
    (if t =? ch "," then Lex else when (negb (t =? ch ")")) (Error "expected ')' or ','"));;
    rec (NParams lambda defparams).

(** [_fs = funcstate] and back, with the prototype of the function *)
Definition enter_child : cM () := λ c,
  match _childstates c with
  | [] => Err OutOfBounds
  | f :: cs => Ok ((), with_fs f (with_parents (_fs c :: _parents c) (with_childstates cs c)))
  end.
Definition leave_child : cM () := λ c,
  match _parents c with
  | [] => Err OutOfBounds
  | p :: ps =>
      func ← @BuildProto (heap_of (_strtable c)) (_fs c);
      Ok ((), with_fs (with_functions (_functions p ++ [func]) p) (with_parents ps c))
  end.
Definition function_body (lambda : bool) (defparams : Z) : cM () :=
  expect_ (ch ")");;
  PopTargets (Z.to_nat defparams);;
  enter_child;;
  (if lambda then rec NExpression;; n ← fs PopTarget; emit _OP_RETURN 1 n 0 0 else rec (NStatement false));;
  l ← gets _lex;
  b ← nested;
  fs (AddLineInfos b (if _prevtoken l =? ch "010" then _lasttokenline l else _currentline l) _lineinfo true);;
  emit _OP_RETURN (-1) 0 0 0;;
  fs (SetStackSize 0);;
  leave_child.

(** ** Statements *)

Definition Statements : cM () :=
  t ← token;
  when (negb (bool_decide (t ∈ [ch "}"; TK_DEFAULT; TK_CASE]))) (rec (NStatement true);; after_statement;; rec NStatements).

Definition LocalDeclStatement : cM () :=
  Lex;;
  t ← token;
  if t =? TK_FUNCTION then
    Lex;;
    varname ← Expect TK_IDENTIFIER;
    expect_ (ch "(");;
    rec (NCreateFunction varname false);;
    emit_closure 0;;
    fs PopTarget;;
    fs (PushLocalVariable varname);;
    mret ()
  else rec NLocalDecl.
Definition local_decl : cM () :=
  varname ← Expect TK_IDENTIFIER;
  t ← token;
  (if t =? ch "=" then
     Lex;; rec NExpression;;
     src ← fs PopTarget;
     dest ← fs NewTarget;
     when (negb (dest =? src)) (emit _OP_MOVE dest src 0 0)
   else n ← fs NewTarget; emit _OP_LOADNULLS n 1 0 0);;
  fs PopTarget;;
  fs (PushLocalVariable varname);;
  t ← token;
  when (t =? ch ",") (Lex;; rec NLocalDecl).

Definition block (close : bool) : cM () :=
  old ← BEGIN_SCOPE;
  Lex;;
  rec NStatements;;
  expect_ (ch "}");;
  if close then END_SCOPE old else END_SCOPE_NO_CLOSE old.

Definition IfBlock : cM () :=
  t ← token;
  if t =? ch "{" then block true else rec (NStatement true);; after_statement.
Definition paren_expr : cM () := Lex;; expect_ (ch "(");; rec NCommaExpr;; expect_ (ch ")").
Definition IfStatement : cM () :=
  paren_expr;;
  cond ← fs PopTarget;
  emit _OP_JZ cond 0 0 0;;
  jnepos ← fs GetCurrentPos;
  rec NIfBlock;;
  endifblock ← fs GetCurrentPos;
  t ← token;
  if t =? TK_ELSE then
    emit _OP_JMP 0 0 0 0;;
    jmppos ← fs GetCurrentPos;
    Lex;;
    rec NIfBlock;;
    cur ← fs GetCurrentPos;
    fs (SetInstructionParam jmppos 1 (cur - jmppos));;
    fs (SetInstructionParam jnepos 1 (endifblock - jnepos + 1))
  else fs (SetInstructionParam jnepos 1 (endifblock - jnepos)).

(** A jump back to the instruction behind [target] *)
Definition emit_loop (target : Z) : cM () := cur ← fs GetCurrentPos; emit _OP_JMP 0 (target - cur - 1) 0 0.

Definition WhileStatement : cM () :=
  jmppos ← fs GetCurrentPos;
  paren_expr;;
  b ← BEGIN_BREAKBLE_BLOCK;
  cond ← fs PopTarget;
  emit _OP_JZ cond 0 0 0;;
  jzpos ← fs GetCurrentPos;
  old ← BEGIN_SCOPE;
  rec (NStatement true);;
  END_SCOPE old;;
  emit_loop jmppos;;
  cur ← fs GetCurrentPos;
  fs (SetInstructionParam jzpos 1 (cur - jzpos));;
  END_BREAKBLE_BLOCK b jmppos.
Definition DoWhileStatement : cM () :=
  Lex;;
  jmptrg ← fs GetCurrentPos;
  b ← BEGIN_BREAKBLE_BLOCK;
  old ← BEGIN_SCOPE;
  rec (NStatement true);;
  END_SCOPE old;;
  expect_ TK_WHILE;;
  continuetrg ← fs GetCurrentPos;
  expect_ (ch "(");; rec NCommaExpr;; expect_ (ch ")");;
  cond ← fs PopTarget;
  emit _OP_JZ cond 1 0 0;;
  emit_loop jmptrg;;
  END_BREAKBLE_BLOCK b continuetrg.

(** The step of a [for] is compiled where it is read, and moved behind the
    body. *)
Fixpoint get_instructions (start : Z) (n : nat) : fsM (list instruction) :=
  match n with O => mret [] | S n' => i ← GetInstruction start; l ← get_instructions (start + 1) n'; mret (i :: l) end.
Fixpoint add_instructions (l : list instruction) : cM () :=
  match l with [] => mret () | i :: l' => b ← nested; fs (add_instruction b i);; add_instructions l' end.
Definition ForStatement : cM () :=
  Lex;;
  old ← BEGIN_SCOPE;
  expect_ (ch "(");;
  t ← token;
  (if t =? TK_LOCAL then LocalDeclStatement
   else when (negb (t =? ch ";")) (rec NCommaExpr;; fs PopTarget;; mret ()));;
  expect_ (ch ";");;
  fs SnoozeOpt;;
  jmppos ← fs GetCurrentPos;
  t ← token;
  jzpos ← (if negb (t =? ch ";") then rec NCommaExpr;; cond ← fs PopTarget; emit _OP_JZ cond 0 0 0;; fs GetCurrentPos else mret (-1));
  expect_ (ch ";");;
  fs SnoozeOpt;;
  cur ← fs GetCurrentPos;
  let expstart := cur + 1 in
  t ← token;
  when (negb (t =? ch ")")) (rec NCommaExpr;; fs PopTarget;; mret ());;
  expect_ (ch ")");;
  fs SnoozeOpt;;
  expend ← fs GetCurrentPos;
  let expsize := Z.to_nat (expend - expstart + 1) in
  exp ← fs (get_instructions expstart expsize);
  fs (PopInstructions expsize);;
  b ← BEGIN_BREAKBLE_BLOCK;
  rec (NStatement true);;
  continuetrg ← fs GetCurrentPos;
  add_instructions exp;;
  emit_loop jmppos;;
  cur ← fs GetCurrentPos;
  when (0 <? jzpos) (fs (SetInstructionParam jzpos 1 (cur - jzpos)));;
  END_BREAKBLE_BLOCK b continuetrg;;
  END_SCOPE old.

Definition ForEachStatement : cM () :=
  Lex;; expect_ (ch "(");;
  valname ← Expect TK_IDENTIFIER;
  t ← token;
  names ← (if t =? ch "," then Lex;; v ← Expect TK_IDENTIFIER; mret (valname, v) else i ← name_string "@INDEX@"; mret (i, valname));
  expect_ TK_IN;;
  old ← BEGIN_SCOPE;
  rec NExpression;; expect_ (ch ")");;
  container ← fs TopTarget;
  indexpos ← fs (PushLocalVariable names.1);
  emit _OP_LOADNULLS indexpos 1 0 0;;
  valuepos ← fs (PushLocalVariable names.2);
  emit _OP_LOADNULLS valuepos 1 0 0;;
  itr ← name_string "@ITERATOR@";
  itrpos ← fs (PushLocalVariable itr);
  emit _OP_LOADNULLS itrpos 1 0 0;;
  jmppos ← fs GetCurrentPos;
  emit _OP_FOREACH container 0 indexpos 0;;
  foreachpos ← fs GetCurrentPos;
  emit _OP_POSTFOREACH container 0 indexpos 0;;
  b ← BEGIN_BREAKBLE_BLOCK;
  rec (NStatement true);;
  emit_loop jmppos;;
  cur ← fs GetCurrentPos;
  fs (SetInstructionParam foreachpos 1 (cur - foreachpos));;
  fs (SetInstructionParam (foreachpos + 1) 1 (cur - foreachpos));;
  END_BREAKBLE_BLOCK b (foreachpos - 1);;
  fs PopTarget;;
  END_SCOPE old.

(** The cases of a [switch], then what follows them *)
Definition scoped (m : cM ()) : cM () := old ← BEGIN_SCOPE; m;; END_SCOPE old.
Definition switch_end (tonextcondjmp nbreaks : Z) : cM () :=
  cur ← fs GetCurrentPos;
  when (negb (tonextcondjmp =? -1)) (fs (SetInstructionParam tonextcondjmp 1 (cur - tonextcondjmp)));;
  t ← token;
  when (t =? TK_DEFAULT) (Lex;; expect_ (ch ":");; scoped (rec NStatements));;
  expect_ (ch "}");;
  fs PopTarget;;
  f ← gets _fs;
  let n := vsize (_unresolvedbreaks f) - nbreaks in
  when (0 <? n) (fs (ResolveBreaks (Z.to_nat n)));;
  f ← gets _fs;
  bs ← lift (pop_back (_breaktargets f));
  fs (modify (with_breaktargets bs)).
Definition cases (expr : Z) (bfirst : bool) (tonextcondjmp skipcondjmp nbreaks : Z) : cM () :=
  t ← token;
  if negb (t =? TK_CASE) then switch_end tonextcondjmp nbreaks else
  skipcondjmp ← (if bfirst then mret skipcondjmp else
                   emit _OP_JMP 0 0 0 0;;
                   cur ← fs GetCurrentPos;
                   fs (SetInstructionParam tonextcondjmp 1 (cur - tonextcondjmp));;
                   mret cur);
  Lex;; rec NExpression;; expect_ (ch ":");;
  trg ← fs PopTarget;
  local ← fs (IsLocal trg);
  eqtarget ← (if (local : bool) then fs NewTarget else mret trg);
  emit _OP_EQ eqtarget trg expr 0;;
  emit _OP_JZ eqtarget 0 0 0;;
  when local (fs PopTarget;; mret ());;
  cur ← fs GetCurrentPos;
  when (negb (skipcondjmp =? -1)) (fs (SetInstructionParam skipcondjmp 1 (cur - skipcondjmp)));;
  scoped (rec NStatements);;
  rec (NCases expr false cur skipcondjmp nbreaks).
Definition SwitchStatement : cM () :=
  paren_expr;;
  expect_ (ch "{");;
  expr ← fs TopTarget;
  f ← gets _fs;
  fs (modify (λ f, with_breaktargets (_breaktargets f ++ [0]) f));;
  rec (NCases expr true (-1) (-1) (vsize (_unresolvedbreaks f))).

(** [function a::b(...)]; all but the last name are read *)
Definition qualified_name (id : SQObject) : cM () :=
  emit_literal id;; t ← token; when (t =? TK_DOUBLE_COLON) (Emit2ArgsOP _OP_GET 0);; rec (NQualified id).
Definition FunctionStatement : cM () := Lex;; id ← Expect TK_IDENTIFIER; fs (PushTarget 0);; qualified_name id.
Definition qualified_rest (id : SQObject) : cM () :=
  t ← token;
  if t =? TK_DOUBLE_COLON then Lex;; id ← Expect TK_IDENTIFIER; qualified_name id else
  expect_ (ch "(");;
  rec (NCreateFunction id false);;
  emit_closure 0;;
  EmitDerefOp _OP_NEWSLOT;;
  fs PopTarget;; mret ().

Definition ClassStatement : cM () :=
  Lex;;
  es ← gets _es;
  set_donot_get true;;
  rec NPrefixedExpr;;
  et ← get_etype;
  match et with
  | EXPR => Error "invalid class name"
  | OBJECT | BASE => rec NClassExp;; EmitDerefOp _OP_NEWSLOT;; fs PopTarget;; mret ()
  | _ => Error "cannot create a class in a local with the syntax(class <local>)"
  end;;
  modify (with_es es).

Definition ExpectScalar : cM SQObject :=
  t ← token;
  let integer := gets (λ c, _nvalue (_lex c)) in
  let float := gets (λ c, _fvalue (_lex c)) in
  val ← switch t
    [(TK_INTEGER, n ← integer; mret (sq_int n));
     (TK_FLOAT, x ← float; mret (mkObj OT_FLOAT x));
     (TK_STRING_LITERAL, literal_string);
     (TK_TRUE, mret (sq_bool true));
     (TK_FALSE, mret (sq_bool false));
     (ch "-", Lex;;
              t ← token;
              switch t
                [(TK_INTEGER, n ← integer; mret (sq_int (- n)));
                 (TK_FLOAT, x ← float; mret (mkObj OT_FLOAT (Z.lxor x (2 ^ 31))))]
                (Error "scalar expected : integer, float"))]
    (Error "scalar expected : integer, float, or string");
  Lex;;
  mret val.

(** A slot of the table of constants, or of that of an enumeration *)
Definition new_const (id val : SQObject) : cM () :=
  c ← gets (λ c, c);
  '(t, _) ← lift (@SqTable.NewSlot (heap_of (_strtable c)) table_fuel (_consts c) id val);
  modify (with_consts t).
Definition new_enum_slot (table : Z) (key val : SQObject) : cM () :=
  c ← gets (λ c, c);
  t ← lift (expect UseAfterFree (_tables c !! table));
  '(t, _) ← lift (@SqTable.NewSlot (heap_of (_strtable c)) table_fuel t key val);
  modify (with_tables (<[table := t]> (_tables c))).
Definition const_statement : cM () :=
  Lex;; id ← Expect TK_IDENTIFIER; expect_ (ch "=");; val ← ExpectScalar; OptionalSemicolon;; new_const id val.

(** [CreateTable]: the table is also kept in [_strings]. *)
Definition CreateTable : cM Z :=
  c ← gets (λ c, c);
  t ← lift (SqTable.Create 0);
  let a := malloc (dom (_tables c)) in
  '(ss, _) ← lift (@SqTable.NewSlot (heap_of (_strtable c)) table_fuel (_strings (_fs c)) (mkObj OT_TABLE a) (sq_int 1));
  modify (with_tables (<[a := t]> (_tables c)));;
  fs (modify (with_strings ss));;
  mret a.
Definition EnumStatement : cM () :=
  Lex;; id ← Expect TK_IDENTIFIER; expect_ (ch "{");; table ← CreateTable; rec (NEnumRest id table 0).
Definition enum_rest (id : SQObject) (table nval : Z) : cM () :=
  t ← token;
  if t =? ch "}" then new_const id (mkObj OT_TABLE table);; Lex else
  key ← Expect TK_IDENTIFIER;
  t ← token;
  '(val, nval) ← (if t =? ch "=" then Lex;; v ← ExpectScalar; mret (v, nval) else mret (sq_int nval, nval + 1));
  new_enum_slot table key val;;
  t ← token;
  when (t =? ch ",") Lex;;
  rec (NEnumRest id table nval).

(** The traps of the blocks that [break] and [continue] leave *)
Definition add_top (d : Z) (l : list Z) : list Z := match last l with Some x => removelast l ++ [x + d] | None => l end.
Definition count_trap (d : Z) : fsM () :=
  modify (λ f, with_continuetargets (add_top d (_continuetargets f)) (with_breaktargets (add_top d (_breaktargets f)) f)).
Definition TryCatchStatement : cM () :=
  Lex;;
  emit _OP_PUSHTRAP 0 0 0 0;;
  fs (modify (λ f, with_traps (_traps f + 1) f));;
  fs (count_trap 1);;
  trappos ← fs GetCurrentPos;
  scoped (rec (NStatement true));;
  fs (modify (λ f, with_traps (_traps f - 1) f));;
  emit _OP_POPTRAP 1 0 0 0;;
  fs (count_trap (-1));;
  emit _OP_JMP 0 0 0 0;;
  jmppos ← fs GetCurrentPos;
  fs (SetInstructionParam trappos 1 (jmppos - trappos));;
  expect_ TK_CATCH;; expect_ (ch "(");; exid ← Expect TK_IDENTIFIER; expect_ (ch ")");;
  scoped
    (ex_target ← fs (PushLocalVariable exid);
     fs (SetInstructionParam trappos 0 ex_target);;
     rec (NStatement true);;
     cur ← fs GetCurrentPos;
     fs (SetInstructionParams jmppos 0 (cur - jmppos) 0 0)).

Definition pop_traps : cM () := f ← gets _fs; when (0 <? _traps f) (emit _OP_POPTRAP (_traps f) 0 0 0).
Definition return_statement (op : SQOpcode) : cM () :=
  Lex;;
  e ← IsEndOfStatement;
  if negb e then
    pos ← fs GetCurrentPos;
    rec NCommaExpr;;
    when (bool_decide (op = _OP_RETURN)) pop_traps;;
    fs (modify (with_returnexp (pos + 1)));;
    n ← fs PopTarget;
    size ← fs GetStackSize;
    emit op 1 n size 0
  else
    when (bool_decide (op = _OP_RETURN)) pop_traps;;
    fs (modify (with_returnexp (-1)));;
    size ← fs GetStackSize;
    emit op 0xFF 0 size 0.

(** [break] and [continue]: the jump gets its target when the block ends. *)
Definition leave_block (targets : SQFuncState → list Z) (msg : string) (note : Z → SQFuncState → SQFuncState) : cM () :=
  f ← gets _fs;
  match last (targets f) with
  | None => Error msg
  | Some traps =>
      when (0 <? traps) (emit _OP_POPTRAP traps 0 0 0);;
      RESOLVE_OUTERS;;
      emit _OP_JMP 0 (-1234) 0 0;;
      cur ← fs GetCurrentPos;
      fs (modify (note cur));;
      Lex
  end.

Definition statement_body (closeframe : bool) (t : Z) : cM () :=
  switch t
    [(ch ";", Lex);
     (TK_IF, IfStatement);
     (TK_WHILE, WhileStatement);
     (TK_DO, DoWhileStatement);
     (TK_FOR, ForStatement);
     (TK_FOREACH, ForEachStatement);
     (TK_SWITCH, SwitchStatement);
     (TK_LOCAL, LocalDeclStatement);
     (TK_RETURN, return_statement _OP_RETURN);
     (TK_YIELD, fs (modify (with_bgenerator true));; return_statement _OP_YIELD);
     (TK_BREAK, leave_block _breaktargets "'break' has to be in a loop block" (λ p f, with_unresolvedbreaks (_unresolvedbreaks f ++ [p]) f));
     (TK_CONTINUE, leave_block _continuetargets "'continue' has to be in a loop block" (λ p f, with_unresolvedcontinues (_unresolvedcontinues f ++ [p]) f));
     (TK_FUNCTION, FunctionStatement);
     (TK_CLASS, ClassStatement);
     (TK_ENUM, EnumStatement);
     (ch "{", block closeframe);
     (TK_TRY, TryCatchStatement);
     (TK_THROW, Lex;; rec NCommaExpr;; n ← fs PopTarget; emit _OP_THROW n 0 0 0);
     (TK_CONST, const_statement)]
    (rec NCommaExpr;; fs DiscardTarget).
Definition Statement (closeframe : bool) : cM () :=
  l ← gets _lex;
  b ← nested;
  fs (AddLineInfos b (_currentline l) _lineinfo false);;
  t ← token;
  statement_body closeframe t;;
  fs SnoozeOpt.

(** ** The recursion *)

Definition run (n : nonterminal) : cM () :=
  match n with
  | NStatement closeframe => Statement closeframe
  | NStatements => Statements
  | NCommaExpr => CommaExpr
  | NCommaRest => comma_rest
  | NExpression => Expression
  | NLogicalOrExp => LogicalOrExp
  | NLogicalAndExp => LogicalAndExp
  | NLogicalAndRest => logical_and_rest
  | NBitwiseOrExp => BitwiseOrExp
  | NBitwiseOrRest => bitwise_or_rest
  | NBitwiseXorExp => BitwiseXorExp
  | NBitwiseXorRest => bitwise_xor_rest
  | NBitwiseAndExp => BitwiseAndExp
  | NBitwiseAndRest => bitwise_and_rest
  | NEqExp => EqExp
  | NEqRest => eq_rest
  | NCompExp => CompExp
  | NCompRest => comp_rest
  | NShiftExp => ShiftExp
  | NShiftRest => shift_rest
  | NPlusExp => PlusExp
  | NPlusRest => plus_rest
  | NMultExp => MultExp
  | NMultRest => mult_rest
  | NPrefixedExpr => PrefixedExpr
  | NPrefixedRest => prefixed_rest
  | NFactor => Factor
  | NArrayRest apos key => array_rest apos key
  | NCallArgs rawcall nargs => call_args rawcall nargs
  | NTableOrClass separator terminator => ParseTableOrClass separator terminator
  | NTableRest separator terminator tpos nkeys => table_rest separator terminator tpos nkeys
  | NLocalDecl => local_decl
  | NIfBlock => IfBlock
  | NCases expr bfirst tonextcondjmp skipcondjmp nbreaks => cases expr bfirst tonextcondjmp skipcondjmp nbreaks
  | NQualified id => qualified_rest id
  | NEnumRest id table nval => enum_rest id table nval
  | NFunctionExp ftype lambda => FunctionExp ftype lambda
  | NClassExp => ClassExp
  | NCreateFunction name lambda => CreateFunction name lambda
  | NParams lambda defparams => params lambda defparams
  | NFunctionBody lambda defparams => function_body lambda defparams
  end.
End recursion.

Fixpoint parse (fuel : nat) (n : nonterminal) : cM () :=
  match fuel with O => raise OutOfFuel | S fuel' => run (parse fuel') n end.

(** ** [Compile] *)

(** The loop over the statements of the program *)
Fixpoint program (fuel depth : nat) : cM () :=
  match fuel with
  | O => raise OutOfFuel
  | S fuel' => t ← token; when (0 <? t) (parse depth (NStatement true);; after_statement;; program fuel' depth)
  end.
Definition Compile (fuel : nat) : cM SQFunctionProto :=
  main ← shared_string "main";
  fs (modify (with_name main));;
  this ← name_string "this";
  fs (AddParameter this);;
  vargv ← name_string "vargv";
  fs (AddParameter vargv);;
  fs (modify (λ f, with_sourcename _sourcename (with_varparams true f)));;
  stacksize ← fs GetStackSize;
  Lex;;
  program fuel fuel;;
  fs (SetStackSize stacksize);;
  l ← gets _lex;
  fs (AddLineInfos false (_currentline l) _lineinfo true);;
  emit _OP_RETURN 0xFF 0 0 0;;
  fs (SetStackSize 0);;
  c ← gets (λ c, c);
  lift (@BuildProto (heap_of (_strtable c)) (_fs c)).
End compiler.

(** The constructor of [SQCompiler], and the function [Compile] that makes one.
    The constructor reads the first character before there is a place to return to: an
    error there jumps through a buffer that was never set. *)
Section compile.
Context {KT : KeywordTable} {FR : FloatReader} `{Allocator}.

Definition new_compiler (rg : list Z) (sourcename : list ascii) (st : SQStringTable) (consts : SQTable) (tables : gmap Z SQTable) : res (SQObject * SQCompiler) :=
  match SqLexer.Init rg 0 with
  | Ok l =>
      '(st, a) ← SqString.Add st (sourcename ++ [Ascii.zero]) (-1);
      f ← new_funcstate;
      Ok (string_key a, mkCompiler 0 l f [] [] (mkExp EXPR 0 false) (mkScope 0 0) st consts tables)
  | Err _ => Err OutOfBounds
  end.
Definition compile (fuel : nat) (rg : list Z) (sourcename : list ascii) (lineinfo : bool) (st : SQStringTable) (consts : SQTable) (tables : gmap Z SQTable)
    : res (SQFunctionProto * SQCompiler) :=
  '(name, c) ← new_compiler rg sourcename st consts tables;
  Compile name lineinfo fuel c.
End compile.
