(* ===== verification/SqVm.v ===== *)
(** * Instructions of the virtual machine

    The part of [SQVM::Execute] (sqvm.cpp) that evaluates expressions in a frame: loads and
    moves, arithmetic, comparison, logic, members, calls, the jumps among them and the
    return, with the functions they call ([ARITH_OP], [BW_OP], [CMP_OP], [NEG_OP], [IsEqual]).

    The state is the registers of the frame and the rest of the machine.  What
    reaches objects of the heap or calls metamethods is a class [Runtime]:
    [Get], calls, [ObjCmp], [StringCat], the metamethods, and the message of an error.
    No register is shared with a closure. *)

From Stdlib Require Import Ascii SpecFloat.
From stdpp Require Import base numbers strings option list.
From S2P Require Import Prelude CType SqObject SqArrayLib SqProto SqFuncState SqCompiler.

Open Scope Z_scope.

(** ** Floats of 32 bits *)

Definition float_of_bits (bits : Z) : spec_float :=
  let s := Z.testbit bits 31 in
  let e := Z.land (Z.shiftr bits 23) 255 in
  let m := Z.land bits (2 ^ 23 - 1) in
  if e =? 255 then if m =? 0 then S754_infinity s else S754_nan
  else match (if e =? 0 then m else m + 2 ^ 23) with
       | Zpos p => S754_finite s p ((if e =? 0 then 1 else e) - 150)
       | _ => S754_zero s
       end.
Definition bits_of_float (f : spec_float) : Z :=
  let sign (s : bool) := if s then 2 ^ 31 else 0 in
  match f with
  | S754_zero s => sign s
  | S754_infinity s => sign s + Z.shiftl 255 23
  | S754_nan => 0x7FC00000
  | S754_finite s m e => sign s + (if Zpos m <? 2 ^ 23 then Zpos m else Z.shiftl (e + 150) 23 + (Zpos m - 2 ^ 23))
  end.

Definition float_add (a b : Z) : Z := bits_of_float (SFadd 24 128 (float_of_bits a) (float_of_bits b)).
Definition float_sub (a b : Z) : Z := bits_of_float (SFsub 24 128 (float_of_bits a) (float_of_bits b)).
Definition float_mul (a b : Z) : Z := bits_of_float (SFmul 24 128 (float_of_bits a) (float_of_bits b)).
Definition float_div (a b : Z) : Z := bits_of_float (SFdiv 24 128 (float_of_bits a) (float_of_bits b)).
Definition float_neg (a : Z) : Z := Z.lxor a (2 ^ 31).
Definition float_eq (a b : Z) : bool := SFeqb (float_of_bits a) (float_of_bits b).
Definition float_of_int (n : Z) : Z := bits_of_float (binary_normalize 24 128 n 0 false).

(** [fmod], which is exact: the remainder of a division that rounds to zero, with
    the sign of the dividend. *)
Definition float_mod (a b : Z) : Z :=
  match float_of_bits a, float_of_bits b with
  | S754_nan, _ | _, S754_nan | S754_infinity _, _ | _, S754_zero _ => bits_of_float S754_nan
  | S754_zero s, _ => bits_of_float (S754_zero s)
  | S754_finite _ _ _, S754_infinity _ => a
  | S754_finite s m1 e1, S754_finite _ m2 e2 =>
      let e := Z.min e1 e2 in
      let r := Z.rem (Z.shiftl (Zpos m1) (e1 - e)) (Z.shiftl (Zpos m2) (e2 - e)) in
      if r =? 0 then bits_of_float (S754_zero s) else bits_of_float (binary_normalize 24 128 (if s then - r else r) e s)
  end.

(** ** Operations on objects *)

Definition sq_float (bits : Z) : SQObject := mkObj OT_FLOAT bits.

(** [tofloat] *)
Definition tofloat (o : SQObject) : Z := if bool_decide (_type o = OT_INTEGER) then float_of_int (_integer o) else _unVal o.

(** [raise_error] is [Raise_Error]; [get_] is [Get], which is told whether the object
    is the [this] of the function, in register 0, the one thing it asks of its
    [selfidx]; [call_] is a call with its [this] and arguments, whatever is called,
    and [leftover] what it leaves on the stack from its frame on; [obj_cmp] is
    [ObjCmp]; [neg_meta] and [arith_meta] are the calls of metamethods, with the errors
    for operands that have none, and [type_of] is [TypeOf].  An operation that fails
    gives no object. *)
Class Runtime (H : Type) := {
  raise_error : string → H → H;
  get_ : SQObject → SQObject → bool → H → option SQObject * H;
  call_ : SQObject → list SQObject → H → option SQObject * H;
  leftover : H → Z → SQObject;
  obj_cmp : SQObject → SQObject → H → option Z * H;
  string_cat : SQObject → SQObject → H → option SQObject * H;
  arith_meta : ascii → SQObject → SQObject → H → option SQObject * H;
  neg_meta : SQObject → H → option SQObject * H;
  type_of : SQObject → H → option SQObject * H
}.

Section machine.
Context {H : Type} {RT : Runtime H}.

Definition fails {A} (msg : string) (h : H) : option A * H := (None, raise_error msg h).

Definition GetTypeName (o : SQObject) : string := default "(null)"%string (IdType2Name (type_code (_type o))).

(** A shift by more bits than there are is undefined; the processor takes the count
    modulo 32. *)
Definition BW_OP (op : Z) (o1 o2 : SQObject) (h : H) : option SQObject * H :=
  if bool_decide (_type o1 = OT_INTEGER) && bool_decide (_type o2 = OT_INTEGER) then
    let i1 := _integer o1 in
    let i2 := _integer o2 in
    switch op
      [(BW_AND, (Some (sq_int (Z.land i1 i2)), h)); (BW_OR, (Some (sq_int (Z.lor i1 i2)), h)); (BW_XOR, (Some (sq_int (Z.lxor i1 i2)), h));
       (BW_SHIFTL, (Some (sq_int (Z.shiftl i1 (Z.land i2 31))), h)); (BW_SHIFTR, (Some (sq_int (Z.shiftr i1 (Z.land i2 31))), h));
       (BW_USHIFTR, (Some (sq_int (Z.shiftr (u32 i1) (Z.land i2 31))), h))]
      (fails "internal vm error bitwise op failed" h)
  else fails ("bitwise op between '" ++ GetTypeName o1 ++ "' and '" ++ GetTypeName o2 ++ "'") h.

(** [ARITH_OP]; [op] is the character of the operator. *)
Definition int_arith (op : ascii) (i1 i2 : Z) (h : H) : option SQObject * H :=
  if bool_decide (op = "+"%char) then (Some (sq_int (i1 + i2)), h)
  else if bool_decide (op = "-"%char) then (Some (sq_int (i1 - i2)), h)
  else if bool_decide (op = "*"%char) then (Some (sq_int (i1 * i2)), h)
  else if bool_decide (op = "/"%char) then
    if i2 =? 0 then fails "division by zero" h
    else if (i2 =? -1) && (i1 =? - 2 ^ 31) then fails "integer overflow" h
    else (Some (sq_int (Z.quot i1 i2)), h)
  else if bool_decide (op = "%"%char) then
    if i2 =? 0 then fails "modulo by zero" h
    else if (i2 =? -1) && (i1 =? - 2 ^ 31) then (Some (sq_int 0), h)
    else (Some (sq_int (Z.rem i1 i2)), h)
  else (Some (sq_int 0xDEADBEEF), h).
Definition float_arith (op : ascii) (f1 f2 : Z) : SQObject :=
  sq_float (if bool_decide (op = "+"%char) then float_add f1 f2
            else if bool_decide (op = "-"%char) then float_sub f1 f2
            else if bool_decide (op = "*"%char) then float_mul f1 f2
            else if bool_decide (op = "/"%char) then float_div f1 f2
            else if bool_decide (op = "%"%char) then float_mod f1 f2
            else float_of_int 0x0f).
Definition is_number (o : SQObject) : bool := bool_decide (_type o = OT_INTEGER) || bool_decide (_type o = OT_FLOAT).
Definition is_integer (o : SQObject) : bool := bool_decide (_type o = OT_INTEGER).
Definition is_string (o : SQObject) : bool := bool_decide (_type o = OT_STRING).
Definition ARITH_OP (op : ascii) (o1 o2 : SQObject) (h : H) : option SQObject * H :=
  if is_integer o1 && is_integer o2 then int_arith op (_integer o1) (_integer o2) h
  else if is_number o1 && is_number o2 then (Some (float_arith op (tofloat o1) (tofloat o2)), h)
  else if bool_decide (op = "+"%char) && (is_string o1 || is_string o2) then string_cat o1 o2 h
  else arith_meta op o1 o2 h.

(** [_ARITH_NOZERO], of [_OP_DIV]; the quotient that does not fit wraps around. *)
Definition arith_nozero (o1 o2 : SQObject) (h : H) : option SQObject * H :=
  if is_integer o1 && is_integer o2 then
    if _integer o2 =? 0 then fails "division by zero" h else (Some (sq_int (Z.quot (_integer o1) (_integer o2))), h)
  else ARITH_OP "/" o1 o2 h.

Definition NEG_OP (o : SQObject) (h : H) : option SQObject * H :=
  match _type o with
  | OT_INTEGER => (Some (sq_int (- _integer o)), h)
  | OT_FLOAT => (Some (sq_float (float_neg (_unVal o))), h)
  | _ => neg_meta o h
  end.

Definition CMP_OP (op : Z) (o1 o2 : SQObject) (h : H) : option SQObject * H :=
  let '(r, h) := obj_cmp o1 o2 h in
  (r ← r;
   switch op
     [(CMP_G, Some (sq_bool (0 <? r))); (CMP_GE, Some (sq_bool (0 <=? r))); (CMP_L, Some (sq_bool (r <? 0)));
      (CMP_LE, Some (sq_bool (r <=? 0))); (CMP_3W, Some (sq_int r))]
     None, h).

Definition is_equal (o1 o2 : SQObject) : bool := IsEqual (λ a b, float_eq (tofloat a) (tofloat b)) o1 o2.

Definition BWNOT_OP (o : SQObject) (h : H) : option SQObject * H :=
  if is_integer o then (Some (sq_int (Z.lnot (_integer o))), h) else fails ("attempt to perform a bitwise op on a " ++ GetTypeName o) h.

(** ** Instructions *)

(** The registers of the frame, by their numbers, and the rest of the machine *)
Record machine := mkM { regs : Z → SQObject; store : H }.

Definition put (r : Z) (v : SQObject) (m : machine) : machine := mkM (λ x, if x =? r then v else regs m x) (store m).
Definition with_store (h : H) (m : machine) : machine := mkM (regs m) h.

(** The next instruction, a jump over some, an exception, the result of the function;
    other instructions are left out. *)
Inductive outcome := Next (m : machine) | Jump (n : Z) (m : machine) | Throw (m : machine) | Returns (v : SQObject) (m : machine) | Left.

(** [TARGET = ...] of an operation that may fail *)
Definition target (r : Z) (m : machine) (x : option SQObject * H) : outcome :=
  match x.1 with Some v => Next (put r v (with_store x.2 m)) | None => Throw (with_store x.2 m) end.

Section step.
Context (literals : list SQObject).
Definition literal (k : Z) : SQObject := default sq_null (literals !! Z.to_nat k).

(** [COND_LITERAL] *)
Definition cond_literal (i : instruction) (m : machine) : SQObject := if negb (arg3 i =? 0) then literal (arg1 i) else regs m (arg1 i).

Fixpoint load_nulls (r : Z) (n : nat) (m : machine) : machine :=
  match n with O => m | S n' => load_nulls (r + 1) n' (put r sq_null m) end.

(** [_OP_PREPCALL]: the member that is called, and the object as its [this] *)
Definition prepcall (i : instruction) (key : SQObject) (m : machine) : outcome :=
  let x := get_ (regs m (arg2 i)) key (arg2 i =? 0) (store m) in
  match x.1 with
  | Some v => Next (put (arg0 i) v (put (arg3 i) (regs m (arg2 i)) (with_store x.2 m)))
  | None => Throw (with_store x.2 m)
  end.
(** [_OP_CALL], of a call that comes back with a value or an exception: what it does is
    that of the function; its frame lies over the registers from its [this] on.  A
    native function that suspends the thread is left out. *)
Definition frame_over (b : Z) (h : H) (m : machine) : machine := mkM (λ r, if r <? b then regs m r else leftover h r) h.
Definition call (i : instruction) (m : machine) : outcome :=
  let x := call_ (regs m (arg1 i)) (regs m <$> seqZ (arg2 i) (arg3 i)) (store m) in
  let m := frame_over (arg2 i) x.2 m in
  match x.1 with Some v => Next (if arg0 i =? 0xFF then m else put (arg0 i) v m) | None => Throw m end.

(** The cases of [Execute] *)
Definition step (i : instruction) (m : machine) : outcome :=
  let STK := regs m in
  let h := store m in
  match iop i with
  | _OP_LINE => Next m
  | _OP_LOAD => Next (put (arg0 i) (literal (arg1 i)) m)
  | _OP_LOADINT => Next (put (arg0 i) (sq_int (arg1 i)) m)
  | _OP_LOADFLOAT => Next (put (arg0 i) (sq_float (u32 (arg1 i))) m)
  | _OP_DLOAD => Next (put (arg2 i) (literal (arg3 i)) (put (arg0 i) (literal (arg1 i)) m))
  | _OP_CALL => call i m
  | _OP_PREPCALL => prepcall i (STK (arg1 i)) m
  | _OP_PREPCALLK => prepcall i (literal (arg1 i)) m
  | _OP_GETK => target (arg0 i) m (get_ (STK (arg2 i)) (literal (arg1 i)) (arg2 i =? 0) h)
  | _OP_MOVE => Next (put (arg0 i) (STK (arg1 i)) m)
  | _OP_GET => target (arg0 i) m (get_ (STK (arg1 i)) (STK (arg2 i)) (arg1 i =? 0) h)
  | _OP_EQ => Next (put (arg0 i) (sq_bool (is_equal (STK (arg2 i)) (cond_literal i m))) m)
  | _OP_NE => Next (put (arg0 i) (sq_bool (negb (is_equal (STK (arg2 i)) (cond_literal i m)))) m)
  | _OP_ADD => target (arg0 i) m (ARITH_OP "+" (STK (arg2 i)) (STK (arg1 i)) h)
  | _OP_SUB => target (arg0 i) m (ARITH_OP "-" (STK (arg2 i)) (STK (arg1 i)) h)
  | _OP_MUL => target (arg0 i) m (ARITH_OP "*" (STK (arg2 i)) (STK (arg1 i)) h)
  | _OP_DIV => target (arg0 i) m (arith_nozero (STK (arg2 i)) (STK (arg1 i)) h)
  | _OP_MOD =>
      let x := ARITH_OP "%" (STK (arg2 i)) (STK (arg1 i)) h in
      Next (match x.1 with Some v => put (arg0 i) v (with_store x.2 m) | None => with_store x.2 m end)
  | _OP_BITW => target (arg0 i) m (BW_OP (arg3 i) (STK (arg2 i)) (STK (arg1 i)) h)
  | _OP_LOADNULLS => Next (load_nulls (arg0 i) (Z.to_nat (arg1 i)) m)
  | _OP_LOADBOOL => Next (put (arg0 i) (sq_bool (negb (arg1 i =? 0))) m)
  | _OP_DMOVE =>
      let m := put (arg0 i) (STK (arg1 i)) m in
      Next (put (arg2 i) (regs m (arg3 i)) m)
  | _OP_JMP => Jump (arg1 i) m
  | _OP_JCMP =>
      let x := CMP_OP (arg3 i) (STK (arg2 i)) (STK (arg0 i)) h in
      match x.1 with
      | Some v => if IsFalse v then Jump (arg1 i) (with_store x.2 m) else Next (with_store x.2 m)
      | None => Throw (with_store x.2 m)
      end
  | _OP_JZ => if IsFalse (STK (arg0 i)) then Jump (arg1 i) m else Next m
  | _OP_CMP => target (arg0 i) m (CMP_OP (arg3 i) (STK (arg2 i)) (STK (arg1 i)) h)
  | _OP_AND => if IsFalse (STK (arg2 i)) then Jump (arg1 i) (put (arg0 i) (STK (arg2 i)) m) else Next m
  | _OP_OR => if negb (IsFalse (STK (arg2 i))) then Jump (arg1 i) (put (arg0 i) (STK (arg2 i)) m) else Next m
  | _OP_NEG => target (arg0 i) m (NEG_OP (STK (arg1 i)) h)
  | _OP_NOT => Next (put (arg0 i) (sq_bool (IsFalse (STK (arg1 i)))) m)
  | _OP_BWNOT => target (arg0 i) m (BWNOT_OP (STK (arg1 i)) h)
  | _OP_TYPEOF => target (arg0 i) m (type_of (STK (arg1 i)) h)
  | _OP_RETURN => Returns (if negb (arg0 i =? 0xFF) then STK (arg1 i) else sq_null) m
  | _ => Left
  end.

End step.

(** A sequence of instructions whose jumps go forward, and how many instructions
    behind its end are still to be jumped over *)
Inductive finish := Done (skip : nat) (m : machine) | Thrown (m : machine) | Returned (v : SQObject) (m : machine) | Away.
Fixpoint exec (do_step : instruction → machine → outcome) (code : list instruction) (skip : nat) (m : machine) : finish :=
  match code with
  | [] => Done skip m
  | i :: code' =>
      match skip with
      | S k => exec do_step code' k m
      | O =>
          match do_step i m with
          | Next m => exec do_step code' 0 m
          | Jump n m => if n <? 0 then Away else exec do_step code' (Z.to_nat n) m
          | Throw m => Thrown m
          | Returns v m => Returned v m
          | Left => Away
          end
      end
  end.

(** The loop of [Execute]: the instruction at [_ip], which is counted up first, so
    that jumps are relative to the next one.  [None] is a run that has not ended;
    outside of the function it goes [Away].  The runs are those in which nobody asks
    the thread to stop, and nobody else changes the store while it lets others run. *)
Fixpoint execute (do_step : instruction → machine → outcome) (code : list instruction) (fuel : nat) (ip : Z) (m : machine) : option finish :=
  match fuel with
  | O => None
  | S fuel' =>
      match (if ip <? 0 then None else code !! Z.to_nat ip) with
      | None => Some Away
      | Some i =>
          match do_step i m with
          | Next m => execute do_step code fuel' (ip + 1) m
          | Jump n m => execute do_step code fuel' (ip + 1 + n) m
          | Throw m => Some (Thrown m)
          | Returns v m => Some (Returned v m)
          | Left => Some Away
          end
      end
  end.
End machine.
