(* ===== verification/SqPeephole.v ===== *)
(** * Improving instructions

    [AddInstruction] looks at the instruction in front of the one it is given and
    often puts a single one in the place of both.  This file shows when that is
    right: what the instructions do to the registers that are still used, and to
    the rest of the machine, is what they did before. *)

From Stdlib Require Import Ascii.
From stdpp Require Import base numbers strings option list.
From S2P Require Import Prelude CType SqObject SqArrayLib SqFuncState SqCompiler SqVm.

Open Scope Z_scope.

Section peephole.
Context {H : Type} {RT : Runtime H} (literals : list SQObject).
Implicit Types m : machine (H := H).

(** A modulo that fails is not noticed by [Execute], which goes on with what the
    target happened to hold; programs that do this are set apart. *)
Definition mod_fails (i : instruction) m : bool :=
  match iop i with
  | _OP_MOD => match (ARITH_OP "%" (regs m (arg2 i)) (regs m (arg1 i)) (store m)).1 with None => true | Some _ => false end
  | _ => false
  end.
Definition strict_step (i : instruction) m : outcome := if mod_fails i m then Left else step literals i m.
Abbreviation sexec := (exec strict_step).

Lemma strict_same i m : iop i ≠ _OP_MOD → strict_step i m = step literals i m.
Proof using Type. unfold strict_step, mod_fails. by destruct (iop i). Qed.

(** ** Machines that agree on some registers *)

Definition agree (P : Z → Prop) (m1 m2 : machine (H := H)) : Prop := (∀ r, P r → regs m1 r = regs m2 r) ∧ store m1 = store m2.

(** The registers of [P] are the same at the end, those of [Q] when an exception
    is thrown. *)
Definition same_finish (P Q : Z → Prop) (f1 f2 : finish (H := H)) : Prop :=
  match f1, f2 with
  | Done k1 m1, Done k2 m2 => k1 = k2 ∧ agree P m1 m2
  | Thrown m1, Thrown m2 => agree Q m1 m2
  | Returned v1 m1, Returned v2 m2 => v1 = v2 ∧ store m1 = store m2
  | Away, Away => True
  | _, _ => False
  end.

Lemma agree_refl P m : agree P m m.
Proof using Type. done. Qed.
Lemma agree_sym P m1 m2 : agree P m1 m2 → agree P m2 m1.
Proof using Type. intros [Hr Hs]. split; [|done]. intros r Pr. by rewrite Hr. Qed.
Lemma agree_trans P m1 m2 m3 : agree P m1 m2 → agree P m2 m3 → agree P m1 m3.
Proof using Type. intros [Hr Hs] [Hr' Hs']. split; [|congruence]. intros r Pr. by rewrite Hr, Hr'. Qed.
Lemma agree_mono (P Q : Z → Prop) m1 m2 : (∀ r, Q r → P r) → agree P m1 m2 → agree Q m1 m2.
Proof using Type. intros HPQ [Hr Hs]. split; [|done]. intros r Qr. by apply Hr, HPQ. Qed.

Lemma same_finish_refl P Q f : same_finish P Q f f.
Proof using Type. by destruct f. Qed.
Lemma same_finish_sym P Q f1 f2 : same_finish P Q f1 f2 → same_finish P Q f2 f1.
Proof using Type.
  destruct f1, f2; try done; simpl; [|apply agree_sym|by intros [-> ->]]. intros [-> ?]. split; [done|by apply agree_sym].
Qed.
Lemma same_finish_trans P Q f1 f2 f3 : same_finish P Q f1 f2 → same_finish P Q f2 f3 → same_finish P Q f1 f3.
Proof using Type.
  destruct f1, f2, f3; try done; simpl; [|by apply agree_trans|].
  - intros [-> H1] [-> H2]. split; [done|]. by eapply agree_trans.
  - intros [-> H1] [-> H2]. split; [done|congruence].
Qed.
Lemma same_finish_mono (P P' Q Q' : Z → Prop) f1 f2 : (∀ r, P' r → P r) → (∀ r, Q' r → Q r) → same_finish P Q f1 f2 → same_finish P' Q' f1 f2.
Proof using Type.
  intros HP HQ. destruct f1, f2; try done; simpl; [|by apply agree_mono]. intros [-> H1]. split; [done|]. by eapply agree_mono.
Qed.

(** ** Sequences *)

Lemma exec_app c1 c2 k m :
  sexec (c1 ++ c2) k m = match sexec c1 k m with Done k' m' => sexec c2 k' m' | x => x end.
Proof using Type.
  revert k m. induction c1 as [|i c1 IH]; intros k m; simpl; [done|]. destruct k as [|k]; [|apply IH].
  destruct (strict_step i m) as [m1|n m1| | |]; [apply IH| |done|done|done]. destruct (n <? 0); [done|apply IH].
Qed.

Lemma exec_skip c m : sexec c (length c) m = Done 0 m.
Proof using Type. induction c as [|i c IH]; simpl; [done|apply IH]. Qed.

(** Without a modulo that fails, this is what the machine does. *)
Lemma exec_strict c k m : sexec c k m ≠ Away → exec (step literals) c k m = sexec c k m.
Proof using Type.
  revert k m. induction c as [|i c IH]; intros k m; simpl; [done|]. destruct k as [|k]; [|apply IH]. unfold strict_step.
  destruct (mod_fails i m); [done|]. destruct (step literals i m) as [m1|n m1| | |]; try done; [apply IH|]. destruct (n <? 0); [done|apply IH].
Qed.

(** No jump of the sequence goes behind its end. *)
Definition closed (code : list instruction) : Prop := ∀ m, match sexec code 0 m with Done (S _) _ => False | _ => True end.

Lemma closed_nil : closed [].
Proof using Type. done. Qed.

(** ** Pairs of instructions *)

(** An instruction of an expression that goes on to the next *)
Definition goes_on (o : SQOpcode) : bool :=
  match o with
  | _OP_LINE | _OP_LOAD | _OP_LOADINT | _OP_LOADFLOAT | _OP_DLOAD | _OP_CALL | _OP_PREPCALL | _OP_PREPCALLK | _OP_GETK | _OP_MOVE | _OP_GET
  | _OP_EQ | _OP_NE | _OP_ADD | _OP_SUB | _OP_MUL | _OP_DIV | _OP_MOD | _OP_BITW | _OP_LOADNULLS | _OP_LOADBOOL | _OP_DMOVE | _OP_CMP
  | _OP_NEG | _OP_NOT | _OP_BWNOT | _OP_TYPEOF => true
  | _ => false
  end.

Lemma goes_on_step i m : goes_on (iop i) = true → match step literals i m with Next _ | Throw _ => True | _ => False end.
Proof using Type. unfold step, target, call, prepcall. destruct (iop i); try done; intros _; repeat case_match; done. Qed.

(** The register that a fused pair no longer sets: the target of the first
    instruction, unless the second sets it. *)
Definition fused_target (pi i : instruction) : option Z :=
  match iop i with
  | _OP_JZ => if bool_decide (iop pi = _OP_CMP) then Some (arg0 pi) else None
  | _OP_GET => if bool_decide (iop pi = _OP_LOAD) && (arg0 pi =? arg2 i) then Some (arg0 pi) else None
  | _OP_PREPCALL | _OP_EQ | _OP_NE => if bool_decide (iop pi = _OP_LOAD) && (arg0 pi =? arg1 i) then Some (arg0 pi) else None
  | _OP_MOVE => if has_target (iop pi) && (arg0 pi =? arg1 i) then Some (arg0 pi) else None
  | _ => None
  end.
Definition sets (i : instruction) (r : Z) : Prop :=
  match iop i with
  | _OP_GET | _OP_EQ | _OP_NE => r = arg0 i
  | _OP_PREPCALL => r = arg0 i ∨ r = arg3 i
  | _ => False
  end.
(** What holds the same after the pair and after what takes its place *)
Definition kept (pi i : instruction) (r : Z) : Prop := Some r ≠ fused_target pi i ∨ sets i r.
Definition kept_thrown (pi i : instruction) (r : Z) : Prop := Some r ≠ fused_target pi i.

(** The pairs that [AddInstruction] may join: a test is of the comparison that
    precedes it; an instruction that is given another target does not need its old
    one; a literal is used once, as the key or the second operand. *)
Definition joinable (pi i : instruction) : Prop :=
  match iop i with
  | _OP_JZ => iop pi = _OP_CMP → arg0 i = arg0 pi ∧ 0 ≤ arg1 pi
  | _OP_GET => iop pi = _OP_LOAD → arg0 pi = arg2 i → 0 ≤ arg1 i < 256 ∧ arg1 i ≠ arg2 i
  | _OP_PREPCALL => iop pi = _OP_LOAD → arg0 pi = arg1 i → arg2 i ≠ arg1 i
  | _OP_EQ | _OP_NE => iop pi = _OP_LOAD → arg0 pi = arg1 i → arg2 i ≠ arg1 i ∧ arg3 i = 0
  | _OP_LOADNULLS => iop pi = _OP_LOADNULLS → arg1 i = 1 ∧ 0 ≤ arg1 pi < 2 ^ 31 - 1
  | _OP_MOVE => 0 ≤ arg1 i < 256 ∧ arg1 i ≠ arg0 i
  | _OP_LOAD => 0 ≤ arg1 i
  | _ => True
  end.

(** What the improved pair is, as a sequence. *)
Definition improved_code (x : improved) (i : instruction) : list instruction :=
  match x with Keep pi i => [pi; i] | Fuse pi | Redirect pi => [pi] | Relined => [i] end.
Abbreviation improves nested f size pi i m :=
  (same_finish (kept pi i) (kept_thrown pi i) (sexec [pi; i] 0 m) (sexec (improved_code (improve nested f size pi i) i) 0 m)).

(** Two machines that differ in a register *)
Lemma agree_put t v m : agree (λ r, Some r ≠ Some t) (put t v m) m.
Proof using Type. split; [|done]. intros r Hr. simpl. destruct (Z.eqb_spec r t) as [->|]; [done|done]. Qed.
Lemma put_same t v m : regs (put t v m) t = v.
Proof using Type. simpl. by rewrite Z.eqb_refl. Qed.
Lemma put_other t v m r : r ≠ t → regs (put t v m) r = regs m r.
Proof using Type. intros Hr. simpl. by destruct (Z.eqb_spec r t). Qed.

Lemma agree_put_both d v t w m : agree (λ r, Some r ≠ Some t ∨ r = d) (put d v (put t w m)) (put d v m).
Proof using Type.
  split; [|done]. intros r Hr. simpl. destruct (Z.eqb_spec r d); [done|]. destruct (Z.eqb_spec r t) as [->|]; [|done]. by destruct Hr.
Qed.

Ltac ops := repeat match goal with
  | H : _ && _ = true |- _ => apply andb_true_iff in H as [? ?]
  | H : bool_decide _ = true |- _ => apply bool_decide_eq_true in H
  | H : (_ =? _) = true |- _ => apply Z.eqb_eq in H
  | H : (_ <? _) = true |- _ => apply Z.ltb_lt in H
  end.

(** The second instruction of a pair *)
Lemma sexec_pair pi i m : goes_on (iop pi) = true →
  sexec [pi; i] 0 m = match strict_step pi m with Next m1 => sexec [i] 0 m1 | Throw m1 => Thrown m1 | _ => Away end.
Proof using Type.
  intros Hpi. pose proof (goes_on_step pi m Hpi) as Hs. cbn [exec]. unfold strict_step. destruct (mod_fails pi m); [done|].
  by destruct (step literals pi m).
Qed.

(** An instruction that is given another target *)
Lemma retarget pi d m : has_target (iop pi) = true →
  match strict_step pi m, strict_step (set_arg0 d pi) m with
  | Next m1, Next m2 => ∃ v h, m1 = put (arg0 pi) v (with_store h m) ∧ m2 = put d v (with_store h m)
  | Throw m1, Throw m2 => m1 = m2
  | Left, Left => True
  | _, _ => False
  end.
Proof using Type.
  destruct pi as [o a0 a1 a2 a3]. unfold strict_step, mod_fails. intros Ho. destruct o; try done; cbn; unfold target; try (by eexists _, _).
  all: match goal with |- context [match ?x.1 with _ => _ end] => destruct x as [[]] end; cbn; try done; by eexists _, _.
Qed.

Lemma improve_move nested f size pi i m : iop i = _OP_MOVE → goes_on (iop pi) = true → joinable pi i → improves nested f size pi i m.
Proof using Type.
  destruct i as [o b0 b1 b2 b3]. cbn [iop]. intros -> Hpi Hj. unfold improve, kept, kept_thrown, fused_target, sets. cbn -[sexec has_target] in *.
  destruct (has_target (iop pi) && _) eqn:E.
  - ops. subst. rewrite sexec_pair by done. pose proof (retarget pi b0 m ltac:(done)) as Hr. cbn.
    destruct (strict_step pi m), (strict_step (set_arg0 b0 pi) m); try done; simpl; [|by subst].
    destruct Hr as (v & h & -> & ->). split; [done|]. rewrite put_same. eapply agree_mono; [|apply agree_put_both]. simpl. tauto.
  - case_bool_decide as Ep; [|apply same_finish_refl]. destruct pi as [o a0 a1 a2 a3]. simpl in Ep. subst o. cbn.
    unfold strict_step, mod_fails. cbn. rewrite u8_small by lia. done.
Qed.

(** A literal that is used once *)
Lemma improve_literal nested f size pi i m : iop i = _OP_GET ∨ iop i = _OP_EQ ∨ iop i = _OP_NE → goes_on (iop pi) = true → joinable pi i →
  improves nested f size pi i m.
Proof using Type.
  destruct pi as [o a0 a1 a2 a3], i as [o' b0 b1 b2 b3]. cbn [iop]. intros Ho Hpi Hj.
  destruct Ho as [->|[->| ->]]; unfold improve, kept, kept_thrown; cbn -[sexec] in *; (destruct (_ && negb _) eqn:E; [|apply same_finish_refl]); ops; subst;
    specialize (Hj eq_refl eq_refl); rewrite sexec_pair by done; cbn; rewrite ?Z.eqb_refl; unfold strict_step, mod_fails; cbn.
  - destruct Hj as [Hb1 Hne]. rewrite u8_small by done. rewrite (proj2 (Z.eqb_neq b1 b2)), ?Z.eqb_refl by done. unfold target.
    destruct (get_ (regs m b1) _ _ _) as [[v|] h]; cbn; [split; [done|]|apply (agree_put b2 _ (with_store h m))]. apply (agree_put_both b0 v b2 _ (with_store h m)).
  - destruct Hj as [Hne ->]. rewrite (proj2 (Z.eqb_neq b2 b1)) by done. unfold cond_literal. cbn. rewrite ?Z.eqb_refl. split; [done|]. apply agree_put_both.
  - destruct Hj as [Hne ->]. rewrite (proj2 (Z.eqb_neq b2 b1)) by done. unfold cond_literal. cbn. rewrite ?Z.eqb_refl. split; [done|]. apply agree_put_both.
Qed.

(** The name of the member that is called *)
Lemma improve_prepcall nested f size pi i m : iop i = _OP_PREPCALL → goes_on (iop pi) = true → joinable pi i → improves nested f size pi i m.
Proof using Type.
  destruct pi as [o a0 a1 a2 a3], i as [o' b0 b1 b2 b3]. cbn [iop]. intros -> Hpi Hj. unfold improve, kept, kept_thrown. cbn -[sexec] in *.
  destruct (_ && negb _) eqn:E; [|apply same_finish_refl]. ops. subst. specialize (Hj eq_refl eq_refl). rewrite sexec_pair by done. cbn. rewrite Z.eqb_refl.
  unfold strict_step, mod_fails. cbn. unfold prepcall. cbn. rewrite (proj2 (Z.eqb_neq b2 b1)), ?Z.eqb_refl by done.
  destruct (get_ (regs m b2) _ _ _) as [[v|] h]; cbn; [split; [done|]|apply (agree_put b1 _ (with_store h m))].
  split; [|done]. intros r Hr. cbn. destruct (Z.eqb_spec r b0); [done|]. destruct (Z.eqb_spec r b3); [done|].
  destruct (Z.eqb_spec r b1); [|done]. destruct Hr as [Hr|[]]; subst; by cbn in *.
Qed.

(** The test of a comparison *)
Lemma improve_jz nested f size pi i m : iop i = _OP_JZ → goes_on (iop pi) = true → joinable pi i → improves nested f size pi i m.
Proof using Type.
  destruct pi as [o a0 a1 a2 a3], i as [o' b0 b1 b2 b3]. cbn [iop]. intros -> Hpi Hj. unfold improve, kept, kept_thrown. cbn -[sexec] in *.
  destruct (_ && _) eqn:E; [|apply same_finish_refl]. ops. subst. destruct Hj as [-> Ha]; [done|]. rewrite sexec_pair by done. cbn. rewrite u8_small by lia.
  assert (∀ v h, agree (λ r, Some r ≠ Some a0 ∨ False) (put a0 v (with_store h m)) (with_store h m)) as Hp.
  { intros v h. eapply agree_mono; [|apply agree_put]. simpl. tauto. }
  unfold strict_step, mod_fails. cbn. unfold target. destruct (CMP_OP a3 (regs m a2) (regs m a1) (store m)) as [[v|] h]; cbn; [|done].
  rewrite Z.eqb_refl. destruct (IsFalse v); cbn; [|by split]. destruct (b1 <? 0); [done|]. by split.
Qed.

Lemma load_nulls_snoc r n m : load_nulls r (S n) m = put (r + Z.of_nat n) sq_null (load_nulls r n m).
Proof using Type.
  revert r m. induction n as [|n IH]; intros r m; [simpl; f_equal; lia|]. change (load_nulls (r + 1) (S n) (put r sq_null m) = put (r + Z.of_nat (S n)) sq_null (load_nulls (r + 1) n (put r sq_null m))).
  rewrite IH. f_equal. lia.
Qed.

(** An instruction of an expression *)
Definition in_expression (o : SQOpcode) : bool := goes_on o || match o with _OP_JMP | _OP_JZ | _OP_JCMP | _OP_AND | _OP_OR => true | _ => false end.

(** Joining two instructions changes nothing but the target of the first. *)
Lemma improve_pair nested f size pi i m :
  goes_on (iop pi) = true → in_expression (iop i) = true → joinable pi i → improves nested f size pi i m.
Proof using Type.
  intros Hpi Hi Hj. destruct (iop i) eqn:Ei; try done; try (by apply improve_move); try (by apply improve_jz); try (by apply improve_prepcall);
    try (apply improve_literal; by auto); unfold improve; rewrite Ei; try apply same_finish_refl.
  - case_bool_decide as Ep; [|apply same_finish_refl]. destruct pi as [o a0 a1 a2 a3], i as [o' b0 b1 b2 b3]. simpl in *. subst. done.
  - destruct (_ && _) eqn:E; [|apply same_finish_refl]. ops. destruct pi as [o a0 a1 a2 a3], i as [o' b0 b1 b2 b3]. simpl in *. subst.
    cbn. unfold strict_step, mod_fails. cbn. unfold joinable in Hj. cbn in Hj. rewrite u8_small by lia. done.
  - destruct (_ && _) eqn:E; [|apply same_finish_refl]. ops. destruct pi as [o a0 a1 a2 a3], i as [o' b0 b1 b2 b3]. simpl in *. subst.
    unfold joinable in Hj. cbn in Hj. destruct (Hj eq_refl) as [-> Ha]. cbn. unfold strict_step, mod_fails. cbn. split; [done|].
    rewrite s32_small by lia. replace (Z.to_nat (a1 + 1)) with (S (Z.to_nat a1)) by lia. rewrite load_nulls_snoc, Z2Nat.id by lia. apply agree_refl.
Qed.
End peephole.
