(* ===== verification/SqCompilerEnds.v ===== *)
(** * The compiler comes to an end

    On every text [Compile] gives a function or stops with an error: no loop and
    no recursion of the compiler runs away.  Each call of a function of the
    grammar has fewer characters in front of it than the call it is made from, or
    a function further down in the grammar.  The tables of the compiler keep
    their invariants on the way. *)

From Stdlib Require Import Ascii.
From stdpp Require Import base numbers gmap strings option list.
From S2P Require Import Prelude CType SqObject SqTable SqTableInv SqTableSpec SqString SqProto SqLexer SqLexerSpec SqKeywords SqFuncState SqCompiler.

Open Scope Z_scope.

(** ** Computations that end *)

(** Fuel does not run out, and a result is in [Q]. *)
Definition ends {S A} (m : stM S A) (s : S) (Q : A → S → Prop) : Prop :=
  match m s with Ok (a, s') => Q a s' | Err OutOfFuel => False | Err _ => True end.

Section ends.
Context {S A B : Type}.
Implicit Types (m : stM S A) (f : A → stM S B) (s : S).

Lemma ends_mono m s (Q Q' : A → S → Prop) : ends m s Q → (∀ a s', Q a s' → Q' a s') → ends m s Q'.
Proof. unfold ends. intros Hm HQ. destruct (m s) as [[a s']|]; [by apply HQ|done]. Qed.
Lemma ends_bind m f s (Q : B → S → Prop) : ends m s (λ a s', ends (f a) s' Q) → ends (m ≫= f) s Q.
Proof. unfold ends, mbind, stM_bind. intros Hm. destruct (m s) as [[a s']|[]]; done. Qed.
Lemma ends_ret (a : A) s (Q : A → S → Prop) : Q a s → ends (mret a) s Q.
Proof. done. Qed.
Lemma ends_gets (g : S → A) s (Q : A → S → Prop) : Q (g s) s → ends (gets g) s Q.
Proof. done. Qed.
Lemma ends_modify (g : S → S) s (Q : () → S → Prop) : Q () (g s) → ends (modify g) s Q.
Proof. done. Qed.
Lemma ends_raise e s (Q : A → S → Prop) : e ≠ OutOfFuel → ends (raise e) s Q.
Proof. unfold ends, raise. by destruct e. Qed.
Lemma ends_lift (r : res A) s (Q : A → S → Prop) : r ≠ Err OutOfFuel → (∀ a, r = Ok a → Q a s) → ends (lift r) s Q.
Proof. unfold ends, lift. destruct r as [|[]]; auto. Qed.
Lemma ends_when b (m : stM S ()) s (Q : () → S → Prop) : (b = true → ends m s Q) → (b = false → Q () s) → ends (when b m) s Q.
Proof. destruct b; intros H1 H2; [by apply H1|by apply H2]. Qed.
Lemma ends_safe m s (Q : A → S → Prop) : safe m s Q → ends m s Q.
Proof. unfold ends, safe. by destruct (m s) as [[]|[]]. Qed.
Lemma ends_and m s (Q Q' : A → S → Prop) : ends m s Q → ends m s Q' → ends m s (λ a s', Q a s' ∧ Q' a s').
Proof. unfold ends. by destruct (m s) as [[]|[]]. Qed.
End ends.

Lemma switch_intro {A} (P : A → Prop) t cases d :
  Forall (λ c, t = c.1 → P c.2) cases → (Forall (λ c, t ≠ c.1) cases → P d) → P (switch t cases d).
Proof.
  intros Hc. induction Hc as [|[k a] cases Ha Hc IH]; intros Hd; simpl; [by apply Hd|].
  destruct (Z.eqb_spec t k) as [->|Hne]; [by apply Ha|]. apply IH. intros Hall. apply Hd. by constructor.
Qed.

(** ** The tables *)

Section tables.
Context `{Allocator}.

(** A string is one of [sm]. *)
Definition live_in (sm : gmap Z (list ascii)) (o : SQObject) : Prop := _type o = OT_STRING → is_Some (sm !! _unVal o).

(** The table is a map whose strings are strings of [sm]. *)
Definition table_ok (st : SQStringTable) (sm : gmap Z (list ascii)) (t : SQTable) : Prop :=
  ∃ m, @models (heap_of st) t m ∧ ∀ k v, m !! k = Some v → live_in sm k ∧ live_in sm v.

Lemma live_in_grow sm sm' o : sm ⊆ sm' → live_in sm o → live_in sm' o.
Proof using Type. intros Hsub Ho Et. destruct (Ho Et) as [w Hw]. exists w. by eapply lookup_weaken. Qed.

Lemma models_grow st sm st' sm' t m : interns st sm → interns st' sm' → sm ⊆ sm' → (∀ k v, m !! k = Some v → live_in sm k ∧ live_in sm v) →
  @models (heap_of st) t m → @models (heap_of st') t m.
Proof using Type.
  intros Hi Hi' Hsub Hk. apply models_heap. intros k v Hkv. unfold HashObj. destruct (_type k) eqn:Et; try done.
  destruct (proj1 (Hk k v Hkv) Et) as [w Hw]. destruct (heap_of_live st sm _ w Hi Hw) as [_ ->].
  destruct (heap_of_live st' sm' (_unVal k) w Hi') as [_ ->]; [by eapply lookup_weaken|done].
Qed.
Lemma table_ok_grow st sm st' sm' t : interns st sm → interns st' sm' → sm ⊆ sm' → table_ok st sm t → table_ok st' sm' t.
Proof using Type.
  intros Hi Hi' Hsub (m & Hm & Hk). exists m. split; [by apply (models_grow st sm st' sm')|]. intros k v [? ?]%Hk; split; by eapply live_in_grow.
Qed.

Lemma new_table_ok st sm : ∃ t, SqTable.Create 0 = Ok t ∧ table_ok st sm t.
Proof using Type. destruct (@Create_models (heap_of st) 0) as (t & E & Hm & _); [done|]. exists t. split; [done|]. by exists ∅. Qed.

Lemma table_get_ok st sm t k : table_ok st sm t → ∃ r, @SqTable.Get (heap_of st) t k = Ok r ∧ ∀ v, r = Some v → live_in sm v.
Proof using Type.
  intros (m & Hm & Hk). rewrite (Get_models _ m) by done. eexists. split; [done|]. intros v. destruct (m !! k) as [x|] eqn:Hx; [|done].
  intros [= <-]. unfold _realval. case_bool_decide; [done|]. by eapply Hk.
Qed.

(** [NewSlot] of a null key fails in an assertion. *)
Lemma table_new_ok st sm t k v : table_ok st sm t → live_in sm k → live_in sm v →
  match @SqTable.NewSlot (heap_of st) table_fuel t k v with Ok (t', _) => table_ok st sm t' | Err e => e = AssertFail end.
Proof using Type.
  intros (m & Hm & Hk) Hlk Hlv. destruct (is_null k) eqn:Hn.
  { unfold table_fuel. cbn [SqTable.NewSlot]. by rewrite Hn. }
  destruct (@NewSlot_models (heap_of st) 0 t m k v Hm Hn) as (t' & b & E & Hm' & _). unfold table_fuel. rewrite E.
  exists (<[k := v]> m). split; [done|]. intros k' v'. rewrite lookup_insert_Some. naive_solver.
Qed.

Lemma intern_ok st sm s len : interns st sm → len ≤ Z.of_nat (length s) →
  ∃ st' a sm', SqString.Add st s len = Ok (st', a) ∧ interns st' sm' ∧ sm ⊆ sm' ∧ sm' !! a = Some (asked s len).
Proof using Type.
  intros Hi Hl. destruct (Add_ok st sm s len Hi Hl) as (st' & a & sm' & E & Hi' & Hc). exists st', a, sm'. split; [done|]. split; [done|].
  destruct Hc as [(Ha & -> & ->)|(_ & Ha & ->)]; [done|]. split; [by apply insert_subseteq|]. by rewrite lookup_insert_eq.
Qed.
End tables.

(** ** The state of the compiler *)

(** The literals of a function, at most [n] *)
Definition literals_ok (st : SQStringTable) (sm : gmap Z (list ascii)) (n : nat) (t : SQTable) : Prop :=
  ∃ m, @models (heap_of st) t m ∧ (∀ k v, m !! k = Some v → live_in sm k ∧ live_in sm v) ∧
    _numofnodes t ≤ Z.max 4 (3 * Z.of_nat (size m)) ∧ (size m ≤ n)%nat.
Definition fs_ok (st : SQStringTable) (sm : gmap Z (list ascii)) (n : nat) (f : SQFuncState) : Prop :=
  literals_ok st sm n (_literals f) ∧ table_ok st sm (_strings f).

Lemma literals_table st sm n t : literals_ok st sm n t → table_ok st sm t.
Proof. intros (m & ? & ? & _). by exists m. Qed.
Lemma literals_mono st sm n n' t : literals_ok st sm n t → (n ≤ n')%nat → literals_ok st sm n' t.
Proof. intros (m & ? & ? & ? & ?) Hn. exists m. split_and!; [done..|lia]. Qed.
Lemma fs_ok_mono st sm n n' f : fs_ok st sm n f → (n ≤ n')%nat → fs_ok st sm n' f.
Proof. intros [? ?] Hn. split; [by eapply literals_mono|done]. Qed.
Lemma fs_ok_grow st sm st' sm' n f : interns st sm → interns st' sm' → sm ⊆ sm' → fs_ok st sm n f → fs_ok st' sm' n f.
Proof.
  intros Hi Hi' Hsub [(m & Hm & Hk & Hb & Hs) Ht]. split; [|by apply (table_ok_grow st sm)].
  exists m. split; [by apply (models_grow st sm st' sm')|]. split; [|done]. intros k v [? ?]%Hk; split; by eapply live_in_grow.
Qed.

(** The strings there are *)
Definition strs (c : SQCompiler) : gmap Z (list ascii) := str_val <$> str_heap (_strtable c).
Definition live (c : SQCompiler) (o : SQObject) : Prop := live_in (strs c) o.

Record inv (n : nat) (c : SQCompiler) : Prop := {
  inv_strings : interns (_strtable c) (strs c);
  inv_fs : fs_ok (_strtable c) (strs c) n (_fs c);
  inv_parents : Forall (fs_ok (_strtable c) (strs c) n) (_parents c);
  inv_children : Forall (fs_ok (_strtable c) (strs c) n) (_childstates c);
  inv_consts : table_ok (_strtable c) (strs c) (_consts c);
  inv_tables : map_Forall (λ _, table_ok (_strtable c) (strs c)) (_tables c);
  inv_char : 0 ≤ _currdata (_lex c) < 256
}.

(** How much there is to read: twice the characters, and the current token, which
    [Factor] may turn from [::] into [.] *)
Definition weight (t : Z) : nat := if t =? 0 then 0 else if t =? TK_DOUBLE_COLON then 2 else 1.
Definition to_read (c : SQCompiler) : nat := 2 * ahead (_lex c) + weight (_token c).

(** [c] comes after [c0], at least [d] further on in the text; a literal was
    made for each step of it at most. *)
Definition after (d n0 : nat) (c0 c : SQCompiler) : Prop :=
  ∃ n, inv n c ∧ strs c0 ⊆ strs c ∧ (to_read c + d ≤ to_read c0)%nat ∧ (n + to_read c ≤ n0 + to_read c0)%nat.

(** Nothing is read. *)
Record quiet (n : nat) (c0 c : SQCompiler) : Prop := {
  qu_inv : inv n c;
  qu_grow : strs c0 ⊆ strs c;
  qu_token : _token c = _token c0;
  qu_lex : _lex c = _lex c0
}.

Lemma quiet_read n c c' : quiet n c c' → to_read c' = to_read c.
Proof. intros [_ _ Et El]. unfold to_read. by rewrite Et, El. Qed.
Lemma quiet_refl n c : inv n c → quiet n c c.
Proof. by split. Qed.
Lemma live_grow c c' o : strs c ⊆ strs c' → live c o → live c' o.
Proof. apply live_in_grow. Qed.
Lemma inv_mono n n' c : inv n c → (n ≤ n')%nat → inv n' c.
Proof.
  intros [I1 I2 I3 I4 I5 I6 I7] Hn. split; try done; [by eapply fs_ok_mono|..]; (eapply Forall_impl; [eassumption|]); intros f Hf; by eapply fs_ok_mono.
Qed.

(** ** Operations of a function *)

(** An operation that leaves the tables alone *)
Definition frugal {A} (m : fsM A) : Prop := ∀ f, ends m f (λ _ f', _literals f' = _literals f ∧ _strings f' = _strings f).

Lemma quiet_fs {A} (m : fsM A) n c : frugal m → inv n c → ends (fs m) c (λ _ c', quiet n c c').
Proof.
  intros Hm [I1 [I2 I2'] I3 I4 I5 I6 I7]. unfold fs, ends. specialize (Hm (_fs c)). unfold ends in Hm.
  destruct (m (_fs c)) as [[a f]|[]]; try done. destruct Hm as [El Es]. split; try done. split; try done. split; simpl; by rewrite ?El, ?Es.
Qed.
Lemma quiet_child {A} (m : fsM A) n c : frugal m → inv n c → ends (child m) c (λ _ c', quiet n c c').
Proof.
  intros Hm [I1 I2 I3 I4 I5 I6 I7]. unfold child, ends. destruct (_childstates c) as [|f cs] eqn:Ec; [done|]. specialize (Hm f). unfold ends in Hm.
  destruct (m f) as [[a f']|[]]; try done. destruct Hm as [El Es]. apply Forall_cons in I4 as [[J1 J2] I4].
  split; try done. split; try done. simpl. constructor; [|done]. split; simpl; by rewrite ?El, ?Es.
Qed.

Lemma frugal_ret {A} (a : A) : frugal (mret a).
Proof. by intros f. Qed.
Lemma frugal_gets {A} (g : SQFuncState → A) : frugal (gets g).
Proof. by intros f. Qed.
Lemma frugal_modify (g : SQFuncState → SQFuncState) : (∀ f, _literals (g f) = _literals f ∧ _strings (g f) = _strings f) → frugal (modify g).
Proof. intros Hg f. apply Hg. Qed.
Lemma frugal_raise {A} e : e ≠ OutOfFuel → frugal (raise (A := A) e).
Proof. intros He f. by apply ends_raise. Qed.
Lemma frugal_lift {A} (r : res A) : r ≠ Err OutOfFuel → frugal (lift r).
Proof. intros Hr f. by apply ends_lift. Qed.
Lemma frugal_bind {A B} (m : fsM A) (g : A → fsM B) : frugal m → (∀ a, frugal (g a)) → frugal (m ≫= g).
Proof.
  intros Hm Hg f. apply ends_bind. eapply ends_mono; [apply Hm|]. intros a f1 [E1 E2]. eapply ends_mono; [apply Hg|].
  intros b f2 [E3 E4]. split; congruence.
Qed.
Lemma frugal_when b m : frugal m → frugal (when b m).
Proof. destruct b; [done|]. intros _. apply frugal_ret. Qed.

Lemma expect_not_fuel {A} e (o : option A) : e ≠ OutOfFuel → expect e o ≠ Err OutOfFuel.
Proof. by destruct o; [|intros ? [=]]. Qed.
Lemma at_z_not_fuel {A} (l : list A) i : at_z l i ≠ Err OutOfFuel.
Proof. unfold at_z. destruct (i <? 0); [done|by apply expect_not_fuel]. Qed.
Lemma put_z_not_fuel {A} (l : list A) i x : put_z l i x ≠ Err OutOfFuel.
Proof. unfold put_z. destruct (i <? 0); [done|]. by case_decide. Qed.
Lemma back_not_fuel {A} (l : list A) : back l ≠ Err OutOfFuel.
Proof. by apply expect_not_fuel. Qed.
Lemma pop_back_not_fuel {A} (l : list A) : pop_back l ≠ Err OutOfFuel.
Proof. by destruct l. Qed.

Create HintDb frugal.
#[export] Hint Resolve expect_not_fuel at_z_not_fuel put_z_not_fuel back_not_fuel pop_back_not_fuel : frugal.
#[export] Hint Extern 0 (_ ≠ OutOfFuel) => discriminate : frugal.
#[export] Hint Extern 1 (_ ≠ Err OutOfFuel) => discriminate : frugal.

(** Through a computation of a function, by the shape of its code *)
Ltac frugal_step :=
  lazymatch goal with
  | |- frugal (mbind _ _) => apply frugal_bind; [|intros ?]
  | |- frugal (mret _) => apply frugal_ret
  | |- frugal (gets _) => apply frugal_gets
  | |- frugal (modify _) => apply frugal_modify; intros ?; split; reflexivity
  | |- frugal (raise _) => apply frugal_raise; discriminate
  | |- frugal (lift _) => apply frugal_lift; auto with frugal
  | |- frugal (when _ _) => apply frugal_when
  | |- frugal (if ?b then _ else _) => destruct b
  | |- frugal (match ?x with _ => _ end) => destruct x
  | |- _ => solve [eauto with frugal]
  end.
Ltac frugal := repeat frugal_step.

(** Every operation of a function is frugal. *)
Lemma frugal_GetCurrentPos : frugal GetCurrentPos.
Proof. unfold GetCurrentPos. frugal. Qed.
Lemma frugal_GetStackSize : frugal GetStackSize.
Proof. unfold GetStackSize. frugal. Qed.
#[export] Hint Resolve frugal_GetCurrentPos frugal_GetStackSize : frugal.
Lemma frugal_PushTarget n : frugal (PushTarget n).
Proof. unfold PushTarget, push_target, AllocStackPos, SqFuncState.Error. frugal. Qed.
Lemma frugal_TopTarget : frugal TopTarget.
Proof. unfold TopTarget. frugal. Qed.
Lemma frugal_PopTarget : frugal PopTarget.
Proof. unfold PopTarget. frugal. Qed.
Lemma frugal_CountOuters n : frugal (CountOuters n).
Proof. unfold CountOuters. frugal. Qed.
Lemma frugal_SetStackSize n : frugal (SetStackSize n).
Proof.
  unfold SetStackSize. frugal. generalize (Z.to_nat (a - n)). intros k. induction k as [|k IH]; simpl; [frugal|].
  apply frugal_bind; [unfold drop_local; frugal|done].
Qed.
Lemma frugal_IsLocal n : frugal (IsLocal n).
Proof. unfold IsLocal. frugal. Qed.
Lemma frugal_PushLocalVariable o : frugal (PushLocalVariable o).
Proof. unfold PushLocalVariable. frugal. Qed.
#[export] Hint Resolve frugal_PushLocalVariable : frugal.
Lemma frugal_MarkLocalAsOuter n : frugal (MarkLocalAsOuter n).
Proof. unfold MarkLocalAsOuter. frugal. Qed.
Lemma frugal_AddParameter o : frugal (AddParameter o).
Proof. unfold AddParameter. frugal. Qed.
Lemma frugal_AddDefaultParam n : frugal (AddDefaultParam n).
Proof. unfold AddDefaultParam. frugal. Qed.
Lemma frugal_GetInstruction n : frugal (GetInstruction n).
Proof. unfold GetInstruction. frugal. Qed.
Lemma frugal_put_instruction n i : frugal (put_instruction n i).
Proof. unfold put_instruction. frugal. Qed.
#[export] Hint Resolve frugal_GetInstruction frugal_put_instruction : frugal.
Lemma frugal_SetInstructionParams p a b c d : frugal (SetInstructionParams p a b c d).
Proof. unfold SetInstructionParams. frugal. Qed.
Lemma frugal_SetInstructionParam p a v : frugal (SetInstructionParam p a v).
Proof. unfold SetInstructionParam. frugal. Qed.
Lemma frugal_PopInstructions n : frugal (PopInstructions n).
Proof. induction n as [|n IH]; simpl; frugal. Qed.
Lemma frugal_SnoozeOpt : frugal SnoozeOpt.
Proof. unfold SnoozeOpt. frugal. Qed.
Lemma frugal_add_instruction b i : frugal (add_instruction b i).
Proof. unfold add_instruction. frugal. Qed.
#[export] Hint Resolve frugal_add_instruction : frugal.
Lemma frugal_AddLineInfos b l o f : frugal (AddLineInfos b l o f).
Proof. unfold AddLineInfos, AddInstruction. frugal. Qed.
#[export] Hint Resolve frugal_PopTarget : frugal.
Lemma frugal_DiscardTarget : frugal DiscardTarget.
Proof. unfold DiscardTarget. frugal. Qed.
Lemma frugal_ResolveBreaks n : frugal (ResolveBreaks n).
Proof. induction n as [|n IH]; simpl; [frugal|]. pose proof frugal_SetInstructionParams. frugal. Qed.
Lemma frugal_ResolveContinues n p : frugal (ResolveContinues n p).
Proof. induction n as [|n IH]; simpl; [frugal|]. pose proof frugal_SetInstructionParams. frugal. Qed.
Lemma frugal_push_targets : frugal push_targets.
Proof. unfold push_targets. frugal. Qed.
Lemma frugal_pop_targets : frugal pop_targets.
Proof. unfold pop_targets. frugal. Qed.
Lemma frugal_count_trap d : frugal (count_trap d).
Proof. unfold count_trap. frugal. Qed.
Lemma frugal_get_instructions p n : frugal (get_instructions p n).
Proof. revert p. induction n as [|n IH]; intros p; simpl; frugal. Qed.
#[export] Hint Resolve frugal_PushTarget frugal_TopTarget frugal_CountOuters frugal_SetStackSize frugal_IsLocal frugal_MarkLocalAsOuter
  frugal_AddParameter frugal_AddDefaultParam frugal_SetInstructionParams frugal_SetInstructionParam frugal_PopInstructions frugal_SnoozeOpt
  frugal_AddLineInfos frugal_DiscardTarget frugal_ResolveBreaks frugal_ResolveContinues frugal_push_targets frugal_pop_targets frugal_count_trap
  frugal_get_instructions : frugal.

#[local] Arguments SqTable.NewSlot : simpl never.
#[local] Arguments SqTable.Get : simpl never.

(** ** Operations of the compiler that read nothing *)

Section operations.
Context {KT : KeywordTable} {FR : FloatReader} `{Allocator}.

(** A change of the state besides its tables *)
Lemma quiet_modify (g : SQCompiler → SQCompiler) n c :
  (∀ c, _strtable (g c) = _strtable c ∧ _fs (g c) = _fs c ∧ _parents (g c) = _parents c ∧ _childstates (g c) = _childstates c ∧
        _consts (g c) = _consts c ∧ _tables (g c) = _tables c ∧ _lex (g c) = _lex c ∧ _token (g c) = _token c) →
  inv n c → ends (modify g) c (λ _ c', quiet n c c').
Proof using Type.
  intros Hg [I1 I2 I3 I4 I5 I6 I7]. destruct (Hg c) as (E1 & E2 & E3 & E4 & E5 & E6 & E7 & E8). apply ends_modify.
  split; [|unfold strs; by rewrite E1|done|done]. split; unfold strs in *; rewrite ?E1, ?E2, ?E3, ?E4, ?E5, ?E6, ?E7; done.
Qed.

(** The strings grow. *)
Lemma inv_grow n c st sm : inv n c → interns st sm → strs c ⊆ sm → inv n (with_strtable st c) ∧ strs (with_strtable st c) = sm.
Proof using Type.
  intros [I1 I2 I3 I4 I5 I6 I7] Hst Hsub. assert (strs (with_strtable st c) = sm) as Es by apply (in_vals _ _ Hst). split; [|done].
  assert (∀ t, table_ok (_strtable c) (strs c) t → table_ok st sm t) as Ht by (intros t; by apply table_ok_grow).
  assert (∀ f, fs_ok (_strtable c) (strs c) n f → fs_ok st sm n f) as Hf by (intros f; by apply fs_ok_grow).
  split; rewrite ?Es; simpl; auto; try (eapply Forall_impl; [eassumption|done]). eapply map_Forall_impl; [exact I6|auto].
Qed.

(** A string that is made, or was there *)
Definition string_made (n : nat) (c : SQCompiler) (o : SQObject) (c' : SQCompiler) : Prop := quiet n c c' ∧ live c' o ∧ _type o = OT_STRING.

Lemma shared_string_ok s n c : inv n c → ends (shared_string s) c (string_made n c).
Proof using Type.
  intros Hi. unfold ends, shared_string. destruct (intern_ok (_strtable c) (strs c) (String.list_ascii_of_string s ++ [Ascii.zero]) (-1)) as (st & a & sm & E & Hst & Hsub & Ha);
    [apply Hi|lia|]. rewrite E. cbn. destruct (inv_grow n c st sm Hi Hst Hsub) as [Hi' Es]. split; [by split; rewrite ?Es|]. split; [|done].
  unfold live. rewrite Es. intros _. by eexists.
Qed.

Lemma create_string_ok s len n c : inv n c → len ≤ Z.of_nat (length s) → ends (create_string s len) c (string_made n c).
Proof using Type.
  intros Hi Hlen. unfold ends, create_string, CreateString.
  destruct (intern_ok (_strtable c) (strs c) s len) as (st & a & sm & E & Hst & Hsub & Ha); [apply Hi|done|]. rewrite E. cbn.
  destruct (inv_grow n c st sm Hi Hst Hsub) as [Hi' Es].
  pose proof (inv_fs _ _ Hi') as [Hl Hs]. simpl in Hl, Hs. rewrite Es in Hl, Hs.
  assert (live_in sm (string_key a)) as Hlive by (intros _; by eexists).
  pose proof (table_new_ok st sm (_strings (_fs c)) (string_key a) (sq_int 1) Hs Hlive ltac:(done)) as Hn.
  destruct (SqTable.NewSlot _ _ _ _) as [[t b]|e]; [|by subst e]. cbn.
  assert (strs (with_fs (with_strings t (_fs c)) (with_strtable st c)) = sm) as Es' by apply Es.
  split; [|split; [unfold live; by rewrite Es'|done]]. split; [|by rewrite Es'|done|done].
  destruct Hi' as [J1 J2 J3 J4 J5 J6 J7]. rewrite Es in *. split; rewrite ?Es'; done.
Qed.

Lemma name_string_ok s n c : inv n c → ends (name_string s) c (string_made n c).
Proof using Type. intros Hi. apply create_string_ok; [done|lia]. Qed.

Lemma svalue_ok c : ends svalue c (λ s c', c' = c ∧ s = _longstr (_lex c)).
Proof using Type. unfold svalue. apply ends_bind, ends_gets. destruct (_svalue (_lex c)); [by apply ends_ret|by apply ends_raise]. Qed.
Lemma identifier_string_ok n c : inv n c → ends identifier_string c (string_made n c).
Proof using Type.
  intros Hi. apply ends_bind. eapply ends_mono; [apply svalue_ok|]. intros s c' [-> ->]. apply create_string_ok; [done|lia].
Qed.
Lemma literal_string_ok n c : inv n c → ends literal_string c (string_made n c).
Proof using Type.
  intros Hi. apply ends_bind. eapply ends_mono; [apply svalue_ok|]. intros s c' [-> ->]. apply ends_bind, ends_gets, create_string_ok; [done|].
  unfold vsize. lia.
Qed.

(** Literals *)
Lemma literals_new st sm n t k v : literals_ok st sm n t → live_in sm k → live_in sm v →
  match @SqTable.NewSlot (heap_of st) table_fuel t k v with Ok (t', _) => literals_ok st sm (S n) t' | Err e => e = AssertFail end.
Proof using Type.
  intros (m & Hm & Hk & Hb & Hs) Hlk Hlv. destruct (is_null k) eqn:Hn.
  { unfold table_fuel. unfold SqTable.NewSlot. by rewrite Hn. }
  destruct (@NewSlot_models (heap_of st) 0 t m k v Hm Hn) as (t' & b & E & Hm' & _ & _ & Hnum). unfold table_fuel. rewrite E.
  assert (size m ≤ size (<[k := v]> m) ≤ S (size m))%nat as Hsz.
  { destruct (m !! k) eqn:Hmk; [rewrite map_size_insert_Some by eauto|rewrite map_size_insert_None by done]; lia. }
  exists (<[k := v]> m). split; [done|]. split; [|split; lia]. intros k' v'. rewrite lookup_insert_Some. naive_solver.
Qed.
Lemma add_literal_ok o n c : inv n c → live c o → ends (add_literal o) c (λ _ c', quiet (S n) c c').
Proof using Type.
  intros Hi Hlive. unfold add_literal. apply ends_bind, ends_gets. unfold fs, ends, GetConstant, mbind, stM_bind, gets. cbn. unfold id.
  pose proof (inv_fs _ _ Hi) as [Hl Hs]. destruct (table_get_ok _ _ _ o (literals_table _ _ _ _ Hl)) as (r & -> & _). cbn. destruct r as [v|].
  { apply (quiet_fs (mret (_integer v)) (S n) c); [apply frugal_ret|]. eapply inv_mono; [done|lia]. }
  pose proof (literals_new _ _ _ _ o (sq_int (_nliterals (_fs c))) Hl Hlive ltac:(done)) as Hn. cbn.
  destruct (SqTable.NewSlot _ _ _ _) as [[t b]|e]; [|by subst e]. cbn. destruct (_ <? _); [done|]. cbn.
  destruct (inv_mono _ (S n) _ Hi ltac:(lia)) as [J1 J2 J3 J4 J5 J6 J7]. by split.
Qed.

Lemma new_funcstate_ok n c : ∃ f, new_funcstate = Ok f ∧ fs_ok (_strtable c) (strs c) n f.
Proof using Type.
  unfold new_funcstate. destruct (@Create_models (heap_of (_strtable c)) 0) as (t & E & Hm & _ & _ & Hb); [done|]. rewrite E. cbn. eexists. split; [done|].
  split; [|by exists ∅]. exists ∅. split_and!; [done|done| |by rewrite map_size_empty; lia]. simpl. rewrite map_size_empty. lia.
Qed.
Lemma PushChildState_ok n c : inv n c → ends PushChildState c (λ _ c', quiet n c c').
Proof using Type.
  intros Hi. destruct (new_funcstate_ok n c) as (f & E & Hf). unfold PushChildState. rewrite E. apply ends_bind, ends_lift; [done|]. intros f' [= <-].
  apply ends_modify. destruct Hi as [J1 J2 J3 J4 J5 J6 J7]. split; try done. split; try done. by constructor.
Qed.

(** *** Reading *)

(** Something is read, [d] steps of it at least. *)
Record reads (d n : nat) (c0 c : SQCompiler) : Prop := {
  re_inv : inv n c;
  re_grow : strs c0 ⊆ strs c;
  re_read : (to_read c + d ≤ to_read c0)%nat
}.

Lemma weight_pos t : t ≠ 0 → (1 ≤ weight t ≤ 2)%nat.
Proof using Type. intros Ht. unfold weight. destruct (Z.eqb_spec t 0); [done|]. destruct (_ =? _); lia. Qed.
Lemma Lex_reads n c : inv n c → ends Lex c (λ _ c', reads 0 n c c' ∧ (_token c ≠ 0 → reads 1 n c c')).
Proof using Type.
  intros Hi. assert (safe SqLexer.Lex (_lex c) (λ t l, if t =? 0 then adv 0 0 (_lex c) l ∧ _currdata l = 0 else adv 0 1 (_lex c) l)) as HL
    by (apply Lex_ok, adv_refl, Hi).
  unfold ends, Lex, safe in *. destruct (SqLexer.Lex (_lex c)) as [[t l]|[]]; try done.
  assert (0 ≤ _currdata l < 256 ∧ (2 * ahead l + weight t ≤ 2 * ahead (_lex c))%nat) as [Hl Hd].
  { destruct (Z.eqb_spec t 0) as [->|Ht].
    - destruct HL as [[] _]. split; [done|]. change (weight 0) with 0%nat. lia.
    - destruct HL. pose proof (weight_pos t Ht). split; [done|]. lia. }
  assert (inv n (with_token t (with_lex l c))) as Hi' by (destruct Hi; by split).
  split; [|intros Ht; apply weight_pos in Ht]; (split; [done|done|]); unfold to_read; simpl; lia.
Qed.

End operations.

(** *** Operations that read nothing *)

(** [m] makes at most [k] literals. *)
Definition costs {A} (k : nat) (m : cM A) : Prop := ∀ n c, inv n c → ends m c (λ _ c', quiet (k + n) c c').
Abbreviation calm := (costs 0).

Lemma quiet_trans n n' c c1 c2 : quiet n c c1 → quiet n' c1 c2 → quiet n' c c2.
Proof. intros [] []. split; [done|by etrans|congruence|congruence]. Qed.
Lemma costs_bind {A B} j k (m : cM A) (g : A → cM B) : costs j m → (∀ a, costs k (g a)) → costs (k + j) (m ≫= g).
Proof.
  intros Hm Hg n c Hi. apply ends_bind. eapply ends_mono; [by apply Hm|]. intros a c1 Hq. eapply ends_mono; [apply Hg, Hq|].
  intros b c2 Hq'. rewrite <- Nat.add_assoc. exact (quiet_trans _ _ _ _ _ Hq Hq').
Qed.
Lemma calm_bind {A B} k (m : cM A) (g : A → cM B) : calm m → (∀ a, costs k (g a)) → costs k (m ≫= g).
Proof. intros Hm Hg. rewrite <- (Nat.add_0_r k). by apply costs_bind. Qed.
Lemma costs_mono {A} j k (m : cM A) : costs j m → (j ≤ k)%nat → costs k m.
Proof.
  intros Hm Hjk n c Hi. eapply ends_mono; [by apply Hm|]. intros a c' []. split; [|done..]. eapply inv_mono; [done|lia].
Qed.
Lemma calm_costs {A} k (m : cM A) : calm m → costs k m.
Proof. intros Hm. eapply costs_mono; [done|lia]. Qed.
Lemma calm_ret {A} (a : A) : calm (mret a).
Proof. intros n c Hi. by apply ends_ret, quiet_refl. Qed.
Lemma calm_gets {A} (g : SQCompiler → A) : calm (gets g).
Proof. intros n c Hi. by apply ends_gets, quiet_refl. Qed.
Lemma calm_raise {A} e : e ≠ OutOfFuel → calm (raise (A := A) e).
Proof. intros He n c Hi. by apply ends_raise. Qed.
Lemma calm_Error {A} s : calm (Error (A := A) s).
Proof. by apply calm_raise. Qed.
Lemma calm_lift {A} (r : res A) : r ≠ Err OutOfFuel → calm (lift r).
Proof. intros Hr n c Hi. apply ends_lift; [done|]. intros. by apply quiet_refl. Qed.
Lemma calm_fs {A} (m : fsM A) : frugal m → calm (fs m).
Proof. intros Hm n c. by apply quiet_fs. Qed.
Lemma calm_child {A} (m : fsM A) : frugal m → calm (child m).
Proof. intros Hm n c. by apply quiet_child. Qed.
Lemma calm_when k b m : costs k m → costs k (when b m).
Proof. destruct b; [done|]. intros _. apply calm_costs, calm_ret. Qed.
Lemma calm_set_es (g : SQCompiler → SQExpState) : calm (modify (λ c, with_es (g c) c)).
Proof. intros n c Hi. by apply quiet_modify. Qed.
Lemma calm_with_es e : calm (modify (with_es e)).
Proof. intros n c Hi. by apply quiet_modify. Qed.
Lemma calm_with_scope sc : calm (modify (with_scope sc)).
Proof. intros n c Hi. by apply quiet_modify. Qed.

Create HintDb calm.
#[export] Hint Constants Opaque : calm.
#[export] Hint Resolve calm_Error calm_set_es calm_with_es calm_with_scope : calm.

Ltac calm_step :=
  lazymatch goal with
  | |- costs _ (mbind _ _) => apply calm_bind; [|intros ?]
  | |- costs (S _) _ => apply calm_costs
  | |- costs _ (mret _) => apply calm_ret
  | |- costs _ (gets _) => apply calm_gets
  | |- costs _ (raise _) => apply calm_raise; discriminate
  | |- costs _ (lift _) => apply calm_lift; auto with frugal
  | |- costs _ (fs _) => apply calm_fs; frugal
  | |- costs _ (child _) => apply calm_child; frugal
  | |- costs _ (when _ _) => apply calm_when
  | |- costs _ (if ?b then _ else _) => destruct b
  | |- costs _ (match ?x with _ => _ end) => destruct x
  | |- _ => solve [eauto with calm]
  end.
Ltac calm := repeat calm_step.

Lemma calm_nested : calm nested.
Proof. apply calm_gets. Qed.
#[export] Hint Resolve calm_nested : calm.
Lemma calm_emit op a0 a1 a2 a3 : calm (emit op a0 a1 a2 a3).
Proof. unfold emit. calm. Qed.
#[export] Hint Resolve calm_emit : calm.
Lemma calm_set_etype t : calm (set_etype t).
Proof. apply calm_set_es. Qed.
Lemma calm_set_epos p : calm (set_epos p).
Proof. apply calm_set_es. Qed.
Lemma calm_set_donot_get b : calm (set_donot_get b).
Proof. apply calm_set_es. Qed.
Lemma calm_token : calm token.
Proof. apply calm_gets. Qed.
Lemma calm_get_etype : calm get_etype.
Proof. apply calm_gets. Qed.
Lemma calm_IsEndOfStatement : calm IsEndOfStatement.
Proof. apply calm_gets. Qed.
#[export] Hint Resolve calm_set_etype calm_set_epos calm_set_donot_get calm_token calm_get_etype calm_IsEndOfStatement : calm.
Lemma calm_BEGIN_SCOPE : calm BEGIN_SCOPE.
Proof. unfold BEGIN_SCOPE. calm. Qed.
Lemma calm_RESOLVE_OUTERS : calm RESOLVE_OUTERS.
Proof. unfold RESOLVE_OUTERS. calm. Qed.
Lemma calm_END_SCOPE old : calm (END_SCOPE old).
Proof. unfold END_SCOPE. calm. Qed.
Lemma calm_END_SCOPE_NO_CLOSE old : calm (END_SCOPE_NO_CLOSE old).
Proof. unfold END_SCOPE_NO_CLOSE. calm. Qed.
Lemma calm_BEGIN_BREAKBLE_BLOCK : calm BEGIN_BREAKBLE_BLOCK.
Proof. unfold BEGIN_BREAKBLE_BLOCK, push_targets. calm. Qed.
Lemma calm_END_BREAKBLE_BLOCK old p : calm (END_BREAKBLE_BLOCK old p).
Proof. unfold END_BREAKBLE_BLOCK, pop_targets. calm. Qed.
Lemma calm_PopTargets k : calm (PopTargets k).
Proof. induction k; simpl; calm. Qed.
#[export] Hint Resolve calm_BEGIN_SCOPE calm_RESOLVE_OUTERS calm_END_SCOPE calm_END_SCOPE_NO_CLOSE calm_BEGIN_BREAKBLE_BLOCK
  calm_END_BREAKBLE_BLOCK calm_PopTargets : calm.
Lemma calm_MoveIfCurrentTargetIsLocal : calm MoveIfCurrentTargetIsLocal.
Proof. unfold MoveIfCurrentTargetIsLocal. calm. Qed.
Lemma calm_EmitDerefOp op : calm (EmitDerefOp op).
Proof. unfold EmitDerefOp. calm. Qed.
Lemma calm_Emit2ArgsOP op p3 : calm (Emit2ArgsOP op p3).
Proof. unfold Emit2ArgsOP. calm. Qed.
Lemma calm_ChooseArithOpByToken t : calm (ChooseArithOpByToken t).
Proof. unfold ChooseArithOpByToken. cbn [switch]. calm. Qed.
Lemma calm_ChooseCompArithCharByToken t : calm (ChooseCompArithCharByToken t).
Proof. unfold ChooseCompArithCharByToken. cbn [switch]. calm. Qed.
#[export] Hint Resolve calm_MoveIfCurrentTargetIsLocal calm_EmitDerefOp calm_Emit2ArgsOP calm_ChooseArithOpByToken calm_ChooseCompArithCharByToken : calm.
Lemma calm_EmitCompoundArith t e pos : calm (EmitCompoundArith t e pos).
Proof. unfold EmitCompoundArith. calm. Qed.
Lemma calm_EmitLoadConstFloat v t : calm (EmitLoadConstFloat v t).
Proof. unfold EmitLoadConstFloat. calm. Qed.
Lemma calm_NeedGet : calm NeedGet.
Proof. unfold NeedGet. calm. Qed.
Lemma calm_call_prologue : calm call_prologue.
Proof. unfold call_prologue. calm. Qed.
#[export] Hint Resolve calm_EmitCompoundArith calm_EmitLoadConstFloat calm_NeedGet calm_call_prologue : calm.
Lemma calm_deref : calm deref.
Proof. unfold deref. calm. Qed.
Lemma calm_emit_closure t : calm (emit_closure t).
Proof. unfold emit_closure. calm. Qed.
Lemma calm_emit_loop t : calm (emit_loop t).
Proof. unfold emit_loop. calm. Qed.
Lemma calm_add_instructions l : calm (add_instructions l).
Proof. induction l; simpl; calm. Qed.
#[export] Hint Resolve calm_deref calm_emit_closure calm_emit_loop calm_add_instructions : calm.

(** *** The variables of the functions around *)

Definition same_tables (f f' : SQFuncState) : Prop := _literals f' = _literals f ∧ _strings f' = _strings f.
Lemma GetOuterVariable_ends name ps : ∀ f,
  match GetOuterVariable name f ps with
  | Ok (_, f', ps') => same_tables f f' ∧ Forall2 same_tables ps ps'
  | Err e => e ≠ OutOfFuel
  end.
Proof.
  assert (∀ ps, Forall2 same_tables ps ps) as Hrefl by (intros l; induction l; constructor; done).
  induction ps as [|p ps IH]; intros f; simpl; (destruct (outer_index name f); [by split|]); [done|].
  destruct (GetLocalVariable name p =? -1).
  - specialize (IH p). destruct (GetOuterVariable name p ps) as [[[pos p'] ps']|e]; simpl; [|done]. destruct IH as [? ?].
    destruct (pos =? -1); simpl; (split; [done|by constructor]).
  - pose proof (frugal_MarkLocalAsOuter (GetLocalVariable name p) p) as Hm. unfold ends in Hm.
    destruct (MarkLocalAsOuter _ p) as [[u p']|[]]; simpl; try done. split; [done|]. by constructor.
Qed.
Lemma calm_outer_variable name : calm (outer_variable name).
Proof.
  intros n c [I1 I2 I3 I4 I5 I6 I7]. unfold ends, outer_variable. pose proof (GetOuterVariable_ends name (_parents c) (_fs c)) as Ho.
  destruct (GetOuterVariable _ _ _) as [[[pos f] ps]|[]]; try done. destruct Ho as [[E1 E2] Hps]. destruct I2 as [J1 J2].
  split; try done. split; try done; simpl.
  - split; simpl; by rewrite ?E1, ?E2.
  - clear - Hps I3. induction Hps as [|g g' qs qs' [E1 E2] _ IH]; [done|]. apply Forall_cons in I3 as [[J1 J2] I3].
    constructor; [split; by rewrite ?E1, ?E2|by apply IH].
Qed.
#[export] Hint Resolve calm_outer_variable : calm.

(** *** Prototypes *)

Lemma next_loop_bound ns : ∀ idx i nd, next_loop ns idx = Some (i, nd) → idx < i ≤ idx + Z.of_nat (length ns).
Proof.
  induction ns as [|nd ns IH]; intros idx i nd'; simpl; [done|]. destruct (is_null (nkey nd)).
  - intros Hi%IH. lia.
  - intros [= <- _]. lia.
Qed.
Lemma literals_loop_ends `{SQHeap} k : ∀ t i o literals,
  Z.of_nat (length (_nodes t)) < 2 ^ 31 → TranslateIndex o = Ok i → 0 ≤ i ≤ Z.of_nat (length (_nodes t)) → Z.of_nat (length (_nodes t)) - i < Z.of_nat k →
  literals_loop k t o literals ≠ Err OutOfFuel.
Proof.
  induction k as [|k IH]; intros t i o literals Hlen Ho Hi Hk; [lia|]. cbn [literals_loop]. unfold SqTable.Next. rewrite Ho. cbn [mbind res_bind].
  rewrite s32_small by lia. destruct (i <? 0); [done|]. cbn [mbind res_bind].
  destruct (next_loop _ i) as [[j nd]|] eqn:En; [|done]. apply next_loop_bound in En. rewrite length_drop in En.
  pose proof (put_z_not_fuel literals (_integer (_realval (nval nd))) (nkey nd)) as Hp.
  destruct (put_z _ _ _) as [l|e]; [|by intros [= ->]]. cbn [mbind res_bind].
  apply (IH t j); [done| |lia|lia]. unfold TranslateIndex, sq_int, _integer. simpl. f_equal. rewrite u32_s32, (u32_small j), u32_small by lia. done.
Qed.
Lemma BuildProto_ends st sm n f : fs_ok st sm n f → Z.of_nat n < 2 ^ 29 → @BuildProto (heap_of st) f ≠ Err OutOfFuel.
Proof.
  intros [(m & Hm & _ & Hb & Hs) _] Hn. unfold BuildProto, SqProto.Create.
  assert (Z.of_nat (length (_nodes (_literals f))) < 2 ^ 31) as Hlen by (rewrite (mo_len _ _ Hm); lia).
  assert (@build_literals (heap_of st) f ≠ Err OutOfFuel) as Hl.
  { eapply (literals_loop_ends _ _ 0); [done|done|lia|lia]. }
  destruct (_ && _); cbn [mbind res_bind]; [|done]. by destruct (build_literals f) as [|[]].
Qed.

Section tables_of_the_compiler.
Context `{Allocator}.

Lemma live_int c v : live c (sq_int v).
Proof using Type. done. Qed.
Lemma costs_EmitLoadConstInt v t : costs 1 (EmitLoadConstInt v t).
Proof using Type.
  unfold EmitLoadConstInt. apply calm_bind; [calm|]. intros target. destruct (_ && _); [calm|].
  change 1%nat with (0 + 1)%nat. apply costs_bind; [|intros; calm]. intros n c Hi. by apply add_literal_ok.
Qed.
Lemma emit_literal_ok o n c : inv n c → live c o → ends (emit_literal o) c (λ _ c', quiet (S n) c c').
Proof using Type.
  intros Hi Ho. apply ends_bind. eapply ends_mono; [by apply calm_fs; [eauto with frugal|]|]. intros r c1 Hq. destruct (Hq) as [Hi1 Hg1 _ _].
  apply ends_bind. eapply ends_mono; [apply add_literal_ok; [done|by eapply live_grow]|]. intros k c2 Hq2.
  eapply ends_mono; [by apply calm_emit, Hq2|]. intros [] c3 Hq3. apply (quiet_trans n _ _ c1); [done|]. by apply (quiet_trans (S n) _ _ c2).
Qed.

Lemma calm_enter_child : calm enter_child.
Proof using Type.
  intros n c [I1 I2 I3 I4 I5 I6 I7]. unfold ends, enter_child. destruct (_childstates c) as [|f cs] eqn:E; [done|].
  apply Forall_cons in I4 as [? ?]. split; try done. split; try done. by constructor.
Qed.
Lemma leave_child_ok n c : inv n c → Z.of_nat n < 2 ^ 29 → ends leave_child c (λ _ c', quiet n c c').
Proof using Type.
  intros [I1 I2 I3 I4 I5 I6 I7] Hn. unfold ends, leave_child. destruct (_parents c) as [|p ps] eqn:E; [done|].
  pose proof (BuildProto_ends _ _ _ _ I2 Hn) as Hb. destruct (BuildProto (_fs c)) as [func|[]]; cbn; try done.
  apply Forall_cons in I3 as [? ?]. split; try done.
Qed.

Lemma IsConstant_ok name n c : inv n c → ends (IsConstant name) c (λ r c', c' = c ∧ ∀ o, r = Some o → live c o).
Proof using Type.
  intros Hi. apply ends_bind, ends_gets. destruct (table_get_ok _ _ _ name (inv_consts _ _ Hi)) as (r & E & Hr). unfold id. rewrite E.
  apply ends_lift; [done|]. intros r' [= <-]. done.
Qed.
Lemma new_const_ok id val n c : inv n c → live c id → live c val → ends (new_const id val) c (λ _ c', quiet n c c').
Proof using Type.
  intros Hi Hid Hval. apply ends_bind, ends_gets, ends_bind. pose proof (table_new_ok _ _ _ id val (inv_consts _ _ Hi) Hid Hval) as Hn.
  destruct (SqTable.NewSlot _ _ _ _) as [[t b]|e]; [|by subst e]. apply ends_lift; [done|]. intros [? ?] [= <- <-]. apply ends_modify.
  destruct Hi. by split.
Qed.
Lemma new_enum_slot_ok a key val n c : inv n c → live c key → live c val → ends (new_enum_slot a key val) c (λ _ c', quiet n c c').
Proof using Type.
  intros Hi Hk Hval. apply ends_bind, ends_gets, ends_bind, ends_lift; [by apply expect_not_fuel|]. intros t Et.
  destruct (_tables c !! a) as [t0|] eqn:Ea; [|done]. injection Et as ->. apply ends_bind.
  pose proof (table_new_ok _ _ _ key val (inv_tables _ _ Hi _ _ Ea) Hk Hval) as Hn.
  destruct (SqTable.NewSlot _ _ _ _) as [[t' b]|e]; [|by subst e]. apply ends_lift; [done|]. intros [? ?] [= <- <-]. apply ends_modify.
  destruct Hi as [I1 I2 I3 I4 I5 I6 I7]. split; try done. split; try done. by apply map_Forall_insert_2.
Qed.
Lemma calm_CreateTable : calm CreateTable.
Proof using Type.
  intros n c Hi. apply ends_bind, ends_gets. destruct (new_table_ok (_strtable c) (strs c)) as (t & E & Ht). apply ends_bind. rewrite E.
  apply ends_lift; [done|]. intros t' [= <-]. apply ends_bind. destruct Hi as [I1 [I2 I2'] I3 I4 I5 I6 I7].
  pose proof (table_new_ok _ _ _ (mkObj OT_TABLE (malloc (dom (_tables c)))) (sq_int 1) I2' ltac:(done) ltac:(done)) as Hn.
  destruct (SqTable.NewSlot _ _ _ _) as [[ss b]|e]; [|by subst e]. apply ends_lift; [done|]. intros [? ?] [= <- <-].
  split; try done. split; try done. by apply map_Forall_insert_2.
Qed.
End tables_of_the_compiler.
#[export] Hint Resolve costs_EmitLoadConstInt calm_enter_child calm_CreateTable : calm.
