(* ===== verification/SqCompilerTotal.v ===== *)
(** * Every function of the grammar comes to an end

    Each nonterminal gets a rank, higher for those further up in the grammar.  A
    call is made with less to read, or with as much and of a lower rank; so fuel
    of 40 calls for each step of the text is enough for the recursion, and
    [Compile] never runs out of it ([SqCompilerWhole]).  A literal takes at least a step of the text,
    which bounds the tables that [BuildProto] goes through. *)

From Stdlib Require Import Ascii.
From stdpp Require Import base numbers gmap strings option list.
From S2P Require Import Prelude CType SqObject SqTable SqString SqProto SqLexer SqLexerSpec SqLexerRound SqKeywords SqFuncState SqCompiler SqCompilerEnds.

Open Scope Z_scope.

(** ** Ranks *)

Definition rank (n : nonterminal) : nat :=
  match n with
  | NStatements | NIfBlock => 16
  | NStatement _ => 15
  | NCommaExpr | NArrayRest _ _ | NCallArgs _ _ => 14
  | NExpression => 13
  | NLogicalOrExp => 12
  | NLogicalAndExp => 11
  | NBitwiseOrExp => 10
  | NBitwiseXorExp => 9
  | NBitwiseAndExp => 8
  | NEqExp => 7
  | NCompExp => 6
  | NShiftExp => 5
  | NPlusExp => 4
  | NMultExp => 3
  | NPrefixedExpr | NCreateFunction _ _ => 2
  | NFactor | NTableOrClass _ _ | NParams _ _ => 1
  | _ => 0
  end.

(** Those that read at least a token *)
Definition strict (n : nonterminal) : nat :=
  match n with
  | NStatement _ | NCommaExpr | NExpression | NLogicalOrExp | NLogicalAndExp | NBitwiseOrExp | NBitwiseXorExp | NBitwiseAndExp
  | NEqExp | NCompExp | NShiftExp | NPlusExp | NMultExp | NPrefixedExpr | NFactor | NFunctionExp _ _ => 1
  | _ => 0
  end.

Definition args_ok (n : nonterminal) (c : SQCompiler) : Prop :=
  match n with
  | NQualified id | NEnumRest id _ _ | NCreateFunction id _ => live c id
  | _ => True
  end.

(** ** Steps of a proof *)

Lemma grow_trans c0 c c' : strs c ⊆ strs c' → strs c0 ⊆ strs c → strs c0 ⊆ strs c'.
Proof. intros. by etrans. Qed.

(** What is known of [c] is known of [c'] behind it. *)
Ltac carry c c' Hsub :=
  repeat match goal with
  | H : live c _ |- _ => apply (live_grow c c' _ Hsub) in H
  | H : strs _ ⊆ strs c |- _ => apply (grow_trans _ c c' Hsub) in H
  end;
  repeat match goal with H : inv _ c |- _ => clear H end; clear Hsub.

Ltac behind c c' Hq :=
  cbv beta in Hq;
  lazymatch type of Hq with
  | quiet _ _ _ =>
      let Hg := fresh "Hg" in
      pose proof (quiet_read _ _ _ Hq) as ?; pose proof (qu_token _ _ _ Hq) as ?; pose proof (qu_grow _ _ _ Hq) as Hg;
      apply qu_inv in Hq; carry c c' Hg
  | reads _ _ _ _ =>
      let Hg := fresh "Hg" in
      pose proof (re_read _ _ _ _ Hq) as ?; pose proof (re_grow _ _ _ _ Hq) as Hg; apply re_inv in Hq; carry c c' Hg
  | after _ _ _ _ =>
      let n := fresh "n" in let Hg := fresh "Hg" in
      destruct Hq as (n & Hq & Hg & ? & ?); carry c c' Hg
  end.

(** A token that is one of those asked for is not the end. *)
Ltac not_end E :=
  try lazymatch type of E with
  | context [_token ?c] =>
      lazymatch goal with
      | _ : _token c ≠ 0 |- _ => idtac
      | |- _ => assert (_token c ≠ 0) by (let H := fresh in intros H; rewrite H in E; first [discriminate E|apply andb_true_iff in E as [_ E]; discriminate E])
      end
  end.
Ltac over_cases :=
  lazymatch goal with
  | |- Forall _ [] => apply Forall_nil_2
  | |- _ => apply Forall_cons_2; [cbn [fst snd]; let E := fresh "E" in intros E; not_end E|over_cases]
  end.
Ltac over_switch :=
  lazymatch goal with
  | |- ends (switch _ _ _) ?c ?Q =>
      apply (switch_intro (λ m, ends m c Q));
      [over_cases|intros _]
  end.
Ltac done_reading :=
  lazymatch goal with
  | H : inv ?n ?c |- after _ _ _ ?c => exists n; cbn [strict]; split_and!; [exact H|assumption|lia|lia]
  end.
Ltac now_at lem :=
  lazymatch goal with
  | |- ends _ ?c _ => eapply ends_mono; [eapply lem; first [eassumption|lia|done]|]; let a := fresh "a" in let c' := fresh "c" in let H := fresh "H" in
      intros a c' H; cbv beta in H
  end.
Ltac calmly :=
  lazymatch goal with
  | |- ends ?m ?c _ =>
      let Hm := fresh in
      lazymatch m with
      | fs _ => assert (costs 0 m) as Hm by (apply calm_fs; frugal)
      | lift _ => assert (costs 0 m) as Hm by (apply calm_lift; auto with frugal)
      | child _ => assert (costs 0 m) as Hm by (apply calm_child; frugal)
      | EmitLoadConstInt _ _ => pose proof (costs_EmitLoadConstInt : ∀ v t, costs 1 (EmitLoadConstInt v t)) as Hm
      | _ => assert (costs 0 m) as Hm by (solve [eauto with calm])
      end;
      eapply ends_mono; [eapply Hm; eassumption|]; clear Hm; cbn [Nat.add];
      let a := fresh "a" in let c' := fresh "c" in let H := fresh "H" in intros a c' H; cbv beta; behind c c' H
  end.

Section grammar.
Context {KT : KeywordTable} {FR : FloatReader} `{Allocator}.
Context (_sourcename : SQObject) (_lineinfo : bool).

Lemma Expect_ok tok n c : tok ≠ 0 → inv n c → ends (Expect tok) c (λ o c', reads 1 n c c' ∧ live c' o).
Proof using Type.
  intros Htok Hi. apply ends_bind, ends_gets, ends_bind, ends_when; [intros _; by apply ends_raise|]. intros E.
  assert (_token c ≠ 0) as Ht.
  { intros Ht. rewrite Ht in E. destruct (Z.eqb_spec 0 tok); [done|]. discriminate E. }
  assert (∀ o c', quiet n c c' ∧ live c' o → ends (Lex;; mret o) c' (λ o c', reads 1 n c c' ∧ live c' o)) as Hlex.
  { intros o c' [Hq Ho]. apply ends_bind. eapply ends_mono; [apply Lex_reads, Hq|]. intros _ c2 [_ Hr]. apply ends_ret.
    destruct Hr as [Hi2 Hg2 Hr2]; [by rewrite (qu_token _ _ _ Hq)|]. rewrite (quiet_read _ _ _ Hq) in Hr2.
    split; [|by eapply live_grow]. split; [done| |done]. etrans; [apply Hq|done]. }
  apply ends_bind. apply (switch_intro (λ m, ends m c _)).
  - repeat (apply Forall_cons_2; [intros _; cbn [snd]|]); [| | | |apply Forall_nil_2].
    + eapply ends_mono; [by apply identifier_string_ok|]. intros o c' (? & ? & _). by apply Hlex.
    + eapply ends_mono; [by apply literal_string_ok|]. intros o c' (? & ? & _). by apply Hlex.
    + apply ends_gets, Hlex. split; [by apply quiet_refl|done].
    + apply ends_gets, Hlex. split; [by apply quiet_refl|done].
  - intros _. apply ends_ret, Hlex. split; [by apply quiet_refl|done].
Qed.

(** [Lex], and whether it reads something *)
Lemma Lex_ok' n c : inv n c →
  ends Lex c (λ _ c', inv n c' ∧ strs c ⊆ strs c' ∧ (to_read c' ≤ to_read c)%nat ∧ (_token c ≠ 0 → (to_read c' + 1 ≤ to_read c)%nat)).
Proof using Type.
  intros Hi. eapply ends_mono; [by apply Lex_reads|]. intros _ c' [[I G R] H1]. split_and!; [done|done|lia|]. intros Ht. apply H1, Ht.
Qed.
End grammar.

Ltac string_step lem :=
  lazymatch goal with
  | |- ends _ ?c _ =>
      eapply ends_mono; [eapply lem; first [eassumption|done]|];
      let o := fresh "o" in let c' := fresh "c" in let H := fresh "H" in intros o c' (H & ? & _); behind c c' H
  end.

(** Through the code of a function, by its shape *)
Ltac step :=
  lazymatch goal with
  | |- ends (mbind _ _) _ _ => apply ends_bind
  | |- ends (gets _) _ _ => apply ends_gets
  | |- ends token _ _ => apply ends_gets
  | |- ends get_etype _ _ => apply ends_gets
  | |- ends IsEndOfStatement _ _ => apply ends_gets
  | |- ends (mret _) _ _ => apply ends_ret
  | |- ends (Error _) _ _ => apply ends_raise; discriminate
  | |- ends (raise _) _ _ => apply ends_raise; discriminate
  | |- ends (when _ _) _ _ => apply ends_when; let E := fresh "E" in intros E; not_end E
  | |- ends (switch _ _ _) _ _ => over_switch
  | |- ends (if ?b then _ else _) _ _ => let E := fresh "E" in destruct b eqn:E; not_end E
  | |- ends (match ?x with _ => _ end) _ _ => destruct x
  | |- ends Lex ?c _ =>
      eapply ends_mono; [eapply Lex_ok'; eassumption|];
      let c' := fresh "c" in let Hi := fresh "Hi" in let Hg := fresh "Hg" in intros _ c' (Hi & Hg & ? & ?); carry c c' Hg
  | |- ends (Expect _) ?c _ =>
      eapply ends_mono; [eapply Expect_ok; [discriminate|eassumption]|];
      let o := fresh "o" in let c' := fresh "c" in let H := fresh "H" in intros o c' [H ?]; behind c c' H
  | |- ends (expect_ _) _ _ => apply ends_bind
  | |- ends (add_literal _) ?c _ =>
      eapply ends_mono; [eapply add_literal_ok; [eassumption|first [assumption|done]]|];
      let a := fresh "a" in let c' := fresh "c" in let H := fresh "H" in intros a c' H; behind c c' H
  | |- ends (emit_literal _) ?c _ =>
      eapply ends_mono; [eapply emit_literal_ok; [eassumption|first [assumption|done]]|];
      let a := fresh "a" in let c' := fresh "c" in let H := fresh "H" in intros a c' H; behind c c' H
  | |- ends identifier_string _ _ => string_step identifier_string_ok
  | |- ends literal_string _ _ => string_step literal_string_ok
  | |- ends (name_string _) _ _ => string_step name_string_ok
  | |- ends (create_string _ _) _ _ => string_step create_string_ok
  | |- ends _ _ _ => calmly
  | |- after _ _ _ _ => done_reading
  end; cbv beta.
Ltac steps := repeat step.

Ltac start := intros; match goal with c : SQCompiler |- _ => assert (strs c ⊆ strs c) by done end.

Section grammar2.
Context {KT : KeywordTable} {FR : FloatReader} `{Allocator}.
Context (_sourcename : SQObject) (_lineinfo : bool).

Lemma OptionalSemicolon_ok n c : inv n c → ends OptionalSemicolon c (λ _ c', after 0 n c c').
Proof using Type. start. unfold OptionalSemicolon. steps. Qed.
Lemma after_statement_ok n c : inv n c → ends after_statement c (λ _ c', after 0 n c c').
Proof using Type. start. unfold after_statement, OptionalSemicolon. steps. Qed.

(** *** Names and constants *)

Lemma constant_value_ok name constant n c : inv n c → live c constant →
  ends (constant_value name constant) c (λ o c', after 0 n c c' ∧ live c' o).
Proof using Type.
  start. unfold constant_value. step; [|step; by split; [done_reading|]]. do 9 step. unfold id.
  apply ends_lift; [by apply expect_not_fuel|]. intros t Et. destruct (_tables _ !! _unVal constant) as [t'|] eqn:Ea; [|done].
  injection Et as ->. step. match goal with Hi : inv _ ?c, Ea : _tables ?c !! _ = Some _ |- _ =>
    destruct (table_get_ok _ _ _ o0 (inv_tables _ _ Hi _ _ Ea)) as (r & Er & Hr) end.
  rewrite Er. apply ends_lift; [done|]. intros r' [= <-]. destruct r; steps. split; [done_reading|by apply Hr].
Qed.

(** A name that was read: at most a literal more *)
Lemma emit_constant_ok o pos n c : inv n c → live c o → ends (emit_constant o pos) c (λ _ c', quiet (S n) c c').
Proof using Type.
  intros Hi Ho. assert (∀ m : cM (), costs 1 m → ends m c (λ _ c', quiet (S n) c c')) as Hc by (intros m Hm; by apply Hm).
  unfold emit_constant. destruct (_type o) eqn:Et; try (apply Hc; solve [eauto with calm | apply calm_costs; eauto with calm]);
    apply ends_bind; (eapply ends_mono; [by apply add_literal_ok|]); intros k c1 Hq;
    (eapply ends_mono; [apply calm_emit, Hq|]); intros [] c2 Hq2; by apply (quiet_trans (S n) _ _ c1).
Qed.
Lemma variable_ok name n c : inv n c → live c name → ends (variable name) c (λ _ c', after 0 (S n) c c').
Proof using Type.
  start. unfold variable. steps.
  eapply ends_mono; [by eapply IsConstant_ok|]. intros r c' [-> Hr]. destruct r as [o|]; [|steps].
  specialize (Hr o eq_refl). step. eapply ends_mono; [by eapply constant_value_ok|]. cbv beta. intros o' c2 [Ha Ho]. behind c0 c2 Ha. do 4 step.
  step. match goal with |- ends _ ?c _ => eapply ends_mono; [by eapply emit_constant_ok|]; intros [] c' Hq; behind c c' Hq end. steps.
Qed.

Lemma ExpectScalar_ok n c : inv n c → ends ExpectScalar c (λ o c', after 0 n c c' ∧ live c' o).
Proof using Type. start. unfold ExpectScalar. steps; (split; [done_reading|first [assumption|done]]). Qed.
End grammar2.

(** ** The functions of the grammar *)

Section recursion.
Context {KT : KeywordTable} {FR : FloatReader} `{Allocator}.
Context (_sourcename : SQObject) (_lineinfo : bool).

(** There is room for the literals that the text can still make. *)
Definition room : nat := Z.to_nat (2 ^ 29 - 1).
Lemma room_bound : Z.of_nat room < 2 ^ 29.
Proof using Type. unfold room. lia. Qed.
Lemma room_enough n : Z.of_nat n < 2 ^ 29 → (n ≤ room)%nat.
Proof using Type. unfold room. lia. Qed.

(** The calls that [M] steps are enough for *)
Definition rec_ok (M : nat) (rec : nonterminal → cM ()) : Prop := ∀ N n c,
  inv n c → args_ok N c → live c _sourcename → (n + to_read c ≤ room)%nat → (40 * to_read c + rank N < M)%nat →
  ends (rec N) c (λ _ c', after (strict N) n c c').
(** A part of a function that starts at a token and reads it *)
Definition goes (M : nat) (m : cM ()) : Prop := ∀ n c,
  inv n c → live c _sourcename → (n + to_read c ≤ room)%nat → (40 * to_read c ≤ M)%nat → _token c ≠ 0 → ends m c (λ _ c', after 1 n c c').
End recursion.
#[local] Opaque room.

Ltac gstep :=
  lazymatch goal with
  | Hr : rec_ok _ _ ?rec |- ends (?rec ?N) ?c _ =>
      eapply ends_mono; [eapply (Hr N); [eassumption|cbn [args_ok]; first [exact I|assumption|done|auto]|assumption|lia|cbn [rank]; lia]|];
      let a := fresh "u" in let c' := fresh "c" in let H := fresh "H" in intros a c' H; cbn [strict] in H; behind c c' H
  | _ => step
  end; cbv beta.
Ltac gsteps := repeat gstep.
(** A part that has a lemma of its own *)
Ltac side :=
  lazymatch goal with
  | |- inv _ _ => eassumption
  | |- live _ _ => first [assumption|done]
  | |- (_ ≤ _)%nat => cbn [rank]; lia
  | |- (_ < _)%nat => lia
  | |- _ ≠ _ => lia
  | |- _ => first [eassumption|lia|intros; exact I|done]
  end.
Ltac part lem :=
  lazymatch goal with
  | |- ends _ ?c _ =>
      eapply ends_mono; [eapply lem; side|];
      let a := fresh "u" in let c' := fresh "c" in let H := fresh "H" in intros a c' H; cbv beta; behind c c' H
  end.

(** The ways through a part meet behind it. *)
Ltac join tac :=
  lazymatch goal with
  | Hi : inv ?n ?c |- ends ?m ?c _ =>
      apply (ends_mono m c (λ _ c', after 0 n c c')); [assert (strs c ⊆ strs c) by done; solve [tac]|];
      let a := fresh "u" in let c' := fresh "c" in let H := fresh "H" in intros a c' H; behind c c' H
  end.

Section expressions.
Context {KT : KeywordTable} {FR : FloatReader} `{Allocator}.
Context (_sourcename : SQObject) (_lineinfo : bool) (rec : nonterminal → cM ()) (M : nat).
Context (Hrec : rec_ok _sourcename M rec).
Abbreviation goes := (goes _sourcename M).

Ltac enter := let c := fresh "c" in intros n c Hi Hsrc Hroom Hread Htok; assert (strs c ⊆ strs c) by done.

Lemma BIN_EXP_goes op f op3 : (∀ c, args_ok f c) → (rank f ≤ 20)%nat → goes (BIN_EXP rec op f op3).
Proof using Hrec. intros Hf Hr. enter. unfold BIN_EXP, fresh_es. gsteps. Qed.
Lemma shortcut_goes op f : (∀ c, args_ok f c) → (rank f ≤ 20)%nat → goes (shortcut rec op f).
Proof using Hrec. intros Hf Hr. enter. unfold shortcut, fresh_es. gsteps. Qed.
Lemma assignment_goes op : goes (assignment rec op).
Proof using Hrec. enter. unfold assignment. gsteps. Qed.
Lemma conditional_goes : goes (conditional rec).
Proof using Hrec. enter. unfold conditional. gsteps. Qed.

(** A function with its rank *)
Definition body_ok (N : nonterminal) : Prop := ∀ n c,
  inv n c → args_ok N c → live c _sourcename → (n + to_read c ≤ room)%nat → (40 * to_read c + rank N ≤ M)%nat →
  ends (run _sourcename _lineinfo rec N) c (λ _ c', after (strict N) n c c').
End expressions.

Ltac gstep ::=
  lazymatch goal with
  | Hr : rec_ok _ _ ?rec |- ends (?rec ?N) ?c _ =>
      eapply ends_mono; [eapply (Hr N); [eassumption|cbn [args_ok]; first [exact I|assumption|done|auto]|assumption|lia|cbn [rank]; lia]|];
      let a := fresh "u" in let c' := fresh "c" in let H := fresh "H" in intros a c' H; cbn [strict] in H; behind c c' H
  | |- ends (BIN_EXP _ _ _ _) _ _ => part BIN_EXP_goes
  | |- ends (shortcut _ _ _) _ _ => part shortcut_goes
  | |- ends (assignment _ _) _ _ => part assignment_goes
  | |- ends (conditional _) _ _ => part conditional_goes
  | |- ends after_statement _ _ => part after_statement_ok
  | |- ends OptionalSemicolon _ _ => part OptionalSemicolon_ok
  | _ => step
  end; cbv beta.
Ltac body :=
  let c := fresh "c" in
  intros n c Hi Hargs Hsrc Hroom Hread; assert (strs c ⊆ strs c) by done; cbn [run rank args_ok strict] in *.

Section operators.
Context {KT : KeywordTable} {FR : FloatReader} `{Allocator}.
Context (_sourcename : SQObject) (_lineinfo : bool) (rec : nonterminal → cM ()) (M : nat).
Context (Hrec : rec_ok _sourcename M rec).
Abbreviation body_ok := (body_ok _sourcename _lineinfo rec M).

Lemma comma_ok : body_ok NCommaExpr.
Proof using Hrec. body. unfold CommaExpr. gsteps. Qed.
Lemma comma_rest_ok : body_ok NCommaRest.
Proof using Hrec. body. unfold comma_rest. gsteps. Qed.
Lemma expression_ok : body_ok NExpression.
Proof using Hrec. body. unfold Expression, fresh_es. gsteps. Qed.
Lemma operators_ok N : N ∈ [NLogicalOrExp; NLogicalAndExp; NBitwiseOrExp; NBitwiseXorExp; NBitwiseAndExp; NEqExp; NCompExp; NShiftExp; NPlusExp; NMultExp] →
  body_ok N.
Proof using Hrec.
  intros HN. repeat (apply elem_of_cons in HN as [->|HN]); [..|by apply elem_of_nil in HN]; body;
    unfold LogicalOrExp, LogicalAndExp, BitwiseOrExp, BitwiseXorExp, BitwiseAndExp, EqExp, CompExp, ShiftExp, PlusExp, MultExp; gsteps.
Qed.
Lemma rests_ok N : N ∈ [NLogicalAndRest; NBitwiseOrRest; NBitwiseXorRest; NBitwiseAndRest; NEqRest; NCompRest; NShiftRest; NPlusRest; NMultRest] → body_ok N.
Proof using Hrec.
  intros HN. repeat (apply elem_of_cons in HN as [->|HN]); [..|by apply elem_of_nil in HN]; body;
    unfold logical_and_rest, bitwise_or_rest, bitwise_xor_rest, bitwise_and_rest, eq_rest, comp_rest, shift_rest, plus_rest, mult_rest; gsteps.
Qed.
End operators.

Section factors.
Context {KT : KeywordTable} {FR : FloatReader} `{Allocator}.
Context (_sourcename : SQObject) (_lineinfo : bool) (rec : nonterminal → cM ()) (M : nat).
Context (Hrec : rec_ok _sourcename M rec).
Abbreviation goes := (goes _sourcename M).
Abbreviation body_ok := (body_ok _sourcename _lineinfo rec M).
Ltac enter := let c := fresh "c" in intros n c Hi Hsrc Hroom Hread Htok; assert (strs c ⊆ strs c) by done.

Lemma prefixed_ok : body_ok NPrefixedExpr.
Proof using Hrec. body. unfold PrefixedExpr. gsteps. Qed.
Lemma prefixed_rest_ok : body_ok NPrefixedRest.
Proof using Hrec. body. unfold prefixed_rest, postfix_step. gsteps. Qed.
Lemma array_rest_ok apos key : body_ok (NArrayRest apos key).
Proof using Hrec. body. unfold array_rest. gsteps. Qed.
Lemma call_args_ok rawcall nargs : body_ok (NCallArgs rawcall nargs).
Proof using Hrec. body. unfold call_args. gsteps. Qed.

Lemma DeleteExpr_goes : goes (DeleteExpr rec).
Proof using Hrec. enter. unfold DeleteExpr. gsteps. Qed.
Lemma PrefixIncDec_goes tok : goes (PrefixIncDec rec tok).
Proof using Hrec. enter. unfold PrefixIncDec. gsteps. Qed.
Lemma plain_factor_ok n c : inv n c → live c _sourcename → (n + to_read c ≤ room)%nat → (40 * to_read c + 1 ≤ M)%nat →
  ends (plain_factor _sourcename rec (_token c)) c (λ _ c', after 1 n c c').
Proof using Hrec.
  start. unfold plain_factor, UnaryOP. gstep;
    lazymatch goal with
    | |- ends (PrefixIncDec _ _) _ _ => part PrefixIncDec_goes
    | |- ends (DeleteExpr _) _ _ => part DeleteExpr_goes
    | |- _ => idtac
    end; gsteps.
Qed.
(** [::] becomes a dot, which is less to read. *)
Lemma colon_ok n c : inv n c → _token c = TK_DOUBLE_COLON → ends (modify (with_token (ch "."))) c (λ _ c', reads 1 n c c').
Proof using Type.
  intros Hi Ht. apply ends_modify. split; [by destruct Hi|done|]. unfold to_read. simpl. rewrite Ht.
  change (weight TK_DOUBLE_COLON) with 2%nat. change (weight (ch ".")) with 1%nat. lia.
Qed.
Lemma factor_ok : body_ok NFactor.
Proof using Hrec.
  body. unfold Factor. gstep. gstep.
  gstep; [gsteps| | | | |gstep; part plain_factor_ok; gsteps].
  1-3: do 4 gstep; part variable_ok; gsteps.
  do 7 gstep. part colon_ok. gsteps.
Qed.
End factors.

Section functions.
Context {KT : KeywordTable} {FR : FloatReader} `{Allocator}.
Context (_sourcename : SQObject) (_lineinfo : bool) (rec : nonterminal → cM ()) (M : nat).
Context (Hrec : rec_ok _sourcename M rec).
Abbreviation goes := (goes _sourcename M).
Abbreviation body_ok := (body_ok _sourcename _lineinfo rec M).

Lemma table_or_class_ok s t : body_ok (NTableOrClass s t).
Proof using Hrec. body. unfold ParseTableOrClass. gsteps. Qed.
Lemma member_pair_ok s n c : inv n c → live c _sourcename → (n + to_read c ≤ room)%nat → (40 * to_read c ≤ M)%nat →
  ends (member_pair rec s) c (λ _ c', after 1 n c c').
Proof using Hrec. start. unfold member_pair, member_function, named_member. gsteps. Qed.
Lemma table_rest_ok s t tpos k : body_ok (NTableRest s t tpos k).
Proof using Hrec.
  body. unfold table_rest, member_attributes, member_static. do 2 gstep. gstep; [gsteps|]. gstep. join gsteps. gstep. join gsteps. gstep.
  part member_pair_ok. gsteps.
Qed.
Lemma class_ok : body_ok NClassExp.
Proof using Hrec. body. unfold ClassExp. gsteps. Qed.
Lemma function_exp_ok t lambda : body_ok (NFunctionExp t lambda).
Proof using Hrec. body. unfold FunctionExp. gsteps. Qed.
Lemma calm_PushChildState : calm PushChildState.
Proof using Type. intros n c. apply PushChildState_ok. Qed.
Hint Resolve calm_PushChildState : calm.
Lemma create_function_ok name lambda : body_ok (NCreateFunction name lambda).
Proof using Hrec. body. unfold CreateFunction. gsteps. Qed.
Lemma params_ok lambda k : body_ok (NParams lambda k).
Proof using Hrec. body. unfold params. gsteps. Qed.
Lemma function_body_ok lambda k : body_ok (NFunctionBody lambda k).
Proof using Hrec.
  body. unfold function_body. pose proof room_bound. gsteps.
  all: match goal with |- ends _ ?c _ => eapply ends_mono; [eapply leave_child_ok; [eassumption|lia]|]; intros [] c' Hq; behind c c' Hq end; gsteps.
Qed.
End functions.

Ltac enter := let c := fresh "c" in intros n c Hi Hsrc Hroom Hread Htok; assert (strs c ⊆ strs c) by done.

Ltac scalar :=
  lazymatch goal with
  | |- ends ExpectScalar ?c _ =>
      eapply ends_mono; [eapply ExpectScalar_ok; eassumption|]; let o := fresh "o" in let c' := fresh "c" in let H := fresh "H" in
      intros o c' [H ?]; cbv beta; behind c c' H
  end.

Section statements.
Context {KT : KeywordTable} {FR : FloatReader} `{Allocator}.
Context (_sourcename : SQObject) (_lineinfo : bool) (rec : nonterminal → cM ()) (M : nat).
Context (Hrec : rec_ok _sourcename M rec).
Abbreviation goes := (goes _sourcename M).
Abbreviation body_ok := (body_ok _sourcename _lineinfo rec M).

Lemma statements_ok : body_ok NStatements.
Proof using Hrec.
  body. unfold Statements. gsteps.
Qed.
Lemma block_goes close : goes (block rec close).
Proof using Hrec. enter. unfold block. gsteps. Qed.
Lemma if_block_ok : body_ok NIfBlock.
Proof using Hrec. body. unfold IfBlock. do 2 gstep. gstep; [part block_goes|]; gsteps. Qed.
Lemma LocalDeclStatement_goes : goes (LocalDeclStatement rec).
Proof using Hrec. enter. unfold LocalDeclStatement. gsteps. Qed.
Lemma local_decl_ok : body_ok NLocalDecl.
Proof using Hrec. body. unfold local_decl. gsteps. Qed.
Lemma IfStatement_goes : goes (IfStatement rec).
Proof using Hrec. enter. unfold IfStatement, paren_expr. gsteps. Qed.
Lemma WhileStatement_goes : goes (WhileStatement rec).
Proof using Hrec. enter. unfold WhileStatement, paren_expr. gsteps. Qed.
Lemma DoWhileStatement_goes : goes (DoWhileStatement rec).
Proof using Hrec. enter. unfold DoWhileStatement. gsteps. Qed.
Lemma ForEachStatement_goes : goes (ForEachStatement rec).
Proof using Hrec. enter. unfold ForEachStatement. gsteps. Qed.
Lemma cases_ok expr b t s k : body_ok (NCases expr b t s k).
Proof using Hrec. body. unfold cases, switch_end, scoped. gsteps. Qed.
Lemma SwitchStatement_goes : goes (SwitchStatement rec).
Proof using Hrec. enter. unfold SwitchStatement, paren_expr. gsteps. Qed.
Lemma FunctionStatement_goes : goes (FunctionStatement rec).
Proof using Hrec. enter. unfold FunctionStatement, qualified_name. gsteps. Qed.
Lemma qualified_ok id : body_ok (NQualified id).
Proof using Hrec. body. unfold qualified_rest, qualified_name. gsteps. Qed.
Lemma ClassStatement_goes : goes (ClassStatement rec).
Proof using Hrec. enter. unfold ClassStatement. gsteps. Qed.
Lemma TryCatchStatement_goes : goes (TryCatchStatement rec).
Proof using Hrec. enter. unfold TryCatchStatement, scoped. gsteps. Qed.
Lemma return_goes op : goes (return_statement rec op).
Proof using Hrec. enter. unfold return_statement, pop_traps. gsteps. Qed.
Lemma ForStatement_goes : goes (ForStatement rec).
Proof using Hrec.
  enter. unfold ForStatement. do 11 gstep.
  join ltac:(gstep; [part LocalDeclStatement_goes|]; gsteps). do 11 gstep. join gsteps. do 11 gstep. join gsteps. gsteps.
Qed.
Lemma leave_block_goes targets msg note : (∀ p f, _literals (note p f) = _literals f ∧ _strings (note p f) = _strings f) → goes (leave_block targets msg note).
Proof using Type.
  intros Hnote. enter. unfold leave_block. gstep. gstep. destruct (last (targets (_fs c))) as [traps|]; [|gsteps].
  assert (∀ p, calm (fs (modify (note p)))) as Hn by (intros p; apply calm_fs, frugal_modify, Hnote). gsteps; part Hn; gsteps.
Qed.
Lemma const_goes : goes const_statement.
Proof using Type.
  enter. unfold const_statement. gsteps.
  scalar. gstep. gstep. part new_const_ok. gsteps.
Qed.
Lemma EnumStatement_goes : goes (EnumStatement rec).
Proof using Hrec. enter. unfold EnumStatement. gsteps. Qed.
Lemma enum_rest_ok id table nval : body_ok (NEnumRest id table nval).
Proof using Hrec.
  body. unfold enum_rest. do 2 gstep. gstep; [gstep; part new_const_ok; gsteps|]. gsteps; try scalar; gsteps; part new_enum_slot_ok; gsteps.
Qed.

Lemma statement_body_ok closeframe n c : inv n c → live c _sourcename → (n + to_read c ≤ room)%nat → (40 * to_read c + 15 ≤ M)%nat →
  ends (statement_body rec closeframe (_token c)) c (λ _ c', after 1 n c c').
Proof using Hrec.
  start. unfold statement_body. gstep;
    lazymatch goal with
    | |- ends (IfStatement _) _ _ => part IfStatement_goes
    | |- ends (WhileStatement _) _ _ => part WhileStatement_goes
    | |- ends (DoWhileStatement _) _ _ => part DoWhileStatement_goes
    | |- ends (ForStatement _) _ _ => part ForStatement_goes
    | |- ends (ForEachStatement _) _ _ => part ForEachStatement_goes
    | |- ends (SwitchStatement _) _ _ => part SwitchStatement_goes
    | |- ends (LocalDeclStatement _) _ _ => part LocalDeclStatement_goes
    | |- ends (return_statement _ _) _ _ => part return_goes
    | |- ends (leave_block _ _ _) _ _ => part leave_block_goes
    | |- ends (FunctionStatement _) _ _ => part FunctionStatement_goes
    | |- ends (ClassStatement _) _ _ => part ClassStatement_goes
    | |- ends (EnumStatement _) _ _ => part EnumStatement_goes
    | |- ends (block _ _) _ _ => part block_goes
    | |- ends (TryCatchStatement _) _ _ => part TryCatchStatement_goes
    | |- ends const_statement _ _ => part const_goes
    | |- _ => idtac
    end; gsteps.
  part return_goes. gsteps.
Qed.
Lemma statement_ok closeframe : body_ok (NStatement closeframe).
Proof using Hrec.
  body. unfold Statement. do 7 gstep. unfold token. do 2 gstep. part statement_body_ok. gsteps.
Qed.

(** A step of the recursion *)
Lemma run_ok N : body_ok N.
Proof using Hrec.
  destruct N; eauto using statement_ok, statements_ok, comma_ok, comma_rest_ok, expression_ok, prefixed_ok, prefixed_rest_ok, factor_ok, array_rest_ok,
    call_args_ok, table_or_class_ok, table_rest_ok, local_decl_ok, if_block_ok, cases_ok, qualified_ok, enum_rest_ok, function_exp_ok, class_ok,
    create_function_ok, params_ok, function_body_ok;
    first [by eapply operators_ok; [eassumption|set_solver] | by eapply rests_ok; [eassumption|set_solver]].
Qed.
End statements.
