(* ===== verification/SqCompilerWhole.v ===== *)
(** * The compiler comes to an end

    [parse] with the fuel of [SqCompilerTotal], the loop over the statements of a
    program, and [Compile] from what the constructor of the compiler sets up. *)

From Stdlib Require Import Ascii.
From stdpp Require Import base numbers gmap strings option list.
From S2P Require Import Prelude CType SqObject SqTable SqTableInv SqTableSpec SqString SqProto SqLexer SqLexerSpec SqLexerRound SqKeywords SqFuncState SqCompiler SqCompilerEnds SqCompilerTotal.

Open Scope Z_scope.

#[local] Opaque room.

Section compile.
Context {KT : KeywordTable} {FR : FloatReader} `{Allocator}.

Lemma parse_ok src lineinfo fuel : rec_ok src fuel (parse src lineinfo fuel).
Proof using Type.
  induction fuel as [|fuel IH]; intros N n c Hi Hargs Hsrc Hroom Hread; [lia|].
  cbn [parse]. apply (run_ok src lineinfo _ fuel IH N); [assumption..|lia].
Qed.
Lemma program_ok src lineinfo depth k : ∀ n c,
  inv n c → live c src → (n + to_read c ≤ room)%nat → (to_read c < k)%nat → (40 * to_read c + 15 < depth)%nat →
  ends (program src lineinfo k depth) c (λ _ c', after 0 n c c').
Proof using Type.
  pose proof (parse_ok src lineinfo depth) as Hrec. induction k as [|k IH]; intros n c Hi Hsrc Hroom Hk Hread; [lia|].
  assert (strs c ⊆ strs c) by done. cbn [program]. do 3 gstep; [|done_reading]. gstep. gstep. gstep. part after_statement_ok. part IH. done_reading.
Qed.

Lemma Init_ok text l : SqLexer.Init text 0 = Ok l → 0 ≤ _currdata l < 256 ∧ (ahead l ≤ length text)%nat.
Proof using Type.
  unfold SqLexer.Init, Next, ahead. destruct text as [|t text]; simpl; [by intros [= <-]|]. destruct (MAX_CHAR <? t); [done|].
  destruct (t =? 0); intros [= <-]; simpl; [split; [done|lia]|]. split; [by apply wrap_range|]. destruct (_ =? _); lia.
Qed.
Lemma Compile_ok src lineinfo fuel c :
  inv 0 c → live c src → (2 * ahead (_lex c) ≤ room)%nat → (80 * ahead (_lex c) + 16 ≤ fuel)%nat → _token c = 0 →
  ends (Compile src lineinfo fuel) c (λ _ _, True).
Proof using Type.
  intros Hi Hsrc Hroom Hfuel Ht. assert (to_read c = (2 * ahead (_lex c))%nat) as Er by (unfold to_read; by rewrite Ht, Nat.add_0_r).
  assert (strs c ⊆ strs c) by done. unfold Compile. step. string_step shared_string_ok. gsteps.
  part program_ok. gsteps. apply ends_lift; [|done]. eapply BuildProto_ends; [eapply inv_fs; eassumption|]. pose proof room_bound. lia.
Qed.

(** What [Compile] starts from *)
Definition shared_ok (st : SQStringTable) (consts : SQTable) (tables : gmap Z SQTable) : Prop :=
  ∃ sm, interns st sm ∧ table_ok st sm consts ∧ map_Forall (λ _, table_ok st sm) tables.
Lemma new_compiler_ok text name st consts tables src c : shared_ok st consts tables → new_compiler text name st consts tables = Ok (src, c) →
  inv 0 c ∧ live c src ∧ (ahead (_lex c) ≤ length text)%nat ∧ _token c = 0.
Proof using Type.
  intros (sm & Hst & Hconsts & Htables). unfold new_compiler. destruct (SqLexer.Init text 0) as [l|] eqn:El; [|done]. apply Init_ok in El as [Hl Ha].
  destruct (intern_ok st sm (name ++ [Ascii.zero]) (-1)) as (st' & a & sm' & Es & Hst' & Hsub & Hs); [done|lia|]. rewrite Es. cbn [mbind res_bind].
  assert (∀ t, table_ok st sm t → table_ok st' sm' t) as Ht by (intros t; by apply table_ok_grow).
  set (c0 := mkCompiler 0 l). assert (∀ f ps cs es sc cons ts, strs (c0 f ps cs es sc st' cons ts) = sm') as Est by (intros; apply (in_vals _ _ Hst')).
  destruct new_funcstate as [f|] eqn:Ef; [|done]. intros [= <- <-]. split; [|split; [|done]].
  - destruct (new_funcstate_ok 0 (c0 f [] [] (mkExp EXPR 0 false) (mkScope 0 0) st' consts tables)) as (f' & Ef' & Hf). rewrite Ef' in Ef. injection Ef as ->.
    rewrite Est in Hf. split; rewrite ?Est; try done; [by apply Ht|]. eapply map_Forall_impl; [exact Htables|]. intros i x. apply Ht.
  - unfold live. rewrite Est. intros _. by eexists.
Qed.
Lemma new_compiler_fuel text name st consts tables : shared_ok st consts tables → new_compiler text name st consts tables ≠ Err OutOfFuel.
Proof using Type.
  intros (sm & Hst & _). unfold new_compiler. destruct (SqLexer.Init text 0) as [l|]; [|done].
  destruct (intern_ok st sm (name ++ [Ascii.zero]) (-1)) as (st' & a & sm' & Es & _); [done|lia|]. rewrite Es. cbn [mbind res_bind].
  unfold new_funcstate. destruct (@Create_models (heap_of empty_table) 0) as (t & E & _); [done|]. by rewrite E.
Qed.
End compile.

(** C5: the compiler comes to an end on every text.  Whatever the characters, the
    shared strings and the constants are, recursion of 80 calls for each
    character (and 16 more) is enough: [Compile] gives a function, or stops with an error
    that is not lack of fuel, in texts of up to 2^28 characters. *)
Theorem compile_ends `{KeywordTable} `{FloatReader} `{Allocator} text name lineinfo st consts tables fuel :
  shared_ok st consts tables → Z.of_nat (length text) < 2 ^ 28 → (80 * length text + 16 ≤ fuel)%nat →
  compile fuel text name lineinfo st consts tables ≠ Err OutOfFuel.
Proof.
  intros Hs Hlen Hfuel. unfold compile. pose proof (new_compiler_fuel text name _ _ _ Hs) as Hf.
  destruct (new_compiler _ _ _ _ _) as [[src c]|e] eqn:E; [|by intros [= ->]]. cbn [mbind res_bind].
  destruct (new_compiler_ok _ _ _ _ _ _ _ Hs E) as (Hi & Hsrc & Ha & Ht).
  assert (2 * ahead (_lex c) ≤ room)%nat as Hr by (apply room_enough; lia).
  pose proof (Compile_ok src lineinfo fuel c Hi Hsrc Hr ltac:(lia) Ht) as He. unfold ends in He. by destruct (Compile _ _ _ _) as [[]|[]].
Qed.
Lemma compile_ends_witness :
  ∃ t, SqTable.Create 0 = Ok t ∧
    @compile plain_keywords no_floats fresh_allocator 3000 (codes "local x = [1, 2]; return x[0] + 1;") [] true empty_table t ∅ ≠ Err OutOfFuel.
Proof.
  destruct (new_table_ok empty_table ∅) as (t & E & Ht). exists t. split; [exact E|].
  apply (@compile_ends plain_keywords no_floats fresh_allocator); [|vm_compute; reflexivity|vm_compute; lia].
  exists ∅. split; [apply empty_interns|]. split; [exact Ht|apply map_Forall_empty].
Defined.

(** ** Programs that are compiled wrong *)

(** The instructions of a program and of the functions in it *)
Definition instructions_of (p : SQFunctionProto) : list SQInstruction := SqProto._instructions p.
Definition compiled (text : string) : res (list (list SQInstruction)) :=
  t ← SqTable.Create 0;
  '(p, _) ← @compile plain_keywords no_floats fresh_allocator 3000 (codes text) [] false empty_table t ∅;
  Ok (instructions_of p :: (instructions_of <$> SqProto._functions p)).
Definition code (o : SQOpcode) (a0 a1 a2 a3 : Z) : SQInstruction := mkInstr a1 (opcode o) a0 a2 a3.
Abbreviation the_end := (code _OP_RETURN 255 0 0 0).
Abbreviation makes_function := [code _OP_CLOSURE 2 0 0 0; the_end].

(** Programs for which the code that comes out does something else.  In
    [local x = 5, y = x; return x;] the move to [y] takes the place of the load of
    [x], and the register of [x], which is returned, is never set.  A [for] loop that is the first
    thing in a function and starts with a test of two variables never ends: the
    jump out of it is not filled in.  In [(a < b) + (x ? 1 : 2)] the choice is made
    by [a < b] and the sum uses a register that was never set.  [return a(), x]
    returns what [a] returns, when [a] is a function of the language.  [++ - x] and [b + x = 5], where [x] is a variable of
    the function around, take a target from an empty stack. *)
Lemma compiler_goes_wrong :
  compiled "local x = 5, y = x; return x;" = Ok [[code _OP_LOADINT 3 5 0 0; code _OP_RETURN 1 2 4 0; the_end]] ∧
  compiled "local f = function(a, b) { for(; a < b;) a = a + 1; return a; }" =
    Ok [makes_function;
        [code _OP_JCMP 2 0 1 3; code _OP_LOADINT 3 1 0 0; code _OP_ADD 1 3 1 0; code _OP_JMP 0 (-4) 0 0; code _OP_RETURN 1 1 3 0; the_end]] ∧
  compiled "local f = function(a, b, x) { return (a < b) + (x ? 1 : 2); }" =
    Ok [makes_function;
        [code _OP_JCMP 2 2 1 3; code _OP_LOADINT 5 1 0 0; code _OP_JMP 0 1 0 0; code _OP_LOADINT 5 2 0 0; code _OP_ADD 4 5 4 0;
         code _OP_RETURN 1 4 4 0; the_end]] ∧
  compiled "local f = function(a, x) { return a(), x; }" =
    Ok [makes_function; [code _OP_MOVE 3 0 0 0; code _OP_TAILCALL 3 1 3 1; code _OP_RETURN 1 2 3 0; the_end]] ∧
  compiled "local x = 1; local f = function() { return ++ - x; }" = Err OutOfBounds ∧
  compiled "local x = 1; local f = function() { b + x = 5; }" = Err OutOfBounds.
Proof. split_and!; vm_compute; reflexivity. Qed.
