(* ===== verification/SqCompilerRead.v ===== *)
(** * The tokens the compiler reads

    The compiler looks at more of the lexer than the tokens and their values: at the
    token before, which is the newline if one was in between, and at [_svalue].
    This file follows these through a text of printed tokens. *)

From Stdlib Require Import Ascii.
From stdpp Require Import base numbers gmap strings option list.
From S2P Require Import Prelude CType SqObject SqLexer SqLexerSpec SqLexerRound SqFuncState SqCompiler.

Open Scope Z_scope.

(** ** What the parts of the lexer leave alone *)

(** A computation of the lexer that does not touch the current token *)
Definition steady {A} (m : lexM A) : Prop := ∀ l a l', m l = Ok (a, l') → _curtoken l' = _curtoken l.

Lemma steady_ret {A} (a : A) : steady (mret a).
Proof. by intros l b l' [= <- <-]. Qed.
Lemma steady_gets {A} (g : SQLexer → A) : steady (gets g).
Proof. by intros l b l' [= <- <-]. Qed.
Lemma steady_modify (g : SQLexer → SQLexer) : (∀ l, _curtoken (g l) = _curtoken l) → steady (modify g).
Proof. intros Hg l b l' [= <- <-]. apply Hg. Qed.
Lemma steady_raise {A} e : steady (raise (A := A) e).
Proof. done. Qed.
Lemma steady_lift {A} (r : res A) : steady (lift r).
Proof. intros l a l'. unfold lift. destruct r; [|done]. by intros [= <- <-]. Qed.
Lemma bind_inv {S A B} (m : stM S A) (k : A → stM S B) s b s' : (m ≫= k) s = Ok (b, s') → ∃ a s1, m s = Ok (a, s1) ∧ k a s1 = Ok (b, s').
Proof. unfold mbind, stM_bind. destruct (m s) as [[a s1]|]; [|done]. by exists a, s1. Qed.
Lemma steady_bind {A B} (m : lexM A) (k : A → lexM B) : steady m → (∀ a, steady (k a)) → steady (m ≫= k).
Proof. intros Hm Hk l b l' (a & l1 & E1 & E2)%bind_inv. by rewrite (Hk _ _ _ _ E2), (Hm _ _ _ E1). Qed.
Lemma steady_when b m : steady m → steady (when b m).
Proof. destruct b; [done|]. intros _. apply steady_ret. Qed.
Lemma steady_Next : steady Next.
Proof. intros l a l'. unfold Next. by repeat case_match; intros [= <- <-]. Qed.

Create HintDb steady.
Ltac steady_step :=
  lazymatch goal with
  | |- steady (mbind _ _) => apply steady_bind; [|intros ?]
  | |- steady (mret _) => apply steady_ret
  | |- steady (gets _) => apply steady_gets
  | |- steady (modify _) => apply steady_modify; intros ?; reflexivity
  | |- steady (raise _) => apply steady_raise
  | |- steady (SqLexer.Error _) => apply steady_raise
  | |- steady (lift _) => apply steady_lift
  | |- steady (when _ _) => apply steady_when
  | |- steady (if ?b then _ else _) => destruct b
  | |- steady (match ?x with _ => _ end) => destruct x
  | |- _ => solve [eauto with steady]
  end.
Ltac steady := repeat steady_step.

#[export] Hint Resolve steady_Next : steady.
Lemma steady_NEXT : steady NEXT.
Proof. unfold NEXT. steady. Qed.
Lemma steady_CUR_CHAR : steady CUR_CHAR.
Proof. unfold CUR_CHAR. steady. Qed.
Lemma steady_APPEND c : steady (APPEND_CHAR c).
Proof. unfold APPEND_CHAR. steady. Qed.
Lemma steady_INIT : steady INIT_TEMP_STRING.
Proof. unfold INIT_TEMP_STRING. steady. Qed.
Lemma steady_incr_line : steady incr_line.
Proof. unfold incr_line. steady. Qed.
Lemma steady_chars_left : steady chars_left.
Proof. apply steady_gets. Qed.
#[export] Hint Resolve steady_NEXT steady_CUR_CHAR steady_APPEND steady_INIT steady_incr_line steady_chars_left : steady.
Lemma steady_line_comment k : steady (line_comment_loop k).
Proof. induction k; simpl; unfold IS_EOB; steady. Qed.
Lemma steady_block_comment k : steady (block_comment_loop k).
Proof. induction k; simpl; steady. Qed.
Lemma steady_hex_loop k : ∀ d, steady (hex_escape_loop k d).
Proof. induction k; intros d; simpl; steady. Qed.
Lemma steady_append_while P k : steady (append_while P k).
Proof. induction k; simpl; steady. Qed.
Lemma steady_number_loop k : ∀ t, steady (number_loop k t).
Proof. induction k; intros t; simpl; steady. Qed.
#[export] Hint Resolve steady_line_comment steady_block_comment steady_hex_loop steady_append_while steady_number_loop : steady.
Lemma steady_escape : steady read_escape.
Proof. unfold read_escape, ProcessStringHexEscape, AddUTF8. steady. Qed.
#[export] Hint Resolve steady_escape : steady.
Lemma steady_string_loop k q v : steady (read_string_loop k q v).
Proof. induction k; simpl; unfold read_string_char; steady. Qed.
#[export] Hint Resolve steady_string_loop : steady.

(** ** What the compiler sees of a token *)

Section reading.
Context {KT : KeywordTable} {FR : FloatReader}.

Lemma steady_ReadString q v : steady (ReadString q v).
Proof using Type. unfold ReadString, IS_EOB, TERMINATE_BUFFER. steady. Qed.
Lemma steady_ReadNumber : steady ReadNumber.
Proof using Type. unfold ReadNumber, TERMINATE_BUFFER, set_nvalue. steady. Qed.
Lemma steady_ReadID : steady ReadID.
Proof using Type. unfold ReadID, TERMINATE_BUFFER. steady. Qed.

(** A turn of the lexer's loop *)
Definition turns (m : lexM (option Z)) : Prop := ∀ l r l', m l = Ok (r, l') →
  match r with Some t => _curtoken l' = t ∧ _prevtoken l' = _curtoken l | None => _curtoken l' = _curtoken l end.
Lemma turns_bind {A} (m : lexM A) (k : A → lexM (option Z)) : steady m → (∀ a, turns (k a)) → turns (m ≫= k).
Proof using Type. intros Hm Hk l r l' (a & l1 & E1 & E2)%bind_inv. specialize (Hk _ _ _ _ E2). by rewrite (Hm _ _ _ E1) in Hk. Qed.
Lemma turns_RETURN t : turns (RETURN_TOKEN t).
Proof using Type. by intros l r l' [= <- <-]. Qed.
Lemma turns_continue : turns continue.
Proof using Type. by intros l r l' [= <- <-]. Qed.
Lemma turns_raise e : turns (raise e).
Proof using Type. done. Qed.

Ltac turns := repeat
  lazymatch goal with
  | |- turns (mbind _ _) => apply turns_bind; [steady|intros ?]
  | |- turns (RETURN_TOKEN _) => apply turns_RETURN
  | |- turns (tok _) => apply turns_RETURN
  | |- turns continue => apply turns_continue
  | |- turns (SqLexer.Error _) => apply turns_raise
  | |- turns (if_next _ _ _) => unfold if_next
  | |- turns (if ?b then _ else _) => destruct b
  end.

Lemma turn_tokens l r l' : lex_turn l = Ok (r, l') → _currdata l ≠ 10 →
  match r with Some t => _curtoken l' = t ∧ _prevtoken l' = _curtoken l | None => _curtoken l' = _curtoken l end.
Proof using Type.
  intros E Hn. pose proof steady_ReadString. pose proof steady_ReadNumber. pose proof steady_ReadID.
  unfold lex_turn, CUR_CHAR in E. apply bind_inv in E as (c & l1 & [= <- <-] & E).
  assert (isc (_currdata l) "010" = false) as Hc by (by apply Z.eqb_neq). rewrite Hc in E.
  match type of E with ?m _ = _ => assert (turns m) as Hm end; [|by apply Hm].
  repeat (match goal with |- turns (if ?b then _ else _) => destruct b end; [turns; try done|]).
  all: unfold LexLineComment, LexBlockComment; turns; steady.
Qed.

(** The value of a name or a string is where [_svalue] points. *)
Definition valued (t : source_token) (l : SQLexer) : Prop :=
  match tk_value (expected t 0) with VString s => _svalue l = true ∧ _longstr l = s ++ [Ascii.zero] | _ => True end.

Lemma ReadID_svalue l t l' : ReadID l = Ok (t, l') → (t =? TK_IDENTIFIER) || (t =? TK_CONSTRUCTOR) = true → _svalue l' = true.
Proof using Type.
  intros E Ht. unfold ReadID in E. do 9 (apply bind_inv in E as (? & ? & _ & E)).
  apply bind_inv in E as ([] & l1 & E1 & [= <- <-]). rewrite Ht in E1. by injection E1 as <-.
Qed.
Lemma ReadString_svalue l q l' : ReadString q false l = Ok (TK_STRING_LITERAL, l') → _svalue l' = true.
Proof using Type.
  intros E. unfold ReadString in E. do 2 (apply bind_inv in E as (? & ? & _ & E)). apply bind_inv in E as ([] & ? & _ & E); [done|].
  do 4 (apply bind_inv in E as (? & ? & _ & E)). destruct (q =? _).
  - do 4 (apply bind_inv in E as (? & ? & _ & E)). by injection E.
  - apply bind_inv in E as ([] & l1 & E1 & [= <-]). by injection E1 as <-.
Qed.

Lemma turn_valued l t w rest l' : printable t = true → look l (print t ++ w :: rest) → blank w = true →
  lex_turn l = Ok (Some (tk (expected t (_currentline l))), l') → valued t l'.
Proof using Type.
  intros Hp Hl Hw E. unfold valued. destruct t as [[|c s]|n|s|c|s]; try done; cbn [print app] in Hl.
  - simpl in Hp. apply andb_true_iff in Hp as [Hc Hs]. destruct (blank_front w rest Hw) as (Hf1 & _ & _).
    rewrite (turn_name l c s (w :: rest)) in E by done. destruct (ReadID_look l c s (w :: rest) Hl Hs Hf1) as (l1 & H1 & Hl1 & (L1 & _ & _)).
    rewrite (bind_run _ _ _ _ _ H1) in E. cbn [expected tk tk_value] in *. destruct (_ || _) eqn:Ht in |- *; [|done].
    injection E as <-. cbn [set_tokens _svalue _longstr]. split; [by eapply ReadID_svalue|done].
  - rewrite <- app_assoc in Hl. rewrite (turn_quote l _ _ Hl) in E by auto.
    destruct (ReadString_look quote_char quote_encodes l s (w :: rest) Hl) as (l1 & H1 & Hl1 & L1 & C1).
    rewrite (bind_run _ _ _ _ _ H1) in E. cbn in E. injection E as <-. cbn [set_tokens _svalue _longstr]. split; [by eapply ReadString_svalue|done].
Qed.

Lemma turn_some_not_newline l t l' : lex_turn l = Ok (Some t, l') → _currdata l ≠ 10.
Proof using Type.
  intros E En. unfold lex_turn, CUR_CHAR in E. apply bind_inv in E as (c & l1 & [= <- <-] & E). rewrite En in E.
  change ((incr_line;; modify (λ l, set_tokens 10 (_curtoken l) l);; NEXT;; modify (λ l, set_pos (_currentline l) (_lasttokenline l) 1 l);; continue) l = Ok (Some t, l')) in E.
  do 4 (apply bind_inv in E as (? & ? & _ & E)). by injection E.
Qed.

Lemma newlines_cons w ws : newlines (w :: ws) = newlines [w] + newlines ws.
Proof using Type. change (w :: ws) with ([w] ++ ws). apply newlines_app. Qed.
Lemma newlines_pos ws : 0 ≤ newlines ws.
Proof using Type.
  unfold newlines. induction (map char_code ws) as [|t ts IH]; [done|]. rewrite nl_cons. case_decide; lia.
Qed.

(** The token before is the newline, if there is one among the blanks. *)
Definition prev_behind (k : Z) (ws : list ascii) : Z := if newlines ws =? 0 then k else 10.
Lemma newline_turn l r l' : _currdata l = 10 → lex_turn l = Ok (r, l') → _curtoken l' = 10.
Proof using Type.
  intros En E. unfold lex_turn, CUR_CHAR in E. apply bind_inv in E as (c & l1 & [= <- <-] & E). rewrite En in E.
  change ((incr_line;; modify (λ l, set_tokens 10 (_curtoken l) l);; NEXT;; modify (λ l, set_pos (_currentline l) (_lasttokenline l) 1 l);; continue) l = Ok (r, l')) in E.
  apply bind_inv in E as ([] & l1 & _ & E). apply bind_inv in E as ([] & l2 & [= <-] & E). apply bind_inv in E as ([] & l3 & E3 & E).
  apply steady_NEXT in E3. apply bind_inv in E as ([] & l4 & [= <-] & E). by injection E as <- <-.
Qed.
Lemma blank_turn l v rest l' : look l (v :: rest) → blank v = true → lex_turn l = Ok (None, l') → _curtoken l' = prev_behind (_curtoken l) [v].
Proof using Type.
  intros Hl Hv E. destruct Hl as [_ [Hc _]]. unfold prev_behind. pose proof (turn_tokens _ _ _ E) as Ht.
  destruct (blank_cases v Hv) as [-> |[-> |[-> | ->]]].
  - apply Ht. by rewrite Hc.
  - apply Ht. by rewrite Hc.
  - by apply (newline_turn l None l').
  - apply Ht. by rewrite Hc.
Qed.
Lemma prev_behind_app k ws1 ws2 : prev_behind (prev_behind k ws1) ws2 = prev_behind k (ws1 ++ ws2).
Proof using Type.
  unfold prev_behind. rewrite newlines_app. pose proof (newlines_pos ws1). pose proof (newlines_pos ws2).
  destruct (Z.eqb_spec (newlines ws1) 0), (Z.eqb_spec (newlines ws2) 0), (Z.eqb_spec (newlines ws1 + newlines ws2) 0); done || lia.
Qed.

(** The loop, in front of blanks and a token *)
Lemma lex_loop_tokens ws t w rest : ∀ fuel l k l',
  look l (ws ++ print t ++ w :: rest) → forallb blank ws = true → printable t = true → blank w = true →
  lex_loop fuel l = Ok (k, l') → _curtoken l' = k ∧ _prevtoken l' = prev_behind (_curtoken l) ws ∧ valued t l'.
Proof using Type.
  induction ws as [|v ws IH]; intros fuel l k l' Hl Hb Hp Hw E; (destruct fuel as [|fuel]; [done|]); cbn [lex_loop] in E.
  - destruct (reads_token l t w rest Hp Hl Hw) as (l1 & E1 & _). cbn [app] in Hl.
    assert ((front (print t ++ w :: rest) =? SQUIRREL_EOB) = false) as Hf.
    { destruct (print t ++ w :: rest) as [|c s] eqn:He; [by destruct (print t)|]. apply front_nonzero. apply Hl. }
    rewrite (bind_run _ _ _ _ _ (CUR_front _ _ Hl)), Hf, (bind_run _ _ _ _ _ E1) in E. injection E as <- <-.
    pose proof (turn_some_not_newline _ _ _ E1) as Hn. destruct (turn_tokens _ _ _ E1 Hn) as [-> ->]. split; [done|]. split; [done|]. by eapply turn_valued.
  - simpl in Hb. apply andb_true_iff in Hb as [Hv Hb]. cbn [app] in Hl. destruct (turn_blank l v _ Hl Hv) as (l1 & E1 & Hl1 & C1).
    assert ((front (v :: ws ++ print t ++ w :: rest) =? SQUIRREL_EOB) = false) as Hf by (apply front_nonzero, Hl).
    rewrite (bind_run _ _ _ _ _ (CUR_front _ _ Hl)), Hf, (bind_run _ _ _ _ _ E1) in E.
    destruct (IH _ _ _ _ Hl1 Hb Hp Hw E) as (-> & Hprev & Hval). split; [done|]. split; [|done]. rewrite Hprev, (blank_turn l v _ l1 Hl Hv E1).
    apply (prev_behind_app _ [v] ws).
Qed.

Lemma Lex_sees l ws t w rest :
  look l (ws ++ print t ++ w :: rest) → forallb blank ws = true → printable t = true → blank w = true →
  let x := expected t (_currentline l + newlines ws) in
  ∃ l', SqLexer.Lex l = Ok (tk x, l') ∧ look l' (w :: rest) ∧ token_of (tk x) l' = x ∧ _curtoken l' = tk x ∧
        _prevtoken l' = prev_behind (_curtoken l) ws ∧ valued t l'.
Proof using Type.
  intros Hl Hb Hp Hw x. destruct (Lex_token l ws t w rest Hl Hb Hp Hw) as (l' & E & Hl' & Ht & _). exists l'. split; [done|]. split; [done|]. split; [done|].
  set (l1 := set_pos (_currentline l) (_currentline l) (_currentcolumn l) l). change (lex_loop (S (S (length (input l1)))) l1 = Ok (tk x, l')) in E.
  assert (look l1 (ws ++ print t ++ w :: rest)) as Hl1 by (by destruct (ws ++ print t ++ w :: rest)).
  apply (lex_loop_tokens ws t w rest _ _ _ _ Hl1 Hb Hp Hw E).
Qed.
End reading.
