(* ===== verification/SqExpression.v ===== *)
(** * Expressions

    The language of expressions that the compiler reads: its syntax, how it is
    written with tokens (the levels are those of the functions of the compiler,
    from [Expression] to [Factor]; a unary operator and a chain of members and
    calls, both read by [PrefixedExpr], have one each), and what an expression evaluates to, over
    the operations of the virtual machine.  Local variables are registers, and
    a name that is not one of them is a member of [this]. *)

From Stdlib Require Import Ascii.
From stdpp Require Import base numbers strings option list.
From S2P Require Import Prelude CType SqObject SqArrayLib SqLexer SqLexerRound SqFuncState SqCompiler SqVm.

Open Scope Z_scope.

(** ** Syntax *)

Inductive unop := Neg | Not | BNot | TypeOf.
Inductive binop := Add | Sub | Mul | Div | Mod | BAnd | BOr | BXor | Shl | Shr | UShr | Eq | Ne | Cmp3 | Lt | Gt | Le | Ge.
#[export] Instance binop_eq_dec : EqDecision binop.
Proof. solve_decision. Defined.

(** [EVar] has the register of the variable; [EMethod o x args] is [o.x(args)], and
    [ECall] a call whose [this] is that of the function. *)
Inductive exp :=
  | EInt (n : nat) | EString (s : list ascii) | EBool (b : bool) | ENull
  | EVar (r : nat)
  | EMember (e : exp) (x : list ascii) | EIndex (e1 e2 : exp)
  | EMethod (e : exp) (x : list ascii) (args : list exp) | ECall (f : exp) (args : list exp)
  | EUn (o : unop) (e : exp) | EBin (o : binop) (e1 e2 : exp)
  | EAnd (e1 e2 : exp) | EOr (e1 e2 : exp) | ECond (e e1 e2 : exp).

Definition tok : Type := source_token * list ascii.

(** The token of an operator, and the level at which it is read *)
Definition op_text (o : binop) : list ascii :=
  match o with
  | Add => ["+"] | Sub => ["-"] | Mul => ["*"] | Div => ["/"] | Mod => ["%"]
  | BAnd => ["&"] | BOr => ["|"] | BXor => ["^"]
  | Shl => ["<"; "<"] | Shr => [">"; ">"] | UShr => [">"; ">"; ">"]
  | Eq => ["="; "="] | Ne => ["!"; "="] | Cmp3 => ["<"; "="; ">"]
  | Lt => ["<"] | Gt => [">"] | Le => ["<"; "="] | Ge => [">"; "="]
  end%char.
Definition op_level (o : binop) : nat :=
  match o with
  | BOr => 3 | BXor => 4 | BAnd => 5 | Eq | Ne | Cmp3 => 6 | Lt | Gt | Le | Ge => 7 | Shl | Shr | UShr => 8 | Add | Sub => 9 | Mul | Div | Mod => 10
  end.
Definition un_text (o : unop) : source_token :=
  match o with
  | Neg => SOperator ["-"] | Not => SOperator ["!"] | BNot => SOperator ["~"] | TypeOf => SName ["t"; "y"; "p"; "e"; "o"; "f"]
  end%char.

(** The register of a name: the last of the local variables with it *)
Fixpoint scope_from (i : nat) (locals : list (list ascii)) (x : list ascii) : option nat :=
  match locals with
  | [] => None
  | y :: locals' => match scope_from (S i) locals' x with Some r => Some r | None => if decide (y = x) then Some i else None end
  end.
Definition scope : list (list ascii) → list ascii → option nat := scope_from 0.

Definition chars (s : string) : list ascii := String.list_ascii_of_string s.
Definition this : list ascii := chars "this".
Definition is_name (x : list ascii) : bool := bool_decide (keyword_code x = None).
Definition newline_free (ts : list tok) : bool := match last ts with Some (_, ws) => newlines ws =? 0 | None => false end.

(** A number; a minus or a tilde in front of one belongs to it. *)
Definition number_of (t : source_token) : option nat :=
  match t with
  | SInteger n => if Z.of_nat n <? 2 ^ 31 then Some n else None
  | SChar a => Some (Z.to_nat (char_code a))
  | _ => None
  end.
Definition folds (o : unop) : bool := match o with Neg | BNot => true | _ => false end.
Definition starts_number (ts : list tok) : bool := match ts with ((SInteger _ | SChar _), _) :: _ => true | _ => false end.

Section spelling.
Context (locals : list (list ascii)).
Abbreviation op s := (SOperator [s%char]).

(** [spells l p e ts]: at level [l], [e] is written [ts]; [p] says that an opening
    parenthesis behind it makes it a call with the [this] of the function. *)
Inductive spells : nat → bool → exp → list tok → Prop :=
  | S_number t n ws : number_of t = Some n → spells 13 true (EInt n) [(t, ws)]
  | S_folded o t n w1 w2 : folds o = true → number_of t = Some n → spells 13 true (EUn o (EInt n)) [(un_text o, w1); (t, w2)]
  | S_string s ws : spells 13 true (EString s) [(SString s, ws)]
  | S_true ws : spells 13 true (EBool true) [(SName (chars "true"), ws)]
  | S_false ws : spells 13 true (EBool false) [(SName (chars "false"), ws)]
  | S_null ws : spells 13 true ENull [(SName (chars "null"), ws)]
  | S_local x r ws : is_name x = true ∨ x = this → scope locals x = Some r → spells 13 true (EVar r) [(SName x, ws)]
  | S_global x ws : is_name x = true → scope locals x = None → spells 13 false (EMember (EVar 0) x) [(SName x, ws)]
  | S_paren p e ts w1 w2 : spells 0 p e ts → spells 13 true e ((op "(", w1) :: ts ++ [(op ")", w2)])
  | S_unary o p e ts ws : spells 11 p e ts → folds o && starts_number ts = false → spells 11 false (EUn o e) ((un_text o, ws) :: ts)
  | S_member p e ts x w1 w2 : spells 12 p e ts → is_name x = true → spells 12 false (EMember e x) (ts ++ [(op ".", w1); (SName x, w2)])
  | S_index p p2 e e2 ts ts2 w1 w2 : spells 12 p e ts → newline_free ts = true → spells 0 p2 e2 ts2 →
      spells 12 false (EIndex e e2) (ts ++ (op "[", w1) :: ts2 ++ [(op "]", w2)])
  | S_method p e ts x args tsa w1 w2 w3 w4 : spells 12 p e ts → is_name x = true → spells_args args tsa →
      spells 12 true (EMethod e x args) (ts ++ [(op ".", w1); (SName x, w2); (op "(", w3)] ++ tsa ++ [(op ")", w4)])
  | S_global_call x args tsa w1 w2 w3 : is_name x = true → scope locals x = None → spells_args args tsa →
      spells 12 true (EMethod (EVar 0) x args) ([(SName x, w1); (op "(", w2)] ++ tsa ++ [(op ")", w3)])
  | S_call f ts args tsa w1 w2 : spells 12 true f ts → spells_args args tsa →
      spells 12 true (ECall f args) (ts ++ [(op "(", w1)] ++ tsa ++ [(op ")", w2)])
  | S_binary o p1 p2 e1 e2 ts1 ts2 ws : spells (op_level o) p1 e1 ts1 → spells (S (op_level o)) p2 e2 ts2 →
      spells (op_level o) false (EBin o e1 e2) (ts1 ++ (SOperator (op_text o), ws) :: ts2)
  | S_and p1 p2 e1 e2 ts1 ts2 ws : spells 3 p1 e1 ts1 → spells 2 p2 e2 ts2 →
      spells 2 false (EAnd e1 e2) (ts1 ++ (SOperator ["&"; "&"]%char, ws) :: ts2)
  | S_or p1 p2 e1 e2 ts1 ts2 ws : spells 2 p1 e1 ts1 → spells 1 p2 e2 ts2 →
      spells 1 false (EOr e1 e2) (ts1 ++ (SOperator ["|"; "|"]%char, ws) :: ts2)
  | S_cond p p1 p2 e e1 e2 ts ts1 ts2 w1 w2 : spells 1 p e ts → spells 0 p1 e1 ts1 → spells 0 p2 e2 ts2 →
      spells 0 false (ECond e e1 e2) (ts ++ (op "?", w1) :: ts1 ++ (op ":", w2) :: ts2)
  | S_up l p e ts : (l ≤ 12)%nat → spells (S l) p e ts → spells l (p && (12 <=? l)%nat) e ts
with spells_args : list exp → list tok → Prop :=
  | S_none : spells_args [] []
  | S_last p e ts : spells 0 p e ts → spells_args [e] ts
  | S_more p e ts ws e' args tsa : spells 0 p e ts → spells_args (e' :: args) tsa → spells_args (e :: e' :: args) (ts ++ (op ",", ws) :: tsa).
End spelling.

Scheme spells_ind' := Minimality for spells Sort Prop
  with spells_args_ind' := Minimality for spells_args Sort Prop.
Combined Scheme spells_mutind from spells_ind', spells_args_ind'.

(** ** Limits *)

Definition is_var (e : exp) : bool := match e with EVar _ => true | _ => false end.

(** How many registers it takes to evaluate an expression *)
Fixpoint width (e : exp) : nat :=
  match e with
  | EInt _ | EString _ | EBool _ | ENull => 1
  | EVar _ => 0
  | EMember e _ => S (width e)
  | EIndex e1 e2 => Nat.max (width e1) (S (width e2))
  | EMethod e _ args => Nat.max (S (width e)) (2 + (fix go args := match args with [] => 0 | a :: args => Nat.max (width a) (S (go args)) end) args)
  | ECall f args => Nat.max (width f) (2 + (fix go args := match args with [] => 0 | a :: args => Nat.max (width a) (S (go args)) end) args)
  | EUn _ e => Nat.max (width e) 1
  | EBin _ e1 e2 => Nat.max (width e1) (S (width e2))
  | EAnd e1 e2 | EOr e1 e2 => Nat.max (width e1) (S (width e2))
  | ECond e e1 e2 => Nat.max (width e) (S (Nat.max (width e1) (width e2)))
  end%nat.
Fixpoint args_width (args : list exp) : nat := match args with [] => 0 | a :: args => Nat.max (width a) (S (args_width args)) end%nat.

(** The condition of [?:] may be a variable only where no comparison is in front of
    it; [b] says that there may be one. *)
Definition leaves_cmp (b : bool) (e : exp) : bool :=
  match e with EVar _ => b | EBin (Cmp3 | Lt | Gt | Le | Ge) _ _ => true | _ => false end.
Fixpoint testable (b : bool) (e : exp) : bool :=
  match e with
  | EInt _ | EString _ | EBool _ | ENull | EVar _ => true
  | EMember e _ => testable b e
  | EIndex e1 e2 => testable b e1 && testable (leaves_cmp b e1) e2
  | EMethod e _ args => testable b e && (fix go b args := match args with [] => true | a :: args => testable b a && go (leaves_cmp b a) args end) false args
  | ECall f args => testable b f && (fix go b args := match args with [] => true | a :: args => testable b a && go (leaves_cmp b a) args end) false args
  | EUn _ e => testable b e
  | EBin _ e1 e2 => testable b e1 && testable (leaves_cmp b e1) e2
  | EAnd e1 e2 | EOr e1 e2 => testable b e1 && testable false e2
  | ECond e e1 e2 => testable b e && negb (is_var e && b) && testable false e1 && testable false e2
  end.
Fixpoint args_testable (b : bool) (args : list exp) : bool :=
  match args with [] => true | a :: args => testable b a && args_testable (leaves_cmp b a) args end.

(** ** Evaluation *)

(** A value, an exception, or a modulo that fails, of which nothing is said *)
Inductive result {H} (A : Type) := RVal (a : A) (h : H) | RThrow (h : H) | RLost.
Arguments RVal {H A}.
Arguments RThrow {H A}.
Arguments RLost {H A}.
Definition rbind {H A B} (x : result (H := H) A) (k : A → H → result (H := H) B) : result B :=
  match x with RVal a h => k a h | RThrow h => RThrow h | RLost => RLost end.

Section eval.
Context {H : Type} {RT : Runtime H}.

Definition answer {A} (x : option A * H) : result A := match x.1 with Some v => RVal v x.2 | None => RThrow x.2 end.

Definition unary (o : unop) (v : SQObject) (h : H) : option SQObject * H :=
  match o with
  | Neg => NEG_OP v h
  | Not => (Some (sq_bool (IsFalse v)), h)
  | BNot => BWNOT_OP v h
  | TypeOf => type_of v h
  end.
Definition binary (o : binop) (v1 v2 : SQObject) (h : H) : result SQObject :=
  match o with
  | Add => answer (ARITH_OP "+" v1 v2 h)
  | Sub => answer (ARITH_OP "-" v1 v2 h)
  | Mul => answer (ARITH_OP "*" v1 v2 h)
  | Div => answer (arith_nozero v1 v2 h)
  | Mod => let x := ARITH_OP "%" v1 v2 h in match x.1 with Some v => RVal v x.2 | None => RLost end
  | BAnd => answer (BW_OP BW_AND v1 v2 h)
  | BOr => answer (BW_OP BW_OR v1 v2 h)
  | BXor => answer (BW_OP BW_XOR v1 v2 h)
  | Shl => answer (BW_OP BW_SHIFTL v1 v2 h)
  | Shr => answer (BW_OP BW_SHIFTR v1 v2 h)
  | UShr => answer (BW_OP BW_USHIFTR v1 v2 h)
  | Eq => RVal (sq_bool (is_equal v1 v2)) h
  | Ne => RVal (sq_bool (negb (is_equal v1 v2))) h
  | Cmp3 => answer (CMP_OP CMP_3W v1 v2 h)
  | Lt => answer (CMP_OP CMP_L v1 v2 h)
  | Gt => answer (CMP_OP CMP_G v1 v2 h)
  | Le => answer (CMP_OP CMP_LE v1 v2 h)
  | Ge => answer (CMP_OP CMP_GE v1 v2 h)
  end.

Section expressions.
Context (str : list ascii → SQObject) (R : Z → SQObject).

(** Whether a member is looked up in [this] *)
Definition is_this (e : exp) : bool := match e with EVar O => true | _ => false end.

Fixpoint eval (e : exp) (h : H) : result SQObject :=
  let evals := fix evals (args : list exp) (h : H) : result (list SQObject) :=
    match args with
    | [] => RVal [] h
    | a :: args => rbind (eval a h) (λ v h, rbind (evals args h) (λ vs h, RVal (v :: vs) h))
    end in
  match e with
  | EInt n => RVal (sq_int (Z.of_nat n)) h
  | EString s => RVal (str s) h
  | EBool b => RVal (sq_bool b) h
  | ENull => RVal sq_null h
  | EVar r => RVal (R (Z.of_nat r)) h
  | EMember e x => rbind (eval e h) (λ v h, answer (get_ v (str x) (is_this e) h))
  | EIndex e1 e2 => rbind (eval e1 h) (λ v h, rbind (eval e2 h) (λ k h, answer (get_ v k (is_this e1) h)))
  | EMethod e x args =>
      rbind (eval e h) (λ v h, rbind (answer (get_ v (str x) (is_this e) h)) (λ f h, rbind (evals args h) (λ vs h, answer (call_ f (v :: vs) h))))
  | ECall f args => rbind (eval f h) (λ f h, rbind (evals args h) (λ vs h, answer (call_ f (R 0 :: vs) h)))
  | EUn o e => rbind (eval e h) (λ v h, answer (unary o v h))
  | EBin o e1 e2 => rbind (eval e1 h) (λ v1 h, rbind (eval e2 h) (λ v2 h, binary o v1 v2 h))
  | EAnd e1 e2 => rbind (eval e1 h) (λ v h, if IsFalse v then RVal v h else eval e2 h)
  | EOr e1 e2 => rbind (eval e1 h) (λ v h, if IsFalse v then eval e2 h else RVal v h)
  | ECond e e1 e2 => rbind (eval e h) (λ v h, if IsFalse v then eval e2 h else eval e1 h)
  end.
Fixpoint evals (args : list exp) (h : H) : result (list SQObject) :=
  match args with
  | [] => RVal [] h
  | a :: args => rbind (eval a h) (λ v h, rbind (evals args h) (λ vs h, RVal (v :: vs) h))
  end.
End expressions.
End eval.
