(* ===== verification/SqCompilerView.v ===== *)
(** * What matters of the compiler's state

    While it reads expressions the compiler's state is described by a [view]: the
    tokens in front of it, the stack of targets, the instructions so far, the
    literals and the strings.  [shows] relates the two, and there is a lemma for
    each operation the functions of the grammar are made of. *)

From Stdlib Require Import Ascii.
From stdpp Require Import base numbers gmap strings option list.
From S2P Require Import Prelude CType SqObject SqTable SqTableInv SqTableSpec SqString SqProto SqLexer SqLexerSpec SqLexerRound SqKeywords SqFuncState SqCompiler SqCompilerEnds SqCompilerRead SqExpression.

Open Scope Z_scope.

#[local] Arguments SqTable.NewSlot : simpl never.
#[local] Arguments SqTable.Get : simpl never.

Lemma integer_int n : _integer (sq_int n) = s32 n.
Proof. unfold _integer, sq_int, s32. cbn. unfold u32, wrap. by rewrite Z.mod_mod. Qed.

(** ** Tokens *)

Definition code_of (t : source_token) : Z := tk (expected t 0).

(** The compiler has read [t], which is in front of [ts]. *)
Definition stands (k : Z) (l : SQLexer) (ts : list tok) : Prop :=
  match ts with
  | [] => k = 0
  | (t, ws) :: rest =>
      forallb spaced ts = true ∧ k = code_of t ∧ tk_value (token_of k l) = tk_value (expected t 0) ∧ valued t l ∧ _curtoken l = k ∧
      look l (ws ++ print_all rest)
  end.
(** The token before, when these have been read *)
Definition prev_of (ts : list tok) : Z := match last ts with Some (t, ws) => prev_behind (code_of t) ws | None => 0 end.
Lemma prev_of_app ts ts' : ts' ≠ [] → prev_of (ts ++ ts') = prev_of ts'.
Proof. intros Hn. unfold prev_of. rewrite last_app. destruct (last ts') eqn:E; [done|]. by apply last_None in E. Qed.
Lemma prev_of_cons u ts : ts ≠ [] → prev_of (u :: ts) = prev_of ts.
Proof. apply (prev_of_app [u]). Qed.

Section tokens.
Context {KT : KeywordTable} {FR : FloatReader}.

Lemma expected_line t line : expected t line = mkToken (code_of t) (tk_value (expected t 0)) line.
Proof using Type. by destruct t. Qed.

Lemma Lex_before l ws ts : look l (ws ++ print_all ts) → forallb blank ws = true → forallb spaced ts = true →
  ∃ k l', SqLexer.Lex l = Ok (k, l') ∧ stands k l' ts ∧ (ts ≠ [] → _prevtoken l' = prev_behind (_curtoken l) ws).
Proof using Type.
  intros Hl Hws Hs. destruct ts as [|[u vs] rest].
  - unfold print_all in Hl. simpl in Hl. rewrite app_nil_r in Hl. destruct (Lex_end l ws Hl Hws) as (l' & ->). by exists 0, l'.
  - pose proof Hs as Hs'. simpl in Hs. apply andb_true_iff in Hs as [H2 Hs]. unfold spaced in H2. simpl in H2.
    apply andb_true_iff in H2 as [[Hp2 Hvs]%andb_true_iff Hne2]. destruct vs as [|w vs]; [done|]. simpl in Hvs. pose proof Hvs as Hvs'. apply andb_true_iff in Hvs' as [Hw _].
    unfold print_all in Hl. rewrite bind_cons in Hl. fold (print_all rest) in Hl. rewrite <- app_assoc, <- app_comm_cons in Hl.
    destruct (Lex_sees l ws u w (vs ++ print_all rest) Hl Hws Hp2 Hw) as (l' & E & Hl' & Ht & Hct & Hprev & Hval).
    rewrite expected_line in E, Ht, Hct. cbn [tk] in *. exists (code_of u), l'. split; [done|]. split; [|by intros _].
    split; [done|]. split; [done|]. rewrite Ht. done.
Qed.
Lemma Lex_stands k l t ws rest : stands k l ((t, ws) :: rest) →
  ∃ k' l', SqLexer.Lex l = Ok (k', l') ∧ stands k' l' rest ∧ (rest ≠ [] → _prevtoken l' = prev_behind k ws).
Proof using Type.
  intros (Hs & -> & _ & _ & <- & Hl). simpl in Hs. apply andb_true_iff in Hs as [H1 Hs]. unfold spaced in H1. simpl in H1.
  apply andb_true_iff in H1 as [[_ Hws]%andb_true_iff _]. by apply Lex_before.
Qed.

Lemma code_of_nonzero t : printable t = true → code_of t ≠ 0.
Proof using Type. apply tk_nonzero. Qed.
Lemma code_of_not_newline t : code_of t ≠ 10.
Proof using Type.
  unfold code_of. destruct t as [s|n|s|c|s]; simpl; try done.
  - destruct (keyword_code s) as [z|] eqn:Hk; simpl; [|done]. apply keyword_code_range in Hk. lia.
  - destruct (operator_code s) as [z|] eqn:Hop; [|done]. simpl. apply fmap_Some in Hop as ([i [s' z']] & Hf & ->). apply list_find_Some in Hf as (Hi & _ & _).
    apply list_elem_of_lookup_2 in Hi. simpl. assert (Hall : Forall (λ op, negb (op.2 =? 10) = true) operators) by (repeat constructor).
    rewrite Forall_forall in Hall. specialize (Hall _ Hi). by apply negb_true_iff, Z.eqb_neq in Hall.
Qed.
Lemma prev_of_newline_free ts : newline_free ts = true → prev_of ts ≠ 10.
Proof using Type.
  unfold newline_free, prev_of. destruct (last ts) as [[u ws]|]; [|done]. intros Hn. unfold prev_behind. rewrite Hn. apply code_of_not_newline.
Qed.
End tokens.

(** ** The view *)

Record view := mkView {
  w_ts : list tok;
  w_targets : list Z;
  w_temps : nat;
  w_code : list instruction;
  w_opt : bool;
  w_lits : list SQObject;
  w_strs : gmap Z (list ascii);
  w_etype : exptype;
  w_prev : Z
}.
Definition set_ts ts p w := mkView ts (w_targets w) (w_temps w) (w_code w) (w_opt w) (w_lits w) (w_strs w) (w_etype w) p.
Definition set_targets ts k w := mkView (w_ts w) ts k (w_code w) (w_opt w) (w_lits w) (w_strs w) (w_etype w) (w_prev w).
Definition set_code code b w := mkView (w_ts w) (w_targets w) (w_temps w) code b (w_lits w) (w_strs w) (w_etype w) (w_prev w).
Definition set_lits ls w := mkView (w_ts w) (w_targets w) (w_temps w) (w_code w) (w_opt w) ls (w_strs w) (w_etype w) (w_prev w).
Definition set_strs ss w := mkView (w_ts w) (w_targets w) (w_temps w) (w_code w) (w_opt w) (w_lits w) ss (w_etype w) (w_prev w).
Definition set_et e w := mkView (w_ts w) (w_targets w) (w_temps w) (w_code w) (w_opt w) (w_lits w) (w_strs w) e (w_prev w).

(** The targets are local variables, below [base], or temporaries, which are in use in
    the order of their registers. *)
Inductive tstack (base : Z) : list Z → nat → Prop :=
  | T_nil : tstack base [] 0
  | T_local ts k r : tstack base ts k → 0 ≤ r < base → tstack base (ts ++ [r]) k
  | T_temp ts k : tstack base ts k → tstack base (ts ++ [base + Z.of_nat k]) (S k).

(** The literals are numbered in the order in which they were first used. *)
Definition literals_are (st : SQStringTable) (sm : gmap Z (list ascii)) (ls : list SQObject) (t : SQTable) : Prop :=
  ∃ m, @models (heap_of st) t m ∧ (∀ o v, m !! o = Some v ↔ ∃ i : nat, ls !! i = Some o ∧ v = sq_int (Z.of_nat i)) ∧
       Forall (live_in sm) ls ∧ _numofnodes t ≤ Z.max 4 (3 * Z.of_nat (size m)).

(** What expressions leave as it is *)
Class aside := mkAside {
  a_traps : Z; a_outers : Z; a_breaks : list Z; a_continues : list Z; a_breaktargets : list Z; a_continuetargets : list Z;
  a_functions : list SQFunctionProto; a_parameters : list SQObject; a_defaultparams : list Z;
  a_lineinfos : list SQLineInfo; a_localvarinfos : list local_info; a_scope : SQScope
}.
Definition aside_of (c : SQCompiler) : aside :=
  let f := _fs c in
  mkAside (_traps f) (_outers f) (_unresolvedbreaks f) (_unresolvedcontinues f) (_breaktargets f) (_continuetargets f)
    (_functions f) (_parameters f) (_defaultparams f) (_lineinfos f) (_localvarinfos f) (_scope c).

Section shows.
Context (locals : list (list ascii)) {asd : aside}.
Definition base : Z := Z.of_nat (length locals).

Definition names (sm : gmap Z (list ascii)) (v : local_info) (x : list ascii) : Prop := ∃ a, v_name v = string_key a ∧ sm !! a = Some x ∧ is_outer v = false.

Record shows (c : SQCompiler) (w : view) : Prop := {
  sh_ts : stands (_token c) (_lex c) (w_ts w);
  sh_prev : _prevtoken (_lex c) = w_prev w;
  sh_strs : strs c = w_strs w;
  sh_interns : interns (_strtable c) (w_strs w);
  sh_strings : table_ok (_strtable c) (w_strs w) (_strings (_fs c));
  sh_lits : literals_are (_strtable c) (w_strs w) (w_lits w) (_literals (_fs c));
  sh_nlits : _nliterals (_fs c) = Z.of_nat (length (w_lits w));
  sh_consts : @models (heap_of (_strtable c)) (_consts c) ∅;
  sh_parents : _parents c = [];
  sh_outers : _outervalues (_fs c) = [];
  sh_vars : ∃ vs ts, _vlocals (_fs c) = vs ++ ts ∧ Forall2 (names (w_strs w)) vs locals ∧ Forall (λ v, v_name v = sq_null) ts ∧ length ts = w_temps w;
  sh_targets : _targetstack (_fs c) = w_targets w;
  sh_tstack : tstack base (w_targets w) (w_temps w);
  sh_code : _instructions (_fs c) = w_code w;
  sh_opt : _optimization (_fs c) = w_opt w;
  sh_get : donot_get (_es c) = false;
  sh_etype : etype (_es c) = w_etype w;
  sh_base : w_etype w ≠ BASE;
  sh_aside : aside_of c = asd
}.

Section operations.
Context {KT : KeywordTable} {FR : FloatReader} `{Allocator}.

Lemma runs_Lex c w t ws rest : shows c w → w_ts w = (t, ws) :: rest →
  runs Lex c (λ _ c', ∃ p, shows c' (set_ts rest p w) ∧ (rest ≠ [] → p = prev_behind (code_of t) ws)).
Proof using Type.
  intros [Ht] Ew. rewrite Ew in Ht. unfold runs, Lex. destruct (Lex_stands _ _ _ _ _ Ht) as (k & l & -> & Hk & Hp).
  exists (_prevtoken l). split; [by split|]. intros Hr. rewrite Hp by done. by destruct Ht as (_ & -> & _).
Qed.

(** *** Targets *)

Lemma tstack_snoc ts r k : tstack base (ts ++ [r]) k →
  (0 ≤ r < base ∧ tstack base ts k) ∨ ∃ k', k = S k' ∧ r = base + Z.of_nat k' ∧ tstack base ts k'.
Proof using Type.
  inversion 1 as [E|ts' k' r' Ht Hr E|ts' k' Ht E].
  - by apply app_cons_not_nil in E.
  - apply app_inj_tail in E as [-> ->]. by left.
  - apply app_inj_tail in E as [-> <-]. right. by exists k'.
Qed.
Lemma tstack_bound ts k r : tstack base ts k → r ∈ ts → 0 ≤ r < base + Z.of_nat k.
Proof using Type.
  intros Ht. assert (0 ≤ base) by (unfold base; lia). induction Ht as [|ts k r' Ht IH Hr|ts k Ht IH]; [by intros ?%elem_of_nil|..];
    rewrite elem_of_app, list_elem_of_singleton; (intros [Hin| ->]; [specialize (IH Hin)|]); lia.
Qed.

Lemma vars_size c w : shows c w → vsize (_vlocals (_fs c)) = base + Z.of_nat (w_temps w).
Proof using Type.
  intros Hs. destruct (sh_vars _ _ Hs) as (vs & ts & -> & Hv & _ & Hl). apply Forall2_length in Hv. unfold vsize, base. rewrite length_app. lia.
Qed.
Lemma is_local_base c w r : shows c w → 0 ≤ r → is_local (_vlocals (_fs c)) r = (r <? base).
Proof using Type.
  intros Hs Hr. destruct (sh_vars _ _ Hs) as (vs & ts & -> & Hv & Ht & Hl). unfold is_local, base. pose proof (Forall2_length _ _ _ Hv) as Hn.
  destruct (Z.ltb_spec r (Z.of_nat (length locals))) as [Hlt|Hge].
  - rewrite lookup_app_l by lia. destruct (lookup_lt_is_Some_2 vs (Z.to_nat r)) as [v Ev]; [lia|]. rewrite Ev.
    destruct (Forall2_lookup_l _ _ _ _ _ Hv Ev) as (x & _ & a & -> & _). done.
  - rewrite lookup_app_r by lia. destruct (ts !! _) as [v|] eqn:Ev; [|done]. rewrite Forall_lookup in Ht. by rewrite (Ht _ _ Ev).
Qed.

Lemma runs_NewTarget c w : shows c w → base + Z.of_nat (w_temps w) < 256 →
  runs (fs NewTarget) c (λ r c', r = base + Z.of_nat (w_temps w) ∧ shows c' (set_targets (w_targets w ++ [base + Z.of_nat (w_temps w)]) (S (w_temps w)) w)).
Proof using Type.
  intros Hs Hb. pose proof (vars_size _ _ Hs) as Hn. unfold runs, fs, NewTarget, PushTarget, AllocStackPos. cbn -[vsize]. unfold mbind, stM_bind. cbn -[vsize]. unfold id.
  assert (vsize (_vlocals (_fs c) ++ [new_local]) = base + Z.of_nat (w_temps w) + 1) as Hn' by (unfold vsize in *; rewrite length_app; simpl; lia).
  rewrite Hn', Hn.
  assert (∀ f, _vlocals f = _vlocals (_fs c) ++ [new_local] → _targetstack f = _targetstack (_fs c) ++ [base + Z.of_nat (w_temps w)] →
    _strings f = _strings (_fs c) → _literals f = _literals (_fs c) → _nliterals f = _nliterals (_fs c) → _outervalues f = _outervalues (_fs c) →
    _instructions f = _instructions (_fs c) → _optimization f = _optimization (_fs c) → aside_of (with_fs f c) = aside_of c →
    shows (with_fs f c) (set_targets (w_targets w ++ [base + Z.of_nat (w_temps w)]) (S (w_temps w)) w)) as Hall.
  { intros f E1 E2 E3 E4 E5 E6 E7 E8 E9. destruct Hs. split; [..|congruence]; cbn; rewrite ?E2, ?E3, ?E4, ?E5, ?E6, ?E7, ?E8; try done; [|congruence|by apply T_temp].
    destruct sh_vars0 as (vs & ts & Ev & Hv & Hts & Hl). exists vs, (ts ++ [new_local]). rewrite E1, Ev, <- app_assoc, length_app. simpl.
    split_and!; [done|done| |lia]. apply Forall_app. split; [done|]. by constructor. }
  destruct (Z.ltb_spec (_stacksize (_fs c)) (base + Z.of_nat (w_temps w) + 1)); cbn.
  - unfold mbind, stM_bind. cbn. unfold MAX_FUNC_STACKSIZE. rewrite (proj2 (Z.ltb_ge 255 _)) by lia. cbn. split; [done|]. by apply Hall.
  - split; [done|]. by apply Hall.
Qed.

Lemma runs_PushTarget c w r : shows c w → 0 ≤ r < base → runs (fs (PushTarget r)) c (λ _ c', shows c' (set_targets (w_targets w ++ [r]) (w_temps w) w)).
Proof using Type.
  intros Hs Hr. unfold runs, fs, PushTarget. rewrite (proj2 (Z.eqb_neq r (-1))) by lia. cbn. destruct Hs. split; try done; cbn; [congruence|by apply T_local].
Qed.

Definition popped (r : Z) (k : nat) : nat := if r <? base then k else pred k.

Lemma runs_PopTarget c w ts r : shows c w → w_targets w = ts ++ [r] →
  runs (fs PopTarget) c (λ x c', x = r ∧ shows c' (set_targets ts (popped r (w_temps w)) w)).
Proof using Type.
  intros Hs Et. pose proof (vars_size _ _ Hs) as Hn. pose proof (sh_tstack _ _ Hs) as Hst. rewrite Et in Hst.
  assert (0 ≤ r < base + Z.of_nat (w_temps w)) as Hr by (eapply tstack_bound; [done|]; apply elem_of_app; right; by left).
  pose proof (is_local_base _ _ r Hs (proj1 Hr)) as Hloc.
  unfold runs, fs, PopTarget. cbn -[vsize]. unfold mbind, stM_bind. cbn -[vsize]. unfold id. rewrite (sh_targets _ _ Hs), Et. unfold back. rewrite last_snoc. cbn -[vsize].
  rewrite Hn, (proj2 (Z.leb_le 0 r)), (proj2 (Z.ltb_lt r _)) by lia. cbn. unfold at_z. rewrite (proj2 (Z.ltb_ge r 0)) by lia.
  unfold is_local in Hloc. destruct (_vlocals (_fs c) !! Z.to_nat r) as [v|] eqn:Ev; [|apply lookup_ge_None in Ev; unfold vsize in Hn; lia]. cbn.
  assert (pop_back (ts ++ [r]) = Ok ts) as Hpop.
  { unfold pop_back. destruct (ts ++ [r]) eqn:E; [by destruct ts|]. rewrite <- E. by rewrite removelast_last. }
  unfold popped. symmetry in Hloc. apply negb_sym in Hloc. rewrite Hloc. clear Hloc. destruct (Z.ltb_spec r base) as [Hlt|Hge]; cbn; unfold lift.
  - rewrite Hpop. cbn. split; [done|]. destruct Hs; split; try done; cbn. destruct (tstack_snoc _ _ _ Hst) as [[_ ?]|(k & _ & -> & _)]; [done|lia].
  - destruct (tstack_snoc _ _ _ Hst) as [[? _]|(k & Ek & _ & Hst')]; [lia|]. destruct (sh_vars _ _ Hs) as (vs & tmps & Evs & Hv & Htmp & Hl).
    destruct tmps as [|u tmps _] using rev_ind; [simpl in Hl; lia|]. assert (pop_back (_vlocals (_fs c)) = Ok (vs ++ tmps)) as ->.
    { rewrite Evs, app_assoc. unfold pop_back. destruct ((vs ++ tmps) ++ [u]) eqn:E; [by destruct (vs ++ tmps)|]. rewrite <- E. by rewrite removelast_last. }
    cbn. rewrite Hpop. cbn. split; [done|]. rewrite Ek in *. destruct Hs; split; try done; cbn. exists vs, tmps. apply Forall_app in Htmp as [? _].
    rewrite length_app in Hl. simpl in Hl. split_and!; [done..|lia].
Qed.
Lemma runs_TopTarget c w ts r : shows c w → w_targets w = ts ++ [r] → runs (fs TopTarget) c (λ x c', x = r ∧ shows c' w).
Proof using Type.
  intros Hs Et. unfold runs, fs, TopTarget. cbn. unfold mbind, stM_bind. cbn. unfold id. rewrite (sh_targets _ _ Hs), Et. unfold back. rewrite last_snoc. cbn.
  split; [done|]. by destruct Hs; split.
Qed.

(** *** Instructions *)

(** What [AddInstruction] makes of the instructions *)
Definition added (code : list instruction) (opt : bool) (i : instruction) (code' : list instruction) (opt' : bool) : Prop :=
  match last code, opt with
  | Some pi, true => ∃ f size, (∀ r, 0 ≤ r → is_local (_vlocals f) r = (r <? base)) ∧
      match improve false f size pi i with
      | Keep pi i => code' = removelast code ++ [pi; i] ∧ opt' = true
      | Fuse pi => code' = removelast code ++ [pi] ∧ opt' = true
      | Redirect pi => code' = removelast code ++ [pi] ∧ opt' = false
      | Relined => False
      end
  | _, _ => code' = code ++ [i] ∧ opt' = true
  end.

Lemma shows_code c w f code opt : shows c w → _vlocals f = _vlocals (_fs c) → _targetstack f = _targetstack (_fs c) →
  _strings f = _strings (_fs c) → _literals f = _literals (_fs c) → _nliterals f = _nliterals (_fs c) → _outervalues f = _outervalues (_fs c) →
  _instructions f = code → _optimization f = opt → aside_of (with_fs f c) = aside_of c → shows (with_fs f c) (set_code code opt w).
Proof using Type.
  intros [] E1 E2 E3 E4 E5 E6 E7 E8 E9. split; [..|congruence]; cbn; rewrite ?E1, ?E2, ?E3, ?E4, ?E5, ?E6; done.
Qed.

Lemma runs_emit c w o a0 a1 a2 a3 : shows c w → o ≠ _OP_LINE → 0 ≤ a0 < 256 → - 2 ^ 31 ≤ a1 < 2 ^ 31 → 0 ≤ a2 < 256 → 0 ≤ a3 < 256 →
  runs (emit o a0 a1 a2 a3) c (λ _ c', ∃ code opt, shows c' (set_code code opt w) ∧ added (w_code w) (w_opt w) (mkI o a0 a1 a2 a3) code opt).
Proof using Type.
  intros Hs Ho H0 H1 H2 H3. assert (instr o a0 a1 a2 a3 = mkI o a0 a1 a2 a3) as Hi by (unfold instr; by rewrite !u8_small, s32_small by lia).
  pose proof (λ r, is_local_base _ _ r Hs) as Hloc.
  unfold emit, nested. apply runs_bind, runs_gets. rewrite (sh_parents _ _ Hs). unfold runs, fs, AddInstruction, add_instruction. rewrite Hi. set (i := mkI o a0 a1 a2 a3).
  cbn -[improve vsize]. unfold mbind, stM_bind. cbn -[improve vsize]. unfold id, added. rewrite (sh_code _ _ Hs), (sh_opt _ _ Hs).
  destruct (last (w_code w)) as [pi|]; [|cbn; eexists _, _; split; [|done]; apply shows_code; try done; cbn; by rewrite (sh_code _ _ Hs)].
  destruct (w_opt w) eqn:Eo; [|cbn; eexists _, _; split; [|done]; apply shows_code; try done; cbn; by rewrite (sh_code _ _ Hs)].
  change (negb (bool_decide (@nil SQFuncState = []))) with false. destruct (improve false (_fs c) _ pi i) as [p q|p|p|] eqn:Ei; cbn -[improve vsize].
  - eexists _, _. split; [by apply shows_code|]. eexists _, _. split; [exact Hloc|]. by rewrite Ei.
  - eexists _, true. split; [apply shows_code; try done; cbn; by rewrite (sh_opt _ _ Hs)|]. eexists _, _. split; [exact Hloc|]. by rewrite Ei.
  - eexists _, _. split; [by apply shows_code|]. eexists _, _. split; [exact Hloc|]. by rewrite Ei.
  - exfalso. unfold improve in Ei. subst i. destruct o; cbn in Ei; repeat case_match; done.
Qed.

Lemma runs_SnoozeOpt c w : shows c w → runs (fs SnoozeOpt) c (λ _ c', shows c' (set_code (w_code w) false w)).
Proof using Type. intros Hs. unfold runs. cbn. apply shows_code; try done. apply Hs. Qed.
Lemma runs_GetCurrentPos c w : shows c w → runs (fs GetCurrentPos) c (λ r c', r = vsize (w_code w) - 1 ∧ shows c' w).
Proof using Type. intros Hs. unfold runs. cbn -[vsize]. rewrite (sh_code _ _ Hs). split; [done|]. by destruct Hs; split. Qed.

(** A jump that is filled in *)
Definition set_jump (n : Z) (i : instruction) : instruction := mkI (iop i) (arg0 i) n (arg2 i) (arg3 i).
Lemma runs_patch c w l i l' n : shows c w → w_code w = l ++ i :: l' → 0 ≤ n < 2 ^ 31 →
  runs (fs (SetInstructionParam (Z.of_nat (length l)) 1 n)) c (λ _ c', shows c' (set_code (l ++ set_jump n i :: l') (w_opt w) w)).
Proof using Type.
  intros Hs El Hn. unfold runs, fs, SetInstructionParam, GetInstruction, put_instruction. cbn -[at_z put_z]. unfold mbind, stM_bind. cbn -[at_z put_z]. unfold id.
  rewrite (sh_code _ _ Hs), El. unfold at_z. rewrite (proj2 (Z.ltb_ge _ 0)), Nat2Z.id, lookup_app_r, Nat.sub_diag by lia. cbn -[put_z]. unfold id.
  rewrite (sh_code _ _ Hs), El. unfold put_z. rewrite (proj2 (Z.ltb_ge _ 0)), Nat2Z.id by lia. rewrite decide_True by (rewrite length_app; simpl; lia). cbn.
  rewrite s32_small by lia. rewrite insert_app_r_alt, Nat.sub_diag by lia. cbn. apply shows_code; try done. apply Hs.
Qed.

(** *** The kind of the expression *)

Lemma shows_es c w e : shows c w → donot_get e = false → etype e ≠ BASE → shows (with_es e c) (set_et (etype e) w).
Proof using Type. intros [] ? ?. by split. Qed.
Lemma runs_set_etype c w t : shows c w → t ≠ BASE → runs (set_etype t) c (λ _ c', shows c' (set_et t w)).
Proof using Type. intros Hs Ht. unfold runs. cbn. apply shows_es; [done|apply Hs|done]. Qed.
Lemma runs_set_epos c w p : shows c w → runs (set_epos p) c (λ _ c', shows c' w).
Proof using Type. intros Hs. unfold runs. cbn. destruct Hs. by split. Qed.
Lemma runs_token c (Q : Z → SQCompiler → Prop) : Q (_token c) c → runs token c Q.
Proof using Type. done. Qed.

(** An expression inside of another: afterwards [_es] is what it was. *)
Lemma runs_fresh_es c w m (Q : () → SQCompiler → Prop) :
  shows c w → (∀ c1, shows c1 (set_et EXPR w) → runs m c1 (λ _ c2, ∃ w2, shows c2 w2 ∧ ∀ c3, shows c3 (set_et (w_etype w) w2) → Q () c3)) →
  runs (fresh_es m) c Q.
Proof using Type.
  intros Hs Hm. unfold fresh_es. apply runs_bind, runs_gets, runs_bind, runs_modify, runs_bind. eapply runs_mono.
  - apply Hm. by apply (shows_es _ _ (mkExp EXPR (-1) false)).
  - intros [] c2 (w2 & Hs2 & HQ). apply runs_modify, HQ. rewrite <- (sh_etype _ _ Hs). apply shows_es; [done|apply Hs|].
    rewrite (sh_etype _ _ Hs). apply Hs.
Qed.

(** *** Strings and literals *)

Lemma names_grow sm sm' v x : sm ⊆ sm' → names sm v x → names sm' v x.
Proof using Type. intros Hsub (a & Ea & Hx & Ho). exists a. split; [done|]. split; [|done]. by eapply lookup_weaken. Qed.

Lemma literals_grow st sm st' sm' ls t : interns st sm → interns st' sm' → sm ⊆ sm' → literals_are st sm ls t → literals_are st' sm' ls t.
Proof using Type.
  intros Hi Hi' Hsub (m & Hm & Hk & Hl & Hn). rewrite Forall_lookup in Hl. exists m. split_and!; [|done| |done].
  - apply (models_grow st sm st' sm'); try done. intros k v Hkv. destruct (proj1 (Hk k v) Hkv) as (i & Hli & ->). split; [by eapply Hl|done].
  - apply Forall_lookup. intros i o Ho. eapply live_in_grow; [done|by eapply Hl].
Qed.

Lemma shows_grow c w st sm : shows c w → interns st sm → w_strs w ⊆ sm → shows (with_strtable st c) (set_strs sm w).
Proof using Type.
  intros [] Hi Hsub. split; try done; cbn.
  - apply (in_vals _ _ Hi).
  - by apply (table_ok_grow (_strtable c) (w_strs w)).
  - by apply (literals_grow (_strtable c) (w_strs w)).
  - eapply models_grow; [exact sh_interns0|exact Hi|done|by intros k v|done].
  - destruct sh_vars0 as (vs & ts & E & Hv & Ht & Hl). exists vs, ts. split_and!; [done| |done|done].
    eapply Forall2_impl; [exact Hv|]. intros v x. by apply names_grow.
Qed.

Lemma runs_create_string c w s len : shows c w → len ≤ Z.of_nat (length s) →
  runs (create_string s len) c (λ o c', ∃ sm a, shows c' (set_strs sm w) ∧ w_strs w ⊆ sm ∧ o = string_key a ∧ sm !! a = Some (asked s len)).
Proof using Type.
  intros Hs Hlen. unfold runs, create_string, CreateString. destruct (intern_ok (_strtable c) (w_strs w) s len) as (st & a & sm & E & Hst & Hsub & Ha); [apply Hs|done|].
  rewrite E. cbn. pose proof (shows_grow _ _ _ _ Hs Hst Hsub) as Hs'. destruct (sh_strings _ _ Hs') as (m & Hm & Hk).
  destruct (@NewSlot_models (heap_of st) 0 (_strings (_fs c)) m (string_key a) (sq_int 1) Hm eq_refl) as (t & b & E2 & Hm' & _). unfold table_fuel. rewrite E2. cbn.
  exists sm, a. split; [|done]. destruct Hs'. split; try done. exists (<[string_key a := sq_int 1]> m). split; [done|]. intros k v.
  rewrite lookup_insert_Some. intros [[<- <-]|[_ Hkv]]; [|by apply Hk]. split; [|done]. intros _. by eexists.
Qed.

(** [live_in] of a literal, and its place *)
Lemma runs_add_literal c w o : shows c w → live_in (w_strs w) o → is_null o = false → Z.of_nat (length (w_lits w)) < 2 ^ 31 - 1 →
  runs (add_literal o) c (λ k c', ∃ ls, shows c' (set_lits ls w) ∧ w_lits w `prefix_of` ls ∧ (length ls ≤ S (length (w_lits w)))%nat ∧
    0 ≤ k < 2 ^ 31 ∧ ls !! Z.to_nat k = Some o).
Proof using Type.
  intros Hs Hl Hn Hroom. pose proof (sh_lits _ _ Hs) as (m & Hm & Hk & Hlive & Hnum). pose proof (sh_nlits _ _ Hs) as Enl.
  unfold add_literal. apply runs_bind, runs_gets. unfold runs, fs, GetConstant, mbind, stM_bind, gets. cbn. unfold id.
  rewrite (Get_models _ m) by done. destruct (m !! o) as [v|] eqn:Ho; cbn.
  - destruct (proj1 (Hk o v) Ho) as (i & Hi & ->). pose proof (lookup_lt_Some _ _ _ Hi).
    change (_realval (sq_int (Z.of_nat i))) with (sq_int (Z.of_nat i)). rewrite integer_int, s32_small by lia. exists (w_lits w). split; [by destruct Hs; split|]. rewrite Nat2Z.id. split_and!; [done|lia|lia|lia|done].
  - destruct (@NewSlot_models (heap_of (_strtable c)) 0 _ m o (sq_int (_nliterals (_fs c))) Hm Hn) as (t & b & E & Hm' & _ & _ & Hnum').
    unfold table_fuel. rewrite E. cbn. rewrite Enl. rewrite s32_small by lia. unfold MAX_LITERALS. rewrite (proj2 (Z.ltb_ge _ _)) by lia. cbn.
    rewrite integer_int, s32_small by lia. exists (w_lits w ++ [o]). split; [|split; [by eexists|]].
    + destruct Hs; split; try done; cbn; [|rewrite length_app; simpl; lia].
      exists (<[o := sq_int (Z.of_nat (length (w_lits w)))]> m). rewrite <- Enl. split; [done|]. split; [|split].
      * intros o' v. rewrite lookup_insert_Some, Enl. split.
        -- intros [[<- <-]|[Hne Hv]]; [exists (length (w_lits w)); by rewrite lookup_app_r, Nat.sub_diag by lia|].
           destruct (proj1 (Hk o' v) Hv) as (i & Hi & ->). exists i. split; [|done]. by apply lookup_app_l_Some.
        -- intros (i & Hi & ->). apply lookup_app_Some in Hi as [Hi|[Hge Hi]].
           ++ right. split; [|apply Hk; by exists i]. intros <-. assert (is_Some (m !! o)) as [? ?]; [|congruence]. eexists. apply Hk. by exists i.
           ++ apply list_lookup_singleton_Some in Hi as [Hz <-]. left. split; [done|]. do 2 f_equal. lia.
      * apply Forall_app. split; [done|]. by constructor.
      * assert (size (<[o:=sq_int (_nliterals (_fs c))]> m) = S (size m)) as Hsz by (by apply map_size_insert_None). lia.
    + rewrite length_app, Nat2Z.id, lookup_app_r, Nat.sub_diag by lia. simpl. split_and!; [lia|lia|lia|done].
Qed.

(** *** Names *)

Lemma spaced_printable t ws rest : forallb spaced ((t, ws) :: rest) = true → printable t = true.
Proof using Type. simpl. rewrite andb_true_iff. intros [Hs _]. unfold spaced in Hs. by apply andb_true_iff in Hs as [[? _]%andb_true_iff _]. Qed.
Lemma name_visible x : printable (SName x) = true → Ascii.zero ∉ x.
Proof using Type.
  intros Hp. apply visible_no_zero. apply (print_visible (SName x) Hp).
Qed.
Lemma asked_name x : Ascii.zero ∉ x → asked (x ++ [Ascii.zero]) (-1) = x.
Proof using Type.
  intros Hz. unfold asked. cbn. induction x as [|c x IH]; [done|]. apply not_elem_of_cons in Hz as [Hc Hz]. cbn. rewrite bool_decide_eq_false_2 by done. by rewrite IH.
Qed.

Definition makes_string (w : view) (x : list ascii) (o : SQObject) (c' : SQCompiler) : Prop :=
  ∃ sm a, shows c' (set_strs sm w) ∧ w_strs w ⊆ sm ∧ o = string_key a ∧ sm !! a = Some x.

Lemma runs_svalue c w t ws rest x : shows c w → w_ts w = (t, ws) :: rest → tk_value (expected t 0) = VString x →
  runs svalue c (λ s c', c' = c ∧ s = x ++ [Ascii.zero] ∧ _longstr (_lex c) = x ++ [Ascii.zero]).
Proof using Type.
  intros Hs Ew Hx. pose proof (sh_ts _ _ Hs) as Ht. rewrite Ew in Ht. destruct Ht as (_ & _ & _ & Hval & _). unfold valued in Hval. rewrite Hx in Hval.
  destruct Hval as [Hv Hl]. unfold svalue. apply runs_bind, runs_gets. rewrite Hv. by apply runs_ret.
Qed.
Lemma runs_identifier c w x ws rest : shows c w → w_ts w = (SName x, ws) :: rest → is_name x = true → runs identifier_string c (makes_string w x).
Proof using Type.
  intros Hs Ew Hx. apply bool_decide_eq_true in Hx. pose proof (sh_ts _ _ Hs) as Ht. rewrite Ew in Ht. destruct Ht as (Hsp & _).
  unfold identifier_string. apply runs_bind. eapply runs_mono; [eapply (runs_svalue c w _ _ _ x Hs Ew); simpl; by rewrite Hx|]. intros s c' (-> & -> & _).
  eapply runs_mono; [apply runs_create_string; [done|lia]|]. rewrite asked_name by (by eapply name_visible, spaced_printable). done.
Qed.
Lemma runs_literal_string c w x ws rest : shows c w → w_ts w = (SString x, ws) :: rest → runs literal_string c (makes_string w x).
Proof using Type.
  intros Hs Ew. unfold literal_string. apply runs_bind. eapply runs_mono; [by eapply (runs_svalue c w _ _ _ x Hs Ew)|]. intros s c' (-> & -> & El).
  apply runs_bind, runs_gets. rewrite El. unfold vsize. rewrite length_app. cbn [length].
  eapply runs_mono; [apply runs_create_string; [done|rewrite length_app; cbn [length]; lia]|]. intros o c' (sm & a & ? & ? & ? & Ha). exists sm, a. split_and!; [done..|].
  rewrite Ha. unfold asked. rewrite (proj2 (Z.ltb_ge _ 0)) by lia. replace (Z.to_nat _) with (length x) by lia. by rewrite take_app_length.
Qed.
Lemma runs_fixed_string c w x : shows c w → runs (create_string x (Z.of_nat (length x))) c (makes_string w x).
Proof using Type.
  intros Hs. eapply runs_mono; [by apply runs_create_string|]. intros o c' (sm & a & ? & ? & ? & Ha). exists sm, a. split_and!; [done..|].
  rewrite Ha. unfold asked. rewrite (proj2 (Z.ltb_ge _ 0)) by lia. by rewrite Nat2Z.id, firstn_all.
Qed.

(** The register of a name *)
Lemma scope_from_spec i ls x :
  match scope_from i ls x with
  | Some r => ∃ j : nat, (r = i + j)%nat ∧ ls !! j = Some x ∧ ∀ j', (j < j')%nat → ls !! j' ≠ Some x
  | None => x ∉ ls
  end.
Proof using Type.
  revert i. induction ls as [|y ls IH]; intros i; simpl; [by apply not_elem_of_nil|]. specialize (IH (S i)). destruct (scope_from (S i) ls x) as [r|].
  - destruct IH as (j & -> & Hj & Hl). exists (S j). split; [lia|]. split; [done|]. intros [|j'] Hj'; [lia|]. apply Hl. lia.
  - case_decide as Hy.
    + exists 0%nat. split; [lia|]. subst. split; [done|]. intros [|j'] Hj'; [lia|]. simpl. intros Hc%list_elem_of_lookup_2. done.
    + by apply not_elem_of_cons.
Qed.
Lemma scope_bound x r : scope locals x = Some r → Z.of_nat r < base.
Proof using Type.
  intros Hr. pose proof (scope_from_spec 0 locals x) as Hs. unfold scope in Hr. rewrite Hr in Hs. destruct Hs as (j & -> & Hj & _).
  apply lookup_lt_Some in Hj. unfold base. lia.
Qed.

Lemma local_search_spec name vl k : (k ≤ length vl)%nat →
  (∃ (r : nat) v, local_search name k vl = Z.of_nat r ∧ (r < k)%nat ∧ vl !! r = Some v ∧ is_named name v = true ∧
     ∀ j v, (r < j < k)%nat → vl !! j = Some v → is_named name v = false) ∨
  (local_search name k vl = -1 ∧ ∀ j v, (j < k)%nat → vl !! j = Some v → is_named name v = false).
Proof using Type.
  induction k as [|k IH]; intros Hk; simpl; [right; split; [done|lia]|]. destruct (lookup_lt_is_Some_2 vl k) as [v Hv]; [lia|]. rewrite Hv.
  destruct (is_named name v) eqn:En; [left; exists k, v; split_and!; [done|lia|done|done|lia]|].
  destruct IH as [(r & u & -> & Hr & Hu & Hn & Hall)|[-> Hall]]; [lia|left; exists r, u; split_and!; [done|lia|done|done|]|right; split; [done|]].
  - intros j v' Hj Hv'. destruct (decide (j = k)) as [->|]; [congruence|]. apply (Hall j); [lia|done].
  - intros j v' Hj Hv'. destruct (decide (j = k)) as [->|]; [congruence|]. apply (Hall j); [lia|done].
Qed.
Lemma GetLocalVariable_scope c w a x : shows c w → w_strs w !! a = Some x →
  GetLocalVariable (string_key a) (_fs c) = match scope locals x with Some r => Z.of_nat r | None => -1 end.
Proof using Type.
  intros Hs Ha. destruct (sh_vars _ _ Hs) as (vs & ts & E & Hv & Ht & _). pose proof (in_inj _ _ (sh_interns _ _ Hs)) as Hinj.
  assert (∀ j v, (vs ++ ts) !! j = Some v → is_named (string_key a) v = true ↔ locals !! j = Some x) as Hnamed.
  { intros j v Hj. unfold is_named. rewrite andb_true_iff, bool_decide_eq_true, Z.eqb_eq. apply lookup_app_Some in Hj as [Hj|[Hge Hj]].
    - destruct (Forall2_lookup_l _ _ _ _ _ Hv Hj) as (y & Hy & b & -> & Hb & _). cbn. rewrite Hy. split; [intros [_ ->]; congruence|]. intros [= ->]. split; [done|by eapply Hinj].
    - rewrite Forall_lookup in Ht. rewrite (Ht _ _ Hj). split; [by intros [? _]|]. intros Hx%lookup_lt_Some. apply Forall2_length in Hv. lia. }
  unfold GetLocalVariable. rewrite E. pose proof (scope_from_spec 0 locals x) as Hsc. unfold scope. pose proof (Forall2_length _ _ _ Hv) as Hlen.
  destruct (local_search_spec (string_key a) (vs ++ ts) (length (vs ++ ts)) ltac:(lia)) as [(r & v & -> & Hr & Hl & Hn & Hall)|[-> Hall]].
  - apply (Hnamed _ _ Hl) in Hn. destruct (scope_from 0 locals x) as [r'|]; [|by apply list_elem_of_lookup_2 in Hn]. destruct Hsc as (j & -> & Hj & Hafter). f_equal.
    destruct (lt_eq_lt_dec r j) as [[Hlt| ->]|Hgt]; [|done|by apply Hafter in Hn]. exfalso.
    assert (j < length (vs ++ ts))%nat as Hjl by (apply lookup_lt_Some in Hj; rewrite length_app; lia). destruct (lookup_lt_is_Some_2 _ _ Hjl) as [u Hu].
    pose proof (proj2 (Hnamed _ _ Hu) Hj). rewrite (Hall j u) in *; [done|lia|done].
  - destruct (scope_from 0 locals x) as [r'|]; [|done]. destruct Hsc as (j & -> & Hj & _). exfalso.
    assert (j < length (vs ++ ts))%nat as Hjl by (apply lookup_lt_Some in Hj; rewrite length_app; lia). destruct (lookup_lt_is_Some_2 _ _ Hjl) as [u Hu].
    pose proof (proj2 (Hnamed _ _ Hu) Hj). rewrite (Hall j u) in *; [done|lia|done].
Qed.

(** No function is around, and there are no named constants. *)
Lemma runs_outer_variable c w id : shows c w → runs (outer_variable id) c (λ r c', r = -1 ∧ shows c' w).
Proof using Type.
  intros Hs. unfold runs, outer_variable, GetOuterVariable, outer_index. rewrite (sh_parents _ _ Hs), (sh_outers _ _ Hs). cbn. split; [done|]. destruct Hs. by split.
Qed.
Lemma runs_IsConstant c w id : shows c w → runs (IsConstant id) c (λ r c', r = None ∧ c' = c).
Proof using Type.
  intros Hs. unfold IsConstant. apply runs_bind, runs_gets. unfold Datatypes.id. eapply runs_lift; [by apply Get_models, Hs|]. done.
Qed.
End operations.
End shows.
