(* ===== verification/SqCompilerCode.v ===== *)
(** * What the instructions of an expression do

    The instructions emitted so far are related to what they should do, a function
    on machines: the registers in use, those below a bound, hold the same in the
    end.  [AddInstruction] keeps the relation although it joins instructions. *)

From Stdlib Require Import Ascii.
From stdpp Require Import base numbers gmap strings option list.
From S2P Require Import Prelude CType SqObject SqArrayLib SqString SqKeywords SqFuncState SqCompiler SqVm SqPeephole SqExpression SqCompilerView.

Open Scope Z_scope.

Section code.
Context {H : Type} {RT : Runtime H} (locals : list (list ascii)).
Abbreviation base := (base locals).
Abbreviation sexec lits := (exec (strict_step lits)).
Abbreviation mach := (machine (H := H)).
Implicit Types m : mach.

(** ** Meanings *)

Inductive run := Goes (m : mach) | Stops (m : mach) | Lost.
Definition finish_of (r : run) : finish := match r with Goes m => Done 0 m | Stops m => Thrown m | Lost => Away end.
Definition seq (r : run) (f : mach → run) : run := match r with Goes m => f m | _ => r end.

Definition below (n r : Z) : Prop := 0 ≤ r < n.
Definition same_run (n : Z) (r1 r2 : run) : Prop := same_finish (below n) (below base) (finish_of r1) (finish_of r2).

(** What a sequence means depends on the objects of the strings. *)
Definition sem : Type := (list ascii → SQObject) → mach → run.
Definition then_ (X : sem) (f : sem) : sem := λ str m, seq (X str m) (f str).

(** The strings of the compiler are these objects, and its literals the first of those
    of the function. *)
Definition fits (str : list ascii → SQObject) (lits : list SQObject) (w : view) : Prop :=
  (∀ a s, w_strs w !! a = Some s → str s = string_key a) ∧ w_lits w `prefix_of` lits.

Definition impl (n : Z) (w : view) (code : list instruction) (X : sem) : Prop :=
  ∀ str lits, fits str lits w → ∀ m, same_finish (below n) (below base) (sexec lits code 0 m) (finish_of (X str m)).
Definition shut (w : view) (code : list instruction) : Prop := ∀ str lits, fits str lits w → closed lits code.

(** *** The last instruction *)

Definition plain (i : instruction) : Prop :=
  (has_target (iop i) = true → base ≤ arg0 i) ∧ (iop i = _OP_CMP → 0 ≤ arg1 i) ∧
  (iop i = _OP_LOADNULLS → 0 ≤ arg0 i ∧ 1 ≤ arg1 i ∧ arg0 i + arg1 i ≤ 256).
Definition jumps (o : SQOpcode) : bool := match o with _OP_JMP | _OP_JZ | _OP_JCMP | _OP_AND | _OP_OR => true | _ => false end.
Definition inert (o : SQOpcode) : bool := match o with _OP_LINE => true | _ => jumps o end.
Definition sealed (pre : list instruction) : Prop := match last pre with Some i => inert (iop i) = true | None => True end.
Lemma jumps_inert o : jumps o = true → inert o = true.
Proof using Type. by destruct o. Qed.

(** Behind [pre], the compiler has emitted instructions that mean [X]; the last one, if it
    may still be changed, is not the goal of a jump. *)
Definition emitted (pre : list instruction) (n : Z) (w : view) (X : sem) : Prop :=
  ∃ code, w_code w = pre ++ code ∧ impl n w code X ∧
    (w_opt w = true → (code = [] ∧ sealed pre) ∨
       ∃ code0 pi, code = code0 ++ [pi] ∧ shut w code0 ∧ goes_on (iop pi) = true ∧ plain pi).

Lemma same_run_refl n r : same_run n r r.
Proof using Type. apply same_finish_refl. Qed.
Lemma same_run_trans n r1 r2 r3 : same_run n r1 r2 → same_run n r2 r3 → same_run n r1 r3.
Proof using Type. apply same_finish_trans. Qed.
Lemma below_mono n n' r : n' ≤ n → below n' r → below n r.
Proof using Type. unfold below. lia. Qed.

Lemma impl_conv n n' w code X Y : impl n w code X → n' ≤ n → (∀ str m, same_run n' (X str m) (Y str m)) → impl n' w code Y.
Proof using Type.
  intros Hi Hn HXY str lits Hf m. eapply same_finish_trans; [|apply HXY]. eapply same_finish_mono; [..|by apply (Hi str lits)]; [|done].
  intros r. by apply below_mono.
Qed.
Lemma emitted_conv pre n n' w X Y : emitted pre n w X → n' ≤ n → (∀ str m, same_run n' (X str m) (Y str m)) → emitted pre n' w Y.
Proof using Type. intros (code & E & Hi & Ht) Hn HXY. exists code. split; [done|]. split; [by eapply impl_conv|done]. Qed.
Lemma emitted_mono pre n n' w X : emitted pre n w X → n' ≤ n → emitted pre n' w X.
Proof using Type. intros He Hn. eapply emitted_conv; [done|done|]. intros. apply same_run_refl. Qed.

(** What the view has more does not matter. *)
Lemma fits_grow str lits w w' : fits str lits w' → w_strs w ⊆ w_strs w' → w_lits w `prefix_of` w_lits w' → fits str lits w.
Proof using Type. intros [Hs Hl] Hsub Hpre. split; [|by etrans]. intros a s Ha. apply Hs. by eapply lookup_weaken. Qed.
Lemma emitted_grow pre n w w' X : emitted pre n w X → w_strs w ⊆ w_strs w' → w_lits w `prefix_of` w_lits w' →
  w_code w' = w_code w → w_opt w' = w_opt w → emitted pre n w' X.
Proof using Type.
  intros (code & E & Hi & Ht) Hsub Hpre Ec Eo. exists code. rewrite Ec, Eo. split; [done|]. split; [intros str lits Hf; by apply Hi, (fits_grow _ _ w w')|].
  intros Ho. destruct (Ht Ho) as [?|(code0 & pi & ? & Hs & ?)]; [by left|right]. exists code0, pi. split; [done|]. split; [|done].
  intros str lits Hf. eapply Hs, (fits_grow _ _ w w'); done.
Qed.
Lemma emitted_start pre n w : w_code w = pre → (w_opt w = true → sealed pre) → emitted pre n w (λ _ m, Goes m).
Proof using Type. intros E Ho. exists []. rewrite app_nil_r. split; [done|]. split; [|auto]. intros str lits Hf m. apply same_finish_refl. Qed.
Lemma emitted_snooze pre n w X : emitted pre n w X → emitted pre n (set_code (w_code w) false w) X.
Proof using Type. intros (code & E & Hi & _). by exists code. Qed.

(** ** Emitting an instruction *)

Lemma impl_shut n w code X : impl n w code X → shut w code.
Proof using Type.
  intros Hi str lits Hf m. specialize (Hi str lits Hf m). destruct (sexec lits code 0 m) as [[|k] m'| | |]; try done.
  destruct (X str m); try done. by destruct Hi.
Qed.

Definition does (n n' : Z) (w : view) (i : instruction) (f : sem) : Prop :=
  ∀ str lits, fits str lits w → ∀ m m', agree (below n) m m' →
    same_finish (below n') (below base) (sexec lits [i] 0 m) (finish_of (f str m')).

(** An instruction is added. *)
Lemma impl_snoc n n' w code X i f : impl n w code X → does n n' w i f → impl n' w (code ++ [i]) (then_ X f).
Proof using Type.
  intros Hi Hd str lits Hf m. rewrite exec_app. specialize (Hi str lits Hf m). unfold then_.
  destruct (X str m) as [m'|m'|]; cbn [finish_of seq] in *; destruct (sexec lits code 0 m) as [k m1|m1| |] eqn:E; try done. destruct Hi as [-> Ha].
  by apply (Hd str lits Hf).
Qed.

Lemma improve_keep nested f size pi i p q : goes_on (iop i) = true ∨ jumps (iop i) = true → improve nested f size pi i = Keep p q → p = pi ∧ q = i.
Proof using Type.
  intros Hi. unfold improve. destruct Hi; destruct (iop i); try done; repeat case_match; try done; intros [= <- <-]; done.
Qed.
Lemma improve_sealed nested f size pi i : goes_on (iop i) = true ∨ jumps (iop i) = true → inert (iop pi) = true →
  improve nested f size pi i = Keep pi i ∨ improve nested f size pi i = Relined.
Proof using Type.
  intros Hi Hp. unfold improve. destruct Hi; destruct (iop i) eqn:Ei; try done; destruct (iop pi) eqn:Ep; try done; auto.
Qed.
Lemma improve_plain nested f size pi i p : goes_on (iop i) = true → plain pi → plain i → (iop i = _OP_LOADNULLS → arg1 i = 1) →
  improve nested f size pi i = Fuse p → goes_on (iop p) = true ∧ plain p ∧ iop p ≠ _OP_CMP.
Proof using Type.
  intros Hi (_ & _ & Hp) (_ & _ & Hq) H1. unfold improve. destruct (iop i) eqn:Ei; try done; repeat case_match; try done; intros [= <-];
    try (by split; [done|]; split; [unfold plain; cbn; split_and!; done|done]).
  match goal with H : _ && _ = true |- _ => apply andb_true_iff in H as [Ho%bool_decide_eq_true Ha%Z.eqb_eq] end.
  destruct (Hp Ho) as (? & ? & ?), (Hq eq_refl) as (? & ? & ?). split; [done|]. split; [|done]. unfold plain. cbn. split_and!; try done. intros _.
  rewrite s32_small by lia. lia.
Qed.

(** *** What is last *)

Lemma added_last code opt i code' opt' : added locals code opt i code' opt' →
  ∃ l j, code' = l ++ [j] ∧ (length l ≤ length code)%nat ∧
    (goes_on (iop i) = true → iop j = _OP_CMP → j = i) ∧ (jumps (iop i) = true → jumps (iop j) = true ∧ opt' = true) ∧
    (iop i = _OP_JMP ∨ iop i = _OP_AND ∨ iop i = _OP_OR → l = code ∧ j = i).
Proof using Type.
  unfold added. intros Ha. assert (code' = code ++ [i] ∧ opt' = true ∨ ∃ code0 pi f size, code = code0 ++ [pi] ∧
    match improve false f size pi i with
    | Keep pi i => code' = code0 ++ [pi; i] ∧ opt' = true
    | Fuse pi => code' = code0 ++ [pi] ∧ opt' = true
    | Redirect pi => code' = code0 ++ [pi] ∧ opt' = false
    | Relined => False
    end) as [[-> ->]|(code0 & pi & f & size & -> & Hc)].
  { destruct code as [|pi code0 _] using rev_ind; [by left|]. rewrite last_snoc, removelast_last in Ha. destruct opt; [|by left].
    destruct Ha as (f & size & _ & Hc). right. by exists code0, pi, f, size. }
  all: clear Ha.
  - exists code, i. by split_and!.
  - rewrite length_app. destruct (improve false f size pi i) as [p q|p|p|] eqn:Ei; [| | |done]; destruct Hc as [-> ->].
    + exists (code0 ++ [p]), q. rewrite <- app_assoc, length_app. split; [done|]. split; [done|]. split; [|split].
      * intros Hg _. by apply improve_keep in Ei as [_ ->]; [|left].
      * intros Hj. by apply improve_keep in Ei as [_ ->]; [|right].
      * intros Hj. assert (p = pi ∧ q = i) as [-> ->]; [|done]. eapply improve_keep; [|done]. right. by destruct Hj as [->|[->| ->]].
    + exists code0, p. split; [done|]. split; [lia|]. unfold improve in Ei.
      split; [|split]; destruct (iop i) eqn:Eo; try done; repeat case_match; try done; injection Ei as <-; try done; by intros [?|[?|?]].
    + exists code0, p. split; [done|]. split; [lia|]. unfold improve in Ei.
      split; [|split]; destruct (iop i) eqn:Eo; try done; repeat case_match; try done; injection Ei as <-; try done; try (by intros [?|[?|?]]).
      intros _. cbn. intros Ep. by rewrite Ep in *.
Qed.

Section add.
Context (pre : list instruction) (n n' : Z) (w : view) (X : sem) (i : instruction) (code' : list instruction) (opt' : bool).
Context (Hem : emitted pre n w X) (Hadd : added locals (w_code w) (w_opt w) i code' opt').

Lemma removelast_app_snoc {A} (l l' : list A) x : removelast (l ++ l' ++ [x]) = l ++ l'.
Proof using Type. by rewrite app_assoc, removelast_last. Qed.

(** The cases: the instruction is put behind the others, or joined with the last. *)
Lemma added_cases : goes_on (iop i) = true ∨ jumps (iop i) = true → ∃ code, w_code w = pre ++ code ∧ impl n w code X ∧
  ((code' = pre ++ code ++ [i] ∧ opt' = true) ∨
   ∃ code0 pi nested f size, code = code0 ++ [pi] ∧ w_opt w = true ∧ shut w code0 ∧ goes_on (iop pi) = true ∧ plain pi ∧
     match improve nested f size pi i with
     | Fuse p => code' = pre ++ code0 ++ [p] ∧ opt' = true
     | Redirect p => code' = pre ++ code0 ++ [p] ∧ opt' = false
     | _ => False
     end).
Proof using Hem Hadd.
  intros Hi. destruct Hem as (code & E & Him & Ht). exists code. split; [done|]. split; [done|]. unfold added in Hadd. rewrite E in Hadd.
  destruct (w_opt w); [|left; destruct (last _); by rewrite <- app_assoc in Hadd].
  destruct (Ht eq_refl) as [[-> Hs]|(code0 & pi & -> & Hs & Hg & Hp)].
  - left. rewrite app_nil_r in *. unfold sealed in Hs. destruct (last pre) as [p|] eqn:Hl; [|done]. destruct Hadd as (f & size & _ & Hc).
    destruct (improve_sealed false f size p i Hi Hs) as [Ei|Ei]; rewrite Ei in Hc; [|done]. destruct pre as [|q pre' _] using rev_ind; [done|]. rewrite last_snoc in Hl. injection Hl as ->.
    rewrite removelast_last in Hc. rewrite <- app_assoc. done.
  - rewrite app_assoc, last_snoc, removelast_last in Hadd. destruct Hadd as (f & size & _ & Hc). destruct (improve false f size pi i) as [p q|p|p|] eqn:Ei; [|..|done].
    + apply improve_keep in Ei as [-> ->]; [|done]. left. destruct Hc as [-> ->]. by rewrite <- !app_assoc.
    + right. exists code0, pi, false, f, size. rewrite Ei. destruct Hc as [-> ->]. by rewrite <- app_assoc.
    + right. exists code0, pi, false, f, size. rewrite Ei. destruct Hc as [-> ->]. by rewrite <- app_assoc.
Qed.

(** Joining is right if the register that is no longer set is not in use. *)
Definition joins : Prop := ∀ pi, plain pi → goes_on (iop pi) = true →
  joinable pi i ∧ ∀ r, fused_target pi i = Some r → (below n' r → sets i r) ∧ base ≤ r.

Lemma impl_join f code0 pi nested g size p : joins → does n n' w i f → in_expression (iop i) = true →
  impl n w (code0 ++ [pi]) X → shut w code0 → goes_on (iop pi) = true → plain pi →
  improved_code (improve nested g size pi i) i = [p] → impl n' w (code0 ++ [p]) (then_ X f).
Proof using Type.
  intros Hj Hd Hi Him Hs Hg Hp Ep str lits Hf m. pose proof (impl_snoc _ _ _ _ _ _ _ Him Hd str lits Hf m) as Hall.
  eapply same_finish_trans; [|exact Hall]. rewrite <- app_assoc, !exec_app. specialize (Hs str lits Hf m). destruct (sexec lits code0 0 m) as [[|k] m1|m1| |]; try done; simpl; try apply same_finish_refl.
  destruct (Hj pi Hp Hg) as [Hjoin Hfused]. apply same_finish_sym. pose proof (improve_pair lits nested g size pi i m1 Hg Hi Hjoin) as Hpair. rewrite Ep in Hpair.
  eapply same_finish_mono; [..|exact Hpair].
  - intros r Hr. unfold kept. destruct (decide (Some r = fused_target pi i)) as [Er|]; [right; by apply (Hfused r)|by left].
  - intros r Hr Er. destruct (Hfused r) as [_ Hb]; [done|]. unfold below in Hr. lia.
Qed.

Lemma emitted_add f : goes_on (iop i) = true → plain i → (iop i = _OP_LOADNULLS → arg1 i = 1) → joins → does n n' w i f →
  emitted pre n' (set_code code' opt' w) (then_ X f).
Proof using Hem Hadd.
  intros Hi Hp Hn Hj Hd. assert (in_expression (iop i) = true) as Hin by (unfold in_expression; by rewrite Hi).
  destruct added_cases as (code & E & Him & Hc); [by left|]. destruct Hc as [[-> ->]|(code0 & pi & nested & g & size & -> & Ho & Hs & Hg & Hpi & Hc)].
  - exists (code ++ [i]). split; [done|]. split; [by apply (impl_snoc n)|]. intros _. right. exists code, i. split; [done|]. split; [by apply (impl_shut n _ _ X)|done].
  - destruct (improve nested g size pi i) as [|p|p|] eqn:Ei; try done; destruct Hc as [-> ->].
    + exists (code0 ++ [p]). split; [done|]. split; [apply (impl_join f code0 pi nested g size p); try done; by rewrite Ei|]. intros _. right. exists code0, p.
      split; [done|]. split; [done|]. by destruct (improve_plain _ _ _ _ _ _ Hi Hpi Hp Hn Ei) as (? & ? & _).
    + exists (code0 ++ [p]). split; [done|]. split; [apply (impl_join f code0 pi nested g size p); try done; by rewrite Ei|done].
Qed.

End add.

(** A test, whose jump is still open *)
Definition tested (t k : Z) (r : run) : finish :=
  match r with Goes m => Done (if IsFalse (regs m t) then Z.to_nat k else 0) m | Stops m => Thrown m | Lost => Away end.
Lemma emitted_test pre n n' w X t code' opt' :
  emitted pre n w X → added locals (w_code w) (w_opt w) (mkI _OP_JZ t 0 0 0) code' opt' → below n t → n' ≤ n → base ≤ n' →
  (∀ pi, w_opt w = true → last (w_code w) = Some pi → iop pi = _OP_CMP → arg0 pi = t ∧ n' ≤ t) →
  ∃ code j, code' = pre ++ code ++ [j] ∧ opt' = true ∧ jumps (iop j) = true ∧
    ∀ str lits, fits str lits w → ∀ k m, 0 ≤ k →
      same_finish (below n') (below base) (sexec lits (code ++ [set_jump k j]) 0 m) (tested t k (X str m)).
Proof using Type.
  intros Hem Hadd Ht Hn Hb Hcmp.
  assert (∀ code, impl n w code X → ∀ str lits, fits str lits w → ∀ k m, 0 ≤ k →
    same_finish (below n') (below base) (sexec lits (code ++ [mkI _OP_JZ t k 0 0]) 0 m) (tested t k (X str m))) as Hjz.
  { intros code Him str lits Hf k m Hk. rewrite exec_app. specialize (Him str lits Hf m). unfold tested.
    destruct (X str m) as [m'|m'|]; destruct (sexec lits code 0 m) as [k1 m1|m1| |]; try done. destruct Him as [-> [Ha Hst]]. cbn. unfold strict_step, mod_fails. cbn.
    rewrite (Ha t Ht). assert (agree (below n') m1 m') by (split; [|done]; intros r Hr; by apply Ha, (below_mono n n')).
    destruct (IsFalse (regs m' t)); cbn; [|by split]. rewrite (proj2 (Z.ltb_ge k 0)) by lia. by split. }
  destruct (added_cases pre n w X _ code' opt' Hem Hadd) as (code & E & Him & Hc); [by right|].
  destruct Hc as [[-> ->]|(code0 & pi & nested & g & size & -> & Ho & Hs & Hg & Hpi & Hc)].
  - exists code, (mkI _OP_JZ t 0 0 0). split_and!; [done|done|done|]. by apply Hjz.
  - unfold improve in Hc. cbn in Hc. destruct (_ && _) eqn:Ec; [|done]. apply andb_true_iff in Ec as [Eo%bool_decide_eq_true Ea%Z.ltb_lt]. destruct Hc as [-> ->].
    destruct (Hcmp pi Ho) as [Et Hnt]; [by rewrite E, app_assoc, last_snoc|done|]. pose proof Hpi as (_ & H0 & _). specialize (H0 Eo).
    eexists code0, _. split; [done|]. split; [done|]. split; [done|]. intros str lits Hf k m Hk. specialize (Hjz _ Him str lits Hf k m Hk).
    eapply same_finish_trans; [|exact Hjz]. rewrite <- app_assoc, !exec_app. specialize (Hs str lits Hf m).
    destruct (sexec lits code0 0 m) as [[|k1] m1|m1| |]; try done; simpl; try apply same_finish_refl.
    apply same_finish_sym. pose proof (improve_pair lits nested g size pi (mkI _OP_JZ t k 0 0) m1 Hg eq_refl) as Hpair.
    unfold improve in Hpair. cbn [iop arg1 improved_code] in Hpair. rewrite bool_decide_eq_true_2, (proj2 (Z.ltb_lt _ _)) in Hpair by done.
    eapply same_finish_mono; [..|apply Hpair; intros _; by split].
    + intros r Hr. left. unfold fused_target. cbn. rewrite Eo. unfold below in Hr. cbn. intros [= ->]. lia.
    + intros r Hr. unfold kept_thrown, fused_target. cbn. rewrite Eo. unfold below in Hr. cbn. intros [= ->]. lia.
Qed.
End code.
