(* ===== verification/SqCompilerEval.v ===== *)
(** * Instructions and evaluation

    What the single instructions of an expression do, stated with the evaluation
    of its parts: the loads, the operations on one and two operands, members and
    calls. *)

From Stdlib Require Import Ascii.
From stdpp Require Import base numbers gmap strings option list.
From S2P Require Import Prelude CType SqObject SqArrayLib SqString SqKeywords SqFuncState SqCompiler SqVm SqPeephole SqExpression SqCompilerView SqCompilerCode.

Open Scope Z_scope.

Section eval_code.
Context {H : Type} {RT : Runtime H} (locals : list (list ascii)).
Abbreviation base := (base locals).
Abbreviation sexec lits := (exec (strict_step lits)).
Abbreviation mach := (machine (H := H)).
Implicit Types m : mach.

(** ** Evaluation into a register *)

Definition of_result (t : Z) (r : result SQObject) (m : mach) : run :=
  match r with RVal v h => Goes (put t v (with_store h m)) | RThrow h => Stops (with_store h m) | RLost => Lost end.
Definition eval_to (e : exp) (t : Z) : sem := λ str m, of_result t (eval str (regs m) e (store m)) m.

Definition place (k : nat) (e : exp) : Z := match e with EVar r => Z.of_nat r | _ => base + Z.of_nat k end.
Definition temps_after (k : nat) (e : exp) : nat := if is_var e then k else S k.

(** The local variables are the same. *)
Definition same_locals (R1 R2 : Z → SQObject) : Prop := ∀ r, 0 ≤ r < base → R1 r = R2 r.

Lemma eval_method str R e x args (h : H) : eval str R (EMethod e x args) h =
  rbind (eval str R e h) (λ v h, rbind (answer (get_ v (str x) (is_this e) h)) (λ f h, rbind (evals str R args h) (λ vs h, answer (call_ f (v :: vs) h)))).
Proof using Type. done. Qed.
Lemma eval_call str R f args (h : H) : eval str R (ECall f args) h =
  rbind (eval str R f h) (λ f h, rbind (evals str R args h) (λ vs h, answer (call_ f (R 0 :: vs) h))).
Proof using Type. done. Qed.
Lemma rbind_ext {A B} (x y : result (H := H) A) (k k' : A → H → result (H := H) B) : x = y → (∀ a h, k a h = k' a h) → rbind x k = rbind y k'.
Proof using Type. intros -> Hk. destruct y; [apply Hk|done|done]. Qed.

Lemma spells_agree (Hbase : 0 < base) :
  (∀ l p e ts, spells locals l p e ts → ∀ str R1 R2, same_locals R1 R2 → ∀ h : H, eval str R1 e h = eval str R2 e h) ∧
  (∀ args ts, spells_args locals args ts → ∀ str R1 R2, same_locals R1 R2 → ∀ h : H, evals str R1 args h = evals str R2 args h).
Proof using Type.
  apply spells_mutind; intros; rewrite ?eval_method, ?eval_call; cbn [eval];
    repeat first [done | solve [eauto] | apply rbind_ext; [|intros ? ?] | match goal with |- context [if ?b then _ else _] => destruct b end].
  - cbn. match goal with H : same_locals _ _ |- _ => rewrite H; [done|] end. split; [lia|]. by eapply scope_bound.
  - match goal with H : same_locals _ _ |- _ => by rewrite H by lia end.
  - match goal with H : same_locals _ _ |- _ => by rewrite H by lia end.
  - match goal with H : same_locals _ _ |- _ => by rewrite H by lia end.
Qed.

(** ** Operands *)

Lemma agree_with_store P m1 m2 (h : H) : agree P m1 m2 → agree P (with_store h m1) (with_store h m2).
Proof using Type. intros [Hr _]. by split. Qed.
Lemma agree_put_same (P P' : Z → Prop) t v m1 m2 : agree P m1 m2 → (∀ r, P' r → r = t ∨ P r) → agree P' (put t v m1) (put t v m2).
Proof using Type. intros [Hr Hs] HP. split; [|done]. intros r Pr. cbn. destruct (Z.eqb_spec r t); [done|]. apply Hr. by destruct (HP r Pr). Qed.

Lemma spells_var l p e ts : spells locals l p e ts → match e with EVar r => Z.of_nat r < base | _ => True end.
Proof using Type.
  revert l p e ts. apply (spells_ind' locals (λ _ _ e _, match e with EVar r => Z.of_nat r < base | _ => True end) (λ _ _, True)); try done.
  intros x r ws _ Hr. by eapply scope_bound.
Qed.

(** What is needed of an expression: its variables are registers of variables. *)
Definition by_locals (e : exp) : Prop := ∀ str R1 R2, same_locals R1 R2 → ∀ h : H, eval str R1 e h = eval str R2 e h.
Definition good (e : exp) : Prop := by_locals e ∧ match e with EVar r => Z.of_nat r < base | _ => True end.
Lemma spells_good l p e ts : 0 < base → spells locals l p e ts → good e.
Proof using Type. intros Hb Hs. split; [|by eapply spells_var]. intros str R1 R2 HR h. by apply (proj1 (spells_agree Hb) l p e ts). Qed.
Lemma good_var r : Z.of_nat r < base → good (EVar r).
Proof using Type. intros Hr. split; [|done]. intros str R1 R2 HR h. cbn. rewrite HR; [done|lia]. Qed.
Lemma good_string x : good (EString x).
Proof using Type. by split. Qed.

Lemma place_bound k e : good e → below (base + Z.of_nat (temps_after k e)) (place k e).
Proof using Type.
  intros [_ Hv]. assert (0 ≤ base) by (unfold SqCompilerView.base; lia). unfold below, place, temps_after. destruct e; cbn; lia.
Qed.

(** A register that is set to what it holds, or is not of a local variable *)
Lemma put_place str k k' e v (h : H) m : eval str (regs m) e (store m) = RVal v h → (k ≤ k')%nat →
  agree (below (base + Z.of_nat k)) (put (place k' e) v (with_store h m)) (with_store h m).
Proof using Type.
  intros He Hk. split; [|done]. intros r Hr. cbn. destruct (Z.eqb_spec r (place k' e)) as [->|]; [|done]. unfold below, place in Hr.
  destruct e; cbn in Hr; try lia. cbn in He. by injection He.
Qed.
Lemma agree_below n n' m1 m2 : n' ≤ n → agree (below n) m1 m2 → agree (below n') m1 m2.
Proof using Type. intros Hn. apply agree_mono. intros r. by apply below_mono. Qed.
Lemma agree_locals n m1 m2 : base ≤ n → agree (below n) m1 m2 → same_locals (regs m1) (regs m2).
Proof using Type. intros Hn [Hr _] r Hb. apply Hr. unfold below. lia. Qed.

(** ** Instructions that set a register *)

Definition outcome_of (t : Z) (r : result SQObject) (m : mach) : outcome :=
  match r with RVal v h => Next (put t v (with_store h m)) | RThrow h => Throw (with_store h m) | RLost => Left end.
Lemma does_target n n' w i t (F : (list ascii → SQObject) → mach → result SQObject) :
  (∀ str lits m, fits str lits w → strict_step lits i m = outcome_of t (F str m) m) →
  (∀ str m m', agree (below n) m m' → F str m = F str m') → (∀ r, below n' r → r = t ∨ below n r) → base ≤ n →
  does locals n n' w i (λ str m, of_result t (F str m) m).
Proof using Type.
  intros Hi HF Hn Hb str lits Hf m m' Ha. cbn [exec]. rewrite (Hi _ _ m Hf), (HF str m m' Ha). destruct (F str m') as [v h|h|]; cbn; [|by apply agree_with_store, (agree_below n)|done].
  split; [done|]. eapply agree_put_same; [by apply agree_with_store|done].
Qed.

(** Two operands *)
Definition on_two (k : nat) (e1 e2 : exp) (t : Z) (g : SQObject → SQObject → H → result SQObject) : sem := λ str m,
  of_result t (g (regs m (place k e1)) (regs m (place (temps_after k e1) e2)) (store m)) m.
Lemma two_operands k e1 e2 t n' X g : good e1 → good e2 →
  (∀ r, below n' r → r = t ∨ below (base + Z.of_nat k) r) → ∀ str m,
  same_run locals n' (then_ (then_ (then_ X (eval_to e1 (place k e1))) (eval_to e2 (place (temps_after k e1) e2))) (on_two k e1 e2 t g) str m)
    (then_ X (λ str m, of_result t (rbind (eval str (regs m) e1 (store m)) (λ v1 h, rbind (eval str (regs m) e2 h) (λ v2 h, g v1 v2 h))) m) str m).
Proof using Type.
  intros [_ Hv1] [Hs2 Hv2] Hn str m. unfold then_. destruct (X str m) as [m0|m0|]; cbn [seq]; [|apply same_run_refl..].
  unfold eval_to. destruct (eval str (regs m0) e1 (store m0)) as [v1 h1|h1|] eqn:E1; cbn [of_result seq rbind]; [|apply same_run_refl..].
  set (t1 := place k e1). set (m1 := put t1 v1 (with_store h1 m0)). set (t2 := place (temps_after k e1) e2).
  assert (agree (below (base + Z.of_nat k)) m1 (with_store h1 m0)) as A1 by (by eapply put_place).
  assert (eval str (regs m1) e2 (store m1) = eval str (regs m0) e2 h1) as E2.
  { apply Hs2. eapply (agree_locals _ m1 (with_store h1 m0)); [|exact A1]. lia. }
  rewrite E2. destruct (eval str (regs m0) e2 h1) as [v2 h2|h2|] eqn:E3; cbn [of_result seq rbind]; [| |done].
  - set (m2 := put t2 v2 (with_store h2 m1)). unfold on_two. fold t1 t2.
    assert (agree (below (base + Z.of_nat k)) m2 (with_store h2 m0)) as A2.
    { apply (agree_trans _ _ (with_store h2 m1)); [|by apply (agree_with_store _ _ _ h2) in A1]. eapply put_place; [by rewrite E2|unfold temps_after; destruct (is_var e1); lia]. }
    assert (regs m2 t2 = v2) as -> by apply put_same. assert (regs m2 t1 = v1) as ->.
    { destruct (Z.eq_dec t1 t2) as [Et|Et]; [|unfold m2; rewrite put_other by done; apply put_same]. rewrite Et. unfold m2. rewrite put_same.
      unfold t1, t2, place, temps_after in Et. destruct e2; try (destruct e1; cbn in *; lia).
      destruct e1; try lia. cbn in E1, E3. congruence. }
    cbn [store m2 put with_store]. destruct (g v1 v2 h2) as [v h|h|]; cbn [of_result]; [| |done].
    + split; [done|]. eapply agree_put_same; [|exact Hn]. by apply (agree_with_store _ _ _ h) in A2.
    + apply (agree_with_store _ _ _ h) in A2. eapply agree_below; [|exact A2]. lia.
  - apply (agree_with_store _ _ _ h2) in A1. cbn. eapply agree_below; [|exact A1]. lia.
Qed.

(** One operand *)
Definition on_one (t1 t : Z) (g : SQObject → H → result SQObject) : sem := λ str m, of_result t (g (regs m t1) (store m)) m.
Lemma one_operand k e t n' X g : (∀ r, below n' r → r = t ∨ below (base + Z.of_nat k) r) → ∀ str m,
  same_run locals n' (then_ (then_ X (eval_to e (place k e))) (on_one (place k e) t g) str m)
    (then_ X (λ str m, of_result t (rbind (eval str (regs m) e (store m)) g) m) str m).
Proof using Type.
  intros Hn str m. unfold then_. destruct (X str m) as [m0|m0|]; cbn [seq]; [|apply same_run_refl..].
  unfold eval_to. destruct (eval str (regs m0) e (store m0)) as [v1 h1|h1|] eqn:E1; cbn [of_result seq rbind]; [|apply same_run_refl..].
  set (m1 := put (place k e) v1 (with_store h1 m0)). assert (agree (below (base + Z.of_nat k)) m1 (with_store h1 m0)) as A1 by (by eapply put_place).
  unfold on_one. assert (regs m1 (place k e) = v1) as -> by apply put_same. cbn [store m1 put with_store]. destruct (g v1 h1) as [v h|h|]; cbn [of_result]; [| |done].
  - split; [done|]. eapply agree_put_same; [|exact Hn]. by apply (agree_with_store _ _ _ h) in A1.
  - apply (agree_with_store _ _ _ h) in A1. eapply agree_below; [|exact A1]. lia.
Qed.

(** ** Jumps *)

Definition respects (n n' : Z) (Y : sem) : Prop := ∀ str m m', agree (below n) m m' → same_run locals n' (Y str m) (Y str m').
Lemma eval_to_respects n n' e t : good e → base ≤ n → (∀ r, below n' r → r = t ∨ below n r) → respects n n' (eval_to e t).
Proof using Type.
  intros [Hs _] Hb Hn str m m' Ha. unfold eval_to. pose proof Ha as [_ Est]. rewrite Est.
  rewrite (Hs str (regs m) (regs m')) by (by eapply agree_locals). destruct (eval str (regs m') e (store m')) as [v h|h|]; cbn; [| |done].
  - split; [done|]. eapply agree_put_same; [by apply agree_with_store|done].
  - eapply agree_below; [|by apply agree_with_store]. done.
Qed.

(** A piece of code that is run after another *)
Lemma impl_then n n' w code Y str lits m m' : impl locals n' w code Y → respects n n' Y → fits str lits w → agree (below n) m m' →
  same_finish (below n') (below base) (sexec lits code 0 m) (finish_of (Y str m')).
Proof using Type. intros Hi Hr Hf Ha. eapply same_finish_trans; [by apply Hi|]. by apply Hr. Qed.

Definition shortcut_op (b : bool) : SQOpcode := if b then _OP_AND else _OP_OR.
Lemma impl_shortcut b n n' w code1 X t1 t code2 Y : impl locals n w code1 X → below n t1 → impl locals n' w code2 Y → respects n n' Y →
  base ≤ n' → (∀ r, below n' r → r = t ∨ below n r) →
  impl locals n' w (code1 ++ mkI (shortcut_op b) t (Z.of_nat (length code2)) t1 0 :: code2)
    (then_ X (λ str m, if Bool.eqb (IsFalse (regs m t1)) b then Goes (put t (regs m t1) m) else Y str m)).
Proof using Type.
  intros H1 Ht H2 Hy Hb Hn str lits Hf m. rewrite exec_app. specialize (H1 str lits Hf m). unfold then_.
  destruct (X str m) as [m'|m'|]; cbn [finish_of seq] in *; destruct (sexec lits code1 0 m) as [k m1|m1| |]; try done. destruct H1 as [-> Ha]. cbn [exec].
  rewrite strict_same by (by destruct b). destruct b; cbn -[Z.ltb Bool.eqb exec]; pose proof Ha as [Hr _]; rewrite (Hr t1 Ht).
  all: destruct (IsFalse (regs m' t1)); cbn -[Z.ltb exec]; try (by apply (impl_then n n' w code2 Y)).
  all: rewrite (proj2 (Z.ltb_ge _ 0)), Nat2Z.id, exec_skip by lia; split; [done|]; by eapply agree_put_same.
Qed.

Lemma impl_conditional n n' w code j X t code1 Y1 code2 Y2 :
  (∀ str lits, fits str lits w → ∀ k m, 0 ≤ k →
     same_finish (below n) (below base) (sexec lits (code ++ [set_jump k j]) 0 m) (tested t k (X str m))) →
  impl locals n' w code1 Y1 → respects n n' Y1 → impl locals n' w code2 Y2 → respects n n' Y2 → base ≤ n' →
  impl locals n' w (code ++ set_jump (Z.of_nat (length code1) + 1) j :: code1 ++ mkI _OP_JMP 0 (Z.of_nat (length code2)) 0 0 :: code2)
    (then_ X (λ str m, if IsFalse (regs m t) then Y2 str m else Y1 str m)).
Proof using Type.
  intros Ht H1 Hy1 H2 Hy2 Hb str lits Hf m. rewrite cons_middle, app_assoc, exec_app. specialize (Ht str lits Hf (Z.of_nat (length code1) + 1) m ltac:(lia)). unfold then_.
  destruct (X str m) as [m'|m'|]; cbn [tested seq] in *; destruct (sexec lits (code ++ _) 0 m) as [k m1|m1| |]; try done. destruct Ht as [-> Ha].
  destruct (IsFalse (regs m' t)).
  - rewrite Z2Nat.inj_add, Nat2Z.id by lia. change (Z.to_nat 1) with 1%nat. rewrite cons_middle, app_assoc, exec_app.
    replace (length code1 + 1)%nat with (length (code1 ++ [mkI _OP_JMP 0 (Z.of_nat (length code2)) 0 0])) by (rewrite length_app; done). rewrite exec_skip. by apply (impl_then n n' w code2 Y2).
  - rewrite exec_app. pose proof (impl_then n n' w code1 Y1 str lits m1 m' H1 Hy1 Hf Ha) as Hb1.
    destruct (Y1 str m') as [m2|m2|]; cbn [finish_of] in *; destruct (sexec lits code1 0 m1) as [k m3|m3| |]; try done. destruct Hb1 as [-> Ha2]. cbn [exec].
    rewrite strict_same by done. cbn -[Z.ltb exec]. rewrite (proj2 (Z.ltb_ge _ 0)), Nat2Z.id, exec_skip by lia. by split.
Qed.

(** What is done after an operand, with its value *)
Lemma after_operand k e t n X (K : sem) (G : (list ascii → SQObject) → mach → SQObject → H → result SQObject) :
  (∀ str m0 v h m1, eval str (regs m0) e (store m0) = RVal v h → regs m1 (place k e) = v → store m1 = h → agree (below (base + Z.of_nat k)) m1 (with_store h m0) →
     same_run locals n (K str m1) (of_result t (G str m0 v h) m0)) →
  ∀ str m, same_run locals n (then_ (then_ X (eval_to e (place k e))) K str m) (then_ X (λ str m, of_result t (rbind (eval str (regs m) e (store m)) (G str m)) m) str m).
Proof using Type.
  intros HK str m. unfold then_. destruct (X str m) as [m0|m0|]; cbn [seq]; [|apply same_run_refl..].
  unfold eval_to. destruct (eval str (regs m0) e (store m0)) as [v h|h|] eqn:E; cbn [of_result seq rbind]; [|apply same_run_refl..].
  apply (HK str m0 v h); [done|apply put_same|done|]. by eapply put_place.
Qed.

(** The other operand, or the value of the first *)
Lemma eval_to_after k e2 t str m0 m1 (h : H) : good e2 → agree (below (base + Z.of_nat k)) m1 (with_store h m0) → t = base + Z.of_nat k →
  same_run locals (t + 1) (eval_to e2 t str m1) (of_result t (eval str (regs m0) e2 h) m0).
Proof using Type.
  intros [Hl _] Ha ->. unfold eval_to. pose proof Ha as [_ Hst]. rewrite Hst. rewrite (Hl str (regs m1) (regs m0)) by (eapply (agree_locals _ m1 (with_store h m0)); [|exact Ha]; lia).
  cbn [store with_store]. destruct (eval str (regs m0) e2 h) as [v h'|h'|]; cbn [of_result]; [| |done].
  - split; [done|]. apply (agree_with_store _ _ _ h') in Ha. eapply agree_put_same; [exact Ha|]. unfold below. intros r Hr. lia.
  - apply (agree_with_store _ _ _ h') in Ha. cbn. eapply agree_below; [|exact Ha]. lia.
Qed.
Definition shortcut_exp (b : bool) (e1 e2 : exp) : exp := if b then EAnd e1 e2 else EOr e1 e2.
Lemma shortcut_meaning b k e1 e2 X : good e2 → ∀ str m,
  let t := base + Z.of_nat k in
  same_run locals (t + 1)
    (then_ (then_ X (eval_to e1 (place k e1))) (λ str m, if Bool.eqb (IsFalse (regs m (place k e1))) b then Goes (put t (regs m (place k e1)) m) else eval_to e2 t str m) str m)
    (then_ X (eval_to (shortcut_exp b e1 e2) t) str m).
Proof using Type.
  intros G2 str m t. eapply same_run_trans; [apply (after_operand k e1 t (t + 1) X _ (λ str m v h, if Bool.eqb (IsFalse v) b then RVal v h else eval str (regs m) e2 h))|].
  - intros str' m0 v h m1 E Hv Hst Ha. rewrite Hv. destruct (Bool.eqb _ b); [|by apply (eval_to_after k)]. cbn [of_result]. split; [done|].
    eapply agree_put_same; [exact Ha|]. unfold below. intros r Hr. lia.
  - unfold then_, eval_to. destruct (X str m) as [m0|m0|]; cbn [seq]; [|apply same_run_refl..]. unfold shortcut_exp.
    destruct b; cbn [eval]; destruct (eval str (regs m0) e1 (store m0)) as [v h|h|]; cbn [rbind]; try apply same_run_refl; destruct (IsFalse v); apply same_run_refl.
Qed.
Lemma conditional_meaning k e e1 e2 X : good e1 → good e2 → ∀ str m,
  let t := base + Z.of_nat k in
  same_run locals (t + 1)
    (then_ (then_ X (eval_to e (place k e))) (λ str m, if IsFalse (regs m (place k e)) then eval_to e2 t str m else eval_to e1 t str m) str m)
    (then_ X (eval_to (ECond e e1 e2) t) str m).
Proof using Type.
  intros G1 G2 str m t. apply (after_operand k e t (t + 1) X _ (λ str m v h, if IsFalse v then eval str (regs m) e2 h else eval str (regs m) e1 h)).
  intros str' m0 v h m1 E Hv Hst Ha. rewrite Hv. destruct (IsFalse v); by apply (eval_to_after k).
Qed.

(** ** The instructions of the operators *)

Definition bin_opcode (o : binop) : SQOpcode :=
  match o with
  | Add => _OP_ADD | Sub => _OP_SUB | Mul => _OP_MUL | Div => _OP_DIV | Mod => _OP_MOD
  | BAnd | BOr | BXor | Shl | Shr | UShr => _OP_BITW
  | Eq => _OP_EQ | Ne => _OP_NE | Cmp3 | Lt | Gt | Le | Ge => _OP_CMP
  end.
Definition bin_arg (o : binop) : Z :=
  match o with
  | BAnd => BW_AND | BOr => BW_OR | BXor => BW_XOR | Shl => BW_SHIFTL | Shr => BW_SHIFTR | UShr => BW_USHIFTR
  | Cmp3 => CMP_3W | Lt => CMP_L | Gt => CMP_G | Le => CMP_LE | Ge => CMP_GE
  | _ => 0
  end.
Definition un_opcode (o : unop) : SQOpcode := match o with Neg => _OP_NEG | Not => _OP_NOT | BNot => _OP_BWNOT | TypeOf => _OP_TYPEOF end.

Lemma target_answer t m (x : option SQObject * H) : target t m x = outcome_of t (answer x) m.
Proof using Type. unfold target, outcome_of, answer. by destruct x as [[]]. Qed.

Lemma binary_step lits o t t1 t2 m :
  strict_step lits (mkI (bin_opcode o) t t2 t1 (bin_arg o)) m = outcome_of t (binary o (regs m t1) (regs m t2) (store m)) m.
Proof using Type.
  destruct o; try (rewrite strict_same by done; cbn; rewrite ?target_answer; done); [|by destruct m..].
  unfold strict_step, mod_fails. cbn. destruct (ARITH_OP "%" _ _ _) as [[v|] h]; done.
Qed.
Lemma unary_step lits o t t1 m : strict_step lits (mkI (un_opcode o) t t1 0 0) m = outcome_of t (answer (unary o (regs m t1) (store m))) m.
Proof using Type. rewrite strict_same by (by destruct o). destruct o; cbn; rewrite ?target_answer; by destruct m. Qed.
Lemma get_step lits t t1 t2 m : strict_step lits (mkI _OP_GET t t1 t2 0) m = outcome_of t (answer (get_ (regs m t1) (regs m t2) (t1 =? 0) (store m))) m.
Proof using Type. rewrite strict_same by done. cbn. by rewrite target_answer. Qed.

(** *** Joining *)

Lemma joins_other n' i : match iop i with _OP_JZ | _OP_GET | _OP_PREPCALL | _OP_EQ | _OP_NE | _OP_LOADNULLS | _OP_MOVE | _OP_LOAD => False | _ => True end →
  joins locals n' i.
Proof using Type. intros Hi pi _ _. unfold joinable, fused_target. by destruct (iop i). Qed.

Lemma joins_pair n' i a b : (iop i = _OP_GET ∧ a = arg1 i ∧ b = arg2 i) ∨ ((iop i = _OP_EQ ∨ iop i = _OP_NE) ∧ a = arg2 i ∧ b = arg1 i ∧ arg3 i = 0) →
  0 ≤ a < 256 → (base ≤ b → a ≠ b) → (base ≤ b → below n' b → b = arg0 i) → joins locals n' i.
Proof using Type.
  intros Hi Ha Hab Hb pi (Hp & _) Hg. unfold joinable, fused_target, sets.
  assert (∀ r, (if bool_decide (iop pi = _OP_LOAD) && (arg0 pi =? b) then Some (arg0 pi) else None) = Some r → (below n' r → r = arg0 i) ∧ base ≤ r) as Hr.
  { intros r. destruct (_ && _) eqn:E; [|done]. apply andb_true_iff in E as [Eo%bool_decide_eq_true Ea%Z.eqb_eq]. specialize (Hp ltac:(by rewrite Eo)).
    intros [= <-]. split; [|lia]. rewrite Ea in *. auto. }
  destruct Hi as [(-> & -> & ->)|([->| ->] & -> & -> & H3)]; (split; [|exact Hr]); intros Eo Ea; specialize (Hp ltac:(by rewrite Eo)); rewrite Ea in Hp; auto.
Qed.
Lemma joins_prepcall n' a b c d : c ≠ b → (below n' b → b = a ∨ b = d) → base ≤ b → joins locals n' (mkI _OP_PREPCALL a b c d).
Proof using Type.
  intros Hbc Hb Hbase pi (Hp & _) Hg. unfold joinable, fused_target, sets. cbn. split; [done|]. intros r. destruct (_ && _) eqn:E; [|done].
  apply andb_true_iff in E as [Eo%bool_decide_eq_true Ea%Z.eqb_eq]. intros [= <-]. rewrite Ea. split; [done|lia].
Qed.
Lemma joins_move n' t t1 : 0 ≤ t1 < 256 → t1 ≠ t → (base ≤ t1 → n' ≤ t1) → joins locals n' (mkI _OP_MOVE t t1 0 0).
Proof using Type.
  intros Ht Hne Hn pi (Hp & _) Hg. unfold joinable, fused_target, sets. cbn. split; [done|]. intros r. destruct (_ && _) eqn:E; [|done].
  apply andb_true_iff in E as [Eo Ea%Z.eqb_eq]. specialize (Hp Eo). intros [= <-]. split; [|lia]. unfold below. specialize (Hn ltac:(lia)). lia.
Qed.
Lemma joins_load n' t k : 0 ≤ k → joins locals n' (mkI _OP_LOAD t k 0 0).
Proof using Type. intros Hk pi _ _. done. Qed.
Lemma joins_null n' t : joins locals n' (mkI _OP_LOADNULLS t 1 0 0).
Proof using Type.
  intros pi (_ & _ & Hn) _. split; [|done]. unfold joinable. cbn. intros Eo. destruct (Hn Eo) as (? & ? & ?). split; [done|lia].
Qed.

(** Where the second of two operands is *)
Lemma place_second k e1 e2 : good e1 → good e2 → base ≤ place (temps_after k e1) e2 →
  place k e1 ≠ place (temps_after k e1) e2 ∧ base + Z.of_nat k ≤ place (temps_after k e1) e2.
Proof using Type.
  intros [_ Hv1] [_ Hv2] Hb. assert (place (temps_after k e1) e2 = base + Z.of_nat (temps_after k e1)) as -> by (destruct e2; cbn in *; try done; lia).
  unfold temps_after. destruct e1; cbn in *; lia.
Qed.

(** ** Calls *)

(** The member that is called, with the object as [this] *)
Definition prepare (t1 tk c s : Z) : sem := λ str m,
  match answer (get_ (regs m t1) (regs m tk) (t1 =? 0) (store m)) with
  | RVal v h => Goes (put c v (put s (regs m t1) (with_store h m)))
  | RThrow h => Stops (with_store h m)
  | RLost => Lost
  end.
Lemma does_prepare n n' w t1 tk c s : below n t1 → below n tk → base ≤ n → (∀ r, below n' r → r = c ∨ r = s ∨ below n r) →
  does locals n n' w (mkI _OP_PREPCALL c tk t1 s) (prepare t1 tk c s).
Proof using Type.
  intros H1 Hk Hb Hn str lits Hf m m' Ha. cbn [exec]. rewrite strict_same by done. cbn. unfold prepcall, prepare. cbn. pose proof Ha as [Hr Hst].
  rewrite (Hr t1 H1), (Hr tk Hk), Hst. destruct (get_ (regs m' t1) (regs m' tk) (t1 =? 0) (store m')) as [[v|] h]; cbn.
  - split; [done|]. split; [|done]. intros r Hbr. cbn. destruct (Z.eqb_spec r c); [done|]. destruct (Z.eqb_spec r s); [done|]. apply Hr. by destruct (Hn r Hbr) as [?|[?|?]].
  - by apply agree_with_store, (agree_below n).
Qed.

Definition calling (t c s n : Z) : sem := λ str m, of_result t (answer (call_ (regs m c) (regs m <$> seqZ s n) (store m))) m.
Lemma does_call n n' w t c s k : below n c → base ≤ s → 0 ≤ k → s + k ≤ n → 0 ≤ t < 255 → (∀ r, below n' r → r = t ∨ below n r ∧ r < s) →
  does locals n n' w (mkI _OP_CALL t c s k) (calling t c s k).
Proof using Type.
  intros Hc Hs Hk Hn Ht Hr str lits Hf m m' [Ha Hst]. cbn [exec]. rewrite strict_same by done. cbn. unfold call, calling. cbn.
  assert (0 ≤ base) by (unfold SqCompilerView.base; lia). assert (regs m <$> seqZ s k = regs m' <$> seqZ s k) as ->.
  { apply list_fmap_ext. intros i x Hx. apply lookup_seqZ in Hx as [-> Hx]. apply Ha. unfold below. lia. }
  rewrite (Ha c Hc), Hst. destruct (call_ (regs m' c) (regs m' <$> seqZ s k) (store m')) as [[v|] h]; cbn.
  - rewrite (proj2 (Z.eqb_neq t 255)) by lia. split; [done|]. split; [|done]. intros r Hbr. cbn. destruct (Z.eqb_spec r t); [done|].
    destruct (Hr r Hbr) as [?|[Hb Hlt]]; [done|]. rewrite (proj2 (Z.ltb_lt r s)) by done. by apply Ha.
  - split; [|done]. intros r Hbr. cbn. unfold below in Hbr. rewrite (proj2 (Z.ltb_lt r s)) by lia. apply Ha. unfold below. lia.
Qed.

(** The arguments, one register after the other *)
Fixpoint evals_to (args : list exp) (k : nat) : sem :=
  match args with [] => λ _ m, Goes m | a :: args => then_ (eval_to a (base + Z.of_nat k)) (evals_to args (S k)) end.

Lemma seqZ_cons_regs (m : mach) s n : 0 ≤ n → regs m <$> seqZ s (1 + n) = regs m s :: (regs m <$> seqZ (s + 1) n).
Proof using Type. intros Hn. rewrite seqZ_cons by lia. cbn. do 2 f_equal. f_equal; lia. Qed.

Lemma args_by_locals args ts : 0 < base → spells_args locals args ts → Forall by_locals args.
Proof using Type.
  intros Hbase. induction 1; [by constructor|..]; constructor; try done; by eapply spells_good.
Qed.
Lemma evals_by_locals args : Forall by_locals args → ∀ str R1 R2, same_locals R1 R2 → ∀ h : H, evals str R1 args h = evals str R2 args h.
Proof using Type.
  intros Hall str R1 R2 HR. induction Hall as [|a args Ha _ IH]; intros h; [done|]. cbn [evals]. apply rbind_ext; [by apply Ha|]. intros v h'. by apply rbind_ext.
Qed.

Lemma evals_to_spec args : Forall by_locals args → ∀ k str m,
  match evals str (regs m) args (store m), evals_to args k str m with
  | RVal vs h, Goes m' => agree (below (base + Z.of_nat k)) m' (with_store h m) ∧ regs m' <$> seqZ (base + Z.of_nat k) (Z.of_nat (length args)) = vs
  | RThrow h, Stops m' => agree (below base) m' (with_store h m)
  | RLost, Lost => True
  | _, _ => False
  end.
Proof using Type.
  induction 1 as [|a args Ha Hargs IH]; intros k str m; [by destruct m|]. cbn [evals evals_to]. unfold then_, eval_to.
  destruct (eval str (regs m) a (store m)) as [v h|h|]; cbn [rbind of_result seq]; [|done|done].
  set (m1 := put (base + Z.of_nat k) v (with_store h m)). assert (agree (below (base + Z.of_nat k)) m1 (with_store h m)) as A1.
  { eapply agree_mono; [|apply agree_put]. intros r Hr [= ->]. unfold below in Hr. lia. }
  specialize (IH (S k) str m1). rewrite (evals_by_locals args Hargs str (regs m1) (regs m)) in IH by (eapply (agree_locals _ m1 (with_store h m)); [|exact A1]; lia).
  change (store m1) with h in IH. destruct (evals str (regs m) args h) as [vs h2|h2|], (evals_to args (S k) str m1) as [m2|m2|]; try done; cbn [rbind].
  - destruct IH as [A2 Hvs]. split.
    + apply (agree_trans _ _ (with_store h2 m1)); [eapply agree_below; [|exact A2]; lia|]. by apply (agree_with_store _ _ _ h2) in A1.
    + cbn [length]. rewrite Nat2Z.inj_succ, <- Z.add_1_l, seqZ_cons_regs by lia. replace (base + Z.of_nat k + 1) with (base + Z.of_nat (S k)) by lia. rewrite Hvs. f_equal.
      destruct A2 as [Hr2 _]. rewrite Hr2 by (unfold below, SqCompilerView.base; lia). cbn. by rewrite Z.eqb_refl.
  - apply (agree_trans _ _ (with_store h2 m1)); [done|]. apply (agree_with_store _ _ _ h2) in A1. eapply agree_below; [|exact A1]. lia.
Qed.

(** A call with the [this] of the function, and one of a member *)
Lemma call_meaning k f args n' X : 0 < base → good f → Forall by_locals args → n' = base + Z.of_nat k + 1 → ∀ str m,
  let k1 := temps_after k f in
  same_run locals n'
    (then_ (then_ (then_ (then_ X (eval_to f (place k f))) (on_one 0 (base + Z.of_nat k1) RVal)) (evals_to args (S k1)))
       (calling (base + Z.of_nat k) (place k f) (base + Z.of_nat k1) (1 + Z.of_nat (length args))) str m)
    (then_ X (eval_to (ECall f args) (base + Z.of_nat k)) str m).
Proof using Type.
  intros Hbase Hs Hargs -> str m k1. unfold then_. destruct (X str m) as [m0|m0|]; cbn [seq]; [|apply same_run_refl..]. unfold eval_to. rewrite eval_call.
  destruct (eval str (regs m0) f (store m0)) as [v h|h|] eqn:E1; cbn [of_result seq rbind]; [|apply same_run_refl..].
  set (m1 := put (place k f) v (with_store h m0)). assert (agree (below (base + Z.of_nat k)) m1 (with_store h m0)) as A1 by (by eapply put_place).
  unfold on_one. cbn [of_result seq]. set (m2 := put (base + Z.of_nat k1) (regs m1 0) (with_store (store m1) m1)).
  assert (agree (below (base + Z.of_nat k1)) m2 m1) as A2.
  { eapply agree_mono; [|apply (agree_put (base + Z.of_nat k1) _ (with_store (store m1) m1))]. intros r Hr [= ->]. unfold below in Hr. lia. }
  assert (k ≤ k1)%nat as Hk1 by (unfold k1, temps_after; destruct (is_var f); lia).
  assert (agree (below (base + Z.of_nat k)) m2 (with_store h m0)) as A3 by (eapply agree_trans; [eapply agree_below; [|exact A2]; lia|done]).
  pose proof (evals_to_spec args Hargs (S k1) str m2) as Hev.
  rewrite (evals_by_locals args Hargs str (regs m2) (regs m0)) in Hev by (eapply (agree_locals _ m2 (with_store h m0)); [|exact A3]; lia). change (store m2) with h in Hev.
  destruct (evals str (regs m0) args h) as [vs h2|h2|], (evals_to args (S k1) str m2) as [m3|m3|]; try done; cbn [rbind seq].
  - destruct Hev as [A4 Hvs]. unfold calling. rewrite seqZ_cons_regs by lia. replace (base + Z.of_nat k1 + 1) with (base + Z.of_nat (S k1)) by lia. rewrite Hvs.
    pose proof (place_bound k _ Hs) as Hp. fold k1 in Hp. destruct A4 as [Hr4 Hs4]. rewrite Hs4. cbn [store with_store].
    assert (regs m3 (place k f) = v) as ->.
    { destruct A2 as [Hr2 _]. etrans; [apply Hr4; unfold below in *; lia|]. etrans; [by apply Hr2|]. apply put_same. }
    assert (regs m3 (base + Z.of_nat k1) = regs m0 0) as ->.
    { destruct A1 as [Hr1 _]. etrans; [apply Hr4; unfold below; lia|]. etrans; [apply put_same|]. apply Hr1. unfold below. lia. }
    assert (∀ h', agree (below (base + Z.of_nat k)) (with_store h' m3) (with_store h' m0)) as A5.
    { intros h'. split; [|done]. intros r Hr. destruct A3 as [Hr3 _]. etrans; [apply Hr4; unfold below in *; lia|]. by apply Hr3. }
    destruct (answer _) as [u h3|h3|]; cbn [of_result]; [| |done].
    + split; [done|]. eapply agree_put_same; [apply A5|]. unfold below. intros r Hr. lia.
    + eapply agree_below; [|apply A5]. lia.
  - apply (agree_trans _ _ (with_store h2 m2)); [done|]. apply (agree_with_store _ _ _ h2) in A3. eapply agree_below; [|exact A3]. lia.
Qed.

Lemma place_this k e : 0 < base → (place k e =? 0) = is_this e.
Proof using Type. intros Hb. destruct e as [| | | |[]| | | | | | | | |]; cbn [place is_this]; try done; apply Z.eqb_neq; lia. Qed.

Lemma method_meaning k e x args n' X : 0 < base → good e → Forall by_locals args → n' = base + Z.of_nat k + 1 → ∀ str m,
  let k1 := temps_after k e in
  same_run locals n'
    (then_ (then_ (then_ (then_ (then_ X (eval_to e (place k e))) (eval_to (EString x) (base + Z.of_nat k1)))
                     (prepare (place k e) (base + Z.of_nat k1) (base + Z.of_nat k) (base + Z.of_nat (S k)))) (evals_to args (S (S k))))
       (calling (base + Z.of_nat k) (base + Z.of_nat k) (base + Z.of_nat (S k)) (1 + Z.of_nat (length args))) str m)
    (then_ X (eval_to (EMethod e x args) (base + Z.of_nat k)) str m).
Proof using Type.
  intros Hbase Hs Hargs -> str m k1. unfold then_. destruct (X str m) as [m0|m0|]; cbn [seq]; [|apply same_run_refl..]. unfold eval_to. rewrite eval_method.
  destruct (eval str (regs m0) e (store m0)) as [v h|h|] eqn:E1; cbn [of_result seq rbind]; [|apply same_run_refl..].
  set (m1 := put (place k e) v (with_store h m0)). assert (agree (below (base + Z.of_nat k)) m1 (with_store h m0)) as A1 by (by eapply put_place).
  cbn [eval of_result seq]. set (m2 := put (base + Z.of_nat k1) (str x) (with_store (store m1) m1)).
  assert (k ≤ k1)%nat as Hk1 by (unfold k1, temps_after; destruct (is_var e); lia).
  assert (agree (below (base + Z.of_nat k)) m2 (with_store h m0)) as A2.
  { apply (agree_trans _ _ (with_store (store m1) m1)); [|done]. eapply agree_mono; [|apply agree_put]. intros r Hr [= ->]. unfold below in Hr. lia. }
  assert (regs m2 (place k e) = v) as Ev.
  { pose proof (place_bound k _ Hs) as Hp. fold k1 in Hp. etrans; [apply put_other; unfold below in Hp; lia|]. change (regs m1 (place k e) = v). apply put_same. }
  unfold prepare. rewrite Ev, place_this by done. assert (regs m2 (base + Z.of_nat k1) = str x) as -> by apply put_same. change (store m2) with h.
  destruct (answer (get_ v (str x) (is_this e) h)) as [f h2|h2|]; cbn [seq rbind]; [| |done].
  2: { apply (agree_with_store _ _ _ h2) in A2. cbn. eapply agree_below; [|exact A2]. lia. }
  set (m3 := put (base + Z.of_nat k) f (put (base + Z.of_nat (S k)) v (with_store h2 m2))).
  assert (agree (below (base + Z.of_nat k)) m3 (with_store h2 m0)) as A3.
  { apply (agree_with_store _ _ _ h2) in A2. eapply agree_trans; [|exact A2]. split; [|done]. intros r Hr. unfold below in Hr. unfold m3. by rewrite !put_other by lia. }
  pose proof (evals_to_spec args Hargs (S (S k)) str m3) as Hev.
  rewrite (evals_by_locals args Hargs str (regs m3) (regs m0)) in Hev by (eapply (agree_locals _ m3 (with_store h2 m0)); [|exact A3]; lia). change (store m3) with h2 in Hev.
  destruct (evals str (regs m0) args h2) as [vs h3|h3|], (evals_to args (S (S k)) str m3) as [m4|m4|]; try done; cbn [rbind seq].
  2: { apply (agree_trans _ _ (with_store h3 m3)); [done|]. apply (agree_with_store _ _ _ h3) in A3. eapply agree_below; [|exact A3]. lia. }
  destruct Hev as [[Hr4 Hs4] Hvs]. unfold calling. rewrite seqZ_cons_regs by lia. replace (base + Z.of_nat (S k) + 1) with (base + Z.of_nat (S (S k))) by lia. rewrite Hvs, Hs4.
  assert (regs m4 (base + Z.of_nat k) = f) as -> by (etrans; [apply Hr4; unfold below; lia|]; apply put_same).
  assert (regs m4 (base + Z.of_nat (S k)) = v) as -> by (etrans; [apply Hr4; unfold below; lia|]; etrans; [apply put_other; lia|]; apply put_same).
  assert (∀ h', agree (below (base + Z.of_nat k)) (with_store h' m4) (with_store h' m0)) as A5.
  { intros h'. split; [|done]. intros r Hr. destruct A3 as [Hr3 _]. etrans; [apply Hr4; unfold below in *; lia|]. by apply Hr3. }
  cbn [store with_store]. destruct (answer (call_ _ _ _)) as [u h4|h4|]; cbn [of_result]; [| |done].
  - split; [done|]. eapply agree_put_same; [apply A5|]. unfold below. intros r Hr. lia.
  - eapply agree_below; [|apply A5]. lia.
Qed.
End eval_code.
