(* ===== verification/SqCompilerExpr.v ===== *)
(** * Expressions are compiled right

    For every way of writing an expression, the functions of the grammar read it
    and emit instructions that put its value into a register, or throw what its
    evaluation throws. *)

From Stdlib Require Import Ascii.
From stdpp Require Import base numbers gmap strings option list.
From S2P Require Import Prelude CType SqObject SqArrayLib SqString SqLexer SqLexerSpec SqLexerRound SqKeywords SqFuncState SqCompiler SqCompilerEnds SqVm SqPeephole SqCompilerRead SqExpression SqCompilerView SqCompilerCode SqCompilerEval.

Open Scope Z_scope.

(** The branch of a [switch] over a known token *)
Ltac pick := cbn [switch]; repeat
  lazymatch goal with
  | |- context [if ?b then ?x else ?y] =>
      let v := eval vm_compute in b in
      lazymatch v with
      | true => change (if b then x else y) with x
      | false => change (if b then x else y) with y
      end
  end.

(** ** What follows an expression *)

(** How far an operator reaches: one more than the level of the function that reads on
    at its token. *)
Definition reach (k : Z) : nat :=
  switch k
    [(ch "?", 1); (TK_OR, 2); (TK_AND, 3); (ch "|", 4); (ch "^", 5); (ch "&", 6); (TK_EQ, 7); (TK_NE, 7); (TK_3WAYSCMP, 7);
     (ch "<", 8); (ch ">", 8); (TK_LE, 8); (TK_GE, 8); (TK_IN, 8); (TK_INSTANCEOF, 8); (TK_SHIFTL, 9); (TK_SHIFTR, 9); (TK_USHIFTR, 9);
     (ch "+", 10); (ch "-", 10); (ch "*", 11); (ch "/", 11); (ch "%", 11); (ch ".", 12); (ch "[", 12); (ch "(", 12);
     (ch "=", 99); (TK_NEWSLOT, 99); (TK_MODEQ, 99); (TK_MULEQ, 99); (TK_DIVEQ, 99); (TK_MINUSEQ, 99); (TK_PLUSEQ, 99);
     (TK_PLUSPLUS, 99); (TK_MINUSMINUS, 99)]%nat 0%nat.
Definition head_code (ts : list tok) : Z := match ts with [] => 0 | (t, _) :: _ => code_of t end.
Definition follows (n : nat) (p : bool) (rest : list tok) : Prop :=
  (reach (head_code rest) ≤ n)%nat ∧ (head_code rest = ch "(" → p = true).

Section expr.
Context {KT : KeywordTable} {FR : FloatReader} {AL : Allocator} {H : Type} {RT : Runtime H}.
Context (_sourcename : SQObject) (_lineinfo : bool) (locals : list (list ascii)) {asd : aside}.
Abbreviation base := (base locals).
Abbreviation shows := (shows locals (asd := asd)).
Abbreviation emitted := (emitted locals).
Abbreviation place := (place locals).
Abbreviation good := (good (H := H) locals).
Abbreviation parse := (parse _sourcename _lineinfo).

Lemma shows_token c w : shows c w → _token c = head_code (w_ts w).
Proof using Type. intros Hs. pose proof (sh_ts _ _ _ Hs) as Ht. unfold stands in Ht. destruct (w_ts w) as [|[t ws] rest]; [done|]. by destruct Ht as (_ & -> & _). Qed.

(** ** Steps *)

Record emits (i : instruction) (w : view) (code : list instruction) (opt : bool) : Prop := {
  em_length : (length code ≤ S (length (w_code w)))%nat;
  em_cmp : ∀ pi, opt = true → last code = Some pi → iop pi = _OP_CMP → pi = i;
  em_code : ∀ pre n n' X f, emitted pre n w X → joins locals n' i → does locals n n' w i f → emitted pre n' (set_code code opt w) (then_ X f)
}.
Lemma runs_emits c w o a0 a1 a2 a3 : shows c w → 0 ≤ a0 < 256 → - 2 ^ 31 ≤ a1 < 2 ^ 31 → 0 ≤ a2 < 256 → 0 ≤ a3 < 256 →
  goes_on o = true → o ≠ _OP_LINE → plain locals (mkI o a0 a1 a2 a3) → (o = _OP_LOADNULLS → a1 = 1) →
  runs (emit o a0 a1 a2 a3) c (λ _ c', ∃ code opt, shows c' (set_code code opt w) ∧ emits (mkI o a0 a1 a2 a3) w code opt).
Proof using Type.
  intros Hs H0 H1 H2 H3 Hg Hl Hp Hn. eapply runs_mono; [by apply (runs_emit locals _ _ _ _ _ _ _ Hs)|]. intros [] c' (code & opt & Hs' & Ha). exists code, opt. split; [done|].
  destruct (added_last _ _ _ _ _ _ Ha) as (l & j & -> & Hlen & Hcmp & _). split.
  - rewrite length_app. cbn [length]. lia.
  - intros pi _ Hlast Hop. rewrite last_snoc in Hlast. injection Hlast as ->. by apply Hcmp.
  - intros pre n n' X f Hem Hj Hd. by eapply (emitted_add locals pre n n').
Qed.

(** Reading a fixed token, and a name *)
Lemma runs_expect c w t ws rest k : shows c w → w_ts w = (t, ws) :: rest → code_of t = k →
  forallb (λ x, negb (k =? x)) [TK_IDENTIFIER; TK_STRING_LITERAL; TK_INTEGER; TK_FLOAT] = true →
  runs (expect_ k) c (λ _ c', ∃ p, shows c' (set_ts rest p w) ∧ (rest ≠ [] → p = prev_behind (code_of t) ws)).
Proof using Type.
  intros Hs Ew Hk Hv. unfold expect_, Expect. apply runs_bind, runs_bind, runs_token. rewrite (shows_token _ _ Hs), Ew. cbn [head_code]. rewrite Hk, Z.eqb_refl. cbn [negb andb].
  apply runs_bind, runs_when; [done|intros _]. cbn in Hv. rewrite !andb_true_iff, !negb_true_iff in Hv. cbn [switch]. destruct Hv as (-> & -> & -> & -> & _).
  apply runs_bind, runs_ret, runs_bind. eapply runs_mono; [by apply (runs_Lex locals c w t ws rest)|]. intros [] c' (p & Hs' & Hp). apply runs_ret, runs_ret. exists p. by rewrite <- Hk.
Qed.
Lemma name_code x : is_name x = true → code_of (SName x) = TK_IDENTIFIER.
Proof using Type. intros Hx%bool_decide_eq_true. unfold code_of, expected. cbn [tk]. by rewrite Hx. Qed.
Lemma runs_expect_name c w x ws rest : shows c w → w_ts w = (SName x, ws) :: rest → is_name x = true →
  runs (Expect TK_IDENTIFIER) c (λ o c', ∃ sm a p, shows c' (set_ts rest p (set_strs sm w)) ∧ w_strs w ⊆ sm ∧ o = string_key a ∧ sm !! a = Some x ∧
    (rest ≠ [] → p = prev_behind (code_of (SName x)) ws)).
Proof using Type.
  intros Hs Ew Hx. unfold Expect. apply runs_bind, runs_token. rewrite (shows_token _ _ Hs), Ew. cbn [head_code]. rewrite (name_code x Hx), Z.eqb_refl. cbn [negb andb].
  apply runs_bind, runs_when; [done|intros _]. pick. apply runs_bind. eapply runs_mono; [by eapply (runs_identifier locals c w x ws rest)|].
  intros o c1 (sm & a & Hs1 & Hsub & -> & Ha). apply runs_bind. eapply runs_mono; [by apply (runs_Lex locals c1 _ (SName x) ws rest Hs1)|]. intros [] c2 (p & Hs2 & Hp). apply runs_ret.
  rewrite (name_code x Hx) in Hp. by exists sm, a, p.
Qed.

(** ** What it means to have read an expression *)

(** The literals and the strings only grow, and each token leaves so much behind at
    most; [n] instructions fewer than they may were emitted. *)
Record grown (n : nat) (w w' : view) : Prop := {
  gr_strs : w_strs w ⊆ w_strs w';
  gr_lits : w_lits w `prefix_of` w_lits w';
  gr_count : (length (w_lits w') + length (w_ts w') ≤ length (w_lits w) + length (w_ts w))%nat;
  gr_code : (length (w_code w') + n + 4 * length (w_ts w') ≤ length (w_code w) + 4 * length (w_ts w))%nat
}.
Definition room (w : view) : Prop :=
  Z.of_nat (length (w_lits w) + length (w_ts w)) < 2 ^ 31 - 1 ∧ Z.of_nat (length (w_code w) + 4 * length (w_ts w)) < 2 ^ 31.
Definition no_cmp (w : view) : Prop := ∀ pi, w_opt w = true → last (w_code w) = Some pi → iop pi ≠ _OP_CMP.

Record ready (b : bool) (e : exp) (ts rest : list tok) (w : view) : Prop := {
  rd_ts : w_ts w = ts ++ rest;
  rd_width : base + Z.of_nat (w_temps w) + Z.of_nat (width e) ≤ 255;
  rd_room : room w;
  rd_testable : testable b e = true;
  rd_cmp : b = false → no_cmp w
}.

Record done_with (e : exp) (p : bool) (ts rest : list tok) (w w' : view) : Prop := {
  dw_ts : w_ts w' = rest;
  dw_targets : w_targets w' = w_targets w ++ [place (w_temps w) e];
  dw_temps : w_temps w' = temps_after (w_temps w) e;
  dw_grown : grown 0 w w';
  dw_var : is_var e = true → w_code w' = w_code w ∧ w_opt w' = w_opt w;
  dw_cmp : is_var e = false → ∀ pi, w_opt w' = true → last (w_code w') = Some pi → iop pi = _OP_CMP →
    leaves_cmp false e = true ∧ arg0 pi = place (w_temps w) e;
  dw_etype : p = true → w_etype w' = EXPR ∨ w_etype w' = LOCAL;
  dw_prev : rest ≠ [] → w_prev w' = prev_of ts;
  dw_code : ∀ pre X, emitted pre (base + Z.of_nat (w_temps w)) w X →
    emitted pre (base + Z.of_nat (w_temps w')) w' (then_ X (eval_to e (place (w_temps w) e)))
}.

Lemma grown_trans n1 n2 n w1 w2 w3 : grown n1 w1 w2 → grown n2 w2 w3 → (n ≤ n1 + n2)%nat → grown n w1 w3.
Proof using Type. intros [] [] Hn. split; [by etrans|by etrans|lia|lia]. Qed.
Lemma room_grown n w w' : grown n w w' → room w → room w'.
Proof using Type. intros [_ _ Hc Hi] [H1 H2]. split; lia. Qed.
Lemma grown_pass n w w' : w_strs w' = w_strs w → w_lits w' = w_lits w → w_code w' = w_code w → (n + length (w_ts w') ≤ length (w_ts w))%nat → grown (4 * n) w w'.
Proof using Type. intros Es El Ec Hn. split; rewrite ?Es, ?El, ?Ec; [done|done|lia|lia]. Qed.
Lemma no_cmp_after b e p ts rest w w' : done_with e p ts rest w w' → (b = false → no_cmp w) → leaves_cmp b e = false → no_cmp w'.
Proof using Type.
  intros Hd Hb Hl pi Ho Hlast Hop. destruct (is_var e) eqn:Ev.
  - destruct (dw_var _ _ _ _ _ _ Hd Ev) as [Ec Eo]. rewrite Ec in Hlast. rewrite Eo in Ho. assert (b = false) as -> by (by destruct e). by apply (Hb eq_refl pi).
  - destruct (dw_cmp _ _ _ _ _ _ Hd Ev pi Ho Hlast Hop) as [Hc _]. destruct e; try done; cbn in *; congruence.
Qed.

(** ** Constants *)

Lemma place_temp k e : is_var e = false → place k e = base + Z.of_nat k ∧ temps_after k e = S k.
Proof using Type. by destruct e. Qed.
Lemma base_pos : 0 ≤ base.
Proof using Type. unfold SqCompilerView.base. lia. Qed.
Lemma put_store (m : machine (H := H)) t v : put t v (with_store (store m) m) = put t v m.
Proof using Type. by destruct m. Qed.
Lemma below_next k r : below (base + Z.of_nat (S k)) r → r = base + Z.of_nat k ∨ below (base + Z.of_nat k) r.
Proof using Type. unfold below. lia. Qed.

Lemma does_constant w i k e v : (∀ str lits m, fits str lits w → step lits i m = Next (put (base + Z.of_nat k) (v str) m)) → iop i ≠ _OP_MOD →
  (∀ str R (h : H), eval str R e h = RVal (v str) h) → does locals (base + Z.of_nat k) (base + Z.of_nat (S k)) w i (eval_to e (base + Z.of_nat k)).
Proof using Type.
  intros Hi Ho He. pose proof base_pos. apply does_target; [..|lia].
  - intros str lits m Hf. rewrite strict_same, (Hi str lits m Hf), He by done. cbn. by rewrite put_store.
  - intros str m m' [_ Hs]. by rewrite !He, Hs.
  - intros r. apply below_next.
Qed.
Lemma does_int w k e z : (∀ str R (h : H), eval str R e h = RVal (sq_int z) h) →
  does locals (base + Z.of_nat k) (base + Z.of_nat (S k)) w (mkI _OP_LOADINT (base + Z.of_nat k) z 0 0) (eval_to e (base + Z.of_nat k)).
Proof using Type. intros He. by apply does_constant with (v := λ _, sq_int z). Qed.
Lemma does_literal w k e i (o : (list ascii → SQObject) → SQObject) :
  (∀ str lits, fits str lits w → w_lits w !! Z.to_nat i = Some (o str)) → (∀ str R (h : H), eval str R e h = RVal (o str) h) →
  does locals (base + Z.of_nat k) (base + Z.of_nat (S k)) w (mkI _OP_LOAD (base + Z.of_nat k) i 0 0) (eval_to e (base + Z.of_nat k)).
Proof using Type.
  intros Ho He. apply does_constant with (v := o); [|done|done]. intros str lits m Hf. cbn. unfold literal. specialize (Ho str lits Hf). destruct Hf as [_ Hpre].
  by rewrite (prefix_lookup_Some _ _ _ _ Ho Hpre).
Qed.

(** One token was read and one register loaded. *)
Lemma done_load e p ts rest w w1 w' i : is_var e = false → ts ≠ [] → w_ts w = ts ++ rest → w_ts w' = rest →
  w_targets w' = w_targets w ++ [base + Z.of_nat (w_temps w)] → w_temps w' = S (w_temps w) →
  w_strs w ⊆ w_strs w1 → w_lits w `prefix_of` w_lits w1 → (length (w_lits w1) ≤ S (length (w_lits w)))%nat →
  w_code w1 = w_code w → w_opt w1 = w_opt w → emits i w1 (w_code w') (w_opt w') → w_strs w' = w_strs w1 → w_lits w' = w_lits w1 →
  iop i ≠ _OP_CMP → (p = true → w_etype w' = EXPR) → (rest ≠ [] → w_prev w' = prev_of ts) →
  joins locals (base + Z.of_nat (S (w_temps w))) i →
  does locals (base + Z.of_nat (w_temps w)) (base + Z.of_nat (S (w_temps w))) w1 i (eval_to e (base + Z.of_nat (w_temps w))) →
  done_with e p ts rest w w'.
Proof using Type.
  intros Hv Hts Ets Ets' Etg Etm Hstr Hlit Hlen Ec Eo [Hel Hecmp Hecode] Es El Hcmp Het Hprev Hj Hd. destruct (place_temp (w_temps w) e Hv) as [Ep Et].
  assert (1 ≤ length ts)%nat by (destruct ts; [done|cbn; lia]). split; rewrite ?Ep; try done; [congruence| |congruence| | |].
  - split; rewrite ?Es, ?El, ?Ets, ?Ets', ?length_app; try done; [lia|]. rewrite Ec in Hel. lia.
  - intros _ pi Ho Hl Hop. by rewrite <- (Hecmp pi Ho Hl Hop) in Hcmp.
  - intros Hp. left. auto.
  - intros pre X Hem. rewrite Etm. apply (emitted_grow _ _ _ (set_code (w_code w') (w_opt w') w1)); [|by rewrite Es|by rewrite El|done|done].
    eapply Hecode; [|exact Hj|exact Hd]. by apply (emitted_grow _ _ _ w).
Qed.

(** A register is allocated and loaded. *)
Record loads (e : exp) (w w1 : view) (i : instruction) (code : list instruction) (opt : bool) : Prop := {
  ld_ts : w_ts w1 = w_ts w;
  ld_prev : w_prev w1 = w_prev w;
  ld_targets : w_targets w1 = w_targets w ++ [base + Z.of_nat (w_temps w)];
  ld_temps : w_temps w1 = S (w_temps w);
  ld_strs : w_strs w ⊆ w_strs w1;
  ld_lits : w_lits w `prefix_of` w_lits w1;
  ld_count : (length (w_lits w1) ≤ S (length (w_lits w)))%nat;
  ld_code : w_code w1 = w_code w;
  ld_opt : w_opt w1 = w_opt w;
  ld_emits : emits i w1 code opt;
  ld_cmp : iop i ≠ _OP_CMP;
  ld_joins : joins locals (base + Z.of_nat (S (w_temps w))) i;
  ld_does : does locals (base + Z.of_nat (w_temps w)) (base + Z.of_nat (S (w_temps w))) w1 i (eval_to e (base + Z.of_nat (w_temps w)))
}.
Lemma loads_done e p ts rest w w1 i code opt w' : loads e w w1 i code opt → is_var e = false → ts ≠ [] → w_ts w = ts ++ rest → w_ts w' = rest →
  w_targets w' = w_targets w1 → w_temps w' = w_temps w1 → w_strs w' = w_strs w1 → w_lits w' = w_lits w1 → w_code w' = code → w_opt w' = opt →
  (p = true → w_etype w' = EXPR) → (rest ≠ [] → w_prev w' = prev_of ts) → done_with e p ts rest w w'.
Proof using Type.
  intros [] Hv Hts E1 E2 E3 E4 E5 E6 E7 E8 Het Hp. subst code opt. eapply (done_load e p ts rest w w1 w' i); try done; congruence.
Qed.

Abbreviation gives Q := (λ _ c', ∃ w1 i code opt, shows c' (set_code code opt w1) ∧ Q w1 i code opt).

Lemma temp_range w e : base + Z.of_nat (w_temps w) + Z.of_nat (width e) ≤ 255 → (1 ≤ width e)%nat → 0 ≤ base + Z.of_nat (w_temps w) < 255.
Proof using Type. pose proof base_pos. lia. Qed.
Lemma plain_temp o k a1 a2 a3 : o ≠ _OP_CMP → o ≠ _OP_LOADNULLS → plain locals (mkI o (base + Z.of_nat k) a1 a2 a3).
Proof using Type. intros. unfold plain. cbn. split_and!; [lia|done|done]. Qed.

(** Loading a literal *)
Lemma runs_load_literal c w o e (v : (list ascii → SQObject) → SQObject) : shows c w → 0 ≤ base + Z.of_nat (w_temps w) < 255 → room w → w_ts w ≠ [] →
  live_in (w_strs w) o → is_null o = false → (∀ str lits, fits str lits w → v str = o) → (∀ str R (h : H), eval str R e h = RVal (v str) h) →
  runs (n ← fs NewTarget; k ← add_literal o; emit _OP_LOAD n k 0 0) c (gives (loads e w)).
Proof using Type.
  intros Hs Hk [Hroom _] Hts Hl Hn Hv He. apply runs_bind. eapply runs_mono; [apply (runs_NewTarget locals c w Hs); lia|]. intros r c1 [-> Hs1].
  apply runs_bind. eapply runs_mono; [apply (runs_add_literal locals _ _ o Hs1 Hl Hn); cbn; destruct (w_ts w); [done|cbn in *; lia]|].
  intros i c2 (ls & Hs2 & Hpre & Hlen & Hi & Hlk). cbn in Hpre, Hlen. eapply runs_mono; [apply (runs_emits c2 _ _ _ _ _ _ Hs2); try lia; try done; by apply plain_temp|].
  intros [] c3 (code & opt & Hs3 & Hem). eexists _, _, code, opt. split; [exact Hs3|]. split; cbn; try done; [apply joins_load; lia|].
  apply does_literal with (o := v); [|done]. intros str lits [Hf1 Hf2]. cbn in *. rewrite (Hv str lits); [done|]. split; [done|]. by etrans.
Qed.

(** Loading an integer *)
Lemma runs_load_int c w e z : shows c w → 0 ≤ base + Z.of_nat (w_temps w) < 255 → room w → w_ts w ≠ [] → - 2 ^ 31 ≤ z < 2 ^ 31 →
  (∀ str R (h : H), eval str R e h = RVal (sq_int z) h) → runs (EmitLoadConstInt z (-1)) c (gives (loads e w)).
Proof using Type.
  intros Hs Hk [Hroom _] Hts Hz He. unfold EmitLoadConstInt. apply runs_bind. change (-1 <? 0) with true. cbn iota.
  eapply runs_mono; [apply (runs_NewTarget locals c w Hs); lia|]. intros r c1 [-> Hs1]. destruct (_ && _).
  - eapply runs_mono; [apply (runs_emits c1 _ _ _ _ _ _ Hs1); try lia; try done; by apply plain_temp|]. intros [] c2 (code & opt & Hs2 & Hem).
    eexists _, _, code, opt. split; [exact Hs2|]. split; cbn; try done; try lia; by apply does_int.
  - apply runs_bind. eapply runs_mono; [apply (runs_add_literal locals _ _ (sq_int z) Hs1); [done|done|]; cbn; destruct (w_ts w); [done|cbn in *; lia]|].
    intros i c2 (ls & Hs2 & Hpre & Hlen & Hi & Hlk). cbn in Hpre, Hlen. eapply runs_mono; [apply (runs_emits c2 _ _ _ _ _ _ Hs2); try lia; try done; by apply plain_temp|].
    intros [] c3 (code & opt & Hs3 & Hem). eexists _, _, code, opt. split; [exact Hs3|]. split; cbn; try done; [apply joins_load; lia|].
    by apply does_literal with (o := λ _, sq_int z).
Qed.

(** *** Reading a constant *)

Definition reads_exp (m : cM ()) (n : nat) (p : bool) (e : exp) (ts : list tok) : Prop := ∀ c w rest b,
  shows c w → ready b e ts rest w → follows n p rest → runs m c (λ _ c', ∃ w', shows c' w' ∧ done_with e p ts rest w w').

Lemma prev_ok t ws (rest : list tok) p : (rest ≠ [] → p = prev_behind (code_of t) ws) → ∀ ts : list tok, last ts = Some (t, ws) → rest ≠ [] → p = prev_of ts.
Proof using Type. intros Hp ts Hl Hr. unfold prev_of. rewrite Hl. auto. Qed.

(** After the load: the token is passed, and the expression is a value. *)
Lemma load_then_lex c w c1 w1 e i code opt t ws rest : shows c w → w_ts w = (t, ws) :: rest → is_var e = false →
  shows c1 (set_code code opt w1) → loads e w w1 i code opt →
  runs Lex c1 (λ _ c2, runs (set_etype EXPR) c2 (λ _ c', ∃ w', shows c' w' ∧ done_with e true [(t, ws)] rest w w')).
Proof using Type.
  intros Hs Ew Hv Hs1 Hl. pose proof (ld_ts _ _ _ _ _ _ Hl) as Ets. eapply runs_mono; [apply (runs_Lex locals c1 _ t ws rest Hs1); cbn; congruence|].
  intros [] c2 (p & Hs2 & Hp). eapply runs_mono; [by apply (runs_set_etype locals _ _ EXPR Hs2)|]. intros [] c3 Hs3. eexists. split; [exact Hs3|].
  eapply (loads_done e true [(t, ws)] rest w w1 i); try done.
Qed.

(** A token that was passed first *)
Lemma room_skip w u ts p : w_ts w = u :: ts → room w → room (set_ts ts p w).
Proof using Type. intros Ew [H1 H2]. rewrite Ew in *. split; cbn in *; lia. Qed.
Lemma done_skip e p u ts rest q w w' : done_with e p ts rest (set_ts (ts ++ rest) q w) w' → w_ts w = u :: ts ++ rest → ts ≠ [] → done_with e p (u :: ts) rest w w'.
Proof using Type.
  intros [] Ew Hts. split; try done.
  - destruct dw_grown0 as [? ? Hc Hi]. split; [done|done|..]; rewrite Ew; cbn in *; lia.
  - intros Hr. rewrite prev_of_cons by done. auto.
Qed.

Lemma nvalue_of c w t n ws rest : shows c w → w_ts w = (t, ws) :: rest → number_of t = Some n → _nvalue (_lex c) = Z.of_nat n ∧ Z.of_nat n < 2 ^ 31 ∧ code_of t = TK_INTEGER.
Proof using Type.
  intros Hs Ew Hn. pose proof (sh_ts _ _ _ Hs) as Ht. rewrite Ew in Ht. destruct Ht as (_ & Hk & Hval & _). rewrite Hk in Hval.
  destruct t as [|k| |a|]; try done; cbn in Hn.
  - destruct (Z.ltb_spec (Z.of_nat k) (2 ^ 31)) as [Hlt|]; [|done]. injection Hn as ->. cbn in Hval. injection Hval as ->. rewrite s32_small by lia. done.
  - injection Hn as <-. cbn in Hval. injection Hval as ->. pose proof (char_code_range a). rewrite Z2Nat.id by lia. split; [done|]. split; [lia|done].
Qed.

(** ** Two operands *)

Record operands (e1 e2 : exp) (rest : list tok) (w w2 : view) : Prop := {
  op_ts : w_ts w2 = rest;
  op_targets : w_targets w2 = w_targets w ++ [place (w_temps w) e1; place (temps_after (w_temps w) e1) e2];
  op_temps : w_temps w2 = temps_after (temps_after (w_temps w) e1) e2;
  op_grown : grown 3 w w2;
  op_code : ∀ pre X, emitted pre (base + Z.of_nat (w_temps w)) w X →
    emitted pre (base + Z.of_nat (w_temps w2)) w2
      (then_ (then_ X (eval_to e1 (place (w_temps w) e1))) (eval_to e2 (place (temps_after (w_temps w) e1) e2)))
}.

(** Tokens are passed. *)
Record passes (n : nat) (w w' : view) : Prop := {
  ps_targets : w_targets w' = w_targets w;
  ps_temps : w_temps w' = w_temps w;
  ps_code : w_code w' = w_code w;
  ps_opt : w_opt w' = w_opt w;
  ps_lits : w_lits w' = w_lits w;
  ps_strs : w_strs w' = w_strs w;
  ps_ts : (n + length (w_ts w') ≤ length (w_ts w))%nat
}.
Lemma passes_grown n w w' : passes n w w' → grown (4 * n) w w'.
Proof using Type. intros []. by apply grown_pass. Qed.
Lemma passes_emitted n w w' pre k X : passes n w w' → emitted pre k w X → emitted pre k w' X.
Proof using Type. intros [] Hem. apply (emitted_grow _ _ _ w); [done|by rewrite ps_strs0|by rewrite ps_lits0|done|done]. Qed.

Lemma operands_done e1 e2 p1 ts1 rest1 p2 ts2 rest2 w w1 w1' w2 n w2' : done_with e1 p1 ts1 rest1 w w1 → passes 1 w1 w1' → done_with e2 p2 ts2 rest2 w1' w2 →
  passes n w2 w2' → operands e1 e2 (w_ts w2') w w2'.
Proof using Type.
  intros [] Hp [] Hq. pose proof (passes_grown _ _ _ Hp) as Hg1. pose proof (passes_grown _ _ _ Hq) as Hg2. pose proof Hp as [Et Em _ _ _ _ _]. pose proof Hq as [Et2 Em2 _ _ _ _ _].
  rewrite Em, dw_temps0 in *. split; [done| |congruence| |].
  - by rewrite Et2, dw_targets1, Et, dw_targets0, <- app_assoc.
  - apply (grown_trans 0 4 3 w w1); [done| |lia]. apply (grown_trans 4 0 4 w1 w1'); [done| |lia]. apply (grown_trans 0 (4 * n) 0 w1' w2); [done|done|lia].
  - intros pre X Hem. rewrite Em2. apply (passes_emitted _ _ _ _ _ _ Hq), dw_code1, (passes_emitted _ _ _ _ _ _ Hp). by apply dw_code0.
Qed.

Lemma popped_place k e : good e → popped locals (place k e) (temps_after k e) = k.
Proof using Type.
  intros [_ Hv]. unfold popped, temps_after. destruct (is_var e) eqn:Ev.
  - destruct e; try done. cbn [SqCompilerEval.place]. by rewrite (proj2 (Z.ltb_lt _ _)).
  - destruct (place_temp k e Ev) as [-> _]. by rewrite (proj2 (Z.ltb_ge _ _)) by lia.
Qed.

(** The registers of the operands are given back, and one is taken for the result. *)
Definition result_in (w w2 : view) : view := set_targets (w_targets w ++ [base + Z.of_nat (w_temps w)]) (S (w_temps w)) w2.
Lemma runs_operands c w w2 e1 e2 rest (k : Z → Z → Z → cM ()) Q : shows c w2 → operands e1 e2 rest w w2 → good e1 → good e2 → base + Z.of_nat (w_temps w) < 256 →
  (∀ c3, shows c3 (result_in w w2) → runs (k (place (temps_after (w_temps w) e1) e2) (place (w_temps w) e1) (base + Z.of_nat (w_temps w))) c3 Q) →
  runs (t2 ← fs PopTarget; t1 ← fs PopTarget; n ← fs NewTarget; k t2 t1 n) c Q.
Proof using Type.
  intros Hs [_ Et Em _ _] H1 H2 Hb Hk. apply runs_bind.
  eapply runs_mono; [apply (runs_PopTarget locals c w2 (w_targets w ++ [place (w_temps w) e1]) (place (temps_after (w_temps w) e1) e2) Hs); by rewrite Et, <- app_assoc|]. intros r c1 [-> Hs1]. rewrite Em, popped_place in Hs1 by done.
  apply runs_bind. eapply runs_mono; [by apply (runs_PopTarget locals c1 _ (w_targets w) (place (w_temps w) e1) Hs1)|]. intros r c2 [-> Hs2]. cbn in Hs2. rewrite popped_place in Hs2 by done.
  apply runs_bind. eapply runs_mono; [by apply (runs_NewTarget locals c2 _ Hs2)|]. intros r c3 [-> Hs3]. cbn in Hs3. by apply Hk.
Qed.

Lemma op_done e p ts rest w w2 n (Y : sem → sem) (F : sem) i code opt w' : is_var e = false → w_ts w2 = rest → grown 1 w w2 →
  (∀ pre X, emitted pre (base + Z.of_nat (w_temps w)) w X → emitted pre n w2 (Y X)) →
  emits i (result_in w w2) code opt → joins locals (base + Z.of_nat (S (w_temps w))) i →
  does locals n (base + Z.of_nat (S (w_temps w))) (result_in w w2) i F →
  (∀ X str m, same_run locals (base + Z.of_nat (S (w_temps w))) (then_ (Y X) F str m) (then_ X (eval_to e (base + Z.of_nat (w_temps w))) str m)) →
  (iop i = _OP_CMP → leaves_cmp false e = true ∧ arg0 i = base + Z.of_nat (w_temps w)) →
  passes 0 (set_code code opt (result_in w w2)) w' → w_ts w' = rest → (p = true → w_etype w' = EXPR) → (rest ≠ [] → w_prev w' = prev_of ts) → done_with e p ts rest w w'.
Proof using Type.
  intros Hv Ets Hg Hc [Hlen Hcmp Hem] Hj Hd Hm Hi Hps Hts Het Hp.
  pose proof Hps as [Pt Pm Pc Po Pl Ps _]. destruct (place_temp (w_temps w) e Hv) as [Ep Etm]. split; rewrite ?Ep, ?Etm; try done; [|congruence|..].
  - destruct Hg as [? ? Hgc Hgl]. split; rewrite ?Ps, ?Pl, ?Pc; cbn in *; [done|done|rewrite Hts, <- Ets; lia|rewrite Hts, <- Ets; lia].
  - intros _ pi Ho Hl Hop. rewrite Po in Ho. rewrite Pc in Hl. rewrite (Hcmp pi Ho Hl Hop) in Hop |- *. auto.
  - intros Hpt. left. auto.
  - intros pre X Hpre. rewrite Pm. cbn [w_temps set_targets set_code result_in]. apply (passes_emitted _ _ _ _ _ _ Hps). specialize (Hc pre X Hpre).
    eapply emitted_conv; [eapply Hem; [|exact Hj|exact Hd]|done|apply Hm]. by apply (emitted_grow _ _ _ w2).
Qed.
Lemma two_done e e1 e2 g p ts rest w w2 i code opt w' : operands e1 e2 rest w w2 → good e1 → good e2 → is_var e = false →
  (∀ str R (h : H), eval str R e h = rbind (eval str R e1 h) (λ v1 h, rbind (eval str R e2 h) (λ v2 h, g v1 v2 h))) →
  emits i (result_in w w2) code opt → joins locals (base + Z.of_nat (S (w_temps w))) i →
  does locals (base + Z.of_nat (w_temps w2)) (base + Z.of_nat (S (w_temps w))) (result_in w w2) i (on_two locals (w_temps w) e1 e2 (base + Z.of_nat (w_temps w)) g) →
  (iop i = _OP_CMP → leaves_cmp false e = true ∧ arg0 i = base + Z.of_nat (w_temps w)) →
  passes 0 (set_code code opt (result_in w w2)) w' → w_ts w' = rest → (p = true → w_etype w' = EXPR) → (rest ≠ [] → w_prev w' = prev_of ts) → done_with e p ts rest w w'.
Proof using Type.
  intros [Ets Et Em Hg Hc] H1 H2 Hv He Hem Hj Hd Hi Hps Hts Het Hp. eapply (op_done e p ts rest w w2 _ _ _ i code opt w' Hv Ets); [destruct Hg; by split; [..|lia]|exact Hc|done|done|exact Hd| |done|done|done|done|done].
  intros X str m. eapply same_run_trans; [apply two_operands; try done; intros r; apply below_next|].
  unfold then_, eval_to. destruct (X str m); cbn [seq]; try apply same_run_refl. rewrite He. apply same_run_refl.
Qed.

(** *** A member *)

Lemma runs_NeedGet c w b : shows c w → (reach (head_code (w_ts w)) ≤ 12)%nat → (head_code (w_ts w) =? ch "(") = negb b → runs NeedGet c (λ b' c', b' = b ∧ c' = c).
Proof using Type.
  intros Hs Hr Hp. unfold NeedGet. apply runs_bind, runs_token, runs_bind, runs_gets, runs_bind. unfold IsEndOfStatement. apply runs_gets, runs_ret.
  rewrite (sh_get _ _ _ Hs), (shows_token _ _ Hs). cbn [negb orb andb]. split; [|done]. set (k := head_code (w_ts w)) in *.
  assert (∀ x, (12 < reach x)%nat → (k =? x) = false) as Hne by (intros x Hx; apply Z.eqb_neq; intros ->; lia).
  rewrite (Hne TK_PLUSPLUS), (Hne TK_MINUSMINUS) by (vm_compute; lia). cbn [orb andb]. destruct b.
  - apply Z.eqb_neq in Hp. rewrite bool_decide_eq_false_2; [done|]. intros Hin. repeat (apply elem_of_cons in Hin as [Hin|Hin]; [rewrite Hin in Hr, Hp; first [done|vm_compute in Hr; lia]|]).
    by apply elem_of_nil in Hin.
  - apply Z.eqb_eq in Hp. rewrite Hp. reflexivity.
Qed.

(** Reading the member, or leaving it to a call *)
Definition member_tail : cM () := b ← NeedGet; when b (Emit2ArgsOP _OP_GET 0);; set_etype OBJECT.
Lemma tail_call c w : shows c w → head_code (w_ts w) = ch "(" → runs member_tail c (λ _ c', shows c' (set_et OBJECT w)).
Proof using Type.
  intros Hs Hp. unfold member_tail. apply runs_bind. eapply runs_mono; [apply (runs_NeedGet c w false Hs); rewrite Hp; [vm_compute; lia|done]|]. intros b' c' [-> ->].
  apply runs_bind, runs_when; [done|intros _]. by apply runs_set_etype.
Qed.

Lemma good_place k e : good e → base + Z.of_nat (temps_after k e) ≤ 256 → 0 ≤ place k e < 256 ∧ below (base + Z.of_nat (temps_after k e)) (place k e).
Proof using Type. intros He Hk. pose proof (place_bound locals k _ He) as Hb. unfold below in Hb. split; [lia|done]. Qed.
Lemma does_two n n' w i k e1 e2 t g : (∀ str lits m, fits str lits w → strict_step lits i m = outcome_of t (g (regs m (place k e1)) (regs m (place (temps_after k e1) e2)) (store m)) m) →
  good e1 → good e2 → n = base + Z.of_nat (temps_after (temps_after k e1) e2) → n' = t + 1 → t = base + Z.of_nat k → does locals n n' w i (on_two locals k e1 e2 t g).
Proof using Type.
  intros Hi H1 H2 -> -> ->. assert (k ≤ temps_after k e1 ≤ temps_after (temps_after k e1) e2)%nat as Hle by (unfold temps_after; destruct (is_var e1), (is_var e2); lia).
  pose proof (place_bound locals k _ H1) as B1. pose proof (place_bound locals (temps_after k e1) _ H2) as B2. pose proof base_pos. apply does_target; [done|..].
  - intros str m m' [Ha Hst]. rewrite Hst. unfold below in *. by rewrite !Ha by lia.
  - unfold below. intros r Hr. lia.
  - lia.
Qed.

(** *** [e1[e2]], and [e1.x] in the same way *)
Lemma tail_get c e e1 e2 ts rest w w2 : shows c w2 → operands e1 e2 rest w w2 → 0 < base → good e1 → good e2 → is_var e = false →
  (∀ str R (h : H), eval str R e h = rbind (eval str R e1 h) (λ v1 h, rbind (eval str R e2 h) (λ v2 h, answer (get_ v1 v2 (is_this e1) h)))) →
  base + Z.of_nat (temps_after (temps_after (w_temps w) e1) e2) ≤ 256 → base + Z.of_nat (w_temps w) < 255 →
  follows 12 false rest → (rest ≠ [] → w_prev w2 = prev_of ts) →
  runs member_tail c (λ _ c', ∃ w', shows c' w' ∧ done_with e false ts rest w w').
Proof using Type.
  intros Hs Hop Hbase H1 H2 Hv He Hk Hk2 [Hr Hp] Hprev. unfold member_tail. pose proof (op_ts _ _ _ _ _ Hop) as Ets.
  apply runs_bind. eapply runs_mono; [apply (runs_NeedGet c w2 true Hs); rewrite Ets; [done|]; apply Z.eqb_neq; intros Hc; by specialize (Hp Hc)|]. intros b' c' [-> ->].
  destruct (good_place _ _ H2 Hk) as [R2 B2]. destruct (good_place (w_temps w) _ H1) as [R1 B1]; [unfold temps_after in *; destruct (is_var e2); lia|].
  apply runs_bind, runs_when; [intros _|done]. unfold Emit2ArgsOP. apply (runs_operands c w w2 e1 e2 rest); try done; [lia|]. intros c3 Hs3. pose proof base_pos.
  eapply runs_mono; [apply (runs_emits c3 _ _ _ _ _ _ Hs3); try lia; try done; by apply plain_temp|]. intros [] c4 (code & opt & Hs4 & Hem).
  eapply runs_mono; [by apply (runs_set_etype locals c4 _ OBJECT Hs4)|]. intros [] c5 Hs5. eexists. split; [exact Hs5|].
  eapply (two_done e e1 e2 (λ v1 v2 h, answer (get_ v1 v2 (is_this e1) h)) false ts rest w w2 _ code opt); try done.
  - pose proof (place_second locals (w_temps w) e1 e2 H1 H2) as Hsec. eapply joins_pair; [left; split_and!; reflexivity|cbn; done|cbn|cbn].
    + intros Hb. by apply Hsec.
    + intros Hb Hlt. destruct (Hsec Hb) as [_ Hge]. unfold below in Hlt. lia.
  - apply does_two; try done; [|rewrite (op_temps _ _ _ _ _ Hop); lia|lia]. intros str lits m Hf. rewrite get_step, place_this by done. done.
Qed.

(** The name of a member was read. *)
Record named (e : exp) (x : list ascii) (a : Z) (rest : list tok) (w wn : view) : Prop := {
  nm_ts : w_ts wn = rest;
  nm_name : w_strs wn !! a = Some x;
  nm_targets : w_targets wn = w_targets w ++ [place (w_temps w) e; base + Z.of_nat (temps_after (w_temps w) e)];
  nm_temps : w_temps wn = S (temps_after (w_temps w) e);
  nm_grown : grown 4 w wn;
  nm_count : (S (length (w_lits wn) + length (w_ts wn)) ≤ length (w_lits w) + length (w_ts w))%nat;
  nm_code : ∀ pre X, emitted pre (base + Z.of_nat (w_temps w)) w X →
    emitted pre (base + Z.of_nat (temps_after (w_temps w) e)) wn (then_ X (eval_to e (place (w_temps w) e)))
}.
Lemma runs_named c e x a rest w wn (m : cM ()) Q : shows c wn → named e x a rest w wn → room w → base + Z.of_nat (temps_after (w_temps w) e) < 255 →
  (∀ c' w2, shows c' w2 → operands e (EString x) rest w w2 → w_prev w2 = w_prev wn → runs m c' Q) →
  runs (k ← add_literal (string_key a); emit _OP_LOAD (base + Z.of_nat (temps_after (w_temps w) e)) k 0 0;; m) c Q.
Proof using Type.
  intros Hs [Ets Hx Et Em Hg Hcnt Hc] [Hroom _] Hk Hm. apply runs_bind.
  eapply runs_mono; [apply (runs_add_literal locals c wn (string_key a) Hs); [intros _; by eexists|done|lia]|]. intros k c1 (ls & Hs1 & Hpre & Hlen & Hi & Hlk). pose proof base_pos.
  apply runs_bind. eapply runs_mono; [apply (runs_emits c1 _ _ _ _ _ _ Hs1); try lia; try done; by apply plain_temp|]. intros [] c2 (code & opt & Hs2 & [Hel _ Hem]).
  apply (Hm _ _ Hs2); [|done]. destruct Hg as [? ? Hgc Hgl]. split; cbn; try done; [split; cbn in *; [done|by etrans|lia|lia]|].
  intros pre X Hem0. rewrite Em. eapply Hem; [|apply joins_load; lia|].
  - apply (emitted_grow _ _ _ wn); try done. by apply Hc.
  - apply does_literal with (o := λ str, str x); [|done]. intros str lits [Hf _]. cbn. by rewrite (Hf a x Hx).
Qed.

Lemma not_number t : match t with SInteger _ | SChar _ => False | _ => True end → (code_of t =? TK_INTEGER) = false ∧ (code_of t =? TK_FLOAT) = false.
Proof using Type.
  intros Ht. rewrite !Z.eqb_neq. unfold code_of. destruct t as [s|n|s|c|s]; try done; cbn -[keyword_code operator_code].
  - destruct (keyword_code s) as [z|] eqn:Hk; cbn; [|done]. apply keyword_code_range in Hk. unfold TK_INTEGER, TK_FLOAT. lia.
  - destruct (operator_code s) as [z|] eqn:Hop; cbn; [|done]. apply fmap_Some in Hop as ([i [s' z']] & Hf & ->). apply list_find_Some in Hf as (Hi & _ & _).
    apply list_elem_of_lookup_2 in Hi. assert (Hall : Forall (λ op, negb ((op.2 =? TK_INTEGER) || (op.2 =? TK_FLOAT)) = true) operators) by (repeat constructor).
    rewrite Forall_forall in Hall. specialize (Hall _ Hi). by apply negb_true_iff, orb_false_iff in Hall as [?%Z.eqb_neq ?%Z.eqb_neq].
Qed.

Section factors.
Context (rec : nonterminal → cM ()).
Abbreviation Factor := (Factor _sourcename rec).

(** Reaching the case of a constant *)
Ltac start Hs Ew :=
  unfold SqCompiler.Factor; apply runs_bind, runs_token; rewrite (shows_token _ _ Hs), Ew; cbn [head_code].

Lemma factor_number t n ws : number_of t = Some n → reads_exp Factor 12 true (EInt n) [(t, ws)].
Proof using Type.
  intros Hn c w rest b Hs [Ew Hw Hr _ _] _. cbn in Ew. destruct (nvalue_of c w t n ws rest Hs Ew Hn) as (Ev & Hlt & Ek). start Hs Ew. rewrite Ek. pick.
  unfold plain_factor. pick. apply runs_bind, runs_bind, runs_gets, runs_bind. rewrite Ev.
  eapply runs_mono; [apply (runs_load_int c w (EInt n) (Z.of_nat n) Hs); [by apply (temp_range w (EInt n))|done|by rewrite Ew|lia|done]|].
  intros [] c1 (w1 & i & code & opt & Hs1 & Hl). by eapply (load_then_lex c w).
Qed.

Lemma factor_string s ws : reads_exp Factor 12 true (EString s) [(SString s, ws)].
Proof using Type.
  intros c w rest b Hs [Ew Hw Hr _ _] _. cbn in Ew. start Hs Ew. pick. unfold plain_factor. pick. apply runs_bind.
  apply runs_bind. eapply runs_mono; [apply (runs_NewTarget locals c w Hs); cbn in Hw; lia|]. intros r c1 [-> Hs1].
  apply runs_bind. eapply runs_mono; [by eapply (runs_literal_string locals c1 _ s ws rest Hs1)|]. intros o c2 (sm & a & Hs2 & Hsub & -> & Ha). cbn in Hsub.
  apply runs_bind. destruct Hr as [Hroom _]. eapply runs_mono; [apply (runs_add_literal locals _ _ (string_key a) Hs2); [intros _; by eexists|done|cbn; rewrite Ew in Hroom; cbn in Hroom; lia]|].
  intros k c3 (ls & Hs3 & Hpre & Hlen & Hk & Hlk). cbn in Hpre, Hlen, Hw. pose proof base_pos.
  apply runs_bind. eapply runs_mono; [apply (runs_emits c3 _ _ _ _ _ _ Hs3); try lia; try done; by apply plain_temp|]. intros [] c4 (code & opt & Hs4 & Hem).
  eapply (load_then_lex c w); [done|done|done|exact Hs4|]. split; cbn; try done; [apply joins_load; lia|].
  apply does_literal with (o := λ str, str s); [|done]. intros str lits [Hf _]. cbn. by rewrite (Hf a s Ha).
Qed.

(** The constants that are keywords *)
Lemma load_keyword c w rest t ws e o a1 v : shows c w → w_ts w = (t, ws) :: rest → is_var e = false → 0 ≤ base + Z.of_nat (w_temps w) < 255 →
  o = _OP_LOADBOOL ∧ 0 ≤ a1 ≤ 1 ∨ o = _OP_LOADNULLS ∧ a1 = 1 →
  (∀ lits m, step lits (mkI o (base + Z.of_nat (w_temps w)) a1 0 0) m = Next (put (base + Z.of_nat (w_temps w)) v m)) → (∀ str R (h : H), eval str R e h = RVal v h) →
  runs (n ← fs NewTarget; emit o n a1 0 0;; Lex) c (λ _ c2, runs (set_etype EXPR) c2 (λ _ c', ∃ w', shows c' w' ∧ done_with e true [(t, ws)] rest w w')).
Proof using Type.
  intros Hs Ew Hv Hk Ho Hstep He. apply runs_bind. eapply runs_mono; [apply (runs_NewTarget locals c w Hs); lia|]. intros r c1 [-> Hs1]. apply runs_bind.
  assert (plain locals (mkI o (base + Z.of_nat (w_temps w)) a1 0 0)) as Hp by (unfold plain; destruct Ho as [[-> ?]|[-> ->]]; cbn; split_and!; try done; lia).
  eapply runs_mono; [apply (runs_emits c1 _ _ _ _ _ _ Hs1); try lia; try done; by destruct Ho as [[-> ?]|[-> ->]]|]. intros [] c2 (code & opt & Hs2 & Hem).
  eapply (load_then_lex c w); [done|done|done|exact Hs2|]. split; cbn; try done; [lia|by destruct Ho as [[-> ?]|[-> ->]]|..].
  - destruct Ho as [[-> ?]|[-> ->]]; [by apply joins_other|apply joins_null].
  - apply does_constant with (v := λ _, v); [done|by destruct Ho as [[-> ?]|[-> ->]]|done].
Qed.
Lemma factor_true ws : reads_exp Factor 12 true (EBool true) [(SName (chars "true"), ws)].
Proof using Type.
  intros c w rest b Hs [Ew Hw Hr _ _] _. start Hs Ew. change (code_of (SName (chars "true"))) with TK_TRUE. pick. unfold plain_factor. pick. apply runs_bind.
  eapply (load_keyword c w rest _ ws (EBool true) _ _ _ Hs Ew eq_refl); [by apply (temp_range w (EBool true))|by left|by intros|by intros].
Qed.
Lemma factor_false ws : reads_exp Factor 12 true (EBool false) [(SName (chars "false"), ws)].
Proof using Type.
  intros c w rest b Hs [Ew Hw Hr _ _] _. start Hs Ew. change (code_of (SName (chars "false"))) with TK_FALSE. pick. unfold plain_factor. pick. apply runs_bind.
  eapply (load_keyword c w rest _ ws (EBool false) _ _ _ Hs Ew eq_refl); [by apply (temp_range w (EBool true))|by left|by intros|by intros].
Qed.
Lemma factor_null ws : reads_exp Factor 12 true ENull [(SName (chars "null"), ws)].
Proof using Type.
  intros c w rest b Hs [Ew Hw Hr _ _] _. start Hs Ew. change (code_of (SName (chars "null"))) with TK_NULL. pick. unfold plain_factor. pick. apply runs_bind.
  eapply (load_keyword c w rest _ ws ENull _ _ _ Hs Ew eq_refl); [by apply (temp_range w (EBool true))|by right|by intros|by intros].
Qed.

(** A sign in front of a number *)
Lemma factor_folded o t n w1 w2 : folds o = true → number_of t = Some n → reads_exp Factor 12 true (EUn o (EInt n)) [(un_text o, w1); (t, w2)].
Proof using Type.
  intros Ho Hn c w rest b Hs [Ew Hw Hr _ _] _. start Hs Ew.
  assert (∀ z, - 2 ^ 31 ≤ z (Z.of_nat n) < 2 ^ 31 → (∀ str R (h : H), eval str R (EUn o (EInt n)) h = RVal (sq_int (z (Z.of_nat n))) h) → ∀ c1 p, shows c1 (set_ts ((t, w2) :: rest) p w) →
    runs (v ← gets (λ c, _nvalue (_lex c)); EmitLoadConstInt (z v) (-1);; Lex) c1 (λ _ c2,
      runs (set_etype EXPR) c2 (λ _ c', ∃ w', shows c' w' ∧ done_with (EUn o (EInt n)) true [(un_text o, w1); (t, w2)] rest w w'))) as Hload.
  { intros z Hz He c1 p Hs1. destruct (nvalue_of c1 _ t n w2 rest Hs1 eq_refl Hn) as (Ev & _ & _). apply runs_bind, runs_gets, runs_bind. rewrite Ev.
    eapply runs_mono; [apply (runs_load_int c1 _ (EUn o (EInt n)) (z (Z.of_nat n)) Hs1); [by apply (temp_range w (EUn o (EInt n)))|by apply (room_skip w (un_text o, w1))|done|done|done]|].
    intros [] c2 (w2' & i & code & opt & Hs2 & Hl). eapply runs_mono; [exact (load_then_lex c1 (set_ts ((t, w2) :: rest) p w) c2 w2' (EUn o (EInt n)) i code opt t w2 rest Hs1 eq_refl eq_refl Hs2 Hl)|]. intros [] c3 Hr3. eapply runs_mono; [exact Hr3|].
    intros [] c4 (w' & Hs4 & Hd). exists w'. split; [done|]. by eapply done_skip. }
  assert (∀ c1 p, shows c1 (set_ts ((t, w2) :: rest) p w) → _token c1 = TK_INTEGER ∧ Z.of_nat n < 2 ^ 31) as Htok.
  { intros c1 p Hs1. rewrite (shows_token _ _ Hs1). destruct (nvalue_of c1 _ t n w2 rest Hs1 eq_refl Hn) as (_ & Hlt & Ek). done. }
  destruct o; try done.
  - change (code_of (un_text Neg)) with (ch "-"). pick. unfold plain_factor. pick. apply runs_bind, runs_bind.
    eapply runs_mono; [by apply (runs_Lex locals c w _ w1 ((t, w2) :: rest) Hs Ew)|]. intros [] c1 (p & Hs1 & _). apply runs_bind, runs_token. destruct (Htok c1 p Hs1) as [-> Hlt]. pick.
    eapply (Hload (λ v, s32 (- v))); [cbv beta; rewrite s32_small; lia|intros; cbn [eval rbind unary]; unfold NEG_OP; cbn [_type sq_int]; by rewrite integer_int, !s32_small by lia|done].
  - change (code_of (un_text BNot)) with (ch "~"). pick. unfold plain_factor. pick. apply runs_bind, runs_bind.
    eapply runs_mono; [by apply (runs_Lex locals c w _ w1 ((t, w2) :: rest) Hs Ew)|]. intros [] c1 (p & Hs1 & _). apply runs_bind, runs_token. destruct (Htok c1 p Hs1) as [-> Hlt]. pick.
    eapply (Hload (λ v, Z.lnot v)); [cbv beta; unfold Z.lnot; lia|intros; cbn [eval rbind unary]; unfold BWNOT_OP; cbn; by rewrite integer_int, !s32_small by lia|done].
Qed.

(** A name *)
Lemma runs_name c w x ws rest (Q : () → SQCompiler → Prop) : shows c w → w_ts w = (SName x, ws) :: rest → is_name x = true ∨ x = this →
  (∀ c1 sm a p, shows c1 (set_ts rest p (set_strs sm w)) → w_strs w ⊆ sm → sm !! a = Some x →
     (∀ ts : list tok, last ts = Some (SName x, ws) → rest ≠ [] → p = prev_of ts) → runs (variable (string_key a)) c1 Q) → runs Factor c Q.
Proof using Type.
  intros Hs Ew Hx Hq. start Hs Ew.
  assert (∀ o c1, makes_string locals w x o c1 → runs (Lex;; variable o) c1 Q) as Hgo.
  { intros o c1 (sm & a & Hs1 & Hsub & -> & Ha). apply runs_bind. eapply runs_mono; [by apply (runs_Lex locals c1 _ (SName x) ws rest Hs1)|]. intros [] c2 (p & Hs2 & Hp).
    apply (Hq c2 sm a p); try done. exact (prev_ok _ ws rest p Hp). }
  destruct Hx as [Hx| ->].
  - rewrite (name_code x Hx). pick. apply runs_bind. eapply runs_mono; [by eapply (runs_identifier locals c w x ws rest)|]. exact Hgo.
  - change (code_of (SName this)) with TK_THIS. pick. apply runs_bind. eapply runs_mono; [apply (runs_fixed_string locals c w this Hs)|]. exact Hgo.
Qed.

Lemma eval_var_run n X r str m : same_run locals n (X str m) (then_ (H := H) X (eval_to (EVar r) (Z.of_nat r)) str m).
Proof using Type.
  unfold then_. destruct (X str m) as [m1|m1|]; [|apply same_run_refl..]. cbn. split; [done|]. split; [|done]. intros r' _. cbn. by destruct (Z.eqb_spec r' (Z.of_nat r)) as [->|].
Qed.
Lemma factor_local x r ws : is_name x = true ∨ x = this → scope locals x = Some r → reads_exp Factor 12 true (EVar r) [(SName x, ws)].
Proof using Type.
  intros Hx Hr c w rest b Hs [Ew _ _ _ _] _. apply (runs_name c w x ws rest); [done|done|done|]. intros c1 sm a p Hs1 Hsub Ha Hp.
  unfold variable. apply runs_bind, runs_gets. rewrite (GetLocalVariable_scope locals c1 _ a x Hs1 Ha), Hr. rewrite (proj2 (Z.eqb_neq _ (-1))) by lia. cbn [negb].
  pose proof (scope_bound locals x r Hr) as Hb. apply runs_bind. eapply runs_mono; [apply (runs_PushTarget locals c1 _ _ Hs1); lia|]. intros u c2 Hs2.
  apply runs_bind. eapply runs_mono; [by apply (runs_set_etype locals c2 _ LOCAL Hs2)|]. intros [] c3 Hs3. eapply runs_mono; [by apply (runs_set_epos locals c3 _ _ Hs3)|].
  intros [] c4 Hs4. eexists. split; [exact Hs4|]. split; cbn; try done.
  - split; cbn; rewrite ?Ew; try done; cbn; lia.
  - intros _. by right.
  - exact (Hp [_] eq_refl).
  - intros pre X Hem. apply (emitted_grow _ _ _ w); [|done..]. eapply emitted_conv; [exact Hem|done|]. intros. apply eval_var_run.
Qed.

(** A name that is no local variable is one of a member of [this]. *)
Lemma runs_global c w x ws rest Q : shows c w → w_ts w = (SName x, ws) :: rest → is_name x = true → scope locals x = None → 0 < base →
  base + Z.of_nat (w_temps w) < 255 → room w →
  (∀ c2 w2, shows c2 w2 → operands (EVar 0) (EString x) rest w w2 → (∀ ts : list tok, last ts = Some (SName x, ws) → rest ≠ [] → w_prev w2 = prev_of ts) → runs member_tail c2 Q) →
  runs Factor c Q.
Proof using Type.
  intros Hs Ew Hx Hsc Hbase Hk Hroom Hq. apply (runs_name c w x ws rest); [done|done|by left|]. intros c1 sm a p Hs1 Hsub Ha Hp.
  unfold variable. apply runs_bind, runs_gets. rewrite (GetLocalVariable_scope locals c1 _ a x Hs1 Ha), Hsc. cbn [Z.eqb negb Pos.eqb].
  apply runs_bind. eapply runs_mono; [by apply (runs_outer_variable locals c1 _ _ Hs1)|]. intros r c2 [-> Hs2]. cbn [Z.eqb negb Pos.eqb].
  apply runs_bind. eapply runs_mono; [by apply (runs_IsConstant locals c2 _ _ Hs2)|]. intros r c2' [-> ->].
  apply runs_bind. eapply runs_mono; [apply (runs_PushTarget locals c2 _ 0 Hs2); lia|]. intros u c3 Hs3. cbn in Hs3.
  apply runs_bind. eapply runs_mono; [apply (runs_NewTarget locals c3 _ Hs3); cbn; lia|]. intros n c4 [-> Hs4]. cbn in Hs4 |- *. rewrite <- app_assoc in Hs4.
  apply (runs_named c4 (EVar 0) x a rest w _ _ _ Hs4); [|done|done|].
  - split; cbn; try done; [split; cbn; try done; rewrite Ew; cbn; lia|rewrite Ew; cbn; lia|].
    intros pre X Hem. apply (emitted_grow _ _ _ w); [|done..]. eapply emitted_conv; [exact Hem|done|]. intros. apply (eval_var_run _ _ 0%nat).
  - intros c5 w2 Hs5 Hop Ep. apply (Hq c5 w2 Hs5 Hop). rewrite Ep. exact Hp.
Qed.

Lemma factor_global x ws : 0 < base → is_name x = true → scope locals x = None → reads_exp Factor 12 false (EMember (EVar 0) x) [(SName x, ws)].
Proof using Type.
  intros Hbase Hx Hsc c w rest b Hs [Ew Hw Hr _ _] Hf. cbn in Hw. apply (runs_global c w x ws rest); try done; [lia|]. intros c2 w2 Hs2 Hop Hp.
  apply (tail_get c2 _ (EVar 0) (EString x) _ rest w w2); try done; [by apply good_var|cbn; lia|lia|exact (Hp [_] eq_refl)].
Qed.

(** In parentheses *)
Definition reads_comma (m : cM ()) (p : bool) (e : exp) (ts : list tok) : Prop := ∀ c w rest b,
  shows c w → ready b e ts rest w → follows 0 p rest → head_code rest ≠ ch "," → runs m c (λ _ c', ∃ w', shows c' w' ∧ done_with e p ts rest w w').
Lemma ready_skip b e u ts rest w q : ready b e (u :: ts) rest w → ready b e ts rest (set_ts (ts ++ rest) q w).
Proof using Type. intros [Ew Hw Hr Ht Hc]. split; try done. by apply (room_skip w u). Qed.
Lemma ready_app b e ts ts' rest w : ready b e (ts ++ ts') rest w → ready b e ts (ts' ++ rest) w.
Proof using Type. intros [Ew Hw Hr Ht Hc]. split; try done. by rewrite Ew, <- app_assoc. Qed.

(** The token behind it is passed. *)
Lemma done_snoc e p ts u rest w w1 w' : done_with e p ts (u :: rest) w w1 → passes 1 w1 w' → w_ts w' = rest → (w_etype w' = EXPR) →
  (rest ≠ [] → w_prev w' = prev_of (ts ++ [u])) → done_with e true (ts ++ [u]) rest w w'.
Proof using Type.
  intros [] Hps Ets Het Hp. pose proof Hps as [Pt Pm Pc Po Pl Ps _]. split; rewrite ?Pt, ?Pm, ?Pc, ?Po; try done.
  - apply (grown_trans 0 4 0 w w1); [done|by apply (passes_grown 1)|lia].
  - by left.
  - intros pre X Hem. apply (passes_emitted _ _ _ _ _ _ Hps). by apply dw_code0.
Qed.

Lemma factor_paren p e ts w1 w2 : ts ≠ [] → reads_comma (rec NCommaExpr) p e ts →
  reads_exp Factor 12 true e ((SOperator ["("%char], w1) :: ts ++ [(SOperator [")"%char], w2)]).
Proof using Type.
  intros Hts Hrec c w rest b Hs Hrd _. pose proof (rd_ts _ _ _ _ _ Hrd) as Ew. cbn in Ew. start Hs Ew. change (code_of (SOperator ["("%char])) with (ch "("). pick. unfold plain_factor. pick.
  apply runs_bind, runs_bind. eapply runs_mono; [by apply (runs_Lex locals c w _ w1 _ Hs Ew)|]. intros [] c1 (q & Hs1 & _). apply ready_skip with (q := q) in Hrd.
  rewrite <- app_assoc in Ew, Hrd, Hs1. cbn [app] in Ew, Hrd, Hs1. apply runs_bind.
  eapply runs_mono; [apply (Hrec c1 _ ((SOperator [")"%char], w2) :: rest) b Hs1); [by apply ready_app in Hrd|done|done]|]. intros [] c2 (w2' & Hs2 & Hd).
  eapply runs_mono; [apply (runs_expect c2 w2' _ w2 rest _ Hs2 (dw_ts _ _ _ _ _ _ Hd)); done|]. intros [] c3 (p3 & Hs3 & Hp3).
  eapply runs_mono; [by apply (runs_set_etype locals c3 _ EXPR Hs3)|]. intros [] c4 Hs4. eexists. split; [exact Hs4|].
  eapply done_skip; [|by rewrite <- app_assoc|by destruct ts]. rewrite <- app_assoc.
  eapply (done_snoc e p ts _ rest _ w2'); [exact Hd| |done|done|]. 
  - pose proof (dw_ts _ _ _ _ _ _ Hd) as E2. split; try done. by rewrite E2.
  - intros Hr. eapply (prev_ok _ w2 rest); [exact Hp3|apply last_snoc|done].
Qed.

(** A unary operator *)
Lemma does_one n n' w i t1 t g : (∀ str lits m, fits str lits w → strict_step lits i m = outcome_of t (g (regs m t1) (store m)) m) →
  below n t1 → base ≤ n → n' = t + 1 → t ≤ n → does locals n n' w i (on_one t1 t g).
Proof using Type.
  intros Hi H1 Hb -> Ht. apply does_target; [done|..|done].
  - intros str m m' [Ha Hst]. by rewrite Hst, Ha.
  - unfold below. intros r Hr. lia.
Qed.
Lemma runs_UnaryOP c w o p e ts rest u q b : reads_exp (rec NPrefixedExpr) 11 p e ts → good e → ts ≠ [] →
  shows c (set_ts (ts ++ rest) q w) → ready b (EUn o e) (u :: ts) rest w → follows 11 false rest →
  runs (UnaryOP rec (un_opcode o)) c (λ _ c2, runs (set_etype EXPR) c2 (λ _ c', ∃ w', shows c' w' ∧ done_with (EUn o e) false (u :: ts) rest w w')).
Proof using Type.
  intros Hrec Hg Hts Hs Hrd Hfo. pose proof Hrd as [Ew Hw Hr Ht Hc]. cbn in Ew, Hw, Ht. unfold UnaryOP. apply runs_bind.
  eapply runs_mono; [apply (Hrec c _ rest b Hs); [|destruct Hfo as [Hf1 Hf2]; split; [done|]; intros Hf; by specialize (Hf2 Hf)]|].
  { apply (ready_skip b e u). split; try done. lia. }
  intros [] c1 (w1 & Hs1 & Hd). pose proof Hd as [Dts Dt Dm Dg _ _ _ Dp Dc]. cbn in Dt, Dm, Dc.
  apply runs_bind. eapply runs_mono; [by apply (runs_PopTarget locals c1 w1 (w_targets w) (place (w_temps w) e) Hs1)|]. intros r c2 [-> Hs2]. rewrite Dm, popped_place in Hs2 by done.
  apply runs_bind. eapply runs_mono; [apply (runs_NewTarget locals c2 _ Hs2); cbn; lia|]. intros r c3 [-> Hs3]. change (shows c3 (result_in w w1)) in Hs3. cbn [w_temps set_targets].
  destruct (good_place (w_temps w) e Hg) as [R1 B1]; [unfold temps_after; destruct (is_var e); lia|]. pose proof base_pos.
  eapply runs_mono; [apply (runs_emits c3 _ _ _ _ _ _ Hs3); try lia; try (by destruct o); apply plain_temp; by destruct o|]. intros [] c4 (code & opt & Hs4 & Hem).
  eapply runs_mono; [by apply (runs_set_etype locals c4 _ EXPR Hs4)|]. intros [] c5 Hs5. eexists. split; [exact Hs5|].
  eapply (op_done (EUn o e) false (u :: ts) rest w w1 _ (λ X, then_ X (eval_to e (place (w_temps w) e))) _ _ code opt); try done.
  - apply (grown_trans 4 0 1 w (set_ts (ts ++ rest) q w)); [apply (grown_pass 1); cbn; rewrite ?Ew; cbn; try done; lia|done|lia].
  - apply joins_other. by destruct o.
  - apply (does_one _ _ _ _ (place (w_temps w) e) (base + Z.of_nat (w_temps w)) (λ v h, answer (unary o v h))).
    + intros str lits m _. apply unary_step.
    + by rewrite Dm.
    + lia.
    + lia.
    + rewrite Dm. unfold temps_after. destruct (is_var e); lia.
  - intros X str m. apply one_operand. intros r. apply below_next.
  - intros Hcmp. by destruct o.
  - intros Hrn. rewrite prev_of_cons by done. auto.
Qed.
Lemma factor_unary o p e ts ws : reads_exp (rec NPrefixedExpr) 11 p e ts → good e → ts ≠ [] → folds o && starts_number ts = false →
  reads_exp Factor 11 false (EUn o e) ((un_text o, ws) :: ts).
Proof using Type.
  intros Hrec Hg Hts Hn c w rest b Hs Hrd Hfo. pose proof (rd_ts _ _ _ _ _ Hrd) as Ew. start Hs Ew.
  assert (∀ m : cM (), (∀ c1 q, shows c1 (set_ts (ts ++ rest) q w) → runs m c1 (λ _ c2, runs (set_etype EXPR) c2 (λ _ c', ∃ w', shows c' w' ∧ done_with (EUn o e) false ((un_text o, ws) :: ts) rest w w'))) →
    runs ((Lex;; m);; set_etype EXPR) c (λ _ c', ∃ w', shows c' w' ∧ done_with (EUn o e) false ((un_text o, ws) :: ts) rest w w')) as Hlex.
  { intros m Hm. apply runs_bind, runs_bind. eapply runs_mono; [by apply (runs_Lex locals c w _ ws (ts ++ rest) Hs Ew)|]. intros [] c1 (q & Hs1 & _). by apply (Hm c1 q). }
  assert (∀ c1 q, shows c1 (set_ts (ts ++ rest) q w) → folds o = true → (_token c1 =? TK_INTEGER) = false ∧ (_token c1 =? TK_FLOAT) = false) as Htok.
  { intros c1 q Hs1 Ho. rewrite Ho in Hn. rewrite (shows_token _ _ Hs1). destruct ts as [|[t ws'] ts]; [done|]. cbn. apply not_number. by destruct t. }
  assert (∀ c1 q, shows c1 (set_ts (ts ++ rest) q w) → runs (UnaryOP rec (un_opcode o)) c1 (λ _ c2, runs (set_etype EXPR) c2 (λ _ c', ∃ w', shows c' w' ∧ done_with (EUn o e) false ((un_text o, ws) :: ts) rest w w'))) as Hun.
  { intros c1 q Hs1. by apply (runs_UnaryOP c1 w o p e ts rest _ q b). }
  destruct o.
  - change (code_of (un_text Neg)) with (ch "-"). pick. unfold plain_factor. pick. apply Hlex. intros c1 q Hs1. apply runs_bind, runs_token.
    destruct (Htok c1 q Hs1 eq_refl) as [E1 E2]. cbn [switch]. rewrite E1, E2. by apply (Hun c1 q).
  - change (code_of (un_text Not)) with (ch "!"). pick. unfold plain_factor. pick. by apply Hlex.
  - change (code_of (un_text BNot)) with (ch "~"). pick. unfold plain_factor. pick. apply Hlex. intros c1 q Hs1. apply runs_bind, runs_token.
    destruct (Htok c1 q Hs1 eq_refl) as [E1 _]. rewrite E1. by apply (Hun c1 q).
  - change (code_of (un_text TypeOf)) with TK_TYPEOF. pick. unfold plain_factor. pick. by apply Hlex.
Qed.
End factors.
End expr.
