(* ===== verification/SqCompilerOps.v ===== *)
(** * Operators are compiled right

    The binary operators, the operators that decide with their first operand, and
    the conditional: each is read and compiled right if its operands are. *)

From Stdlib Require Import Ascii.
From stdpp Require Import base numbers gmap strings option list.
From S2P Require Import Prelude CType SqObject SqArrayLib SqString SqLexer SqLexerSpec SqLexerRound SqKeywords SqFuncState SqCompiler SqCompilerEnds SqVm SqPeephole SqCompilerRead SqExpression SqCompilerView SqCompilerCode SqCompilerEval SqCompilerExpr.

Open Scope Z_scope.

Section operators.
Context {KT : KeywordTable} {FR : FloatReader} {AL : Allocator} {H : Type} {RT : Runtime H}.
Context (_sourcename : SQObject) (_lineinfo : bool) (locals : list (list ascii)) {asd : aside}.
Context (rec : nonterminal → cM ()).
Abbreviation base := (base locals).
Abbreviation shows := (shows locals (asd := asd)).
Abbreviation emitted := (emitted locals).
Abbreviation place := (place locals).
Abbreviation good := (good (H := H) locals).
Abbreviation done_with := (done_with (H := H) locals).
Abbreviation ready := (ready locals).
Abbreviation reads_exp := (reads_exp (H := H) (asd := asd) locals).

(** ** Binary operators *)

Lemma ready_second b e1 e2 p1 ts1 rest1 w w1 n w1' ts2 rest : done_with e1 p1 ts1 rest1 w w1 → passes n w1 w1' → w_ts w1' = ts2 ++ rest → room w →
  base + Z.of_nat (w_temps w) + Z.of_nat (S (width e2)) ≤ 255 → testable b e2 = true → (b = false → no_cmp w1) → ready b e2 ts2 rest w1'.
Proof using Type.
  intros Hd Hp Ew Hr Hk Ht Hc. pose proof Hp as [_ Em Ec Eo _ _ _]. split; [done| | |done|].
  - rewrite Em, (dw_temps _ _ _ _ _ _ _ Hd). unfold temps_after. destruct (is_var e1); lia.
  - eapply room_grown; [by apply passes_grown|]. eapply room_grown; [by apply (dw_grown _ _ _ _ _ _ _ Hd)|done].
  - intros Hb. unfold no_cmp. rewrite Ec, Eo. by apply Hc.
Qed.
Lemma follows_any n p rest : follows n false rest → follows n p rest.
Proof using Type. intros [Hr Hp]. split; [done|]. intros Hc. by specialize (Hp Hc). Qed.

Lemma op_code o : code_of (SOperator (op_text o)) ≠ 0.
Proof using Type. by destruct o. Qed.

Lemma runs_BIN_EXP c w w1 o p1 e1 ts1 p2 e2 (ts2 : list tok) ws (rest : list tok) b f n : shows c w1 → done_with e1 p1 ts1 ((SOperator (op_text o), ws) :: ts2 ++ rest) w w1 →
  good e1 → good e2 → ts2 ≠ [] → reads_exp (rec f) n p2 e2 ts2 → follows n false rest → ready b (EBin o e1 e2) (ts1 ++ (SOperator (op_text o), ws) :: ts2) rest w →
  runs (BIN_EXP rec (bin_opcode o) f (bin_arg o)) c (λ _ c', ∃ w', shows c' w' ∧ done_with (EBin o e1 e2) false (ts1 ++ (SOperator (op_text o), ws) :: ts2) rest w w').
Proof using Type.
  intros Hs Hd G1 G2 Hts Hrec Hf [Ew Hw Hr Ht Hc]. cbn in Hw, Ht. apply andb_true_iff in Ht as [Ht1 Ht2]. pose proof (dw_ts _ _ _ _ _ _ _ Hd) as E1.
  unfold BIN_EXP. apply runs_bind. eapply runs_mono; [by apply (runs_Lex locals c w1 (SOperator (op_text o)) ws (ts2 ++ rest) Hs)|]. intros [] c1 (q & Hs1 & _).
  assert (passes 1 w1 (set_et EXPR (set_ts (ts2 ++ rest) q w1))) as Hps by (split; try done; by rewrite E1).
  apply runs_bind. eapply runs_fresh_es; [exact Hs1|]. intros c2 Hs2.
  eapply runs_mono; [apply (Hrec c2 _ rest (leaves_cmp b e1) Hs2); [|by apply follows_any]|].
  { eapply (ready_second _ e1 e2 p1 ts1 _ w w1); [exact Hd|exact Hps|done|done|lia|done|]. intros Hb. by apply (no_cmp_after locals b e1 p1 ts1 _ w w1 Hd). }
  intros [] c3 (w3 & Hs3 & Hd3). exists w3. split; [done|]. intros c4 Hs4. cbn [w_etype set_ts] in Hs4. pose proof (dw_ts _ _ _ _ _ _ _ Hd3) as E3.
  assert (operands locals e1 e2 rest w (set_et (w_etype w1) w3)) as Hop.
  { rewrite <- E3. change (w_ts w3) with (w_ts (set_et (w_etype w1) w3)). eapply (operands_done locals e1 e2 _ _ _ _ _ _ w w1 _ w3 0); [exact Hd|exact Hps|exact Hd3|]. by split. }
  apply (runs_operands (H := H) locals c4 w _ e1 e2 rest (λ t2 t1 n, emit (bin_opcode o) n t2 t1 (bin_arg o);; set_etype EXPR) _ Hs4 Hop G1 G2); [lia|]. intros c5 Hs5.
  set (k := w_temps w) in *. set (t1 := place k e1). set (t2 := place (temps_after k e1) e2). pose proof (base_pos locals).
  assert (temps_after (temps_after k e1) e2 ≤ 2 + k)%nat as Hle by (unfold temps_after; destruct (is_var e1), (is_var e2); lia).
  destruct (good_place locals (temps_after k e1) _ G2) as [R2 _]; [|destruct (good_place locals k _ G1) as [R1 _]; [unfold temps_after; destruct (is_var e1); lia|]].
  { assert (is_var e2 = false → 1 ≤ width e2)%nat by (destruct e2; cbn; try done; lia). unfold temps_after in *. destruct (is_var e1), (is_var e2); lia. }
  apply runs_bind. eapply runs_mono; [apply (runs_emits (H := H) locals c5 _ (bin_opcode o) (base + Z.of_nat k) t2 t1 (bin_arg o) Hs5); try lia; try (by destruct o)|].
  { unfold plain. cbn. split_and!; [lia|lia|by destruct o]. }
  intros [] c6 (code & opt & Hs6 & Hem). eapply runs_mono; [by apply (runs_set_etype locals c6 _ EXPR Hs6)|]. intros [] c7 Hs7. eexists. split; [exact Hs7|].
  eapply (two_done locals (EBin o e1 e2) e1 e2 (binary o) false _ rest w _ _ code opt); try done.
  - destruct (decide (o = Eq ∨ o = Ne)) as [Ho|Ho]; [|apply joins_other; destruct o; try done; tauto].
    pose proof (place_second locals k e1 e2 G1 G2) as Hsec. apply (joins_pair locals _ _ t1 t2); cbn; [right; split_and!; destruct Ho as [->| ->]; tauto|done|intros Hb; by apply Hsec|].
    intros Hb Hlt. destruct (Hsec Hb) as [_ Hge]. unfold below in Hlt. fold t2 in Hge. lia.
  - apply does_two; try done; [|cbn; by rewrite (dw_temps _ _ _ _ _ _ _ Hd3); cbn; rewrite (dw_temps _ _ _ _ _ _ _ Hd)|lia]. intros str lits m _. apply binary_step.
  - cbn. by destruct o.
  - intros Hrn. rewrite prev_of_app, prev_of_cons by done. by apply (dw_prev _ _ _ _ _ _ _ Hd3).
Qed.

(** ** Values moved into a register *)

(** The last target holds the value of [e]. *)
Record holds (e : exp) (w w' : view) : Prop := {
  ho_targets : w_targets w' = w_targets w ++ [place (w_temps w) e];
  ho_temps : w_temps w' = temps_after (w_temps w) e;
  ho_code : ∀ pre X, emitted pre (base + Z.of_nat (w_temps w)) w X → emitted pre (base + Z.of_nat (w_temps w')) w' (then_ X (eval_to e (place (w_temps w) e)))
}.
Lemma done_holds e p ts rest w w' : done_with e p ts rest w w' → holds e w w'.
Proof using Type. intros []. by split. Qed.
Lemma holds_snooze e w w' : holds e w w' → holds e w (set_code (w_code w') false w').
Proof using Type. intros [? ? Hc]. split; [done|done|]. intros pre X Hem. by apply emitted_snooze, Hc. Qed.

Lemma does_move n w t t1 : below n t1 → base ≤ n → t ≤ n → does locals n (t + 1) w (mkI _OP_MOVE t t1 0 0) (on_one (H := H) t1 t RVal).
Proof using Type. intros H1 Hb Ht. by apply does_one. Qed.

(** The value of [e] was moved into the register [base + k]. *)
Record moved (e : exp) (k : nat) (w w' w2 : view) : Prop := {
  mv_ts : w_ts w2 = w_ts w';
  mv_lits : w_lits w2 = w_lits w';
  mv_strs : w_strs w2 = w_strs w';
  mv_prev : w_prev w2 = w_prev w';
  mv_targets : w_targets w2 = w_targets w;
  mv_temps : w_temps w2 = S k;
  mv_length : (length (w_code w2) ≤ S (length (w_code w')))%nat;
  mv_code : ∀ pre X, emitted pre (base + Z.of_nat (S k)) w X → emitted pre (base + Z.of_nat (S k)) w2 (then_ X (eval_to e (base + Z.of_nat k)))
}.
Lemma runs_into c e w w' k (m : cM ()) Q : shows c w' → holds e w w' → good e → w_temps w = S k → base + Z.of_nat (S k) + (if is_var e then 0 else 1) ≤ 256 →
  (∀ c' w2, shows c' w2 → moved e k w w' w2 → runs m c' Q) →
  runs (second_exp ← fs PopTarget; when (negb (base + Z.of_nat k =? second_exp)) (emit _OP_MOVE (base + Z.of_nat k) second_exp 0 0);; m) c Q.
Proof using Type.
  intros Hs [Et Em Hc] G Ek Hk Hm. rewrite Ek in *. apply runs_bind. eapply runs_mono; [by apply (runs_PopTarget locals c w' (w_targets w) (place (S k) e) Hs)|].
  intros r c1 [-> Hs1]. rewrite Em, popped_place in Hs1 by done. pose proof (base_pos locals).
  assert (place (S k) e < base ∨ place (S k) e = base + Z.of_nat (S k)) as Hp by (destruct G as [_ Hv]; destruct e; cbn; lia).
  destruct (good_place locals (S k) e G) as [R B]; [unfold temps_after; destruct (is_var e); lia|].
  assert (base + Z.of_nat (S k) ≤ 256) by (destruct (is_var e); lia). rewrite (proj2 (Z.eqb_neq _ _)) by lia. apply runs_bind, runs_when; [intros _|done].
  eapply runs_mono; [apply (runs_emits (H := H) locals c1 _ _ _ _ _ _ Hs1); try lia; try done; by apply plain_temp|]. intros [] c2 (code & opt & Hs2 & [Hel _ Hem]).
  apply (Hm c2 _ Hs2). cbn in Hel. split; try done. intros pre X HX.
  eapply (emitted_conv locals pre (base + Z.of_nat (S k))); [eapply Hem; [|apply joins_move; lia|]|reflexivity|].
  - apply (emitted_grow locals _ _ w'); [by apply Hc|done..].
  - replace (base + Z.of_nat (S k)) with (base + Z.of_nat k + 1) by lia. apply does_move; [by rewrite Em|lia|]. rewrite Em. unfold temps_after. destruct (is_var e); lia.
  - intros str mc. eapply same_run_trans; [apply (one_operand locals (S k)); auto|]. unfold then_, eval_to. destruct (X str mc) as [m0|m0|]; cbn [seq]; [|apply same_run_refl..].
    destruct (eval str (regs m0) e (store m0)); apply same_run_refl.
Qed.

(** ** Jumps *)

Lemma runs_jump c w o a0 a2 : shows c w → o = _OP_JMP ∨ o = _OP_AND ∨ o = _OP_OR → 0 ≤ a0 < 256 → 0 ≤ a2 < 256 →
  runs (emit o a0 0 a2 0) c (λ _ c', shows c' (set_code (w_code w ++ [mkI o a0 0 a2 0]) true w)).
Proof using Type.
  intros Hs Ho H0 H2. eapply runs_mono; [apply (runs_emit locals c w o a0 0 a2 0 Hs); try lia; by destruct Ho as [->|[->| ->]]|]. intros [] c' (code & opt & Hs' & Ha).
  destruct (added_last _ _ _ _ _ _ Ha) as (l & j & -> & _ & _ & Hj & Heq). destruct Hj as [_ ->]; [by destruct Ho as [->|[->| ->]]|]. by destruct (Heq Ho) as [-> ->].
Qed.
Lemma runs_pos c w : shows c w → runs (fs GetCurrentPos) c (λ r c', r = Z.of_nat (length (w_code w)) - 1 ∧ shows c' w).
Proof using Type. apply runs_GetCurrentPos. Qed.

(** Where the second operand begins, the first may be moved to the register of the
    result. *)
Lemma runs_first_move c w k e1 pre : shows c w → w_temps w = S k → good e1 → base + Z.of_nat (S k) ≤ 255 → w_code w = pre → sealed pre →
  runs (when (negb (base + Z.of_nat k =? place k e1)) (emit _OP_MOVE (base + Z.of_nat k) (place k e1) 0 0)) c (λ _ c', ∃ code opt,
    shows c' (set_code code opt w) ∧ (length code ≤ S (length pre))%nat ∧ no_cmp (set_code code opt w) ∧
    ∃ X, emitted pre (base + Z.of_nat (S k)) (set_code code opt w) X ∧
      ∀ e2 str m, good e2 → same_run locals (base + Z.of_nat (S k)) (then_ X (eval_to e2 (base + Z.of_nat k)) str m) (eval_to e2 (base + Z.of_nat k) str m)).
Proof using Type.
  intros Hs Ek G Hk Ec Hsl. pose proof (base_pos locals). apply runs_when; intros Hb.
  - apply negb_true_iff, Z.eqb_neq in Hb. assert (0 ≤ place k e1 < base) as Hp by (destruct G as [_ Hv]; destruct e1; cbn in *; lia).
    eapply runs_mono; [apply (runs_emits (H := H) locals c w _ _ _ _ _ Hs); try lia; try done; by apply plain_temp|]. intros [] c1 (code & opt & Hs1 & [Hel Hcmp Hem]).
    exists code, opt. split; [done|]. split; [by rewrite <- Ec|]. split; [intros pi Ho Hl Hop; by rewrite (Hcmp pi Ho Hl Hop) in Hop|].
    eexists. split; [eapply (Hem pre (base + Z.of_nat k)); [by apply emitted_start|apply joins_move; lia|]|].
    + replace (base + Z.of_nat (S k)) with (base + Z.of_nat k + 1) by lia. apply does_move; unfold below; lia.
    + intros e2 str m G2. cbn [then_ seq on_one of_result]. replace (base + Z.of_nat (S k)) with (base + Z.of_nat k + 1) by lia. apply (eval_to_after locals k); [done| |done].
      eapply (agree_mono); [|apply agree_put]. intros r Hr [= ->]. unfold below in Hr. lia.
  - exists (w_code w), (w_opt w). split; [by destruct w|]. rewrite Ec. split; [lia|]. split.
    + intros pi _ Hl Hop. cbn in Hl. unfold sealed in Hsl. rewrite Hl in Hsl. by rewrite Hop in Hsl.
    + exists (λ _ m, Goes m). split; [by apply emitted_start|]. intros e2 str m G2. apply same_run_refl.
Qed.

(** ** [&&] and [||] *)

Section shortcut.
Context (b b0 : bool) (w w1 : view) (p1 : bool) (e1 : exp) (ts1 : list tok) (u : source_token) (ws : list ascii) (e2 : exp) (ts2 rest : list tok).
Context (Hd : done_with e1 p1 ts1 ((u, ws) :: ts2 ++ rest) w w1) (G1 : good e1) (G2 : good e2) (Hts : ts2 ≠ []).
Context (Hrd : ready b0 (shortcut_exp b e1 e2) (ts1 ++ (u, ws) :: ts2) rest w).
Let k := w_temps w.
Let t := base + Z.of_nat k.
Let j := mkI (shortcut_op b) t 0 (place k e1) 0.

Lemma shortcut_limits : t + Z.of_nat (S (width e2)) ≤ 255 ∧ testable false e2 = true ∧ 0 ≤ place k e1 < 256 ∧ below (base + Z.of_nat (temps_after k e1)) (place k e1).
Proof using G1 Hrd.
  destruct Hrd as [_ Hw _ Ht _]. fold k in Hw. assert (t + Z.of_nat (S (width e2)) ≤ 255 ∧ testable false e2 = true) as [Hw2 Ht2].
  { unfold shortcut_exp in *. destruct b; cbn in Hw, Ht; apply andb_true_iff in Ht as [_ ?]; split; (lia || done). }
  destruct (good_place locals k e1 G1) as [R1 B1]; [unfold temps_after; destruct (is_var e1); lia|done].
Qed.

(** When the jump is filled in *)
Lemma shortcut_done w4 w' code2 : w_code w4 = w_code w1 ++ j :: code2 → impl locals (t + 1) w4 code2 (eval_to e2 t) →
  w_code w' = w_code w1 ++ set_jump (Z.of_nat (length code2)) j :: code2 → w_opt w' = false → w_strs w' = w_strs w4 → w_lits w' = w_lits w4 →
  w_ts w' = rest → w_targets w' = w_targets w ++ [t] → w_temps w' = S k → grown 0 w w' → (rest ≠ [] → w_prev w' = prev_of ts2) →
  w_strs w1 ⊆ w_strs w4 → w_lits w1 `prefix_of` w_lits w4 →
  done_with (shortcut_exp b e1 e2) false (ts1 ++ (u, ws) :: ts2) rest w w'.
Proof using Hd G1 G2 Hts Hrd.
  intros E4 Hi2 Ec Eo Es El Ets Et Em Hg Hp Hs Hl. destruct shortcut_limits as (Hw & _ & _ & B1). pose proof (base_pos locals).
  assert (is_var (shortcut_exp b e1 e2) = false) as Hv by (by destruct b). destruct (place_temp locals k _ Hv) as [Ep Etm].
  split; fold k; rewrite ?Ep, ?Etm; try done; [by rewrite Hv|congruence|by rewrite prev_of_app, prev_of_cons|].
  intros pre X HX. rewrite Em. destruct (dw_code _ _ _ _ _ _ _ Hd pre X HX) as (code1 & E1 & Hi1 & _). fold k in Hi1.
  exists (code1 ++ set_jump (Z.of_nat (length code2)) j :: code2). split; [by rewrite Ec, E1, <- app_assoc|]. split; [|by rewrite Eo].
  replace (base + Z.of_nat (S k)) with (t + 1) by lia. eapply impl_conv; [|reflexivity|by apply shortcut_meaning]. rewrite (dw_temps _ _ _ _ _ _ _ Hd) in Hi1. fold k in Hi1.
  assert (∀ n code Y, impl locals n w4 code Y → impl (H := H) locals n w' code Y) as Hgrow.
  { intros n code Y Hi str lits Hf. apply Hi. apply (fits_grow str lits w4 w' Hf); [by rewrite Es|by rewrite El]. }
  apply Hgrow. unfold set_jump, j. cbn [iop arg0 arg2 arg3]. apply (impl_shortcut locals b (base + Z.of_nat (temps_after k e1))); try done; [|apply eval_to_respects; try done|lia|].
  - intros str lits Hf. apply Hi1. by apply (fits_grow str lits w1 w4).
  - lia.
  - unfold temps_after, below. destruct (is_var e1); lia.
  - unfold temps_after, below. destruct (is_var e1); lia.
Qed.

Lemma runs_shortcut c p2 f n : shows c w1 → reads_exp (rec f) n p2 e2 ts2 → follows n false rest →
  runs (shortcut rec (shortcut_op b) f) c (λ _ c', ∃ w', shows c' w' ∧ done_with (shortcut_exp b e1 e2) false (ts1 ++ (u, ws) :: ts2) rest w w').
Proof using Hd G1 G2 Hts Hrd.
  intros Hs Hrec Hf. pose proof (base_pos locals). pose proof Hd as [E1 Et Em Hg _ _ _ _ _]. destruct shortcut_limits as (Hw & Ht & R1 & _). fold k in Et, Em.
  unfold shortcut. apply runs_bind. eapply runs_mono; [by apply (runs_PopTarget locals c w1 (w_targets w) (place k e1) Hs)|]. intros r c1 [-> Hs1]. rewrite Em, popped_place in Hs1 by done.
  apply runs_bind. eapply runs_mono; [apply (runs_NewTarget locals c1 _ Hs1); cbn; lia|]. intros r c2 [-> Hs2]. change (shows c2 (result_in locals w w1)) in Hs2. cbn [w_temps set_targets]. fold t.
  apply runs_bind. eapply runs_mono; [apply (runs_jump c2 _ _ t (place k e1) Hs2); [destruct b; tauto|lia|done]|]. intros [] c3 Hs3. fold j in Hs3. cbn [w_code set_targets result_in] in Hs3.
  apply runs_bind. eapply runs_mono; [by apply runs_pos|]. intros r c4 [-> Hs4]. cbn [w_code set_code]. rewrite length_app. cbn [length].
  apply runs_bind. eapply runs_mono; [apply (runs_first_move c4 _ k e1 (w_code w1 ++ [j]) Hs4 eq_refl G1); [lia|done|unfold sealed; rewrite last_snoc; by destruct b]|].
  intros [] c5 (code & opt & Hs5 & Hlen & Hnc & X0 & HX0 & HY). rewrite length_app in Hlen. cbn [length] in Hlen.
  apply runs_bind. eapply runs_mono; [by apply (runs_Lex locals c5 _ u ws (ts2 ++ rest) Hs5)|]. intros [] c6 (q & Hs6 & _). set (wa := set_ts (ts2 ++ rest) q _) in Hs6.
  assert (grown 2 w (set_et EXPR wa)) as Hga.
  { apply (grown_trans 0 2 2 w w1); [done| |lia]. split; cbn; [done|done|rewrite E1; cbn; lia|rewrite E1; cbn; lia]. }
  apply runs_bind. eapply runs_fresh_es; [exact Hs6|]. intros c7 Hs7. eapply runs_mono; [apply (Hrec c7 _ rest false Hs7); [|by apply follows_any]|].
  { split; [done|cbn; lia|apply (room_grown _ _ _ Hga), (rd_room _ _ _ _ _ _ Hrd)|done|done]. }
  intros [] c8 (w3 & Hs8 & Hd3). exists w3. split; [done|]. intros c9 Hs9. pose proof (dw_ts _ _ _ _ _ _ _ Hd3) as E3.
  apply runs_bind. eapply runs_mono; [by apply (runs_SnoozeOpt locals c9 _ Hs9)|]. intros [] c10 Hs10.
  eapply (runs_into c10 e2 (set_et EXPR wa) _ k); [exact Hs10| |done|done| |].
  { apply done_holds in Hd3. destruct (holds_snooze _ _ _ Hd3) as [? ? ?]. by split. }
  { assert (is_var e2 = false → 1 ≤ width e2)%nat by (destruct e2; cbn; try done; lia). destruct (is_var e2); lia. }
  intros c11 w4 Hs11 [Mts Ml Ms Mp Mt Mm Mlen Mc]. cbn in Mts, Ml, Ms, Mp, Mt, Mlen.
  destruct (Mc (w_code w1 ++ [j]) X0) as (code2 & E4 & Hi & _); [by apply (emitted_grow locals _ _ (set_code code opt (set_code (w_code w1 ++ [j]) true (result_in locals w w1))))|].
  rewrite <- app_assoc in E4. cbn [app] in E4. apply runs_bind. eapply runs_mono; [by apply (runs_SnoozeOpt locals c11 _ Hs11)|]. intros [] c12 Hs12.
  apply runs_bind. eapply runs_mono; [by apply runs_pos|]. intros r c13 [-> Hs13]. cbn [w_code set_code].
  pose proof (dw_grown _ _ _ _ _ _ _ Hd3) as Hg3. assert (grown 1 w w4) as Hg4.
  { apply (grown_trans 2 0 2 w) in Hg3; [|done|lia]. destruct Hg3 as [? ? Hg3c Hg3l]. split; rewrite ?Ms, ?Ml, ?Mts; try done. lia. }
  pose proof (room_grown _ _ _ Hg4 (rd_room _ _ _ _ _ _ Hrd)) as [_ Hroom].
  replace (Z.of_nat (length (w_code w1) + 1) - 1) with (Z.of_nat (length (w_code w1))) by lia.
  replace (Z.of_nat (length (w_code w4)) - 1 - Z.of_nat (length (w_code w1))) with (Z.of_nat (length code2)) by (rewrite E4, length_app; cbn [length]; lia).
  apply runs_bind. eapply runs_mono; [apply (runs_patch locals c13 _ (w_code w1) j code2 _ Hs13 E4); rewrite E4, length_app in Hroom; cbn [length] in Hroom; lia|]. intros [] c14 Hs14.
  eapply runs_mono; [by apply (runs_set_etype locals c14 _ EXPR Hs14)|]. intros [] c15 Hs15. eexists. split; [exact Hs15|].
  destruct Hg4 as [Hg4s Hg4l Hg4c Hg4i]. eapply (shortcut_done w4 _ code2); try done; cbn.
  - unfold t. eapply impl_conv; [exact Hi|lia|]. intros str m. replace (base + Z.of_nat k + 1) with (base + Z.of_nat (S k)) by lia. by apply HY.
  - congruence.
  - split; cbn; try done. rewrite length_app. rewrite E4, length_app in Hg4i. cbn [length] in *. lia.
  - rewrite Mp. apply (dw_prev _ _ _ _ _ _ _ Hd3).
  - rewrite Ms. apply (gr_strs _ _ _ Hg3).
  - rewrite Ml. apply (gr_lits _ _ _ Hg3).
Qed.
End shortcut.

(** ** The conditional *)

(** One of its branches: the value is in the register [base + k]. *)
Record branch (e : exp) (k : nat) (ts rest : list tok) (w w' : view) (code : list instruction) : Prop := {
  br_ts : w_ts w' = rest;
  br_targets : w_targets w' = w_targets w;
  br_temps : w_temps w' = S k;
  br_strs : w_strs w ⊆ w_strs w';
  br_lits : w_lits w `prefix_of` w_lits w';
  br_count : (length (w_lits w') + length rest ≤ length (w_lits w) + length (w_ts w))%nat;
  br_length : (length (w_code w') + 4 * length rest ≤ S (length (w_code w) + 4 * length (w_ts w)))%nat;
  br_prev : rest ≠ [] → w_prev w' = prev_of ts;
  br_code : w_code w' = w_code w ++ code;
  br_impl : impl locals (base + Z.of_nat (S k)) w' code (eval_to (H := H) e (base + Z.of_nat k))
}.
Lemma runs_branch c e k p ts rest w f n (m : cM ()) Q : shows c w → ready false e ts rest w → reads_exp (rec f) n p e ts → follows n p rest → good e → w_temps w = S k → sealed (w_code w) →
  (∀ c' w' code, shows c' w' → branch e k ts rest w w' code → runs m c' Q) →
  runs (rec f;; x ← fs PopTarget; when (negb (base + Z.of_nat k =? x)) (emit _OP_MOVE (base + Z.of_nat k) x 0 0);; m) c Q.
Proof using Type.
  intros Hs Hrd Hrec Hf G Ek Hsl Hm. apply runs_bind. eapply runs_mono; [by apply (Hrec c w rest false Hs)|]. intros [] c1 (w1 & Hs1 & Hd).
  eapply (runs_into c1 e w w1 k); [done|by eapply done_holds|done|done| |].
  { pose proof (rd_width _ _ _ _ _ _ Hrd) as Hw. assert (is_var e = false → 1 ≤ width e)%nat by (destruct e; cbn; try done; lia). rewrite Ek in Hw. destruct (is_var e); lia. }
  intros c2 w2 Hs2 [Mts Ml Ms Mp Mt Mm Mlen Mc]. pose proof Hd as [E1 _ _ [Gs Gl Gc Gi] _ _ _ Dp _].
  destruct (Mc (w_code w) (λ _ m, Goes m)) as (code & E2 & Hi & _); [by apply emitted_start|]. apply (Hm c2 w2 code Hs2).
  rewrite E1 in Gc, Gi. split; rewrite ?Ms, ?Ml, ?Mp; try done; [congruence|lia].
Qed.

(** The jumps are filled in. *)
Lemma runs_fill c w l j code1 i code2 jzpos endfirstexp jmppos : shows c w → w_code w = l ++ j :: code1 ++ i :: code2 → Z.of_nat (length (w_code w)) < 2 ^ 31 →
  jzpos = Z.of_nat (length l) → endfirstexp = jzpos + Z.of_nat (length code1) → jmppos = endfirstexp + 1 →
  runs (cur ← fs GetCurrentPos; fs (SetInstructionParam jmppos 1 (cur - jmppos));; fs (SetInstructionParam jzpos 1 (endfirstexp - jzpos + 1))) c (λ _ c',
    shows c' (set_code (l ++ set_jump (Z.of_nat (length code1) + 1) j :: code1 ++ set_jump (Z.of_nat (length code2)) i :: code2) (w_opt w) w)).
Proof using Type.
  intros Hs Ec Hr -> -> ->. rewrite Ec in Hr. rewrite !length_app in Hr. cbn in Hr. rewrite length_app in Hr. cbn in Hr.
  apply runs_bind. eapply runs_mono; [by apply runs_pos|]. intros r c1 [-> Hs1]. rewrite Ec, length_app. cbn [length]. rewrite length_app. cbn [length].
  replace (Z.of_nat (length l) + Z.of_nat (length code1) + 1) with (Z.of_nat (length (l ++ j :: code1))) by (rewrite length_app; cbn; lia).
  replace (_ - 1 - _) with (Z.of_nat (length code2)) by (rewrite length_app; cbn [length]; lia).
  apply runs_bind. eapply runs_mono; [apply (runs_patch locals c1 w (l ++ j :: code1) i code2 _ Hs1); [by rewrite Ec, <- app_assoc|lia]|]. intros [] c2 Hs2.
  rewrite <- app_assoc in Hs2. cbn [app] in Hs2. replace (_ - _ + 1) with (Z.of_nat (length code1) + 1) by lia.
  eapply runs_mono; [by apply (runs_patch locals c2 _ l j _ _ Hs2 eq_refl); lia|]. intros [] c3 Hs3. exact Hs3.
Qed.
Lemma runs_then_last {A} (m1 : cM A) (m2 m3 : A → cM ()) (m4 : cM ()) c Q : runs (a ← m1; m2 a;; m3 a) c (λ _ c', runs m4 c' Q) → runs (a ← m1; m2 a;; m3 a;; m4) c Q.
Proof using Type. unfold runs, mbind, stM_bind. destruct (m1 c) as [[a c1]|]; [|done]. destruct (m2 a c1) as [[u c2]|]; [|done]. by destruct (m3 a c2) as [[u' c3]|]. Qed.

Section conditional.
Context (b : bool) (w w1 : view) (p : bool) (e e1 e2 : exp) (ts ts1 ts2 rest : list tok) (u1 u2 : tok).
Context (Hd : done_with e p ts (u1 :: ts1 ++ u2 :: ts2 ++ rest) w w1) (G : good e) (G1 : good e1) (G2 : good e2) (Hts2 : ts2 ≠ []).
Context (Hrd : ready b (ECond e e1 e2) (ts ++ u1 :: ts1 ++ u2 :: ts2) rest w).
Let k := w_temps w.
Let t := base + Z.of_nat k.

Lemma condition_cmp pi : w_opt w1 = true → last (w_code w1) = Some pi → iop pi = _OP_CMP → arg0 pi = place k e ∧ t ≤ place k e.
Proof using Hd Hrd.
  intros Ho Hl Hop. destruct Hrd as [_ _ _ Ht Hc]. cbn in Ht. apply andb_true_iff in Ht as [[[_ Hb]%andb_true_iff _]%andb_true_iff _]. destruct (is_var e) eqn:Ev.
  - destruct b; [done|]. destruct (dw_var _ _ _ _ _ _ _ Hd Ev) as [Ec Eo]. rewrite Ec in Hl. rewrite Eo in Ho. by destruct (Hc eq_refl pi Ho Hl).
  - destruct (dw_cmp _ _ _ _ _ _ _ Hd Ev pi Ho Hl Hop) as [_ Ha]. split; [exact Ha|]. destruct (place_temp locals k e Ev) as [-> _]. done.
Qed.

(** When the jumps are filled in *)
Lemma conditional_done code' opt' wa wb wc w4 w' code1 code2 j l :
  added locals (w_code w1) (w_opt w1) (mkI _OP_JZ (place k e) 0 0 0) code' opt' → code' = l ++ [j] →
  branch e1 k ts1 (u2 :: ts2 ++ rest) wa wb code1 → w_code wa = code' → branch e2 k ts2 rest wc w4 code2 → w_code wc = w_code wb ++ [mkI _OP_JMP 0 0 0 0] →
  w_strs w1 ⊆ w_strs wa → w_lits w1 `prefix_of` w_lits wa → w_strs wb ⊆ w_strs wc → w_lits wb `prefix_of` w_lits wc →
  w_code w' = l ++ set_jump (Z.of_nat (length code1) + 1) j :: code1 ++ mkI _OP_JMP 0 (Z.of_nat (length code2)) 0 0 :: code2 → w_opt w' = false →
  w_strs w' = w_strs w4 → w_lits w' = w_lits w4 → w_ts w' = rest → w_targets w' = w_targets w ++ [t] → w_temps w' = S k → grown 0 w w' → w_prev w' = w_prev w4 →
  done_with (ECond e e1 e2) false (ts ++ u1 :: ts1 ++ u2 :: ts2) rest w w'.
Proof using Hd G G1 G2 Hts2 Hrd.
  intros Ha Ej B1 Ea B2 Ec Hsa Hla Hsc Hlc Ew' Eo Es El Ets Et Em Hg Hp. pose proof (base_pos locals).
  split; try done.
  - intros _ pi Ho. congruence.
  - intros Hr. rewrite Hp, prev_of_app by done. change (w_prev w4 = prev_of ((u1 :: ts1) ++ u2 :: ts2)). rewrite prev_of_app, prev_of_cons by done. by apply (br_prev _ _ _ _ _ _ _ B2).
  - intros pre X HX. rewrite Em. pose proof (dw_code _ _ _ _ _ _ _ Hd pre X HX) as He. rewrite (dw_temps _ _ _ _ _ _ _ Hd) in He. fold k in He.
    destruct (emitted_test locals _ _ (base + Z.of_nat k) _ _ (place k e) _ _ He Ha) as (code & j' & Ec' & _ & Hj & Htest).
    { by apply place_bound. } { unfold temps_after. destruct (is_var e); lia. } { lia. } { apply condition_cmp. }
    rewrite Ej, app_assoc in Ec'. apply app_inj_tail in Ec' as [-> ->].
    exists (code ++ set_jump (Z.of_nat (length code1) + 1) j' :: code1 ++ mkI _OP_JMP 0 (Z.of_nat (length code2)) 0 0 :: code2).
    split; [by rewrite Ew', <- app_assoc|]. split; [|by rewrite Eo]. replace (base + Z.of_nat (S k)) with (t + 1) by lia.
    eapply impl_conv; [|reflexivity|by apply conditional_meaning]. fold t.
    assert (∀ str lits, fits str lits w' → fits str lits w4) as F4 by (intros str lits Hf; apply (fits_grow str lits w4 w' Hf); [by rewrite Es|by rewrite El]).
    assert (∀ str lits, fits str lits w' → fits str lits wb) as Fb.
    { intros str lits Hf%F4. apply (fits_grow str lits wb w4 Hf); [etrans; [exact Hsc|apply B2]|etrans; [exact Hlc|apply B2]]. }
    assert (∀ str lits, fits str lits w' → fits str lits w1) as F1.
    { intros str lits Hf%Fb. apply (fits_grow str lits w1 wb Hf); [etrans; [exact Hsa|apply B1]|etrans; [exact Hla|apply B1]]. }
    replace (t + 1) with (base + Z.of_nat (S k)) by lia. apply (impl_conditional locals (base + Z.of_nat k)).
    + intros str lits Hf. by apply Htest, F1.
    + intros str lits Hf. by apply (br_impl _ _ _ _ _ _ _ B1), Fb.
    + apply eval_to_respects; [done|lia|]. unfold below. intros r. lia.
    + intros str lits Hf. by apply (br_impl _ _ _ _ _ _ _ B2), F4.
    + apply eval_to_respects; [done|lia|]. unfold below. intros r. lia.
    + lia.
Qed.

Lemma runs_conditional c p1 p2 ws1 ws2 : shows c w1 → reads_exp (rec NExpression) 0 p1 e1 ts1 → reads_exp (rec NExpression) 0 p2 e2 ts2 →
  u1 = (SOperator ["?"%char], ws1) → u2 = (SOperator [":"%char], ws2) → follows 0 false rest →
  runs (conditional rec) c (λ _ c', ∃ w', shows c' w' ∧ done_with (ECond e e1 e2) false (ts ++ u1 :: ts1 ++ u2 :: ts2) rest w w').
Proof using Hd G G1 G2 Hts2 Hrd.
  intros Hs Hr1 Hr2 Eu1 Eu2 Hf. pose proof (base_pos locals). pose proof Hd as [E1 Et Em Hg _ _ _ _ _]. fold k in Et, Em. destruct Hrd as [Ew Hw Hr Ht Hc]. fold k in Hw. cbn in Hw, Ht.
  apply andb_true_iff in Ht as [[_ Ht1]%andb_true_iff Ht2]. rewrite Eu1, Eu2 in E1.
  destruct (good_place locals k e G) as [R _]; [unfold temps_after; destruct (is_var e); lia|].
  unfold conditional. apply runs_bind. eapply runs_mono; [by apply (runs_Lex locals c w1 _ ws1 _ Hs E1)|]. intros [] c1 (q & Hs1 & _).
  apply runs_bind. eapply runs_mono; [by apply (runs_PopTarget locals c1 _ (w_targets w) (place k e) Hs1)|]. intros r c2 [-> Hs2]. cbn in Hs2. rewrite Em, popped_place in Hs2 by done.
  apply runs_bind. eapply runs_mono; [by apply (runs_emit locals c2 _ _OP_JZ (place k e) 0 0 0 Hs2)|]. intros [] c3 (code' & opt' & Hs3 & Ha).
  destruct (added_last _ _ _ _ _ _ Ha) as (l & j & Ej & Hlen & _ & Hjmp & _). destruct Hjmp as [Hjmp ->]; [done|]. cbn in Hlen, Ha.
  apply runs_bind. eapply runs_mono; [by apply runs_pos|]. intros r c4 [-> Hs4]. cbn [w_code set_code].
  apply runs_bind. eapply runs_mono; [apply (runs_NewTarget locals c4 _ Hs4); cbn; lia|]. intros r c5 [-> Hs5]. cbn in Hs5. cbn [w_temps set_targets set_code]. fold t in Hs5 |- *. set (wa := set_targets _ _ _) in Hs5.
  assert (grown 3 w wa) as Hga.
  { apply (grown_trans 0 3 3 w w1); [done| |lia]. pose proof (f_equal length E1) as L1. cbn in L1. split; cbn; try done; [lia|]. rewrite Ej, length_app. cbn. lia. }
  eapply (runs_branch c5 e1 k p1 ts1 (u2 :: ts2 ++ rest) wa NExpression 0); [done| |done| |done|done| |].
  { split; [by rewrite Eu2|cbn; lia|apply (room_grown _ _ _ Hga Hr)|done|]. intros _ pi _ Hl Hop. cbn in Hl. rewrite Ej, last_snoc in Hl. injection Hl as ->. by rewrite Hop in Hjmp. }
  { by rewrite Eu2. } { unfold sealed. cbn. rewrite Ej, last_snoc. by apply jumps_inert. }
  intros c6 wb code1 Hs6 B1. apply runs_bind. eapply runs_mono; [by apply runs_pos|]. intros r c7 [-> Hs7].
  apply runs_bind. eapply runs_mono; [by apply (runs_jump c7 wb _OP_JMP 0 0 Hs7); [tauto|..]|]. intros [] c8 Hs8.
  apply runs_bind. eapply runs_mono; [apply (runs_expect locals c8 _ (SOperator [":"%char]) ws2 (ts2 ++ rest) _ Hs8); [cbn; by rewrite (br_ts _ _ _ _ _ _ _ B1), Eu2|done|done]|]. intros [] c9 (q9 & Hs9 & _).
  apply runs_bind. eapply runs_mono; [by apply runs_pos|]. intros r c10 [-> Hs10]. set (wc := set_ts _ _ _) in Hs10. cbn [w_code set_code set_ts].
  assert (grown 4 w wc) as Hgc.
  { destruct Hga as [Gs Gl Gc Gi], B1 as [? ? ? Bs Bl Bc Bi ? ? ?]. rewrite Eu2 in Bc, Bi. cbn [length] in Bc, Bi.
    split; cbn -[Nat.mul]; [by etrans|by etrans|lia|rewrite length_app; cbn -[Nat.mul]; lia]. }
  eapply (runs_branch c10 e2 k p2 ts2 rest wc NExpression 0); [done| |done|by apply follows_any|done|apply B1| |].
  { split; [done|cbn; rewrite (br_temps _ _ _ _ _ _ _ B1); lia|apply (room_grown _ _ _ Hgc Hr)|done|]. intros _ pi _ Hl Hop. cbn in Hl. rewrite last_snoc in Hl. by injection Hl as <-. }
  { unfold sealed. cbn. by rewrite last_snoc. }
  intros c11 w4 code2 Hs11 B2. pose proof (br_code _ _ _ _ _ _ _ B1) as Eb. pose proof (br_code _ _ _ _ _ _ _ B2) as E4. cbn in Eb, E4. rewrite Eb, Ej, <- !app_assoc in E4. cbn in E4.
  assert (grown 3 w w4) as Hg4.
  { destruct Hgc as [Gs Gl Gc Gi], B2 as [Bt ? ? Bs Bl Bc Bi ? ? ?]. split; rewrite ?Bt; [by etrans|by etrans|lia|lia]. }
  apply runs_then_last. eapply runs_mono; [apply (runs_fill c11 w4 l j code1 _ code2 _ _ _ Hs11 E4)|].
  { by destruct (room_grown _ _ _ Hg4 Hr) as [_ ?]; lia. } { rewrite Ej, length_app. cbn. lia. } { rewrite Eb, Ej, !length_app. cbn. lia. } { rewrite length_app. cbn. lia. }
  intros [] c12 Hs12. eapply runs_mono; [apply (runs_SnoozeOpt locals c12 _ Hs12)|]. intros [] c13 Hs13. eexists. split; [exact Hs13|]. destruct Hg4 as [? ? ? Hg4i].
  eapply (conditional_done code' true wa wb wc w4 _ code1 code2 j l); try done; cbn; [by apply B2|..].
  - rewrite (br_targets _ _ _ _ _ _ _ B2). cbn. rewrite (br_targets _ _ _ _ _ _ _ B1). done.
  - apply B2.
  - split; cbn -[Nat.mul]; try done. rewrite E4, !length_app in Hg4i. cbn -[Nat.mul] in Hg4i. rewrite length_app in *. cbn -[Nat.mul] in *. rewrite length_app in *. cbn -[Nat.mul] in *. lia.
Qed.
End conditional.
End operators.
