(* ===== verification/SqCompilerLevels.v ===== *)
(** * The levels of the grammar

    Each level of expressions has a function, and those with operators that group
    to the left have a loop.  An expression is read by the function of its level, or
    it is the first part of what the loop goes on with. *)

From Stdlib Require Import Ascii.
From stdpp Require Import base numbers gmap strings option list.
From S2P Require Import Prelude CType SqObject SqArrayLib SqString SqLexer SqLexerSpec SqLexerRound SqKeywords SqFuncState SqCompiler SqCompilerEnds SqVm SqPeephole SqCompilerRead SqExpression SqCompilerView SqCompilerCode SqCompilerEval SqCompilerExpr SqCompilerOps.

Open Scope Z_scope.

(** ** The functions and their loops *)

Definition exp_of (l : nat) : nonterminal :=
  match l with
  | 0 => NExpression | 1 => NLogicalOrExp | 2 => NLogicalAndExp | 3 => NBitwiseOrExp | 4 => NBitwiseXorExp | 5 => NBitwiseAndExp | 6 => NEqExp | 7 => NCompExp
  | 8 => NShiftExp | 9 => NPlusExp | 10 => NMultExp | 11 | 12 => NPrefixedExpr | _ => NFactor
  end%nat.
Definition rest_of (l : nat) : nonterminal :=
  match l with
  | 2 => NLogicalAndRest | 3 => NBitwiseOrRest | 4 => NBitwiseXorRest | 5 => NBitwiseAndRest | 6 => NEqRest | 7 => NCompRest
  | 8 => NShiftRest | 9 => NPlusRest | 10 => NMultRest | _ => NPrefixedRest
  end%nat.
(** How many calls deep the functions go, for [ts] at level [l] *)
Definition need (l : nat) (ts : list tok) : nat := (16 * length ts + (14 - l))%nat.

Section levels.
Context {KT : KeywordTable} {FR : FloatReader} {AL : Allocator} {H : Type} {RT : Runtime H}.
Context (_sourcename : SQObject) (_lineinfo : bool) (locals : list (list ascii)) {asd : aside}.
Abbreviation base := (base locals).
Abbreviation shows := (shows locals (asd := asd)).
Abbreviation good := (good (H := H) locals).
Abbreviation done_with := (done_with (H := H) locals).
Abbreviation ready := (ready locals).
Abbreviation reads_exp := (reads_exp (H := H) (asd := asd) locals).
Abbreviation parse := (parse _sourcename _lineinfo).

Lemma rest_stop g l c (Q : () → SQCompiler → Prop) : (2 ≤ l ≤ 11)%nat → (reach (_token c) ≤ l)%nat → Q () c → runs (parse (S g) (rest_of l)) c Q.
Proof using Type.
  intros Hl Hr HQ. assert (∀ k, (l < reach k)%nat → (_token c =? k) = false) as Hne by (intros k Hk; apply Z.eqb_neq; intros E; rewrite E in Hr; lia).
  assert (l = 2 ∨ l = 3 ∨ l = 4 ∨ l = 5 ∨ l = 6 ∨ l = 7 ∨ l = 8 ∨ l = 9 ∨ l = 10 ∨ l = 11)%nat as Hc by lia. clear Hl Hr. destruct_or! Hc; subst l; cbn [SqCompiler.parse rest_of SqCompiler.run];
    unfold logical_and_rest, bitwise_or_rest, bitwise_xor_rest, bitwise_and_rest, eq_rest, comp_rest, shift_rest, plus_rest, mult_rest, prefixed_rest;
    apply runs_bind, runs_token; cbn [switch]; rewrite !Hne by (vm_compute; lia); done.
Qed.

(** The loop goes on at an operator. *)
Lemma rest_op g c w o ws (rest : list tok) Q : shows c w → w_ts w = (SOperator (op_text o), ws) :: rest →
  runs (BIN_EXP (parse g) (bin_opcode o) (exp_of (S (op_level o))) (bin_arg o);; parse g (rest_of (op_level o))) c Q → runs (parse (S g) (rest_of (op_level o))) c Q.
Proof using Type.
  intros Hs Ew HQ. pose proof (shows_token locals c w Hs) as Et. rewrite Ew in Et. cbn [head_code] in Et.
  destruct o; cbn [SqCompiler.parse rest_of SqCompiler.run op_level];
    unfold logical_and_rest, bitwise_or_rest, bitwise_xor_rest, bitwise_and_rest, eq_rest, comp_rest, shift_rest, plus_rest, mult_rest;
    apply runs_bind, runs_token; rewrite Et; exact HQ.
Qed.

(** An expression begins with a token that ends neither a statement nor a list. *)
Definition statement_tokens : list Z :=
  [ch ";"; TK_IF; TK_WHILE; TK_DO; TK_FOR; TK_FOREACH; TK_SWITCH; TK_LOCAL; TK_RETURN; TK_YIELD; TK_BREAK; TK_CONTINUE; TK_FUNCTION; TK_CLASS; TK_ENUM; ch "{"; TK_TRY; TK_THROW; TK_CONST].
Definition no_expression : list Z := statement_tokens ++ [ch ")"; ch "}"; SQUIRREL_EOB; TK_ELSE; TK_CASE; TK_DEFAULT].
Definition begins (ts : list tok) : Prop := ts ≠ [] ∧ existsb (Z.eqb (head_code ts)) no_expression = false.
Lemma begins_not ts k : begins ts → existsb (Z.eqb k) no_expression = true → (head_code ts =? k) = false.
Proof using Type. intros [_ Hb] Hk. apply Z.eqb_neq. intros E. rewrite E in Hb. congruence. Qed.
Lemma begins_app ts ts' : begins ts → begins (ts ++ ts').
Proof using Type. intros [Hn Hk]. destruct ts as [|[t ws] ts]; done. Qed.
Lemma spells_begins l p e ts : spells locals l p e ts → begins ts.
Proof using Type.
  revert l p e ts. apply (spells_ind' locals (λ _ _ _ ts, begins ts) (λ _ _, True)); try done; intros; try (by apply begins_app); try (by split).
  - destruct t; try done; by split.
  - destruct o; try done; by split.
  - destruct H0 as [Hx| ->]; [|by split]. split; [done|]. cbn [head_code]. by rewrite name_code.
  - split; [done|]. cbn [head_code]. by rewrite name_code.
  - destruct o; by split.
  - split; [done|]. cbn [head_code app]. by rewrite name_code.
Qed.
Lemma spells_nonempty l p e ts : spells locals l p e ts → ts ≠ [].
Proof using Type. intros Hs. by apply spells_begins in Hs as [? _]. Qed.

(** ** Reading at a level *)

(** What may follow an expression of level [l] that the loop goes on with *)
Definition loop_reach (l : nat) : nat := if (l =? 12)%nat then 12%nat else S l.
Definition looping (l : nat) : bool := (3 <=? l)%nat && (l <=? 10)%nat || (l =? 12)%nat.

(** The function of the level reads the expression. *)
Definition direct (l : nat) (p : bool) (e : exp) (ts : list tok) : Prop :=
  ∀ fuel, (need l ts ≤ fuel)%nat → reads_exp (parse fuel (exp_of l)) (Nat.min l 12) p e ts.
(** The function reads the expression and is then in its loop. *)
Definition loops (l : nat) (p : bool) (e : exp) (ts : list tok) : Prop := ∀ fuel c w rest b Q,
  (need l ts ≤ fuel)%nat → shows c w → ready b e ts rest w → follows (loop_reach l) p rest →
  (∀ c' w' fuel', shows c' w' → done_with e p ts rest w w' → (fuel < fuel' + need l ts)%nat → runs (parse fuel' (rest_of l)) c' Q) →
  runs (parse fuel (exp_of l)) c Q.

(** The loop ends. *)
Lemma loops_direct l p e ts : (3 ≤ l ≤ 10)%nat → loops l p e ts → direct l p e ts.
Proof using Type.
  intros Hl Hc fuel Hn c w rest b Hs Hrd [Hr Hp]. rewrite Nat.min_l in Hr by lia. apply (Hc fuel c w rest b); [done|done|done| |].
  - split; [|done]. unfold loop_reach. destruct (l =? 12)%nat; lia.
  - intros c' w' fuel' Hs' Hd Hf. destruct fuel' as [|g]; [lia|]. apply rest_stop; [lia| |by exists w'].
    rewrite (shows_token locals c' w' Hs'), (dw_ts _ _ _ _ _ _ _ Hd). done.
Qed.

Lemma done_weaken e p ts rest w w' : done_with e p ts rest w w' → done_with e false ts rest w w'.
Proof using Type. intros []. by split. Qed.
Lemma need_pos l ts : ts ≠ [] → (16 ≤ need l ts)%nat.
Proof using Type. intros Hn. unfold need. destruct ts; [done|]. cbn [length]. lia. Qed.
Lemma need_up l ts : (l ≤ 13)%nat → need l ts = S (need (S l) ts).
Proof using Type. unfold need. lia. Qed.

(** From a level to the one below *)
Lemma parse_loop g l : (3 ≤ l ≤ 10)%nat → parse (S g) (exp_of l) = (parse g (exp_of (S l));; parse g (rest_of l)).
Proof using Type. intros Hl. assert (l = 3 ∨ l = 4 ∨ l = 5 ∨ l = 6 ∨ l = 7 ∨ l = 8 ∨ l = 9 ∨ l = 10)%nat as Hc by lia. clear Hl. by destruct_or! Hc; subst l. Qed.
Lemma up_loops l p e ts : (3 ≤ l ≤ 10)%nat → ts ≠ [] → direct (S l) p e ts → loops l false e ts.
Proof using Type.
  intros Hl Hts Hd fuel c w rest b Q Hn Hs Hrd Hf HQ. pose proof (need_up l ts). pose proof (need_pos l ts Hts). destruct fuel as [|g]; [lia|]. rewrite parse_loop by done.
  apply runs_bind. eapply runs_mono; [apply (Hd g) with (b := b); [lia|done|done|]|].
  { apply follows_any. unfold loop_reach in Hf. rewrite (proj2 (Nat.eqb_neq l 12)) in Hf by lia. by rewrite Nat.min_l by lia. }
  intros [] c1 (w1 & Hs1 & Hd1). apply (HQ c1 w1 g Hs1); [by eapply done_weaken|]. lia.
Qed.
Lemma up_factor p e ts : ts ≠ [] → direct 13 p e ts → loops 12 p e ts.
Proof using Type.
  intros Hts Hd fuel c w rest b Q Hn Hs Hrd Hf HQ. pose proof (need_up 12 ts). pose proof (need_pos 12 ts Hts). destruct fuel as [|g]; [lia|]. cbn [SqCompiler.parse exp_of SqCompiler.run].
  unfold PrefixedExpr. apply runs_bind. eapply runs_mono; [apply (Hd g) with (b := b); [lia|done|done|done]|].
  intros [] c1 (w1 & Hs1 & Hd1). apply (HQ c1 w1 g Hs1 Hd1). lia.
Qed.
Lemma up_prefixed p e ts : loops 12 p e ts → direct 11 false e ts.
Proof using Type.
  intros Hc fuel Hn c w rest b Hs Hrd [Hr Hp]. change (Nat.min 11 12) with 11%nat in Hr. apply (Hc fuel c w rest b); [unfold need in *; lia|done|done| |].
  - split; [change (loop_reach 12) with 12%nat; lia|]. intros Hpar. rewrite Hpar in Hr. vm_compute in Hr. lia.
  - intros c' w' fuel' Hs' Hd Hf. assert (need 12 ts ≤ need 11 ts)%nat by (unfold need; lia). destruct fuel' as [|g]; [lia|].
    apply (rest_stop g 11); [lia| |exists w'; split; [done|by eapply done_weaken]]. by rewrite (shows_token locals c' w' Hs'), (dw_ts _ _ _ _ _ _ _ Hd).
Qed.
Lemma up_and p e ts : ts ≠ [] → direct 3 p e ts → direct 2 false e ts.
Proof using Type.
  intros Hts Hd fuel Hn c w rest b Hs Hrd Hf. pose proof (need_up 2 ts). pose proof (need_pos 2 ts Hts). destruct fuel as [|[|g]]; [lia|lia|]. cbn [SqCompiler.parse exp_of SqCompiler.run].
  unfold LogicalAndExp. apply runs_bind. eapply runs_mono; [apply (Hd (S g)) with (b := b); [lia|done|done|]|].
  { apply follows_any. destruct Hf as [Hr Hp]. split; [|done]. change (Nat.min 2 12) with 2%nat in Hr. change (Nat.min 3 12) with 3%nat. lia. }
  intros [] c1 (w1 & Hs1 & Hd1). apply (rest_stop g 2); [lia| |exists w1; split; [done|by eapply done_weaken]].
  rewrite (shows_token locals c1 w1 Hs1), (dw_ts _ _ _ _ _ _ _ Hd1). apply Hf.
Qed.
Lemma up_or p e ts : ts ≠ [] → direct 2 p e ts → direct 1 false e ts.
Proof using Type.
  intros Hts Hd fuel Hn c w rest b Hs Hrd Hf. pose proof (need_up 1 ts). pose proof (need_pos 1 ts Hts). destruct fuel as [|g]; [lia|]. cbn [SqCompiler.parse exp_of SqCompiler.run].
  unfold LogicalOrExp. apply runs_bind. eapply runs_mono; [apply (Hd g) with (b := b); [lia|done|done|]|].
  { apply follows_any. destruct Hf as [Hr Hp]. split; [|done]. change (Nat.min 1 12) with 1%nat in Hr. change (Nat.min 2 12) with 2%nat. lia. }
  intros [] c1 (w1 & Hs1 & Hd1). apply runs_bind, runs_token. rewrite (shows_token locals c1 w1 Hs1), (dw_ts _ _ _ _ _ _ _ Hd1).
  apply runs_when; [|intros _; exists w1; split; [done|by eapply done_weaken]]. intros Ht%Z.eqb_eq. destruct Hf as [Hr _]. rewrite Ht in Hr. vm_compute in Hr. lia.
Qed.

(** ** Binary operators *)

Lemma ready_first b e e1 ts1 (ts2 rest : list tok) w : ready b e (ts1 ++ ts2) rest w → (width e1 ≤ width e)%nat → testable b e1 = true → ready b e1 ts1 (ts2 ++ rest) w.
Proof using Type. intros [Ew Hw Hr Ht Hc] Hle Ht1. split; try done; [by rewrite Ew, <- app_assoc|lia]. Qed.
Lemma op_level_range o : (3 ≤ op_level o ≤ 10)%nat.
Proof using Type. destruct o; cbn; lia. Qed.
Lemma op_reach o ws (rest : list tok) p : follows (S (op_level o)) p ((SOperator (op_text o), ws) :: rest).
Proof using Type. split; [destruct o; cbv; lia|by destruct o]. Qed.

Lemma binary_loops o p1 p2 e1 e2 ts1 ts2 ws : loops (op_level o) p1 e1 ts1 → direct (S (op_level o)) p2 e2 ts2 → good e1 → good e2 → ts1 ≠ [] → ts2 ≠ [] →
  loops (op_level o) false (EBin o e1 e2) (ts1 ++ (SOperator (op_text o), ws) :: ts2).
Proof using Type.
  intros H1 H2 G1 G2 Hts1 Hts2 fuel c w rest b Q Hn Hs Hrd Hf HQ. pose proof (op_level_range o) as Hl. unfold need in Hn, HQ. rewrite length_app in Hn, HQ. cbn [length] in Hn, HQ.
  assert (loop_reach (op_level o) = S (op_level o)) as Er by (unfold loop_reach; by rewrite (proj2 (Nat.eqb_neq _ 12)) by lia).
  apply (H1 fuel c w ((SOperator (op_text o), ws) :: ts2 ++ rest) b); [unfold need; lia|done| |rewrite Er; apply op_reach|].
  { pose proof (rd_testable _ _ _ _ _ _ Hrd) as Ht. cbn [testable] in Ht. apply andb_true_iff in Ht as [Ht _]. apply (ready_first b (EBin o e1 e2) e1 ts1 ((SOperator (op_text o), ws) :: ts2) rest w Hrd); [cbn; lia|done]. }
  intros c1 w1 fuel' Hs1 Hd1 Hlt. unfold need in Hlt. destruct fuel' as [|g]; [lia|]. apply (rest_op g c1 w1 o ws (ts2 ++ rest)); [done|by apply (dw_ts _ _ _ _ _ _ _ Hd1)|].
  apply runs_bind. eapply runs_mono; [eapply (runs_BIN_EXP locals (parse g) c1 w w1 o p1 e1 ts1 p2 e2 ts2 ws rest b _ _ Hs1 Hd1 G1 G2 Hts2)|].
  { apply (H2 g). unfold need. lia. } { rewrite Nat.min_l by lia. by rewrite Er in Hf. } { exact Hrd. }
  intros [] c2 (w2 & Hs2 & Hd2). apply (HQ c2 w2 g Hs2 Hd2). lia.
Qed.

(** ** [&&] and [||] *)

Lemma and_direct p1 p2 e1 e2 ts1 ts2 ws : direct 3 p1 e1 ts1 → direct 2 p2 e2 ts2 → good e1 → good e2 → ts1 ≠ [] → ts2 ≠ [] →
  direct 2 false (EAnd e1 e2) (ts1 ++ (SOperator ["&"; "&"]%char, ws) :: ts2).
Proof using Type.
  intros H1 H2 G1 G2 Hts1 Hts2 fuel Hn c w rest b Hs Hrd Hf. unfold need in Hn. rewrite length_app in Hn. cbn [length] in Hn.
  destruct fuel as [|[|g]]; [lia|lia|]. cbn [SqCompiler.parse exp_of SqCompiler.run]. unfold LogicalAndExp. apply runs_bind.
  eapply runs_mono; [apply (H1 (S g)) with (b := b) (rest := (SOperator ["&"; "&"]%char, ws) :: ts2 ++ rest); [unfold need; lia|done| |split; [by vm_compute; lia|done]]|].
  { pose proof (rd_testable _ _ _ _ _ _ Hrd) as Ht. cbn [testable] in Ht. apply andb_true_iff in Ht as [Ht _]. apply (ready_first b (EAnd e1 e2) e1 ts1 (_ :: ts2) rest w Hrd); [cbn; lia|done]. }
  intros [] c1 (w1 & Hs1 & Hd1). cbn [SqCompiler.parse SqCompiler.run]. unfold logical_and_rest. apply runs_bind, runs_token.
  rewrite (shows_token locals c1 w1 Hs1), (dw_ts _ _ _ _ _ _ _ Hd1). apply runs_when; [intros _|done].
  apply runs_bind. eapply runs_mono; [eapply (runs_shortcut locals (parse g) true b w w1 p1 e1 ts1 _ ws e2 ts2 rest Hd1 G1 G2 Hts2 Hrd c1 p2 NLogicalAndExp 2 Hs1)|].
  { apply (H2 g). unfold need. lia. } { exact Hf. }
  intros [] c2 (w2 & Hs2 & Hd2). destruct g as [|g]; [lia|]. apply (rest_stop g 2); [lia| |by exists w2]. rewrite (shows_token locals c2 w2 Hs2), (dw_ts _ _ _ _ _ _ _ Hd2). apply Hf.
Qed.
Lemma or_direct p1 p2 e1 e2 ts1 ts2 ws : direct 2 p1 e1 ts1 → direct 1 p2 e2 ts2 → good e1 → good e2 → ts1 ≠ [] → ts2 ≠ [] →
  direct 1 false (EOr e1 e2) (ts1 ++ (SOperator ["|"; "|"]%char, ws) :: ts2).
Proof using Type.
  intros H1 H2 G1 G2 Hts1 Hts2 fuel Hn c w rest b Hs Hrd Hf. unfold need in Hn. rewrite length_app in Hn. cbn [length] in Hn.
  destruct fuel as [|g]; [lia|]. cbn [SqCompiler.parse exp_of SqCompiler.run]. unfold LogicalOrExp. apply runs_bind.
  eapply runs_mono; [apply (H1 g) with (b := b) (rest := (SOperator ["|"; "|"]%char, ws) :: ts2 ++ rest); [unfold need; lia|done| |split; [by vm_compute; lia|done]]|].
  { pose proof (rd_testable _ _ _ _ _ _ Hrd) as Ht. cbn [testable] in Ht. apply andb_true_iff in Ht as [Ht _]. apply (ready_first b (EOr e1 e2) e1 ts1 (_ :: ts2) rest w Hrd); [cbn; lia|done]. }
  intros [] c1 (w1 & Hs1 & Hd1). apply runs_bind, runs_token.
  rewrite (shows_token locals c1 w1 Hs1), (dw_ts _ _ _ _ _ _ _ Hd1). apply runs_when; [intros _|done].
  eapply (runs_shortcut locals (parse g) false b w w1 p1 e1 ts1 _ ws e2 ts2 rest Hd1 G1 G2 Hts2 Hrd c1 p2 NLogicalOrExp 1 Hs1); [|exact Hf].
  apply (H2 g). unfold need. lia.
Qed.

(** ** Whole expressions *)

(** [Expression] leaves the kind of the expression around it as it was. *)
Definition value (e : exp) (ts : list tok) : Prop := ∀ fuel c w rest b, (need 0 ts ≤ fuel)%nat → shows c w → ready b e ts rest w → follows 0 false rest →
  runs (parse fuel NExpression) c (λ _ c', ∃ w', shows c' w' ∧ done_with e false ts rest w w' ∧ w_etype w' = w_etype w).
Lemma value_reads e ts fuel : value e ts → (need 0 ts ≤ fuel)%nat → reads_exp (parse fuel NExpression) 0 false e ts.
Proof using Type.
  intros Hv Hn c w rest b Hs Hrd Hf. eapply runs_mono; [by apply (Hv fuel c w rest b)|]. intros [] c' (w' & Hs' & Hd & _). by exists w'.
Qed.

Lemma ready_et b e ts rest w t : ready b e ts rest w → ready b e ts rest (set_et t w).
Proof using Type. intros []. by split. Qed.
Lemma done_et e p ts rest t t' w w' : done_with e p ts rest (set_et t w) w' → done_with e false ts rest w (set_et t' w').
Proof using Type. intros [? ? ? [] ? ? ? ?]. split; try done; by split. Qed.

Lemma up_value p e ts : ts ≠ [] → direct 1 p e ts → value e ts.
Proof using Type.
  intros Hts Hd fuel c w rest b Hn Hs Hrd [Hr Hp]. pose proof (need_up 0 ts). pose proof (need_pos 0 ts Hts). destruct fuel as [|g]; [lia|]. cbn [SqCompiler.parse SqCompiler.run].
  unfold Expression. eapply runs_fresh_es; [exact Hs|]. intros c1 Hs1. apply runs_bind.
  eapply runs_mono; [apply (Hd g) with (b := b); [lia|exact Hs1|by apply ready_et|apply follows_any; split; [lia|done]]|].
  intros [] c2 (w2 & Hs2 & Hd2). apply runs_bind, runs_token. rewrite (shows_token locals c2 w2 Hs2), (dw_ts _ _ _ _ _ _ _ Hd2).
  assert (∀ k, (0 < reach k)%nat → (head_code rest =? k) = false) as Hne by (intros k Hk; apply Z.eqb_neq; intros E; rewrite E in Hr; lia).
  cbn [switch]. rewrite !Hne by (vm_compute; lia). apply runs_ret. exists w2. split; [done|]. intros c3 Hs3. eexists. split; [exact Hs3|]. split; [by eapply done_et|done].
Qed.

(** ** The conditional *)

Lemma conditional_value p e e1 e2 ts ts1 ts2 ws1 ws2 : direct 1 p e ts → value e1 ts1 → value e2 ts2 → good e → good e1 → good e2 → ts ≠ [] → ts2 ≠ [] →
  value (ECond e e1 e2) (ts ++ (SOperator ["?"%char], ws1) :: ts1 ++ (SOperator [":"%char], ws2) :: ts2).
Proof using Type.
  intros Hd H1 H2 G G1 G2 Hts Hts2 fuel c w rest b Hn Hs Hrd Hf. unfold need in Hn. rewrite length_app in Hn. cbn [length] in Hn. rewrite length_app in Hn. cbn [length] in Hn.
  destruct fuel as [|g]; [lia|]. cbn [SqCompiler.parse SqCompiler.run]. unfold Expression. eapply runs_fresh_es; [exact Hs|]. intros c1 Hs1. apply runs_bind.
  apply (ready_et _ _ _ _ _ EXPR) in Hrd.
  eapply runs_mono; [apply (Hd g) with (b := b) (rest := (SOperator ["?"%char], ws1) :: ts1 ++ (SOperator [":"%char], ws2) :: ts2 ++ rest); [unfold need; lia|exact Hs1| |split; [by vm_compute; lia|done]]|].
  { pose proof (rd_testable _ _ _ _ _ _ Hrd) as Ht. cbn [testable] in Ht. apply andb_true_iff in Ht as [[[Ht _]%andb_true_iff _]%andb_true_iff _].
    pose proof (ready_first b (ECond e e1 e2) e ts (_ :: ts1 ++ _ :: ts2) rest _ Hrd ltac:(cbn; lia) Ht) as Hrd'. cbn [app] in Hrd'. by rewrite <- app_assoc in Hrd'. }
  intros [] c2 (w2 & Hs2 & Hd2). apply runs_bind, runs_token. rewrite (shows_token locals c2 w2 Hs2), (dw_ts _ _ _ _ _ _ _ Hd2). cbn [head_code]. pick.
  eapply runs_mono; [eapply (runs_conditional locals (parse g) b _ w2 p e e1 e2 ts ts1 ts2 rest _ _ Hd2 G G1 G2 Hts2 Hrd c2 false false ws1 ws2 Hs2); try done|].
  { apply value_reads; [done|]. unfold need. lia. } { apply value_reads; [done|]. unfold need. lia. }
  intros [] c3 (w3 & Hs3 & Hd3). exists w3. split; [done|]. intros c4 Hs4. eexists. split; [exact Hs4|]. split; [by eapply done_et|done].
Qed.

(** ** Factors *)

Lemma unary_direct o p e ts ws : direct 11 p e ts → good e → ts ≠ [] → folds o && starts_number ts = false → direct 11 false (EUn o e) ((un_text o, ws) :: ts).
Proof using Type.
  intros Hd G Hts Hn fuel Hfu c w rest b Hs Hrd Hf. unfold need in Hfu. cbn [length] in Hfu. destruct fuel as [|[|g]]; [lia|lia|]. cbn [SqCompiler.parse exp_of SqCompiler.run].
  assert (need 11 ts ≤ g)%nat as Hg by (unfold need; lia). pose proof (factor_unary (H := H) _sourcename locals (parse g) o p e ts ws (Hd g Hg) G Hts Hn) as Hfac.
  unfold PrefixedExpr. apply runs_bind. eapply runs_mono; [exact (Hfac c w rest b Hs Hrd Hf)|].
  intros [] c1 (w1 & Hs1 & Hd1). apply (rest_stop g 11); [lia| |by exists w1]. rewrite (shows_token locals c1 w1 Hs1), (dw_ts _ _ _ _ _ _ _ Hd1). apply Hf.
Qed.
(** What [Factor] reads whatever the functions below it do *)
Lemma factor_direct p e ts : ts ≠ [] → (∀ rec, reads_exp (Factor _sourcename rec) 12 p e ts) → direct 13 p e ts.
Proof using Type. intros Hts Hr fuel Hn. pose proof (need_pos 13 ts Hts). destruct fuel as [|g]; [lia|]. apply Hr. Qed.
Lemma value_comma e ts fuel : value e ts → ts ≠ [] → (need 0 ts < fuel)%nat → reads_comma locals (parse fuel NCommaExpr) false e ts.
Proof using Type.
  intros Hv Hts Hn c w rest b Hs Hrd Hf Hc. pose proof (need_pos 0 ts Hts). destruct fuel as [|[|g]]; [lia|lia|]. cbn [SqCompiler.parse SqCompiler.run]. unfold CommaExpr. apply runs_bind.
  eapply runs_mono; [apply (value_reads e ts (S g)) with (b := b); [done|lia|done|done|done]|]. intros [] c1 (w1 & Hs1 & Hd1). cbn [SqCompiler.parse SqCompiler.run]. unfold comma_rest.
  apply runs_bind, runs_token. rewrite (shows_token locals c1 w1 Hs1), (dw_ts _ _ _ _ _ _ _ Hd1), (proj2 (Z.eqb_neq _ _)) by done. apply runs_when; [done|intros _]. by exists w1.
Qed.
Lemma paren_direct e ts w1 w2 : value e ts → ts ≠ [] → direct 13 true e ((SOperator ["("%char], w1) :: ts ++ [(SOperator [")"%char], w2)]).
Proof using Type.
  intros Hv Hts fuel Hn. unfold need in Hn. cbn [length] in Hn. rewrite length_app in Hn. cbn [length] in Hn. destruct fuel as [|g]; [lia|].
  assert (need 0 ts < g)%nat as Hg by (unfold need; lia). exact (factor_paren (H := H) _sourcename locals (parse g) false e ts w1 w2 Hts (value_comma e ts g Hv Hts Hg)).
Qed.
End levels.
