(* ===== verification/SqCompilerCalls.v ===== *)
(** * Members and calls are compiled right

    The chain of members, indices and calls behind a factor, and the arguments of a
    call. *)

From Stdlib Require Import Ascii.
From stdpp Require Import base numbers gmap strings option list.
From S2P Require Import Prelude CType SqObject SqArrayLib SqString SqLexer SqLexerSpec SqLexerRound SqKeywords SqFuncState SqCompiler SqCompilerEnds SqVm SqPeephole SqCompilerRead SqExpression SqCompilerView SqCompilerCode SqCompilerEval SqCompilerExpr SqCompilerOps SqCompilerLevels.

Open Scope Z_scope.

Section calls.
Context {KT : KeywordTable} {FR : FloatReader} {AL : Allocator} {H : Type} {RT : Runtime H}.
Context (_sourcename : SQObject) (_lineinfo : bool) (locals : list (list ascii)) {asd : aside}.
Abbreviation base := (base locals).
Abbreviation shows := (shows locals (asd := asd)).
Abbreviation emitted := (emitted locals).
Abbreviation place := (place locals).
Abbreviation good := (good (H := H) locals).
Abbreviation done_with := (done_with (H := H) locals).
Abbreviation operands := (operands (H := H) locals).
Abbreviation ready := (ready locals).
Abbreviation reads_exp := (reads_exp (H := H) (asd := asd) locals).
Abbreviation parse := (parse _sourcename _lineinfo).
Abbreviation op s := (SOperator [s%char]).

Lemma temps_width k e : (temps_after k e ≤ k + width e)%nat.
Proof using Type. unfold temps_after. destruct e; cbn; lia. Qed.
Lemma temps_next k e : (k ≤ temps_after k e ≤ S k)%nat.
Proof using Type. unfold temps_after. destruct (is_var e); lia. Qed.

(** ** Members *)

Section chain.
Context (rec : nonterminal → cM ()).

Lemma runs_deref c w Q : shows c w → runs member_tail c Q → runs deref c Q.
Proof using Type.
  intros Hs HQ. unfold deref. apply runs_bind, runs_gets. rewrite (sh_etype _ _ _ Hs), bool_decide_eq_false_2; [exact HQ|apply (sh_base _ _ _ Hs)].
Qed.

(** The name behind a dot *)
Lemma runs_dot c w w1 p e ts x wa wb (rest : list tok) Q : shows c w1 → done_with e p ts ((op ".", wa) :: (SName x, wb) :: rest) w w1 → is_name x = true → room w →
  base + Z.of_nat (temps_after (w_temps w) e) < 255 →
  (∀ c2 w2, shows c2 w2 → operands e (EString x) rest w w2 → (∀ ts : list tok, last ts = Some (SName x, wb) → rest ≠ [] → w_prev w2 = prev_of ts) →
     runs (deref;; rec NPrefixedRest) c2 Q) → runs (prefixed_rest rec) c Q.
Proof using Type.
  intros Hs Hd Hx Hr Hk HQ. pose proof Hd as [E1 Et Em [Gs Gl Gc Gi] _ _ _ _ Dc]. unfold prefixed_rest. apply runs_bind, runs_token. rewrite (shows_token locals c w1 Hs), E1. cbn [head_code].
  change (code_of (op ".")) with (ch "."). pick. apply runs_bind. eapply runs_mono; [by apply (runs_Lex locals c w1 (op ".") wa ((SName x, wb) :: rest) Hs)|]. intros [] c1 (q & Hs1 & _).
  apply runs_bind. eapply runs_mono; [apply (runs_NewTarget locals c1 _ Hs1); cbn; rewrite Em; lia|]. intros n c2 [-> Hs2]. cbn in Hs2. cbn [w_temps set_ts]. rewrite Em in Hs2 |- *.
  apply runs_bind. eapply runs_mono; [by apply (runs_expect_name locals c2 _ x wb rest Hs2)|]. intros o c3 (sm & a & q3 & Hs3 & Hsub & -> & Ha & Hq3). cbn in Hsub.
  eapply (runs_named locals c3 e x a rest w _ _ _ Hs3); [|done|done|].
  - rewrite E1 in Gc, Gi. cbn in Gc, Gi. split; cbn; try done; [by rewrite Et, <- app_assoc|split; cbn; [by etrans|done|lia|lia]|lia|].
    intros pre X Hem. apply (emitted_grow locals _ _ w1); [|done..]. specialize (Dc pre X Hem). by rewrite Em in Dc.
  - intros c4 w4 Hs4 Hop Ep. apply (HQ c4 w4 Hs4 Hop). rewrite Ep. exact (prev_ok (SName x) wb rest q3 Hq3).
Qed.

Lemma rest_member c w w1 p e ts x wa wb (rest : list tok) b Q : 0 < base → shows c w1 → done_with e p ts ((op ".", wa) :: (SName x, wb) :: rest) w w1 → is_name x = true → good e →
  ready b (EMember e x) (ts ++ [(op ".", wa); (SName x, wb)]) rest w → follows 12 false rest →
  (∀ c' w', shows c' w' → done_with (EMember e x) false (ts ++ [(op ".", wa); (SName x, wb)]) rest w w' → runs (rec NPrefixedRest) c' Q) → runs (prefixed_rest rec) c Q.
Proof using Type.
  intros Hb Hs Hd Hx G [_ Hw Hr _ _] Hf HQ. cbn in Hw. pose proof (temps_width (w_temps w) e). apply (runs_dot c w w1 p e ts x wa wb rest); [done|done|done|done|lia|].
  intros c2 w2 Hs2 Hop Hp. apply runs_bind, (runs_deref c2 w2); [done|]. eapply runs_mono.
  - apply (tail_get locals c2 (EMember e x) e (EString x) (ts ++ [(op ".", wa); (SName x, wb)]) rest w w2); try done; [cbn; lia|lia|].
    apply Hp. by rewrite last_app.
  - intros [] c3 (w3 & Hs3 & Hd3). by apply (HQ c3 w3).
Qed.

(** ** Indices *)

Lemma rest_index c w w1 p p2 e e2 ts ts2 wa wb (rest : list tok) b Q : 0 < base → shows c w1 → done_with e p ts ((op "[", wa) :: ts2 ++ (op "]", wb) :: rest) w w1 → newline_free ts = true → good e → good e2 →
  reads_exp (rec NExpression) 0 p2 e2 ts2 → ready b (EIndex e e2) (ts ++ (op "[", wa) :: ts2 ++ [(op "]", wb)]) rest w → follows 12 false rest →
  (∀ c' w', shows c' w' → done_with (EIndex e e2) false (ts ++ (op "[", wa) :: ts2 ++ [(op "]", wb)]) rest w w' → runs (rec NPrefixedRest) c' Q) → runs (prefixed_rest rec) c Q.
Proof using Type.
  intros Hb Hs Hd Hnl G G2 Hrec [_ Hw Hr Ht Hc] Hf HQ. cbn in Hw, Ht. apply andb_true_iff in Ht as [Ht1 Ht2]. pose proof (dw_ts _ _ _ _ _ _ _ Hd) as E1.
  unfold prefixed_rest. apply runs_bind, runs_token. rewrite (shows_token locals c w1 Hs), E1. cbn [head_code]. change (code_of (op "[")) with (ch "["). pick.
  apply runs_bind, runs_gets, runs_bind. rewrite (sh_prev _ _ _ Hs), (dw_prev _ _ _ _ _ _ _ Hd), (proj2 (Z.eqb_neq (prev_of ts) _)) by (try done; by apply prev_of_newline_free). apply runs_when; [done|intros _].
  apply runs_bind. eapply runs_mono; [by apply (runs_Lex locals c w1 (op "[") wa (ts2 ++ (op "]", wb) :: rest) Hs)|]. intros [] c1 (q & Hs1 & _).
  assert (passes 1 w1 (set_ts (ts2 ++ (op "]", wb) :: rest) q w1)) as Hps by (split; try done; by rewrite E1).
  apply runs_bind. eapply runs_mono; [apply (Hrec c1 _ ((op "]", wb) :: rest) (leaves_cmp b e) Hs1); [|done]|].
  { eapply (ready_second locals _ e e2 p ts _ w w1); [exact Hd|exact Hps|done|done|lia|done|]. intros Hl. by apply (no_cmp_after locals b e p ts _ w w1 Hd). }
  intros [] c2 (w2 & Hs2 & Hd2). pose proof (dw_ts _ _ _ _ _ _ _ Hd2) as E2.
  apply runs_bind. eapply runs_mono; [by apply (runs_expect locals c2 w2 (op "]") wb rest _ Hs2)|]. intros [] c3 (q3 & Hs3 & Hq3).
  assert (passes 1 w2 (set_ts rest q3 w2)) as Hps2 by (split; try done; by rewrite E2).
  pose proof (operands_done locals e e2 _ _ _ _ _ _ w w1 _ w2 _ _ Hd Hps Hd2 Hps2) as Hop. cbn in Hop. pose proof (temps_width (temps_after (w_temps w) e) e2). pose proof (temps_next (w_temps w) e).
  apply runs_bind, (runs_deref c3 _ _ Hs3). eapply runs_mono.
  - apply (tail_get locals c3 (EIndex e e2) e e2 (ts ++ (op "[", wa) :: ts2 ++ [(op "]", wb)]) rest w _ Hs3 Hop); try done; [lia|lia|].
    intros Hrn. rewrite app_comm_cons, app_assoc, prev_of_app by done. exact (prev_ok (op "]") wb rest q3 Hq3 [_] eq_refl Hrn).
  - intros [] c4 (w4 & Hs4 & Hd4). by apply (HQ c4 w4).
Qed.
End chain.

(** ** Calls *)

(** The function to be called is where [f] has its value, and its [this] is in the
    register behind; what was done to get there is [Y]. *)
Record frame (f : exp) (rest : list tok) (w wf : view) (Y : sem → sem) : Prop := {
  fr_ts : w_ts wf = rest;
  fr_targets : w_targets wf = w_targets w ++ [place (w_temps w) f; base + Z.of_nat (temps_after (w_temps w) f)];
  fr_temps : w_temps wf = S (temps_after (w_temps w) f);
  fr_grown : grown 1 w wf;
  fr_cmp : no_cmp wf;
  fr_code : ∀ pre X, emitted pre (base + Z.of_nat (w_temps w)) w X → emitted pre (base + Z.of_nat (w_temps wf)) wf (Y X)
}.
(** The [this] of the function *)
Definition with_this (k : nat) (f : exp) (X : sem) : sem :=
  then_ (then_ X (eval_to (H := H) f (place k f))) (on_one 0 (base + Z.of_nat (temps_after k f)) RVal).
(** The member of an object, with the object *)
Definition with_member (k : nat) (e : exp) (x : list ascii) (X : sem) : sem :=
  then_ (then_ (then_ X (eval_to (H := H) e (place k e))) (eval_to (EString x) (base + Z.of_nat (temps_after k e))))
    (prepare (place k e) (base + Z.of_nat (temps_after k e)) (base + Z.of_nat k) (base + Z.of_nat (S k))).

Lemma no_cmp_emits i w code opt : emits (H := H) locals i w code opt → iop i ≠ _OP_CMP → no_cmp (set_code code opt w).
Proof using Type. intros [_ Hcmp _] Hi pi Ho Hl Hop. by rewrite (Hcmp pi Ho Hl Hop) in Hop. Qed.

Lemma runs_call_this c w w1 f ts wa (rest : list tok) : 0 < base → shows c w1 → done_with f true ts ((op "(", wa) :: rest) w w1 → good f → base + Z.of_nat (S (w_temps w)) < 255 →
  runs (call_prologue;; set_etype EXPR;; Lex) c (λ _ c', ∃ wf, shows c' wf ∧ w_etype wf = EXPR ∧ frame f rest w wf (with_this (w_temps w) f)).
Proof using Type.
  intros Hb Hs Hd G Hk. pose proof Hd as [E1 Et Em Hg _ _ De _ Dc]. pose proof (temps_next (w_temps w) f) as Hn. set (k1 := temps_after (w_temps w) f) in *.
  unfold call_prologue. apply runs_bind, runs_bind, runs_gets. rewrite (sh_etype _ _ _ Hs).
  assert (∀ (m1 m2 m3 : cM ()), match w_etype w1 with OBJECT => m1 | OUTER => m2 | _ => m3 end = m3) as Hm by (intros; by destruct (De eq_refl) as [->| ->]). rewrite Hm. clear Hm.
  apply runs_bind. eapply runs_mono; [apply (runs_NewTarget locals c w1 Hs); rewrite Em; lia|]. intros n c1 [-> Hs1]. rewrite Em in Hs1 |- *. fold k1 in Hs1 |- *.
  eapply runs_mono; [apply (runs_emits (H := H) locals c1 _ _ _ _ _ _ Hs1); try lia; try done; by apply plain_temp|]. intros [] c2 (code & opt & Hs2 & Hem).
  apply runs_bind. eapply runs_mono; [by apply (runs_set_etype locals c2 _ EXPR Hs2)|]. intros [] c3 Hs3.
  eapply runs_mono; [by apply (runs_Lex locals c3 _ (op "(") wa rest Hs3)|]. intros [] c4 (q & Hs4 & _). eexists. split; [exact Hs4|]. split; [done|].
  pose proof (no_cmp_emits _ _ _ _ Hem ltac:(done)) as Hcm. destruct Hem as [Hel _ Hem]. split; cbn; try done; [by rewrite Et, <- app_assoc| |].
  - destruct Hg as [? ? Gc Gi]. rewrite E1 in Gc, Gi. cbn in Gc, Gi, Hel. split; cbn; try done; lia.
  - intros pre X HX. eapply Hem; [|apply joins_move; lia|].
    + apply (emitted_grow locals _ _ w1); [by apply Dc|done..].
    + replace (base + Z.of_nat (S k1)) with (base + Z.of_nat k1 + 1) by lia. rewrite Em. fold k1. apply does_move; [unfold below; lia|lia|lia].
Qed.

Lemma runs_call_member c w w2 e x wa (rest : list tok) : shows c w2 → w_etype w2 = OBJECT → operands e (EString x) ((op "(", wa) :: rest) w w2 → good e → base + Z.of_nat (S (w_temps w)) < 255 →
  runs (call_prologue;; set_etype EXPR;; Lex) c (λ _ c', ∃ wf, shows c' wf ∧ w_etype wf = EXPR ∧ frame (EString x) rest w wf (with_member (w_temps w) e x)).
Proof using Type.
  intros Hs Ee Hop G Hk. pose proof Hop as [E2 _ Em Hg Hc]. pose proof (temps_next (w_temps w) e) as Hn. pose proof (base_pos locals). set (k := w_temps w) in *. set (k1 := temps_after k e) in *.
  change (temps_after k1 (EString x)) with (S k1) in Em. pose proof (place_bound locals k e G) as B. fold k1 in B. unfold below in B.
  unfold call_prologue. apply runs_bind, runs_bind, runs_gets. rewrite (sh_etype _ _ _ Hs), Ee.
  apply (runs_operands (H := H) locals c w w2 e (EString x) _ (λ t2 t1 n, ttarget ← fs NewTarget; emit _OP_PREPCALL n t2 t1 ttarget) _ Hs Hop G (good_string locals x)); [fold k; lia|]. fold k k1.
  change (place k1 (EString x)) with (base + Z.of_nat k1). intros c3 Hs3. apply runs_bind. eapply runs_mono; [apply (runs_NewTarget locals c3 _ Hs3); cbn; fold k; lia|]. intros n c4 [-> Hs4].
  cbn in Hs4. rewrite <- app_assoc in Hs4. cbn [w_temps set_targets result_in]. fold k in Hs4 |- *.
  eapply runs_mono; [apply (runs_emits (H := H) locals c4 _ _ _ _ _ _ Hs4); try lia; try done; by apply plain_temp|]. intros [] c5 (code & opt & Hs5 & Hem).
  apply runs_bind. eapply runs_mono; [by apply (runs_set_etype locals c5 _ EXPR Hs5)|]. intros [] c6 Hs6.
  eapply runs_mono; [by apply (runs_Lex locals c6 _ (op "(") wa rest Hs6)|]. intros [] c7 (q & Hs7 & _). eexists. split; [exact Hs7|]. split; [done|].
  pose proof (no_cmp_emits _ _ _ _ Hem ltac:(done)) as Hcm. destruct Hem as [Hel _ Hem]. split; cbn; try done; fold k.
  - destruct Hg as [? ? Gc Gi]. rewrite E2 in Gc, Gi. cbn in Gc, Gi, Hel. split; cbn; try done; lia.
  - intros pre X HX. eapply (Hem _ (base + Z.of_nat (S k1))).
    + rewrite Em in Hc. apply (emitted_grow locals _ _ w2); [by apply Hc|done..].
    + apply joins_prepcall; unfold below; lia.
    + apply does_prepare; unfold below; lia.
Qed.

(** *** The arguments *)

Record args_done (args : list exp) (rest : list tok) (w w' : view) : Prop := {
  ad_ts : w_ts w' = rest;
  ad_targets : w_targets w' = w_targets w ++ ((λ i, base + Z.of_nat i) <$> List.seq (w_temps w) (length args));
  ad_temps : w_temps w' = (w_temps w + length args)%nat;
  ad_grown : grown 0 w w';
  ad_etype : w_etype w' = w_etype w;
  ad_code : ∀ pre X, emitted pre (base + Z.of_nat (w_temps w)) w X → emitted pre (base + Z.of_nat (w_temps w')) w' (then_ X (evals_to (H := H) locals args (w_temps w)))
}.

Lemma shows_targets c w ts k : shows c w → w_targets w = ts → w_temps w = k → shows c (set_targets ts k w).
Proof using Type. intros Hs <- <-. by destruct w. Qed.
Lemma runs_PopTargets c w ts m n : shows c w → w_targets w = ts ++ ((λ i, base + Z.of_nat i) <$> List.seq m n) → w_temps w = (m + n)%nat →
  runs (PopTargets n) c (λ _ c', shows c' (set_targets ts m w)).
Proof using Type.
  revert c w. induction n as [|n IH]; intros c w Hs Et Em; cbn [PopTargets].
  - apply runs_ret. cbn in Et. rewrite app_nil_r in Et. apply shows_targets; [done|done|lia].
  - rewrite seq_S, fmap_app, app_assoc in Et. cbn in Et. apply runs_bind. eapply runs_mono; [by apply (runs_PopTarget locals c w (ts ++ ((λ i, base + Z.of_nat i) <$> List.seq m n)) (base + Z.of_nat (m + n)) Hs)|]. intros r c1 [-> Hs1].
    eapply runs_mono; [apply (IH c1 _ Hs1); [done|cbn; unfold popped; rewrite (proj2 (Z.ltb_ge _ _)) by lia; lia]|done].
Qed.

(** The closing parenthesis *)
Lemma runs_call_end rec c w wf wz f e args Y rest1 (rest : list tok) wb ts : shows c wz → frame f rest1 w wf Y → args_done args ((op ")", wb) :: rest) wf wz → good f → w_etype wf = EXPR →
  is_var e = false → base + Z.of_nat (w_temps wz) ≤ 255 → base + Z.of_nat (w_temps w) < 255 → last ts = Some (op ")", wb) →
  (∀ X str m, same_run locals (base + Z.of_nat (S (w_temps w)))
     (then_ (then_ (Y X) (evals_to locals args (S (temps_after (w_temps w) f))))
        (calling (base + Z.of_nat (w_temps w)) (place (w_temps w) f) (base + Z.of_nat (temps_after (w_temps w) f)) (1 + Z.of_nat (length args))) str m)
     (then_ X (eval_to e (base + Z.of_nat (w_temps w))) str m)) →
  runs (call_args rec false (1 + Z.of_nat (length args))) c (λ _ c', ∃ w', shows c' w' ∧ done_with e true ts rest w w').
Proof using Type.
  intros Hs [_ Ft Fm Fg _ Fc] [Az At Am Ag Ae Ac] G Ee Hv Hk Hk2 Hl Hmean. rewrite Fm in *. set (k := w_temps w) in *. pose proof (temps_next k f) as Hn. pose proof (place_bound locals k f G) as B.
  set (k1 := temps_after k f) in *. pose proof (base_pos locals). unfold below in B.
  unfold call_args. apply runs_bind, runs_token. rewrite (shows_token locals c wz Hs), Az. cbn [head_code]. change (code_of (op ")")) with (ch ")"). rewrite Z.eqb_refl.
  apply runs_bind. eapply runs_mono; [by apply (runs_Lex locals c wz (op ")") wb rest Hs)|]. intros [] c1 (q & Hs1 & Hq). cbn [andb]. apply runs_bind, runs_when; [done|intros _].
  replace (Z.to_nat (1 + Z.of_nat (length args) - 1)) with (length args) by lia.
  apply runs_bind. eapply runs_mono; [apply (runs_PopTargets c1 _ (w_targets wf) (S k1) (length args) Hs1); [done|cbn; lia]|]. intros [] c2 Hs2.
  apply runs_bind. eapply runs_mono; [apply (runs_PopTarget locals c2 _ (w_targets w ++ [place k f]) (base + Z.of_nat k1) Hs2); cbn; by rewrite Ft, <- app_assoc|]. intros r c3 [-> Hs3].
  cbn in Hs3. unfold popped in Hs3. rewrite (proj2 (Z.ltb_ge _ _)) in Hs3 by lia. cbn in Hs3.
  apply runs_bind. eapply runs_mono; [by apply (runs_PopTarget locals c3 _ (w_targets w) (place k f) Hs3)|]. intros r c4 [-> Hs4]. cbn in Hs4. unfold k1 in Hs4. rewrite popped_place in Hs4 by done.
  apply runs_bind. eapply runs_mono; [apply (runs_NewTarget locals c4 _ Hs4); cbn; lia|]. intros r c5 [-> Hs5]. change (shows c5 (result_in locals w (set_ts rest q wz))) in Hs5. cbn [w_temps set_targets].
  eapply runs_mono; [apply (runs_emits (H := H) locals c5 _ _ _ _ _ _ Hs5); try lia; try done; by apply plain_temp|]. intros [] c6 (code & opt & Hs6 & Hem).
  eexists. split; [exact Hs6|].
  eapply (op_done locals e true ts rest w (set_ts rest q wz) (base + Z.of_nat (w_temps wz)) (λ X, then_ (Y X) (evals_to locals args (S k1))) _ _ code opt); try done.
  - apply (grown_trans 1 0 1 w wf); [done| |lia]. apply (grown_trans 0 4 0 wf wz); [done| |lia]. apply (grown_pass 1); try done. cbn. by rewrite Az.
  - intros pre X HX. apply (emitted_grow locals _ _ wz); try done. apply Ac. by apply Fc.
  - apply does_call; unfold below; lia.
  - cbn. intros _. congruence.
  - exact (prev_ok (op ")") wb rest q Hq ts Hl).
Qed.

(** An argument that is a variable is copied. *)
Lemma runs_move_local c w w1 e p ts rest b : shows c w1 → done_with e p ts rest w w1 → w_etype w1 = w_etype w → good e → base + Z.of_nat (S (w_temps w)) ≤ 255 → (b = false → no_cmp w) → ts ≠ [] → w_ts w = ts ++ rest →
  runs MoveIfCurrentTargetIsLocal c (λ _ c', ∃ w', shows c' w' ∧ args_done [e] rest w w' ∧ (leaves_cmp b e = false → no_cmp w')).
Proof using Type.
  intros Hs Hd Ee G Hk Hb Hts Ew. pose proof Hd as [E1 Et Em Hg Hvar _ _ _ Dc]. pose proof (base_pos locals). unfold MoveIfCurrentTargetIsLocal.
  apply runs_bind. eapply runs_mono; [by apply (runs_TopTarget locals c w1 (w_targets w) (place (w_temps w) e) Hs)|]. intros r c1 [-> Hs1].
  destruct (good_place locals (w_temps w) e G) as [R _]; [pose proof (temps_next (w_temps w) e); lia|].
  apply runs_bind. assert (∀ Q : bool → SQCompiler → Prop, Q (place (w_temps w) e <? base) c1 → runs (fs (IsLocal (place (w_temps w) e))) c1 Q) as Hloc.
  { intros Q HQ. unfold runs, fs, IsLocal, gets. rewrite (is_local_base locals c1 w1 _ Hs1) by lia. by destruct c1. }
  apply Hloc. apply runs_when; intros Hlt.
  - apply Z.ltb_lt in Hlt. destruct (is_var e) eqn:Ev; [|destruct (place_temp locals (w_temps w) e Ev); lia]. destruct (Hvar eq_refl) as [Ec Eo].
    apply runs_bind. eapply runs_mono; [by apply (runs_PopTarget locals c1 w1 (w_targets w) (place (w_temps w) e) Hs1)|]. intros r c2 [-> Hs2]. rewrite Em, popped_place in Hs2 by done.
    apply runs_bind. eapply runs_mono; [apply (runs_NewTarget locals c2 _ Hs2); cbn; lia|]. intros r c3 [-> Hs3]. cbn in Hs3. cbn [w_temps set_targets].
    eapply runs_mono; [apply (runs_emits (H := H) locals c3 _ _ _ _ _ _ Hs3); try lia; try done; by apply plain_temp|]. intros [] c4 (code & opt & Hs4 & Hem).
    eexists. split; [exact Hs4|]. pose proof (no_cmp_emits _ _ _ _ Hem ltac:(done)) as Hcm. split; [|done]. destruct Hem as [Hel _ Hem]. split; cbn; try done; [lia| |].
    + destruct Hg as [? ? Gc _]. pose proof (f_equal length Ew) as Lw. pose proof (f_equal length E1) as L1. rewrite length_app in Lw. destruct ts; [done|]. cbn in Lw, L1, Hel. rewrite Ec in Hel. split; cbn; try done; lia.
    + intros pre X HX. unfold temps_after in Em. rewrite Ev in Em. rewrite Em in Dc. eapply (emitted_conv locals pre (base + Z.of_nat (S (w_temps w)))); [eapply Hem; [|apply joins_move; lia|]|reflexivity|].
      * apply (emitted_grow locals _ _ w1); [by apply Dc|done..].
      * replace (base + Z.of_nat (S (w_temps w))) with (base + Z.of_nat (w_temps w) + 1) by lia. apply does_move; unfold below; lia.
      * intros str m. eapply same_run_trans; [apply (one_operand locals (w_temps w)); intros r; apply below_next|]. unfold then_, eval_to. destruct (X str m) as [m0|m0|]; cbn [SqCompilerCode.seq]; [|apply same_run_refl..].
        destruct (eval str (regs m0) e (store m0)); apply same_run_refl.
  - apply Z.ltb_ge in Hlt. assert (is_var e = false) as Ev by (destruct G as [_ Hv]; destruct e; try done; cbn in *; lia). destruct (place_temp locals (w_temps w) e Ev) as [Ep Etm].
    rewrite Ep in *. rewrite Etm in Em. exists w1. split; [done|]. split; [|intros Hl; by apply (no_cmp_after locals b e p ts rest w w1 Hd)]. split; try done; [rewrite Em; cbn; lia|].
    intros pre X HX. eapply (emitted_conv locals); [by apply Dc|reflexivity|]. intros str m. cbn [evals_to]. unfold then_. destruct (X str m) as [m0|m0|]; cbn [SqCompilerCode.seq]; [|apply same_run_refl..].
    destruct (eval_to e (base + Z.of_nat (w_temps w)) str m0); apply same_run_refl.
Qed.

(** What is needed to read arguments *)
Record args_ready (b : bool) (args : list exp) (ts rest : list tok) (w : view) : Prop := {
  ar_ts : w_ts w = ts ++ rest;
  ar_width : base + Z.of_nat (w_temps w) + Z.of_nat (args_width args) ≤ 255;
  ar_room : room w;
  ar_testable : args_testable b args = true;
  ar_cmp : b = false → no_cmp w
}.
Definition reads_args (args : list exp) (ts : list tok) : Prop := ∀ fuel c w wb (rest : list tok) b nargs Q, (16 * length ts + 15 ≤ fuel)%nat → shows c w →
  args_ready b args ts ((op ")", wb) :: rest) w →
  (∀ c' w' fuel', shows c' w' → args_done args ((op ")", wb) :: rest) w w' → (0 < fuel')%nat → runs (parse fuel' (NCallArgs false (nargs + Z.of_nat (length args)))) c' Q) →
  runs (parse fuel (NCallArgs false nargs)) c Q.

Lemma args_none : reads_args [] [].
Proof using Type.
  intros fuel c w wb rest b nargs Q Hn Hs [Ew _ _ _ _] HQ. cbn [length] in HQ. rewrite Z.add_0_r in HQ. apply (HQ c w fuel Hs); [|lia].
  split; cbn; try done; [by rewrite app_nil_r|by split; [..|lia]|]. intros pre X HX. eapply (emitted_conv locals); [exact HX|done|]. intros str m. unfold then_. destruct (X str m); apply same_run_refl.
Qed.

Lemma runs_argument g c w a ts rest b nargs args Q : value (H := H) _sourcename _lineinfo locals a ts → (need 0 ts ≤ g)%nat → begins ts → good a → shows c w →
  args_ready b (a :: args) ts rest w → follows 0 false rest →
  (∀ c' w', shows c' w' → args_done [a] rest w w' → (leaves_cmp b a = false → no_cmp w') →
     runs (t ← token; when (t =? ch ",") (Lex;; t ← token; when (t =? ch ")") (Error "expression expected, found ')'"));; parse g (NCallArgs false (nargs + 1))) c' Q) →
  runs (parse (S g) (NCallArgs false nargs)) c Q.
Proof using Type.
  intros Hv Hn Hbeg G Hs [Ew Hw Hr Ht Hc] Hf HQ. pose proof (proj1 Hbeg) as Hts. cbn [args_width args_testable] in Hw, Ht. apply andb_true_iff in Ht as [Ht _].
  cbn [SqCompiler.parse SqCompiler.run]. unfold call_args. apply runs_bind, runs_token. rewrite (shows_token locals c w Hs), Ew.
  assert (head_code (ts ++ rest) = head_code ts) as -> by (by destruct ts). rewrite (begins_not ts _ Hbeg) by done.
  apply runs_bind. eapply runs_mono; [apply (Hv g c w rest b Hn Hs); [|done]|].
  { split; try done. lia. }
  intros [] c1 (w1 & Hs1 & Hd & Ee). apply runs_bind. eapply runs_mono; [apply (runs_move_local c1 w w1 a false ts rest b); try done; lia|]. intros [] c2 (w2 & Hs2 & Had & Hcm).
  by apply (HQ c2 w2).
Qed.

Lemma args_last a ts : value (H := H) _sourcename _lineinfo locals a ts → begins ts → good a → reads_args [a] ts.
Proof using Type.
  intros Hv Hb G fuel c w wb rest b nargs Q Hn Hs Hrd HQ. destruct fuel as [|g]; [lia|]. apply (runs_argument g c w a ts ((op ")", wb) :: rest) b nargs []); try done; [unfold need; lia|].
  intros c1 w1 Hs1 Had _. apply runs_bind, runs_token. rewrite (shows_token locals c1 w1 Hs1), (ad_ts _ _ _ _ Had). apply runs_bind, runs_when; [done|intros _]. apply (HQ c1 w1 g Hs1 Had).
  destruct Hb as [Hb _]. destruct ts; [done|]. cbn in Hn. lia.
Qed.

Lemma args_done_cons a args rest1 (rest : list tok) w w1 w1' w2 : args_done [a] rest1 w w1 → passes 1 w1 w1' → w_etype w1' = w_etype w1 → args_done args rest w1' w2 → args_done (a :: args) rest w w2.
Proof using Type.
  intros [_ T1 M1 G1 E1 C1] Hp Ee [S2 T2 M2 G2 E2 C2]. pose proof Hp as [Pt Pm _ _ _ _ _]. rewrite Pm, M1 in *. cbn [length] in *. rewrite Nat.add_1_r in *. split; try done.
  - rewrite T2, Pt, T1. cbn. by rewrite <- app_assoc.
  - cbn [length]. lia.
  - apply (grown_trans 0 0 0 w w1); [done| |lia]. apply (grown_trans 4 0 0 w1 w1'); [by apply (passes_grown 1)|done|lia].
  - congruence.
  - intros pre X HX. eapply (emitted_conv locals); [eapply C2, passes_emitted; [exact Hp|by apply C1]|lia|]. intros str m. cbn [evals_to]. unfold then_.
    destruct (X str m) as [m0|m0|]; cbn [SqCompilerCode.seq]; [|apply same_run_refl..]. destruct (eval_to a (base + Z.of_nat (w_temps w)) str m0); apply same_run_refl.
Qed.

Lemma args_more a ts ws a' args tsa : value (H := H) _sourcename _lineinfo locals a ts → begins ts → good a → begins tsa → reads_args (a' :: args) tsa → reads_args (a :: a' :: args) (ts ++ (op ",", ws) :: tsa).
Proof using Type.
  intros Hv Hb G Hb2 Hargs fuel c w wb rest b nargs Q Hn Hs Hrd HQ. rewrite length_app in Hn. cbn [length] in Hn. destruct fuel as [|g]; [lia|]. pose proof Hrd as [Ew Hw Hr Ht Hc].
  rewrite <- app_assoc in Ew. cbn [app] in Ew. apply (runs_argument g c w a ts ((op ",", ws) :: tsa ++ (op ")", wb) :: rest) b nargs (a' :: args)); try done; [unfold need; lia|].
  intros c1 w1 Hs1 Had Hcm. pose proof (ad_ts _ _ _ _ Had) as E1. apply runs_bind, runs_token. rewrite (shows_token locals c1 w1 Hs1), E1. apply runs_bind, runs_when; [intros _|done].
  apply runs_bind. eapply runs_mono; [by apply (runs_Lex locals c1 w1 (op ",") ws (tsa ++ (op ")", wb) :: rest) Hs1)|]. intros [] c2 (q & Hs2 & _).
  apply runs_bind, runs_token. rewrite (shows_token locals c2 _ Hs2). cbn [w_ts set_ts]. pose proof (proj1 Hb2) as Htsa. assert (head_code (tsa ++ (op ")", wb) :: rest) = head_code tsa) as -> by (by destruct tsa).
  rewrite (begins_not tsa _ Hb2) by done. apply runs_when; [done|intros _].
  assert (passes 1 w1 (set_ts (tsa ++ (op ")", wb) :: rest) q w1)) as Hps by (split; try done; by rewrite E1). cbn [args_width args_testable] in Hw, Ht. apply andb_true_iff in Ht as [_ Ht].
  apply (Hargs g c2 _ wb rest (leaves_cmp b a) (nargs + 1)) with (2 := Hs2); [lia| |].
  - split; [done| |eapply room_grown; [by apply (passes_grown 1)|]; eapply room_grown; [apply (ad_grown _ _ _ _ Had)|done]|done|exact Hcm].
    cbn [w_temps set_ts]. rewrite (ad_temps _ _ _ _ Had). cbn [length args_width] in *. lia.
  - intros c3 w3 fuel' Hs3 Had3 Hf. replace (nargs + 1 + Z.of_nat (length (a' :: args))) with (nargs + Z.of_nat (length (a :: a' :: args))) by (cbn [length]; lia).
    apply (HQ c3 w3 fuel' Hs3); [|done]. by eapply args_done_cons.
Qed.

(** *** The limits of a call *)

Lemma method_limits b e x args : width (EMethod e x args) = Nat.max (S (width e)) (2 + args_width args) ∧ testable b (EMethod e x args) = testable b e && args_testable false args.
Proof using Type.
  by split.
Qed.
Lemma call_limits b f args : width (ECall f args) = Nat.max (width f) (2 + args_width args) ∧ testable b (ECall f args) = testable b f && args_testable false args.
Proof using Type.
  by split.
Qed.
Lemma args_width_length args : (length args ≤ args_width args)%nat.
Proof using Type. induction args as [|a args IH]; cbn [length args_width]; lia. Qed.

Lemma runs_three {S} (m1 m2 m3 m4 : stM S ()) s (Q : () → S → Prop) : runs (m1;; m2;; m3) s (λ _ s', runs m4 s' Q) → runs (m1;; m2;; m3;; m4) s Q.
Proof using Type.
  unfold runs, mbind, stM_bind. destruct (m1 s) as [[? s1]|]; [|done]. destruct (m2 s1) as [[? s2]|]; [|done]. by destruct (m3 s2) as [[? s3]|].
Qed.

(** *** A call in the chain *)
Lemma rest_call g c w f e args tsa Y ts wa wb (rest : list tok) Q : _token c = ch "(" →
  runs (call_prologue;; set_etype EXPR;; Lex) c (λ _ c', ∃ wf, shows c' wf ∧ w_etype wf = EXPR ∧ frame f (tsa ++ (op ")", wb) :: rest) w wf Y) →
  reads_args args tsa → good f → is_var e = false → base + Z.of_nat (w_temps w) + 2 + Z.of_nat (args_width args) ≤ 255 → room w → args_testable false args = true → (16 * length tsa + 15 ≤ g)%nat →
  (∀ X str m, same_run locals (base + Z.of_nat (S (w_temps w)))
     (then_ (then_ (Y X) (evals_to locals args (S (temps_after (w_temps w) f))))
        (calling (base + Z.of_nat (w_temps w)) (place (w_temps w) f) (base + Z.of_nat (temps_after (w_temps w) f)) (1 + Z.of_nat (length args))) str m)
     (then_ X (eval_to e (base + Z.of_nat (w_temps w))) str m)) →
  (∀ c' w', shows c' w' → done_with e true (ts ++ [(op "(", wa)] ++ tsa ++ [(op ")", wb)]) rest w w' → runs (parse g NPrefixedRest) c' Q) → runs (parse (S g) NPrefixedRest) c Q.
Proof using Type.
  intros Et Hpro Hargs G Hv Hw Hr Ht Hg Hmean HQ. cbn [SqCompiler.parse SqCompiler.run]. unfold prefixed_rest. apply runs_bind, runs_token. rewrite Et. pick.
  apply runs_three. eapply runs_mono; [exact Hpro|]. intros [] c1 (wf & Hs1 & Ee & Hfr). pose proof Hfr as [Ef _ Fm Fg Fcm _]. pose proof (temps_next (w_temps w) f). pose proof (args_width_length args).
  apply runs_bind. apply (Hargs g c1 wf wb rest false 1); [done|done| |].
  { split; [done|rewrite Fm; lia|by apply (room_grown _ _ _ Fg)|done|done]. }
  intros c2 wz fuel' Hs2 Had Hf. destruct fuel' as [|h]; [lia|]. pose proof (ad_temps _ _ _ _ Had) as Am. rewrite Fm in Am.
  cbn [SqCompiler.parse SqCompiler.run]. eapply runs_mono; [eapply (runs_call_end (parse h) c2 w wf wz f e args Y _ rest wb (ts ++ [(op "(", wa)] ++ tsa ++ [(op ")", wb)]) Hs2 Hfr Had); try done; [lia|lia|by rewrite !app_assoc, last_snoc]|].
  intros [] c3 (w3 & Hs3 & Hd3). by apply (HQ c3 w3).
Qed.

(** ** The chain as a loop *)

Section loops.
Context (Hbase : 0 < base).
Abbreviation loops := (loops (H := H) (asd := asd) _sourcename _lineinfo locals).
Abbreviation value := (value (H := H) (asd := asd) _sourcename _lineinfo locals).

Lemma rest_prefixed g : parse (S g) NPrefixedRest = prefixed_rest (parse g).
Proof using Type. done. Qed.

Lemma member_loops p e ts x wa wb : loops 12 p e ts → good e → is_name x = true → loops 12 false (EMember e x) (ts ++ [(op ".", wa); (SName x, wb)]).
Proof using Hbase.
  intros Hl G Hx fuel c w rest b Q Hn Hs Hrd Hf HQ. unfold need in Hn, HQ. rewrite length_app in Hn, HQ. cbn [length] in Hn, HQ.
  apply (Hl fuel c w ((op ".", wa) :: (SName x, wb) :: rest) b); [unfold need; lia|done| |split; [cbv; lia|done]|].
  { apply (ready_first locals b (EMember e x) e ts [_; _] rest w Hrd); [cbn; lia|]. apply (rd_testable _ _ _ _ _ _ Hrd). }
  intros c1 w1 fuel' Hs1 Hd1 Hlt. unfold need in Hlt. destruct fuel' as [|g]; [lia|]. cbn [rest_of]. rewrite rest_prefixed.
  apply (rest_member (parse g) c1 w w1 p e ts x wa wb rest b Q Hbase Hs1 Hd1 Hx G Hrd Hf). intros c2 w2 Hs2 Hd2. apply (HQ c2 w2 g Hs2 Hd2). lia.
Qed.

Lemma index_loops p e e2 ts ts2 wa wb : loops 12 p e ts → newline_free ts = true → value e2 ts2 → good e → good e2 →
  loops 12 false (EIndex e e2) (ts ++ (op "[", wa) :: ts2 ++ [(op "]", wb)]).
Proof using Hbase.
  intros Hl Hnl Hv G G2 fuel c w rest b Q Hn Hs Hrd Hf HQ. unfold need in Hn, HQ. rewrite length_app in Hn, HQ. cbn [length] in Hn, HQ. rewrite length_app in Hn, HQ. cbn [length] in Hn, HQ.
  apply (Hl fuel c w ((op "[", wa) :: ts2 ++ (op "]", wb) :: rest) b); [unfold need; lia|done| |split; [cbv; lia|done]|].
  { pose proof (rd_testable _ _ _ _ _ _ Hrd) as Ht. cbn [testable] in Ht. apply andb_true_iff in Ht as [Ht _].
    pose proof (ready_first locals b (EIndex e e2) e ts (_ :: ts2 ++ [_]) rest w Hrd ltac:(cbn; lia) Ht) as Hrd'. cbn [app] in Hrd'. by rewrite <- app_assoc in Hrd'. }
  intros c1 w1 fuel' Hs1 Hd1 Hlt. unfold need in Hlt. destruct fuel' as [|g]; [lia|]. cbn [rest_of]. rewrite rest_prefixed.
  assert (need 0 ts2 ≤ g)%nat as Hg by (unfold need; lia).
  apply (rest_index (parse g) c1 w w1 p false e e2 ts ts2 wa wb rest b Q Hbase Hs1 Hd1 Hnl G G2 (value_reads _ _ _ _ _ _ Hv Hg) Hrd Hf). intros c2 w2 Hs2 Hd2. apply (HQ c2 w2 g Hs2 Hd2). lia.
Qed.

Lemma call_loops f ts args tsa wa wb : loops 12 true f ts → reads_args args tsa → good f → Forall (by_locals (H := H) locals) args →
  loops 12 true (ECall f args) (ts ++ [(op "(", wa)] ++ tsa ++ [(op ")", wb)]).
Proof using Hbase.
  intros Hl Hargs G Hall fuel c w rest b Q Hn Hs Hrd Hf HQ. unfold need in Hn, HQ. rewrite !length_app in Hn, HQ. cbn [length] in Hn, HQ. destruct (call_limits b f args) as [Ew Et].
  pose proof (rd_testable _ _ _ _ _ _ Hrd) as Ht. rewrite Et in Ht. apply andb_true_iff in Ht as [Ht Hta]. pose proof (rd_width _ _ _ _ _ _ Hrd) as Hw. rewrite Ew in Hw.
  apply (Hl fuel c w ((op "(", wa) :: tsa ++ (op ")", wb) :: rest) b); [unfold need; lia|done| |split; [cbv; lia|done]|].
  { pose proof (ready_first locals b (ECall f args) f ts (_ :: tsa ++ [_]) rest w Hrd ltac:(lia) Ht) as Hrd'. cbn [app] in Hrd'. by rewrite <- app_assoc in Hrd'. }
  intros c1 w1 fuel' Hs1 Hd1 Hlt. unfold need in Hlt. destruct fuel' as [|g]; [lia|]. cbn [rest_of].
  apply (rest_call g c1 w f (ECall f args) args tsa (with_this (w_temps w) f) ts wa wb rest); try done.
  - by rewrite (shows_token locals c1 w1 Hs1), (dw_ts _ _ _ _ _ _ _ Hd1).
  - apply (runs_call_this c1 w w1 f ts wa); try done. lia.
  - lia.
  - apply (rd_room _ _ _ _ _ _ Hrd).
  - unfold tok in *. lia.
  - intros X str m. apply (call_meaning locals (w_temps w) f args); try done. lia.
  - intros c2 w2 Hs2 Hd2. apply (HQ c2 w2 g Hs2 Hd2). lia.
Qed.

(** From the state in which a member is named and not yet read *)
Lemma rest_method g c w w2 e x args tsa ts wa wb (rest : list tok) b Q : shows c w2 → w_etype w2 = OBJECT → operands e (EString x) ((op "(", wa) :: tsa ++ (op ")", wb) :: rest) w w2 → good e →
  reads_args args tsa → Forall (by_locals (H := H) locals) args → ready b (EMethod e x args) (ts ++ [(op "(", wa)] ++ tsa ++ [(op ")", wb)]) rest w → (16 * length tsa + 15 ≤ g)%nat →
  (∀ c' w', shows c' w' → done_with (EMethod e x args) true (ts ++ [(op "(", wa)] ++ tsa ++ [(op ")", wb)]) rest w w' → runs (parse g NPrefixedRest) c' Q) → runs (parse (S g) NPrefixedRest) c Q.
Proof using Hbase.
  intros Hs Ee Hop G Hargs Hall [_ Hw Hr Ht _] Hg HQ. destruct (method_limits b e x args) as [Ew Et]. rewrite Et in Ht. apply andb_true_iff in Ht as [_ Hta]. rewrite Ew in Hw.
  apply (rest_call g c w (EString x) (EMethod e x args) args tsa (with_member (w_temps w) e x) ts wa wb rest); try done; [|apply (runs_call_member c w w2 e x wa); try done; lia|lia|].
  - by rewrite (shows_token locals c w2 Hs), (op_ts _ _ _ _ _ _ Hop).
  - intros X str m. apply (method_meaning locals (w_temps w) e x args); try done. lia.
Qed.

Lemma operands_et e1 e2 rest w w2 t : operands e1 e2 rest w w2 → operands e1 e2 rest w (set_et t w2).
Proof using Type. intros [? ? ? [] Hc]. split; try done; by split. Qed.

Lemma method_loops p e ts x args tsa w1 w2 w3 w4 : loops 12 p e ts → is_name x = true → reads_args args tsa → good e → Forall (by_locals (H := H) locals) args →
  loops 12 true (EMethod e x args) (ts ++ [(op ".", w1); (SName x, w2); (op "(", w3)] ++ tsa ++ [(op ")", w4)]).
Proof using Hbase.
  intros Hl Hx Hargs G Hall. replace (ts ++ [(op ".", w1); (SName x, w2); (op "(", w3)] ++ tsa ++ [(op ")", w4)]) with ((ts ++ [(op ".", w1); (SName x, w2)]) ++ [(op "(", w3)] ++ tsa ++ [(op ")", w4)]) by (by rewrite <- app_assoc).
  intros fuel c w rest b Q Hn Hs Hrd Hf HQ. unfold need in Hn, HQ. rewrite !length_app in Hn, HQ. cbn [length] in Hn, HQ. destruct (method_limits b e x args) as [Ew Et].
  pose proof (rd_testable _ _ _ _ _ _ Hrd) as Ht. rewrite Et in Ht. apply andb_true_iff in Ht as [Ht _]. pose proof (rd_width _ _ _ _ _ _ Hrd) as Hw. rewrite Ew in Hw. pose proof (temps_width (w_temps w) e).
  apply (Hl fuel c w ((op ".", w1) :: (SName x, w2) :: (op "(", w3) :: tsa ++ (op ")", w4) :: rest) b); [unfold need; lia|done| |split; [cbv; lia|done]|].
  { pose proof Hrd as Hrd'. rewrite <- app_assoc in Hrd'. pose proof (ready_first locals b _ e ts ([_; _] ++ [_] ++ tsa ++ [_]) rest w Hrd' ltac:(lia) Ht) as Hrd2. cbn [app] in Hrd2. by rewrite <- app_assoc in Hrd2. }
  intros c1 v1 fuel' Hs1 Hd1 Hlt. unfold need in Hlt. destruct fuel' as [|[|g]]; [lia|lia|]. cbn [rest_of]. rewrite rest_prefixed.
  apply (runs_dot (parse (S g)) c1 w v1 p e ts x w1 w2 ((op "(", w3) :: tsa ++ (op ")", w4) :: rest) Q Hs1 Hd1 Hx); [apply (rd_room _ _ _ _ _ _ Hrd)|lia|].
  intros c2 v2 Hs2 Hop _. apply runs_bind, (runs_deref c2 v2); [done|]. eapply runs_mono; [apply (tail_call locals c2 v2 Hs2); by rewrite (op_ts _ _ _ _ _ _ Hop)|]. intros [] c3 Hs3.
  apply (rest_method g c3 w _ e x args tsa (ts ++ [(op ".", w1); (SName x, w2)]) w3 w4 rest b Q Hs3 eq_refl (operands_et _ _ _ _ _ _ Hop) G Hargs Hall Hrd); [unfold tok in *; lia|].
  intros c4 v4 Hs4 Hd4. apply (HQ c4 v4 g Hs4 Hd4). unfold tok in *. lia.
Qed.

Lemma global_call_loops x args tsa w1 w2 w3 : is_name x = true → scope locals x = None → reads_args args tsa → Forall (by_locals (H := H) locals) args →
  loops 12 true (EMethod (EVar 0) x args) ([(SName x, w1); (op "(", w2)] ++ tsa ++ [(op ")", w3)]).
Proof using Hbase.
  intros Hx Hsc Hargs Hall. change ([(SName x, w1); (op "(", w2)] ++ tsa ++ [(op ")", w3)]) with ([(SName x, w1)] ++ [(op "(", w2)] ++ tsa ++ [(op ")", w3)]).
  intros fuel c w rest b Q Hn Hs Hrd Hf HQ. unfold need in Hn, HQ. rewrite !length_app in Hn, HQ. cbn [length] in Hn, HQ. destruct (method_limits b (EVar 0) x args) as [Ew _].
  pose proof (rd_width _ _ _ _ _ _ Hrd) as Hw. rewrite Ew in Hw. destruct fuel as [|[|g]]; [lia|lia|]. cbn [exp_of].
  change (parse (S (S g)) NPrefixedExpr) with (Factor _sourcename (parse g);; parse (S g) NPrefixedRest). apply runs_bind.
  apply (runs_global (H := H) _sourcename locals (parse g) c w x w1 ((op "(", w2) :: tsa ++ (op ")", w3) :: rest)); try done; [|lia|apply (rd_room _ _ _ _ _ _ Hrd)|].
  { rewrite (rd_ts _ _ _ _ _ _ Hrd). cbn [app]. by rewrite <- app_assoc. }
  intros c2 v2 Hs2 Hop _. eapply runs_mono; [apply (tail_call locals c2 v2 Hs2); by rewrite (op_ts _ _ _ _ _ _ Hop)|]. intros [] c3 Hs3.
  apply (rest_method g c3 w _ (EVar 0) x args tsa [(SName x, w1)] w2 w3 rest b Q Hs3 eq_refl (operands_et _ _ _ _ _ _ Hop) (good_var locals 0 Hbase) Hargs Hall Hrd); [unfold tok in *; lia|].
  intros c4 v4 Hs4 Hd4. apply (HQ c4 v4 g Hs4 Hd4). unfold tok in *. lia.
Qed.
End loops.
End calls.
