(* ===== verification/SqCompilerCorrect.v ===== *)
(** * The compiler is right about expressions

    Every expression, however it is written, is read to its end by the function of
    its level, and the instructions emitted evaluate it. *)

From Stdlib Require Import Ascii.
From stdpp Require Import base numbers gmap strings option list.
From S2P Require Import Prelude CType SqObject SqArrayLib SqString SqLexer SqLexerSpec SqLexerRound SqKeywords SqFuncState SqCompiler SqCompilerEnds SqVm SqPeephole SqCompilerRead SqExpression SqCompilerView SqCompilerCode SqCompilerEval SqCompilerExpr SqCompilerOps SqCompilerLevels SqCompilerCalls.

Open Scope Z_scope.

(** ** Expressions *)

Section expressions.
Context {KT : KeywordTable} {FR : FloatReader} {AL : Allocator} {H : Type} {RT : Runtime H}.
Context (_sourcename : SQObject) (_lineinfo : bool) (locals : list (list ascii)) {asd : aside} (Hbase : 0 < base locals).
Abbreviation value := (value (H := H) (asd := asd) _sourcename _lineinfo locals).
Abbreviation loops := (loops (H := H) (asd := asd) _sourcename _lineinfo locals).
Abbreviation direct := (direct (H := H) (asd := asd) _sourcename _lineinfo locals).
Abbreviation reads_args := (reads_args (H := H) (asd := asd) _sourcename _lineinfo locals).

Definition reads_at (l : nat) (p : bool) (e : exp) (ts : list tok) : Prop :=
  if (l =? 0)%nat then value e ts else if looping l then loops l p e ts else direct l p e ts.

Lemma reads_direct l p e ts : (l ≤ 10)%nat → reads_at (S l) p e ts → direct (S l) p e ts.
Proof using Type.
  intros Hl. unfold reads_at. destruct (looping (S l)) eqn:El; [|done]. apply loops_direct. unfold looping in El.
  apply orb_true_iff in El as [[?%Nat.leb_le ?%Nat.leb_le]%andb_true_iff|?%Nat.eqb_eq]; lia.
Qed.
Lemma reads_up l p e ts : (l ≤ 12)%nat → ts ≠ [] → reads_at (S l) p e ts → reads_at l (p && (12 <=? l)%nat) e ts.
Proof using Type.
  intros Hl Hts Hr. assert (l = 0 ∨ l = 1 ∨ l = 2 ∨ 3 ≤ l ≤ 10 ∨ l = 11 ∨ l = 12)%nat as Hc by lia. destruct Hc as [->|[->|[->|[Hc|[->| ->]]]]].
  - apply (up_value _ _ _ p); [done|]. by apply reads_direct; [lia|].
  - rewrite andb_false_r. apply (up_or _ _ _ p); [done|]. by apply reads_direct; [lia|].
  - rewrite andb_false_r. apply (up_and _ _ _ p); [done|]. by apply reads_direct; [lia|].
  - apply reads_direct in Hr; [|lia]. rewrite (proj2 (Nat.leb_gt 12 l)), andb_false_r by lia. unfold reads_at, looping.
    rewrite (proj2 (Nat.eqb_neq l 0)), (proj2 (Nat.leb_le 3 l)), (proj2 (Nat.leb_le l 10)) by lia. by apply (up_loops _ _ _ _ p).
  - rewrite andb_false_r. by apply (up_prefixed _ _ _ p).
  - rewrite andb_true_r. by apply up_factor.
Qed.

Lemma reads_binary o p1 p2 e1 e2 ts1 ts2 ws : good (H := H) locals e1 → good (H := H) locals e2 → ts1 ≠ [] → ts2 ≠ [] → reads_at (op_level o) p1 e1 ts1 → reads_at (S (op_level o)) p2 e2 ts2 →
  reads_at (op_level o) false (EBin o e1 e2) (ts1 ++ (SOperator (op_text o), ws) :: ts2).
Proof using Type.
  intros G1 G2 N1 N2 H1 H2. pose proof (op_level_range o) as Hl. apply reads_direct in H2; [|lia]. assert (∀ p e ts, reads_at (op_level o) p e ts = loops (op_level o) p e ts) as E by (by destruct o).
  rewrite E in *. by apply (binary_loops _ _ _ o p1 p2).
Qed.

Lemma args_begin a args ts : spells_args locals (a :: args) ts → begins ts.
Proof using Type. inversion 1; subst; [|apply begins_app]; by eapply spells_begins. Qed.

Lemma expressions_read :
  (∀ l p e ts, spells locals l p e ts → reads_at l p e ts) ∧ (∀ args ts, spells_args locals args ts → reads_args args ts).
Proof using Hbase.
  pose proof (spells_good (H := H) locals) as Hgood. pose proof (spells_nonempty locals) as Hne. pose proof (spells_begins locals) as Hbeg. pose proof (args_by_locals (H := H) locals) as Hargs.
  apply spells_mutind; intros.
  - apply factor_direct; [done|]. intros rec. by apply factor_number.
  - apply factor_direct; [done|]. intros rec. by apply factor_folded.
  - apply factor_direct; [done|]. intros rec. by apply factor_string.
  - apply factor_direct; [done|]. intros rec. by apply factor_true.
  - apply factor_direct; [done|]. intros rec. by apply factor_false.
  - apply factor_direct; [done|]. intros rec. by apply factor_null.
  - apply factor_direct; [done|]. intros rec. by apply factor_local.
  - apply factor_direct; [done|]. intros rec. by apply factor_global.
  - apply paren_direct; [done|by eapply Hne].
  - apply (unary_direct _ _ _ o p); eauto.
  - apply (member_loops _ _ _ Hbase p); eauto.
  - apply (index_loops _ _ _ Hbase p); eauto.
  - apply (method_loops _ _ _ Hbase p); eauto.
  - apply (global_call_loops _ _ _ Hbase); eauto.
  - apply (call_loops _ _ _ Hbase); eauto.
  - apply (reads_binary o p1 p2); eauto.
  - apply (and_direct _ _ _ p1 p2); eauto. by apply reads_direct; [lia|].
  - apply (or_direct _ _ _ p1 p2); eauto.
  - apply (conditional_value _ _ _ p); eauto.
  - apply reads_up; eauto.
  - apply args_none.
  - apply args_last; eauto.
  - apply args_more; eauto. by eapply args_begin.
Qed.
End expressions.
