(* ===== verification/SqStatement.v ===== *)
(** * Statements

    The statements that the compiler is shown to be right about: their syntax, how
    they are written with tokens, and what they do.  A program is a list of them;
    it begins with two local variables, [this] and [vargv]. *)

From Stdlib Require Import Ascii.
From stdpp Require Import base numbers strings option list.
From S2P Require Import Prelude CType SqObject SqArrayLib SqLexer SqLexerRound SqFuncState SqCompiler SqVm SqExpression.

Open Scope Z_scope.

(** ** Syntax *)

(** An expression that is evaluated for what it does, an assignment to a local variable
    (its register), a new variable, [return], and the statements made of others *)
Inductive stmt :=
  | Do (e : exp)
  | Assign (r : nat) (e : exp)
  | Local (e : exp)
  | Return (e : exp)
  | Block (b : list stmt)
  | If (e : exp) (b1 b2 : list stmt)
  | While (e : exp) (b : list stmt).

(** The expression keeps to the registers there are, and no conditional in it tests a
    variable where a comparison may be in front of it. *)
Definition compilable (locals : list (list ascii)) (e : exp) : bool := (length locals + width e <=? 255)%nat && testable false e.

Abbreviation op s := (SOperator [s%char]).
Abbreviation keyword s := (SName (chars s)).
Abbreviation block w1 ts w2 := ((op "{", w1) :: ts ++ [(op "}", w2)]).
Abbreviation parens w1 ts w2 := ((op "(", w1) :: ts ++ [(op ")", w2)]).

(** [spells_stmt locals s ts locals']: with the variables [locals], [s] is written [ts],
    and the variables are then [locals']. *)
Inductive spells_stmt : list (list ascii) → stmt → list tok → list (list ascii) → Prop :=
  | P_do locals p e ts ws : spells locals 0 p e ts → compilable locals e = true →
      spells_stmt locals (Do e) (ts ++ [(op ";", ws)]) locals
  | P_assign locals x r p e ts w1 w2 w3 : is_name x = true → scope locals x = Some r → spells locals 0 p e ts → compilable locals e = true →
      spells_stmt locals (Assign r e) ((SName x, w1) :: (op "=", w2) :: ts ++ [(op ";", w3)]) locals
  | P_local locals x p e ts w1 w2 w3 w4 : is_name x = true → spells locals 0 p e ts → compilable locals e = true → (length locals < 255)%nat →
      spells_stmt locals (Local e) ((keyword "local", w1) :: (SName x, w2) :: (op "=", w3) :: ts ++ [(op ";", w4)]) (locals ++ [x])
  | P_return locals p e ts w1 w2 : spells locals 0 p e ts → compilable locals e = true → newlines w1 = 0 →
      spells_stmt locals (Return e) ((keyword "return", w1) :: ts ++ [(op ";", w2)]) locals
  | P_block locals b ts w1 w2 : spells_stmts locals b ts → spells_stmt locals (Block b) (block w1 ts w2) locals
  | P_if locals p e ts b ts1 w1 w2 w3 w4 w5 : spells locals 0 p e ts → compilable locals e = true → spells_stmts locals b ts1 →
      spells_stmt locals (If e b []) ((keyword "if", w1) :: parens w2 ts w3 ++ block w4 ts1 w5) locals
  | P_if_else locals p e ts b1 ts1 b2 ts2 w1 w2 w3 w4 w5 w6 w7 w8 : spells locals 0 p e ts → compilable locals e = true →
      spells_stmts locals b1 ts1 → spells_stmts locals b2 ts2 →
      spells_stmt locals (If e b1 b2) ((keyword "if", w1) :: parens w2 ts w3 ++ block w4 ts1 w5 ++ (keyword "else", w6) :: block w7 ts2 w8) locals
  | P_while locals p e ts b ts1 w1 w2 w3 w4 w5 : spells locals 0 p e ts → compilable locals e = true → spells_stmts locals b ts1 →
      spells_stmt locals (While e b) ((keyword "while", w1) :: parens w2 ts w3 ++ block w4 ts1 w5) locals
with spells_stmts : list (list ascii) → list stmt → list tok → Prop :=
  | P_nil locals : spells_stmts locals [] []
  | P_cons locals s ts locals' ss tss : spells_stmt locals s ts locals' → spells_stmts locals' ss tss → spells_stmts locals (s :: ss) (ts ++ tss).

Scheme spells_stmt_ind' := Minimality for spells_stmt Sort Prop
  with spells_stmts_ind' := Minimality for spells_stmts Sort Prop.
Combined Scheme stmts_mutind from spells_stmt_ind', spells_stmts_ind'.

(** ** What statements do *)

Section behaviour.
Context {H : Type} {RT : Runtime H}.
Abbreviation mach := (machine (H := H)).

(** To the end of the statements, with an exception, with a result; a modulo that
    fails, of which nothing is said; more steps than were given *)
Inductive ending := Falls (m : mach) | Fails (m : mach) | Gives (v : SQObject) (m : mach) | Unknown | Unfinished.
Definition after (x : ending) (k : mach → ending) : ending := match x with Falls m => k m | _ => x end.

Context (str : list ascii → SQObject).
Definition valued_as (e : exp) (m : mach) (k : SQObject → mach → ending) : ending :=
  match eval str (regs m) e (store m) with RVal v h => k v (with_store h m) | RThrow h => Fails (with_store h m) | RLost => Unknown end.

(** A statement, where [n] variables are in scope and [rec] is what lists of
    statements do; a new variable gets the next register. *)
Definition once (rec : nat → list stmt → mach → ending) (n : nat) (s : stmt) (m : mach) : ending :=
  match s with
  | Do e => valued_as e m (λ _ m, Falls m)
  | Assign r e => valued_as e m (λ v m, Falls (put (Z.of_nat r) v m))
  | Local e => valued_as e m (λ v m, Falls (put (Z.of_nat n) v m))
  | Return e => valued_as e m Gives
  | Block b => rec n b m
  | If e b1 b2 => valued_as e m (λ v m, if IsFalse v then rec n b2 m else rec n b1 m)
  | While e b => valued_as e m (λ v m, if IsFalse v then Falls m else after (rec n b m) (rec n [While e b]))
  end.
Definition scope_after (n : nat) (s : stmt) : nat := match s with Local _ => S n | _ => n end.
Fixpoint behave (fuel : nat) (n : nat) (ss : list stmt) (m : mach) : ending :=
  match fuel with
  | O => Unfinished
  | S fuel' =>
      match ss with
      | [] => Falls m
      | s :: ss' => after (once (behave fuel') n s m) (behave fuel' (scope_after n s) ss')
      end
  end.
End behaviour.
