(* ===== verification/SqCompilerRun.v ===== *)
(** * What the instructions of statements do

    The instructions of a statement are a part of those of the function, and their
    jumps go forwards and backwards in it.  Here the runs of the machine through such a
    part are related to what the statement does. *)

From Stdlib Require Import Ascii.
From stdpp Require Import base numbers gmap strings option list relations.
From S2P Require Import Prelude CType SqObject SqArrayLib SqString SqKeywords SqFuncState SqCompiler SqVm SqPeephole SqExpression SqCompilerView SqCompilerCode SqCompilerEval SqStatement.

Open Scope Z_scope.

(** ** Runs *)

Section runs.
Context {H : Type} {RT : Runtime H} (lits : list SQObject) (code : list instruction).
Abbreviation mach := (machine (H := H)).
Abbreviation sstep := (strict_step lits).
Abbreviation sexec := (exec sstep).
Implicit Types m : mach.

Inductive hop : nat * mach → nat * mach → Prop :=
  | hop_next ip m m' i : code !! ip = Some i → sstep i m = Next m' → hop (ip, m) (S ip, m')
  | hop_jump ip m m' i n ip' : code !! ip = Some i → sstep i m = Jump n m' → Z.of_nat ip' = Z.of_nat ip + 1 + n → hop (ip, m) (ip', m').
Abbreviation reaches := (rtc hop).
Definition ends_with (s : nat * mach) (f : finish) : Prop := ∃ ip m i, reaches s (ip, m) ∧ code !! ip = Some i ∧
  match f with Thrown m' => sstep i m = Throw m' | Returned v m' => sstep i m = Returns v m' | _ => False end.

Lemma ends_after s s' f : reaches s s' → ends_with s' f → ends_with s f.
Proof using Type. intros Hr (ip & m & i & Hr' & Hi & Hf). exists ip, m, i. split; [by etrans|done]. Qed.

(** The loop of the machine follows. *)
Lemma hop_execute ip m ip' m' k : hop (ip, m) (ip', m') → execute sstep code (S k) (Z.of_nat ip) m = execute sstep code k (Z.of_nat ip') m'.
Proof using Type.
  inversion 1 as [? ? ? i Hi Hs|? ? ? i n ? Hi Hs Hn]; subst; cbn [execute]; rewrite (proj2 (Z.ltb_ge _ 0)), Nat2Z.id, Hi, Hs by lia; f_equal; lia.
Qed.
Lemma ends_execute ip m f : ends_with (ip, m) f → ∃ fuel, execute sstep code fuel (Z.of_nat ip) m = Some f.
Proof using Type.
  intros (ip' & m' & i & Hr & Hi & Hf). remember (ip, m) as s eqn:Es. remember (ip', m') as s' eqn:Es'. revert ip m Es.
  induction Hr as [s|s1 [ip2 m2] s3 Hh _ IH]; intros ip m ->.
  - injection Es' as -> ->. exists 1%nat. cbn [execute]. rewrite (proj2 (Z.ltb_ge _ 0)), Nat2Z.id, Hi by lia. destruct f; try done; by rewrite Hf.
  - destruct (IH Es' ip2 m2 eq_refl) as (fuel & E). exists (S fuel). by rewrite (hop_execute _ _ _ _ _ Hh).
Qed.

(** A part of the instructions whose jumps go forward *)
Lemma exec_reaches c : ∀ l l' k m, code = l ++ c ++ l' →
  match sexec c k m with
  | Done k' m' => reaches (length l + k, m)%nat (length l + length c + k', m')%nat
  | Away => True
  | f => ends_with (length l + k, m)%nat f
  end.
Proof using Type.
  induction c as [|i c IH]; intros l l' k m Ec; simpl; [by rewrite Nat.add_0_r|].
  assert (∀ k m, match sexec c k m with
    | Done k' m' => reaches (S (length l) + k, m)%nat (length l + S (length c) + k', m')%nat | Away => True | f => ends_with (S (length l) + k, m)%nat f end) as Hc.
  { intros k0 m0. specialize (IH (l ++ [i]) l' k0 m0). rewrite length_app, <- app_assoc in IH. cbn [length app] in IH. rewrite (Nat.add_1_r (length l)) in IH.
    rewrite <- Nat.add_succ_comm. by apply IH. }
  assert (code !! (length l + 0)%nat = Some i) as Hi by (by rewrite Ec, Nat.add_0_r, lookup_app_r, Nat.sub_diag by lia).
  destruct k as [|k]; [|rewrite <- Nat.add_succ_comm; apply Hc].
  assert (∀ k m m', hop (length l + 0, m)%nat (S (length l) + k, m')%nat → match sexec c k m' with
    | Done k' m' => reaches (length l + 0, m)%nat (length l + S (length c) + k', m')%nat | Away => True | f => ends_with (length l + 0, m)%nat f end) as Hh.
  { intros k0 m0 m1 Hh. specialize (Hc k0 m1). destruct (sexec c k0 m1); [by eapply rtc_l|..|done]; (eapply ends_after; [by apply rtc_once|done]). }
  destruct (sstep i m) as [m'|n m'|m'|v m'|] eqn:Es; [| | | |done].
  - apply Hh. replace (S (length l) + 0)%nat with (S (length l + 0)) by lia. by eapply hop_next.
  - destruct (Z.ltb_spec n 0); [done|]. apply Hh. eapply hop_jump; [done|done|lia].
  - by exists (length l + 0)%nat, m, i.
  - by exists (length l + 0)%nat, m, i.
Qed.
End runs.

(** ** Parts of a function *)

Section parts.
Context {H : Type} {RT : Runtime H}.
Abbreviation mach := (machine (H := H)).
Abbreviation reaches lits code := (rtc (hop lits code)).
Implicit Types m mm : mach.
Abbreviation like n := (agree (below (Z.of_nat n))).

(** From the machine [mm], the part [c] behind [l] ends as [x]: behind it, with the
    same in the first [n] registers; or with the same exception or result. *)
Definition plays (lits : list SQObject) (code : list instruction) (n : nat) (l c : list instruction) (x : ending) (mm : mach) : Prop :=
  match x with
  | Falls m => ∃ mm', reaches lits code (length l, mm) (length l + length c, mm')%nat ∧ like n mm' m
  | Fails m => ∃ mm', ends_with lits code (length l, mm) (Thrown mm') ∧ store mm' = store m
  | Gives v m => ∃ mm', ends_with lits code (length l, mm) (Returned v mm') ∧ store mm' = store m
  | Unknown | Unfinished => True
  end.
(** The part does what the statements do; what the statement does. *)
Definition acts (n : nat) (w : view) (c : list instruction) (ss : list stmt) : Prop := ∀ str lits, fits str lits w → ∀ l l' fuel m mm,
  like n mm m → plays lits (l ++ c ++ l') n l c (behave str fuel n ss m) mm.
Definition act (n : nat) (w : view) (c : list instruction) (s : stmt) : Prop := ∀ str lits, fits str lits w → ∀ l l' fuel m mm,
  like n mm m → plays lits (l ++ c ++ l') (scope_after n s) l c (once str (behave str fuel) n s m) mm.

Lemma acts_grow n w w' c ss : acts n w c ss → w_strs w ⊆ w_strs w' → w_lits w `prefix_of` w_lits w' → acts n w' c ss.
Proof using Type. intros Ha Hs Hl str lits Hf. by apply Ha, (fits_grow str lits w w'). Qed.
Lemma act_grow n w w' c s : act n w c s → w_strs w ⊆ w_strs w' → w_lits w `prefix_of` w_lits w' → act n w' c s.
Proof using Type. intros Ha Hs Hl str lits Hf. by apply Ha, (fits_grow str lits w w'). Qed.

Lemma like_mono n n' mm m : (n' ≤ n)%nat → like n mm m → like n' mm m.
Proof using Type. intros Hn. apply agree_mono. unfold below. intros r. lia. Qed.
Lemma plays_after lits code n n1 l c1 c2 x k mm : (n ≤ n1)%nat → plays lits code n1 l c1 x mm →
  (∀ m mm, like n1 mm m → plays lits code n (l ++ c1) c2 (k m) mm) → plays lits code n l (c1 ++ c2) (after x k) mm.
Proof using Type.
  intros Hn Hx Hk. destruct x as [m|m|v m| |]; try done. destruct Hx as (mm' & Hr & Ha). specialize (Hk m mm' Ha). cbn [after].
  rewrite <- length_app in Hr. destruct (k m); cbn in *; rewrite ?length_app in *; [|..|done|done].
  - destruct Hk as (mm2 & Hr2 & Ha2). exists mm2. split; [|done]. rewrite Nat.add_assoc. by etrans.
  - destruct Hk as (mm2 & Hr2 & Ha2). exists mm2. split; [|done]. by eapply ends_after.
  - destruct Hk as (mm2 & Hr2 & Ha2). exists mm2. split; [|done]. by eapply ends_after.
Qed.

Lemma acts_nil n w : acts n w [] [].
Proof using Type. intros str lits Hf l l' [|fuel] m mm Ha; [done|]. exists mm. split; [|done]. by rewrite Nat.add_0_r. Qed.
Lemma acts_cons n w c1 c2 s ss : act n w c1 s → acts (scope_after n s) w c2 ss → acts n w (c1 ++ c2) (s :: ss).
Proof using Type.
  intros H1 H2 str lits Hf l l' [|fuel] m mm Ha; [done|]. cbn [behave]. apply (plays_after _ _ _ (scope_after n s)); [destruct s; cbn; lia|..].
  - rewrite <- app_assoc. by apply (H1 str lits Hf).
  - intros m1 mm1 Ha1. specialize (H2 str lits Hf (l ++ c1) l' fuel m1 mm1 Ha1). rewrite <- !app_assoc in *.
    destruct (behave str fuel (scope_after n s) ss m1); try done. destruct H2 as (mm2 & Hr & Ha2). exists mm2. split; [done|]. apply (like_mono (scope_after n s)); [destruct s; cbn; lia|done].
Qed.
Lemma act_block n w c b : acts n w c b → act n w c (Block b).
Proof using Type. intros Ha str lits Hf l l' fuel m mm Hl. by apply (Ha str lits Hf). Qed.

(** A mark of a line in front *)
Lemma plays_line lits l i c l' n x mm : iop i = _OP_LINE → plays lits ((l ++ [i]) ++ c ++ l') n (l ++ [i]) c x mm → plays lits (l ++ (i :: c) ++ l') n l (i :: c) x mm.
Proof using Type.
  intros Hi. rewrite <- app_assoc. cbn [app]. assert (hop lits (l ++ i :: c ++ l') (length l, mm) (length (l ++ [i]), mm)) as Hh.
  { rewrite length_app, Nat.add_1_r. eapply hop_next; [by rewrite lookup_app_r, Nat.sub_diag by lia|]. rewrite strict_same by congruence. unfold step. by rewrite Hi. }
  unfold plays. destruct x; try done; intros (mm' & Hr & Ha); exists mm'; (split; [|done]).
  - eapply rtc_l; [done|]. rewrite length_app in Hr |- *. cbn [length] in *. by rewrite <- Nat.add_assoc in Hr.
  - eapply ends_after; [by apply rtc_once|done].
  - eapply ends_after; [by apply rtc_once|done].
Qed.
Definition lead (c : list instruction) : Prop := c = [] ∨ ∃ i, c = [i] ∧ iop i = _OP_LINE.
Lemma act_lead n w ld c s : lead ld → act n w c s → act n w (ld ++ c) s.
Proof using Type.
  intros [->|(i & -> & Hi)] Ha; [done|]. intros str lits Hf l l' fuel m mm Hl. apply plays_line; [done|]. by apply (Ha str lits Hf).
Qed.

(** ** Expressions in statements *)

Section values.
Context (locals : list (list ascii)).
Abbreviation n := (length locals).
Abbreviation good := (good (H := H) locals).

Lemma like_locals mm m : like n mm m → same_locals locals (regs mm) (regs m) ∧ store mm = store m.
Proof using Type. intros [Hr Hs]. split; [|done]. intros r Hr'. apply Hr. exact Hr'. Qed.
Lemma eval_like str e mm m : good e → like n mm m → eval str (regs mm) e (store mm) = eval str (regs m) e (store m).
Proof using Type. intros [Hb _] [Hr ->]%like_locals. by apply Hb. Qed.

(** A part whose jumps go forward, and what it means *)
Lemma impl_plays k w c X l l' str lits mm : impl locals k w c X → fits str lits w →
  match X str mm with
  | Goes m' => ∃ mm', reaches lits (l ++ c ++ l') (length l, mm) (length l + length c, mm')%nat ∧ agree (below k) mm' m'
  | Stops m' => ∃ mm', ends_with lits (l ++ c ++ l') (length l, mm) (Thrown mm') ∧ store mm' = store m'
  | Lost => True
  end.
Proof using Type.
  intros Hi Hf. specialize (Hi str lits Hf mm). pose proof (exec_reaches lits (l ++ c ++ l') c l l' 0 mm eq_refl) as Hr. rewrite Nat.add_0_r in Hr.
  destruct (X str mm); destruct (exec (strict_step lits) c 0 mm) as [s m1|m1| |]; try done.
  - destruct Hi as [-> Ha]. rewrite Nat.add_0_r in Hr. by exists m1.
  - destruct Hi as [_ Hs]. by exists m1.
Qed.

(** A statement without statements in it *)
Lemma act_simple w c s e (F : SQObject → mach → mach) : good e →
  (∀ str rec m, once str rec n s m = valued_as str e m (λ v m, Falls (F v m))) →
  impl locals (Z.of_nat (scope_after n s)) w c (λ str m,
    match eval str (regs m) e (store m) with RVal v h => Goes (F v (with_store h m)) | RThrow h => Stops (with_store h m) | RLost => Lost end) →
  (∀ v mm m, like n mm m → like (scope_after n s) (F v mm) (F v m)) → act n w c s.
Proof using Type.
  intros G Ho Hi HF str lits Hf l l' fuel m mm Hl. rewrite Ho. unfold valued_as. pose proof (impl_plays _ w c _ l l' str lits mm Hi Hf) as Hp. cbn beta in Hp.
  rewrite (eval_like str e mm m G Hl) in Hp. destruct (eval str (regs m) e (store m)) as [v h|h|]; [..|done].
  - destruct Hp as (mm' & Hr & Ha). exists mm'. split; [done|]. eapply agree_trans; [exact Ha|]. apply HF. by apply agree_with_store.
  - exact Hp.
Qed.

(** [return] *)
Lemma act_return w c e t size k : good e → impl locals k w c (eval_to e t) → below k t → act n w (c ++ [mkI _OP_RETURN 1 t size 0]) (Return e).
Proof using Type.
  intros G Hi Ht str lits Hf l l' fuel m mm Hl. cbn [once]. unfold valued_as. rewrite <- app_assoc.
  pose proof (impl_plays _ w c _ l (mkI _OP_RETURN 1 t size 0 :: l') str lits mm Hi Hf) as Hp. unfold eval_to in Hp.
  rewrite (eval_like str e mm m G Hl) in Hp. destruct (eval str (regs m) e (store m)) as [v h|h|]; cbn [of_result] in Hp; [..|done]; [|exact Hp].
  destruct Hp as (mm' & Hr & [Ha Hs]). exists mm'. split; [|done]. eapply ends_after; [done|]. eexists _, _, _. split; [reflexivity|].
  split; [by rewrite lookup_app_r, lookup_app_r, Nat.add_comm, Nat.add_sub, Nat.sub_diag by lia|]. rewrite strict_same by done. cbn. by rewrite (Ha t Ht), put_same.
Qed.

(** *** Tests *)

Lemma reaches_plays lits code k l c x mm mm' : reaches lits code (length l, mm) (length l, mm') → plays lits code k l c x mm' → plays lits code k l c x mm.
Proof using Type.
  intros Hr. destruct x; try done; intros (m2 & Hr2 & Ha); exists m2; (split; [|done]); [by etrans|by eapply ends_after..].
Qed.
(** A part that begins and ends elsewhere *)
Lemma plays_from lits code k l c l1 c1 x mm mm' : reaches lits code (length l, mm) (length l1, mm') → plays lits code k l1 c1 x mm' →
  (∀ m2, reaches lits code (length l1 + length c1, m2)%nat (length l + length c, m2)%nat) → plays lits code k l c x mm.
Proof using Type.
  intros Hr Hp He. destruct x; try done; destruct Hp as (m2 & Hr2 & Ha); exists m2; (split; [|done]); [|by eapply ends_after..].
  etrans; [exact Hr|]. by etrans.
Qed.
Lemma hop_back lits code ip m k ip' : code !! ip = Some (mkI _OP_JMP 0 k 0 0) → Z.of_nat ip' = Z.of_nat ip + 1 + k → reaches lits code (ip, m) (ip', m).
Proof using Type. intros Hi Hk. eapply rtc_once, hop_jump; [done| |done]. by rewrite strict_same. Qed.

Section test.
Context (w : view) (e : exp) (G : good e) (c0 : list instruction) (j : instruction).
Abbreviation t := (place locals 0 e).
Context (Htest : ∀ str lits, fits str lits w → ∀ k m, 0 ≤ k →
  same_finish (below (base locals)) (below (base locals)) (exec (strict_step lits) (c0 ++ [set_jump k j]) 0 m) (tested t k (eval_to e t str m))).

Lemma test_plays l l' str lits k mm m : fits str lits w → like n mm m →
  let code := l ++ (c0 ++ set_jump (Z.of_nat k) j :: l') in
  match eval str (regs m) e (store m) with
  | RVal v h => ∃ mm', reaches lits code (length l, mm) (length l + length c0 + 1 + (if IsFalse v then k else 0), mm')%nat ∧ like n mm' (with_store h m)
  | RThrow h => ∃ mm', ends_with lits code (length l, mm) (Thrown mm') ∧ store mm' = h
  | RLost => True
  end.
Proof using G Htest.
  intros Hf Hl code. specialize (Htest str lits Hf (Z.of_nat k) mm ltac:(lia)).
  pose proof (exec_reaches lits code (c0 ++ [set_jump (Z.of_nat k) j]) l l' 0 mm ltac:(by rewrite <- !app_assoc)) as Hr. rewrite Nat.add_0_r, length_app in Hr. cbn [length] in Hr.
  pose proof (eval_like str e mm m G Hl) as Ee. unfold eval_to in Htest. destruct (eval str (regs mm) e (store mm)) as [v h|h|] eqn:Em; rewrite <- Ee; [..|done].
  - cbn [of_result tested] in Htest. rewrite put_same in Htest. destruct (exec _ _ 0 mm) as [k' m1|m1| |]; try done. destruct Htest as [-> Ha]. exists m1. split.
    + destruct (IsFalse v); [|by rewrite Nat.add_0_r in *; rewrite Nat.add_assoc in Hr]. by rewrite Nat2Z.id, Nat.add_assoc in Hr.
    + eapply agree_trans; [exact Ha|]. pose proof (put_place locals str 0 0 e v h mm Em) as Hp. rewrite Z.add_0_r in Hp. eapply agree_trans; [by apply Hp|]. by apply agree_with_store.
  - cbn [of_result tested] in Htest. destruct (exec _ _ 0 mm) as [k' m1|m1| |]; try done. destruct Htest as [_ Hs]. by exists m1.
Qed.

(** The part of a statement that begins with a test *)
Lemma test_then l l' str lits k mm m n' c x1 x2 : fits str lits w → like n mm m →
  let code := l ++ (c0 ++ set_jump (Z.of_nat k) j :: l') in
  (∀ mm' m', like n mm' m' → reaches lits code (length l, mm) (length l + length c0 + 1, mm')%nat → plays lits code n' l c (x1 m') mm) →
  (∀ mm' m', like n mm' m' → reaches lits code (length l, mm) (length l + length c0 + 1 + k, mm')%nat → plays lits code n' l c (x2 m') mm) →
  plays lits code n' l c (valued_as str e m (λ v m, if IsFalse v then x2 m else x1 m)) mm.
Proof using G Htest.
  intros Hf Hl code H1 H2. unfold valued_as. pose proof (test_plays l l' str lits k mm m Hf Hl) as Hp. cbn zeta in Hp. fold code in Hp.
  destruct (eval str (regs m) e (store m)) as [v h|h|]; [..|done]; [|exact Hp].
  destruct Hp as (mm' & Hr & Ha). destruct (IsFalse v); [by apply (H2 mm')|]. apply (H1 mm'); [done|]. by rewrite Nat.add_0_r in Hr.
Qed.

Abbreviation test k := (set_jump (Z.of_nat k) j).

Lemma act_if c1 b : acts n w c1 b → act n w (c0 ++ test (length c1) :: c1) (If e b []).
Proof using G Htest.
  intros H1 str lits Hf l l' fuel m mm Hl. cbn [once]. rewrite <- app_assoc. cbn [app]. apply test_then; [done|done|..]; intros mm' m' Hl' Hr.
  - apply (plays_from _ _ _ _ _ (l ++ c0 ++ [test (length c1)]) c1 _ _ mm').
    + rewrite !length_app. cbn [length]. by rewrite Nat.add_assoc.
    + specialize (H1 str lits Hf (l ++ c0 ++ [test (length c1)]) l' fuel m' mm' Hl'). by rewrite <- !app_assoc in H1.
    + intros m2. rewrite !length_app. cbn [length]. by replace (length l + (length c0 + S (length c1)))%nat with (length l + (length c0 + 1) + length c1)%nat by lia.
  - destruct fuel as [|fuel]; [done|]. exists mm'. split; [|done]. rewrite length_app. cbn [length].
    by replace (length l + (length c0 + S (length c1)))%nat with (length l + length c0 + 1 + length c1)%nat by lia.
Qed.

Lemma act_if_else c1 b1 c2 b2 : acts n w c1 b1 → acts n w c2 b2 →
  act n w (c0 ++ test (length c1 + 1) :: c1 ++ mkI _OP_JMP 0 (Z.of_nat (length c2)) 0 0 :: c2) (If e b1 b2).
Proof using G Htest.
  intros H1 H2 str lits Hf l l' fuel m mm Hl. cbn [once]. rewrite <- app_assoc. cbn [app]. set (jmp := mkI _OP_JMP _ _ _ _). rewrite <- app_assoc. cbn [app].
  apply test_then; [done|done|..]; intros mm' m' Hl' Hr; set (l1 := l ++ c0 ++ [test (length c1 + 1)]); assert (length l1 = length l + length c0 + 1)%nat as El by (unfold l1; rewrite !length_app; cbn [length]; lia).
  - apply (plays_from _ _ _ _ _ l1 c1 _ _ mm'); [by rewrite El|specialize (H1 str lits Hf l1 (jmp :: c2 ++ l') fuel m' mm' Hl'); unfold l1 in H1 |- *; by rewrite <- !app_assoc in H1|].
    intros m2. apply (hop_back _ _ _ _ (Z.of_nat (length c2))); [|rewrite !length_app; cbn [length]; rewrite length_app; cbn [length]; lia].
    rewrite El, lookup_app_r, lookup_app_r, lookup_cons_ne_0, lookup_app_r by lia. by replace (pred _ - _)%nat with 0%nat by lia.
  - set (l2 := l ++ c0 ++ test (length c1 + 1) :: c1 ++ [jmp]).
    assert (length l2 = length l + length c0 + 1 + (length c1 + 1))%nat as El2 by (unfold l2; rewrite !length_app; cbn [length]; rewrite length_app; cbn [length]; lia).
    apply (plays_from _ _ _ _ _ l2 c2 _ _ mm'); [by rewrite El2|specialize (H2 str lits Hf l2 l' fuel m' mm' Hl'); unfold l2 in H2 |- *; do 2 (rewrite <- !app_assoc in H2; cbn [app] in H2); exact H2|].
    intros m2. rewrite El2, !length_app. cbn [length]. rewrite length_app. cbn [length].
    by replace (length l + (length c0 + S (length c1 + S (length c2))))%nat with (length l + length c0 + 1 + (length c1 + 1) + length c2)%nat by lia.
Qed.

Lemma act_while c1 b : acts n w c1 b →
  act n w (c0 ++ test (length c1 + 1) :: c1 ++ [mkI _OP_JMP 0 (- Z.of_nat (length c0 + length c1 + 2)) 0 0]) (While e b).
Proof using G Htest.
  intros H1 str lits Hf l l' fuel. rewrite <- app_assoc. cbn [app]. set (jmp := mkI _OP_JMP _ _ _ _). rewrite <- app_assoc. cbn [app].
  set (code := l ++ _). set (c := c0 ++ _). set (l1 := l ++ c0 ++ [test (length c1 + 1)]). assert (length l1 = length l + length c0 + 1)%nat as El by (unfold l1; rewrite !length_app; cbn [length]; lia).
  assert (length c = length c0 + 1 + length c1 + 1)%nat as Ec by (unfold c; rewrite length_app; cbn [length]; rewrite length_app; cbn [length]; lia).
  assert (∀ m2, reaches lits code (length l1 + length c1, m2)%nat (length l, m2)) as Hback.
  { intros m2. apply (hop_back _ _ _ _ (- Z.of_nat (length c0 + length c1 + 2))); [|rewrite El; lia]. unfold code. rewrite El, lookup_app_r, lookup_app_r, lookup_cons_ne_0, lookup_app_r by lia.
    by replace (pred _ - _)%nat with 0%nat by lia. }
  induction fuel as [fuel IH] using lt_wf_ind; intros m mm Hl; cbn [once]; apply test_then; [done|done|..]; intros mm' m' Hl' Hr; fold code in Hr |- *.
  - assert (code = l1 ++ c1 ++ jmp :: l') as Ecode by (unfold code, l1; by rewrite <- !app_assoc).
    pose proof (H1 str lits Hf l1 (jmp :: l') fuel m' mm' Hl') as Hb. rewrite <- Ecode in Hb. rewrite <- El in Hr.
    destruct (behave str fuel n b m') as [m3|m3|v m3| |]; cbn [after]; try done; [|by destruct Hb as (m4 & He & Hs); exists m4; (split; [by eapply ends_after|])..].
    destruct Hb as (mm3 & Hr3 & Hl3). apply (reaches_plays _ _ _ _ _ _ _ mm3); [etrans; [exact Hr|]; by etrans|].
    destruct fuel as [|fuel]; [done|]. specialize (IH fuel ltac:(lia) m3 mm3 Hl3). cbn [behave]. change (scope_after n (While e b)) with n in *.
    set (x := once _ _ _ _ _) in *. destruct x; try done. cbn [after]. by destruct fuel.
  - exists mm'. split; [|done]. rewrite Ec. by replace (length l + _)%nat with (length l + length c0 + 1 + (length c1 + 1))%nat by lia.
Qed.
End test.
End values.
End parts.
