(* ===== verification/SqCompilerScope.v ===== *)
(** * The compiler between statements

    What the compiler does around the expressions of a statement: the marks of lines,
    local variables and their scopes, the end of a statement. *)

From Stdlib Require Import Ascii.
From stdpp Require Import base numbers gmap strings option list.
From S2P Require Import Prelude CType SqObject SqArrayLib SqString SqProto SqLexer SqLexerSpec SqLexerRound SqKeywords SqFuncState SqCompiler SqCompilerEnds SqVm SqPeephole SqCompilerRead SqExpression SqCompilerView SqCompilerCode SqCompilerEval SqCompilerExpr SqCompilerOps SqStatement SqCompilerRun.

Open Scope Z_scope.

(** ** What statements change *)

Definition set_lines (lis : list SQLineInfo) (a : aside) : aside :=
  mkAside (a_traps (aside := a)) a_outers a_breaks a_continues a_breaktargets a_continuetargets a_functions a_parameters a_defaultparams lis a_localvarinfos a_scope.
Definition set_vars (vs : list local_info) (a : aside) : aside :=
  mkAside (a_traps (aside := a)) a_outers a_breaks a_continues a_breaktargets a_continuetargets a_functions a_parameters a_defaultparams a_lineinfos vs a_scope.
Definition set_scope (sc : SQScope) (a : aside) : aside :=
  mkAside (a_traps (aside := a)) a_outers a_breaks a_continues a_breaktargets a_continuetargets a_functions a_parameters a_defaultparams a_lineinfos a_localvarinfos sc.

(** Lines and variables are recorded; the rest is the same in the end. *)
Definition recorded (a : aside) : nat := length (@a_lineinfos a) + length (@a_localvarinfos a).
Definition same_but_records (a a' : aside) : Prop := a' = set_lines (@a_lineinfos a') (set_vars (@a_localvarinfos a') a).

Section between.
Context {KT : KeywordTable} {FR : FloatReader} {AL : Allocator} {H : Type} {RT : Runtime H}.
Context (_lineinfo : bool) (locals : list (list ascii)).
Abbreviation base := (base locals).
Implicit Types asd : aside.

(** *** Where a statement begins *)

(** Behind [pre] there is at most the mark of a line, which that of the next statement
    replaces; else the last instruction is not joined with the next. *)
Definition jumped (pre : list instruction) : Prop := match last pre with Some i => jumps (iop i) = true | None => True end.
Record starts (asd : aside) (pre ld : list instruction) (w : view) : Prop := {
  so_temps : w_temps w = 0%nat;
  so_targets : w_targets w = [];
  so_code : w_code w = pre ++ ld;
  so_lead : lead ld;
  so_mark : ld ≠ [] → @a_lineinfos asd ≠ [] ∧ w_opt w = true;
  so_jumped : w_opt w = true → ld = [] → jumped pre
}.
Lemma starts_sealed asd pre ld w : starts asd pre ld w → w_opt w = true → sealed (w_code w).
Proof using Type.
  intros [_ _ -> [->|(i & -> & Hi)] _ Hj] Ho; unfold sealed.
  - rewrite app_nil_r. specialize (Hj Ho eq_refl). unfold jumped in Hj. destruct (last pre); [by apply jumps_inert|done].
  - rewrite last_snoc. by rewrite Hi.
Qed.

(** *** Marks of lines *)

Lemma add_line f pre ld asd w i : starts asd pre ld w → _instructions f = w_code w → _optimization f = w_opt w → _lineinfos f = @a_lineinfos asd → iop i = _OP_LINE →
  ∃ lis, add_instruction false i f = Ok ((), with_optimization true (with_instructions (pre ++ [i]) (with_lineinfos lis f))) ∧ (length lis ≤ length (@a_lineinfos asd))%nat.
Proof using Type.
  intros [_ _ Ew Hl Hm Hj] Ec Eo El Hi. unfold add_instruction. cbn. unfold mbind, stM_bind. cbn. unfold id. rewrite Ec, Eo, Ew. destruct Hl as [->|(p & -> & Hp)].
  - exists (@a_lineinfos asd). split; [|done]. rewrite app_nil_r in *. rewrite Ew in Ec. assert (with_lineinfos (@a_lineinfos asd) f = f) as -> by (destruct f; cbn in *; by subst).
    destruct (last pre) as [p|] eqn:E; [|by rewrite <- Ec]. destruct (w_opt w); [|by rewrite <- Ec]. specialize (Hj eq_refl eq_refl). unfold jumped in Hj. rewrite E in Hj.
    unfold improve. rewrite Hi, bool_decide_eq_false_2 by (intros Hp; by rewrite Hp in Hj).
    destruct pre as [|q pre _] using rev_ind; [done|]. rewrite last_snoc in E. injection E as ->. by rewrite removelast_last, <- app_assoc.
  - destruct Hm as [Hne ->]; [done|]. rewrite last_snoc, removelast_last. unfold improve. rewrite Hi, Hp. cbn. unfold lift. rewrite El. exists (removelast (@a_lineinfos asd)).
    assert (pop_back (@a_lineinfos asd) = Ok (removelast (@a_lineinfos asd))) as -> by (unfold pop_back; by destruct (@a_lineinfos asd)). split; [done|].
    destruct (@a_lineinfos asd) as [|x l _] using rev_ind; [done|]. rewrite removelast_last, length_app. lia.
Qed.

Lemma shows_with asd asd' c w f code opt : shows locals (asd := asd) c w → _vlocals f = _vlocals (_fs c) → _targetstack f = _targetstack (_fs c) →
  _strings f = _strings (_fs c) → _literals f = _literals (_fs c) → _nliterals f = _nliterals (_fs c) → _outervalues f = _outervalues (_fs c) →
  _instructions f = code → _optimization f = opt → aside_of (with_fs f c) = asd' → shows locals (asd := asd') (with_fs f c) (set_code code opt w).
Proof using Type.
  intros [] E1 E2 E3 E4 E5 E6 E7 E8 E9. split; [..|done]; cbn; rewrite ?E1, ?E2, ?E3, ?E4, ?E5, ?E6; done.
Qed.
Lemma aside_parts asd c w ls : shows ls (asd := asd) c w → _lineinfos (_fs c) = @a_lineinfos asd ∧ _localvarinfos (_fs c) = @a_localvarinfos asd ∧
  _outers (_fs c) = @a_outers asd ∧ _scope c = @a_scope asd ∧ _traps (_fs c) = @a_traps asd.
Proof using Type. intros Hs. by rewrite <- (sh_aside _ _ _ Hs). Qed.
Lemma same_records_refl asd : same_but_records asd asd.
Proof using Type. by destruct asd. Qed.
Lemma same_records_trans a1 a2 a3 : same_but_records a1 a2 → same_but_records a2 a3 → same_but_records a1 a3.
Proof using Type. unfold same_but_records. destruct a1, a2, a3. cbn. intros [= -> -> -> -> -> -> -> -> -> ->] [= -> -> -> -> -> -> -> -> -> ->]. done. Qed.
Lemma set_code_same w : set_code (w_code w) (w_opt w) w = w.
Proof using Type. by destruct w. Qed.

Lemma runs_AddLineInfos asd c w pre ld line : shows locals (asd := asd) c w → starts asd pre ld w →
  runs (fs (AddLineInfos false line _lineinfo false)) c (λ _ c', ∃ asd' ld' opt, shows locals (asd := asd') c' (set_code (pre ++ ld') opt w) ∧
    starts asd' pre ld' (set_code (pre ++ ld') opt w) ∧ same_but_records asd asd' ∧ (recorded asd' ≤ S (recorded asd))%nat).
Proof using Type.
  intros Hs Hst. destruct (aside_parts _ _ _ _ Hs) as (El & _ & _). unfold runs, fs, AddLineInfos. cbn -[AddInstruction]. unfold mbind, stM_bind. cbn -[AddInstruction]. unfold id.
  rewrite orb_false_r. destruct (negb (_lastline (_fs c) =? line)); cbn -[AddInstruction].
  2: { exists asd, ld, (w_opt w). assert (with_fs (_fs c) c = c) as -> by (by destruct c). rewrite <- (so_code _ _ _ _ Hst), set_code_same. split_and!; [done|done|apply same_records_refl|lia]. }
  assert (∀ lis ld' opt f, with_instructions (pre ++ ld') (with_optimization opt (with_lineinfos (lis ++ [mkLine line (vsize (_instructions (_fs c)) - 1 + 1)]) (with_lastline line (_fs c)))) = f →
    lead ld' → (ld' ≠ [] → opt = true) → (opt = true → ld' = [] → jumped pre) → (length lis ≤ length (@a_lineinfos asd))%nat →
    ∃ asd' ld' opt, shows locals (asd := asd') (with_fs f c) (set_code (pre ++ ld') opt w) ∧
      starts asd' pre ld' (set_code (pre ++ ld') opt w) ∧ same_but_records asd asd' ∧ (recorded asd' ≤ S (recorded asd))%nat) as Hall.
  { intros lis ld' opt f Ef Hl Hm Hj Hlen. exists (aside_of (with_fs f c)), ld', opt. subst f. split; [by eapply shows_with|]. split; [|split].
    - destruct Hst. split; try done; cbn. intros Hne. split; [|by apply Hm]. by destruct lis.
    - rewrite <- (sh_aside _ _ _ Hs). done.
    - unfold recorded. cbn. rewrite <- (sh_aside _ _ _ Hs) in Hlen |- *. cbn in *. rewrite length_app. cbn. lia. }
  destruct _lineinfo; cbn -[AddInstruction].
  - unfold AddInstruction. destruct (add_line (_fs c) pre ld asd w (instr _OP_LINE 0 line 0 0) Hst) as (lis & -> & Hlen); [apply Hs|apply Hs|done|done|]. cbn.
    eapply (Hall lis [instr _OP_LINE 0 line 0 0] true); [done|right; by eexists|done|done|done].
  - eapply (Hall (@a_lineinfos asd) ld (w_opt w)); [|apply Hst|apply Hst|apply Hst|done].
    rewrite <- (so_code _ _ _ _ Hst), <- El, <- (sh_code _ _ _ Hs), <- (sh_opt _ _ _ Hs). by destruct (_fs c).
Qed.

(** The mark at the end of the function is set whatever the line was. *)
Lemma runs_end_line asd c w line : shows locals (asd := asd) c w → w_opt w = false ∨ w_code w = [] →
  runs (fs (AddLineInfos false line _lineinfo true)) c (λ _ c', ∃ asd' ld opt, shows locals (asd := asd') c' (set_code (w_code w ++ ld) opt w) ∧
    lead ld ∧ (opt = true → sealed (w_code w ++ ld)) ∧ same_but_records asd asd' ∧ (recorded asd' ≤ S (recorded asd))%nat).
Proof using Type.
  intros Hs Ho. unfold runs, fs, AddLineInfos. cbn -[AddInstruction]. unfold mbind, stM_bind. cbn -[AddInstruction]. unfold id. rewrite orb_true_r. cbn -[AddInstruction].
  assert (∀ lis ld opt f, with_instructions (w_code w ++ ld) (with_optimization opt (with_lineinfos lis (with_lastline line (_fs c)))) = f →
    lead ld → (opt = true → sealed (w_code w ++ ld)) → (length lis ≤ S (length (@a_lineinfos asd)))%nat →
    ∃ asd' ld opt, shows locals (asd := asd') (with_fs f c) (set_code (w_code w ++ ld) opt w) ∧
      lead ld ∧ (opt = true → sealed (w_code w ++ ld)) ∧ same_but_records asd asd' ∧ (recorded asd' ≤ S (recorded asd))%nat) as Hall.
  { intros lis ld opt f Ef Hl Hsl Hlen. exists (aside_of (with_fs f c)), ld, opt. subst f. split; [by eapply shows_with|]. split; [done|]. split; [done|]. split.
    - rewrite <- (sh_aside _ _ _ Hs). done.
    - unfold recorded. cbn. rewrite <- (sh_aside _ _ _ Hs) in Hlen |- *. cbn in *. lia. }
  destruct (aside_parts _ _ _ _ Hs) as (El & _ & _). rewrite <- El in Hall. destruct _lineinfo; cbn -[AddInstruction].
  - unfold AddInstruction, add_instruction. cbn. unfold mbind, stM_bind. cbn. unfold id. rewrite (sh_code _ _ _ Hs), (sh_opt _ _ _ Hs). set (i := instr _OP_LINE 0 line 0 0).
    assert (∀ lis f, with_instructions (w_code w ++ [i]) (with_optimization true (with_lineinfos lis (with_lastline line (_fs c)))) = f → (length lis ≤ S (length (_lineinfos (_fs c))))%nat →
      ∃ asd' ld opt, shows locals (asd := asd') (with_fs f c) (set_code (w_code w ++ ld) opt w) ∧
        lead ld ∧ (opt = true → sealed (w_code w ++ ld)) ∧ same_but_records asd asd' ∧ (recorded asd' ≤ S (recorded asd))%nat) as Hmark.
    { intros lis f Ef Hlen. apply (Hall lis [i] true f Ef); [right; by exists i| |done]. intros _. unfold sealed. by rewrite last_snoc. }
    destruct Ho as [->|Ew]; [destruct (last (w_code w))|rewrite (proj2 (last_None (w_code w)) Ew)]; cbn; destruct (negb _); cbn;
      first [eapply (Hmark (_ ++ [_])); [by rewrite (sh_code _ _ _ Hs)|rewrite length_app; cbn; lia]
            |eapply (Hmark (_lineinfos (_fs c))); [rewrite <- (sh_code _ _ _ Hs); by destruct (_fs c)|lia]].
  - assert (lead []) as Hlead by (by left). assert (w_opt w = true → sealed (w_code w ++ [])) as Hsl by (destruct Ho as [->|Ew]; [done|by rewrite Ew]).
    rewrite <- (sh_code _ _ _ Hs), <- (sh_opt _ _ _ Hs) in *. destruct (negb _); cbn; [eapply (Hall (_lineinfos (_fs c) ++ [mkLine line (vsize (_instructions (_fs c)) - 1 + 1)]) [] (_optimization (_fs c)))|eapply (Hall (_lineinfos (_fs c)) [] (_optimization (_fs c)))]; try done;
      rewrite ?app_nil_r, ?length_app; cbn; try lia; by destruct (_fs c).
Qed.

(** *** Variables and scopes *)

Lemma runs_PushLocalVariable asd c w a x : shows locals (asd := asd) c w → w_temps w = 0%nat → w_targets w = [] → w_strs w !! a = Some x →
  runs (fs (PushLocalVariable (string_key a))) c (λ _ c', shows (locals ++ [x]) (asd := asd) c' w).
Proof using Type.
  intros Hs Ek Et Ha. unfold runs, fs, PushLocalVariable. cbn -[vsize]. unfold mbind, stM_bind. cbn -[vsize]. unfold id.
  assert (∀ f, _vlocals f = _vlocals (_fs c) ++ [mkVar (string_key a) (vsize (_instructions (_fs c)) - 1 + 1) 0 (vsize (_vlocals (_fs c)))] →
    _targetstack f = _targetstack (_fs c) → _strings f = _strings (_fs c) → _literals f = _literals (_fs c) → _nliterals f = _nliterals (_fs c) →
    _outervalues f = _outervalues (_fs c) → _instructions f = _instructions (_fs c) → _optimization f = _optimization (_fs c) → aside_of (with_fs f c) = aside_of c →
    shows (locals ++ [x]) (asd := asd) (with_fs f c) w) as Hall.
  { intros f E1 E2 E3 E4 E5 E6 E7 E8 E9. destruct Hs. split; [..|congruence]; cbn; rewrite ?E2, ?E3, ?E4, ?E5, ?E6, ?E7, ?E8; try done; [|by rewrite Et, Ek; constructor].
    destruct sh_vars as (vs & ts & Ev & Hv & Hts & Hl). destruct ts; [|by rewrite Ek in Hl]. eexists _, []. rewrite E1, Ev, !app_nil_r. split; [done|]. split; [|by split].
    apply Forall2_app; [done|]. constructor; [|constructor]. by exists a. }
  destruct (_ <? _); by apply Hall.
Qed.

Lemma drop_locals_vars k : ∀ f vs ds, _vlocals f = vs ++ ds → length ds = k → Forall (λ v, is_outer v = false ∧ is_null (v_name v) = false) ds →
  ∃ lvs, drop_locals k f = Ok ((), with_vlocals vs (with_localvarinfos lvs f)) ∧ (length lvs = length (_localvarinfos f) + k)%nat.
Proof using Type.
  induction k as [|k IH]; intros f vs ds Ev Hk Hds; cbn [drop_locals].
  - destruct ds; [|done]. rewrite app_nil_r in Ev. exists (_localvarinfos f). split; [|lia]. unfold mret, stM_ret. rewrite <- Ev. by destruct f.
  - destruct ds as [|d ds _] using rev_ind; [done|]. rewrite length_app, Nat.add_1_r in Hk. injection Hk as Hk. apply Forall_app in Hds as [Hds [[Ho Hn] _]%Forall_cons].
    rewrite app_assoc in Ev. unfold drop_local. unfold mbind, stM_bind. cbn -[vsize]. unfold id. rewrite Ev. unfold back. rewrite last_snoc. cbn -[vsize].
    rewrite Hn, Ho. cbn -[vsize]. assert (pop_back ((vs ++ ds) ++ [d]) = Ok (vs ++ ds)) as Hp.
    { unfold pop_back. destruct ((vs ++ ds) ++ [d]) eqn:E; [by destruct (vs ++ ds)|]. rewrite <- E. by rewrite removelast_last. }
    unfold lift. rewrite Hp. cbn -[vsize]. match goal with |- context [drop_locals k ?g] => destruct (IH g vs ds eq_refl Hk Hds) as (lvs & -> & Hl) end. exists lvs. split; [done|].
    cbn in Hl. rewrite length_app in Hl. cbn in Hl. lia.
Qed.
Lemma runs_SetStackSize asd c w xs : shows (locals ++ xs) (asd := asd) c w → w_temps w = 0%nat → w_targets w = [] →
  runs (fs (SetStackSize base)) c (λ _ c', ∃ lvs, shows locals (asd := set_vars lvs asd) c' w ∧ length lvs = (length (@a_localvarinfos asd) + length xs)%nat).
Proof using Type.
  intros Hs Ek Et. destruct (sh_vars _ _ _ Hs) as (vs & ts & Ev & Hv & _ & Hl). rewrite Ek in Hl. destruct ts; [|done]. rewrite app_nil_r in Ev.
  apply Forall2_app_inv_r in Hv as (vs1 & ds & H1 & H2 & ->). unfold runs, fs, SetStackSize. cbn -[vsize]. unfold mbind, stM_bind. cbn -[vsize].
  assert (Z.to_nat (vsize (_vlocals (_fs c)) - base) = length ds) as ->.
  { rewrite Ev. unfold vsize, SqCompilerView.base. apply Forall2_length in H1. rewrite length_app. lia. }
  destruct (drop_locals_vars (length ds) (_fs c) vs1 ds Ev eq_refl) as (lvs & E & Hlen).
  { clear -H2. induction H2 as [|v x ds xs (a & En & _ & Ho) _ IH]; constructor; [|done]. by rewrite En. }
  rewrite E. exists lvs. apply Forall2_length in H2. rewrite <- (sh_aside _ _ _ Hs). split; [|cbn; lia].
  destruct Hs. split; try done; [|by rewrite Et, Ek; constructor]. exists vs1, []. by rewrite app_nil_r.
Qed.

Lemma shows_scope asd c w sc : shows locals (asd := asd) c w → shows locals (asd := set_scope sc asd) (with_scope sc c) w.
Proof using Type. intros []. split; try done. by subst. Qed.
Lemma stack_size asd c w ls : shows ls (asd := asd) c w → w_temps w = 0%nat → vsize (_vlocals (_fs c)) = SqCompilerView.base ls.
Proof using Type. intros Hs Ek. rewrite (vars_size _ _ _ Hs), Ek. lia. Qed.

Lemma runs_BEGIN_SCOPE asd c w : shows locals (asd := asd) c w → w_temps w = 0%nat →
  runs BEGIN_SCOPE c (λ old c', old = @a_scope asd ∧ shows locals (asd := set_scope (mkScope (@a_outers asd) base) asd) c' w).
Proof using Type.
  intros Hs Ek. destruct (aside_parts _ _ _ _ Hs) as (_ & _ & Eo & Es & _). unfold BEGIN_SCOPE. apply runs_bind, runs_gets, runs_bind.
  unfold runs at 1. cbn -[vsize]. assert (with_fs (_fs c) c = c) as -> by (by destruct c). rewrite (stack_size _ _ _ _ Hs Ek).
  apply runs_bind, runs_gets, runs_bind, runs_modify, runs_ret. rewrite Es, Eo. split; [done|]. by apply shows_scope.
Qed.
Lemma runs_END_SCOPE asd c w xs o old : shows (locals ++ xs) (asd := asd) c w → w_temps w = 0%nat → w_targets w = [] → @a_scope asd = mkScope o base →
  runs (END_SCOPE old) c (λ _ c', ∃ lvs, shows locals (asd := set_scope old (set_vars lvs asd)) c' w ∧ length lvs = (length (@a_localvarinfos asd) + length xs)%nat).
Proof using Type.
  intros Hs Ek Et Hsc. destruct (aside_parts _ _ _ _ Hs) as (_ & El & Eo & Es & _). unfold END_SCOPE. apply runs_bind, runs_gets, runs_bind, runs_gets, runs_bind.
  unfold runs at 1. cbn -[vsize]. assert (with_fs (_fs c) c = c) as -> by (by destruct c). rewrite (stack_size _ _ _ _ Hs Ek), Es, Hsc. cbn [stacksize].
  apply runs_bind, runs_when; intros Hb.
  - apply runs_bind. eapply runs_mono; [by apply (runs_SetStackSize asd c w xs)|]. intros [] c1 (lvs & Hs1 & Hl). destruct (aside_parts _ _ _ _ Hs1) as (_ & _ & Eo1 & _).
    apply runs_bind, runs_gets. rewrite Eo, Eo1. cbn. rewrite Z.eqb_refl. apply runs_ret. exists lvs. split; [by apply (shows_scope (set_vars lvs asd))|done].
  - apply runs_modify. apply negb_false_iff, Z.eqb_eq in Hb. unfold SqCompilerView.base in Hb. rewrite length_app in Hb. destruct xs; [|cbn in Hb; lia].
    exists (@a_localvarinfos asd). split; [|cbn; lia]. rewrite app_nil_r in Hs. assert (set_vars (@a_localvarinfos asd) asd = asd) as -> by (by destruct asd). by apply shows_scope.
Qed.

(** *** The end of a statement *)

Lemma runs_semicolon asd c w ws rest : shows locals (asd := asd) c w → w_ts w = (op ";", ws) :: rest → w_prev w ≠ ch "}" → w_prev w ≠ ch ";" →
  runs after_statement c (λ _ c', ∃ p, shows locals (asd := asd) c' (set_ts rest p w)).
Proof using Type.
  intros Hs Ew H1 H2. unfold after_statement. apply runs_bind, runs_gets. rewrite (sh_prev _ _ _ Hs), !(proj2 (Z.eqb_neq (w_prev w) _)) by done. apply runs_when; [intros _|done].
  unfold OptionalSemicolon. apply runs_bind, runs_token. rewrite (shows_token _ _ _ Hs), Ew. eapply runs_mono; [by apply (runs_Lex locals c w (op ";") ws rest)|].
  intros [] c' (p & Hs' & _). by exists p.
Qed.
Lemma runs_no_semicolon asd c w : shows locals (asd := asd) c w → (w_ts w ≠ [] → w_prev w = ch "}" ∨ w_prev w = 10) → head_code (w_ts w) ≠ ch ";" →
  runs after_statement c (λ _ c', c' = c).
Proof using Type.
  intros Hs Hp Ht. unfold after_statement. apply runs_bind, runs_gets. apply runs_when; intros Hb; [|done].
  unfold OptionalSemicolon. apply runs_bind, runs_token. rewrite (shows_token _ _ _ Hs), (proj2 (Z.eqb_neq _ _)) by done. unfold IsEndOfStatement. apply runs_bind, runs_gets.
  rewrite (shows_token _ _ _ Hs), (sh_prev _ _ _ Hs). apply runs_when; [|done]. intros He. exfalso. apply negb_true_iff in He.
  destruct (w_ts w) as [|u ts] eqn:Ew; [by rewrite !orb_true_r in He|]. rewrite (sh_prev _ _ _ Hs) in Hb. destruct Hp as [Hp|Hp]; [done|by rewrite Hp in Hb|by rewrite Hp in He].
Qed.

(** *** An expression for what it does *)

Definition effect_of (e : exp) : sem (H := H) := λ str m,
  match eval str (regs m) e (store m) with RVal _ h => Goes (with_store h m) | RThrow h => Stops (with_store h m) | RLost => Lost end.

Lemma effect_impl k w c e : base ≤ k → impl locals k w c (eval_to e (place locals 0 e)) → impl locals base w c (effect_of e).
Proof using Type.
  intros Hk Hi. eapply impl_conv; [exact Hi|done|]. intros str m. unfold eval_to, effect_of. destruct (eval str (regs m) e (store m)) as [v h|h|] eqn:E; [|apply same_run_refl..].
  split; [done|]. cbn. pose proof (put_place locals str 0 0 e v h m E) as Hp. rewrite Z.add_0_r in Hp. by apply Hp.
Qed.
Lemma discard_same lits c0 pi (m : machine (H := H)) : closed lits c0 → iop pi = _OP_CALL → base ≤ arg0 pi →
  same_finish (below base) (below base) (exec (strict_step lits) (c0 ++ [set_arg0 0xFF pi]) 0 m) (exec (strict_step lits) (c0 ++ [pi]) 0 m).
Proof using Type.
  intros Hc Hi Hb. rewrite !exec_app. specialize (Hc m). destruct (exec (strict_step lits) c0 0 m) as [[|k] m1|m1| |]; try done; try apply same_finish_refl.
  cbn [exec]. rewrite !strict_same by (by rewrite ?Hi; cbn; rewrite ?Hi). unfold step. cbn [set_arg0 iop]. rewrite Hi. unfold call. cbn [set_arg0 arg0 arg1 arg2 arg3].
  destruct (call_ _ _ _) as [[v|] h]; cbn; [|done]. split; [done|]. destruct (arg0 pi =? 255); [done|]. apply agree_sym. eapply agree_mono; [|apply agree_put].
  intros r Hr [= ->]. unfold below in Hr. lia.
Qed.

(** [DiscardTarget]: a call need not store its result. *)
Lemma runs_fs_bind {A B} (m : fsM A) (k : A → fsM B) c Q : runs (fs m) c (λ a c1, runs (fs (k a)) c1 Q) → runs (fs (m ≫= k)) c Q.
Proof using Type.
  unfold runs, fs, mbind, stM_bind. destruct (m (_fs c)) as [[a f]|]; [|done]. cbn. by destruct (k a f) as [[? ?]|].
Qed.
Definition discarded (t : Z) (w : view) : list instruction :=
  match last (w_code w) with
  | Some pi => if w_opt w && discards (iop pi) && (arg0 pi =? t) then removelast (w_code w) ++ [set_arg0 0xFF pi] else w_code w
  | None => w_code w
  end.
Lemma runs_DiscardTarget asd c w t : shows locals (asd := asd) c w → w_targets w = [t] →
  runs (fs DiscardTarget) c (λ _ c', shows locals (asd := asd) c' (set_code (discarded t w) (w_opt w) (set_targets [] (popped locals t (w_temps w)) w))).
Proof using Type.
  intros Hs Et. unfold DiscardTarget. apply runs_fs_bind. eapply runs_mono; [by apply (runs_PopTarget locals c w [] t Hs)|]. intros r c1 [-> Hs1].
  unfold runs, fs. cbn. unfold mbind, stM_bind. cbn. unfold id, discarded. rewrite (sh_code _ _ _ Hs1), (sh_opt _ _ _ Hs1). cbn.
  destruct (last (w_code w)) as [pi|]; [destruct (_ && _)|]; cbn; apply (shows_code locals c1 _ _ _ _ Hs1); try done; cbn; by rewrite ?(sh_code _ _ _ Hs1), ?(sh_opt _ _ _ Hs1).
Qed.
Lemma discarded_impl e p ts rest w w1 : done_with (H := H) locals e p ts rest w w1 → w_temps w = 0%nat → (w_opt w = true → sealed (w_code w)) →
  ∃ code, discarded (place locals 0 e) w1 = w_code w ++ code ∧ impl locals base w1 code (effect_of e) ∧ length (discarded (place locals 0 e) w1) = length (w_code w1).
Proof using Type.
  intros Hd Ek Hsl. destruct (dw_code _ _ _ _ _ _ _ Hd (w_code w) (λ _ m, Goes m)) as (code & Ec & Hi & Ht); [by apply emitted_start|]. rewrite Ek in Hi.
  apply effect_impl in Hi; [|lia]. assert (discarded (place locals 0 e) w1 = w_code w1 → ∃ code, discarded (place locals 0 e) w1 = w_code w ++ code ∧
    impl locals base w1 code (effect_of e) ∧ length (discarded (place locals 0 e) w1) = length (w_code w1)) as Hsame by (intros ->; by exists code).
  unfold discarded in *. destruct (last (w_code w1)) as [pi|] eqn:El; [|by apply Hsame]. destruct (_ && _) eqn:Eb; [clear Hsame|by apply Hsame].
  apply andb_true_iff in Eb as [[Eo Edi]%andb_true_iff Ea%Z.eqb_eq]. destruct (Ht Eo) as [[-> Hseal]|(c0 & q & -> & Hshut & Hg & Hp)].
  - exfalso. rewrite app_nil_r in Ec. unfold sealed in Hseal. rewrite <- Ec, El in Hseal. by destruct (iop pi).
  - rewrite Ec, app_assoc, last_snoc in El. injection El as ->. assert (iop pi = _OP_CALL) as Hcall by (by destruct (iop pi)).
    exists (c0 ++ [set_arg0 0xFF pi]). rewrite Ec, app_assoc, removelast_last, <- app_assoc, !length_app. cbn [length]. split; [done|]. split; [|lia].
    intros str lits Hf m. eapply same_finish_trans; [|by apply (Hi str lits Hf)]. apply discard_same; [by apply (Hshut str lits)|done|]. rewrite Ea. destruct (is_var e) eqn:Ev.
    + exfalso. destruct (dw_var _ _ _ _ _ _ _ Hd Ev) as [E1 E2]. rewrite E1 in Ec. rewrite <- (app_nil_r (w_code w)) in Ec at 1. apply app_inv_head in Ec. by destruct c0.
    + destruct (place_temp locals 0 e Ev) as [-> _]. lia.
Qed.
End between.
