(* ===== verification/SqCompilerSimple.v ===== *)
(** * The compiler and simple statements

    An expression, an assignment, a new variable and [return]: each is read to its
    end, and the instructions that are emitted do what the statement does. *)

From Stdlib Require Import Ascii.
From stdpp Require Import base numbers gmap strings option list.
From S2P Require Import Prelude CType SqObject SqArrayLib SqString SqProto SqLexer SqLexerSpec SqLexerRound SqKeywords SqFuncState SqCompiler SqCompilerEnds SqVm SqPeephole SqCompilerRead SqExpression SqCompilerView SqCompilerCode SqCompilerEval SqCompilerExpr SqCompilerOps SqCompilerLevels SqCompilerCalls SqCompilerCorrect SqStatement SqCompilerRun SqCompilerScope.

Open Scope Z_scope.

(** The statement in front of [rest] is over. *)
Definition next (rest : list tok) : Prop := head_code rest ≠ ch ";" ∧ head_code rest ≠ TK_ELSE.
Definition spacious (w : view) : Prop :=
  Z.of_nat (length (w_lits w) + length (w_ts w)) < 2 ^ 31 - 1 ∧ Z.of_nat (length (w_code w) + 4 * length (w_ts w)) < 2 ^ 31 - 1.

Lemma head_app (ts ts' : list tok) : ts ≠ [] → head_code (ts ++ ts') = head_code ts.
Proof. by destruct ts. Qed.

(** Lengths of lists of tokens *)
Ltac tlia := unfold tok in *; lia.

Section simple.
Context {KT : KeywordTable} {FR : FloatReader} {AL : Allocator} {H : Type} {RT : Runtime H}.
Context (_sourcename : SQObject) (_lineinfo : bool).
Abbreviation parse := (parse _sourcename _lineinfo).
Implicit Types (asd : aside) (locals : list (list ascii)).

(** ** Reading a statement *)

Record read_stmt (locals locals' : list (list ascii)) (s : stmt) (pre : list instruction) (rest : list tok) (asd asd' : aside) (w w' : view) : Prop := {
  rs_ts : w_ts w' = rest;
  rs_temps : w_temps w' = 0%nat;
  rs_targets : w_targets w' = [];
  rs_opt : w_opt w' = false;
  rs_grown : grown 0 w w';
  rs_same : same_but_records asd asd';
  rs_recorded : (recorded asd' + length locals' + length rest ≤ recorded asd + length locals + length (w_ts w))%nat;
  rs_code : ∃ code, w_code w' = pre ++ code ∧ act (H := H) (length locals) w' code s
}.
Definition reads_stmt (locals : list (list ascii)) (s : stmt) (ts : list tok) (locals' : list (list ascii)) : Prop := ∀ asd c w pre ld rest fuel,
  0 < base locals → @a_traps asd = 0 → shows locals (asd := asd) c w → starts asd pre ld w → w_ts w = ts ++ rest → spacious w → next rest → (16 * length ts + 2 ≤ fuel)%nat →
  runs (parse fuel (NStatement true);; after_statement) c (λ _ c', ∃ asd' w', shows locals' (asd := asd') c' w' ∧ read_stmt locals locals' s pre rest asd asd' w w').

(** The mark of the line has been set. *)
Record begun (asd asd1 : aside) (pre ld1 : list instruction) (w w1 : view) : Prop := {
  bg_starts : starts asd1 pre ld1 w1;
  bg_same : same_but_records asd asd1;
  bg_recorded : (recorded asd1 ≤ S (recorded asd))%nat;
  bg_view : w1 = set_code (w_code w1) (w_opt w1) w;
  bg_length : (length (w_code w1) ≤ S (length (w_code w)))%nat
}.
Lemma runs_Statement locals asd c w pre ld g (m : cM ()) Q : shows locals (asd := asd) c w → starts asd pre ld w →
  (∀ asd1 ld1 c1 w1, shows locals (asd := asd1) c1 w1 → begun asd asd1 pre ld1 w w1 →
     runs (statement_body (parse g) true (head_code (w_ts w))) c1 (λ _ c2, runs (fs SnoozeOpt) c2 (λ _ c3, runs m c3 Q))) →
  runs (parse (S g) (NStatement true);; m) c Q.
Proof using Type.
  intros Hs Hst Hm. apply runs_bind. cbn [SqCompiler.parse SqCompiler.run]. unfold Statement. apply runs_bind, runs_gets, runs_bind. unfold nested. apply runs_gets. rewrite (sh_parents _ _ _ Hs).
  apply runs_bind. eapply runs_mono; [by apply (runs_AddLineInfos _lineinfo locals asd c w pre ld)|]. intros [] c1 (asd1 & ld1 & opt & Hs1 & Hst1 & Hsame & Hrec).
  apply runs_bind, runs_token. rewrite (shows_token _ _ _ Hs1). apply runs_bind. apply (Hm asd1 ld1 c1 _ Hs1). split; try done. cbn.
  rewrite (so_code _ _ _ _ Hst), !length_app. destruct (so_lead _ _ _ _ Hst1) as [->|(i & -> & _)]; cbn; lia.
Qed.
Lemma stmt_finished locals locals' s asd asd1 asd' pre ld1 rest w w1 w' c : begun asd asd1 pre ld1 w w1 → w_ts w' = rest → w_temps w' = 0%nat → w_targets w' = [] → w_opt w' = false →
  grown 1 w1 w' → same_but_records asd1 asd' → (recorded asd' + length locals' + length rest < recorded asd1 + length locals + length (w_ts w))%nat →
  w_code w' = w_code w1 ++ c → act (H := H) (length locals) w' c s → read_stmt locals locals' s pre rest asd asd' w w'.
Proof using Type.
  intros [Hst Hsame Hrec Ev Hlen] Ets Ek Et Eo [Gs Gl Gc Gi] Hsame' Hrec' Ec Ha. rewrite Ev in Gs, Gl, Gc. cbn in Gs, Gl, Gc.
  assert (w_ts w1 = w_ts w) as Etsw by (by rewrite Ev). split; try done.
  - split; [done|done|done|]. rewrite Etsw in Gi. lia.
  - by apply (same_records_trans asd asd1 asd').
  - lia.
  - exists (ld1 ++ c). split; [by rewrite Ec, (so_code _ _ _ _ Hst), <- app_assoc|]. apply act_lead; [apply Hst|done].
Qed.

(** *** The expression of a statement *)

Lemma spells_ends locals l p e ts : spells locals l p e ts → prev_of ts ≠ ch "}" ∧ prev_of ts ≠ ch ";".
Proof using Type.
  assert (∀ t ws ts, code_of t ≠ ch "}" → code_of t ≠ ch ";" → prev_of (ts ++ [(t, ws)]) ≠ ch "}" ∧ prev_of (ts ++ [(t, ws)]) ≠ ch ";") as Hlast.
  { intros t ws ts1 H1 H2. rewrite prev_of_app by done. unfold prev_of, prev_behind. cbn. by destruct (_ =? 0). }
  revert l p e ts. apply (spells_ind' locals (λ _ _ _ ts, prev_of ts ≠ ch "}" ∧ prev_of ts ≠ ch ";") (λ _ _, True)); try done; intros.
  - apply (Hlast _ _ []); by destruct t.
  - apply (Hlast _ _ [_]); by destruct t.
  - by apply (Hlast _ _ []).
  - by apply (Hlast _ _ []).
  - by apply (Hlast _ _ []).
  - by apply (Hlast _ _ []).
  - destruct H0 as [Hx| ->]; [|by apply (Hlast _ _ [])]. apply (Hlast _ _ []); by rewrite name_code.
  - apply (Hlast _ _ []); by rewrite name_code.
  - by apply (Hlast _ _ (_ :: ts)).
  - rewrite prev_of_cons by (by eapply spells_nonempty). done.
  - change (ts ++ _) with (ts ++ [(SOperator ["."%char], w1)] ++ [(SName x, w2)]). rewrite app_assoc. apply Hlast; by rewrite name_code.
  - rewrite app_comm_cons, app_assoc. by apply Hlast.
  - rewrite !app_assoc. by apply Hlast.
  - rewrite !app_assoc. by apply Hlast.
  - rewrite !app_assoc. by apply Hlast.
  - rewrite prev_of_app, prev_of_cons by (try done; by eapply spells_nonempty). done.
  - rewrite prev_of_app, prev_of_cons by (try done; by eapply spells_nonempty). done.
  - rewrite prev_of_app, prev_of_cons by (try done; by eapply spells_nonempty). done.
  - rewrite prev_of_app, prev_of_cons, prev_of_app, prev_of_cons by (try done; try (by destruct ts1); by eapply spells_nonempty). done.
Qed.

Section statement.
Context (locals : list (list ascii)) (Hbase : 0 < base locals).
Context (p : bool) (e : exp) (ts : list tok) (He : spells locals 0 p e ts) (Hc : compilable locals e = true).

Lemma exp_good : good (H := H) locals e.
Proof using Hbase He. by apply (spells_good locals 0 p e ts). Qed.
Lemma exp_value asd : value (H := H) (asd := asd) _sourcename _lineinfo locals e ts.
Proof using Hbase He. by apply (proj1 (expressions_read _sourcename _lineinfo locals Hbase) 0%nat p e ts). Qed.
Lemma exp_ready w rest : w_ts w = ts ++ rest → w_temps w = 0%nat → room w → (w_opt w = true → sealed (w_code w)) → ready locals false e ts rest w.
Proof using Hc.
  intros Ew Ek Hr Hsl. unfold compilable in Hc. apply andb_true_iff in Hc as [Hw%Nat.leb_le Ht]. split; try done.
  - rewrite Ek. unfold base. lia.
  - intros _ pi Ho Hl Hop. specialize (Hsl Ho). unfold sealed in Hsl. rewrite Hl, Hop in Hsl. done.
Qed.
Lemma runs_comma_exp asd c w rest g : shows locals (asd := asd) c w → w_ts w = ts ++ rest → w_temps w = 0%nat → room w → (w_opt w = true → sealed (w_code w)) →
  follows 0 false rest → head_code rest ≠ ch "," → (need 0 ts < g)%nat →
  runs (parse g NCommaExpr) c (λ _ c', ∃ w', shows locals (asd := asd) c' w' ∧ done_with (H := H) locals e false ts rest w w').
Proof using Hbase He Hc.
  intros Hs Ew Ek Hr Hsl Hf Hh Hg. eapply (value_comma _ _ _ e ts g (exp_value asd)); [by eapply spells_nonempty|done|exact Hs|by apply exp_ready|done|done].
Qed.

(** ** An expression *)

Lemma begun_room asd asd1 pre ld1 w w1 : begun asd asd1 pre ld1 w w1 → spacious w → room w1.
Proof using Type.
  intros [_ _ _ Ev Hl] [H1 H2]. assert (w_ts w1 = w_ts w ∧ w_lits w1 = w_lits w) as [E1 E2] by (by rewrite Ev). split; rewrite ?E1, ?E2; lia.
Qed.
Lemma begun_sealed asd asd1 pre ld1 w w1 : begun asd asd1 pre ld1 w w1 → w_opt w1 = true → sealed (w_code w1).
Proof using Type. intros [Hst _ _ _ _]. by eapply starts_sealed. Qed.
Lemma begun_ts asd asd1 pre ld1 w w1 : begun asd asd1 pre ld1 w w1 → w_ts w1 = w_ts w.
Proof using Type. intros [_ _ _ -> _]. done. Qed.

(** The semicolon at the end *)
Lemma simple_end locals' s asd asd1 pre ld1 ws rest w w1 c4 w4 code : begun asd asd1 pre ld1 w w1 → shows locals' (asd := asd1) c4 w4 →
  w_ts w4 = (op ";", ws) :: rest → w_temps w4 = 0%nat → w_targets w4 = [] → w_prev w4 = prev_of ts → grown 0 w1 w4 →
  (length locals' + length rest < length locals + length (w_ts w))%nat → w_code w4 = w_code w1 ++ code → act (H := H) (length locals) w4 code s →
  runs (fs SnoozeOpt) c4 (λ _ c5, runs after_statement c5 (λ _ c', ∃ asd' w', shows locals' (asd := asd') c' w' ∧ read_stmt locals locals' s pre rest asd asd' w w')).
Proof using He.
  intros Hbg Hs4 Ets Ek Et Ep [Gs Gl Gc Gi] Hlen Ec Ha. rewrite Ets in Gc, Gi. cbn [length] in Gc, Gi. destruct (spells_ends _ _ _ _ _ He) as [Hp1 Hp2].
  eapply runs_mono; [apply (runs_SnoozeOpt locals' c4 _ Hs4)|]. intros [] c5 Hs5.
  eapply runs_mono; [apply (runs_semicolon locals' asd1 c5 _ ws rest Hs5); cbn; [done|by rewrite Ep..]|]. intros [] c6 (q & Hs6).
  exists asd1. eexists. split; [exact Hs6|]. eapply (stmt_finished locals locals' s asd asd1 asd1 pre ld1 rest w w1 _ code Hbg); try done; cbn.
  - split; cbn -[Nat.mul]; [done|done|lia|lia].
  - apply same_records_refl.
  - tlia.
Qed.

Lemma stmt_do ws : reads_stmt locals (Do e) (ts ++ [(op ";", ws)]) locals.
Proof using Hbase He Hc.
  intros asd c w pre ld rest fuel _ _ Hs Hst Ew Hr Hn Hfuel. rewrite length_app in Hfuel. cbn [length] in Hfuel. destruct fuel as [|g]; [lia|].
  rewrite <- app_assoc in Ew. cbn [app] in Ew. pose proof (spells_begins _ _ _ _ _ He) as Hb. apply (runs_Statement locals asd c w pre ld g); [done|done|].
  intros asd1 ld1 c1 w1 Hs1 Hbg. pose proof (begun_ts _ _ _ _ _ _ Hbg) as Ets. pose proof (begun_room _ _ _ _ _ _ Hbg Hr) as Hr1. pose proof (begun_sealed _ _ _ _ _ _ Hbg) as Hsl1. rewrite Ew. rewrite head_app by apply Hb.
  unfold statement_body. cbn [switch]. rewrite !(begins_not ts _ Hb) by done. pose proof (bg_starts _ _ _ _ _ _ Hbg) as Hst1. rewrite Ew in Ets.
  apply runs_bind. eapply runs_mono; [apply (runs_comma_exp asd1 c1 w1 ((op ";", ws) :: rest) g Hs1 Ets); [apply Hst1|done|done|by split|done|unfold need; lia]|].
  intros [] c2 (w2 & Hs2 & Hd). pose proof (dw_targets _ _ _ _ _ _ _ Hd) as Et. rewrite (so_targets _ _ _ _ Hst1), (so_temps _ _ _ _ Hst1) in Et.
  eapply runs_mono; [by apply (runs_DiscardTarget locals asd1 c2 w2 (place locals 0 e) Hs2)|]. intros [] c3 Hs3.
  destruct (discarded_impl locals e false ts _ w1 w2 Hd (so_temps _ _ _ _ Hst1)) as (code & Edc & Hi & Hl); [done|].
  pose proof (dw_grown _ _ _ _ _ _ _ Hd) as [Gs Gl Gc Gi]. eapply (simple_end locals _ asd asd1 pre ld1 ws rest w w1 c3 _ code Hbg Hs3); cbn; [apply Hd|..|done|].
  - rewrite (dw_temps _ _ _ _ _ _ _ Hd), (so_temps _ _ _ _ Hst1). by apply popped_place, exp_good.
  - done.
  - by apply (dw_prev _ _ _ _ _ _ _ Hd).
  - split; cbn -[Nat.mul]; [done|done|done|]. rewrite Hl. lia.
  - rewrite Ew, length_app. cbn. tlia.
  - eapply act_grow; [|reflexivity..]. by apply (act_simple locals w2 code (Do e) e (λ _ m, m) exp_good).
Qed.

(** ** [return] *)

Lemma added_return pre k w X i code' opt' : emitted (H := H) locals pre k w X → iop i = _OP_RETURN → added locals (w_code w) (w_opt w) i code' opt' → code' = w_code w ++ [i].
Proof using Type.
  intros (code & Ec & _ & Ht) Hi Ha. unfold added in Ha. destruct (last (w_code w)) as [pi|] eqn:El; [|apply Ha]. destruct (w_opt w) eqn:Eo; [|apply Ha].
  destruct Ha as (f & size & _ & Ha). assert (iop pi ≠ _OP_CLOSE) as Hp.
  { intros Hp. destruct (Ht eq_refl) as [[-> Hs]|(c0 & q & -> & _ & Hg & _)].
    - rewrite app_nil_r in Ec. unfold sealed in Hs. rewrite <- Ec, El, Hp in Hs. done.
    - rewrite Ec, app_assoc, last_snoc in El. injection El as ->. by rewrite Hp in Hg. }
  unfold improve in Ha. rewrite Hi in Ha. cbn in Ha. rewrite bool_decide_eq_false_2 in Ha by done. destruct Ha as [-> _].
  destruct (w_code w) as [|q c0 _] using rev_ind; [done|]. rewrite last_snoc in El. injection El as ->. by rewrite removelast_last, <- app_assoc.
Qed.

Lemma aside_traps asd c w : shows locals (asd := asd) c w → @a_traps asd = 0 → (0 <? _traps (_fs c)) = false.
Proof using Type. intros Hs E. destruct (aside_parts _ _ _ _ Hs) as (_ & _ & _ & _ & ->). by rewrite E. Qed.
Lemma same_traps asd asd' : same_but_records asd asd' → @a_traps asd' = @a_traps asd.
Proof using Type. by intros ->. Qed.

Lemma runs_returnexp asd c w x : shows locals (asd := asd) c w → runs (fs (modify (with_returnexp x))) c (λ _ c', shows locals (asd := asd) c' w).
Proof using Type. intros Hs. unfold runs. cbn. rewrite <- (set_code_same w). apply (shows_code locals c w _ _ _ Hs); try done; cbn; apply Hs. Qed.
Lemma runs_GetStackSize asd c w : shows locals (asd := asd) c w → w_temps w = 0%nat → runs (fs GetStackSize) c (λ r c', r = base locals ∧ shows locals (asd := asd) c' w).
Proof using Type.
  intros Hs Ek. unfold runs. cbn -[vsize]. assert (with_fs (_fs c) c = c) as -> by (by destruct c). split; [|done]. by apply (stack_size asd c w).
Qed.
Lemma compilable_place : 0 ≤ place locals 0 e < 256 ∧ 0 ≤ base locals < 256.
Proof using Hbase He Hc.
  unfold compilable in Hc. apply andb_true_iff in Hc as [Hw%Nat.leb_le _]. assert (0 ≤ base locals ≤ 255) as Hb by (unfold base; lia). split; [|lia].
  assert (is_var e = false → 1 ≤ width e)%nat as Hv by (destruct e; cbn; try done; lia). destruct (is_var e) eqn:Ev.
  - pose proof (spells_var locals _ _ _ _ He) as G. destruct e; try done. cbn. lia.
  - destruct (place_temp locals 0 e Ev) as [-> _]. specialize (Hv eq_refl). unfold base in *. lia.
Qed.

Lemma stmt_return w1 w2 : newlines w1 = 0 → reads_stmt locals (Return e) ((keyword "return", w1) :: ts ++ [(op ";", w2)]) locals.
Proof using Hbase He Hc.
  intros Hnl asd c w pre ld rest fuel _ Htr Hs Hst Ew Hr Hn Hfuel. cbn [length] in Hfuel. rewrite length_app in Hfuel. cbn [length] in Hfuel. destruct fuel as [|g]; [lia|].
  cbn [app] in Ew. rewrite <- app_assoc in Ew. cbn [app] in Ew. pose proof (spells_begins _ _ _ _ _ He) as Hb. apply (runs_Statement locals asd c w pre ld g); [done|done|].
  intros asd1 ld1 c1 wa Hs1 Hbg. pose proof (begun_ts _ _ _ _ _ _ Hbg) as Ets. pose proof (begun_room _ _ _ _ _ _ Hbg Hr) as Hr1. pose proof (begun_sealed _ _ _ _ _ _ Hbg) as Hsl1.
  rewrite Ew in *. cbn [head_code]. change (code_of (keyword "return")) with TK_RETURN. unfold statement_body. pick. pose proof (bg_starts _ _ _ _ _ _ Hbg) as Hst1.
  unfold return_statement. apply runs_bind. eapply runs_mono; [by apply (runs_Lex locals c1 wa _ w1 _ Hs1 Ets)|]. intros [] c2 (q & Hs2 & Hq).
  apply runs_bind. unfold IsEndOfStatement. apply runs_gets. rewrite (shows_token _ _ _ Hs2), (sh_prev _ _ _ Hs2). cbn [w_ts set_ts w_prev]. rewrite head_app, !(begins_not ts _ Hb) by (apply Hb || done).
  rewrite Hq by (by destruct Hb, ts). unfold prev_behind. rewrite Hnl. cbn [Z.eqb negb orb]. change (negb _) with true. cbv iota.
  apply runs_bind. eapply runs_mono; [by apply (runs_pos locals c2 _ Hs2)|]. intros pos c3 [_ Hs3]. set (wb := set_ts _ _ _) in Hs3. assert (room wb) as Hr3 by (by apply (room_skip wa _ _ _ Ets)).
  apply runs_bind. eapply runs_mono; [apply (runs_comma_exp asd1 c3 wb ((op ";", w2) :: rest) g Hs3 eq_refl); [apply Hst1|done|done|by split|done|unfold need; lia]|]. intros [] c4 (w4 & Hs4 & Hd).
  assert (@a_traps asd1 = 0) as Htr1 by (rewrite (same_traps asd asd1); [done|apply Hbg]). rewrite bool_decide_eq_true_2 by done. cbn [when]. unfold pop_traps.
  apply runs_bind, runs_bind, runs_gets. rewrite (aside_traps asd1 c4 w4 Hs4 Htr1). cbn [when]. apply runs_ret, runs_bind. eapply runs_mono; [apply (runs_returnexp asd1 c4 w4 _ Hs4)|]. intros [] c5 Hs5.
  pose proof (dw_targets _ _ _ _ _ _ _ Hd) as Et. pose proof (dw_temps _ _ _ _ _ _ _ Hd) as Ek. change (w_temps wb) with (w_temps wa) in *. change (w_targets wb) with (w_targets wa) in *.
  rewrite (so_temps _ _ _ _ Hst1) in Et, Ek. rewrite (so_targets _ _ _ _ Hst1) in Et.
  apply runs_bind. eapply runs_mono; [by apply (runs_PopTarget locals c5 w4 [] (place locals 0 e) Hs5)|]. intros r c6 [-> Hs6]. rewrite Ek, popped_place in Hs6 by apply exp_good.
  apply runs_bind. eapply runs_mono; [by apply (runs_GetStackSize asd1 c6 _ Hs6)|]. intros r c7 [-> Hs7]. pose proof compilable_place as [R B].
  eapply runs_mono; [apply (runs_emit locals c7 _ _OP_RETURN _ _ _ _ Hs7); done || lia|]. intros [] c8 (code' & opt' & Hs8 & Ha).
  destruct (dw_code _ _ _ _ _ _ _ Hd (w_code wa) (λ _ m, Goes m)) as (code & Ecd & Hi & Ht); [by apply emitted_start|]. change (w_temps wb) with (w_temps wa) in Hi. rewrite (so_temps _ _ _ _ Hst1), Ek in Hi.
  assert (code' = w_code w4 ++ [mkI _OP_RETURN 1 (place locals 0 e) (base locals) 0]) as ->.
  { eapply (added_return (w_code wa)); [|done|exact Ha]. exists code. split; [done|]. split; [exact Hi|exact Ht]. }
  pose proof (dw_grown _ _ _ _ _ _ _ Hd) as [Gs Gl Gc Gi]. pose proof (f_equal length Ets) as Elen. cbn [length] in Elen.
  eapply (simple_end locals _ asd asd1 pre ld1 w2 rest w wa c8 _ (code ++ [_]) Hbg Hs8); cbn; [apply Hd|done|done|by apply (dw_prev _ _ _ _ _ _ _ Hd)|..].
  - split; cbn -[Nat.mul]; [done|done|cbn in *; lia|]. rewrite length_app. cbn -[Nat.mul] in *. lia.
  - rewrite Ew. cbn. rewrite length_app. cbn. tlia.
  - by rewrite Ecd, <- app_assoc.
  - eapply act_grow; [|reflexivity..]. eapply act_return; [apply exp_good|exact Hi|by apply place_bound, exp_good].
Qed.

(** ** A new variable *)

(** The value is moved to its register, unless it is there. *)
Lemma runs_new_variable asd c w w1 rest : shows locals (asd := asd) c w1 → done_with (H := H) locals e false ts rest w w1 → w_temps w = 0%nat → w_targets w = [] →
  (w_opt w = true → sealed (w_code w)) →
  runs (src ← fs PopTarget; dest ← fs NewTarget; when (negb (dest =? src)) (emit _OP_MOVE dest src 0 0)) c (λ _ c', ∃ code w', shows locals (asd := asd) c' w' ∧
    w_targets w' = [base locals] ∧ w_temps w' = 1%nat ∧ w_ts w' = rest ∧ w_prev w' = w_prev w1 ∧ w_strs w' = w_strs w1 ∧ w_lits w' = w_lits w1 ∧
    (length (w_code w') ≤ S (length (w_code w1)))%nat ∧ w_code w' = w_code w ++ code ∧ impl locals (base locals + 1) w' code (eval_to (H := H) e (base locals))).
Proof using Hbase He Hc.
  intros Hs Hd Ek Et Hsl. pose proof (dw_targets _ _ _ _ _ _ _ Hd) as Et1. pose proof (dw_temps _ _ _ _ _ _ _ Hd) as Ek1. rewrite Ek in Et1, Ek1. rewrite Et in Et1. pose proof exp_good as G.
  apply runs_bind. eapply runs_mono; [by apply (runs_PopTarget locals c w1 [] (place locals 0 e) Hs)|]. intros r c1 [-> Hs1]. rewrite Ek1, popped_place in Hs1 by done. pose proof compilable_place as [R B].
  apply runs_bind. eapply runs_mono; [by apply (runs_NewTarget locals c1 _ Hs1); cbn; lia|]. intros r c2 [-> Hs2]. cbn in Hs2. cbn [w_temps set_targets]. rewrite Z.add_0_r in *.
  pose proof (dw_code _ _ _ _ _ _ _ Hd (w_code w) (λ _ m, Goes m) ltac:(by apply emitted_start)) as Hem. rewrite Ek, Ek1 in Hem. apply runs_when; intros Hb.
  - apply negb_true_iff, Z.eqb_neq in Hb. destruct (is_var e) eqn:Ev; [|by destruct (place_temp locals 0 e Ev) as [E _]; rewrite E in Hb; lia].
    assert (place locals 0 e < base locals) as Hpl by (destruct G as [_ G]; destruct e; try done; cbn; lia). unfold temps_after in Hem. rewrite Ev, Z.add_0_r in Hem.
    eapply runs_mono; [apply (runs_emits (H := H) locals c2 _ _OP_MOVE _ _ _ _ Hs2); try lia; try done; by apply plain_temp|]. intros [] c3 (code' & opt' & Hs3 & [Hel _ Hec]).
    apply (emitted_grow locals _ _ w1 (set_targets [base locals] 1 (set_targets [] 0 w1))) in Hem; [|done..].
    destruct (Hec _ _ (base locals + 1) _ (on_one (H := H) (place locals 0 e) (base locals) RVal) Hem) as (code & Ecd & Hi & _); [apply joins_move; lia|apply does_move; unfold below; lia|].
    exists code, (set_code code' opt' (set_targets [base locals] 1 w1)). split; [exact Hs3|]. cbn. split_and!; try done; [apply Hd|]. eapply impl_conv; [exact Hi|done|]. intros str m. eapply same_run_trans; [apply (one_operand locals 0); unfold below; lia|].
    unfold then_, eval_to. cbn [seq]. destruct (eval str (regs m) e (store m)); apply same_run_refl.
  - apply negb_false_iff, Z.eqb_eq in Hb. destruct (is_var e) eqn:Ev; [by destruct G as [_ G]; destruct e; try done; cbn in Hb; lia|]. destruct (place_temp locals 0 e Ev) as [Ep Etmp].
    destruct Hem as (code & Ecd & Hi & _). exists code, (set_targets [base locals] 1 w1). split; [exact Hs2|]. cbn. split_and!; try done; [apply Hd|lia|].
    rewrite Etmp, Ep in Hi. rewrite Z.add_0_r in Hi. exact Hi.
Qed.

Lemma stmt_local x w1 w2 w3 w4 : is_name x = true → (length locals < 255)%nat →
  reads_stmt locals (Local e) ((keyword "local", w1) :: (SName x, w2) :: (op "=", w3) :: ts ++ [(op ";", w4)]) (locals ++ [x]).
Proof using Hbase He Hc.
  intros Hx Hmax asd c w pre ld rest fuel _ Htr Hs Hst Ew Hr Hn Hfuel. cbn [length] in Hfuel. rewrite length_app in Hfuel. cbn [length] in Hfuel. destruct fuel as [|[|g]]; [lia|lia|].
  cbn [app] in Ew. rewrite <- app_assoc in Ew. cbn [app] in Ew. apply (runs_Statement locals asd c w pre ld (S g)); [done|done|].
  intros asd1 ld1 c1 wa Hs1 Hbg. pose proof (begun_ts _ _ _ _ _ _ Hbg) as Ets. pose proof (begun_room _ _ _ _ _ _ Hbg Hr) as Hr1. pose proof (begun_sealed _ _ _ _ _ _ Hbg) as Hsl1.
  rewrite Ew in *. cbn [head_code]. change (code_of (keyword "local")) with TK_LOCAL. unfold statement_body. pick. pose proof (bg_starts _ _ _ _ _ _ Hbg) as Hst1.
  unfold LocalDeclStatement. apply runs_bind. eapply runs_mono; [by apply (runs_Lex locals c1 wa _ w1 _ Hs1 Ets)|]. intros [] c2 (q & Hs2 & _).
  apply runs_bind, runs_token. rewrite (shows_token _ _ _ Hs2). cbn [w_ts set_ts head_code]. rewrite (name_code x Hx). pick. cbn [SqCompiler.parse SqCompiler.run]. unfold local_decl.
  apply runs_bind. eapply runs_mono; [by apply (runs_expect_name locals c2 _ x w2 _ Hs2 eq_refl Hx)|]. intros o c3 (sm & a & q2 & Hs3 & Hsub & -> & Ha & _). cbn in Hsub.
  apply runs_bind, runs_token. rewrite (shows_token _ _ _ Hs3). cbn [w_ts set_ts head_code]. change (code_of (op "=")) with (ch "="). pick.
  apply runs_bind, runs_bind. eapply runs_mono; [by apply (runs_Lex locals c3 _ _ w3 _ Hs3 eq_refl)|]. intros [] c4 (q3 & Hs4 & _). set (wb := set_ts _ _ _) in Hs4.
  assert (room wb) as Hr4 by (destruct Hr1 as [R1 R2]; rewrite Ets in R1, R2; split; cbn in *; lia).
  apply runs_bind. eapply runs_mono; [apply (exp_value asd1 g c4 wb ((op ";", w4) :: rest) false); [unfold need; lia|exact Hs4|apply exp_ready; [done|apply Hst1|done|done]|by split]|].
  intros [] c5 (w5 & Hs5 & Hd & _). eapply runs_mono; [apply (runs_new_variable asd1 c5 wb w5 _ Hs5 Hd); [apply Hst1|apply Hst1|done]|].
  intros [] c6 (code & w6 & Hs6 & Et6 & Ek6 & Ets6 & Ep6 & Es6 & El6 & Hlen6 & Ec6 & Hi).
  apply runs_bind. eapply runs_mono; [by apply (runs_PopTarget locals c6 w6 [] (base locals) Hs6)|]. intros r c7 [_ Hs7]. unfold popped in Hs7. rewrite Z.ltb_irrefl, Ek6 in Hs7. cbn in Hs7.
  pose proof (dw_grown _ _ _ _ _ _ _ Hd) as [Gs Gl Gc Gi]. rewrite (dw_ts _ _ _ _ _ _ _ Hd) in Gc, Gi. cbn [length] in Gc, Gi.
  apply runs_bind. eapply runs_mono; [apply (runs_PushLocalVariable locals asd1 c7 _ a x Hs7); [done|done|]; cbn; rewrite Es6; by eapply lookup_weaken|]. intros r8 c8 Hs8.
  apply runs_bind, runs_token. rewrite (shows_token _ _ _ Hs8). cbn [w_ts set_targets]. rewrite Ets6. cbn [head_code]. change (code_of (op ";")) with (ch ";"). change (ch ";" =? ch ",") with false. cbn [when].
  pose proof (f_equal length Ets) as Elen. cbn [length] in Elen. rewrite length_app in Elen. cbn [length] in Elen.
  eapply (simple_end (locals ++ [x]) _ asd asd1 pre ld1 w4 rest w wa c8 _ code Hbg Hs8); cbn; [done|done|done|by rewrite Ep6; apply (dw_prev _ _ _ _ _ _ _ Hd)|..|exact Ec6|].
  - split; cbn -[Nat.mul]; rewrite ?Es6, ?El6, ?Ets6; [by etrans|done|..]; cbn -[Nat.mul] in *; rewrite ?length_app in *; cbn -[Nat.mul] in *; lia.
  - rewrite Ew, length_app. cbn. rewrite length_app. cbn. tlia.
  - eapply act_grow; [|reflexivity..]. apply (act_simple locals w6 code (Local e) e (λ v m, put (base locals) v m) exp_good); [done| |].
    + cbn. replace (Z.of_nat (S (length locals))) with (base locals + 1) by (unfold base; lia). exact Hi.
    + intros v mm m Hl. eapply (agree_put_same); [exact Hl|]. cbn. unfold below, base. intros z. lia.
Qed.

(** ** An assignment *)

(** In front of [=] the functions for the operators return. *)
Lemma assign_stop g l c (Q : () → SQCompiler → Prop) : (2 ≤ l ≤ 11)%nat → _token c = ch "=" → Q () c → runs (parse (S g) (rest_of l)) c Q.
Proof using Type.
  intros Hl Et HQ. assert (l = 2 ∨ l = 3 ∨ l = 4 ∨ l = 5 ∨ l = 6 ∨ l = 7 ∨ l = 8 ∨ l = 9 ∨ l = 10 ∨ l = 11)%nat as Hcs by lia. clear Hl.
  destruct_or! Hcs; subst l; cbn [SqCompiler.parse rest_of SqCompiler.run];
    unfold logical_and_rest, bitwise_or_rest, bitwise_xor_rest, bitwise_and_rest, eq_rest, comp_rest, shift_rest, plus_rest, mult_rest, prefixed_rest;
    apply runs_bind, runs_token; rewrite Et; pick; try exact HQ; (apply runs_when; [done|by intros _]).
Qed.
Lemma assign_chain c (Q : () → SQCompiler → Prop) fuel : (13 ≤ fuel)%nat → (∀ g, runs (parse (S g) NFactor) c (λ _ c1, _token c1 = ch "=" ∧ Q () c1)) →
  runs (parse fuel NLogicalOrExp) c Q.
Proof using Type.
  intros Hfuel HF. assert (∀ d g, (d ≤ 8)%nat → (d + 2 ≤ g)%nat → runs (parse g (exp_of (11 - d))) c (λ _ c1, _token c1 = ch "=" ∧ Q () c1)) as Hchain.
  { induction d as [|d IH]; intros g Hd Hg; (destruct g as [|g]; [lia|]).
    - cbn [exp_of Nat.sub SqCompiler.parse SqCompiler.run]. unfold PrefixedExpr. apply runs_bind. destruct g as [|g]; [lia|]. eapply runs_mono; [apply (HF g)|]. intros [] c1 [Et HQ].
      apply (assign_stop g 11); [lia|done|done].
    - rewrite parse_loop by lia. replace (S (11 - S d)) with (11 - d)%nat by lia. apply runs_bind. eapply runs_mono; [apply (IH g); lia|]. intros [] c1 [Et HQ]. destruct g as [|g]; [lia|].
      apply assign_stop; [lia|done|done]. }
  destruct fuel as [|g]; [lia|]. cbn [SqCompiler.parse SqCompiler.run]. unfold LogicalOrExp. apply runs_bind.
  destruct g as [|g]; [lia|]. cbn [SqCompiler.parse SqCompiler.run]. unfold LogicalAndExp. apply runs_bind. destruct g as [|g]; [lia|].
  eapply runs_mono; [apply (Hchain 8%nat (S g)); lia|]. intros [] c1 [Et HQ]. apply (assign_stop g 2); [lia|done|]. apply runs_bind, runs_token. rewrite Et. apply runs_when; [done|by intros _].
Qed.

(** The value is moved to the variable, or put there right away. *)
Lemma moved_impl w w1 rest r code' opt' : done_with (H := H) locals e false ts rest w w1 → w_temps w = 0%nat → (w_opt w = true → sealed (w_code w)) → Z.of_nat r < base locals →
  added locals (w_code w1) (w_opt w1) (mkI _OP_MOVE (Z.of_nat r) (place locals 0 e) 0 0) code' opt' →
  ∃ code, code' = w_code w ++ code ∧ impl locals (base locals) w1 code (eval_to (H := H) e (Z.of_nat r)).
Proof using Hbase He Hc.
  intros Hd Ek Hsl Hr Ha. pose proof exp_good as G. pose proof compilable_place as [R B]. pose proof (dw_code _ _ _ _ _ _ _ Hd (w_code w) (λ _ m, Goes m) ltac:(by apply emitted_start)) as Hem.
  rewrite (dw_temps _ _ _ _ _ _ _ Hd), Ek in Hem. set (k := base locals + Z.of_nat (temps_after 0 e)) in Hem. set (t := place locals 0 e) in *. set (i := mkI _OP_MOVE _ _ _ _) in Ha.
  assert (does (H := H) locals k (base locals) w1 i (on_one t (Z.of_nat r) RVal)) as Hdoes.
  { apply does_target; [done|..|unfold k; lia].
    - intros str m m' [Hr' Hst]. rewrite Hst, Hr'; [done|]. by apply place_bound.
    - unfold below. intros z Hz. lia. }
  assert (∀ c, impl locals (base locals) w1 c (then_ (then_ (λ _ m, Goes m) (eval_to (H := H) e t)) (on_one t (Z.of_nat r) RVal)) → impl locals (base locals) w1 c (eval_to (H := H) e (Z.of_nat r))) as Hconv.
  { intros c0 Hi. eapply impl_conv; [exact Hi|done|]. intros str m. eapply same_run_trans; [apply (one_operand locals 0); unfold below; lia|].
    unfold then_, eval_to. cbn [seq]. destruct (eval str (regs m) e (store m)); apply same_run_refl. }
  destruct (added_cases locals _ _ _ _ i code' opt' Hem Ha) as (code & E & Him & Hcs); [by left|]. destruct Hcs as [[-> ->]|(code0 & pi & nested & g & size & -> & Ho & Hs & Hg & Hpi & Hcs)].
  - exists (code ++ [i]). split; [done|]. by apply Hconv, (impl_snoc locals k).
  - assert (is_var e = false) as Ev.
    { destruct (is_var e) eqn:Ev; [|done]. destruct (dw_var _ _ _ _ _ _ _ Hd Ev) as [E1 _]. rewrite E1 in E. rewrite <- (app_nil_r (w_code w)) in E at 1. apply app_inv_head in E. by destruct code0. }
    destruct (place_temp locals 0 e Ev) as [Ep _]. fold t in Ep.
    assert (∀ p, improved_code (improve nested g size pi i) i = [p] → code' = w_code w ++ code0 ++ [p] → ∃ code, code' = w_code w ++ code ∧ impl locals (base locals) w1 code (eval_to (H := H) e (Z.of_nat r))) as Hj.
    { intros q Eq ->. exists (code0 ++ [q]). split; [done|]. apply Hconv. eapply (impl_join locals k (base locals)); try done. apply joins_move; lia. }
    destruct (improve nested g size pi i) as [|q|q|]; try done; destruct Hcs as [-> _]; by eapply Hj.
Qed.
Lemma moved_last code opt t t1 code' opt' j : added locals code opt (mkI _OP_MOVE t t1 0 0) code' opt' → last code' = Some j → discards (iop j) = false.
Proof using Type.
  unfold added. intros Ha Hl. destruct (last code) as [pi|]; [destruct opt|]; [|by destruct Ha as [-> _]; rewrite last_snoc in Hl; injection Hl as <-..].
  destruct Ha as (f & size & _ & Ha). unfold improve in Ha. cbn in Ha. destruct (_ && _) eqn:E; [|case_bool_decide]; destruct Ha as [-> _].
  - rewrite last_snoc in Hl. injection Hl as <-. apply andb_true_iff in E as [E _]. cbn. by destruct (iop pi).
  - rewrite last_snoc in Hl. by injection Hl as <-.
  - change [pi; ?i] with ([pi] ++ [i]) in Hl. rewrite app_assoc, last_snoc in Hl. by injection Hl as <-.
Qed.

Lemma runs_assign asd c w x r w1 w2 rest g : shows locals (asd := asd) c w → w_ts w = (SName x, w1) :: (op "=", w2) :: ts ++ rest → is_name x = true → scope locals x = Some r →
  w_temps w = 0%nat → w_targets w = [] → room w → (w_opt w = true → sealed (w_code w)) → follows 0 false rest → (need 0 ts + 16 ≤ g)%nat →
  runs (parse g NExpression) c (λ _ c', ∃ w' code, shows locals (asd := asd) c' w' ∧ w_ts w' = rest ∧ w_targets w' = [Z.of_nat r] ∧ w_temps w' = 0%nat ∧
    (rest ≠ [] → w_prev w' = prev_of ts) ∧ grown 1 w w' ∧ w_code w' = w_code w ++ code ∧ impl locals (base locals) w' code (eval_to (H := H) e (Z.of_nat r)) ∧
    (∀ j, last (w_code w') = Some j → discards (iop j) = false)).
Proof using Hbase He Hc.
  intros Hs Ew Hx Hsc Ek Et Hr Hsl Hf Hg. pose proof (scope_bound locals x r Hsc) as Hb. pose proof compilable_place as [R B]. destruct g as [|g]; [lia|].
  cbn [SqCompiler.parse SqCompiler.run]. unfold Expression. eapply runs_fresh_es; [exact Hs|]. intros c1 Hs1. apply runs_bind, assign_chain; [lia|]. intros g'. cbn [SqCompiler.parse SqCompiler.run].
  apply (runs_name _sourcename locals _ c1 _ x w1 ((op "=", w2) :: ts ++ rest) _ Hs1 Ew); [by left|]. intros c2 sm a q Hs2 Hsub Ha _.
  unfold variable. apply runs_bind, runs_gets. rewrite (GetLocalVariable_scope locals c2 _ a x Hs2 Ha), Hsc. rewrite (proj2 (Z.eqb_neq _ (-1))) by lia. cbn [negb].
  apply runs_bind. eapply runs_mono; [apply (runs_PushTarget locals c2 _ _ Hs2); lia|]. intros u c3 Hs3.
  apply runs_bind. eapply runs_mono; [by apply (runs_set_etype locals c3 _ LOCAL Hs3)|]. intros [] c4 Hs4. eapply runs_mono; [by apply (runs_set_epos locals c4 _ _ Hs4)|].
  intros [] c5 Hs5. assert (_token c5 = ch "=") as Etok by (by rewrite (shows_token _ _ _ Hs5)). split; [exact Etok|]. apply runs_bind, runs_token. rewrite Etok. pick.
  unfold assignment, get_etype. apply runs_bind, runs_gets, runs_bind, runs_gets, runs_bind. rewrite (sh_etype _ _ _ Hs5). cbn [w_etype set_et]. apply runs_ret.
  apply runs_bind. eapply runs_mono; [by apply (runs_Lex locals c5 _ (op "=") w2 (ts ++ rest) Hs5)|]. intros [] c6 (q2 & Hs6 & _). set (wb := set_ts _ _ _) in Hs6.
  assert (room wb) as Hrb by (destruct Hr as [R1 R2]; rewrite Ew in R1, R2; split; cbn in *; lia).
  apply runs_bind. eapply runs_mono; [apply (exp_value asd g c6 wb rest false); [lia|exact Hs6|by apply exp_ready|done]|]. intros [] c7 (w7 & Hs7 & Hd & _). pick.
  pose proof (dw_targets _ _ _ _ _ _ _ Hd) as Et7. pose proof (dw_temps _ _ _ _ _ _ _ Hd) as Ek7. cbn in Et7, Ek7. rewrite Ek, Et in *.
  apply runs_bind. eapply runs_mono; [by apply (runs_PopTarget locals c7 w7 _ _ Hs7 Et7)|]. intros r8 c8 [-> Hs8]. rewrite Ek7, popped_place in Hs8 by apply exp_good.
  apply runs_bind. eapply runs_mono; [by apply (runs_TopTarget locals c8 _ [] (Z.of_nat r) Hs8)|]. intros r9 c9 [-> Hs9].
  eapply runs_mono; [apply (runs_emit locals c9 _ _OP_MOVE _ _ _ _ Hs9); done || lia|]. intros [] c10 (code' & opt' & Hs10 & Hadd).
  destruct (moved_impl wb w7 rest r code' opt' Hd Ek Hsl Hb Hadd) as (code & -> & Hi). eexists. split; [exact Hs10|]. intros c11 Hs11. eexists _, code. split; [exact Hs11|].
  pose proof (dw_grown _ _ _ _ _ _ _ Hd) as [Gs Gl Gc Gi]. destruct (added_last _ _ _ _ _ _ Hadd) as (l & j & El & Hlen & _). cbn. split_and!; try done; [apply Hd|apply Hd| |].
  - split; cbn -[Nat.mul] in *; [by etrans|done|rewrite Ew; cbn; lia|]. rewrite El, length_app, Ew. cbn -[Nat.mul]. lia.
  - intros j' Hj'. by eapply moved_last.
Qed.

Lemma stmt_assign x r w1 w2 w3 : is_name x = true → scope locals x = Some r → reads_stmt locals (Assign r e) ((SName x, w1) :: (op "=", w2) :: ts ++ [(op ";", w3)]) locals.
Proof using Hbase He Hc.
  intros Hx Hsc asd c w pre ld rest fuel _ Htr Hs Hst Ew Hr Hn Hfuel. cbn [length] in Hfuel. rewrite length_app in Hfuel. cbn [length] in Hfuel. destruct fuel as [|[|g]]; [lia|lia|].
  cbn [app] in Ew. rewrite <- app_assoc in Ew. cbn [app] in Ew. apply (runs_Statement locals asd c w pre ld (S g)); [done|done|].
  intros asd1 ld1 c1 wa Hs1 Hbg. pose proof (begun_ts _ _ _ _ _ _ Hbg) as Ets. pose proof (begun_room _ _ _ _ _ _ Hbg Hr) as Hr1. pose proof (begun_sealed _ _ _ _ _ _ Hbg) as Hsl1.
  rewrite Ew in *. cbn [head_code]. rewrite (name_code x Hx). unfold statement_body. pick. pose proof (bg_starts _ _ _ _ _ _ Hbg) as Hst1.
  apply runs_bind. cbn [SqCompiler.parse SqCompiler.run]. unfold CommaExpr. apply runs_bind.
  eapply runs_mono; [apply (runs_assign asd1 c1 wa x r w1 w2 ((op ";", w3) :: rest) g Hs1 Ets Hx Hsc); [apply Hst1|apply Hst1|done|done|by split|unfold need; lia]|].
  intros [] c2 (w2' & code & Hs2 & Ets2 & Et2 & Ek2 & Ep2 & [Gs Gl Gc Gi] & Ec2 & Hi & Hlast). destruct g as [|g]; [lia|]. cbn [SqCompiler.parse SqCompiler.run]. unfold comma_rest.
  apply runs_bind, runs_token. rewrite (shows_token _ _ _ Hs2), Ets2. cbn [head_code]. pick. cbn [when]. apply runs_ret.
  eapply runs_mono; [by apply (runs_DiscardTarget locals asd1 c2 w2' (Z.of_nat r) Hs2)|]. intros [] c3 Hs3.
  assert (discarded (Z.of_nat r) w2' = w_code w2') as Edc by (unfold discarded; destruct (last (w_code w2')) as [pi|] eqn:El; [|done]; by rewrite (Hlast pi eq_refl), andb_false_r).
  rewrite Edc in Hs3. pose proof (scope_bound locals x r Hsc) as Hb. unfold popped in Hs3. rewrite (proj2 (Z.ltb_lt _ _)), Ek2 in Hs3 by done.
  pose proof (f_equal length Ets) as Elen. cbn [length] in Elen. rewrite length_app in Elen. cbn [length] in Elen.
  eapply (simple_end locals _ asd asd1 pre ld1 w3 rest w wa c3 _ code Hbg Hs3); cbn; [done|done|done|by apply Ep2|..|exact Ec2|].
  - split; cbn -[Nat.mul]; [done|done|lia|lia].
  - rewrite Ew. cbn. rewrite length_app. cbn. tlia.
  - eapply act_grow; [|reflexivity..]. apply (act_simple locals w2' code (Assign r e) e (λ v m, put (Z.of_nat r) v m) exp_good); [done|exact Hi|].
    intros v mm m Hl. eapply agree_put_same; [exact Hl|]. cbn. auto.
Qed.
End statement.
End simple.
