(* ===== verification/SqCompilerBlocks.v ===== *)
(** * The compiler and blocks

    Lists of statements, blocks, [if] and [while]: each is read to its end if its parts
    are, and its instructions do what it does. *)

From Stdlib Require Import Ascii.
From stdpp Require Import base numbers gmap strings option list.
From S2P Require Import Prelude CType SqObject SqArrayLib SqString SqProto SqLexer SqLexerSpec SqLexerRound SqKeywords SqFuncState SqCompiler SqCompilerEnds SqVm SqPeephole SqCompilerRead SqExpression SqCompilerView SqCompilerCode SqCompilerEval SqCompilerExpr SqCompilerOps SqCompilerLevels SqCompilerCalls SqCompilerCorrect SqStatement SqCompilerRun SqCompilerScope SqCompilerSimple.

Open Scope Z_scope.

(** ** How statements begin *)

Definition opens (k : Z) : bool := (0 <? k) && forallb (λ x, negb (k =? x)) [ch ";"; ch "}"; TK_ELSE; TK_DEFAULT; TK_CASE].

Lemma code_of_nonneg t : 0 ≤ code_of t.
Proof.
  unfold code_of. destruct t as [s|n|s|c|s]; simpl; try done.
  - destruct (keyword_code s) as [z|] eqn:Hk; simpl; [|done]. apply keyword_code_range in Hk. lia.
  - destruct (operator_code s) as [z|] eqn:Hop; [|done]. simpl. apply fmap_Some in Hop as ([i [s' z']] & Hf & ->). apply list_find_Some in Hf as (Hi & _ & _).
    apply list_elem_of_lookup_2 in Hi. simpl. assert (Hall : Forall (λ op, (0 <=? op.2) = true) operators) by (repeat constructor).
    rewrite Forall_forall in Hall. specialize (Hall _ Hi). by apply Z.leb_le in Hall.
Qed.
Lemma begins_opens ts : begins ts → opens (head_code ts) = true.
Proof.
  intros Hb. pose proof (begins_not ts SQUIRREL_EOB Hb eq_refl) as H0. unfold opens. cbn [forallb]. rewrite !(begins_not ts _ Hb) by done. cbn. rewrite andb_true_r. apply Z.ltb_lt.
  apply Z.eqb_neq in H0. destruct Hb as [Hn _]. destruct ts as [|[t ws] ts]; [done|]. cbn [head_code] in *. pose proof (code_of_nonneg t). change SQUIRREL_EOB with 0 in H0. lia.
Qed.
Lemma stmt_opens locals s ts locals' : spells_stmt locals s ts locals' → ts ≠ [] ∧ opens (head_code ts) = true.
Proof.
  inversion 1 as [? ? ? ? ? He| | | | | | |]; subst; try done.
  - pose proof (spells_begins _ _ _ _ _ He) as Hb. split; [by destruct ts0|]. rewrite head_app by apply Hb. by apply begins_opens.
  - split; [done|]. cbn [head_code]. by rewrite name_code.
Qed.
Lemma stmt_scope locals s ts locals' : spells_stmt locals s ts locals' → ∃ xs, locals' = locals ++ xs ∧ length locals' = scope_after (length locals) s.
Proof.
  inversion 1; subst; try (exists []; by rewrite app_nil_r). exists [x]. split; [done|]. rewrite length_app. cbn. lia.
Qed.
(** The list of statements in front of [rest] is over. *)
Definition stops (rest : list tok) : Prop := head_code rest = ch "}" ∨ rest = [].
Lemma stops_next rest : stops rest → next rest.
Proof. intros [E| ->]; [|done]. split; by rewrite E. Qed.
Lemma stmts_next locals ss ts rest : spells_stmts locals ss ts → stops rest → next (ts ++ rest).
Proof.
  intros Hs Hr. destruct Hs as [|locals s ts locals' ss tss Hs _]; [by apply stops_next|]. destruct (stmt_opens _ _ _ _ Hs) as [Hn Ho]. rewrite <- app_assoc. unfold next.
  rewrite head_app by done. unfold opens in Ho. cbn in Ho. rewrite !andb_true_iff, !negb_true_iff, !Z.eqb_neq in Ho. tauto.
Qed.

(** The length of a list in its parts *)
Ltac counted E := repeat (progress (rewrite ?length_app in E; cbn [length] in E)).

Section blocks.
Context {KT : KeywordTable} {FR : FloatReader} {AL : Allocator} {H : Type} {RT : Runtime H}.
Context (_sourcename : SQObject) (_lineinfo : bool).
Abbreviation parse := (parse _sourcename _lineinfo).
Abbreviation reads_stmt := (reads_stmt (H := H) _sourcename _lineinfo).
Implicit Types (asd : aside) (locals : list (list ascii)).

(** ** Lists of statements *)

Record read_stmts locals (xs : list (list ascii)) (ss : list stmt) (pre : list instruction) (rest : list tok) (asd asd' : aside) (w w' : view) : Prop := {
  rl_ts : w_ts w' = rest;
  rl_temps : w_temps w' = 0%nat;
  rl_targets : w_targets w' = [];
  rl_grown : grown 0 w w';
  rl_same : same_but_records asd asd';
  rl_recorded : (recorded asd' + length xs + length rest ≤ recorded asd + length (w_ts w))%nat;
  rl_code : ∃ code, w_code w' = pre ++ code ∧ acts (H := H) (length locals) w' code ss;
  rl_end : w_opt w' = false ∨ w_code w' = w_code w ∧ w_opt w' = w_opt w
}.

(** The loops over statements: that of a block, and that of the program *)
Record loops_over (L : nat → cM ()) (rest : list tok) (bound : nat) : Prop := {
  lo_stop : ∀ f c, _token c = head_code rest → runs (L (S f)) c (λ _ c', c' = c);
  lo_go : ∀ f c Q, (S f ≤ bound)%nat → opens (_token c) = true →
    (∀ g, (f ≤ g)%nat → runs (parse g (NStatement true);; after_statement) c (λ _ c1, runs (L f) c1 Q)) → runs (L (S f)) c Q
}.
Lemma statements_loop rest bound : head_code rest = ch "}" → loops_over (λ f, parse f NStatements) rest bound.
Proof using Type.
  intros Hr. split.
  - intros f c Et. cbn [SqCompiler.parse SqCompiler.run]. unfold Statements. apply runs_bind, runs_token. by rewrite Et, Hr.
  - intros f c Q _ Ho Hb. cbn [SqCompiler.parse SqCompiler.run]. unfold Statements. apply runs_bind, runs_token. unfold opens in Ho. cbn in Ho. rewrite !andb_true_iff, !negb_true_iff, !Z.eqb_neq in Ho.
    destruct Ho as (_ & _ & H1 & _ & H2 & H3 & _). rewrite bool_decide_eq_false_2 by (rewrite !elem_of_cons; intros [?|[?|[?|[]%elem_of_nil]]]; done). cbn [negb when].
    specialize (Hb f ltac:(lia)). apply runs_ok in Hb as (a & c2 & E & Hb). unfold mbind, stM_bind in E.
    apply runs_bind, runs_ok. destruct (parse f (NStatement true) c) as [[u c1]|] eqn:E1; [|done]. exists u, c1. split; [done|]. apply runs_bind, runs_ok. by exists a, c2.
Qed.
Lemma program_loop depth : loops_over (λ f, program _sourcename _lineinfo f depth) [] depth.
Proof using Type.
  split.
  - intros f c Et. cbn [program]. apply runs_bind, runs_token. by rewrite Et.
  - intros f c Q Hf Ho Hb. cbn [program]. apply runs_bind, runs_token. unfold opens in Ho. apply andb_true_iff in Ho as [-> _]. cbn [when].
    specialize (Hb depth ltac:(lia)). apply runs_ok in Hb as (a & c2 & E & Hb). unfold mbind, stM_bind in E.
    apply runs_bind, runs_ok. destruct (parse depth (NStatement true) c) as [[u c1]|] eqn:E1; [|done]. exists u, c1. split; [done|]. apply runs_bind, runs_ok. by exists a, c2.
Qed.

Definition reads_stmts locals (ss : list stmt) (ts : list tok) : Prop := ∀ asd c w pre ld rest L bound fuel,
  0 < base locals → @a_traps asd = 0 → shows locals (asd := asd) c w → starts asd pre ld w → w_ts w = ts ++ rest → spacious w → stops rest → loops_over L rest bound →
  (16 * length ts + 4 ≤ fuel ≤ bound)%nat →
  runs (L fuel) c (λ _ c', ∃ xs asd' w', shows (locals ++ xs) (asd := asd') c' w' ∧ read_stmts locals xs ss pre rest asd asd' w w').

Lemma grown_refl w : grown 0 w w.
Proof using Type. split; [done|done|lia|lia]. Qed.
Lemma spacious_grown w w' : grown 0 w w' → spacious w → spacious w'.
Proof using Type. intros [_ _ Hc Hi] [H1 H2]. split; lia. Qed.
Lemma acts_lead n w ld : lead ld → acts (H := H) n w ld [].
Proof using Type.
  intros [->|(i & -> & Hi)]; [apply acts_nil|]. intros str lits Hf l l' fuel m mm Hl. apply plays_line; [done|]. by apply (acts_nil n w str lits Hf).
Qed.

Lemma stmts_nil locals : reads_stmts locals [] [].
Proof using Type.
  intros asd c w pre ld rest L bound fuel _ _ Hs Hst Ew Hsp Hr [Hstop _] Hf. destruct fuel as [|f]; [lia|]. cbn [app] in Ew.
  eapply runs_mono; [apply Hstop; by rewrite (shows_token _ _ _ Hs), Ew|]. intros [] c' ->. exists [], asd, w. rewrite app_nil_r. split; [done|]. destruct Hst as [Ek Et Ec Hl _ _]. split; try done.
  - apply grown_refl.
  - apply same_records_refl.
  - rewrite Ew. cbn. tlia.
  - exists ld. split; [done|]. by apply acts_lead.
  - by right.
Qed.

Lemma stmts_cons locals s ts locals' ss tss : spells_stmt locals s ts locals' → spells_stmts locals' ss tss →
  reads_stmt locals s ts locals' → reads_stmts locals' ss tss → reads_stmts locals (s :: ss) (ts ++ tss).
Proof using Type.
  intros Hsp1 Hsp2 H1 H2 asd c w pre ld rest L bound fuel Hb Htr Hs Hst Ew Hsp Hr HL [Hf Hbd]. rewrite <- app_assoc in Ew. rewrite length_app in Hf. destruct (stmt_opens _ _ _ _ Hsp1) as [Hne Ho].
  destruct (stmt_scope _ _ _ _ Hsp1) as (xs1 & Ex & Elen). assert (1 ≤ length ts)%nat as Hlts by (destruct ts; [done|cbn; lia]). destruct fuel as [|f]; [lia|].
  apply (lo_go _ _ _ HL); [done|by rewrite (shows_token _ _ _ Hs), Ew, head_app|]. intros g Hg.
  eapply runs_mono; [apply (H1 asd c w pre ld (tss ++ rest) g); try done; [by eapply stmts_next|lia]|]. intros [] c1 (asd1 & w1 & Hs1 & [Ets1 Ek1 Et1 Eo1 Hg1 Hsame1 Hrec1 (code1 & Ec1 & Ha1)]).
  assert (starts asd1 (w_code w1) [] w1) as Hst1 by (split; try done; [by rewrite app_nil_r|by left|by rewrite Eo1]).
  eapply runs_mono; [apply (H2 asd1 c1 w1 (w_code w1) [] rest L bound f); try done|].
  - subst locals'. unfold base in *. rewrite length_app. lia.
  - by rewrite (same_traps asd asd1).
  - by apply (spacious_grown w).
  - lia.
  - intros [] c2 (xs2 & asd2 & w2 & Hs2 & [Ets2 Ek2 Et2 Hg2 Hsame2 Hrec2 (code2 & Ec2 & Ha2) Hend]). exists (xs1 ++ xs2), asd2, w2. rewrite app_assoc, <- Ex. split; [done|]. split; try done.
    + by apply (grown_trans 0 0 0 w w1 w2).
    + by apply (same_records_trans asd asd1).
    + rewrite Ets1 in Hrec2. rewrite Ex, length_app in Hrec1. rewrite length_app. lia.
    + exists (code1 ++ code2). split; [by rewrite Ec2, Ec1, <- app_assoc|]. destruct Hg2 as [Gs Gl _ _]. rewrite Elen in Ha2. apply acts_cons; [by apply (act_grow _ w1)|done].
    + left. destruct Hend as [?|[_ E]]; [done|]. by rewrite E.
Qed.

(** ** Blocks *)

(** [k] tokens more were read than the statements inside needed. *)
Record read_block (k : nat) locals (b : list stmt) (pre : list instruction) (rest : list tok) (asd asd' : aside) (w w' : view) : Prop := {
  rb_ts : w_ts w' = rest;
  rb_temps : w_temps w' = 0%nat;
  rb_targets : w_targets w' = [];
  rb_prev : rest ≠ [] → w_prev w' = ch "}" ∨ w_prev w' = 10;
  rb_grown : grown (4 * k) w w';
  rb_same : same_but_records asd asd';
  rb_recorded : (k + recorded asd' + length rest ≤ recorded asd + length (w_ts w))%nat;
  rb_code : ∃ code, w_code w' = pre ++ code ∧ acts (H := H) (length locals) w' code b
}.

Lemma starts_same asd asd' pre ld w w' : starts asd pre ld w → @a_lineinfos asd' = @a_lineinfos asd → w_temps w' = w_temps w → w_targets w' = w_targets w →
  w_code w' = w_code w → w_opt w' = w_opt w → starts asd' pre ld w'.
Proof using Type. intros [] E1 E2 E3 E4 E5. split; rewrite ?E1, ?E2, ?E3, ?E4, ?E5; done. Qed.
Lemma same_scope asd sc asd' lvs : same_but_records (set_scope sc asd) asd' → same_but_records asd (set_scope (@a_scope asd) (set_vars lvs asd')).
Proof using Type. unfold same_but_records. destruct asd, asd'. cbn. by intros [= -> -> -> -> -> -> -> -> -> ->]. Qed.
Lemma same_scope_of asd sc asd' : same_but_records (set_scope sc asd) asd' → @a_scope asd' = sc.
Proof using Type. by intros ->. Qed.
Lemma prev_closed ws : prev_behind (code_of (op "}")) ws = ch "}" ∨ prev_behind (code_of (op "}")) ws = 10.
Proof using Type. unfold prev_behind. destruct (newlines ws =? 0); auto. Qed.

Section block.
Context (locals : list (list ascii)) (Hbase : 0 < base locals) (b : list stmt) (ts : list tok) (Hb : reads_stmts locals b ts).

Lemma runs_block asd c w pre ld w1 w2 rest g : @a_traps asd = 0 → shows locals (asd := asd) c w → starts asd pre ld w → w_ts w = block w1 ts w2 ++ rest → room w →
  (16 * length ts + 4 ≤ g)%nat →
  runs (SqCompiler.block (parse g) true) c (λ _ c', ∃ asd' w', shows locals (asd := asd') c' w' ∧ read_block 2 locals b pre rest asd asd' w w').
Proof using Hbase Hb.
  intros Htr Hs Hst Ew Hsp Hg. cbn [app] in Ew. rewrite <- app_assoc in Ew. cbn [app] in Ew. pose proof (f_equal length Ew) as Elen. cbn [length] in Elen. rewrite length_app in Elen. cbn [length] in Elen.
  unfold SqCompiler.block. apply runs_bind. eapply runs_mono; [apply (runs_BEGIN_SCOPE locals asd c w Hs), Hst|]. intros old c1 [-> Hs1]. set (sc := mkScope _ _) in Hs1.
  apply runs_bind. eapply runs_mono; [by apply (runs_Lex locals c1 w (op "{") w1 _ Hs1 Ew)|]. intros [] c2 (q & Hs2 & _). set (wa := set_ts _ _ _) in Hs2.
  apply runs_bind. eapply runs_mono; [apply (Hb (set_scope sc asd) c2 wa pre ld ((op "}", w2) :: rest) (λ f, parse f NStatements) g g); try done|].
  - by apply (starts_same asd _ _ _ w).
  - destruct Hsp as [S1 S2]. split; cbn; rewrite length_app; cbn; tlia.
  - by left.
  - by apply statements_loop.
  - intros [] c3 (xs & asd3 & w3 & Hs3 & [Ets Ek Et [Gs Gl Gc Gi] Hsame Hrec (code & Ec & Ha)]). cbn in Gc, Gi, Gs, Gl, Hrec. rewrite Ets in Gc, Gi. rewrite length_app in Gc, Gi, Hrec. cbn [length] in Gc, Gi, Hrec.
    apply runs_bind. eapply runs_mono; [by apply (runs_expect _ c3 w3 (op "}") w2 rest _ Hs3 Ets)|]. intros [] c4 (q4 & Hs4 & Hq4).
    eapply runs_mono; [eapply (runs_END_SCOPE locals asd3 c4 _ xs _ (@a_scope asd) Hs4); [done|done|by rewrite (same_scope_of _ _ _ Hsame)]|].
    intros [] c5 (lvs & Hs5 & Hl). exists (set_scope (@a_scope asd) (set_vars lvs asd3)). eexists. split; [exact Hs5|]. split; try done; cbn.
    + intros Hr. rewrite Hq4 by done. apply prev_closed.
    + split; cbn -[Nat.mul]; [done|done|tlia|tlia].
    + by eapply same_scope.
    + unfold recorded in *. cbn in *. tlia.
    + by exists code.
Qed.

(** The statement that is the body of a loop *)
Lemma runs_body asd c w pre ld w1 w2 rest g (m : cM ()) Q : @a_traps asd = 0 → shows locals (asd := asd) c w → starts asd pre ld w → w_ts w = block w1 ts w2 ++ rest → spacious w →
  (16 * length ts + 8 ≤ g)%nat →
  (∀ c' asd' w', shows locals (asd := asd') c' w' → w_opt w' = false → read_block 1 locals b pre rest asd asd' w w' → runs m c' Q) → runs (parse g (NStatement true);; m) c Q.
Proof using Hbase Hb.
  intros Htr Hs Hst Ew Hsp Hg Hm. destruct g as [|g]; [lia|]. apply (runs_Statement _sourcename _lineinfo locals asd c w pre ld g); [done|done|]. intros asd1 ld1 c1 wa Hs1 Hbg.
  pose proof (begun_ts _ _ _ _ _ _ Hbg) as Ets. rewrite Ew in *. cbn [head_code app]. change (code_of (op "{")) with (ch "{"). unfold statement_body. pick.
  eapply runs_mono; [apply (runs_block asd1 c1 wa pre ld1 w1 w2 rest g); [|exact Hs1|apply Hbg|exact Ets|by apply (begun_room asd asd1 pre ld1 w wa Hbg)|lia]|].
  - rewrite (same_traps asd asd1); [done|apply Hbg].
  - intros [] c2 (asd2 & w2' & Hs2 & [Rts Rk Rt Rp [Gs Gl Gc Gi] Rsame Rrec (code & Ec & Ha)]). eapply runs_mono; [apply (runs_SnoozeOpt locals c2 _ Hs2)|]. intros [] c3 Hs3.
    eapply (Hm c3 asd2 _ Hs3); [done|]. destruct Hbg as [_ Hsame Hrec Ev Hlen].
    assert (w_ts wa = w_ts w ∧ w_lits wa = w_lits w ∧ w_strs wa = w_strs w) as (E1 & E2 & E3) by (by rewrite Ev). rewrite E1 in Gc, Gi, Rrec. rewrite E2 in Gl, Gc. rewrite E3 in Gs.
    split; try done; cbn -[Nat.mul].
    + split; cbn -[Nat.mul]; [done|done|lia|lia].
    + by apply (same_records_trans asd asd1).
    + lia.
    + by exists code.
Qed.

(** The end of a statement made of others *)
Lemma compound_end s asd asd1 asd2 pre ld1 rest w wa c4 w4 code : begun asd asd1 pre ld1 w wa → shows locals (asd := asd2) c4 w4 → w_ts w4 = rest → w_temps w4 = 0%nat → w_targets w4 = [] →
  (rest ≠ [] → w_prev w4 = ch "}" ∨ w_prev w4 = 10) → next rest → grown 1 wa w4 → same_but_records asd1 asd2 →
  (recorded asd2 + length rest < recorded asd1 + length (w_ts w))%nat → w_code w4 = pre ++ code → act (H := H) (length locals) w4 code s →
  runs (fs SnoozeOpt) c4 (λ _ c5, runs after_statement c5 (λ _ c', ∃ asd' w', shows locals (asd := asd') c' w' ∧ read_stmt locals locals s pre rest asd asd' w w')).
Proof using Type.
  intros [Hst Hsame Hrec Ev Hlen] Hs Ets Ek Et Hp Hn [Gs Gl Gc Gi] Hsame2 Hrec2 Ec Ha. eapply runs_mono; [apply (runs_SnoozeOpt locals c4 _ Hs)|]. intros [] c5 Hs5.
  eapply runs_mono; [apply (runs_no_semicolon locals asd2 c5 _ Hs5); cbn; rewrite Ets; [done|apply Hn]|]. intros [] c6 ->. exists asd2. eexists. split; [exact Hs5|].
  assert (w_ts wa = w_ts w ∧ w_lits wa = w_lits w ∧ w_strs wa = w_strs w) as (E1 & E2 & E3) by (by rewrite Ev). rewrite E1 in Gc, Gi. rewrite E2 in Gl, Gc. rewrite E3 in Gs.
  split; try done; cbn.
  - split; cbn -[Nat.mul]; [done|done|done|lia].
  - by apply (same_records_trans asd asd1).
  - tlia.
  - by exists code.
Qed.

Lemma stmt_block w1 w2 : reads_stmt locals (Block b) (block w1 ts w2) locals.
Proof using Hbase Hb.
  intros asd c w pre ld rest fuel _ Htr Hs Hst Ew Hsp Hn Hfuel. cbn [length] in Hfuel. rewrite length_app in Hfuel. cbn [length] in Hfuel. destruct fuel as [|g]; [lia|].
  apply (runs_Statement _sourcename _lineinfo locals asd c w pre ld g); [done|done|]. intros asd1 ld1 c1 wa Hs1 Hbg. pose proof (begun_ts _ _ _ _ _ _ Hbg) as Ets.
  rewrite Ew in *. cbn [head_code app]. change (code_of (op "{")) with (ch "{"). unfold statement_body. pick.
  eapply runs_mono; [apply (runs_block asd1 c1 wa pre ld1 w1 w2 rest g); [|exact Hs1|apply Hbg|exact Ets|by apply (begun_room asd asd1 pre ld1 w wa Hbg)|lia]|].
  - rewrite (same_traps asd asd1); [done|apply Hbg].
  - intros [] c2 (asd2 & w2' & Hs2 & [Rts Rk Rt Rp Rg Rsame Rrec (code & Ec & Ha)]). rewrite Ets in Rrec.
    eapply (compound_end (Block b) asd asd1 asd2 pre ld1 rest w wa c2 w2' code Hbg Hs2); try done; [|rewrite Ew; tlia]. by apply (grown_trans 8 0 1 wa w2'); [|apply grown_refl|lia].
Qed.
End block.
(** ** Blocks that can be left *)

Definition set_loops (bs cs : list Z) (a : aside) : aside :=
  mkAside (a_traps (aside := a)) a_outers a_breaks a_continues bs cs a_functions a_parameters a_defaultparams a_lineinfos a_localvarinfos a_scope.
Definition inside asd : aside := set_loops (@a_breaktargets asd ++ [0]) (@a_continuetargets asd ++ [0]) asd.
Definition left asd asd' : aside := set_loops (@a_breaktargets asd) (@a_continuetargets asd) asd'.
Definition waiting asd : Z * Z := (vsize (@a_breaks asd), vsize (@a_continues asd)).

Lemma shows_loops locals asd c w bs cs : shows locals (asd := asd) c w →
  shows locals (asd := set_loops bs cs asd) (with_fs (with_continuetargets cs (with_breaktargets bs (_fs c))) c) w.
Proof using Type. intros []. split; try done. by subst. Qed.
Lemma runs_BEGIN_BREAKBLE locals asd c w : shows locals (asd := asd) c w →
  runs BEGIN_BREAKBLE_BLOCK c (λ r c', r = waiting asd ∧ shows locals (asd := inside asd) c' w).
Proof using Type.
  intros Hs. unfold BEGIN_BREAKBLE_BLOCK. apply runs_bind, runs_gets, runs_bind. unfold runs at 1. cbn. apply runs_ret. pose proof (shows_loops _ _ _ _ (@a_breaktargets asd ++ [0]) (@a_continuetargets asd ++ [0]) Hs) as Hs'.
  rewrite <- (sh_aside _ _ _ Hs) in Hs' |- *. by split.
Qed.
Lemma pop_back_snoc {A} (l : list A) x : pop_back (l ++ [x]) = Ok l.
Proof using Type. unfold pop_back. destruct (l ++ [x]) eqn:E; [by destruct l|]. rewrite <- E. by rewrite removelast_last. Qed.
Lemma runs_END_BREAKBLE locals asd asd' c w pos : shows locals (asd := asd') c w → same_but_records (inside asd) asd' →
  runs (END_BREAKBLE_BLOCK (waiting asd) pos) c (λ _ c', shows locals (asd := left asd asd') c' w ∧ same_but_records asd (left asd asd')).
Proof using Type.
  intros Hs Hsame. pose proof (sh_aside _ _ _ Hs) as Ea. rewrite Hsame in Ea. unfold END_BREAKBLE_BLOCK. apply runs_bind, runs_gets. injection Ea as _ _ Eb Ec Ebt Ect _ _ _ _ _ _.
  rewrite Eb, Ec. cbn [waiting fst snd]. rewrite !Z.sub_diag. cbn [Z.ltb Z.compare when]. apply runs_bind, runs_ret, runs_bind, runs_ret. unfold runs, fs, pop_targets. cbn. unfold mbind, stM_bind. cbn. unfold id.
  rewrite Ebt, Ect. unfold inside, set_loops, lift. cbn. rewrite !pop_back_snoc. cbn. split; [by apply (shows_loops locals asd')|]. unfold same_but_records in *. destruct asd, asd'. cbn in *. injection Hsame as -> -> -> -> -> -> -> -> -> ->. done.
Qed.

(** ** Conditions *)

Section condition.
Context (locals : list (list ascii)) (Hbase : 0 < base locals).
Context (p : bool) (e : exp) (te : list tok) (He : spells locals 0 p e te) (Hc : compilable locals e = true).
Abbreviation t := (place locals 0 e).

(** The condition has been read, and its value is on top of the stack of targets. *)
Record condition (rest : list tok) (w w' : view) : Prop := {
  cd_ts : w_ts w' = rest;
  cd_targets : w_targets w' = [t];
  cd_temps : w_temps w' = temps_after 0 e;
  cd_grown : grown 12 w w';
  cd_cmp : ∀ pi, w_opt w' = true → last (w_code w') = Some pi → iop pi = _OP_CMP → arg0 pi = t ∧ base locals ≤ t;
  cd_code : emitted (H := H) locals (w_code w) (base locals + Z.of_nat (temps_after 0 e)) w' (eval_to e t)
}.
Lemma runs_paren asd c w u w1 w2 w3 rest g : shows locals (asd := asd) c w → w_ts w = (u, w1) :: parens w2 te w3 ++ rest → w_temps w = 0%nat → w_targets w = [] → room w →
  (w_opt w = true → sealed (w_code w)) → (need 0 te < g)%nat →
  runs (paren_expr (parse g)) c (λ _ c', ∃ w', shows locals (asd := asd) c' w' ∧ condition rest w w').
Proof using Hbase He Hc.
  intros Hs Ew Ek Et Hr Hsl Hg. cbn [app] in Ew. rewrite <- app_assoc in Ew. cbn [app] in Ew. pose proof (f_equal length Ew) as Elen. cbn [length] in Elen. rewrite length_app in Elen. cbn [length] in Elen.
  unfold paren_expr. apply runs_bind. eapply runs_mono; [by apply (runs_Lex locals c w u w1 _ Hs Ew)|]. intros [] c1 (q1 & Hs1 & _).
  apply runs_bind. eapply runs_mono; [by apply (runs_expect locals c1 _ (op "(") w2 _ _ Hs1 eq_refl)|]. intros [] c2 (q2 & Hs2 & _). set (wb := set_ts _ _ _) in Hs2.
  assert (room wb) as Hrb by (destruct Hr as [R1 R2]; split; cbn; rewrite length_app; cbn; tlia).
  apply runs_bind. eapply runs_mono; [by apply (runs_comma_exp _sourcename _lineinfo locals Hbase p e te He Hc asd c2 wb ((op ")", w3) :: rest) g Hs2)|]. intros [] c3 (w3' & Hs3 & Hd).
  eapply runs_mono; [apply (runs_expect locals c3 w3' (op ")") w3 rest _ Hs3); [apply Hd|done|done]|]. intros [] c4 (q4 & Hs4 & _). eexists. split; [exact Hs4|].
  pose proof (dw_grown _ _ _ _ _ _ _ Hd) as [Gs Gl Gc Gi]. rewrite (dw_ts _ _ _ _ _ _ _ Hd) in Gc, Gi. cbn in Gs, Gl, Gc, Gi. rewrite length_app in Gc, Gi. cbn [length] in Gc, Gi.
  pose proof (dw_targets _ _ _ _ _ _ _ Hd) as Et3. pose proof (dw_temps _ _ _ _ _ _ _ Hd) as Ek3. cbn in Et3, Ek3. rewrite Ek in Et3, Ek3. rewrite Et in Et3. split; try done; cbn.
  - split; cbn -[Nat.mul]; [done|done|tlia|tlia].
  - intros pi Ho Hl Hop. destruct (is_var e) eqn:Ev.
    + destruct (dw_var _ _ _ _ _ _ _ Hd Ev) as [Ec Eo]. cbn in Ec, Eo. rewrite Ec in Hl. rewrite Eo in Ho. specialize (Hsl Ho). unfold sealed in Hsl. by rewrite Hl, Hop in Hsl.
    + destruct (dw_cmp _ _ _ _ _ _ _ Hd Ev pi Ho Hl Hop) as [_ Ha]. cbn in Ha. rewrite Ek in Ha. split; [exact Ha|]. destruct (place_temp locals 0 e Ev) as [-> _]. lia.
  - pose proof (dw_code _ _ _ _ _ _ _ Hd (w_code w) (λ _ m, Goes m) ltac:(by apply emitted_start)) as Hem. rewrite Ek3 in Hem. cbn in Hem. rewrite Ek in Hem.
    apply (emitted_grow _ _ _ w3'); done.
Qed.

(** The jump that the test makes is open. *)
Definition test_of (w : view) (c0 : list instruction) (j : instruction) : Prop := ∀ str lits, fits str lits w → ∀ k (m : machine (H := H)), 0 ≤ k →
  same_finish (below (base locals)) (below (base locals)) (exec (strict_step lits) (c0 ++ [set_jump k j]) 0 m) (tested t k (eval_to e t str m)).
Lemma test_grow w w' c0 j : test_of w c0 j → w_strs w ⊆ w_strs w' → w_lits w `prefix_of` w_lits w' → test_of w' c0 j.
Proof using Type. intros Ht Hs Hl str lits Hf. apply Ht. by apply (fits_grow str lits w w'). Qed.

Lemma runs_test asd c rest w w' (m : cM ()) Q : shows locals (asd := asd) c w' → condition rest w w' →
  (∀ c2 c0 j, let w2 := set_code (w_code w ++ c0 ++ [j]) true (set_targets [] 0 w') in shows locals (asd := asd) c2 w2 → jumps (iop j) = true → test_of w' c0 j →
     (length (w_code w2) ≤ S (length (w_code w')))%nat → runs m c2 Q) →
  runs (cond ← fs PopTarget; emit _OP_JZ cond 0 0 0;; m) c Q.
Proof using Hbase He Hc.
  intros Hs [Ets Et Ek Hg Hcmp Hem] Hm. pose proof (exp_good locals Hbase p e te He (H := H)) as G. pose proof (compilable_place locals Hbase p e te He Hc) as [R B].
  apply runs_bind. eapply runs_mono; [by apply (runs_PopTarget locals c w' [] t Hs)|]. intros r c1 [-> Hs1]. rewrite Ek, popped_place in Hs1 by done.
  apply runs_bind. eapply runs_mono; [apply (runs_emit locals c1 _ _OP_JZ _ _ _ _ Hs1); done || lia|]. intros [] c2 (code' & opt' & Hs2 & Ha).
  destruct (emitted_test locals _ _ (base locals) _ _ t _ _ Hem Ha) as (c0 & j & -> & -> & Hj & Htest); [by apply place_bound|lia|lia|done|].
  apply (Hm c2 c0 j); [exact Hs2|done|exact Htest|]. destruct (added_last _ _ _ _ _ _ Ha) as (l & j' & El & Hl & _). cbn. rewrite El, length_app. cbn in *. lia.
Qed.
(** ** [if] *)

Lemma open_starts asd w code (j : instruction) : w_temps w = 0%nat → w_targets w = [] → w_code w = code ++ [j] → jumps (iop j) = true → starts asd (w_code w) [] w.
Proof using Type. intros Ek Et Ec Hj. split; try done; [by rewrite app_nil_r|by left|]. intros _ _. unfold jumped. by rewrite Ec, last_snoc. Qed.
Lemma runs_IfBlock b ts asd c w pre ld w1 w2 rest g : reads_stmts locals b ts → @a_traps asd = 0 → shows locals (asd := asd) c w → starts asd pre ld w → w_ts w = block w1 ts w2 ++ rest → room w →
  (16 * length ts + 4 ≤ g)%nat → runs (parse (S g) NIfBlock) c (λ _ c', ∃ asd' w', shows locals (asd := asd') c' w' ∧ read_block 2 locals b pre rest asd asd' w w').
Proof using Hbase.
  intros Hb Htr Hs Hst Ew Hr Hg. cbn [SqCompiler.parse SqCompiler.run]. unfold IfBlock. apply runs_bind, runs_token. rewrite (shows_token _ _ _ Hs), Ew. cbn [app head_code]. pick.
  by eapply (runs_block locals Hbase b ts Hb).
Qed.

(** The test and the first block *)
Record first_block (b : list stmt) (rest : list tok) (asd asd' : aside) (w w' : view) (c0 : list instruction) (j : instruction) (c1 : list instruction) : Prop := {
  fb_ts : w_ts w' = rest;
  fb_temps : w_temps w' = 0%nat;
  fb_targets : w_targets w' = [];
  fb_prev : rest ≠ [] → w_prev w' = ch "}" ∨ w_prev w' = 10;
  fb_grown : grown 8 w w';
  fb_same : same_but_records asd asd';
  fb_recorded : (2 + recorded asd' + length rest ≤ recorded asd + length (w_ts w))%nat;
  fb_code : w_code w' = (w_code w ++ c0) ++ j :: c1;
  fb_test : test_of w' c0 j;
  fb_acts : acts (H := H) (length locals) w' c1 b
}.
Lemma runs_first_block b ts asd c w u w1 w2 w3 w4 w5 rest g (m : Z → cM ()) Q : reads_stmts locals b ts → @a_traps asd = 0 → shows locals (asd := asd) c w →
  w_ts w = (u, w1) :: parens w2 te w3 ++ block w4 ts w5 ++ rest → w_temps w = 0%nat → w_targets w = [] → room w → (w_opt w = true → sealed (w_code w)) →
  (16 * (length te + length ts) + 16 ≤ g)%nat →
  (∀ c' asd' w' c0 j c1, shows locals (asd := asd') c' w' → first_block b rest asd asd' w w' c0 j c1 → runs (m (Z.of_nat (length (w_code w ++ c0)))) c' Q) →
  runs (paren_expr (parse g);; cond ← fs PopTarget; emit _OP_JZ cond 0 0 0;; jnepos ← fs GetCurrentPos; parse g NIfBlock;; m jnepos) c Q.
Proof using Hbase He Hc.
  intros Hb Htr Hs Ew Ek Et Hr Hsl Hg Hm. pose proof (f_equal length Ew) as Elen. cbn [length app] in Elen. rewrite !length_app in Elen. cbn [length] in Elen. rewrite !length_app in Elen. cbn [length] in Elen.
  apply runs_bind. eapply runs_mono; [by apply (runs_paren asd c w u w1 w2 w3 _ g Hs Ew); [..|unfold need; lia]|]. intros [] c1 (wc & Hs1 & Hcd).
  apply (runs_test asd c1 _ w wc _ _ Hs1 Hcd). intros c2 c0 j w2' Hs2 Hj Htest Hlen. apply runs_bind. eapply runs_mono; [by apply (runs_pos locals c2 _ Hs2)|]. intros r c3 [-> Hs3].
  pose proof (cd_grown _ _ _ Hcd) as [Gs Gl Gc Gi]. rewrite (cd_ts _ _ _ Hcd) in Gc, Gi. assert (room w2') as Hr2 by (destruct Hr as [R1 R2]; split; cbn -[Nat.mul] in *; rewrite (cd_ts _ _ _ Hcd); cbn [length]; tlia).
  destruct g as [|g]; [lia|]. apply runs_bind.
  eapply runs_mono; [apply (runs_IfBlock b ts asd c3 w2' (w_code w2') [] w4 w5 rest g Hb Htr Hs3); [by eapply open_starts; [..|apply app_assoc|]|apply Hcd|done|lia]|].
  intros [] c4 (asd4 & w4' & Hs4 & [Rts Rk Rt Rp [Hs' Hl' Hc' Hi'] Rsame Rrec (c1' & Ec & Ha)]). change (w_ts w2') with (w_ts wc) in *. change (w_lits w2') with (w_lits wc) in *. change (w_strs w2') with (w_strs wc) in *.
  rewrite (cd_ts _ _ _ Hcd) in Hc', Hi', Rrec.
  replace (_ - 1) with (Z.of_nat (length (w_code w ++ c0))) by (cbn; rewrite !length_app; cbn; lia). apply (Hm c4 asd4 w4' c0 j c1' Hs4). split; try done.
  - split; [by etrans|by etrans|tlia|tlia].
  - rewrite !length_app in Rrec. cbn [length] in Rrec. rewrite ?length_app in Rrec. cbn [length] in Rrec. tlia.
  - rewrite Ec. cbn. by rewrite <- !app_assoc.
  - by apply (test_grow wc).
Qed.
Lemma stmt_if b ts1 w1 w2 w3 w4 w5 : reads_stmts locals b ts1 → reads_stmt locals (If e b []) ((keyword "if", w1) :: parens w2 te w3 ++ block w4 ts1 w5) locals.
Proof using Hbase He Hc.
  intros Hb asd c w pre ld rest fuel _ Htr Hs Hst Ew Hsp Hn Hfuel. rewrite app_comm_cons, <- app_assoc in Ew. cbn [length app] in Hfuel. rewrite !length_app in Hfuel. cbn [length] in Hfuel. rewrite !length_app in Hfuel. cbn [length] in Hfuel. destruct fuel as [|g]; [lia|].
  apply (runs_Statement _sourcename _lineinfo locals asd c w pre ld g); [done|done|]. intros asd1 ld1 c1 wa Hs1 Hbg. pose proof (begun_ts _ _ _ _ _ _ Hbg) as Ets. rewrite Ew in Ets. pose proof (bg_starts _ _ _ _ _ _ Hbg) as Hst1.
  rewrite Ew. cbn [head_code app]. change (code_of (keyword "if")) with TK_IF. unfold statement_body. pick. unfold IfStatement.
  eapply (runs_first_block b ts1 asd1 c1 wa _ w1 w2 w3 w4 w5 rest g); [done| |exact Hs1|exact Ets|apply Hst1|apply Hst1|by apply (begun_room asd asd1 pre ld1 w wa Hbg)|by apply (begun_sealed _ _ _ _ _ _ Hbg)|lia|].
  { rewrite (same_traps asd asd1); [done|apply Hbg]. }
  intros c2 asd2 w2' c0 j c1' Hs2 [Ets2 Ek2 Et2 Ep2 [Gs Gl Gc Gi] Hsame Hrec Ec Htest Ha].
  apply runs_bind. eapply runs_mono; [by apply (runs_pos locals c2 _ Hs2)|]. intros r c3 [-> Hs3]. apply runs_bind, runs_token. rewrite (shows_token _ _ _ Hs3), Ets2.
  destruct Hn as [Hn1 Hn2]. rewrite (proj2 (Z.eqb_neq _ TK_ELSE)) by done. rewrite Ec at 1. replace (_ - _) with (Z.of_nat (length c1')) by (rewrite (length_app _ (j :: c1')); cbn [length]; lia).
  destruct (begun_room asd asd1 pre ld1 w wa Hbg Hsp) as [R1 R2]. pose proof (f_equal length Ec) as Elc. rewrite length_app in Elc. cbn [length] in Elc.
  eapply runs_mono; [apply (runs_patch locals c3 w2' (w_code wa ++ c0) j c1' _ Hs3 Ec); lia|]. intros [] c4 Hs4. rewrite Ets in Hrec. pose proof (bg_starts _ _ _ _ _ _ Hbg) as [_ _ Ewa Hld _ _].
  eapply (compound_end locals (If e b []) asd asd1 asd2 pre ld1 rest w wa c4 _ (ld1 ++ c0 ++ set_jump _ j :: c1') Hbg Hs4); try done.
  - split; cbn -[Nat.mul]; [done|done|lia|]. rewrite length_app. cbn [length]. lia.
  - rewrite Ew. tlia.
  - cbn. by rewrite Ewa, <- !app_assoc.
  - apply act_lead; [done|]. apply act_if; [by apply (exp_good locals Hbase p e te)|by apply (test_grow w2')|by apply (acts_grow _ w2')].
Qed.
Lemma stmt_if_else b1 ts1 b2 ts2 w1 w2 w3 w4 w5 w6 w7 w8 : reads_stmts locals b1 ts1 → reads_stmts locals b2 ts2 →
  reads_stmt locals (If e b1 b2) ((keyword "if", w1) :: parens w2 te w3 ++ block w4 ts1 w5 ++ (keyword "else", w6) :: block w7 ts2 w8) locals.
Proof using Hbase He Hc.
  intros Hb1 Hb2 asd c w pre ld rest fuel _ Htr Hs Hst Ew Hsp Hn Hfuel. cbn [length app] in Hfuel. rewrite !length_app in Hfuel. cbn [length] in Hfuel. rewrite !length_app in Hfuel. cbn [length] in Hfuel.
  rewrite length_app in Hfuel. cbn [length] in Hfuel. destruct fuel as [|g]; [lia|].
  rewrite app_comm_cons, <- !app_assoc in Ew. apply (runs_Statement _sourcename _lineinfo locals asd c w pre ld g); [done|done|]. intros asd1 ld1 c1 wa Hs1 Hbg.
  pose proof (begun_ts _ _ _ _ _ _ Hbg) as Ets. rewrite Ew in Ets. pose proof (bg_starts _ _ _ _ _ _ Hbg) as Hst1. rewrite Ew. cbn [head_code app]. change (code_of (keyword "if")) with TK_IF. unfold statement_body. pick. unfold IfStatement.
  assert (@a_traps asd1 = 0) as Htr1 by (rewrite (same_traps asd asd1); [done|apply Hbg]).
  eapply (runs_first_block b1 ts1 asd1 c1 wa _ w1 w2 w3 w4 w5 ((keyword "else", w6) :: block w7 ts2 w8 ++ rest) g); [done|done|exact Hs1|exact Ets|apply Hst1|apply Hst1|by apply (begun_room asd asd1 pre ld1 w wa Hbg)|by apply (begun_sealed _ _ _ _ _ _ Hbg)|lia|].
  intros c2 asd2 w2' c0 j c1' Hs2 [Ets2 Ek2 Et2 Ep2 [Gs Gl Gc Gi] Hsame Hrec Ec Htest Ha].
  set (tl := block w7 ts2 w8 ++ rest) in *.
  apply runs_bind. eapply runs_mono; [by apply (runs_pos locals c2 _ Hs2)|]. intros r c3 [-> Hs3]. apply runs_bind, runs_token. rewrite (shows_token _ _ _ Hs3), Ets2. cbn [head_code]. change (code_of (keyword "else")) with TK_ELSE. pick.
  apply runs_bind. eapply runs_mono; [by apply (runs_jump locals c3 w2' _OP_JMP 0 0 Hs3); [left|..]|]. intros [] c4 Hs4. set (jmp := mkI _OP_JMP 0 0 0 0) in Hs4.
  apply runs_bind. eapply runs_mono; [by apply (runs_pos locals c4 _ Hs4)|]. intros r c5 [-> Hs5].
  apply runs_bind. eapply runs_mono; [by apply (runs_Lex locals c5 _ (keyword "else") w6 tl Hs5)|]. intros [] c6 (q & Hs6 & _). set (wb := set_ts _ _ _) in Hs6.
  destruct (begun_room asd asd1 pre ld1 w wa Hbg Hsp) as [R1 R2]. rewrite Ets2 in Gc, Gi. cbn [length] in Gc, Gi. destruct g as [|g]; [lia|].
  apply runs_bind. eapply runs_mono; [apply (runs_IfBlock b2 ts2 asd2 c6 wb (w_code wb) [] w7 w8 rest g Hb2); [by rewrite (same_traps asd1 asd2)|exact Hs6|by eapply open_starts|done| |lia]|].
  { split; cbn -[Nat.mul app]; [tlia|]. rewrite length_app. cbn [length]. tlia. }
  intros [] c7 (asd7 & w7' & Hs7 & [Rts Rk Rt Rp [Hs' Hl' Hc' Hi'] Rsame Rrec (c2' & Ec7 & Ha7)]). rewrite Rts in Hc', Hi'.
  change (w_ts wb) with tl in *. change (w_lits wb) with (w_lits w2') in *. change (w_strs wb) with (w_strs w2') in *. change (w_code wb) with (w_code w2' ++ [jmp]) in *.
  rewrite Ec, <- !app_assoc in Ec7. cbn [app] in Ec7. pose proof (f_equal length Ec) as Elc. pose proof (f_equal length Ec7) as Elc7.
  counted Elc. counted Elc7. counted Hi'.
  eapply runs_mono; [eapply (runs_fill locals c7 w7' (w_code wa ++ c0) j c1' jmp c2' _ _ _ Hs7); [by rewrite Ec7, <- !app_assoc|tlia|done|rewrite length_app; lia|cbn [w_code set_code]; rewrite length_app; cbn [length]; lia]|].
  intros [] c8 Hs8. pose proof (bg_starts _ _ _ _ _ _ Hbg) as [_ _ Ewa Hld _ _]. rewrite Ets in Hrec. cbn [length] in Hrec.
  eapply (compound_end locals (If e b1 b2) asd asd1 asd7 pre ld1 rest w wa c8 _ (ld1 ++ c0 ++ set_jump (Z.of_nat (length c1' + 1)) j :: c1' ++ mkI _OP_JMP 0 (Z.of_nat (length c2')) 0 0 :: c2') Hbg Hs8); try done.
  - split; cbn -[Nat.mul app]; rewrite ?Rts; [by etrans|by etrans|tlia|]. rewrite !length_app. cbn [length]. rewrite length_app. cbn [length]. tlia.
  - by apply (same_records_trans asd1 asd2).
  - rewrite Ew. tlia.
  - cbn -[app]. rewrite Ewa, <- !app_assoc. by replace (Z.of_nat (length c1' + 1)) with (Z.of_nat (length c1') + 1) by lia.
  - apply act_lead; [done|]. apply act_if_else; [by apply (exp_good locals Hbase p e te)|by apply (test_grow w2')|by apply (acts_grow _ w2')|by apply (acts_grow _ w7')].
Qed.
(** ** [while] *)

Lemma runs_emit_loop asd c w pos : shows locals (asd := asd) c w → w_opt w = false → - 2 ^ 31 ≤ pos - Z.of_nat (length (w_code w)) < 2 ^ 31 →
  runs (emit_loop pos) c (λ _ c', shows locals (asd := asd) c' (set_code (w_code w ++ [mkI _OP_JMP 0 (pos - Z.of_nat (length (w_code w))) 0 0]) true w)).
Proof using Type.
  intros Hs Eo Hp. unfold emit_loop. apply runs_bind. eapply runs_mono; [by apply (runs_pos locals c w Hs)|]. intros r c1 [-> Hs1]. replace (pos - _ - 1) with (pos - Z.of_nat (length (w_code w))) by lia.
  eapply runs_mono; [by apply (runs_emit locals c1 w _OP_JMP _ _ _ _ Hs1)|]. intros [] c2 (code' & opt' & Hs2 & Ha). unfold added in Ha. rewrite Eo in Ha. by destruct (last (w_code w)), Ha as [-> ->].
Qed.

Lemma stmt_while b ts1 w1 w2 w3 w4 w5 : reads_stmts locals b ts1 → reads_stmt locals (While e b) ((keyword "while", w1) :: parens w2 te w3 ++ block w4 ts1 w5) locals.
Proof using Hbase He Hc.
  intros Hb asd c w pre ld rest fuel _ Htr Hs Hst Ew Hsp Hn Hfuel. rewrite app_comm_cons, <- app_assoc in Ew. counted Hfuel. destruct fuel as [|g]; [lia|].
  apply (runs_Statement _sourcename _lineinfo locals asd c w pre ld g); [done|done|]. intros asd1 ld1 c1 wa Hs1 Hbg. pose proof (begun_ts _ _ _ _ _ _ Hbg) as Ets. rewrite Ew in Ets. pose proof (bg_starts _ _ _ _ _ _ Hbg) as Hst1.
  rewrite Ew. cbn [head_code app]. change (code_of (keyword "while")) with TK_WHILE. unfold statement_body. pick. unfold WhileStatement. destruct (begun_room asd asd1 pre ld1 w wa Hbg Hsp) as [R1 R2].
  apply runs_bind. eapply runs_mono; [by apply (runs_pos locals c1 _ Hs1)|]. intros r c2 [-> Hs2].
  apply runs_bind. eapply runs_mono; [by apply (runs_paren asd1 c2 wa _ w1 w2 w3 (block w4 ts1 w5 ++ rest) g Hs2 Ets); [apply Hst1|apply Hst1|split|by apply (begun_sealed _ _ _ _ _ _ Hbg)|unfold need; lia]|]. intros [] c3 (wc & Hs3 & Hcd).
  apply runs_bind. eapply runs_mono; [apply (runs_BEGIN_BREAKBLE locals asd1 c3 wc Hs3)|]. intros r c4 [-> Hs4].
  apply (runs_test (inside asd1) c4 _ wa wc _ _ Hs4 Hcd). intros c5 c0 j w5' Hs5 Hj Htest Hlen. apply runs_bind. eapply runs_mono; [by apply (runs_pos locals c5 _ Hs5)|]. intros r c6 [-> Hs6].
  apply runs_bind. eapply runs_mono; [by apply (runs_BEGIN_SCOPE locals _ c6 w5' Hs6)|]. intros old c7 [-> Hs7]. set (asd7 := set_scope _ _) in Hs7.
  pose proof (cd_grown _ _ _ Hcd) as [Gs Gl Gc Gi]. rewrite (cd_ts _ _ _ Hcd) in Gc, Gi. set (tl := block w4 ts1 w5 ++ rest) in *. assert (w_ts w5' = tl) as Ets5 by apply Hcd.
  eapply (runs_body locals Hbase b ts1 Hb asd7 c7 w5' (w_code w5') [] w4 w5 rest g); [|exact Hs7|by eapply open_starts; [..|apply app_assoc|]|exact Ets5| |lia|].
  { cbn. rewrite (same_traps asd asd1); [done|apply Hbg]. } { split; rewrite ?Ets5; cbn -[Nat.mul] in *; tlia. }
  intros c8 asd8 w8' Hs8 Eo8 [Rts Rk Rt Rp [Hs' Hl' Hc' Hi'] Rsame Rrec (c1' & Ec & Ha)]. rewrite Ets5 in Hc', Hi', Rrec. rewrite Rts in Hc', Hi'.
  apply runs_bind. eapply runs_mono; [eapply (runs_END_SCOPE locals asd8 c8 w8' [] _ (@a_scope (inside asd1))); [by rewrite app_nil_r|done|done|exact (same_scope_of _ _ _ Rsame)]|].
  intros [] c9 (lvs & Hs9 & Hl9). pose proof (same_scope (inside asd1) _ asd8 lvs Rsame) as Hsame9. set (asd9 := set_scope _ _) in Hs9, Hsame9.
  assert (w_code w8' = (w_code wa ++ c0) ++ j :: c1') as Ec8 by (rewrite Ec; unfold w5'; cbn; by rewrite <- !app_assoc). pose proof (f_equal length Ec8) as Elc. counted Elc.
  apply runs_bind. eapply runs_mono; [apply (runs_emit_loop asd9 c9 w8' _ Hs9 Eo8); lia|]. intros [] c10 Hs10. replace (_ - 1 - _) with (- Z.of_nat (length c0 + length c1' + 2)) in Hs10 by lia. set (jmp := mkI _OP_JMP _ _ _ _) in Hs10.
  apply runs_bind. eapply runs_mono; [by apply (runs_pos locals c10 _ Hs10)|]. intros r c11 [-> Hs11].
  replace (_ - 1 - (_ - 1)) with (Z.of_nat (length c1' + 1)) by (unfold w5'; cbn [w_code set_code]; rewrite (length_app (w_code w8')), Elc, !length_app; cbn [length]; lia).
  replace (Z.of_nat (length (w_code w5')) - 1) with (Z.of_nat (length (w_code wa ++ c0))) by (unfold w5'; cbn [w_code set_code]; rewrite !length_app; cbn [length]; lia).
  apply runs_bind. eapply runs_mono; [eapply (runs_patch locals c11 _ (w_code wa ++ c0) j (c1' ++ [jmp]) (Z.of_nat (length c1' + 1)) Hs11); [cbn; by rewrite Ec8, <- !app_assoc|lia]|]. intros [] c12 Hs12.
  eapply runs_mono; [by apply (runs_END_BREAKBLE locals asd1 asd9 c12 _ _ Hs12)|]. intros [] c13 [Hs13 Hsame13]. pose proof (bg_starts _ _ _ _ _ _ Hbg) as [_ _ Ewa Hld _ _].
  eapply (compound_end locals (While e b) asd asd1 _ pre ld1 rest w wa c13 _ (ld1 ++ c0 ++ set_jump (Z.of_nat (length c1' + 1)) j :: c1' ++ [jmp]) Hbg Hs13); try done.
  - change (w_strs w5') with (w_strs wc) in Hs'. change (w_lits w5') with (w_lits wc) in Hl', Hc'. split; cbn -[Nat.mul app]; rewrite ?Rts; [by etrans|by etrans|tlia|].
    rewrite !length_app. cbn [length]. rewrite length_app. cbn [length]. tlia.
  - change (recorded (left asd1 asd9)) with (length (@a_lineinfos asd8) + length lvs)%nat. change (recorded asd7) with (recorded asd1) in Rrec. unfold recorded in Rrec at 1. cbn [length] in Hl9.
    rewrite <- (begun_ts _ _ _ _ _ _ Hbg). pose proof (f_equal length Ets) as Elen. cbn [length app] in Elen. fold tl in Elen. counted Elen. tlia.
  - cbn -[app]. by rewrite Ewa, <- !app_assoc.
  - apply act_lead; [done|]. apply act_while; [by apply (exp_good locals Hbase p e te)|by apply (test_grow wc)|by apply (acts_grow _ w8')].
Qed.
End condition.
(** ** All statements *)

Lemma statements_read :
  (∀ locals s ts locals', spells_stmt locals s ts locals' → 0 < base locals → reads_stmt locals s ts locals') ∧
  (∀ locals ss ts, spells_stmts locals ss ts → 0 < base locals → reads_stmts locals ss ts).
Proof using Type.
  apply stmts_mutind; intros.
  - eapply stmt_do; eauto.
  - eapply stmt_assign; eauto.
  - eapply stmt_local; eauto.
  - eapply stmt_return; eauto.
  - apply stmt_block; auto.
  - eapply stmt_if; eauto.
  - eapply stmt_if_else; eauto.
  - eapply stmt_while; eauto.
  - apply stmts_nil.
  - eapply stmts_cons; [done|done|auto|]. match goal with Hs : spells_stmt _ _ _ _ |- _ => destruct (stmt_scope _ _ _ _ Hs) as (xs & -> & _) end.
    match goal with IH : _ → reads_stmts _ _ _ |- _ => apply IH end. unfold base in *. rewrite length_app. lia.
Qed.
End blocks.
