(* ===== verification/SqCompilerProgram.v ===== *)
(** * The compiler and whole programs

    From the text of a program to the function that [Compile] gives: what the compiler
    starts with, how it ends the function, and the literals that [BuildProto] collects.
    The function does what the statements of the program do. *)

From Stdlib Require Import Ascii.
From stdpp Require Import base numbers gmap strings option list relations.
From S2P Require Import Prelude CType SqObject SqArrayLib SqString SqTable SqTableInv SqTableSpec SqProto SqLexer SqLexerSpec SqLexerRound SqKeywords SqFuncState SqCompiler SqCompilerEnds SqVm SqPeephole SqCompilerRead SqExpression SqCompilerView SqCompilerCode SqCompilerEval SqCompilerExpr SqCompilerOps SqCompilerLevels SqCompilerCorrect SqStatement SqCompilerRun SqCompilerScope SqCompilerSimple SqCompilerBlocks.

Open Scope Z_scope.

(** ** Literals *)

Section literals.
Context `{SQHeap}.

Definition put_entry (l : list SQObject) (kv : SQObject * SQObject) : list SQObject := <[Z.to_nat (_integer kv.2) := kv.1]> l.
(** Each entry has a number, and a place for it. *)
Definition numbered (n : nat) (kv : SQObject * SQObject) : Prop := ∃ i : nat, kv.2 = sq_int (Z.of_nat i) ∧ (i < n)%nat ∧ Z.of_nat i < 2 ^ 31.

Lemma sq_int_value i : 0 ≤ i < 2 ^ 31 → _integer (sq_int i) = i.
Proof using Type. intros Hi. unfold _integer, sq_int. cbn. rewrite u32_small, s32_small by lia. done. Qed.
Lemma realval_int i : _realval (sq_int i) = sq_int i.
Proof using Type. done. Qed.

Lemma literals_loop_entries fuel : ∀ t i ls, Z.of_nat (length (_nodes t)) < 2 ^ 31 → (i ≤ length (_nodes t))%nat → (length (_nodes t) < fuel + i)%nat →
  Forall (numbered (length ls)) (entries (drop i (_nodes t))) →
  literals_loop fuel t (sq_int (Z.of_nat i)) ls = Ok (foldl put_entry ls (entries (drop i (_nodes t)))).
Proof using Type.
  induction fuel as [|fuel IH]; intros t i ls Hlen Hi Hf Hn; [lia|]. cbn [literals_loop]. rewrite Next_int by lia. cbn [mbind res_bind].
  pose proof (next_loop_entries (_nodes t) i) as He. destruct (next_loop (drop i (_nodes t)) (Z.of_nat i)) as [[c nd]|]; [|by rewrite He].
  destruct He as (j & -> & ? & ? & He). rewrite He in *. apply Forall_cons in Hn as [(k & Ek & Hk & Hk') Hn]. cbn in Ek. rewrite Ek, realval_int. unfold put_z. rewrite sq_int_value by lia.
  rewrite (proj2 (Z.ltb_ge _ 0)), Nat2Z.id, decide_True by lia. cbn [mbind res_bind foldl].
  assert (put_entry ls (nkey nd, sq_int (Z.of_nat k)) = <[k := nkey nd]> ls) as -> by (unfold put_entry; cbn [fst snd]; by rewrite sq_int_value, Nat2Z.id by lia).
  apply IH; [done|lia|lia|]. by rewrite length_insert.
Qed.

(** The order of the entries does not matter. *)
Lemma put_entries ls es : Z.of_nat (length ls) < 2 ^ 31 → ∀ l0, length l0 = length ls → (∀ k v, (k, v) ∈ es → ∃ i : nat, ls !! i = Some k ∧ v = sq_int (Z.of_nat i)) →
  length (foldl put_entry l0 es) = length ls ∧
  ∀ i o, ls !! i = Some o → (o, sq_int (Z.of_nat i)) ∈ es ∨ l0 !! i = Some o → foldl put_entry l0 es !! i = Some o.
Proof using Type.
  intros Hlen. induction es as [|[k v] es IH]; intros l0 Hl0 Hes; cbn [foldl].
  - split; [done|]. by intros i o _ [?%elem_of_nil|?].
  - destruct (Hes k v) as (j & Hj & ->); [by left|]. pose proof (lookup_lt_Some _ _ _ Hj). unfold put_entry at 2 4. cbn [fst snd]. rewrite sq_int_value, Nat2Z.id by lia.
    destruct (IH (<[j := k]> l0)) as [IHl IHo]; [by rewrite length_insert|intros k' v' Hin; apply Hes; by right|]. split; [done|]. intros i o Hi Hin. apply IHo; [done|].
    pose proof (lookup_lt_Some _ _ _ Hi). destruct (decide (i = j)) as [->|Hne]; [right; rewrite list_lookup_insert_eq by lia; congruence|].
    rewrite list_lookup_insert_ne by done. destruct Hin as [[[= _ E]|Hin]%elem_of_cons|]; [|by left|by right]. rewrite !u32_small in E by lia. lia.
Qed.
End literals.

Lemma literals_size (m : gmap SQObject SQObject) ls : (∀ o v, m !! o = Some v ↔ ∃ i : nat, ls !! i = Some o ∧ v = sq_int (Z.of_nat i)) → (size m ≤ length ls)%nat.
Proof.
  intros Hm. rewrite <- length_map_to_list, <- (length_fmap fst). apply submseteq_length, NoDup_submseteq; [apply NoDup_fst_map_to_list|]. intros o Ho.
  apply list_elem_of_fmap in Ho as ([o' v] & -> & Hin%elem_of_map_to_list). destruct (proj1 (Hm o' v) Hin) as (i & Hi & _). by eapply list_elem_of_lookup_2.
Qed.
Lemma build_literals_are st sm ls f : literals_are st sm ls (_literals f) → _nliterals f = Z.of_nat (length ls) → Z.of_nat (length ls) < 2 ^ 29 → @build_literals (heap_of st) f = Ok ls.
Proof.
  intros (m & Hm & Hls & _ & Hn) En Hlen. pose proof (literals_size m ls Hls) as Hsz. pose proof (@mo_len (heap_of st) _ _ Hm) as Hl. pose proof (@entries_models (heap_of st) _ _ Hm) as Hp.
  assert (∀ k v, (k, v) ∈ entries (_nodes (_literals f)) ↔ ∃ i : nat, ls !! i = Some k ∧ v = sq_int (Z.of_nat i)) as He by (intros k v; rewrite Hp, elem_of_map_to_list; apply Hls).
  unfold build_literals. rewrite En, Nat2Z.id. set (l0 := replicate _ _). assert (length l0 = length ls) as Hl0 by apply length_replicate.
  change (literals_loop _ _ sq_null l0) with (@literals_loop (heap_of st) (S (length (_nodes (_literals f)))) (_literals f) (sq_int (Z.of_nat 0)) l0).
  rewrite literals_loop_entries; [|lia|lia|lia|]; rewrite drop_0.
  - destruct (put_entries ls (entries (_nodes (_literals f))) ltac:(lia) l0 Hl0) as [Hfl Hfo]; [intros k v; apply He|]. f_equal. apply list_eq_same_length with (length ls); [done|done|].
    intros i x y Hi Hx Hy. assert (foldl put_entry l0 (entries (_nodes (_literals f))) !! i = Some y) as Hx' by (apply (Hfo i y Hy); left; apply He; by exists i). congruence.
  - apply Forall_forall. intros [k v] Hin. destruct (proj1 (He k v) Hin) as (i & Hi & ->). pose proof (lookup_lt_Some _ _ _ Hi). exists i. split; [done|]. lia.
Qed.

(** ** The function *)

Lemma proto_created ni nl np nli nlv : 0 ≤ ni < 2 ^ 27 → 0 ≤ nl < 2 ^ 26 → 0 ≤ np < 2 ^ 10 → 0 ≤ nli < 2 ^ 26 → 0 ≤ nlv < 2 ^ 26 → ∃ l, SqProto.Create ni nl np 0 0 nli nlv 0 = Ok l.
Proof.
  intros H1 H2 H3 H4 H5. unfold SqProto.Create, _FUNC_SIZE, SqProto.fits. assert (PROTO_SIZE = 120 ∧ PROTO_FIELDS = 112) as [-> ->] by done.
  repeat match goal with |- context [u32 ?x] => lazymatch x with context [u32 _] => fail | _ => rewrite (u32_small x) by lia end end.
  destruct (_ && _) eqn:E; [by eexists|]. exfalso. apply not_true_iff_false in E. apply E. rewrite !andb_true_iff, !orb_true_iff, !Z.leb_le. lia.
Qed.

(** The parts of the function that matter for what it does *)
Definition has_code (p : SQFunctionProto) (code : list instruction) (lits : list SQObject) (st : SQStringTable) : Prop :=
  SqProto._instructions p = instruction_in <$> code ∧ SqProto._literals p = @object_of (heap_of st) <$> lits.

Lemma runs_BuildProto asd c w : shows [] (asd := asd) c w → @a_functions asd = [] → @a_defaultparams asd = [] → (length (@a_parameters asd) ≤ 2)%nat →
  Z.of_nat (length (w_code w)) < 2 ^ 27 → Z.of_nat (length (w_lits w)) < 2 ^ 26 → Z.of_nat (recorded asd) < 2 ^ 26 →
  runs (c ← gets (λ c, c); lift (@BuildProto (heap_of (_strtable c)) (_fs c))) c (λ p c', c' = c ∧ has_code p (w_code w) (w_lits w) (_strtable c)).
Proof.
  intros Hs Ef Ed Hp Hc Hl Hr. apply runs_bind, runs_gets. rewrite <- (sh_aside _ _ _ Hs) in Ef, Ed, Hp, Hr. unfold recorded in Hr. cbn in Ef, Ed, Hp, Hr.
  assert (@build_literals (heap_of (_strtable c)) (_fs c) = Ok (w_lits w)) as Eb by (eapply build_literals_are; [apply Hs|apply Hs|lia]).
  unfold BuildProto. rewrite Ef, Ed, (sh_outers _ _ _ Hs), (sh_nlits _ _ _ Hs), (sh_code _ _ _ Hs). unfold vsize. cbn [length]. change (Z.of_nat 0) with 0.
  destruct (proto_created (Z.of_nat (length (w_code w))) (Z.of_nat (length (w_lits w))) (Z.of_nat (length (_parameters (_fs c)))) (Z.of_nat (length (_lineinfos (_fs c)))) (Z.of_nat (length (_localvarinfos (_fs c))))) as (l & ->); [lia..|].
  rewrite Eb. cbn. by split.
Qed.

(** ** Running it *)

Section running.
Context {H : Type} {RT : Runtime H}.
Abbreviation mach := (machine (H := H)).

(** The machine, with these registers and this store, ends as the statements do: with a
    result, which is null when they do not give one, or with an exception, and with
    the same store. *)
Definition ends_as (lits : list SQObject) (code : list instruction) (m : mach) (x : ending) : Prop :=
  let ends f h := ∃ fuel mm, execute (step lits) code fuel 0 m = Some (f mm) ∧ store mm = h in
  match x with
  | Falls m' => ends (Returned sq_null) (store m')
  | Gives v m' => ends (Returned v) (store m')
  | Fails m' => ends Thrown (store m')
  | Unknown | Unfinished => True
  end.

Lemma execute_strict lits code fuel : ∀ ip (m : mach) f, execute (strict_step lits) code fuel ip m = Some f → f ≠ Away → execute (step lits) code fuel ip m = Some f.
Proof using Type.
  induction fuel as [|fuel IH]; intros ip m f E Hf; [done|]. cbn [execute] in *. destruct (if ip <? 0 then None else code !! Z.to_nat ip) as [i|]; [|done].
  unfold strict_step in E. destruct (mod_fails i m); [congruence|]. destruct (step lits i m); auto.
Qed.
Lemma ends_run lits code (m : mach) f : ends_with lits code (0%nat, m) f → f ≠ Away → ∃ fuel, execute (step lits) code fuel 0 m = Some f.
Proof using Type. intros (fuel & E)%ends_execute Hf. exists fuel. by apply execute_strict. Qed.

Lemma acts_run w code ld ss n str lits fuel m : acts (H := H) n w code ss → lead ld → fits str lits w →
  ends_as lits (code ++ ld ++ [mkI _OP_RETURN 0xFF 0 0 0]) m (behave str fuel n ss m).
Proof using Type.
  intros Ha Hld Hf. set (ret := mkI _OP_RETURN 0xFF 0 0 0). set (whole := code ++ ld ++ [ret]). specialize (Ha str lits Hf [] (ld ++ [ret]) fuel m m ltac:(done)).
  change ([] ++ code ++ ld ++ [ret]) with whole in Ha. unfold ends_as. destruct (behave str fuel n ss m) as [m'|m'|v m'| |]; cbn in Ha; try done.
  - destruct Ha as (mm & Hr & [_ Hst]). assert (ends_with lits whole (length code, mm) (Returned sq_null mm)) as He.
    { assert (ends_with lits whole (length (code ++ ld), mm) (Returned sq_null mm)) as He.
      { exists (length (code ++ ld)), mm, ret. split; [done|]. split; [|done]. unfold whole. by rewrite app_assoc, lookup_app_r, Nat.sub_diag by lia. }
      destruct Hld as [->|(i & -> & Hi)]; [by rewrite app_nil_r in He|]. rewrite length_app, Nat.add_1_r in He. eapply ends_after; [|exact He]. eapply rtc_once, hop_next.
      - unfold whole. by rewrite lookup_app_r, Nat.sub_diag by lia.
      - rewrite strict_same by congruence. unfold step. by rewrite Hi. }
    destruct (ends_run lits whole m (Returned sq_null mm)) as (k & E); [by eapply ends_after|done|]. by exists k, mm.
  - destruct Ha as (mm & He & Hst). destruct (ends_run lits whole m (Thrown mm) He) as (k & E); [done|]. by exists k, mm.
  - destruct Ha as (mm & He & Hst). destruct (ends_run lits whole m (Returned v mm) He) as (k & E); [done|]. by exists k, mm.
Qed.
End running.

(** ** The beginning *)

Section beginning.
Context {KT : KeywordTable} {FR : FloatReader} {AL : Allocator}.

Definition keeps_lex {A} (m : cM A) : Prop := ∀ c a c', m c = Ok (a, c') → _lex c' = _lex c.
Lemma runs_lex {A} (m : cM A) c Q : keeps_lex m → runs m c Q → runs m c (λ a c', Q a c' ∧ _lex c' = _lex c).
Proof using Type. unfold runs. intros Hm HQ. destruct (m c) as [[a c']|] eqn:E; [|done]. split; [done|]. by eapply Hm. Qed.
Lemma keeps_fs {A} (m : fsM A) : keeps_lex (fs m).
Proof using Type. intros c a c'. unfold fs. destruct (m (_fs c)) as [[b f]|]; [|done]. by intros [= <- <-]. Qed.
Lemma keeps_create_string s len : keeps_lex (create_string s len).
Proof using Type. intros c a c'. unfold create_string. destruct (CreateString _ _ _ _) as [[[o st] f]|]; [|done]. by intros [= <- <-]. Qed.

Definition fresh_aside (ps : list SQObject) : aside := mkAside 0 0 [] [] [] [] [] ps [] [] [] (mkScope 0 0).
Definition fresh_view (sm : gmap Z (list ascii)) (p : Z) : view := mkView [] [] 0 [] true [] sm EXPR p.

Lemma new_compiler_shows ts name st sm consts tables : interns st sm → @models (heap_of st) consts ∅ → forallb spaced ts = true →
  ∃ src c sm', new_compiler (map char_code (print_all ts)) name st consts tables = Ok (src, c) ∧ look (_lex c) (print_all ts) ∧
    shows [] (asd := fresh_aside []) c (fresh_view sm' (_prevtoken (_lex c))).
Proof using Type.
  intros Hst Hco Hts. destruct (Init_look 0 _ (visible_no_zero _ (print_all_visible ts Hts))) as (l & El & Hl & _). unfold new_compiler. rewrite El.
  destruct (intern_ok st sm (name ++ [Ascii.zero]) (-1)) as (st' & a & sm' & -> & Hst' & Hsub & _); [done|lia|]. cbn [mbind res_bind].
  unfold new_funcstate. destruct (@Create_models (heap_of st') 0) as (t & Et & Hm & _ & _ & Hb); [done|]. rewrite Et. cbn [mbind res_bind]. eexists _, _, sm'. split; [done|]. split; [done|].
  split; try done; cbn.
  - apply (in_vals _ _ Hst').
  - by exists ∅.
  - exists ∅. split; [done|]. split; [|split; [by constructor|lia]]. intros o v. rewrite lookup_empty. split; [done|]. by intros (i & Hi & _).
  - eapply (models_grow st sm); try done.
  - exists [], []. split_and!; done || constructor.
  - constructor.
Qed.

(** *** The first token *)

Lemma runs_first_Lex locals asd c w ts : shows locals (asd := asd) c w → look (_lex c) (print_all ts) → forallb spaced ts = true →
  runs Lex c (λ _ c', ∃ p, shows locals (asd := asd) c' (set_ts ts p w)).
Proof using Type.
  intros [] Hl Hts. unfold runs, Lex. destruct (Lex_before _ [] ts Hl eq_refl Hts) as (k & l & -> & Hk & _). exists (_prevtoken l). by split.
Qed.

(** *** The name and the parameters *)

Definition vargv : list ascii := chars "vargv".
Definition parameters : list (list ascii) := [this; vargv].

(** A change that [shows] does not see *)
Lemma runs_unseen locals asd c w (g : SQFuncState → SQFuncState) : shows locals (asd := asd) c w →
  (∀ f, _vlocals (g f) = _vlocals f ∧ _targetstack (g f) = _targetstack f ∧ _strings (g f) = _strings f ∧ _literals (g f) = _literals f ∧ _nliterals (g f) = _nliterals f ∧
        _outervalues (g f) = _outervalues f ∧ _instructions (g f) = _instructions f ∧ _optimization (g f) = _optimization f ∧ aside_of (with_fs (g f) c) = aside_of (with_fs f c)) →
  runs (fs (modify g)) c (λ _ c', shows locals (asd := asd) c' w).
Proof using Type.
  intros Hs Hg. unfold runs. cbn. rewrite <- (set_code_same w). destruct (Hg (_fs c)) as (? & ? & ? & ? & ? & ? & E1 & E2 & Ea).
  apply (shows_code locals c w _ _ _ Hs); try done; rewrite ?E1, ?E2, ?(sh_code _ _ _ Hs), ?(sh_opt _ _ _ Hs); done.
Qed.
Lemma runs_shared_string locals asd c w s : shows locals (asd := asd) c w →
  runs (shared_string s) c (λ _ c', (∃ sm, shows locals (asd := asd) c' (set_strs sm w) ∧ w_strs w ⊆ sm) ∧ _lex c' = _lex c).
Proof using Type.
  intros Hs. unfold runs, shared_string. destruct (intern_ok (_strtable c) (w_strs w) (String.list_ascii_of_string s ++ [Ascii.zero]) (-1)) as (st & a & sm & -> & Hst & Hsub & _); [apply Hs|lia|]. cbn.
  split; [|done]. exists sm. split; [|done]. by apply shows_grow.
Qed.
Lemma runs_parameter locals ps c w s : shows locals (asd := fresh_aside ps) c w → w_temps w = 0%nat → w_targets w = [] → asked (chars s ++ [Ascii.zero]) (-1) = chars s →
  runs (name_string s) c (λ o c1, runs (fs (AddParameter o)) c1 (λ _ c', (∃ sm, shows (locals ++ [chars s]) (asd := fresh_aside (ps ++ [o])) c' (set_strs sm w)) ∧ _lex c' = _lex c)).
Proof using Type.
  intros Hs Ek Et Ha. eapply runs_mono; [apply runs_lex; [apply keeps_create_string|apply (runs_create_string locals c w _ (-1) Hs); lia]|]. intros o c1 [(sm & a & Hs1 & _ & -> & Hsm) <-]. unfold chars in Ha. rewrite Ha in Hsm.
  apply runs_lex; [apply keeps_fs|]. unfold AddParameter. apply runs_fs_bind. eapply runs_mono; [by apply (runs_PushLocalVariable locals _ c1 _ a (chars s) Hs1)|]. intros r c2 Hs2.
  exists sm. destruct Hs2. split; try done. unfold aside_of, fresh_aside in *. cbn in *. injection sh_aside as ? ? ? ? ? ? ? Ep ? ? ? ?. rewrite Ep. congruence.
Qed.

Lemma runs_begin {A} ts c sm p src (m : Z → cM A) Q : shows [] (asd := fresh_aside []) c (fresh_view sm p) → look (_lex c) (print_all ts) → forallb spaced ts = true →
  (∀ c' ps sm' p', shows parameters (asd := fresh_aside ps) c' (set_ts ts p' (fresh_view sm' p)) → length ps = 2%nat → runs (m 2) c' Q) →
  runs (main ← shared_string "main"; fs (modify (with_name main));; this ← name_string "this"; fs (AddParameter this);; vargv ← name_string "vargv"; fs (AddParameter vargv);;
        fs (modify (λ f, with_sourcename src (with_varparams true f)));; stacksize ← fs GetStackSize; Lex;; m stacksize) c Q.
Proof using Type.
  intros Hs Hl Hts Hm. apply runs_bind. eapply runs_mono; [apply (runs_shared_string _ _ _ _ _ Hs)|]. intros o c1 [(sm1 & Hs1 & _) E1].
  apply runs_bind. eapply runs_mono; [apply runs_lex; [apply keeps_fs|by apply (runs_unseen _ _ _ _ _ Hs1)]|]. intros [] c2 [Hs2 E2].
  apply runs_bind. eapply runs_mono; [by apply (runs_parameter [] [] c2 _ "this" Hs2)|]. intros o1 c3 H3. apply runs_bind. eapply runs_mono; [exact H3|]. intros [] c4 [(sm4 & Hs4) E4].
  apply runs_bind. eapply runs_mono; [by apply (runs_parameter _ _ c4 _ "vargv" Hs4)|]. intros o2 c5 H5. apply runs_bind. eapply runs_mono; [exact H5|]. intros [] c6 [(sm6 & Hs6) E6].
  apply runs_bind. eapply runs_mono; [apply runs_lex; [apply keeps_fs|by apply (runs_unseen _ _ _ _ _ Hs6)]|]. intros [] c7 [Hs7 E7].
  apply runs_bind. eapply runs_mono; [apply runs_lex; [apply keeps_fs|by apply (runs_GetStackSize _ _ c7 _ Hs7)]|]. intros r c8 [[-> Hs8] E8].
  apply runs_bind. eapply runs_mono; [apply (runs_first_Lex _ _ c8 _ ts Hs8); [congruence|done]|]. intros [] c9 (q & Hs9). by eapply (Hm c9 _ sm6 q Hs9).
Qed.
End beginning.

(** ** The end *)

Section ending.
Context {KT : KeywordTable} {FR : FloatReader} {AL : Allocator} {H : Type} {RT : Runtime H}.
Context (_sourcename : SQObject) (_lineinfo : bool).
Abbreviation the_return := (mkI _OP_RETURN 0xFF 0 0 0).

(** The function is made of the instructions of the statements. *)
Definition finished (ss : list stmt) (p : SQFunctionProto) (c : SQCompiler) : Prop :=
  ∃ w code ld, has_code p (code ++ ld ++ [the_return]) (w_lits w) (_strtable c) ∧ lead ld ∧ acts (H := H) 2 w code ss ∧ interns (_strtable c) (w_strs w).

Lemma runs_last_return locals asd c w : shows locals (asd := asd) c w → (w_opt w = true → sealed (w_code w)) →
  runs (emit _OP_RETURN 0xFF 0 0 0) c (λ _ c', ∃ opt, shows locals (asd := asd) c' (set_code (w_code w ++ [the_return]) opt w)).
Proof using RT.
  intros Hs Hsl. eapply runs_mono; [by apply (runs_emit locals c w _OP_RETURN 0xFF 0 0 0 Hs)|]. intros [] c' (code & opt & Hs' & Ha). exists opt.
  by rewrite <- (added_return (H := H) locals (w_code w) 0 w (λ _ m, Goes m) the_return code opt (emitted_start locals _ _ _ eq_refl Hsl) eq_refl Ha).
Qed.

Lemma runs_finish ts xs ss ps asd c w0 w : shows (parameters ++ xs) (asd := asd) c w → read_stmts (H := H) parameters xs ss [] [] (fresh_aside ps) asd w0 w →
  length ps = 2%nat → w_ts w0 = ts → w_code w0 = [] → w_lits w0 = [] → Z.of_nat (length ts) < 2 ^ 24 →
  runs (fs (SetStackSize 2);; l ← gets _lex; fs (AddLineInfos false (_currentline l) _lineinfo true);; emit _OP_RETURN 0xFF 0 0 0;; fs (SetStackSize 0);;
        c ← gets (λ c, c); lift (@BuildProto (heap_of (_strtable c)) (_fs c))) c (finished ss).
Proof using RT.
  intros Hs [Ets Ek Et [_ _ Gc Gi] Hsame Hrec (code & Ec & Ha) Hend] Hps E0 E1 E2 Hlen. rewrite Ets, E0, E1, E2 in *. cbn [length app] in *.
  apply runs_bind. eapply runs_mono; [by apply (runs_SetStackSize parameters asd c w xs Hs)|]. intros [] c1 (lvs & Hs1 & Hl1).
  apply runs_bind, runs_gets, runs_bind. eapply runs_mono; [apply (runs_end_line _lineinfo _ _ c1 w _ Hs1); by destruct Hend as [?|[? _]]; [left|right]|].
  intros [] c2 (asd2 & ld & opt & Hs2 & Hld & Hsl & Hsame2 & Hrec2). apply runs_bind. eapply runs_mono; [by apply (runs_last_return _ _ c2 _ Hs2)|]. intros [] c3 (opt3 & Hs3).
  apply runs_bind. eapply runs_mono; [by apply (runs_SetStackSize [] asd2 c3 _ parameters Hs3)|]. intros [] c4 (lvs4 & Hs4 & Hl4). cbn in Hl4.
  assert (length (ld ++ [the_return]) ≤ 2)%nat as Hld2 by (rewrite length_app; destruct Hld as [->|(i & -> & _)]; cbn; lia).
  assert (asd2 = set_lines (@a_lineinfos asd2) (set_vars (@a_localvarinfos asd2) (fresh_aside ps))) as Ea2 by (rewrite Hsame2, Hsame; done).
  eapply runs_mono; [apply (runs_BuildProto _ c4 _ Hs4); try (rewrite Ea2; done)|].
  - cbn. rewrite Ea2. cbn. lia.
  - cbn. rewrite <- app_assoc, length_app. lia.
  - cbn. lia.
  - unfold recorded in *. cbn in *. lia.
  - intros p c5 [-> Hp]. exists w, code, ld. cbn in Hp. rewrite Ec, <- app_assoc in Hp. split; [exact Hp|]. split; [done|]. split; [exact Ha|]. apply (sh_interns _ _ _ Hs4).
Qed.
End ending.

(** ** From the text to what it does *)

(** The object of a string that the table has *)
Definition shared_object (st : SQStringTable) (s : list ascii) : SQObject :=
  match list_find (λ x, x.2 = s) (map_to_list (str_val <$> str_heap st)) with Some (_, (a, _)) => string_key a | None => sq_null end.
Lemma shared_object_of st sm a s : interns st sm → sm !! a = Some s → shared_object st s = string_key a.
Proof.
  intros Hi Ha. unfold shared_object. rewrite (in_vals _ _ Hi). destruct (list_find _ (map_to_list sm)) as [[i [b x]]|] eqn:E.
  - apply list_find_Some in E as (Hb & Ex & _). apply list_elem_of_lookup_2, elem_of_map_to_list in Hb. cbn in Ex. subst x. by rewrite (in_inj _ _ Hi a b s).
  - apply list_find_None in E. rewrite Forall_forall in E. by destruct (E (a, s)); [apply elem_of_map_to_list|].
Qed.


(** A program: [local x = 1; while (x < 4) { x = x + 1; } if (x == 4) { return x + 38; } else { x = 0; }] *)
Section sample.
Abbreviation sp := [" "%char].
Abbreviation tok_x := (SName (chars "x"), sp).
Abbreviation num n := (SInteger n, sp).
Abbreviation locals_x := (parameters ++ [chars "x"]).
Abbreviation plus n := ([tok_x] ++ (SOperator (op_text Add), sp) :: [num n]).
Abbreviation x_plus n := (EBin Add (EVar 2) (EInt n)).

Definition sample_program : list stmt :=
  [Local (EInt 1); While (EBin Lt (EVar 2) (EInt 4)) [Assign 2 (x_plus 1)]; If (EBin Eq (EVar 2) (EInt 4)) [Return (x_plus 38)] [Assign 2 (EInt 0)]].
Definition sample_text : list tok :=
  ((keyword "local", sp) :: tok_x :: (op "=", sp) :: [num 1] ++ [(op ";", sp)]) ++
  ((keyword "while", sp) :: parens sp ([tok_x] ++ (SOperator (op_text Lt), sp) :: [num 4]) sp ++
     block sp ((tok_x :: (op "=", sp) :: plus 1 ++ [(op ";", sp)]) ++ []) sp) ++
  ((keyword "if", sp) :: parens sp ([tok_x] ++ (SOperator (op_text Eq), sp) :: [num 4]) sp ++
     block sp (((keyword "return", sp) :: plus 38 ++ [(op ";", sp)]) ++ []) sp ++ (keyword "else", sp) ::
     block sp ((tok_x :: (op "=", sp) :: [num 0] ++ [(op ";", sp)]) ++ []) sp) ++ [].

Lemma spells_up locals d : ∀ l p e ts, (l + d ≤ 13)%nat → spells locals (l + d) p e ts → ∃ p', spells locals l p' e ts.
Proof using Type.
  induction d as [|d IH]; intros l p e ts Hd Hs; [rewrite Nat.add_0_r in Hs; by exists p|].
  replace (l + S d)%nat with (S l + d)%nat in Hs by lia. apply IH in Hs as [p' Hs]; [|lia]. eexists. apply S_up; [lia|exact Hs].
Qed.
Lemma spells_number locals l n : (l ≤ 13)%nat → Z.of_nat n < 2 ^ 31 → ∃ p, spells locals l p (EInt n) [num n].
Proof using Type.
  intros Hl Hn. apply (spells_up locals (13 - l) l true); [lia|]. replace (l + (13 - l))%nat with 13%nat by lia. constructor. unfold number_of. by rewrite (proj2 (Z.ltb_lt _ _)).
Qed.
Lemma spells_x_op o n : Z.of_nat n < 2 ^ 31 → ∃ p, spells locals_x 0 p (EBin o (EVar 2) (EInt n)) ([tok_x] ++ (SOperator (op_text o), sp) :: [num n]).
Proof using Type.
  intros Hn. assert (3 ≤ op_level o ≤ 10)%nat as Hl by (destruct o; cbn; lia). destruct (spells_up locals_x (13 - op_level o) (op_level o) true (EVar 2) [tok_x]) as [p1 H1]; [lia| |].
  { replace (op_level o + (13 - op_level o))%nat with 13%nat by lia. apply S_local; [by left|done]. }
  destruct (spells_number locals_x (S (op_level o)) n) as [p2 H2]; [lia|done|]. eapply (spells_up locals_x (op_level o) 0); [lia|]. by apply (S_binary locals_x o p1 p2).
Qed.
Lemma sample_spelled : spells_stmts parameters sample_program sample_text.
Proof using Type.
  destruct (spells_number parameters 0 1) as [p1 H1]; [lia..|]. destruct (spells_number locals_x 0 0) as [p2 H2]; [lia..|].
  destruct (spells_x_op Lt 4) as [p3 H3]; [lia|]. destruct (spells_x_op Eq 4) as [p4 H4]; [lia|]. destruct (spells_x_op Add 1) as [p5 H5]; [lia|]. destruct (spells_x_op Add 38) as [p6 H6]; [lia|].
  unfold sample_program, sample_text. eapply P_cons; [eapply (P_local parameters (chars "x")); [done|exact H1|done|cbn; lia]|]. eapply P_cons; [eapply P_while; [exact H3|done|]|eapply P_cons; [eapply P_if_else; [exact H4|done|..]|apply P_nil]];
    (eapply P_cons; [|apply P_nil]).
  - by eapply (P_assign locals_x (chars "x")); [..|exact H5|].
  - by eapply P_return; [exact H6|..].
  - by eapply (P_assign locals_x (chars "x")); [..|exact H2|].
Qed.
End sample.

(** A machine without objects other than integers *)
Definition integer_machine : Runtime () := {|
  raise_error _ _ := ();
  get_ _ _ _ _ := (None, ()); call_ _ _ _ := (None, ()); leftover _ _ := sq_null; obj_cmp a b _ := (Some (Z.sgn (_integer a - _integer b)), ()); string_cat _ _ _ := (None, ());
  arith_meta _ _ _ _ := (None, ()); neg_meta _ _ := (None, ()); type_of _ _ := (None, ())
|}.
Lemma sample_gives str : ∃ m, @behave () integer_machine str 20 2 sample_program (mkM (λ _, sq_null) ()) = Gives (sq_int 42) m.
Proof.
  assert (match @behave () integer_machine str 20 2 sample_program (mkM (λ _, sq_null) ()) with Gives v _ => v = sq_int 42 | _ => False end) as Hv by (vm_compute; reflexivity).
  destruct (behave _ _ _ _ _); try done. subst. by eexists.
Qed.
