(* ===== verification/AcornsProcess.v ===== *)
(** * Programs, their table and the thread pool (acorns.cpp, acorns.h)

    A loaded program is a heap structure with a reference count.  It is pointed
    to by a slot of the program table, by the requests waiting in the queue and
    by the pool threads working on a request.  API callers and pool threads
    take turns under one lock; what a thread does between taking and giving up
    the lock is one atomic step, and the places where the code gives it up in
    the middle of an operation (the busy-wait loops and the running script) are
    separate states of the thread.

    Modelled is the FreeRTOS build with separate interpreters
    ([sharedMode == false]).  The interpreter is an argument: whether a text
    compiles is the function [compiles], whether a script ends with an error is
    part of the event that ends it.  The print and error callbacks of a program
    and the random numbers drawn along the way are left out. *)

From Stdlib Require Import Ascii.
From stdpp Require Import base numbers gmap strings option list.
From S2P Require Import Prelude.

(** ** Memory blocks *)

(** A [malloc]ed array of characters; [None] is a byte that was never
    written. *)
Definition block : Type := list (option ascii).

(** The first [n] bytes. *)
Fixpoint read_bytes (n : nat) (l : block) : res (list ascii) :=
  match n, l with
  | O, _ => Ok []
  | S n', Some c :: l' => s ← read_bytes n' l'; Ok (c :: s)
  | S _, _ => Err OutOfBounds
  end.

(** The bytes before the first NUL. *)
Fixpoint read_cstr (l : block) : res (list ascii) :=
  match l with
  | Some c :: l' => if bool_decide (c = Ascii.zero) then Ok [] else s ← read_cstr l'; Ok (c :: s)
  | _ => Err OutOfBounds
  end.

(** A C string of the caller. *)
Definition text_block (s : list ascii) : block := Some <$> (s ++ [Ascii.zero]).

(** [memcpy] to the block from byte [pos] on. *)
Definition write_bytes (l : block) (pos : Z) (data : list ascii) : res block :=
  if ((0 <=? pos) && (pos + Z.of_nat (length data) <=? Z.of_nat (length l)))%Z then
    let n := Z.to_nat pos in
    Ok (take n l ++ (Some <$> data) ++ drop (n + length data) l)
  else Err OutOfBounds.

(** [realloc] *)
Definition realloc (l : block) (size : Z) : block :=
  let n := Z.to_nat size in take n l ++ replicate (n - length l) None.

(** ** Data *)

Definition PROG_HASH_LEN : nat := 24.
Definition ACORNS_MAXPROGRAMS : nat := 8.
Definition ACORNS_THREADS : nat := 4.
Definition QUEUE_LEN : nat := 25.

Record loadedProgram := mkProg {
  programID : list ascii;         (* 24 bytes *)
  hash : list ascii;              (* PROG_HASH_LEN bytes *)
  workingDir : option (list ascii);
  inputBuffer : option Z;
  inputBufferLen : Z;
  busy : Z;
  vm : bool;                      (* vm != 0 *)
  parent : option Z;
  refcount : Z
}.

Definition set_input (b : option Z) (n : Z) (x : loadedProgram) : loadedProgram :=
  mkProg (programID x) (hash x) (workingDir x) b n (busy x) (vm x) (parent x) (refcount x).
Definition set_busy (n : Z) (x : loadedProgram) : loadedProgram :=
  mkProg (programID x) (hash x) (workingDir x) (inputBuffer x) (inputBufferLen x) n (vm x) (parent x) (refcount x).
Definition set_refcount (n : Z) (x : loadedProgram) : loadedProgram :=
  mkProg (programID x) (hash x) (workingDir x) (inputBuffer x) (inputBufferLen x) (busy x) (vm x) (parent x) n.
(** What [_closeProgram] leaves of a program. *)
Definition set_closed (x : loadedProgram) : loadedProgram :=
  mkProg (programID x) (hash x) None None (inputBufferLen x) (busy x) false (parent x) (refcount x).

(** The functions the code puts into requests, with the argument. *)
Inductive action := RunLoaded (d : bool) | RunInputBuffer.

Record Request := mkRequest { program : Z; rq_f : action }.

(** A [loadedProgram **]. *)
Inductive slot := Root | Entry (i : nat).

(** Where the text of a program is: with the caller, or in an input buffer. *)
Inductive source := Text (code : list ascii) | Buffer (b : Z).

(** The locals of [_loadProgram] that live across its waits. *)
Record load_args := mkLoad {
  l_code : source;
  l_id : list ascii;
  l_sync : bool;
  l_wd : option (list ascii);
  l_free : option Z               (* inputBufToFree *)
}.

(** A pool thread: waiting for a request, holding one before its first and
    between later tests of [busy], running the script, running a script that
    waits in [forceClose], closing its failed program. *)
Inductive task :=
  | TIdle
  | TGot (r : Request)
  | TWait (r : Request)
  | TRun (r : Request)
  | TClose (r : Request) (s : slot)
  | TFail (r : Request) (s : slot).

#[export] Instance action_eq_dec : EqDecision action.
Proof. solve_decision. Defined.
#[export] Instance Request_eq_dec : EqDecision Request.
Proof. solve_decision. Defined.
#[export] Instance slot_eq_dec : EqDecision slot.
Proof. solve_decision. Defined.
#[export] Instance task_eq_dec : EqDecision task.
Proof. solve_decision. Defined.

(** An API caller: outside, in the wait of [_loadProgram], in the wait of
    [_closeProgram] (to go on loading afterwards, or not), running the script of
    [runProgram], running one that waits in [forceClose], closing its failed
    program. *)
Inductive host :=
  | HIdle
  | HLoad (a : load_args) (old : Z)
  | HClosing (s : slot) (a : option load_args)
  | HRun (i : nat) (p : Z)
  | HClose (i : nat) (p : Z) (s : slot)
  | HFail (i : nat) (p : Z) (s : slot).

Record world := mkWorld {
  progs : gmap Z loadedProgram;
  bufs : gmap Z block;
  rootInterpreter : option Z;
  loadedPrograms : list (option Z);
  request_queue : list Request;
  tasks : list task;
  hosts : list host
}.

Definition with_progs (m : gmap Z loadedProgram) (w : world) : world :=
  mkWorld m (bufs w) (rootInterpreter w) (loadedPrograms w) (request_queue w) (tasks w) (hosts w).
Definition with_bufs (m : gmap Z block) (w : world) : world :=
  mkWorld (progs w) m (rootInterpreter w) (loadedPrograms w) (request_queue w) (tasks w) (hosts w).
Definition with_root (r : option Z) (w : world) : world :=
  mkWorld (progs w) (bufs w) r (loadedPrograms w) (request_queue w) (tasks w) (hosts w).
Definition with_table (t : list (option Z)) (w : world) : world :=
  mkWorld (progs w) (bufs w) (rootInterpreter w) t (request_queue w) (tasks w) (hosts w).
Definition with_queue (q : list Request) (w : world) : world :=
  mkWorld (progs w) (bufs w) (rootInterpreter w) (loadedPrograms w) q (tasks w) (hosts w).
Definition with_tasks (ts : list task) (w : world) : world :=
  mkWorld (progs w) (bufs w) (rootInterpreter w) (loadedPrograms w) (request_queue w) ts (hosts w).
Definition with_hosts (hs : list host) (w : world) : world :=
  mkWorld (progs w) (bufs w) (rootInterpreter w) (loadedPrograms w) (request_queue w) (tasks w) hs.

Definition procM : Type → Type := stM world.

(** What the model takes from outside: the compiler's verdict on a text and
    the bytes a fresh structure happens to hold. *)
Class Machine := {
  compiles : list ascii → bool;
  stale : Z → list ascii;
  stale_length p : length (stale p) = 24
}.

Section operations.
Context `{Allocator} `{Machine}.

(** ** Accesses *)

Definition deref (p : Z) : procM loadedProgram := λ w,
  match progs w !! p with Some x => Ok (x, w) | None => Err UseAfterFree end.
Definition update (p : Z) (f : loadedProgram → loadedProgram) : procM () :=
  x ← deref p; modify (λ w, with_progs (<[p := f x]> (progs w)) w).

Definition buffer (b : Z) : procM block := λ w,
  match bufs w !! b with Some l => Ok (l, w) | None => Err UseAfterFree end.
Definition set_buffer (b : Z) (l : block) : procM () := modify (λ w, with_bufs (<[b := l]> (bufs w)) w).

(** [free], which ignores a null pointer. *)
Definition free_buffer (b : option Z) : procM () :=
  match b with
  | None => mret ()
  | Some b => _ ← buffer b; modify (λ w, with_bufs (delete b (bufs w)) w)
  end.

Definition new_address : procM Z := gets (λ w : world, malloc (dom (progs w) ∪ dom (bufs w))).

(** [*s], [*s = v] *)
Definition get_slot (s : slot) : procM (option Z) :=
  match s with
  | Root => gets rootInterpreter
  | Entry i => λ w, match loadedPrograms w !! i with Some v => Ok (v, w) | None => Err OutOfBounds end
  end.
Definition set_slot (s : slot) (v : option Z) : procM () :=
  match s with
  | Root => modify (with_root v)
  | Entry i => modify (λ w, with_table (<[i := v]> (loadedPrograms w)) w)
  end.

(** A pointer the code uses without a test. *)
Definition nonnull {A} (o : option A) : procM A := lift (expect AssertFail o).
Definition need_vm (x : loadedProgram) : procM () := if vm x then mret () else raise AssertFail.

(** ** Busy flags *)

(** The loops of [_setbusy] and [_setfree] up the parents; a chain is a program
    and the root. *)
Fixpoint busy_loop (fuel : nat) (d : Z) (p : option Z) : procM () :=
  match p with
  | None => mret ()
  | Some p =>
      match fuel with
      | O => raise OutOfFuel
      | S fuel' =>
          x ← deref p;
          _ ← update p (set_busy (u8 (busy x + d)));
          busy_loop fuel' d (parent x)
      end
  end.
Definition _setbusy (p : option Z) : procM () := busy_loop 2 1 p.
Definition _setfree (p : option Z) : procM () := busy_loop 2 (-1) p.

(** ** Finding programs *)

(** The name as [strcmp] sees it: the array is followed by the hash. *)
Definition name_of (x : loadedProgram) : list ascii := c_str (programID x ++ hash x).

Fixpoint find_entry (id : list ascii) (i : nat) (ps : list (option Z)) : procM (option nat) :=
  match ps with
  | [] => mret None
  | None :: ps' => find_entry id (S i) ps'
  | Some p :: ps' =>
      x ← deref p;
      if bool_decide (name_of x = c_str id) then mret (Some i) else find_entry id (S i) ps'
  end.

(** [_programSlotForId] *)
Definition _programSlotForId (id : option (list ascii)) : procM (option slot) :=
  match id with
  | None => r ← gets rootInterpreter; mret (match (r : option Z) with Some _ => Some Root | None => None end)
  | Some id => t ← gets loadedPrograms; i ← find_entry id 0 t; mret (Entry <$> i)
  end.

(** [_programForId] *)
Definition _programForId (id : option (list ascii)) : procM (option Z) :=
  match id with
  | None => gets rootInterpreter
  | Some id =>
      t ← gets loadedPrograms;
      i ← find_entry id 0 t;
      match (i : option nat) with None => mret None | Some i => get_slot (Entry i) end
  end.

(** [isRunning] *)
Definition isRunning (id : option (list ascii)) (h : option (list ascii)) : procM bool :=
  p ← _programForId id;
  match (p : option Z) with
  | None => mret false
  | Some p =>
      x ← deref p;
      match h with
      | None => mret true
      | Some h => b ← lift (read_bytes PROG_HASH_LEN (text_block h)); mret (bool_decide (hash x = b))
      end
  end.

(** ** Reference counts *)

(** [deref_prog] *)
Definition deref_prog (p : Z) : procM () :=
  _ ← update p (λ x, set_refcount (u8 (refcount x - 1)) x);
  x ← deref p;
  if (refcount x =? 0)%Z then
    _ ← free_buffer (inputBuffer x);
    modify (λ w, with_progs (delete p (progs w)) w)
  else mret ().

(** [_makeRequest]; a full queue blocks the caller. *)
Definition _makeRequest (p : Z) (f : action) : procM () :=
  _ ← update p (λ x, set_refcount (u8 (refcount x + 1)) x);
  q ← gets request_queue;
  if decide (length (q : list Request) < QUEUE_LEN)
  then modify (with_queue (q ++ [mkRequest p f]))
  else raise (Raised "queue full").

(** [makeRequest] *)
Definition makeRequest (id : option (list ascii)) (f : action) : procM () :=
  p ← _programForId id;
  match (p : option Z) with None => mret () | Some p => _makeRequest p f end.

(** ** Input buffers *)

(** [clearInput] *)
Definition clearInput (id : option (list ascii)) : procM () :=
  p ← _programForId id;
  match (p : option Z) with
  | None => mret ()
  | Some p =>
      x ← deref p;
      match inputBuffer x with
      | None => mret ()
      | Some b => _ ← free_buffer (Some b); update p (set_input None 0)
      end
  end.

(** The block [writeToInput] writes to: a new one, or the old one resized. *)
Definition input_block (p : Z) (x : loadedProgram) (len size : Z) : procM Z :=
  match inputBuffer x with
  | None =>
      b ← new_address;
      _ ← set_buffer b (replicate (Z.to_nat (len + 2)) None);
      _ ← update p (set_input (Some b) 0);
      mret b
  | Some b =>
      l ← buffer b;
      _ ← set_buffer b (realloc l size);
      mret b
  end.

(** [writeToInput] *)
Definition writeToInput (id : option (list ascii)) (data : block) (len position : Z) : procM () :=
  p ← _programForId id;
  match (p : option Z) with
  | None => mret ()
  | Some p =>
      x ← deref p;
      len ← (if (len =? -1)%Z then s ← lift (read_cstr data); mret (Z.of_nat (length (s : list ascii))) else mret len);
      if (len <? 0)%Z then raise OutOfBounds else
      s ← lift (read_bytes (Z.to_nat len) data);
      let position := (if position =? -1 then inputBufferLen x else position)%Z in
      let needed := (len + position)%Z in
      let addlen := (if len =? 1 then 0 else 1)%Z in
      b ← input_block p x len (needed + addlen);
      l ← buffer b;
      l ← lift (write_bytes l position s);
      _ ← set_buffer b l;
      update p (set_input (Some b) needed)
  end.

(** ** Closing *)

(** [_closeProgram] after its wait. *)
Definition close_slot (s : slot) (p : Z) : procM () :=
  x ← deref p;
  _ ← free_buffer (inputBuffer x);
  _ ← update p set_closed;
  _ ← deref_prog p;
  set_slot s None.

(** One turn of its loop: [false] when it has to wait. *)
Definition close_try (s : slot) : procM bool :=
  p ← get_slot s;
  match (p : option Z) with
  | None => mret true
  | Some p =>
      x ← deref p;
      if (busy x =? 0)%Z then _ ← close_slot s p; mret true else mret false
  end.

(** [_closeProgram] up to its end, or to the wait on a slot. *)
Definition _closeProgram (id : option (list ascii)) : procM (option slot) :=
  s ← _programSlotForId id;
  match (s : option slot) with
  | None => mret None
  | Some s => done ← close_try s; mret (if (done : bool) then None else Some s)
  end.

(** [_forceclose]: the stop request goes to the interpreter. *)
Definition _forceclose (id : option (list ascii)) : procM () :=
  p ← _programForId id;
  match (p : option Z) with
  | None => mret ()
  | Some p => x ← deref p; need_vm x
  end.

(** ** Running *)

(** [runLoaded] up to the call of the script. *)
Definition runLoaded_begin (p : Z) : procM () := x ← deref p; need_vm x.

(** [runLoaded] after the script, up to its end or to the wait on a slot. *)
Definition runLoaded_end (p : Z) (d ok : bool) : procM (option slot) :=
  if negb ok && d then
    _ ← _setfree (Some p);
    x ← deref p;
    w ← _closeProgram (Some (name_of x));
    match (w : option slot) with
    | Some s => mret (Some s)
    | None => _ ← _setbusy (Some p); mret None
    end
  else
    x ← deref p; _ ← need_vm x; mret None.

(** [_runInputBuffer] up to the call of the script: whether there is one. *)
Definition runInputBuffer_begin (p : Z) : procM bool :=
  x ← deref p;
  b ← nonnull (inputBuffer x);
  l ← buffer b;
  l ← lift (write_bytes l (inputBufferLen x) [Ascii.zero]);
  _ ← set_buffer b l;
  s ← lift (read_cstr l);
  _ ← need_vm x;
  if compiles s then _ ← runLoaded_begin p; mret true else mret false.

(** ... and after it. *)
Definition runInputBuffer_end (p : Z) (ok : bool) : procM () :=
  _ ← runLoaded_end p false ok;
  x ← deref p;
  _ ← free_buffer (inputBuffer x);
  update p (set_input None 0).

(** ** Loading *)

Definition source_block (c : source) : procM block :=
  match c with Text s => mret (text_block s) | Buffer b => buffer b end.

(** The identifier as stored: names of 16 and more characters are cut without a
    terminator. *)
Definition store_id (id junk : list ascii) : list ascii :=
  if decide (length id < 16) then id ++ [Ascii.zero] ++ drop (S (length id)) junk
  else take 15 id ++ drop 15 junk.

(** The first free entry of the table. *)
Fixpoint free_entry (i : nat) (ps : list (option Z)) : option nat :=
  match ps with
  | [] => None
  | None :: _ => Some i
  | Some _ :: ps' => free_entry (S i) ps'
  end.

(** [_loadProgram] from the search of a free slot on. *)
Definition load_new (a : load_args) : procM host :=
  t ← gets loadedPrograms;
  match free_entry 0 (t : list (option Z)) with
  | None => _ ← free_buffer (l_free a); mret HIdle
  | Some i =>
      p ← new_address;
      r ← gets rootInterpreter;
      r' ← nonnull (r : option Z);
      rx ← deref r';
      _ ← need_vm rx;
      l ← source_block (l_code a);
      h ← lift (read_bytes PROG_HASH_LEN l);
      _ ← modify (λ w, with_progs
            (<[p := mkProg (store_id (l_id a) (stale p)) h (l_wd a) None 0 0 true r 1]> (progs w)) w);
      _ ← set_slot (Entry i) (Some p);
      text ← lift (read_cstr l);
      _ ← free_buffer (l_free a);
      if compiles text then
        if l_sync a then
          _ ← _setbusy (Some p);
          _ ← runLoaded_begin p;
          mret (HRun i p)
        else
          _ ← _makeRequest p (RunLoaded true);
          mret HIdle
      else
        w ← _closeProgram (Some (l_id a));
        mret (match (w : option slot) with None => HIdle | Some s => HClosing s None end)
  end.

(** ... from the call of [_closeProgram] on. *)
Definition load_close (a : load_args) : procM host :=
  w ← _closeProgram (Some (l_id a));
  match (w : option slot) with
  | None => load_new a
  | Some s => mret (HClosing s (Some a))
  end.

(** One turn of its loop on the old program. *)
Definition load_wait (a : load_args) (old : Z) : procM host :=
  x ← deref old;
  if (busy x =? 0)%Z then load_close a else mret (HLoad a old).

(** [_loadProgram], to its end or first wait. *)
Definition _loadProgram (code : option (list ascii)) (id : list ascii) (sync : bool)
    (wd : option (list ascii)) : procM host :=
  old ← _programForId (Some id);
  match (old : option Z) with
  | None =>
      match code with
      | None => mret HIdle
      | Some c => load_new (mkLoad (Text c) id sync wd None)
      end
  | Some old =>
      x ← deref old;
      match (match code with Some c => Some (Text c) | None => Buffer <$> inputBuffer x end) with
      | None => mret HIdle
      | Some src =>
          _ ← update old (set_input None (inputBufferLen x));
          l ← source_block src;
          h ← lift (read_bytes PROG_HASH_LEN l);
          if bool_decide (hash x = h) then mret HIdle
          else load_wait (mkLoad src id sync wd (inputBuffer x)) old
      end
  end.

(** ** The pool threads *)

(** [InterpreterTask] after the request's function has returned. *)
Definition task_done (p : Z) : procM task :=
  _ ← _setfree (Some p);
  _ ← deref_prog p;
  mret TIdle.

(** From the end of its wait on: mark the program busy and start. *)
Definition task_start (r : Request) : procM task :=
  _ ← _setbusy (Some (program r));
  match rq_f r with
  | RunLoaded _ => _ ← runLoaded_begin (program r); mret (TRun r)
  | RunInputBuffer =>
      run ← runInputBuffer_begin (program r);
      if (run : bool) then mret (TRun r) else task_done (program r)
  end.

(** A turn of its loop: the first test of [busy], and the later ones, which
    follow a test of [vm]. *)
Definition task_lock (t : task) : procM task :=
  match t with
  | TGot r =>
      x ← deref (program r);
      if (busy x =? 0)%Z then task_start r else mret (TWait r)
  | TWait r =>
      x ← deref (program r);
      if vm x then if (busy x =? 0)%Z then task_start r else mret (TWait r)
      else _ ← deref_prog (program r); mret TIdle
  | TClose r s => done ← close_try s; mret (if (done : bool) then TRun r else TClose r s)
  | TFail r s =>
      done ← close_try s;
      if (done : bool) then _ ← _setbusy (Some (program r)); task_done (program r)
      else mret (TFail r s)
  | _ => raise (Raised "not enabled")
  end.

(** The script has ended. *)
Definition task_end (t : task) (ok : bool) : procM task :=
  match t with
  | TRun r =>
      match rq_f r with
      | RunLoaded d =>
          w ← runLoaded_end (program r) d ok;
          match (w : option slot) with
          | None => task_done (program r)
          | Some s => mret (TFail r s)
          end
      | RunInputBuffer => _ ← runInputBuffer_end (program r) ok; task_done (program r)
      end
  | _ => raise (Raised "not enabled")
  end.

(** [sqcloseProgram], called by a script; [None] when it returned. *)
Definition sqcloseProgram (id : list ascii) : procM (option slot) :=
  if decide (31 < length id) then mret None else
  _ ← _forceclose (Some id);
  _closeProgram (Some id).

Definition task_script_close (t : task) (id : list ascii) : procM task :=
  match t with
  | TRun r => w ← sqcloseProgram id; mret (match (w : option slot) with None => TRun r | Some s => TClose r s end)
  | _ => raise (Raised "not enabled")
  end.

(** ** The API callers *)

(** [_loadProgram] after its synchronous run. *)
Definition host_done (i : nat) : procM host :=
  p ← get_slot (Entry i);
  _ ← _setfree p;
  mret HIdle.

(** A caller that waits takes its turn. *)
Definition host_lock (h : host) : procM host :=
  match h with
  | HLoad a old => load_wait a old
  | HClosing s a =>
      done ← close_try s;
      if (done : bool) then match a with Some a => load_new a | None => mret HIdle end
      else mret (HClosing s a)
  | HClose i p s => done ← close_try s; mret (if (done : bool) then HRun i p else HClose i p s)
  | HFail i p s =>
      done ← close_try s;
      if (done : bool) then _ ← _setbusy (Some p); host_done i else mret (HFail i p s)
  | _ => raise (Raised "not enabled")
  end.

Definition host_end (h : host) (ok : bool) : procM host :=
  match h with
  | HRun i p =>
      w ← runLoaded_end p true ok;
      match (w : option slot) with None => host_done i | Some s => mret (HFail i p s) end
  | _ => raise (Raised "not enabled")
  end.

Definition host_script_close (h : host) (id : list ascii) : procM host :=
  match h with
  | HRun i p => w ← sqcloseProgram id; mret (match (w : option slot) with None => HRun i p | Some s => HClose i p s end)
  | _ => raise (Raised "not enabled")
  end.

(** [closeProgram] *)
Definition closeProgram (id : list ascii) (force : bool) : procM host :=
  _ ← when force (_forceclose (Some id));
  w ← _closeProgram (Some id);
  mret (match (w : option slot) with None => HIdle | Some s => HClosing s None end).

(** ** Executions *)

(** The atomic steps.  [loadProgram], [runProgram] and [loadInputBuffer] are
    [ELoad] with and without a text. *)
Inductive event :=
  | ELoad (h : nat) (code : option (list ascii)) (id : list ascii) (sync : bool) (wd : option (list ascii))
  | EClose (h : nat) (id : list ascii) (force : bool)
  | EHost (h : nat)
  | EHostEnd (h : nat) (ok : bool)
  | EHostScript (h : nat) (id : list ascii)
  | EWrite (id : option (list ascii)) (data : block) (len position : Z)
  | EClear (id : option (list ascii))
  | ERunInput (id : option (list ascii))
  | EReceive (t : nat)
  | ETask (t : nat)
  | ETaskEnd (t : nat) (ok : bool)
  | ETaskScript (t : nat) (id : list ascii).

(** A step of API caller [h], of pool thread [t]. *)
Definition by_host (h : nat) (f : host → procM host) : procM () :=
  hs ← gets hosts;
  match (hs : list host) !! h with
  | None => raise (Raised "not enabled")
  | Some x => x' ← f x; modify (λ w, with_hosts (<[h := x']> (hosts w)) w)
  end.
Definition by_task (t : nat) (f : task → procM task) : procM () :=
  ts ← gets tasks;
  match (ts : list task) !! t with
  | None => raise (Raised "not enabled")
  | Some x => x' ← f x; modify (λ w, with_tasks (<[t := x']> (tasks w)) w)
  end.
Definition from_idle {A} (m : procM A) (h : host) : procM A :=
  match h with HIdle => m | _ => raise (Raised "not enabled") end.

(** [xQueueReceive], outside the lock. *)
Definition receive (t : task) : procM task :=
  match t with
  | TIdle =>
      q ← gets request_queue;
      match (q : list Request) with
      | [] => raise (Raised "not enabled")
      | r :: q' => _ ← modify (with_queue q'); mret (TGot r)
      end
  | _ => raise (Raised "not enabled")
  end.

Definition exec (e : event) : procM () :=
  match e with
  | ELoad h code id sync wd => by_host h (from_idle (_loadProgram code id sync wd))
  | EClose h id force => by_host h (from_idle (closeProgram id force))
  | EHost h => by_host h host_lock
  | EHostEnd h ok => by_host h (λ x, host_end x ok)
  | EHostScript h id => by_host h (λ x, host_script_close x id)
  | EWrite id data len position => writeToInput id data len position
  | EClear id => clearInput id
  | ERunInput id => makeRequest id RunInputBuffer
  | EReceive t => by_task t receive
  | ETask t => by_task t task_lock
  | ETaskEnd t ok => by_task t (λ x, task_end x ok)
  | ETaskScript t id => by_task t (λ x, task_script_close x id)
  end.

(** What [begin] sets up: the root program at address [r], whose reference
    count is the byte [malloc] left there. *)
Definition begin_root (junk : Z) : loadedProgram :=
  mkProg (stale 1) (take PROG_HASH_LEN (String.list_ascii_of_string "//RootInterpreter123456789abcde"))
    None None 0 0 true None junk.

Definition begin_world (junk : Z) (callers : nat) : world :=
  mkWorld {[1%Z := begin_root junk]} ∅ (Some 1%Z) (replicate ACORNS_MAXPROGRAMS None) []
    (replicate ACORNS_THREADS TIdle) (replicate callers HIdle).

Definition run (es : list event) (w : world) : res world :=
  fold_res (λ w e, '(_, w) ← exec e w; Ok w) es w.
End operations.
