(* ===== verification/AcornsProcessInv.v ===== *)
(** * Reference counts of loaded programs

    The invariant of the process model: every count in a program structure is
    the number of pointers to it, a structure is on the heap exactly as long as
    there is one, the busy flags count the threads that run the program, and no
    buffer has two owners.  Each operation is shown to keep it, with the
    accounting of the thread that works on it as a parameter. *)

From Stdlib Require Import Ascii.
From stdpp Require Import base numbers gmap strings option list.
From S2P Require Import Prelude AcornsProcess.

(** ** Counting *)

Section count.
Context {A : Type}.

(** How many elements point to [p], and how many point anywhere. *)
Definition cnt (f : A → option Z) (p : Z) (l : list A) : nat := length (filter (λ x, f x = Some p) l).
Definition cnt_all (f : A → option Z) (l : list A) : nat := length (filter (λ x, is_Some (f x)) l).

Definition one (o : option Z) (p : Z) : nat := if decide (o = Some p) then 1 else 0.
Definition any (o : option Z) : nat := match o with Some _ => 1 | None => 0 end.

Lemma cnt_cons f p x l : cnt f p (x :: l) = one (f x) p + cnt f p l.
Proof. unfold cnt, one. rewrite filter_cons. by case_decide. Qed.

Lemma cnt_all_cons f x l : cnt_all f (x :: l) = any (f x) + cnt_all f l.
Proof.
  unfold cnt_all, any. rewrite filter_cons. destruct (f x); case_decide as Hd; [done| |by destruct Hd|done].
  by destruct Hd.
Qed.

Lemma cnt_app f p l1 l2 : cnt f p (l1 ++ l2) = cnt f p l1 + cnt f p l2.
Proof. unfold cnt. by rewrite filter_app, length_app. Qed.

Lemma cnt_insert f p l i x y :
  l !! i = Some x → cnt f p (<[i := y]> l) + one (f x) p = cnt f p l + one (f y) p.
Proof.
  revert i. induction l as [|z l IH]; intros [|i] Hi; simplify_eq/=; rewrite !cnt_cons; [lia|].
  specialize (IH i Hi). lia.
Qed.

Lemma cnt_all_insert f l i x y :
  l !! i = Some x → cnt_all f (<[i := y]> l) + any (f x) = cnt_all f l + any (f y).
Proof.
  revert i. induction l as [|z l IH]; intros [|i] Hi; simplify_eq/=; rewrite !cnt_all_cons; [lia|].
  specialize (IH i Hi). lia.
Qed.

Lemma cnt_pos f p l : 0 < cnt f p l ↔ ∃ i x, l !! i = Some x ∧ f x = Some p.
Proof.
  induction l as [|z l IH]; [split; [by intros ?%Nat.lt_irrefl|intros (i & x & ? & _); done]|].
  rewrite cnt_cons. unfold one. case_decide as Hz.
  - split; [|lia]. intros _. by exists 0, z.
  - simpl. rewrite IH. split.
    + intros (i & x & Hi & Hx). by exists (S i), x.
    + intros ([|i] & x & Hi & Hx); simplify_eq/=. eauto.
Qed.

Lemma cnt_le_all f p l : cnt f p l ≤ cnt_all f l.
Proof.
  induction l as [|z l IH]; [done|]. rewrite cnt_cons, cnt_all_cons.
  enough (one (f z) p ≤ any (f z)) by lia.
  unfold one, any. case_decide as Hz; [rewrite Hz; done|lia].
Qed.

Lemma cnt_all_length f l : cnt_all f l ≤ length l.
Proof. unfold cnt_all. apply length_filter. Qed.

Lemma cnt_length f p l : cnt f p l ≤ length l.
Proof. unfold cnt. apply length_filter. Qed.

(** Two positions count twice. *)
Lemma cnt_unique f p l i j x y :
  cnt f p l ≤ 1 → l !! i = Some x → l !! j = Some y → f x = Some p → f y = Some p → i = j.
Proof.
  revert i j. induction l as [|z l IH]; intros i j Hc Hi Hj Hx Hy; [done|].
  rewrite cnt_cons in Hc. unfold one in Hc.
  destruct i as [|i], j as [|j]; simplify_eq/=; [done| | |].
  - rewrite decide_True in Hc by done. assert (0 < cnt f p l) by (apply cnt_pos; eauto). lia.
  - rewrite decide_True in Hc by done. assert (0 < cnt f p l) by (apply cnt_pos; eauto). lia.
  - f_equal. eapply IH; eauto. lia.
Qed.
End count.

(** ** Partial correctness up to given faults *)

Definition wp {A} (ok : fault → Prop) (m : procM A) (w : world) (Q : A → world → Prop) : Prop :=
  match m w with Ok (a, w') => Q a w' | Err e => ok e end.

(** No dangling pointer is followed, no loop bound is too small. *)
Definition no_uaf (e : fault) : Prop := e ≠ UseAfterFree ∧ e ≠ OutOfFuel.

Lemma wp_mono {A} ok (m : procM A) w (Q Q' : A → world → Prop) :
  wp ok m w Q → (∀ a w', Q a w' → Q' a w') → wp ok m w Q'.
Proof. unfold wp. destruct (m w) as [[]|]; auto. Qed.

Lemma wp_faults {A} (ok ok' : fault → Prop) (m : procM A) w (Q : A → world → Prop) :
  (∀ e, ok e → ok' e) → wp ok m w Q → wp ok' m w Q.
Proof. unfold wp. destruct (m w) as [[]|]; auto. Qed.

Lemma wp_bind {A B} ok (m : procM A) (f : A → procM B) w (Q : B → world → Prop) :
  wp ok m w (λ a w', wp ok (f a) w' Q) → wp ok (m ≫= f) w Q.
Proof. unfold wp, mbind, stM_bind. destruct (m w) as [[]|]; auto. Qed.

Lemma wp_ret {A} ok (a : A) w (Q : A → world → Prop) : Q a w → wp ok (mret a) w Q.
Proof. done. Qed.
Lemma wp_gets {A} ok (g : world → A) w (Q : A → world → Prop) : Q (g w) w → wp ok (gets g) w Q.
Proof. done. Qed.
Lemma wp_modify ok g w (Q : () → world → Prop) : Q () (g w) → wp ok (modify g) w Q.
Proof. done. Qed.
Lemma wp_raise {A} (ok : fault → Prop) e w (Q : A → world → Prop) : ok e → wp ok (raise e) w Q.
Proof. done. Qed.
Lemma wp_lift {A} (ok : fault → Prop) (r : res A) w (Q : A → world → Prop) :
  match r with Ok a => Q a w | Err e => ok e end → wp ok (lift r) w Q.
Proof. unfold wp, lift. by destruct r. Qed.

Lemma read_bytes_fault n l e : read_bytes n l = Err e → no_uaf e.
Proof.
  revert l. induction n as [|n IH]; intros [|[c|] l]; cbn [read_bytes]; intros Hr; simplify_eq; try done.
  destruct (read_bytes n l) eqn:He; simplify_eq/=. eauto.
Qed.

Lemma read_cstr_fault l e : read_cstr l = Err e → no_uaf e.
Proof.
  induction l as [|[c|] l IH]; simpl; intros Hr; simplify_eq; try done.
  case_bool_decide; [done|]. destruct (read_cstr l) eqn:He; simplify_eq/=. eauto.
Qed.

Lemma write_bytes_fault l n s e : write_bytes l n s = Err e → no_uaf e.
Proof. unfold write_bytes. case_match; intros; simplify_eq. done. Qed.

#[local] Arguments read_bytes : simpl never.
#[local] Arguments _setbusy : simpl never.

(** ** The invariant *)

(** Pointers from the table and from the queue. *)
Definition tab (w : world) (p : Z) : nat := cnt id p (loadedPrograms w).
Definition que (w : world) (p : Z) : nat := cnt (λ r, Some (program r)) p (request_queue w).

Section inv.
(** [r0] is the byte [begin] found in the root's reference count. *)
Context (r0 : nat).

(** The structure of [p], given [R p] pointers from threads, [B p] threads
    running it and [T] threads running anything. *)
Definition prog_ok (R B : Z → nat) (T : nat) (w : world) (p : Z) (x : loadedProgram) : Prop :=
  if decide (rootInterpreter w = Some p) then
    parent x = None ∧ vm x = true ∧ refcount x = Z.of_nat (r0 + R p + que w p) ∧ busy x = Z.of_nat T
  else
    parent x = rootInterpreter w ∧ refcount x = Z.of_nat (R p + que w p + tab w p) ∧
    0 < R p + que w p + tab w p ∧ busy x = Z.of_nat (B p) ∧ (vm x = true ↔ 0 < tab w p).

(** [hold] are the buffers API callers are going to free. *)
Record inv (R B : Z → nat) (T : nat) (hold : list Z) (w : world) : Prop := {
  iv_root : ∃ r, rootInterpreter w = Some r ∧ tab w r = 0;
  iv_prog p x : progs w !! p = Some x → prog_ok R B T w p x;
  iv_live p : rootInterpreter w = Some p ∨ 0 < R p + que w p + tab w p → is_Some (progs w !! p);
  iv_tab p : tab w p ≤ 1;
  iv_size : length (loadedPrograms w) = ACORNS_MAXPROGRAMS;
  iv_queue : length (request_queue w) ≤ QUEUE_LEN;
  iv_busy p : B p ≤ T;
  iv_owner p x b : progs w !! p = Some x → inputBuffer x = Some b →
    is_Some (bufs w !! b) ∧ (b ∉ hold) ∧ ∀ q y, progs w !! q = Some y → inputBuffer y = Some b → q = p;
  iv_hold : NoDup hold ∧ ∀ b, b ∈ hold → is_Some (bufs w !! b)
}.

(** Every running program is in the table. *)
Definition run_ok (B : Z → nat) (w : world) : Prop :=
  ∀ p, 0 < B p → rootInterpreter w = Some p ∨ 0 < tab w p.

(** What an operation leaves alone: the threads, the root, and the entries of
    programs that are running. *)
Record evolves (B : Z → nat) (w w' : world) : Prop := {
  ev_tasks : tasks w' = tasks w;
  ev_hosts : hosts w' = hosts w;
  ev_root : rootInterpreter w' = rootInterpreter w;
  ev_entry i p : 0 < B p → loadedPrograms w !! i = Some (Some p) → loadedPrograms w' !! i = Some (Some p)
}.

Lemma evolves_refl B w : evolves B w w.
Proof. by split. Qed.

Lemma evolves_trans B w1 w2 w3 : evolves B w1 w2 → evolves B w2 w3 → evolves B w1 w3.
Proof. intros [] []. split; [congruence..|eauto]. Qed.

Lemma tab_pos w p : 0 < tab w p ↔ ∃ i, loadedPrograms w !! i = Some (Some p).
Proof.
  unfold tab. rewrite cnt_pos. split.
  - intros (i & x & Hi & Hx). exists i. unfold id in Hx. by subst.
  - intros [i Hi]. by exists i, (Some p).
Qed.

Lemma run_ok_evolves B w w' : evolves B w w' → run_ok B w → run_ok B w'.
Proof.
  intros Hev Hr p Hp. rewrite (ev_root _ _ _ Hev). destruct (Hr p Hp) as [?|[i Hi]%tab_pos]; [by left|].
  right. apply tab_pos. exists i. by eapply ev_entry.
Qed.

Lemma inv_ext R R' B B' T hold w :
  (∀ p, R p = R' p) → (∀ p, B p = B' p) → inv R B T hold w → inv R' B' T hold w.
Proof.
  intros HR HB [? Hp Hl ? ? ? Hb Ho ?]. split; auto.
  - intros p x Hx. specialize (Hp p x Hx). unfold prog_ok in *. by rewrite <- HR, <- HB.
  - intros p. rewrite <- HR. apply Hl.
  - intros p. rewrite <- HB. apply Hb.
Qed.

Lemma iv_root_live R B T hold w r :
  inv R B T hold w → rootInterpreter w = Some r → ∃ x, progs w !! r = Some x ∧ prog_ok R B T w r x.
Proof.
  intros Hi Hr. destruct (iv_live _ _ _ _ _ Hi r (or_introl Hr)) as [x Hx]. exists x. split; [done|].
  by eapply iv_prog.
Qed.

(** ** Accesses *)

Lemma wp_deref ok p w x (Q : loadedProgram → world → Prop) :
  progs w !! p = Some x → Q x w → wp ok (deref p) w Q.
Proof. intros Hx HQ. unfold wp, deref. by rewrite Hx. Qed.

Lemma wp_update ok p f w x (Q : () → world → Prop) :
  progs w !! p = Some x → Q () (with_progs (<[p := f x]> (progs w)) w) → wp ok (update p f) w Q.
Proof. intros Hx HQ. unfold update. apply wp_bind. eapply wp_deref; [done|]. by apply wp_modify. Qed.

(** [free] of a buffer that may be null. *)
Definition free_in (o : option Z) (m : gmap Z block) : gmap Z block :=
  match o with Some b => delete b m | None => m end.
Definition freed (o : option Z) (w : world) : world := with_bufs (free_in o (bufs w)) w.

Lemma wp_free_buffer ok o w (Q : () → world → Prop) :
  (∀ b, o = Some b → is_Some (bufs w !! b)) → Q () (freed o w) → wp ok (free_buffer o) w Q.
Proof.
  intros Hl HQ. destruct o as [b|]; simpl.
  - destruct (Hl b eq_refl) as [l Hb]. unfold wp, mbind, stM_bind, buffer. by rewrite Hb.
  - apply wp_ret. by destruct w.
Qed.

Lemma free_in_Some o m b : o ≠ Some b → is_Some (m !! b) → is_Some (free_in o m !! b).
Proof. intros Hne Hb. destruct o; simpl; [|done]. rewrite lookup_delete_ne by congruence. done. Qed.

Lemma wp_find_entry ok id t j w (Q : option nat → world → Prop) :
  (∀ p, Some p ∈ t → is_Some (progs w !! p)) →
  (∀ o, (∀ i, o = Some i → ∃ k p, i = j + k ∧ t !! k = Some (Some p)) → Q o w) →
  wp ok (find_entry id j t) w Q.
Proof.
  revert j. induction t as [|[p|] t IH]; intros j Hl HQ; simpl.
  - apply wp_ret, HQ. done.
  - destruct (Hl p) as [x Hx]; [by left|]. apply wp_bind. eapply wp_deref; [done|].
    case_bool_decide.
    + apply wp_ret, HQ. intros i [= <-]. exists 0, p. split; [lia|done].
    + apply IH; [intros; apply Hl; by right|]. intros o Ho. apply HQ. intros i Hi.
      destruct (Ho i Hi) as (k & q & -> & Hk). exists (S k), q. split; [lia|done].
  - apply IH; [intros; apply Hl; by right|]. intros o Ho. apply HQ. intros i Hi.
    destruct (Ho i Hi) as (k & q & -> & Hk). exists (S k), q. split; [lia|done].
Qed.

Section ops.
Context `{Allocator} `{Machine}.
Context (R B : Z → nat) (T : nat) (hold : list Z).

Lemma inv_table_live w p : inv R B T hold w → Some p ∈ loadedPrograms w → is_Some (progs w !! p).
Proof.
  intros Hi [i Hp]%list_elem_of_lookup. eapply iv_live; [done|]. right.
  assert (0 < tab w p) by (apply tab_pos; eauto). lia.
Qed.

(** [_programForId] finds the root or a program of the table. *)
Lemma wp_programForId ok (name : option (list ascii)) w (Q : option Z → world → Prop) :
  inv R B T hold w →
  (∀ o, (∀ p, o = Some p → ∃ x, progs w !! p = Some x ∧ prog_ok R B T w p x ∧
                 match name with Some _ => 0 < tab w p | None => rootInterpreter w = Some p end) → Q o w) →
  wp ok (_programForId name) w Q.
Proof.
  intros Hi HQ. destruct name as [name|]; simpl.
  - apply wp_bind, wp_gets, wp_bind, wp_find_entry; [by intros; eapply inv_table_live|].
    intros [i|] Ho; [|apply wp_ret, HQ; done].
    destruct (Ho i eq_refl) as (k & p & -> & Hk). simpl. unfold wp. rewrite Hk. apply HQ.
    intros q [= <-]. assert (Ht : 0 < tab w p) by (apply tab_pos; eauto).
    destruct (iv_live _ _ _ _ _ Hi p) as [x Hx]; [right; lia|]. exists x. split_and!; [done| |done].
    by eapply iv_prog.
  - apply wp_gets, HQ. intros p Hp. destruct (iv_root_live _ _ _ _ _ _ Hi Hp) as (x & ? & ?). eauto.
Qed.

Lemma wp_programSlotForId ok id w (Q : option slot → world → Prop) :
  inv R B T hold w →
  (∀ o, (∀ s, o = Some s → ∃ i p, s = Entry i ∧ loadedPrograms w !! i = Some (Some p)) → Q o w) →
  wp ok (_programSlotForId (Some id)) w Q.
Proof.
  intros Hi HQ. simpl. apply wp_bind, wp_gets, wp_bind, wp_find_entry; [by intros; eapply inv_table_live|].
  intros [i|] Ho; apply wp_ret, HQ; [|done].
  intros s [= <-]. destruct (Ho i eq_refl) as (k & p & -> & Hk). eauto.
Qed.

(** ** Busy flags *)

(** Replacing structures by others with the same buffers. *)
Lemma inv_change R' B' T' w m :
  inv R B T hold w →
  (∀ q, is_Some (m !! q) ↔ is_Some (progs w !! q)) →
  (∀ q y', m !! q = Some y' → ∃ y, progs w !! q = Some y ∧ inputBuffer y' = inputBuffer y ∧ prog_ok R' B' T' w q y') →
  (∀ q, 0 < R' q → is_Some (m !! q)) → (∀ q, B' q ≤ T') →
  inv R' B' T' hold (with_progs m w).
Proof.
  intros Hi Hdom Hm HR HB. destruct Hi as [? Hp Hl ? ? ? ? Ho ?]. split; auto.
  - intros q y Hy. by destruct (Hm q y Hy) as (? & _ & _ & ?).
  - intros q Hq. destruct (decide (0 < R' q)); [auto|]. apply Hdom, Hl. simpl in Hq.
    destruct Hq as [?|Hq]; [by left|]. right. change (0 < R' q + que w q + tab w q) in Hq. lia.
  - intros q y b Hy Hb. destruct (Hm q y Hy) as (z & Hz & Heq & _). rewrite Heq in Hb.
    destruct (Ho q z b Hz Hb) as (? & ? & Hu). split_and!; [done..|].
    intros q' y' Hy' Hb'. destruct (Hm q' y' Hy') as (z' & Hz' & Heq' & _). rewrite Heq' in Hb'. eauto.
Qed.

(** The structures after one more, or one less, thread runs [p]. *)
Definition busied (p : Z) (d : Z) (w : world) (q : Z) (y : loadedProgram) : loadedProgram :=
  if decide (rootInterpreter w = Some q ∨ p = q) then set_busy (u8 (busy y + d)) y else y.

Lemma busied_ok p d B' T' w q y :
  prog_ok R B T w q y →
  (∀ q, Z.of_nat (B' q) = Z.of_nat (B q) + if decide (p = q) then d else 0)%Z →
  (Z.of_nat T' = Z.of_nat T + d)%Z → T' < 256 → (∀ q, B' q ≤ T') →
  prog_ok R B' T' w q (busied p d w q y).
Proof.
  intros Hy HB HT Ht Hle. unfold prog_ok, busied in *. specialize (HB q). specialize (Hle q).
  destruct (decide (rootInterpreter w = Some q)) as [Hr|Hr].
  - rewrite decide_True by auto. destruct Hy as (? & ? & ? & Hb). simpl. split_and!; [done..|].
    rewrite Hb, <- HT. unfold u8. apply wrap_small. lia.
  - destruct Hy as (? & ? & ? & Hb & ?). destruct (decide (p = q)) as [<-|Hne].
    + rewrite decide_True by auto. simpl. split_and!; [done..| |done]. rewrite Hb, <- HB.
      unfold u8. apply wrap_small. lia.
    + rewrite decide_False by naive_solver. split_and!; [done..| |done]. rewrite Hb. lia.
Qed.

Lemma busy_loop_eq p d w x :
  inv R B T hold w → progs w !! p = Some x →
  ∃ m, busy_loop 2 d (Some p) w = Ok ((), with_progs m w) ∧ ∀ q, m !! q = busied p d w q <$> progs w !! q.
Proof.
  intros Hi Hx. pose proof (iv_prog _ _ _ _ _ Hi p x Hx) as Hpx. unfold prog_ok in Hpx.
  cbn [busy_loop]. unfold update, deref, mbind, stM_bind. rewrite Hx. simpl. rewrite Hx.
  destruct (decide (rootInterpreter w = Some p)) as [Hr|Hr].
  - destruct Hpx as (-> & _). eexists. split; [done|]. intros q. simpl.
    destruct (decide (p = q)) as [<-|Hne].
    + rewrite lookup_insert_eq, Hx. simpl. unfold busied. by rewrite decide_True by auto.
    + rewrite lookup_insert_ne by done. destruct (progs w !! q); [|done]. simpl.
      unfold busied. by rewrite decide_False by naive_solver.
  - destruct Hpx as (Hpar & _). destruct (iv_root _ _ _ _ _ Hi) as (r & Hroot & _).
    destruct (iv_root_live _ _ _ _ _ _ Hi Hroot) as (rx & Hrx & Hok). unfold prog_ok in Hok.
    rewrite decide_True in Hok by done. destruct Hok as (Hrp & _).
    assert (Hne : p ≠ r) by congruence. rewrite Hpar, Hroot. simpl.
    rewrite !lookup_insert_ne, Hrx by done. simpl. rewrite lookup_insert_ne, Hrx by done. simpl. rewrite Hrp.
    eexists. split; [done|]. intros q. simpl. unfold busied. rewrite Hroot.
    destruct (decide (r = q)) as [<-|Hrq].
    { rewrite lookup_insert_eq, Hrx. simpl. by rewrite decide_True by auto. }
    rewrite lookup_insert_ne by done. destruct (decide (p = q)) as [<-|Hpq].
    + rewrite lookup_insert_eq, Hx. simpl. by rewrite decide_True by auto.
    + rewrite lookup_insert_ne by done. destruct (progs w !! q); [|done]. simpl.
      by rewrite decide_False by naive_solver.
Qed.

Lemma wp_busy ok p d B' T' w (Q : () → world → Prop) :
  inv R B T hold w → is_Some (progs w !! p) →
  (∀ q, Z.of_nat (B' q) = Z.of_nat (B q) + if decide (p = q) then d else 0)%Z →
  (Z.of_nat T' = Z.of_nat T + d)%Z → T' < 256 → (∀ q, B' q ≤ T') →
  (∀ m, dom m = dom (progs w) → inv R B' T' hold (with_progs m w) → Q () (with_progs m w)) →
  wp ok (busy_loop 2 d (Some p)) w Q.
Proof.
  intros Hi [x Hx] HB' HT' H256 Hle HQ. destruct (busy_loop_eq p d w x Hi Hx) as (m & Hrun & Hm).
  unfold wp. rewrite Hrun. assert (Hdom : ∀ q, is_Some (m !! q) ↔ is_Some (progs w !! q)).
  { intros q. by rewrite Hm, fmap_is_Some. }
  apply HQ; [apply set_eq; intros q; by rewrite !elem_of_dom|].
  apply inv_change; [done|done| |intros q Hq|done].
  - intros q y'. rewrite Hm, fmap_Some. intros (y & Hy & ->). exists y. split_and!; [done| |].
    + unfold busied. by case_decide.
    + eapply busied_ok; eauto using iv_prog.
  - apply Hdom. eapply iv_live; [done|]. right. lia.
Qed.

(** ** Dropping references *)

(** The world after a pointer to [p] is gone. *)
Definition drop_ref (p : Z) (x : loadedProgram) (w : world) : world :=
  let x' := set_refcount (u8 (refcount x - 1)) x in
  if (refcount x' =? 0)%Z then with_progs (delete p (progs w)) (freed (inputBuffer x) w)
  else with_progs (<[p := x']> (progs w)) w.

Lemma wp_deref_prog ok p w x (Q : () → world → Prop) :
  progs w !! p = Some x → (∀ b, inputBuffer x = Some b → is_Some (bufs w !! b)) →
  Q () (drop_ref p x w) → wp ok (deref_prog p) w Q.
Proof.
  intros Hx Hb HQ. unfold deref_prog. apply wp_bind. eapply wp_update; [done|]. apply wp_bind.
  eapply wp_deref; [simpl; apply lookup_insert_eq|]. unfold drop_ref in HQ. simpl in *.
  destruct (_ =? 0)%Z; [|by apply wp_ret].
  apply wp_bind, wp_free_buffer; [exact Hb|]. apply wp_modify. simpl. by rewrite delete_insert_eq.
Qed.

Lemma que_length w p : inv R B T hold w → que w p ≤ QUEUE_LEN.
Proof.
  intros Hi. pose proof (iv_queue _ _ _ _ _ Hi). unfold que.
  pose proof (cnt_length (λ r, Some (program r)) p (request_queue w)). lia.
Qed.

(** A structure without pointers to it can go. *)
Lemma inv_delete R' w p x :
  inv R' B T hold w → (∀ q, p ≠ q → R' q = R q) → R p + que w p + tab w p = 0 →
  rootInterpreter w ≠ Some p → progs w !! p = Some x →
  inv R B T hold (with_progs (delete p (progs w)) (freed (inputBuffer x) w)).
Proof.
  intros [Hroot Hp Hl Ht Hs Hq Hb Ho Hh] HR Hz Hr Hx. split; simpl; auto.
  - intros q y [Hne Hy]%lookup_delete_Some. specialize (Hp q y Hy). unfold prog_ok in *. by rewrite HR in Hp.
  - intros q Hlive. apply lookup_delete_is_Some. destruct (decide (p = q)) as [<-|Hne].
    + change (rootInterpreter w = Some p ∨ 0 < R p + que w p + tab w p) in Hlive. destruct Hlive; [done|lia].
    + split; [done|]. apply Hl. by rewrite HR.
  - intros q y b [Hne Hy]%lookup_delete_Some Hby. destruct (Ho q y b Hy Hby) as (? & ? & Hu). split_and!; [|done|].
    + apply free_in_Some; [|done]. intros Hbx. by eapply Hne, Hu.
    + intros q' y' [_ Hy']%lookup_delete_Some. eauto.
  - destruct Hh as [? Hh]. split; [done|]. intros b Hbh. apply free_in_Some; [|auto].
    intros Hbx. by destruct (Ho p x b Hx Hbx) as (_ & ? & _).
Qed.

Lemma inv_count R' w p x :
  inv R' B T hold w → R' p = S (R p) → (∀ q, p ≠ q → R' q = R q) →
  rootInterpreter w = Some p ∨ 0 < R p + que w p + tab w p → progs w !! p = Some x →
  inv R B T hold (with_progs (<[p := set_refcount (refcount x - 1) x]> (progs w)) w).
Proof.
  intros Hi HRp HR Hlive Hx. pose proof Hi as [_ Hp Hl _ _ _ Hb _ _].
  assert (HR' : ∀ q, R q ≤ R' q) by (intros q; destruct (decide (p = q)) as [<-|]; [lia|by rewrite HR]).
  destruct Hi as [Hroot _ _ Ht Hs Hq _ Ho Hh]. split; simpl; auto.
  - intros q y [[<- <-]|[Hne Hy]]%lookup_insert_Some.
    + specialize (Hp p x Hx). unfold prog_ok in *. simpl. rewrite HRp in Hp.
      change (que (with_progs _ w)) with (que w). change (tab (with_progs _ w)) with (tab w).
      case_decide; destruct_and!; split_and!; try done; [lia|lia|]. destruct Hlive; [done|lia].
    + specialize (Hp q y Hy). unfold prog_ok in *. by rewrite HR in Hp.
  - intros q Hq'. apply lookup_insert_is_Some'. destruct (decide (p = q)); [by left|right]. apply Hl.
    destruct Hq' as [?|Hq']; [by left|right]. by rewrite HR.
  - intros q y b [[<- <-]|[Hne Hy]]%lookup_insert_Some Hby; simpl in Hby.
    + destruct (Ho p x b Hx Hby) as (? & ? & Hu). split_and!; [done..|].
      intros q' y' [[<- <-]|[? Hy']]%lookup_insert_Some; [done|]. eauto.
    + destruct (Ho q y b Hy Hby) as (? & ? & Hu). split_and!; [done..|].
      intros q' y' [[<- <-]|[? Hy']]%lookup_insert_Some Hby'; [|by eauto]. simpl in Hby'. eauto.
Qed.

Lemma drop_ref_inv R' p x w :
  1 ≤ r0 → (∀ q, R' q = R q + one (Some p) q) → r0 + R' p < 230 →
  inv R' B T hold w → progs w !! p = Some x → inv R B T hold (drop_ref p x w).
Proof.
  intros H1 HR Hbnd Hi Hx. pose proof (iv_prog _ _ _ _ _ Hi p x Hx) as Hok.
  assert (HRp : R' p = S (R p)) by (rewrite HR; unfold one; rewrite decide_True by done; lia).
  assert (HRq : ∀ q, p ≠ q → R' q = R q).
  { intros q Hq. rewrite HR. unfold one. rewrite decide_False by congruence. lia. }
  assert (Hrc : (u8 (refcount x - 1) = refcount x - 1)%Z).
  { unfold prog_ok in Hok. pose proof (cnt_length (λ r, Some (program r)) p (request_queue w)) as Hq.
    pose proof (iv_queue _ _ _ _ _ Hi). pose proof (iv_tab _ _ _ _ _ Hi p). unfold que, QUEUE_LEN in *.
    unfold u8. apply wrap_small. case_decide; destruct_and!; lia. }
  unfold drop_ref. simpl. rewrite Hrc. unfold prog_ok in Hok.
  destruct (Z.eqb_spec (refcount x - 1) 0) as [Hz|Hz].
  - case_decide as Hr; destruct_and!; [lia|]. eapply inv_delete; eauto. lia.
  - apply (inv_count R'); auto. case_decide as Hr; [by left|]. right. destruct_and!. lia.
Qed.

(** ** Closing *)

(** Taking a program out of the table turns the table's pointer into one of the
    thread that does it. *)
Lemma inv_detach w i p x :
  inv R B T hold w → loadedPrograms w !! i = Some (Some p) → progs w !! p = Some x →
  inv (λ q, R q + one (Some p) q) B T hold
    (with_table (<[i := None]> (loadedPrograms w)) (with_progs (<[p := set_closed x]> (progs w)) (freed (inputBuffer x) w))).
Proof.
  intros [Hroot Hp Hl Ht Hs Hq Hb Ho Hh] Hi Hx. set (w' := with_table _ _).
  assert (Htab : ∀ q, tab w' q + one (Some p) q = tab w q).
  { intros q. unfold tab. simpl. pose proof (cnt_insert id q _ i (Some p) None Hi) as Hc. unfold id in Hc at 2 4.
    unfold one in *. rewrite (decide_False (P := None = Some q)) in Hc by done. lia. }
  assert (Hque : ∀ q, que w' q = que w q) by done.
  assert (Hnr : rootInterpreter w ≠ Some p).
  { destruct Hroot as (r & -> & Hr). intros [= ->]. assert (0 < tab w p) by (apply tab_pos; eauto). lia. }
  assert (Hone : one (Some p) p = 1) by (unfold one; by rewrite decide_True).
  assert (Hone' : ∀ q, p ≠ q → one (Some p) q = 0) by (intros; unfold one; rewrite decide_False; congruence).
  split; simpl.
  - destruct Hroot as (r & Hr & Htr). exists r. split; [done|]. specialize (Htab r). lia.
  - intros q y [[<- <-]|[Hne Hy]]%lookup_insert_Some; unfold prog_ok; simpl; rewrite Hque.
    + specialize (Hp p x Hx). unfold prog_ok in Hp. specialize (Htab p). specialize (Ht p).
      case_decide; [done|]. destruct_and!. split_and!; simpl; try done; [lia|lia|]. split; [done|lia].
    + specialize (Hp q y Hy). unfold prog_ok in Hp. specialize (Htab q). rewrite Hone' in * by done.
      rewrite !Nat.add_0_r in *. by rewrite Htab.
  - intros q Hlive. apply lookup_insert_is_Some'. destruct (decide (p = q)); [by left|right]. apply Hl.
    rewrite Hque in Hlive. specialize (Htab q). rewrite Hone' in * by done. destruct Hlive; [by left|right; lia].
  - intros q. specialize (Ht q). specialize (Htab q). lia.
  - by rewrite length_insert.
  - done.
  - done.
  - intros q y b [[<- <-]|[Hne Hy]]%lookup_insert_Some Hby; [done|].
    destruct (Ho q y b Hy Hby) as (? & ? & Hu). split_and!; [|done|].
    + apply free_in_Some; [|done]. intros Hbx. eapply Hne, Hu; eauto.
    + intros q' y' [[<- <-]|[? Hy']]%lookup_insert_Some Hby'; [done|eauto].
  - destruct Hh as [? Hh]. split; [done|]. intros b Hbh. apply free_in_Some; [|auto].
    intros Hbx. by destruct (Ho p x b Hx Hbx) as (_ & ? & _).
Qed.

Lemma drop_ref_table p x w t : with_table t (drop_ref p x w) = drop_ref p x (with_table t w).
Proof. unfold drop_ref. simpl. by destruct (_ =? 0)%Z. Qed.

Lemma drop_ref_evolves B' p x w : evolves B' w (drop_ref p x w).
Proof. unfold drop_ref. by destruct (_ =? 0)%Z. Qed.

Lemma drop_ref_tab p x w q : tab (drop_ref p x w) q = tab w q.
Proof. unfold drop_ref. by destruct (_ =? 0)%Z. Qed.

Context (Hr0 : 1 ≤ r0 ≤ 200) (HR : ∀ p, R p ≤ 10).

Lemma wp_close_slot ok i p w (Q : () → world → Prop) :
  inv R B T hold w → loadedPrograms w !! i = Some (Some p) → B p = 0 →
  (∀ w', inv R B T hold w' → evolves B w w' → tab w' p = 0 → Q () w') →
  wp ok (close_slot (Entry i) p) w Q.
Proof.
  intros Hi Hp HB HQ. assert (Ht : 0 < tab w p) by (apply tab_pos; eauto).
  destruct (iv_live _ _ _ _ _ Hi p) as [x Hx]; [right; lia|].
  unfold close_slot. apply wp_bind. eapply wp_deref; [done|].
  apply wp_bind, wp_free_buffer; [intros b Hb; by destruct (iv_owner _ _ _ _ _ Hi p x b Hx Hb)|].
  apply wp_bind. eapply wp_update; [done|]. apply wp_bind.
  eapply wp_deref_prog; [simpl; apply lookup_insert_eq|done|]. simpl. apply wp_modify.
  pose proof (inv_detach w i p x Hi Hp Hx) as Hd.
  assert (Hlp : ∀ w1, loadedPrograms (drop_ref p (set_closed x) w1) = loadedPrograms w1).
  { intros w1. unfold drop_ref. by destruct (_ =? 0)%Z. }
  rewrite Hlp, drop_ref_table. simpl. set (w1 := with_table _ _).
  pose proof (iv_tab _ _ _ _ _ Hi p) as Ht1.
  apply HQ.
  - eapply drop_ref_inv; [lia|done| |exact Hd|simpl; apply lookup_insert_eq]. simpl. specialize (HR p).
    unfold one. case_decide; lia.
  - eapply evolves_trans; [|apply drop_ref_evolves]. split; [done..|]. simpl. intros j q Hq Hj.
    rewrite list_lookup_insert_ne; [done|]. intros <-. rewrite Hp in Hj. simplify_eq. lia.
  - rewrite drop_ref_tab. unfold tab in *. simpl.
    pose proof (cnt_insert id p _ i (Some p) None Hp) as Hc. unfold id in Hc at 2 4. unfold one in Hc.
    rewrite decide_True, decide_False in Hc by done. lia.
Qed.

(** A slot the code waits on; the root is never closed by name. *)
Definition entry_slot (s : slot) : Prop := match s with Entry i => i < ACORNS_MAXPROGRAMS | Root => False end.

Lemma wp_close_try s w (Q : bool → world → Prop) :
  inv R B T hold w → entry_slot s →
  (∀ b w', inv R B T hold w' → evolves B w w' → Q b w') → wp no_uaf (close_try s) w Q.
Proof.
  intros Hi Hs HQ. destruct s as [|i]; [done|]. simpl in Hs.
  unfold close_try. apply wp_bind. simpl. unfold wp at 1.
  destruct (lookup_lt_is_Some_2 (loadedPrograms w) i) as [o Ho]; [by rewrite (iv_size _ _ _ _ _ Hi)|].
  rewrite Ho. destruct o as [p|]; [|apply wp_ret; by apply HQ, evolves_refl].
  assert (Ht : 0 < tab w p) by (apply tab_pos; eauto).
  destruct (iv_live _ _ _ _ _ Hi p) as [x Hx]; [right; lia|].
  apply wp_bind. eapply wp_deref; [done|]. destruct (Z.eqb_spec (busy x) 0) as [Hb|Hb].
  - apply wp_bind. apply wp_close_slot; [done|done| |intros; apply wp_ret; eauto].
    pose proof (iv_prog _ _ _ _ _ Hi p x Hx) as Hok. unfold prog_ok in Hok.
    destruct (iv_root _ _ _ _ _ Hi) as (r & Hr & Htr). rewrite decide_False in Hok by (intros Hr'; simplify_eq; lia).
    destruct Hok as (_ & _ & _ & Hok & _). lia.
  - apply wp_ret, HQ; [done|apply evolves_refl].
Qed.

Lemma wp_closeProgram id w (Q : option slot → world → Prop) :
  inv R B T hold w →
  (∀ o w', inv R B T hold w' → evolves B w w' → (∀ s, o = Some s → entry_slot s) → Q o w') →
  wp no_uaf (_closeProgram (Some id)) w Q.
Proof.
  intros Hi HQ. unfold _closeProgram. apply wp_bind. eapply wp_programSlotForId; [done|].
  intros [s|] Hs; [|apply wp_ret, HQ; [done|apply evolves_refl|done]].
  destruct (Hs s eq_refl) as (i & p & -> & Hi'). apply wp_bind.
  assert (entry_slot (Entry i)) by (simpl; rewrite <- (iv_size _ _ _ _ _ Hi); by eapply lookup_lt_Some).
  apply wp_close_try; [done|done|]. intros b w' Hi2 Hev. apply wp_ret, HQ; [done..|].
  intros s. destruct b; intros; by simplify_eq.
Qed.

(** ** Requests *)

Lemma wp_makeRequest_on p f w (Q : () → world → Prop) :
  inv R B T hold w → rootInterpreter w = Some p ∨ 0 < tab w p →
  (∀ w', inv R B T hold w' → evolves B w w' → tab w' = tab w → Q () w') →
  wp no_uaf (_makeRequest p f) w Q.
Proof.
  intros Hi Hp HQ. destruct (iv_live _ _ _ _ _ Hi p) as [x Hx]; [destruct Hp; [by left|right; lia]|].
  unfold _makeRequest. apply wp_bind. eapply wp_update; [done|]. apply wp_bind, wp_gets. simpl.
  case_decide as Hlen; [|by apply wp_raise]. apply wp_modify. apply HQ; [|done|done].
  assert (Hone : one (Some p) p = 1) by (unfold one; by rewrite decide_True).
  assert (Hone' : ∀ q, p ≠ q → one (Some p) q = 0) by (intros; unfold one; rewrite decide_False; congruence).
  set (w' := with_queue _ _). assert (Hque : ∀ q, que w' q = que w q + one (Some p) q).
  { intros q. unfold que. simpl. rewrite cnt_app, cnt_cons. simpl. unfold cnt at 2. simpl. lia. }
  pose proof (que_length _ p Hi) as Hql. pose proof (iv_tab _ _ _ _ _ Hi p) as Ht1.
  destruct Hi as [Hroot Hpp Hl Ht Hs Hq Hb Ho Hh]. split; simpl; auto.
  - intros q y [[<- <-]|[Hne Hy]]%lookup_insert_Some; unfold prog_ok; rewrite Hque.
    + specialize (Hpp p x Hx). unfold prog_ok in Hpp. specialize (HR p). unfold QUEUE_LEN in *.
      change (tab w' p) with (tab w p). simpl.
      assert (Hu : (u8 (refcount x + 1) = refcount x + 1)%Z).
      { unfold u8. apply wrap_small. case_decide; [destruct Hpp as (_ & _ & -> & _)|destruct Hpp as (_ & -> & _)]; lia. }
      rewrite Hu. case_decide.
      * destruct Hpp as (? & ? & ? & ?). split_and!; [done..|lia|done].
      * destruct Hpp as (? & ? & ? & ? & ?). split_and!; [done|lia|lia|done|done].
    + specialize (Hpp q y Hy). unfold prog_ok in Hpp. rewrite Hone', Nat.add_0_r by done. done.
  - intros q Hlive. apply lookup_insert_is_Some'. destruct (decide (p = q)); [by left|right]. apply Hl.
    rewrite Hque, Hone' in Hlive by done. by rewrite Nat.add_0_r in Hlive.
  - rewrite length_app. simpl. lia.
  - intros q y b [[<- <-]|[Hne Hy]]%lookup_insert_Some Hby; simpl in Hby.
    + destruct (Ho p x b Hx Hby) as (? & ? & Hu). split_and!; [done..|].
      intros q' y' [[<- <-]|[? Hy']]%lookup_insert_Some; [done|]. eauto.
    + destruct (Ho q y b Hy Hby) as (? & ? & Hu). split_and!; [done..|].
      intros q' y' [[<- <-]|[? Hy']]%lookup_insert_Some Hby'; [|by eauto]. simpl in Hby'. eauto.
Qed.

(** ** Buffers *)

Lemma inv_bufs w m :
  inv R B T hold w →
  (∀ b, (b ∈ hold) ∨ (∃ q y, progs w !! q = Some y ∧ inputBuffer y = Some b) → is_Some (bufs w !! b) → is_Some (m !! b)) →
  inv R B T hold (with_bufs m w).
Proof.
  intros [? ? ? ? ? ? ? Ho [? Hh]] Hm. split; simpl; auto.
  - intros q y b Hy Hb. destruct (Ho q y b Hy Hb) as (? & ? & ?). split_and!; [|done..]. apply Hm; eauto.
Qed.

Lemma inv_set_buffer w b l : inv R B T hold w → inv R B T hold (with_bufs (<[b := l]> (bufs w)) w).
Proof. intros Hi. apply inv_bufs; [done|]. intros c _ Hc. apply lookup_insert_is_Some'. by right. Qed.

(** Giving a program another buffer. *)
Lemma inv_set_input hold' w p x o n :
  inv R B T hold w → progs w !! p = Some x →
  (∀ b, o = Some b → is_Some (bufs w !! b) ∧ (b ∉ hold') ∧
     ∀ q y, p ≠ q → progs w !! q = Some y → inputBuffer y ≠ Some b) →
  NoDup hold' → (∀ b, b ∈ hold' → b ∈ hold ∨ inputBuffer x = Some b) →
  inv R B T hold' (with_progs (<[p := set_input o n x]> (progs w)) w).
Proof.
  intros [? Hp Hl ? ? ? ? Ho [? Hh]] Hx Hnew Hnd Hsub. split; simpl; auto.
  - intros q y [[<- <-]|[Hne Hy]]%lookup_insert_Some; [|by apply Hp]. apply (Hp p x Hx).
  - intros q Hq. apply lookup_insert_is_Some'. right. by apply Hl.
  - intros q y b [[<- <-]|[Hne Hy]]%lookup_insert_Some Hb; simpl in Hb.
    + destruct (Hnew b Hb) as (? & ? & Hu). split_and!; [done..|].
      intros q' y' [[<- <-]|[? Hy']]%lookup_insert_Some Hb'; [done|]. by destruct (Hu q' y').
    + destruct (Ho q y b Hy Hb) as (? & ? & Hu). split_and!; [done| |].
      * intros Hin. destruct (Hsub b Hin) as [?|Hbx]; [done|]. eapply Hne, Hu; eauto.
      * intros q' y' [[<- <-]|[? Hy']]%lookup_insert_Some Hb'; [|by eauto]. simpl in Hb'.
        by destruct (Hnew b Hb') as (_ & _ & Hu'), (Hu' q y).
  - split; [done|]. intros b Hb. destruct (Hsub b Hb) as [?|Hbx]; [auto|].
    by destruct (Ho p x b Hx Hbx) as (? & _).
Qed.

Lemma malloc_new w : let b := malloc (dom (progs w) ∪ dom (bufs w)) in progs w !! b = None ∧ bufs w !! b = None.
Proof.
  intros b. pose proof (malloc_fresh (dom (progs w) ∪ dom (bufs w))) as Hf. fold b in Hf.
  rewrite not_elem_of_union, !not_elem_of_dom in Hf. done.
Qed.

(** Freeing the buffer of a program and forgetting it. *)
Lemma inv_free_input w p x n :
  inv R B T hold w → progs w !! p = Some x →
  inv R B T hold (with_progs (<[p := set_input None n x]> (progs w)) (freed (inputBuffer x) w)).
Proof.
  intros Hi Hx. pose proof (inv_set_input hold w p x None n Hi Hx) as Hi'.
  refine (inv_bufs (with_progs (<[p := set_input None n x]> (progs w)) w) _ _ _).
  - apply Hi'; [done|apply (iv_hold _ _ _ _ _ Hi)|auto].
  - simpl. intros b Hown Hlive. apply free_in_Some; [|done]. intros Hb.
    destruct (iv_owner _ _ _ _ _ Hi p x b Hx Hb) as (_ & Hnh & Hu).
    destruct Hown as [?|(q & y & [[<- <-]|[Hne Hy]]%lookup_insert_Some & Hby)]; [done|done|].
    by eapply Hne, eq_sym, Hu.
Qed.

Lemma wp_clearInput id w (Q : () → world → Prop) :
  inv R B T hold w → (∀ w', inv R B T hold w' → evolves B w w' → Q () w') → wp no_uaf (clearInput id) w Q.
Proof.
  intros Hi HQ. unfold clearInput. apply wp_bind. eapply wp_programForId; [done|].
  intros [p|] Hp; [|apply wp_ret; by apply HQ]. destruct (Hp p eq_refl) as (x & Hx & _).
  apply wp_bind. eapply wp_deref; [done|]. destruct (inputBuffer x) as [b|] eqn:Hb; [|apply wp_ret; by apply HQ].
  apply wp_bind, wp_free_buffer.
  { intros c [= <-]. by destruct (iv_owner _ _ _ _ _ Hi p x b Hx Hb). }
  eapply wp_update; [done|]. apply HQ; [|done]. rewrite <- Hb. exact (inv_free_input w p x 0 Hi Hx).
Qed.

(** The buffer [writeToInput] writes to: the old one or a new one. *)
Lemma wp_input_block ok p x len size w (Q : Z → world → Prop) :
  inv R B T hold w → progs w !! p = Some x →
  (∀ b w' x', inv R B T hold w' → evolves B w w' → progs w' !! p = Some x' → inputBuffer x' = Some b → Q b w') →
  wp ok (input_block p x len size) w Q.
Proof.
  intros Hi Hx HQ. unfold input_block. destruct (inputBuffer x) as [b|] eqn:Hb.
  - destruct (iv_owner _ _ _ _ _ Hi p x b Hx Hb) as ([l Hl] & _). unfold wp, mbind, stM_bind, buffer. rewrite Hl. simpl.
    eapply HQ; [by apply inv_set_buffer|done|done|done].
  - destruct (malloc_new w) as [Hnp Hnb]. set (b := malloc _) in *.
    apply wp_bind, wp_gets. fold b. apply wp_bind, wp_modify. apply wp_bind. eapply wp_update; [done|]. apply wp_ret.
    eapply HQ; [|done|apply lookup_insert_eq|done]. simpl.
    refine (inv_set_input hold (with_bufs _ w) p x (Some b) 0 _ Hx _ _ _).
    + by apply inv_set_buffer.
    + intros c [= <-]. simpl. rewrite lookup_insert_eq. split_and!; [done| |].
      * intros Hin. destruct (iv_hold _ _ _ _ _ Hi) as [_ Hh]. destruct (Hh b Hin). congruence.
      * intros q y _ Hy Hby. destruct (iv_owner _ _ _ _ _ Hi q y b Hy Hby) as ([] & _). congruence.
    + apply (iv_hold _ _ _ _ _ Hi).
    + auto.
Qed.

Lemma wp_writeToInput id data len pos w (Q : () → world → Prop) :
  inv R B T hold w → (∀ w', inv R B T hold w' → evolves B w w' → Q () w') →
  wp no_uaf (writeToInput id data len pos) w Q.
Proof.
  intros Hi HQ. unfold writeToInput. apply wp_bind. eapply wp_programForId; [done|].
  intros [p|] Hp; [|apply wp_ret; by apply HQ]. destruct (Hp p eq_refl) as (x & Hx & _).
  apply wp_bind. eapply wp_deref; [done|]. apply wp_bind.
  apply (wp_mono _ _ _ (λ _ w1, w1 = w)).
  { destruct (len =? -1)%Z; [|done]. apply wp_bind, wp_lift.
    destruct (read_cstr data) eqn:Hr; [done|by eapply read_cstr_fault]. }
  clear len. intros len ? ->. destruct (len <? 0)%Z; [by apply wp_raise|]. apply wp_bind, wp_lift.
  destruct (read_bytes _ data) as [s|] eqn:Hr; [|by eapply read_bytes_fault]. cbv zeta.
  apply wp_bind. eapply wp_input_block; [done|done|]. intros b w' x' Hi' Hev Hx' Hb.
  destruct (iv_owner _ _ _ _ _ Hi' p x' b Hx' Hb) as ([l Hl] & Hnh & Hu).
  apply wp_bind. unfold wp at 1, buffer. rewrite Hl. apply wp_bind, wp_lift.
  destruct (write_bytes _ _ _) as [l'|] eqn:Hw; [|by eapply write_bytes_fault].
  apply wp_bind, wp_modify. eapply wp_update; [done|]. apply HQ; [|eapply evolves_trans; done].
  refine (inv_set_input hold (with_bufs _ w') p x' (Some b) _ _ Hx' _ _ _).
  - by apply inv_set_buffer.
  - intros c [= <-]. simpl. rewrite lookup_insert_eq. split_and!; [done..|]. intros q y Hne Hy Hby.
    by eapply Hne, eq_sym, Hu.
  - apply (iv_hold _ _ _ _ _ Hi').
  - auto.
Qed.
End ops.

(** ** Loading *)

(** What a thread is running, points to, or is going to free. *)
Definition host_run (h : host) : option Z :=
  match h with HRun _ p | HClose _ p _ => Some p | _ => None end.
Definition host_hold (h : host) : option Z :=
  match h with HLoad a _ | HClosing _ (Some a) => l_free a | _ => None end.

(** The text of a load is the caller's, or a buffer the load will free. *)
Definition args_ok (a : load_args) : Prop := ∀ b, l_code a = Buffer b → l_free a = Some b.

Definition host_ok (w : world) (h : host) : Prop :=
  match h with
  | HIdle => True
  | HLoad a _ => args_ok a
  | HClosing s a => entry_slot s ∧ ∀ a', a = Some a' → args_ok a'
  | HRun i p => loadedPrograms w !! i = Some (Some p)
  | HClose i p s => loadedPrograms w !! i = Some (Some p) ∧ entry_slot s
  | HFail _ _ _ => False
  end.

Section loading.
Context `{Allocator} `{Machine}.
Context (Hr0 : 1 ≤ r0 ≤ 200) (R B : Z → nat) (T : nat) (HR : ∀ p, R p ≤ 10) (HT : T ≤ 100).

Lemma inv_release o hold w :
  inv R B T (option_list o ++ hold) w → inv R B T hold (freed o w).
Proof.
  intros Hi. assert (Hi' : inv R B T hold w).
  { destruct Hi as [? ? ? ? ? ? ? Ho [Hnd Hh]]. split; auto.
    - intros p x b Hx Hb. destruct (Ho p x b Hx Hb) as (? & Hn & ?). split_and!; [done| |done].
      intros Hin. apply Hn, elem_of_app. by right.
    - apply NoDup_app in Hnd as (_ & _ & ?). split; [done|]. intros b Hb. apply Hh, elem_of_app. by right. }
  apply inv_bufs; [done|]. intros b Hown Hlive. apply free_in_Some; [|done]. intros ->.
  destruct (iv_hold _ _ _ _ _ Hi) as [Hnd _]. simpl in Hnd. apply NoDup_cons in Hnd as [Hnin _].
  destruct Hown as [?|(q & y & Hy & Hby)]; [done|]. destruct (iv_owner _ _ _ _ _ Hi q y b Hy Hby) as (_ & Hn & _).
  apply Hn. simpl. by left.
Qed.

(** A new program in a free entry of the table. *)
Lemma inv_new hold w i p x :
  inv R B T hold w → run_ok B w → loadedPrograms w !! i = Some None → progs w !! p = None →
  parent x = rootInterpreter w → refcount x = 1%Z → busy x = 0%Z → vm x = true → inputBuffer x = None →
  inv R B T hold (with_table (<[i := Some p]> (loadedPrograms w)) (with_progs (<[p := x]> (progs w)) w)).
Proof.
  intros Hi Hrun Hi0 Hp Hpar Hrc Hbusy Hvm Hbuf. set (w' := with_table _ _).
  assert (Hdead : rootInterpreter w ≠ Some p ∧ R p = 0 ∧ que w p = 0 ∧ tab w p = 0).
  { split_and!; [intros Hr|destruct (R p) eqn:E|destruct (que w p) eqn:E|destruct (tab w p) eqn:E]; try done;
    (destruct (iv_live _ _ _ _ _ Hi p) as [? ?]; [first [by left | right; lia]|congruence]). }
  destruct Hdead as (Hnr & HRp & Hqp & Htp).
  assert (HBp : B p = 0) by (destruct (B p) eqn:E; [done|]; destruct (Hrun p) as [?|?]; [lia|done|lia]).
  assert (Htab : ∀ q, tab w' q = tab w q + one (Some p) q).
  { intros q. unfold tab. simpl. pose proof (cnt_insert id q _ i None (Some p) Hi0) as Hc. unfold id in Hc at 2 4.
    unfold one in *. rewrite (decide_False (P := None = Some q)) in Hc by done. lia. }
  assert (Hone' : ∀ q, p ≠ q → one (Some p) q = 0) by (intros; unfold one; rewrite decide_False; congruence).
  assert (Hone : one (Some p) p = 1) by (unfold one; by rewrite decide_True).
  assert (Hque : ∀ q, que w' q = que w q) by done.
  destruct Hi as [Hroot Hpp Hl Ht Hs Hq Hb Ho Hh]. split; simpl; auto.
  - destruct Hroot as (r & Hr & Htr). exists r. split; [done|]. rewrite Htab, Htr, Hone'; [done|congruence].
  - intros q y [[<- <-]|[Hne Hy]]%lookup_insert_Some; unfold prog_ok; simpl; rewrite Hque, Htab.
    + rewrite decide_False by done. rewrite Hone, HRp, Hqp, Htp, HBp. split_and!; [done..|lia|done|split; [lia|done]].
    + rewrite Hone', Nat.add_0_r by done. by apply Hpp.
  - intros q Hlive. apply lookup_insert_is_Some'. destruct (decide (p = q)); [by left|right]. apply Hl.
    by rewrite Hque, Htab, Hone', Nat.add_0_r in Hlive.
  - intros q. rewrite Htab. destruct (decide (p = q)) as [<-|]; [lia|]. rewrite Hone' by done. specialize (Ht q). lia.
  - by rewrite length_insert.
  - intros q y b [[<- <-]|[Hne Hy]]%lookup_insert_Some Hby; [congruence|].
    destruct (Ho q y b Hy Hby) as (? & ? & Hu). split_and!; [done..|].
    intros q' y' [[<- <-]|[? Hy']]%lookup_insert_Some Hby'; [congruence|eauto].
Qed.

Lemma free_entry_spec t j i : free_entry j t = Some i → ∃ k, i = j + k ∧ t !! k = Some None.
Proof.
  revert j. induction t as [|[p|] t IH]; intros j; simpl; intros Hf; [done| |].
  - destruct (IH (S j) Hf) as (k & -> & Hk). exists (S k). split; [lia|done].
  - simplify_eq. exists 0. split; [lia|done].
Qed.

(** The state in which an API caller leaves the world, [hold] being the buffers
    of the others. *)
Definition host_post (hold : list Z) (w : world) (h : host) (w' : world) : Prop :=
  inv R (λ q, B q + one (host_run h) q) (T + any (host_run h)) (option_list (host_hold h) ++ hold) w' ∧
  evolves B w w' ∧ host_ok w' h.

Lemma host_post_quiet hold w h w' :
  host_run h = None → inv R B T (option_list (host_hold h) ++ hold) w' → evolves B w w' → host_ok w' h →
  host_post hold w h w'.
Proof.
  intros Hh Hi Hev Hok. unfold host_post. rewrite Hh. split_and!; [|done..]. simpl. rewrite Nat.add_0_r.
  eapply inv_ext; [| |exact Hi]; [done|]. intros q. unfold one. rewrite decide_False by done. by rewrite Nat.add_0_r.
Qed.

Lemma host_post_evolves hold w w1 h w' : evolves B w w1 → host_post hold w1 h w' → host_post hold w h w'.
Proof. intros Hev (? & ? & ?). split_and!; [done| |done]. by eapply evolves_trans. Qed.

Lemma wp_need_vm x w (Q : () → world → Prop) : Q () w → wp no_uaf (need_vm x) w Q.
Proof. intros HQ. unfold need_vm. destruct (vm x); [done|]. by apply wp_raise. Qed.

Lemma wp_source hold a w (Q : block → world → Prop) :
  inv R B T (option_list (l_free a) ++ hold) w → args_ok a → (∀ l, Q l w) → wp no_uaf (source_block (l_code a)) w Q.
Proof.
  intros Hi Ha HQ. destruct (l_code a) as [c|b] eqn:Hc; [apply wp_ret, HQ|].
  destruct (iv_hold _ _ _ _ _ Hi) as [_ Hh]. destruct (Hh b) as [l Hl]; [rewrite (Ha b Hc); by left|].
  simpl. unfold wp, buffer. by rewrite Hl.
Qed.

(** [_loadProgram] once the new program is in the table. *)
Lemma wp_load_run hold a w i p :
  inv R B T hold w → run_ok B w → loadedPrograms w !! i = Some (Some p) →
  wp no_uaf
    (if l_sync a then _ ← _setbusy (Some p); _ ← runLoaded_begin p; mret (HRun i p)
     else _ ← _makeRequest p (RunLoaded true); mret HIdle) w (host_post hold w).
Proof.
  intros Hi Hrun Hp. assert (Ht : 0 < tab w p) by (apply tab_pos; eauto).
  destruct (l_sync a).
  - apply wp_bind. eapply (wp_busy R B T hold _ p 1 (λ q, B q + one (Some p) q) (T + 1)); [done| | |lia|lia| |].
    + eapply iv_live; [done|]. right. lia.
    + intros q. unfold one. destruct (decide (p = q)); case_decide; simplify_eq; lia.
    + intros q. pose proof (iv_busy _ _ _ _ _ Hi q). unfold one. case_decide; lia.
    + intros m Hdom Hi'. apply wp_bind. unfold runLoaded_begin. apply wp_bind.
      assert (is_Some (m !! p)) as [x Hx]; [|eapply wp_deref; [done|]; apply wp_need_vm, wp_ret; by split_and!].
      apply elem_of_dom. rewrite Hdom. apply elem_of_dom. eapply iv_live; [done|]. right. lia.
  - apply wp_bind. eapply (wp_makeRequest_on R B T hold); [done..|by right|].
    intros w' Hi' Hev _. apply wp_ret. by apply host_post_quiet.
Qed.

Lemma wp_load_new hold a w :
  inv R B T (option_list (l_free a) ++ hold) w → run_ok B w → args_ok a →
  wp no_uaf (load_new a) w (host_post hold w).
Proof.
  intros Hi Hrun Ha. unfold load_new. apply wp_bind, wp_gets.
  assert (Hlive : ∀ b, l_free a = Some b → is_Some (bufs w !! b)).
  { intros b Hb. apply (iv_hold _ _ _ _ _ Hi). rewrite Hb. by left. }
  destruct (free_entry 0 (loadedPrograms w)) as [i|] eqn:Hf.
  2:{ apply wp_bind, wp_free_buffer; [done|]. apply wp_ret. apply host_post_quiet; [done|by apply inv_release|done|done]. }
  apply free_entry_spec in Hf as (k & -> & Hk). simpl. destruct (malloc_new w) as [Hnp _].
  apply wp_bind, wp_gets. set (p := malloc _) in *.
  destruct (iv_root _ _ _ _ _ Hi) as (r & Hr & _). destruct (iv_root_live _ _ _ _ _ _ Hi Hr) as (rx & Hrx & _).
  apply wp_bind, wp_gets. rewrite Hr. apply wp_bind, wp_lift. simpl. apply wp_bind. eapply wp_deref; [done|].
  apply wp_bind, wp_need_vm, wp_bind. eapply wp_source; [done|done|]. intros l. apply wp_bind, wp_lift.
  destruct (read_bytes PROG_HASH_LEN l) as [h|] eqn:Hh; [|by eapply read_bytes_fault].
  apply wp_bind, wp_modify, wp_bind, wp_modify, wp_bind, wp_lift.
  destruct (read_cstr l) as [text|] eqn:Htext; [|by eapply read_cstr_fault]. simpl.
  pose proof (inv_new _ w k p (mkProg (store_id (l_id a) (stale p)) h (l_wd a) None 0 0 true (Some r) 1) Hi Hrun Hk Hnp)
    as Hi1. specialize (Hi1 (eq_sym Hr) eq_refl eq_refl eq_refl eq_refl).
  set (w1 := with_table _ _) in *. assert (Hev : evolves B w w1).
  { split; [done..|]. intros j q _ Hj. simpl. rewrite list_lookup_insert_ne; [done|]. intros ->. by rewrite Hk in Hj. }
  assert (Hk1 : loadedPrograms w1 !! k = Some (Some p)).
  { simpl. apply list_lookup_insert_eq. by eapply lookup_lt_Some. }
  apply wp_bind, wp_free_buffer; [done|]. apply inv_release in Hi1. set (w2 := freed _ w1) in *.
  assert (Hev2 : evolves B w w2) by (destruct Hev as [? ? ? Hee]; split; [done..|exact Hee]). pose proof (run_ok_evolves _ _ _ Hev2 Hrun) as Hrun2.
  eapply wp_mono; [|intros h' w'; by apply (host_post_evolves hold w w2)].
  destruct (compiles text); [by apply wp_load_run|].
  apply wp_bind. eapply (wp_closeProgram R B T hold); [done..|]. intros o w' Hi' Hev' Ho. apply wp_ret.
  apply host_post_quiet; destruct o as [s|]; try done. simpl. split; [by apply Ho|done].
Qed.

Lemma wp_load_close hold a w :
  inv R B T (option_list (l_free a) ++ hold) w → run_ok B w → args_ok a →
  wp no_uaf (load_close a) w (host_post hold w).
Proof.
  intros Hi Hrun Ha. unfold load_close. apply wp_bind. eapply (wp_closeProgram R B T); [done..|].
  intros [s|] w' Hi' Hev Ho.
  - apply wp_ret. apply host_post_quiet; [done..|]. simpl. split; [auto|]. intros ? [= <-]. done.
  - eapply wp_mono; [apply wp_load_new; eauto using run_ok_evolves|].
    intros h w2. by apply host_post_evolves.
Qed.

Lemma wp_load_wait hold a old w :
  inv R B T (option_list (l_free a) ++ hold) w → run_ok B w → args_ok a → is_Some (progs w !! old) →
  wp no_uaf (load_wait a old) w (host_post hold w).
Proof.
  intros Hi Hrun Ha [x Hx]. unfold load_wait. apply wp_bind. eapply wp_deref; [done|].
  destruct (busy x =? 0)%Z; [by apply wp_load_close|]. apply wp_ret. by apply host_post_quiet.
Qed.

Lemma wp_loadProgram hold code id sync wd w :
  inv R B T hold w → run_ok B w →
  wp no_uaf (_loadProgram code id sync wd) w (host_post hold w).
Proof.
  intros Hi Hrun. unfold _loadProgram. apply wp_bind. eapply wp_programForId; [done|].
  intros [old|] Hold.
  2:{ destruct code as [c|]; [by apply wp_load_new|]. apply wp_ret. by apply host_post_quiet. }
  destruct (Hold old eq_refl) as (x & Hx & _). apply wp_bind. eapply wp_deref; [done|].
  destruct (match code with Some c => Some (Text c) | None => Buffer <$> inputBuffer x end) as [src|] eqn:Hsrc;
    [|apply wp_ret; by apply host_post_quiet].
  set (a := mkLoad src id sync wd (inputBuffer x)).
  assert (Ha : args_ok a).
  { intros b Hb. simpl in *. subst src. destruct code; simplify_eq. by destruct (inputBuffer x); simplify_eq/=. }
  apply wp_bind. eapply wp_update; [done|]. set (w1 := with_progs _ w).
  assert (Hi1 : inv R B T (option_list (l_free a) ++ hold) w1).
  { apply (inv_set_input R B T hold); [done..| |].
    - simpl. destruct (inputBuffer x) as [b|] eqn:Hb; simpl; [|apply (iv_hold _ _ _ _ _ Hi)].
      apply NoDup_cons. split; [|apply (iv_hold _ _ _ _ _ Hi)]. by destruct (iv_owner _ _ _ _ _ Hi old x b Hx Hb) as (_ & ? & _).
    - intros b [Hb|?]%elem_of_app; [|by left]. right. simpl in Hb. destruct (inputBuffer x); simpl in Hb;
        [by apply list_elem_of_singleton in Hb as ->|by apply elem_of_nil in Hb]. }
  apply wp_bind. eapply (wp_source hold a); [done|done|]. intros l. apply wp_bind, wp_lift.
  destruct (read_bytes PROG_HASH_LEN l) as [h|] eqn:Hh; [|by eapply read_bytes_fault]. case_bool_decide.
  - apply wp_ret. apply host_post_quiet; [done| |done|done]. simpl.
    destruct (inputBuffer x) as [b|] eqn:Hb; [|exact Hi1].
    (* the buffer stays allocated without an owner *)
    destruct Hi1 as [? ? ? ? ? ? ? Ho [Hnd Hh1]]. split; auto.
    + intros q y c Hy Hc. destruct (Ho q y c Hy Hc) as (? & Hn & ?). split_and!; [done| |done].
      intros Hin. apply Hn, elem_of_app. by right.
    + simpl in Hnd. apply NoDup_cons in Hnd as [_ ?]. split; [done|]. intros c Hc. apply Hh1. by right.
  - eapply wp_mono; [apply (wp_load_wait hold a old w1); [done|done|done|]|].
    + simpl. rewrite lookup_insert_eq. done.
    + intros h' w'. by apply host_post_evolves.
Qed.
End loading.

(** ** Pool threads *)

Definition task_ref (t : task) : option Z :=
  match t with TIdle => None | TGot r | TWait r | TRun r | TClose r _ | TFail r _ => Some (program r) end.
Definition task_run (t : task) : option Z :=
  match t with TRun r | TClose r _ => Some (program r) | _ => None end.
Definition task_ok (t : task) : Prop :=
  match t with TClose _ s | TFail _ s => entry_slot s | _ => True end.

Definition plus (f : Z → nat) (o : option Z) (q : Z) : nat := f q + one o q.

Lemma evolves_mono B B' w w' : (∀ q, B q ≤ B' q) → evolves B' w w' → evolves B w w'.
Proof. intros Hle [? ? ? He]. split; [done..|]. intros i p Hp. apply He. specialize (Hle p). lia. Qed.

Lemma evolves_progs B m w w' : evolves B (with_progs m w) w' → evolves B w w'.
Proof. intros [? ? ? He]. split; [done..|exact He]. Qed.

Lemma run_ok_mono B B' w : (∀ q, B q ≤ B' q) → run_ok B' w → run_ok B w.
Proof. intros Hle Hr q Hq. apply Hr. specialize (Hle q). lia. Qed.

Lemma plus_le f o q : f q ≤ plus f o q.
Proof. unfold plus. lia. Qed.

Lemma plus_same f p : plus f (Some p) p = S (f p).
Proof. unfold plus, one. rewrite decide_True by done. lia. Qed.

Lemma inv_plus_None R B T hold w : inv R (plus B None) (T + 0) hold w ↔ inv R B T hold w.
Proof.
  rewrite Nat.add_0_r. split; apply inv_ext; try done; intros q; unfold plus, one; rewrite decide_False by done; lia.
Qed.

Section tasks.
Context `{Allocator} `{Machine}.
Context (Hr0 : 1 ≤ r0 ≤ 200) (R B : Z → nat) (T : nat) (HR : ∀ p, R p ≤ 8) (HT : T ≤ 90) (hold : list Z).

Lemma HR_plus o p : plus R o p ≤ 10.
Proof. unfold plus, one. specialize (HR p). case_decide; lia. Qed.

(** Where a pool thread leaves the world; [R], [B] and [T] count the others. *)
Definition task_post (w : world) (t : task) (w' : world) : Prop :=
  inv (plus R (task_ref t)) (plus B (task_run t)) (T + any (task_run t)) hold w' ∧
  evolves B w w' ∧ task_ok t ∧ run_ok (plus B (task_run t)) w'.

Lemma task_post_evolves w w1 t w' : evolves B w w1 → task_post w1 t w' → task_post w t w'.
Proof. intros ? (? & ? & ?). split_and!; [done| |tauto..]. by eapply evolves_trans. Qed.

Lemma run_ok_plus_None w : run_ok B w → run_ok (plus B None) w.
Proof. apply run_ok_mono. intros q. unfold plus, one. rewrite decide_False by done. lia. Qed.

Lemma wp_setbusy ok R' p w (Q : () → world → Prop) :
  inv R' B T hold w → is_Some (progs w !! p) →
  (∀ m, dom m = dom (progs w) → inv R' (plus B (Some p)) (T + 1) hold (with_progs m w) → Q () (with_progs m w)) →
  wp ok (_setbusy (Some p)) w Q.
Proof using HT.
  clear Hr0 HR.
  intros Hi Hp HQ. eapply (wp_busy R' B T hold _ p 1 (plus B (Some p)) (T + 1)); [done..| |lia|lia| |exact HQ].
  - intros q. unfold plus, one. destruct (decide (p = q)); case_decide; simplify_eq; lia.
  - intros q. pose proof (iv_busy _ _ _ _ _ Hi q). unfold plus, one. case_decide; lia.
Qed.

Lemma wp_setfree ok R' p w (Q : () → world → Prop) :
  inv R' (plus B (Some p)) (T + 1) hold w → is_Some (progs w !! p) → (∀ q, B q ≤ T) →
  (∀ m, dom m = dom (progs w) → inv R' B T hold (with_progs m w) → Q () (with_progs m w)) →
  wp ok (_setfree (Some p)) w Q.
Proof using HT.
  clear Hr0 HR.
  intros Hi Hp Hle HQ. eapply (wp_busy R' (plus B (Some p)) (T + 1) hold _ p (-1) B T); [done..| |lia|lia|done|exact HQ].
  intros q. unfold plus, one. destruct (decide (p = q)); case_decide; simplify_eq; lia.
Qed.

Lemma wp_task_done p w :
  inv (plus R (Some p)) (plus B (Some p)) (T + 1) hold w → (∀ q, B q ≤ T) → run_ok B w →
  wp no_uaf (task_done p) w (task_post w).
Proof.
  intros Hi Hle Hrun. assert (Hp : is_Some (progs w !! p)).
  { eapply iv_live; [done|]. right. rewrite plus_same. lia. }
  unfold task_done. apply wp_bind. eapply wp_setfree; [done..|]. intros m Hdom Hi1.
  assert (is_Some (m !! p)) as [x Hx] by (apply elem_of_dom; rewrite Hdom; by apply elem_of_dom).
  apply wp_bind. eapply wp_deref_prog; [done| |].
  { intros b Hb. by destruct (iv_owner _ _ _ _ _ Hi1 p x b Hx Hb). }
  apply wp_ret. assert (Hev : evolves B w (drop_ref p x (with_progs m w))).
  { eapply evolves_trans; [|apply drop_ref_evolves]. done. }
  unfold task_post. simpl. split_and!; [|done|done|].
  - apply inv_plus_None. apply (inv_ext R (plus R None) B B); [|done|].
    { intros q. unfold plus, one. rewrite decide_False by done. lia. }
    eapply (drop_ref_inv R B T hold (plus R (Some p))); [lia|done| |exact Hi1|done]. specialize (HR p). rewrite plus_same. lia.
  - apply run_ok_plus_None. by eapply run_ok_evolves.
Qed.

(** A running program that has a [vm] is the root or in the table. *)
Lemma vm_run_ok R' B' T' w p x :
  inv R' B' T' hold w → progs w !! p = Some x → vm x = true → run_ok B w → run_ok (plus B (Some p)) w.
Proof.
  intros Hi Hx Hvm Hrun q Hq. destruct (decide (p = q)) as [<-|Hne].
  - pose proof (iv_prog _ _ _ _ _ Hi p x Hx) as Hok. unfold prog_ok in Hok. case_decide; [by left|right].
    by apply Hok.
  - apply Hrun. unfold plus, one in Hq. rewrite decide_False in Hq by congruence. lia.
Qed.

Lemma wp_need_vm_true x w (Q : () → world → Prop) : (vm x = true → Q () w) → wp no_uaf (need_vm x) w Q.
Proof. intros HQ. unfold need_vm. destruct (vm x); [apply wp_ret; auto|]. by apply wp_raise. Qed.

Lemma wp_runInputBuffer_begin R' B' T' p w (Q : bool → world → Prop) :
  inv R' B' T' hold w → is_Some (progs w !! p) →
  (∀ b w' x, inv R' B' T' hold w' → evolves B w w' → progs w' !! p = Some x → vm x = true → Q b w') →
  wp no_uaf (runInputBuffer_begin p) w Q.
Proof.
  intros Hi [x Hx] HQ. unfold runInputBuffer_begin. apply wp_bind. eapply wp_deref; [done|].
  apply wp_bind, wp_lift. destruct (inputBuffer x) as [b|] eqn:Hb; [|done]. simpl.
  destruct (iv_owner _ _ _ _ _ Hi p x b Hx Hb) as ([l Hl] & _). apply wp_bind. unfold wp at 1, buffer. rewrite Hl.
  apply wp_bind, wp_lift. destruct (write_bytes l _ _) as [l'|] eqn:Hw; [|by eapply write_bytes_fault].
  apply wp_bind, wp_modify, wp_bind, wp_lift.
  destruct (read_cstr l') as [s|] eqn:Hs; [|by eapply read_cstr_fault].
  apply wp_bind, wp_need_vm_true. intros Hvm. pose proof (inv_set_buffer _ _ _ _ w b l' Hi) as Hi'.
  assert (Hev : evolves B w (with_bufs (<[b := l']> (bufs w)) w)) by done.
  destruct (compiles s); [|apply wp_ret; by eapply HQ]. apply wp_bind. unfold runLoaded_begin. apply wp_bind.
  eapply wp_deref; [exact Hx|]. apply wp_need_vm_true. intros _. apply wp_ret. by eapply HQ.
Qed.

Lemma wp_task_start r w :
  inv (plus R (Some (program r))) B T hold w → run_ok B w → wp no_uaf (task_start r) w (task_post w).
Proof.
  intros Hi Hrun. assert (Hp : is_Some (progs w !! program r)).
  { eapply iv_live; [done|]. right. rewrite plus_same. lia. }
  pose proof (iv_busy _ _ _ _ _ Hi) as Hle.
  unfold task_start. apply wp_bind. eapply wp_setbusy; [done..|]. intros m Hdom Hi1. set (w1 := with_progs m w) in *.
  assert (Hp1 : is_Some (progs w1 !! program r)) by (apply elem_of_dom; simpl; rewrite Hdom; by apply elem_of_dom).
  assert (Hrun1 : run_ok B w1) by done.
  assert (Hev1 : evolves B w w1) by done.
  assert (Hpost : ∀ w' x, inv (plus R (Some (program r))) (plus B (Some (program r))) (T + 1) hold w' →
    evolves B w1 w' → progs w' !! program r = Some x → vm x = true → task_post w (TRun r) w').
  { intros w' x Hi' Hev Hx Hvm. unfold task_post. simpl. split_and!; [done|by eapply evolves_trans|done|].
    eapply vm_run_ok; eauto. by eapply run_ok_evolves. }
  destruct (rq_f r).
  - destruct Hp1 as [x Hx]. apply wp_bind. unfold runLoaded_begin. apply wp_bind. eapply wp_deref; [done|].
    apply wp_need_vm_true. intros Hvm. apply wp_ret. by eapply Hpost.
  - apply wp_bind. eapply wp_runInputBuffer_begin; [done..|]. intros b w' x Hi' Hev Hx Hvm.
    destruct b; [apply wp_ret; by eapply Hpost|].
    eapply wp_mono; [apply wp_task_done; [done|done|by eapply run_ok_evolves]|].
    intros t w''. apply task_post_evolves. by eapply evolves_trans.
Qed.

(** The inputs of a step of a pool thread: its own pointers and flags on top of
    those of the others. *)
Definition task_pre (t : task) (w : world) : Prop :=
  inv (plus R (task_ref t)) (plus B (task_run t)) (T + any (task_run t)) hold w ∧
  (∀ q, B q ≤ T) ∧ task_ok t ∧ run_ok (plus B (task_run t)) w.

Lemma task_post_stay w t : task_pre t w → task_post w t w.
Proof. intros (? & ? & ? & ?). by split_and!. Qed.

(** Closing something in the middle of a run. *)
Lemma wp_task_close_try t s w (Q : bool → world → Prop) :
  task_pre t w → entry_slot s →
  (∀ b w', task_pre t w' → evolves B w w' → Q b w') → wp no_uaf (close_try s) w Q.
Proof.
  intros (Hi & Hle & Hok & Hrun) Hs HQ.
  eapply (wp_close_try _ (plus B (task_run t)) _ hold); [done|apply HR_plus|done..|].
  intros b w' Hi' Hev. apply HQ; [|by eapply evolves_mono; [apply plus_le|]].
  split_and!; [done..|]. by eapply run_ok_evolves.
Qed.

Lemma wp_task_lock t w : task_pre t w → wp no_uaf (task_lock t) w (task_post w).
Proof.
  intros Hpre. pose proof Hpre as (Hi & Hle & Hok & Hrun).
  destruct t as [|r|r|r|r s|r s]; simpl in *; try (by apply wp_raise).
  - rewrite inv_plus_None in Hi. assert (is_Some (progs w !! program r)) as [x Hx].
    { eapply iv_live; [done|]. right. rewrite plus_same. lia. }
    apply wp_bind. eapply wp_deref; [done|]. destruct (busy x =? 0)%Z; [|by apply wp_ret, (task_post_stay w (TWait r))].
    apply wp_task_start; [done|]. eapply run_ok_mono; [|done]. intros q. apply plus_le.
  - pose proof (proj1 (inv_plus_None _ _ _ _ w) Hi) as Hi1. assert (is_Some (progs w !! program r)) as [x Hx].
    { eapply iv_live; [done|]. right. rewrite plus_same. lia. }
    assert (HrunB : run_ok B w) by (eapply run_ok_mono; [|done]; intros q; apply plus_le).
    apply wp_bind. eapply wp_deref; [done|]. destruct (vm x).
    + destruct (busy x =? 0)%Z; [by apply wp_task_start|]. by apply wp_ret, (task_post_stay w (TWait r)).
    + apply wp_bind. eapply wp_deref_prog; [done| |].
      { intros b Hb. by destruct (iv_owner _ _ _ _ _ Hi _ x b Hx Hb). }
      apply wp_ret. unfold task_post. simpl. split_and!; [|apply drop_ref_evolves|done|].
      * apply inv_plus_None. apply (inv_ext R (plus R None) B B); [|done|].
        { intros q. unfold plus, one. rewrite decide_False by done. lia. }
        eapply (drop_ref_inv R B T hold (plus R (Some (program r)))); [lia|done| |exact Hi1|done].
        specialize (HR (program r)). rewrite plus_same. lia.
      * apply run_ok_plus_None. eapply run_ok_evolves; [apply drop_ref_evolves|done].
  - apply wp_bind. eapply (wp_task_close_try (TClose r s)); [done..|]. intros b w' Hpre' Hev. apply wp_ret.
    eapply task_post_evolves; [done|]. destruct b; [|by apply task_post_stay].
    destruct Hpre' as (? & ? & ? & ?). by apply (task_post_stay w' (TRun r)).
  - apply wp_bind. eapply (wp_task_close_try (TFail r s)); [done..|]. intros b w' Hpre' Hev.
    destruct b; [|apply wp_ret; eapply task_post_evolves; [done|]; by apply task_post_stay].
    destruct Hpre' as (Hi' & _ & _ & Hrun'). simpl in Hi'. rewrite inv_plus_None in Hi'.
    apply wp_bind. eapply wp_setbusy; [done| |].
    { eapply iv_live; [done|]. right. rewrite plus_same. lia. }
    intros m Hdom Hi2. eapply wp_mono; [apply wp_task_done; [done|done|]|].
    + eapply run_ok_mono; [|exact Hrun']. intros q. apply plus_le.
    + intros t w2. apply task_post_evolves. eapply evolves_trans; [done|]. done.
Qed.

Lemma wp_task_end t ok w : task_pre t w → wp no_uaf (task_end t ok) w (task_post w).
Proof.
  intros (Hi & Hle & Hok & Hrun). destruct t as [|r|r|r|r s|r s]; simpl in *; try (by apply wp_raise).
  assert (Hp : is_Some (progs w !! program r)).
  { eapply iv_live; [done|]. right. rewrite plus_same. lia. }
  assert (HrunB : run_ok B w) by (eapply run_ok_mono; [|done]; intros q; apply plus_le).
  destruct (rq_f r) as [d|].
  - apply wp_bind. unfold runLoaded_end. destruct (negb ok && d).
    + apply wp_bind. eapply wp_setfree; [done..|]. intros m Hdom Hi1. set (w1 := with_progs m w) in *.
      assert (is_Some (progs w1 !! program r)) as [x Hx] by (apply elem_of_dom; simpl; rewrite Hdom; by apply elem_of_dom).
      apply wp_bind. eapply wp_deref; [done|]. apply wp_bind.
      eapply (wp_closeProgram _ B T hold); [done|apply HR_plus|done|]. intros [s|] w2 Hi2 Hev Hs.
      * apply wp_ret, wp_ret. unfold task_post. simpl. split_and!; [by apply inv_plus_None|by eapply evolves_progs|by apply Hs|].
        apply run_ok_plus_None. by eapply run_ok_evolves.
      * apply wp_bind. eapply wp_setbusy; [done| |].
        { eapply iv_live; [done|]. right. rewrite plus_same. lia. }
        intros m2 Hdom2 Hi3. apply wp_ret. eapply wp_mono; [apply wp_task_done; [done|done|]|].
        -- assert (Hr2 : run_ok B w2) by (by eapply run_ok_evolves). exact Hr2.
        -- intros t w3. apply task_post_evolves. eapply evolves_trans; [by eapply evolves_progs|done].
    + destruct Hp as [x Hx]. apply wp_bind. eapply wp_deref; [done|]. apply wp_bind, wp_need_vm_true. intros _.
      apply wp_ret. by apply wp_task_done.
  - destruct Hp as [x Hx]. apply wp_bind. unfold runInputBuffer_end, runLoaded_end. rewrite andb_false_r.
    apply wp_bind, wp_bind. eapply wp_deref; [done|]. apply wp_bind, wp_need_vm_true. intros _. apply wp_ret.
    apply wp_bind. eapply wp_deref; [done|]. apply wp_bind, wp_free_buffer.
    { intros b Hb. by destruct (iv_owner _ _ _ _ _ Hi _ x b Hx Hb). }
    eapply wp_update; [done|]. eapply wp_mono.
    + apply wp_task_done; [exact (inv_free_input _ _ _ _ w (program r) x 0 Hi Hx)|done|exact HrunB].
    + intros t w'. by apply task_post_evolves.
Qed.

Lemma wp_sqcloseProgram B' T' id R' w (Q : option slot → world → Prop) :
  (∀ q, R' q ≤ 10) → inv R' B' T' hold w →
  (∀ o w', inv R' B' T' hold w' → evolves B' w w' → (∀ s, o = Some s → entry_slot s) → Q o w') →
  wp no_uaf (sqcloseProgram id) w Q.
Proof.
  intros HR' Hi HQ. unfold sqcloseProgram. case_decide; [apply wp_ret; apply HQ; [done|apply evolves_refl|done]|].
  apply wp_bind. unfold _forceclose. apply wp_bind. eapply wp_programForId; [done|].
  assert (Hgo : wp no_uaf (_closeProgram (Some id)) w Q) by (by eapply wp_closeProgram).
  intros [p|] Hp; [|by apply wp_ret]. destruct (Hp p eq_refl) as (x & Hx & _).
  apply wp_bind. eapply wp_deref; [done|]. by apply wp_need_vm.
Qed.

Lemma wp_task_script_close t id w : task_pre t w → wp no_uaf (task_script_close t id) w (task_post w).
Proof.
  intros (Hi & Hle & Hok & Hrun). destruct t as [|r|r|r|r s|r s]; simpl in *; try (by apply wp_raise).
  apply wp_bind. eapply wp_sqcloseProgram; [apply HR_plus|done|]. intros o w' Hi' Hev Ho. apply wp_ret.
  assert (evolves B w w') by (eapply evolves_mono; [apply plus_le|done]).
  pose proof (run_ok_evolves _ _ _ Hev Hrun). destruct o as [s|]; unfold task_post; simpl; split_and!; auto.
Qed.
End tasks.

(** ** API callers *)

Section hosts.
Context `{Allocator} `{Machine}.
Context (Hr0 : 1 ≤ r0 ≤ 200) (R B : Z → nat) (T : nat) (HR : ∀ p, R p ≤ 10) (HT : T ≤ 90) (hold : list Z).

Definition host_pre (h : host) (w : world) : Prop :=
  inv R (plus B (host_run h)) (T + any (host_run h)) (option_list (host_hold h) ++ hold) w ∧
  (∀ q, B q ≤ T) ∧ host_ok w h ∧ run_ok (plus B (host_run h)) w.

Lemma host_ok_evolves w w' h : evolves (plus B (host_run h)) w w' → host_ok w h → host_ok w' h.
Proof.
  intros Hev Hok. destruct h; simpl in *; try done.
  - eapply ev_entry; [done| |done]. rewrite plus_same. lia.
  - split; [|tauto]. eapply ev_entry; [done| |tauto]. rewrite plus_same. lia.
Qed.

Lemma wp_loadProgram_idle code id sync wd h w :
  host_pre h w → wp no_uaf (from_idle (_loadProgram code id sync wd) h) w (host_post R B T hold w).
Proof.
  intros (Hi & _ & _ & Hrun). destruct h; simpl in *; try (by apply wp_raise).
  rewrite inv_plus_None in Hi. apply wp_loadProgram; [done..|lia|done|].
  eapply run_ok_mono; [|done]. intros q. apply plus_le.
Qed.

Lemma wp_closeProgram_idle id force h w :
  host_pre h w → wp no_uaf (from_idle (closeProgram id force) h) w (host_post R B T hold w).
Proof.
  intros (Hi & _ & _ & Hrun). destruct h; simpl in *; try (by apply wp_raise).
  rewrite inv_plus_None in Hi. unfold closeProgram. apply wp_bind.
  assert (Hgo : wp no_uaf (w0 ← _closeProgram (Some id);
            mret (match (w0 : option slot) with None => HIdle | Some s => HClosing s None end)) w (host_post R B T hold w)).
  { apply wp_bind. eapply wp_closeProgram; [done..|]. intros o w' Hi' Hev Ho. apply wp_ret.
    apply host_post_quiet; destruct o as [s|]; try done. simpl. split; [by apply Ho|done]. }
  unfold when. destruct force; [|by apply wp_ret]. unfold _forceclose. apply wp_bind. eapply wp_programForId; [done|].
  intros [p|] Hp; [|by apply wp_ret]. destruct (Hp p eq_refl) as (x & Hx & _).
  apply wp_bind. eapply wp_deref; [done|]. by apply wp_need_vm.
Qed.

(** A waiting caller may follow a dangling pointer to the program it waits
    for. *)
Definition no_oof (e : fault) : Prop := e ≠ OutOfFuel.

Lemma wp_host_lock h w : host_pre h w → wp no_oof (host_lock h) w (host_post R B T hold w).
Proof.
  intros (Hi & Hle & Hok & Hrun). assert (HrunB : run_ok B w) by (eapply run_ok_mono; [|done]; intros q; apply plus_le).
  destruct h as [|a old|s a|i p|i p s|i p s]; simpl in *; try (by apply wp_raise).
  - rewrite inv_plus_None in Hi. destruct (progs w !! old) as [x|] eqn:Hx.
    + eapply (wp_faults no_uaf); [by intros ? [? ?]|]. apply wp_load_wait; auto; (lia || by rewrite Hx).
    + unfold load_wait, wp, mbind, stM_bind, deref. rewrite Hx. done.
  - rewrite inv_plus_None in Hi. destruct Hok as [Hs Ha]. eapply (wp_faults no_uaf); [by intros ? [? ?]|].
    apply wp_bind. eapply (wp_close_try _ _ _ _ Hr0 HR s w); [done..|]. intros b w' Hi' Hev. destruct b.
    + destruct a as [a|]; [|apply wp_ret; by apply host_post_quiet].
      apply (wp_mono _ _ _ (host_post R B T hold w')); [apply wp_load_new; eauto using run_ok_evolves; lia|].
      intros h w2. by apply host_post_evolves.
    + apply wp_ret. by apply host_post_quiet.
  - eapply (wp_faults no_uaf); [by intros ? [? ?]|]. destruct Hok as [Hip Hs].
    apply wp_bind. eapply (wp_close_try _ _ _ _ Hr0 HR s w); [done..|]. intros b w' Hi' Hev.
    assert (evolves B w w') by (eapply evolves_mono; [apply plus_le|done]).
    assert (loadedPrograms w' !! i = Some (Some p)) by (eapply ev_entry; [exact Hev| |done]; rewrite plus_same; lia).
    apply wp_ret. destruct b; by split_and!.
  - done.
Qed.

Lemma wp_host_end h w : host_pre h w → wp no_uaf (host_end h true) w (host_post R B T hold w).
Proof.
  intros (Hi & Hle & Hok & Hrun). destruct h as [|a old|s a|i p|i p s|i p s]; simpl in *; try (by apply wp_raise).
  assert (Hp : is_Some (progs w !! p)).
  { eapply iv_live; [done|]. right. assert (0 < tab w p) by (apply tab_pos; eauto). lia. }
  destruct Hp as [x Hx]. apply wp_bind. unfold runLoaded_end. simpl. apply wp_bind. eapply wp_deref; [done|].
  apply wp_bind, wp_need_vm, wp_ret. unfold host_done. apply wp_bind. simpl. unfold wp at 1. rewrite Hok.
  apply wp_bind. eapply (wp_setfree B T HT hold); [done|by rewrite Hx|done|]. intros m Hdom Hi'. apply wp_ret.
  by apply host_post_quiet.
Qed.

Lemma wp_host_script_close h id w :
  host_pre h w → wp no_uaf (host_script_close h id) w (host_post R B T hold w).
Proof.
  intros (Hi & Hle & Hok & Hrun). destruct h as [|a old|s a|i p|i p s|i p s]; simpl in *; try (by apply wp_raise).
  apply wp_bind. eapply wp_sqcloseProgram; [done..|]. intros o w' Hi' Hev Ho. apply wp_ret.
  assert (evolves B w w') by (eapply evolves_mono; [apply plus_le|done]).
  assert (loadedPrograms w' !! i = Some (Some p)) by (eapply ev_entry; [exact Hev| |done]; rewrite plus_same; lia).
  destruct o as [s|]; split_and!; simpl; auto.
Qed.
End hosts.
End inv.
