(* ===== verification/AcornsProcessSpec.v ===== *)
(** * Properties of the process layer

    The invariant between steps, its preservation by every step of every
    execution, and what follows for the users of the library; then the
    executions in which the code goes wrong. *)

From Stdlib Require Import Ascii.
From stdpp Require Import base numbers gmap strings option list.
From S2P Require Import Prelude AcornsProcess AcornsProcessInv.

Section good.
Context `{Allocator} `{Machine} (r0 : nat) (Hr0 : 1 ≤ r0 ≤ 200).

(** ** Between steps *)

(** The pointers and flags of all threads. *)
Definition refs (w : world) (p : Z) : nat := cnt task_ref p (tasks w).
Definition runs (w : world) (p : Z) : nat := cnt task_run p (tasks w) + cnt host_run p (hosts w).
Definition total (w : world) : nat := cnt_all task_run (tasks w) + cnt_all host_run (hosts w).
Definition holds (w : world) : list Z := omap host_hold (hosts w).

Record good (w : world) : Prop := {
  gd_inv : inv r0 (refs w) (runs w) (total w) (holds w) w;
  gd_run : run_ok (runs w) w;
  gd_task : Forall task_ok (tasks w);
  gd_host : Forall (host_ok w) (hosts w);
  gd_tasks : length (tasks w) = ACORNS_THREADS;
  gd_hosts : length (hosts w) ≤ 64
}.

(** Taking one thread out of the count. *)
Lemma cnt_delete {A} (f : A → option Z) p l i x :
  l !! i = Some x → cnt f p l = cnt f p (delete i l) + one (f x) p.
Proof.
  intros Hi. rewrite <- (take_drop_middle l i x Hi) at 1. rewrite delete_take_drop, !cnt_app, cnt_cons. lia.
Qed.

Lemma cnt_replace {A} (f : A → option Z) p l i x y :
  l !! i = Some x → cnt f p (<[i := y]> l) = cnt f p (delete i l) + one (f y) p.
Proof.
  intros Hi. pose proof (cnt_insert f p l i x y Hi). rewrite (cnt_delete f p l i x Hi) in *. lia.
Qed.

Lemma cnt_other {A} (f : A → option Z) p l i j y :
  i ≠ j → l !! j = Some y → f y = Some p → 0 < cnt f p (delete i l).
Proof.
  intros Hne Hj Hy. apply cnt_pos. destruct (decide (j < i)).
  - exists j, y. by rewrite list_lookup_delete_lt.
  - exists (pred j), y. rewrite list_lookup_delete_ge by lia. by replace (S (pred j)) with j by lia.
Qed.

Lemma cnt_all_app {A} (f : A → option Z) l1 l2 : cnt_all f (l1 ++ l2) = cnt_all f l1 + cnt_all f l2.
Proof. unfold cnt_all. by rewrite filter_app, length_app. Qed.

Lemma cnt_all_delete {A} (f : A → option Z) l i x :
  l !! i = Some x → cnt_all f l = cnt_all f (delete i l) + any (f x).
Proof.
  intros Hi. rewrite <- (take_drop_middle l i x Hi) at 1. rewrite delete_take_drop, !cnt_all_app, cnt_all_cons. lia.
Qed.

Lemma cnt_all_replace {A} (f : A → option Z) l i x y :
  l !! i = Some x → cnt_all f (<[i := y]> l) = cnt_all f (delete i l) + any (f y).
Proof.
  intros Hi. pose proof (cnt_all_insert f l i x y Hi). rewrite (cnt_all_delete f l i x Hi) in *. lia.
Qed.

Lemma omap_option_list {A} (f : A → option Z) x l : omap f (x :: l) = option_list (f x) ++ omap f l.
Proof. simpl. by destruct (f x). Qed.

Lemma holds_delete l i x :
  l !! i = Some x → omap host_hold l ≡ₚ option_list (host_hold x) ++ omap host_hold (delete i l).
Proof.
  intros Hi. rewrite <- (take_drop_middle l i x Hi) at 1.
  rewrite delete_take_drop, !omap_app, omap_option_list, !app_assoc. f_equiv. apply Permutation_app_comm.
Qed.

Lemma holds_replace l i x y :
  l !! i = Some x → omap host_hold (<[i := y]> l) ≡ₚ option_list (host_hold y) ++ omap host_hold (delete i l).
Proof.
  intros Hi. rewrite (holds_delete _ i y) by (by apply list_lookup_insert_eq; eapply lookup_lt_Some).
  by rewrite !delete_take_drop, take_insert_ge, drop_insert_lt by lia.
Qed.

Lemma inv_perm R B T l l' w : l ≡ₚ l' → inv r0 R B T l w → inv r0 R B T l' w.
Proof.
  intros Hp [? ? ? ? ? ? ? Ho [Hnd Hh]]. split; auto.
  - intros p x b Hx Hb. rewrite <- Hp. by apply (Ho p x b).
  - rewrite <- Hp. split; [done|]. intros b. rewrite <- Hp. apply Hh.
Qed.

Lemma inv_threads R B T l w ts hs : inv r0 R B T l w → inv r0 R B T l (with_hosts hs (with_tasks ts w)).
Proof. intros []. by split. Qed.

(** ** Steps *)

(** The state of an API caller is about table entries of running programs
    only. *)
Lemma hosts_evolve B w w' hs :
  (∀ i p, 0 < B p → loadedPrograms w !! i = Some (Some p) → loadedPrograms w' !! i = Some (Some p)) →
  (∀ h, h ∈ hs → ∀ p, host_run h = Some p → 0 < B p) →
  Forall (host_ok w) hs → Forall (host_ok w') hs.
Proof.
  intros Hev HB. rewrite !Forall_forall. intros Hok h Hh. specialize (Hok h Hh). specialize (HB h Hh).
  destruct h; simpl in *; try done.
  - apply Hev; [by apply HB|done].
  - split; [|tauto]. apply Hev; [by apply HB|tauto].
Qed.

Lemma runs_of_host w h p : h ∈ hosts w → host_run h = Some p → 0 < cnt host_run p (hosts w).
Proof. intros [i Hi]%list_elem_of_lookup Hp. apply cnt_pos. eauto. Qed.

Lemma runs_of_task w t r i : tasks w !! t = Some (TClose r (Entry i)) → 0 < cnt task_run (program r) (tasks w).
Proof. intros Ht. apply cnt_pos. eauto. Qed.

Lemma good_total w : good w → total w ≤ 68.
Proof.
  intros Hg. unfold total. pose proof (cnt_all_length task_run (tasks w)). pose proof (cnt_all_length host_run (hosts w)).
  pose proof (gd_tasks _ Hg). pose proof (gd_hosts _ Hg). unfold ACORNS_THREADS in *. lia.
Qed.

(** A pool thread other than [t] that waits for the end of its own program. *)
Definition closes_itself (w : world) (t : nat) (r : Request) (i : nat) : Prop :=
  tasks w !! t = Some (TClose r (Entry i)) ∧ loadedPrograms w !! i = Some (Some (program r)).
Definition keeps_waiting (t : option nat) (w w' : world) : Prop :=
  ∀ t' r i, t ≠ Some t' → closes_itself w t' r i → closes_itself w' t' r i.

(** A step of pool thread [t]. *)
Lemma wp_by_task ok t f w :
  good w →
  (∀ x R B T, tasks w !! t = Some x → (∀ p, R p ≤ 8) → T ≤ 90 →
     task_pre r0 R B T (holds w) x w → (∀ p, cnt host_run p (hosts w) ≤ B p) →
     wp ok (f x) w (task_post r0 R B T (holds w) w)) →
  ok (Raised "not enabled") →
  wp ok (by_task t f) w (λ _ w', good w' ∧ keeps_waiting (Some t) w w').
Proof.
  intros Hg Hf Hok. unfold by_task. apply wp_bind, wp_gets. destruct (tasks w !! t) as [x|] eqn:Hx; [|by apply wp_raise].
  set (R q := cnt task_ref q (delete t (tasks w))).
  set (B q := cnt task_run q (delete t (tasks w)) + cnt host_run q (hosts w)).
  set (T := cnt_all task_run (delete t (tasks w)) + cnt_all host_run (hosts w)).
  assert (HT : T + any (task_run x) = total w).
  { unfold T, total. rewrite (cnt_all_delete _ _ t x Hx). lia. }
  pose proof (good_total w Hg) as Htot. pose proof (gd_tasks _ Hg) as Hlt.
  apply wp_bind. eapply wp_mono; [apply (Hf x R B T); [done| |lia| |]|].
  - intros p. unfold R. pose proof (cnt_length task_ref p (delete t (tasks w))) as Hl.
    rewrite length_delete in Hl by eauto. unfold ACORNS_THREADS in *. lia.
  - split_and!.
    + rewrite HT. eapply inv_ext; [| |apply (gd_inv _ Hg)]; intros q; unfold plus, R, B, refs, runs.
      * by apply cnt_delete.
      * rewrite (cnt_delete _ _ _ t x Hx). lia.
    + intros q. unfold B, T. pose proof (cnt_le_all task_run q (delete t (tasks w))).
      pose proof (cnt_le_all host_run q (hosts w)). lia.
    + eapply Forall_lookup_1; [apply (gd_task _ Hg)|done].
    + eapply run_ok_mono; [|apply (gd_run _ Hg)]. intros q. unfold plus, B, runs. rewrite (cnt_delete _ _ _ t x Hx). lia.
  - intros p. unfold B. lia.
  - intros x' w' (Hi & Hev & Hok' & Hrun). apply wp_modify. destruct Hev as [Ht Hh Hroot He]. rewrite Ht.
    split; [split|]; simpl.
    + apply (inv_threads _ _ _ _ w' (<[t:=x']> (tasks w)) (hosts w')) in Hi. simpl in Hi.
      unfold refs, runs, total, holds. simpl. rewrite Hh. unfold holds in Hi. rewrite Hh in Hi.
      rewrite (cnt_all_replace _ _ t x x' Hx). destruct w'; simpl in *. subst.
      replace (cnt_all task_run (delete t (tasks w)) + any (task_run x') + cnt_all host_run (hosts w))
        with (T + any (task_run x')) by (unfold T; lia).
      eapply inv_ext; [| |exact Hi]; intros q; unfold plus, R, B; rewrite (cnt_replace _ _ _ t x x' Hx); lia.
    + intros q Hq. apply Hrun. unfold runs in Hq. simpl in Hq. rewrite Hh, (cnt_replace _ _ _ t x x' Hx) in Hq.
      unfold plus, B. lia.
    + apply Forall_insert; [apply (gd_task _ Hg)|done].
    + rewrite Hh. eapply (hosts_evolve B w); [exact He| |apply (gd_host _ Hg)].
      intros h Hin p Hp. unfold B. pose proof (runs_of_host w h p Hin Hp). lia.
    + by rewrite length_insert.
    + rewrite Hh. apply (gd_hosts _ Hg).
    + intros t' r i Hne [Ht' Hi']. assert (t ≠ t') by congruence. split; simpl; [by rewrite list_lookup_insert_ne|].
      apply He; [|done]. unfold B. pose proof (cnt_other task_run (program r) (tasks w) t t' _ ltac:(done) Ht' eq_refl). lia.
Qed.

(** A step of API caller [h]. *)
Lemma wp_by_host ok h f w :
  good w →
  (∀ x R B T hold, (∀ p, R p ≤ 10) → T ≤ 90 → host_pre r0 R B T hold x w →
     wp ok (f x) w (host_post r0 R B T hold w)) →
  ok (Raised "not enabled") →
  wp ok (by_host h f) w (λ _ w', good w' ∧ keeps_waiting None w w').
Proof.
  intros Hg Hf Hok. unfold by_host. apply wp_bind, wp_gets. destruct (hosts w !! h) as [x|] eqn:Hx; [|by apply wp_raise].
  set (B q := cnt task_run q (tasks w) + cnt host_run q (delete h (hosts w))).
  set (T := cnt_all task_run (tasks w) + cnt_all host_run (delete h (hosts w))).
  set (hold := omap host_hold (delete h (hosts w))).
  assert (HT : T + any (host_run x) = total w) by (unfold T, total; rewrite (cnt_all_delete _ (hosts w) h x Hx); lia).
  assert (HB : ∀ q, plus B (host_run x) q = runs w q).
  { intros q. unfold plus, B, runs. rewrite (cnt_delete _ _ (hosts w) h x Hx). lia. }
  pose proof (good_total w Hg) as Htot. pose proof (gd_tasks _ Hg) as Hlt.
  apply wp_bind. eapply wp_mono; [apply (Hf x (refs w) B T hold); [|lia|]|].
  - intros p. unfold refs. pose proof (cnt_length task_ref p (tasks w)). unfold ACORNS_THREADS in *. lia.
  - split_and!.
    + rewrite HT. eapply inv_perm; [by apply holds_delete|]. eapply inv_ext; [done| |apply (gd_inv _ Hg)]. done.
    + intros q. unfold B, T. pose proof (cnt_le_all task_run q (tasks w)).
      pose proof (cnt_le_all host_run q (delete h (hosts w))). lia.
    + eapply Forall_lookup_1; [apply (gd_host _ Hg)|done].
    + eapply run_ok_mono; [|apply (gd_run _ Hg)]. intros q. by rewrite HB.
  - intros x' w' (Hi & Hev & Hok'). apply wp_modify. pose proof (gd_run _ Hg) as Hrun.
    destruct Hev as [Ht Hh Hroot He]. rewrite Hh. split; [split|]; simpl.
    + apply (inv_threads _ _ _ _ w' (tasks w') (<[h:=x']> (hosts w))) in Hi.
      unfold refs, runs, total, holds. simpl. rewrite (cnt_all_replace _ (hosts w) h x x' Hx).
      eapply inv_perm; [symmetry; by apply (holds_replace _ h x)|]. destruct w'; simpl in *. subst.
      replace (cnt_all task_run (tasks w) + (cnt_all host_run (delete h (hosts w)) + any (host_run x')))
        with (T + any (host_run x')) by (unfold T; lia).
      eapply inv_ext; [| |exact Hi]; [done|]. intros q. unfold B. rewrite (cnt_replace _ _ (hosts w) h x x' Hx). lia.
    + intros q Hq. unfold runs in Hq. simpl in Hq. rewrite Ht, (cnt_replace _ _ (hosts w) h x x' Hx) in Hq.
      destruct (decide (host_run x' = Some q)) as [Hq'|Hq'].
      * right. apply tab_pos. destruct x'; simplify_eq/=; [eauto|]. destruct Hok'. eauto.
      * assert (HBq : 0 < B q) by (unfold one in Hq; rewrite decide_False in Hq by done; unfold B; lia).
        assert (Hrq : 0 < runs w q) by (rewrite <- HB; pose proof (plus_le B (host_run x) q); lia).
        destruct (Hrun q Hrq) as [Hr|[i Hi']%tab_pos]; [left; simpl; congruence|]. right. apply tab_pos. exists i. by apply He.
    + rewrite Ht. apply (gd_task _ Hg).
    + apply Forall_lookup_2. intros k y [(_ & <- & _)|[Hne Hy]]%list_lookup_insert_Some; [exact Hok'|].
      assert (Hy' : Forall (host_ok w') [y]); [|exact (Forall_inv Hy')].
      eapply (hosts_evolve B w); [exact He| |].
      * intros z ->%list_elem_of_singleton p Hp. unfold B.
        pose proof (cnt_other host_run p (hosts w) h k y Hne Hy Hp). lia.
      * apply Forall_singleton. eapply Forall_lookup_1; [apply (gd_host _ Hg)|done].
    + by rewrite Ht.
    + rewrite length_insert. apply (gd_hosts _ Hg).
    + intros t' r i _ [Ht' Hi']. split; simpl; [by rewrite Ht|]. apply He; [|done]. unfold B.
      pose proof (runs_of_task w t' r i Ht'). lia.
Qed.

(** Steps that touch no thread. *)
Lemma good_quiet w w' :
  good w → inv r0 (refs w) (runs w) (total w) (holds w) w' → evolves (runs w) w w' →
  good w' ∧ keeps_waiting None w w'.
Proof.
  intros Hg Hi Hev. pose proof (run_ok_evolves _ _ _ Hev (gd_run _ Hg)) as Hrun. destruct Hev as [Ht Hh Hr He].
  split; [|intros t' r i _ [Ht' Hi']; split; [by rewrite Ht|apply He; [|done]; unfold runs;
    pose proof (runs_of_task w t' r i Ht'); lia]].
  assert (Hrefs : refs w' = refs w) by (unfold refs; by rewrite Ht).
  assert (Hruns : runs w' = runs w) by (unfold runs; by rewrite Ht, Hh).
  split; rewrite ?Hrefs, ?Hruns; unfold total, holds; rewrite ?Ht, ?Hh; try apply Hg; [done|done|].
  eapply (hosts_evolve (runs w) w); [exact He| |apply (gd_host _ Hg)].
  intros h Hin p Hp. unfold runs. pose proof (runs_of_host w h p Hin Hp). lia.
Qed.

(** [xQueueReceive] turns the queue's pointer into one of the thread. *)
Lemma wp_receive R B T hold x w :
  task_pre r0 R B T hold x w → wp no_uaf (receive x) w (task_post r0 R B T hold w).
Proof.
  intros (Hi & Hle & _ & Hrun). destruct x; try (by apply wp_raise). unfold receive. apply wp_bind, wp_gets.
  destruct (request_queue w) as [|r q] eqn:Hq; [by apply wp_raise|]. apply wp_bind, wp_modify, wp_ret.
  unfold task_post. simpl in *. split_and!; [|done..].
  assert (Hque : ∀ p, que w p = one (Some (program r)) p + que (with_queue q w) p).
  { intros p. unfold que. by rewrite Hq, cnt_cons. }
  assert (Hone : ∀ p, plus R (Some (program r)) p + que (with_queue q w) p = plus R None p + que w p).
  { intros p. unfold plus at 2. rewrite Hque. unfold plus, one at 2. rewrite decide_False by done. lia. }
  destruct Hi as [Hroot Hp Hl Ht Hs Hqu Hb Ho Hh]. split; simpl; auto.
  - intros p y Hy. specialize (Hp p y Hy). specialize (Hone p). unfold prog_ok in *. simpl.
    change (tab (with_queue q w) p) with (tab w p). rewrite <- Nat.add_assoc, Hone, Nat.add_assoc. done.
  - intros p Hp'. apply Hl. destruct Hp' as [?|Hp']; [by left|right]. specialize (Hone p).
    change (tab (with_queue q w) p) with (tab w p) in Hp'. lia.
  - rewrite Hq in Hqu. simpl in Hqu. lia.
Qed.

(** The executions covered: a synchronous run that ends with an error is the
    subject of its own theorem. *)
Definition regular (e : event) : Prop := match e with EHostEnd _ false => False | _ => True end.

(** Only a caller that waits in [_loadProgram] can follow a dangling pointer. *)
Definition allowed (e : event) : fault → Prop := match e with EHost _ => no_oof | _ => no_uaf end.

Definition event_task (e : event) : option nat :=
  match e with EReceive t | ETask t | ETaskEnd t _ | ETaskScript t _ => Some t | _ => None end.

Lemma exec_good e w :
  good w → regular e → wp (allowed e) (exec e) w (λ _ w', good w' ∧ keeps_waiting (event_task e) w w').
Proof.
  intros Hg Hreg. pose proof (good_total w Hg) as Htot. pose proof (gd_tasks _ Hg) as Hlt.
  assert (HR : ∀ p, refs w p ≤ 10).
  { intros p. unfold refs. pose proof (cnt_length task_ref p (tasks w)). unfold ACORNS_THREADS in *. lia. }
  destruct e as [h c id sy wd|h id fo|h|h ok|h id|id d n pos|id|id|t|t|t ok|t id]; simpl.
  - apply wp_by_host; [done| |done]. intros. by apply wp_loadProgram_idle.
  - apply wp_by_host; [done| |done]. intros. by apply wp_closeProgram_idle.
  - apply wp_by_host; [done| |done]. intros. by apply wp_host_lock.
  - destruct ok; [|done]. apply wp_by_host; [done| |done]. intros. by apply wp_host_end.
  - apply wp_by_host; [done| |done]. intros. by apply wp_host_script_close.
  - eapply wp_writeToInput; [apply (gd_inv _ Hg)|]. intros w' Hi Hev. by eapply good_quiet.
  - eapply wp_clearInput; [apply (gd_inv _ Hg)|]. intros w' Hi Hev. by eapply good_quiet.
  - apply wp_bind. eapply wp_programForId; [apply (gd_inv _ Hg)|]. intros [p|] Hp; [|apply wp_ret; split; [done|by intros t' r i _ ?]].
    destruct (Hp p eq_refl) as (x & Hx & _ & Ht). eapply wp_makeRequest_on; [done|done|apply (gd_inv _ Hg)| |].
    + destruct id; auto.
    + intros w' Hi Hev _. by eapply good_quiet.
  - apply wp_by_task; [done| |done]. intros. by apply wp_receive.
  - apply wp_by_task; [done| |done]. intros. by apply wp_task_lock.
  - apply wp_by_task; [done| |done]. intros. by apply wp_task_end.
  - apply wp_by_task; [done| |done]. intros. by apply wp_task_script_close.
Qed.

Lemma cnt_replicate {A} (f : A → option Z) p n x : f x = None → cnt f p (replicate n x) = 0.
Proof. intros Hx. induction n; [done|]. simpl. rewrite cnt_cons, IHn, Hx. unfold one. by rewrite decide_False. Qed.

Lemma cnt_all_replicate {A} (f : A → option Z) n x : f x = None → cnt_all f (replicate n x) = 0.
Proof. intros Hx. induction n; [done|]. simpl. by rewrite cnt_all_cons, IHn, Hx. Qed.

Lemma begin_good callers : callers ≤ 64 → good (begin_world (Z.of_nat r0) callers).
Proof.
  intros Hc. set (w := begin_world _ _).
  assert (Hrefs : ∀ p, refs w p = 0) by (intros; by apply cnt_replicate).
  assert (Hruns : ∀ p, runs w p = 0) by (intros; unfold runs; simpl; by rewrite !cnt_replicate).
  assert (Htab : ∀ p, tab w p = 0) by (intros; by apply cnt_replicate).
  assert (Hque : ∀ p, que w p = 0) by done.
  assert (Htot : total w = 0) by (unfold total; simpl; by rewrite !cnt_all_replicate).
  assert (Hhold : holds w = []) by (unfold holds; simpl; clear; induction callers; simpl; auto).
  assert (Hpr : progs w = {[1%Z := begin_root (Z.of_nat r0)]}) by done.
  split; [split|..].
  - by exists 1%Z.
  - intros p x. rewrite Hpr. intros [<- <-]%lookup_singleton_Some. unfold prog_ok. rewrite decide_True by done.
    rewrite Hrefs, Hque, Htot. simpl. split_and!; [done..|lia|done].
  - intros p [[= <-]|Hp]; [simpl; by rewrite lookup_singleton_eq|]. rewrite Hrefs, Hque, Htab in Hp. lia.
  - intros p. rewrite Htab. lia.
  - done.
  - simpl. unfold QUEUE_LEN. lia.
  - intros p. rewrite Hruns. lia.
  - intros p x b. rewrite Hpr. by intros [<- <-]%lookup_singleton_Some.
  - rewrite Hhold. split; [constructor|]. by intros b ?%elem_of_nil.
  - intros p Hp. rewrite Hruns in Hp. lia.
  - apply Forall_replicate. done.
  - apply Forall_replicate. done.
  - done.
  - simpl. by rewrite length_replicate.
Qed.

Lemma run_good es w w' : good w → Forall regular es → run es w = Ok w' → good w'.
Proof.
  revert w. induction es as [|e es IH]; intros w Hg Hreg Hrun; unfold run in *; simpl in *; [by simplify_eq|].
  apply Forall_cons in Hreg as [He Hes]. pose proof (exec_good e w Hg He) as Hw. unfold wp in Hw.
  destruct (exec e w) as [[[] w1]|]; simpl in *; [|done]. destruct Hw. by eapply IH.
Qed.

(** The thread itself finds its program busy whenever it looks. *)
Lemma closes_itself_step e w w' t r i :
  good w → regular e → closes_itself w t r i → exec e w = Ok ((), w') → good w' ∧ closes_itself w' t r i.
Proof.
  intros Hg Hreg Hc He. pose proof (exec_good e w Hg Hreg) as Hw. unfold wp in Hw. rewrite He in Hw.
  destruct Hw as [Hg' Hkeep]. split; [done|].
  destruct (decide (event_task e = Some t)) as [Het|]; [|by apply Hkeep].
  destruct Hc as [Ht Hi]. assert (Hlt : t < length (tasks w)) by (by eapply lookup_lt_Some).
  destruct e as [| | | | | | | |t0|t0|t0 ok|t0 id]; simplify_eq/=; unfold by_task, mbind, stM_bind, gets in He; rewrite Ht in He; try done.
  simpl in He. unfold close_try, mbind, stM_bind in He. simpl in He. rewrite Hi in He.
  assert (Htab : 0 < tab w (program r)) by (apply tab_pos; eauto).
  destruct (iv_live _ _ _ _ _ _ (gd_inv _ Hg) (program r)) as [x Hx]; [right; lia|].
  unfold deref in He. rewrite Hx in He. pose proof (iv_prog _ _ _ _ _ _ (gd_inv _ Hg) _ x Hx) as Hok.
  unfold prog_ok in Hok. destruct (iv_root _ _ _ _ _ _ (gd_inv _ Hg)) as (rt & Hr & Htr).
  rewrite decide_False in Hok by (intros Hr'; simplify_eq; lia). destruct Hok as (_ & _ & _ & Hb & _).
  pose proof (runs_of_task w t r i Ht). unfold runs in Hb. destruct (Z.eqb_spec (busy x) 0); [lia|].
  simpl in He. injection He as <-. split; simpl; [by apply list_lookup_insert_eq|done].
Qed.
End good.

(** ** Properties *)

(** The state after some steps of API callers and pool threads. *)
Definition reachable `{Allocator} `{Machine} (junk : Z) (callers : nat) (w : world) : Prop :=
  ∃ es, Forall regular es ∧ run es (begin_world junk callers) = Ok w.

Lemma reachable_good `{Allocator} `{Machine} junk callers w :
  (1 ≤ junk ≤ 200)%Z → callers ≤ 64 → reachable junk callers w → good (Z.to_nat junk) w.
Proof.
  intros Hj Hc (es & Hreg & Hrun). eapply run_good; [|apply begin_good; [|exact Hc]|exact Hreg|].
  - lia.
  - lia.
  - by rewrite Z2Nat.id by lia.
Qed.

(** A concrete machine: every text compiles, fresh memory is zero. *)
Definition demo_machine : Machine :=
  {| compiles := λ _, true; stale := λ _, replicate 24 Ascii.zero; stale_length := λ _, eq_refl |}.

(** A text long enough to be a version, and a name. *)
Definition demo_code : list ascii := String.list_ascii_of_string "//version one of the demo program".
Definition demo_id : list ascii := String.list_ascii_of_string "demo".

(** The program is loaded, and a pool thread is about to start it. *)
Definition demo_start : list event := [ELoad 0 (Some demo_code) demo_id false None; EReceive 0].

Definition demo_run (es : list event) : res world :=
  @run fresh_allocator demo_machine es (@begin_world demo_machine 1 2).

Lemma demo_reachable es w :
  Forall regular es → demo_run es = Ok w → @reachable fresh_allocator demo_machine 1 2 w.
Proof. intros Hreg Hrun. by exists es. Qed.

Lemma demo_start_runs : ∃ w, demo_run demo_start = Ok w.
Proof.
  assert (Hok : match demo_run demo_start with Ok _ => true | Err _ => false end = true) by (vm_compute; reflexivity).
  destruct (demo_run demo_start) as [w|]; [by exists w|done].
Qed.

Lemma demo_start_regular : Forall regular demo_start.
Proof. by repeat constructor. Qed.

(** C3: in every execution of loads, closes, buffer writes, requests and script
    runs by up to 64 API callers and the four pool threads, in any order of
    their steps, in which no synchronous run of a caller ends with an error and
    the uninitialised reference count of the root program was between 1 and 200:
    the reference count of a loaded program is the number of its table entries
    plus the queued requests plus the pool threads that hold it, its busy flag
    the number of threads that run it, it has an interpreter exactly while it is
    in the table, and everything that is pointed to is still allocated. *)
Theorem program_counts_exact `{Allocator} `{Machine} junk callers w :
  (1 ≤ junk ≤ 200)%Z → callers ≤ 64 → reachable junk callers w →
  (∀ p x, progs w !! p = Some x → rootInterpreter w ≠ Some p →
     refcount x = Z.of_nat (cnt id p (loadedPrograms w) + cnt (λ r, Some (program r)) p (request_queue w)
                            + cnt task_ref p (tasks w)) ∧
     (0 < refcount x)%Z ∧
     busy x = Z.of_nat (cnt task_run p (tasks w) + cnt host_run p (hosts w)) ∧
     (vm x = true ↔ Some p ∈ loadedPrograms w)) ∧
  (∀ p, (Some p ∈ loadedPrograms w) ∨ (∃ r, r ∈ request_queue w ∧ program r = p) ∨
        (∃ t, t ∈ tasks w ∧ task_ref t = Some p) → is_Some (progs w !! p)).
Proof.
  intros Hj Hc Hr. pose proof (reachable_good _ _ _ Hj Hc Hr) as Hg. pose proof (gd_inv _ _ Hg) as Hi. split.
  - intros p x Hx Hroot. pose proof (iv_prog _ _ _ _ _ _ Hi p x Hx) as Hok. unfold prog_ok in Hok.
    rewrite decide_False in Hok by done. destruct Hok as (_ & Hrc & Hpos & Hb & Hvm).
    unfold refs, runs, que in *. split_and!; [rewrite Hrc; unfold tab; lia|lia|done|].
    rewrite Hvm, tab_pos, list_elem_of_lookup. done.
  - intros p Hp. eapply (iv_live _ _ _ _ _ _ Hi). right.
    enough (0 < refs w p ∨ 0 < que w p ∨ 0 < tab w p) by lia. unfold refs, que. rewrite tab_pos, !cnt_pos.
    destruct Hp as [[i ?]%list_elem_of_lookup|[(r & [i ?]%list_elem_of_lookup & <-)|(t & [i ?]%list_elem_of_lookup & ?)]];
      eauto 10.
Qed.

Lemma program_counts_exact_witness :
  ∃ w, demo_run demo_start = Ok w ∧
    ∀ p x, progs w !! p = Some x → rootInterpreter w ≠ Some p → (0 < refcount x)%Z.
Proof.
  destruct demo_start_runs as [w Hw]. exists w. split; [exact Hw|]. intros p x Hx Hr.
  destruct (@program_counts_exact fresh_allocator demo_machine 1 2 w ltac:(lia) ltac:(lia)
    (demo_reachable _ _ demo_start_regular Hw)) as [H _].
  apply (H p x Hx Hr).
Defined.

(** C13: in an execution as above (up to 64 callers, no synchronous run that
    ended with an error, a root program whose uninitialised count was between 1
    and 200) no step follows a dangling pointer, except possibly one of an API
    caller that waits for a busy program and the end of a synchronous run with
    an error: neither the pool threads, whenever they wake up, nor the callers
    that load, close, write to or run a program touch a freed structure or a
    freed buffer, and none frees anything twice. *)
Theorem process_steps_memory_safe `{Allocator} `{Machine} junk callers w e :
  (1 ≤ junk ≤ 200)%Z → callers ≤ 64 → reachable junk callers w →
  regular e → (∀ h, e ≠ EHost h) → exec e w ≠ Err UseAfterFree ∧ exec e w ≠ Err OutOfFuel.
Proof.
  intros Hj Hc Hr He Hh. pose proof (reachable_good _ _ _ Hj Hc Hr) as Hg.
  pose proof (exec_good (Z.to_nat junk) ltac:(lia) e w Hg He) as Hw. unfold wp in Hw.
  assert (Hal : allowed e = no_uaf) by (destruct e; try done; by destruct (Hh h)). rewrite Hal in Hw.
  destruct (exec e w) as [[]|f]; [done|]. unfold no_uaf in Hw. naive_solver.
Qed.

Lemma process_steps_memory_safe_witness :
  ∃ w, demo_run demo_start = Ok w ∧ @exec fresh_allocator demo_machine (ETask 0) w ≠ Err UseAfterFree.
Proof.
  destruct demo_start_runs as [w Hw]. exists w. split; [exact Hw|].
  apply (@process_steps_memory_safe fresh_allocator demo_machine 1 2 w (ETask 0) ltac:(lia) ltac:(lia)
    (demo_reachable _ _ demo_start_regular Hw) I). discriminate.
Defined.

Definition chars (s : string) : list ascii := String.list_ascii_of_string s.

(** C34: a script that calls [forceClose] with the name of its own program never
    gets any further: its pool thread waits for the busy flag that it holds
    itself, in every continuation of the execution, for up to 64 API callers, as
    long as no synchronous run of a caller ends with an error (after which the code
    uses the program it has freed) and if the uninitialised count of the root
    program was between 1 and 200. *)
Theorem self_close_never_returns `{Allocator} `{Machine} junk callers w t r i es w' :
  (1 ≤ junk ≤ 200)%Z → callers ≤ 64 → reachable junk callers w →
  tasks w !! t = Some (TClose r (Entry i)) → loadedPrograms w !! i = Some (Some (program r)) →
  Forall regular es → run es w = Ok w' → tasks w' !! t = Some (TClose r (Entry i)).
Proof.
  intros Hj Hc Hr Ht Hi. pose proof (reachable_good _ _ _ Hj Hc Hr) as Hg. clear Hr.
  assert (Hci : closes_itself w t r i) by done. clear Ht Hi. revert w Hg Hci.
  induction es as [|e es IH]; intros w Hg Hci Hreg Hrun; unfold run in *; simpl in *; [simplify_eq; apply Hci|].
  apply Forall_cons in Hreg as [He Hes]. destruct (exec e w) as [[[] w1]|] eqn:Hex; simpl in *; [|done].
  destruct (closes_itself_step (Z.to_nat junk) ltac:(lia) e w w1 t r i Hg He Hci Hex). by eapply IH.
Qed.

(** The program is running and closes itself; meanwhile others go on. *)
Definition demo_self_close : list event := demo_start ++ [ETask 0; ETaskScript 0 demo_id].

Lemma self_close_never_returns_witness :
  ∃ w w', demo_run demo_self_close = Ok w ∧
    @run fresh_allocator demo_machine [ETask 0; EWrite (Some demo_id) (text_block demo_code) (-1) (-1); ETask 0] w = Ok w' ∧
    tasks w' !! 0 = Some (TClose (mkRequest 2 (RunLoaded true)) (Entry 0)).
Proof.
  assert (Hok : match demo_run demo_self_close with
    | Ok w => bool_decide (tasks w !! 0 = Some (TClose (mkRequest 2 (RunLoaded true)) (Entry 0))) &&
              bool_decide (loadedPrograms w !! 0 = Some (Some 2%Z)) &&
              match @run fresh_allocator demo_machine
                [ETask 0; EWrite (Some demo_id) (text_block demo_code) (-1) (-1); ETask 0] w with
              | Ok _ => true | Err _ => false end
    | Err _ => false end = true) by (vm_compute; reflexivity).
  destruct (demo_run demo_self_close) as [w|] eqn:Hw; [|done].
  apply andb_true_iff in Hok as [[Ht%bool_decide_eq_true Hp%bool_decide_eq_true]%andb_true_iff Hok].
  destruct (@run fresh_allocator demo_machine _ w) as [w'|] eqn:Hw'; [|done].
  exists w, w'. split; [reflexivity|]. split; [exact Hw'|].
  apply (@self_close_never_returns fresh_allocator demo_machine 1 2 w 0 (mkRequest 2 (RunLoaded true)) 0
    [ETask 0; EWrite (Some demo_id) (text_block demo_code) (-1) (-1); ETask 0] w'); [lia|lia| | | | |exact Hw'].
  - apply (demo_reachable demo_self_close); [by repeat constructor|exact Hw].
  - exact Ht.
  - exact Hp.
  - by repeat constructor.
Defined.

(** ** Executions that go wrong *)

(** A caller of [loadProgram] that waits for the old version of the program
    holds a pointer that is not counted.  When the script of the old version
    fails in the meantime, its pool thread closes and frees the program, and the
    caller reads the freed structure. *)
Lemma load_wait_reads_freed_program :
  demo_run [ELoad 0 (Some demo_code) demo_id false None; EReceive 0; ETask 0;
            ELoad 1 (Some (chars "//version two of the demo program")) demo_id false None;
            ETaskEnd 0 false; EHost 1]
  = Err UseAfterFree.
Proof. vm_compute. reflexivity. Qed.

(** A program closed between [loadProgram] and the start of its pool thread:
    the thread tests [vm] only after a wait, so it runs a program whose
    interpreter is gone. *)
Lemma closed_before_start_runs_null_vm :
  demo_run (demo_start ++ [EClose 1 demo_id false; ETask 0]) = Err AssertFail.
Proof. vm_compute. reflexivity. Qed.

(** [runProgram] with a script that fails: the only reference is the table's,
    so [_closeProgram] in [runLoaded] frees the program that [_setbusy] then
    marks busy. *)
Lemma failed_synchronous_run_touches_freed_program :
  demo_run [ELoad 0 (Some demo_code) demo_id true None; EHostEnd 0 false] = Err UseAfterFree.
Proof. vm_compute. reflexivity. Qed.

(** Loading the version that is already loaded detaches the input buffer but
    keeps its length; the next appended write goes to that offset of a new,
    smaller buffer. *)
Lemma reload_then_append_overflows :
  demo_run (demo_start ++ [EWrite (Some demo_id) (text_block (chars "print(1);")) (-1) (-1);
                           ELoad 1 (Some demo_code) demo_id false None;
                           EWrite (Some demo_id) (text_block (chars "print(2);")) (-1) (-1)])
  = Err OutOfBounds.
Proof. vm_compute. reflexivity. Qed.

(** Executions that go wrong. A caller of [loadProgram] waits for the old
    version with a pointer that is not counted, and reads it after the failing
    script of that version has had it closed. [runProgram] with a script that
    fails marks the program busy that [runLoaded] has just freed. A pool thread
    runs a program that was closed before it started. And a write appended to the
    input after the same version was loaded again goes to the old offset of a new
    buffer. *)
Lemma process_executions_fault :
  demo_run [ELoad 0 (Some demo_code) demo_id false None; EReceive 0; ETask 0;
            ELoad 1 (Some (chars "//version two of the demo program")) demo_id false None;
            ETaskEnd 0 false; EHost 1] = Err UseAfterFree ∧
  demo_run [ELoad 0 (Some demo_code) demo_id true None; EHostEnd 0 false] = Err UseAfterFree ∧
  demo_run (demo_start ++ [EClose 1 demo_id false; ETask 0]) = Err AssertFail ∧
  demo_run (demo_start ++ [EWrite (Some demo_id) (text_block (chars "print(1);")) (-1) (-1);
                           ELoad 1 (Some demo_code) demo_id false None;
                           EWrite (Some demo_id) (text_block (chars "print(2);")) (-1) (-1)]) = Err OutOfBounds.
Proof.
  split_and!; [apply load_wait_reads_freed_program|apply failed_synchronous_run_touches_freed_program|
    apply closed_before_start_runs_null_vm|apply reload_then_append_overflows].
Qed.
