(* ===== verification/AcornsInput.v ===== *)
(** * Input buffers of programs (acorns.cpp [writeToInput], [_runInputBuffer])

    What a host writes in pieces is the text that runs. *)

From Stdlib Require Import Ascii.
From stdpp Require Import base numbers gmap strings option list.
From S2P Require Import Prelude AcornsProcess AcornsProcessInv AcornsProcessSpec.

Section input.
Context `{Allocator} `{Machine}.

(** The input buffer of [p] holds [l], in a block of [cap] bytes. *)
Definition input_is (w : world) (p : Z) (l : list ascii) (cap : nat) : Prop :=
  ∃ x, progs w !! p = Some x ∧ inputBufferLen x = Z.of_nat (length l) ∧
    match inputBuffer x with
    | None => l = [] ∧ cap = 0
    | Some b => ∃ blk : block, bufs w !! b = Some blk ∧ length blk = cap ∧ 0 < cap ∧ take (length l) blk = Some <$> l
    end.

(** Changes that keep the table and the names. *)
Definition same_names (w w' : world) : Prop :=
  rootInterpreter w' = rootInterpreter w ∧ loadedPrograms w' = loadedPrograms w ∧
  ∀ q, (name_of <$> progs w' !! q) = (name_of <$> progs w !! q) ∧ (vm <$> progs w' !! q) = (vm <$> progs w !! q).

Lemma find_entry_names id j t w w' o :
  (∀ q, (name_of <$> progs w' !! q) = (name_of <$> progs w !! q)) →
  find_entry id j t w = Ok (o, w) → find_entry id j t w' = Ok (o, w').
Proof.
  intros Hn. revert j. induction t as [|[q|] t IH]; intros j; simpl; [by intros [= <-]| |apply IH].
  unfold mbind, stM_bind, deref. specialize (Hn q).
  destruct (progs w !! q) as [x|], (progs w' !! q) as [x'|]; simplify_eq/=; try done.
  rewrite Hn. case_bool_decide; [by intros [= <-]|apply IH].
Qed.

Lemma programForId_names id w w' o :
  same_names w w' → _programForId id w = Ok (o, w) → _programForId id w' = Ok (o, w').
Proof.
  intros (Hr & Ht & Hn) Hf. destruct id as [id|]; simpl in *; [|unfold gets in *; congruence].
  unfold mbind, stM_bind, gets in *. rewrite Ht. assert (Hpure : ∀ j t o w2, find_entry id j t w = Ok (o, w2) → w2 = w).
  { intros j t. revert j. clear. induction t as [|[q|] t IH]; intros j o w2; simpl; [by intros [= _ <-]| |apply IH].
    unfold mbind, stM_bind, deref. destruct (progs w !! q); [|done]. case_bool_decide; [by intros [= _ <-]|apply IH]. }
  destruct (find_entry id 0 (loadedPrograms w) w) as [[i w2]|] eqn:Hi; [|done].
  pose proof (Hpure _ _ _ _ Hi) as ->. rewrite (find_entry_names _ _ _ w w' _ (λ q, proj1 (Hn q)) Hi).
  destruct i as [i|]; simpl in *; [|by injection Hf as <-]. rewrite Ht. destruct (loadedPrograms w !! i); congruence.
Qed.

Lemma read_bytes_all s (rest : block) : read_bytes (length s) ((Some <$> s) ++ rest) = Ok s.
Proof. induction s as [|c s IH]; [done|]. rewrite fmap_cons. simpl. by rewrite IH. Qed.

Lemma write_bytes_end (blk : block) l s n :
  take (length l) blk = Some <$> l → n = length l → length l + length s ≤ length blk →
  ∃ blk', write_bytes blk (Z.of_nat n) s = Ok blk' ∧ length blk' = length blk ∧
          take (length (l ++ s)) blk' = Some <$> (l ++ s).
Proof.
  intros Ht -> Hlen. unfold write_bytes. rewrite (proj2 (Z.leb_le _ _)), (proj2 (Z.leb_le _ _)) by lia. cbn [andb].
  eexists. split; [done|]. rewrite Nat2Z.id, Ht. split.
  - rewrite !length_app, !length_fmap, length_drop. lia.
  - rewrite app_assoc, <- fmap_app, take_app_le by (by rewrite length_fmap). rewrite take_ge; [done|by rewrite length_fmap].
Qed.

(** The block of the next write holds what was written. *)
Lemma input_block_spec w p x l cap len size :
  progs w !! p = Some x → inputBufferLen x = Z.of_nat (length l) →
  match inputBuffer x with
  | None => l = [] ∧ cap = 0
  | Some b => ∃ blk : block, bufs w !! b = Some blk ∧ length blk = cap ∧ 0 < cap ∧ take (length l) blk = Some <$> l
  end →
  (0 ≤ len)%Z → (Z.of_nat (length l) ≤ size)%Z →
  ∃ b w' x' (blk : block), input_block p x len size w = Ok (b, w') ∧ same_names w w' ∧ progs w' !! p = Some x' ∧
    name_of x' = name_of x ∧ vm x' = vm x ∧ bufs w' !! b = Some blk ∧ take (length l) blk = Some <$> l ∧
    length blk = (if decide (inputBuffer x = None) then Z.to_nat (len + 2) else Z.to_nat size).
Proof.
  intros Hx Hl Hb Hlen Hsize. destruct (inputBuffer x) as [b|] eqn:Hbx.
  - destruct Hb as (blk & Hblk & _ & _ & Htake).
    assert (Hrun : input_block p x len size w = Ok (b, with_bufs (<[b := realloc blk size]> (bufs w)) w)).
    { unfold input_block. rewrite Hbx. unfold mbind, stM_bind, buffer. by rewrite Hblk. }
    exists b, (with_bufs (<[b := realloc blk size]> (bufs w)) w), x, (realloc blk size).
    split_and!; [done..|apply lookup_insert_eq| |]; unfold realloc.
    + apply (f_equal length) in Htake as Hlt. rewrite length_take, length_fmap in Hlt.
      rewrite take_app_le, take_take, Nat.min_l, Htake by (rewrite ?length_take; lia). done.
    + rewrite decide_False by done. rewrite length_app, length_replicate, length_take. lia.
  - destruct Hb as [-> ->]. set (b := malloc (dom (progs w) ∪ dom (bufs w))).
    set (blk := replicate (Z.to_nat (len + 2)) None : block).
    assert (Hrun : input_block p x len size w =
      Ok (b, with_progs (<[p := set_input (Some b) 0 x]> (progs w)) (with_bufs (<[b := blk]> (bufs w)) w))).
    { unfold input_block. rewrite Hbx. unfold update, mbind, stM_bind, deref. simpl. by rewrite Hx. }
    eexists b, _, (set_input (Some b) 0 x), blk. split; [exact Hrun|]. simpl. rewrite !lookup_insert_eq.
    split_and!; try done.
    + split_and!; [done..|]. intros q. simpl. destruct (decide (p = q)) as [<-|].
      * by rewrite lookup_insert_eq, Hx.
      * by rewrite lookup_insert_ne.
    + unfold blk. by rewrite length_replicate.
Qed.

Lemma same_names_trans w1 w2 w3 : same_names w1 w2 → same_names w2 w3 → same_names w1 w3.
Proof. intros (? & ? & Hn1) (? & ? & Hn2). split_and!; [congruence..|]. intros q. destruct (Hn1 q), (Hn2 q). split; congruence. Qed.

(** One appended chunk. *)
Lemma write_chunk id w p l cap s rest :
  _programForId id w = Ok (Some p, w) → input_is w p l cap →
  ∃ w', writeToInput id ((Some <$> s) ++ rest) (Z.of_nat (length s)) (-1) w = Ok ((), w') ∧ same_names w w' ∧
    ∃ cap', input_is w' p (l ++ s) cap' ∧ 0 < cap' ∧ (cap = 0 ∨ length s ≠ 1 → length (l ++ s) < cap').
Proof.
  intros Hf (x & Hx & Hlen & Hb). unfold writeToInput. unfold mbind at 1, stM_bind at 1. rewrite Hf.
  unfold mbind at 1, stM_bind at 1, deref at 1. rewrite Hx.
  rewrite (proj2 (Z.eqb_neq (Z.of_nat (length s)) (-1))) by lia. unfold mbind at 1, stM_bind at 1. simpl.
  rewrite (proj2 (Z.ltb_ge (Z.of_nat (length s)) 0)) by lia. unfold mbind at 1, stM_bind at 1, lift at 1.
  rewrite Nat2Z.id, read_bytes_all. set (add := if (Z.of_nat (length s) =? 1)%Z then 0%Z else 1%Z).
  assert (0 ≤ add)%Z by (unfold add; destruct (_ =? 1)%Z; lia). rewrite Hlen.
  destruct (input_block_spec w p x l cap (Z.of_nat (length s)) (Z.of_nat (length s) + Z.of_nat (length l) + add) Hx Hlen Hb)
    as (b & w1 & x1 & blk & Hrun & Hsame & Hx1 & Hname & Hvm & Hblk & Htake & Hsize); [lia..|].
  unfold mbind at 1, stM_bind at 1. rewrite Hrun. unfold mbind at 1, stM_bind at 1, buffer at 1. rewrite Hblk.
  assert (Hroom : length l + length s ≤ length blk).
  { rewrite Hsize. case_decide as Hn; [rewrite Hn in Hb; destruct Hb as [-> _]; simpl; lia|lia]. }
  destruct (write_bytes_end blk l s (length l) Htake eq_refl Hroom) as (blk' & Hw & Hlen' & Htake').
  unfold mbind at 1, stM_bind at 1, lift. rewrite Hw. simpl. unfold mbind, stM_bind, update, mbind, stM_bind, deref. simpl.
  rewrite Hx1. eexists. split; [done|]. split.
  { eapply same_names_trans; [exact Hsame|]. split_and!; [done..|]. intros q. simpl. destruct (decide (p = q)) as [<-|].
    - by rewrite lookup_insert_eq, Hx1.
    - by rewrite lookup_insert_ne. }
  assert (Hcap' : 0 < length blk').
  { rewrite Hlen', Hsize. case_decide; [lia|]. unfold add in *. destruct (Z.eqb_spec (Z.of_nat (length s)) 1); lia. }
  exists (length blk'). split_and!; [|done|].
  - eexists. simpl. rewrite lookup_insert_eq. split_and!; [done|simpl; rewrite length_app; lia|].
    simpl. exists blk'. by rewrite lookup_insert_eq.
  - intros Hor. rewrite Hlen', Hsize, length_app. case_decide as Hn.
    + rewrite Hn in Hb. destruct Hb as [-> _]. simpl. lia.
    + destruct Hor as [->|Hne].
      * destruct (inputBuffer x); [|done]. destruct Hb as (? & _ & _ & ? & _). lia.
      * unfold add. rewrite (proj2 (Z.eqb_neq (Z.of_nat (length s)) 1)) by lia. lia.
Qed.

(** The writes of a host that sends a text in pieces. *)
Definition send (id : option (list ascii)) (chunks : list (list ascii)) : list event :=
  (λ s, EWrite id (Some <$> s) (Z.of_nat (length s)) (-1)) <$> chunks.

Lemma run_write id data n w w' :
  writeToInput id data n (-1) w = Ok ((), w') → run [EWrite id data n (-1)] w = Ok w'.
Proof. intros Hw. unfold run. simpl. by rewrite Hw. Qed.

Lemma run_app es1 es2 w : run (es1 ++ es2) w = (run es1 w ≫= run es2).
Proof. apply fold_res_app. Qed.

Lemma send_spec id w p chunks l cap :
  _programForId id w = Ok (Some p, w) → input_is w p l cap →
  ∃ w' cap', run (send id chunks) w = Ok w' ∧ same_names w w' ∧ input_is w' p (l ++ concat chunks) cap' ∧
    (chunks = [] → cap' = cap).
Proof.
  revert w l cap. induction chunks as [|s chunks IH]; intros w l cap Hf Hin.
  - exists w, cap. rewrite app_nil_r. split_and!; [done| |done|done]. by split_and!.
  - destruct (write_chunk id w p l cap s [] Hf Hin) as (w1 & Hw & Hs1 & cap1 & Hin1 & _).
    rewrite app_nil_r in Hw.
    destruct (IH w1 (l ++ s) cap1) as (w2 & cap2 & Hrun & Hs2 & Hin2 & _); [by eapply programForId_names|done|].
    exists w2, cap2. split_and!; [|by eapply same_names_trans|simpl; by rewrite app_assoc|done].
    change (send id (s :: chunks)) with ([EWrite id (Some <$> s) (Z.of_nat (length s)) (-1)] ++ send id chunks).
    by rewrite run_app, (run_write _ _ _ _ _ Hw).
Qed.

Lemma read_cstr_text (s : list ascii) (rest : block) :
  Ascii.zero ∉ s → read_cstr ((Some <$> s) ++ Some Ascii.zero :: rest) = Ok s.
Proof.
  induction s as [|c s IH]; [done|]. rewrite not_elem_of_cons, fmap_cons. intros [Hc Hs]. simpl.
  rewrite bool_decide_eq_false_2 by congruence. by rewrite IH.
Qed.

(** [_runInputBuffer] compiles what was written, if there is room for the
    terminator. *)
Lemma runInputBuffer_begin_spec w p l cap x :
  input_is w p l cap → progs w !! p = Some x → vm x = true → length l < cap → Ascii.zero ∉ l →
  ∃ w', runInputBuffer_begin p w = Ok (compiles l, w').
Proof.
  intros (x' & Hx & Hlen & Hb) Hx' Hvm Hroom Hz. rewrite Hx in Hx'. injection Hx' as ->. destruct (inputBuffer x) as [b|] eqn:Hbx; [|lia].
  destruct Hb as (blk & Hblk & Hcap & _ & Htake).
  assert (Hw : write_bytes blk (Z.of_nat (length l)) [Ascii.zero]
    = Ok ((Some <$> l) ++ Some Ascii.zero :: drop (length l + 1) blk)).
  { unfold write_bytes. rewrite (proj2 (Z.leb_le _ _)), (proj2 (Z.leb_le _ _)) by (simpl; lia). cbn [andb].
    by rewrite Nat2Z.id, Htake. }
  unfold runInputBuffer_begin, runLoaded_begin, need_vm, nonnull, mbind, stM_bind, deref, buffer, lift, set_buffer, modify.
  rewrite Hx, Hbx. simpl. rewrite Hblk, Hlen, Hw. simpl. rewrite read_cstr_text by done. rewrite Hvm. simpl.
  destruct (compiles l); [|eauto]. cbn [progs with_bufs]. rewrite Hx. simpl. rewrite Hvm. eauto.
Qed.
End input.

(** C25: a text without NUL sent in any number of pieces, the last of them not a
    single character unless it is the only one, to a loaded program whose input
    buffer is empty is the text that [runInputBuffer] compiles: no write and no
    terminator leaves the buffer. *)
Theorem sent_text_runs `{Allocator} `{Machine} id w p x init s :
  _programForId id w = Ok (Some p, w) → progs w !! p = Some x →
  inputBuffer x = None → inputBufferLen x = 0%Z → vm x = true →
  init = [] ∨ length s ≠ 1 → Ascii.zero ∉ concat (init ++ [s]) →
  ∃ w' w'', run (send id (init ++ [s])) w = Ok w' ∧
            runInputBuffer_begin p w' = Ok (compiles (concat (init ++ [s])), w'').
Proof.
  intros Hf Hx Hb Hl Hvm Hs Hz. assert (Hin : input_is w p [] 0).
  { exists x. rewrite Hb. by split_and!. }
  destruct (send_spec id w p init [] 0 Hf Hin) as (w1 & cap1 & Hrun1 & Hs1 & Hin1 & Hcap).
  pose proof (programForId_names id w w1 _ Hs1 Hf) as Hf1.
  destruct (write_chunk id w1 p _ cap1 s [] Hf1 Hin1) as (w2 & Hw & Hs2 & cap2 & Hin2 & _ & Hroom).
  rewrite app_nil_r in Hw. pose proof (same_names_trans _ _ _ Hs1 Hs2) as (_ & _ & Hn).
  specialize (Hn p) as [_ Hvm2]. rewrite Hx in Hvm2. simpl in Hvm2. apply fmap_Some in Hvm2 as (x2 & Hx2 & Hvm2).
  assert (Hc : concat (init ++ [s]) = ([] ++ concat init) ++ s) by (rewrite concat_app; simpl; by rewrite app_nil_r).
  rewrite Hc in *. destruct (runInputBuffer_begin_spec w2 p _ cap2 x2 Hin2 Hx2) as [w3 Hbeg]; [congruence| |done|].
  { apply Hroom. destruct Hs as [->|?]; [left; auto|by right]. }
  exists w2, w3. split; [|done]. unfold send. rewrite fmap_app. simpl. change (fmap _ init) with (send id init).
  rewrite run_app, Hrun1. simpl. by apply run_write.
Qed.

Lemma sent_text_runs_witness :
  ∃ w w' w'', demo_run demo_start = Ok w ∧
    @run fresh_allocator demo_machine (send (Some demo_id) [chars "print("; chars "1);"]) w = Ok w' ∧
    @runInputBuffer_begin demo_machine 2 w' = Ok (true, w'').
Proof.
  assert (Hok : match demo_run demo_start with
    | Ok w => bool_decide (loadedPrograms w = Some 2%Z :: replicate 7 None) &&
              match progs w !! 2%Z with
              | Some x => bool_decide (name_of x = demo_id ∧ inputBuffer x = None ∧ inputBufferLen x = 0%Z ∧ vm x = true)
              | None => false end
    | Err _ => false end = true) by (vm_compute; reflexivity).
  destruct (demo_run demo_start) as [w|] eqn:Hw; [|done]. apply andb_true_iff in Hok as [Ht%bool_decide_eq_true Hok].
  destruct (progs w !! 2%Z) as [x|] eqn:Hx; [|done]. apply bool_decide_eq_true in Hok as (Hn & Hb & Hl & Hvm).
  assert (Hf : _programForId (Some demo_id) w = Ok (Some 2%Z, w)).
  { simpl. unfold mbind, stM_bind, gets. rewrite Ht. simpl. unfold mbind, stM_bind, deref. rewrite Hx, Hn.
    change (c_str demo_id) with demo_id. rewrite bool_decide_eq_true_2 by reflexivity. simpl. by rewrite Ht. }
  destruct (@sent_text_runs fresh_allocator demo_machine (Some demo_id) w 2 x [chars "print("] (chars "1);")
    Hf Hx Hb Hl Hvm) as (w' & w'' & Hrun & Hbeg); [right; discriminate|by_evaluation|].
  exists w, w', w''. split; [reflexivity|]. split; [exact Hrun|exact Hbeg].
Defined.
