(* ===== verification/AcornsConfig.v ===== *)
(** * The configuration of a device

    The configuration functions of acorns.cpp on the file /spiffs/config.ini:
    the native functions scripts use, those of the application, and how the
    clock and the radio are set up from it.

    A name with a dot stands for a section and a key.  What the calls of the
    time library and of the radio are given is the result of a function here;
    what these do with it is not modelled. *)

From Stdlib Require Import Ascii.
From stdpp Require Import base numbers gmap strings option list.
From S2P Require Import Prelude CType CBuffer MinIni MinIniSpec MinIniPut MinIniRound MinIniFile.

Open Scope Z_scope.

Definition cfg_inifile : list Z := codes "/spiffs/config.ini".

(** ** Names *)

Inductive config_name :=
  | Plain (key : list Z)
  | Dotted (section key : list Z)
  | SectionTooLong.

(** The part the functions have in common, with a buffer [char section[size]]. *)
Definition split_key (size : nat) (key : list Z) : res config_name :=
  match index_of (char_code ".") key with
  | None => Ok (Plain key)
  | Some x =>
      if decide (47 < x)%nat then Ok SectionTooLong
      else
        section ← store_all 0 (take (x + 1) key) (new_buffer size);
        section ← store x 0 section;
        section ← string_at section 0;
        Ok (Dotted section (drop (x + 1) key))
  end.

(** ** Reading, for the application *)

(** The names of [SQSharedState::_string_default_delegate_funcz]. *)
Definition string_delegate : list string :=
  ["len"; "tointeger"; "tofloat"; "tostring"; "slice"; "find"; "tolower"; "toupper"; "weakref"].

Section read.
Context (fs : filesystem).

(** [_Acorns::getConfig].  The key is on the top of the stack, so that [sq_get]
    with the index -1 looks it up in itself: only the functions of strings are
    found there.  These have no size ([sq_getsize] is [SQ_ERROR]) and are no
    strings, and [buf2] is not set. *)
Definition getConfig (key d : list Z) (buf : cbuf) (maxlen : Z) : res cbuf :=
  if bool_decide (key ∈ codes <$> string_delegate) && (-1 <? maxlen) then Err OutOfBounds
  else
    name ← split_key 64 key;
    '(buf, answered) ← match name with
      | Dotted section akey =>
          '(_, buf) ← ini_gets fs (Some section) (Some akey) (Some []) buf maxlen cfg_inifile;
          n ← strlen buf 0;
          Ok (buf, bool_decide (n = 0%nat))
      | _ => Ok (buf, false)
      end;
    if (answered : bool) then Ok buf
    else if Z.of_nat (length d) <? u32 maxlen then strcpy buf 0 d else Ok buf.

(** The overloaded one, with strings. *)
Definition getConfigString (key d : list Z) : res (list Z) :=
  buffer ← getConfig key d (new_buffer 128) 128;
  string_at buffer 0.

(** What [refreshConfig] gives to the time library. *)
Record clock_settings := mkClock { posix : list Z; interval : Z; server : list Z }.
Definition refreshConfig : res clock_settings :=
  tz ← getConfigString (codes "time.posixtz") (codes "PST8PDT,M3.2.0,M11.1.0");
  i ← getConfigString (codes "time.syncinterval") (codes "0");
  s ← getConfigString (codes "time.ntpserver") (codes "pool.ntp.org");
  Ok (mkClock tz (strtol i 10) s).

(** What [wifiConnect] does with the radio. *)
Inductive radio_call := WiFi_begin (ssid psk : list Z) | WiFi_softAP (ssid psk : list Z).
Definition wifiConnect : res (list radio_call) :=
  match fs !! cfg_inifile with
  | None => Ok []
  | Some _ =>
      ssid ← getConfig (codes "wifi.ssid") [] (new_buffer 65) 64;
      psk ← getConfig (codes "wifi.psk") [] (new_buffer 65) 64;
      wifimode ← getConfig (codes "wifi.mode") (codes "sta") (new_buffer 8) 8;
      mode ← string_at wifimode 0;
      name ← string_at ssid 0;
      word ← string_at psk 0;
      Ok ((if bool_decide (mode = codes "sta") && negb (bool_decide (name = [])) then [WiFi_begin name word] else []) ++
          (if bool_decide (mode = codes "ap") then [WiFi_softAP name word] else []))
  end.

(** ** Reading, for scripts *)

(** A value on the stack of a native function: a string, or something else with
    what [ToString] makes of it, if it does. *)
Inductive argument := AString (s : list Z) | AOther (text : option (list Z)).

(** What lies above the top of the stack is left from earlier calls. *)
Definition stack_at (stale : nat → argument) (stack : list argument) (i : nat) : argument :=
  default (stale i) (stack !! (i - 1)%nat).

Definition c_str (s : list Z) : res (list Z) := string_at (of_string s) 0.

Inductive native_result := Throws (msg : string) | Returns (v : option (list Z)).

Definition sqgetconfigfromini (stale : nat → argument) (stack : list argument) : res native_result :=
  match stack_at stale stack 2 with
  | AOther _ => Ok (Throws "Key must be str")
  | AString s =>
      key ← c_str s;
      name ← split_key 49 key;
      let answer (section key : list Z) : res native_result :=
        '(_, buf) ← ini_gets fs (Some section) (Some key) (Some []) (new_buffer 256) 256 cfg_inifile;
        v ← string_at buf 0;
        Ok (Returns (Some v)) in
      match name with
      | SectionTooLong => Ok (Throws "Section is too long(max 48 bytes)")
      | Dotted section key => answer section key
      | Plain key => answer [] key
      end
  end.
End read.

(** ** Writing *)

Section write.
Context (fopen_ok : list Z → bool).

(** The files, and what the time library was given, if it was. *)
Definition setConfig (strkey value : list Z) (fs : filesystem) : res (filesystem * option clock_settings) :=
  key ← c_str strkey;
  value ← c_str value;
  name ← split_key 49 key;
  match name with
  | SectionTooLong => Ok (fs, None)
  | Dotted section key =>
      '(_, fs) ← ini_puts fopen_ok cfg_inifile (Some section) (Some key) (Some value) fs;
      clock ← refreshConfig fs;
      Ok (fs, Some clock)
  | Plain key =>
      '(_, fs) ← ini_puts fopen_ok cfg_inifile (Some []) (Some key) (Some value) fs;
      clock ← refreshConfig fs;
      Ok (fs, Some clock)
  end.

(** [sq_tostring] pushes the string; the one that is read again is at the third
    place of the stack. *)
Definition sqwriteconfig (stale : nat → argument) (stack : list argument) (fs : filesystem) :
    res (native_result * filesystem * option clock_settings) :=
  match stack_at stale stack 2 with
  | AOther _ => Ok (Throws "Key must be str", fs, None)
  | AString s =>
      let write (v : list Z) : res (native_result * filesystem * option clock_settings) :=
        key ← c_str s;
        val ← c_str v;
        name ← split_key 49 key;
        match name with
        | SectionTooLong => Ok (Throws "Section is too long(max 48 bytes)", fs, None)
        | Dotted section key =>
            '(_, fs) ← ini_puts fopen_ok cfg_inifile (Some section) (Some key) (Some val) fs;
            Ok (Returns None, fs, None)
        | Plain key =>
            '(_, fs) ← ini_puts fopen_ok cfg_inifile (Some []) (Some key) (Some val) fs;
            clock ← refreshConfig fs;
            Ok (Returns None, fs, Some clock)
        end in
      match stack_at stale stack 3 with
      | AString v => write v
      | AOther None => Ok (Throws "Requires 2 args", fs, None)
      | AOther (Some t) =>
          match stack_at stale (stack ++ [AString t]) 3 with
          | AString v => write v
          | AOther _ => Err OutOfBounds
          end
      end
  end.
End write.

(** ** Names and strings *)

Definition config_parts (key : list Z) : list Z * list Z :=
  match index_of (char_code ".") key with None => ([], key) | Some x => (take x key, drop (x + 1) key) end.

(** A name whose section fits. *)
Definition short_section (key : list Z) : Prop := (length (config_parts key).1 ≤ 47)%nat.

Lemma index_of_lookup c s x : index_of c s = Some x → s !! x = Some c.
Proof.
  unfold index_of. destruct (list_find _ s) as [[i d]|] eqn:E; [|done]. intros [= <-]. apply list_find_Some in E as (E & -> & _). done.
Qed.

Lemma split_key_ok size key :
  (49 ≤ size)%nat → 0 ∉ key → short_section key →
  split_key size key = Ok (match index_of (char_code ".") key with None => Plain key | Some x => Dotted (take x key) (drop (x + 1) key) end).
Proof.
  intros Hsize H0. unfold short_section, config_parts, split_key. destruct (index_of _ key) as [x|] eqn:Ex; [|done].
  apply index_of_lookup, lookup_lt_Some in Ex. simpl. rewrite length_take. intros Hx. rewrite decide_False by lia.
  rewrite store_all_ok by (rewrite length_take; unfold new_buffer; rewrite length_replicate; lia). cbn [mbind res_bind].
  rewrite store_ok by (rewrite length_inserts; unfold new_buffer; rewrite length_replicate; lia). cbn [mbind res_bind].
  set (b := <[x := Some 0]> _). assert (string_at b 0 = Ok (take x key)) as ->; [|done].
  apply string_at_intro; [by apply not_in_take|]. intros i Hi. rewrite length_take in Hi. simpl. unfold b. destruct (decide (i = x)) as [->|Hne].
  - rewrite list_lookup_insert_eq by (rewrite length_inserts; unfold new_buffer; rewrite length_replicate; lia). by rewrite lookup_take_ge.
  - rewrite list_lookup_insert_ne by done.
    rewrite list_lookup_inserts by (rewrite ?length_fmap, ?length_take; unfold new_buffer; rewrite ?length_replicate; lia).
    rewrite list_lookup_fmap, Nat.sub_0_r, !lookup_take_lt by lia. destruct (lookup_lt_is_Some_2 key i ltac:(lia)) as [c ->]. done.
Qed.

Lemma c_str_ok s : 0 ∉ s → c_str s = Ok s.
Proof. apply string_at_of_string. Qed.

Lemma parts_no_zero key : 0 ∉ key → (0 ∉ (config_parts key).1) ∧ (0 ∉ (config_parts key).2).
Proof.
  intros H0. unfold config_parts. destruct (index_of _ key) as [x|]; simpl; [by split; [apply not_in_take|apply not_in_drop]|].
  split; [apply not_elem_of_nil|done].
Qed.

(** No function of strings has a dot in its name. *)
Lemma dotted_no_delegate key x : index_of (char_code ".") key = Some x → key ∉ codes <$> string_delegate.
Proof.
  intros Hx Hin. apply list_elem_of_fmap in Hin as (w & -> & Hw).
  assert (Forall (λ w, index_of (char_code ".") (codes w) = None) string_delegate) as Hall by by_evaluation.
  rewrite Forall_forall in Hall. by rewrite (Hall w Hw) in Hx.
Qed.

(** ** Reading *)

(** What the file has for a name. *)
Definition config_value (fs : filesystem) (key : list Z) : option (list Z) :=
  setting_of fs cfg_inifile (config_parts key).1 (config_parts key).2.

Lemma getConfig_ok fs key x d (buf : cbuf) (maxlen : Z) :
  index_of (char_code ".") key = Some x → 0 ∉ key → short_section key → (config_parts key).2 ≠ [] → 0 ∉ d →
  0 < maxlen < 2 ^ 31 → (Z.to_nat maxlen ≤ length buf)%nat →
  let v := take (Z.to_nat maxlen - 1) (default [] (config_value fs key)) in
  ∃ buf', getConfig fs key d buf maxlen = Ok buf' ∧
    string_at buf' 0 = Ok (if decide (v = []) then [] else if decide (Z.of_nat (length d) < maxlen) then d else v).
Proof.
  intros Hx H0 Hshort Hkey Hd Hn Hbuf v. subst v. unfold getConfig. rewrite bool_decide_eq_false_2 by by eapply dotted_no_delegate. cbn [andb].
  pose proof (parts_no_zero key H0) as [H1 H2]. rewrite split_key_ok by (done || lia). unfold config_value, config_parts in *. rewrite Hx in *. cbn [fst snd] in *. cbn [mbind res_bind].
  set (v := take _ (default [] _)).
  destruct (ini_gets_ok fs (Some (take x key)) (drop (x + 1) key) (Some []) buf maxlen cfg_inifile) as [-> Hs]; [done..|apply not_elem_of_nil|done|done|].
  cbn [default from_option id] in Hs |- *. fold v in Hs |- *. cbn [mbind res_bind]. rewrite (strlen_ok _ _ _ Hs). cbn [mbind res_bind].
  clearbody v. destruct (decide (v = [])) as [->|Hne]; [eexists; by split|].
  rewrite bool_decide_eq_false_2 by (by destruct v). rewrite u32_small by lia. destruct (decide _) as [Hlt|Hge].
  - rewrite (proj2 (Z.ltb_lt _ _)) by done. unfold strcpy. assert (length d + 1 ≤ length (stored v buf))%nat as Hfit by (unfold stored; rewrite length_inserts; lia).
    rewrite store_all_ok by (rewrite length_app; simpl; lia). eexists. split; [done|]. apply string_at_stored; [done|lia].
  - rewrite (proj2 (Z.ltb_ge _ _)) by lia. eexists. by split.
Qed.

Lemma sqgetconfigfromini_ok fs stale stack key :
  stack_at stale stack 2 = AString key → 0 ∉ key → short_section key → (config_parts key).2 ≠ [] →
  sqgetconfigfromini fs stale stack = Ok (Returns (Some (take 255 (default [] (config_value fs key))))).
Proof.
  intros Hst H0 Hshort Hkey. unfold sqgetconfigfromini. rewrite Hst, c_str_ok by done. cbn [mbind res_bind]. rewrite split_key_ok by (done || lia). cbn [mbind res_bind].
  pose proof (parts_no_zero key H0) as [H1 H2]. unfold config_value.
  destruct (ini_gets_ok fs (Some (config_parts key).1) (config_parts key).2 (Some []) (new_buffer 256) 256 cfg_inifile) as [E Hs]; [done..|apply not_elem_of_nil|done|simpl; lia|].
  change (Z.to_nat 256 - 1)%nat with 255%nat in *. cbn [default from_option id] in *.
  assert (∀ name, name = config_parts key → (let '(s, k) := name in
    '(_, buf) ← ini_gets fs (Some s) (Some k) (Some []) (new_buffer 256) 256 cfg_inifile; v ← string_at buf 0; Ok (Returns (Some v))) =
    Ok (Returns (Some (take 255 (default [] (setting_of fs cfg_inifile (config_parts key).1 (config_parts key).2)))))) as Hall.
  { intros [s k] En. rewrite <- En in *. cbn [fst snd] in *. rewrite E. cbn [mbind res_bind]. by rewrite Hs. }
  unfold config_parts in Hall at 1. destruct (index_of _ key) as [x|]; [apply (Hall (_, _) eq_refl)|apply (Hall ([], key) eq_refl)].
Qed.

Lemma refreshConfig_ok fs : ∃ clock, refreshConfig fs = Ok clock.
Proof.
  unfold refreshConfig, getConfigString.
  edestruct (getConfig_ok fs (codes "time.posixtz") 4 (codes "PST8PDT,M3.2.0,M11.1.0") (new_buffer 128) 128) as (b1 & -> & E1); [by_evaluation..|].
  cbn [mbind res_bind]. rewrite E1. cbn [mbind res_bind].
  edestruct (getConfig_ok fs (codes "time.syncinterval") 4 (codes "0") (new_buffer 128) 128) as (b2 & -> & E2); [by_evaluation..|].
  cbn [mbind res_bind]. rewrite E2. cbn [mbind res_bind].
  edestruct (getConfig_ok fs (codes "time.ntpserver") 4 (codes "pool.ntp.org") (new_buffer 128) 128) as (b3 & -> & E3); [by_evaluation..|].
  cbn [mbind res_bind]. rewrite E3. by eexists.
Qed.

(** ** Writing *)

(** A name and a value that can be written. *)
Record config_ok (key value : list Z) : Prop := {
  config_no_zero : 0 ∉ key;
  config_short : short_section key;
  config_section : section_ok (config_parts key).1;
  config_key : key_ok (config_parts key).2;
  config_val : value_ok value;
  config_fits : line_fits (config_parts key).2 value
}.

Section write_theorems.
Context (fopen_ok : list Z → bool) (Hfile : file_ok fopen_ok cfg_inifile).
Context (fs : filesystem) (H0 : 0 ∉ default [] (fs !! cfg_inifile)) (key value : list Z) (Hok : config_ok key value).

(** Where the values of names are after a setting was put. *)
Definition config_put (fs' : filesystem) : Prop :=
  others_kept cfg_inifile fs fs' ∧ (0 ∉ default [] (fs' !! cfg_inifile)) ∧
  ∀ key', config_value fs' key' =
    if decide (fold_case (config_parts key').1 = fold_case (config_parts key).1 ∧ fold_case (config_parts key').2 = fold_case (config_parts key).2)
    then Some value else config_value fs key'.

Lemma config_put_ok : ∃ fs', ini_puts fopen_ok cfg_inifile (Some (config_parts key).1) (Some (config_parts key).2) (Some value) fs = Ok (1, fs') ∧ config_put fs'.
Proof using Hfile H0 Hok.
  assert (∀ t, fs !! cfg_inifile = Some t → 0 ∉ t) as Htext by (intros t E; by rewrite E in H0).
  destruct (ini_puts_ok fopen_ok cfg_inifile fs Hfile Htext (Some (config_parts key).1) (config_parts key).2 value) as (fs' & text' & E & Et & Hz & Hk & Es); [apply Hok..|].
  exists fs'. split; [done|]. split; [done|]. rewrite Et. split; [done|]. intros key'. unfold config_value, setting_of. rewrite Et. simpl. by rewrite Es, lookup_put.
Qed.

Lemma setConfig_ok : ∃ fs' clock, setConfig fopen_ok key value fs = Ok (fs', Some clock) ∧ config_put fs'.
Proof using Hfile H0 Hok.
  destruct config_put_ok as (fs' & E & Hput). destruct (refreshConfig_ok fs') as [clock Ec]. exists fs', clock. split; [|done].
  unfold setConfig. rewrite !c_str_ok by apply Hok. cbn [mbind res_bind]. rewrite split_key_ok by (apply Hok || lia). cbn [mbind res_bind].
  unfold config_parts in E. destruct (index_of _ key); cbn [fst snd] in E; rewrite E; cbn [mbind res_bind]; by rewrite Ec.
Qed.

Lemma sqwriteconfig_ok stale stack :
  stack_at stale stack 2 = AString key → stack_at stale stack 3 = AString value →
  ∃ fs' clock, sqwriteconfig fopen_ok stale stack fs = Ok (Returns None, fs', clock) ∧ config_put fs'.
Proof using Hfile H0 Hok.
  intros H2 H3. destruct config_put_ok as (fs' & E & Hput). destruct (refreshConfig_ok fs') as [clock Ec]. exists fs'.
  exists (match index_of (char_code ".") key with Some _ => None | None => Some clock end). split; [|done].
  unfold sqwriteconfig. rewrite H2, H3, !c_str_ok by apply Hok. cbn [mbind res_bind]. rewrite split_key_ok by (apply Hok || lia). cbn [mbind res_bind].
  unfold config_parts in E. destruct (index_of _ key); cbn [fst snd] in E; rewrite E; cbn [mbind res_bind]; [done|by rewrite Ec].
Qed.
End write_theorems.

(** ** Sequences of writes *)

(** A setting written by the application, or by a script. *)
Inductive config_op := CSet (key value : list Z) | CWrite (key value : list Z).
Definition op_key (op : config_op) : list Z := match op with CSet k _ | CWrite k _ => k end.
Definition op_value (op : config_op) : list Z := match op with CSet _ v | CWrite _ v => v end.

Definition no_argument (i : nat) : argument := AOther None.
(** The stack of a native function called with some arguments. *)
Definition arguments (args : list (list Z)) : list argument := AOther None :: (AString <$> args).

Definition config_run (fopen_ok : list Z → bool) (op : config_op) (fs : filesystem) : res filesystem :=
  match op with
  | CSet k v => fst <$> setConfig fopen_ok k v fs
  | CWrite k v => (λ r, r.1.2) <$> sqwriteconfig fopen_ok no_argument (arguments [k; v]) fs
  end.
Fixpoint config_runs (fopen_ok : list Z → bool) (ops : list config_op) (fs : filesystem) : res filesystem :=
  match ops with [] => Ok fs | op :: ops' => fs ← config_run fopen_ok op fs; config_runs fopen_ok ops' fs end.

Definition same_setting (key key' : list Z) : Prop :=
  fold_case (config_parts key').1 = fold_case (config_parts key).1 ∧ fold_case (config_parts key').2 = fold_case (config_parts key).2.
(** The value a name has after some writes: the last one, or what it was. *)
Definition last_written (before : list Z → option (list Z)) (ops : list config_op) : list Z → option (list Z) :=
  foldl (λ values op key', if decide (same_setting (op_key op) key') then Some (op_value op) else values key') before ops.

Lemma config_run_ok fopen_ok fs op :
  file_ok fopen_ok cfg_inifile → 0 ∉ default [] (fs !! cfg_inifile) → config_ok (op_key op) (op_value op) →
  ∃ fs', config_run fopen_ok op fs = Ok fs' ∧ config_put fs (op_key op) (op_value op) fs'.
Proof.
  intros Hfile H0 Hok. destruct op as [k v|k v]; simpl in *.
  - destruct (setConfig_ok fopen_ok Hfile fs H0 k v Hok) as (fs' & clock & E & Hput). exists fs'. by rewrite E.
  - destruct (sqwriteconfig_ok fopen_ok Hfile fs H0 k v Hok no_argument (arguments [k; v])) as (fs' & clock & E & Hput); [done|done|]. exists fs'. by rewrite E.
Qed.

Lemma last_written_ext f g ops key : (∀ k, f k = g k) → last_written f ops key = last_written g ops key.
Proof.
  unfold last_written. revert f g. induction ops as [|op ops IH]; intros f g Hfg; simpl; [done|]. apply IH. intros k. by destruct (decide _).
Qed.

(** C22: The configuration is a map from names to values, in whatever order the
    application and the scripts write it: a script that asks for a name gets, as
    a string, the value written last under it, in any case of letters, or else
    what the file had at the beginning, or the empty string, cut to the 255
    characters of the buffer. All other files but the temporary one stay as they
    are. The values written are strings, and names and values are ones a
    configuration file can hold: no NUL and no newline, no equals sign, comment
    sign or bracket where they would be read as such, no white space at the
    ends, a section of at most 47 characters, lines that fit the buffer of the
    library. *)
Theorem config_reads_last_written fopen_ok fs ops :
  file_ok fopen_ok cfg_inifile → 0 ∉ default [] (fs !! cfg_inifile) → Forall (λ op, config_ok (op_key op) (op_value op)) ops →
  ∃ fs', config_runs fopen_ok ops fs = Ok fs' ∧ others_kept cfg_inifile fs fs' ∧
    ∀ key, 0 ∉ key → short_section key → (config_parts key).2 ≠ [] →
      sqgetconfigfromini fs' no_argument (arguments [key]) =
        Ok (Returns (Some (take 255 (default [] (last_written (config_value fs) ops key))))).
Proof.
  intros Hfile H0 Hops. cut (∃ fs', config_runs fopen_ok ops fs = Ok fs' ∧ others_kept cfg_inifile fs fs' ∧
    ∀ key, config_value fs' key = last_written (config_value fs) ops key).
  { intros (fs' & E & Hk & Hv). exists fs'. split; [done|]. split; [done|]. intros key ? ? ?. rewrite <- Hv. by apply sqgetconfigfromini_ok. }
  revert fs H0. induction Hops as [|op ops Hop _ IH]; intros fs H0; simpl; [by exists fs|].
  destruct (config_run_ok fopen_ok fs op Hfile H0 Hop) as (fs1 & -> & Hk1 & Hz1 & Hv1). cbn [mbind res_bind].
  destruct (IH fs1 Hz1) as (fs2 & E2 & Hk2 & Hv2). exists fs2. split; [done|]. split; [intros f Hf Hf'; by rewrite Hk2, Hk1|].
  intros key. rewrite Hv2. apply last_written_ext. apply Hv1.
Qed.


(** So the radio is never used: whatever the configuration file says,
    [wifiConnect] neither joins a network nor opens an access point. *)
Lemma wifi_never_connects fs : wifiConnect fs = Ok [].
Proof.
  unfold wifiConnect. destruct (fs !! cfg_inifile); [|done].
  edestruct (getConfig_ok fs (codes "wifi.ssid") 4 [] (new_buffer 65) 64) as (b1 & -> & E1); [by_evaluation..|].
  edestruct (getConfig_ok fs (codes "wifi.psk") 4 [] (new_buffer 65) 64) as (b2 & E2 & E2'); [by_evaluation..|].
  edestruct (getConfig_ok fs (codes "wifi.mode") 4 (codes "sta") (new_buffer 8) 8) as (b3 & E3 & E3'); [by_evaluation..|].
  cbn [mbind res_bind]. rewrite E2. cbn [mbind res_bind]. rewrite E3. cbn [mbind res_bind]. rewrite E3', E1, E2'. cbn [mbind res_bind].
  by repeat destruct (decide (_ = [])).
Qed.

(** ** Examples *)

Lemma config_file_ok : file_ok everything_opens cfg_inifile.
Proof. constructor; by_evaluation. Qed.

Global Instance config_ok_dec key value : Decision (config_ok key value).
Proof.
  refine (match decide ((0 ∉ key) ∧ (length (config_parts key).1 ≤ 47)%nat ∧ section_ok (config_parts key).1 ∧ key_ok (config_parts key).2 ∧
    value_ok value ∧ line_fits (config_parts key).2 value) with left H => left _ | right H => right _ end);
    [abstract (destruct_and!; by constructor)|abstract (intros []; tauto)].
Defined.

Definition demo_writes : list config_op :=
  [CSet (codes "wifi.ssid") (codes "home"); CWrite (codes "time.posixtz") (codes "CET-1CEST"); CWrite (codes "WiFi.SSID") (codes "garden"); CSet (codes "name") (codes "lamp")].

Lemma config_reads_last_written_witness : ∃ fs', config_runs everything_opens demo_writes ∅ = Ok fs' ∧
  sqgetconfigfromini fs' no_argument (arguments [codes "wifi.ssid"]) = Ok (Returns (Some (codes "garden"))).
Proof.
  destruct (config_reads_last_written everything_opens ∅ demo_writes config_file_ok) as (fs' & E & _ & H); [by_evaluation|by_evaluation|].
  exists fs'. split; [exact E|]. rewrite H by by_evaluation. vm_compute. reflexivity.
Defined.

Definition demo_config : filesystem := {[ cfg_inifile := codes "[wifi]" ++ [10] ++ codes "ssid=home" ]}.


(** A script that writes a number makes the interpreter follow a pointer that
    was never set, as does asking for a setting with the name of a function of
    strings, and a default that is too long is read from a buffer nothing was
    written to.  A name without a section is not looked up at all.  A time zone a
    script sets does not reach the clock, and one the application sets gives it
    the default zone and no server. *)
Lemma config_goes_wrong fs :
  sqwriteconfig everything_opens no_argument [AOther None; AString (codes "lamp.level"); AOther (Some (codes "5"))] fs = Err OutOfBounds ∧
  getConfig fs (codes "len") [] (new_buffer 128) 128 = Err OutOfBounds ∧
  getConfigString fs (codes "name") (replicate 128 97) = Err OutOfBounds ∧
  getConfigString fs (codes "name") (codes "none") = Ok (codes "none") ∧
  (∃ fs', sqwriteconfig everything_opens no_argument (arguments [codes "time.posixtz"; codes "CET-1CEST"]) ∅ = Ok (Returns None, fs', None) ∧
    setConfig everything_opens (codes "time.posixtz") (codes "CET-1CEST") ∅ = Ok (fs', Some (mkClock (codes "PST8PDT,M3.2.0,M11.1.0") 0 []))).
Proof.
  split_and!; try (vm_compute; reflexivity).
  pose (w := sqwriteconfig everything_opens no_argument (arguments [codes "time.posixtz"; codes "CET-1CEST"]) ∅).
  exists (match w with Ok (_, fs', _) => fs' | Err _ => ∅ end). split; vm_compute; reflexivity.
Qed.
